(* ===== verification/_CoqProject ===== *)
-Q . S2P
Prelude.v
Blocking.v
Handoff.v
Semphore.v
Poison.v
LockCore.v
Mutex.v
RwLock.v
Condvar.v
SyncFlag.v
AtomicDur.v
ListV1.v
Timer.v
Suspend.v
Park.v
NetIo.v
IoTimer.v
WinIo.v
ThreadIo.v
FdReg.v
Lifecycle.v
Local.v
Sleep.v
Fifo.v
Blocks.v
SpscQueue.v
SpscSolo.v
ListQueue.v
MpscQueue.v
SpscChan.v
Handles.v
Slot.v
MpmcChan.v
MpscChan.v
Join.v
Scoped.v
Cqueue.v
SpmcQueue.v
Scheduler.v
Monitor.v
Rendezvous.v
WinAddr.v
