(* ===== verification/Prelude.v ===== *)
(** * May: a verification development

    [may] is a library of stackful coroutines for Rust.  Coroutines run on worker
    threads; every blocking operation of the library suspends the coroutine
    instead of the thread, and works from plain threads as well.  This library
    models the parts of [may] that decide who runs, who waits and who is woken,
    and proves them correct under every interleaving of their atomic accesses.

    ** How the code is modelled

    A concurrent component is a record of its shared state and an executable
    [step : state -> event -> option state] (see "Labelled transition systems"
    below).  An event names the thread that moves and resolves each choice the
    code cannot make (does a [park] return because of a wake-up, a timeout or a
    cancellation, does a weak compare-exchange fail spuriously); one step is one
    access to shared memory, so a schedule is a list of events.  [None] means that
    the event is not enabled.  Program counters are inductive types whose
    constructors are the points of the code between two accesses; a thread may
    call the next operation after the last one returned.  There is no fuel: a
    run is as long as its schedule, and a theorem speaks of every reachable state,
    whatever the number of threads and of steps.  "At rest" in the liveness
    theorems means that no thread has a step left but the calls, timeouts and
    cancellations a caller decides on; such a theorem says that a sleeping thread
    then has a reason to sleep.

    Machine words are integers with their wrap-around ([Word]); where a counter
    could overflow the bound is a hypothesis of the theorem or proved.  Fields
    marked "history" are not in the code and no step reads them, except to stop a
    caller from doing what Rust's ownership forbids.  Memory is sequentially
    consistent: the orderings of the atomic accesses are not modelled.

    ** The parts

    - [Blocking] and [Handoff]: [src/sync/blocking.rs].  [ThreadPark] is the token
      parker of a thread; [SyncBlocker] is the one-shot blocker with the release
      flag that the synchronization primitives queue.  [Handoff] proves once that
      the protocol between a waiter that may leave and a granter that popped its
      blocker neither loses nor duplicates what is handed over.
    - [Semphore], [SyncFlag]: [src/sync/semphore.rs], [src/sync/sync_flag.rs].
    - [Poison], [LockCore], [Mutex], [RwLock], [Condvar]: [src/sync/poison.rs],
      [mutex.rs], [rwlock.rs], [condvar.rs].  [LockCore] is the hand-off lock that
      [Mutex] and the global lock of [RwLock] share; [RwLock] and [Condvar] are
      built from the machines of the locks they use, whose steps interleave with
      their own.
    - [Monitor], [Rendezvous]: [src/sync/barrier.rs], [src/sync/wait_group.rs].
      [Monitor] is the interface (a type class) of a type with a mutex and a
      condition variable, and states what the two promise; [Rendezvous] has the two
      instances.
    - [AtomicDur], [ListV1], [Timer]: [src/sync/atomic_dur.rs],
      [may_queue/src/mpsc_list_v1.rs], and [src/timeout_list.rs] over the list the
      former refines.
    - [Suspend], [Park]: a coroutine's suspension and resumption: [src/park.rs],
      [src/cancel.rs], [src/yield_now.rs], [src/sync/delay_drop.rs] and the
      handlers of [src/scheduler.rs].
    - [Sleep], [Lifecycle], [Local]: [src/sleep.rs]; the coroutine pool, spawning and
      destruction with the configuration they read ([src/pool.rs], [src/config.rs],
      [src/coroutine_impl.rs]); and coroutine-local storage ([src/local.rs]).
    - [NetIo]: the coroutine I/O of [src/io/sys/unix/], [src/net/] and
      [src/os/unix/net.rs], on top of [Suspend].  [IoTimer] adds what [NetIo] takes as
      atomic: the pointers between the timer list and the [EventData] of a socket
      ([src/io/sys/unix/mod.rs], [epoll.rs], [cancel.rs]).  [WinIo] is the coroutine
      I/O over completion ports ([src/io/sys/windows/]), [ThreadIo] the I/O of plain
      threads through a proxy coroutine ([src/io/thread.rs]), [FdReg] the registration of
      descriptors with epoll and the end of the objects that own them.
    - [Fifo], [Blocks], [SpscQueue], [MpscQueue]: the queues of [may_queue/], which
      are linearizable: what their clients see is what those of the atomic queue of
      [Fifo] see.  [SpscSolo] has whole calls of the consumer
      of the first and its [Drop]; [ListQueue] is the linked list of
      [may_queue/src/mpsc_list.rs]; [SpmcQueue] is the work-stealing queue of
      [may_queue/src/spmc.rs].
    - [Scheduler]: the worker loop of [src/scheduler.rs], [src/io/event_loop.rs] and
      [src/io/sys/unix/epoll.rs], over the lists that [MpscQueue] and [SpmcQueue] refine.
    - [Handles], [Slot]: counted handles (their invariant is shared by the
      channels), and the [AtomicOption] with the blocker of one waiter.
    - [SpscChan], [MpscChan], [MpmcChan]: the channels [src/sync/spsc.rs],
      [src/sync/mpsc.rs] and [src/sync/mpmc.rs], over [Fifo], and for the last one
      over the machine of the semaphore.
    - [Join], [Scoped], [Cqueue]: the end of a coroutine and those who wait for it:
      [src/join.rs] with the closures of [src/coroutine_impl.rs], [src/scoped.rs],
      [src/cqueue.rs].
    - [WinAddr]: what [src/io/sys/windows/miow.rs] computes: socket addresses,
      timeouts, results.

    Each file repeats the names of the code's functions in its definitions
    ([step_park], [step_wakeup_one], ...), and one definition follows one function.

    ** What the theorems show

    - No lost wake-up (liveness): [no_lost_wakeup], [lock_not_lost],
      [guard_behind_parked], [notify_all_wakes_all], [fire_wakes_all],
      [park_not_lost], [sleep_not_lost], [io_event_not_lost], [io_timer_armed],
      [win_io_served], [thread_io_not_lost], [timer_not_lost],
      [mpsc_waits_for_push], [sched_wakeup_not_lost], [join_not_lost],
      [cq_wakeup_not_lost], [barrier_not_lost], [wait_group_not_lost], and for the
      channels [sch_wakeup_not_lost], [mch_wakeup_not_lost], [mpmc_no_lost_value].
    - Exclusion and conservation (safety, invariants): [guard_exclusive],
      [readers_writer_exclusion], [permits_safe], [notify_one_conserved],
      [coroutine_one_place], [park_drop_safe], [fires_once_on_time],
      [spsc_memory_safe], [mpsc_memory_safe], [spmc_memory_safe],
      [list_memory_safe], [spmc_conserved],
      [sched_conserved], [sch_fifo], [mch_fifo], [mpmc_permit_has_item],
      [scope_waits], [cq_events_conserved], [cq_finished], [barrier_rendezvous],
      [wait_group_waits], [coroutine_recycled_once], [sleep_cancel_alive],
      [io_timer_own], [win_io_safe], [fd_registered],
      [local_init_once]; types: [local_type_safe].
    - Refinement: [spsc_refines_fifo], [mpsc_refines_fifo], [lq_refines_fifo],
      [list_refines], [thread_io_refines]; equivalence: [local_exec_equiv], [bulk_pop_equiv].
    - Function, bounds and round trips: [poison_only_real_panics],
      [wait_reacquires], [join_exact], [scope_propagates], [spmc_local_none],
      [timeout_not_lost], [timeout_deadline_bounds], [post_no_overflow], [pool_bounded],
      [spawn_stack_enough], [sockaddr_roundtrip]; termination: [spsc_wait_free],
      [collect_terminates], [spsc_drop_frees_all], [lq_drop_frees_all].
    - Behaviour that differs from what the code promises, each shown by a
      run: [try_read_poisoned_breaks_exclusion], [park_timeout_lost],
      [mpsc_len_use_after_free], [sch_timeout_false_disconnect],
      [mpmc_disconnect_lost], [join_waits_wrongly], [scope_cancelled_leaves_child],
      [cq_unsafe_drop], [cq_lost_after_panic], [spmc_claimed_ahead], [sched_timer_strands],
      [wg_cancelled_drop], [sleep_use_after_free], [sleep_cancel_missed],
      [local_nested_init_panics], [resized_stack_too_small], [zero_stack_size],
      [bulk_pop_partial], [scope_id_swapped], [dur2ms_infinite], [get_failure_is_ok],
      [io_stale_timer], [io_selector_panics], [io_fast_path_panics],
      [io_subscribe_use_after_free], [win_worker_panics], [win_split_use_after_free],
      [win_refused_use_after_free], [win_drop_order], [win_escape_use_after_free],
      [win_skipped_read], [tio_use_after_free], [tio_stale_result],
      [reg_alias_unregisters].

    ** Bounds

    The semaphore, and what is built on it, is proved in range while fewer than
    [isize::MAX] blockers were registered and permits given; a channel has fewer
    handles than [isize::MAX] because [Arc] aborts there.  The queues number their
    elements with natural numbers that the indices represent modulo the word; the
    work-stealing queue is modelled before its indices wrap.
    The I/O models have one coroutine at a time per I/O object, or one thread;
    [IoTimer], [WinIo], [ThreadIo] and [FdReg] exclude by name, in the hypothesis [regular] of
    their theorems, what the runs after the theorems show to be harmful.  The channel
    of [SpscChan] has one receiver, which is a coroutine or a thread for the whole
    run.  The fuel of [Sched.collect_loop] is three times the length of the queue,
    which [collect_terminates] proves enough; the loops that drain a queue in its
    [Drop] take their fuel as an argument, and [spsc_drop_frees_all] and
    [lq_drop_frees_all] give an amount that is enough.  The pool is proved bounded
    while its capacity plus twice the number of threads fits in a word.

    ** What is not modelled

    - Code outside the repository: the generators that run coroutines, crossbeam,
      parking_lot, the system.  [SegQueue] and [AtomicCell] are atomic, as they are
      documented to be; a system call is an input of the model.
    - A cancellation of the poller of a [Cqueue] inside the [join] of [check_panic]; two
      event sources of one coroutine that share the slot of its [Cancel] ([Suspend] has one).
    - [Drop] of the mpsc and work-stealing queues, and the formatting, conversion and
      iterator wrappers; the names and handles of coroutines.
    - kqueue, [co_io.rs] of Windows and the calls of [miow.rs]: kernel objects the
      source only calls; socket options and constructors, which only call the
      system; macros, examples and benchmarks. *)

From stdpp Require Import base numbers list gmap.
From Stdlib Require Import ZArith Lia.

#[global] Set Default Goal Selector "!".

(** ** Machine integers *)

Module Word.
Definition width : Z := 64.
Definition modulus : Z := 2 ^ width.
Definition usize_max : Z := modulus - 1.
Definition isize_max : Z := 2 ^ (width - 1) - 1.
Definition isize_min : Z := - 2 ^ (width - 1).

(** [wrap] is the result of [usize] wrapping arithmetic. *)
Definition wrap (z : Z) : Z := z mod modulus.
(** [wrap_i] is the result of [isize] wrapping arithmetic. *)
Definition wrap_i (z : Z) : Z := (z + 2 ^ (width - 1)) mod modulus - 2 ^ (width - 1).

Definition is_usize (z : Z) : Prop := (0 <= z <= usize_max)%Z.
Definition is_isize (z : Z) : Prop := (isize_min <= z <= isize_max)%Z.

Definition add (a b : Z) : Z := wrap (a + b).
Definition sub (a b : Z) : Z := wrap (a - b).

#[global] Instance is_usize_dec z : Decision (is_usize z).
Proof. unfold is_usize; apply _. Defined.
#[global] Instance is_isize_dec z : Decision (is_isize z).
Proof. unfold is_isize; apply _. Defined.

Lemma modulus_eq : modulus = 18446744073709551616%Z.
Proof. reflexivity. Qed.

Lemma wrap_range z : is_usize (wrap z).
Proof. unfold is_usize, usize_max, wrap. pose proof (Z.mod_pos_bound z modulus). rewrite modulus_eq in *. lia. Qed.

Lemma wrap_small z : is_usize z -> wrap z = z.
Proof. unfold is_usize, usize_max, wrap. intros; apply Z.mod_small; lia. Qed.

Lemma wrap_i_small z : is_isize z -> wrap_i z = z.
Proof.
  unfold is_isize, wrap_i, isize_min, isize_max.
  replace (2 ^ (width - 1))%Z with 9223372036854775808%Z by reflexivity.
  rewrite modulus_eq. intros. rewrite Z.mod_small; lia.
Qed.

Lemma wrap_idemp z : wrap (wrap z) = wrap z.
Proof. apply wrap_small, wrap_range. Qed.

Lemma wrap_add_l a b : wrap (wrap a + b) = wrap (a + b).
Proof. unfold wrap. apply Zplus_mod_idemp_l. Qed.

Lemma wrap_add_r a b : wrap (a + wrap b) = wrap (a + b).
Proof. unfold wrap. apply Zplus_mod_idemp_r. Qed.

Lemma wrap_sub_l a b : wrap (wrap a - b) = wrap (a - b).
Proof. unfold wrap. apply Zminus_mod_idemp_l. Qed.

Lemma wrap_sub_r a b : wrap (a - wrap b) = wrap (a - b).
Proof. unfold wrap. apply Zminus_mod_idemp_r. Qed.
End Word.

Create HintDb word.
#[export] Hint Resolve Word.wrap_range Word.wrap_small Word.wrap_i_small : word.
Create Rewrite HintDb word.
#[export] Hint Rewrite Word.wrap_idemp Word.wrap_add_l Word.wrap_add_r
  Word.wrap_sub_l Word.wrap_sub_r : word.

(** ** Integer sums over lists (one summand per thread, blocker, ...) *)

Section sum.
Context {A : Type}.
Implicit Types (f g : A -> Z) (l : list A).

Fixpoint zsum f l : Z :=
  match l with [] => 0%Z | x :: l' => (f x + zsum f l')%Z end.

Lemma zsum_app f l k : zsum f (l ++ k) = (zsum f l + zsum f k)%Z.
Proof. induction l; simpl; lia. Qed.

Lemma zsum_insert f l i x y :
  l !! i = Some x -> zsum f (<[i:=y]> l) = (zsum f l - f x + f y)%Z.
Proof.
  revert i; induction l as [|a l IH]; intros [|i] H; simplify_eq/=; try lia.
  rewrite (IH _ H). lia.
Qed.

Lemma zsum_nonneg f l : (forall x, 0 <= f x)%Z -> (0 <= zsum f l)%Z.
Proof. intros Hf; induction l as [|a l IH]; simpl; [lia|]. specialize (Hf a). lia. Qed.

Lemma zsum_lookup_le f l i x :
  (forall x, 0 <= f x)%Z -> l !! i = Some x -> (f x <= zsum f l)%Z.
Proof.
  intros Hf; revert i; induction l as [|a l IH]; intros [|i] H; simplify_eq/=.
  - pose proof (zsum_nonneg f l Hf). lia.
  - specialize (IH _ H). specialize (Hf a). lia.
Qed.

Lemma zsum_lookup2_le f l i j x y :
  (forall x, 0 <= f x)%Z -> i <> j -> l !! i = Some x -> l !! j = Some y ->
  (f x + f y <= zsum f l)%Z.
Proof.
  intros Hf; revert i j; induction l as [|a l IH]; intros [|i] [|j] Hne Hi Hj;
    simplify_eq/=; try lia.
  - pose proof (zsum_lookup_le f l j y Hf Hj). lia.
  - pose proof (zsum_lookup_le f l i x Hf Hi). lia.
  - assert (i <> j) by congruence. specialize (IH i j ltac:(done) Hi Hj). specialize (Hf a). lia.
Qed.

Lemma zsum_zero_lookup f l i x :
  (forall x, 0 <= f x)%Z -> zsum f l = 0%Z -> l !! i = Some x -> f x = 0%Z.
Proof.
  intros Hf H0 Hi. pose proof (zsum_lookup_le f l i x Hf Hi). specialize (Hf x). lia.
Qed.

Lemma zsum_all_zero f l : (forall i x, l !! i = Some x -> f x = 0%Z) -> zsum f l = 0%Z.
Proof.
  induction l as [|a l IH]; intros H; simpl; [done|].
  rewrite (H 0 a eq_refl), IH; [done|]. intros i x Hx. by apply (H (S i)).
Qed.

Lemma zsum_nonzero f l : zsum f l <> 0%Z -> exists i x, l !! i = Some x /\ f x <> 0%Z.
Proof.
  induction l as [|a l IH]; simpl; [done|]. intros H.
  destruct (decide (f a = 0%Z)) as [Ha|Ha]; [|by exists 0, a].
  destruct IH as (i & x & ? & ?); [lia|]. by exists (S i), x.
Qed.

Lemma zsum_delete f l i x : l !! i = Some x -> zsum f (delete i l) = (zsum f l - f x)%Z.
Proof. revert i; induction l as [|a l IH]; intros [|i] H; simplify_eq/=; [lia|]. rewrite (IH _ H). lia. Qed.

Lemma zsum_replicate f n x : zsum f (replicate n x) = (Z.of_nat n * f x)%Z.
Proof. induction n as [|n IH]; [done|]. cbn [replicate zsum]. rewrite IH. lia. Qed.

Lemma zsum_ext f g l : (forall x, f x = g x) -> zsum f l = zsum g l.
Proof. intros H; induction l as [|a l IH]; simpl; [done|]. rewrite H, IH. done. Qed.
End sum.

Lemma zsum_map {A B} (h : B -> A) (f : A -> Z) (l : list B) :
  zsum f (map h l) = zsum (fun b => f (h b)) l.
Proof. induction l as [|a l IH]; simpl; [done|]. by rewrite IH. Qed.

Lemma zsum_alter {A} (f : A -> Z) (g : A -> A) (l : list A) i x :
  l !! i = Some x -> zsum f (alter g i l) = (zsum f l - f x + f (g x))%Z.
Proof.
  revert i; induction l as [|a l IH]; intros [|i] H; simplify_eq/=; try lia.
  rewrite (IH _ H). lia.
Qed.

(** [b2z b] counts one when [b] holds. *)
Definition b2z (b : bool) : Z := if b then 1%Z else 0%Z.
Lemma b2z_nonneg b : (0 <= b2z b)%Z.
Proof. destruct b; simpl; lia. Qed.
Lemma b2z_le1 b : (b2z b <= 1)%Z.
Proof. destruct b; simpl; lia. Qed.

(** No other element of a list (no other thread of a pool) counts in [f] *)
Section alone.
Context {A : Type}.
Implicit Types (f : A -> Z) (l : list A).

Definition alone f (i : nat) l : Prop := forall j a, j <> i -> l !! j = Some a -> f a = 0%Z.

Lemma alone_of f i a l :
  (forall x, 0 <= f x <= 1)%Z -> (zsum f l <= 1)%Z -> l !! i = Some a -> f a = 1%Z -> alone f i l.
Proof.
  intros Hf Hz Hi Ha j b Hj Hb. pose proof (zsum_lookup2_le f l i j a b) as H.
  specialize (H ltac:(intros x; apply Hf) ltac:(congruence) Hi Hb). pose proof (Hf b). lia.
Qed.
Lemma alone_zero f i l : (forall x, 0 <= f x <= 1)%Z -> (zsum f l <= 0)%Z -> alone f i l.
Proof.
  intros Hf Hz j b _ Hb. pose proof (zsum_nonneg f l ltac:(intros x; apply Hf)).
  eapply zsum_zero_lookup; [intros x; apply Hf| |done]. lia.
Qed.
End alone.

(** ** An element changed in place *)
Lemma alter_self {A} (f : A -> A) (i : nat) (l : list A) x : l !! i = Some x -> f x = x -> alter f i l = l.
Proof.
  intros Hi Hf. apply list_eq. intros j. destruct (decide (i = j)) as [<-|Hne].
  - by rewrite list_lookup_alter_eq, Hi; simpl; rewrite Hf.
  - by rewrite list_lookup_alter_ne.
Qed.

Lemma last_alter {A} (f : A -> A) k (l : list A) :
  last (alter f k l) = if decide (S k = length l) then f <$> last l else last l.
Proof.
  rewrite !last_lookup, length_alter. case_decide as Hk.
  - rewrite <- Hk. simpl. apply list_lookup_alter_eq.
  - destruct l as [|o l]; [done|]. apply list_lookup_alter_ne. simpl in *. lia.
Qed.

(** ** Some element of a list (a thread of a pool) satisfies a test *)
Section has.
Context {A : Type}.
Implicit Types (P : A -> bool) (l : list A).

Definition has P l : Prop := exists t x, l !! t = Some x /\ P x = true.

Lemma has_insert_other P l t x y : has P l -> l !! t = Some x -> P x = false -> has P (<[t:=y]> l).
Proof.
  intros (i & z & Hz & HP) Ht Hx. exists i, z. split; [|done]. rewrite list_lookup_insert_ne; [done|].
  intros ->. congruence.
Qed.
Lemma has_insert_new P l t x y : l !! t = Some x -> P y = true -> has P (<[t:=y]> l).
Proof. intros Ht HP. exists t, y. split; [|done]. apply list_lookup_insert_eq. by eapply lookup_lt_Some. Qed.
Lemma has_insert_inv P l t y : has P (<[t:=y]> l) -> P y = true \/ has P l.
Proof.
  intros (i & z & Hz & HP). apply list_lookup_insert_Some in Hz as [(-> & -> & ?)|[? ?]]; [by left|].
  right. by exists i, z.
Qed.
(** A thread moves and stays within [P], or was not needed. *)
Lemma has_insert_keep P l t x y :
  has P l -> l !! t = Some x -> (P x = true -> P y = true) -> has P (<[t:=y]> l).
Proof.
  intros H Ht HP. destruct (P x) eqn:Hx; [by eapply has_insert_new; [|apply HP]|by eapply has_insert_other].
Qed.
Lemma has_mono P Q l : (forall x, P x = true -> Q x = true) -> has P l -> has Q l.
Proof. intros HPQ (t & x & ? & ?). exists t, x. auto. Qed.
End has.

(** ** Labelled transition systems

    A concurrent component is an executable step function
    [step : state -> event -> option state]: an event names the thread that
    moves and resolves every nondeterministic choice (does this [park] return
    because of a wake-up, a timeout or a cancellation?), and [None] means that
    the event is not enabled.  [run] executes a schedule, [reachable] is the
    set of states some schedule leads to. *)
Section lts.
Context {S E : Type} (step : S -> E -> option S).

Fixpoint run (es : list E) (s : S) : option S :=
  match es with
  | [] => Some s
  | e :: es' => match step s e with Some s' => run es' s' | None => None end
  end.

Inductive reachable (init : S) : S -> Prop :=
| reach_init : reachable init init
| reach_step s e s' : reachable init s -> step s e = Some s' -> reachable init s'.

Lemma reachable_ind_inv (I : S -> Prop) init :
  I init -> (forall s e s', I s -> step s e = Some s' -> I s') ->
  forall s, reachable init s -> I s.
Proof. intros H0 Hs s Hr. induction Hr; eauto. Qed.

Lemma run_app es1 es2 s s' :
  run es1 s = Some s' -> run (es1 ++ es2) s = run es2 s'.
Proof.
  revert s. induction es1 as [|e es IH]; intros s H; simplify_eq/=; [done|].
  destruct (step s e) as [s1|]; [eauto|done].
Qed.

Lemma run_snoc es e s s' :
  run (es ++ [e]) s = Some s' -> exists s1, run es s = Some s1 /\ step s1 e = Some s'.
Proof.
  revert s. induction es as [|e1 es IH]; intros s H; simpl in *.
  - exists s. by destruct (step s e).
  - destruct (step s e1) as [s1|]; [auto|done].
Qed.

(** What a run shows, when [vis] says what a step shows. *)
Fixpoint history_of {L} (vis : S -> E -> S -> list L) (es : list E) (s : S) : list L :=
  match es with
  | [] => []
  | e :: es' => match step s e with Some s' => vis s e s' ++ history_of vis es' s' | None => [] end
  end.

Lemma history_snoc {L} (vis : S -> E -> S -> list L) es e s s1 s' :
  run es s = Some s1 -> step s1 e = Some s' -> history_of vis (es ++ [e]) s = history_of vis es s ++ vis s1 e s'.
Proof.
  intros Hr Hs. revert s Hr. induction es as [|e1 es IH]; intros s Hr; simplify_eq/=.
  - by rewrite Hs, app_nil_r.
  - destruct (step s e1) as [s2|]; [|done]. by rewrite (IH _ Hr), app_assoc.
Qed.

Lemma run_reachable_from init es s s' :
  reachable init s -> run es s = Some s' -> reachable init s'.
Proof.
  revert s. induction es as [|e es IH]; intros s Hr H; simplify_eq/=; [done|].
  destruct (step s e) as [s1|] eqn:Hs; [|done]. eapply IH; [|done]. by eapply reach_step.
Qed.

Lemma run_reachable init es s : run es init = Some s -> reachable init s.
Proof. apply run_reachable_from, reach_init. Qed.

Lemma reachable_run init s : reachable init s -> exists es, run es init = Some s.
Proof.
  induction 1 as [|s e s' _ [es IH] Hs]; [by exists []|].
  exists (es ++ [e]). rewrite (run_app _ _ _ _ IH). simpl. by rewrite Hs.
Qed.
End lts.

(** ** Refinement between two transition systems

    [abs] maps concrete states to abstract ones; every concrete step is matched
    by zero or one abstract step. *)
Section refinement.
Context {S E A F : Type} (step : S -> E -> option S) (astep : A -> F -> option A).
Context (I : S -> Prop) (abs : S -> A).

Definition refines_step : Prop :=
  forall s e s', I s -> step s e = Some s' ->
    I s' /\ (abs s' = abs s \/ exists f, astep (abs s) f = Some (abs s')).

Lemma refines_reachable init s :
  refines_step -> I init -> reachable step init s ->
  I s /\ reachable astep (abs init) (abs s).
Proof.
  intros Href H0 Hr. induction Hr as [|s e s' _ [HI IH] Hs].
  - split; [done|constructor].
  - destruct (Href _ _ _ HI Hs) as [HI' [Heq|[f Hf]]]; split; try done.
    + by rewrite Heq.
    + by eapply reach_step.
Qed.
End refinement.

(** ** Tactics *)

(** Case analysis on every [match] of a hypothesis that says a step was taken. *)
Ltac step_cases H :=
  repeat (first [ discriminate H | progress simplify_eq/= | case_match ]);
  try discriminate H.

Ltac split_and_all := repeat match goal with H : _ /\ _ |- _ => destruct H end.

(** Rewrite the sums over an updated list into sums over the old one. *)
Ltac zsum_update :=
  repeat match goal with
  | H : ?l !! ?i = Some ?x |- context [zsum ?f (<[?i:=?y]> ?l)] =>
      rewrite (zsum_insert f l i x y H)
  | H : ?l !! ?i = Some ?x, H' : context [zsum ?f (<[?i:=?y]> ?l)] |- _ =>
      rewrite (zsum_insert f l i x y H) in H'
  end.

Lemma lookup_insert_list {A} (l : list A) i j x y :
  <[i:=x]> l !! j = Some y ->
  (i = j /\ y = x /\ i < length l) \/ (i <> j /\ l !! j = Some y).
Proof. rewrite list_lookup_insert_Some. intros [(-> & -> & ?)|[? ?]]; auto. Qed.

Lemma lookup_snoc_Some' {A} (l : list A) x i y :
  (l ++ [x]) !! i = Some y -> l !! i = Some y \/ (i = length l /\ y = x).
Proof. rewrite lookup_snoc_Some. intros [[_ ?]|[-> ->]]; auto. Qed.
