(* ===== verification/Blocking.v ===== *)
(** * Blocking: the parkers of [src/sync/blocking.rs] and the hand-off protocol

    [ThreadPark] is the token parker of an OS thread, [SyncBlocker] the one-shot
    blocker with the release hand-off.  The second half of the file is the proof
    library of that protocol: a pool of blockers with a FIFO of registered
    waiters, the roles threads play (waiter, granter), and the invariant every
    client (semaphore, mutex, rwlock, condition variable) reuses. *)

From stdpp Require Import base numbers list.
From Stdlib Require Import ZArith Lia.
From S2P Require Import Prelude.

Inductive ParkError := Canceled | Timeout.
#[global] Instance ParkError_eq_dec : EqDecision ParkError.
Proof. solve_decision. Defined.

(** ** [ThreadPark] *)
Module ThreadPark.
(** [lock: Mutex<usize>]: the token, 0 or 1. *)
Record t := Mk { lock : Z }.

Definition new : t := Mk 0.

(** What one iteration of the wait loop observes: the elapsed time read before
    waiting, whether [wait_for] reports a timeout, and the value the guard
    holds when the condition variable returns it (other threads may have
    called [unpark] meanwhile; spurious wake-ups leave it 0). *)
Record wake := Wake { elapsed : Z; timed_out : bool; guard_after : Z }.

Definition is_ok (r : option ParkError) : bool :=
  match r with None => true | Some _ => false end.

(** The [while] loop: consumes one observation per iteration and returns the
    result and the observations left; [None] when it is still blocked. *)
Fixpoint park_loop (dur : option Z) (guard : Z) (result : option ParkError)
    (ws : list wake) : option (option ParkError * list wake) :=
  if ((guard =? 0)%Z && is_ok result)%bool then
    match ws with
    | [] => None
    | w :: ws' =>
        match dur with
        | None => park_loop dur (guard_after w) result ws'
        | Some d =>
            if (d <=? elapsed w)%Z then park_loop dur guard (Some Timeout) ws'
            else park_loop dur (guard_after w)
                   (if timed_out w then Some Timeout else result) ws'
        end
    end
  else Some (result, ws).

(** [park_timeout]: the result ([None] is [Ok(())]), the parker after the call
    (the token is always cleared) and the unused observations. *)
Definition park_timeout (dur : option Z) (p : t) (ws : list wake)
    : option (option ParkError * t * list wake) :=
  match park_loop dur (lock p) None ws with
  | Some (r, rest) => Some (r, Mk 0, rest)
  | None => None
  end.

Definition unpark (p : t) : t := if (lock p =? 0)%Z then Mk 1 else p.

Lemma unpark_set p : (0 <= lock p)%Z -> lock (unpark p) <> 0%Z.
Proof. unfold unpark. destruct (Z.eqb_spec (lock p) 0); simpl; lia. Qed.

Lemma park_loop_err dur g e ws : park_loop dur g (Some e) ws = Some (Some e, ws).
Proof. destruct ws; simpl; by rewrite andb_false_r. Qed.

Lemma park_loop_ok_token dur g ws rest :
  park_loop dur g None ws = Some (None, rest) ->
  g <> 0%Z \/ exists w, w ∈ ws /\ guard_after w <> 0%Z.
Proof.
  revert g; induction ws as [|w ws IH]; intros g; simpl;
    destruct (Z.eqb_spec g 0); simpl; intros H; simplify_eq; auto.
  assert (Hrec : park_loop dur (guard_after w) None ws = Some (None, rest)).
  { destruct dur as [d|]; [|done].
    destruct (Z.leb_spec d (elapsed w)); [by rewrite park_loop_err in H|].
    destruct (timed_out w); [by rewrite park_loop_err in H|done]. }
  right. destruct (IH _ Hrec) as [?|(w' & ? & ?)];
    eauto using list_elem_of_here, list_elem_of_further.
Qed.

Lemma park_loop_err_timed dur g ws rest e :
  park_loop dur g None ws = Some (Some e, rest) ->
  e = Timeout /\ exists d, dur = Some d.
Proof.
  revert g; induction ws as [|w ws IH]; intros g; simpl;
    destruct (Z.eqb_spec g 0); simpl; intros H; simplify_eq; auto.
  destruct dur as [d|]; [|eauto].
  destruct (Z.leb_spec d (elapsed w)); [rewrite park_loop_err in H; simplify_eq; eauto|].
  destruct (timed_out w); [rewrite park_loop_err in H; simplify_eq; eauto|eauto].
Qed.

Lemma park_loop_token_first dur g ws :
  g <> 0%Z -> park_loop dur g None ws = Some (None, ws).
Proof. intros Hg. destruct ws; simpl; destruct (Z.eqb_spec g 0); done. Qed.
End ThreadPark.

(** ** [SyncBlocker] *)

(** [blocker] is the wake-up token of the underlying [Blocker]: [Park::state]
    for a coroutine, the [ThreadPark] token for a thread. *)
Record SyncBlocker := MkSB { unparked : bool; release : bool; blocker : bool }.

Definition sb_current : SyncBlocker := MkSB false false false.
Definition sb_is_unparked (b : SyncBlocker) : bool := unparked b.
Definition sb_set_release (b : SyncBlocker) : SyncBlocker := MkSB (unparked b) true (blocker b).
(** [take_release] swaps [false] in and returns the previous flag. *)
Definition sb_take_release (b : SyncBlocker) : bool * SyncBlocker :=
  (release b, MkSB (unparked b) false (blocker b)).
(** [unpark] is two atomic steps: the [unparked] store, then the wake-up. *)
Definition sb_store_unparked (b : SyncBlocker) : SyncBlocker := MkSB true (release b) (blocker b).
Definition sb_wake (b : SyncBlocker) : SyncBlocker := MkSB (unparked b) (release b) true.
(** [park] returns [Ok] by consuming the token; every return clears it. *)
Definition sb_park_ok (b : SyncBlocker) : option SyncBlocker :=
  if blocker b then Some (MkSB (unparked b) (release b) false) else None.
Definition sb_park_err (b : SyncBlocker) : SyncBlocker := MkSB (unparked b) (release b) false.
