(* ===== verification/Handoff.v ===== *)
(** * Handoff: the blocker pool and the invariant of the hand-off protocol

    Every primitive that queues [SyncBlocker]s (semaphore, mutex, rwlock,
    condition variable, sync flag) runs the same two-party protocol on each
    blocker: a waiter that may leave early, and a granter that popped the
    blocker.  This file models the pool of blockers with its FIFO, gives the
    atomic operations clients call, and proves once that every operation keeps
    the protocol invariant and moves a permit without duplicating or losing it. *)

From stdpp Require Import base numbers list.
From Stdlib Require Import ZArith Lia.
From S2P Require Import Prelude Blocking.

(** ** The pool

    [settled] is a history variable (not in the code, never read by a step): it
    records that the permit handed to the blocker has been consumed by exactly
    one side. *)
Record cell := Cell { sb : SyncBlocker; settled : bool }.
Record pool := Pool { cells : list cell; queue : list nat }.

Definition pool_new : pool := Pool [] [].

Definition on_cell (f : cell -> cell) (b : nat) (p : pool) : pool :=
  Pool (alter f b (cells p)) (queue p).
Definition on_sb (f : SyncBlocker -> SyncBlocker) : nat -> pool -> pool :=
  on_cell (fun c => Cell (f (sb c)) (settled c)).
Definition flag (f : SyncBlocker -> bool) (b : nat) (p : pool) : bool :=
  match cells p !! b with Some c => f (sb c) | None => false end.

(** [SyncBlocker::current()]: a fresh blocker, named by its index. *)
Definition pool_alloc (p : pool) : nat * pool :=
  (length (cells p), Pool (cells p ++ [Cell sb_current false]) (queue p)).
(** [to_wake.push] and [to_wake.pop]. *)
Definition pool_push (b : nat) (p : pool) : pool := Pool (cells p) (queue p ++ [b]).
Definition pool_pop (p : pool) : option (nat * pool) :=
  match queue p with [] => None | b :: q => Some (b, Pool (cells p) q) end.

Definition pool_unparked : nat -> pool -> bool := flag sb_is_unparked.
Definition pool_store_unparked : nat -> pool -> pool := on_sb sb_store_unparked.
Definition pool_wake : nat -> pool -> pool := on_sb sb_wake.
Definition pool_set_release : nat -> pool -> pool := on_sb sb_set_release.
Definition pool_park_err : nat -> pool -> pool := on_sb sb_park_err.
(** [take_release], by either side; taking a set flag settles the permit. *)
Definition pool_take_release (b : nat) (p : pool) : bool * pool :=
  (flag release b p,
   on_cell (fun c => Cell (sb_take_release (sb c)).2 (settled c || release (sb c))) b p).
Definition pool_settle : nat -> pool -> pool := on_cell (fun c => Cell (sb c) true).
Definition pool_can_wake : nat -> pool -> bool := flag blocker.
Definition pool_park_ok (b : nat) (p : pool) : pool :=
  on_cell (fun c => Cell (sb_park_err (sb c)) true) b p.

(** ** Roles *)

(** Where a thread stands as the waiter of a blocker. *)
Inductive wkind := KReg | KWait | KErr | KChecked | KReleased | KRecheck.
(** Where a thread stands as the granter of a popped blocker. *)
Inductive gkind := KStore | KWake | KTake.
#[global] Instance wkind_eq_dec : EqDecision wkind.
Proof. solve_decision. Defined.
#[global] Instance gkind_eq_dec : EqDecision gkind.
Proof. solve_decision. Defined.

Record role := Role { wrole : option (nat * wkind); grole : option (nat * gkind) }.

(** *** Finding the thread that plays a role on a blocker *)
Section at_.
Context {R K : Type} (f : R -> option (nat * K)).

Fixpoint at_ (rs : list R) (b : nat) : option K :=
  match rs with
  | [] => None
  | r :: rs' =>
      match f r with
      | Some (b', k) => if decide (b' = b) then Some k else at_ rs' b
      | None => at_ rs' b
      end
  end.

Definition uniq (rs : list R) : Prop :=
  forall i j ri rj b k k', rs !! i = Some ri -> rs !! j = Some rj ->
    f ri = Some (b, k) -> f rj = Some (b, k') -> i = j.

Lemma at_some rs b k : at_ rs b = Some k -> exists i r, rs !! i = Some r /\ f r = Some (b, k).
Proof.
  induction rs as [|r rs IH]; simpl; [done|].
  destruct (f r) as [[b' k']|] eqn:Hr; [case_decide; simplify_eq|].
  - intros; simplify_eq. by exists 0, r.
  - intros Hat. destruct (IH Hat) as (i & r' & ? & ?). by exists (S i), r'.
  - intros Hat. destruct (IH Hat) as (i & r' & ? & ?). by exists (S i), r'.
Qed.

Lemma at_none rs b i r k : at_ rs b = None -> rs !! i = Some r -> f r <> Some (b, k).
Proof.
  revert i; induction rs as [|r0 rs IH]; intros i; simpl; [done|].
  intros H Hi Hf. destruct i as [|i]; simplify_eq/=.
  - rewrite Hf in H. by case_decide.
  - destruct (f r0) as [[b' k']|]; [case_decide; [done|]|]; by eapply IH.
Qed.

Lemma at_lookup rs i r b k :
  uniq rs -> rs !! i = Some r -> f r = Some (b, k) -> at_ rs b = Some k.
Proof.
  intros Hu Hi Hf. destruct (at_ rs b) as [k'|] eqn:Hat.
  - apply at_some in Hat as (j & r' & Hj & Hf').
    assert (i = j) as -> by eauto. congruence.
  - exfalso. by eapply at_none.
Qed.

Lemma uniq_insert rs i r r' :
  uniq rs -> rs !! i = Some r ->
  (forall b k, f r' = Some (b, k) -> (exists k', f r = Some (b, k')) \/ at_ rs b = None) ->
  uniq (<[i:=r']> rs).
Proof.
  intros Hu Hi Hok x y rx ry b k k' Hx Hy Hfx Hfy.
  apply lookup_insert_list in Hx as [(-> & -> & _)|[Hne1 Hx]];
    apply lookup_insert_list in Hy as [(-> & -> & _)|[Hne2 Hy]]; [done| | |by eauto].
  - destruct (Hok _ _ Hfx) as [[k'' Hr]|Hn]; [by eapply Hu|]. by eapply at_none in Hfy.
  - destruct (Hok _ _ Hfy) as [[k'' Hr]|Hn]; [symmetry; by eapply Hu|]. by eapply at_none in Hfx.
Qed.

(** The role map after one thread changed roles. *)
Definition upd_at (r r' : R) (old : option K) (b : nat) : option K :=
  match f r' with
  | Some (b', k') => if decide (b' = b) then Some k' else
      match f r with Some (b'', _) => if decide (b'' = b) then None else old | None => old end
  | None => match f r with Some (b'', _) => if decide (b'' = b) then None else old | None => old end
  end.

Lemma at_insert_other rs i r r' b :
  rs !! i = Some r -> (forall k, f r <> Some (b, k)) -> (forall k, f r' <> Some (b, k)) ->
  at_ (<[i:=r']> rs) b = at_ rs b.
Proof.
  intros Hi Hr Hr'. revert i Hi; induction rs as [|r0 rs IH]; intros [|i] Hi; simplify_eq/=.
  - destruct (f r') as [[b1 k1]|] eqn:E1; [rewrite decide_False by (intros ->; by eapply Hr')|];
      (destruct (f r) as [[b2 k2]|] eqn:E2; [rewrite decide_False by (intros ->; by eapply Hr)|]); done.
  - rewrite (IH _ Hi). done.
Qed.

Lemma at_insert_gone rs i r r' b k :
  uniq rs -> rs !! i = Some r -> f r = Some (b, k) -> (forall k, f r' <> Some (b, k)) ->
  at_ (<[i:=r']> rs) b = None.
Proof.
  intros Hu Hi Hr Hr'. destruct (at_ (<[i:=r']> rs) b) as [k'|] eqn:Hat; [|done].
  apply at_some in Hat as (j & x & Hj & Hx).
  apply lookup_insert_list in Hj as [(-> & -> & _)|[Hne Hj]]; [by destruct (Hr' k')|].
  exfalso. apply Hne. by eapply Hu.
Qed.

Lemma at_insert rs i r r' b :
  uniq rs -> rs !! i = Some r ->
  (forall b k, f r' = Some (b, k) -> (exists k', f r = Some (b, k')) \/ at_ rs b = None) ->
  at_ (<[i:=r']> rs) b = upd_at r r' (at_ rs b) b.
Proof.
  intros Hu Hi Hok. pose proof (uniq_insert _ _ _ _ Hu Hi Hok) as Hu'.
  assert (Hlt : i < length rs) by (by eapply lookup_lt_Some).
  unfold upd_at.
  destruct (f r') as [[b' k']|] eqn:Hr'; [destruct (decide (b' = b)) as [->|]|].
  { eapply at_lookup; [done|by apply list_lookup_insert_eq|done]. }
  all: destruct (f r) as [[b'' k'']|] eqn:Hr; [destruct (decide (b'' = b)) as [->|]|].
  all: first [ eapply at_insert_gone; [done..|]; intros; congruence
             | eapply at_insert_other; [done|intros; congruence..] ].
Qed.
End at_.

(** ** The invariant

    [bok c w g q] says what one blocker may look like: its flags [c], the role
    [w] of its waiter, the role [g] of its granter and whether it is queued.
    With [bc] a granter may broadcast: it wakes the blockers it pops without
    looking at their release flags, so a waiter that has left may stay released
    for ever. *)
Section protocol.
Context {bc : bool}.

Definition is_some {A} (o : option A) : bool := match o with Some _ => true | None => false end.

Definition bok (c : cell) (w : option wkind) (g : option gkind) (q : bool) : bool :=
  let u := unparked (sb c) in let r := release (sb c) in
  let k := blocker (sb c) in let s := settled c in
  implb r (negb s) && implb s u && implb k u &&
  implb q (negb u && negb s && negb (is_some g)) &&
  match w with
  | None => s || r
  | Some KReg => negb q && negb (is_some g) && negb u && negb r && negb s
  | Some KWait => negb r && negb s &&
      implb u (k || match g with Some KWake => true | _ => false end)
  | Some KErr | Some KChecked => negb r && negb s
  | Some KReleased => eqb s (negb r)
  | Some KRecheck => u && eqb s (negb r)
  end &&
  match g with
  | Some KStore => negb u
  | Some KWake | Some KTake => u
  | None => true
  end &&
  implb (u && negb s && negb (is_some w))
    (match g with Some KWake | Some KTake => true | _ => false end || (bc && r)) &&
  match w with None | Some KReg => true
  | Some _ => u || q || match g with Some KStore => true | _ => false end end &&
  match w with None => s || q || is_some g || (bc && u && r) | _ => true end.

Record HI (rs : list role) (p : pool) : Prop := MkHI {
  hi_wuniq : uniq wrole rs;
  hi_guniq : uniq grole rs;
  hi_nodup : NoDup (queue p);
  hi_qlt : forall b, b ∈ queue p -> b < length (cells p);
  hi_wlt : forall t r b k, rs !! t = Some r -> wrole r = Some (b, k) -> b < length (cells p);
  hi_glt : forall t r b k, rs !! t = Some r -> grole r = Some (b, k) -> b < length (cells p);
  hi_cell : forall b c, cells p !! b = Some c ->
    bok c (at_ wrole rs b) (at_ grole rs b) (bool_decide (b ∈ queue p)) = true
}.

(** Permits in flight: held by a granter that has not stored [unparked] yet, or
    handed to a blocker and not settled. *)
Definition gtok (r : role) : Z :=
  match grole r with Some (_, KStore) => 1%Z | _ => 0%Z end.
Definition live (c : cell) : Z := b2z (unparked (sb c) && negb (settled c)).
Definition tok (rs : list role) (p : pool) : Z := (zsum gtok rs + zsum live (cells p))%Z.

(** ** The atomic actions of the protocol *)
Inductive act :=
  | APush | AQuit | AParkErr | AParkOk | ACheckTrue | ACheckFalse | AIgnore
  | ASetRelease | ARecheckFalse | ARecheckTrue | AWTake
  | APop | AStore | AWake | ATake | ALeave.

Definition perform (a : act) (r : role) (p : pool) : option (role * pool) :=
  let waiter k f :=
    match wrole r with
    | Some (b, k') => if decide (k' = k) then f b else None
    | None => None end in
  let granter k f :=
    match grole r with
    | Some (b, k') => if decide (k' = k) then f b else None
    | None => None end in
  let setw b k := Role (Some (b, k)) (grole r) in
  let endw := Role None (grole r) in
  match a with
  | APush => waiter KReg (fun b => Some (setw b KWait, pool_push b p))
  | AQuit => waiter KWait (fun b => Some (setw b KErr, p))
  | AParkErr => waiter KWait (fun b => Some (setw b KErr, pool_park_err b p))
  | AParkOk => waiter KWait (fun b =>
      if pool_can_wake b p then Some (endw, pool_park_ok b p) else None)
  | ACheckTrue => waiter KErr (fun b =>
      if pool_unparked b p then Some (endw, pool_settle b p) else None)
  | ACheckFalse => waiter KErr (fun b =>
      if pool_unparked b p then None else Some (setw b KChecked, p))
  | AIgnore => waiter KErr (fun b =>
      if pool_unparked b p then None else Some (setw b KWait, p))
  | ASetRelease => waiter KChecked (fun b => Some (setw b KReleased, pool_set_release b p))
  | ARecheckFalse => waiter KReleased (fun b =>
      if pool_unparked b p then None else Some (endw, p))
  | ARecheckTrue => waiter KReleased (fun b =>
      if pool_unparked b p then Some (setw b KRecheck, p) else None)
  | AWTake => waiter KRecheck (fun b => Some (endw, (pool_take_release b p).2))
  | APop =>
      match grole r, pool_pop p with
      | None, Some (b, p') => Some (Role (wrole r) (Some (b, KStore)), p')
      | _, _ => None
      end
  | AStore => granter KStore (fun b =>
      Some (Role (wrole r) (Some (b, KWake)), pool_store_unparked b p))
  | AWake => granter KWake (fun b => Some (Role (wrole r) (Some (b, KTake)), pool_wake b p))
  | ATake => granter KTake (fun b => Some (Role (wrole r) None, (pool_take_release b p).2))
  | ALeave => if bc then granter KTake (fun b => Some (Role (wrole r) None, p)) else None
  end.

(** How an action changes the number of permits in flight. *)
Definition delta (a : act) (r : role) (p : pool) : Z :=
  match a with
  | APop => 1
  | ATake => match grole r with Some (b, _) => - b2z (flag release b p) | None => 0 end
  | AWTake => match wrole r with Some (b, _) => - b2z (flag release b p) | None => 0 end
  | AParkOk | ACheckTrue => -1
  | _ => 0
  end%Z.

(** ** Every action preserves the invariant *)

Definition only_at (b0 : nat) {K} (o o' : option (nat * K)) : Prop :=
  forall b k, b <> b0 -> o = Some (b, k) <-> o' = Some (b, k).

Lemma upd_at_other {R K} (f : R -> option (nat * K)) r r' old b b0 :
  only_at b0 (f r) (f r') -> b <> b0 ->
  (forall k, f r = Some (b, k) -> old = Some k) ->
  upd_at f r r' old b = old.
Proof.
  intros Ho Hb Hold. unfold upd_at.
  destruct (f r') as [[b1 k1]|] eqn:E1; [case_decide; subst|].
  - symmetry. apply Hold. by apply Ho.
  - destruct (f r) as [[b2 k2]|] eqn:E2; [case_decide; subst|]; try done.
    assert (H' : Some (b1, k1) = Some (b, k2)) by (by apply Ho). simplify_eq.
  - destruct (f r) as [[b2 k2]|] eqn:E2; [case_decide; subst|]; try done.
    assert (H' : None = Some (b, k2)) by (by apply Ho). done.
Qed.

Definition fresh_at {K} (f : role -> option (nat * K)) rs r r' b0 : Prop :=
  forall k, f r' = Some (b0, k) -> (exists k', f r = Some (b0, k')) \/ at_ f rs b0 = None.

Lemma fresh_all {K} (f : role -> option (nat * K)) rs r r' b0 :
  only_at b0 (f r) (f r') -> fresh_at f rs r r' b0 ->
  forall b k, f r' = Some (b, k) -> (exists k', f r = Some (b, k')) \/ at_ f rs b = None.
Proof.
  intros Ho Hf b k Hr'. destruct (decide (b = b0)) as [->|Hne]; [by eapply Hf|].
  left. exists k. by apply Ho.
Qed.

Section update.
Context (rs : list role) (t : nat) (r r' : role) (p p' : pool) (b0 : nat) (c0' : cell).
Context (Hi : HI rs p) (Ht : rs !! t = Some r) (Hlt : b0 < length (cells p)).
Context (Hcells : cells p' = <[b0:=c0']> (cells p)).
Context (Hnd : NoDup (queue p')).
Context (Hq : forall b, b <> b0 -> b ∈ queue p' <-> b ∈ queue p).
Context (Hwo : only_at b0 (wrole r) (wrole r')) (Hgo : only_at b0 (grole r) (grole r')).
Context (Hwf : fresh_at wrole rs r r' b0) (Hgf : fresh_at grole rs r r' b0).

Lemma at_update {K} (f : role -> option (nat * K)) b :
  uniq f rs -> only_at b0 (f r) (f r') -> fresh_at f rs r r' b0 ->
  at_ f (<[t:=r']> rs) b = if decide (b = b0) then upd_at f r r' (at_ f rs b0) b0 else at_ f rs b.
Proof.
  intros Hu Ho Hf. erewrite at_insert; [|done..|by eapply fresh_all].
  case_decide as Hb; [by subst|]. eapply upd_at_other; [done..|].
  intros k Hr. by eapply at_lookup.
Qed.

Lemma HI_update :
  bok c0' (upd_at wrole r r' (at_ wrole rs b0) b0) (upd_at grole r r' (at_ grole rs b0) b0)
    (bool_decide (b0 ∈ queue p')) = true ->
  HI (<[t:=r']> rs) p'.
Proof.
  intros Hb. destruct Hi as [Hwu Hgu _ Hql Hwl Hgl Hc]. split.
  - eapply uniq_insert; eauto. by eapply fresh_all.
  - eapply uniq_insert; eauto. by eapply fresh_all.
  - done.
  - intros b Hin. rewrite Hcells, length_insert.
    destruct (decide (b = b0)) as [->|Hne]; [done|]. apply Hql. by apply Hq.
  - intros i x b k Hx Hk. rewrite Hcells, length_insert.
    apply lookup_insert_list in Hx as [(-> & -> & _)|[_ Hx]]; [|by eauto].
    destruct (decide (b = b0)) as [->|Hne]; [done|]. eapply Hwl; [done|]. by apply Hwo.
  - intros i x b k Hx Hk. rewrite Hcells, length_insert.
    apply lookup_insert_list in Hx as [(-> & -> & _)|[_ Hx]]; [|by eauto].
    destruct (decide (b = b0)) as [->|Hne]; [done|]. eapply Hgl; [done|]. by apply Hgo.
  - intros b c Hlk. rewrite !at_update by done. rewrite Hcells in Hlk.
    apply lookup_insert_list in Hlk as [(-> & -> & _)|[Hne Hlk]].
    + by rewrite !decide_True.
    + rewrite !decide_False by done.
      rewrite (bool_decide_ext _ (b ∈ queue p)) by (by apply Hq). by apply Hc.
Qed.
End update.

Lemma alter_as_insert {A} (f : A -> A) (l : list A) i x :
  l !! i = Some x -> alter f i l = <[i:=f x]> l.
Proof.
  revert i; induction l as [|a l IH]; intros [|i] H; simplify_eq/=; [done|].
  f_equal. by apply IH.
Qed.

Lemma only_at_keep {K} b0 (o : option (nat * K)) : only_at b0 o o.
Proof. done. Qed.
Lemma only_at_change {K} b0 (k k' : K) : only_at b0 (Some (b0, k)) (Some (b0, k')).
Proof. intros b k0 Hb. split; intros; congruence. Qed.
Lemma only_at_begin {K} b0 (k : K) : only_at b0 None (Some (b0, k)).
Proof. intros b k0 Hb. split; intros; congruence. Qed.
Lemma only_at_end {K} b0 (k : K) : only_at b0 (Some (b0, k)) None.
Proof. intros b k0 Hb. split; intros; congruence. Qed.
Lemma fresh_keep {K} (f : role -> option (nat * K)) rs r r' b0 :
  f r' = f r -> fresh_at f rs r r' b0.
Proof. intros H k Hk. left. exists k. congruence. Qed.
Lemma fresh_change {K} (f : role -> option (nat * K)) rs r r' b0 k :
  f r = Some (b0, k) -> fresh_at f rs r r' b0.
Proof. left. eauto. Qed.
Lemma fresh_end {K} (f : role -> option (nat * K)) rs r r' b0 :
  f r' = None -> fresh_at f rs r r' b0.
Proof. intros H k Hk. congruence. Qed.

Create HintDb handoff.
#[local] Hint Resolve only_at_keep only_at_change only_at_begin only_at_end
  fresh_keep fresh_change fresh_end : handoff.

(** Enumerate the flags and roles of one blocker and evaluate [bok]. *)
Ltac bok_cases :=
  repeat match goal with H : bok _ _ _ _ = true |- _ => revert H end;
  unfold bok; try match goal with H : bc = _ |- _ => rewrite H end;
  generalize bc as broadcast; intros;
  repeat match goal with
  | c : cell |- _ => destruct c as [[[] [] []] []]
  | x : option wkind |- _ => destruct x as [[]|]
  | x : option gkind |- _ => destruct x as [[]|]
  | x : bool |- _ => lazymatch x with bc => fail | _ => destruct x end
  end; simpl in *; first [done | congruence | auto].

Section perform.
Context (rs : list role) (t : nat) (p : pool) (Hi : HI rs p).

Lemma waiter_cell r b k :
  rs !! t = Some r -> wrole r = Some (b, k) ->
  exists c, cells p !! b = Some c /\ b < length (cells p) /\ at_ wrole rs b = Some k /\
    bok c (Some k) (at_ grole rs b) (bool_decide (b ∈ queue p)) = true.
Proof.
  intros Ht Hr. assert (Hlt : b < length (cells p)) by (by eapply hi_wlt).
  destruct (lookup_lt_is_Some_2 _ _ Hlt) as [c Hc]. exists c. split_and!; [done..| |].
  - eapply at_lookup; [by eapply hi_wuniq|done..].
  - pose proof (hi_cell _ _ Hi _ _ Hc) as Hb. by rewrite (at_lookup wrole _ _ _ _ _ (hi_wuniq _ _ Hi) Ht Hr) in Hb.
Qed.

Lemma granter_cell r b k :
  rs !! t = Some r -> grole r = Some (b, k) ->
  exists c, cells p !! b = Some c /\ b < length (cells p) /\ at_ grole rs b = Some k /\
    bok c (at_ wrole rs b) (Some k) (bool_decide (b ∈ queue p)) = true.
Proof.
  intros Ht Hr. assert (Hlt : b < length (cells p)) by (by eapply hi_glt).
  destruct (lookup_lt_is_Some_2 _ _ Hlt) as [c Hc]. exists c. split_and!; [done..| |].
  - eapply at_lookup; [by eapply hi_guniq|done..].
  - pose proof (hi_cell _ _ Hi _ _ Hc) as Hb. by rewrite (at_lookup grole _ _ _ _ _ (hi_guniq _ _ Hi) Ht Hr) in Hb.
Qed.

(** The actions that leave the queue alone: one lemma for the waiter's side and
    one for the granter's. *)
Lemma HI_waiter r b k w' c c' p' :
  rs !! t = Some r -> wrole r = Some (b, k) -> cells p !! b = Some c ->
  (w' = None \/ exists k', w' = Some (b, k')) ->
  cells p' = <[b:=c']> (cells p) -> queue p' = queue p ->
  (forall g q, bok c (Some k) g q = true -> bok c' (snd <$> w') g q = true) ->
  HI (<[t:=Role w' (grole r)]> rs) p'.
Proof.
  intros Ht Hr Hc Hw Hcells Hq Hb.
  destruct (waiter_cell r b k Ht Hr) as (c1 & Hc1 & Hlt & Hat & Hbok). simplify_eq.
  apply (HI_update rs t r _ p p' b c'); [done..| | | | | | |]; simpl.
  - rewrite Hq. by eapply hi_nodup.
  - intros. by rewrite Hq.
  - rewrite Hr. destruct Hw as [->|[k' ->]]; auto with handoff.
  - auto with handoff.
  - by eapply fresh_change.
  - by apply fresh_keep.
  - rewrite Hq. unfold upd_at; simpl. rewrite Hr.
    destruct Hw as [->|[k' ->]]; simpl in *; rewrite decide_True by done;
      destruct (grole r) as [[b' kg]|] eqn:Hg; try (by apply Hb);
      repeat case_decide; subst; try (by apply Hb);
      rewrite (at_lookup grole _ _ _ _ _ (hi_guniq _ _ Hi) Ht Hg) in Hbok; by apply Hb.
Qed.

Lemma HI_granter r b k g' c c' p' :
  rs !! t = Some r -> grole r = Some (b, k) -> cells p !! b = Some c ->
  (g' = None \/ exists k', g' = Some (b, k')) ->
  cells p' = <[b:=c']> (cells p) -> queue p' = queue p ->
  (forall w q, bok c w (Some k) q = true -> bok c' w (snd <$> g') q = true) ->
  HI (<[t:=Role (wrole r) g']> rs) p'.
Proof.
  intros Ht Hr Hc Hw Hcells Hq Hb.
  destruct (granter_cell r b k Ht Hr) as (c1 & Hc1 & Hlt & Hat & Hbok). simplify_eq.
  apply (HI_update rs t r _ p p' b c'); [done..| | | | | | |]; simpl.
  - rewrite Hq. by eapply hi_nodup.
  - intros. by rewrite Hq.
  - auto with handoff.
  - rewrite Hr. destruct Hw as [->|[k' ->]]; auto with handoff.
  - by apply fresh_keep.
  - by eapply fresh_change.
  - rewrite Hq. unfold upd_at; simpl. rewrite Hr.
    destruct Hw as [->|[k' ->]]; simpl in *; rewrite decide_True by done;
      destruct (wrole r) as [[b' kw]|] eqn:Hg; try (by apply Hb);
      repeat case_decide; subst; try (by apply Hb);
      rewrite (at_lookup wrole _ _ _ _ _ (hi_wuniq _ _ Hi) Ht Hg) in Hbok; by apply Hb.
Qed.
End perform.

(** *** Permits in flight *)

Lemma live_nonneg c : (0 <= live c)%Z.
Proof. apply b2z_nonneg. Qed.
Lemma gtok_nonneg r : (0 <= gtok r)%Z.
Proof. unfold gtok. destruct (grole r) as [[? []]|]; lia. Qed.
#[local] Hint Resolve live_nonneg gtok_nonneg : handoff.

Lemma tok_nonneg rs p : (0 <= tok rs p)%Z.
Proof. unfold tok. pose proof (zsum_nonneg gtok rs gtok_nonneg). pose proof (zsum_nonneg live (cells p) live_nonneg). lia. Qed.

Lemma tok_insert rs t r r' p p' :
  rs !! t = Some r ->
  tok (<[t:=r']> rs) p' = (tok rs p + (gtok r' - gtok r) + (zsum live (cells p') - zsum live (cells p)))%Z.
Proof. intros Ht. unfold tok. rewrite (zsum_insert gtok _ _ _ _ Ht). lia. Qed.

Lemma HI_pop rs t r p b q :
  HI rs p -> rs !! t = Some r -> queue p = b :: q -> grole r = None ->
  HI (<[t:=Role (wrole r) (Some (b, KStore))]> rs) (Pool (cells p) q).
Proof.
  intros Hi Ht Hq Hg. pose proof (hi_nodup _ _ Hi) as Hnd. rewrite Hq in Hnd.
  apply NoDup_cons in Hnd as [Hnotin Hnd].
  assert (Hlt : b < length (cells p)).
  { eapply hi_qlt; [done|]. rewrite Hq. by left. }
  destruct (lookup_lt_is_Some_2 _ _ Hlt) as [c Hc].
  pose proof (hi_cell _ _ Hi _ _ Hc) as Hb.
  rewrite bool_decide_eq_true_2 in Hb by (rewrite Hq; by left).
  assert (Hgn : at_ grole rs b = None).
  { destruct (at_ grole rs b) as [k|]; [|done]. revert Hb.
    generalize (at_ wrole rs b); intros. exfalso. bok_cases. }
  rewrite Hgn in Hb.
  apply (HI_update rs t r _ p _ b c); [done..| | | | | | | |]; simpl.
  - by rewrite list_insert_id.
  - done.
  - intros b' Hne. rewrite Hq, elem_of_cons. split; [by right|by intros [?|?]].
  - auto with handoff.
  - rewrite Hg. auto with handoff.
  - by apply fresh_keep.
  - by right.
  - rewrite bool_decide_eq_false_2 by done. unfold upd_at; simpl. rewrite decide_True by done.
    destruct (wrole r) as [[b' kw]|] eqn:Hw; repeat case_decide; subst;
      try rewrite (at_lookup wrole _ _ _ _ _ (hi_wuniq _ _ Hi) Ht Hw) in Hb;
      revert Hb; try generalize (at_ wrole rs b); intros; clear -Hb; bok_cases.
Qed.

Lemma HI_push rs t r p b :
  HI rs p -> rs !! t = Some r -> wrole r = Some (b, KReg) ->
  HI (<[t:=Role (Some (b, KWait)) (grole r)]> rs) (pool_push b p).
Proof.
  intros Hi Ht Hw. destruct (waiter_cell _ _ _ Hi _ _ _ Ht Hw) as (c & Hc & Hlt & Hat & Hb).
  assert (Hnotin : b ∉ queue p).
  { intros Hin. rewrite bool_decide_eq_true_2 in Hb by done. revert Hb.
    generalize (at_ grole rs b); intros. bok_cases. }
  rewrite bool_decide_eq_false_2 in Hb by done.
  apply (HI_update rs t r _ p _ b c); [done..| | | | | | | |]; simpl.
  - by rewrite list_insert_id.
  - apply NoDup_app. split_and!; [by eapply hi_nodup| |by apply NoDup_singleton].
    intros x Hx ->%list_elem_of_singleton. done.
  - intros b' Hne. rewrite elem_of_app, list_elem_of_singleton. split; [by intros [?|?]|by left].
  - rewrite Hw. auto with handoff.
  - auto with handoff.
  - by eapply fresh_change.
  - by apply fresh_keep.
  - rewrite bool_decide_eq_true_2 by (rewrite elem_of_app, list_elem_of_singleton; by right).
    unfold upd_at; simpl. rewrite decide_True by done.
    destruct (grole r) as [[b' kg]|] eqn:Hg; repeat case_decide; subst;
      try rewrite (at_lookup grole _ _ _ _ _ (hi_guniq _ _ Hi) Ht Hg) in Hb;
      revert Hb; try generalize (at_ grole rs b); intros; clear -Hb; bok_cases.
Qed.

(** ** The main lemma: one action of one thread *)
Lemma perform_HI rs t r p a r' p' :
  HI rs p -> rs !! t = Some r -> perform a r p = Some (r', p') -> HI (<[t:=r']> rs) p'.
Proof.
  intros Hi Ht Ha.
  destruct a; simpl in Ha; unfold pool_can_wake, pool_unparked, flag, pool_pop in Ha;
    repeat (case_match; try discriminate Ha); simplify_eq/=.
  all: try (by eapply HI_push).
  all: try (by eapply HI_pop).
  all: match goal with
  | Hw : wrole ?r0 = Some (?b, ?k), Ht : _ !! _ = Some ?r0 |- _ =>
      destruct (waiter_cell _ _ _ Hi _ _ _ Ht Hw) as (c' & Hc & Hlt & Hat & Hb);
      eapply (HI_waiter _ _ _ Hi _ _ _ _ c' _ _ Ht Hw Hc)
  | Hw : grole ?r0 = Some (?b, ?k), Ht : _ !! _ = Some ?r0 |- _ =>
      destruct (granter_cell _ _ _ Hi _ _ _ Ht Hw) as (c' & Hc & Hlt & Hat & Hb);
      eapply (HI_granter _ _ _ Hi _ _ _ _ c' _ _ Ht Hw Hc)
  end;
  [ first [by left | right; by eexists]
  | first [by rewrite list_insert_id | by apply alter_as_insert]
  | done
  | intros; simplify_eq/=; bok_cases ].
Qed.

Lemma perform_tok rs t r p a r' p' :
  HI rs p -> rs !! t = Some r -> perform a r p = Some (r', p') ->
  tok (<[t:=r']> rs) p' = (tok rs p + delta a r p)%Z.
Proof.
  intros Hi Ht Ha. rewrite (tok_insert _ _ _ _ p p' Ht).
  destruct a; simpl in Ha; unfold pool_can_wake, pool_unparked, flag, pool_pop in Ha;
    repeat (case_match; try discriminate Ha); simplify_eq/=.
  all: try match goal with
  | Hw : wrole ?r0 = Some (?b, ?k), Ht : _ !! _ = Some ?r0 |- _ =>
      destruct (waiter_cell _ _ _ Hi _ _ _ Ht Hw) as (c' & Hc & Hlt & Hat & Hb)
  | Hw : grole ?r0 = Some (?b, ?k), Ht : _ !! _ = Some ?r0 |- _ =>
      destruct (granter_cell _ _ _ Hi _ _ _ Ht Hw) as (c' & Hc & Hlt & Hat & Hb)
  end; simplify_eq/=.
  all: unfold gtok, flag; simpl.
  all: try match goal with Hc : cells ?p !! ?b = Some _ |- context [zsum live (alter _ _ _)] =>
    rewrite (zsum_alter live _ _ _ _ Hc) end.
  all: repeat match goal with
    | H : wrole _ = _ |- _ => rewrite H
    | H : grole _ = _ |- _ => rewrite H
    | H : cells _ !! _ = _ |- context [cells _ !! _] => rewrite H
    end; try lia.
  all: match goal with Hb : bok ?c ?w ?g ?q = true |- _ =>
    revert Hb; generalize q; try generalize (at_ wrole rs); try generalize (at_ grole rs);
    intros; repeat match goal with f : nat -> option _ |- _ => destruct (f _) as [[]|] end;
    destruct c as [[[] [] []] []]; match goal with b : bool |- _ => destruct b end;
    first [discriminate Hb | unfold live, b2z; simpl; lia | exfalso; simpl in *; congruence] end.
Qed.

Theorem perform_ok rs t r p a r' p' :
  HI rs p -> rs !! t = Some r -> perform a r p = Some (r', p') ->
  HI (<[t:=r']> rs) p' /\ tok (<[t:=r']> rs) p' = (tok rs p + delta a r p)%Z.
Proof. split; [by eapply perform_HI | by eapply perform_tok]. Qed.

(** A fresh blocker. *)
Lemma alloc_ok rs t r p :
  HI rs p -> rs !! t = Some r -> wrole r = None ->
  let '(b, p') := pool_alloc p in
  let r' := Role (Some (b, KReg)) (grole r) in
  HI (<[t:=r']> rs) p' /\ tok (<[t:=r']> rs) p' = tok rs p.
Proof.
  intros Hi Ht Hw. simpl. set (b := length (cells p)).
  assert (Hwn : at_ wrole rs b = None).
  { destruct (at_ wrole rs b) eqn:E; [|done]. apply at_some in E as (i & x & Hx & Hk).
    pose proof (hi_wlt _ _ Hi _ _ _ _ Hx Hk). unfold b in *. lia. }
  assert (Hgn : at_ grole rs b = None).
  { destruct (at_ grole rs b) eqn:E; [|done]. apply at_some in E as (i & x & Hx & Hk).
    pose proof (hi_glt _ _ Hi _ _ _ _ Hx Hk). unfold b in *. lia. }
  assert (Hqn : b ∉ queue p).
  { intros Hin. pose proof (hi_qlt _ _ Hi _ Hin). unfold b in *. lia. }
  split.
  - assert (Hi' : HI rs (Pool (cells p ++ [Cell (MkSB false true false) false]) (queue p ++ [b]))).
    { destruct Hi as [Hwu Hgu Hnd Hql Hwl Hgl Hc]. split; simpl; try done.
      - apply NoDup_app. split_and!; [done| |by apply NoDup_singleton].
        intros x Hx ->%list_elem_of_singleton. done.
      - intros x. rewrite elem_of_app, list_elem_of_singleton, length_app; simpl.
        intros [Hx| ->]; [apply Hql in Hx|]; unfold b; lia.
      - intros i x b' k Hx Hk. rewrite length_app; simpl. specialize (Hwl _ _ _ _ Hx Hk). lia.
      - intros i x b' k Hx Hk. rewrite length_app; simpl. specialize (Hgl _ _ _ _ Hx Hk). lia.
      - intros b' c Hlk. apply lookup_snoc_Some' in Hlk as [Hlk|[-> ->]].
        + rewrite (bool_decide_ext _ (b' ∈ queue p)); [by apply Hc|].
          apply lookup_lt_Some in Hlk. rewrite elem_of_app, list_elem_of_singleton.
          split; [intros [?| ->]; [done|]|by left]. unfold b in *. lia.
        + fold b. rewrite Hwn, Hgn, bool_decide_eq_true_2 by (rewrite elem_of_app, list_elem_of_singleton; by right).
          done. }
    assert (Hlk : (cells p ++ [Cell (MkSB false true false) false]) !! b = Some (Cell (MkSB false true false) false)).
    { apply lookup_snoc_Some. by right. }
    eapply (HI_update rs t r _ _ _ b (Cell sb_current false) Hi' Ht); simpl.
    + rewrite length_app; simpl; unfold b; lia.
    + rewrite insert_app_r_alt by (unfold b; lia). unfold b. by rewrite Nat.sub_diag.
    + by eapply hi_nodup.
    + intros b' Hne. rewrite elem_of_app, list_elem_of_singleton. split; [by left|by intros [?|?]].
    + rewrite Hw. auto with handoff.
    + auto with handoff.
    + by right.
    + by apply fresh_keep.
    + rewrite bool_decide_eq_false_2 by done. unfold upd_at; simpl. rewrite decide_True by done.
      rewrite Hgn. destruct (grole r) as [[b' k]|] eqn:Hg; repeat case_decide; try done.
      pose proof (hi_glt _ _ Hi _ _ _ _ Ht Hg). unfold b in *. lia.
  - unfold tok. rewrite (zsum_insert gtok _ _ _ _ Ht). simpl. rewrite zsum_app.
    unfold gtok; simpl. unfold live, b2z; simpl. lia.
Qed.

Lemma init_ok n r : wrole r = None -> grole r = None ->
  HI (replicate n r) pool_new /\ tok (replicate n r) pool_new = 0%Z.
Proof.
  intros Hw Hg. split.
  - split; simpl.
    + intros i j ri rj b k k' Hi. apply lookup_replicate in Hi as [-> _]. congruence.
    + intros i j ri rj b k k' Hi. apply lookup_replicate in Hi as [-> _]. congruence.
    + by apply NoDup_nil.
    + intros b Hb. by apply not_elem_of_nil in Hb.
    + intros i x b k Hi. apply lookup_replicate in Hi as [-> _]. congruence.
    + intros i x b k Hi. apply lookup_replicate in Hi as [-> _]. congruence.
    + done.
  - unfold tok. simpl. rewrite zsum_replicate. unfold gtok. rewrite Hg. lia.
Qed.

Lemma queue_le_cells rs p : HI rs p -> length (queue p) <= length (cells p).
Proof.
  intros Hi. rewrite <- (length_seq (length (cells p)) 0).
  apply submseteq_length, NoDup_submseteq; [by eapply hi_nodup|].
  intros b Hb. apply elem_of_seq. pose proof (hi_qlt _ _ Hi b Hb). lia.
Qed.

(** ** Interface for clients

    A client machine keeps a list of program counters and a map [role_of] from
    program counters to roles; its steps are one of: keep the role, allocate a
    blocker, or perform an action. *)
Section client.
Context {PC : Type} (role_of : PC -> role).
#[local] Abbreviation roles pcs := (role_of <$> pcs).

Lemma client_keep pcs t x y p :
  HI (roles pcs) p -> pcs !! t = Some x -> role_of y = role_of x ->
  HI (roles (<[t:=y]> pcs)) p /\ tok (roles (<[t:=y]> pcs)) p = (tok (roles pcs) p + 0)%Z.
Proof.
  intros Hi Ht Hr. rewrite list_fmap_insert, Hr, list_insert_id; [split; [done|lia]|].
  by rewrite list_lookup_fmap, Ht.
Qed.

Lemma client_alloc pcs t x y p :
  HI (roles pcs) p -> pcs !! t = Some x -> wrole (role_of x) = None ->
  role_of y = Role (Some (length (cells p), KReg)) (grole (role_of x)) ->
  HI (roles (<[t:=y]> pcs)) (pool_alloc p).2 /\
  tok (roles (<[t:=y]> pcs)) (pool_alloc p).2 = (tok (roles pcs) p + 0)%Z.
Proof.
  intros Hi Ht Hw Hr. rewrite list_fmap_insert, Hr.
  destruct (alloc_ok _ t _ _ Hi (list_lookup_fmap_Some_2 role_of pcs t x Ht) Hw) as [? ?].
  split; [done|]. simpl in *. lia.
Qed.

Lemma client_act a pcs t x y p p' :
  HI (roles pcs) p -> pcs !! t = Some x -> perform a (role_of x) p = Some (role_of y, p') ->
  HI (roles (<[t:=y]> pcs)) p' /\
  tok (roles (<[t:=y]> pcs)) p' = (tok (roles pcs) p + delta a (role_of x) p)%Z.
Proof.
  intros Hi Ht Ha. rewrite list_fmap_insert. eapply perform_ok; [done| |done].
  by rewrite list_lookup_fmap, Ht.
Qed.

(** What a thread can observe about the blocker it waits on. *)
Lemma client_waiter pcs t x p b k :
  HI (roles pcs) p -> pcs !! t = Some x -> wrole (role_of x) = Some (b, k) ->
  exists c g q, cells p !! b = Some c /\ bok c (Some k) g q = true /\
    (q = true <-> b ∈ queue p) /\ (forall k', g = Some k' ->
      exists i y, pcs !! i = Some y /\ grole (role_of y) = Some (b, k')).
Proof.
  intros Hi Ht Hr.
  destruct (waiter_cell _ t _ Hi (role_of x) b k) as (c & Hc & _ & _ & Hb); [|done|].
  { by rewrite list_lookup_fmap, Ht. }
  eexists c, _, _. split_and!; [done..|apply bool_decide_eq_true|].
  intros k' Hat. apply at_some in Hat as (i & r & Hi' & Hr').
  rewrite list_lookup_fmap in Hi'. destruct (pcs !! i) as [y|] eqn:Hy; simplify_eq/=. eauto.
Qed.

(** Threads at rest: no granter is at work, and a waiter is either away or
    parked on a blocker whose wake-up token is not set. *)
Definition role_rests (p : pool) (r : role) : Prop :=
  grole r = None /\
  match wrole r with
  | None => True
  | Some (b, KWait) => pool_can_wake b p = false
  | Some _ => False
  end.

(** Then no permit is in flight and every parked waiter is still queued. *)
Lemma rest_spec pcs p :
  HI (roles pcs) p -> (forall t x, pcs !! t = Some x -> role_rests p (role_of x)) ->
  (bc = false -> tok (roles pcs) p = 0%Z) /\
  forall t x b k, pcs !! t = Some x -> wrole (role_of x) = Some (b, k) -> b ∈ queue p.
Proof.
  intros Hi Hrest.
  assert (Hg : forall b, at_ grole (roles pcs) b = None).
  { intros b. destruct (at_ grole (roles pcs) b) as [k|] eqn:Hat; [|done].
    apply at_some in Hat as (i & r & Hr & Hk). rewrite list_lookup_fmap in Hr.
    destruct (pcs !! i) as [x|] eqn:Hx; simplify_eq/=. destruct (Hrest _ _ Hx). congruence. }
  assert (Hw : forall b k, at_ wrole (roles pcs) b = Some k -> k = KWait /\ pool_can_wake b p = false).
  { intros b k Hat. apply at_some in Hat as (i & r & Hr & Hk). rewrite list_lookup_fmap in Hr.
    destruct (pcs !! i) as [x|] eqn:Hx; simplify_eq/=. destruct (Hrest _ _ Hx) as [_ H].
    rewrite Hk in H. by destruct k. }
  split.
  - intros Hbc. unfold tok. rewrite zsum_all_zero, zsum_all_zero; [done| |].
    + intros b c Hc. pose proof (hi_cell _ _ Hi _ _ Hc) as Hb. unfold bok in Hb. rewrite Hg, Hbc in Hb.
      destruct (at_ wrole (roles pcs) b) as [k|] eqn:Hat.
      * destruct (Hw _ _ Hat) as [-> Hk]. unfold pool_can_wake, flag in Hk. rewrite Hc in Hk.
        revert Hb. generalize (bool_decide (b ∈ queue p)).
        destruct c as [[[] [] []] []], b0; intros Hb; first [done|discriminate Hb].
      * revert Hb. generalize (bool_decide (b ∈ queue p)).
        destruct c as [[[] [] []] []], b0; intros Hb; first [done|discriminate Hb].
    + intros i r Hr. rewrite list_lookup_fmap in Hr.
      destruct (pcs !! i) as [x|] eqn:Hx; simplify_eq/=. destruct (Hrest _ _ Hx) as [H _].
      unfold gtok. by rewrite H.
  - intros t x b k Ht Hr.
    assert (Hat : at_ wrole (roles pcs) b = Some k).
    { eapply at_lookup; [by eapply hi_wuniq| |done]. by rewrite list_lookup_fmap, Ht. }
    destruct (Hw _ _ Hat) as [-> Hk].
    destruct (client_waiter _ _ _ _ _ _ Hi Ht Hr) as (c & g & q & Hc & Hb & Hq & Hgr).
    destruct g as [k'|].
    { destruct (Hgr _ eq_refl) as (i & y & Hy & Hk'). destruct (Hrest _ _ Hy). congruence. }
    apply Hq. unfold pool_can_wake, flag in Hk. rewrite Hc in Hk.
    destruct c as [[[] [] []] []], q; first [done|discriminate Hb|discriminate Hk].
Qed.
End client.

End protocol.
Arguments HI bc rs p : clear implicits.

(** Expose the cells and the queue behind the pool operations. *)
Ltac pool_unfold :=
  unfold pool_take_release, pool_store_unparked, pool_wake, pool_set_release, pool_park_err,
    pool_settle, pool_park_ok, pool_push, pool_alloc, on_sb, on_cell in *; simpl in *.

(** Find the action (or the absence of one) that explains a client step. *)
Ltac role_act role_of a Hi Ht :=
  eapply (client_act role_of a _ _ _ _ _ _ Hi Ht); unfold perform, pool_pop; simpl;
  repeat match goal with H : ?b = ?v |- context [?b] =>
    match v with true => idtac | false => idtac | Some _ => idtac | _ :: _ => idtac end; rewrite H end;
  reflexivity.
Ltac role_step role_of Hi Ht :=
  first
  [ apply (client_keep role_of _ _ _ _ _ Hi Ht); reflexivity
  | apply (client_alloc role_of _ _ _ _ _ Hi Ht); reflexivity
  | role_act role_of APush Hi Ht | role_act role_of APop Hi Ht
  | role_act role_of AStore Hi Ht | role_act role_of AWake Hi Ht | role_act role_of ATake Hi Ht
  | role_act role_of AQuit Hi Ht | role_act role_of AParkErr Hi Ht | role_act role_of AParkOk Hi Ht
  | role_act role_of ACheckTrue Hi Ht | role_act role_of ACheckFalse Hi Ht
  | role_act role_of AIgnore Hi Ht | role_act role_of ASetRelease Hi Ht
  | role_act role_of ARecheckFalse Hi Ht | role_act role_of ARecheckTrue Hi Ht
  | role_act role_of AWTake Hi Ht | role_act role_of ALeave Hi Ht ].
