(* ===== verification/Semphore.v ===== *)
(** * Semphore: [src/sync/semphore.rs] as an interleaving machine

    Every atomic access of the source is one step, every thread has a program
    counter, and a schedule interleaves the steps of any number of threads. *)

From stdpp Require Import base numbers list.
From Stdlib Require Import ZArith Lia.
From S2P Require Import Prelude Blocking Handoff.

Module Sem.

(** The context of one wait: [timed] when a duration was given (a park may then
    time out), [stoppable] when called with a real [stop] predicate
    ([wait_timeout_until]); [wait_timeout_impl] passes [|| false]. *)
Record ctx := Ctx { timed : bool; stoppable : bool }.

(** Who runs [try_wait]: the fast path of a wait, or the public call. *)
Inductive tk := TWait (w : ctx) | TTry.

(** Where [wakeup_one] and [post] return to: the registration of a waiter, the
    public [post], or the [post] of a leaving waiter that was granted a permit. *)
Inductive rk := RkSub (w : ctx) (b : nat) | RkPost | RkErr (e : ParkError).

Inductive outcome := OAcquired | OStopped | OTimeout | OCanceled | OTrue | OFalse | OPosted.

Inductive pc :=
  | Idle
  (* try_wait *)
  | TLoad (k : tk) | TCas (k : tk) (c : Z)
  (* wait_timeout_until *)
  | WNew (w : ctx) | WPush (w : ctx) (b : nat) | WSub (w : ctx) (b : nat)
  | WStop (w : ctx) (b : nat)
  | WStopCheck (b : nat) | WStopSet (b : nat) | WStopRecheck (b : nat) | WStopTake (b : nat)
  | WPark (w : ctx) (b : nat)
  | WErrCheck (e : ParkError) (b : nat) | WErrSet (e : ParkError) (b : nat)
  | WErrRecheck (e : ParkError) (b : nat) | WErrTake (e : ParkError) (b : nat)
  (* wakeup_one *)
  | KPop (k : rk) | KStoreUnparked (k : rk) (b : nat) | KUnpark (k : rk) (b : nat)
  | KTakeRelease (k : rk) (b : nat) | KForward (k : rk)
  (* post *)
  | PLoad (k : rk) | PCas (k : rk) (c : Z)
  | Done (o : outcome) | PanicOverflow | PanicNull.

Inductive op := OpWait (dur : bool) | OpWaitUntil (dur : bool) | OpTryWait | OpPost.

(** [given] and [acquired] are history variables: initial permits plus completed
    posts, and permits consumed by successful waits. *)
Record state := St { cnt : Z; pl : pool; pcs : list pc; given : Z; acquired : Z }.

(** [Semphore::new(init)] with [n] threads that have not called it yet. *)
Definition new (init : Z) (n : nat) : option state :=
  if (init <? Word.isize_max)%Z then Some (St init pool_new (replicate n Idle) init 0) else None.

Inductive event :=
  | Call (t : nat) (o : op)           (* an idle thread calls an operation *)
  | Tick (t : nat)                    (* the next atomic step *)
  | Stop (t : nat) (v : bool)         (* [stop()] returns [v] *)
  | Park (t : nat) (r : option ParkError) (* [park] returns [Ok] or an error *)
  | Spurious (t : nat)                (* [compare_exchange_weak] fails spuriously *)
  | Return (t : nat).                 (* the caller takes the result *)

(** The result of [err == ParkError::Canceled] after the hand-off. *)
Definition err_outcome (e : ParkError) : outcome :=
  match e with Canceled => OCanceled | Timeout => OTimeout end.

Definition after_post (k : rk) : pc :=
  match k with
  | RkSub w b => WStop w b
  | RkPost => Done OPosted
  | RkErr e => Done (err_outcome e)
  end.

Definition set_pc (t : nat) (x : pc) (s : state) : state :=
  St (cnt s) (pl s) (<[t:=x]> (pcs s)) (given s) (acquired s).
Definition set_pl (p : pool) (s : state) : state :=
  St (cnt s) p (pcs s) (given s) (acquired s).
Definition set_cnt (c : Z) (s : state) : state :=
  St c (pl s) (pcs s) (given s) (acquired s).
Definition add_given (s : state) : state :=
  St (cnt s) (pl s) (pcs s) (given s + 1) (acquired s).
Definition add_acquired (s : state) : state :=
  St (cnt s) (pl s) (pcs s) (given s) (acquired s + 1).

(** Beginning of an operation. *)
Definition start (o : op) : pc :=
  match o with
  | OpWait d => TLoad (TWait (Ctx d false))
  | OpWaitUntil d => TLoad (TWait (Ctx d true))
  | OpTryWait => TLoad TTry
  | OpPost => PLoad RkPost
  end.

(** [try_wait]: load, then a strong compare-exchange loop while positive. *)
Definition try_wait_fail (k : tk) : pc :=
  match k with TWait w => WNew w | TTry => Done OFalse end.
Definition try_wait_ok (k : tk) : pc :=
  match k with TWait _ => Done OAcquired | TTry => Done OTrue end.
Definition try_wait_test (k : tk) (c : Z) : pc :=
  if (0 <? c)%Z then TCas k c else try_wait_fail k.

Definition step_try_wait (t : nat) (x : pc) (s : state) : option state :=
  match x with
  | TLoad k => Some (set_pc t (try_wait_test k (cnt s)) s)
  | TCas k c =>
      if (cnt s =? c)%Z
      then Some (add_acquired (set_pc t (try_wait_ok k) (set_cnt (c - 1) s)))
      else Some (set_pc t (try_wait_test k (cnt s)) s)
  | _ => None
  end.

(** [wakeup_one]: pop a blocker (an empty queue is the [expect] panic), unpark
    it, and if its waiter has left return the permit, going on only while
    waiters remain. *)
Definition step_wakeup_one (t : nat) (x : pc) (s : state) : option state :=
  match x with
  | KPop k =>
      match pool_pop (pl s) with
      | None => Some (set_pc t PanicNull s)
      | Some (b, p') => Some (set_pc t (KStoreUnparked k b) (set_pl p' s))
      end
  | KStoreUnparked k b => Some (set_pc t (KUnpark k b) (set_pl (pool_store_unparked b (pl s)) s))
  | KUnpark k b => Some (set_pc t (KTakeRelease k b) (set_pl (pool_wake b (pl s)) s))
  | KTakeRelease k b =>
      let '(r, p') := pool_take_release b (pl s) in
      Some (set_pc t (if r then KForward k else after_post k) (set_pl p' s))
  | KForward k =>
      Some (set_pc t (if (0 <=? cnt s)%Z then after_post k else KPop k)
              (set_cnt (Word.wrap_i (cnt s + 1)) s))
  | _ => None
  end.

(** [post]: the compare-exchange loop with the overflow assertion. *)
Definition step_post (t : nat) (x : pc) (s : state) : option state :=
  match x with
  | PLoad k =>
      Some (set_pc t (if (cnt s <? Word.isize_max)%Z then PCas k (cnt s) else PanicOverflow) s)
  | PCas k c =>
      if (cnt s =? c)%Z then
        let s' := set_pc t (if (c <? 0)%Z then KPop k else after_post k) (set_cnt (c + 1) s) in
        Some (match k with RkPost => add_given s' | _ => s' end)
      else Some (set_pc t (PLoad k) s)
  | _ => None
  end.

(** [wait_timeout_until] after the fast path. *)
Definition step_wait (t : nat) (x : pc) (s : state) : option state :=
  match x with
  | WNew w => let '(b, p') := pool_alloc (pl s) in Some (set_pc t (WPush w b) (set_pl p' s))
  | WPush w b => Some (set_pc t (WSub w b) (set_pl (pool_push b (pl s)) s))
  | WSub w b =>
      Some (set_pc t (if (0 <? cnt s)%Z then KPop (RkSub w b) else WStop w b)
              (set_cnt (Word.wrap_i (cnt s - 1)) s))
  | WStopCheck b =>
      if pool_unparked b (pl s)
      then Some (add_acquired (set_pc t (Done OAcquired) (set_pl (pool_settle b (pl s)) s)))
      else Some (set_pc t (WStopSet b) s)
  | WStopSet b => Some (set_pc t (WStopRecheck b) (set_pl (pool_set_release b (pl s)) s))
  | WStopRecheck b =>
      Some (set_pc t (if pool_unparked b (pl s) then WStopTake b else Done OStopped) s)
  | WStopTake b =>
      let '(r, p') := pool_take_release b (pl s) in
      let s' := set_pl p' s in
      Some (if r then add_acquired (set_pc t (Done OAcquired) s') else set_pc t (Done OStopped) s')
  | WErrCheck e b =>
      if pool_unparked b (pl s)
      then Some (set_pc t (PLoad (RkErr e)) (set_pl (pool_settle b (pl s)) s))
      else Some (set_pc t (WErrSet e b) s)
  | WErrSet e b => Some (set_pc t (WErrRecheck e b) (set_pl (pool_set_release b (pl s)) s))
  | WErrRecheck e b =>
      Some (set_pc t (if pool_unparked b (pl s) then WErrTake e b else Done (err_outcome e)) s)
  | WErrTake e b =>
      let '(r, p') := pool_take_release b (pl s) in
      Some (set_pc t (if r then PLoad (RkErr e) else Done (err_outcome e)) (set_pl p' s))
  | _ => None
  end.

(** [cur.park(dur)]: [Ok] consumes the token; [Timeout] needs a duration. *)
Definition step_park (t : nat) (r : option ParkError) (x : pc) (s : state) : option state :=
  match x, r with
  | WPark w b, None =>
      if pool_can_wake b (pl s)
      then Some (add_acquired (set_pc t (Done OAcquired) (set_pl (pool_park_ok b (pl s)) s)))
      else None
  | WPark w b, Some e =>
      if (match e with Timeout => timed w | Canceled => true end)
      then Some (set_pc t (WErrCheck e b) (set_pl (pool_park_err b (pl s)) s))
      else None
  | _, _ => None
  end.

Definition step (s : state) (e : event) : option state :=
  match e with
  | Call t o => match pcs s !! t with Some Idle => Some (set_pc t (start o) s) | _ => None end
  | Tick t =>
      match pcs s !! t with
      | Some x =>
          match x with
          | TLoad _ | TCas _ _ => step_try_wait t x s
          | KPop _ | KStoreUnparked _ _ | KUnpark _ _ | KTakeRelease _ _ | KForward _ =>
              step_wakeup_one t x s
          | PLoad _ | PCas _ _ => step_post t x s
          | _ => step_wait t x s
          end
      | None => None
      end
  | Stop t v =>
      match pcs s !! t with
      | Some (WStop w b) =>
          if v then if stoppable w then Some (set_pc t (WStopCheck b) s) else None
          else Some (set_pc t (WPark w b) s)
      | _ => None
      end
  | Park t r => match pcs s !! t with Some x => step_park t r x s | None => None end
  | Spurious t =>
      match pcs s !! t with Some (PCas k _) => Some (set_pc t (PLoad k) s) | _ => None end
  | Return t => match pcs s !! t with Some (Done _) => Some (set_pc t Idle s) | _ => None end
  end.

(** [get_value] and [has_waiters]. *)
Definition get_value (s : state) : Z := if (0 <? cnt s)%Z then cnt s else 0%Z.
Definition has_waiters (s : state) : bool := (cnt s <? 0)%Z.

(** ** Accounting *)

Definition role_of (x : pc) : role :=
  match x with
  | WPush _ b => Role (Some (b, KReg)) None
  | WSub _ b | WStop _ b | WPark _ b => Role (Some (b, KWait)) None
  | WStopCheck b | WErrCheck _ b => Role (Some (b, KErr)) None
  | WStopSet b | WErrSet _ b => Role (Some (b, KChecked)) None
  | WStopRecheck b | WErrRecheck _ b => Role (Some (b, KReleased)) None
  | WStopTake b | WErrTake _ b => Role (Some (b, KRecheck)) None
  | KPop (RkSub _ b) | KForward (RkSub _ b) | PLoad (RkSub _ b) | PCas (RkSub _ b) _ =>
      Role (Some (b, KWait)) None
  | KStoreUnparked (RkSub _ b) b' => Role (Some (b, KWait)) (Some (b', KStore))
  | KUnpark (RkSub _ b) b' => Role (Some (b, KWait)) (Some (b', KWake))
  | KTakeRelease (RkSub _ b) b' => Role (Some (b, KWait)) (Some (b', KTake))
  | KStoreUnparked _ b' => Role None (Some (b', KStore))
  | KUnpark _ b' => Role None (Some (b', KWake))
  | KTakeRelease _ b' => Role None (Some (b', KTake))
  | _ => Role None None
  end.

(** A permit the thread itself holds. *)
Definition own (x : pc) : Z :=
  match x with
  | PLoad (RkErr _) | PCas (RkErr _) _ | KForward _ => 1
  | _ => 0
  end%Z.
(** A wake-up that has been decided but whose blocker is not popped yet. *)
Definition prepop (x : pc) : Z := match x with KPop _ => 1 | _ => 0 end%Z.
(** A waiter whose blocker is queued but not yet counted in [cnt]. *)
Definition uncounted (x : pc) : Z := match x with WSub _ _ => 1 | _ => 0 end%Z.

Definition flight (s : state) : Z := (tok (role_of <$> pcs s) (pl s) + zsum own (pcs s))%Z.
Definition queued (s : state) : Z :=
  (Z.of_nat (length (queue (pl s))) - zsum uncounted (pcs s))%Z.

(** The machine stays in range while fewer than [isize::MAX] blockers have been
    registered and fewer than [isize::MAX] permits given. *)
Definition bounded (s : state) : Prop :=
  (Z.of_nat (length (cells (pl s))) < Word.isize_max)%Z /\ (given s <= Word.isize_max)%Z.

Lemma sem_own_nonneg x : (0 <= own x)%Z.
Proof. unfold own; repeat case_match; done. Qed.
Lemma sem_prepop_nonneg x : (0 <= prepop x)%Z.
Proof. destruct x; simpl; lia. Qed.
Lemma sem_uncounted_nonneg x : (0 <= uncounted x)%Z.
Proof. destruct x; simpl; lia. Qed.

Lemma sem_flight_nonneg s : (0 <= flight s)%Z.
Proof.
  unfold flight. pose proof (tok_nonneg (role_of <$> pcs s) (pl s)).
  pose proof (zsum_nonneg own (pcs s) sem_own_nonneg). lia.
Qed.

Lemma sem_cells_mono s e s' :
  step s e = Some s' -> length (cells (pl s)) <= length (cells (pl s')) /\ (given s <= given s')%Z.
Proof.
  intros H. destruct e; simpl in H; unfold step_try_wait, step_wakeup_one, step_post, step_wait, step_park, pool_pop in H;
    repeat (case_match; try discriminate H); simplify_eq/=; pool_unfold; simplify_eq/=;
    rewrite ?length_alter, ?length_app; simpl; lia.
Qed.

(** ** The invariant holds in every bounded reachable state *)

Definition pc_ok (x : pc) : Prop :=
  match x with
  | PLoad (RkSub _ _) | PCas (RkSub _ _) _ | PanicNull => False
  | PCas _ c => (c < Word.isize_max)%Z
  | TCas _ c => (0 < c)%Z
  | _ => True
  end.

Record inv (s : state) : Prop := {
  inv_pool : HI false (role_of <$> pcs s) (pl s);
  (** every permit given is acquired, counted, matched with a queued waiter, or in flight *)
  inv_permits : (cnt s + queued s + flight s = given s - acquired s)%Z;
  (** queued waiters are the ones [cnt] owes a permit to and the ones about to be popped *)
  inv_waiters : (queued s = zsum prepop (pcs s) + Z.max 0 (- cnt s))%Z;
  inv_acq : (0 <= acquired s)%Z;
  inv_pcs : forall t x, pcs s !! t = Some x -> pc_ok x
}.

Section update.
Context (s : state) (t : nat) (x y : pc) (c' : Z) (p' : pool) (g' a' d : Z).
Context (Hinv : inv s) (Ht : pcs s !! t = Some x).
Let s' := St c' p' (<[t:=y]> (pcs s)) g' a'.

Lemma sem_inv_update :
  HI false (role_of <$> <[t:=y]> (pcs s)) p' /\
    tok (role_of <$> <[t:=y]> (pcs s)) p' = (tok (role_of <$> pcs s) (pl s) + d)%Z ->
  (c' + (Z.of_nat (length (queue p')) - Z.of_nat (length (queue (pl s)))) - (uncounted y - uncounted x)
    + d + (own y - own x) - (g' - a') = cnt s - (given s - acquired s))%Z ->
  (Z.of_nat (length (queue p')) - Z.of_nat (length (queue (pl s))) - (uncounted y - uncounted x)
    = prepop y - prepop x + Z.max 0 (- c') - Z.max 0 (- cnt s))%Z ->
  (0 <= a')%Z -> pc_ok y -> inv s'.
Proof.
  intros [HI' Htok] Hp Hw Ha Hy. destruct Hinv as [Hi Hperm Hwait Hacq Hpcs].
  unfold queued, flight in *. split; unfold queued, flight; simpl in *; try done.
  - rewrite Htok. zsum_update. lia.
  - zsum_update. lia.
  - intros t' x' Hx'. apply lookup_insert_list in Hx' as [(-> & -> & _)|[_ ?]]; eauto.
Qed.
End update.

(** Consequences of the invariant used in the arithmetic of single steps. *)
Lemma sem_inv_facts s t x :
  inv s -> pcs s !! t = Some x ->
  (0 <= queued s /\ prepop x <= zsum prepop (pcs s) /\ own x <= flight s /\
   uncounted x <= zsum uncounted (pcs s) /\
   Z.of_nat (length (queue (pl s))) <= Z.of_nat (length (cells (pl s))))%Z.
Proof.
  intros [Hi Hperm Hwait Hacq Hpcs] Ht.
  pose proof (zsum_lookup_le prepop _ _ _ sem_prepop_nonneg Ht).
  pose proof (zsum_lookup_le own _ _ _ sem_own_nonneg Ht).
  pose proof (zsum_lookup_le uncounted _ _ _ sem_uncounted_nonneg Ht).
  pose proof (sem_prepop_nonneg x). pose proof (queue_le_cells _ _ Hi).
  pose proof (tok_nonneg (role_of <$> pcs s) (pl s)).
  unfold flight. lia.
Qed.

Lemma sem_inv_step s e s' :
  bounded s' -> inv s -> step s e = Some s' -> inv s'.
Proof.
  intros [Hb1 Hb2] Hinv Hs. pose proof (sem_cells_mono _ _ _ Hs) as Hmono.
  pose proof (inv_pool _ Hinv) as Hi. 
  destruct e as [t o|t|t v|t r|t|t]; simpl in Hs;
    destruct (pcs s !! t) as [x|] eqn:Ht; try discriminate Hs;
    pose proof (inv_pcs _ Hinv _ _ Ht) as Hx;
    pose proof (sem_inv_facts _ _ _ Hinv Ht) as Hf;
    destruct x; try discriminate Hs; simpl in Hs;
    repeat match goal with k : rk |- _ => destruct k | k : tk |- _ => destruct k
                         | o : op |- _ => destruct o end; try done;
    unfold try_wait_test, pool_pop in Hs;
    repeat (case_match; try discriminate Hs); simplify_eq/=.
  all: unfold add_acquired, add_given, set_cnt, set_pl, set_pc; simpl.
  all: try match goal with Hq : queue (pl _) = [] |- _ =>
    exfalso; pose proof (inv_waiters _ Hinv); unfold queued in *; rewrite Hq in *; simpl in *; lia end.
  all: eapply (sem_inv_update s t _ _ _ _ _ _ _ Hinv Ht).
  all: try (match goal with |- HI _ _ _ /\ _ => idtac end; role_step role_of Hi Ht).
  all: pool_unfold; unfold delta; simpl; try done.
  all: pose proof (inv_acq _ Hinv); pose proof (inv_permits _ Hinv); pose proof (inv_waiters _ Hinv);
    unfold queued in *; simpl in *.
  all: rewrite ?length_app; simpl; try lia.
  all: repeat match goal with H : ?b = _ |- context [b2z ?b] => rewrite H end; simpl.
  all: repeat match goal with H : queue _ = _ :: _ |- _ => rewrite H; clear H end; simpl; try lia.
  all: rewrite ?Word.wrap_i_small by (unfold Word.is_isize, Word.isize_min, Word.isize_max, Word.width in *; lia).
  all: lia.
Qed.

Lemma sem_inv_init init n s : (0 <= init)%Z -> new init n = Some s -> inv s.
Proof.
  unfold new. intros H0 Hn. case_match; simplify_eq.
  destruct (init_ok (bc:=false) n (role_of Idle) eq_refl eq_refl) as [HI' Htok].
  split; unfold queued, flight; simpl.
  - by rewrite fmap_replicate.
  - rewrite fmap_replicate, Htok, !zsum_replicate. simpl. lia.
  - rewrite !zsum_replicate. simpl. lia.
  - lia.
  - intros t x Hx. apply lookup_replicate in Hx as [-> _]. done.
Qed.

Lemma sem_bounded_step s e s' : step s e = Some s' -> bounded s' -> bounded s.
Proof. intros Hs [? ?]. pose proof (sem_cells_mono _ _ _ Hs). split; lia. Qed.

Lemma sem_inv_reachable init n s0 s :
  (0 <= init)%Z -> new init n = Some s0 -> reachable step s0 s -> bounded s -> inv s.
Proof.
  intros H0 Hn Hr. induction Hr as [|s e s' Hr IH Hs]; intros Hb; [by eapply sem_inv_init|].
  eapply sem_inv_step; [done| |done]. eauto using sem_bounded_step.
Qed.

(** A state in which no thread can move on its own: only new calls, returns,
    timeouts and cancellations are possible. *)
Definition quiescent (s : state) : Prop :=
  forall t, step s (Tick t) = None /\ step s (Stop t false) = None /\ step s (Park t None) = None.
Definition parked (s : state) (t : nat) : Prop :=
  exists w b, pcs s !! t = Some (WPark w b).

Definition resting (x : pc) (p : pool) : Prop :=
  match x with
  | Idle | Done _ | PanicOverflow | PanicNull => True
  | WPark _ b => pool_can_wake b p = false
  | _ => False
  end.

Lemma sem_quiescent_resting s t x : quiescent s -> pcs s !! t = Some x -> resting x (pl s).
Proof.
  intros Hq Ht. destruct (Hq t) as (H1 & H2 & H3). simpl in *. rewrite Ht in *.
  destruct x; simpl in *; try done; unfold pool_pop in *; repeat case_match; try done.
Qed.

Lemma sem_resting_pc x p :
  resting x p -> role_rests p (role_of x) /\ own x = 0%Z /\ prepop x = 0%Z /\ uncounted x = 0%Z.
Proof. by destruct x. Qed.

(** At rest, a parked waiter means that no permit is left. *)
Lemma sem_rest_balance s t :
  inv s -> (forall i x, pcs s !! i = Some x -> resting x (pl s)) -> parked s t -> given s = acquired s.
Proof.
  intros Hi Hrest (w & b & Ht).
  destruct (rest_spec role_of (pcs s) (pl s) (inv_pool _ Hi)) as [Htok Hin]; [|specialize (Htok eq_refl)].
  { intros i x Hx. by apply sem_resting_pc, (Hrest i). }
  specialize (Hin _ _ b KWait Ht eq_refl).
  pose proof (inv_permits _ Hi) as Hperm. pose proof (inv_waiters _ Hi) as Hwait.
  unfold flight, queued in *. rewrite Htok in Hperm.
  rewrite (zsum_all_zero own), (zsum_all_zero uncounted) in Hperm
    by (intros i x Hx; by apply (sem_resting_pc x (pl s)), (Hrest i)).
  rewrite (zsum_all_zero prepop), (zsum_all_zero uncounted) in Hwait
    by (intros i x Hx; by apply (sem_resting_pc x (pl s)), (Hrest i)).
  destruct (queue (pl s)); [by apply not_elem_of_nil in Hin|]. simpl in *. lia.
Qed.

(** The overflow assertion of [post]. *)
Lemma sem_no_overflow init n s0 s t :
  (0 <= init)%Z -> new init n = Some s0 -> reachable step s0 s -> bounded s -> (given s < Word.isize_max)%Z ->
  pcs s !! t <> Some PanicOverflow.
Proof.
  intros H0 Hn Hr Hb Hlt. revert t Hb Hlt.
  induction Hr as [|s e s' Hr IH Hs]; intros t Hb Hlt Ht.
  { unfold new in Hn. case_match; simplify_eq/=. apply lookup_replicate in Ht as [? _]. done. }
  pose proof (sem_bounded_step _ _ _ Hs Hb) as Hb0. pose proof (sem_cells_mono _ _ _ Hs) as Hm.
  pose proof (sem_inv_reachable _ _ _ _ H0 Hn Hr Hb0) as Hi.
  pose proof (inv_permits _ Hi). pose proof (sem_flight_nonneg s). pose proof (inv_waiters _ Hi).
  pose proof (zsum_nonneg prepop (pcs s) sem_prepop_nonneg). pose proof (inv_acq _ Hi).
  assert (IH' : forall t, pcs s !! t <> Some PanicOverflow) by (intros; apply IH; [done|lia]).
  destruct e as [i o|i|i v|i r|i|i]; simpl in Hs;
    destruct (pcs s !! i) as [x|] eqn:Hx; try discriminate Hs;
    destruct x; try discriminate Hs; simpl in Hs;
    unfold pool_pop in Hs; repeat (case_match; try discriminate Hs); simplify_eq/=;
    (apply lookup_insert_list in Ht as [(-> & Heq & _)|[_ Ht]]; [|by apply IH' in Ht]);
    repeat match goal with k : rk |- _ => destruct k | k : tk |- _ => destruct k
           | o : op |- _ => destruct o end;
    unfold try_wait_test in Heq; simpl in Heq; repeat case_match; try discriminate Heq; lia.
Qed.

(** ** What a client of the semaphore counts

    [avail] is the number of permits on account: given or about to be, and not
    taken away by a caller yet. *)
Definition posting (x : pc) : Z := match x with PLoad RkPost | PCas RkPost _ => 1 | _ => 0 end.
Definition granted (x : pc) : Z := match x with Done (OAcquired | OTrue) => 1 | _ => 0 end.
Definition avail (s : state) : Z := given s - acquired s + zsum posting (pcs s) + zsum granted (pcs s).

Definition internal (e : event) : bool := match e with Call _ _ | Return _ => false | _ => true end.
Definition ev_thread (e : event) : nat :=
  match e with Call t _ | Tick t | Stop t _ | Park t _ | Spurious t | Return t => t end.

Lemma sem_avail_update s t x y c p g a :
  pcs s !! t = Some x ->
  avail (St c p (<[t:=y]> (pcs s)) g a) =
  (avail s + (g - given s) - (a - acquired s) + (posting y - posting x) + (granted y - granted x))%Z.
Proof. intros Ht. unfold avail. simpl. rewrite !(zsum_insert _ _ _ _ _ Ht). lia. Qed.

(** The steps inside an operation do not change it, unless [post] panics. *)
Lemma sem_avail_internal s e s' :
  internal e = true -> step s e = Some s' -> avail s' = avail s \/ pcs s' !! ev_thread e = Some PanicOverflow.
Proof.
  intros He Hs. destruct e as [t o|t|t v|t r|t|t]; try discriminate He; simpl in Hs;
    destruct (pcs s !! t) as [x|] eqn:Ht; try discriminate Hs; destruct x; try discriminate Hs; simpl in Hs;
    repeat match goal with k : rk |- _ => destruct k | k : tk |- _ => destruct k end;
    unfold try_wait_test, pool_pop in Hs; repeat (case_match; try discriminate Hs); simplify_eq/=;
    unfold add_acquired, add_given, set_cnt, set_pl, set_pc; simpl; rewrite (sem_avail_update _ _ _ _ _ _ _ _ Ht); simpl;
    try (left; lia); try (left; destruct e; simpl; lia).
  right. apply list_lookup_insert_eq. by eapply lookup_lt_Some.
Qed.
Lemma sem_avail_call s t o s' :
  step s (Call t o) = Some s' -> avail s' = (avail s + match o with OpPost => 1 | _ => 0 end)%Z.
Proof.
  simpl. intros Hs. destruct (pcs s !! t) as [[]|] eqn:Ht; try discriminate Hs. injection Hs as <-.
  unfold set_pc. rewrite (sem_avail_update _ _ _ _ _ _ _ _ Ht). destruct o; simpl; lia.
Qed.
Lemma sem_avail_return s t s' o :
  pcs s !! t = Some (Done o) -> step s (Return t) = Some s' ->
  avail s' = (avail s - match o with OAcquired | OTrue => 1 | _ => 0 end)%Z.
Proof.
  simpl. intros Ht Hs. rewrite Ht in Hs. injection Hs as <-. unfold set_pc. rewrite (sem_avail_update _ _ _ _ _ _ _ _ Ht).
  destruct o; simpl; lia.
Qed.
Lemma sem_posting_nonneg x : (0 <= posting x)%Z.
Proof. unfold posting. repeat case_match; done. Qed.
Lemma sem_granted_nonneg x : (0 <= granted x)%Z.
Proof. unfold granted. repeat case_match; done. Qed.
Lemma sem_avail_nonneg s : inv s -> (0 <= avail s)%Z.
Proof.
  intros Hi. unfold avail. pose proof (zsum_nonneg posting (pcs s) sem_posting_nonneg).
  pose proof (zsum_nonneg granted (pcs s) sem_granted_nonneg). pose proof (inv_permits _ Hi). pose proof (inv_waiters _ Hi).
  pose proof (sem_flight_nonneg s). pose proof (zsum_nonneg prepop (pcs s) sem_prepop_nonneg). lia.
Qed.

(** Only a [stop] that was true makes a waiter leave without a permit. *)
Definition stopping (x : pc) : bool :=
  match x with WStopCheck _ | WStopSet _ | WStopRecheck _ | WStopTake _ | Done OStopped => true | _ => false end.
Lemma sem_stopping_step s e s' t y :
  step s e = Some s' -> pcs s' !! t = Some y -> stopping y = true ->
  (exists x, pcs s !! t = Some x /\ stopping x = true) \/ e = Stop t true.
Proof.
  intros Hs Hy Hst. destruct e as [i o|i|i v|i r|i|i]; simpl in Hs;
    destruct (pcs s !! i) as [x|] eqn:Hx; try discriminate Hs; destruct x; try discriminate Hs; simpl in Hs;
    repeat match goal with k : rk |- _ => destruct k | k : tk |- _ => destruct k | o : op |- _ => destruct o end;
    unfold try_wait_test, pool_pop in Hs; repeat (case_match; try discriminate Hs); simplify_eq/=;
    (apply lookup_insert_list in Hy as [(<- & -> & _)|[_ Hy]]; [|left; by eexists]); simpl in Hst;
    try discriminate Hst; try (left; by eexists); try (by right).
  all: unfold err_outcome in Hst; by repeat case_match.
Qed.

Lemma sem_step_threads s e s' : step s e = Some s' -> length (pcs s') = length (pcs s).
Proof.
  intros Hs. destruct e as [i o|i|i v|i r|i|i]; simpl in Hs;
    destruct (pcs s !! i) as [x|]; try discriminate Hs; destruct x; try discriminate Hs; simpl in Hs;
    unfold pool_pop in Hs; repeat (case_match; try discriminate Hs); simplify_eq/=; by rewrite ?length_insert.
Qed.

(** ** Properties *)

(** C2. Safety of the semaphore under every interleaving, timeout and
    cancellation: no more permits are acquired than were given, [get_value]
    never exceeds the permits left, and the "got null blocker" panic of
    [wakeup_one] is unreachable. *)
Theorem permits_safe init n s0 s
  (H0 : (0 <= init)%Z) (Hn : new init n = Some s0)
  (Hr : reachable step s0 s) (Hb : bounded s) :
  (0 <= get_value s <= given s - acquired s)%Z /\ forall t, pcs s !! t <> Some PanicNull.
Proof.
  pose proof (sem_inv_reachable _ _ _ _ H0 Hn Hr Hb) as Hi.
  pose proof (sem_flight_nonneg s). pose proof (inv_permits _ Hi). pose proof (inv_waiters _ Hi).
  pose proof (zsum_nonneg prepop (pcs s) sem_prepop_nonneg).
  split.
  - unfold get_value. destruct (Z.ltb_spec 0 (cnt s)); lia.
  - intros t Ht. by pose proof (inv_pcs _ Hi _ _ Ht).
Qed.

(** C1. No wake-up is lost: in a state where no thread can move on its own, a
    thread parked in [wait] means that every permit ever given has been
    acquired - a post never leaves a waiter parked next to a free permit, even
    when timed-out or cancelled waiters are queued in front of it. *)
Theorem no_lost_wakeup init n s0 s t
  (H0 : (0 <= init)%Z) (Hn : new init n = Some s0)
  (Hr : reachable step s0 s) (Hb : bounded s) (Hq : quiescent s) (Hp : parked s t) :
  given s = acquired s.
Proof.
  eapply sem_rest_balance; [by eapply sem_inv_reachable|intros; by eapply sem_quiescent_resting|done].
Qed.

(** The overflow assertion of [post] fires only at the limit it guards: as
    long as fewer than [isize::MAX] permits have been given, no thread is ever
    in the overflow panic - in particular never a leaving waiter that passes a
    permit on. *)
Theorem post_no_overflow init n s0 s t
  (H0 : (0 <= init)%Z) (Hn : new init n = Some s0)
  (Hr : reachable step s0 s) (Hb : bounded s) (Hlt : (given s < Word.isize_max)%Z) :
  pcs s !! t <> Some PanicOverflow.
Proof. by eapply sem_no_overflow. Qed.

(** ** Witnesses *)

(** Thread 0 times out while waiting, thread 1 queues behind it; the post of
    thread 2 is forwarded past the released blocker of thread 0. *)
Definition ticks (t n : nat) : list event := replicate n (Tick t).
Definition sched_wait (t : nat) : list event := Call t (OpWait true) :: ticks t 4 ++ [Stop t false].
Definition sched_leave (t : nat) : list event := Park t (Some Timeout) :: ticks t 3.
Definition sched_post (t : nat) : list event := Call t OpPost :: ticks t 2.
Definition demo_parked : list event := sched_wait 0 ++ sched_wait 1 ++ sched_leave 0.
Definition demo_forward : list event :=
  demo_parked ++ sched_post 2 ++ ticks 2 5 ++ ticks 2 4 ++ [Park 1 None].

Definition demo_init : state := St 0 pool_new (replicate 3 Idle) 0 0.
Definition final (es : list event) : state := default demo_init (run step es demo_init).

Lemma final_reachable es :
  run step es demo_init = Some (final es) -> reachable step demo_init (final es).
Proof. apply run_reachable. Qed.

Example demo_forward_result :
  pcs (final demo_forward) = [Done OTimeout; Done OAcquired; Done OPosted] /\
  cnt (final demo_forward) = 0%Z /\ acquired (final demo_forward) = 1%Z.
Proof. by vm_compute. Qed.

Lemma permits_safe_witness :
  (0 <= get_value (final demo_forward) <= given (final demo_forward) - acquired (final demo_forward))%Z /\
  forall t, pcs (final demo_forward) !! t <> Some PanicNull.
Proof.
  apply (permits_safe 0 3 demo_init).
  - lia.
  - reflexivity.
  - apply final_reachable. vm_compute. reflexivity.
  - vm_compute. split; [reflexivity|discriminate].
Defined.

Lemma post_no_overflow_witness : pcs (final demo_forward) !! 2 <> Some PanicOverflow.
Proof.
  apply (post_no_overflow 0 3 demo_init).
  - lia.
  - reflexivity.
  - apply final_reachable. vm_compute. reflexivity.
  - vm_compute. split; [reflexivity|discriminate].
  - vm_compute. reflexivity.
Defined.

Lemma no_lost_wakeup_witness :
  given (final demo_parked) = acquired (final demo_parked).
Proof.
  apply (no_lost_wakeup 0 3 demo_init _ 1).
  - lia.
  - reflexivity.
  - apply final_reachable. vm_compute. reflexivity.
  - vm_compute. split; [reflexivity|discriminate].
  - intros [|[|[|t]]]; vm_compute; auto.
  - exists (Ctx true false), 1. vm_compute. reflexivity.
Defined.

End Sem.
