(* ===== verification/Poison.v ===== *)
(** * Poison: [src/sync/poison.rs] *)

From stdpp Require Import base tactics.
From Stdlib Require Import ZArith Lia.
From S2P Require Import Prelude.

Module Poison.

(** [LockResult<T>]: [Err(PoisonError)] still carries the value. *)
Inductive LockResult (A : Type) := LOk (a : A) | LPoisoned (a : A).
Arguments LOk {A} a.
Arguments LPoisoned {A} a.

Definition into_inner {A} (r : LockResult A) : A :=
  match r with LOk a => a | LPoisoned a => a end.
Definition is_err {A} (r : LockResult A) : bool :=
  match r with LOk _ => false | LPoisoned _ => true end.

Record Flag := MkFlag { failed : Z }.
Record Guard := MkGuard { panicking : bool }.

(** What the executing context answers when asked: [thread::panicking()],
    [cancel_panic_in_flight()], [is_coroutine()] and, in a coroutine,
    [current_cancel_data().is_canceled()]. *)
Record env := Env {
  thread_panicking : bool;
  cancel_in_flight : bool;
  is_coroutine : bool;
  canceled : bool
}.

Definition new : Flag := MkFlag 0.
Definition get (f : Flag) : bool := negb (failed f =? 0)%Z.
Definition clear (f : Flag) : Flag := MkFlag 0.

Definition borrow (en : env) (f : Flag) : LockResult Guard :=
  let ret := MkGuard (thread_panicking en) in
  if get f then LPoisoned ret else LOk ret.

Definition done (en : env) (g : Guard) (f : Flag) : Flag :=
  if (negb (panicking g) && thread_panicking en && negb (cancel_in_flight en))%bool then
    let is_canceled := if is_coroutine en then canceled en else false in
    if negb is_canceled then MkFlag 1 else f
  else f.

Definition map_result {A B} (r : LockResult A) (k : A -> B) : LockResult B :=
  match r with LOk a => LOk (k a) | LPoisoned g => LPoisoned (k g) end.

(** A panic is in flight, and it is not a cancellation. *)
Definition real_unwind (en : env) : Prop :=
  thread_panicking en = true /\ cancel_in_flight en = false /\ ~ (is_coroutine en = true /\ canceled en = true).

(** [done] would raise a clear flag. *)
Definition raises (en : env) (g : Guard) : bool := get (done en g new).

Lemma done_quiet en g f : raises en g = false -> get f = false -> get (done en g f) = false.
Proof.
  unfold raises, done. intros H Hf. repeat case_match; simplify_eq/=; try done.
Qed.

Lemma done_get en g f :
  get (done en g f) = true <-> get f = true \/ panicking g = false /\ real_unwind en.
Proof.
  unfold done, real_unwind.
  destruct (panicking g), (thread_panicking en), (cancel_in_flight en), (is_coroutine en), (canceled en);
    simpl; intuition congruence.
Qed.

Lemma borrow_panicking en f : panicking (into_inner (borrow en f)) = thread_panicking en.
Proof. unfold borrow. by destruct (get f). Qed.

Lemma borrow_is_err en f : is_err (borrow en f) = get f.
Proof. unfold borrow. by destruct (get f). Qed.

Lemma map_result_is_err {A B} (r : LockResult A) (k : A -> B) : is_err (map_result r k) = is_err r.
Proof. by destruct r. Qed.

End Poison.
