(* ===== verification/LockCore.v ===== *)
(** * LockCore: the hand-off lock of [src/sync/mutex.rs] and [src/sync/rwlock.rs]

    [Mutex] and the global lock of [RwLock] are the same algorithm: a counter of
    the owner and the registered waiters, and a FIFO of blockers.  This file
    models it once at the granularity of single atomic accesses; [Mutex] adds the
    poison flag and the guard, [RwLock] the reader count. *)

From stdpp Require Import base numbers list.
From Stdlib Require Import ZArith Lia.
From S2P Require Import Prelude Blocking Handoff.

Module Lk.

(** Where [unlock] returns to: the end of a guard, the registration of a waiter
    whose popped blocker had been released, or a cancelled waiter that was
    handed the lock. *)
Inductive uk := URet | ULock (b : nat) | UCancel.

Inductive pc :=
  | Idle
  | LCas                          (* the [try_lock] at the head of [lock] *)
  | TCas                          (* the public [try_lock] *)
  | LNew | LPush (b : nat) | LAdd (b : nat)
  | LPark (b : nat)
  | LErrCheck (ign : bool) (b : nat) | LErrSet (b : nat) | LErrRecheck (b : nat) | LErrTake (b : nat)
  | USub (k : uk) | UPop (k : uk)
  | UStoreUnparked (k : uk) (b : nat) | UUnpark (k : uk) (b : nat) | UTakeRelease (k : uk) (b : nat)
  | Owner                         (* [lock]/[try_lock] returned with the lock *)
  | WouldBlock | CancelPanic | Released
  | PanicNull.

Record state := St { cnt : Z; pl : pool; pcs : list pc }.
Definition new (n : nat) : state := St 0 pool_new (replicate n Idle).

Inductive event :=
  | Lock (t : nat) | TryLock (t : nat) | Unlock (t : nat)
  | Tick (t : nat)
  | ParkOk (t : nat)
  | ParkCanceled (t : nat) (ign : bool)  (* [park] returns [Canceled]; [ign] is [is_disabled()] *)
  | Return (t : nat).

Definition set_pc (t : nat) (x : pc) (s : state) : state := St (cnt s) (pl s) (<[t:=x]> (pcs s)).
Definition set_pl (p : pool) (s : state) : state := St (cnt s) p (pcs s).
Definition set_cnt (c : Z) (s : state) : state := St c (pl s) (pcs s).

Definition after_unlock (k : uk) : pc :=
  match k with URet => Released | ULock b => LPark b | UCancel => CancelPanic end.

(** [try_lock]: one compare-exchange of [cnt] from 0 to 1. *)
Definition step_try_lock (t : nat) (x : pc) (s : state) : option state :=
  match x with
  | LCas => Some (if (cnt s =? 0)%Z then set_pc t Owner (set_cnt 1 s) else set_pc t LNew s)
  | TCas => Some (if (cnt s =? 0)%Z then set_pc t Owner (set_cnt 1 s) else set_pc t WouldBlock s)
  | _ => None
  end.

(** [unlock]: decrement, and while waiters remain pop one and hand the lock
    over; a waiter that left returns its release flag and its slot is released
    as well. *)
Definition step_unlock (t : nat) (x : pc) (s : state) : option state :=
  match x with
  | USub k =>
      Some (set_pc t (if (1 <? cnt s)%Z then UPop k else after_unlock k)
              (set_cnt (Word.sub (cnt s) 1) s))
  | UPop k =>
      match pool_pop (pl s) with
      | None => Some (set_pc t PanicNull s)
      | Some (b, p') => Some (set_pc t (UStoreUnparked k b) (set_pl p' s))
      end
  | UStoreUnparked k b => Some (set_pc t (UUnpark k b) (set_pl (pool_store_unparked b (pl s)) s))
  | UUnpark k b => Some (set_pc t (UTakeRelease k b) (set_pl (pool_wake b (pl s)) s))
  | UTakeRelease k b =>
      let '(r, p') := pool_take_release b (pl s) in
      Some (set_pc t (if r then USub k else after_unlock k) (set_pl p' s))
  | _ => None
  end.

(** [lock] after the failed [try_lock]: register, count, wait, and on a
    cancellation either keep the lock that was just handed over, wait again, or
    leave and pass the lock on. *)
Definition step_lock (t : nat) (x : pc) (s : state) : option state :=
  match x with
  | LNew => let '(b, p') := pool_alloc (pl s) in Some (set_pc t (LPush b) (set_pl p' s))
  | LPush b => Some (set_pc t (LAdd b) (set_pl (pool_push b (pl s)) s))
  | LAdd b =>
      Some (set_pc t (if (cnt s =? 0)%Z then UPop (ULock b) else LPark b)
              (set_cnt (Word.add (cnt s) 1) s))
  | LErrCheck ign b =>
      if pool_unparked b (pl s)
      then Some (set_pc t (if ign then Owner else USub UCancel) (set_pl (pool_settle b (pl s)) s))
      else Some (set_pc t (if ign then LPark b else LErrSet b) s)
  | LErrSet b => Some (set_pc t (LErrRecheck b) (set_pl (pool_set_release b (pl s)) s))
  | LErrRecheck b =>
      Some (set_pc t (if pool_unparked b (pl s) then LErrTake b else CancelPanic) s)
  | LErrTake b =>
      let '(r, p') := pool_take_release b (pl s) in
      Some (set_pc t (if r then USub UCancel else CancelPanic) (set_pl p' s))
  | _ => None
  end.

Definition tick (t : nat) (x : pc) (s : state) : option state :=
  match x with
  | LCas | TCas => step_try_lock t x s
  | USub _ | UPop _ | UStoreUnparked _ _ | UUnpark _ _ | UTakeRelease _ _ => step_unlock t x s
  | _ => step_lock t x s
  end.

Definition step (s : state) (e : event) : option state :=
  match e with
  | Lock t => match pcs s !! t with Some Idle => Some (set_pc t LCas s) | _ => None end
  | TryLock t => match pcs s !! t with Some Idle => Some (set_pc t TCas s) | _ => None end
  | Unlock t => match pcs s !! t with Some Owner => Some (set_pc t (USub URet) s) | _ => None end
  | Tick t => match pcs s !! t with Some x => tick t x s | None => None end
  | ParkOk t =>
      match pcs s !! t with
      | Some (LPark b) =>
          if pool_can_wake b (pl s)
          then Some (set_pc t Owner (set_pl (pool_park_ok b (pl s)) s)) else None
      | _ => None
      end
  | ParkCanceled t ign =>
      match pcs s !! t with
      | Some (LPark b) => Some (set_pc t (LErrCheck ign b) (set_pl (pool_park_err b (pl s)) s))
      | _ => None
      end
  | Return t =>
      match pcs s !! t with
      | Some (WouldBlock | CancelPanic | Released) => Some (set_pc t Idle s)
      | _ => None
      end
  end.

(** The thread that takes a step. *)
Definition thread (e : event) : nat :=
  match e with
  | Lock t | TryLock t | Unlock t | Tick t | ParkOk t | ParkCanceled t _ | Return t => t
  end.

(** A step the lock takes on its own, between the call and the return of an
    operation. *)
Definition internal (e : event) : bool :=
  match e with Tick _ | ParkOk _ | ParkCanceled _ _ => true | _ => false end.

(** Which operation a thread is inside of: [lock], [lock] with cancellation
    disabled, [try_lock], or the [unlock] of a guard.  The result of the
    operation is still inside; [Owner] is the successful result. *)
Inductive mode := MLock | MLockNc | MTry | MUnlock.

Definition inside (m : mode) (x : pc) : bool :=
  match m, x with
  | (MLock | MLockNc), (LCas | LNew | LPush _ | LAdd _ | LPark _ | LErrCheck true _
      | USub (ULock _) | UPop (ULock _) | UStoreUnparked (ULock _) _ | UUnpark (ULock _) _
      | UTakeRelease (ULock _) _ | Owner) => true
  | MLock, (LErrCheck false _ | LErrSet _ | LErrRecheck _ | LErrTake _
      | USub UCancel | UPop UCancel | UStoreUnparked UCancel _ | UUnpark UCancel _
      | UTakeRelease UCancel _ | CancelPanic) => true
  | MTry, (TCas | Owner | WouldBlock) => true
  | MUnlock, (USub URet | UPop URet | UStoreUnparked URet _ | UUnpark URet _
      | UTakeRelease URet _ | Released) => true
  | _, _ => false
  end.

(** With cancellation disabled a cancelled park is ignored. *)
Definition mode_ok (m : mode) (e : event) : bool :=
  match m, e with MLockNc, ParkCanceled _ ign => ign | _, _ => true end.

(** The lock has no owner field: whoever calls [unlock] releases it.  [transfer]
    moves the obligation to unlock from [t] to [u]; no shared variable changes. *)
Definition transfer (t u : nat) (s : state) : option state :=
  match pcs s !! t, pcs s !! u with
  | Some Owner, Some Idle => Some (set_pc u Owner (set_pc t Idle s))
  | _, _ => None
  end.

(** ** Accounting *)

Definition role_of (x : pc) : role :=
  match x with
  | LPush b => Role (Some (b, KReg)) None
  | LAdd b | LPark b | USub (ULock b) | UPop (ULock b) => Role (Some (b, KWait)) None
  | LErrCheck _ b => Role (Some (b, KErr)) None
  | LErrSet b => Role (Some (b, KChecked)) None
  | LErrRecheck b => Role (Some (b, KReleased)) None
  | LErrTake b => Role (Some (b, KRecheck)) None
  | UStoreUnparked (ULock b) b' => Role (Some (b, KWait)) (Some (b', KStore))
  | UUnpark (ULock b) b' => Role (Some (b, KWait)) (Some (b', KWake))
  | UTakeRelease (ULock b) b' => Role (Some (b, KWait)) (Some (b', KTake))
  | UStoreUnparked _ b' => Role None (Some (b', KStore))
  | UUnpark _ b' => Role None (Some (b', KWake))
  | UTakeRelease _ b' => Role None (Some (b', KTake))
  | _ => Role None None
  end.

(** The lock held by the thread itself. *)
Definition own (x : pc) : Z := match x with Owner | USub _ => 1 | _ => 0 end%Z.
Definition prepop (x : pc) : Z := match x with UPop _ => 1 | _ => 0 end%Z.
Definition uncounted (x : pc) : Z := match x with LAdd _ => 1 | _ => 0 end%Z.

Definition flight (s : state) : Z := (tok (role_of <$> pcs s) (pl s) + zsum own (pcs s))%Z.
Definition queued (s : state) : Z :=
  (Z.of_nat (length (queue (pl s))) - zsum uncounted (pcs s))%Z.

Record inv (s : state) : Prop := {
  inv_pool : HI false (role_of <$> pcs s) (pl s);
  (** [cnt] counts the registered waiters and the lock itself *)
  inv_cnt : cnt s = (queued s + flight s)%Z;
  (** the lock is in exactly one place while [cnt] is positive *)
  inv_one : (flight s + zsum prepop (pcs s) = if (0 <? cnt s) then 1 else 0)%Z;
  inv_pos : (0 <= cnt s)%Z;
  inv_pcs : forall t, pcs s !! t <> Some PanicNull
}.

Definition bounded (s : state) : Prop :=
  (Z.of_nat (length (cells (pl s))) < Word.usize_max)%Z.

Lemma lk_own_nonneg x : (0 <= own x)%Z.
Proof. by destruct x. Qed.
Lemma lk_prepop_nonneg x : (0 <= prepop x)%Z.
Proof. by destruct x. Qed.
Lemma lk_uncounted_nonneg x : (0 <= uncounted x)%Z.
Proof. by destruct x. Qed.

Lemma lk_flight_nonneg s : (0 <= flight s)%Z.
Proof.
  unfold flight. pose proof (tok_nonneg (role_of <$> pcs s) (pl s)).
  pose proof (zsum_nonneg own (pcs s) lk_own_nonneg). lia.
Qed.

Lemma lk_cells_mono s e s' :
  step s e = Some s' -> length (cells (pl s)) <= length (cells (pl s')).
Proof.
  intros H. destruct e; simpl in H; unfold tick, step_try_lock, step_unlock, step_lock, pool_pop in H;
    repeat (case_match; try discriminate H); simplify_eq/=; pool_unfold; simplify_eq/=;
    rewrite ?length_alter, ?length_app; simpl; lia.
Qed.

Section update.
Context (s : state) (t : nat) (x y : pc) (c' : Z) (p' : pool) (d : Z).
Context (Hinv : inv s) (Ht : pcs s !! t = Some x).
Let s' := St c' p' (<[t:=y]> (pcs s)).

Lemma lk_inv_update :
  HI false (role_of <$> <[t:=y]> (pcs s)) p' /\
    tok (role_of <$> <[t:=y]> (pcs s)) p' = (tok (role_of <$> pcs s) (pl s) + d)%Z ->
  (c' - cnt s = Z.of_nat (length (queue p')) - Z.of_nat (length (queue (pl s)))
     - (uncounted y - uncounted x) + d + (own y - own x))%Z ->
  (d + (own y - own x) + (prepop y - prepop x)
    = (if (0 <? c') then 1 else 0) - (if (0 <? cnt s) then 1 else 0))%Z ->
  (0 <= c')%Z -> y <> PanicNull -> inv s'.
Proof.
  intros [HI' Htok] Hc Hone Hpos Hy. destruct Hinv as [Hi Hcnt H1 H0 Hpcs].
  unfold queued, flight in *. split; unfold queued, flight; simpl in *; try done.
  - rewrite Htok. zsum_update. lia.
  - rewrite Htok. zsum_update. lia.
  - intros t' Hx'. apply lookup_insert_list in Hx' as [(-> & ? & _)|[_ ?]]; [done|by eapply Hpcs].
Qed.
End update.

Lemma lk_inv_facts s t x :
  inv s -> pcs s !! t = Some x ->
  (0 <= queued s + zsum uncounted (pcs s) /\ 0 <= tok (role_of <$> pcs s) (pl s) /\
   own x <= zsum own (pcs s) /\ own x <= flight s /\ prepop x <= zsum prepop (pcs s) /\
   uncounted x <= zsum uncounted (pcs s) /\
   Z.of_nat (length (queue (pl s))) <= Z.of_nat (length (cells (pl s))))%Z.
Proof.
  intros [Hi Hcnt Hone H0 Hpcs] Ht.
  pose proof (zsum_lookup_le own _ _ _ lk_own_nonneg Ht).
  pose proof (zsum_lookup_le prepop _ _ _ lk_prepop_nonneg Ht).
  pose proof (zsum_lookup_le uncounted _ _ _ lk_uncounted_nonneg Ht).
  pose proof (queue_le_cells _ _ Hi). pose proof (tok_nonneg (role_of <$> pcs s) (pl s)).
  unfold flight, queued. lia.
Qed.

Lemma lk_inv_step s e s' : bounded s' -> inv s -> step s e = Some s' -> inv s'.
Proof.
  unfold bounded. intros Hb Hinv Hs. pose proof (lk_cells_mono _ _ _ Hs) as Hmono.
  pose proof (inv_pool _ Hinv) as Hi.
  destruct e as [t|t|t|t|t|t ign|t]; simpl in Hs;
    destruct (pcs s !! t) as [x|] eqn:Ht; try discriminate Hs;
    pose proof (lk_inv_facts _ _ _ Hinv Ht) as Hf;
    destruct x; try discriminate Hs; simpl in Hs;
    repeat match goal with k : uk |- _ => destruct k end;
    unfold pool_pop in Hs;
    repeat (case_match; try discriminate Hs); simplify_eq/=.
  all: unfold set_cnt, set_pl, set_pc; simpl.
  all: pose proof (inv_cnt _ Hinv); pose proof (inv_one _ Hinv); pose proof (inv_pos _ Hinv);
    unfold Word.add, Word.sub, queued in *; simpl in *.
  all: try match goal with Hq : queue (pl _) = [] |- _ =>
    exfalso; rewrite Hq in *; simpl in *; repeat case_match; lia end.
  all: eapply (lk_inv_update s t _ _ _ _ _ Hinv Ht).
  all: try (match goal with |- HI _ _ _ /\ _ => idtac end; role_step role_of Hi Ht).
  all: pool_unfold; unfold delta; simpl; try done.
  all: rewrite ?Word.wrap_small by (unfold Word.is_usize, Word.usize_max in *; repeat case_match; lia).
  all: rewrite ?length_app; simpl.
  all: repeat match goal with H : ?b = _ |- context [b2z ?b] => rewrite H end; simpl.
  all: repeat match goal with H : queue _ = _ :: _ |- _ => rewrite H in *; clear H end; simpl in *.
  all: repeat match goal with |- context [(?a <? ?b)%Z] => destruct (Z.ltb_spec a b)
    | H : context [(?a <? ?b)%Z] |- _ => destruct (Z.ltb_spec a b) end; try lia.

Qed.

Lemma lk_inv_init n : inv (new n).
Proof.
  destruct (init_ok (bc:=false) n (role_of Idle) eq_refl eq_refl) as [HI' Htok].
  split; unfold queued, flight; simpl.
  - by rewrite fmap_replicate.
  - rewrite fmap_replicate, Htok, !zsum_replicate. simpl. lia.
  - rewrite fmap_replicate, Htok, !zsum_replicate. simpl. lia.
  - lia.
  - intros t Hx. by apply lookup_replicate in Hx as [? _].
Qed.

Lemma lk_bounded_step s e s' : step s e = Some s' -> bounded s' -> bounded s.
Proof. unfold bounded. intros Hs Hb. pose proof (lk_cells_mono _ _ _ Hs). lia. Qed.

Lemma lk_inv_reachable n s : reachable step (new n) s -> bounded s -> inv s.
Proof.
  intros Hr. induction Hr as [|s e s' Hr IH Hs]; intros Hb; [apply lk_inv_init|].
  eapply lk_inv_step; [done| |done]. eauto using lk_bounded_step.
Qed.

(** A step moves the thread of its event, and moves an owner only to unlock. *)
Lemma step_pcs s e s' :
  step s e = Some s' ->
  exists x y, pcs s !! thread e = Some x /\ pcs s' = <[thread e:=y]> (pcs s) /\
    (x = Owner -> e = Unlock (thread e)).
Proof.
  intros Hs. destruct e as [i|i|i|i|i|i ign|i]; simpl in Hs |- *;
    destruct (pcs s !! i) as [x|] eqn:Hi; try discriminate Hs;
    exists x; destruct x; try discriminate Hs; simpl in Hs; unfold pool_pop in Hs;
    repeat (case_match; try discriminate Hs); simplify_eq/=; by eexists.
Qed.

Lemma step_pcs_other s e s' t :
  step s e = Some s' -> t <> thread e -> pcs s' !! t = pcs s !! t.
Proof.
  intros Hs Hne. destruct (step_pcs _ _ _ Hs) as (x & y & _ & -> & _).
  by rewrite list_lookup_insert_ne.
Qed.

Lemma step_pcs_length s e s' : step s e = Some s' -> length (pcs s') = length (pcs s).
Proof. intros Hs. destruct (step_pcs _ _ _ Hs) as (x & y & _ & -> & _). apply length_insert. Qed.

(** Internal steps stay inside the operation. *)
Lemma step_inside m s e s' x :
  step s e = Some s' -> internal e = true -> mode_ok m e = true ->
  pcs s !! thread e = Some x -> inside m x = true ->
  exists y, pcs s' !! thread e = Some y /\ (y = PanicNull \/ inside m y = true).
Proof.
  intros Hs Hint Hok Hx Hin. pose proof (lookup_lt_Some _ _ _ Hx) as Hlt.
  destruct e as [i|i|i|i|i|i ign|i]; try discriminate Hint; simpl in Hs, Hx, Hlt |- *;
    rewrite Hx in Hs; destruct m, x; try discriminate Hs; try discriminate Hin;
    simpl in Hs, Hin, Hok; unfold pool_pop in Hs;
    repeat match goal with k : uk |- _ => destruct k end; try discriminate Hin; simpl in Hs;
    repeat (case_match; try discriminate Hs; try discriminate Hin); simplify_eq/=;
    eexists; (split; [by apply list_lookup_insert_eq|]); auto;
    match goal with b : bool |- _ => destruct b end; auto.
Qed.

Lemma transfer_spec t u s s' :
  transfer t u s = Some s' ->
  pcs s !! t = Some Owner /\ pcs s !! u = Some Idle /\ t <> u /\
  cnt s' = cnt s /\ pl s' = pl s /\ pcs s' = <[u:=Owner]> (<[t:=Idle]> (pcs s)).
Proof.
  unfold transfer. intros H. repeat (case_match; try discriminate H); simplify_eq/=.
  split_and!; try done. intros ->. congruence.
Qed.

Lemma transfer_some t u s :
  pcs s !! t = Some Owner -> pcs s !! u = Some Idle ->
  transfer t u s = Some (set_pc u Owner (set_pc t Idle s)).
Proof. unfold transfer. by intros -> ->. Qed.

Lemma transfer_inv t u s s' : transfer t u s = Some s' -> inv s -> inv s'.
Proof.
  intros H Hinv. apply transfer_spec in H as (Ht & Hu & Hne & Hc & Hp & Hpcs).
  assert (Hr : role_of <$> pcs s' = role_of <$> pcs s).
  { rewrite Hpcs, !list_fmap_insert. rewrite (list_insert_id (role_of <$> pcs s) t).
    - apply list_insert_id. by rewrite list_lookup_fmap, Hu.
    - by rewrite list_lookup_fmap, Ht. }
  assert (Hu' : <[t:=Idle]> (pcs s) !! u = Some Idle) by by rewrite list_lookup_insert_ne.
  assert (Hz : forall f : pc -> Z, zsum f (pcs s') = zsum f (pcs s)).
  { intros f. rewrite Hpcs. rewrite (zsum_insert _ _ _ _ _ Hu'), (zsum_insert _ _ _ _ _ Ht). lia. }
  destruct Hinv as [Hi Hcnt Hone Hpos Hnull]. split; unfold queued, flight in *;
    rewrite ?Hr, ?Hz, ?Hc, ?Hp; try done.
  intros t'. rewrite Hpcs. rewrite list_lookup_insert_Some, list_lookup_insert_Some.
  intros [(_ & ? & _)|(_ & [(_ & ? & _)|(_ & ?)])]; [done|done|by eapply Hnull].
Qed.

Lemma transfer_bounded t u s s' : transfer t u s = Some s' -> bounded s' <-> bounded s.
Proof. intros H. apply transfer_spec in H as (_ & _ & _ & _ & Hp & _). unfold bounded. by rewrite Hp. Qed.

(** The thread has the lock, or is giving it up. *)
Definition holds (x : pc) : bool := match x with Owner | USub _ => true | _ => false end.

Lemma own_holds x : own x = b2z (holds x).
Proof. by destruct x. Qed.

Lemma mutual_exclusion s t1 t2 x1 x2 :
  inv s -> pcs s !! t1 = Some x1 -> pcs s !! t2 = Some x2 ->
  holds x1 = true -> holds x2 = true -> t1 = t2.
Proof.
  intros Hinv H1 H2 Hh1 Hh2. destruct (decide (t1 = t2)) as [|Hne]; [done|exfalso].
  pose proof (zsum_lookup2_le own _ _ _ _ _ lk_own_nonneg Hne H1 H2) as Hle.
  rewrite !own_holds, Hh1, Hh2 in Hle. simpl in Hle.
  pose proof (inv_one _ Hinv) as Hone. unfold flight in *.
  pose proof (tok_nonneg (role_of <$> pcs s) (pl s)).
  pose proof (zsum_nonneg prepop (pcs s) lk_prepop_nonneg). case_match; lia.
Qed.

(** No thread can move on its own. *)
Definition quiescent (s : state) : Prop :=
  forall t, step s (Tick t) = None /\ step s (ParkOk t) = None.

Definition resting (x : pc) (p : pool) : Prop :=
  match x with
  | Idle | Owner | WouldBlock | CancelPanic | Released | PanicNull => True
  | LPark b => pool_can_wake b p = false
  | _ => False
  end.

Lemma lk_quiescent_resting s t x : quiescent s -> pcs s !! t = Some x -> resting x (pl s).
Proof.
  intros Hq Ht. destruct (Hq t) as (H1 & H2). simpl in *. rewrite Ht in *.
  destruct x; simpl in *; try done; unfold pool_pop in *; repeat case_match; try done.
Qed.

(** At rest, an operation has its result or is parked. *)
Lemma resting_inside m x p :
  resting x p -> inside m x = true ->
  match m with
  | MLock => x = Owner \/ x = CancelPanic \/ exists b, x = LPark b
  | MLockNc => x = Owner \/ exists b, x = LPark b
  | MTry => x = Owner \/ x = WouldBlock
  | MUnlock => x = Released
  end.
Proof. destruct m, x; simpl; intros; try done; eauto. Qed.

Lemma lk_resting_pc x p :
  resting x p -> role_rests p (role_of x) /\ prepop x = 0%Z /\ uncounted x = 0%Z.
Proof. by destruct x. Qed.

Lemma rest_owner s :
  inv s -> quiescent s ->
  cnt s = (Z.of_nat (length (queue (pl s))) + zsum own (pcs s))%Z /\
  zsum own (pcs s) = (if (0 <? cnt s) then 1 else 0)%Z /\
  forall t b, pcs s !! t = Some (LPark b) -> b ∈ queue (pl s).
Proof.
  intros Hi Hq.
  assert (Hrest : forall i x, pcs s !! i = Some x -> resting x (pl s))
    by (intros; by eapply lk_quiescent_resting).
  destruct (rest_spec role_of (pcs s) (pl s) (inv_pool _ Hi)) as [Htok Hin]; [|specialize (Htok eq_refl)].
  { intros i x Hx. by apply lk_resting_pc, (Hrest i). }
  pose proof (inv_cnt _ Hi) as Hc. pose proof (inv_one _ Hi) as Ho.
  unfold flight, queued in *. rewrite Htok in *.
  rewrite (zsum_all_zero uncounted) in Hc by (intros i x Hx; by apply (lk_resting_pc x (pl s)), (Hrest i)).
  rewrite (zsum_all_zero prepop) in Ho by (intros i x Hx; by apply (lk_resting_pc x (pl s)), (Hrest i)).
  split_and!; [lia|lia|]. intros t b Ht. by eapply Hin.
Qed.

(** A thread parked at rest is parked behind an owner. *)
Lemma parked_behind_owner s t b :
  inv s -> quiescent s -> pcs s !! t = Some (LPark b) ->
  exists t', t' <> t /\ pcs s !! t' = Some Owner.
Proof.
  intros Hi Hq Ht. destruct (rest_owner s Hi Hq) as (Hc & Ho & Hin).
  specialize (Hin _ _ Ht). destruct (queue (pl s)) as [|b' q]; [by apply not_elem_of_nil in Hin|].
  assert (Hown : (zsum own (pcs s) <> 0)%Z).
  { intros H0. rewrite H0 in *. simpl in Hc. destruct (Z.ltb_spec 0 (cnt s)); lia. }
  apply zsum_nonzero in Hown as (t' & x & Hx & Hne).
  pose proof (lk_quiescent_resting _ _ _ Hq Hx). exists t'. destruct x; try done.
  split; [|done]. intros ->. congruence.
Qed.

End Lk.
