(* ===== verification/Mutex.v ===== *)
(** * Mutex: [src/sync/mutex.rs]

    The hand-off lock of [LockCore] together with the poison flag, the guards and
    the protected data. *)

From stdpp Require Import base numbers list.
From Stdlib Require Import ZArith Lia.
From S2P Require Import Prelude Blocking Handoff Poison LockCore.

Module Mtx.
Section mutex.
Context {D : Type}.

(** [guards] gives, for each thread, the guard it owns (with the [LockResult]
    wrapper [MutexGuard::new] returned). *)
Record state := St {
  core : Lk.state;
  poison : Poison.Flag;
  guards : list (option (Poison.LockResult Poison.Guard));
  data : D
}.

Definition new (d : D) (n : nat) : state :=
  St (Lk.new n) Poison.new (replicate n None) d.

Inductive event :=
  | Core (e : Lk.event)                    (* a step of [lock], [try_lock] or [unlock] *)
  | MakeGuard (t : nat) (en : Poison.env)  (* [MutexGuard::new] *)
  | Access (t : nat) (f : D -> D)          (* through [DerefMut] of the guard *)
  | DropGuard (t : nat) (en : Poison.env)  (* [MutexGuard::drop] *)
  | ClearPoison
  | Forget (t : nat)                       (* [mem::forget] of the guard *)
  | UnlockMutex (t : nat)                  (* [unlock_mutex], by an owner without a guard *)
  | Adopt (t : nat) (r : Poison.LockResult Poison.Guard).
      (* the owner of the lock uses a guard it had put aside ([Condvar::wait]) *)

Definition event_thread (e : event) : option nat :=
  match e with
  | Core (Lk.Lock t | Lk.TryLock t | Lk.Unlock t | Lk.Tick t | Lk.ParkOk t
         | Lk.ParkCanceled t _ | Lk.Return t) => Some t
  | MakeGuard t _ | Access t _ | DropGuard t _ | Forget t | UnlockMutex t | Adopt t _ => Some t
  | ClearPoison => None
  end.

Definition is_poisoned (s : state) : bool := Poison.get (poison s).

(** [MutexGuard::new]: the poison flag is borrowed by the owner. *)
Definition guard_new (t : nat) (en : Poison.env) (s : state) : option state :=
  match Lk.pcs (core s) !! t, guards s !! t with
  | Some Lk.Owner, Some None =>
      Some (St (core s) (poison s)
              (<[t:=Some (Poison.map_result (Poison.borrow en (poison s)) (fun g => g))]> (guards s))
              (data s))
  | _, _ => None
  end.

(** [Drop for MutexGuard]: [poison.done], then [unlock]. *)
Definition guard_drop (t : nat) (en : Poison.env) (s : state) : option state :=
  match guards s !! t with
  | Some (Some r) =>
      match Lk.step (core s) (Lk.Unlock t) with
      | Some c' =>
          Some (St c' (Poison.done en (Poison.into_inner r) (poison s)) (<[t:=None]> (guards s)) (data s))
      | None => None
      end
  | _ => None
  end.

(** [unlock_mutex]: the lock without its guard. *)
Definition unlock_mutex (t : nat) (s : state) : option state :=
  match guards s !! t with
  | Some None =>
      match Lk.step (core s) (Lk.Unlock t) with
      | Some c' => Some (St c' (poison s) (guards s) (data s))
      | None => None
      end
  | _ => None
  end.

Definition is_unlock (e : Lk.event) : bool := match e with Lk.Unlock _ => true | _ => false end.

Definition step (s : state) (e : event) : option state :=
  match e with
  | Core e =>
      if is_unlock e then None   (* only a dropped guard unlocks *)
      else match Lk.step (core s) e with
           | Some c' => Some (St c' (poison s) (guards s) (data s))
           | None => None
           end
  | MakeGuard t en => guard_new t en s
  | Access t f =>
      match guards s !! t with
      | Some (Some _) => Some (St (core s) (poison s) (guards s) (f (data s)))
      | _ => None
      end
  | DropGuard t en => guard_drop t en s
  | ClearPoison => Some (St (core s) (Poison.clear (poison s)) (guards s) (data s))
  | Forget t =>
      match guards s !! t with
      | Some (Some _) => Some (St (core s) (poison s) (<[t:=None]> (guards s)) (data s))
      | _ => None
      end
  | UnlockMutex t => unlock_mutex t s
  | Adopt t r =>
      match Lk.pcs (core s) !! t, guards s !! t with
      | Some Lk.Owner, Some None => Some (St (core s) (poison s) (<[t:=Some r]> (guards s)) (data s))
      | _, _ => None
      end
  end.

(** [into_inner] and [get_mut] do not lock: the data, wrapped by the flag. *)
Definition into_inner (en : Poison.env) (s : state) : Poison.LockResult D :=
  Poison.map_result (Poison.borrow en (poison s)) (fun _ => data s).
Definition get_mut (en : Poison.env) (s : state) : Poison.LockResult D :=
  Poison.map_result (Poison.borrow en (poison s)) (fun _ => data s).

Definition has_guard (s : state) (t : nat) : Prop := exists r, guards s !! t = Some (Some r).
Definition bounded (s : state) : Prop := Lk.bounded (core s).

Record inv (s : state) : Prop := {
  inv_core : Lk.inv (core s);
  (** a guard exists only while its thread owns the lock *)
  inv_guard : forall t, has_guard s t -> Lk.pcs (core s) !! t = Some Lk.Owner
}.

Lemma step_core s e s' :
  step s e = Some s' -> core s' = core s \/ exists e', Lk.step (core s) e' = Some (core s').
Proof.
  intros H. destruct e as [e|i en|i f|i en| |i|i|i r]; cbn [step] in H;
    unfold guard_new, guard_drop, unlock_mutex in H.
  1: right; exists e; destruct (is_unlock e); [done|]; by destruct (Lk.step _ _); simplify_eq.
  3,6: right; exists (Lk.Unlock i); destruct (guards s !! i) as [[]|]; try discriminate H;
    by destruct (Lk.step _ _); simplify_eq.
  all: left; repeat (case_match; try discriminate H); by simplify_eq.
Qed.

Lemma mtx_bounded_step s e s' : step s e = Some s' -> bounded s' -> bounded s.
Proof.
  unfold bounded. intros H Hb. destruct (step_core _ _ _ H) as [<-|[e' He]]; eauto using Lk.lk_bounded_step.
Qed.

(** What a step does to the lock: nothing, an owner unlocking while it has no
    guard left, or a step of a thread that is not an owner. *)
Lemma mtx_step_guards s e s' t :
  step s e = Some s' -> has_guard s' t -> inv s -> Lk.pcs (core s) !! t = Some Lk.Owner.
Proof.
  intros H [r Hr] [_ Hg].
  assert (Hkeep : guards s !! t = Some (Some r) -> Lk.pcs (core s) !! t = Some Lk.Owner)
    by (intros; apply Hg; by eexists).
  destruct e as [e|i en|i f|i en| |i|i|i x]; cbn [step] in H;
    unfold guard_new, guard_drop, unlock_mutex in H;
    repeat (case_match; try discriminate H); simplify_eq/=; auto.
  all: apply lookup_insert_list in Hr as [(-> & ? & _)|[_ ?]]; [done|auto].
Qed.

Lemma mtx_step_unlock s e s' t :
  step s e = Some s' -> has_guard s' t -> Lk.pcs (core s) !! t = Some Lk.Owner ->
  Lk.pcs (core s') !! t = Some Lk.Owner.
Proof.
  intros H [r Hr] Ho.
  assert (Hcore : forall e' c', Lk.step (core s) e' = Some c' ->
    (Lk.thread e' = t -> e' <> Lk.Unlock t) -> Lk.pcs c' !! t = Some Lk.Owner).
  { intros e' c' Hs Hne. destruct (decide (t = Lk.thread e')) as [->|Hd].
    - destruct (Lk.step_pcs _ _ _ Hs) as (x & y & Hx & _ & Hu). simplify_eq.
      destruct Hne; [done|by apply Hu].
    - by rewrite (Lk.step_pcs_other _ _ _ _ Hs). }
  destruct e as [e|i en|i f|i en| |i|i|i x]; cbn [step] in H;
    unfold guard_new, guard_drop, unlock_mutex in H.
  - destruct (is_unlock e) eqn:He; [discriminate H|].
    destruct (Lk.step _ _) as [c'|] eqn:Hs; try discriminate H; simplify_eq/=.
    eapply Hcore; [exact Hs|]. intros _ ->. done.
  - repeat (case_match; try discriminate H); by simplify_eq/=.
  - repeat (case_match; try discriminate H); by simplify_eq/=.
  - destruct (guards s !! i) as [[r'|]|] eqn:Hgi; try discriminate H.
    destruct (Lk.step _ _) as [c'|] eqn:Hs; try discriminate H; simplify_eq/=.
    apply lookup_insert_list in Hr as [(_ & ? & _)|[Hne _]]; [done|].
    eapply (Hcore (Lk.Unlock i)); [exact Hs|]. simpl. congruence.
  - by simplify_eq/=.
  - repeat (case_match; try discriminate H); by simplify_eq/=.
  - destruct (guards s !! i) as [[r'|]|] eqn:Hgi; try discriminate H.
    destruct (Lk.step _ _) as [c'|] eqn:Hs; try discriminate H; simplify_eq/=.
    eapply (Hcore (Lk.Unlock i)); [exact Hs|]. simpl. intros -> _. congruence.
  - repeat (case_match; try discriminate H); by simplify_eq/=.
Qed.

Lemma mtx_inv_step s e s' : bounded s' -> inv s -> step s e = Some s' -> inv s'.
Proof.
  unfold bounded. intros Hb Hinv H. split.
  - destruct (step_core _ _ _ H) as [->|[e' He]]; [apply Hinv|].
    by eapply Lk.lk_inv_step, He; [|apply Hinv].
  - intros t Ht. eapply mtx_step_unlock; eauto using mtx_step_guards.
Qed.

Lemma mtx_inv_init d n : inv (new d n).
Proof.
  split; [apply Lk.lk_inv_init|]. intros t [r Hr]. simpl in Hr. by apply lookup_replicate in Hr as [? _].
Qed.

Lemma mtx_inv_reachable d n s : reachable step (new d n) s -> bounded s -> inv s.
Proof.
  intros Hr. induction Hr as [|s e s' Hr IH Hs]; intros Hb; [apply mtx_inv_init|].
  eapply mtx_inv_step; [done| |done]. eauto using mtx_bounded_step.
Qed.

(** ** The mutex, seen by one thread *)

Definition apply (e : event) (s : state) : option state := step s e.

Definition view (r : state) (t : nat) :
    option Lk.pc * option (option (Poison.LockResult Poison.Guard)) :=
  (Lk.pcs (core r) !! t, guards r !! t).
Definition sizes (r : state) : nat * nat :=
  (length (Lk.pcs (core r)), length (guards r)).
Definition frame (t : nat) (r r' : state) : Prop :=
  sizes r' = sizes r /\ forall t', t' <> t -> view r' t' = view r t'.

Lemma frame_refl t r : frame t r r.
Proof. by split. Qed.
Lemma frame_trans t r1 r2 r3 : frame t r1 r2 -> frame t r2 r3 -> frame t r1 r3.
Proof. intros [H1 H2] [H3 H4]. split; [by rewrite H3|]. intros t' Hne. by rewrite H4, H2. Qed.

Ltac solve_frame :=
  split; [unfold sizes; simpl; by rewrite ?length_insert|];
  let t' := fresh in let Hne := fresh in intros t' Hne; unfold view; simpl;
  by rewrite ?list_lookup_insert_ne by done.

(** Inversion of the events. *)
Lemma make_spec t en r r' :
  apply (MakeGuard t en) r = Some r' ->
  view r t = (Some Lk.Owner, Some None) /\ frame t r r' /\
  view r' t = (Some Lk.Owner, Some (Some (Poison.map_result (Poison.borrow en (poison r)) (fun gd => gd)))) /\
  data r' = data r /\ poison r' = poison r.
Proof.
  unfold apply. cbn [step]. unfold guard_new. intros H.
  repeat (case_match; try discriminate H); simplify_eq. unfold view. simpl.
  split_and!; try done; [by f_equal|solve_frame|].
  f_equal; [done|]. apply list_lookup_insert_eq. by eapply lookup_lt_Some.
Qed.

Lemma access_spec t f r r' :
  apply (Access t f) r = Some r' ->
  (exists x, guards r !! t = Some (Some x)) /\ frame t r r' /\ view r' t = view r t /\
  data r' = f (data r) /\ poison r' = poison r.
Proof.
  unfold apply. cbn [step]. intros H.
  repeat (case_match; try discriminate H); simplify_eq. unfold frame, view, sizes. simpl. eauto 10.
Qed.

Lemma unlock_set c t c' :
  Lk.step c (Lk.Unlock t) = Some c' ->
  Lk.pcs c !! t = Some Lk.Owner /\ c' = Lk.set_pc t (Lk.USub Lk.URet) c.
Proof. simpl. intros H. repeat (case_match; try discriminate H); by simplify_eq. Qed.

Lemma drop_spec t en r r' :
  apply (DropGuard t en) r = Some r' ->
  exists x, view r t = (Some Lk.Owner, Some (Some x)) /\ frame t r r' /\
  view r' t = (Some (Lk.USub Lk.URet), Some None) /\
  data r' = data r /\ poison r' = Poison.done en (Poison.into_inner x) (poison r).
Proof.
  unfold apply. cbn [step]. unfold guard_drop. intros H.
  destruct (guards r !! t) as [[x|]|] eqn:Hg; try discriminate H.
  destruct (Lk.step _ _) as [c'|] eqn:Hs; try discriminate H. simplify_eq.
  apply unlock_set in Hs as [Ho ->]. exists x. unfold view; simpl.
  rewrite !list_lookup_insert_eq by (by eapply lookup_lt_Some).
  split_and!; try done; [by f_equal|solve_frame].
Qed.

Lemma forget_unlock_spec t r r1 r' :
  apply (Forget t) r = Some r1 -> apply (UnlockMutex t) r1 = Some r' ->
  frame t r r' /\ view r' t = (Some (Lk.USub Lk.URet), Some None) /\
  data r' = data r /\ poison r' = poison r.
Proof.
  unfold apply. cbn [step]. intros H1 H2.
  destruct (guards r !! t) as [[x|]|] eqn:Hg; try discriminate H1. simplify_eq.
  unfold unlock_mutex in H2. cbn [guards core] in H2.
  rewrite list_lookup_insert_eq in H2 by (by eapply lookup_lt_Some).
  destruct (Lk.step _ _) as [c'|] eqn:Hs; try discriminate H2. simplify_eq.
  apply unlock_set in Hs as [Ho ->]. unfold view; simpl.
  rewrite !list_lookup_insert_eq by (by eapply lookup_lt_Some).
  split_and!; try done; solve_frame.
Qed.

Lemma core_spec e r r' :
  apply (Core e) r = Some r' ->
  is_unlock e = false /\ Lk.step (core r) e = Some (core r') /\ frame (Lk.thread e) r r' /\
  guards r' = guards r /\ data r' = data r /\ poison r' = poison r.
Proof.
  unfold apply. cbn [step]. intros H.
  destruct (is_unlock e) eqn:Hu; [discriminate H|].
  destruct (Lk.step _ _) as [c'|] eqn:Hs; try discriminate H. simplify_eq/=. split_and!; try done.
  split.
  - unfold sizes. simpl. by rewrite (Lk.step_pcs_length _ _ _ Hs).
  - intros t' Hne. unfold view. simpl. by rewrite (Lk.step_pcs_other _ _ _ _ Hs).
Qed.

Lemma unlock_mutex_spec t r r' :
  apply (UnlockMutex t) r = Some r' ->
  view r t = (Some Lk.Owner, Some None) /\ frame t r r' /\
  view r' t = (Some (Lk.USub Lk.URet), Some None) /\ data r' = data r /\ poison r' = poison r.
Proof.
  unfold apply. cbn [step]. unfold unlock_mutex. intros H.
  destruct (guards r !! t) as [[x|]|] eqn:Hg; try discriminate H.
  destruct (Lk.step _ _) as [c'|] eqn:Hs; try discriminate H. simplify_eq.
  apply unlock_set in Hs as [Ho ->]. unfold view; simpl.
  rewrite !list_lookup_insert_eq by (by eapply lookup_lt_Some).
  split_and!; try done; [by f_equal|solve_frame|by f_equal].
Qed.

Lemma adopt_spec t x r r' :
  apply (Adopt t x) r = Some r' ->
  view r t = (Some Lk.Owner, Some None) /\ frame t r r' /\
  view r' t = (Some Lk.Owner, Some (Some x)) /\ data r' = data r /\ poison r' = poison r.
Proof.
  unfold apply. cbn [step]. intros H.
  repeat (case_match; try discriminate H); simplify_eq. unfold view; simpl.
  rewrite !list_lookup_insert_eq by (by eapply lookup_lt_Some).
  split_and!; try done; [by f_equal|solve_frame|by f_equal].
Qed.

(** An event moves the thread it names. *)
Lemma apply_frame t e r r' : apply e r = Some r' -> event_thread e = Some t -> frame t r r'.
Proof.
  intros H He. destruct e as [e|i en|i f|i en| |i|i|i x].
  - apply core_spec in H as (_ & _ & Hf & _). by destruct e; simplify_eq/=.
  - apply make_spec in H. simplify_eq/=. apply H.
  - apply access_spec in H. simplify_eq/=. apply H.
  - apply drop_spec in H as (x & H). simplify_eq/=. apply H.
  - done.
  - unfold apply in H. cbn [step] in H. simplify_eq/=.
    repeat (case_match; try discriminate H); simplify_eq. solve_frame.
  - apply unlock_mutex_spec in H. simplify_eq/=. apply H.
  - apply adopt_spec in H. simplify_eq/=. apply H.
Qed.

(** No thread can move on its own: neither in the lock nor to take its guard. *)
Definition quiescent (s : state) : Prop := Lk.quiescent (core s).

(** ** Properties *)

(** C3. Mutual exclusion: while a thread owns a guard, no other thread owns one,
    and no step of another thread - whatever the interleaving of lock attempts,
    cancellations and unlocks - changes the protected data. *)
Theorem guard_exclusive d n s t
  (Hr : reachable step (new d n) s) (Hb : bounded s) (Hg : has_guard s t) :
  (forall t', has_guard s t' -> t' = t) /\
  (forall e s', step s e = Some s' -> event_thread e <> Some t -> data s' = data s).
Proof.
  pose proof (mtx_inv_reachable _ _ _ Hr Hb) as [Hc Hown].
  assert (Huniq : forall t', has_guard s t' -> t' = t).
  { intros t' Hg'. eapply Lk.mutual_exclusion; eauto. }
  split; [done|]. intros e s' Hs Hne.
  destruct e as [e|i en|i f|i en| |i|i|i r]; cbn [step] in Hs; unfold guard_new, guard_drop, unlock_mutex in Hs;
    repeat (case_match; try discriminate Hs); simplify_eq/=; try done.
  exfalso. apply Hne. f_equal. apply Huniq. eexists. eauto.
Qed.

(** C4. The lock is never lost: if no thread can move on its own and one is
    parked in [lock], then another thread owns the lock; and the "got null
    blocker" panic of [lock] and [unlock] is unreachable.  A hand-off to a
    cancelled waiter is therefore always passed on. *)
Theorem lock_not_lost d n s t b
  (Hr : reachable step (new d n) s) (Hb : bounded s)
  (Hq : quiescent s) (Hp : Lk.pcs (core s) !! t = Some (Lk.LPark b)) :
  (exists t', t' <> t /\ Lk.pcs (core s) !! t' = Some Lk.Owner) /\
  forall t', Lk.pcs (core s) !! t' <> Some Lk.PanicNull.
Proof.
  pose proof (mtx_inv_reachable _ _ _ Hr Hb) as [Hc _]. split.
  - by eapply Lk.parked_behind_owner.
  - apply (Lk.inv_pcs _ Hc).
Qed.

(** ** Poisoning, read off the history of a run *)








End mutex.
Arguments state : clear implicits.
Arguments event : clear implicits.
Arguments apply {D} e s : simpl never.

(** ** Witnesses: thread 0 locks, threads 1 and 2 queue, thread 1 is cancelled
    and leaves a released blocker in front of thread 2. *)
Definition calm : Poison.env := Poison.Env false false false false.
Definition panic : Poison.env := Poison.Env true false false false.
Definition ticks (t n : nat) : list (event nat) := replicate n (Core (Lk.Tick t)).
Definition lock_ev (t n : nat) : list (event nat) := Core (Lk.Lock t) :: ticks t n.
Definition demo_wait : list (event nat) :=
  lock_ev 0 1 ++ [MakeGuard 0 calm] ++ lock_ev 1 4 ++ lock_ev 2 4 ++
  [Core (Lk.ParkCanceled 1 false)] ++ ticks 1 3.
Definition demo_handoff : list (event nat) :=
  demo_wait ++ [Access 0 (fun x => x + 1); DropGuard 0 panic] ++ ticks 0 5 ++ ticks 0 5 ++
  [Core (Lk.ParkOk 2); MakeGuard 2 calm].
Definition final (es : list (event nat)) : state nat := default (new 7 3) (run step es (new 7 3)).

Example demo_handoff_result :
  Lk.pcs (core (final demo_handoff)) = [Lk.Released; Lk.CancelPanic; Lk.Owner] /\
  data (final demo_handoff) = 8 /\ is_poisoned (final demo_handoff) = true.
Proof. by vm_compute. Qed.

Lemma guard_exclusive_witness :
  (forall t', has_guard (final demo_handoff) t' -> t' = 2) /\
  (forall e s', step (final demo_handoff) e = Some s' -> event_thread e <> Some 2 ->
     data s' = data (final demo_handoff)).
Proof.
  apply (guard_exclusive 7 3).
  - apply run_reachable with (es := demo_handoff). vm_compute. reflexivity.
  - vm_compute. reflexivity.
  - eexists. vm_compute. reflexivity.
Defined.

Lemma lock_not_lost_witness :
  (exists t', t' <> 2 /\ Lk.pcs (core (final demo_wait)) !! t' = Some Lk.Owner) /\
  forall t', Lk.pcs (core (final demo_wait)) !! t' <> Some Lk.PanicNull.
Proof.
  apply (lock_not_lost 7 3 _ 2 1).
  - apply run_reachable with (es := demo_wait). vm_compute. reflexivity.
  - vm_compute. reflexivity.
  - intros [|[|[|t]]]; vm_compute; auto.
  - vm_compute. reflexivity.
Defined.


End Mtx.
