(* ===== verification/RwLock.v ===== *)
(** * RwLock: [src/sync/rwlock.rs]

    A global hand-off lock ([LockCore], with the cancellation of its [lock]
    never ignored) and the reader mutex ([Mutex] over the reader count).  The
    glue between them follows [read], [try_read], [read_unlock],
    [try_lock_rlock], [write] and [try_write]; every step of either lock
    interleaves with the steps of all other threads.

    The global lock is held by the set of readers or by the write guard, not by a
    thread: two more slots of the lock's thread table, [readers_slot] and
    [writer_slot], stand for them, and [Lk.transfer] moves the obligation to
    unlock there and back. *)

From stdpp Require Import base numbers list option.
From Stdlib Require Import ZArith Lia.
From S2P Require Import Prelude Blocking Handoff Poison LockCore Mutex.

Module Rw.

Inductive kind := Block | Try.
Inductive outcome := OGuard (poisoned : bool) | OWouldBlock | OCanceled | ODropped.

Inductive pc :=
  | Idle | Ret (o : outcome)
  (* read, try_read *)
  | RdLock (k : kind) | RdCheck (k : kind) | RdGlobal (k : kind) | RdInc (k : kind) (via : bool)
  | RdRel (o : outcome)              (* the local guard of [rlock] is dropped *)
  (* read_unlock *)
  | DrSpin (n : N) | DrSpinRel (n : N) | DrLock | DrDec | DrGlobal
  (* write, try_write, write_unlock *)
  | WrLock (k : kind) | DwUnlock
  (* [expect] on a poisoned [rlock] *)
  | ExpRel | PanicExpect.

(** A thread: what it runs, its read guards, its write guard. *)
Record thr := Thr { tpc : pc; rg : nat; wg : option (Poison.LockResult Poison.Guard) }.

Section rwlock.
Context {D : Type}.

Record state := St {
  g : Lk.state;            (* [to_wake], [cnt] *)
  rl : Mtx.state Z;        (* [rlock: Mutex<usize>] *)
  poison : Poison.Flag;
  data : D;
  ths : list thr
}.

Definition new (d : D) (n : nat) : state :=
  St (Lk.new (S (S n))) (Mtx.new 0%Z n) Poison.new d (replicate n (Thr Idle 0 None)).

Definition readers_slot (s : state) : nat := length (ths s).
Definition writer_slot (s : state) : nat := S (length (ths s)).

Inductive op :=
  | CRead (k : kind) | CWrite (k : kind)
  | CDropRead (panicking : bool)      (* [thread::panicking()] inside [read_unlock] *)
  | CDropWrite (en : Poison.env).

Inductive event :=
  | Call (t : nat) (o : op)
  | Gl (e : Lk.event)                 (* a step inside [lock], [try_lock], [unlock] *)
  | Rl (e : Lk.event)                 (* a step inside an operation of [rlock] *)
  | Step (t : nat) (en : Poison.env)  (* the code between the lock operations *)
  | Access (t : nat) (f : D -> D)     (* [DerefMut] of the write guard *)
  | ClearPoison
  | Return (t : nat).

Definition put (t : nat) (th : thr) (g' : Lk.state) (r' : Mtx.state Z) (s : state) : state :=
  St g' r' (poison s) (data s) (<[t:=th]> (ths s)).

Definition lock_event (k : kind) (t : nat) : Lk.event :=
  match k with Block => Lk.Lock t | Try => Lk.TryLock t end.

Definition gpc (t : nat) (s : state) : option Lk.pc := Lk.pcs (g s) !! t.
Definition rpc (t : nat) (s : state) : option Lk.pc := Lk.pcs (Mtx.core (rl s)) !! t.

#[local] Abbreviation rl_step := Mtx.apply.
Definition rl_core (e : Lk.event) : Mtx.state Z -> option (Mtx.state Z) := rl_step (Mtx.Core e).

(** [read] and [try_read]. *)
Definition step_read (t : nat) (en : Poison.env) (th : thr) (s : state) : option state :=
  match tpc th with
  | RdLock k =>
      match rpc t s, k with
      | Some Lk.Owner, _ =>
          r' ← rl_step (Mtx.MakeGuard t en) (rl s);
          if Mtx.is_poisoned (rl s) then
            (* [expect] panics; [try_read] wraps a guard it has not counted *)
            r'' ← rl_step (Mtx.DropGuard t en) r';
            Some (match k with
                  | Block => put t (Thr ExpRel (rg th) (wg th)) (g s) r'' s
                  | Try => put t (Thr (RdRel (OGuard true)) (S (rg th)) (wg th)) (g s) r'' s
                  end)
          else Some (put t (Thr (RdCheck k) (rg th) (wg th)) (g s) r' s)
      | Some Lk.CancelPanic, Block =>
          r' ← rl_core (Lk.Return t) (rl s);
          Some (put t (Thr (Ret OCanceled) (rg th) (wg th)) (g s) r' s)
      | Some Lk.WouldBlock, Try =>
          r' ← rl_core (Lk.Return t) (rl s);
          Some (put t (Thr (Ret OWouldBlock) (rg th) (wg th)) (g s) r' s)
      | _, _ => None
      end
  | RdCheck k =>
      if (Mtx.data (rl s) =? 0)%Z then
        g' ← Lk.step (g s) (lock_event k t);
        Some (put t (Thr (RdGlobal k) (rg th) (wg th)) g' (rl s) s)
      else Some (put t (Thr (RdInc k false) (rg th) (wg th)) (g s) (rl s) s)
  | RdGlobal k =>
      match gpc t s, k with
      | Some Lk.Owner, _ => Some (put t (Thr (RdInc k true) (rg th) (wg th)) (g s) (rl s) s)
      | Some Lk.CancelPanic, Block =>
          g' ← Lk.step (g s) (Lk.Return t);
          r' ← rl_step (Mtx.Forget t) (rl s);
          r'' ← rl_step (Mtx.UnlockMutex t) r';
          Some (put t (Thr (RdRel OCanceled) (rg th) (wg th)) g' r'' s)
      | Some Lk.WouldBlock, Try =>
          g' ← Lk.step (g s) (Lk.Return t);
          r' ← rl_step (Mtx.DropGuard t en) (rl s);
          Some (put t (Thr (RdRel OWouldBlock) (rg th) (wg th)) g' r' s)
      | _, _ => None
      end
  | RdInc k via =>
      r' ← rl_step (Mtx.Access t (fun n => Word.add n 1)) (rl s);
      g' ← (if via then Lk.transfer t (readers_slot s) (g s) else Some (g s));
      r'' ← rl_step (Mtx.DropGuard t en) r';
      Some (put t (Thr (RdRel (OGuard (Poison.get (poison s)))) (S (rg th)) (wg th)) g' r'' s)
  | RdRel o =>
      match rpc t s with
      | Some Lk.Released =>
          r' ← rl_core (Lk.Return t) (rl s);
          Some (put t (Thr (Ret o) (rg th) (wg th)) (g s) r' s)
      | _ => None
      end
  | _ => None
  end.

(** The next attempt of [try_lock_rlock], which gives up after its bound. *)
Definition spin_next (t : nat) (n : N) (r : Mtx.state Z) : option (Mtx.state Z * pc) :=
  if (n =? 0)%N then r' ← rl_core (Lk.Lock t) r; Some (r', DrLock)
  else r' ← rl_core (Lk.TryLock t) r; Some (r', DrSpin (n - 1)).

(** [read_unlock], with [try_lock_rlock]. *)
Definition step_read_unlock (t : nat) (en : Poison.env) (th : thr) (s : state) : option state :=
  match tpc th with
  | DrLock =>
      match rpc t s with
      | Some Lk.Owner =>
          r' ← rl_step (Mtx.MakeGuard t en) (rl s);
          if Mtx.is_poisoned (rl s) then
            r'' ← rl_step (Mtx.DropGuard t en) r';
            Some (put t (Thr ExpRel (rg th) (wg th)) (g s) r'' s)
          else Some (put t (Thr DrDec (rg th) (wg th)) (g s) r' s)
      | _ => None
      end
  | DrSpin n =>
      match rpc t s with
      | Some Lk.Owner =>
          r' ← rl_step (Mtx.MakeGuard t en) (rl s);
          if Mtx.is_poisoned (rl s) then
            r'' ← rl_step Mtx.ClearPoison r';
            r3 ← rl_step (Mtx.DropGuard t en) r'';
            Some (put t (Thr (DrSpinRel n) (rg th) (wg th)) (g s) r3 s)
          else Some (put t (Thr DrDec (rg th) (wg th)) (g s) r' s)
      | Some Lk.WouldBlock =>
          r' ← rl_core (Lk.Return t) (rl s);
          '(r'', x) ← spin_next t n r';
          Some (put t (Thr x (rg th) (wg th)) (g s) r'' s)
      | _ => None
      end
  | DrSpinRel n =>
      match rpc t s with
      | Some Lk.Released =>
          r' ← rl_core (Lk.Return t) (rl s);
          '(r'', x) ← spin_next t n r';
          Some (put t (Thr x (rg th) (wg th)) (g s) r'' s)
      | _ => None
      end
  | DrDec =>
      r' ← rl_step (Mtx.Access t (fun n => Word.sub n 1)) (rl s);
      if (Mtx.data r' =? 0)%Z then
        g' ← Lk.transfer (readers_slot s) t (g s);
        g'' ← Lk.step g' (Lk.Unlock t);
        Some (put t (Thr DrGlobal (rg th) (wg th)) g'' r' s)
      else
        r'' ← rl_step (Mtx.DropGuard t en) r';
        Some (put t (Thr (RdRel ODropped) (rg th) (wg th)) (g s) r'' s)
  | DrGlobal =>
      match gpc t s with
      | Some Lk.Released =>
          g' ← Lk.step (g s) (Lk.Return t);
          r' ← rl_step (Mtx.DropGuard t en) (rl s);
          Some (put t (Thr (RdRel ODropped) (rg th) (wg th)) g' r' s)
      | _ => None
      end
  | _ => None
  end.

(** [write], [try_write], [write_unlock]. *)
Definition step_write (t : nat) (en : Poison.env) (th : thr) (s : state) : option state :=
  match tpc th with
  | WrLock k =>
      match gpc t s, k with
      | Some Lk.Owner, _ =>
          g' ← Lk.transfer t (writer_slot s) (g s);
          let w := Poison.map_result (Poison.borrow en (poison s)) (fun gd => gd) in
          Some (put t (Thr (Ret (OGuard (Poison.is_err w))) (rg th) (Some w)) g' (rl s) s)
      | Some Lk.CancelPanic, Block =>
          g' ← Lk.step (g s) (Lk.Return t);
          Some (put t (Thr (Ret OCanceled) (rg th) (wg th)) g' (rl s) s)
      | Some Lk.WouldBlock, Try =>
          g' ← Lk.step (g s) (Lk.Return t);
          Some (put t (Thr (Ret OWouldBlock) (rg th) (wg th)) g' (rl s) s)
      | _, _ => None
      end
  | DwUnlock =>
      match gpc t s with
      | Some Lk.Released =>
          g' ← Lk.step (g s) (Lk.Return t);
          Some (put t (Thr (Ret ODropped) (rg th) (wg th)) g' (rl s) s)
      | _ => None
      end
  | _ => None
  end.

Definition step_expect (t : nat) (th : thr) (s : state) : option state :=
  match tpc th, rpc t s with
  | ExpRel, Some Lk.Released =>
      r' ← rl_core (Lk.Return t) (rl s);
      Some (put t (Thr PanicExpect (rg th) (wg th)) (g s) r' s)
  | _, _ => None
  end.

Definition step_thread (t : nat) (en : Poison.env) (th : thr) (s : state) : option state :=
  match tpc th with
  | RdLock _ | RdCheck _ | RdGlobal _ | RdInc _ _ | RdRel _ => step_read t en th s
  | DrSpin _ | DrSpinRel _ | DrLock | DrDec | DrGlobal => step_read_unlock t en th s
  | WrLock _ | DwUnlock => step_write t en th s
  | ExpRel => step_expect t th s
  | Idle | Ret _ | PanicExpect => None
  end.

(** The beginning of an operation by an idle thread.  The spin bound of
    [try_lock_rlock] is one million attempts. *)
Definition call (t : nat) (o : op) (th : thr) (s : state) : option state :=
  match o with
  | CRead k =>
      r' ← rl_core (lock_event k t) (rl s);
      Some (put t (Thr (RdLock k) (rg th) (wg th)) (g s) r' s)
  | CWrite k =>
      g' ← Lk.step (g s) (lock_event k t);
      Some (put t (Thr (WrLock k) (rg th) (wg th)) g' (rl s) s)
  | CDropRead panicking =>
      match rg th with
      | O => None
      | S m =>
          if panicking then
            '(r', x) ← spin_next t 1000000 (rl s);
            Some (put t (Thr x m (wg th)) (g s) r' s)
          else
            r' ← rl_core (Lk.Lock t) (rl s);
            Some (put t (Thr DrLock m (wg th)) (g s) r' s)
      end
  | CDropWrite en =>
      match wg th with
      | None => None
      | Some w =>
          g' ← Lk.transfer (writer_slot s) t (g s);
          g'' ← Lk.step g' (Lk.Unlock t);
          Some (St g'' (rl s) (Poison.done en (Poison.into_inner w) (poison s)) (data s)
                  (<[t:=Thr DwUnlock (rg th) None]> (ths s)))
      end
  end.

(** Which operation of either lock a thread is inside of. *)
Definition kind_mode (k : kind) : Lk.mode := match k with Block => Lk.MLock | Try => Lk.MTry end.
Definition rl_mode (x : pc) : option Lk.mode :=
  match x with
  | RdLock k => Some (kind_mode k)
  | DrLock => Some Lk.MLockNc      (* cancellation is disabled around the lock *)
  | DrSpin _ => Some Lk.MTry
  | RdRel _ | DrSpinRel _ | ExpRel => Some Lk.MUnlock
  | _ => None
  end.
Definition g_mode (x : pc) : option Lk.mode :=
  match x with
  | RdGlobal k | WrLock k => Some (kind_mode k)
  | DrGlobal | DwUnlock => Some Lk.MUnlock
  | _ => None
  end.
(** The global [lock], [try_lock], [unlock] and [unpark_one] run the steps of
    [LockCore]; unlike [Mutex::lock], a cancelled [lock] does not look at
    [is_disabled]: it always leaves. *)
Definition no_ignore (e : Lk.event) : bool :=
  match e with Lk.ParkCanceled _ ign => negb ign | _ => true end.
Definition global_step (c : Lk.state) (e : Lk.event) : option Lk.state :=
  if no_ignore e then Lk.step c e else None.
Definition sub_ok (m : option Lk.mode) (e : Lk.event) : bool :=
  match m with Some m => Lk.internal e && Lk.mode_ok m e | None => false end.

Definition step (s : state) (e : event) : option state :=
  match e with
  | Call t o =>
      match ths s !! t with
      | Some th => match tpc th with Idle => call t o th s | _ => None end
      | None => None
      end
  | Gl e =>
      match ths s !! Lk.thread e with
      | Some th =>
          if sub_ok (g_mode (tpc th)) e
          then g' ← global_step (g s) e; Some (St g' (rl s) (poison s) (data s) (ths s))
          else None
      | None => None
      end
  | Rl e =>
      match ths s !! Lk.thread e with
      | Some th =>
          if sub_ok (rl_mode (tpc th)) e
          then r' ← rl_core e (rl s); Some (St (g s) r' (poison s) (data s) (ths s))
          else None
      | None => None
      end
  | Step t en => match ths s !! t with Some th => step_thread t en th s | None => None end
  | Access t f =>
      match ths s !! t with
      | Some th =>
          match wg th with
          | Some _ => Some (St (g s) (rl s) (poison s) (f (data s)) (ths s))
          | None => None
          end
      | None => None
      end
  | ClearPoison => Some (St (g s) (rl s) (Poison.clear (poison s)) (data s) (ths s))
  | Return t =>
      match ths s !! t with
      | Some th =>
          match tpc th with
          | Ret _ => Some (put t (Thr Idle (rg th) (wg th)) (g s) (rl s) s)
          | _ => None
          end
      | None => None
      end
  end.

(** The critical sections of the reader mutex never panic ([try_lock_rlock]
    says so): dropping its guard does not see a new panic, and the reader count
    stays below its maximum. *)
Definition quiet (s : state) (e : event) : bool :=
  match e with
  | Step t en =>
      match Mtx.guards (rl s) !! t with
      | Some (Some r) => negb (Poison.raises en (Poison.into_inner r))
      | _ => true
      end && (Mtx.data (rl s) <? Word.usize_max)%Z
  | _ => true
  end.
Definition qstep (s : state) (e : event) : option state := if quiet s e then step s e else None.

Definition is_poisoned (s : state) : bool := Poison.get (poison s).

(** The reader mutex, seen by one thread. *)
#[local] Abbreviation rv := Mtx.view.
#[local] Abbreviation sizes := Mtx.sizes.
#[local] Abbreviation rframe := Mtx.frame.

(** Starting and finishing an operation of a lock. *)
Definition first_pc (k : kind) : Lk.pc := match k with Block => Lk.LCas | Try => Lk.TCas end.

Lemma lk_begin k t c c' :
  Lk.step c (lock_event k t) = Some c' ->
  Lk.pcs c !! t = Some Lk.Idle /\ c' = Lk.set_pc t (first_pc k) c.
Proof. destruct k; simpl; intros H; repeat (case_match; try discriminate H); by simplify_eq. Qed.

Lemma lk_return t c c' :
  Lk.step c (Lk.Return t) = Some c' -> Lk.pcs c' = <[t:=Lk.Idle]> (Lk.pcs c) /\ Lk.pcs c !! t <> Some Lk.Idle.
Proof. simpl; intros H; repeat (case_match; try discriminate H); by simplify_eq. Qed.

(** ** The invariant *)

(** The read guards of a thread that are counted by the reader mutex: those it
    owns, and the one it is dropping until [read_unlock] has decremented. *)
Definition dropping (x : pc) : bool :=
  match x with DrSpin _ | DrSpinRel _ | DrLock | DrDec => true | _ => false end.
Definition counted (th : thr) : Z := (Z.of_nat (rg th) + b2z (dropping (tpc th)))%Z.
Definition writers (th : thr) : Z := b2z (is_some (wg th)).

Definition slot (b : bool) : Lk.pc := if b then Lk.Owner else Lk.Idle.

Definition no_guard (gd : option (Poison.LockResult Poison.Guard)) : bool := negb (is_some gd).
Definition ok_guard (gd : option (Poison.LockResult Poison.Guard)) : bool :=
  match gd with Some (Poison.LOk _) => true | _ => false end.
Definition is_owner (l : Lk.pc) : bool := match l with Lk.Owner => true | _ => false end.
Definition is_idle (l : Lk.pc) : bool := match l with Lk.Idle => true | _ => false end.

(** The code between [rlock.lock()] and the drop of its guard. *)
Definition in_section (x : pc) : bool :=
  match x with RdCheck _ | RdGlobal _ | RdInc _ _ | DrDec | DrGlobal => true | _ => false end.

Definition rl_ok (x : pc) (lr : Lk.pc) (gd : option (Poison.LockResult Poison.Guard)) : bool :=
  match rl_mode x with
  | Some m => Lk.inside m lr && no_guard gd
  | None => if in_section x then is_owner lr && ok_guard gd else is_idle lr && no_guard gd
  end.
Definition g_ok (x : pc) (lg : Lk.pc) : bool :=
  match g_mode x with
  | Some m => Lk.inside m lg
  | None => match x with RdInc _ true => is_owner lg | _ => is_idle lg end
  end.
(** What a thread inside the critical section knows about the reader count. *)
Definition data_ok (x : pc) (d : Z) : bool :=
  match x with
  | RdGlobal _ | RdInc _ true | DrGlobal => (d =? 0)%Z
  | RdInc _ false => (0 <? d)%Z
  | DrSpinRel _ | ExpRel | PanicExpect => false
  | _ => true
  end.

Definition thr_ok (d : Z) (r : Mtx.state Z) (c : Lk.state) (t : nat) (x : pc) : Prop :=
  exists lr gd lg, rv r t = (Some lr, Some gd) /\ Lk.pcs c !! t = Some lg /\
    rl_ok x lr gd && g_ok x lg && data_ok x d = true.

Record inv (s : state) : Prop := {
  inv_g : Lk.inv (g s);
  inv_rl : Mtx.inv (rl s);
  inv_len : length (Lk.pcs (g s)) = S (S (length (ths s))) /\
            sizes (rl s) = (length (ths s), length (ths s));
  inv_count : Mtx.data (rl s) = zsum counted (ths s);
  inv_readers : Lk.pcs (g s) !! readers_slot s = Some (slot (0 <? Mtx.data (rl s))%Z);
  inv_writer : Lk.pcs (g s) !! writer_slot s = Some (slot (0 <? zsum writers (ths s))%Z) /\
               (zsum writers (ths s) <= 1)%Z;
  inv_quiet : Mtx.is_poisoned (rl s) = false;
  inv_thr : forall t th, ths s !! t = Some th -> thr_ok (Mtx.data (rl s)) (rl s) (g s) t (tpc th)
}.

Definition bounded (s : state) : Prop := Lk.bounded (g s) /\ Mtx.bounded (rl s).

Lemma counted_nonneg th : (0 <= counted th)%Z.
Proof. unfold counted. pose proof (b2z_nonneg (dropping (tpc th))). lia. Qed.
Lemma writers_nonneg th : (0 <= writers th)%Z.
Proof. apply b2z_nonneg. Qed.

(** The reader mutex protects the count: a thread that relies on it owns the mutex. *)
Lemma data_ok_section x d : data_ok x d = true -> in_section x = false -> forall d', data_ok x d' = true.
Proof. by destruct x. Qed.

Lemma section_owner d r c t x :
  thr_ok d r c t x -> in_section x = true -> Lk.pcs (Mtx.core r) !! t = Some Lk.Owner.
Proof.
  intros (lr & gd & lg & Hrv & _ & Hok) Hs. unfold rv in Hrv. simplify_eq.
  unfold rl_ok in Hok. destruct x; simpl in *; try done; by destruct lr.
Qed.

(** Moving thread [t]: the frame of every step of the machine. *)
Section move.
Context (s : state) (t : nat) (th th' : thr) (g' : Lk.state) (r' : Mtx.state Z).
Context (p' : Poison.Flag) (d' : D).
Context (Hinv : inv s) (Ht : ths s !! t = Some th).

Lemma inv_move :
  Lk.inv g' -> Mtx.inv r' -> rframe t (rl s) r' ->
  length (Lk.pcs g') = length (Lk.pcs (g s)) ->
  (forall t', t' <> t -> t' < length (ths s) -> Lk.pcs g' !! t' = Lk.pcs (g s) !! t') ->
  Mtx.is_poisoned r' = false ->
  Mtx.data r' = (Mtx.data (rl s) - counted th + counted th')%Z ->
  (Mtx.data r' <> Mtx.data (rl s) -> in_section (tpc th) = true) ->
  Lk.pcs g' !! readers_slot s = Some (slot (0 <? Mtx.data r')%Z) ->
  (Lk.pcs g' !! writer_slot s = Some (slot (0 <? zsum writers (ths s) - writers th + writers th')%Z) /\
   zsum writers (ths s) - writers th + writers th' <= 1)%Z ->
  thr_ok (Mtx.data r') r' g' t (tpc th') ->
  inv (St g' r' p' d' (<[t:=th']> (ths s))).
Proof.
  intros Hg Hr [Hsz Hrf] Hlen Hgf Hq Hd Hsec Hslot [Hw1 Hw2] Hok.
  pose proof (inv_len _ Hinv) as [HL1 HL2].
  split; simpl; unfold readers_slot, writer_slot; simpl; rewrite ?length_insert; try done.
  - split; [by rewrite Hlen|by rewrite Hsz].
  - rewrite Hd, (inv_count _ Hinv). by rewrite (zsum_insert _ _ _ _ _ Ht).
  - by rewrite (zsum_insert _ _ _ _ _ Ht).
  - intros t' th0 Ht'. apply lookup_insert_list in Ht' as [(<- & -> & _)|[Hne Ht']]; [done|].
    destruct (inv_thr _ Hinv _ _ Ht') as (lr & gd & lg & H1 & H2 & H3).
    exists lr, gd, lg. rewrite Hrf, Hgf by (congruence || by eapply lookup_lt_Some).
    split_and!; try done.
    apply andb_prop in H3 as [H3 Hdok]. rewrite H3. cbn [andb]. 
    destruct (decide (Mtx.data r' = Mtx.data (rl s))) as [Heq|Hne2]; [rewrite Heq; exact Hdok|].
    destruct (in_section (tpc th0)) eqn:Hs0; [|by eapply data_ok_section].
    exfalso. apply Hne. symmetry.
    eapply (Lk.mutual_exclusion _ _ _ Lk.Owner Lk.Owner (Mtx.inv_core _ (inv_rl _ Hinv))); try done.
    + eapply section_owner, Hs0. by eapply inv_thr.
    + eapply section_owner, (Hsec Hne2). by eapply inv_thr.
Qed.
End move.

(** Name the intermediate states of a sequence of calls. *)
Ltac peel H :=
  repeat match type of H with
  | mbind _ _ = Some _ => let x := fresh "r" in let Hx := fresh "E" in
      apply bind_Some in H as (x & Hx & H)
  end.

Lemma rl_inv e (r r' : Mtx.state Z) : Mtx.bounded r' -> Mtx.inv r -> rl_step e r = Some r' -> Mtx.inv r'.
Proof. apply Mtx.mtx_inv_step. Qed.
Lemma rl_inv_core e r r' : Mtx.bounded r' -> Mtx.inv r -> rl_core e r = Some r' -> Mtx.inv r'.
Proof. apply Mtx.mtx_inv_step. Qed.
Lemma rl_bounded e (r r' : Mtx.state Z) : rl_step e r = Some r' -> Mtx.bounded r' -> Mtx.bounded r.
Proof. apply Mtx.mtx_bounded_step. Qed.
Lemma rl_bounded_core e r r' : rl_core e r = Some r' -> Mtx.bounded r' -> Mtx.bounded r.
Proof. apply Mtx.mtx_bounded_step. Qed.

Lemma spin_next_spec t n r r' x :
  spin_next t n r = Some (r', x) ->
  rframe t r r' /\ Mtx.guards r' = Mtx.guards r /\ Mtx.data r' = Mtx.data r /\
  Mtx.poison r' = Mtx.poison r /\ (Mtx.bounded r' -> Mtx.bounded r /\ (Mtx.inv r -> Mtx.inv r')) /\
  exists k, Lk.pcs (Mtx.core r) !! t = Some Lk.Idle /\ Lk.pcs (Mtx.core r') !! t = Some (first_pc k) /\
    ((k = Block /\ x = DrLock) \/ (k = Try /\ exists m, x = DrSpin m)).
Proof.
  unfold spin_next. intros H. destruct (n =? 0)%N; peel H; simplify_eq;
    match goal with H : rl_core ?e r = Some _ |- _ =>
      pose proof (fun a b => rl_inv_core e r _ a b H) as Hi; pose proof (rl_bounded_core e r _ H) as Hb;
      apply Mtx.core_spec in H as Hc end;
    destruct Hc as (_ & Hs & Hf & Hg & Hd & Hp).
  - apply (lk_begin Block) in Hs as Hs'. destruct Hs' as [Hidle Heq].
    split_and!; try done; [by eauto|]. exists Block. rewrite Heq. simpl. split_and!; auto.
    apply list_lookup_insert_eq. by eapply lookup_lt_Some.
  - apply (lk_begin Try) in Hs as Hs'. destruct Hs' as [Hidle Heq].
    split_and!; try done; [by eauto|]. exists Try. rewrite Heq. simpl. split_and!; eauto.
    apply list_lookup_insert_eq. by eapply lookup_lt_Some.
Qed.

Section steps.
Context (s : state) (t : nat) (th : thr) (Hinv : inv s) (Ht : ths s !! t = Some th).

Lemma own_view x : tpc th = x -> exists lr gd lg,
  rpc t s = Some lr /\ Mtx.guards (rl s) !! t = Some gd /\ gpc t s = Some lg /\
  rl_ok x lr gd = true /\ g_ok x lg = true /\ data_ok x (Mtx.data (rl s)) = true.
Proof.
  intros <-. destruct (inv_thr _ Hinv _ _ Ht) as (lr & gd & lg & H1 & H2 & H3).
  unfold rv in H1. injection H1 as H1 H1'.
  exists lr, gd, lg. apply andb_prop in H3 as [H3 ?]. by apply andb_prop in H3 as [? ?].
Qed.

Lemma rv_eq lr gd : rpc t s = Some lr -> Mtx.guards (rl s) !! t = Some gd -> rv (rl s) t = (Some lr, Some gd).
Proof. unfold rpc, rv. by intros -> ->. Qed.

Definition gframe (c c' : Lk.state) : Prop :=
  length (Lk.pcs c') = length (Lk.pcs c) /\ forall t', t' <> t -> Lk.pcs c' !! t' = Lk.pcs c !! t'.

Lemma own_slots : t <> readers_slot s /\ t <> writer_slot s.
Proof. apply lookup_lt_Some in Ht. unfold readers_slot, writer_slot. lia. Qed.

(** A move without a transfer of the global lock. *)
Lemma inv_move_gf x n g' r' p' :
  Lk.inv g' -> gframe (g s) g' ->
  Mtx.inv r' -> rframe t (rl s) r' -> Mtx.is_poisoned r' = false ->
  Mtx.data r' = (Mtx.data (rl s) - counted th + counted (Thr x n (wg th)))%Z ->
  (Mtx.data r' <> Mtx.data (rl s) -> in_section (tpc th) = true) ->
  (0 <? Mtx.data r')%Z = (0 <? Mtx.data (rl s))%Z ->
  thr_ok (Mtx.data r') r' g' t x ->
  inv (St g' r' p' (data s) (<[t:=Thr x n (wg th)]> (ths s))).
Proof.
  intros Hg [Hlen Hgf] Hr Hf Hq Hd Hsec Hpos Hok. destruct (inv_writer _ Hinv) as [Hw1 Hw2].
  destruct own_slots as [Hn1 Hn2].
  apply (inv_move s t th); try done; [auto|..].
  - rewrite Hgf by congruence. by rewrite (inv_readers _ Hinv), Hpos.
  - unfold writers in *. cbn [wg]. split; [|lia]. rewrite Hgf, Hw1 by congruence. do 3 f_equal. lia.
Qed.

Lemma gframe_refl : gframe (g s) (g s).
Proof. by split. Qed.

Lemma gframe_step e c' : Lk.step (g s) e = Some c' -> Lk.thread e = t -> gframe (g s) c'.
Proof.
  intros Hs He. split; [by eapply Lk.step_pcs_length|].
  intros t' Hne. eapply Lk.step_pcs_other; [done|by rewrite He].
Qed.

(** Leaving an operation of the reader mutex with its result. *)
Lemma rl_return_ok x n r' :
  Mtx.bounded r' -> rl_core (Lk.Return t) (rl s) = Some r' ->
  Mtx.guards (rl s) !! t = Some None -> Lk.pcs (g s) !! t = Some Lk.Idle ->
  counted (Thr x n (wg th)) = counted th -> rl_ok x Lk.Idle None && g_ok x Lk.Idle && data_ok x (Mtx.data (rl s)) = true ->
  inv (put t (Thr x n (wg th)) (g s) r' s).
Proof.
  intros Hbr E Hgd Hgi Hcnt Hok. pose proof (rl_inv_core _ _ _ Hbr (inv_rl _ Hinv) E).
  pose proof (inv_quiet _ Hinv) as Hq.
  apply Mtx.core_spec in E as (_ & Hs & Hf & Hg & Hd & Hp). apply lk_return in Hs as [Hs _].
  pose proof (inv_len _ Hinv) as [_ HL]. injection HL as HL1 HL2.
  apply inv_move_gf; unfold Mtx.is_poisoned; rewrite ?Hd, ?Hp; try done;
    [apply Hinv|rewrite Hcnt; lia|].
  eexists _, _, _. unfold rv. rewrite Hs, Hg, Hgd, list_lookup_insert_eq
    by (rewrite HL1; by eapply lookup_lt_Some).
  split_and!; done.
Qed.

(** Dropping the guard of the reader mutex at the end of a critical section. *)
Lemma rl_drop_ok en r1 r' :
  Mtx.bounded r' -> Mtx.inv r1 -> rframe t (rl s) r1 -> rv r1 t = rv (rl s) t ->
  Mtx.poison r1 = Mtx.poison (rl s) -> quiet s (Step t en) = true ->
  rl_step (Mtx.DropGuard t en) r1 = Some r' ->
  Mtx.inv r' /\ rframe t (rl s) r' /\ Mtx.is_poisoned r' = false /\ Mtx.data r' = Mtx.data r1 /\
  rv r' t = (Some (Lk.USub Lk.URet), Some None).
Proof.
  intros Hbr Hi Hf Hv Hp Hq E. pose proof (rl_inv _ _ _ Hbr Hi E) as Hi'.
  apply Mtx.drop_spec in E as (x & Hx & Hf' & Hv' & Hd & Hp').
  split_and!; try done; [by eapply Mtx.frame_trans|].
  unfold quiet in Hq. rewrite Hv in Hx. injection Hx as _ Hx. rewrite Hx in Hq.
  apply andb_prop in Hq as [Hq _]. unfold Mtx.is_poisoned. rewrite Hp'.
  apply Poison.done_quiet; [by destruct (Poison.raises _ _)|].
  rewrite Hp. apply (inv_quiet _ Hinv).
Qed.
End steps.


Lemma borrow_clear en f : Poison.get f = false ->
  Poison.map_result (Poison.borrow en f) (fun gd => gd) = Poison.LOk (Poison.MkGuard (Poison.thread_panicking en)).
Proof. unfold Poison.borrow. by intros ->. Qed.

Lemma inv_step_rd_lock s t en th s' k :
  bounded s' -> inv s -> ths s !! t = Some th -> tpc th = RdLock k ->
  step_read t en th s = Some s' -> inv s'.
Proof.
  intros [Hbg Hbr] Hinv Ht Hpc H. pose proof (inv_quiet _ Hinv) as Hq.
  destruct (own_view s t th Hinv Ht _ Hpc) as (lr & gd & lg & Hrp & Hrg & Hgp & Hrok & Hgok & Hdok).
  unfold step_read in H. rewrite Hpc, Hrp, Hq in H.
  apply andb_prop in Hrok as [_ Hng]. destruct gd; [done|]. destruct lg; try done.
  assert (Hc : counted th = Z.of_nat (rg th)) by (unfold counted; rewrite Hpc; simpl; lia).
  assert (Hcases : lr = Lk.Owner \/ (lr = Lk.CancelPanic /\ k = Block) \/ (lr = Lk.WouldBlock /\ k = Try))
    by (destruct lr, k; try discriminate H; auto).
  destruct Hcases as [->|[[-> ->]|[-> ->]]]; peel H; simplify_eq.
  - pose proof (rl_inv _ _ _ Hbr (inv_rl _ Hinv) E).
    apply Mtx.make_spec in E as (_ & Hf & Hv & Hd & Hp).
    apply (inv_move_gf s t th); unfold Mtx.is_poisoned; rewrite ?Hd, ?Hp; try done;
      [apply Hinv|rewrite Hc; unfold counted; simpl; lia|].
    rewrite borrow_clear in Hv by done. eexists _, _, _. split_and!; [done..|]. by destruct k.
  - eapply rl_return_ok; try done. rewrite Hc. unfold counted; simpl; lia.
  - eapply rl_return_ok; try done. rewrite Hc. unfold counted; simpl; lia.
Qed.

Lemma inv_step_rd_check s t en th s' k :
  bounded s' -> inv s -> ths s !! t = Some th -> tpc th = RdCheck k ->
  step_read t en th s = Some s' -> inv s'.
Proof.
  intros [Hbg Hbr] Hinv Ht Hpc H. pose proof (inv_quiet _ Hinv) as Hq.
  destruct (own_view s t th Hinv Ht _ Hpc) as (lr & gd & lg & Hrp & Hrg & Hgp & Hrok & Hgok & Hdok).
  unfold step_read in H. rewrite Hpc in H. unfold rl_ok, g_ok, data_ok in *; simpl in *.
  assert (Hc : counted th = Z.of_nat (rg th)) by (unfold counted; rewrite Hpc; simpl; lia).
  destruct lr, gd as [[]|], lg; try done.
  destruct (Z.eqb_spec (Mtx.data (rl s)) 0) as [H0|H0]; peel H; simplify_eq.
  - pose proof (Lk.lk_inv_step _ _ _ Hbg (inv_g _ Hinv) E) as Hg'.
    apply (inv_move_gf s t th); try done; [eapply gframe_step; [done|by destruct k]|apply Hinv| |].
    + rewrite Hc. unfold counted; simpl; lia.
    + apply lk_begin in E as [_ ->]. eexists _, _, _. simpl.
      rewrite list_lookup_insert_eq by (by eapply lookup_lt_Some).
      split_and!; [by apply rv_eq|done|]. rewrite H0. by destruct k.
  - apply (inv_move_gf s t th); try done; [apply Hinv|apply Hinv| |].
    + rewrite Hc. unfold counted; simpl; lia.
    + eexists _, _, _. split_and!; [by apply rv_eq|done|]. simpl.
      pose proof (zsum_nonneg counted (ths s) counted_nonneg). rewrite <- (inv_count _ Hinv) in *.
      apply Z.ltb_lt. lia.
Qed.

(** Leaving the global lock with a failure gives its slot back. *)
Lemma g_return_ok s t th c' :
  inv s -> ths s !! t = Some th -> Lk.bounded c' -> Lk.step (g s) (Lk.Return t) = Some c' ->
  Lk.inv c' /\ gframe t (g s) c' /\ Lk.pcs c' !! t = Some Lk.Idle.
Proof.
  intros Hinv Ht Hb Hs. split_and!; [by eapply Lk.lk_inv_step, Hs; [|apply Hinv]|by eapply gframe_step|].
  apply lk_return in Hs as [Hs _]. rewrite Hs. apply list_lookup_insert_eq.
  rewrite (proj1 (inv_len _ Hinv)). apply lookup_lt_Some in Ht. lia.
Qed.

(** The end of a critical section that leaves the reader count alone. *)
Lemma end_section_ok s t th en c' r' o :
  inv s -> ths s !! t = Some th -> in_section (tpc th) = true -> dropping (tpc th) = false ->
  quiet s (Step t en) = true -> Mtx.bounded r' ->
  Lk.inv c' -> gframe t (g s) c' -> Lk.pcs c' !! t = Some Lk.Idle ->
  rl_step (Mtx.DropGuard t en) (rl s) = Some r' ->
  inv (put t (Thr (RdRel o) (rg th) (wg th)) c' r' s).
Proof.
  intros Hinv Ht Hsec Hdr Hq Hbr Hc Hgf Hgi E.
  destruct (rl_drop_ok s t Hinv en (rl s) r') as (Hi & Hf & Hp & Hd & Hv); try done; [apply Hinv|].
  apply (inv_move_gf s t th); rewrite ?Hd; try done.
  - unfold counted. rewrite Hdr. simpl. lia.
  - by eexists _, _, _.
Qed.

Lemma inv_step_rd_global s t en th s' k :
  bounded s' -> quiet s (Step t en) = true -> inv s -> ths s !! t = Some th -> tpc th = RdGlobal k ->
  step_read t en th s = Some s' -> inv s'.
Proof.
  intros [Hbg Hbr] Hqt Hinv Ht Hpc H. pose proof (inv_quiet _ Hinv) as Hq.
  destruct (own_view s t th Hinv Ht _ Hpc) as (lr & gd & lg & Hrp & Hrg & Hgp & Hrok & Hgok & Hdok).
  unfold step_read in H. rewrite Hpc, Hgp in H.
  assert (Hc : counted th = Z.of_nat (rg th)) by (unfold counted; rewrite Hpc; simpl; lia).
  assert (Hcases : lg = Lk.Owner \/ (lg = Lk.CancelPanic /\ k = Block) \/ (lg = Lk.WouldBlock /\ k = Try))
    by (destruct lg, k; try discriminate H; auto).
  destruct Hcases as [->|[[-> ->]|[-> ->]]]; peel H; simplify_eq.
  - apply (inv_move_gf s t th); try done; [apply Hinv|apply Hinv| |].
    + rewrite Hc. unfold counted; simpl; lia.
    + exists lr, gd, Lk.Owner. split_and!; [by apply rv_eq|done|].
      unfold rl_ok in *; simpl in *. by rewrite Hrok, Hdok.
  - destruct (g_return_ok _ _ _ _ Hinv Ht Hbg E) as (Hgi & Hgf & Hidle).
    pose proof (rl_inv _ _ _ (rl_bounded _ _ _ E1 Hbr) (inv_rl _ Hinv) E0) as Hi1.
    pose proof (rl_inv _ _ _ Hbr Hi1 E1) as Hi2.
    destruct (Mtx.forget_unlock_spec _ _ _ _ E0 E1) as (Hf & Hv & Hd & Hp).
    apply (inv_move_gf s t th); unfold Mtx.is_poisoned; rewrite ?Hd, ?Hp; try done.
    + rewrite Hc. unfold counted; simpl; lia.
    + by eexists _, _, _.
  - destruct (g_return_ok _ _ _ _ Hinv Ht Hbg E) as (Hgi & Hgf & Hidle).
    eapply end_section_ok; rewrite ?Hpc; done.
Qed.

Lemma inv_step_rd_inc s t en th s' k via :
  bounded s' -> quiet s (Step t en) = true -> inv s -> ths s !! t = Some th -> tpc th = RdInc k via ->
  step_read t en th s = Some s' -> inv s'.
Proof.
  intros [Hbg Hbr] Hqt Hinv Ht Hpc H. pose proof (inv_quiet _ Hinv) as Hq.
  destruct (own_view s t th Hinv Ht _ Hpc) as (lr & gd & lg & Hrp & Hrg & Hgp & Hrok & Hgok & Hdok).
  unfold step_read in H. rewrite Hpc in H. peel H. simplify_eq.
  assert (Hc : counted (Thr (RdRel (OGuard (Poison.get (poison s)))) (S (rg th)) (wg th)) = (counted th + 1)%Z)
    by (unfold counted; rewrite Hpc; simpl; lia).
  simpl in Hbg, Hbr.
  pose proof (rl_inv _ _ _ (rl_bounded _ _ _ E1 Hbr) (inv_rl _ Hinv) E) as Hi1.
  apply Mtx.access_spec in E as (_ & Hf & Hv & Hd & Hp).
  destruct (rl_drop_ok s t Hinv en r r1) as (Hi & Hf' & Hp' & Hd' & Hv'); try done.
  pose proof (zsum_nonneg counted (ths s) counted_nonneg) as Hnn. rewrite <- (inv_count _ Hinv) in Hnn.
  assert (Hadd : Mtx.data r1 = (Mtx.data (rl s) + 1)%Z).
  { rewrite Hd', Hd. apply Word.wrap_small. unfold Word.is_usize.
    apply andb_prop in Hqt as [_ Hlt]. apply Z.ltb_lt in Hlt. lia. }
  destruct via; simplify_eq.
  - assert (Hz : Mtx.data (rl s) = 0%Z) by (by apply Z.eqb_eq). rewrite Hz in *.
    apply Lk.transfer_bounded in E0 as Hbg'. apply Lk.transfer_inv in E0 as Hgi; [|apply Hinv].
    apply Lk.transfer_spec in E0 as (Ho & Hs0 & Hne & _ & _ & Hpcs).
    pose proof (lookup_lt_Some _ _ _ Ht) as Hlt.
    destruct (inv_writer _ Hinv) as [Hw1 Hw2].
    apply (inv_move s t th); try done; rewrite ?Hpcs, ?Hadd, ?Hz; try done.
    + by rewrite !length_insert.
    + intros t' ? ?. unfold readers_slot. by rewrite !list_lookup_insert_ne by lia.
    + lia.
    + by rewrite Hpc.
    + change (slot (0 <? 0 + 1)%Z) with Lk.Owner. apply list_lookup_insert_eq.
      rewrite length_insert. by eapply lookup_lt_Some.
    + unfold writers in *; cbn [wg]. split; [|lia]. unfold readers_slot, writer_slot in *.
      rewrite !list_lookup_insert_ne by lia. rewrite Hw1. do 3 f_equal. lia.
    + eexists _, _, _. split; [done|]. rewrite Hpcs. unfold readers_slot.
      rewrite list_lookup_insert_ne by lia. rewrite list_lookup_insert_eq by (by eapply lookup_lt_Some).
      by split.
  - assert (Hz : (0 < Mtx.data (rl s))%Z) by (by apply Z.ltb_lt). destruct lg; try done.
    apply (inv_move_gf s t th); rewrite ?Hadd; try done; [apply Hinv|lia|by rewrite Hpc| |].
    + by rewrite !(proj2 (Z.ltb_lt _ _)) by lia.
    + by eexists _, _, _.
Qed.

Lemma inv_step_rd_rel s t en th s' o :
  bounded s' -> inv s -> ths s !! t = Some th -> tpc th = RdRel o ->
  step_read t en th s = Some s' -> inv s'.
Proof.
  intros [Hbg Hbr] Hinv Ht Hpc H. pose proof (inv_quiet _ Hinv) as Hq.
  destruct (own_view s t th Hinv Ht _ Hpc) as (lr & gd & lg & Hrp & Hrg & Hgp & Hrok & Hgok & Hdok).
  unfold step_read in H. rewrite Hpc, Hrp in H. unfold rl_ok in Hrok. simpl in Hrok.
  apply andb_prop in Hrok as [_ Hng]. destruct gd; [done|]. destruct lg; try done.
  destruct lr; try done. peel H. simplify_eq.
  eapply rl_return_ok; try done. unfold counted. rewrite Hpc. simpl. lia.
Qed.

(** [rlock] was acquired by [read_unlock]. *)
Lemma dr_make_ok s t th en r' x :
  inv s -> ths s !! t = Some th -> x = DrDec -> dropping (tpc th) = true ->
  gpc t s = Some Lk.Idle -> Mtx.bounded r' -> rl_step (Mtx.MakeGuard t en) (rl s) = Some r' ->
  inv (put t (Thr x (rg th) (wg th)) (g s) r' s).
Proof.
  intros Hinv Ht -> Hdr Hgp Hbr E. pose proof (rl_inv _ _ _ Hbr (inv_rl _ Hinv) E).
  pose proof (inv_quiet _ Hinv) as Hq.
  apply Mtx.make_spec in E as (_ & Hf & Hv & Hd & Hp).
  apply (inv_move_gf s t th); unfold Mtx.is_poisoned; rewrite ?Hd, ?Hp; try done;
    [apply Hinv|unfold counted; rewrite Hdr; simpl; lia|].
  rewrite borrow_clear in Hv by done. by eexists _, _, _.
Qed.

Lemma inv_step_dr_lock s t en th s' :
  bounded s' -> inv s -> ths s !! t = Some th ->
  (tpc th = DrLock \/ exists n, tpc th = DrSpin n \/ tpc th = DrSpinRel n) ->
  step_read_unlock t en th s = Some s' -> inv s'.
Proof.
  intros [Hbg Hbr] Hinv Ht Hx H. pose proof (inv_quiet _ Hinv) as Hq.
  assert (Hdr : dropping (tpc th) = true) by (by destruct Hx as [->|[n [-> | ->]]]).
  destruct (own_view s t th Hinv Ht _ eq_refl) as (lr & gd & lg & Hrp & Hrg & Hgp & Hrok & Hgok & Hdok).
  unfold step_read_unlock in H. rewrite Hq, Hrp in H.
  destruct Hx as [Hpc|[n [Hpc|Hpc]]]; rewrite Hpc in *; [| |done];
    unfold rl_ok in Hrok; simpl in Hrok; apply andb_prop in Hrok as [_ Hng];
    destruct gd; try done; destruct lg; try done; destruct lr; try done; peel H; simplify_eq.
  - eapply dr_make_ok; rewrite ?Hpc; done.
  - eapply dr_make_ok; rewrite ?Hpc; done.
  - destruct r0 as [r' x]. peel H. simplify_eq. simpl in Hbr.
    destruct (spin_next_spec _ _ _ _ _ E0) as (Hf2 & Hg2 & Hd2 & Hp2 & Hb2 & k & _ & Hk & Hcase).
    destruct (Hb2 Hbr) as [Hbr1 Hi2].
    pose proof (rl_inv_core _ _ _ Hbr1 (inv_rl _ Hinv) E) as Hi1.
    apply Mtx.core_spec in E as (_ & Hs & Hf & Hg & Hd & Hp).
    assert (Hdx : dropping x = true) by (by destruct Hcase as [[_ ->]|[_ [m ->]]]).
    apply (inv_move_gf s t th); unfold Mtx.is_poisoned; rewrite ?Hd2, ?Hp2, ?Hd, ?Hp; try done;
      [apply Hinv|by auto|by eapply Mtx.frame_trans|unfold counted; rewrite Hpc; cbn [tpc rg]; rewrite Hdx; simpl; lia|].
    eexists _, None, _. unfold rv. rewrite Hk, Hg2, Hg, Hrg. split_and!; [done..|].
    by destruct Hcase as [[-> ->]|[-> [m ->]]].
Qed.

Lemma inv_step_dr_dec s t en th s' :
  bounded s' -> quiet s (Step t en) = true -> inv s -> ths s !! t = Some th -> tpc th = DrDec ->
  step_read_unlock t en th s = Some s' -> inv s'.
Proof.
  intros [Hbg Hbr] Hqt Hinv Ht Hpc H. pose proof (inv_quiet _ Hinv) as Hq.
  destruct (own_view s t th Hinv Ht _ Hpc) as (lr & gd & lg & Hrp & Hrg & Hgp & Hrok & Hgok & Hdok).
  unfold step_read_unlock in H. rewrite Hpc in H. peel H.
  assert (Hc : counted th = (Z.of_nat (rg th) + 1)%Z) by (unfold counted; rewrite Hpc; simpl; lia).
  assert (Hge : (1 <= Mtx.data (rl s))%Z).
  { rewrite (inv_count _ Hinv). pose proof (zsum_lookup_le counted _ _ _ counted_nonneg Ht). lia. }
  apply andb_prop in Hqt as Hlt. destruct Hlt as [_ Hlt]. apply Z.ltb_lt in Hlt.
  pose proof (Mtx.access_spec _ _ _ _ E) as (_ & Hf & Hv & Hd & Hp).
  unfold Word.sub in Hd. rewrite Word.wrap_small in Hd by (unfold Word.is_usize; lia).
  assert (Hi1 : Mtx.bounded r -> Mtx.inv r) by (intros Hb; by eapply rl_inv; [| |exact E]; [|apply Hinv]).
  destruct (Z.eqb_spec (Mtx.data r) 0) as [H0|H0]; peel H; simplify_eq; simpl in Hbg, Hbr.
  - assert (Hz : Mtx.data (rl s) = 1%Z) by lia. unfold gpc in Hgp.
    pose proof (Lk.lk_bounded_step _ _ _ E1 Hbg) as Hbg1.
    apply Lk.transfer_inv in E0 as Hgi; [|apply Hinv].
    pose proof (Lk.lk_inv_step _ _ _ Hbg Hgi E1) as Hgi1.
    apply Lk.transfer_spec in E0 as (Ho & Hs0 & Hne & _ & _ & Hpcs).
    apply Mtx.unlock_set in E1 as [_ Heq].
    pose proof (lookup_lt_Some _ _ _ Ht) as HltT. pose proof (lookup_lt_Some _ _ _ Ho) as HltR.
    destruct (inv_writer _ Hinv) as [Hw1 Hw2]. unfold readers_slot, writer_slot in *.
    assert (Hpcs1 : Lk.pcs r1 = <[t:=Lk.USub Lk.URet]> (<[length (ths s):=Lk.Idle]> (Lk.pcs (g s)))).
    { rewrite Heq. simpl. by rewrite Hpcs, list_insert_insert_eq. }
    apply (inv_move s t th); try done; rewrite ?Hpcs1, ?H0, ?Hz; auto.
    + by rewrite !length_insert.
    + intros t' ? ?. by rewrite !list_lookup_insert_ne by lia.
    + unfold Mtx.is_poisoned in *. by rewrite Hp.
    + rewrite Hc. unfold counted; simpl; lia.
    + by rewrite Hpc.
    + unfold readers_slot. rewrite list_lookup_insert_ne by lia. change (slot (0 <? 0)%Z) with Lk.Idle.
      by apply list_lookup_insert_eq.
    + unfold writers, writer_slot in *; cbn [wg]. split; [|lia].
      rewrite !list_lookup_insert_ne by lia. rewrite Hw1. do 3 f_equal. lia.
    + eexists lr, gd, _. split; [unfold rv, rpc in *; f_equal; congruence|]. rewrite Hpcs1.
      rewrite list_lookup_insert_eq by (rewrite length_insert; by eapply lookup_lt_Some).
      split; [done|]. by destruct lr, gd as [[]|].
  - pose proof (Hi1 (rl_bounded _ _ _ E0 Hbr)) as Hi.
    destruct (rl_drop_ok s t Hinv en r r0) as (Hi2 & Hf2 & Hp2 & Hd2 & Hv2); try done; [unfold rv; congruence|].
    unfold g_ok in Hgok; simpl in Hgok. destruct lg; try done.
    apply (inv_move_gf s t th); rewrite ?Hd2, ?Hd; try done; [apply Hinv| | | |].
    + rewrite Hc. unfold counted; simpl; lia.
    + by rewrite Hpc.
    + by rewrite !(proj2 (Z.ltb_lt _ _)) by lia.
    + by eexists _, _, _.
Qed.

Lemma inv_step_dr_global s t en th s' :
  bounded s' -> quiet s (Step t en) = true -> inv s -> ths s !! t = Some th -> tpc th = DrGlobal ->
  step_read_unlock t en th s = Some s' -> inv s'.
Proof.
  intros [Hbg Hbr] Hqt Hinv Ht Hpc H.
  unfold step_read_unlock in H. rewrite Hpc in H.
  destruct (gpc t s) as [[]|]; try done. peel H. simplify_eq.
  destruct (g_return_ok _ _ _ _ Hinv Ht Hbg E) as (Hgi & Hgf & Hidle).
  eapply end_section_ok; rewrite ?Hpc; done.
Qed.

Lemma inv_step_wr s t en th s' :
  bounded s' -> inv s -> ths s !! t = Some th ->
  step_write t en th s = Some s' -> inv s'.
Proof.
  intros [Hbg Hbr] Hinv Ht H.
  destruct (own_view s t th Hinv Ht _ eq_refl) as (lr & gd & lg & Hrp & Hrg & Hgp & Hrok & Hgok & Hdok).
  unfold step_write in H. rewrite Hgp in H.
  assert (Hret : forall x n g', Lk.step (g s) (Lk.Return t) = Some g' -> Lk.bounded g' ->
    counted (Thr x n (wg th)) = counted th -> rl_ok x lr gd && g_ok x Lk.Idle && data_ok x (Mtx.data (rl s)) = true ->
    inv (put t (Thr x n (wg th)) g' (rl s) s)).
  { intros x n g' E Hb Hcnt Hok. destruct (g_return_ok _ _ _ _ Hinv Ht Hb E) as (Hgi & Hgf & Hidle).
    apply (inv_move_gf s t th); try done; [apply Hinv|apply Hinv|lia|].
    eexists _, _, _. split_and!; [by apply rv_eq|done|done]. }
  destruct (tpc th) eqn:Hpc; try discriminate H.
  - unfold rl_ok in Hrok; simpl in Hrok.
    assert (Hc : forall x, dropping x = false -> counted (Thr x (rg th) (wg th)) = counted th)
      by (intros x Hx; unfold counted; rewrite Hpc; simpl; by rewrite Hx).
    assert (Hcases : lg = Lk.Owner \/ (lg = Lk.CancelPanic /\ k = Block) \/ (lg = Lk.WouldBlock /\ k = Try))
      by (destruct lg, k; try discriminate H; auto).
    destruct Hcases as [->|[[-> ->]|[-> ->]]]; peel H; simplify_eq;
      [|apply Hret; try done; [by apply Hc|unfold rl_ok; simpl; by rewrite Hrok]..].
    apply Lk.transfer_inv in E as Hgi; [|apply Hinv].
    apply Lk.transfer_spec in E as (Ho & Hs0 & Hne & _ & _ & Hpcs).
    pose proof (lookup_lt_Some _ _ _ Ht) as Hlt. pose proof (lookup_lt_Some _ _ _ Hs0) as HltW.
    destruct (inv_writer _ Hinv) as [Hw1 Hw2]. rewrite Hs0 in Hw1.
    pose proof (zsum_nonneg writers (ths s) writers_nonneg) as Hnn.
    assert (Hz : zsum writers (ths s) = 0%Z) by (destruct (Z.ltb_spec 0 (zsum writers (ths s))); [done|lia]).
    pose proof (zsum_lookup_le writers _ _ _ writers_nonneg Ht) as Hle. pose proof (writers_nonneg th).
    assert (Hwt : writers th = 0%Z) by lia. unfold readers_slot, writer_slot in *.
    apply (inv_move s t th); try done; rewrite ?Hpcs; try apply Hinv.
    + by rewrite !length_insert.
    + intros t' ? ?. by rewrite !list_lookup_insert_ne by lia.
    + unfold counted. rewrite Hpc. simpl. lia.
    + unfold readers_slot. rewrite !list_lookup_insert_ne by lia. apply (inv_readers _ Hinv).
    + rewrite Hz, Hwt. split; [|by unfold writers]. unfold writer_slot.
      apply list_lookup_insert_eq. by rewrite length_insert.
    + eexists _, _, _. split_and!; [by apply rv_eq| |].
      * rewrite Hpcs, list_lookup_insert_ne by lia. apply list_lookup_insert_eq. by eapply lookup_lt_Some.
      * unfold rl_ok. simpl. by rewrite Hrok.
  - destruct lg; try done. peel H. simplify_eq. unfold rl_ok in Hrok; simpl in Hrok. apply Hret; try done.
    + unfold counted. by rewrite Hpc.
    + unfold rl_ok; simpl. by rewrite Hrok.
Qed.

Lemma inv_call_write_drop s t en th s' :
  bounded s' -> inv s -> ths s !! t = Some th -> tpc th = Idle ->
  call t (CDropWrite en) th s = Some s' -> inv s'.
Proof.
  intros [Hbg Hbr] Hinv Ht Hpc H.
  destruct (own_view s t th Hinv Ht _ Hpc) as (lr & gd & lg & Hrp & Hrg & Hgp & Hrok & Hgok & Hdok).
  cbn [call] in H. destruct (wg th) as [w|] eqn:Hw; [|done]. peel H. simplify_eq. simpl in Hbg, Hbr.
  pose proof (Lk.lk_bounded_step _ _ _ E0 Hbg) as Hbg1.
  apply Lk.transfer_inv in E as Hgi; [|apply Hinv].
  pose proof (Lk.lk_inv_step _ _ _ Hbg Hgi E0) as Hgi1.
  apply Lk.transfer_spec in E as (Ho & Hs0 & Hne & _ & _ & Hpcs).
  apply Mtx.unlock_set in E0 as [_ Heq].
  pose proof (lookup_lt_Some _ _ _ Ht) as HltT. pose proof (lookup_lt_Some _ _ _ Ho) as HltW.
  destruct (inv_writer _ Hinv) as [Hw1 Hw2]. unfold readers_slot, writer_slot in *.
  assert (Hwt : writers th = 1%Z) by (unfold writers; by rewrite Hw).
  pose proof (zsum_lookup_le writers _ _ _ writers_nonneg Ht) as Hle.
  assert (Hpcs1 : Lk.pcs r0 = <[t:=Lk.USub Lk.URet]> (<[S (length (ths s)):=Lk.Idle]> (Lk.pcs (g s)))).
  { rewrite Heq. simpl. by rewrite Hpcs, list_insert_insert_eq. }
  apply (inv_move s t th); try done; rewrite ?Hpcs1; try apply Hinv.
  - by rewrite !length_insert.
  - intros t' ? ?. by rewrite !list_lookup_insert_ne by lia.
  - unfold counted. rewrite Hpc. simpl. lia.
  - unfold readers_slot. rewrite !list_lookup_insert_ne by lia. apply (inv_readers _ Hinv).
  - rewrite Hwt. assert (zsum writers (ths s) = 1)%Z as -> by lia. split; [|by unfold writers].
    unfold writer_slot. rewrite list_lookup_insert_ne by lia. by apply list_lookup_insert_eq.
  - eexists _, _, _. split_and!; [by apply rv_eq| |].
    + rewrite Hpcs1. apply list_lookup_insert_eq. rewrite length_insert. by eapply lookup_lt_Some.
    + by destruct lr, gd.
Qed.

Lemma inv_call s t o th s' :
  bounded s' -> inv s -> ths s !! t = Some th -> tpc th = Idle -> call t o th s = Some s' -> inv s'.
Proof.
  intros Hb Hinv Ht Hpc H. pose proof Hb as [Hbg Hbr]. pose proof (inv_quiet _ Hinv) as Hq.
  destruct (own_view s t th Hinv Ht _ Hpc) as (lr & gd & lg & Hrp & Hrg & Hgp & Hrok & Hgok & Hdok).
  unfold rl_ok, g_ok in Hrok, Hgok. simpl in Hrok, Hgok.
  destruct lr, gd, lg; try done.
  assert (Hlen : t < length (Lk.pcs (Mtx.core (rl s)))) by (by eapply lookup_lt_Some).
  assert (Hcore : forall k r' x m, rl_core (lock_event k t) (rl s) = Some r' -> Mtx.bounded r' ->
    counted (Thr x m (wg th)) = counted th -> rl_ok x (first_pc k) None && g_ok x Lk.Idle && data_ok x (Mtx.data (rl s)) = true ->
    inv (put t (Thr x m (wg th)) (g s) r' s)).
  { intros k r' x m E Hbr' Hcnt Hok. pose proof (rl_inv_core _ _ _ Hbr' (inv_rl _ Hinv) E).
    apply Mtx.core_spec in E as (_ & Hs & Hf & Hg & Hd & Hp).
    apply lk_begin in Hs as [_ Hs].
    apply (inv_move_gf s t th); unfold Mtx.is_poisoned; rewrite ?Hd, ?Hp; try done;
      [apply Hinv|by destruct k|lia|].
    eexists _, _, _. unfold rv. rewrite Hs, Hg, Hrg. simpl. rewrite list_lookup_insert_eq by done.
    split_and!; done. }
  destruct o as [k|k|[]|en]; [| | | |by eapply inv_call_write_drop]; cbn [call] in H.
  - peel H. simplify_eq. eapply Hcore; try done; [unfold counted; by rewrite Hpc|by destruct k].
  - peel H. simplify_eq. simpl in Hbg. pose proof (Lk.lk_inv_step _ _ _ Hbg (inv_g _ Hinv) E).
    apply lk_begin in E as E'. destruct E' as [_ ->].
    apply (inv_move_gf s t th); try done; [by eapply gframe_step; [done|destruct k]|apply Hinv| |].
    + unfold counted. rewrite Hpc. simpl. lia.
    + eexists _, _, _. split_and!; [by apply rv_eq| |].
      * simpl. apply list_lookup_insert_eq. by eapply lookup_lt_Some.
      * by destruct k.
  - destruct (rg th) as [|m] eqn:Hm; [done|]. peel H. destruct r as [r' x]. simplify_eq. simpl in Hbr.
    unfold spin_next in E. simpl in E. peel E. simplify_eq.
    apply (Hcore Try); try done. unfold counted. rewrite Hpc, Hm. simpl. lia.
  - destruct (rg th) as [|m] eqn:Hm; [done|]. peel H. simplify_eq.
    apply (Hcore Block); try done. unfold counted. rewrite Hpc, Hm. simpl. lia.
Qed.

(** Steps inside the two locks. *)
Lemma inv_stay s t th g' r' :
  inv s -> ths s !! t = Some th -> Lk.inv g' -> gframe t (g s) g' -> Mtx.inv r' -> rframe t (rl s) r' ->
  Mtx.data r' = Mtx.data (rl s) -> Mtx.poison r' = Mtx.poison (rl s) ->
  thr_ok (Mtx.data (rl s)) r' g' t (tpc th) -> inv (St g' r' (poison s) (data s) (ths s)).
Proof.
  intros Hinv Ht Hg Hgf Hr Hrf Hd Hp Hok. pose proof (inv_quiet _ Hinv) as Hq.
  rewrite <- (list_insert_id _ _ _ Ht).
  assert (Heq : th = Thr (tpc th) (rg th) (wg th)) by (by destruct th). rewrite Heq at 1.
  apply (inv_move_gf s t th); unfold Mtx.is_poisoned; rewrite ?Hd, ?Hp; try done.
  unfold counted. simpl. lia.
Qed.

Lemma sub_ok_inv m e : sub_ok m e = true -> exists m', m = Some m' /\ Lk.internal e = true /\ Lk.mode_ok m' e = true.
Proof. destruct m as [m'|]; [|done]. simpl. intros [? ?]%andb_prop. eauto. Qed.

Lemma inv_gl s e s' : bounded s' -> inv s -> step s (Gl e) = Some s' -> inv s'.
Proof.
  intros [Hbg Hbr] Hinv H. simpl in H.
  destruct (ths s !! Lk.thread e) as [th|] eqn:Ht; [|done].
  destruct (sub_ok (g_mode (tpc th)) e) eqn:Hsub; [|done].
  unfold global_step in H. destruct (no_ignore e); [|done]. peel H. simplify_eq. simpl in Hbg.
  apply sub_ok_inv in Hsub as (m & Hm & Hint & Hmode).
  destruct (own_view s _ th Hinv Ht _ eq_refl) as (lr & gd & lg & Hrp & Hrg & Hgp & Hrok & Hgok & Hdok).
  unfold g_ok in Hgok. rewrite Hm in Hgok.
  pose proof (Lk.lk_inv_step _ _ _ Hbg (inv_g _ Hinv) E) as Hgi.
  destruct (Lk.step_inside m _ _ _ _ E Hint Hmode Hgp Hgok) as (y & Hy & [->|Hin]);
    [by destruct (Lk.inv_pcs _ Hgi _ Hy)|].
  apply (inv_stay s (Lk.thread e) th); try done; [by eapply gframe_step|apply Hinv|].
  eexists _, _, _. split_and!; [by apply rv_eq|done|]. unfold g_ok. by rewrite Hm, Hin, Hrok, Hdok.
Qed.

Lemma inv_rl_step s e s' : bounded s' -> inv s -> step s (Rl e) = Some s' -> inv s'.
Proof.
  intros [Hbg Hbr] Hinv H. cbn [step] in H.
  destruct (ths s !! Lk.thread e) as [th|] eqn:Ht; [|done].
  destruct (sub_ok (rl_mode (tpc th)) e) eqn:Hsub; [|done]. peel H. simplify_eq. simpl in Hbr.
  apply sub_ok_inv in Hsub as (m & Hm & Hint & Hmode).
  destruct (own_view s _ th Hinv Ht _ eq_refl) as (lr & gd & lg & Hrp & Hrg & Hgp & Hrok & Hgok & Hdok).
  unfold rl_ok in Hrok. rewrite Hm in Hrok. apply andb_prop in Hrok as [Hin Hng].
  pose proof (rl_inv_core _ _ _ Hbr (inv_rl _ Hinv) E) as Hri.
  apply Mtx.core_spec in E as (_ & Hs & Hf & Hg & Hd & Hp).
  destruct (Lk.step_inside m _ _ _ _ Hs Hint Hmode Hrp Hin) as (y & Hy & [->|Hin']);
    [by destruct (Lk.inv_pcs _ (Mtx.inv_core _ Hri) _ Hy)|].
  apply (inv_stay s (Lk.thread e) th); try done; [apply Hinv|].
  eexists y, gd, _. unfold rv. rewrite Hy, Hg, Hrg. split_and!; [done..|].
  unfold rl_ok. by rewrite Hm, Hin', Hng, Hgok, Hdok.
Qed.

Lemma inv_same s p' d' : inv s -> inv (St (g s) (rl s) p' d' (ths s)).
Proof. intros []. by split. Qed.

Lemma inv_step_expect s t th s' : inv s -> ths s !! t = Some th -> step_expect t th s = Some s' -> inv s'.
Proof.
  intros Hinv Ht H. destruct (own_view s _ th Hinv Ht _ eq_refl) as (?&?&?&_&_&_&_&_&Hd).
  unfold step_expect in H. by destruct (tpc th).
Qed.

Lemma inv_return s t th o : inv s -> ths s !! t = Some th -> tpc th = Ret o ->
  inv (put t (Thr Idle (rg th) (wg th)) (g s) (rl s) s).
Proof.
  intros Hinv Ht Hpc. pose proof (inv_quiet _ Hinv).
  destruct (own_view s _ th Hinv Ht _ Hpc) as (lr & gd & lg & Hrp & Hrg & Hgp & Hrok & Hgok & Hdok).
  apply (inv_move_gf s t th); try done; [apply Hinv..| |].
  - unfold counted. rewrite Hpc. simpl. lia.
  - eexists _, _, _. split_and!; [by apply rv_eq|done|]. by destruct lr, gd, lg.
Qed.

Lemma rw_inv_step s e s' : bounded s' -> inv s -> qstep s e = Some s' -> inv s'.
Proof.
  unfold qstep. intros Hb Hinv H. destruct (quiet s e) eqn:Hq; [|done].
  destruct e as [t o|e|e|t en|t f| |t]; [|by eapply inv_gl|by eapply inv_rl_step|..]; cbn [step] in H.
  - destruct (ths s !! t) as [th|] eqn:Ht; [|done]. destruct (tpc th) eqn:Hpc; try discriminate H.
    by eapply inv_call.
  - destruct (ths s !! t) as [th|] eqn:Ht; [|done]. unfold step_thread in H.
    destruct (tpc th) as [|o|k|k|k|k via|o|n|n| | | |k| | |] eqn:Hpc; try discriminate H.
    + by eapply inv_step_rd_lock.
    + by eapply inv_step_rd_check.
    + by eapply inv_step_rd_global.
    + by eapply inv_step_rd_inc.
    + by eapply inv_step_rd_rel.
    + eapply inv_step_dr_lock; eauto.
    + eapply inv_step_dr_lock; eauto.
    + eapply inv_step_dr_lock; eauto.
    + by eapply inv_step_dr_dec.
    + by eapply inv_step_dr_global.
    + by eapply inv_step_wr.
    + by eapply inv_step_wr.
    + by eapply inv_step_expect.
  - repeat (case_match; try discriminate H); simplify_eq. by apply inv_same.
  - simplify_eq. by apply inv_same.
  - destruct (ths s !! t) as [th|] eqn:Ht; [|done]. destruct (tpc th) eqn:Hpc; try discriminate H.
    simplify_eq. by eapply inv_return.
Qed.

Lemma rw_inv_init d n : inv (new d n).
Proof.
  assert (Hrep : forall k i, i < k -> replicate k Lk.Idle !! i = Some Lk.Idle)
    by (intros; by apply lookup_replicate).
  split; unfold readers_slot, writer_slot; simpl; rewrite ?length_replicate.
  - apply Lk.lk_inv_init.
  - apply Mtx.mtx_inv_init.
  - split; [done|]. unfold sizes. simpl. by rewrite !length_replicate.
  - rewrite zsum_replicate. unfold counted. simpl. lia.
  - apply (Hrep (S (S n)) n). lia.
  - rewrite zsum_replicate. unfold writers. simpl. rewrite Z.mul_0_r. split; [|lia].
    apply (Hrep (S n) n). lia.
  - done.
  - intros t th Ht. apply lookup_replicate in Ht as [-> Hlt].
    exists Lk.Idle, None, Lk.Idle. unfold rv. simpl. split_and!; [|apply (Hrep (S (S n)) t); lia|done].
    f_equal; by apply lookup_replicate.
Qed.

Lemma spin_next_bounded t n r r' x : spin_next t n r = Some (r', x) -> Mtx.bounded r' -> Mtx.bounded r.
Proof. intros H Hb. by apply spin_next_spec in H as (_ & _ & _ & _ & [? _] & _). Qed.

(** Both blocker pools only grow. *)
Ltac bounds_back :=
  repeat match goal with
  | H : (if ?b then _ else _) = Some _ |- _ => destruct b
  | H : Some _ = Some _ |- _ => injection H as <-
  | H : rl_step _ ?r = Some ?r', Hb : Mtx.bounded ?r' |- _ => apply (rl_bounded _ _ _ H) in Hb; clear H
  | H : rl_core _ ?r = Some ?r', Hb : Mtx.bounded ?r' |- _ => apply (rl_bounded_core _ _ _ H) in Hb; clear H
  | H : spin_next _ _ ?r = Some (?r', _), Hb : Mtx.bounded ?r' |- _ => apply (spin_next_bounded _ _ _ _ _ H) in Hb; clear H
  | H : Lk.step ?c _ = Some ?c', Hb : Lk.bounded ?c' |- _ => apply (Lk.lk_bounded_step _ _ _ H) in Hb; clear H
  | H : Lk.transfer _ _ ?c = Some ?c', Hb : Lk.bounded ?c' |- _ => apply (Lk.transfer_bounded _ _ _ _ H) in Hb; clear H
  end.

Ltac open_step H :=
  repeat first
    [ discriminate H
    | match type of H with mbind _ _ = Some _ => progress peel H end
    | match type of H with context [match ?p with pair _ _ => _ end] => destruct p end
    | match type of H with context [match ?x with _ => _ end] => destruct x end ];
  injection H as <-.

Lemma rw_bounded_step s e s' : step s e = Some s' -> bounded s' -> bounded s.
Proof.
  unfold bounded. intros H [Hg Hr].
  destruct e as [t o|e|e|t en|t f| |t]; cbn [step] in H.
  1: unfold call in H.
  4: unfold step_thread, step_read, step_read_unlock, step_write, step_expect in H.
  2: unfold global_step in H.
  all: open_step H; simpl in Hg, Hr; bounds_back; done.
Qed.

Lemma rw_inv_reachable d n s : reachable qstep (new d n) s -> bounded s -> inv s.
Proof.
  intros Hr. induction Hr as [|s e s' Hr IH Hs]; intros Hb; [apply rw_inv_init|].
  eapply rw_inv_step; [done| |done]. apply IH. unfold qstep in Hs.
  destruct (quiet s e); [by eapply rw_bounded_step|done].
Qed.

(** ** Rest *)

(** No thread can move on its own. *)
Definition quiescent (s : state) : Prop :=
  forall t, (forall en, step s (Step t en) = None) /\
    forall e, e = Lk.Tick t \/ e = Lk.ParkOk t -> step s (Gl e) = None /\ step s (Rl e) = None.

(** Parked in [read], [write] or in the drop of a read guard. *)
Definition parked (s : state) (t : nat) : Prop :=
  exists th b, ths s !! t = Some th /\
    ((rl_mode (tpc th) <> None /\ rpc t s = Some (Lk.LPark b)) \/
     (g_mode (tpc th) <> None /\ gpc t s = Some (Lk.LPark b))).

Lemma idle_quiet c t x e :
  Lk.pcs c !! t = Some x -> x = Lk.Idle \/ x = Lk.Owner -> e = Lk.Tick t \/ e = Lk.ParkOk t ->
  Lk.step c e = None.
Proof. intros Hx [->| ->] [->| ->]; simpl; by rewrite Hx. Qed.

Section rest.
Context (s : state) (Hinv : inv s) (Hq : quiescent s).

Lemma rest_g : Lk.quiescent (g s).
Proof.
  assert (H : forall t e, e = Lk.Tick t \/ e = Lk.ParkOk t -> Lk.step (g s) e = None).
  { intros t e He. assert (Hth : Lk.thread e = t) by (by destruct He as [->| ->]).
    destruct (Lk.pcs (g s) !! t) as [x|] eqn:Hx; [|destruct He as [->| ->]; simpl; by rewrite Hx].
    pose proof (lookup_lt_Some _ _ _ Hx) as Hlt. rewrite (proj1 (inv_len _ Hinv)) in Hlt.
    destruct (decide (t = readers_slot s)) as [->|Hn1].
    { apply (idle_quiet _ _ _ e (inv_readers _ Hinv)); [|done]. destruct (0 <? _)%Z; simpl; auto. }
    destruct (decide (t = writer_slot s)) as [->|Hn2].
    { apply (idle_quiet _ _ _ e (proj1 (inv_writer _ Hinv))); [|done]. destruct (0 <? _)%Z; simpl; auto. }
    unfold readers_slot, writer_slot in *.
    destruct (lookup_lt_is_Some_2 (ths s) t) as [th Ht]; [lia|].
    destruct (own_view s t th Hinv Ht _ eq_refl) as (lr & gd & lg & Hrp & Hrg & Hgp & Hrok & Hgok & Hdok).
    unfold gpc in Hgp. rewrite Hx in Hgp. simplify_eq. unfold g_ok in Hgok.
    destruct (g_mode (tpc th)) as [m|] eqn:Hm.
    - destruct (Hq (Lk.thread e)) as [_ Hs]. destruct (Hs e He) as [Hs' _]. cbn [step] in Hs'.
      rewrite Ht, Hm in Hs'.
      assert (Hok : sub_ok (Some m) e = true /\ no_ignore e = true) by (by destruct He as [->| ->], m).
      unfold global_step in Hs'. rewrite !(proj1 Hok), (proj2 Hok) in Hs'. by apply bind_None in Hs' as [?|(? & _ & ?)].
    - eapply idle_quiet; [done| |done].
      destruct (tpc th) as [| | | | |? []| | | | | | | | | |]; destruct lg; try done; auto. }
  intros t. split; apply (H t); auto.
Qed.

Lemma rest_rl : Lk.quiescent (Mtx.core (rl s)).
Proof.
  assert (H : forall t e, e = Lk.Tick t \/ e = Lk.ParkOk t -> Lk.step (Mtx.core (rl s)) e = None).
  { intros t e He. assert (Hth : Lk.thread e = t) by (by destruct He as [->| ->]).
    destruct (Lk.pcs (Mtx.core (rl s)) !! t) as [x|] eqn:Hx; [|destruct He as [->| ->]; simpl; by rewrite Hx].
    pose proof (lookup_lt_Some _ _ _ Hx) as Hlt.
    pose proof (inv_len _ Hinv) as [_ HL]. injection HL as HL1 HL2. rewrite HL1 in Hlt.
    destruct (lookup_lt_is_Some_2 (ths s) t) as [th Ht]; [lia|].
    destruct (own_view s t th Hinv Ht _ eq_refl) as (lr & gd & lg & Hrp & Hrg & Hgp & Hrok & Hgok & Hdok).
    unfold rpc in Hrp. rewrite Hx in Hrp. simplify_eq. unfold rl_ok in Hrok.
    destruct (rl_mode (tpc th)) as [m|] eqn:Hm.
    - destruct (Hq (Lk.thread e)) as [_ Hs]. destruct (Hs e He) as [_ Hs']. cbn [step] in Hs'.
      rewrite Ht, Hm in Hs'.
      assert (Hok : sub_ok (Some m) e = true) by (by destruct He as [->| ->], m).
      rewrite Hok in Hs'. apply bind_None in Hs' as [Hs'|(? & _ & ?)]; [|done].
      unfold rl_core, rl_step in Hs'. cbn [Mtx.step] in Hs'.
      assert (Hu : Mtx.is_unlock e = false) by (by destruct He as [->| ->]).
      rewrite Hu in Hs'. by destruct (Lk.step _ _).
    - eapply idle_quiet; [done| |done].
      destruct (in_section (tpc th)); destruct lr; try done; auto. }
  intros t. split; apply (H t); auto.
Qed.
End rest.

(** What a thread may be doing at rest. *)
Definition at_rest (s : state) (t : nat) (x : pc) : Prop :=
  match x with
  | Idle | Ret _ => True
  | RdLock Block | DrLock => exists b, rpc t s = Some (Lk.LPark b)
  | RdGlobal Block | WrLock Block => exists b, gpc t s = Some (Lk.LPark b)
  | _ => False
  end.

Definition some_env : Poison.env := Poison.Env false false false false.

Lemma rl_enabled_make s t : rpc t s = Some Lk.Owner -> Mtx.guards (rl s) !! t = Some None ->
  exists r', rl_step (Mtx.MakeGuard t some_env) (rl s) = Some r'.
Proof. unfold rl_step, rpc. cbn [Mtx.step]. unfold Mtx.guard_new. intros -> ->. eauto. Qed.

Lemma rl_enabled_drop (r : Mtx.state Z) t x :
  Lk.pcs (Mtx.core r) !! t = Some Lk.Owner -> Mtx.guards r !! t = Some (Some x) ->
  exists r', rl_step (Mtx.DropGuard t some_env) r = Some r'.
Proof.
  unfold rl_step. cbn [Mtx.step]. unfold Mtx.guard_drop. simpl. intros -> ->. eauto.
Qed.

Lemma rl_enabled_access (r : Mtx.state Z) t x f :
  Mtx.guards r !! t = Some (Some x) ->
  rl_step (Mtx.Access t f) r = Some (Mtx.St (Mtx.core r) (Mtx.poison r) (Mtx.guards r) (f (Mtx.data r))).
Proof. unfold rl_step. cbn [Mtx.step]. by intros ->. Qed.

Lemma rl_enabled_return (r : Mtx.state Z) t x :
  Lk.pcs (Mtx.core r) !! t = Some x -> x = Lk.WouldBlock \/ x = Lk.CancelPanic \/ x = Lk.Released ->
  exists r', rl_core (Lk.Return t) r = Some r'.
Proof.
  unfold rl_core, rl_step. cbn [Mtx.step]. simpl. intros -> [->|[->| ->]]; eauto.
Qed.

Lemma rl_enabled_forget (r : Mtx.state Z) t x :
  Lk.pcs (Mtx.core r) !! t = Some Lk.Owner -> Mtx.guards r !! t = Some (Some x) ->
  exists r1 r2, rl_step (Mtx.Forget t) r = Some r1 /\ rl_step (Mtx.UnlockMutex t) r1 = Some r2.
Proof.
  unfold rl_step. intros Hp Hg. cbn [Mtx.step]. rewrite Hg. eexists _, _. split; [done|].
  unfold Mtx.unlock_mutex. simpl. rewrite list_lookup_insert_eq by (by eapply lookup_lt_Some).
  rewrite Hp. done.
Qed.

(** A sequence of calls that all succeed is not stuck. *)
Ltac peel_none H :=
  repeat match type of H with
  | mbind _ _ = None => let x := fresh "r" in let Hx := fresh "E" in
      apply bind_None in H as [H|(x & Hx & H)]
  end.

Section rest_threads.
Context (s : state) (Hinv : inv s) (Hq : quiescent s) (t : nat) (th : thr) (Ht : ths s !! t = Some th).

Lemma rest_step : step_thread t some_env th s = None.
Proof. destruct (Hq t) as [H _]. specialize (H some_env). simpl in H. by rewrite Ht in H. Qed.

Lemma rest_g_resting lg : gpc t s = Some lg -> Lk.resting lg (Lk.pl (g s)).
Proof. intros Hp. eapply Lk.lk_quiescent_resting; [by apply rest_g|done]. Qed.
Lemma rest_rl_resting lr : rpc t s = Some lr -> Lk.resting lr (Lk.pl (Mtx.core (rl s))).
Proof. intros Hp. eapply Lk.lk_quiescent_resting; [by apply rest_rl|done]. Qed.

Lemma rest_pc : at_rest s t (tpc th).
Proof.
  destruct (own_view s t th Hinv Ht _ eq_refl) as (lr & gd & lg & Hrp & Hrg & Hgp & Hrok & Hgok & Hdok).
  pose proof rest_step as Hs. pose proof (inv_quiet _ Hinv) as Hnp.
  pose proof (inv_readers _ Hinv) as Hslot. pose proof (inv_writer _ Hinv) as [Hwslot _].
  unfold step_thread, step_read, step_read_unlock, step_write in Hs. unfold rl_ok, g_ok in *.
  destruct (tpc th) as [|o|k|k|k|k via|o|n|n| | | |k| | |] eqn:Hpc; simpl in Hrok, Hgok, Hdok |- *; try done.
  - apply andb_prop in Hrok as [Hin Hng]. destruct gd; [done|].
    pose proof (Lk.resting_inside _ _ _ (rest_rl_resting _ Hrp) Hin) as Hr.
    rewrite Hrp, Hnp in Hs.
    assert (Hown : lr <> Lk.Owner).
    { intros ->. destruct (rl_enabled_make _ _ Hrp Hrg) as [r' Hr']. by rewrite Hr' in Hs. }
    destruct k; simpl in Hr.
    + destruct Hr as [->|[->|[b ->]]]; [done| |by eexists].
      destruct (rl_enabled_return _ _ _ Hrp ltac:(auto)) as [r' Hr']. by rewrite Hr' in Hs.
    + destruct Hr as [->| ->]; [done|].
      destruct (rl_enabled_return _ _ _ Hrp ltac:(auto)) as [r' Hr']. by rewrite Hr' in Hs.
  - destruct lg; try done. destruct (_ =? _)%Z; [|done].
    unfold gpc in Hgp. destruct k; simpl in Hs; by rewrite Hgp in Hs.
  - destruct lr, gd as [[]|]; try done.
    pose proof (Lk.resting_inside _ _ _ (rest_g_resting _ Hgp) Hgok) as Hr.
    rewrite Hgp in Hs. unfold gpc in Hgp. destruct k; simpl in Hr.
    + destruct Hr as [->|[->|[b ->]]]; [done| |by eexists].
      destruct (rl_enabled_forget _ _ _ Hrp Hrg) as (r1 & r2 & H1 & H2). cbn [Lk.step] in Hs.
      rewrite Hgp in Hs. peel_none Hs; congruence.
    + destruct Hr as [->| ->]; [done|].
      destruct (rl_enabled_drop _ _ _ Hrp Hrg) as [r' H1]. cbn [Lk.step] in Hs.
      rewrite Hgp in Hs. peel_none Hs; congruence.
  - destruct lr, gd as [[x|]|]; try done. pose proof (rl_enabled_access _ _ _ (fun n => Word.add n 1) Hrg) as Ha.
    edestruct (rl_enabled_drop (Mtx.St (Mtx.core (rl s)) (Mtx.poison (rl s)) (Mtx.guards (rl s))
      (Word.add (Mtx.data (rl s)) 1)) t) as [r' Hd]; [done..|].
    destruct via.
    + destruct lg; try done. apply Z.eqb_eq in Hdok.
      assert (Htr : exists c, Lk.transfer t (readers_slot s) (g s) = Some c).
      { rewrite Hdok in Hslot. eexists. by apply Lk.transfer_some. }
      destruct Htr as [c Htr]. peel_none Hs; simplify_eq; congruence.
    + peel_none Hs; simplify_eq; congruence.
  - apply andb_prop in Hrok as [Hin Hng].
    pose proof (Lk.resting_inside Lk.MUnlock _ _ (rest_rl_resting _ Hrp) Hin) as ->.
    rewrite Hrp in Hs. destruct (rl_enabled_return _ _ _ Hrp ltac:(auto)) as [r' Hr'].
    peel_none Hs; congruence.
  - apply andb_prop in Hrok as [Hin Hng]. destruct gd; [done|].
    rewrite Hrp, Hnp in Hs.
    destruct (Lk.resting_inside Lk.MTry _ _ (rest_rl_resting _ Hrp) Hin) as [->| ->].
    + destruct (rl_enabled_make _ _ Hrp Hrg) as [r' Hr']. peel_none Hs; congruence.
    + destruct (rl_enabled_return _ _ _ Hrp ltac:(auto)) as [r' Hr'].
      apply bind_None in Hs as [Hs|(r1 & E & Hs)]; [congruence|].
      apply Mtx.core_spec in E as (_ & Hret & _). apply lk_return in Hret as [Hret _].
      assert (Hidle : Lk.pcs (Mtx.core r1) !! t = Some Lk.Idle).
      { rewrite Hret. apply list_lookup_insert_eq. by eapply lookup_lt_Some. }
      apply bind_None in Hs as [Hs|([] & _ & Hs)]; [|done]. unfold spin_next, rl_core, rl_step in Hs.
      cbn [Mtx.step] in Hs. destruct (n =? 0)%N; simpl in Hs; by rewrite Hidle in Hs.
  - apply andb_prop in Hrok as [Hin Hng]. destruct gd; [done|]. rewrite Hrp, Hnp in Hs.
    destruct (Lk.resting_inside Lk.MLockNc _ _ (rest_rl_resting _ Hrp) Hin) as [->|[b ->]]; [|by eexists].
    destruct (rl_enabled_make _ _ Hrp Hrg) as [r' Hr']. peel_none Hs; congruence.
  - destruct lr, gd as [[x|]|]; try done. pose proof (rl_enabled_access _ _ _ (fun n => Word.sub n 1) Hrg) as Ha.
    rewrite Ha in Hs. cbn [mbind option_bind] in Hs.
    edestruct (rl_enabled_drop (Mtx.St (Mtx.core (rl s)) (Mtx.poison (rl s)) (Mtx.guards (rl s))
      (Word.sub (Mtx.data (rl s)) 1)) t) as [r' Hd]; [done..|].
    assert (Hpos : (0 < Mtx.data (rl s))%Z).
    { rewrite (inv_count _ Hinv). pose proof (zsum_lookup_le counted _ _ _ counted_nonneg Ht) as Hle.
      unfold counted in Hle at 1. rewrite Hpc in Hle. simpl in Hle. lia. }
    simpl Mtx.data in Hs. destruct (_ =? 0)%Z; [|peel_none Hs; congruence].
    rewrite (proj2 (Z.ltb_lt _ _) Hpos) in Hslot. destruct lg; try done.
    apply bind_None in Hs as [Hs|(c & E & Hs)]; [by rewrite (Lk.transfer_some _ _ _ Hslot Hgp) in Hs|].
    apply Lk.transfer_spec in E as (_ & _ & _ & _ & _ & Hpcs).
    apply bind_None in Hs as [Hs|(? & _ & Hs)]; [|done].
    simpl in Hs. rewrite Hpcs, list_lookup_insert_eq in Hs; [done|].
    rewrite length_insert. by eapply lookup_lt_Some.
  - destruct lr, gd as [[x|]|]; try done.
    pose proof (Lk.resting_inside Lk.MUnlock _ _ (rest_g_resting _ Hgp) Hgok) as ->.
    rewrite Hgp in Hs. unfold gpc in Hgp. cbn [Lk.step] in Hs. rewrite Hgp in Hs.
    destruct (rl_enabled_drop _ _ _ Hrp Hrg) as [r' H1]. peel_none Hs; congruence.
  - pose proof (Lk.resting_inside (kind_mode k) _ _ (rest_g_resting _ Hgp) Hgok) as Hr.
    rewrite Hgp in Hs. unfold gpc in Hgp.
    assert (Hown : lg <> Lk.Owner).
    { intros ->. assert (Hw0 : zsum writers (ths s) = 0%Z \/ zsum writers (ths s) <> 0%Z) by lia.
      destruct Hw0 as [Hw0|Hw0].
      - rewrite Hw0 in Hwslot.
        apply bind_None in Hs as [Hs|(c & _ & Hs)]; [|done].
        by rewrite (Lk.transfer_some _ _ _ Hgp Hwslot) in Hs.
      - pose proof (zsum_nonneg writers (ths s) writers_nonneg).
        rewrite (proj2 (Z.ltb_lt 0 _)) in Hwslot by lia.
        pose proof (Lk.mutual_exclusion _ _ _ _ _ (inv_g _ Hinv) Hgp Hwslot eq_refl eq_refl) as Heq.
        apply lookup_lt_Some in Ht. unfold writer_slot in Heq. lia. }
    destruct k; simpl in Hr.
    + destruct Hr as [->|[->|[b ->]]]; [done| |by eexists]. cbn [Lk.step] in Hs.
      rewrite Hgp in Hs. peel_none Hs; congruence.
    + destruct Hr as [->| ->]; [done|]. cbn [Lk.step] in Hs. rewrite Hgp in Hs. peel_none Hs; congruence.
  - pose proof (Lk.resting_inside Lk.MUnlock _ _ (rest_g_resting _ Hgp) Hgok) as ->.
    rewrite Hgp in Hs. unfold gpc in Hgp. cbn [Lk.step] in Hs. rewrite Hgp in Hs. peel_none Hs; congruence.
Qed.
End rest_threads.

(** At rest the owner of the reader mutex waits for the global lock, and no
    reader is counted. *)
Lemma section_count s v :
  inv s -> quiescent s -> Lk.pcs (Mtx.core (rl s)) !! v = Some Lk.Owner ->
  Mtx.data (rl s) = 0%Z /\ exists b, gpc v s = Some (Lk.LPark b).
Proof.
  intros Hinv Hq Hv. pose proof (lookup_lt_Some _ _ _ Hv) as Hlt.
  pose proof (inv_len _ Hinv) as [_ HL]. injection HL as HL1 HL2. rewrite HL1 in Hlt.
  destruct (lookup_lt_is_Some_2 (ths s) v Hlt) as [th Ht].
  pose proof (rest_pc s Hinv Hq v th Ht) as Hr.
  destruct (own_view s v th Hinv Ht _ eq_refl) as (lr & gd & lg & Hrp & _ & _ & Hrok & _ & Hdok).
  unfold rpc in *. rewrite Hv in Hrp. simplify_eq. unfold rl_ok in Hrok.
  destruct (tpc th) as [| |[]|[]|[]|[] []| | | | | | |[]| | |]; simpl in Hr, Hrok, Hdok; try done;
    try (destruct Hr as [? Hr]; unfold rpc in Hr; congruence).
  by apply Z.eqb_eq in Hdok.
Qed.

Lemma parked_on_g s t th b :
  inv s -> quiescent s -> ths s !! t = Some th -> gpc t s = Some (Lk.LPark b) ->
  exists t' th', ths s !! t' = Some th' /\ (rg th' <> 0 \/ wg th' <> None).
Proof.
  intros Hinv Hq Ht Hp.
  destruct (Lk.parked_behind_owner _ _ _ (inv_g _ Hinv) (rest_g s Hinv Hq) Hp) as (u & Hne & Hu).
  destruct (decide (u = writer_slot s)) as [->|Hn2].
  { rewrite (proj1 (inv_writer _ Hinv)) in Hu. destruct (Z.ltb_spec 0 (zsum writers (ths s))); [|done].
    destruct (zsum_nonzero writers (ths s)) as (t' & th' & ? & Hw); [lia|].
    exists t', th'. split; [done|]. right. unfold writers in Hw. by destruct (wg th'). }
  destruct (decide (u = readers_slot s)) as [->|Hn1].
  - rewrite (inv_readers _ Hinv) in Hu. rewrite (inv_count _ Hinv) in Hu.
    destruct (Z.ltb_spec 0 (zsum counted (ths s))) as [Hpos|]; [|done].
    destruct (zsum_nonzero counted (ths s)) as (t' & th' & Ht' & Hw); [lia|].
    destruct (decide (rg th' = 0)) as [H0|]; [|by eauto].
    pose proof (rest_pc s Hinv Hq t' th' Ht') as Hr. unfold counted in Hw. rewrite H0 in Hw.
    destruct (tpc th') eqn:Hpc; simpl in Hw; try done. destruct Hr as [b' Hb'].
    destruct (Lk.parked_behind_owner _ _ _ (Mtx.inv_core _ (inv_rl _ Hinv)) (rest_rl s Hinv Hq) Hb')
      as (v & _ & Hv).
    destruct (section_count s v Hinv Hq Hv) as [H0' _]. rewrite (inv_count _ Hinv) in H0'. lia.
  - pose proof (lookup_lt_Some _ _ _ Hu) as Hlt. rewrite (proj1 (inv_len _ Hinv)) in Hlt.
    unfold readers_slot, writer_slot in *.
    destruct (lookup_lt_is_Some_2 (ths s) u) as [th' Ht']; [lia|].
    pose proof (rest_pc s Hinv Hq u th' Ht') as Hr.
    destruct (own_view s u th' Hinv Ht' _ eq_refl) as (lr & gd & lg & _ & _ & Hgp & _ & Hgok & _).
    unfold gpc in *. rewrite Hu in Hgp. simplify_eq. unfold g_ok in Hgok.
    destruct (tpc th') as [| |[]|[]|[]|[] []| | | | | | |[]| | |]; simpl in Hr, Hgok; try done;
      destruct Hr as [? Hr]; unfold gpc in Hr; congruence.
Qed.

(** ** Properties *)

Lemma wg_lookup s t1 t2 th1 th2 :
  inv s -> ths s !! t1 = Some th1 -> ths s !! t2 = Some th2 -> wg th1 <> None -> wg th2 <> None -> t1 = t2.
Proof.
  intros Hinv H1 H2 Hw1 Hw2. destruct (decide (t1 = t2)) as [|Hne]; [done|].
  pose proof (zsum_lookup2_le writers _ _ _ _ _ writers_nonneg Hne H1 H2) as Hle.
  destruct (inv_writer _ Hinv) as [_ ?]. unfold writers in Hle at 1 2.
  destruct (wg th1), (wg th2); simpl in *; try done. lia.
Qed.

Lemma no_reader_with_writer s t1 t2 th1 th2 :
  inv s -> ths s !! t1 = Some th1 -> ths s !! t2 = Some th2 -> wg th1 <> None -> rg th2 = 0.
Proof.
  intros Hinv H1 H2 Hw. destruct (decide (rg th2 = 0)) as [|Hr]; [done|exfalso].
  assert (Hd : (0 < Mtx.data (rl s))%Z).
  { rewrite (inv_count _ Hinv). pose proof (zsum_lookup_le counted _ _ _ counted_nonneg H2) as Hle.
    unfold counted in Hle at 1. pose proof (b2z_nonneg (dropping (tpc th2))). lia. }
  assert (Hw' : (0 < zsum writers (ths s))%Z).
  { pose proof (zsum_lookup_le writers _ _ _ writers_nonneg H1) as Hle.
    unfold writers in Hle at 1. destruct (wg th1); simpl in *; [lia|done]. }
  pose proof (inv_readers _ Hinv) as Hs1. destruct (inv_writer _ Hinv) as [Hs2 _].
  rewrite (proj2 (Z.ltb_lt _ _) Hd) in Hs1. rewrite (proj2 (Z.ltb_lt _ _) Hw') in Hs2.
  pose proof (Lk.mutual_exclusion _ _ _ _ _ (inv_g _ Hinv) Hs1 Hs2 eq_refl eq_refl).
  unfold readers_slot, writer_slot in *. lia.
Qed.

(** C6. Readers-writer exclusion, in the runs where the critical sections of the
    reader mutex see no new panic, so that it is never poisoned, and the reader count
    stays below its maximum ([qstep]; without the first
    [try_read_poisoned_breaks_exclusion]): under every interleaving, cancellation and
    contended drop, a write guard excludes every read guard and every other write
    guard, and while any read guard exists no step of any thread changes the data. *)
Theorem readers_writer_exclusion d n s t th
  (Hr : reachable qstep (new d n) s) (Hb : bounded s) (Ht : ths s !! t = Some th) :
  (wg th <> None -> forall t' th', ths s !! t' = Some th' ->
     rg th' = 0 /\ (t' <> t -> wg th' = None)) /\
  (rg th <> 0 -> forall e s', step s e = Some s' -> data s' = data s).
Proof.
  pose proof (rw_inv_reachable _ _ _ Hr Hb) as Hinv. split.
  - intros Hw t' th' Ht'. split; [exact (no_reader_with_writer s t t' th th' Hinv Ht Ht' Hw)|].
    intros Hne. destruct (wg th') as [w|] eqn:Hw'; [|done].
    exfalso. apply Hne. apply (wg_lookup s t' t th' th Hinv Ht' Ht); [by rewrite Hw'|done].
  - intros Hrg e s' Hs. destruct e as [t' o|e|e|t' en|t' f| |t']; cbn [step] in Hs.
    1: unfold call in Hs.
    4: unfold step_thread, step_read, step_read_unlock, step_write, step_expect in Hs.
    5: destruct (ths s !! t') as [th'|] eqn:Ht'; [|done]; destruct (wg th') as [w|] eqn:Hw; [|done];
       exfalso; apply Hrg, (no_reader_with_writer s t' t th' th); try done; by rewrite Hw.
    all: open_step Hs; done.
Qed.

(** The lock is never lost, although it passes between readers, writers and
    the reader mutex: if no thread can move on its own and one is parked in
    [read], [write] or the drop of a read guard, then some read or write guard is
    alive; the [expect]s on the reader mutex never panic. *)
Theorem guard_behind_parked d n s t
  (Hr : reachable qstep (new d n) s) (Hb : bounded s) (Hq : quiescent s) (Hp : parked s t) :
  (exists t' th', ths s !! t' = Some th' /\ (rg th' <> 0 \/ wg th' <> None)) /\
  forall t' th', ths s !! t' = Some th' -> tpc th' <> PanicExpect.
Proof.
  pose proof (rw_inv_reachable _ _ _ Hr Hb) as Hinv. split.
  - destruct Hp as (th & b & Ht & [[_ Hp]|[_ Hp]]); [|by eapply parked_on_g].
    destruct (Lk.parked_behind_owner _ _ _ (Mtx.inv_core _ (inv_rl _ Hinv)) (rest_rl s Hinv Hq) Hp)
      as (v & _ & Hv).
    destruct (section_count s v Hinv Hq Hv) as [_ [b' Hb']].
    pose proof (lookup_lt_Some _ _ _ Hv) as Hlt.
    pose proof (inv_len _ Hinv) as [_ HL]. injection HL as HL1 HL2. rewrite HL1 in Hlt.
    destruct (lookup_lt_is_Some_2 (ths s) v Hlt) as [th' Ht']. by eapply parked_on_g.
  - intros t' th' Ht' Hx. pose proof (rest_pc s Hinv Hq t' th' Ht') as Hrest. by rewrite Hx in Hrest.
Qed.

End rwlock.
Arguments state : clear implicits.
Arguments event : clear implicits.

(** ** Witnesses: threads 0 and 2 read, thread 1 is cancelled while it waits to
    write, thread 3 waits to write behind it. *)
Definition calm : Poison.env := Poison.Env false false false false.
Definition panic : Poison.env := Poison.Env true false false false.
Definition gticks (t k : nat) : list (event nat) := replicate k (Gl (Lk.Tick t)).
Definition rticks (t k : nat) : list (event nat) := replicate k (Rl (Lk.Tick t)).
Definition steps (t k : nat) : list (event nat) := replicate k (Step t calm).

(** An uncontended first read, a read beside readers, a write that must wait. *)
Definition read_first (t : nat) (en : Poison.env) : list (event nat) :=
  Call t (CRead Block) :: rticks t 1 ++ steps t 2 ++ gticks t 1 ++ steps t 1 ++ [Step t en] ++
  rticks t 1 ++ steps t 1 ++ [Return t].
Definition read_more (t : nat) : list (event nat) :=
  Call t (CRead Block) :: rticks t 1 ++ steps t 3 ++ rticks t 1 ++ steps t 1 ++ [Return t].
Definition write_wait (t : nat) : list (event nat) := Call t (CWrite Block) :: gticks t 4.

Definition demo_wait : list (event nat) :=
  read_first 0 calm ++ write_wait 1 ++ [Gl (Lk.ParkCanceled 1 false)] ++ gticks 1 3 ++ steps 1 1 ++
  read_more 2 ++ write_wait 3.

(** The last reader leaves: the write passes the cancelled waiter. *)
Definition drop_read (t : nat) (last : bool) : list (event nat) :=
  Call t (CDropRead false) :: rticks t 1 ++ steps t 2 ++
  (if last then gticks t 10 ++ steps t 1 else []) ++ rticks t 1 ++ steps t 1 ++ [Return t].
Definition demo_write : list (event nat) :=
  demo_wait ++ drop_read 0 false ++ drop_read 2 true ++ [Gl (Lk.ParkOk 3)] ++ steps 3 1 ++
  [Access 3 S].

Definition final (es : list (event nat)) : state nat := default (new 7 4) (run qstep es (new 7 4)).

Example demo_write_result :
  map tpc (ths (final demo_write)) = [Idle; Ret OCanceled; Idle; Ret (OGuard false)] /\
  data (final demo_write) = 8 /\ map rg (ths (final demo_wait)) = [1; 0; 1; 0].
Proof. by vm_compute. Qed.

Lemma readers_writer_exclusion_witness :
  let s := final demo_write in
  let th := Thr (Ret (OGuard false)) 0 (Some (Poison.LOk (Poison.MkGuard false))) in
  (wg th <> None -> forall t' th', ths s !! t' = Some th' -> rg th' = 0 /\ (t' <> 3 -> wg th' = None)) /\
  (rg th <> 0 -> forall e s', step s e = Some s' -> data s' = data s).
Proof.
  intros s th. apply (readers_writer_exclusion 7 4 s 3 th).
  - apply run_reachable with (es := demo_write). vm_compute. reflexivity.
  - vm_compute. auto.
  - vm_compute. reflexivity.
Defined.

Lemma guard_behind_parked_witness :
  let s := final demo_wait in
  (exists t' th', ths s !! t' = Some th' /\ (rg th' <> 0 \/ wg th' <> None)) /\
  forall t' th', ths s !! t' = Some th' -> tpc th' <> PanicExpect.
Proof.
  apply (guard_behind_parked 7 4 _ 3).
  - apply run_reachable with (es := demo_wait). vm_compute. reflexivity.
  - vm_compute. auto.
  - intros [|[|[|[|t]]]]; (split; [intros en; reflexivity|intros e [->| ->]; vm_compute; auto]).
  - eexists _, _. split; [vm_compute; reflexivity|]. right. split; [done|vm_compute; reflexivity].
Defined.

Definition bogus_read : list (event nat) :=
  [Call 1 (CWrite Block)] ++ gticks 1 1 ++ steps 1 1 ++ [Return 1] ++
  [Call 0 (CRead Block)] ++ rticks 0 1 ++ steps 0 2 ++ gticks 0 4 ++
  [Call 1 (CDropWrite calm)] ++ gticks 1 5 ++ steps 1 1 ++ [Return 1; Gl (Lk.ParkOk 0)] ++
  steps 0 1 ++ [Step 0 panic] ++ rticks 0 1 ++ steps 0 1 ++ [Return 0] ++
  [Call 2 (CRead Try)] ++ rticks 2 1 ++ steps 2 1 ++ rticks 2 1 ++ steps 2 1 ++ [Return 2] ++
  [Call 2 (CDropRead true)] ++ rticks 2 1 ++ steps 2 1 ++ rticks 2 1 ++ steps 2 1 ++
  rticks 2 1 ++ steps 2 2 ++ gticks 2 1 ++
  [Call 1 (CWrite Try)] ++ gticks 1 1 ++ steps 1 1.

(** Outside the [quiet] runs: the reader mutex can be poisoned when a reader that
    parked inside [read] resumes on a worker thread where another coroutine's
    panic is suspended.  [try_read] then wraps in its error a guard it has not
    counted; dropping that guard (here while unwinding) releases the global lock
    under the feet of the first reader, and a writer gets in. *)
Theorem try_read_poisoned_breaks_exclusion :
  exists s, run step bogus_read (new 7 4) = Some s /\
    (exists th, ths s !! 0 = Some th /\ rg th = 1) /\ exists th, ths s !! 1 = Some th /\ wg th <> None.
Proof. eexists. vm_compute. split; [reflexivity|]. split; by eexists. Qed.

End Rw.
