(* ===== verification/Condvar.v ===== *)
(** * Condvar: [src/sync/condvar.rs]

    The condition variable over the mutex machine: [wait_impl] with its release
    hand-off, [notify_one] with the forwarding loop, [notify_all], the re-lock
    with cancellation disabled, and the sequential wrappers around [wait]. *)

From stdpp Require Import base numbers list option.
From Stdlib Require Import ZArith Lia.
From S2P Require Import Prelude Blocking Handoff Poison LockCore Mutex.

Module Cv.

(** ** [verify]: one condition variable, one mutex

    [None] is the panic "attempted to use a condition variable with two mutex". *)
Definition verify (mutex addr : Z) : option Z :=
  if (mutex =? 0)%Z then Some addr           (* Ok(0): bound now *)
  else if (mutex =? addr)%Z then Some mutex  (* Err(n) if n == addr *)
  else None.

Lemma verify_once mutex addr m' a :
  addr <> 0%Z -> verify mutex addr = Some m' -> verify m' a = Some m' <-> a = addr.
Proof.
  unfold verify. intros H0 H. repeat case_match; simplify_eq;
    rewrite ?Z.eqb_eq, ?Z.eqb_neq in *; subst; split; intros; simplify_eq; done.
Qed.

(** ** The predicate loops

    The results of the successive [wait]s (or [wait_timeout]s, with the
    [WaitTimeoutResult] and the time each took) are given as a list; [None]
    means that the loop is still waiting when they are used up. *)
Section loops.
Context {D : Type} (condition : D -> bool).

Fixpoint wait_while (d : D) (ws : list (Poison.LockResult D)) : option (Poison.LockResult D) :=
  if condition d then
    match ws with
    | [] => None
    | Poison.LOk d' :: ws' => wait_while d' ws'
    | Poison.LPoisoned d' :: _ => Some (Poison.LPoisoned d')
    end
  else Some (Poison.LOk d).

Record timed := Timed { guard : Poison.LockResult D; timed_out : bool; took : Z }.

(** The result, whether it is a timeout, and the total time spent waiting. *)
Fixpoint wait_timeout_while (d : D) (ws : list timed) : option (Poison.LockResult D * bool * Z) :=
  if condition d then
    match ws with
    | [] => None
    | Timed (Poison.LPoisoned d') b u :: _ => Some (Poison.LPoisoned d', b, u)
    | Timed (Poison.LOk d') true u :: _ => Some (Poison.LOk d', true, u)
    | Timed (Poison.LOk d') false u :: ws' =>
        match wait_timeout_while d' ws' with
        | Some (r, b, u') => Some (r, b, (u + u')%Z)
        | None => None
        end
    end
  else Some (Poison.LOk d, false, 0%Z).

Lemma wait_while_ok d ws d' : wait_while d ws = Some (Poison.LOk d') -> condition d' = false.
Proof.
  revert d; induction ws as [|[] ws IH]; intros d; simpl; destruct (condition d) eqn:Hc;
    intros H; simplify_eq; eauto.
Qed.

Lemma wait_while_total d ws d' :
  Forall (fun r => Poison.is_err r = false) ws -> Poison.LOk d' ∈ ws -> condition d' = false ->
  exists d2, wait_while d ws = Some (Poison.LOk d2).
Proof.
  intros Hall. revert d; induction Hall as [|[a|a] ws Ha _ IH]; intros d Hin Hc; simplify_eq/=.
  - by apply not_elem_of_nil in Hin.
  - destruct (condition d); [|by eexists].
    apply elem_of_cons in Hin as [Heq|Hin]; [|by apply IH].
    simplify_eq. exists a. destruct ws as [|[]]; simpl; by rewrite Hc.
Qed.

(** A result that is not a timeout means that the condition became false. *)
Lemma wait_timeout_while_ok d ws d' u :
  wait_timeout_while d ws = Some (Poison.LOk d', false, u) -> condition d' = false.
Proof.
  revert d u; induction ws as [|[[a|a] [] w] ws IH]; intros d u; simpl;
    destruct (condition d) eqn:Hc; intros H; simplify_eq; eauto.
  destruct (wait_timeout_while a ws) as [[[? ?] ?]|] eqn:Hw; simplify_eq. eauto.
Qed.
End loops.
Arguments timed : clear implicits.

Definition late (k : nat) : list (timed nat) :=
  replicate k (Timed (Poison.LOk 0) false 9) ++ [Timed (Poison.LOk 1) false 9].

(** [wait_timeout_while] bounds no more than each single wait: every wait of
    the loop is given the full duration again, so with [dur] = 10 and [k]
    notifications that arrive just before it expires, the call lasts nine times
    [k] + 1 although no wait ever reports a timeout. *)
Theorem wait_timeout_while_exceeds_dur k :
  wait_timeout_while (Nat.eqb 0) 0 (late k) = Some (Poison.LOk 1, false, (9 * (Z.of_nat k + 1))%Z).
Proof.
  unfold late. induction k as [|k IH]; [done|]. simpl in *. rewrite IH. do 2 f_equal. lia.
Qed.

(** ** The machine *)
Section condvar.
Context {D : Type}.
#[local] Abbreviation G := (Poison.LockResult Poison.Guard).

(** Where [notify_one] returns to: its caller, or the wait of a leaving waiter. *)
Inductive nk := NRet | NErr (e : ParkError) (r : G).
Inductive outcome := OWait (poisoned : bool) | OTimedOut (poisoned : bool) | OCanceled | ONotified.

(** [r] is the caller's guard, put aside during the wait. *)
Inductive pc :=
  | Idle | Ret (o : outcome) | PanicTwo
  | WNew (d : bool) (r : G) | WPush (d : bool) (r : G) (b : nat)
  | WUnlock (d : bool) (r : G) (b : nat) | WPark (d : bool) (r : G) (b : nat)
  | WErrCheck (e : ParkError) (r : G) (b : nat) | WErrSet (e : ParkError) (r : G) (b : nat)
  | WErrRecheck (e : ParkError) (r : G) (b : nat) | WErrTake (e : ParkError) (r : G) (b : nat)
  | WRelock (ret : option ParkError) (r : G) | WCancel
  | NPop (k : nk) | NStore (k : nk) (b : nat) | NWake (k : nk) (b : nat) | NTake (k : nk) (b : nat)
  | APop | AStore (b : nat) | AWake (b : nat) | ANext (b : nat).

(** [signals], [woken] and [dropped] are history variables: the calls of
    [notify_one], the waits that returned because they were notified, and the
    signals that found nobody waiting. *)
Record state := St {
  m : Mtx.state D;
  pl : pool;
  bound : Z;
  pcs : list pc;
  signals : Z; woken : Z; dropped : Z
}.

Definition new (d : D) (n : nat) : state :=
  St (Mtx.new d n) pool_new 0 (replicate n Idle) 0 0 0.

Inductive event :=
  | CWait (t : nat) (dur : bool) (addr : Z)   (* [wait]/[wait_timeout] with the guard of [t] *)
  | CNotifyOne (t : nat) | CNotifyAll (t : nat)
  | User (t : nat) (e : Mtx.event D)          (* a use of the mutex outside of the condvar *)
  | Lck (e : Lk.event)                        (* a step inside [lock]/[unlock] of the wait *)
  | Tick (t : nat)
  | Park (t : nat) (r : option ParkError)
  | Return (t : nat).

Definition set_pc (t : nat) (x : pc) (s : state) : state :=
  St (m s) (pl s) (bound s) (<[t:=x]> (pcs s)) (signals s) (woken s) (dropped s).
Definition set_pl (p : pool) (s : state) : state :=
  St (m s) p (bound s) (pcs s) (signals s) (woken s) (dropped s).
Definition set_m (m' : Mtx.state D) (s : state) : state :=
  St m' (pl s) (bound s) (pcs s) (signals s) (woken s) (dropped s).
Definition set_bound (z : Z) (s : state) : state :=
  St (m s) (pl s) z (pcs s) (signals s) (woken s) (dropped s).
Definition add_signal (s : state) : state :=
  St (m s) (pl s) (bound s) (pcs s) (signals s + 1) (woken s) (dropped s).
Definition add_woken (s : state) : state :=
  St (m s) (pl s) (bound s) (pcs s) (signals s) (woken s + 1) (dropped s).
Definition add_dropped (s : state) : state :=
  St (m s) (pl s) (bound s) (pcs s) (signals s) (woken s) (dropped s + 1).

(** [lock.lock()] after the wait, with cancellation disabled. *)
Definition relock (t : nat) (ret : option ParkError) (r : G) (s : state) : option state :=
  m' ← Mtx.apply (Mtx.Core (Lk.Lock t)) (m s);
  Some (set_pc t (WRelock ret r) (set_m m' s)).

Definition after_notify (t : nat) (k : nk) (s : state) : option state :=
  match k with
  | NRet => Some (set_pc t (Ret ONotified) s)
  | NErr e r => relock t (Some e) r s
  end.

(** [notify_one]: pop until a waiter does not give the signal back. *)
Definition step_notify_one (t : nat) (x : pc) (s : state) : option state :=
  match x with
  | NPop k =>
      match pool_pop (pl s) with
      | None => after_notify t k (add_dropped s)
      | Some (b, p') => Some (set_pc t (NStore k b) (set_pl p' s))
      end
  | NStore k b => Some (set_pc t (NWake k b) (set_pl (pool_store_unparked b (pl s)) s))
  | NWake k b => Some (set_pc t (NTake k b) (set_pl (pool_wake b (pl s)) s))
  | NTake k b =>
      let '(r, p') := pool_take_release b (pl s) in
      if r then Some (set_pc t (NPop k) (set_pl p' s)) else after_notify t k (set_pl p' s)
  | _ => None
  end.

(** [notify_all]: the release flags are not looked at. *)
Definition step_notify_all (t : nat) (x : pc) (s : state) : option state :=
  match x with
  | APop =>
      match pool_pop (pl s) with
      | None => Some (set_pc t (Ret ONotified) s)
      | Some (b, p') => Some (set_pc t (AStore b) (set_pl p' s))
      end
  | AStore b => Some (set_pc t (AWake b) (set_pl (pool_store_unparked b (pl s)) s))
  | AWake b => Some (set_pc t (ANext b) (set_pl (pool_wake b (pl s)) s))
  | ANext b => Some (set_pc t APop s)
  | _ => None
  end.

(** [wait_impl] up to the re-lock. *)
Definition step_wait_impl (t : nat) (x : pc) (s : state) : option state :=
  match x with
  | WNew d r => let '(b, p') := pool_alloc (pl s) in Some (set_pc t (WPush d r b) (set_pl p' s))
  | WPush d r b =>
      m1 ← Mtx.apply (Mtx.Forget t) (m s);
      m2 ← Mtx.apply (Mtx.UnlockMutex t) m1;
      Some (set_pc t (WUnlock d r b) (set_m m2 (set_pl (pool_push b (pl s)) s)))
  | WUnlock d r b =>
      match Lk.pcs (Mtx.core (m s)) !! t with
      | Some Lk.Released =>
          m' ← Mtx.apply (Mtx.Core (Lk.Return t)) (m s);
          Some (set_pc t (WPark d r b) (set_m m' s))
      | _ => None
      end
  | WErrCheck e r b =>
      if pool_unparked b (pl s)
      then Some (set_pc t (NPop (NErr e r)) (set_pl (pool_settle b (pl s)) s))
      else Some (set_pc t (WErrSet e r b) s)
  | WErrSet e r b => Some (set_pc t (WErrRecheck e r b) (set_pl (pool_set_release b (pl s)) s))
  | WErrRecheck e r b =>
      if pool_unparked b (pl s) then Some (set_pc t (WErrTake e r b) s) else relock t (Some e) r s
  | WErrTake e r b =>
      let '(f, p') := pool_take_release b (pl s) in
      if f then Some (set_pc t (NPop (NErr e r)) (set_pl p' s)) else relock t (Some e) r (set_pl p' s)
  | _ => None
  end.

(** The guard the caller gets back, wrapped according to the poison flag. *)
Definition rewrap (p : Poison.Flag) (r : G) : G :=
  if Poison.get p then Poison.LPoisoned (Poison.into_inner r) else Poison.LOk (Poison.into_inner r).

(** The end of [wait_impl] and of [wait]/[wait_timeout]. *)
Definition step_wait (t : nat) (x : pc) (s : state) : option state :=
  match x with
  | WRelock ret r =>
      match Lk.pcs (Mtx.core (m s)) !! t with
      | Some Lk.Owner =>
          match ret with
          | Some Canceled =>
              m' ← Mtx.apply (Mtx.UnlockMutex t) (m s);
              Some (set_pc t WCancel (set_m m' s))
          | _ =>
              let poisoned := Poison.get (Mtx.poison (m s)) in
              m' ← Mtx.apply (Mtx.Adopt t (rewrap (Mtx.poison (m s)) r)) (m s);
              Some (set_pc t (Ret (match ret with None => OWait poisoned | Some _ => OTimedOut poisoned end))
                      (set_m m' s))
          end
      | _ => None
      end
  | WCancel =>
      match Lk.pcs (Mtx.core (m s)) !! t with
      | Some Lk.Released =>
          m' ← Mtx.apply (Mtx.Core (Lk.Return t)) (m s);
          Some (set_pc t (Ret OCanceled) (set_m m' s))
      | _ => None
      end
  | _ => None
  end.

Definition tick (t : nat) (x : pc) (s : state) : option state :=
  match x with
  | NPop _ | NStore _ _ | NWake _ _ | NTake _ _ => step_notify_one t x s
  | APop | AStore _ | AWake _ | ANext _ => step_notify_all t x s
  | WRelock _ _ | WCancel => step_wait t x s
  | _ => step_wait_impl t x s
  end.

(** [cur.park(dur)]. *)
Definition step_park (t : nat) (r : option ParkError) (x : pc) (s : state) : option state :=
  match x, r with
  | WPark d g b, None =>
      if pool_can_wake b (pl s)
      then relock t None g (add_woken (set_pl (pool_park_ok b (pl s)) s)) else None
  | WPark d g b, Some e =>
      if (match e with Timeout => d | Canceled => true end)
      then Some (set_pc t (WErrCheck e g b) (set_pl (pool_park_err b (pl s)) s)) else None
  | _, _ => None
  end.

(** Which operation of the mutex the wait is inside of. *)
Definition lock_mode (x : pc) : option Lk.mode :=
  match x with
  | WUnlock _ _ _ | WCancel => Some Lk.MUnlock
  | WRelock _ _ => Some Lk.MLockNc
  | _ => None
  end.

(** The address of the modelled mutex is 1. *)
Definition step (s : state) (e : event) : option state :=
  match e with
  | CWait t d addr =>
      match pcs s !! t, Mtx.guards (m s) !! t with
      | Some Idle, Some (Some r) =>
          match verify (bound s) addr with
          | None => Some (set_pc t PanicTwo s)
          | Some z => if (addr =? 1)%Z then Some (set_pc t (WNew d r) (set_bound z s)) else None
          end
      | _, _ => None
      end
  | CNotifyOne t =>
      match pcs s !! t with
      | Some Idle => Some (add_signal (set_pc t (NPop NRet) s))
      | _ => None
      end
  | CNotifyAll t => match pcs s !! t with Some Idle => Some (set_pc t APop s) | _ => None end
  | User t e =>
      match pcs s !! t with
      | Some (Idle | PanicTwo) =>
          if decide (Mtx.event_thread e = Some t)
          then m' ← Mtx.apply e (m s); Some (set_m m' s) else None
      | _ => None
      end
  | Lck e =>
      match pcs s !! Lk.thread e with
      | Some x =>
          match lock_mode x with
          | Some md =>
              if Lk.internal e && Lk.mode_ok md e
              then m' ← Mtx.apply (Mtx.Core e) (m s); Some (set_m m' s) else None
          | None => None
          end
      | None => None
      end
  | Tick t => match pcs s !! t with Some x => tick t x s | None => None end
  | Park t r => match pcs s !! t with Some x => step_park t r x s | None => None end
  | Return t => match pcs s !! t with Some (Ret _) => Some (set_pc t Idle s) | _ => None end
  end.

(** ** Accounting *)

Definition role_of (x : pc) : role :=
  match x with
  | WPush _ _ b => Role (Some (b, KReg)) None
  | WUnlock _ _ b | WPark _ _ b => Role (Some (b, KWait)) None
  | WErrCheck _ _ b => Role (Some (b, KErr)) None
  | WErrSet _ _ b => Role (Some (b, KChecked)) None
  | WErrRecheck _ _ b => Role (Some (b, KReleased)) None
  | WErrTake _ _ b => Role (Some (b, KRecheck)) None
  | NStore _ b | AStore b => Role None (Some (b, KStore))
  | NWake _ b | AWake b => Role None (Some (b, KWake))
  | NTake _ b | ANext b => Role None (Some (b, KTake))
  | _ => Role None None
  end.

(** A signal held by a thread that is about to pop the next waiter. *)
Definition hand (x : pc) : Z := match x with NPop _ => 1 | _ => 0 end%Z.
Definition broadcasting (x : pc) : bool :=
  match x with APop | AStore _ | AWake _ | ANext _ => true | _ => false end.

(** What the wait knows about the mutex: it owns it before it unlocks and again
    after the re-lock, and has nothing to do with it in between. *)
Definition mtx_ok (x : pc) (l : Lk.pc) (gd : option G) : bool :=
  match lock_mode x with
  | Some md => Lk.inside md l && negb (is_some gd)
  | None =>
      match x with
      | WNew _ _ | WPush _ _ _ => match l, gd with Lk.Owner, Some _ => true | _, _ => false end
      | WPark _ _ _ | WErrCheck _ _ _ | WErrSet _ _ _ | WErrRecheck _ _ _ | WErrTake _ _ _
      | NPop (NErr _ _) | NStore (NErr _ _) _ | NWake (NErr _ _) _ | NTake (NErr _ _) _ =>
          match l with Lk.Idle => negb (is_some gd) | _ => false end
      | Ret (OWait _) | Ret (OTimedOut _) => match l, gd with Lk.Owner, Some _ => true | _, _ => false end
      | Ret OCanceled => match l with Lk.Idle => negb (is_some gd) | _ => false end
      | _ => true
      end
  end.

Definition thr_ok (mm : Mtx.state D) (t : nat) (x : pc) : Prop :=
  exists l gd, Mtx.view mm t = (Some l, Some gd) /\ mtx_ok x l gd = true.

Record inv (bc : bool) (s : state) : Prop := {
  inv_pool : HI bc (role_of <$> pcs s) (pl s);
  inv_mtx : Mtx.inv (m s);
  inv_sizes : Mtx.sizes (m s) = (length (pcs s), length (pcs s));
  inv_signals : bc = false ->
    signals s = (woken s + dropped s + tok (role_of <$> pcs s) (pl s) + zsum hand (pcs s))%Z;
  inv_mode : bc = false -> forall t x, pcs s !! t = Some x -> broadcasting x = false;
  inv_thr : forall t x, pcs s !! t = Some x -> thr_ok (m s) t x
}.

Definition bounded (s : state) : Prop := Mtx.bounded (m s).

Section move.
Context (bc : bool) (s : state) (t : nat) (x y : pc) (m' : Mtx.state D) (p' : pool) (z : Z).
Context (sg wk dr d : Z) (Hinv : inv bc s) (Ht : pcs s !! t = Some x).

Lemma cv_inv_move :
  HI bc (role_of <$> <[t:=y]> (pcs s)) p' /\
    tok (role_of <$> <[t:=y]> (pcs s)) p' = (tok (role_of <$> pcs s) (pl s) + d)%Z ->
  Mtx.inv m' -> Mtx.frame t (m s) m' ->
  (bc = false -> sg - signals s = wk - woken s + (dr - dropped s) + d + (hand y - hand x))%Z ->
  (bc = false -> broadcasting y = false) -> thr_ok m' t y ->
  inv bc (St m' p' z (<[t:=y]> (pcs s)) sg wk dr).
Proof.
  intros [HI' Htok] Hm [Hsz Hf] Hsig Hmode Hok. destruct Hinv as [Hi Hmi Hs Hsg Hmd Hth].
  split; simpl; try done.
  - by rewrite Hsz, length_insert.
  - intros Hbc. specialize (Hsg Hbc). specialize (Hsig Hbc). rewrite Htok. zsum_update. lia.
  - intros Hbc t' x' Hx'. apply lookup_insert_list in Hx' as [(-> & -> & _)|[_ ?]]; eauto.
  - intros t' x' Hx'. apply lookup_insert_list in Hx' as [(<- & -> & _)|[Hne Hx']]; [done|].
    destruct (Hth _ _ Hx') as (l & gd & Hv & Hk). exists l, gd. split; [|done].
    rewrite Hf; [done|congruence].
Qed.

End move.

Section move_stay.
Context (bc : bool) (s : state) (t : nat) (x : pc) (Hinv : inv bc s) (Ht : pcs s !! t = Some x).

(** A move that leaves the mutex alone. *)
Lemma cv_inv_stay y p' z sg wk dr d :
  HI bc (role_of <$> <[t:=y]> (pcs s)) p' /\
    tok (role_of <$> <[t:=y]> (pcs s)) p' = (tok (role_of <$> pcs s) (pl s) + d)%Z ->
  (bc = false -> sg - signals s = wk - woken s + (dr - dropped s) + d + (hand y - hand x))%Z ->
  (bc = false -> broadcasting y = false) ->
  (forall l gd, mtx_ok x l gd = true -> mtx_ok y l gd = true) ->
  inv bc (St (m s) p' z (<[t:=y]> (pcs s)) sg wk dr).
Proof.
  intros HI' Hsig Hmode Himp. destruct (inv_thr _ _ Hinv _ _ Ht) as (l & gd & Hv & Hk).
  eapply (cv_inv_move bc s t x); eauto; [apply Hinv|apply Mtx.frame_refl|].
  exists l, gd. auto.
Qed.

(** Starting the re-lock. *)
Lemma cv_inv_relock ret r p' sg wk dr d s' :
  HI bc (role_of <$> <[t:=WRelock ret r]> (pcs s)) p' /\
    tok (role_of <$> <[t:=WRelock ret r]> (pcs s)) p' = (tok (role_of <$> pcs s) (pl s) + d)%Z ->
  (bc = false -> sg - signals s = wk - woken s + (dr - dropped s) + d - hand x)%Z ->
  (forall l gd, mtx_ok x l gd = true -> gd = None) ->
  relock t ret r (St (m s) p' (bound s) (pcs s) sg wk dr) = Some s' -> bounded s' ->
  inv bc s'.
Proof.
  intros HI' Hsig Hnone H Hb. unfold relock in H. apply bind_Some in H as (m' & E & H).
  simplify_eq. simpl in *. unfold bounded in Hb. simpl in Hb.
  destruct (inv_thr _ _ Hinv _ _ Ht) as (l & gd & Hv & Hk). rewrite (Hnone _ _ Hk) in Hv.
  pose proof (Mtx.mtx_inv_step _ _ _ Hb (inv_mtx _ _ Hinv) E) as Hm'.
  apply Mtx.core_spec in E as (_ & Hs & Hf & Hg & _).
  unfold Mtx.view in Hv. injection Hv as Hv1 Hv2. simpl in Hs. rewrite Hv1 in Hs.
  destruct l; simplify_eq.
  eapply (cv_inv_move bc s t x _ _ _ _ _ _ _ d Hinv Ht HI' Hm' Hf).
  - simpl. intros Hbc. specialize (Hsig Hbc). lia.
  - done.
  - exists Lk.LCas, None. unfold Mtx.view. rewrite Hg, Hv2. split; [|done]. f_equal.
    match goal with H : _ = Mtx.core m' |- _ => rewrite <- H end.
    apply list_lookup_insert_eq. by eapply lookup_lt_Some.
Qed.
End move_stay.

(** ** Preservation *)

Definition allowed (bc : bool) (e : event) : bool :=
  match e with CNotifyAll _ => bc | _ => true end.

Lemma cv_view s bc t x : inv bc s -> pcs s !! t = Some x -> exists l gd, Mtx.view (m s) t = (Some l, Some gd).
Proof. intros Hinv Ht. destruct (inv_thr _ _ Hinv _ _ Ht) as (l & gd & ? & _). eauto. Qed.

(** The mutex moves, the condition variable does not. *)
Lemma cv_inv_mutex bc s t x m' :
  inv bc s -> pcs s !! t = Some x -> Mtx.inv m' -> Mtx.frame t (m s) m' -> thr_ok m' t x ->
  inv bc (set_m m' s).
Proof.
  intros Hinv Ht Hm Hf Hok. unfold set_m. rewrite <- (list_insert_id _ _ _ Ht).
  eapply (cv_inv_move bc s t x _ _ _ _ _ _ _ 0 Hinv Ht); try done.
  - rewrite list_insert_id by done. split; [apply Hinv|lia].
  - lia.
  - intros Hbc. by eapply inv_mode.
Qed.

Lemma cv_view_frame t (r r' : Mtx.state D) l gd :
  Mtx.sizes r' = Mtx.sizes r -> Mtx.view r t = (Some l, Some gd) ->
  exists l' gd', Mtx.view r' t = (Some l', Some gd').
Proof.
  unfold Mtx.sizes, Mtx.view. intros Hs Hv. injection Hs as H1 H2. injection Hv as H3 H4.
  apply lookup_lt_Some in H3, H4. rewrite <- H1 in H3. rewrite <- H2 in H4.
  apply lookup_lt_is_Some_2 in H3 as [l' ->], H4 as [gd' ->]. eauto.
Qed.

Lemma cv_inv_user bc s t e s' :
  bounded s' -> inv bc s -> step s (User t e) = Some s' -> inv bc s'.
Proof.
  intros Hb Hinv H. simpl in H. destruct (pcs s !! t) as [x|] eqn:Ht; [|done].
  assert (Hx : (x = Idle \/ x = PanicTwo) /\
    exists m', Mtx.event_thread e = Some t /\ Mtx.apply e (m s) = Some m' /\ s' = set_m m' s).
  { destruct x; try done; (destruct (decide _); [|done]);
      apply bind_Some in H as (m' & E & H); simplify_eq; eauto 10. }
  destruct Hx as (Hx & m' & He & E & ->).
  pose proof (Mtx.apply_frame _ _ _ _ E He) as Hf.
  eapply cv_inv_mutex; [done..| |done|].
  - by eapply Mtx.mtx_inv_step; [|apply Hinv|].
  - destruct (cv_view _ _ _ _ Hinv Ht) as (l & gd & Hv).
    destruct (cv_view_frame t _ m' l gd (proj1 Hf) Hv) as (l' & gd' & Hv').
    exists l', gd'. split; [done|]. by destruct Hx as [->| ->].
Qed.

Lemma cv_inv_lck bc s e s' :
  bounded s' -> inv bc s -> step s (Lck e) = Some s' -> inv bc s'.
Proof.
  intros Hb Hinv H. simpl in H. destruct (pcs s !! Lk.thread e) as [x|] eqn:Ht; [|done].
  destruct (lock_mode x) as [md|] eqn:Hmd; [|done].
  destruct (Lk.internal e && Lk.mode_ok md e) eqn:Hok; [|done].
  apply andb_prop in Hok as [Hint Hmode]. apply bind_Some in H as (m' & E & H). simplify_eq.
  destruct (inv_thr _ _ Hinv _ _ Ht) as (l & gd & Hv & Hk). unfold mtx_ok in Hk. rewrite Hmd in Hk.
  apply andb_prop in Hk as [Hin Hgd].
  pose proof (Mtx.mtx_inv_step _ _ _ Hb (inv_mtx _ _ Hinv) E) as Hm'.
  apply Mtx.core_spec in E as (_ & Hs & Hf & Hg & _). unfold Mtx.view in Hv. injection Hv as Hv1 Hv2.
  destruct (Lk.step_inside md _ _ _ _ Hs Hint Hmode Hv1 Hin) as (y & Hy & [->|Hin']).
  { by destruct (Lk.inv_pcs _ (Mtx.inv_core _ Hm') _ Hy). }
  eapply cv_inv_mutex; [done..|]. exists y, gd. unfold Mtx.view. rewrite Hy, Hg, Hv2.
  split; [done|]. unfold mtx_ok. by rewrite Hmd, Hin', Hgd.
Qed.

Lemma cv_inv_calls bc s e s' :
  bounded s' -> inv bc s -> allowed bc e = true ->
  match e with CWait _ _ _ | CNotifyOne _ | CNotifyAll _ | Return _ => True | _ => False end ->
  step s e = Some s' -> inv bc s'.
Proof.
  intros Hb Hinv Hal He H. pose proof (inv_pool _ _ Hinv) as Hi.
  destruct e as [t d a|t|t|t e|e|t|t r|t]; try done; simpl in H;
    (destruct (pcs s !! t) as [x|] eqn:Ht; [|done]); destruct x; try done.
  - destruct (Mtx.guards (m s) !! t) as [[r|]|] eqn:Hg; try done.
    destruct (verify (bound s) a) as [z|]; [destruct (a =? 1)%Z; [|done]|]; simplify_eq.
    + eapply (cv_inv_move bc s t _ _ _ _ _ _ _ _ 0 Hinv Ht); try done; [|apply Hinv|simpl; lia|].
      * by eapply (client_keep role_of _ _ _ _ _ Hi Ht).
      * exists Lk.Owner, (Some r). unfold Mtx.view. simpl. rewrite Hg, (Mtx.inv_guard _ (inv_mtx _ _ Hinv)); [done|].
        by exists r.
    + eapply (cv_inv_stay bc s t _ Hinv Ht _ _ _ _ _ _ 0); try done; [|simpl; lia].
      by eapply (client_keep role_of _ _ _ _ _ Hi Ht).
  - simplify_eq. eapply (cv_inv_stay bc s t _ Hinv Ht _ _ _ _ _ _ 0); try done; [|simpl; lia].
    by eapply (client_keep role_of _ _ _ _ _ Hi Ht).
  - simplify_eq. eapply (cv_inv_stay bc s t _ Hinv Ht _ _ _ _ _ _ 0); try done; [|simpl; lia|].
    + by eapply (client_keep role_of _ _ _ _ _ Hi Ht).
    + simpl in Hal. congruence.
  - simplify_eq. eapply (cv_inv_stay bc s t _ Hinv Ht _ _ _ _ _ _ 0); try done; [|simpl; lia].
    by eapply (client_keep role_of _ _ _ _ _ Hi Ht).
Qed.

(** The steps of [notify_one] and [notify_all] and those of the wait that only
    touch its blocker. *)
Lemma cv_inv_pool bc s t x s' :
  bounded s' -> inv bc s -> pcs s !! t = Some x ->
  match x with WPush _ _ _ | WUnlock _ _ _ | WRelock _ _ | WCancel => False | _ => True end ->
  tick t x s = Some s' -> inv bc s'.
Proof.
  intros Hb Hinv Ht Hx H. pose proof (inv_pool _ _ Hinv) as Hi.
  assert (Hbr : bc = false -> broadcasting x = false) by (intros; by eapply inv_mode).
  destruct bc;
  destruct x; try done; simpl in H; unfold pool_pop in H; try (by specialize (Hbr eq_refl));
    repeat (case_match; try discriminate H); simplify_eq.
  all: try match goal with k : nk |- _ => destruct k end; unfold after_notify in *; simplify_eq.
  all: match goal with
    | H : relock _ _ _ _ = Some _ |- _ =>
        eapply (cv_inv_relock _ s t _ Hinv Ht); [| | |exact H|exact Hb]
    | _ => eapply (cv_inv_stay _ s t _ Hinv Ht)
    end.
  all: try (match goal with |- HI _ _ _ /\ _ => idtac end; role_step role_of Hi Ht).
  all: try done.
  all: unfold delta; simpl; try lia.
  all: first [ by intros [] []
    | match goal with H : flag release _ _ = _ |- _ => rewrite H end; simpl; lia ].
Qed.

(** The steps of the wait that call the mutex. *)
Lemma cv_inv_calls_mutex bc s t x s' :
  bounded s' -> inv bc s -> pcs s !! t = Some x ->
  match x with WPush _ _ _ | WUnlock _ _ _ | WRelock _ _ | WCancel => True | _ => False end ->
  tick t x s = Some s' -> inv bc s'.
Proof.
  intros Hb Hinv Ht Hx H. pose proof (inv_pool _ _ Hinv) as Hi.
  destruct (inv_thr _ _ Hinv _ _ Ht) as (l & gd & Hv & Hk).
  assert (Hkeep : forall m' y, Mtx.inv m' -> Mtx.frame t (m s) m' -> thr_ok m' t y ->
    role_of y = role_of x -> hand y = hand x -> broadcasting y = false -> inv bc (set_pc t y (set_m m' s))).
  { intros m' y Hm Hf Hok Hr Hh Hbr. eapply (cv_inv_move bc s t x _ _ _ _ _ _ _ 0 Hinv Ht); try done; [|simpl; lia].
    by eapply (client_keep role_of _ _ _ _ _ Hi Ht). }
  unfold bounded in Hb.
  destruct x as [| | | |d r b|d r b| | | | | |ret r| | | | | | | | |]; try done; simpl in H;
    unfold Mtx.view in Hv; injection Hv as Hv1 Hv2; rewrite ?Hv1 in H.
  - apply bind_Some in H as (m1 & E1 & H). apply bind_Some in H as (m2 & E2 & H). simplify_eq.
    simpl in Hb. pose proof (Mtx.mtx_bounded_step _ _ _ E2 Hb) as Hb1.
    pose proof (Mtx.mtx_inv_step _ _ _ Hb (Mtx.mtx_inv_step _ _ _ Hb1 (inv_mtx _ _ Hinv) E1) E2) as Hm2.
    destruct (Mtx.forget_unlock_spec _ _ _ _ E1 E2) as (Hf & Hv' & _).
    eapply (cv_inv_move bc s t _ _ _ _ _ _ _ _ 0 Hinv Ht); try done; [|simpl; lia|by eexists _, _].
    destruct bc; role_step role_of Hi Ht.
  - destruct l; try done. apply bind_Some in H as (m' & E & H). simplify_eq. simpl in Hb.
    pose proof (Mtx.mtx_inv_step _ _ _ Hb (inv_mtx _ _ Hinv) E) as Hm'.
    apply Mtx.core_spec in E as (_ & Hs & Hf & Hg & _). simpl in Hs. rewrite Hv1 in Hs. simplify_eq.
    apply Hkeep; try done. exists Lk.Idle, gd. unfold Mtx.view. rewrite Hg, Hv2.
    split; [|by destruct gd]. match goal with H : _ = Mtx.core m' |- _ => rewrite <- H end.
    f_equal. apply list_lookup_insert_eq. by eapply lookup_lt_Some.
  - destruct l; try done. destruct gd; [done|].
    assert (Hadopt : forall o, match o with OWait _ | OTimedOut _ => True | _ => False end ->
      (m' ← Mtx.apply (Mtx.Adopt t (rewrap (Mtx.poison (m s)) r)) (m s); Some (set_pc t (Ret o) (set_m m' s))) = Some s' ->
      inv bc s').
    { intros o Ho H'. apply bind_Some in H' as (m' & E & H'). simplify_eq. simpl in Hb.
      pose proof (Mtx.mtx_inv_step _ _ _ Hb (inv_mtx _ _ Hinv) E) as Hm'.
      apply Mtx.adopt_spec in E as (_ & Hf & Hv' & _).
      apply Hkeep; try done. eexists _, _. split; [done|]. by destruct o. }
    destruct ret as [[]|]; [|by eapply Hadopt, H..].
    apply bind_Some in H as (m' & E & H). simplify_eq. simpl in Hb.
    pose proof (Mtx.mtx_inv_step _ _ _ Hb (inv_mtx _ _ Hinv) E) as Hm'.
    apply Mtx.unlock_mutex_spec in E as (_ & Hf & Hv' & _).
    apply Hkeep; try done. by eexists _, _.
  - destruct l; try done. apply bind_Some in H as (m' & E & H). simplify_eq. simpl in Hb.
    pose proof (Mtx.mtx_inv_step _ _ _ Hb (inv_mtx _ _ Hinv) E) as Hm'.
    apply Mtx.core_spec in E as (_ & Hs & Hf & Hg & _). simpl in Hs. rewrite Hv1 in Hs. simplify_eq.
    apply Hkeep; try done. exists Lk.Idle, gd. unfold Mtx.view. rewrite Hg, Hv2.
    split; [|by destruct gd]. match goal with H : _ = Mtx.core m' |- _ => rewrite <- H end.
    f_equal. apply list_lookup_insert_eq. by eapply lookup_lt_Some.
Qed.

Lemma cv_inv_park bc s t r s' :
  bounded s' -> inv bc s -> step s (Park t r) = Some s' -> inv bc s'.
Proof.
  intros Hb Hinv H. simpl in H. destruct (pcs s !! t) as [x|] eqn:Ht; [|done].
  pose proof (inv_pool _ _ Hinv) as Hi. unfold step_park in H.
  destruct x as [| | | | | |d g b| | | | | | | | | | | | | |]; try done. destruct r as [e|].
  - destruct (match e with Canceled => _ | Timeout => _ end); [|done]. simplify_eq.
    eapply (cv_inv_stay bc s t _ Hinv Ht _ _ _ _ _ _ 0); try done; [|simpl; lia].
    destruct bc; role_act role_of AParkErr Hi Ht.
  - destruct (pool_can_wake b (pl s)) eqn:Hw; [|done].
    eapply (cv_inv_relock bc s t _ Hinv Ht _ _ _ _ _ _ (-1)); [| | |exact H|exact Hb].
    + destruct bc; role_act role_of AParkOk Hi Ht.
    + simpl. lia.
    + by intros [] [].
Qed.

Lemma cv_inv_step bc s e s' :
  bounded s' -> inv bc s -> allowed bc e = true -> step s e = Some s' -> inv bc s'.
Proof.
  intros Hb Hinv Hal H.
  destruct e as [t d a|t|t|t e|e|t|t r|t]; try (by eapply cv_inv_calls).
  - by eapply cv_inv_user.
  - by eapply cv_inv_lck.
  - simpl in H. destruct (pcs s !! t) as [x|] eqn:Ht; [|done].
    destruct x eqn:Hx; first [ by eapply cv_inv_pool | by eapply cv_inv_calls_mutex ].
  - by eapply cv_inv_park.
Qed.

Lemma cv_inv_init bc d n : inv bc (new d n).
Proof.
  destruct (init_ok (bc:=bc) n (role_of Idle) eq_refl eq_refl) as [HI' Htok].
  split; simpl; rewrite ?fmap_replicate, ?length_replicate; try done.
  - apply Mtx.mtx_inv_init.
  - unfold Mtx.sizes. simpl. by rewrite !length_replicate.
  - intros _. rewrite Htok, zsum_replicate. simpl. lia.
  - intros _ t x Hx. by apply lookup_replicate in Hx as [-> _].
  - intros t x Hx. apply lookup_replicate in Hx as [-> Hlt]. exists Lk.Idle, None. split; [|done].
    unfold Mtx.view. simpl. f_equal; by apply lookup_replicate.
Qed.

Lemma cv_bounded_step s e s' : step s e = Some s' -> bounded s' -> bounded s.
Proof.
  unfold bounded. intros H Hb.
  assert (Happ : forall e' (m1 m2 : Mtx.state D), Mtx.apply e' m1 = Some m2 -> Mtx.bounded m2 -> Mtx.bounded m1)
    by (intros; by eapply Mtx.mtx_bounded_step).
  destruct e; cbn [step] in H; unfold tick, step_park, step_notify_one, step_notify_all, step_wait_impl,
    step_wait, after_notify, relock in H;
    repeat first [ discriminate H
      | match type of H with mbind _ _ = Some _ => let x := fresh in let E := fresh in
          apply bind_Some in H as (x & E & H) end
      | case_match ]; simplify_eq; simpl in Hb; eauto.
Qed.

(** Runs of the machine, without [notify_all] when [bc] is false. *)
Definition astep (bc : bool) (s : state) (e : event) : option state :=
  if allowed bc e then step s e else None.

Lemma cv_inv_reachable bc d n s : reachable (astep bc) (new d n) s -> bounded s -> inv bc s.
Proof.
  intros Hr. induction Hr as [|s e s' Hr IH Hs]; intros Hb; [apply cv_inv_init|].
  unfold astep in Hs. destruct (allowed bc e) eqn:Hal; [|done].
  eapply cv_inv_step; [done| |done..]. apply IH. by eapply cv_bounded_step.
Qed.

(** ** Rest *)

(** No thread can move on its own. *)
Definition quiescent (s : state) : Prop :=
  forall t, step s (Tick t) = None /\ step s (Park t None) = None /\
    step s (Lck (Lk.Tick t)) = None /\ step s (Lck (Lk.ParkOk t)) = None.

(** An operation of the mutex is finished or parked. *)
Lemma cv_rest_mode s t x md l :
  quiescent s -> pcs s !! t = Some x -> lock_mode x = Some md ->
  Lk.pcs (Mtx.core (m s)) !! t = Some l -> Lk.inside md l = true -> Lk.resting l (Lk.pl (Mtx.core (m s))).
Proof.
  intros Hq Ht Hmd Hl Hin. destruct (Hq t) as (_ & _ & H3 & H4).
  assert (Hs : forall e, Lk.thread e = t -> Lk.internal e = true -> Lk.mode_ok md e = true ->
    step s (Lck e) = None -> Lk.step (Mtx.core (m s)) e = None).
  { intros e He Hi Hm H. simpl in H. rewrite He, Ht, Hmd, Hi, Hm in H. simpl in H.
    apply bind_None in H as [H|(? & _ & ?)]; [|done]. unfold Mtx.apply in H. cbn [Mtx.step] in H.
    assert (Hu : Mtx.is_unlock e = false) by (by destruct e). rewrite Hu in H. by destruct (Lk.step _ _). }
  apply (Hs (Lk.Tick t)) in H3; [|done..|by destruct md]. apply (Hs (Lk.ParkOk t)) in H4; [|done..|by destruct md].
  simpl in H3, H4. rewrite Hl in H3, H4.
  destruct l; simpl in *; try done; unfold pool_pop in *; repeat case_match; try done.
Qed.

Lemma cv_rest_pc bc s t x : inv bc s -> quiescent s -> pcs s !! t = Some x ->
  role_rests (pl s) (role_of x) /\ hand x = 0%Z.
Proof.
  intros Hinv Hq Ht.
  destruct (Hq t) as (H1 & H2 & _). simpl in H1, H2. rewrite Ht in H1, H2.
  destruct (inv_thr _ _ Hinv _ _ Ht) as (l & gd & Hv & Hk). unfold Mtx.view in Hv. injection Hv as Hv1 Hv2.
  assert (Hlock : forall ret r s1, relock t ret r s1 = None -> m s1 = m s -> l = Lk.Idle -> False).
  { intros ret r s1 H Heq ->. revert H. unfold relock, Mtx.apply. rewrite Heq. simpl. by rewrite Hv1. }
  unfold mtx_ok in Hk. destruct x; simpl in *; unfold pool_pop in *; try done.
  - destruct l, gd; try done. unfold Mtx.apply in H1. cbn [Mtx.step] in H1. rewrite Hv2 in H1. simpl in H1.
    unfold Mtx.unlock_mutex in H1. simpl in H1.
    rewrite list_lookup_insert_eq in H1 by (by eapply lookup_lt_Some). by rewrite Hv1 in H1.
  - apply andb_prop in Hk as [Hin _]. pose proof (cv_rest_mode _ _ _ Lk.MUnlock _ Hq Ht eq_refl Hv1 Hin) as Hr.
    apply (Lk.resting_inside Lk.MUnlock) in Hr as ->; [|done].
    rewrite Hv1 in H1. unfold Mtx.apply in H1. simpl in H1. by rewrite Hv1 in H1.
  - destruct (pool_can_wake b (pl s)) eqn:Hw; [|done]. destruct l; try done. by destruct (Hlock _ _ _ H2).
  - by destruct (pool_unparked b (pl s)).
  - destruct l; try done. match type of H1 with context [if ?f then _ else _] => destruct f end; [done|]. by destruct (Hlock _ _ _ H1).
  - destruct l; try done. match type of H1 with context [if ?f then _ else _] => destruct f end; [done|]. by destruct (Hlock _ _ _ H1).
  - destruct k; simpl in H1; repeat case_match; try done. by destruct l; destruct (Hlock _ _ _ H1).
  - destruct k; simpl in H1; repeat case_match; try done.
    by destruct l; destruct (Hlock _ _ _ H1).
Qed.

(** ** Properties *)

(** The blocker of a waiter has been taken by a notifier. *)
Definition claimed (s : state) (b : nat) : Prop :=
  pool_unparked b (pl s) = true \/
  exists i y, pcs s !! i = Some y /\ grole (role_of y) = Some (b, KStore).

Lemma waiter_queued_or_claimed bc s t d r b :
  inv bc s -> pcs s !! t = Some (WPark d r b) -> b ∈ queue (pl s) \/ claimed s b.
Proof.
  intros Hinv Ht.
  destruct (client_waiter role_of _ _ _ _ b KWait (inv_pool _ _ Hinv) Ht eq_refl) as (c & g & q & Hc & Hb & Hq & Hg).
  unfold claimed, pool_unparked, flag. rewrite Hc. unfold sb_is_unparked.
  destruct (unparked (sb c)) eqn:Hu; [by right; left|].
  destruct q; [left; by apply Hq|]. right. right. unfold bok in Hb.
  destruct g as [k|]; [|destruct c as [[[] [] []] []], bc; simpl in *; congruence].
  destruct (Hg _ eq_refl) as (i & y & Hy & Hk). exists i, y. split; [done|].
  destruct k; [done|destruct c as [[[] [] []] []], bc; simpl in *; congruence..].
Qed.

(** C7. In the runs without [notify_all], a [notify_one] is never lost to a waiter
    that leaves: when no thread can move on its own, the calls of [notify_one] are
    exactly accounted for by the waits that returned because they were notified and by
    the signals that found nobody waiting, and every thread still parked in [wait] is
    still queued. *)
Theorem notify_one_conserved d n s
  (Hr : reachable (astep false) (new d n) s) (Hb : bounded s) (Hq : quiescent s) :
  signals s = (woken s + dropped s)%Z /\
  forall t dur r b, pcs s !! t = Some (WPark dur r b) -> b ∈ queue (pl s).
Proof.
  pose proof (cv_inv_reachable _ _ _ _ Hr Hb) as Hinv.
  destruct (rest_spec role_of (pcs s) (pl s) (inv_pool _ _ Hinv)) as [Htok Hin].
  { intros i x Hx. by eapply cv_rest_pc. }
  split.
  - rewrite (inv_signals _ _ Hinv eq_refl), (Htok eq_refl), (zsum_all_zero hand); [lia|].
    intros i x Hx. by eapply cv_rest_pc.
  - intros t dur r b Ht. by eapply Hin.
Qed.

(** [notify_all] wakes everybody: when it finds the queue empty and returns,
    every thread parked in [wait] has been claimed by a notifier, and a thread
    whose blocker is claimed never stays parked when all threads are at rest.
    This holds with any mixture of [notify_one], [notify_all], timeouts and
    cancellations. *)
Theorem notify_all_wakes_all d n s t s'
  (Hr : reachable (astep true) (new d n) s) (Hb : bounded s)
  (Ht : pcs s !! t = Some APop) (Hs : step s (Tick t) = Some s')
  (Hret : pcs s' !! t = Some (Ret ONotified)) :
  (forall t' dur r b, pcs s !! t' = Some (WPark dur r b) -> claimed s b) /\
  forall s2 t' dur r b, reachable (astep true) s s2 -> bounded s2 -> quiescent s2 ->
    pcs s2 !! t' = Some (WPark dur r b) -> ~ claimed s2 b.
Proof.
  pose proof (cv_inv_reachable _ _ _ _ Hr Hb) as Hinv. split.
  - intros t' dur r b Ht'. destruct (waiter_queued_or_claimed _ _ _ _ _ _ Hinv Ht') as [Hin|]; [|done].
    exfalso. simpl in Hs. rewrite Ht in Hs. simpl in Hs. unfold pool_pop in Hs.
    destruct (queue (pl s)) as [|b' q]; [by apply not_elem_of_nil in Hin|]. simplify_eq.
    simpl in Hret. rewrite list_lookup_insert_eq in Hret by (by eapply lookup_lt_Some). done.
  - intros s2 t' dur r b Hr2 Hb2 Hq Ht' Hc.
    assert (Hinv2 : inv true s2).
    { apply (cv_inv_reachable _ d n); [|done]. clear -Hr Hr2.
      induction Hr2 as [|s1 e s2 _ IH Hs]; [done|]. by eapply reach_step. }
    assert (Hrest : forall i x, pcs s2 !! i = Some x -> role_rests (pl s2) (role_of x))
      by (intros; by eapply cv_rest_pc).
    destruct (rest_spec role_of (pcs s2) (pl s2) (inv_pool _ _ Hinv2) Hrest) as [_ Hin].
    specialize (Hin _ _ b KWait Ht' eq_refl). destruct Hc as [Hu|(i & y & Hy & Hg)].
    + destruct (client_waiter role_of _ _ _ _ b KWait (inv_pool _ _ Hinv2) Ht' eq_refl)
        as (c & g & q & Hc & Hbok & Hq' & _).
      unfold pool_unparked, flag in Hu. rewrite Hc in Hu. apply Hq' in Hin as ->.
      unfold bok, sb_is_unparked in *. destruct c as [[[] [] []] []], g as [[]|]; simpl in *; congruence.
    + destruct (Hrest _ _ Hy) as [H0 _]. congruence.
Qed.

(** The mutex across a wait: whoever comes back from [wait] or
    [wait_timeout], notified or timed out, owns the lock and has its guard again;
    a cancelled waiter has neither; and between the unlock and the re-lock the
    waiting thread owns nothing, so other threads can take the lock. *)
Theorem wait_reacquires bc d n s t x
  (Hr : reachable (astep bc) (new d n) s) (Hb : bounded s) (Ht : pcs s !! t = Some x) :
  match x with
  | Ret (OWait _) | Ret (OTimedOut _) =>
      Mtx.has_guard (m s) t /\ Lk.pcs (Mtx.core (m s)) !! t = Some Lk.Owner
  | Ret OCanceled | WPark _ _ _ | WErrCheck _ _ _ | WErrSet _ _ _ | WErrRecheck _ _ _ | WErrTake _ _ _ =>
      ~ Mtx.has_guard (m s) t /\ Lk.pcs (Mtx.core (m s)) !! t = Some Lk.Idle
  | _ => True
  end.
Proof.
  pose proof (cv_inv_reachable _ _ _ _ Hr Hb) as Hinv.
  destruct (inv_thr _ _ Hinv _ _ Ht) as (l & gd & Hv & Hk).
  unfold Mtx.view in Hv. injection Hv as Hv1 Hv2. unfold mtx_ok in Hk. unfold Mtx.has_guard.
  destruct x as [|[]| | | | | | | | | | | | | | | | | | |]; simpl in Hk; try done;
    destruct l, gd; try done; rewrite Hv1, Hv2; split; eauto; by intros [? ?].
Qed.

End condvar.
Arguments state : clear implicits.
Arguments event : clear implicits.

(** ** Witnesses: thread 0 waits with a timeout and leaves while a notification
    is on its way; the signal reaches thread 1 behind it. *)
Definition calm : Poison.env := Poison.Env false false false false.
Definition ticks (t k : nat) : list (event nat) := replicate k (Tick t).
Definition lticks (t k : nat) : list (event nat) := replicate k (Lck (Lk.Tick t)).
Definition take_lock (t : nat) : list (event nat) :=
  [User t (Mtx.Core (Lk.Lock t)); User t (Mtx.Core (Lk.Tick t)); User t (Mtx.MakeGuard t calm)].
Definition wait_ev (t : nat) (dur : bool) : list (event nat) :=
  CWait t dur 1 :: ticks t 2 ++ lticks t 1 ++ ticks t 1.
Definition demo_wait : list (event nat) :=
  take_lock 0 ++ wait_ev 0 true ++ take_lock 1 ++ wait_ev 1 false.
(** The timed-out waiter sets its release flag, then the notifier pops it. *)
Definition demo_notify : list (event nat) :=
  demo_wait ++ [Park 0 (Some Timeout)] ++ ticks 0 2 ++ [CNotifyOne 2] ++ ticks 2 8 ++
  ticks 0 2 ++ lticks 0 1 ++ ticks 0 1 ++ [Return 2].
(** One more signal finds nobody; thread 1 is woken and queues for the mutex. *)
Definition demo_rest : list (event nat) :=
  demo_notify ++ [CNotifyOne 2] ++ ticks 2 1 ++ [Park 1 None] ++ lticks 1 4.
Definition demo_all : list (event nat) :=
  demo_wait ++ [Park 0 (Some Timeout)] ++ ticks 0 3 ++ [CNotifyAll 2] ++ ticks 2 8.
Definition final (bc : bool) (es : list (event nat)) : state nat :=
  default (new 7 3) (run (astep bc) es (new 7 3)).

Example demo_rest_result :
  pcs (final false demo_rest) =
    [Ret (OTimedOut false); WRelock None (Poison.LOk (Poison.MkGuard false)); Ret ONotified] /\
  (signals (final false demo_rest), woken (final false demo_rest), dropped (final false demo_rest)) = (2, 1, 1)%Z.
Proof. by vm_compute. Qed.

Lemma notify_one_conserved_witness :
  let s := final false demo_rest in
  signals s = (woken s + dropped s)%Z /\
  forall t dur r b, pcs s !! t = Some (WPark dur r b) -> b ∈ queue (pl s).
Proof.
  apply (notify_one_conserved 7 3).
  - apply run_reachable with (es := demo_rest). vm_compute. reflexivity.
  - vm_compute. reflexivity.
  - intros [|[|[|t]]]; vm_compute; auto.
Defined.

Lemma notify_all_wakes_all_witness :
  let s := final true demo_all in
  (forall t' dur r b, pcs s !! t' = Some (WPark dur r b) -> claimed s b) /\
  forall s2 t' dur r b, reachable (astep true) s s2 -> bounded s2 -> quiescent s2 ->
    pcs s2 !! t' = Some (WPark dur r b) -> ~ claimed s2 b.
Proof.
  apply (notify_all_wakes_all 7 3 _ 2 (final true (demo_all ++ [Tick 2]))).
  - apply run_reachable with (es := demo_all). vm_compute. reflexivity.
  - vm_compute. reflexivity.
  - vm_compute. reflexivity.
  - vm_compute. reflexivity.
  - vm_compute. reflexivity.
Defined.

Lemma wait_reacquires_witness :
  let s := final false demo_rest in
  Mtx.has_guard (m s) 0 /\ Lk.pcs (Mtx.core (m s)) !! 0 = Some Lk.Owner.
Proof.
  apply (wait_reacquires false 7 3 _ 0 (Ret (OTimedOut false))).
  - apply run_reachable with (es := demo_rest). vm_compute. reflexivity.
  - vm_compute. reflexivity.
  - vm_compute. reflexivity.
Defined.

End Cv.
