(* ===== verification/SyncFlag.v ===== *)
(** * SyncFlag: [src/sync/sync_flag.rs] as an interleaving machine

    A level-triggered flag: [fire] sets the counter to [isize::MAX] and drains
    the queue of waiters; a waiter that registers after the store drains it
    itself. *)

From stdpp Require Import base numbers list.
From Stdlib Require Import ZArith Lia.
From S2P Require Import Prelude Blocking Handoff.

Module Flag.

(** Where [wakeup_all] returns to: the registration of a waiter, [fire], or the
    [fire] of a leaving waiter that had been woken. *)
Inductive rk := RkSub (d : bool) (b : nat) | RkFire | RkErr (e : ParkError).
Inductive outcome := OTrue | OFalse | OCanceled | OFired.

Inductive pc :=
  | Idle
  | WLoad (d : bool)                         (* [is_fired] at the head of the wait *)
  | WNew (d : bool) | WPush (d : bool) (b : nat) | WSub (d : bool) (b : nat) | WPark (d : bool) (b : nat)
  | WErrCheck (e : ParkError) (b : nat) | WErrSet (e : ParkError) (b : nat)
  | WErrRecheck (e : ParkError) (b : nat) | WErrTake (e : ParkError) (b : nat)
  | FStore (k : rk)                          (* [fire] *)
  | KPop (k : rk) | KStore (k : rk) (b : nat) | KWake (k : rk) (b : nat) | KTake (k : rk) (b : nat)
  | Done (o : outcome).

(** [fired] is a history variable: [fire] has stored the counter. *)
Record state := St { cnt : Z; pl : pool; pcs : list pc; fired : bool }.

Definition new (n : nat) : state := St 0 pool_new (replicate n Idle) false.

Inductive event :=
  | CWait (t : nat) (dur : bool)   (* [wait], [wait_timeout] *)
  | CFire (t : nat)
  | Tick (t : nat)
  | Park (t : nat) (r : option ParkError)
  | Return (t : nat).

Definition set_pc (t : nat) (x : pc) (s : state) : state := St (cnt s) (pl s) (<[t:=x]> (pcs s)) (fired s).
Definition set_pl (p : pool) (s : state) : state := St (cnt s) p (pcs s) (fired s).
Definition set_cnt (c : Z) (s : state) : state := St c (pl s) (pcs s) (fired s).

Definition is_fired (s : state) : bool := (0 <? cnt s)%Z.

Definition err_outcome (e : ParkError) : outcome :=
  match e with Canceled => OCanceled | Timeout => OFalse end.
Definition after_wakeup (k : rk) : pc :=
  match k with RkSub d b => WPark d b | RkFire => Done OFired | RkErr e => Done (err_outcome e) end.

(** [wakeup_all]: drain the queue; the release flags are consumed and ignored. *)
Definition step_wakeup_all (t : nat) (x : pc) (s : state) : option state :=
  match x with
  | KPop k =>
      match pool_pop (pl s) with
      | None => Some (set_pc t (after_wakeup k) s)
      | Some (b, p') => Some (set_pc t (KStore k b) (set_pl p' s))
      end
  | KStore k b => Some (set_pc t (KWake k b) (set_pl (pool_store_unparked b (pl s)) s))
  | KWake k b => Some (set_pc t (KTake k b) (set_pl (pool_wake b (pl s)) s))
  | KTake k b => Some (set_pc t (KPop k) (set_pl (pool_take_release b (pl s)).2 s))
  | _ => None
  end.

(** [fire]. *)
Definition step_fire (t : nat) (x : pc) (s : state) : option state :=
  match x with
  | FStore k => Some (St Word.isize_max (pl s) (<[t:=KPop k]> (pcs s)) true)
  | _ => None
  end.

(** [wait_timeout_impl]. *)
Definition step_wait (t : nat) (x : pc) (s : state) : option state :=
  match x with
  | WLoad d => Some (set_pc t (if is_fired s then Done OTrue else WNew d) s)
  | WNew d => let '(b, p') := pool_alloc (pl s) in Some (set_pc t (WPush d b) (set_pl p' s))
  | WPush d b => Some (set_pc t (WSub d b) (set_pl (pool_push b (pl s)) s))
  | WSub d b =>
      Some (set_pc t (if (0 <? cnt s)%Z then KPop (RkSub d b) else WPark d b)
              (set_cnt (Word.wrap_i (cnt s - 1)) s))
  | WErrCheck e b =>
      if pool_unparked b (pl s)
      then Some (set_pc t (FStore (RkErr e)) (set_pl (pool_settle b (pl s)) s))
      else Some (set_pc t (WErrSet e b) s)
  | WErrSet e b => Some (set_pc t (WErrRecheck e b) (set_pl (pool_set_release b (pl s)) s))
  | WErrRecheck e b =>
      Some (set_pc t (if pool_unparked b (pl s) then WErrTake e b else Done (err_outcome e)) s)
  | WErrTake e b =>
      let '(r, p') := pool_take_release b (pl s) in
      Some (set_pc t (if r then FStore (RkErr e) else Done (err_outcome e)) (set_pl p' s))
  | _ => None
  end.

Definition step_park (t : nat) (r : option ParkError) (x : pc) (s : state) : option state :=
  match x, r with
  | WPark d b, None =>
      if pool_can_wake b (pl s)
      then Some (set_pc t (Done OTrue) (set_pl (pool_park_ok b (pl s)) s)) else None
  | WPark d b, Some e =>
      if (match e with Timeout => d | Canceled => true end)
      then Some (set_pc t (WErrCheck e b) (set_pl (pool_park_err b (pl s)) s)) else None
  | _, _ => None
  end.

Definition step (s : state) (e : event) : option state :=
  match e with
  | CWait t d => match pcs s !! t with Some Idle => Some (set_pc t (WLoad d) s) | _ => None end
  | CFire t => match pcs s !! t with Some Idle => Some (set_pc t (FStore RkFire) s) | _ => None end
  | Tick t =>
      match pcs s !! t with
      | Some x =>
          match x with
          | KPop _ | KStore _ _ | KWake _ _ | KTake _ _ => step_wakeup_all t x s
          | FStore _ => step_fire t x s
          | _ => step_wait t x s
          end
      | None => None
      end
  | Park t r => match pcs s !! t with Some x => step_park t r x s | None => None end
  | Return t => match pcs s !! t with Some (Done _) => Some (set_pc t Idle s) | _ => None end
  end.

(** ** Accounting *)

Definition role_of (x : pc) : role :=
  match x with
  | WPush _ b => Role (Some (b, KReg)) None
  | WSub _ b | WPark _ b | KPop (RkSub _ b) | FStore (RkSub _ b) => Role (Some (b, KWait)) None
  | WErrCheck _ b => Role (Some (b, KErr)) None
  | WErrSet _ b => Role (Some (b, KChecked)) None
  | WErrRecheck _ b => Role (Some (b, KReleased)) None
  | WErrTake _ b => Role (Some (b, KRecheck)) None
  | KStore (RkSub _ b) b' => Role (Some (b, KWait)) (Some (b', Handoff.KStore))
  | KWake (RkSub _ b) b' => Role (Some (b, KWait)) (Some (b', Handoff.KWake))
  | KTake (RkSub _ b) b' => Role (Some (b, KWait)) (Some (b', Handoff.KTake))
  | KStore _ b' => Role None (Some (b', Handoff.KStore))
  | KWake _ b' => Role None (Some (b', Handoff.KWake))
  | KTake _ b' => Role None (Some (b', Handoff.KTake))
  | _ => Role None None
  end.

(** In [wakeup_all] or bound to enter it if the flag is up. *)
Definition draining (x : pc) : bool :=
  match x with KPop _ | KStore _ _ | KWake _ _ | KTake _ _ | WSub _ _ => true | _ => false end.
(** Only after a [fire]. *)
Definition needs_fire (x : pc) : bool :=
  match x with
  | KPop _ | KStore _ _ | KWake _ _ | KTake _ _ | FStore (RkErr _) | Done OTrue => true
  | _ => false
  end.
(** A waiter that is registered but has not decremented the counter yet. *)
Definition undecremented (x : pc) : Z := match x with WPush _ _ | WSub _ _ => 1 | _ => 0 end%Z.
Definition touched (c : cell) : bool := unparked (sb c) || blocker (sb c).

Record inv (s : state) : Prop := {
  inv_pool : HI false (role_of <$> pcs s) (pl s);
  inv_cnt : if fired s
    then (Word.isize_max - Z.of_nat (length (cells (pl s))) + zsum undecremented (pcs s) <= cnt s)%Z /\
         (cnt s <= Word.isize_max)%Z
    else cnt s = (zsum undecremented (pcs s) - Z.of_nat (length (cells (pl s))))%Z /\ (cnt s <= 0)%Z;
  inv_drain : fired s = true -> queue (pl s) = [] \/ exists t x, pcs s !! t = Some x /\ draining x = true;
  inv_fired : forall t x, pcs s !! t = Some x -> needs_fire x = true -> fired s = true;
  inv_cells : forall b c, cells (pl s) !! b = Some c -> touched c = true -> fired s = true
}.

Definition bounded (s : state) : Prop := (Z.of_nat (length (cells (pl s))) < Word.isize_max)%Z.

Lemma undecremented_nonneg x : (0 <= undecremented x)%Z.
Proof. by destruct x. Qed.

Section move.
Context (s : state) (t : nat) (x y : pc) (c' : Z) (p' : pool) (f' : bool) (d : Z).
Context (Hinv : inv s) (Ht : pcs s !! t = Some x).

Lemma flag_inv_move :
  HI false (role_of <$> <[t:=y]> (pcs s)) p' /\
    tok (role_of <$> <[t:=y]> (pcs s)) p' = (tok (role_of <$> pcs s) (pl s) + d)%Z ->
  (fired s = true -> f' = true) ->
  (if f' then
     Word.isize_max - Z.of_nat (length (cells p')) + zsum undecremented (pcs s)
       + undecremented y - undecremented x <= c' /\ c' <= Word.isize_max
   else c' = zsum undecremented (pcs s) + undecremented y - undecremented x - Z.of_nat (length (cells p')) /\ c' <= 0)%Z ->
  (f' = true -> draining y = true \/ queue p' = [] \/ (draining x = false /\ queue p' = queue (pl s) /\ f' = fired s)) ->
  (needs_fire y = true -> f' = true) ->
  (forall b c, cells p' !! b = Some c -> touched c = true -> f' = true) ->
  inv (St c' p' (<[t:=y]> (pcs s)) f').
Proof.
  intros [HI' _] Hf Hc Hdr Hnf Hcells. destruct Hinv as [Hi Hcnt Hd Hn Hce]. split; simpl; try done.
  - destruct f'; zsum_update; lia.
  - intros Hf2. destruct (Hdr Hf2) as [Hy|[Hq|(Hx & Hq & Hf')]]; [|by left|].
    + right. exists t, y. split; [|done]. apply list_lookup_insert_eq. by eapply lookup_lt_Some.
    + rewrite Hq. rewrite Hf2 in Hf'. destruct (Hd (eq_sym Hf')) as [?|(i & z & Hz & Hzd)]; [by left|right].
      exists i, z. split; [|done]. rewrite list_lookup_insert_ne; [done|]. intros ->. congruence.
  - intros t' z Hz Hzn. apply lookup_insert_list in Hz as [(-> & -> & _)|[_ Hz]]; [auto|eauto].
Qed.
End move.

(** The cells after one step: touched only by a thread that runs [wakeup_all]. *)
Lemma touched_alter s b f (f' : bool) :
  inv s -> (forall c, touched (f c) = true -> touched c = true \/ f' = true) -> (fired s = true -> f' = true) ->
  forall i c, alter f b (cells (pl s)) !! i = Some c -> touched c = true -> f' = true.
Proof.
  intros Hinv Hf Hmono i c Hi Hc. destruct (decide (i = b)) as [->|Hne].
  - rewrite list_lookup_alter_eq in Hi. destruct (cells (pl s) !! b) as [c0|] eqn:H0; simplify_eq/=.
    destruct (Hf _ Hc) as [?|]; [|done]. apply Hmono. by eapply inv_cells.
  - rewrite list_lookup_alter_ne in Hi by done. apply Hmono. by eapply inv_cells.
Qed.

Lemma touched_snoc s (f' : bool) :
  inv s -> (fired s = true -> f' = true) ->
  forall i c, (cells (pl s) ++ [Cell sb_current false]) !! i = Some c -> touched c = true -> f' = true.
Proof.
  intros Hinv Hmono i c Hi Hc. apply lookup_snoc_Some' in Hi as [Hi|[_ ->]]; [|done].
  apply Hmono. by eapply inv_cells.
Qed.

(** Whoever sees a wake-up knows that the flag was fired. *)
Lemma unparked_fired s b : inv s -> pool_unparked b (pl s) = true -> fired s = true.
Proof.
  intros Hinv H. unfold pool_unparked, flag in H. destruct (cells (pl s) !! b) as [c|] eqn:Hc; [|done].
  eapply inv_cells; [done..|]. unfold touched, sb_is_unparked in *. by rewrite H.
Qed.
Lemma can_wake_fired s b : inv s -> pool_can_wake b (pl s) = true -> fired s = true.
Proof.
  intros Hinv H. unfold pool_can_wake, flag in H. destruct (cells (pl s) !! b) as [c|] eqn:Hc; [|done].
  eapply inv_cells; [done..|]. unfold touched in *. rewrite H. by rewrite orb_true_r.
Qed.
Lemma recheck_fired s t e b : inv s -> pcs s !! t = Some (WErrTake e b) -> fired s = true.
Proof.
  intros Hinv Ht. destruct (client_waiter role_of _ _ _ _ b KRecheck (inv_pool _ Hinv) Ht eq_refl)
    as (c & g & q & Hc & Hb & _).
  eapply inv_cells; [done..|]. by destruct c as [[[] [] []] []], g as [[]|], q.
Qed.

Lemma flag_positive s : inv s -> bounded s -> (0 <? cnt s)%Z = fired s.
Proof.
  intros Hinv Hb. pose proof (inv_cnt _ Hinv) as Hc. unfold bounded in Hb.
  pose proof (zsum_nonneg undecremented (pcs s) undecremented_nonneg).
  destruct (fired s); [apply Z.ltb_lt|apply Z.ltb_ge]; lia.
Qed.

Lemma flag_cells_mono s e s' : step s e = Some s' -> length (cells (pl s)) <= length (cells (pl s')).
Proof.
  intros H. destruct e; simpl in H; unfold step_wakeup_all, step_fire, step_wait, step_park, pool_pop in H;
    repeat (case_match; try discriminate H); simplify_eq/=; pool_unfold; simplify_eq/=;
    rewrite ?length_alter, ?length_app; simpl; lia.
Qed.

Lemma flag_inv_step s e s' : bounded s' -> inv s -> step s e = Some s' -> inv s'.
Proof.
  intros Hb Hinv Hs. pose proof (flag_cells_mono _ _ _ Hs) as Hmono.
  pose proof (inv_pool _ Hinv) as Hi. pose proof (inv_cnt _ Hinv) as Hc.
  pose proof (zsum_nonneg undecremented (pcs s) undecremented_nonneg) as Hu0.
  assert (Hb0 : bounded s) by (unfold bounded in *; lia).
  pose proof (flag_positive _ Hinv Hb0) as Hpos. unfold bounded in *.
  destruct e as [t d|t|t|t r|t]; simpl in Hs;
    destruct (pcs s !! t) as [x|] eqn:Ht; try discriminate Hs;
    pose proof (inv_fired _ Hinv _ _ Ht) as Hnf;
    destruct x; try discriminate Hs; simpl in Hs;
    repeat match goal with k : rk |- _ => destruct k | r : option ParkError |- _ => destruct r end; simpl in Hs;
    unfold pool_pop in Hs;
    repeat (case_match; try discriminate Hs); simplify_eq/=.
  all: unfold set_cnt, set_pl, set_pc, is_fired in *; simpl.
  all: try (specialize (Hnf eq_refl)).
  all: try match goal with
    | Hv : inv ?s0, H : pool_unparked _ _ = true |- _ => pose proof (unparked_fired s0 _ Hv H)
    | Hv : inv ?s0, H : pool_can_wake _ _ = true |- _ => pose proof (can_wake_fired s0 _ Hv H)
    | Hv : inv ?s0, H : pcs _ !! _ = Some (WErrTake _ _) |- _ => pose proof (recheck_fired s0 _ _ _ Hv H)
    end.
  all: eapply (flag_inv_move s t _ _ _ _ _ _ Hinv Ht).
  all: try (match goal with |- HI _ _ _ /\ _ => idtac end; role_step role_of Hi Ht).
  all: pool_unfold; try done; auto.
  all: try (match goal with |- context [touched] => idtac end;
    first [ exact (inv_cells _ Hinv)
          | eapply (touched_snoc s _ Hinv); done
          | eapply (touched_alter s _ _ _ Hinv); [|done]; intros [[[] [] []] []]; simpl; auto ]).
  all: rewrite ?length_alter, ?length_app; simpl length.
  all: try congruence; try (destruct (fired s); simplify_eq; auto; done).
  all: try rewrite Word.wrap_i_small by
    (unfold Word.is_isize, Word.isize_min, Word.isize_max, Word.width in *; destruct (fired s); lia).
  all: try (destruct (fired s); simplify_eq; simpl; lia).
  all: repeat match goal with e : ParkError |- _ => destruct e end; simpl; intros; try congruence; auto.
Qed.

Lemma flag_inv_init n : inv (new n).
Proof.
  destruct (init_ok (bc:=false) n (role_of Idle) eq_refl eq_refl) as [HI' _].
  split; simpl; rewrite ?fmap_replicate, ?zsum_replicate; simpl; try done; try lia.
  intros t x Hx. by apply lookup_replicate in Hx as [-> _].
Qed.

Lemma flag_bounded_step s e s' : step s e = Some s' -> bounded s' -> bounded s.
Proof. unfold bounded. intros Hs Hb. pose proof (flag_cells_mono _ _ _ Hs). lia. Qed.

Lemma flag_inv_reachable n s : reachable step (new n) s -> bounded s -> inv s.
Proof.
  intros Hr. induction Hr as [|s e s' Hr IH Hs]; intros Hb; [apply flag_inv_init|].
  eapply flag_inv_step; [done| |done]. eauto using flag_bounded_step.
Qed.

Lemma fired_stays s e s' : step s e = Some s' -> fired s = true -> fired s' = true.
Proof.
  intros H Hf. destruct e; simpl in H; unfold step_wakeup_all, step_fire, step_wait, step_park, pool_pop in H;
    repeat (case_match; try discriminate H); by simplify_eq/=.
Qed.

(** No thread can move on its own. *)
Definition quiescent (s : state) : Prop :=
  forall t, step s (Tick t) = None /\ step s (Park t None) = None.

(** ** Properties *)

(** C8. [fire] wakes every waiter, also those that register concurrently: in a
    state where no thread can move on its own and [fire] has been called, nobody
    is parked in [wait]. *)
Theorem fire_wakes_all n s t d b
  (Hr : reachable step (new n) s) (Hb : bounded s) (Hf : fired s = true) (Hq : quiescent s) :
  pcs s !! t <> Some (WPark d b).
Proof.
  intros Ht. pose proof (flag_inv_reachable _ _ Hr Hb) as Hinv.
  assert (Hrest : forall i x, pcs s !! i = Some x -> role_rests (pl s) (role_of x) /\ draining x = false).
  { intros i x Hx. destruct (Hq i) as [H1 H2]. simpl in H1, H2. rewrite Hx in H1, H2.
    destruct x; simpl in *; unfold pool_pop in *; repeat case_match; try done. }
  destruct (rest_spec role_of (pcs s) (pl s) (inv_pool _ Hinv)) as [_ Hin].
  { intros i x Hx. by eapply Hrest. }
  specialize (Hin _ _ b KWait Ht eq_refl).
  destruct (inv_drain _ Hinv Hf) as [Hnil|(i & x & Hx & Hd)].
  - rewrite Hnil in Hin. by apply not_elem_of_nil in Hin.
  - destruct (Hrest _ _ Hx). congruence.
Qed.

(** The flag is a level: once [fire] has stored it, [is_fired] answers true
    for ever, whatever the number of waits (below [isize::MAX]) that decrement
    the counter afterwards; before that it answers false, and a wait returns true
    only if the flag was fired. *)
Theorem fired_is_level n s t
  (Hr : reachable step (new n) s) (Hb : bounded s) :
  is_fired s = fired s /\ (pcs s !! t = Some (Done OTrue) -> fired s = true) /\
  forall s2, reachable step s s2 -> bounded s2 -> is_fired s = true -> is_fired s2 = true.
Proof.
  pose proof (flag_inv_reachable _ _ Hr Hb) as Hinv. split_and!.
  - by apply flag_positive.
  - intros Ht. by eapply inv_fired.
  - intros s2 Hr2 Hb2. unfold is_fired. rewrite (flag_positive _ Hinv Hb). intros Hf.
    assert (Hboth : inv s2 /\ fired s2 = true).
    { induction Hr2 as [|s1 e s2 Hr2 IH Hs]; [done|].
      destruct IH as [Hi Hf1]; [by eapply flag_bounded_step|].
      split; [by eapply flag_inv_step|by eapply fired_stays]. }
    destruct Hboth. by rewrite (flag_positive s2).
Qed.

(** ** Witnesses: thread 0 waits, thread 1 waits and times out, thread 2 fires
    while thread 3 is between its test and its registration. *)
Definition ticks (t k : nat) : list event := replicate k (Tick t).
Definition wait_ev (t : nat) (d : bool) : list event := CWait t d :: ticks t 4.
Definition demo_fire : list event :=
  wait_ev 0 false ++ wait_ev 1 true ++ [Park 1 (Some Timeout)] ++ ticks 1 3 ++
  [CWait 3 false] ++ ticks 3 3 ++ [CFire 2] ++ ticks 2 1 ++ ticks 3 1 ++ ticks 2 13 ++ ticks 3 1 ++
  [Park 0 None; Park 3 None].
Definition final (es : list event) : state := default (new 4) (run step es (new 4)).

Example demo_fire_result :
  pcs (final demo_fire) = [Done OTrue; Done OFalse; Done OFired; Done OTrue].
Proof. by vm_compute. Qed.

Lemma fire_wakes_all_witness : pcs (final demo_fire) !! 0 <> Some (WPark false 0).
Proof.
  apply (fire_wakes_all 4).
  - apply run_reachable with (es := demo_fire). vm_compute. reflexivity.
  - vm_compute. reflexivity.
  - vm_compute. reflexivity.
  - intros [|[|[|[|t]]]]; vm_compute; auto.
Defined.

Lemma fired_is_level_witness :
  let s := final demo_fire in
  is_fired s = fired s /\ (pcs s !! 0 = Some (Done OTrue) -> fired s = true) /\
  forall s2, reachable step s s2 -> bounded s2 -> is_fired s = true -> is_fired s2 = true.
Proof.
  apply (fired_is_level 4).
  - apply run_reachable with (es := demo_fire). vm_compute. reflexivity.
  - vm_compute. reflexivity.
Defined.

End Flag.
