(* ===== verification/AtomicDur.v ===== *)
(** * AtomicDur: [src/sync/atomic_dur.rs]

    Timeouts are stored as whole milliseconds in one machine word, zero meaning
    none.  A [Duration] is its number of nanoseconds, which fits in [u128]. *)

From stdpp Require Import base numbers.
From Stdlib Require Import ZArith Lia.
From S2P Require Import Prelude.
Local Open Scope Z_scope.

Module Dur.

Definition div_ceil (a b : Z) : Z := a / b + (if a mod b =? 0 then 0 else 1).

(** [usize::try_from(ms).unwrap_or(usize::MAX)] saturates. *)
Definition encode (dur : option Z) : Z :=
  match dur with
  | None => 0
  | Some d =>
      let ms := Z.max (div_ceil d 1000000) 1 in
      if ms <=? Word.usize_max then ms else Word.usize_max
  end.

Definition decode (w : Z) : option Z := if w =? 0 then None else Some (w * 1000000).

Definition new (dur : option Z) : Z := encode dur.
Definition store (cell : Z) (dur : option Z) : Z := encode dur.
Definition get (cell : Z) : option Z := decode cell.
(** [take] swaps 0 in: the value read and the cell afterwards. *)
Definition take (cell : Z) : option Z * Z := (decode cell, 0).

Lemma div_ceil_spec a b : 0 < b -> 0 <= a -> a <= div_ceil a b * b < a + b.
Proof.
  intros Hb Ha. unfold div_ceil. pose proof (Z.div_mod a b ltac:(lia)).
  pose proof (Z.mod_pos_bound a b Hb). destruct (Z.eqb_spec (a mod b) 0); nia.
Qed.

(** C9. Round trip of a timeout: what is taken out is never "no timeout", never
    shorter than what was stored, and less than one millisecond longer (a zero
    timeout becomes one millisecond); the word fits, the cell is left empty.  The
    bound is the largest duration [std::time::Duration] can hold. *)
Theorem timeout_not_lost cell d
  (Hd : 0 <= d <= Word.usize_max * 1000000000 + 999999999) :
  Word.is_usize (store cell (Some d)) /\ snd (take (store cell (Some d))) = 0 /\
  exists d', fst (take (store cell (Some d))) = Some d' /\
    (d <= Word.usize_max * 1000000 -> d <= d' /\ d' <= Z.max (d + 999999) 1000000) /\
    (Word.usize_max * 1000000 < d -> d' = Word.usize_max * 1000000).
Proof.
  pose proof (div_ceil_spec d 1000000 ltac:(lia) ltac:(lia)) as Hc.
  unfold store, encode, take, decode, Word.is_usize, Word.usize_max, Word.modulus, Word.width in *.
  cbn [fst snd]. set (q := div_ceil d 1000000) in *.
  destruct (Z.leb_spec (Z.max q 1) (2 ^ 64 - 1)).
  - split_and!; [lia|lia|done|]. destruct (Z.eqb_spec (Z.max q 1) 0); [lia|].
    eexists. split; [done|]. split; intros; lia.
  - split_and!; [lia|lia|done|]. cbn [Z.eqb]. destruct (Z.eqb_spec (2 ^ 64 - 1) 0); [lia|].
    eexists. split; [done|]. split; intros; lia.
Qed.

Lemma no_timeout cell : take (store cell None) = (None, 0).
Proof. reflexivity. Qed.

Lemma timeout_not_lost_witness :
  Word.is_usize (store 0 (Some 500000)) /\ snd (take (store 0 (Some 500000))) = 0 /\
  exists d', fst (take (store 0 (Some 500000))) = Some d' /\
    (500000 <= Word.usize_max * 1000000 -> 500000 <= d' /\ d' <= Z.max (500000 + 999999) 1000000) /\
    (Word.usize_max * 1000000 < 500000 -> d' = Word.usize_max * 1000000).
Proof. apply (timeout_not_lost 0 500000). vm_compute. split; discriminate. Defined.

End Dur.
