(* ===== verification/ListV1.v ===== *)
(** * ListV1: the intrusive list of the timers

    [may_queue/src/mpsc_list_v1.rs]: any number of threads push, one consumer pops,
    peeks and removes nodes from the middle by their [Entry]; a node
    is counted by its entry and by the list, and carries a bit that says whether it is
    linked.  [Timer] takes a list as the FIFO list this file proves it to be.

    Nodes are numbered in the order of their allocation.  Only what other threads can
    see separates two steps: the consumer's accesses to links and values between two nodes that
    are linked are one step with the store or the load that goes with them. *)

From stdpp Require Import base numbers list.
From Stdlib Require Import ZArith Lia.
From S2P Require Import Prelude.

Module MpscList.

Definition REF_INIT : Z := 0x10000002.
Definition REF_COUNT_MASK : Z := 0x0FFFFFFF.

Section queue.
Context {T : Type}.

(** The [Entry]: its push has not returned; somebody has it; [remove] has it; dropped. *)
Inductive entry := EPush | EHeld | ERemove | EGone.
(** [handle] and [freed]: history. *)
Record Node := Nd { prev : option nat; next : option nat; value : option T; refs : Z; handle : entry; freed : bool }.

(** A producer: after the swap; after [prev] is set; after the link; done. *)
Inductive ppc := PIdle | PPrev (n p : nat) | PLink (n p : nat) | PTail (n p : nat) | PDone (n : nat) (is_head : bool) | PFault.
(** The consumer: waits for the successor of the tail; is about to drop the entry it removed; done. *)
Inductive kind := KPop | KPopIf (f : T -> bool) | KPeek.
Inductive cpc := CIdle | CSpin (k : kind) | CDrop (n : nat) (r : option T) | CDone (r : option T) | CPanic | CFault.

(** The list it refines: nodes and values, and the answers given. *)
Record spec := Spec { q : list (nat * T); answers : list (option T) }.
Inductive call := SPush (n : nat) (v : T) | STake (f : T -> bool) | SLook | SRemove (n : nat) (found : bool).
Fixpoint index_of (n : nat) (l : list (nat * T)) : option nat :=
  match l with [] => None | x :: l' => if x.1 =? n then Some 0 else option_map S (index_of n l') end.
(** A node in the middle is found or not (the last one never is). *)
Definition spec_step (s : spec) (c : call) : option spec :=
  let answer o l := Some (Spec l (answers s ++ [o])) in
  match c with
  | SPush n v => Some (Spec (q s ++ [(n, v)]) (answers s))
  | STake f => match q s with x :: l => if f x.2 then answer (Some x.2) l else answer None (q s) | [] => answer None [] end
  | SLook => answer (option_map snd (hd_error (q s))) (q s)
  | SRemove n false => answer None (q s)
  | SRemove n true =>
      match index_of n (q s) with
      | Some j => if S j <? length (q s) then answer (option_map snd (q s !! j)) (delete j (q s)) else None
      | None => None
      end
  end.

(** [gs]: history, the list that is refined. *)
Record Queue := St { nodes : list Node; head : nat; tail : nat; prods : list ppc; cons : cpc; gs : spec }.

Definition null_node : Node := Nd None None None 0 EGone true.
Definition nd (n : nat) (s : Queue) : Node := default null_node (nodes s !! n).
Definition upd (n : nat) (f : Node -> Node) (s : Queue) : Queue := St (alter f n (nodes s)) (head s) (tail s) (prods s) (cons s) (gs s).
Definition set_prod (t : nat) (x : ppc) (s : Queue) : Queue := St (nodes s) (head s) (tail s) (<[t := x]> (prods s)) (cons s) (gs s).
Definition set_cons (x : cpc) (s : Queue) : Queue := St (nodes s) (head s) (tail s) (prods s) x (gs s).
Definition set_tail (n : nat) (s : Queue) : Queue := St (nodes s) (head s) n (prods s) (cons s) (gs s).
Definition record (c : call) (s : Queue) : Queue := St (nodes s) (head s) (tail s) (prods s) (cons s) (default (gs s) (spec_step (gs s) c)).

Definition set_prev (p : option nat) (x : Node) : Node := Nd p (next x) (value x) (refs x) (handle x) (freed x).
Definition set_next (m : nat) (x : Node) : Node := Nd (prev x) (Some m) (value x) (refs x) (handle x) (freed x).
Definition take (x : Node) : Node := Nd (prev x) (next x) None (refs x) (handle x) (freed x).
Definition set_handle (h : entry) (x : Node) : Node := Nd (prev x) (next x) (value x) (refs x) h (freed x).
(** [fetch_and(REF_COUNT_MASK)]; [fetch_sub(1)], with the release at 1. *)
Definition clear_link (x : Node) : Node := Nd (prev x) (next x) (value x) (Z.land (refs x) REF_COUNT_MASK) (handle x) (freed x).
Definition release (x : Node) : Node := Nd (prev x) (next x) (value x) (Word.sub (refs x) 1) (handle x) (freed x || (refs x =? 1)%Z).
Definition is_link (x : Node) : bool := negb (Z.land (refs x) (Z.lnot REF_COUNT_MASK) =? 0)%Z.

(** [Node::new]; [Queue::new], whose stub has no entry. *)
Definition new_node (v : option T) : Node := Nd None None v REF_INIT EPush false.
Definition new (n : nat) : Queue := St [Nd None None None 1 EGone false] 0 0 (replicate n PIdle) CIdle (Spec [] []).

(** ** [push] *)
Definition start_push (t : nat) (v : T) (s : Queue) : Queue :=
  let n := length (nodes s) in
  record (SPush n v) (set_prod t (PPrev n (head s)) (St (nodes s ++ [new_node (Some v)]) n (tail s) (prods s) (cons s) (gs s))).
Definition push (t : nat) (x : ppc) (s : Queue) : option Queue :=
  match x with
  | PPrev n p => Some (set_prod t (PLink n p) (upd n (set_prev (Some p)) s))
  | PLink n p => Some (if freed (nd p s) then set_prod t PFault s else set_prod t (PTail n p) (upd p (set_next n) s))
  | PTail n p => Some (set_prod t (PDone n (tail s =? p)) (upd n (set_handle EHeld) s))
  | _ => None
  end.

(** ** The consumer *)
Definition call_of (k : kind) : call := match k with KPop => STake (fun _ => true) | KPopIf f => STake f | KPeek => SLook end.
Definition has_count (x : Node) : bool := negb (Z.land (refs x) REF_COUNT_MASK =? 0)%Z.
(** [pop], [pop_if], [peek] until the loop; [pop] has cleared the link bit by then. *)
Definition start_pop (k : kind) (s : Queue) : Queue :=
  if head s =? tail s then set_cons (CDone None) (record (call_of k) s)
  else match k with
       | KPop => if freed (nd (tail s) s) then set_cons CFault s
                 else if has_count (nd (tail s) s) then set_cons (CSpin k) (upd (tail s) clear_link s) else set_cons CPanic s
       | _ => set_cons (CSpin k) s
       end.
(** The tail moves to [x], whose value is taken; the list gives up the old tail. *)
Definition advance (v : T) (x : nat) (s : Queue) : Queue :=
  set_cons (CDone (Some v)) (upd (tail s) release (set_tail x (upd x (fun y => take (set_prev None y)) s))).
Definition pop (k : kind) (s : Queue) : Queue :=
  let t := nd (tail s) s in
  if freed t then set_cons CFault s
  else match next t with
       | None => s
       | Some x =>
           if freed (nd x s) then set_cons CFault s
           else match value t, value (nd x s) with
                | None, Some v =>
                    match k with
                    | KPeek => set_cons (CDone (Some v)) (record (call_of k) s)
                    | KPop => advance v x (record (call_of k) s)
                    | KPopIf f =>
                        if f v then
                          if has_count t then advance v x (record (call_of k) (upd (tail s) clear_link s)) else set_cons CPanic s
                        else set_cons (CDone None) (record (call_of k) s)
                    end
                | _, _ => set_cons CPanic s
                end
       end.
(** [Entry::remove], of an entry the consumer holds, until its drop at the end. *)
Definition remove (n : nat) (s : Queue) : Queue :=
  let x := nd n s in
  let s := upd n (set_handle ERemove) s in
  let no_action := set_cons (CDrop n None) (record (SRemove n false) s) in
  if freed x then set_cons CFault s
  else if negb (is_link x) then no_action
  else match prev x, next x with
       | Some p, Some m =>
           if freed (nd p s) || freed (nd m s) then set_cons CFault s
           else
             let s' := upd p (set_next m) (upd m (set_prev (Some p)) (upd n clear_link s)) in
             set_cons (CDrop n (value x)) (record (SRemove n true) (upd n (fun y => release (take y)) s'))
       | _, _ => no_action
       end.
(** [Drop for Entry]. *)
Definition drop (n : nat) (s : Queue) : Queue := upd n (fun y => set_handle EGone (release y)) s.

Definition is_empty (s : Queue) : bool := head s =? tail s.

Inductive event := Push (t : nat) (v : T) | P (t : nat) | Pop (k : kind) | Remove (n : nat) | C | Drop (n : nat).

Definition at_home (c : cpc) : bool := match c with CIdle | CDone _ => true | _ => false end.
Definition held (n : nat) (s : Queue) : bool := match nodes s !! n with Some x => match handle x with EHeld => true | _ => false end | None => false end.

Definition step (s : Queue) (e : event) : option Queue :=
  match e with
  | Push t v => match prods s !! t with Some (PIdle | PDone _ _) => Some (start_push t v s) | _ => None end
  | P t => match prods s !! t with Some x => push t x s | None => None end
  | Pop k => if at_home (cons s) then Some (start_pop k s) else None
  | Remove n => if at_home (cons s) && held n s then Some (remove n s) else None
  | C => match cons s with CSpin k => Some (pop k s) | CDrop n r => Some (set_cons (CDone r) (drop n s)) | _ => None end
  | Drop n => if held n s then Some (drop n s) else None
  end.

(** ** The invariant *)
Definition enc (l : bool) (c : Z) : Z := ((if l then 2 ^ 28 else 0) + c)%Z.
Definition alive (h : entry) : bool := match h with EGone => false | _ => true end.

(** The nodes of the list, the tail first. *)
Definition chain (s : Queue) : list nat := tail s :: map fst (q (gs s)).
Definition pends (n : nat) (x : ppc) : bool := match x with PPrev m _ | PLink m _ => m =? n | _ => false end.
Definition pending (n : nat) (s : Queue) : bool := existsb (pends n) (prods s).
Definition busy (x : ppc) : option nat := match x with PPrev n _ | PLink n _ | PTail n _ => Some n | _ => None end.
Definition follows (p n : nat) (s : Queue) : Prop := exists i, chain s !! i = Some p /\ chain s !! S i = Some n.
Definition prod_ok (x : ppc) (s : Queue) : Prop :=
  match x with
  | PPrev n p => follows p n s
  | PLink n p => follows p n s /\ prev (nd n s) = Some p
  | PFault => False
  | _ => True
  end.
Definition cons_ok (s : Queue) : Prop :=
  match cons s with
  | CSpin k => q (gs s) <> [] /\ match k with KPop => is_link (nd (tail s) s) = false | _ => True end
  | CDrop n r => n < length (nodes s) /\ handle (nd n s) = ERemove /\ last (answers (gs s)) = Some r
  | CDone r => last (answers (gs s)) = Some r
  | CPanic | CFault => False
  | CIdle => True
  end.

Record inv (s : Queue) : Prop := {
  iv_last : last (chain s) = Some (head s);
  iv_nodup : NoDup (chain s);
  iv_bound : forall n, n ∈ chain s -> n < length (nodes s);
  iv_tail : value (nd (tail s) s) = None /\ prev (nd (tail s) s) = None;
  iv_val : forall n v, (n, v) ∈ q (gs s) -> value (nd n s) = Some v;
  iv_refs : forall n, n < length (nodes s) -> exists l, refs (nd n s) = enc l (b2z (bool_decide (n ∈ chain s)) + b2z (alive (handle (nd n s)))) /\
    (n ∈ map fst (q (gs s)) -> l = true) /\ (n ∉ chain s -> l = false);
  iv_freed : forall n, n < length (nodes s) -> freed (nd n s) = negb (bool_decide (n ∈ chain s)) && negb (alive (handle (nd n s)));
  iv_link : forall i a b, chain s !! i = Some a -> chain s !! S i = Some b ->
    if pending b s then next (nd a s) = None else next (nd a s) = Some b /\ prev (nd b s) = Some a;
  iv_end : next (nd (head s) s) = None;
  iv_prod : forall t x, prods s !! t = Some x -> prod_ok x s;
  iv_busy : forall t x n, prods s !! t = Some x -> busy x = Some n -> n < length (nodes s) /\ handle (nd n s) = EPush;
  iv_pend : forall t u x y n, prods s !! t = Some x -> prods s !! u = Some y -> busy x = Some n -> busy y = Some n -> t = u;
  iv_cons : cons_ok s
}.

(** *** Counts *)
Lemma li_enc_clear l c : (0 <= c <= 2)%Z -> Z.land (enc l c) REF_COUNT_MASK = enc false c.
Proof. intros H. assert (c = 0 \/ c = 1 \/ c = 2)%Z as [-> |[-> | ->]] by lia; by destruct l. Qed.
Lemma li_enc_sub l c : (1 <= c <= 2)%Z -> Word.sub (enc l c) 1 = enc l (c - 1).
Proof. intros H. assert (c = 1 \/ c = 2)%Z as [-> | ->] by lia; by destruct l. Qed.
Lemma li_enc_one c : (0 <= c <= 2)%Z -> (enc false c =? 1)%Z = (c =? 1)%Z.
Proof. done. Qed.
Lemma li_enc_linked l c : (0 <= c <= 2)%Z -> negb (Z.land (enc l c) (Z.lnot REF_COUNT_MASK) =? 0)%Z = l.
Proof. intros H. assert (c = 0 \/ c = 1 \/ c = 2)%Z as [-> |[-> | ->]] by lia; by destruct l. Qed.
Lemma li_enc_count l c : (1 <= c <= 2)%Z -> negb (Z.land (enc l c) REF_COUNT_MASK =? 0)%Z = true.
Proof. intros H. assert (c = 1 \/ c = 2)%Z as [-> | ->] by lia; by destruct l. Qed.
Lemma li_count_range (a b : bool) : (0 <= b2z a + b2z b <= 2)%Z.
Proof. destruct a, b; simpl; lia. Qed.

(** *** Nodes *)
Lemma li_nd_upd n f m s : n < length (nodes s) -> nd m (upd n f s) = if m =? n then f (nd m s) else nd m s.
Proof.
  intros H. unfold nd, upd. simpl. destruct (Nat.eqb_spec m n) as [->|Hne].
  - destruct (lookup_lt_is_Some_2 _ _ H) as [x Hx]. by rewrite list_lookup_alter_eq, Hx.
  - by rewrite list_lookup_alter_ne.
Qed.
Lemma li_length_upd n f s : length (nodes (upd n f s)) = length (nodes s).
Proof. apply length_alter. Qed.

Lemma li_pending_insert n t x y s :
  prods s !! t = Some x -> pends n x = false -> pending n (set_prod t y s) = pends n y || pending n s.
Proof.
  unfold pending, set_prod. simpl. generalize (prods s). intros l. revert t. induction l as [|z l IH]; intros [|t]; simpl; try done.
  - intros [= ->] ->. simpl. by destruct (pends n y).
  - intros Hx Hp. rewrite (IH t Hx Hp). by destruct (pends n z), (pends n y).
Qed.
Lemma li_pending_has n s : pending n s = true <-> exists t x, prods s !! t = Some x /\ pends n x = true.
Proof.
  unfold pending. rewrite existsb_exists. split.
  - intros (x & [t Ht]%list_elem_of_In%list_elem_of_lookup_1 & Hp). eauto.
  - intros (t & x & Ht & Hp). exists x. split; [|done]. apply list_elem_of_In. by eapply list_elem_of_lookup_2.
Qed.
Lemma li_pending_busy n s : inv s -> pending n s = true -> handle (nd n s) = EPush.
Proof.
  intros Hi (t & x & Hx & Hp)%li_pending_has. apply (iv_busy _ Hi t x n Hx). destruct x; simpl in *; try done; by apply Nat.eqb_eq in Hp as ->.
Qed.

(** *** The chain *)
Section chain.
Context (s : Queue) (Hi : inv s).

Lemma li_ch_head : head s ∈ chain s.
Proof. apply last_Some_elem_of, Hi. Qed.
Lemma li_ch_empty : head s = tail s <-> q (gs s) = [].
Proof.
  pose proof (iv_last _ Hi) as Hl. pose proof (iv_nodup _ Hi) as Hn. unfold chain in *. split.
  - intros He. destruct (q (gs s)) as [|x l] using rev_ind; [done|]. rewrite map_app, app_comm_cons in Hl. change (map fst [x]) with [x.1] in Hl. rewrite last_snoc in Hl. injection Hl as Hx.
    apply NoDup_cons in Hn as [Hn _]. destruct Hn. rewrite map_app, <-He, <-Hx. apply elem_of_app. right. apply list_elem_of_here.
  - intros E. rewrite E in Hl. simpl in Hl. congruence.
Qed.
(** Where a node of the chain is. *)
Lemma li_ch_last_index i : chain s !! i = Some (head s) -> S i = length (chain s).
Proof.
  intros Hx. pose proof (iv_last _ Hi) as Hl. rewrite last_lookup in Hl. pose proof (NoDup_lookup _ _ _ _ (iv_nodup _ Hi) Hx Hl).
  unfold chain in *. simpl in *. lia.
Qed.
Lemma li_ch_alive n : n ∈ chain s -> freed (nd n s) = false.
Proof. intros Hn. rewrite (iv_freed _ Hi) by (by apply (iv_bound _ Hi)). by rewrite bool_decide_eq_true_2. Qed.
Lemma li_ch_q_list (n : nat) (v : T) l : (n, v) ∈ l -> n ∈ map fst l.
Proof. intros H%list_elem_of_In. apply list_elem_of_In, in_map_iff. by exists (n, v). Qed.
Lemma li_ch_q n : n ∈ map fst (q (gs s)) <-> exists v, (n, v) ∈ q (gs s).
Proof. rewrite list_elem_of_In, in_map_iff. split; [intros ([? v] & <- & ?%list_elem_of_In); eauto|intros [v ?%list_elem_of_In]; by exists (n, v)]. Qed.
End chain.

(** *** The producers *)
Lemma li_pending_same n t x y s : prods s !! t = Some x -> pends n y = pends n x -> pending n (set_prod t y s) = pending n s.
Proof.
  unfold pending, set_prod. simpl. generalize (prods s). intros l. revert t. induction l as [|z l IH]; intros [|t]; simpl; try done.
  - intros [= ->] ->. done.
  - intros Hx Hp. by rewrite (IH t Hx Hp).
Qed.
(** A producer moves and links or entries change, but neither values nor counts. *)
Lemma li_inv_frame s s' t x y :
  inv s -> prods s !! t = Some x -> prods s' = <[t := y]> (prods s) -> gs s' = gs s -> head s' = head s -> tail s' = tail s -> cons s' = cons s -> length (nodes s') = length (nodes s) ->
  (forall m, value (nd m s') = value (nd m s) /\ refs (nd m s') = refs (nd m s) /\ freed (nd m s') = freed (nd m s) /\
     alive (handle (nd m s')) = alive (handle (nd m s)) /\ (busy x <> Some m -> handle (nd m s') = handle (nd m s))) ->
  prev (nd (tail s) s') = None ->
  (forall i a b, chain s !! i = Some a -> chain s !! S i = Some b -> if pending b s' then next (nd a s') = None else next (nd a s') = Some b /\ prev (nd b s') = Some a) ->
  next (nd (head s) s') = None -> prod_ok y s' -> (forall u z, u <> t -> prods s !! u = Some z -> prod_ok z s') ->
  (busy y = None \/ (busy y = busy x /\ forall m, handle (nd m s') = handle (nd m s))) -> inv s'.
Proof.
  intros Hi Hx Ep Eg Eh Et Ec El Hnd Htp Hlk Hend Hy Hoth Hbz. pose proof Hi as [H1 H2 H3 H4 H5 H6 H7 H8 H9 H10 H11 H12 H13].
  assert (Ech : chain s' = chain s) by (unfold chain; by rewrite Et, Eg).
  split; rewrite ?Ech, ?Eg, ?Eh, ?Et, ?El; auto.
  - split; [|done]. rewrite (proj1 (Hnd _)). apply H4.
  - intros n v Hn. rewrite (proj1 (Hnd _)). by apply H5.
  - intros n Hn. destruct (Hnd n) as (_ & -> & _ & -> & _). auto.
  - intros n Hn. destruct (Hnd n) as (_ & _ & -> & -> & _). auto.
  - intros u z. rewrite Ep. intros [(<- & -> & _)|[Hne Hz]]%lookup_insert_list; eauto.
  - intros u z n. rewrite Ep. intros [(<- & -> & _)|[Hne Hz]]%lookup_insert_list Hb.
    + destruct Hbz as [?|[Hb' Hh]]; [congruence|]. rewrite Hh. rewrite Hb' in Hb. eauto.
    + destruct (H11 u z n Hz Hb) as [? Hh]. split; [done|]. destruct (Hnd n) as (_ & _ & _ & _ & ->); [done|]. intros Hbx.
      destruct Hne. symmetry. eauto.
  - intros u w z z' n. rewrite Ep. intros [(<- & -> & _)|[Hne Hz]]%lookup_insert_list [(<- & -> & _)|[Hne' Hz']]%lookup_insert_list Hb Hb'; try done.
    + destruct Hbz as [?|[Hbe _]]; [congruence|]. rewrite Hbe in Hb. eauto.
    + destruct Hbz as [?|[Hbe _]]; [congruence|]. rewrite Hbe in Hb'. eauto.
    + eauto.
  - unfold cons_ok in *. rewrite Ec, Eg, El, Et. destruct (cons s) as [|k|n r| | |]; try done; [unfold is_link; by destruct (Hnd (tail s)) as (_ & -> & _)|]. destruct H13 as (Hn & Hr & Ha). split_and!; [done| |done].
    destruct (Hnd n) as (_ & _ & _ & _ & ->); [done|]. intros Hb. destruct (H11 t x n Hx Hb) as [_ Hh]. congruence.
Qed.

Lemma li_follows_tail n p s : inv s -> follows p n s -> n <> tail s.
Proof.
  intros Hi (i & _ & Hn) ->. assert (H0 : chain s !! 0 = Some (tail s)) by done. by pose proof (NoDup_lookup _ _ _ _ (iv_nodup _ Hi) H0 Hn).
Qed.
Lemma li_follows_in n p s : follows p n s -> p ∈ chain s /\ n ∈ chain s.
Proof. intros (i & Hp & Hn). split; by eapply list_elem_of_lookup_2. Qed.
Lemma li_follows_unique n p p' s : inv s -> follows p n s -> follows p' n s -> p = p'.
Proof.
  intros Hi (i & Hp & Hn) (j & Hp' & Hn'). pose proof (NoDup_lookup _ _ _ _ (iv_nodup _ Hi) Hn Hn') as E. injection E as ->. congruence.
Qed.

Lemma li_inv_prev s t n p : inv s -> prods s !! t = Some (PPrev n p) -> inv (set_prod t (PLink n p) (upd n (set_prev (Some p)) s)).
Proof.
  intros Hi Hx. pose proof (iv_prod _ Hi _ _ Hx) as Hf. simpl in Hf. destruct (li_follows_in _ _ _ Hf) as [_ Hn].
  pose proof (iv_bound _ Hi _ Hn) as Hlt. pose proof (li_follows_tail _ _ _ Hi Hf) as Hnt.
  assert (Hnd : forall m, nd m (set_prod t (PLink n p) (upd n (set_prev (Some p)) s)) = if m =? n then set_prev (Some p) (nd m s) else nd m s) by (intros m; apply (li_nd_upd n _ m s Hlt)).
  apply (li_inv_frame s _ t (PPrev n p) (PLink n p)); try done.
  - apply length_alter.
  - intros m. rewrite Hnd. by destruct (m =? n).
  - rewrite Hnd. rewrite (proj2 (Nat.eqb_neq _ _)) by done. apply Hi.
  - intros i a b Ha Hb. pose proof (iv_link _ Hi i a b Ha Hb) as Hl. rewrite (li_pending_same b t (PPrev n p)) by done. rewrite !Hnd. change (pending b (upd n _ s)) with (pending b s).
    destruct (Nat.eqb_spec b n) as [->|Hne].
    + replace (pending n s) with true in *; [by destruct (a =? n)|]. symmetry. apply li_pending_has. exists t, (PPrev n p). split; [done|]. simpl. by rewrite Nat.eqb_refl.
    + by destruct (pending b s), (a =? n).
  - rewrite Hnd. pose proof (iv_end _ Hi). by destruct (_ =? n).
  - split; [done|]. rewrite Hnd, Nat.eqb_refl. done.
  - intros u z Hne Hz. pose proof (iv_prod _ Hi u z Hz) as Hzk. destruct z; try done. destruct Hzk as [Hf' Hp']. split; [done|].
    rewrite Hnd. destruct (Nat.eqb_spec n0 n) as [->|]; [|done]. destruct Hne. symmetry. by eapply (iv_pend _ Hi t u).
  - right. split; [done|]. intros m. rewrite Hnd. by destruct (m =? n).
Qed.

Lemma li_inv_link s t n p : inv s -> prods s !! t = Some (PLink n p) -> freed (nd p s) = false /\ inv (set_prod t (PTail n p) (upd p (set_next n) s)).
Proof.
  intros Hi Hx. pose proof (iv_prod _ Hi _ _ Hx) as [Hf Hpn]. destruct (li_follows_in _ _ _ Hf) as [Hp Hn].
  pose proof (iv_bound _ Hi _ Hp) as Hlt. split; [by apply li_ch_alive|].
  assert (Hnd : forall m, nd m (set_prod t (PTail n p) (upd p (set_next n) s)) = if m =? p then set_next n (nd m s) else nd m s) by (intros m; apply (li_nd_upd p _ m s Hlt)).
  assert (Hpend : forall b, b <> n -> pending b (set_prod t (PTail n p) (upd p (set_next n) s)) = pending b s).
  { intros b Hb. apply (li_pending_same b t (PLink n p) _ (upd p (set_next n) s)); [done|]. simpl. by rewrite (proj2 (Nat.eqb_neq _ _)) by done. }
  assert (Hpn' : pending n (set_prod t (PTail n p) (upd p (set_next n) s)) = false).
  { destruct (pending n _) eqn:E; [|done]. apply li_pending_has in E as (u & z & Hz & Hpz). simpl in Hz. apply lookup_insert_list in Hz as [(<- & -> & _)|[Hne Hz]]; [done|].
    destruct Hne. apply (iv_pend _ Hi t u _ z n Hx Hz); [done|]. destruct z; simpl in *; try done; by apply Nat.eqb_eq in Hpz as ->. }
  apply (li_inv_frame s _ t (PLink n p) (PTail n p)); try done.
  - apply length_alter.
  - intros m. rewrite Hnd. by destruct (m =? p).
  - rewrite Hnd. pose proof (proj2 (iv_tail _ Hi)). by destruct (_ =? p).
  - intros i a b Ha Hb. pose proof (iv_link _ Hi i a b Ha Hb) as Hl. destruct (decide (b = n)) as [->|Hne].
    + rewrite Hpn'. assert (a = p) as -> by (apply (li_follows_unique n a p s Hi); [by exists i|done]). rewrite !Hnd, Nat.eqb_refl. split; [done|]. by destruct (n =? p).
    + rewrite Hpend by done. rewrite !Hnd. destruct (Nat.eqb_spec a p) as [->|]; [|by destruct (pending b s), (b =? p)].
      destruct Hf as (j & Hj & Hj'). pose proof (NoDup_lookup _ _ _ _ (iv_nodup _ Hi) Ha Hj). subst j. congruence.
  - rewrite Hnd. destruct (Nat.eqb_spec (head s) p) as [E|]; [|apply Hi]. exfalso. subst p. destruct Hf as (j & Hj%li_ch_last_index & Hj'); [|done]. apply lookup_lt_Some in Hj'. lia.
  - intros u z Hne Hz. pose proof (iv_prod _ Hi u z Hz) as Hzk. destruct z; try done. destruct Hzk as [Hf' Hp']. split; [done|]. rewrite Hnd. by destruct (_ =? p).
  - right. split; [done|]. intros m. rewrite Hnd. by destruct (m =? p).
Qed.

Lemma li_inv_done s t n p b : inv s -> prods s !! t = Some (PTail n p) -> inv (set_prod t (PDone n b) (upd n (set_handle EHeld) s)).
Proof.
  intros Hi Hx. destruct (iv_busy _ Hi t _ n Hx eq_refl) as [Hlt Hh].
  assert (Hnd : forall m, nd m (set_prod t (PDone n b) (upd n (set_handle EHeld) s)) = if m =? n then set_handle EHeld (nd m s) else nd m s) by (intros m; apply (li_nd_upd n _ m s Hlt)).
  assert (Hpend : forall m, pending m (set_prod t (PDone n b) (upd n (set_handle EHeld) s)) = pending m s) by (intros m; by apply (li_pending_same m t (PTail n p) _ (upd n (set_handle EHeld) s))).
  apply (li_inv_frame s _ t (PTail n p) (PDone n b)); try done.
  - apply length_alter.
  - intros m. rewrite Hnd. destruct (Nat.eqb_spec m n) as [->|]; [|done]. simpl. rewrite Hh. split_and!; done.
  - rewrite Hnd. pose proof (proj2 (iv_tail _ Hi)). by destruct (_ =? n).
  - intros i a c Ha Hc. rewrite Hpend, !Hnd. pose proof (iv_link _ Hi i a c Ha Hc). by destruct (pending c s), (a =? n), (c =? n).
  - rewrite Hnd. pose proof (iv_end _ Hi). by destruct (_ =? n).
  - intros u z Hne Hz. pose proof (iv_prod _ Hi u z Hz) as Hzk. destruct z; try done. destruct Hzk as [Hf' Hp']. split; [done|]. rewrite Hnd. by destruct (_ =? n).
  - by left.
Qed.

(** A push adds a node behind the head. *)
Lemma li_inv_start_push s t x v : inv s -> prods s !! t = Some x -> busy x = None -> inv (start_push t v s).
Proof.
  intros Hi Hx Hbx. pose proof Hi as [H1 H2 H3 H4 H5 H6 H7 H8 H9 H10 H11 H12 H13]. set (N := length (nodes s)). set (s' := start_push t v s).
  assert (Ech : chain s' = chain s ++ [N]) by (unfold chain; simpl; by rewrite map_app).
  assert (Hnd : forall m, nd m s' = if m =? N then new_node (Some v) else nd m s).
  { intros m. unfold nd, s'. simpl. destruct (Nat.eqb_spec m N) as [->|Hne]; [by rewrite lookup_app_r, Nat.sub_diag by done|].
    destruct (decide (m < N)); [by rewrite lookup_app_l|]. by rewrite !lookup_ge_None_2 by (rewrite ?length_app; simpl; lia). }
  assert (Hold : forall m, m ∈ chain s -> m <> N) by (intros m Hm%H3; unfold N; lia).
  assert (HN : N ∉ chain s) by (intros Hm%Hold; done).
  assert (Hin : forall m, bool_decide (m ∈ chain s') = bool_decide (m ∈ chain s) || (m =? N)).
  { intros m. rewrite Ech. destruct (Nat.eqb_spec m N) as [->|Hne].
    - rewrite orb_true_r. apply bool_decide_eq_true_2. apply elem_of_app. right. apply list_elem_of_here.
    - rewrite orb_false_r. apply bool_decide_ext. rewrite elem_of_app, list_elem_of_singleton. naive_solver. }
  assert (Hpx : forall m, pends m x = false) by (intros m; by destruct x).
  assert (Hpend : forall m, pending m s' = (N =? m) || pending m s).
  { intros m. apply (li_pending_insert m t x (PPrev N (head s)) (St (nodes s ++ [new_node (Some v)]) N (tail s) (prods s) (cons s) (gs s)) Hx (Hpx m)). }
  pose proof (li_ch_head s Hi) as Hhd.
  assert (Hlen : length (nodes s') = S N) by (unfold s'; simpl; rewrite length_app; simpl; unfold N; lia).
  assert (Hfol : forall a b, follows a b s -> follows a b s') by (intros a b (i & Ha & Hb); exists i; rewrite Ech; split; by apply lookup_app_l_Some).
  split; rewrite ?Hlen.
  - rewrite Ech. by apply last_snoc.
  - rewrite Ech. apply NoDup_app. split_and!; [done| |apply NoDup_singleton]. intros m Hm ->%list_elem_of_singleton. by destruct HN.
  - intros m. rewrite Ech, elem_of_app, list_elem_of_singleton. intros [Hm%H3| ->]; unfold N in *; lia.
  - change (tail s') with (tail s). rewrite Hnd, (proj2 (Nat.eqb_neq _ _)) by (apply Hold; apply list_elem_of_here). done.
  - intros m w. change (q (gs s')) with (q (gs s) ++ [(N, v)]). rewrite elem_of_app, list_elem_of_singleton. rewrite Hnd. intros [Hm|[= -> ->]]; [|by rewrite Nat.eqb_refl].
    rewrite (proj2 (Nat.eqb_neq _ _)); [by apply H5|]. apply Hold. right. apply li_ch_q. by exists w.
  - intros m Hm. rewrite Hin, Hnd. change (q (gs s')) with (q (gs s) ++ [(N, v)]). rewrite map_app. destruct (Nat.eqb_spec m N) as [->|Hne].
    + exists true. rewrite orb_true_r. split_and!; [done|done|]. rewrite Ech. intros []. apply elem_of_app. right. apply list_elem_of_here.
    + rewrite orb_false_r. destruct (H6 m) as (l & Hr & Hl1 & Hl2); [unfold N in *; lia|]. exists l. split_and!; [done| |].
      * intros [Hm'|Hm']%elem_of_app; [auto|]. by apply list_elem_of_singleton in Hm'.
      * rewrite Ech. intros Hm'. apply Hl2. intros ?. apply Hm'. apply elem_of_app. by left.
  - intros m Hm. rewrite Hin, Hnd. destruct (Nat.eqb_spec m N) as [->|Hne]; [by rewrite orb_true_r|]. rewrite orb_false_r. apply H7. unfold N in *. lia.
  - intros i a b. rewrite Ech. intros Ha Hb. rewrite Hpend. apply lookup_app_Some in Hb as [Hb|[Hge Hb]].
    + assert (Ha' : chain s !! i = Some a) by (apply lookup_lt_Some in Hb; by rewrite lookup_app_l in Ha by lia).
      pose proof (H8 i a b Ha' Hb). assert (b <> N) by (apply Hold; by eapply list_elem_of_lookup_2). assert (a <> N) by (apply Hold; by eapply list_elem_of_lookup_2).
      rewrite !Hnd, (proj2 (Nat.eqb_neq N b)), (proj2 (Nat.eqb_neq b N)), (proj2 (Nat.eqb_neq a N)) by done. done.
    + apply list_lookup_singleton_Some in Hb as [Hb <-]. rewrite Nat.eqb_refl. simpl. rewrite Hnd.
      assert (Ha' : chain s !! i = Some a) by (rewrite lookup_app_l in Ha by lia; done). assert (a = head s) as ->.
      { rewrite last_lookup in H1. replace (pred (length (chain s))) with i in H1 by lia. congruence. }
      rewrite (proj2 (Nat.eqb_neq _ _)) by (by apply Hold). done.
  - change (head s') with N. by rewrite Hnd, Nat.eqb_refl.
  - intros u z Hz. change (prods s') with (<[t := PPrev N (head s)]> (prods s)) in Hz. apply lookup_insert_list in Hz as [(<- & -> & _)|[Hne Hz]].
    + rewrite last_lookup in H1. exists (pred (length (chain s))). rewrite Ech. split; [by apply lookup_app_l_Some|].
      rewrite lookup_app_r by (unfold chain; simpl; lia). replace (S (pred (length (chain s))) - length (chain s)) with 0 by (unfold chain; simpl; lia). done.
    + specialize (H10 u z Hz). destruct z; try done; simpl in *; [by auto|]. destruct H10 as [Hf Hp]. split; [by auto|].
      rewrite Hnd, (proj2 (Nat.eqb_neq _ _)); [done|]. apply Hold. by apply li_follows_in in Hf as [_ ?].
  - intros u z m Hz. change (prods s') with (<[t := PPrev N (head s)]> (prods s)) in Hz. apply lookup_insert_list in Hz as [(<- & -> & _)|[Hne Hz]]; intros Hb.
    + injection Hb as <-. rewrite Hnd, Nat.eqb_refl. split; [lia|done].
    + destruct (H11 u z m Hz Hb) as [Hlt Hh]. fold N in Hlt. rewrite Hnd, (proj2 (Nat.eqb_neq _ _)) by lia. split; [lia|done].
  - intros u w z z' m. change (prods s') with (<[t := PPrev N (head s)]> (prods s)).
    assert (Hnew : forall i y, prods s !! i = Some y -> busy y <> Some N) by (intros i y Hy Hby; destruct (H11 i y N Hy Hby); unfold N in *; lia).
    intros [(<- & -> & _)|[Hne Hz]]%lookup_insert_list [(<- & -> & _)|[Hne' Hz']]%lookup_insert_list Hb Hb'; [done|..|by eauto].
    + injection Hb as <-. by destruct (Hnew w z' Hz').
    + injection Hb' as <-. by destruct (Hnew u z Hz).
  - unfold cons_ok in *. change (cons s') with (cons s). change (answers (gs s')) with (answers (gs s)). rewrite Hlen.
    destruct (cons s) as [|k|n r| | |]; try done.
    + change (q (gs s')) with (q (gs s) ++ [(N, v)]). destruct H13 as [Hq Hk]. split; [by destruct (q (gs s))|].
      change (tail s') with (tail s). rewrite Hnd, (proj2 (Nat.eqb_neq _ _)) by (apply Hold; apply list_elem_of_here). done.
    + destruct H13 as (Hn & ? & ?). fold N in Hn. rewrite Hnd, (proj2 (Nat.eqb_neq _ _)) by lia. split_and!; [lia|done|done].
Qed.

(** *** Entries are dropped *)
Lemma li_refs n s : inv s -> n < length (nodes s) -> alive (handle (nd n s)) = true ->
  exists l, refs (nd n s) = enc l (b2z (bool_decide (n ∈ chain s)) + 1) /\ (n ∈ map fst (q (gs s)) -> l = true) /\ (n ∉ chain s -> l = false).
Proof. intros Hi Hn Ha. destruct (iv_refs _ Hi n Hn) as (l & Hr & Hl). rewrite Ha in Hr. eauto. Qed.

Lemma li_inv_drop s n c :
  inv s -> n < length (nodes s) -> handle (nd n s) = EHeld \/ handle (nd n s) = ERemove ->
  cons_ok (set_cons c (drop n s)) -> inv (set_cons c (drop n s)).
Proof.
  intros Hi Hlt Hh Hc. pose proof Hi as [H1 H2 H3 H4 H5 H6 H7 H8 H9 H10 H11 H12 H13].
  assert (Ha : alive (handle (nd n s)) = true) by (by destruct Hh as [-> | ->]).
  assert (Hnd : forall m, nd m (set_cons c (drop n s)) = if m =? n then set_handle EGone (release (nd m s)) else nd m s) by (intros m; apply (li_nd_upd n (fun y => set_handle EGone (release y)) m s Hlt)).
  assert (El : length (nodes (set_cons c (drop n s))) = length (nodes s)) by apply length_alter.
  split; rewrite ?El; auto.
  - change (tail (set_cons c (drop n s))) with (tail s). rewrite Hnd. by destruct (tail s =? n).
  - intros m v Hm. rewrite Hnd. specialize (H5 m v Hm). by destruct (m =? n).
  - intros m Hm. change (chain (set_cons c (drop n s))) with (chain s). rewrite Hnd. destruct (Nat.eqb_spec m n) as [->|]; [|by apply H6].
    destruct (li_refs n s Hi Hm Ha) as (l & Hr & Hl). exists l. split; [|done]. simpl. rewrite Hr.
    pose proof (li_count_range (bool_decide (n ∈ chain s)) true). rewrite li_enc_sub by (simpl in *; pose proof (b2z_nonneg (bool_decide (n ∈ chain s))); lia). f_equal. lia.
  - intros m Hm. change (chain (set_cons c (drop n s))) with (chain s). rewrite Hnd. destruct (Nat.eqb_spec m n) as [->|]; [|by apply H7].
    destruct (li_refs n s Hi Hm Ha) as (l & Hr & Hl1 & Hl2). simpl. rewrite Hr, (H7 n Hm), Ha, andb_false_r. simpl. rewrite andb_true_r.
    case_bool_decide as Hin; [by destruct l|]. by rewrite (Hl2 Hin).
  - intros i a b Ha' Hb. change (pending b (set_cons c (drop n s))) with (pending b s). rewrite !Hnd. pose proof (H8 i a b Ha' Hb).
    by destruct (pending b s), (a =? n), (b =? n).
  - change (head (set_cons c (drop n s))) with (head s). rewrite Hnd. by destruct (_ =? n).
  - intros t x Hx. specialize (H10 t x Hx). destruct x; try done. destruct H10 as [Hf Hp]. split; [done|]. rewrite Hnd. by destruct (_ =? n).
  - intros t x m Hx Hb. destruct (H11 t x m Hx Hb) as [Hlt' Hhp]. split; [done|]. rewrite Hnd. destruct (Nat.eqb_spec m n) as [->|]; [|done].
    destruct Hh; congruence.
Qed.

(** The consumer answers; the list it refines does not change. *)
Lemma li_inv_record s c k o :
  inv s -> spec_step (gs s) k = Some (Spec (q (gs s)) (answers (gs s) ++ [o])) -> cons_ok (set_cons c (record k s)) -> inv (set_cons c (record k s)).
Proof.
  intros Hi Hk Hc. pose proof Hi as [H1 H2 H3 H4 H5 H6 H7 H8 H9 H10 H11 H12 H13].
  assert (Eg : gs (set_cons c (record k s)) = Spec (q (gs s)) (answers (gs s) ++ [o])) by (simpl; by rewrite Hk).
  assert (Ech : chain (set_cons c (record k s)) = chain s) by (unfold chain; by rewrite Eg).
  split; rewrite ?Ech, ?Eg; auto.
  intros t x Hx. specialize (H10 t x Hx). destruct x; simpl in *; unfold follows; rewrite ?Ech; try done.
Qed.
Lemma li_inv_answer s c k o :
  inv s -> spec_step (gs s) k = Some (Spec (q (gs s)) (answers (gs s) ++ [o])) -> c = CDone o -> inv (set_cons c (record k s)).
Proof.
  intros Hi Hk ->. apply (li_inv_record s _ k o Hi Hk). unfold cons_ok. simpl. rewrite Hk. simpl. apply last_snoc.
Qed.

(** The tail's link bit is cleared. *)
Lemma li_inv_clear s : inv s -> inv (upd (tail s) clear_link s) /\ is_link (nd (tail s) (upd (tail s) clear_link s)) = false.
Proof.
  intros Hi. pose proof Hi as [H1 H2 H3 H4 H5 H6 H7 H8 H9 H10 H11 H12 H13].
  assert (Ht : tail s ∈ chain s) by apply list_elem_of_here. pose proof (H3 _ Ht) as Hlt.
  assert (Hnd : forall m, nd m (upd (tail s) clear_link s) = if m =? tail s then clear_link (nd m s) else nd m s) by (intros m; apply (li_nd_upd _ _ m s Hlt)).
  destruct (H6 _ Hlt) as (l & Hr & _). pose proof (li_count_range (bool_decide (tail s ∈ chain s)) (alive (handle (nd (tail s) s)))) as Hc.
  assert (Hlk : is_link (clear_link (nd (tail s) s)) = false) by (unfold is_link, clear_link; cbn [refs]; rewrite Hr, li_enc_clear, li_enc_linked; done).
  split; [|by rewrite Hnd, Nat.eqb_refl].
  split; rewrite ?li_length_upd; auto.
  - change (tail (upd (tail s) clear_link s)) with (tail s). rewrite Hnd, Nat.eqb_refl. done.
  - intros m v Hm. rewrite Hnd. specialize (H5 m v Hm). by destruct (m =? tail s).
  - intros m Hm. change (chain (upd (tail s) clear_link s)) with (chain s). rewrite Hnd. destruct (Nat.eqb_spec m (tail s)) as [->|]; [|by apply H6].
    exists false. cbn [clear_link refs handle]. rewrite Hr, li_enc_clear by done. split_and!; [done| |done].
    intros Hq. exfalso. unfold chain in H2. by apply NoDup_cons in H2 as [? _].
  - intros m Hm. change (chain (upd (tail s) clear_link s)) with (chain s). rewrite Hnd. pose proof (H7 m Hm). by destruct (m =? tail s).
  - intros i a b Ha Hb. change (pending b (upd (tail s) clear_link s)) with (pending b s). rewrite !Hnd. pose proof (H8 i a b Ha Hb).
    by destruct (pending b s), (a =? tail s), (b =? tail s).
  - change (head (upd (tail s) clear_link s)) with (head s). rewrite Hnd. by destruct (_ =? tail s).
  - intros t x Hx. specialize (H10 t x Hx). destruct x; try done. destruct H10 as [Hf Hp]. split; [done|]. rewrite Hnd. by destruct (_ =? tail s).
  - intros t x m Hx Hb. destruct (H11 t x m Hx Hb) as [Hlt' Hhp]. split; [done|]. rewrite Hnd. by destruct (m =? tail s).
  - unfold cons_ok in *. change (cons (upd (tail s) clear_link s)) with (cons s). rewrite li_length_upd. destruct (cons s) as [|k|n r| | |]; try done.
    + destruct H13 as [Hq Hk]. split; [done|]. change (tail (upd (tail s) clear_link s)) with (tail s). rewrite Hnd, Nat.eqb_refl. by destruct k.
    + rewrite Hnd. by destruct (n =? tail s).
Qed.

(** The front of the list, when its push is linked. *)
Lemma li_front s x v l : inv s -> q (gs s) = (x, v) :: l ->
  value (nd x s) = Some v /\ x <> tail s /\ x < length (nodes s) /\ freed (nd x s) = false /\ chain s = tail s :: x :: map fst l /\
  (if pending x s then next (nd (tail s) s) = None else next (nd (tail s) s) = Some x).
Proof.
  intros Hi Hq. assert (Ech : chain s = tail s :: x :: map fst l) by (unfold chain; by rewrite Hq).
  assert (Hx : x ∈ chain s) by (rewrite Ech; right; apply list_elem_of_here). split_and!.
  - apply (iv_val _ Hi). rewrite Hq. apply list_elem_of_here.
  - pose proof (iv_nodup _ Hi) as Hn. rewrite Ech in Hn. apply NoDup_cons in Hn as [Hn _]. intros ->. apply Hn, list_elem_of_here.
  - by apply (iv_bound _ Hi).
  - by apply li_ch_alive.
  - done.
  - pose proof (iv_link _ Hi 0 (tail s) x) as Hl. rewrite Ech in Hl. specialize (Hl eq_refl eq_refl). destruct (pending x s); [done|apply Hl].
Qed.

(** *** The consumer takes the front *)
Section advance.
Context (s : Queue) (f : T -> bool) (x : nat) (v : T) (l : list (nat * T)).
Context (Hi : inv s) (Hlk : is_link (nd (tail s) s) = false) (Hq : q (gs s) = (x, v) :: l) (Hp : pending x s = false) (Hf : f v = true).

Let s' := advance v x (record (STake f) s).
Lemma li_adv_gs : gs s' = Spec l (answers (gs s) ++ [Some v]).
Proof. unfold s', advance, record. simpl. rewrite Hq. simpl. by rewrite Hf. Qed.
Lemma li_adv_chain : chain s = tail s :: chain s'.
Proof. unfold chain at 2. rewrite li_adv_gs. by destruct (li_front s x v l Hi Hq) as (_ & _ & _ & _ & -> & _). Qed.
Lemma li_adv_notin : tail s ∉ chain s'.
Proof. pose proof (iv_nodup _ Hi) as Hn. rewrite li_adv_chain in Hn. by apply NoDup_cons in Hn as [? _]. Qed.
Lemma li_adv_len : length (nodes s') = length (nodes s).
Proof. unfold s', advance. simpl. by rewrite !length_alter. Qed.
Lemma li_adv_nd m : nd m s' = if m =? tail s then release (nd m s) else if m =? x then take (set_prev None (nd m s)) else nd m s.
Proof.
  destruct (li_front s x v l Hi Hq) as (_ & Hne & Hlt & _). pose proof (iv_bound _ Hi (tail s) (list_elem_of_here _ _)) as Hlt'.
  change (nd m s') with (nd m (upd (tail s) release (set_tail x (upd x (fun y => take (set_prev None y)) s)))).
  rewrite li_nd_upd by (simpl; by rewrite length_alter). change (nd m (set_tail x ?y)) with (nd m y). rewrite li_nd_upd by done.
  destruct (Nat.eqb_spec m (tail s)) as [->|]; [|done]. by rewrite (proj2 (Nat.eqb_neq (tail s) x)) by done.
Qed.
Lemma li_adv_in m : m <> tail s -> (m ∈ chain s' <-> m ∈ chain s).
Proof. intros Hne. rewrite li_adv_chain, elem_of_cons. naive_solver. Qed.
Lemma li_adv_follows a b : follows a b s -> b <> x -> follows a b s'.
Proof.
  intros (i & Ha & Hb) Hne. rewrite li_adv_chain in Ha, Hb. destruct i as [|i]; [|by exists i]. exfalso. apply Hne.
  unfold chain in Hb. rewrite li_adv_gs in Hb. simpl in Hb. unfold s', advance in Hb. simpl in Hb. congruence.
Qed.
Lemma li_adv_pending m : pending m s' = pending m s.
Proof. done. Qed.

Lemma li_inv_advance : inv s'.
Proof.
  destruct (li_front s x v l Hi Hq) as (Hvx & Hne & Hlt & _ & _ & _). pose proof li_adv_nd as Hnd. pose proof li_adv_chain as Ech. pose proof li_adv_in as Hin. pose proof li_adv_notin as Hno.
  pose proof Hi as [H1 H2 H3 H4 H5 H6 H7 H8 H9 H10 H11 H12 H13].
  assert (Hxne : (tail s =? x) = false) by (by apply Nat.eqb_neq).
  assert (Hold : forall m, m ∈ chain s' -> (m =? tail s) = false) by (intros m Hm; apply Nat.eqb_neq; by intros ->).
  assert (Hfst : map fst (q (gs s)) = x :: map fst (q (gs s'))) by (by rewrite li_adv_gs, Hq).
  split; rewrite ?li_adv_len.
  - rewrite Ech in H1. change (head s') with (head s). unfold chain in *. simpl in *. done.
  - rewrite Ech in H2. by apply NoDup_cons in H2 as [_ ?].
  - intros m Hm. apply H3. rewrite Ech. by right.
  - change (tail s') with x. rewrite Hnd, (proj2 (Nat.eqb_neq _ _)) by done. by rewrite Nat.eqb_refl.
  - intros m w Hm. assert (Hmq : (m, w) ∈ q (gs s)) by (rewrite li_adv_gs in Hm; rewrite Hq; by right). rewrite Hnd.
    assert (Hmc : m ∈ map fst (q (gs s'))) by (apply li_ch_q; eauto). rewrite Hold by (by right). rewrite (proj2 (Nat.eqb_neq _ _)); [by apply H5|].
    intros ->. rewrite Ech in H2. apply NoDup_cons in H2 as [_ H2]. unfold chain in H2. by apply NoDup_cons in H2 as [? _].
  - intros m Hm. destruct (H6 m Hm) as (k & Hr & Hk1 & Hk2). rewrite Hnd. destruct (Nat.eqb_spec m (tail s)) as [->|Hnt].
    + exists false. rewrite (bool_decide_eq_false_2 _ Hno). rewrite bool_decide_eq_true_2 in Hr by apply list_elem_of_here.
      assert (k = false) as ->. { unfold is_link in Hlk. rewrite Hr, li_enc_linked in Hlk; [done|]. apply (li_count_range true). }
      cbn [release refs handle]. rewrite Hr. split_and!; [|intros Hq'; destruct Hno; by right|done].
      rewrite li_enc_sub by (pose proof (li_count_range true (alive (handle (nd (tail s) s)))); pose proof (b2z_nonneg (alive (handle (nd (tail s) s)))); simpl in *; lia).
      f_equal. simpl. lia.
    + exists k. rewrite (bool_decide_ext _ _ (Hin m Hnt)). split_and!.
      * by destruct (m =? x).
      * intros Hm'. apply Hk1. rewrite Hfst. by right.
      * intros Hm'. apply Hk2. by rewrite <-Hin.
  - intros m Hm. rewrite Hnd. pose proof (H7 m Hm) as Hfr. destruct (Nat.eqb_spec m (tail s)) as [->|Hnt].
    + destruct (H6 _ Hm) as (k & Hr & _). rewrite bool_decide_eq_true_2 in Hr by apply list_elem_of_here.
      assert (k = false) as ->. { unfold is_link in Hlk. rewrite Hr, li_enc_linked in Hlk; [done|]. apply (li_count_range true). }
      cbn [release freed handle]. rewrite Hr, Hfr, (bool_decide_eq_false_2 _ Hno), (bool_decide_eq_true_2 (tail s ∈ chain s)) by apply list_elem_of_here. by destruct (alive _).
    + rewrite (bool_decide_ext _ _ (Hin m Hnt)). by destruct (m =? x).
  - intros i a b Ha Hb. assert (Ha' : a ∈ chain s') by (by eapply list_elem_of_lookup_2). assert (Hb' : b ∈ chain s') by (by eapply list_elem_of_lookup_2).
    assert (Hbx : b <> x). { intros ->. assert (H0 : chain s' !! 0 = Some x) by done. rewrite Ech in H2. apply NoDup_cons in H2 as [_ H2].
      by pose proof (NoDup_lookup _ _ _ _ H2 Hb H0). }
    rewrite li_adv_pending, !Hnd, (Hold a Ha'), (Hold b Hb'), (proj2 (Nat.eqb_neq b x)) by done.
    pose proof (H8 (S i) a b) as Hl. rewrite Ech in Hl. specialize (Hl Ha Hb). by destruct (pending b s), (a =? x).
  - change (head s') with (head s). rewrite Hnd. destruct (head s =? tail s); [done|]. by destruct (head s =? x).
  - intros t y Hy. specialize (H10 t y Hy). destruct y as [|n p|n p| | |]; try done; simpl in *.
    + apply li_adv_follows; [done|]. intros ->. assert (E : pending x s = true); [|congruence]. apply li_pending_has. exists t, (PPrev x p). split; [done|]. by rewrite <-(Nat.eqb_refl x).
    + destruct H10 as [Hfo Hpv]. assert (Hnx : n <> x).
      { intros ->. assert (E : pending x s = true); [|congruence]. apply li_pending_has. exists t, (PLink x p). split; [done|]. by rewrite <-(Nat.eqb_refl x). }
      split; [by apply li_adv_follows|]. rewrite Hnd, (proj2 (Nat.eqb_neq n x)) by done. by destruct (n =? tail s).
  - intros t y m Hy Hb. destruct (H11 t y m Hy Hb) as [? Hh]. split; [done|]. rewrite Hnd. destruct (m =? tail s); [done|]. by destruct (m =? x).
  - apply H12.
  - unfold cons_ok. change (cons s') with (CDone (Some v)). rewrite li_adv_gs. apply last_snoc.
Qed.
End advance.

(** *** Pop, pop_if, peek *)
Lemma li_inv_set_cons s c : inv s -> cons_ok (set_cons c s) -> inv (set_cons c s).
Proof. intros [H1 H2 H3 H4 H5 H6 H7 H8 H9 H10 H11 H12 H13] Hc. by split. Qed.

Lemma li_tail_count s : inv s -> has_count (nd (tail s) s) = true /\ freed (nd (tail s) s) = false.
Proof.
  intros Hi. assert (Ht : tail s ∈ chain s) by apply list_elem_of_here. split; [|by apply li_ch_alive].
  destruct (iv_refs _ Hi (tail s) (iv_bound _ Hi _ Ht)) as (l & Hr & _). rewrite bool_decide_eq_true_2 in Hr by done.
  unfold has_count. rewrite Hr. apply li_enc_count. by destruct (alive _).
Qed.

Lemma li_inv_start_pop s k : inv s -> at_home (cons s) = true -> inv (start_pop k s).
Proof.
  intros Hi Hc. unfold start_pop. destruct (li_tail_count s Hi) as [Hct Hfr]. destruct (Nat.eqb_spec (head s) (tail s)) as [He|Hne].
  - apply li_ch_empty in He; [|done]. apply (li_inv_answer s _ _ None); try done. by destruct k; simpl; rewrite He.
  - assert (Hq : q (gs s) <> []) by (intros E; by apply Hne, li_ch_empty). destruct k; [|by apply li_inv_set_cons..].
    rewrite Hfr, Hct. destruct (li_inv_clear s Hi) as [Hi' Hl']. by apply li_inv_set_cons.
Qed.

Lemma li_inv_pop s k : inv s -> cons s = CSpin k -> inv (pop k s).
Proof.
  intros Hi Hc. pose proof (iv_cons _ Hi) as Hok. unfold cons_ok in Hok. rewrite Hc in Hok. destruct Hok as [Hq Hk].
  destruct (li_tail_count s Hi) as [Hct Hfr]. destruct (q (gs s)) as [|[x v] l] eqn:El; [done|].
  destruct (li_front s x v l Hi El) as (Hv & Hne & Hlt & Hfx & _ & Hn). unfold pop. rewrite Hfr.
  destruct (pending x s) eqn:Hp; rewrite Hn; [done|]. rewrite Hfx, (proj1 (iv_tail _ Hi)), Hv. destruct k as [|f|].
  - by apply (li_inv_advance s (fun _ => true) x v l).
  - destruct (f v) eqn:Hf.
    + rewrite Hct. destruct (li_inv_clear s Hi) as [Hi' Hl'].
      change (record (call_of (KPopIf f)) (upd (tail s) clear_link s)) with (record (STake f) (upd (tail s) clear_link s)).
      by apply (li_inv_advance (upd (tail s) clear_link s) f x v l).
    + apply (li_inv_answer s _ _ None); try done. simpl. rewrite El. simpl. by rewrite Hf.
  - apply (li_inv_answer s _ _ (Some v)); try done. simpl. by rewrite El.
Qed.

(** *** Removal *)
Lemma li_index (n i : nat) (v : T) l : NoDup (map fst l) -> l !! i = Some (n, v) -> index_of n l = Some i.
Proof.
  revert i. induction l as [|x l IH]; intros [|i] Hn Hl; try done; simpl in *.
  - injection Hl as ->. simpl. by rewrite Nat.eqb_refl.
  - apply NoDup_cons in Hn as [Hx Hn]. rewrite (IH i Hn Hl). destruct (Nat.eqb_spec x.1 n) as [E|]; [|done]. exfalso. apply Hx.
    rewrite E. eapply li_ch_q_list. by eapply list_elem_of_lookup_2.
Qed.

Lemma li_nd_mark n s m : n < length (nodes s) -> nd m (upd n (set_handle ERemove) s) = if m =? n then set_handle ERemove (nd m s) else nd m s.
Proof. apply li_nd_upd. Qed.
(** The consumer takes the entry. *)
Lemma li_inv_mark s n : inv s -> n < length (nodes s) -> handle (nd n s) = EHeld -> at_home (cons s) = true -> inv (upd n (set_handle ERemove) s).
Proof.
  intros Hi Hlt Hh Hc. pose proof (fun m => li_nd_mark n s m Hlt) as Hnd. pose proof Hi as [H1 H2 H3 H4 H5 H6 H7 H8 H9 H10 H11 H12 H13].
  split; rewrite ?li_length_upd; auto.
  - change (tail (upd _ _ s)) with (tail s). rewrite Hnd. by destruct (tail s =? n).
  - intros m v Hm. rewrite Hnd. pose proof (H5 m v Hm). by destruct (m =? n).
  - intros m Hm. rewrite Hnd. change (chain (upd _ _ s)) with (chain s). pose proof (H6 m Hm) as Hr. destruct (Nat.eqb_spec m n) as [->|]; [|done]. by rewrite Hh in Hr.
  - intros m Hm. rewrite Hnd. change (chain (upd _ _ s)) with (chain s). pose proof (H7 m Hm) as Hr. destruct (Nat.eqb_spec m n) as [->|]; [|done]. by rewrite Hh in Hr.
  - intros i a b Ha Hb. change (pending b (upd _ _ s)) with (pending b s). rewrite !Hnd. pose proof (H8 i a b Ha Hb). by destruct (pending b s), (a =? n), (b =? n).
  - change (head (upd _ _ s)) with (head s). rewrite Hnd. by destruct (head s =? n).
  - intros t x Hx. specialize (H10 t x Hx). destruct x; try done. destruct H10 as [Hf Hp]. split; [done|]. rewrite Hnd. by destruct (_ =? n).
  - intros t x m Hx Hb. destruct (H11 t x m Hx Hb) as [Hlt' Hhp]. split; [done|]. rewrite Hnd. destruct (Nat.eqb_spec m n) as [->|]; [congruence|done].
  - unfold cons_ok in *. change (cons (upd _ _ s)) with (cons s). by destruct (cons s).
Qed.

(** A node between two others is unlinked. *)
Section unlink.
Context (s : Queue) (n p m i : nat) (v : T).
Context (Hi : inv s) (Hh : handle (nd n s) = ERemove) (Hqn : q (gs s) !! i = Some (n, v)) (Hp : chain s !! i = Some p) (Hm : next (nd n s) = Some m).

Let s' := set_cons (CDrop n (value (nd n s))) (record (SRemove n true)
            (upd n (fun y => release (take y)) (upd p (set_next m) (upd m (set_prev (Some p)) (upd n clear_link s))))).

Lemma li_un_n : chain s !! S i = Some n.
Proof. unfold chain. simpl. by rewrite list_lookup_fmap, Hqn. Qed.
Lemma li_un_npend : pending n s = false.
Proof. destruct (pending n s) eqn:E; [|done]. apply li_pending_busy in E; [congruence|done]. Qed.
(** What follows is linked: its push does not hold it any more. *)
Lemma li_un_m : chain s !! S (S i) = Some m /\ pending m s = false.
Proof.
  destruct (chain s !! S (S i)) as [m'|] eqn:Hm'.
  - pose proof (iv_link _ Hi _ _ _ li_un_n Hm') as Hl. rewrite Hm in Hl. destruct (pending m' s) eqn:E; [done|]. destruct Hl as [[= <-] _]. done.
  - exfalso. apply lookup_ge_None in Hm'. pose proof (lookup_lt_Some _ _ _ li_un_n). assert (Hl : chain s !! S i = Some (head s)).
    { rewrite <-(iv_last _ Hi), last_lookup. f_equal. lia. } assert (n = head s) as E by (pose proof li_un_n; congruence). pose proof (iv_end _ Hi) as He. rewrite <-E in He. congruence.
Qed.
Lemma li_un_idx j a k b : chain s !! j = Some a -> chain s !! k = Some b -> a = b -> j = k.
Proof. intros Ha Hb ->. by eapply NoDup_lookup; [apply Hi|..]. Qed.
Lemma li_un_lt a j : chain s !! j = Some a -> a < length (nodes s).
Proof. intros Ha. apply (iv_bound _ Hi). by eapply list_elem_of_lookup_2. Qed.
Lemma li_un_ne : n <> p /\ n <> m /\ p <> m.
Proof.
  destruct li_un_m as [Hm' _]. split_and!; intros E.
  - pose proof (li_un_idx _ _ _ _ li_un_n Hp E). lia.
  - pose proof (li_un_idx _ _ _ _ li_un_n Hm' E). lia.
  - pose proof (li_un_idx _ _ _ _ Hp Hm' E). lia.
Qed.
Lemma li_un_gs : gs s' = Spec (delete i (q (gs s))) (answers (gs s) ++ [Some v]).
Proof.
  unfold s', record. cbn [gs set_cons upd]. unfold spec_step. pose proof (iv_nodup _ Hi) as Hn. unfold chain in Hn. apply NoDup_cons in Hn as [_ Hn].
  rewrite (li_index n i v _ Hn Hqn), Hqn. destruct li_un_m as [Hm' _]. apply lookup_lt_Some in Hm'. unfold chain in Hm'. simpl in Hm'. rewrite length_map in Hm'.
  destruct (Nat.ltb_spec (S i) (length (q (gs s)))); [done|lia].
Qed.
Lemma li_un_len : length (nodes s') = length (nodes s).
Proof. unfold s'. simpl. by rewrite !length_alter. Qed.
Lemma li_un_nd a : nd a s' = if a =? n then release (take (clear_link (nd a s))) else if a =? p then set_next m (nd a s) else if a =? m then set_prev (Some p) (nd a s) else nd a s.
Proof.
  destruct li_un_ne as (H1 & H2 & H3). pose proof (li_un_lt _ _ li_un_n). pose proof (li_un_lt _ _ Hp). pose proof (li_un_lt _ _ (proj1 li_un_m)).
  change (nd a s') with (nd a (upd n (fun y => release (take y)) (upd p (set_next m) (upd m (set_prev (Some p)) (upd n clear_link s))))).
  rewrite !li_nd_upd by (rewrite ?li_length_upd; done).
  destruct (Nat.eqb_spec a n) as [->|]; [by rewrite (proj2 (Nat.eqb_neq n p)), (proj2 (Nat.eqb_neq n m)) by done|].
  destruct (Nat.eqb_spec a p) as [->|]; [by rewrite (proj2 (Nat.eqb_neq p m)) by done|done].
Qed.
Lemma li_un_chain : chain s' = delete (S i) (chain s).
Proof. unfold chain. rewrite li_un_gs. cbn [q]. simpl. f_equal. apply list_fmap_delete. Qed.
Lemma li_un_lookup j : chain s' !! j = if j <? S i then chain s !! j else chain s !! S j.
Proof. rewrite li_un_chain. destruct (Nat.ltb_spec j (S i)); [by apply list_lookup_delete_lt|by apply list_lookup_delete_ge]. Qed.
Lemma li_un_in a : (a ∈ chain s' <-> (a ∈ chain s /\ a <> n)).
Proof.
  split.
  - intros [j Hj]%list_elem_of_lookup_1. rewrite li_un_lookup in Hj. destruct (Nat.ltb_spec j (S i)); (split; [by eapply list_elem_of_lookup_2|intros ->; pose proof (li_un_idx _ _ _ _ Hj li_un_n eq_refl); lia]).
  - intros [[j Hj]%list_elem_of_lookup_1 Hne]. assert (j <> S i) by (intros ->; pose proof li_un_n; congruence).
    destruct (decide (j < S i)); [apply (list_elem_of_lookup_2 _ j)|apply (list_elem_of_lookup_2 _ (pred j))]; rewrite li_un_lookup.
    + by rewrite (proj2 (Nat.ltb_lt _ _)).
    + rewrite (proj2 (Nat.ltb_ge _ _)) by lia. by replace (S (pred j)) with j by lia.
Qed.

Lemma li_un_nodup : NoDup (chain s').
Proof.
  apply NoDup_alt. intros j k a Hj Hk. rewrite li_un_lookup in Hj, Hk.
  destruct (Nat.ltb_spec j (S i)), (Nat.ltb_spec k (S i)); pose proof (li_un_idx _ _ _ _ Hj Hk eq_refl); lia.
Qed.
Lemma li_un_follows a b : pending b s = true -> follows a b s -> follows a b s'.
Proof.
  intros Hb (j & Ha & Hj). destruct li_un_m as [Hm' Hmp]. pose proof li_un_n as Hn. pose proof li_un_npend as Hnp.
  assert (j <> i) by (intros ->; congruence). assert (j <> S i) by (intros ->; congruence).
  destruct (decide (j < i)); [exists j|exists (pred j)]; rewrite !li_un_lookup.
  - rewrite !(proj2 (Nat.ltb_lt _ _)) by lia. done.
  - rewrite !(proj2 (Nat.ltb_ge _ _)) by lia. replace (S (pred j)) with j by lia. done.
Qed.
Lemma li_un_link j a b : chain s' !! j = Some a -> chain s' !! S j = Some b ->
  if pending b s then next (nd a s') = None else next (nd a s') = Some b /\ prev (nd b s') = Some a.
Proof.
  destruct li_un_m as [Hm' Hmp], li_un_ne as (Hnp & Hnm & Hpm). rewrite !li_un_lookup. intros Ha Hb. rewrite !li_un_nd.
  assert (Hk : forall k c, chain s !! k = Some c -> (c =? n) = (k =? S i) /\ (c =? p) = (k =? i) /\ (c =? m) = (k =? S (S i))).
  { intros k c Hc. assert (He : forall d z, chain s !! z = Some d -> (c =? d) = (k =? z)); [|split_and!; apply He; [apply li_un_n|apply Hp|apply Hm']].
    intros d z Hd. destruct (Nat.eqb_spec c d) as [E|Hne], (Nat.eqb_spec k z) as [E'|Hne']; try done; [by destruct Hne'; eapply li_un_idx|subst; congruence]. }
  destruct (Nat.ltb_spec j (S i)), (Nat.ltb_spec (S j) (S i)); try lia.
  - destruct (Hk _ _ Ha) as (-> & -> & ->), (Hk _ _ Hb) as (-> & -> & ->). pose proof (iv_link _ Hi j a b Ha Hb) as Hl.
    rewrite (proj2 (Nat.eqb_neq j (S i))), (proj2 (Nat.eqb_neq j i)), (proj2 (Nat.eqb_neq j (S (S i)))), (proj2 (Nat.eqb_neq (S j) (S i))), (proj2 (Nat.eqb_neq (S j) (S (S i)))) by lia.
    destruct (pending b s); [done|]. by destruct (S j =? i).
  - assert (j = i) as -> by lia. assert (a = p) as -> by congruence. assert (b = m) as -> by congruence.
    rewrite Hmp, !Nat.eqb_refl, (proj2 (Nat.eqb_neq p n)), (proj2 (Nat.eqb_neq m n)), (proj2 (Nat.eqb_neq m p)) by done. done.
  - destruct (Hk _ _ Ha) as (-> & -> & ->), (Hk _ _ Hb) as (-> & -> & ->). pose proof (iv_link _ Hi (S j) a b Ha Hb) as Hl.
    rewrite (proj2 (Nat.eqb_neq (S j) (S i))), (proj2 (Nat.eqb_neq (S j) i)), (proj2 (Nat.eqb_neq (S (S j)) (S i))), (proj2 (Nat.eqb_neq (S (S j)) i)), (proj2 (Nat.eqb_neq (S (S j)) (S (S i)))) by lia.
    destruct (pending b s); by destruct (S j =? S (S i)).
Qed.

Lemma li_un_refs : refs (nd n s) = enc true 2.
Proof.
  pose proof li_un_n as Hn. assert (Hin : n ∈ chain s) by (by eapply list_elem_of_lookup_2). destruct (iv_refs _ Hi n (li_un_lt _ _ Hn)) as (l & Hr & Hl & _).
  rewrite Hr, Hh, bool_decide_eq_true_2 by done. rewrite Hl; [done|]. eapply li_ch_q_list. by eapply list_elem_of_lookup_2.
Qed.

Lemma li_inv_unlink : inv s'.
Proof.
  destruct li_un_m as [Hm' Hmp], li_un_ne as (Hnp & Hnm & Hpm). pose proof li_un_n as Hn. pose proof li_un_nd as Hnd. pose proof li_un_npend as Hnpd.
  pose proof Hi as [H1 H2 H3 H4 H5 H6 H7 H8 H9 H10 H11 H12 H13].
  assert (Hnt : n <> tail s) by (intros E; assert (H0 : chain s !! 0 = Some (tail s)) by done; pose proof (li_un_idx _ _ _ _ Hn H0 E); lia).
  assert (Hin : forall a, a <> n -> bool_decide (a ∈ chain s') = bool_decide (a ∈ chain s)) by (intros a Ha; apply bool_decide_ext; rewrite li_un_in; tauto).
  assert (Hout : bool_decide (n ∈ chain s') = false) by (apply bool_decide_eq_false_2; rewrite li_un_in; tauto).
  assert (Hnic : n ∈ chain s) by (by eapply list_elem_of_lookup_2).
  assert (Hrefs : refs (nd n s') = enc false 1 /\ handle (nd n s') = ERemove /\ freed (nd n s') = freed (nd n s)).
  { rewrite Hnd, Nat.eqb_refl. cbn [release take clear_link refs handle freed]. rewrite li_un_refs. split_and!; [done|done|]. apply orb_false_r. }
  assert (Hsame : forall a, a <> n -> value (nd a s') = value (nd a s) /\ refs (nd a s') = refs (nd a s) /\ handle (nd a s') = handle (nd a s) /\ freed (nd a s') = freed (nd a s)).
  { intros a Ha. rewrite Hnd, (proj2 (Nat.eqb_neq _ _)) by done. destruct (a =? p); [done|]. by destruct (a =? m). }
  split; rewrite ?li_un_len.
  - change (head s') with (head s). rewrite last_lookup. pose proof (lookup_lt_Some _ _ _ Hm') as Hlt. rewrite li_un_chain, length_delete by done.
    rewrite <-li_un_chain, li_un_lookup. rewrite (proj2 (Nat.ltb_ge _ _)) by lia. rewrite <-H1, last_lookup. f_equal. lia.
  - apply li_un_nodup.
  - intros a [Ha _]%li_un_in. auto.
  - change (tail s') with (tail s). rewrite (proj1 (Hsame _ (not_eq_sym Hnt))). split; [apply H4|]. rewrite Hnd, (proj2 (Nat.eqb_neq _ _)) by done.
    destruct (tail s =? p); [apply H4|]. destruct (Nat.eqb_spec (tail s) m) as [E|]; [|apply H4]. exfalso.
    assert (H0 : chain s !! 0 = Some (tail s)) by done. pose proof (li_un_idx _ _ _ _ H0 Hm' E). lia.
  - intros a w Ha. assert (Haq : (a, w) ∈ q (gs s)) by (rewrite li_un_gs in Ha; by eapply list_elem_of_delete_inv).
    assert (Hne : a <> n). { intros ->. assert (Hc : n ∈ chain s') by (right; by eapply li_ch_q_list). apply li_un_in in Hc. tauto. }
    rewrite (proj1 (Hsame _ Hne)). auto.
  - intros a Ha. destruct (decide (a = n)) as [->|Hne].
    + destruct Hrefs as (-> & -> & _). rewrite Hout. exists false. split_and!; [done| |done]. intros Hq'. assert (Hc : n ∈ chain s') by (by right). apply li_un_in in Hc. tauto.
    + destruct (Hsame a Hne) as (_ & -> & -> & _). rewrite (Hin a Hne). destruct (H6 a Ha) as (l & Hr & Hl1 & Hl2). exists l. split_and!; [done| |].
      * intros Hq'. apply Hl1. assert (Hc : a ∈ chain s') by (by right). apply li_un_in in Hc as [Hc _]. unfold chain in Hc. apply elem_of_cons in Hc as [E|]; [|done].
        exfalso. rewrite E in Hq'. pose proof li_un_nodup as Hnn. unfold chain in Hnn. by apply NoDup_cons in Hnn as [? _].
      * intros Hc. apply Hl2. intros ?. apply Hc, li_un_in. done.
  - intros a Ha. destruct (decide (a = n)) as [->|Hne].
    + destruct Hrefs as (_ & -> & ->). rewrite andb_false_r. by rewrite (H7 n Ha), (bool_decide_eq_true_2 _ Hnic).
    + destruct (Hsame a Hne) as (_ & _ & -> & ->). by rewrite (Hin a Hne), (H7 a Ha).
  - apply li_un_link.
  - change (head s') with (head s). assert (Hhn : head s <> n) by (intros E; rewrite E in H9; congruence). rewrite Hnd, (proj2 (Nat.eqb_neq _ _)) by done.
    destruct (Nat.eqb_spec (head s) p) as [E|]; [|by destruct (head s =? m)]. exfalso. rewrite <-E in Hp. apply li_ch_last_index in Hp; [|done]. apply lookup_lt_Some in Hn. lia.
  - intros t x Hx. specialize (H10 t x Hx). assert (Hpd : forall b, pends b x = true -> pending b s = true) by (intros b Hb; apply li_pending_has; eauto).
    destruct x as [|b a|b a| | |]; try done; simpl in *; specialize (Hpd b (Nat.eqb_refl b)); [by apply li_un_follows|].
    destruct H10 as [Hf Hpv]. split; [by apply li_un_follows|]. assert (b <> n) by congruence. assert (b <> m) by congruence.
    rewrite Hnd, (proj2 (Nat.eqb_neq b n)), (proj2 (Nat.eqb_neq b m)) by done. by destruct (b =? p).
  - intros t x a Hx Hb. destruct (H11 t x a Hx Hb) as [? Hha]. split; [done|]. assert (Hne : a <> n) by congruence. by destruct (Hsame a Hne) as (_ & _ & -> & _).
  - apply H12.
  - unfold cons_ok. change (cons s') with (CDrop n (value (nd n s))). rewrite li_un_len, li_un_gs. destruct Hrefs as (_ & -> & _). split_and!; [by eapply li_un_lt|done|].
    cbn [answers]. rewrite last_snoc. f_equal. symmetry. apply H5. by eapply list_elem_of_lookup_2.
Qed.
End unlink.

Lemma li_held_spec n s : held n s = true -> n < length (nodes s) /\ handle (nd n s) = EHeld.
Proof.
  unfold held, nd. destruct (nodes s !! n) as [x|] eqn:Hx; [|done]. simpl. intros H. split; [by eapply lookup_lt_Some|]. by destruct (handle x).
Qed.
(** Where a linked node that is not the tail is. *)
Lemma li_place s n p : inv s -> n < length (nodes s) -> handle (nd n s) = EHeld -> is_link (nd n s) = true -> prev (nd n s) = Some p ->
  exists i v, q (gs s) !! i = Some (n, v) /\ chain s !! i = Some p.
Proof.
  intros Hi Hlt Hh Hl Hp. destruct (iv_refs _ Hi n Hlt) as (l & Hr & _ & Hno). unfold is_link in Hl. rewrite Hr, li_enc_linked in Hl by apply li_count_range. subst l.
  assert (Hin : n ∈ chain s) by (destruct (decide (n ∈ chain s)) as [|Hn]; [done|by specialize (Hno Hn)]).
  apply list_elem_of_lookup_1 in Hin as [[|i] Hn].
  - exfalso. simpl in Hn. injection Hn as <-. pose proof (proj2 (iv_tail _ Hi)). congruence.
  - destruct (lookup_lt_is_Some_2 (chain s) i) as [a Ha]; [apply lookup_lt_Some in Hn; lia|]. pose proof (iv_link _ Hi i a n Ha Hn) as Hlk.
    destruct (pending n s) eqn:E; [apply li_pending_busy in E; [congruence|done]|]. destruct Hlk as [_ Hpv]. assert (a = p) as -> by congruence.
    unfold chain in Hn. simpl in Hn. rewrite list_lookup_fmap in Hn. destruct (q (gs s) !! i) as [[n' v]|] eqn:Hq; [|done]. simpl in Hn. injection Hn as ->. eauto.
Qed.

Lemma li_inv_remove s n : inv s -> at_home (cons s) = true -> held n s = true -> inv (remove n s).
Proof.
  intros Hi Hc [Hlt Hh]%li_held_spec. pose proof (li_inv_mark s n Hi Hlt Hh Hc) as Hi1. pose proof (li_nd_mark n s n Hlt) as Hnd. rewrite Nat.eqb_refl in Hnd.
  assert (Hgive : inv (set_cons (CDrop n None) (record (SRemove n false) (upd n (set_handle ERemove) s)))).
  { apply (li_inv_record _ _ _ None Hi1); [done|]. unfold cons_ok. simpl. rewrite length_alter, last_snoc. split_and!; [done| |done].
    change (handle (nd n (upd n (set_handle ERemove) s)) = ERemove). by rewrite Hnd. }
  unfold remove. assert (Hfr : freed (nd n s) = false) by (rewrite (iv_freed _ Hi n Hlt), Hh; by rewrite andb_false_r). rewrite Hfr.
  destruct (is_link (nd n s)) eqn:Hl; [|exact Hgive]. destruct (prev (nd n s)) as [p|] eqn:Hp; [|exact Hgive]. destruct (next (nd n s)) as [m|] eqn:Hm; [|exact Hgive].
  destruct (li_place s n p Hi Hlt Hh Hl Hp) as (i & v & Hq & Hpi). simpl negb. cbn iota.
  assert (Hh1 : handle (nd n (upd n (set_handle ERemove) s)) = ERemove) by (by rewrite Hnd). assert (Hm1 : next (nd n (upd n (set_handle ERemove) s)) = Some m) by (by rewrite Hnd).
  destruct (li_un_m _ n m i v Hi1 Hq Hm1) as [Hm' _]. destruct (li_un_ne _ n p m i v Hi1 Hq Hpi Hm1) as (Hnp & Hnm & _).
  assert (Hfree : forall a j, a <> n -> chain s !! j = Some a -> freed (nd a (upd n (set_handle ERemove) s)) = false).
  { intros a j Hne Ha. rewrite li_nd_mark, (proj2 (Nat.eqb_neq _ _)) by done. apply li_ch_alive; [done|]. by eapply list_elem_of_lookup_2. }
  rewrite (Hfree p i), (Hfree m (S (S i))) by done. simpl orb. cbn iota.
  pose proof (li_inv_unlink (upd n (set_handle ERemove) s) n p m i v Hi1 Hh1 Hq Hpi Hm1) as Hu. rewrite Hnd in Hu. exact Hu.
Qed.

Lemma li_release_link s n : inv s -> n < length (nodes s) -> handle (nd n s) = EHeld ->
  negb (Z.land (refs (nd n s)) (Z.lnot REF_COUNT_MASK) =? 0)%Z = false ->
  negb (Z.land (refs (release (nd n s))) (Z.lnot REF_COUNT_MASK) =? 0)%Z = false.
Proof.
  intros Hi Hlt Hh Hl. destruct (li_refs n s Hi Hlt) as (l & Hr & _); [by rewrite Hh|]. cbn [release refs]. rewrite Hr in *.
  pose proof (li_count_range (bool_decide (n ∈ chain s)) true) as Hc. simpl b2z in Hc. rewrite li_enc_linked in Hl by done. subst l.
  pose proof (b2z_nonneg (bool_decide (n ∈ chain s))). rewrite li_enc_sub by lia. apply li_enc_linked. lia.
Qed.
Lemma li_inv_step s e s' : inv s -> step s e = Some s' -> inv s'.
Proof.
  intros Hi Hs. destruct e as [t v|t|k|n| |n]; simpl in Hs.
  - destruct (prods s !! t) as [x|] eqn:Hx; [|done]. destruct x; try done; injection Hs as <-; by eapply li_inv_start_push.
  - destruct (prods s !! t) as [x|] eqn:Hx; [|done]. destruct x; try done; injection Hs as <-; [by apply li_inv_prev| |by eapply li_inv_done].
    destruct (li_inv_link s t n p Hi Hx) as [-> ?]. done.
  - destruct (at_home (cons s)) eqn:Hc; [|done]. injection Hs as <-. by apply li_inv_start_pop.
  - destruct (at_home (cons s)) eqn:Hc, (held n s) eqn:Hh; try done. injection Hs as <-. by apply li_inv_remove.
  - pose proof (iv_cons _ Hi) as Hok. unfold cons_ok in Hok. destruct (cons s) as [|k|n r| | |] eqn:Hc; try done; injection Hs as <-; [by apply li_inv_pop|].
    destruct Hok as (Hlt & Hh & Ha). apply li_inv_drop; auto.
  - destruct (held n s) eqn:Hh; [|done]. injection Hs as <-. apply li_held_spec in Hh as [Hlt Hh].
    replace (drop n s) with (set_cons (cons s) (drop n s)) by (by destruct s). apply li_inv_drop; auto.
    pose proof (iv_cons _ Hi) as Hok. unfold cons_ok in *. simpl. rewrite length_alter. destruct (cons s) as [|k|m r| | |] eqn:Hc; try done.
    + destruct Hok as [Hq Hk]. split; [done|]. destruct k; try done. unfold is_link in *. change (nd (tail s) (set_cons ?c ?y)) with (nd (tail s) y).
      unfold drop. rewrite li_nd_upd by done. destruct (Nat.eqb_spec (tail s) n) as [E|]; [|done]. rewrite E in *. exact (li_release_link s n Hi Hlt Hh Hk).
    + destruct Hok as (Hm & Hr & Ha). split_and!; [done| |done]. change (nd m (set_cons ?c ?y)) with (nd m y). unfold drop. rewrite li_nd_upd by done.
      destruct (Nat.eqb_spec m n) as [->|]; [congruence|done].
Qed.

Lemma li_inv_init n : inv (new n).
Proof.
  assert (Hid : forall t x, prods (new n) !! t = Some x -> x = PIdle) by (intros t x [-> _]%lookup_replicate; done).
  assert (Hch : chain (new n) = [0]) by done.
  split; rewrite ?Hch; try done.
  - apply NoDup_singleton.
  - intros m ->%list_elem_of_singleton. simpl. lia.
  - by intros m v ?%not_elem_of_nil.
  - intros m Hm. simpl in Hm. assert (m = 0) as -> by lia. exists false. split_and!; [done|by intros ?%not_elem_of_nil|done].
  - intros m Hm. simpl in Hm. assert (m = 0) as -> by lia. done.
  - intros t x Hx. by rewrite (Hid _ _ Hx).
  - intros t x m Hx. by rewrite (Hid _ _ Hx).
  - intros t u x y m Hx. by rewrite (Hid _ _ Hx).
Qed.
Lemma li_inv_reachable n s : reachable step (new n) s -> inv s.
Proof. apply reachable_ind_inv; eauto using li_inv_init, li_inv_step. Qed.

(** ** Properties *)

(** Where a step takes effect on the list. *)
Definition effect (s : Queue) (e : event) : option call :=
  match e with
  | Push t v => Some (SPush (length (nodes s)) v)
  | Pop k => if head s =? tail s then Some (call_of k) else None
  | C => match cons s with CSpin k => match next (nd (tail s) s) with Some _ => Some (call_of k) | None => None end | _ => None end
  | Remove n => Some (SRemove n (match prev (nd n s), next (nd n s) with Some _, Some _ => is_link (nd n s) | _, _ => false end))
  | _ => None
  end.

Lemma li_effect_remove s n : inv s -> at_home (cons s) = true -> held n s = true ->
  spec_step (gs s) (SRemove n (match prev (nd n s), next (nd n s) with Some _, Some _ => is_link (nd n s) | _, _ => false end)) = Some (gs (remove n s)).
Proof.
  intros Hi Hc Hhd. pose proof (li_held_spec _ _ Hhd) as [Hlt Hh]. pose proof (li_nd_mark n s n Hlt) as Hnd. rewrite Nat.eqb_refl in Hnd.
  unfold remove. rewrite (iv_freed _ Hi n Hlt), Hh, andb_false_r. destruct (is_link (nd n s)) eqn:Hl; cycle 1.
  { by destruct (prev (nd n s)), (next (nd n s)). }
  destruct (prev (nd n s)) as [p|] eqn:Hp; [|done]. destruct (next (nd n s)) as [m|] eqn:Hm; [|done].
  destruct (li_place s n p Hi Hlt Hh Hl Hp) as (i & v & Hq & Hpi). simpl negb. cbn iota. pose proof (li_inv_mark s n Hi Hlt Hh Hc) as Hi1.
  assert (Hm1 : next (nd n (upd n (set_handle ERemove) s)) = Some m) by (by rewrite Hnd). assert (Hh1 : handle (nd n (upd n (set_handle ERemove) s)) = ERemove) by (by rewrite Hnd).
  pose proof (li_inv_remove s n Hi Hc Hhd) as Hok. unfold remove in Hok. rewrite (iv_freed _ Hi n Hlt), Hh, andb_false_r, Hl, Hp, Hm in Hok. simpl negb in Hok. cbn iota in Hok.
  destruct (freed _ || freed _) eqn:Hf; [by pose proof (iv_cons _ Hok)|].
  pose proof (li_un_gs (upd n (set_handle ERemove) s) n p m i v Hi1 Hq Hm1) as Hg. unfold record in *. cbn [gs set_cons upd] in *. rewrite Hg.
  unfold spec_step. pose proof (iv_nodup _ Hi) as Hnn. unfold chain in Hnn. apply NoDup_cons in Hnn as [_ Hnn].
  rewrite (li_index n i v _ Hnn Hq), Hq. destruct (li_un_m _ n m i v Hi1 Hq Hm1) as [Hm' _]. apply lookup_lt_Some in Hm'. unfold chain in Hm'. simpl in Hm'. rewrite length_map in Hm'.
  destruct (Nat.ltb_spec (S i) (length (q (gs s)))); [done|lia].
Qed.

(** C28. The list is a FIFO list with removal, whatever the interleaving of the
    producers, the consumer and those who drop entries: every step either leaves it unchanged or is one
    atomic operation on it ([effect] says which), a push takes effect when [head] is swapped, and what a
    call answers is the answer of that operation; the nodes hold its values. *)
Theorem list_refines n s e s' :
  reachable step (new n) s -> step s e = Some s' ->
  match effect s e with Some c => spec_step (gs s) c = Some (gs s') | None => gs s' = gs s end /\
  (forall r, cons s' = CDone r -> last (answers (gs s')) = Some r) /\
  map (fun x => value (nd x.1 s')) (q (gs s')) = map (fun x => Some x.2) (q (gs s')).
Proof.
  intros Hi%li_inv_reachable Hs. pose proof (li_inv_step _ _ _ Hi Hs) as Hi'. split_and!.
  - destruct e as [t v|t|k|m| |m]; simpl in Hs.
    + destruct (prods s !! t) as [[]|]; try done; injection Hs as <-; done.
    + destruct (prods s !! t) as [[]|]; try done; injection Hs as <-; try done. by destruct (freed _).
    + destruct (at_home (cons s)); [|done]. injection Hs as <-. unfold effect, start_pop. destruct (li_tail_count s Hi) as [-> ->].
      destruct (Nat.eqb_spec (head s) (tail s)) as [He|_]; [|by destruct k]. apply li_ch_empty in He; [|done]. destruct k; simpl; by rewrite He.
    + destruct (at_home (cons s)) eqn:Hc, (held m s) eqn:Hh; try done. injection Hs as <-. by apply li_effect_remove.
    + pose proof (iv_cons _ Hi) as Hok. unfold cons_ok in Hok. unfold effect. destruct (cons s) as [|k|m r| | |] eqn:Hc; try done; injection Hs as <-; [|done].
      destruct (q (gs s)) as [|[x v] l] eqn:Hq; [by destruct Hok|]. destruct (li_tail_count s Hi) as [Hct Hfr].
      destruct (li_front s x v l Hi Hq) as (Hv & _ & _ & Hfx & _ & Hn). unfold pop. rewrite Hfr. destruct (pending x s); rewrite Hn; [done|].
      rewrite Hfx, (proj1 (iv_tail _ Hi)), Hv. destruct k as [|f|]; simpl; rewrite Hq; simpl; try done. rewrite Hct. destruct (f v) eqn:Hf; simpl; rewrite Hq; simpl; by rewrite Hf.
    + destruct (held m s); [|done]. by injection Hs as <-.
  - intros r Hr. pose proof (iv_cons _ Hi') as Hok. unfold cons_ok in Hok. by rewrite Hr in Hok.
  - apply list_eq. intros i. rewrite !list_lookup_fmap. destruct (q (gs s') !! i) as [[m v]|] eqn:Hq; [|done]. simpl. f_equal.
    apply (iv_val _ Hi'). by eapply list_elem_of_lookup_2.
Qed.

(** Memory safety: nobody dereferences a freed node or fails an assertion; a node is freed exactly
    when it is out of the list and its entry is dropped, by whoever does the later of the two. *)
Theorem list_memory_safe n s :
  reachable step (new n) s ->
  cons s <> CFault /\ cons s <> CPanic /\ (forall t, prods s !! t <> Some PFault) /\
  (forall m, m < length (nodes s) -> (freed (nd m s) = true <-> (m ∉ chain s /\ handle (nd m s) = EGone))) /\
  (forall t m p, prods s !! t = Some (PLink m p) -> freed (nd p s) = false).
Proof.
  intros Hi%li_inv_reachable. pose proof (iv_cons _ Hi) as Hc. unfold cons_ok in Hc. split_and!.
  - by intros E; rewrite E in Hc.
  - by intros E; rewrite E in Hc.
  - intros t Ht. by pose proof (iv_prod _ Hi t _ Ht).
  - intros m Hm. rewrite (iv_freed _ Hi m Hm), andb_true_iff, !negb_true_iff, bool_decide_eq_false. destruct (handle (nd m s)); naive_solver.
  - intros t m p Ht. by apply (li_inv_link s t m p Hi).
Qed.

End queue.

(** ** Runs *)
Definition final (es : list event) : @Queue nat := default (new 2) (run step es (new 2)).
(** Two producers; the second swaps [head] before the first has linked, and the consumer waits for the first. *)
Definition demo_wait : list (@event nat) := [Push 0 10; Push 1 11; P 1; P 1; P 1; Pop KPop; C; C].
Definition demo_pop : list (@event nat) := demo_wait ++ [P 0; P 0; P 0; C].
(** Three values; the one in the middle is removed, the last one is not; entries are dropped. *)
Definition done_push (t v : nat) : list (@event nat) := [Push t v; P t; P t; P t].
Definition demo_remove : list (@event nat) := done_push 0 10 ++ done_push 1 11 ++ done_push 0 12 ++ [Remove 2].
Definition demo_last : list (@event nat) := demo_remove ++ [C; Remove 3; C; Drop 1; Pop (KPopIf (fun v => v <? 11)); C; Pop KPop; C].

Example list_demo_results :
  map (fun es => (cons (final es), map snd (q (gs (final es))), map freed (nodes (final es)))) [demo_wait; demo_pop; demo_last] =
  [(CSpin KPop, [10; 11], [false; false; false]); (CDone (Some 10), [11], [true; false; false]); (CDone (Some 12), [], [true; true; true; false])].
Proof. vm_compute. reflexivity. Qed.

Lemma list_refines_witness :
  let s := final demo_remove in
  spec_step (gs (final (done_push 0 10 ++ done_push 1 11 ++ done_push 0 12))) (SRemove 2 true) = Some (gs s) /\
  (forall r, cons s = CDone r -> last (answers (gs s)) = Some r) /\ map (fun x => value (nd x.1 s)) (q (gs s)) = map (fun x => Some x.2) (q (gs s)).
Proof.
  apply (list_refines 2 (final (done_push 0 10 ++ done_push 1 11 ++ done_push 0 12)) (Remove 2)).
  - apply run_reachable with (es := done_push 0 10 ++ done_push 1 11 ++ done_push 0 12). vm_compute. reflexivity.
  - vm_compute. reflexivity.
Defined.

Lemma list_memory_safe_witness :
  let s := final demo_last in
  cons s <> CFault /\ cons s <> CPanic /\ (forall t, prods s !! t <> Some PFault) /\
  (forall m, m < length (nodes s) -> (freed (nd m s) = true <-> (m ∉ chain s /\ handle (nd m s) = EGone))) /\
  (forall t m p, prods s !! t = Some (PLink m p) -> freed (nd p s) = false).
Proof. apply (list_memory_safe 2). apply run_reachable with (es := demo_last). vm_compute. reflexivity. Defined.

End MpscList.
