(* ===== verification/Timer.v ===== *)
(** * Timer: [src/timeout_list.rs] as an interleaving machine

    Timers with the same interval share a FIFO list; a binary heap holds one
    entry per list in use.  Any number of threads add and delete timers while one
    timer thread fires the expired ones and parks until the next expiry.  A list
    is the FIFO list that [ListV1] refines: [push] is the swap of the head and,
    later, the comparison that tells whether the node is the queue's head.  What
    runs under the lock of [timer_bh] is one step, and so is what runs under the
    lock of [interval_map] and touches nothing else that is shared. *)

From stdpp Require Import base numbers list gmap option sorting.
From Stdlib Require Import ZArith Lia.
From S2P Require Import Prelude.

Module Tm.

Definition HASH_CAP : Z := 1024.
Definition u64_max : Z := Word.usize_max.

(** [now]: nanoseconds since the start, saturated to [u64]. *)
Definition now_of (elapsed_nanos : Z) : Z := Z.min elapsed_nanos u64_max.

(** [timeout_deadline]: the interval is cut so that the deadline cannot overflow. *)
Definition timeout_deadline (now dur : Z) : Z * Z :=
  let interval := Z.min dur (Z.max (u64_max - now) 0) in (interval, (now + interval)%Z).

(** [IntervalEntry]; [elist] is the shared list, by its address. *)
Record IntervalEntry := IE { etime : Z; elist : nat; interval : Z }.

(** [Ord for IntervalEntry]: reversed, so that the heap's maximum expires first. *)
Definition entry_cmp (a b : IntervalEntry) : comparison := Z.compare (etime b) (etime a).

(** [std::collections::BinaryHeap]: [top] is the position of a maximal entry;
    which one among equals is the library's choice. *)
Class BinaryHeap := {
  top : list IntervalEntry -> nat;
  top_lt : forall bh, bh <> [] -> top bh < length bh;
  top_max : forall bh e e', bh !! top bh = Some e -> e' ∈ bh -> entry_cmp e e' <> Lt
}.

Section timer.
Context {T : Type} {BH : BinaryHeap}.

Definition bh_peek (bh : list IntervalEntry) : option IntervalEntry := bh !! top bh.
Definition bh_pop (bh : list IntervalEntry) : list IntervalEntry := delete (top bh) bh.
Definition bh_push (e : IntervalEntry) (bh : list IntervalEntry) : list IntervalEntry := e :: bh.

Record TimeoutData := TD { time : Z; data : T }.

(** A linked node: its address (handles name it), its value, and the clock when
    it was linked (history). *)
Record node := Nd { nid : nat; value : TimeoutData; stamp : Z }.

(** [TimeoutQueueWrapper]: the linked nodes, oldest first, the address [tail]
    points to, the installation counter, and the interval (history). *)
Record Wrapper := Wr { inner : list node; tail : nat; in_use : Z; ivl_of : Z }.

Definition node_of (w : Wrapper) : list nat := tail w :: map nid (inner w).
Definition q_head (w : Wrapper) : nat := List.last (node_of w) 0.
Definition due (w : Wrapper) (n : node) : Z := (stamp n + ivl_of w)%Z.

(** [TimeOutList]; [lists] is the memory the [Arc]s point to. *)
Record TimeOutList := TOL {
  lists : gmap nat Wrapper;
  interval_map : gmap Z nat;
  timer_bh : list IntervalEntry;
  fresh_list : nat;
  fresh_node : nat
}.

Definition set_list (l : nat) (w : Wrapper) (s : TimeOutList) : TimeOutList :=
  TOL (<[l:=w]> (lists s)) (interval_map s) (timer_bh s) (fresh_list s) (fresh_node s).
Definition set_bh (bh : list IntervalEntry) (s : TimeOutList) : TimeOutList :=
  TOL (lists s) (interval_map s) bh (fresh_list s) (fresh_node s).
Definition set_in_use (n : Z) (w : Wrapper) : Wrapper := Wr (inner w) (tail w) n (ivl_of w).

(** [Queue::push], up to the swap of [head]: the new node's address, the previous
    head, the list. *)
Definition enqueue (now : Z) (l : nat) (td : TimeoutData) (s : TimeOutList)
    : option (nat * nat * TimeOutList) :=
  match lists s !! l with
  | Some w =>
      let h := fresh_node s in
      Some (h, q_head w,
        TOL (<[l:=Wr (inner w ++ [Nd h td now]) (tail w) (in_use w) (ivl_of w)]> (lists s))
          (interval_map s) (timer_bh s) (fresh_list s) (S h))
  | None => None
  end.

(** A new list ([TimeoutQueueWrapper::new], with its stub node) that holds one
    timer, entered in the map. *)
Definition insert_list (now : Z) (ivl : Z) (td : TimeoutData) (s : TimeOutList) : nat * nat * TimeOutList :=
  let l := fresh_list s in
  let stub := fresh_node s in
  let h := S stub in
  (l, h, TOL (<[l:=Wr [Nd h td now] stub 0 ivl]> (lists s)) (<[ivl:=l]> (interval_map s)) (timer_bh s)
           (S l) (S h)).

(** [Entry::remove]: the last node stays (it is popped later), as does one whose
    [next] link is not visible yet; an unlinked one is left alone. *)
Fixpoint remove_node (h : nat) (q : list node) : list node :=
  match q with
  | [] => []
  | [x] => [x]
  | x :: q' => if decide (nid x = h) then q' else x :: remove_node h q'
  end.
Definition remove_in (h : nat) (w : Wrapper) : Wrapper :=
  Wr (remove_node h (inner w)) (tail w) (in_use w) (ivl_of w).

(** ** Threads *)

(** A thread that adds or deletes timers; [r] is the handle to return. *)
Inductive apc :=
  | Idle
  | ANow (dur : Z) (d : T)
  | ALookup (ivl : Z) (td : TimeoutData)
  | APush (l : nat) (ivl : Z) (td : TimeoutData)
  | AWrite (ivl : Z) (td : TimeoutData)
  | AHead (l : nat) (ivl : Z) (td : TimeoutData) (h prev : nat)
  | AInstall (e : IntervalEntry) (h : nat)
  | AHeap (e : IntervalEntry) (h : nat)
  | DPush (h : nat)
  | XTake (r : option nat)
  | XUnpark (r : option nat)
  | Done (r : option nat).

(** The timer thread. *)
Inductive tpc :=
  | RPop | RRemove (h : nat) | RStore | RCheck | RTake | RUnpark
  | SNow
  | SPeek (now : Z)
  | SPop (now : Z) (e : IntervalEntry)
  | SNext (now : Z) (e : IntervalEntry)
  | SReinsert (now : Z) (e : IntervalEntry) (t : Z)
  | SEmpty (now : Z) (e : IntervalEntry)
  | SReAdd (now : Z) (e : IntervalEntry)
  | SRePeek (now : Z) (e : IntervalEntry)
  | SHeap (now : Z) (e : IntervalEntry)
  | PPark (now : Z) (r : option Z) (start : Z)
  | SPanic.

(** [TimerThread], the clock, the park token of the timer thread, the threads and
    the history of the fired nodes, each with the instant. *)
Record state := St {
  timer_list : TimeOutList;
  remove_list : list nat;
  wakeup : bool;
  token : bool;
  clock : Z;
  adders : list apc;
  timer : tpc;
  fired : list (node * Z)
}.

Definition new (n : nat) : state :=
  St (TOL ∅ ∅ [] 0 0) [] false false 0 (replicate n Idle) RPop [].

Definition set_pc (t : nat) (x : apc) (s : state) : state :=
  St (timer_list s) (remove_list s) (wakeup s) (token s) (clock s) (<[t:=x]> (adders s)) (timer s) (fired s).
Definition set_timer (x : tpc) (s : state) : state :=
  St (timer_list s) (remove_list s) (wakeup s) (token s) (clock s) (adders s) x (fired s).
Definition set_tl (l : TimeOutList) (s : state) : state :=
  St l (remove_list s) (wakeup s) (token s) (clock s) (adders s) (timer s) (fired s).
Definition set_sig (w k : bool) (s : state) : state :=
  St (timer_list s) (remove_list s) w k (clock s) (adders s) (timer s) (fired s).
Definition set_rm (r : list nat) (s : state) : state :=
  St (timer_list s) r (wakeup s) (token s) (clock s) (adders s) (timer s) (fired s).
Definition log (f : list (node * Z)) (s : state) : state :=
  St (timer_list s) (remove_list s) (wakeup s) (token s) (clock s) (adders s) (timer s) (fired s ++ f).

Definition now (s : state) : Z := now_of (clock s).

(** ** [TimeOutList::add_timer], [TimerThread::add_timer] and [del_timer] *)

Definition step_add (t : nat) (x : apc) (s : state) : option state :=
  let tl := timer_list s in
  match x with
  | ANow dur d =>
      let '(ivl, tm) := timeout_deadline (now s) dur in Some (set_pc t (ALookup ivl (TD tm d)) s)
  | ALookup ivl td =>
      Some (set_pc t (match interval_map tl !! ivl with Some l => APush l ivl td | None => AWrite ivl td end) s)
  | APush l ivl td =>
      '(h, prev, tl') ← enqueue (now s) l td tl;
      Some (set_pc t (AHead l ivl td h prev) (set_tl tl' s))
  | AWrite ivl td =>
      match interval_map tl !! ivl with
      | Some l => Some (set_pc t (APush l ivl td) s)
      | None =>
          let '(l, h, tl') := insert_list (now s) ivl td tl in
          Some (set_pc t (AInstall (IE (time td) l ivl) h) (set_tl tl' s))
      end
  | AHead l ivl td h prev =>
      w ← lists tl !! l;
      Some (set_pc t (if decide (tail w = prev) then AInstall (IE (time td) l ivl) h else Done (Some h)) s)
  | _ => None
  end.

(** [install_timer_bh]: only the first user pushes the entry. *)
Definition step_install (t : nat) (x : apc) (s : state) : option state :=
  let tl := timer_list s in
  match x with
  | AInstall e h =>
      w ← lists tl !! elist e;
      Some (set_pc t (if (in_use w =? 0)%Z then AHeap e h else XTake (Some h))
              (set_tl (set_list (elist e) (set_in_use (in_use w + 1) w) tl) s))
  | AHeap e h => Some (set_pc t (XTake (Some h)) (set_tl (set_bh (bh_push e (timer_bh tl)) tl) s))
  | _ => None
  end.

Definition step_wake (t : nat) (x : apc) (s : state) : option state :=
  match x with
  | DPush h => Some (set_pc t (XTake None) (set_rm (remove_list s ++ [h]) s))
  | XTake r => Some (set_pc t (if wakeup s then XUnpark r else Done r) (set_sig false (token s) s))
  | XUnpark r => Some (set_pc t (Done r) (set_sig (wakeup s) true s))
  | _ => None
  end.

(** ** [schedule_timer] *)

(** [IntervalEntry::pop_timeout], one turn of its loop; the handler is called
    with the data of the popped node. *)
Definition step_pop (nw : Z) (e : IntervalEntry) (s : state) : option state :=
  let tl := timer_list s in
  w ← lists tl !! elist e;
  match inner w with
  | n :: q =>
      if (time (value n) <=? nw)%Z
      then Some (log [(n, now s)]
             (set_tl (set_list (elist e) (Wr q (nid n) (in_use w) (ivl_of w)) tl) s))
      else Some (set_timer (SNext nw e) s)
  | [] => Some (set_timer (SNext nw e) s)
  end.

Definition step_schedule (s : state) : option state :=
  let tl := timer_list s in
  match timer s with
  | SNow => Some (set_timer (SPeek (now s)) s)
  | SPeek nw =>
      match bh_peek (timer_bh tl) with
      | None => Some (set_timer (PPark nw None (clock s)) s)
      | Some e =>
          if (nw <? etime e)%Z then Some (set_timer (PPark nw (Some (etime e - nw)%Z) (clock s)) s) else
          w ← lists tl !! elist e;
          Some (set_timer (SPop nw e)
                 (set_tl (set_list (elist e) (set_in_use 0 w) (set_bh (bh_pop (timer_bh tl)) tl)) s))
      end
  | SPop nw e => step_pop nw e s
  | SNext nw e =>
      w ← lists tl !! elist e;
      Some (set_timer (match inner w with n :: _ => SReinsert nw e (time (value n)) | [] => SEmpty nw e end) s)
  | SReinsert nw e t =>
      w ← lists tl !! elist e;
      Some (set_timer (if (in_use w =? 0)%Z then SHeap nw (IE t (elist e) (interval e)) else SPeek nw)
             (set_tl (set_list (elist e) (set_in_use (in_use w + 1) w) tl) s))
  | SEmpty nw e =>
      w ← lists tl !! elist e;
      match inner w with
      | [] =>
          Some (set_timer (SPeek nw)
            (if (HASH_CAP <? Z.of_nat (size (interval_map tl)))%Z
             then set_tl (TOL (lists tl) (delete (interval e) (interval_map tl)) (timer_bh tl)
                            (fresh_list tl) (fresh_node tl)) s
             else s))
      | _ => Some (set_timer (SReAdd nw e) s)
      end
  | SReAdd nw e =>
      w ← lists tl !! elist e;
      Some (set_timer (if (in_use w =? 0)%Z then SRePeek nw e else SPeek nw)
             (set_tl (set_list (elist e) (set_in_use (in_use w + 1) w) tl) s))
  | SRePeek nw e =>
      w ← lists tl !! elist e;
      Some (set_timer (match inner w with
                       | n :: _ => SHeap nw (IE (time (value n)) (elist e) (interval e))
                       | [] => SPanic
                       end) s)
  | SHeap nw e => Some (set_timer (SPeek nw) (set_tl (set_bh (bh_push e (timer_bh tl)) tl) s))
  | _ => None
  end.

(** [TimerThread::run]; [vis] tells whether the link to the next node of the one
    that is removed is visible. *)
Definition step_run (vis : bool) (s : state) : option state :=
  let tl := timer_list s in
  match timer s with
  | RPop =>
      match remove_list s with
      | h :: r => Some (set_timer (RRemove h) (set_rm r s))
      | [] => Some (set_timer RStore s)
      end
  | RRemove h =>
      Some (set_timer RPop
        (if vis then
           set_tl (TOL (remove_in h <$> lists tl) (interval_map tl) (timer_bh tl)
                     (fresh_list tl) (fresh_node tl)) s
         else s))
  | RStore => Some (set_timer RCheck (set_sig true (token s) s))
  | RCheck => Some (set_timer (match remove_list s with [] => SNow | _ => RTake end) s)
  | RTake => Some (set_timer (if wakeup s then RUnpark else SNow) (set_sig false (token s) s))
  | RUnpark => Some (set_timer SNow (set_sig (wakeup s) true s))
  | _ => step_schedule s
  end.

(** Why [park] returns; std allows spurious returns. *)
Inductive cause := ByToken | ByTimeout | Spurious.
Definition step_park (c : cause) (s : state) : option state :=
  match timer s with
  | PPark nw r start =>
      match c with
      | ByToken => if token s then Some (set_timer RPop (set_sig (wakeup s) false s)) else None
      | ByTimeout =>
          match r with
          | Some d => if (start + d <=? clock s)%Z then Some (set_timer RPop s) else None
          | None => None
          end
      | Spurious => Some (set_timer RPop s)
      end
  | _ => None
  end.

Inductive event :=
  | CAdd (t : nat) (dur : Z) (d : T)
  | CDel (t : nat) (h : nat)
  | Tick (t : nat)
  | Return (t : nat)
  | Run (vis : bool)
  | Park (c : cause)
  | Advance (d : nat).

Definition step (s : state) (e : event) : option state :=
  match e with
  | CAdd t dur d => match adders s !! t with Some Idle => Some (set_pc t (ANow dur d) s) | _ => None end
  | CDel t h => match adders s !! t with Some Idle => Some (set_pc t (DPush h) s) | _ => None end
  | Tick t =>
      match adders s !! t with
      | Some x =>
          match x with
          | AInstall _ _ | AHeap _ _ => step_install t x s
          | DPush _ | XTake _ | XUnpark _ => step_wake t x s
          | _ => step_add t x s
          end
      | None => None
      end
  | Return t => match adders s !! t with Some (Done _) => Some (set_pc t Idle s) | _ => None end
  | Run vis => step_run vis s
  | Park c => step_park c s
  | Advance d =>
      Some (St (timer_list s) (remove_list s) (wakeup s) (token s) (clock s + Z.of_nat d)%Z
              (adders s) (timer s) (fired s))
  end.

(** ** Invariant: lists, promises and owners *)

Definition ordered (n m : node) : Prop := nid n < nid m /\ (stamp n <= stamp m)%Z.

Definition node_ok (nw : Z) (fn : nat) (w : Wrapper) (n : node) : Prop :=
  tail w < nid n /\ nid n < fn /\ (stamp n <= nw)%Z /\ (time (value n) <= due w n)%Z.

Definition list_ok (nw : Z) (fn : nat) (w : Wrapper) : Prop :=
  StronglySorted ordered (inner w) /\ (forall n, n ∈ inner w -> node_ok nw fn w n) /\
  tail w < fn /\ (0 <= in_use w)%Z.

(** [l] is a list of interval [ivl]. *)
Definition holds (s : state) (l : nat) (ivl : Z) : Prop :=
  exists w, lists (timer_list s) !! l = Some w /\ ivl_of w = ivl.

(** Nothing in list [l] is due before [t], nor will what is pushed from now on. *)
Definition promise (s : state) (l : nat) (ivl t : Z) : Prop :=
  exists w, lists (timer_list s) !! l = Some w /\ ivl_of w = ivl /\ (t <= now s + ivl)%Z /\
    forall n, n ∈ inner w -> (t <= due w n)%Z.

Definition entry_ok (s : state) (e : IntervalEntry) : Prop :=
  promise s (elist e) (interval e) (etime e).

Definition adder_ok (s : state) (x : apc) : Prop :=
  match x with
  | ALookup ivl td | AWrite ivl td => (time td <= now s + ivl)%Z
  | APush l ivl td => (time td <= now s + ivl)%Z /\ holds s l ivl
  | AHead l ivl td h prev =>
      exists w, lists (timer_list s) !! l = Some w /\ ivl_of w = ivl /\ (time td <= now s + ivl)%Z /\
        forall n, n ∈ inner w -> prev < nid n -> (time td <= due w n)%Z
  | AInstall e _ | AHeap e _ => entry_ok s e
  | _ => True
  end.

Definition nonempty (s : state) (e : IntervalEntry) : Prop :=
  exists w, lists (timer_list s) !! elist e = Some w /\ ivl_of w = interval e /\ inner w <> [].

Definition timer_ok (s : state) (x : tpc) : Prop :=
  match x with
  | SPeek nw | PPark nw _ _ => (nw <= now s)%Z
  | SPop nw e | SNext nw e | SEmpty nw e => (nw <= now s)%Z /\ holds s (elist e) (interval e)
  | SReinsert nw e t => (nw <= now s)%Z /\ promise s (elist e) (interval e) t
  | SReAdd nw e | SRePeek nw e => (nw <= now s)%Z /\ nonempty s e
  | SHeap nw e => (nw <= now s)%Z /\ entry_ok s e
  | SPanic => False
  | _ => True
  end.

Record basic (s : state) : Prop := {
  bs_lists : forall l w, lists (timer_list s) !! l = Some w ->
    list_ok (now s) (fresh_node (timer_list s)) w /\ l < fresh_list (timer_list s);
  bs_map : forall ivl l, interval_map (timer_list s) !! ivl = Some l -> holds s l ivl;
  bs_adders : forall t x, adders s !! t = Some x -> adder_ok s x;
  bs_timer : timer_ok s (timer s);
  bs_heap : forall e, e ∈ timer_bh (timer_list s) -> entry_ok s e
}.

(** How the lists change: they stay, and what is new in them is stamped later. *)
Definition evolve (s s' : state) : Prop :=
  (now s <= now s')%Z /\
  forall l w, lists (timer_list s) !! l = Some w ->
    exists w', lists (timer_list s') !! l = Some w' /\ ivl_of w' = ivl_of w /\
      forall n, n ∈ inner w' -> n ∈ inner w \/ (now s <= stamp n)%Z.

Definition keep (s s' : state) : Prop :=
  forall l w w', lists (timer_list s) !! l = Some w -> lists (timer_list s') !! l = Some w' ->
    inner w <> [] -> inner w' <> [].

Lemma evolve_holds s s' l ivl : evolve s s' -> holds s l ivl -> holds s' l ivl.
Proof. intros [_ H] (w & Hw & <-). destruct (H _ _ Hw) as (w' & Hw' & He & _). by exists w'. Qed.

Lemma evolve_promise s s' l ivl t : evolve s s' -> promise s l ivl t -> promise s' l ivl t.
Proof.
  intros [Hn H] (w & Hw & <- & Ht & Hd). destruct (H _ _ Hw) as (w' & Hw' & He & Hin).
  exists w'. split_and!; [done..|lia|]. intros n Hn'. unfold due in *. rewrite He.
  destruct (Hin _ Hn'); [by apply Hd|lia].
Qed.

Lemma evolve_adder_ok s s' x : evolve s s' -> adder_ok s x -> adder_ok s' x.
Proof.
  intros He. pose proof He as [Hn H]. destruct x; simpl; try done; try lia.
  - intros [? ?]. split; [lia|by eapply evolve_holds].
  - intros (w & Hw & <- & Ht & Hd). destruct (H _ _ Hw) as (w' & Hw' & Hi & Hin).
    exists w'. split_and!; [done..|lia|]. intros n Hn' Hp. unfold due in *. rewrite Hi.
    destruct (Hin _ Hn'); [by apply Hd|lia].
  - by apply evolve_promise.
  - by apply evolve_promise.
Qed.

Lemma evolve_timer_ok s s' x : evolve s s' -> keep s s' -> timer_ok s x -> timer_ok s' x.
Proof.
  intros He Hk. pose proof He as [Hn H].
  assert (Hne : forall e, nonempty s e -> nonempty s' e).
  { intros e (w & Hw & Hi & Hq). destruct (H _ _ Hw) as (w' & Hw' & Hi' & _).
    exists w'. split_and!; [done|congruence|by eapply Hk]. }
  destruct x; simpl; try done; try lia; intros [? ?];
    (split; [lia|eauto using evolve_holds, evolve_promise]).
  by eapply evolve_promise.
Qed.

Lemma basic_step s s' :
  basic s -> evolve s s' ->
  (forall l w, lists (timer_list s') !! l = Some w ->
    list_ok (now s') (fresh_node (timer_list s')) w /\ l < fresh_list (timer_list s')) ->
  (forall ivl l, interval_map (timer_list s') !! ivl = Some l ->
    interval_map (timer_list s) !! ivl = Some l \/ holds s' l ivl) ->
  (forall t x, adders s' !! t = Some x -> adders s !! t = Some x \/ adder_ok s' x) ->
  (timer s' = timer s /\ keep s s' \/ timer_ok s' (timer s')) ->
  (forall e, e ∈ timer_bh (timer_list s') -> e ∈ timer_bh (timer_list s) \/ entry_ok s' e) ->
  basic s'.
Proof.
  intros [] He Hl Hm Ha Ht Hh. split; [done| | | |].
  - intros ivl l Hi. destruct (Hm _ _ Hi); [eauto using evolve_holds|done].
  - intros t x Hx. destruct (Ha _ _ Hx); [eauto using evolve_adder_ok|done].
  - destruct Ht as [[-> Hk]|?]; [eauto using evolve_timer_ok|done].
  - intros e Hin. destruct (Hh _ Hin); [eapply evolve_promise; [done|]; by apply bs_heap0|done].
Qed.

Lemma evolve_same s s' :
  (now s <= now s')%Z -> lists (timer_list s') = lists (timer_list s) -> evolve s s' /\ keep s s'.
Proof.
  intros Hn Hl. split; [split; [done|]|].
  - intros l w Hw. exists w. rewrite Hl. split_and!; [done..|auto].
  - intros l w w' Hw Hw'. rewrite Hl in Hw'. congruence.
Qed.

Lemma evolve_set s s' l w w' :
  lists (timer_list s) !! l = Some w -> lists (timer_list s') = <[l:=w']> (lists (timer_list s)) ->
  now s' = now s -> ivl_of w' = ivl_of w ->
  (forall n, n ∈ inner w' -> n ∈ inner w \/ (now s <= stamp n)%Z) -> evolve s s'.
Proof.
  intros Hw Hl Hn Hi Hin. split; [lia|]. intros k v Hv. rewrite Hl.
  destruct (decide (l = k)) as [<-|Hne].
  - exists w'. rewrite lookup_insert_eq. simplify_eq. done.
  - exists v. rewrite lookup_insert_ne by done. auto.
Qed.

Lemma keep_set s s' l w w' :
  lists (timer_list s) !! l = Some w -> lists (timer_list s') = <[l:=w']> (lists (timer_list s)) ->
  (inner w <> [] -> inner w' <> []) -> keep s s'.
Proof.
  intros Hw Hl Hne k v v' Hv Hv'. rewrite Hl in Hv'. destruct (decide (l = k)) as [<-|Hk].
  - rewrite lookup_insert_eq in Hv'. by simplify_eq.
  - rewrite lookup_insert_ne in Hv' by done. by simplify_eq.
Qed.

Lemma lists_set s l w' nw fn fl :
  (forall k v, lists (timer_list s) !! k = Some v -> list_ok nw fn v /\ k < fl) ->
  list_ok nw fn w' -> l < fl ->
  forall k v, <[l:=w']> (lists (timer_list s)) !! k = Some v -> list_ok nw fn v /\ k < fl.
Proof. intros Hall Hw Hl k v. rewrite lookup_insert_Some. intros [[<- <-]|[_ ?]]; [done|eauto]. Qed.

Lemma list_ok_mono nw nw' fn fn' w :
  list_ok nw fn w -> (nw <= nw')%Z -> fn <= fn' -> list_ok nw' fn' w.
Proof.
  intros (Hs & Hn & Ht & Hu) ? ?. split_and!; [done| |lia|done].
  intros n Hin. destruct (Hn n Hin) as (?&?&?&?). split_and!; try done; lia.
Qed.

Lemma list_ok_enqueue nw fn w td :
  list_ok nw fn w -> (time td <= nw + ivl_of w)%Z ->
  list_ok nw (S fn) (Wr (inner w ++ [Nd fn td nw]) (tail w) (in_use w) (ivl_of w)).
Proof.
  intros (Hs & Hn & Ht & Hu) Htd. split_and!; simpl; [|..|lia|done].
  - apply StronglySorted_app_2; [|done|repeat constructor].
    intros y x Hy ->%list_elem_of_singleton. destruct (Hn _ Hy) as (?&?&?&?). by split.
  - intros n. rewrite elem_of_app, list_elem_of_singleton. intros [Hin| ->].
    + destruct (Hn n Hin) as (?&?&?&?). split_and!; simpl; try done; lia.
    + unfold node_ok, due. simpl. lia.
Qed.

Lemma list_ok_pop nw fn w n q :
  list_ok nw fn w -> inner w = n :: q -> list_ok nw fn (Wr q (nid n) (in_use w) (ivl_of w)).
Proof.
  intros (Hs & Hn & Ht & Hu) Hq. rewrite Hq in Hs, Hn. apply StronglySorted_inv in Hs as [Hs Hf].
  destruct (Hn n) as (?&?&?&?); [constructor|]. split_and!; simpl; try done.
  intros m Hm. destruct (Hn m) as (?&?&?&?); [by constructor|].
  rewrite Forall_forall in Hf. destruct (Hf m Hm). by split_and!.
Qed.

Lemma list_ok_in_use nw fn w k : list_ok nw fn w -> (0 <= k)%Z -> list_ok nw fn (set_in_use k w).
Proof. intros (Hs & Hn & Ht & Hu) ?. by split_and!. Qed.

Lemma remove_node_sublist h q : sublist (remove_node h q) q.
Proof.
  induction q as [|x [|y q] IH]; simpl; [constructor|by repeat constructor|].
  case_decide; [by constructor|by apply sublist_skip].
Qed.
Lemma remove_node_nonempty h q : q <> [] -> remove_node h q <> [].
Proof. destruct q as [|x [|y q]]; simpl; [done..|]. by case_decide. Qed.
Lemma remove_node_elem h q n : n ∈ remove_node h q -> n ∈ q.
Proof. intros Hn. eapply elem_of_sublist; [done|apply remove_node_sublist]. Qed.

Lemma sorted_sublist (q q' : list node) :
  sublist q' q -> StronglySorted ordered q -> StronglySorted ordered q'.
Proof.
  induction 1 as [|x q' q Hsub IH|x q' q Hsub IH]; intros Hs; [done|..]; apply StronglySorted_inv in Hs as [Hs Hf].
  - constructor; [auto|]. rewrite Forall_forall in *. intros y Hy. apply Hf. by eapply elem_of_sublist.
  - auto.
Qed.

Lemma list_ok_remove nw fn w h : list_ok nw fn w -> list_ok nw fn (remove_in h w).
Proof.
  intros (Hs & Hn & Ht & Hu). split_and!; simpl; [|..|done|done].
  - eapply sorted_sublist; [apply remove_node_sublist|done].
  - intros n Hin. apply Hn. by eapply remove_node_elem.
Qed.

Lemma q_head_ge nw fn w n : list_ok nw fn w -> n ∈ inner w -> nid n <= q_head w.
Proof.
  intros (Hs & _) Hn. unfold q_head, node_of.
  destruct (inner w) as [|m q _] using rev_ind; [by apply not_elem_of_nil in Hn|].
  rewrite map_app. cbn [map]. rewrite app_comm_cons, List.last_last. apply elem_of_app in Hn as [Hn|Hn].
  - destruct (StronglySorted_app_1_elem_of _ _ _ n m Hs Hn) as [? ?]; [by constructor|lia].
  - apply list_elem_of_singleton in Hn as ->. done.
Qed.

(** A step that leaves the lists alone. *)
Lemma basic_local s s' :
  basic s -> (now s <= now s')%Z -> lists (timer_list s') = lists (timer_list s) ->
  fresh_node (timer_list s') = fresh_node (timer_list s) ->
  fresh_list (timer_list s') = fresh_list (timer_list s) ->
  interval_map (timer_list s') ⊆ interval_map (timer_list s) ->
  (forall t x, adders s' !! t = Some x -> adders s !! t = Some x \/ adder_ok s x) ->
  (timer s' = timer s \/ timer_ok s (timer s')) ->
  (forall e, e ∈ timer_bh (timer_list s') -> e ∈ timer_bh (timer_list s) \/ entry_ok s e) ->
  basic s'.
Proof.
  intros Hb Hn Hl Hf Hfl Hm Ha Ht Hh. destruct (evolve_same _ _ Hn Hl) as [He Hk].
  apply (basic_step s); [done|done|..].
  - rewrite Hl, Hf, Hfl. intros l w Hw. destruct (bs_lists _ Hb _ _ Hw). split; [|done].
    by eapply list_ok_mono.
  - intros ivl l Hi. left. by eapply lookup_weaken.
  - intros t x Hx. destruct (Ha _ _ Hx); eauto using evolve_adder_ok.
  - destruct Ht; eauto using evolve_timer_ok.
  - intros e Hin. destruct (Hh _ Hin); [by left|right]. by eapply evolve_promise.
Qed.

(** A step of thread [t] or of the timer thread that changes one list. *)
Lemma basic_list s s' l w w' :
  basic s -> lists (timer_list s) !! l = Some w -> lists (timer_list s') = <[l:=w']> (lists (timer_list s)) ->
  now s' = now s -> ivl_of w' = ivl_of w ->
  (forall n, n ∈ inner w' -> n ∈ inner w \/ (now s <= stamp n)%Z) ->
  list_ok (now s) (fresh_node (timer_list s')) w' ->
  fresh_node (timer_list s) <= fresh_node (timer_list s') ->
  fresh_list (timer_list s') = fresh_list (timer_list s) ->
  interval_map (timer_list s') = interval_map (timer_list s) ->
  (forall t x, adders s' !! t = Some x -> adders s !! t = Some x \/ adder_ok s' x) ->
  (timer s' = timer s /\ (inner w <> [] -> inner w' <> []) \/ timer_ok s' (timer s')) ->
  (forall e, e ∈ timer_bh (timer_list s') -> e ∈ timer_bh (timer_list s)) ->
  basic s'.
Proof.
  intros Hb Hw Hl Hn Hi Hin Hok Hf Hfl Hm Ha Ht Hh.
  apply (basic_step s); [done|by eapply evolve_set|..].
  - rewrite Hl, Hn, Hfl. apply lists_set; [|done|by eapply bs_lists].
    intros k v Hv. destruct (bs_lists _ Hb _ _ Hv). split; [|done]. by eapply list_ok_mono.
  - rewrite Hm. auto.
  - done.
  - destruct Ht as [[? ?]|?]; [left; split; [done|by eapply keep_set]|by right].
  - auto.
Qed.

Lemma basic_new_list s t ivl td s' l h tl' :
  basic s -> (time td <= now s + ivl)%Z -> insert_list (now s) ivl td (timer_list s) = (l, h, tl') ->
  s' = set_pc t (AInstall (IE (time td) l ivl) h) (set_tl tl' s) -> basic s'.
Proof.
  intros Hb Htd Hi ->. unfold insert_list in Hi. simplify_eq.
  assert (Hnone : lists (timer_list s) !! fresh_list (timer_list s) = None).
  { destruct (lists _ !! _) as [w|] eqn:Hw; [|done]. destruct (bs_lists _ Hb _ _ Hw). lia. }
  assert (He : forall k v, lists (timer_list s) !! k = Some v -> fresh_list (timer_list s) <> k)
    by (intros k v Hk <-; congruence).
  apply (basic_step s); simpl; [done|..].
  - split; [done|]. intros k v Hv. exists v. simpl. rewrite lookup_insert_ne by eauto. auto.
  - intros k v. rewrite lookup_insert_Some. intros [[<- <-]|[_ Hk]].
    + split; [|lia]. split_and!; simpl; [repeat constructor| |lia|done].
      intros n ->%list_elem_of_singleton. unfold node_ok, due, now in *. simpl. lia.
    + destruct (bs_lists _ Hb _ _ Hk). split; [|lia]. eapply list_ok_mono; [done|done|lia].
  - intros i k. rewrite lookup_insert_Some. intros [[<- <-]|[_ ?]]; [right|by left].
    eexists. simpl. by rewrite lookup_insert_eq.
  - intros t' y [(<- & -> & _)|[_ ?]]%lookup_insert_list; [right|by left]. eexists. simpl.
    rewrite lookup_insert_eq. split_and!; [done..|]. by intros n ->%list_elem_of_singleton.
  - left. split; [done|]. intros k v v' Hv. simpl. rewrite lookup_insert_ne by eauto. congruence.
  - auto.
Qed.

Lemma basic_add s t x s' :
  basic s -> adders s !! t = Some x -> step_add t x s = Some s' -> basic s'.
Proof.
  intros Hb Ht Hs. pose proof (bs_adders _ Hb _ _ Ht) as Hx.
  destruct x as [|dur d|ivl td|l ivl td|ivl td|l ivl td h prev| | | | | |]; simpl in Hs, Hx; try discriminate Hs.
  - simplify_eq. apply (basic_local s); try done; simpl; auto.
    intros t' y [(<- & -> & _)|[_ ?]]%lookup_insert_list; [right; simpl; lia|by left].
  - simplify_eq. apply (basic_local s); try done; simpl; auto.
    intros t' y [(<- & -> & _)|[_ ?]]%lookup_insert_list; [right|by left].
    case_match; simpl; [split; [done|by eapply bs_map]|done].
  - destruct Hx as [Htd (w & Hw & Hi)]. unfold enqueue in Hs. rewrite Hw in Hs. simplify_eq/=.
    destruct (bs_lists _ Hb _ _ Hw) as [Hok _].
    eapply (basic_list s _ l w); simpl; try done; [..|lia| |].
    + intros n. simpl. rewrite elem_of_app, list_elem_of_singleton. intros [?| ->]; [by left|right; simpl; lia].
    + by apply list_ok_enqueue.
    + intros t' y [(<- & -> & _)|[_ ?]]%lookup_insert_list; [right|by left]. simpl.
      eexists. rewrite lookup_insert_eq. split_and!; [done..|]. simpl. intros n.
      rewrite elem_of_app, list_elem_of_singleton. intros [Hn| ->] Hp; [|done].
      pose proof (q_head_ge _ _ _ _ Hok Hn). lia.
    + left. split; [done|]. by destruct (inner w).
  - destruct (interval_map (timer_list s) !! ivl) as [l|] eqn:Hm; simplify_eq.
    + apply (basic_local s); try done; simpl; auto.
      intros t' y [(<- & -> & _)|[_ ?]]%lookup_insert_list; [right|by left].
      split; [done|by eapply bs_map].
    + by eapply (basic_new_list s t ivl td).
  - apply bind_Some in Hs as (w & Hw & Hs). simplify_eq/=. destruct Hx as (w' & ? & Hi & Htd & Hd). simplify_eq.
    apply (basic_local s); try done; simpl; auto.
    intros t' y [(<- & -> & _)|[_ ?]]%lookup_insert_list; [right|by left].
    case_decide as Hp; [|done]. exists w. split_and!; try done. intros n Hn. apply Hd; [done|].
    destruct (bs_lists _ Hb _ _ Hw) as [(_ & Hok & _) _]. destruct (Hok _ Hn). lia.
Qed.

(** The counter of a list is not part of what the others rely on. *)
Lemma basic_in_use s s' l w k :
  basic s -> lists (timer_list s) !! l = Some w -> (0 <= k)%Z ->
  lists (timer_list s') = <[l:=set_in_use k w]> (lists (timer_list s)) ->
  now s' = now s ->
  fresh_node (timer_list s') = fresh_node (timer_list s) ->
  fresh_list (timer_list s') = fresh_list (timer_list s) ->
  interval_map (timer_list s') = interval_map (timer_list s) ->
  (forall t x, adders s' !! t = Some x -> adders s !! t = Some x \/ adder_ok s x) ->
  (timer s' = timer s \/ timer_ok s (timer s')) ->
  (forall e, e ∈ timer_bh (timer_list s') -> e ∈ timer_bh (timer_list s)) -> basic s'.
Proof.
  intros Hb Hw Hk Hl Hn Hf Hfl Hm Ha Ht Hh.
  assert (He : evolve s s') by (eapply evolve_set; [done|done|done|done|by left]).
  eapply (basic_list s); [done|done|done|done|done|by left| |lia|done|done| | |done].
  - rewrite Hf. apply list_ok_in_use; [|done]. by eapply bs_lists.
  - intros t x Hx. destruct (Ha _ _ Hx); eauto using evolve_adder_ok.
  - destruct Ht; [by left|right]. eapply evolve_timer_ok; [done| |done]. by eapply keep_set.
Qed.

Lemma basic_install s t x s' :
  basic s -> adders s !! t = Some x -> step_install t x s = Some s' -> basic s'.
Proof.
  intros Hb Ht Hs. pose proof (bs_adders _ Hb _ _ Ht) as Hx.
  destruct x; simpl in Hs, Hx; try discriminate Hs.
  - apply bind_Some in Hs as (w & Hw & Hs). simplify_eq. destruct (bs_lists _ Hb _ _ Hw) as [(_ & _ & _ & Hu) _].
    eapply (basic_in_use s _ _ w (in_use w + 1)); simpl; try done; auto; [lia|].
    intros t' y [(<- & -> & _)|[_ ?]]%lookup_insert_list; [right|by left]. by case_match.
  - simplify_eq. apply (basic_local s); try done; simpl; auto.
    + intros t' y [(<- & -> & _)|[_ ?]]%lookup_insert_list; [by right|by left].
    + intros e'. rewrite elem_of_cons. intros [->|?]; auto.
Qed.

Lemma basic_wake s t x s' :
  basic s -> step_wake t x s = Some s' -> basic s'.
Proof.
  intros Hb Hs. destruct x; simpl in Hs; try discriminate Hs; simplify_eq; apply (basic_local s); try done; simpl; auto;
    intros t' y [(<- & -> & _)|[_ ?]]%lookup_insert_list; try (by left); right; simpl; try done; by case_match.
Qed.

Lemma top_entry bh e : bh !! top bh = Some e -> e ∈ bh /\ forall e', e' ∈ bh -> (etime e <= etime e')%Z.
Proof.
  intros He. split; [by eapply list_elem_of_lookup_2|]. intros e' He'.
  pose proof (top_max bh e e' He He') as Hm. unfold entry_cmp in Hm.
  destruct (Z.compare_spec (etime e') (etime e)); [lia|done|lia].
Qed.

Lemma holds_lookup s l ivl w : lists (timer_list s) !! l = Some w -> holds s l ivl -> ivl_of w = ivl.
Proof. intros Hw (w' & ? & ?). congruence. Qed.

Lemma head_promise s l ivl w n q :
  basic s -> lists (timer_list s) !! l = Some w -> holds s l ivl -> inner w = n :: q ->
  promise s l ivl (time (value n)).
Proof.
  intros Hb Hw Hh Hq. pose proof (holds_lookup _ _ _ _ Hw Hh) as <-.
  destruct (bs_lists _ Hb _ _ Hw) as [(Hs & Hok & _) _]. destruct (Hok n) as (_ & _ & Hst & Ht); [rewrite Hq; constructor|].
  exists w. unfold due in *. split_and!; [done..|lia|]. intros m Hm. rewrite Hq in Hm, Hs.
  apply StronglySorted_inv in Hs as [_ Hf]. apply elem_of_cons in Hm as [->|Hm]; [done|].
  rewrite Forall_forall in Hf. destruct (Hf _ Hm). lia.
Qed.

Lemma basic_pop s nw e s' :
  basic s -> timer s = SPop nw e -> step_pop nw e s = Some s' -> basic s'.
Proof.
  intros Hb Ht Hs. pose proof (bs_timer _ Hb) as Hok. rewrite Ht in Hok. unfold step_pop in Hs.
  apply bind_Some in Hs as (w & Hw & Hs). destruct (bs_lists _ Hb _ _ Hw) as [Hl _].
  destruct (inner w) as [|n q] eqn:Hq; [|case_match]; simplify_eq.
  - apply (basic_local s); try done; simpl; auto.
  - assert (Hin : forall m, m ∈ q -> m ∈ inner w) by (intros; rewrite Hq; by constructor).
    eapply (basic_list s _ _ w); simpl; auto.
    + simpl. auto.
    + simpl. by eapply list_ok_pop.
    + right. destruct Hok as [? Hh]. rewrite Ht. split; [done|]. eapply evolve_holds; [|exact Hh].
      eapply evolve_set; simpl; [done|done|done|done|simpl; auto].
  - apply (basic_local s); try done; simpl; auto.
Qed.

Lemma basic_schedule s s' : basic s -> step_schedule s = Some s' -> basic s'.
Proof.
  intros Hb Hs. pose proof (bs_timer _ Hb) as Hok. unfold step_schedule in Hs.
  destruct (timer s) as [| | | | | | |nw|nw e|nw e|nw e t|nw e|nw e|nw e|nw e|nw r st|] eqn:Ht; try discriminate Hs.
  - simplify_eq. apply (basic_local s); try done; simpl; auto. right. done.
  - destruct (bh_peek _) as [e|] eqn:He; [|simplify_eq; apply (basic_local s); try done; simpl; auto].
    case_match; [simplify_eq; apply (basic_local s); try done; simpl; auto|].
    apply bind_Some in Hs as (w & Hw & Hs). simplify_eq.
    assert (Hin : e ∈ timer_bh (timer_list s)) by (by eapply list_elem_of_lookup_2).
    eapply (basic_in_use s _ _ w 0); simpl; try done; auto.
    + right. split; [done|]. destruct (bs_heap _ Hb _ Hin) as (w' & ? & ? & _). by exists w'.
    + intros e'. apply list_elem_of_delete_inv.
  - by eapply basic_pop.
  - apply bind_Some in Hs as (w & Hw & Hs). simplify_eq. destruct Hok as [? Hh].
    apply (basic_local s); try done; simpl; auto. right.
    destruct (inner w) eqn:Hq; split; try done. by eapply head_promise.
  - apply bind_Some in Hs as (w & Hw & Hs). simplify_eq. destruct (bs_lists _ Hb _ _ Hw) as [(_ & _ & _ & Hu) _].
    destruct Hok. eapply (basic_in_use s _ _ w (in_use w + 1)); simpl; try done; auto; [lia|]. right. by case_match.
  - apply bind_Some in Hs as (w & Hw & Hs). destruct Hok as [? Hh].
    destruct (inner w) eqn:Hq; [case_match|]; simplify_eq; apply (basic_local s); try done; simpl; auto.
    + apply delete_subseteq.
    + right. split; [done|]. exists w. split_and!; [done|by eapply holds_lookup|by rewrite Hq].
  - apply bind_Some in Hs as (w & Hw & Hs). simplify_eq. destruct (bs_lists _ Hb _ _ Hw) as [(_ & _ & _ & Hu) _].
    destruct Hok. eapply (basic_in_use s _ _ w (in_use w + 1)); simpl; try done; auto; [lia|]. right. by case_match.
  - apply bind_Some in Hs as (w & Hw & Hs). simplify_eq. destruct Hok as [? (w' & ? & ? & Hne)]. simplify_eq.
    apply (basic_local s); try done; simpl; auto. right. destruct (inner w) eqn:Hq; [done|]. split; [done|].
    eapply head_promise; [done|done|by exists w|done].
  - simplify_eq. destruct Hok. apply (basic_local s); try done; simpl; auto.
    intros e'. rewrite elem_of_cons. intros [->|?]; auto.
Qed.

Lemma basic_remove s h :
  basic s -> basic (set_timer RPop (set_tl (TOL (remove_in h <$> lists (timer_list s))
    (interval_map (timer_list s)) (timer_bh (timer_list s)) (fresh_list (timer_list s)) (fresh_node (timer_list s))) s)).
Proof.
  intros Hb. apply (basic_step s); simpl; try done; auto.
  - split; [done|]. intros l w Hw. exists (remove_in h w). simpl. rewrite lookup_fmap, Hw. split_and!; [done..|].
    intros n Hn. left. by eapply remove_node_elem.
  - intros l w. rewrite lookup_fmap_Some. intros (w0 & <- & Hw). destruct (bs_lists _ Hb _ _ Hw).
    split; [by apply list_ok_remove|done].
Qed.

Lemma basic_run vis s s' : basic s -> step_run vis s = Some s' -> basic s'.
Proof.
  intros Hb Hs. unfold step_run in Hs.
  destruct (timer s) eqn:Ht; try (by apply (basic_schedule s)).
  all: try (simplify_eq; apply (basic_local s); try done; simpl; auto; right; by case_match).
  - destruct (remove_list s); simplify_eq; apply (basic_local s); try done; simpl; auto.
  - destruct vis; simplify_eq; [by apply basic_remove|]. apply (basic_local s); try done; simpl; auto.
Qed.

Lemma basic_inv_step s e s' : basic s -> step s e = Some s' -> basic s'.
Proof.
  intros Hb Hs. destruct e as [t dur d|t h|t|t|vis|c|d]; simpl in Hs.
  1,2,4: repeat (case_match; try discriminate Hs); simplify_eq; apply (basic_local s); try done; simpl; auto;
    intros t' y [(<- & -> & _)|[_ ?]]%lookup_insert_list; auto; by right.
  - destruct (adders s !! t) as [x|] eqn:Ht; [|done].
    destruct x; eauto using basic_add, basic_install, basic_wake.
  - by eapply basic_run.
  - unfold step_park in Hs. repeat (case_match; try discriminate Hs); simplify_eq;
      apply (basic_local s); try done; simpl; auto.
  - simplify_eq. apply (basic_local s); try done; simpl; auto. unfold now, now_of. simpl. lia.
Qed.

Lemma basic_init n : basic (new n).
Proof.
  split; simpl; [..|done|by intros e ?%not_elem_of_nil].
  1,2: intros ? ?; by rewrite lookup_empty.
  intros t x Hx. by apply lookup_replicate in Hx as [-> _].
Qed.

(** ** Each list in use has one owner *)

Definition own_e (l : nat) (e : IntervalEntry) : Z := b2z (bool_decide (elist e = l)).
Definition own_a (l : nat) (x : apc) : Z := match x with AHeap e _ => own_e l e | _ => 0 end.
Definition own_t (l : nat) (x : tpc) : Z := match x with SHeap _ e | SRePeek _ e => own_e l e | _ => 0 end.
Definition owners (l : nat) (s : state) : Z :=
  zsum (own_e l) (timer_bh (timer_list s)) + zsum (own_a l) (adders s) + own_t l (timer s).

Definition owned (s : state) : Prop :=
  forall l w, lists (timer_list s) !! l = Some w -> owners l s = b2z (0 <? in_use w)%Z.

Definition will_install (l : nat) (w : Wrapper) (x : apc) : bool :=
  match x with
  | AHead l' _ _ _ prev => bool_decide (l' = l /\ prev = tail w)
  | AInstall e _ => bool_decide (elist e = l)
  | _ => false
  end.
Definition busy (l : nat) (x : tpc) : bool :=
  match x with
  | SPop _ e | SNext _ e | SReinsert _ e _ | SEmpty _ e | SReAdd _ e => bool_decide (elist e = l)
  | _ => false
  end.

(** A list with timers is in use, or somebody is about to install it. *)
Definition linked (s : state) : Prop :=
  forall l w, lists (timer_list s) !! l = Some w -> inner w <> [] ->
    (0 < in_use w)%Z \/ (exists t x, adders s !! t = Some x /\ will_install l w x = true) \/
    busy l (timer s) = true.

Lemma own_e_nonneg l e : (0 <= own_e l e)%Z.
Proof. unfold own_e. apply b2z_nonneg. Qed.
Lemma own_a_nonneg l x : (0 <= own_a l x)%Z.
Proof. destruct x; simpl; try done. apply own_e_nonneg. Qed.
Lemma own_t_nonneg l x : (0 <= own_t l x)%Z.
Proof. destruct x; simpl; try done; apply own_e_nonneg. Qed.
Lemma own_e_same l e : elist e = l -> own_e l e = 1%Z.
Proof. intros. unfold own_e. by rewrite bool_decide_eq_true_2. Qed.
Lemma own_e_other l e : elist e <> l -> own_e l e = 0%Z.
Proof. intros. unfold own_e. by rewrite bool_decide_eq_false_2. Qed.

Lemma owners_nonneg l s :
  (0 <= zsum (own_e l) (timer_bh (timer_list s)) /\ 0 <= zsum (own_a l) (adders s) /\ 0 <= own_t l (timer s))%Z.
Proof. split_and!; [apply zsum_nonneg, own_e_nonneg|apply zsum_nonneg, own_a_nonneg|apply own_t_nonneg]. Qed.

(** A list nobody has heard of has no owner. *)
Lemma fresh_owners s l : basic s -> lists (timer_list s) !! l = None -> owners l s = 0%Z.
Proof.
  intros Hb Hl.
  assert (He : forall e, entry_ok s e -> own_e l e = 0%Z)
    by (intros e (w & Hw & _); apply own_e_other; congruence).
  unfold owners. rewrite !zsum_all_zero; [|..].
  - pose proof (bs_timer _ Hb) as Ht. destruct (timer s); try done; destruct Ht as [_ Ht]; simpl.
    + destruct Ht as (w & Hw & _). rewrite own_e_other; [done|congruence].
    + by rewrite He.
  - intros i x Hx. pose proof (bs_adders _ Hb _ _ Hx). destruct x; simpl in *; try done. by apply He.
  - intros i e Hx. apply He, (bs_heap _ Hb). by eapply list_elem_of_lookup_2.
Qed.

(** The change of one list's owners and counter. *)
Lemma owned_change s s' l :
  owned s ->
  (forall k, k <> l -> owners k s' = owners k s) ->
  (forall k w', k <> l -> lists (timer_list s') !! k = Some w' ->
     exists w, lists (timer_list s) !! k = Some w /\ in_use w' = in_use w) ->
  (forall w', lists (timer_list s') !! l = Some w' -> owners l s' = b2z (0 <? in_use w')%Z) ->
  owned s'.
Proof.
  intros Ho Hk Hw Hl k w' Hw'. destruct (decide (k = l)) as [->|Hne]; [by apply Hl|].
  destruct (Hw _ _ Hne Hw') as (w & Hw0 & ->). rewrite Hk by done. by apply Ho.
Qed.

(** A step that changes neither owners nor counters. *)
Lemma owned_same s s' :
  owned s -> (forall l, owners l s' = owners l s) ->
  (forall l w', lists (timer_list s') !! l = Some w' ->
     exists w, lists (timer_list s) !! l = Some w /\ in_use w' = in_use w) -> owned s'.
Proof. intros Ho Hk Hw l w' Hw'. destruct (Hw _ _ Hw') as (w & Hw0 & ->). rewrite Hk. by apply Ho. Qed.

Lemma b2z_pos z : (0 < z)%Z -> b2z (0 <? z)%Z = 1%Z.
Proof. intros. by rewrite (proj2 (Z.ltb_lt 0 z)). Qed.
Lemma b2z_zero z : (z <= 0)%Z -> b2z (0 <? z)%Z = 0%Z.
Proof. intros. by rewrite (proj2 (Z.ltb_ge 0 z)). Qed.

Ltac owned_tac l Hw Ho :=
  eapply (owned_change _ _ l Ho); simpl; unfold owners; simpl;
  [ intros k Hk; zsum_update; simpl; try lia
  | intros k v Hk; rewrite lookup_insert_ne by done; eauto
  | intros v; rewrite lookup_insert_eq; intros; simplify_eq; pose proof (Ho _ _ Hw) as Hsum; unfold owners in Hsum;
    zsum_update; simpl ].

Lemma owned_add s t x s' :
  basic s -> owned s -> adders s !! t = Some x ->
  (step_add t x s = Some s' \/ step_wake t x s = Some s') -> owned s'.
Proof.
  intros Hb Ho Ht Hs.
  assert (Hnone : lists (timer_list s) !! fresh_list (timer_list s) = None).
  { destruct (lists _ !! _) as [w|] eqn:Hw; [|done]. destruct (bs_lists _ Hb _ _ Hw). lia. }
  destruct Hs as [Hs|Hs]; destruct x; simpl in Hs; try discriminate Hs; unfold enqueue, insert_list in Hs;
    repeat (case_match; try discriminate Hs); try (apply bind_Some in Hs as (? & ? & Hs)); simplify_eq/=;
    try (apply (owned_same s); [done|intros l; unfold owners; simpl; zsum_update; simpl; lia|simpl; by eauto]).
  - apply (owned_same s); [done|intros k; unfold owners; simpl; zsum_update; simpl; lia|simpl].
    intros k v. rewrite lookup_insert_Some. intros [[<- <-]|[_ ?]]; eauto.
  - apply (owned_change s _ (fresh_list (timer_list s))); [done|..]; simpl.
    + intros k _. unfold owners. simpl. zsum_update. simpl. lia.
    + intros k v Hk. rewrite lookup_insert_ne by done. eauto.
    + intros v. rewrite lookup_insert_eq. intros. simplify_eq/=. pose proof (fresh_owners _ _ Hb Hnone) as Hf.
      unfold owners in *. simpl. zsum_update. simpl. lia.
  - case_decide; (apply (owned_same s); [done|intros k; unfold owners; simpl; zsum_update; simpl; lia|simpl; by eauto]).
Qed.

Lemma in_use_nonneg s l w : basic s -> lists (timer_list s) !! l = Some w -> (0 <= in_use w)%Z.
Proof. intros Hb Hw. by destruct (bs_lists _ Hb _ _ Hw) as [(_ & _ & _ & ?) _]. Qed.

Lemma owned_install s t x s' :
  basic s -> owned s -> adders s !! t = Some x -> step_install t x s = Some s' -> owned s'.
Proof.
  intros Hb Ho Ht Hs. destruct x; simpl in Hs; try discriminate Hs.
  - apply bind_Some in Hs as (w & Hw & Hs). simplify_eq. pose proof (in_use_nonneg _ _ _ Hb Hw).
    owned_tac (elist e) Hw Ho; [case_match; simpl; rewrite ?own_e_other by done; lia|]. rewrite b2z_pos by lia.
    destruct (Z.eqb_spec (in_use w) 0); simpl; rewrite ?own_e_same by done.
    + rewrite b2z_zero in Hsum; lia.
    + rewrite b2z_pos in Hsum; lia.
  - simplify_eq. apply (owned_same s); [done|intros k; unfold owners; simpl; zsum_update; simpl; lia|simpl; eauto].
Qed.

Lemma owned_schedule s s' : basic s -> owned s -> step_schedule s = Some s' -> owned s'.
Proof.
  intros Hb Ho Hs. unfold step_schedule in Hs.
  destruct (timer s) as [| | | | | | |nw|nw e|nw e|nw e u|nw e|nw e|nw e|nw e|nw r st|] eqn:Ht; try discriminate Hs;
    unfold step_pop in Hs; try (apply bind_Some in Hs as (w & Hw & Hs));
    repeat (case_match; try discriminate Hs); try (apply bind_Some in Hs as (w & Hw & Hs)); simplify_eq;
    try (apply (owned_same s); [done|intros k; unfold owners; rewrite Ht; simpl; zsum_update; simpl; lia|simpl; by eauto]).
  all: try pose proof (in_use_nonneg _ _ _ Hb Hw) as Hu.
  - owned_tac (elist i) Hw Ho; unfold bh_pop; rewrite (zsum_delete _ _ _ _ H), ?Ht; simpl.
    + rewrite (own_e_other k i) by done. lia.
    + pose proof (owners_nonneg (elist i) s) as (_ & ? & ?). rewrite Ht in *. simpl in *.
      pose proof (zsum_lookup_le (own_e (elist i)) _ _ _ (own_e_nonneg _) H).
      rewrite (own_e_same _ i) in * by done. pose proof (b2z_le1 (0 <? in_use w)%Z). lia.
  - apply (owned_same s); [done|done|]. simpl. intros k v. rewrite lookup_insert_Some. intros [[<- <-]|[_ ?]]; eauto.
  - owned_tac (elist e) Hw Ho; rewrite ?Ht in *; simpl in *; try (rewrite own_e_other by done; done); rewrite own_e_same by done.
    rewrite b2z_zero in Hsum by lia. rewrite b2z_pos; lia.
  - owned_tac (elist e) Hw Ho; rewrite ?Ht in *; simpl in *; [done|]. rewrite b2z_pos in Hsum |- *; lia.
  - owned_tac (elist e) Hw Ho; rewrite ?Ht in *; simpl in *; try (rewrite own_e_other by done; done); rewrite own_e_same by done.
    rewrite b2z_zero in Hsum by lia. rewrite b2z_pos; lia.
  - owned_tac (elist e) Hw Ho; rewrite ?Ht in *; simpl in *; [done|]. rewrite b2z_pos in Hsum |- *; lia.
  - pose proof (bs_timer _ Hb) as Hok. rewrite Ht in Hok. destruct Hok as (_ & w' & ? & _ & ?). by simplify_eq.
  - apply (owned_same s); [done| |simpl; by eauto]. intros k. unfold owners. by rewrite Ht.
Qed.

Lemma owned_inv_step s e s' : basic s -> owned s -> step s e = Some s' -> owned s'.
Proof.
  intros Hb Ho Hs. destruct e as [t dur d|t h|t|t|vis|c|d]; simpl in Hs.
  - repeat (case_match; try discriminate Hs); simplify_eq.
    apply (owned_same s); [done|intros l; unfold owners; simpl; zsum_update; simpl; lia|simpl; by eauto].
  - repeat (case_match; try discriminate Hs); simplify_eq.
    apply (owned_same s); [done|intros l; unfold owners; simpl; zsum_update; simpl; lia|simpl; by eauto].
  - destruct (adders s !! t) as [x|] eqn:Ht; [|done].
    destruct x; eauto using owned_add, owned_install.
  - repeat (case_match; try discriminate Hs); simplify_eq.
    apply (owned_same s); [done|intros l; unfold owners; simpl; zsum_update; simpl; lia|simpl; by eauto].
  - unfold step_run in Hs. destruct (timer s) eqn:Ht; try (by apply (owned_schedule s));
      repeat (case_match; try discriminate Hs); simplify_eq;
      try (apply (owned_same s); [done|intros k; unfold owners; by rewrite Ht|simpl; by eauto]).
    apply (owned_same s); [done|intros k; unfold owners; by rewrite Ht|simpl].
    intros l w'. rewrite lookup_fmap_Some. intros (w & <- & Hw). by exists w.
  - unfold step_park in Hs. repeat (case_match; try discriminate Hs); simplify_eq;
      (apply (owned_same s); [done|intros l; unfold owners; by rewrite H|simpl; by eauto]).
  - simplify_eq. apply (owned_same s); [done|done|simpl; by eauto].
Qed.

(** What a step of an adding thread, or of the timer thread, must preserve. *)
Lemma linked_adder s s' t x y :
  linked s -> adders s !! t = Some x -> adders s' = <[t:=y]> (adders s) -> timer s' = timer s ->
  (forall l w', lists (timer_list s') !! l = Some w' -> inner w' <> [] ->
    (0 < in_use w')%Z \/ will_install l w' y = true \/
    exists w, lists (timer_list s) !! l = Some w /\ inner w <> [] /\ (in_use w <= in_use w')%Z /\
      tail w' = tail w /\ will_install l w x = false) -> linked s'.
Proof.
  intros Hl Ht Ha Htm Hs l w' Hw' Hne. rewrite Ha, Htm.
  destruct (Hs _ _ Hw' Hne) as [?|[?|(w & Hw & Hne' & Hu & Htl & Hx)]]; [by left|..].
  - right; left. exists t, y. split; [|done]. apply list_lookup_insert_eq. by eapply lookup_lt_Some.
  - destruct (Hl _ _ Hw Hne') as [?|[(i & z & Hz & Hwz)|?]]; [left; lia| |by right; right].
    right; left. exists i, z. split.
    + rewrite list_lookup_insert_ne; [done|]. intros ->. congruence.
    + destruct z; simpl in *; try done. by rewrite Htl.
Qed.

Lemma linked_timer s s' :
  linked s -> adders s' = adders s ->
  (forall l w', lists (timer_list s') !! l = Some w' -> inner w' <> [] ->
    (0 < in_use w')%Z \/ busy l (timer s') = true \/
    exists w, lists (timer_list s) !! l = Some w /\ inner w <> [] /\ (in_use w <= in_use w')%Z /\
      tail w' = tail w /\ busy l (timer s) = false) -> linked s'.
Proof.
  intros Hl Ha Hs l w' Hw' Hne. rewrite Ha.
  destruct (Hs _ _ Hw' Hne) as [?|[?|(w & Hw & Hne' & Hu & Htl & Hx)]]; [by left|by right; right|].
  destruct (Hl _ _ Hw Hne') as [?|[(i & z & Hz & Hwz)|?]]; [left; lia| |congruence].
  right; left. exists i, z. split; [done|]. destruct z; simpl in *; try done. by rewrite Htl.
Qed.

Lemma linked_adders s t x s' :
  basic s -> linked s -> adders s !! t = Some x ->
  (step_add t x s = Some s' \/ step_install t x s = Some s' \/ step_wake t x s = Some s') -> linked s'.
Proof.
  intros Hb Hl Ht [Hs|[Hs|Hs]]; destruct x as [|dur d|ivl td|l ivl td|ivl td|l ivl td h prev|e h|e h| | | |];
    simpl in Hs; try discriminate Hs;
    unfold enqueue, insert_list in Hs; repeat (case_match; try discriminate Hs);
    try (apply bind_Some in Hs as (w & Hw & Hs)); simplify_eq/=;
    eapply (linked_adder s _ t); simpl; try done; simpl;
    intros k v Hv Hne; try (right; right; exists v; by eauto).
  - rewrite lookup_insert_Some in Hv. destruct Hv as [[<- <-]|[_ Hv]]; [|right; right; exists v; by eauto].
    simpl in *. destruct (inner w) as [|n q] eqn:Hq.
    + right; left. unfold q_head, node_of. rewrite Hq. simpl. by rewrite bool_decide_eq_true_2.
    + right; right. exists w. by rewrite Hq.
  - rewrite lookup_insert_Some in Hv. destruct Hv as [[<- <-]|[_ Hv]]; [|right; right; exists v; by eauto].
    right; left. simpl. by rewrite bool_decide_eq_true_2.
  - right. destruct (decide (l = k)) as [->|Hk].
    + simplify_eq. case_decide as Hp; [left; simpl; by rewrite bool_decide_eq_true_2|right].
      exists w. rewrite bool_decide_eq_false_2; [done|]. by intros [_ ->].
    + right. exists v. rewrite bool_decide_eq_false_2; [done|]. by intros [? _].
  - pose proof (in_use_nonneg _ _ _ Hb Hw).
    rewrite lookup_insert_Some in Hv. destruct Hv as [[<- <-]|[Hk Hv]]; [left; simpl; lia|].
    right; right. exists v. rewrite bool_decide_eq_false_2; done.
Qed.

Lemma linked_schedule s s' : basic s -> linked s -> step_schedule s = Some s' -> linked s'.
Proof.
  intros Hb Hl Hs. unfold step_schedule in Hs.
  destruct (timer s) as [| | | | | | |nw|nw e|nw e|nw e u|nw e|nw e|nw e|nw e|nw r st|] eqn:Ht; try discriminate Hs;
    unfold step_pop in Hs; try (apply bind_Some in Hs as (w & Hw & Hs));
    repeat (case_match; try discriminate Hs); try (apply bind_Some in Hs as (w & Hw & Hs)); simplify_eq;
    apply (linked_timer s); simpl; try done; rewrite Ht; simpl;
    intros k v Hv Hne; try (right; right; exists v; by eauto).
  all: try pose proof (in_use_nonneg _ _ _ Hb Hw) as Hu.
  all: try (rewrite lookup_insert_Some in Hv; destruct Hv as [[<- <-]|[Hk Hv]]; simpl in *;
    [first [left; lia | right; left; by rewrite bool_decide_eq_true_2]
    |right; right; exists v; rewrite ?bool_decide_eq_false_2 by done; done]).
  all: destruct (decide (elist e = k)) as [<-|Hk];
    [first [congruence | right; left; by rewrite bool_decide_eq_true_2]
    |right; right; exists v; rewrite ?bool_decide_eq_false_2 by done; done].
Qed.

Lemma linked_inv_step s e s' : basic s -> linked s -> step s e = Some s' -> linked s'.
Proof.
  intros Hb Hl Hs. destruct e as [t dur d|t h|t|t|vis|c|d]; simpl in Hs.
  1,2,4: repeat (case_match; try discriminate Hs); simplify_eq; eapply (linked_adder s _ t); try done; simpl;
    intros k v Hv Hne; right; right; exists v; by eauto.
  - destruct (adders s !! t) as [x|] eqn:Ht; [|done].
    apply (linked_adders s t x s' Hb Hl Ht). destruct x; auto.
  - unfold step_run in Hs. destruct (timer s) eqn:Ht; try (by apply (linked_schedule s));
      repeat (case_match; try discriminate Hs); simplify_eq; apply (linked_timer s); try done; rewrite Ht; simpl;
      intros k v Hv Hne; right; right; try (exists v; by eauto).
    apply lookup_fmap_Some in Hv as (w & <- & Hw). exists w. split_and!; try done. intros Hq.
    apply Hne. unfold remove_in. by rewrite Hq.
  - unfold step_park in Hs. repeat (case_match; try discriminate Hs); simplify_eq; apply (linked_timer s); try done;
      rewrite H; simpl; intros k v Hv Hne; right; right; exists v; by eauto.
  - simplify_eq. done.
Qed.

(** ** The wake-up of the timer thread is not lost *)

Definition is_unpark (x : apc) : bool := match x with XUnpark _ => true | _ => false end.
Definition is_take (x : apc) : bool := match x with XTake _ => true | _ => false end.

(** The handle is registered, or somebody has taken it and unparks. *)
Definition armed (s : state) : Prop :=
  wakeup s = true \/ token s = true \/ has is_unpark (adders s) \/ timer s = RUnpark.
(** The next [park] returns, now or once the threads on their way have moved. *)
Definition pending (s : state) : Prop :=
  token s = true \/ has is_unpark (adders s) \/ timer s = RUnpark \/
  (wakeup s = true /\ has is_take (adders s)).

Definition registered (x : tpc) : bool :=
  match x with RPop | RRemove _ | RStore | SPanic => false | _ => true end.
Definition checked (x : tpc) : bool :=
  match x with RCheck | RTake => false | _ => registered x end.

Definition target_ok (x : tpc) (bh : list IntervalEntry) : Prop :=
  match x with
  | PPark nw r _ => forall e, e ∈ bh -> match r with Some d => (nw + d <= etime e)%Z | None => False end
  | _ => True
  end.
Definition calm (s : state) : Prop :=
  remove_list s = [] /\ target_ok (timer s) (timer_bh (timer_list s)).

Definition wake_ok (s : state) : Prop :=
  (registered (timer s) = true -> armed s) /\ (checked (timer s) = true -> calm s \/ pending s).

Lemma checked_registered x : checked x = true -> registered x = true.
Proof. by destruct x. Qed.

(** A thread that raises an alarm finds the handle, or the alarm is on already. *)
Lemma armed_pending s : armed s -> has is_take (adders s) -> pending s.
Proof. unfold armed, pending. tauto. Qed.

Lemma wake_adder s s' t x y :
  wake_ok s -> adders s !! t = Some x -> adders s' = <[t:=y]> (adders s) -> timer s' = timer s ->
  is_unpark x = false -> wakeup s' = wakeup s -> token s' = token s ->
  (is_take y = true \/ is_take x = false /\ remove_list s' = remove_list s /\
     timer_bh (timer_list s') = timer_bh (timer_list s)) -> wake_ok s'.
Proof.
  intros [H1 H2] Ht Ha Htm Hx Hw Hk Hy. unfold wake_ok. rewrite Htm.
  assert (Harm : registered (timer s) = true -> armed s').
  { intros Hr. specialize (H1 Hr). unfold armed in *. rewrite Hw, Hk, Ha, Htm.
    destruct H1 as [?|[?|[?|?]]]; auto. right; right; left. by eapply has_insert_other. }
  split; [done|]. intros Hc. destruct Hy as [Hy|(Hx' & Hrm & Hbh)].
  - right. apply armed_pending; [by apply Harm, checked_registered|]. rewrite Ha. by eapply has_insert_new.
  - destruct (H2 Hc) as [Hcalm|Hp]; [left|right].
    + unfold calm in *. by rewrite Hrm, Htm, Hbh.
    + unfold pending in *. rewrite Hw, Hk, Ha, Htm.
      destruct Hp as [?|[?|[?|[? ?]]]]; auto.
      * right; left. by eapply has_insert_other.
      * right; right; right. split; [done|]. by eapply has_insert_other.
Qed.

Lemma wake_adders s t x s' :
  wake_ok s -> adders s !! t = Some x ->
  (step_add t x s = Some s' \/ step_install t x s = Some s' \/ step_wake t x s = Some s') -> wake_ok s'.
Proof.
  intros Hok Ht [Hs|[Hs|Hs]]; destruct x as [|dur d|ivl td|l ivl td|ivl td|l ivl td h prev|e h|e h|h|r|r|];
    simpl in Hs; try discriminate Hs;
    unfold enqueue, insert_list in Hs; repeat (case_match; try discriminate Hs);
    try (apply bind_Some in Hs as (w & Hw & Hs)); simplify_eq/=;
    try (eapply (wake_adder s _ t); [done|done|done|done|done|done|done|]; simpl;
      first [by left | by right | case_match; simpl; auto]).
  - destruct Hok as [H1 H2]. split; simpl; intros Hr.
    + unfold armed. right; right; left. by eapply has_insert_new.
    + right. unfold pending. right; left. by eapply has_insert_new.
  - destruct Hok as [H1 H2]. split; simpl; intros Hr.
    + destruct (H1 Hr) as [?|[?|[?|?]]]; [congruence|..]; unfold armed; simpl; auto.
      right; right; left. by eapply has_insert_other.
    + destruct (H2 Hr) as [?|[?|[?|[?|[? ?]]]]]; [by left|..]; [| | |congruence]; right; unfold pending; simpl; auto.
      right; left. by eapply has_insert_other.
  - split; intros _; [|right]; unfold armed, pending; simpl; auto.
Qed.

Lemma wake_schedule s s' : basic s -> wake_ok s -> step_schedule s = Some s' -> wake_ok s'.
Proof.
  intros Hb [H1 H2] Hs. pose proof (bs_timer _ Hb) as Hok. unfold step_schedule in Hs.
  destruct (timer s) as [| | | | | | |nw|nw e|nw e|nw e u|nw e|nw e|nw e|nw e|nw r st|] eqn:Ht; try discriminate Hs;
    specialize (H1 eq_refl); specialize (H2 eq_refl);
    unfold step_pop in Hs; repeat (case_match; try discriminate Hs);
    try (apply bind_Some in Hs as (w & Hw & Hs)); repeat (case_match; try discriminate Hs); simplify_eq;
    (split; [intros _; unfold armed in *; simpl; rewrite Ht in H1; intuition discriminate|intros _]).
  all: destruct H2 as [[Hrm Htg]|H2];
    [|right; unfold pending in *; simpl; rewrite Ht in H2; intuition discriminate].
  all: left; split; [done|]; simpl; try done.
  - intros e' He'. destruct (top_entry _ _ H) as [_ Hmin]. specialize (Hmin _ He'). lia.
  - intros e' He'. destruct (timer_bh (timer_list s)) as [|e0 bh] eqn:Hbh; [by apply not_elem_of_nil in He'|].
    pose proof (top_lt (e0 :: bh) ltac:(done)) as Hlt. by apply lookup_ge_None in H; lia.
Qed.

Lemma wake_inv_step s e s' : basic s -> wake_ok s -> step s e = Some s' -> wake_ok s'.
Proof.
  intros Hb Hok Hs. destruct e as [t dur d|t h|t|t|vis|c|d]; simpl in Hs.
  1,2,4: repeat (case_match; try discriminate Hs); simplify_eq; eapply (wake_adder s _ t); try done; simpl; auto.
  - destruct (adders s !! t) as [x|] eqn:Ht; [|done].
    apply (wake_adders s t x s' Hok Ht). destruct x; auto.
  - unfold step_run in Hs. destruct (timer s) eqn:Ht; try (by apply (wake_schedule s)); destruct Hok as [H1 H2];
      rewrite Ht in H1, H2; simpl in H1, H2.
    + destruct (remove_list s); simplify_eq; by split.
    + destruct vis; simplify_eq; by split.
    + simplify_eq. split; intros; [by left|done].
    + specialize (H1 eq_refl). unfold armed in H1. rewrite Ht in H1.
      destruct (remove_list s) eqn:Hr; simplify_eq; split; simpl; try done; intros _;
        [unfold armed; simpl; intuition discriminate|left; split; [done|exact I]|unfold armed; simpl; intuition discriminate].
    + specialize (H1 eq_refl). unfold armed in H1. rewrite Ht in H1.
      destruct (wakeup s) eqn:Hw; simplify_eq; split; simpl; intros _;
        [by right; right; right|right; by right; right; left|unfold armed; simpl; intuition discriminate|].
      right. unfold pending. simpl. intuition discriminate.
    + simplify_eq. split; simpl; intros _; [by right; left|right; by left].
  - unfold step_park in Hs. repeat (case_match; try discriminate Hs); simplify_eq; by split.
  - simplify_eq. done.
Qed.

(** ** History: every node is fired at most once, not before its time *)

Definition member (s : state) (l : nat) (n : node) : Prop :=
  exists w, lists (timer_list s) !! l = Some w /\ n ∈ inner w.
Definition unlinked (s : state) (h : nat) : Prop := forall l n, member s l n -> nid n <> h.
Definition fired_ids (s : state) : list nat := map (fun p => nid p.1) (fired s).

Record hist (s : state) : Prop := {
  hi_uniq : forall l l' n n', member s l n -> member s l' n' -> nid n = nid n' -> l = l';
  hi_nodup : NoDup (fired_ids s);
  hi_out : forall h, h ∈ fired_ids s -> unlinked s h /\ h < fresh_node (timer_list s);
  hi_time : forall n t, (n, t) ∈ fired s -> (time (value n) <= t)%Z
}.

(** The members after a step: old ones, and at most one new node. *)
Definition members_step (s s' : state) (nw : option (nat * nat)) : Prop :=
  (forall l n, member s' l n -> member s l n \/ nw = Some (l, nid n)) /\
  (forall l h, nw = Some (l, h) -> fresh_node (timer_list s) <= h) /\
  fresh_node (timer_list s) <= fresh_node (timer_list s').

Lemma member_fresh s l n : basic s -> member s l n -> nid n < fresh_node (timer_list s).
Proof. intros Hb (w & Hw & Hn). destruct (bs_lists _ Hb _ _ Hw) as [(_ & Hok & _) _]. by destruct (Hok _ Hn) as (_ & ? & _). Qed.

Lemma members_unlinked s s' nw h :
  members_step s s' nw -> unlinked s h -> h < fresh_node (timer_list s) -> unlinked s' h.
Proof.
  intros (Hm & Hf & _) Hu Hh l n Hn He. destruct (Hm _ _ Hn) as [Ho|Hnew].
  - by apply (Hu l n).
  - specialize (Hf _ _ Hnew). lia.
Qed.

Lemma members_uniq s s' nw :
  basic s -> hist s -> members_step s s' nw ->
  forall l l' n n', member s' l n -> member s' l' n' -> nid n = nid n' -> l = l'.
Proof.
  intros Hb Hh (Hm & Hf & _) l l' n n' Hn Hn' He.
  destruct (Hm _ _ Hn) as [Ho|Hnew], (Hm _ _ Hn') as [Ho'|Hnew'].
  - by eapply hi_uniq.
  - pose proof (member_fresh _ _ _ Hb Ho). specialize (Hf _ _ Hnew'). lia.
  - pose proof (member_fresh _ _ _ Hb Ho'). specialize (Hf _ _ Hnew). lia.
  - congruence.
Qed.

Lemma hist_same s s' nw : basic s -> hist s -> members_step s s' nw -> fired s' = fired s -> hist s'.
Proof.
  intros Hb Hh Hm Hf. split; unfold fired_ids; rewrite ?Hf.
  - by eapply members_uniq.
  - by apply hi_nodup.
  - intros h Hin. destruct (hi_out _ Hh _ Hin) as [Hu Hl]. split; [by eapply members_unlinked|].
    destruct Hm as (_ & _ & ?). lia.
  - by apply hi_time.
Qed.

Lemma members_lists s s' :
  lists (timer_list s') = lists (timer_list s) -> fresh_node (timer_list s') = fresh_node (timer_list s) ->
  members_step s s' None.
Proof. intros Hl Hf. split_and!; [|done|lia]. intros l n (w & Hw & Hn). left. exists w. by rewrite <- Hl. Qed.

Lemma members_set s s' l w w' nw :
  lists (timer_list s) !! l = Some w -> lists (timer_list s') = <[l:=w']> (lists (timer_list s)) ->
  (forall n, n ∈ inner w' -> n ∈ inner w \/ nw = Some (l, nid n)) ->
  (forall l h, nw = Some (l, h) -> fresh_node (timer_list s) <= h) ->
  fresh_node (timer_list s) <= fresh_node (timer_list s') -> members_step s s' nw.
Proof.
  intros Hw Hl Hin Hf Hfn. split_and!; [|done|done]. intros k n (v & Hv & Hn). rewrite Hl, lookup_insert_Some in Hv.
  destruct Hv as [[<- <-]|[_ Hv]].
  - destruct (Hin _ Hn); [left; by exists w|by right].
  - left. by exists v.
Qed.

(** Either the members evolve and nothing is fired, or the head of a list is. *)
Lemma step_members s e s' :
  step s e = Some s' ->
  (exists nw, members_step s s' nw /\ fired s' = fired s) \/
  (exists nw en w n q, timer s = SPop nw en /\ lists (timer_list s) !! elist en = Some w /\ inner w = n :: q /\
     (time (value n) <= nw)%Z /\
     s' = log [(n, now s)] (set_tl (set_list (elist en) (Wr q (nid n) (in_use w) (ivl_of w)) (timer_list s)) s)).
Proof.
  intros Hs. destruct e as [t dur d|t h|t|t|vis|c|d]; simpl in Hs.
  1,2,4,6,7: left; exists None; unfold step_park in Hs; repeat (case_match; try discriminate Hs); simplify_eq;
    (split; [by apply members_lists|done]).
  - left. destruct (adders s !! t) as [x|] eqn:Ht; [|done].
    destruct x as [|dur d|ivl td|l ivl td|ivl td|l ivl td h prev|e h|e h|h|r|r|]; simpl in Hs; try discriminate Hs;
      unfold enqueue, insert_list in Hs; repeat (case_match; try discriminate Hs);
      try (apply bind_Some in Hs as (w & Hw & Hs)); simplify_eq/=;
      try (exists None; split; [by apply members_lists|done]).
    + eexists (Some (l, _)). split; [|done]. eapply members_set; simpl; [done|done|..|lia].
      * intros n. simpl. rewrite elem_of_app, list_elem_of_singleton. intros [?| ->]; [by left|by right].
      * intros l' h' ?. simplify_eq. done.
    + exists (Some (fresh_list (timer_list s), S (fresh_node (timer_list s)))). split; [|done]. split_and!; simpl; [|intros; simplify_eq; lia|lia].
      intros k n (v & Hv & Hn). simpl in Hv. rewrite lookup_insert_Some in Hv. destruct Hv as [[<- <-]|[_ Hv]].
      * simpl in Hn. apply list_elem_of_singleton in Hn as ->. by right.
      * left. by exists v.
    + exists None. split; [|done]. eapply members_set; simpl; [done|done|by left|done|done].
  - unfold step_run, step_schedule, step_pop in Hs. destruct (timer s) as [| | | | | | |nw|nw e|nw e|nw e u|nw e|nw e|nw e|nw e|nw r st|] eqn:Ht;
      repeat (case_match; try discriminate Hs); try (apply bind_Some in Hs as (w & Hw & Hs));
      repeat (case_match; try discriminate Hs); simplify_eq;
      try (left; exists None; split; [first [by apply members_lists | by eapply members_set; [done|simpl; done|by left|done|done]]|done]).
    + left. exists None. split; [|done]. split_and!; [|done|done]. intros l n (v & Hv & Hn). left.
      apply lookup_fmap_Some in Hv as (w & <- & Hw). exists w. split; [done|]. simpl in Hn. by eapply remove_node_elem.
    + right. exists nw, e, w, n, l. split_and!; try done. by apply Z.leb_le.
Qed.

Lemma sorted_nid_ne q n m : StronglySorted ordered (n :: q) -> m ∈ q -> nid m <> nid n.
Proof. intros [_ Hf]%StronglySorted_inv Hm. rewrite Forall_forall in Hf. destruct (Hf _ Hm). lia. Qed.

Lemma hist_inv_step s e s' : basic s -> hist s -> step s e = Some s' -> hist s'.
Proof.
  intros Hb Hh Hs.
  destruct (step_members _ _ _ Hs) as [(nw & Hm & Hf)|(nw & en & w & n & q & Ht & Hw & Hq & Htime & ->)];
    [by eapply hist_same|].
  pose proof (bs_timer _ Hb) as Hok. rewrite Ht in Hok. destruct Hok as [Hnw _].
  assert (Hn : member s (elist en) n) by (exists w; rewrite Hq; split; [done|constructor]).
  destruct (bs_lists _ Hb _ _ Hw) as [(Hsort & _) _]. rewrite Hq in Hsort.
  match goal with |- hist ?x => assert (Hm : members_step s x None) end.
  { eapply members_set; [exact Hw|simpl; done| |done|done]. intros m Hm. left. rewrite Hq. by constructor. }
  split; [by eapply members_uniq|..]; unfold fired_ids in *; simpl; rewrite ?map_app.
  - rewrite NoDup_app. split_and!; [by apply hi_nodup| |apply NoDup_singleton].
    intros h Hin ->%list_elem_of_singleton. destruct (hi_out _ Hh _ Hin) as [Hu _]. by eapply Hu.
  - intros h Hin. apply elem_of_app in Hin as [Hin|Hin].
    + destruct (hi_out _ Hh _ Hin) as [Hu Hl]. split; [|done]. by eapply members_unlinked.
    + apply list_elem_of_singleton in Hin as ->. split; [|by eapply member_fresh].
      intros l m Hml Heq. destruct (proj1 Hm _ _ Hml) as [Ho|]; [|done].
      pose proof (hi_uniq _ Hh _ _ _ _ Ho Hn Heq) as ->. destruct Hml as (w' & Hw' & Hin). simpl in Hw'.
      rewrite lookup_insert_eq in Hw'. simplify_eq. by apply (sorted_nid_ne q n m).
  - intros m t. rewrite elem_of_app, list_elem_of_singleton. intros [Hin|Hin]; [by eapply hi_time|].
    simplify_eq. lia.
Qed.

(** All of it together. *)
Record inv (s : state) : Prop := {
  inv_basic : basic s; inv_owned : owned s; inv_linked : linked s; inv_wake : wake_ok s; inv_hist : hist s
}.

Lemma tm_inv_step s e s' : inv s -> step s e = Some s' -> inv s'.
Proof.
  intros [] Hs. split;
    eauto using basic_inv_step, owned_inv_step, linked_inv_step, wake_inv_step, hist_inv_step.
Qed.

Lemma tm_inv_init n : inv (new n).
Proof.
  split; [apply basic_init| | | |].
  - intros l w Hw. simpl in Hw. by rewrite lookup_empty in Hw.
  - intros l w Hw. simpl in Hw. by rewrite lookup_empty in Hw.
  - by split.
  - split; simpl; [|constructor|by intros h ?%not_elem_of_nil|by intros m t ?%not_elem_of_nil].
    intros l l' m m' (w & Hw & _). simpl in Hw. by rewrite lookup_empty in Hw.
Qed.

Lemma tm_inv_reachable n s : reachable step (new n) s -> inv s.
Proof. apply reachable_ind_inv; [apply tm_inv_init|apply tm_inv_step]. Qed.

(** ** Properties *)

(** Nobody is in the middle of [add_timer] or [del_timer]. *)
Definition idle_adders (s : state) : Prop :=
  forall t x, adders s !! t = Some x -> x = Idle \/ exists r, x = Done r.

(** C10. No timer is lost and no wake-up is: when the timer thread is parked with no
    unpark token and nobody is in the middle of [add_timer] or [del_timer], no
    deletion is waiting, and the thread asked for a park of [d] such that [nw], the
    clock it read before it computed [d], plus [d] is no later than the due time (the
    instant a timer was linked plus its interval) of any linked timer; so it wakes
    late by no more than what passed between that reading and the start of the park.
    In particular, parked without a timeout, no timer is linked. *)
Theorem timer_not_lost n s nw r start
  (Hr : reachable step (new n) s) (Hp : timer s = PPark nw r start) (Htok : token s = false)
  (Hidle : idle_adders s) :
  remove_list s = [] /\
  forall l w x, lists (timer_list s) !! l = Some w -> x ∈ inner w ->
    exists d, r = Some d /\ (nw + d <= due w x)%Z.
Proof.
  destruct (tm_inv_reachable _ _ Hr) as [Hb Ho Hl [_ Hw] _].
  assert (Hno : forall P t x, adders s !! t = Some x -> P x = true -> P Idle = false -> (forall q, P (Done q) = false) -> False).
  { intros P t x Hx HP H1 H2. destruct (Hidle _ _ Hx) as [->|[q ->]]; [congruence|]. by rewrite H2 in HP. }
  rewrite Hp in Hw. destruct (Hw eq_refl) as [[Hrm Htg]|Hpend].
  - split; [done|]. intros l w x Hlw Hx. rewrite Hp in Htg. simpl in Htg.
    assert (Hne : inner w <> []) by (intros Hnil; rewrite Hnil in Hx; by apply not_elem_of_nil in Hx).
    destruct (Hl _ _ Hlw Hne) as [Hu|[(t & y & Hy & Hwi)|Hbusy]].
    + pose proof (Ho _ _ Hlw) as Hown. rewrite b2z_pos in Hown by done. unfold owners in Hown. rewrite Hp in Hown.
      rewrite (zsum_all_zero (own_a l)) in Hown.
      2: { intros t y Hy. destruct (Hidle _ _ Hy) as [->|[q ->]]; done. }
      simpl in Hown. destruct (zsum_nonzero (own_e l) (timer_bh (timer_list s))) as (i & e & He & Hone); [lia|].
      apply list_elem_of_lookup_2 in He. specialize (Htg _ He).
      assert (elist e = l) as <- by (destruct (decide (elist e = l)); [done|by rewrite own_e_other in Hone]).
      destruct (bs_heap _ Hb _ He) as (w' & Hw' & _ & _ & Hdue). simplify_eq. specialize (Hdue _ Hx).
      destruct r as [d|]; [|done]. exists d. split; [done|lia].
    + exfalso. by apply (Hno (will_install l w) t y).
    + by rewrite Hp in Hbusy.
  - exfalso. unfold pending in Hpend. rewrite Hp in Hpend.
    destruct Hpend as [?|[(t & y & Hy & HP)|[?|[_ (t & y & Hy & HP)]]]]; [congruence|by eapply (Hno is_unpark)|done|by eapply (Hno is_take)].
Qed.

(** C11. A timer fires at most once, never before its time, and not any more once
    it was unlinked (fired, or deleted while another timer of its interval was
    behind it): a handle of no linked node that has not fired never will.  The
    [unwrap] of [schedule_timer] does not panic. *)
Theorem fires_once_on_time n s
  (Hr : reachable step (new n) s) :
  NoDup (fired_ids s) /\ (forall x t, (x, t) ∈ fired s -> (time (value x) <= t)%Z) /\ timer s <> SPanic /\
  forall h s2, h < fresh_node (timer_list s) -> unlinked s h -> h ∉ fired_ids s ->
    reachable step s s2 -> h ∉ fired_ids s2.
Proof.
  pose proof (tm_inv_reachable _ _ Hr) as Hi. split_and!.
  - apply hi_nodup, Hi.
  - apply hi_time, Hi.
  - intros Hp. pose proof (bs_timer _ (inv_basic _ Hi)) as Hok. by rewrite Hp in Hok.
  - intros h s2 Hh Hu Hf Hr2.
    enough (inv s2 /\ h < fresh_node (timer_list s2) /\ unlinked s2 h /\ h ∉ fired_ids s2) by tauto.
    induction Hr2 as [|s1 e s2 _ (Hi1 & Hh1 & Hu1 & Hf1) Hs]; [done|]. split; [by eapply tm_inv_step|].
    destruct (step_members _ _ _ Hs) as [(nw & Hm & Hfd)|(nw & en & w & m & q & Ht & Hw & Hq & Htime & ->)].
    + split_and!; [destruct Hm as (_ & _ & ?); lia|by eapply members_unlinked|].
      unfold fired_ids. by rewrite Hfd.
    + split_and!; [done|..].
      * eapply members_unlinked; [|done|done]. eapply (members_set _ _ _ _ _ None); [exact Hw|simpl; done| |done|done].
        intros x Hx. left. rewrite Hq. by constructor.
      * unfold fired_ids in *. simpl. rewrite map_app, not_elem_of_app. split; [done|]. simpl.
        intros ->%list_elem_of_singleton. apply (Hu1 (elist en) m); [|done]. exists w. rewrite Hq. split; [done|constructor].
Qed.

(** [timeout_deadline] never overflows: the deadline is a [u64], not before
    [now] plus the duration unless that is unrepresentable, and then the latest
    instant there is. *)
Theorem timeout_deadline_bounds nw dur
  (Hnw : Word.is_usize nw) (Hdur : (0 <= dur)%Z) :
  let '(ivl, t) := timeout_deadline nw dur in
  Word.is_usize t /\ Word.is_usize ivl /\ t = (nw + ivl)%Z /\
  (nw + dur <= u64_max -> ivl = dur)%Z /\ (u64_max < nw + dur -> t = u64_max)%Z.
Proof. unfold timeout_deadline, Word.is_usize, u64_max in *. split_and!; lia. Qed.

End timer.

(** ** A concrete heap and a run *)

(** The first entry with the earliest time. *)
Fixpoint min_pos (bh : list IntervalEntry) : nat :=
  match bh with
  | [] => 0
  | e :: bh' =>
      match bh' !! min_pos bh' with
      | Some m => if (etime m <? etime e)%Z then S (min_pos bh') else 0
      | None => 0
      end
  end.

Lemma min_pos_lt bh : bh <> [] -> min_pos bh < length bh.
Proof.
  destruct bh as [|e bh]; [done|]. intros _. simpl. destruct (bh !! min_pos bh) eqn:Hm; [|lia].
  apply lookup_lt_Some in Hm. case_match; lia.
Qed.

Lemma min_pos_min bh e e' : bh !! min_pos bh = Some e -> e' ∈ bh -> (etime e <= etime e')%Z.
Proof.
  revert e. induction bh as [|a bh IH]; intros e He Hin; [done|]. simpl in He.
  assert (Hnil : bh !! min_pos bh = None -> bh = []).
  { intros Hn. destruct bh as [|b bh]; [done|]. apply lookup_ge_None in Hn.
    pose proof (min_pos_lt (b :: bh) ltac:(done)). lia. }
  apply elem_of_cons in Hin. destruct (bh !! min_pos bh) as [m|] eqn:Hm.
  - destruct (Z.ltb_spec (etime m) (etime a)) as [Hlt|Hge]; simpl in He.
    + assert (e = m) as -> by congruence. destruct Hin as [->|Hin]; [lia|by apply IH].
    + simplify_eq. destruct Hin as [->|Hin]; [done|]. specialize (IH m eq_refl Hin). lia.
  - simplify_eq/=. destruct Hin as [->|Hin]; [done|]. rewrite Hnil in Hin by done. by apply not_elem_of_nil in Hin.
Qed.

#[global] Instance min_heap : BinaryHeap.
Proof.
  refine {| top := min_pos; top_lt := min_pos_lt |}.
  intros bh e e' He Hin. pose proof (min_pos_min _ _ _ He Hin). unfold entry_cmp.
  destruct (Z.compare_spec (etime e') (etime e)); [done|lia|done].
Defined.

Definition ticks (t k : nat) : list (@event nat) := replicate k (Tick t).
Definition runs (k : nat) : list (@event nat) := replicate k (Run true).
(** Two timers with different intervals; the timer thread runs between their
    insertions, and fires both in the end. *)
Definition demo_add : list (@event nat) :=
  [CAdd 0 10%Z 100; CAdd 1 5%Z 200] ++ ticks 0 6 ++ runs 5 ++ ticks 1 3 ++ [Advance 1] ++ ticks 1 4 ++
  [Park ByToken] ++ runs 5.
Definition demo_fire : list (@event nat) :=
  demo_add ++ [Advance 20; Park ByTimeout] ++ runs 15.
Definition final (es : list (@event nat)) : state := default (new 2) (run step es (new 2)).

Example demo_add_result : timer (final demo_add) = PPark 1 (Some 4%Z) 1 /\ adders (final demo_add) = [Done (Some 1); Done (Some 3)].
Proof. by vm_compute. Qed.
Example timer_demo_result :
  map (fun p => (data (value p.1), time (value p.1), p.2)) (fired (final demo_fire)) = [(200, 5%Z, 21%Z); (100, 10%Z, 21%Z)].
Proof. by vm_compute. Qed.

Lemma timer_not_lost_witness :
  remove_list (final demo_add) = [] /\
  forall l w x, lists (timer_list (final demo_add)) !! l = Some w -> x ∈ inner w ->
    exists d, Some 4%Z = Some d /\ (1 + d <= due w x)%Z.
Proof.
  apply (timer_not_lost 2 _ 1 (Some 4%Z) 1).
  - apply run_reachable with (es := demo_add). vm_compute. reflexivity.
  - vm_compute. reflexivity.
  - vm_compute. reflexivity.
  - intros [|[|t]] x; vm_compute; intros Hx; [..|discriminate Hx]; injection Hx as <-; right; by eexists.
Defined.

Lemma fires_once_on_time_witness :
  let s := final demo_fire in
  NoDup (fired_ids s) /\ (forall x t, (x, t) ∈ fired s -> (time (value x) <= t)%Z) /\ timer s <> SPanic /\
  forall h s2, h < fresh_node (timer_list s) -> unlinked s h -> h ∉ fired_ids s ->
    reachable step s s2 -> h ∉ fired_ids s2.
Proof. apply (fires_once_on_time 2). apply run_reachable with (es := demo_fire). vm_compute. reflexivity. Defined.

Lemma timeout_deadline_bounds_witness :
  let '(ivl, t) := timeout_deadline (u64_max - 5) 10 in
  Word.is_usize t /\ Word.is_usize ivl /\ t = (u64_max - 5 + ivl)%Z /\
  (u64_max - 5 + 10 <= u64_max -> ivl = 10)%Z /\ (u64_max < u64_max - 5 + 10 -> t = u64_max)%Z.
Proof. apply (timeout_deadline_bounds (u64_max - 5) 10); [split; vm_compute; discriminate|lia]. Defined.

End Tm.
