(* ===== verification/Suspend.v ===== *)
(** * Suspend: how a coroutine is suspended and resumed

    The kernel side of one event source: [EventSource::subscribe] of
    [src/park.rs] and of the I/O operations under [src/io/sys/unix/net/], the
    wake-up by [Park::unpark] or by the selector, [CancelImpl::cancel] of
    [src/cancel.rs] and the timer handlers.  The coroutine is in exactly one of
    these places: running, in the slot, in a run queue, or in the hands of the
    thread that executes [subscribe].  [Park] and [NetIo] add what the coroutine
    itself does. *)

From stdpp Require Import base numbers list.
From Stdlib Require Import ZArith Lia.
From S2P Require Import Prelude.

Module Sus.

(** [EventResult]: the error a resumed coroutine finds. *)
Inductive result := RTimedOut | RCanceled.

(** What a source's [subscribe] does: does it guard itself against an early drop
    ([DelayDrop]), does it register for cancellation. *)
Record kind := Kind { k_guard : bool; k_cancel : bool }.

(** A thread that acts on the source; [b] tells that it runs inside [subscribe]. *)
Inductive agent :=
  | AIdle
  | SubTimer (k : kind) (d : bool)
  | SubGuard (k : kind)
  | SubStore (k : kind)
  | SubCheck (k : kind)
  | SubTake (k : kind)
  | SubCancelSet (k : kind)
  | SubCancelCheck (k : kind)
  | SubRelease
  | WakeSet (bits : Z)
  | WakeTake
  | CanOr (b : bool) | CanSlot (b : bool) | CanCo (b : bool)
  | Fire.

(** [flag]: [Park::state] or [EventData::io_flag]; [slot]: the coroutine is in
    [wait_co] or [EventData::co]; [timer]: a timer handle is kept; [armed]: timers
    that may fire; [dels]: deletions the timer thread has not done yet; [cstate]
    and [cslot]: [CancelImpl]; [guard]: [DelayDrop::can_drop]; [ready]: the
    coroutine is in a run queue, with its result; [reg] (history): the coroutine
    in the slot was stored by a source that registers for cancellation. *)
Record susp := SU {
  flag : Z; slot : bool; timer : bool; armed : nat; dels : nat;
  cstate : Z; cslot : bool; guard : Z;
  ready : option (option result); running : bool; para : option result;
  agents : list agent; reg : bool
}.

Definition new (n : nat) : susp :=
  SU 0 false false 0 0 0 false 0 None true None (replicate n AIdle) false.

Definition set_flag (x : Z) (s : susp) : susp :=
  SU x (slot s) (timer s) (armed s) (dels s) (cstate s) (cslot s) (guard s) (ready s) (running s) (para s) (agents s) (reg s).
Definition set_timer (t : bool) (a : nat) (d : nat) (s : susp) : susp :=
  SU (flag s) (slot s) t a d (cstate s) (cslot s) (guard s) (ready s) (running s) (para s) (agents s) (reg s).
Definition set_cancel (c : Z) (b : bool) (s : susp) : susp :=
  SU (flag s) (slot s) (timer s) (armed s) (dels s) c b (guard s) (ready s) (running s) (para s) (agents s) (reg s).
Definition set_guard (g : Z) (s : susp) : susp :=
  SU (flag s) (slot s) (timer s) (armed s) (dels s) (cstate s) (cslot s) g (ready s) (running s) (para s) (agents s) (reg s).
Definition set_co (b : bool) (q : option (option result)) (r : bool) (p : option result) (s : susp) : susp :=
  SU (flag s) b (timer s) (armed s) (dels s) (cstate s) (cslot s) (guard s) q r p (agents s) (reg s).
Definition set_reg (r : bool) (s : susp) : susp :=
  SU (flag s) (slot s) (timer s) (armed s) (dels s) (cstate s) (cslot s) (guard s) (ready s) (running s) (para s) (agents s) r.
Definition set_agent (i : nat) (a : agent) (s : susp) : susp :=
  SU (flag s) (slot s) (timer s) (armed s) (dels s) (cstate s) (cslot s) (guard s) (ready s) (running s) (para s)
    (<[i:=a]> (agents s)) (reg s).

(** ** [CancelImpl] *)
Definition is_canceled (s : susp) : bool := (cstate s =? 1)%Z.
Definition is_disabled (s : susp) : bool := (2 <=? cstate s)%Z.
Definition disable_cancel (s : susp) : susp := set_cancel (Word.add (cstate s) 2) (cslot s) s.
Definition enable_cancel (s : susp) : susp := set_cancel (Word.sub (cstate s) 2) (cslot s) s.

Section source.
(** [io]: the source is an I/O object, not a [Park]. *)
Context (io : bool).

(** Where a thread continues after [subscribe]'s last access. *)
Definition after (b : bool) : agent := if b then SubRelease else AIdle.
Definition fin (k : kind) : agent := after (k_guard k).

(** [AtomicOption::take] of the coroutine, and what is done with it: it is made
    ready with result [p]; a taker of an I/O object also disarms the timer. *)
Definition take_co (p : option result) (s : susp) : susp :=
  if slot s then
    let s' := set_co false (Some p) (running s) (para s) s in
    if (io && timer s)%bool then set_timer false (pred (armed s)) (dels s) s' else s'
  else s.

(** [subscribe]. *)
Definition step_subscribe (i : nat) (a : agent) (s : susp) : option susp :=
  match a with
  | SubTimer k d =>
      let s' := if d then set_timer true (S (armed s)) (dels s) s
                else if io then s else set_timer false (armed s) (dels s) s in
      Some (set_agent i (if k_guard k then SubGuard k else SubStore k) s')
  | SubGuard k => Some (set_agent i (SubStore k) (set_guard 2 s))
  | SubStore k =>
      Some (set_agent i (SubCheck k) (set_reg (k_cancel k) (set_co true (ready s) (running s) (para s) s)))
  | SubCheck k =>
      Some (set_agent i (if (flag s =? 0)%Z then if k_cancel k then SubCancelSet k else fin k else SubTake k) s)
  | SubTake k => Some (set_agent i (fin k) (take_co None s))
  | SubCancelSet k => Some (set_agent i (SubCancelCheck k) (set_cancel (cstate s) true s))
  | SubCancelCheck k => Some (set_agent i (if is_canceled s then CanOr (k_guard k) else fin k) s)
  | SubRelease => Some (set_agent i AIdle (set_guard (Z.land (guard s) 1) s))
  | _ => None
  end.

(** The wake-up: [Park::unpark_impl] acts only on the first set; the selector and
    [EventData::schedule] always look for the coroutine. *)
Definition step_wake (i : nat) (a : agent) (s : susp) : option susp :=
  match a with
  | WakeSet bits =>
      if io then Some (set_agent i WakeTake (set_flag (Z.lor (flag s) bits) s))
      else Some (set_agent i (if (flag s =? 0)%Z then WakeTake else AIdle) (set_flag 1 s))
  | WakeTake => Some (set_agent i AIdle (take_co None s))
  | _ => None
  end.

(** [CancelImpl::cancel]. *)
Definition step_cancel (i : nat) (a : agent) (s : susp) : option susp :=
  match a with
  | CanOr b => Some (set_agent i (CanSlot b) (set_cancel (Z.lor (cstate s) 1) (cslot s) s))
  | CanSlot b =>
      if cslot s then Some (set_agent i (CanCo b) (set_cancel (cstate s) false s))
      else Some (set_agent i (after b) s)
  | CanCo b =>
      Some (set_agent i (after b)
        (if slot s then set_co false (Some (if io then None else Some RCanceled)) (running s) (para s) s else s))
  | _ => None
  end.

(** The timer handlers. *)
Definition step_fire (i : nat) (a : agent) (s : susp) : option susp :=
  match a with
  | Fire =>
      let s' := if io then set_timer false (armed s) (dels s) s else s in
      Some (set_agent i AIdle
        (if slot s' then set_co false (Some (Some RTimedOut)) (running s') (para s') s' else s'))
  | _ => None
  end.

Inductive event :=
  | Act (i : nat)
  | Wake (i : nat) (bits : Z)
  | Cancel (i : nat)
  | Expire (i : nat)      (* the timer thread pops an expired timer *)
  | Disarm                (* the timer thread does a deletion *)
  | Resume.               (* a worker runs the coroutine *)

Definition step (s : susp) (e : event) : option susp :=
  match e with
  | Act i =>
      match agents s !! i with
      | Some a =>
          match a with
          | WakeSet _ | WakeTake => step_wake i a s
          | CanOr _ | CanSlot _ | CanCo _ => step_cancel i a s
          | Fire => step_fire i a s
          | _ => step_subscribe i a s
          end
      | None => None
      end
  | Wake i bits =>
      match agents s !! i with
      | Some AIdle => if (0 <? bits)%Z then Some (set_agent i (WakeSet bits) s) else None
      | _ => None
      end
  | Cancel i => match agents s !! i with Some AIdle => Some (set_agent i (CanOr false) s) | _ => None end
  | Expire i =>
      match agents s !! i, armed s with
      | Some AIdle, S a => Some (set_agent i Fire (set_timer (timer s) a (dels s) s))
      | _, _ => None
      end
  | Disarm =>
      match dels s, armed s with
      | S d, S a => Some (set_timer (timer s) a d s)
      | _, _ => None
      end
  | Resume => match ready s with Some p => Some (set_co (slot s) None true p s) | None => None end
  end.

(** ** What the running coroutine does to the source *)

(** [co_yield_with]: the worker [i] that ran the coroutine calls [subscribe]. *)
Definition suspend (i : nat) (k : kind) (d : bool) (s : susp) : option susp :=
  match agents s !! i with
  | Some AIdle =>
      if running s then Some (set_agent i (SubTimer k d) (set_co (slot s) (ready s) false (para s) s)) else None
  | _ => None
  end.
Definition take_para (s : susp) : susp := set_co (slot s) (ready s) (running s) None s.
Definition put_para (p : result) (s : susp) : susp := set_co (slot s) (ready s) (running s) (Some p) s.
(** [cancel.clear()] empties the I/O slot only. *)
Definition clear (s : susp) : susp := if io then set_cancel (cstate s) false s else s.

(** ** Invariant *)

Definition holds_co (a : agent) : Z :=
  match a with SubTimer _ _ | SubGuard _ | SubStore _ => 1 | _ => 0 end.
Definition is_some {A} (o : option A) : bool := match o with Some _ => true | None => false end.

(** Bound to look into the slot because of the flag. *)
Definition looks (a : agent) : bool :=
  match a with SubCheck _ | SubTake _ | WakeTake => true | _ => false end.
(** Bound to register for cancellation, or to take the coroutine. *)
Definition registers (a : agent) : bool :=
  match a with
  | SubCheck k => k_cancel k
  | SubTake _ | SubCancelSet _ | CanCo _ => true
  | _ => false
  end.
(** Bound to see the cancellation. *)
Definition cancels (a : agent) : bool :=
  match a with SubCancelCheck _ | CanOr _ | CanSlot _ => true | _ => registers a end.

Definition place (s : susp) : Z :=
  b2z (running s) + b2z (slot s) + b2z (is_some (ready s)) + zsum holds_co (agents s).

Record susp_ok (s : susp) : Prop := {
  so_place : place s = 1%Z;
  so_flag : slot s = true -> flag s <> 0%Z -> has looks (agents s);
  so_slot : slot s = true -> reg s = true -> cslot s = true \/ has registers (agents s);
  so_cancel : slot s = true -> reg s = true -> cstate s = 1%Z -> has cancels (agents s);
  so_bits : forall i b, agents s !! i = Some (WakeSet b) -> (0 < b)%Z
}.

Lemma registers_cancels a : registers a = true -> cancels a = true.
Proof. by destruct a. Qed.

(** A step of agent [i] from [a] to [y]; either the slot is empty afterwards, or it
    was full and the agent gives up no duty it had. *)
Lemma sus_ok_move s s' i a y :
  susp_ok s -> agents s !! i = Some a -> agents s' = <[i:=y]> (agents s) ->
  (b2z (running s') + b2z (slot s') + b2z (is_some (ready s')) + holds_co y =
   b2z (running s) + b2z (slot s) + b2z (is_some (ready s)) + holds_co a)%Z ->
  (forall b, y = WakeSet b -> (0 < b)%Z) ->
  (slot s' = true ->
    (slot s = true -> flag s' <> 0%Z -> looks y = true \/ (flag s <> 0%Z /\ looks a = false)) /\
    (slot s = true -> reg s' = true -> cslot s' = true \/ registers y = true \/
       (cslot s = false \/ cslot s' = cslot s) /\ registers a = false /\ reg s = true) /\
    (slot s = true -> reg s' = true -> cstate s' = 1%Z -> cancels y = true \/
       reg s = true /\ (cstate s = 1%Z /\ cancels a = false \/ cslot s = false /\ registers a = false)) /\
    (slot s = false -> looks y = true /\ (reg s' = true -> registers y = true))) ->
  susp_ok s'.
Proof.
  intros [Hp Hf Hs Hc Hb] Hi Ha Hpl Hbits Hslot. split.
  - unfold place in *. rewrite Ha. zsum_update. lia.
  - intros Hs' Hfl. destruct (Hslot Hs') as (H1 & _ & _ & H4). rewrite Ha. destruct (slot s) eqn:Hsl.
    + destruct (H1 eq_refl Hfl) as [?|[? ?]]; [by eapply has_insert_new|].
      eapply has_insert_other; eauto.
    + destruct (H4 eq_refl). by eapply has_insert_new.
  - intros Hs' Hr. destruct (Hslot Hs') as (_ & H2 & _ & H4). rewrite Ha. destruct (slot s) eqn:Hsl.
    + destruct (H2 eq_refl Hr) as [?|[?|(Hcs & ? & Hr0)]]; [by left|right; by eapply has_insert_new|].
      destruct (Hs eq_refl Hr0) as [?|?]; [|right; by eapply has_insert_other].
      destruct Hcs as [?| ->]; [congruence|by left].
    + destruct (H4 eq_refl) as [_ H5]. right. eapply has_insert_new; [done|by apply H5].
  - intros Hs' Hr Hcs. destruct (Hslot Hs') as (_ & _ & H3 & H4). rewrite Ha. destruct (slot s) eqn:Hsl.
    + destruct (H3 eq_refl Hr Hcs) as [?|[Hr0 [[? ?]|[Hcl ?]]]]; [by eapply has_insert_new|eapply has_insert_other; eauto|].
      destruct (Hs eq_refl Hr0) as [?|?]; [congruence|].
      eapply has_mono; [apply registers_cancels|]. by eapply has_insert_other.
    + destruct (H4 eq_refl) as [_ H5]. eapply has_insert_new; [done|]. apply registers_cancels. auto.
  - intros j b Hj. rewrite Ha in Hj. apply lookup_insert_list in Hj as [(_ & <- & _)|[_ ?]]; eauto.
Qed.

Lemma after_simpl b : looks (after b) = false /\ registers (after b) = false /\ cancels (after b) = false /\
  holds_co (after b) = 0%Z /\ forall x, after b <> WakeSet x.
Proof. by destruct b. Qed.

Lemma take_co_spec p s :
  slot (take_co p s) = false /\ agents (take_co p s) = agents s /\ running (take_co p s) = running s /\
  (b2z (is_some (ready (take_co p s))) = if slot s then 1 else b2z (is_some (ready s)))%Z.
Proof. unfold take_co. destruct (slot s) eqn:Hs; [case_match|]; by rewrite ?Hs. Qed.

(** The slot and the run queue are not both taken. *)
Lemma slot_ready s : susp_ok s -> slot s = true -> ready s = None /\ running s = false.
Proof.
  intros Hok Hs. pose proof (so_place _ Hok) as Hp. unfold place in Hp. rewrite Hs in Hp.
  assert (0 <= zsum holds_co (agents s))%Z by (apply zsum_nonneg; by intros []).
  destruct (ready s), (running s); simpl in Hp; try lia; done.
Qed.

(** A step that leaves the slot empty has only the place to account for. *)
Lemma sus_ok_taken s s' i a y :
  susp_ok s -> agents s !! i = Some a -> agents s' = <[i:=y]> (agents s) -> slot s' = false ->
  running s' = running s ->
  (b2z (is_some (ready s')) = if slot s then 1 else b2z (is_some (ready s)))%Z ->
  holds_co a = 0%Z -> holds_co y = 0%Z -> (forall b, y <> WakeSet b) -> susp_ok s'.
Proof.
  intros Hok Hi Ha Hs' Hr Hrd Ha0 Hy0 Hy.
  eapply (sus_ok_move s s' i a y); [done..| |by intros b ->; destruct (Hy b)|by rewrite Hs'].
  rewrite Hr, Hs', Hrd, Ha0, Hy0. destruct (slot s) eqn:Hs; [|simpl; lia].
  destruct (slot_ready s Hok Hs) as [-> ->]. simpl. lia.
Qed.

Lemma sus_ok_take s i a y :
  susp_ok s -> agents s !! i = Some a -> (exists k, a = SubTake k) \/ a = WakeTake ->
  y = fin (Kind true true) \/ y = fin (Kind false false) -> susp_ok (set_agent i y (take_co None s)).
Proof.
  intros Hok Hi Ha Hy. destruct (take_co_spec None s) as (H1 & H2 & H3 & H4).
  apply (sus_ok_taken s _ i a y); simpl; try done.
  - by rewrite H2.
  - by destruct Ha as [[k ->]| ->].
  - by destruct Hy as [->| ->].
  - by destruct Hy as [->| ->].
Qed.

Lemma fin_cases k : fin k = fin (Kind true true) \/ fin k = fin (Kind false false).
Proof. destruct k as [[] ?]; auto. Qed.

Lemma sus_ok_sub s i a s' :
  susp_ok s -> agents s !! i = Some a -> step_subscribe i a s = Some s' -> susp_ok s'.
Proof.
  intros Hok Hi Hs. destruct a; simpl in Hs; try discriminate Hs; simplify_eq/=.
  - destruct k as [g c]. destruct d, g; simpl; [..|destruct io|destruct io];
      (eapply (sus_ok_move s _ i _ _ Hok Hi); simpl; [done|simpl; lia|done|simpl; intros ->; naive_solver]).
  - eapply (sus_ok_move s _ i _ _ Hok Hi); simpl; [done|simpl; lia|done|simpl; intros ->; naive_solver].
  - eapply (sus_ok_move s _ i _ _ Hok Hi); simpl; [done| |done|simpl; naive_solver].
    assert (slot s = false) as ->; [|simpl; lia]. destruct (slot s) eqn:Hsl; [|done].
    pose proof (so_place _ Hok) as Hp. unfold place in Hp. rewrite Hsl in Hp.
    pose proof (zsum_lookup_le holds_co (agents s) i _ ltac:(by intros []) Hi). simpl in *.
    destruct (running s), (ready s); simpl in Hp; lia.
  - destruct k as [g c]. destruct (Z.eqb_spec (flag s) 0); [destruct c; [|destruct g]|];
      (eapply (sus_ok_move s _ i _ _ Hok Hi); simpl; [done|simpl; lia|done|simpl; intros ->; naive_solver]).
  - eapply sus_ok_take; [done..|left; by eexists|apply fin_cases].
  - eapply (sus_ok_move s _ i _ _ Hok Hi); simpl; [done|simpl; lia|done|simpl; intros ->; naive_solver].
  - destruct k as [g c]. unfold is_canceled. destruct (Z.eqb_spec (cstate s) 1); [|destruct g];
      (eapply (sus_ok_move s _ i _ _ Hok Hi); simpl; [done|simpl; lia|done|simpl; intros ->; naive_solver]).
  - eapply (sus_ok_move s _ i _ _ Hok Hi); simpl; [done|simpl; lia|done|simpl; intros ->; naive_solver].
Qed.

Lemma sus_ok_other s i a s' :
  susp_ok s -> agents s !! i = Some a ->
  step_wake i a s = Some s' \/ step_cancel i a s = Some s' \/ step_fire i a s = Some s' -> susp_ok s'.
Proof.
  intros Hok Hi [Hs|[Hs|Hs]]; destruct a; simpl in Hs; try discriminate Hs.
  - pose proof (so_bits _ Hok _ _ Hi) as Hb.
    destruct io; [|destruct (Z.eqb_spec (flag s) 0)]; simplify_eq;
      (eapply (sus_ok_move s _ i _ _ Hok Hi); simpl; [done|simpl; lia|done|simpl; intros ->; naive_solver]).
  - simplify_eq. eapply sus_ok_take; [done..|by right|by right].
  - simplify_eq. eapply (sus_ok_move s _ i _ _ Hok Hi); simpl; [done|simpl; lia|done|simpl; intros ->; naive_solver].
  - destruct (cslot s) eqn:Hc; simplify_eq; [|destruct b];
      (eapply (sus_ok_move s _ i _ _ Hok Hi); simpl; [done|simpl; lia|done|simpl; intros ->; rewrite ?Hc; naive_solver]).
  - simplify_eq. destruct (slot s) eqn:Hsl; apply (sus_ok_taken s _ i (CanCo b) (after b)); rewrite ?Hsl; try done;
      by destruct b.
  - simplify_eq. destruct io; simpl; destruct (slot s) eqn:Hsl; apply (sus_ok_taken s _ i Fire AIdle); rewrite ?Hsl; done.
Qed.

Lemma sus_ok_step s e s' : susp_ok s -> step s e = Some s' -> susp_ok s'.
Proof.
  intros Hok Hs. destruct e as [i|i b|i|i| |]; simpl in Hs.
  - destruct (agents s !! i) as [a|] eqn:Hi; [|done].
    destruct a; try (by eapply sus_ok_sub); (eapply sus_ok_other; [done..|]); tauto.
  - destruct (agents s !! i) as [[]|] eqn:Hi; try discriminate Hs. destruct (Z.ltb_spec 0 b); simplify_eq.
    eapply (sus_ok_move s _ i _ _ Hok Hi); simpl; [done|simpl; lia|naive_solver|simpl; intros ->; naive_solver].
  - destruct (agents s !! i) as [[]|] eqn:Hi; try discriminate Hs. simplify_eq.
    eapply (sus_ok_move s _ i _ _ Hok Hi); simpl; [done|simpl; lia|done|simpl; intros ->; naive_solver].
  - destruct (agents s !! i) as [[]|] eqn:Hi; try discriminate Hs. destruct (armed s); simplify_eq.
    eapply (sus_ok_move s _ i _ _ Hok Hi); simpl; [done|simpl; lia|done|simpl; intros ->; naive_solver].
  - destruct (dels s), (armed s); simplify_eq. destruct Hok. by split.
  - destruct (ready s) eqn:Hr; simplify_eq. pose proof (so_place _ Hok) as Hp. unfold place in Hp. rewrite Hr in Hp.
    pose proof (zsum_nonneg holds_co (agents s) ltac:(by intros [])). simpl in Hp.
    assert (running s = false /\ slot s = false) as [Hru Hsl] by (destruct (running s), (slot s); simpl in Hp; try lia; done).
    destruct Hok. split; simpl; rewrite ?Hsl; try done. unfold place in *. simpl. rewrite Hru, Hsl in Hp.
    rewrite ?Hsl. simpl in *. lia.
Qed.

(** What the running coroutine does: the slot is empty then. *)
Lemma running_slot s : susp_ok s -> running s = true -> slot s = false /\ ready s = None /\ zsum holds_co (agents s) = 0%Z.
Proof.
  intros Hok Hr. pose proof (so_place _ Hok) as Hp. unfold place in Hp. rewrite Hr in Hp.
  pose proof (zsum_nonneg holds_co (agents s) ltac:(by intros [])).
  destruct (slot s), (ready s); simpl in Hp; try lia. split_and!; [done..|lia].
Qed.

(** Changes of the coroutine's own fields. *)
Lemma sus_ok_local s s' :
  susp_ok s -> running s = true -> running s' = true -> slot s' = slot s -> ready s' = ready s ->
  agents s' = agents s -> susp_ok s'.
Proof.
  intros Hok Hr Hr' Hs Hrd Ha. destruct (running_slot s Hok Hr) as (Hsl & _ & _). destruct Hok.
  split; rewrite ?Ha, ?Hs, ?Hsl; try done. unfold place in *. rewrite Hr', Hs, Hrd, Ha. by rewrite Hr in *.
Qed.

Lemma sus_ok_suspend s i k d s' : susp_ok s -> suspend i k d s = Some s' -> susp_ok s' /\ running s = true.
Proof.
  intros Hok Hs. unfold suspend in Hs. destruct (agents s !! i) as [[]|] eqn:Hi; try discriminate Hs.
  destruct (running s) eqn:Hr; simplify_eq. split; [|done]. destruct (running_slot s Hok Hr) as (Hsl & _ & _).
  eapply (sus_ok_move s _ i _ _ Hok Hi); simpl; [done|simpl; rewrite Hr; simpl; lia|done|]. intros Hs'. simpl in Hs'. congruence.
Qed.

Lemma sus_ok_new n : susp_ok (new n).
Proof.
  split; simpl; try done.
  - unfold place. simpl. rewrite zsum_replicate. simpl. lia.
  - intros i b Hi. by apply lookup_replicate in Hi as [? _].
Qed.

(** Nobody is in the middle of anything. *)
Definition rest (s : susp) : Prop := forall i a, agents s !! i = Some a -> a = AIdle.

(** At rest, a coroutine in the slot has neither been signalled nor cancelled. *)
Lemma rest_slot s :
  susp_ok s -> rest s -> slot s = true -> flag s = 0%Z /\ (reg s = true -> cstate s <> 1%Z).
Proof.
  intros [_ Hf _ Hc _] Hrest Hs.
  assert (Hno : forall P, has P (agents s) -> P AIdle = false -> False).
  { intros P (i & a & Hi & HP) Hidle. rewrite (Hrest _ _ Hi) in HP. congruence. }
  split.
  - destruct (decide (flag s = 0%Z)) as [?|Hne]; [done|]. exfalso. by apply (Hno looks (Hf Hs Hne)).
  - intros Hr Hcs. by apply (Hno cancels (Hc Hs Hr Hcs)).
Qed.

End source.
End Sus.
