(* ===== verification/Park.v ===== *)
(** * Park: [src/park.rs] and [src/sync/delay_drop.rs]

    One coroutine parks, again and again, on one [Park]; threads unpark, cancel
    and time it out ([Suspend]). *)

From stdpp Require Import base numbers list.
From Stdlib Require Import ZArith Lia.
From S2P Require Import Prelude Suspend.

Module Pk.
Import Sus.

(** ** [DelayDrop]: bit 1 of [can_drop] says that the kernel runs *)
Definition delay_drop : Z := 2.
Definition guard_drop (can_drop : Z) : Z := Z.land can_drop 1.
Definition must_wait (can_drop : Z) : bool := (can_drop =? 2)%Z.

Inductive outcome := OOk | OTimeout | OCanceled | OPanic | ODropped.

(** Where [check_park] returns to: the entry of [park_timeout], or its end; [sw]
    tells that [yield_back] has cleared the result of a cancelled coroutine that
    could not panic. *)
Inductive ret := CEnter (d : bool) | CLeave (sw : bool).

Inductive pc :=
  | PIdle
  | PChk1 (c : ret) | PChk2 (c : ret) | PChk3 (c : ret)
  | PWait (d : bool) | PDur (d : bool) | PYield (d : bool) | PGo (d : bool)
  | PAway
  | PBack
  | PDel (sw : bool) | PPara (sw : bool)
  | PDrop
  | PDone (o : outcome).

(** [check_cancel], and history: [ups], the [unpark]s that set the state; [oks],
    the parks that returned [Ok]; [stale], the coroutine was resumed by an unpark
    whose token may have been used already. *)
Record state := St { sp : susp; at_ : pc; check_cancel : bool; ups : Z; oks : Z; stale : bool }.

Definition init (n : nat) : state := St (new n) PIdle true 0 0 false.

Definition set_sp (x : susp) (s : state) : state := St x (at_ s) (check_cancel s) (ups s) (oks s) (stale s).
Definition set_at (x : pc) (s : state) : state := St (sp s) x (check_cancel s) (ups s) (oks s) (stale s).
Definition finish (o : outcome) (s : state) : state :=
  St (sp s) (PDone o) (check_cancel s) (ups s) (match o with OOk => oks s + 1 | _ => oks s end)%Z (stale s).
Definition clear_token (s : state) : state :=
  St (set_flag 0 (sp s)) (at_ s) (check_cancel s) (ups s) (oks s) false.

(** [Park] registers for cancellation and guards its [subscribe]. *)
Definition park_kind : kind := Kind true true.

(** [check_park]: a load, then a store or a swap; true means "block". *)
Definition step_check (x : pc) (s : state) : option state :=
  match x with
  | PChk1 c => Some (set_at (if (flag (sp s) =? 0)%Z then PChk3 c else PChk2 c) s)
  | PChk2 c =>
      match c with
      | CEnter _ => Some (finish OOk (clear_token s))
      | CLeave sw => Some (set_at (PDel sw) (clear_token s))
      end
  | PChk3 c =>
      match c with
      | CEnter d =>
          if (flag (sp s) =? 0)%Z then Some (set_at (PWait d) s) else Some (finish OOk (clear_token s))
      | CLeave sw => Some (set_at (PDel sw) (clear_token s))
      end
  | _ => None
  end.

(** [remove_timeout_handle]; [link] is [TimeoutHandle::is_link]. *)
Definition remove_timeout_handle (link : bool) (s : susp) : susp :=
  if timer s then set_timer false (armed s) (if link then S (dels s) else dels s) s else s.

(** [yield_back], of a thread that is [panicking]: a cancelled coroutine panics. *)
Definition yield_back (panicking : bool) (s : state) : state :=
  if (check_cancel s && is_canceled (sp s))%bool then
    let s' := set_sp (take_para (sp s)) s in
    if panicking then set_at (PChk1 (CLeave true)) s' else finish OPanic s'
  else set_at (PChk1 (CLeave false)) s.

(** [park_timeout] and [drop]; [b] resolves [panicking] and [is_link]. *)
Definition step_co (b : bool) (s : state) : option state :=
  match at_ s with
  | PChk1 _ | PChk2 _ | PChk3 _ => step_check (at_ s) s
  | PWait d => if must_wait (guard (sp s)) then None else Some (set_at (PDur d) s)
  | PDur d => Some (set_at (PYield d) s)
  | PYield d =>
      Some (if is_canceled (sp s) then yield_back b (set_sp (put_para RCanceled (sp s)) s) else set_at (PGo d) s)
  | PBack => Some (yield_back b s)
  | PDel sw => Some (set_at (PPara sw) (set_sp (remove_timeout_handle b (sp s)) s))
  | PPara sw =>
      let s' := set_sp (take_para (sp s)) s in
      Some (match para (sp s) with
            | Some RTimedOut => finish OTimeout s'
            | Some RCanceled => finish OCanceled s'
            | None => if sw then set_at (PDone OOk) s' else finish OOk s'
            end)
  | PDrop => if must_wait (guard (sp s)) then None else Some (set_at (PDone ODropped) s)
  | _ => None
  end.

(** The kernel's moves; an [unpark] that sets the state is counted. *)
Definition step_kernel (e : Sus.event) (s : state) : option state :=
  sp' ← Sus.step false (sp s) e;
  Some (match e with
        | Sus.Resume => St sp' PBack (check_cancel s) (ups s) (oks s) (stale s)
        | Sus.Act i =>
            match agents (sp s) !! i with
            | Some (WakeSet _) =>
                St sp' (at_ s) (check_cancel s) (if (flag (sp s) =? 0)%Z then ups s + 1 else ups s)%Z (oks s) (stale s)
            | Some WakeTake => St sp' (at_ s) (check_cancel s) (ups s) (oks s) (slot (sp s) || stale s)
            | _ => set_sp sp' s
            end
        | _ => set_sp sp' s
        end).

Inductive event :=
  | CPark (d : bool) | CDrop | CIgnoreCancel (b : bool) | CDisable | CEnable
  | Tick (b : bool)
  | Yield (i : nat)      (* [co_yield_with]: worker [i] calls [subscribe] *)
  | Kernel (e : Sus.event)
  | Return.

Definition step (s : state) (e : event) : option state :=
  match e with
  | CPark d => match at_ s with PIdle => Some (set_at (PChk1 (CEnter d)) s) | _ => None end
  | CDrop => match at_ s with PIdle => Some (set_at PDrop s) | _ => None end
  | CIgnoreCancel b =>
      match at_ s with PIdle => Some (St (sp s) PIdle (negb b) (ups s) (oks s) (stale s)) | _ => None end
  | CDisable => match at_ s with PIdle => Some (set_sp (disable_cancel (sp s)) s) | _ => None end
  | CEnable => match at_ s with PIdle => Some (set_sp (enable_cancel (sp s)) s) | _ => None end
  | Tick b => step_co b s
  | Yield i =>
      match at_ s with
      | PGo d =>
          sp' ← suspend i park_kind d (sp s); Some (set_at PAway (set_sp sp' s))
      | _ => None
      end
  | Kernel e => step_kernel e s
  | Return => match at_ s with PDone o => match o with ODropped => None | _ => Some (set_at PIdle s) end | _ => None end
  end.

(** ** Invariant *)

Definition kind_ok (a : agent) : Prop :=
  match a with
  | SubTimer k _ | SubGuard k | SubStore k | SubCheck k | SubTake k | SubCancelSet k | SubCancelCheck k => k = park_kind
  | _ => True
  end.
(** Between [delay_drop] and the drop of its guard. *)
Definition inside (a : agent) : Z :=
  match a with
  | SubStore _ | SubCheck _ | SubTake _ | SubCancelSet _ | SubCancelCheck _ | SubRelease => 1
  | CanOr b | CanSlot b | CanCo b => b2z b
  | _ => 0
  end.
Definition before_guard (a : agent) : Z := match a with SubTimer _ _ | SubGuard _ => 1 | _ => 0 end.
Definition taking (a : agent) : bool := match a with SubTake _ => true | _ => false end.
Definition waking (a : agent) : Z := match a with WakeTake => 1 | _ => 0 end.

(** [can_drop.wait] has returned; a dropped [Park] stays so. *)
Definition waited (x : pc) : bool :=
  match x with PDur _ | PYield _ | PGo _ | PDone ODropped => true | _ => false end.
Definition is_away (x : pc) : bool := match x with PAway => true | _ => false end.
Definition is_none {A} (o : option A) : bool := match o with None => true | Some _ => false end.

(** The coroutine will return [Ok] and has used its token. *)
Definition will_ok (s : state) : bool :=
  match at_ s with PDel false | PPara false => is_none (para (sp s)) | _ => false end.
(** Resumed without a result, the state not cleared yet. *)
Definition resumed (s : state) : Prop :=
  ready (sp s) = Some None \/
  (para (sp s) = None /\
   match at_ s with PBack | PChk1 (CLeave false) | PChk2 (CLeave false) | PChk3 (CLeave false) => True | _ => False end).

Record inv (s : state) : Prop := {
  iv_sus : susp_ok (sp s);
  iv_run : running (sp s) = negb (is_away (at_ s));
  iv_kind : forall i a, agents (sp s) !! i = Some a -> kind_ok a;
  iv_guard : zsum inside (agents (sp s)) = b2z (must_wait (guard (sp s))) /\ (guard (sp s) = 0 \/ guard (sp s) = 2)%Z;
  iv_pre : waited (at_ s) = true \/ zsum before_guard (agents (sp s)) <> 0%Z -> guard (sp s) = 0%Z;
  iv_take : has taking (agents (sp s)) -> flag (sp s) = 0%Z -> slot (sp s) = false;
  iv_reg : slot (sp s) = true -> reg (sp s) = true;
  iv_units : (oks s + b2z (negb (flag (sp s) =? 0)%Z) + zsum waking (agents (sp s)) + b2z (stale s) + b2z (will_ok s)
              <= 2 * ups s)%Z;
  iv_src : resumed s -> flag (sp s) <> 0%Z \/ stale s = true;
  iv_chk : forall c, at_ s = PChk2 c -> flag (sp s) <> 0%Z
}.

Lemma before_guard_nonneg a : (0 <= before_guard a)%Z.
Proof. by destruct a. Qed.
Lemma inside_nonneg a : (0 <= inside a)%Z.
Proof. destruct a; simpl; try done; apply b2z_nonneg. Qed.
Lemma waking_nonneg a : (0 <= waking a)%Z.
Proof. by destruct a. Qed.

(** A running coroutine has nobody before the guard. *)
Lemma running_before s : susp_ok s -> running s = true -> zsum before_guard (agents s) = 0%Z.
Proof.
  intros Hok Hr. destruct (running_slot s Hok Hr) as (_ & _ & Hh).
  apply zsum_all_zero. intros i a Hi. pose proof (zsum_zero_lookup holds_co _ _ _ ltac:(by intros []) Hh Hi).
  by destruct a.
Qed.

(** Steps of the coroutine that leave the agents alone. *)
Lemma pk_inv_co s s' :
  inv s -> running (sp s) = true -> susp_ok (sp s') -> running (sp s') = true -> is_away (at_ s') = false ->
  agents (sp s') = agents (sp s) -> guard (sp s') = guard (sp s) -> slot (sp s') = slot (sp s) ->
  (waited (at_ s') = true -> guard (sp s) = 0%Z) ->
  (oks s' + b2z (negb (flag (sp s') =? 0)%Z) + b2z (stale s') + b2z (will_ok s') <=
   oks s + b2z (negb (flag (sp s) =? 0)%Z) + b2z (stale s) + b2z (will_ok s))%Z ->
  ups s' = ups s -> ready (sp s') = ready (sp s) ->
  (resumed s' -> flag (sp s') <> 0%Z \/ stale s' = true) ->
  (forall c, at_ s' = PChk2 c -> flag (sp s') <> 0%Z) -> inv s'.
Proof.
  intros Hi Hr Hok Hr' Haw Ha Hg Hs Hw Hu Hup Hrd Hres Hchk.
  destruct (running_slot _ (iv_sus _ Hi) Hr) as (Hsl & _ & _).
  split; rewrite ?Ha, ?Hg, ?Hs, ?Hup, ?Hsl; try done.
  - by rewrite Hr', Haw.
  - apply Hi.
  - apply Hi.
  - intros [?|Hb]; [auto|]. by rewrite running_before in Hb by (done || apply Hi).
  - pose proof (iv_units _ Hi). lia.
Qed.

Lemma sus_local_of s s' :
  inv s -> is_away (at_ s) = false -> running (sp s') = true -> slot (sp s') = slot (sp s) ->
  ready (sp s') = ready (sp s) -> agents (sp s') = agents (sp s) -> susp_ok (sp s').
Proof.
  intros Hi Ha Hr Hs Hrd Hag. apply (sus_ok_local (sp s)); try done; [apply Hi|].
  by rewrite (iv_run _ Hi), Ha.
Qed.

Lemma pk_inv_yield_back s b p :
  inv s -> is_away (at_ s) = false -> will_ok s = false ->
  (p = sp s /\ at_ s = PBack) \/ p = put_para RCanceled (sp s) ->
  inv (yield_back b (set_sp p s)).
Proof.
  intros Hi Haw Hwill Hp. assert (Hr : running (sp s) = true) by (by rewrite (iv_run _ Hi), Haw).
  destruct (running_slot _ (iv_sus _ Hi) Hr) as (_ & Hrd & _). pose proof (iv_src _ Hi) as Hsrc.
  assert (running p = true /\ slot p = slot (sp s) /\ ready p = ready (sp s) /\ agents p = agents (sp s) /\
          guard p = guard (sp s) /\ flag p = flag (sp s)) as (H1 & H2 & H3 & H4 & H5 & H6)
    by (by destruct Hp as [[-> _]| ->]).
  assert (Hok : forall p', running p' = true -> slot p' = slot p -> ready p' = ready p -> agents p' = agents p -> susp_ok p')
    by (intros; apply (sus_ok_local (sp s)); [apply Hi|congruence..]).
  unfold yield_back. simpl. destruct (check_cancel s && is_canceled p)%bool; [destruct b|];
    (apply (pk_inv_co s); simpl; try done; [by apply Hok|rewrite Hwill, ?H6; unfold will_ok; simpl; lia|]);
    unfold resumed; simpl; rewrite ?H3, ?Hrd, ?H6.
  - by intros [?|[_ ?]].
  - by intros [?|[_ ?]].
  - intros [?|[Hpara _]]; [done|]. destruct Hp as [[-> Hat]| ->]; [|done]. apply Hsrc. right. by rewrite Hat.
Qed.

Lemma pk_inv_check s s' : inv s -> step_check (at_ s) s = Some s' -> inv s'.
Proof.
  intros Hi Hs. assert (Hr : running (sp s) = true) by (rewrite (iv_run _ Hi); by destruct (at_ s)).
  destruct (running_slot _ (iv_sus _ Hi) Hr) as (_ & Hrd & _). pose proof (iv_src _ Hi) as Hsrc.
  pose proof (iv_chk _ Hi) as Hchk. unfold resumed in Hsrc.
  assert (Hok : forall p', running p' = true -> slot p' = slot (sp s) -> ready p' = ready (sp s) ->
    agents p' = agents (sp s) -> susp_ok p') by (intros; apply (sus_ok_local (sp s)); [apply Hi|congruence..]).
  destruct (at_ s) as [|c|c|c| | | | | | | | | |] eqn:Hat; simpl in Hs; try discriminate Hs.
  - destruct (Z.eqb_spec (flag (sp s)) 0) as [Hz|Hz]; simplify_eq;
      apply (pk_inv_co s); simpl; try done; try (unfold will_ok; rewrite Hat; simpl; lia);
      unfold resumed; simpl; try (intros [?|[? ?]]; [congruence|apply Hsrc; right; split; [done|by destruct c]]).
    all: by apply Hi.
  - specialize (Hchk c eq_refl). destruct c as [d|sw]; simplify_eq; apply (pk_inv_co s); simpl; try done;
      try (by apply Hok); unfold resumed, will_ok; simpl; rewrite ?Hat, ?Hrd; try (by intros [?|[_ ?]]).
    + destruct (Z.eqb_spec (flag (sp s)) 0); simpl; [done|]. pose proof (b2z_nonneg (stale s)). simpl. lia.
    + destruct (Z.eqb_spec (flag (sp s)) 0); simpl; [done|]. pose proof (b2z_nonneg (stale s)).
      destruct sw; [simpl; lia|]. pose proof (b2z_le1 (is_none (para (sp s)))). lia.
  - destruct c as [d|sw].
    + destruct (Z.eqb_spec (flag (sp s)) 0) as [Hz|Hz]; simplify_eq; apply (pk_inv_co s); simpl; try done;
        try (by apply Hok); try (by apply Hi); unfold resumed, will_ok; simpl; rewrite ?Hat, ?Hrd;
        try (by intros [?|[_ ?]]); try (simpl; lia).
      destruct (Z.eqb_spec (flag (sp s)) 0); simpl; [done|]. pose proof (b2z_nonneg (stale s)). simpl. lia.
    + simplify_eq. apply (pk_inv_co s); simpl; try done; try (by apply Hok); unfold resumed, will_ok; simpl;
        rewrite ?Hat, ?Hrd; try (by intros [?|[_ ?]]).
      pose proof (b2z_nonneg (stale s)). pose proof (b2z_nonneg (negb (flag (sp s) =? 0)%Z)).
      destruct sw; [simpl; lia|]. pose proof (b2z_le1 (is_none (para (sp s)))).
      destruct (para (sp s)) eqn:Hpara; simpl in *; [lia|].
      destruct Hsrc as [Hf| ->]; [by right| |simpl; lia].
      destruct (Z.eqb_spec (flag (sp s)) 0); simpl in *; [done|lia].
Qed.

(** A step that only moves the coroutine's program counter, or the timer, or the
    result it has read. *)
Lemma pk_inv_quiet s s' :
  inv s -> is_away (at_ s) = false -> is_away (at_ s') = false ->
  running (sp s') = running (sp s) -> slot (sp s') = slot (sp s) -> ready (sp s') = ready (sp s) ->
  agents (sp s') = agents (sp s) -> guard (sp s') = guard (sp s) -> flag (sp s') = flag (sp s) ->
  (waited (at_ s') = true -> guard (sp s) = 0%Z) ->
  ups s' = ups s -> stale s' = stale s -> (oks s' + b2z (will_ok s') <= oks s + b2z (will_ok s))%Z ->
  (resumed s' -> resumed s) -> (forall c, at_ s' = PChk2 c -> flag (sp s) <> 0%Z) -> inv s'.
Proof.
  intros Hi Ha Ha' H1 H2 H3 H4 H5 H6 H7 H8 H9 H10 H11 H12.
  assert (Hr : running (sp s) = true) by (by rewrite (iv_run _ Hi), Ha).
  apply (pk_inv_co s); try done; try congruence.
  - apply (sus_ok_local (sp s)); [apply Hi|congruence..].
  - rewrite H6, H9. lia.
  - rewrite H6, H9. intros ?. by apply Hi, H11.
  - rewrite H6. done.
Qed.

Lemma pk_inv_step_co s b s' : inv s -> step_co b s = Some s' -> inv s'.
Proof.
  intros Hi Hs. unfold step_co in Hs.
  destruct (at_ s) as [|c|c|c|d|d|d|d| | |sw|sw| |o] eqn:Hat; try discriminate Hs.
  1-3: apply (pk_inv_check s); [done|by rewrite Hat].
  - destruct (must_wait (guard (sp s))) eqn:Hg; simplify_eq. apply (pk_inv_quiet s); rewrite ?Hat; try done.
    + intros _. destruct (iv_guard _ Hi) as [_ [?|Hg2]]; [done|]. unfold must_wait in Hg. by rewrite Hg2 in Hg.
    + unfold will_ok. rewrite Hat. simpl. lia.
    + unfold resumed. rewrite Hat. simpl. tauto.
  - simplify_eq. apply (pk_inv_quiet s); rewrite ?Hat; try done.
    + intros _. apply (iv_pre _ Hi). left. by rewrite Hat.
    + unfold will_ok. rewrite Hat. simpl. lia.
    + unfold resumed. rewrite Hat. simpl. tauto.
  - destruct (is_canceled (sp s)); simplify_eq.
    + apply pk_inv_yield_back; [done|by rewrite Hat|unfold will_ok; by rewrite Hat|by right].
    + apply (pk_inv_quiet s); rewrite ?Hat; try done.
      * intros _. apply (iv_pre _ Hi). left. by rewrite Hat.
      * unfold will_ok. rewrite Hat. simpl. lia.
      * unfold resumed. rewrite Hat. simpl. tauto.
  - simplify_eq. replace s with (set_sp (sp s) s) at 1 by (by destruct s).
    apply pk_inv_yield_back; [done|by rewrite Hat|unfold will_ok; by rewrite Hat|by left].
  - simplify_eq. unfold remove_timeout_handle. destruct (timer (sp s)); apply (pk_inv_quiet s); rewrite ?Hat; try done;
      unfold will_ok, resumed; rewrite ?Hat; simpl; try lia; tauto.
  - simplify_eq. destruct (para (sp s)) as [[]|] eqn:Hp; [..|destruct sw]; apply (pk_inv_quiet s); rewrite ?Hat; try done;
      unfold will_ok, resumed; rewrite ?Hat; simpl; rewrite ?Hp; simpl; try lia; try tauto; destruct sw; simpl; lia.
  - destruct (must_wait (guard (sp s))) eqn:Hg; simplify_eq. apply (pk_inv_quiet s); rewrite ?Hat; try done;
      try (unfold will_ok, resumed; rewrite ?Hat; simpl; try lia; tauto).
    intros _. destruct (iv_guard _ Hi) as [_ [?|Hg2]]; [done|]. unfold must_wait in Hg. by rewrite Hg2 in Hg.
Qed.

Lemma pk_inv_yield s i d s' :
  inv s -> at_ s = PGo d -> step s (Yield i) = Some s' -> inv s'.
Proof.
  intros Hi Hat Hs. simpl in Hs. rewrite Hat in Hs. apply bind_Some in Hs as (p & Hp & Hs). simplify_eq.
  destruct (sus_ok_suspend _ _ _ _ _ (iv_sus _ Hi) Hp) as [Hok Hr].
  destruct (running_slot _ (iv_sus _ Hi) Hr) as (Hsl & Hrd & _).
  unfold suspend in Hp. destruct (agents (sp s) !! i) as [[]|] eqn:Ha; try discriminate Hp. rewrite Hr in Hp. simplify_eq.
  pose proof (iv_guard _ Hi) as Hg. pose proof (iv_units _ Hi) as Hu.
  split; simpl; try done.
  - intros j a Hj. apply lookup_insert_list in Hj as [(_ & -> & _)|[_ ?]]; [done|by eapply iv_kind].
  - zsum_update. simpl. destruct Hg as [-> ?]. split; [lia|done].
  - intros _. apply (iv_pre _ Hi). left. by rewrite Hat.
  - by rewrite Hsl.
  - unfold will_ok in *. simpl. rewrite Hat in Hu. zsum_update. simpl in *. lia.
  - unfold resumed. simpl. rewrite Hrd. by intros [?|[_ []]].
Qed.

(** ** The kernel's steps *)

Lemma taking_free s i a :
  inv s -> agents (sp s) !! i = Some a -> inside a = 1%Z -> taking a = false -> ~ has taking (agents (sp s)).
Proof.
  intros Hi Ha Hin Hta (j & x & Hj & Hx). destruct (iv_guard _ Hi) as [Hz _].
  pose proof (b2z_le1 (must_wait (guard (sp s)))).
  assert (Hij : i <> j) by (intros ->; congruence).
  pose proof (zsum_lookup2_le inside _ _ _ _ _ inside_nonneg Hij Ha Hj). destruct x; try done. simpl in *. lia.
Qed.

Lemma before_le_holds l : (zsum before_guard l <= zsum holds_co l)%Z.
Proof. induction l as [|a l IH]; simpl; [lia|]. destruct a; simpl; lia. Qed.

Lemma before_le_one s : susp_ok s -> (0 <= zsum before_guard (agents s) <= 1 - b2z (running s))%Z.
Proof.
  intros Hok. pose proof (so_place _ Hok) as Hp. unfold place in Hp.
  pose proof (before_le_holds (agents s)).
  pose proof (zsum_nonneg before_guard (agents s) before_guard_nonneg).
  pose proof (b2z_nonneg (slot s)). pose proof (b2z_nonneg (is_some (ready s))). lia.
Qed.

Lemma waited_running s : inv s -> waited (at_ s) = true -> running (sp s) = true.
Proof. intros Hi Hw. rewrite (iv_run _ Hi). by destruct (at_ s). Qed.

Ltac kernel_easy Hkind Hpre Htake Hsrc :=
  split; simpl; try done;
  try (intros ? ? Hj; apply lookup_insert_list in Hj as [(_ & -> & _)|[_ ?]]; [done|by eapply Hkind]);
  try (zsum_update; simpl; split; [lia|done]);
  try (intros Hw; apply Hpre; destruct Hw as [?|Hw]; [by left|]; right; intros Hz; apply Hw; zsum_update; simpl; lia);
  try (intros [Ht|Ht]%has_insert_inv; [done|by apply Htake]);
  try (unfold will_ok in *; simpl in *; zsum_update; simpl in *; lia);
  try (intros Hres; apply Hsrc; unfold resumed in *; simpl in *; tauto);
  try (intros; congruence).

Lemma pk_inv_kernel s e s' : inv s -> step_kernel e s = Some s' -> inv s'.
Proof.
  intros Hi Hs. unfold step_kernel in Hs. apply bind_Some in Hs as (p & Hp & Hs).
  pose proof (sus_ok_step _ _ _ _ (iv_sus _ Hi) Hp) as Hok.
  pose proof (iv_kind _ Hi) as Hkind. pose proof (iv_guard _ Hi) as [Hg Hg2]. pose proof (iv_pre _ Hi) as Hpre.
  pose proof (iv_units _ Hi) as Hu. pose proof (iv_src _ Hi) as Hsrc. pose proof (iv_chk _ Hi) as Hchk.
  pose proof (iv_take _ Hi) as Htake. pose proof (iv_reg _ Hi) as Hreg. pose proof (iv_run _ Hi) as Hrun.
  destruct e as [i|i b|i|i| |]; simpl in Hp.
  - destruct (agents (sp s) !! i) as [a|] eqn:Ha; [|done]. pose proof (Hkind _ _ Ha) as Hk.
    destruct a as [|k d|k|k|k|k|k|k| |bits| |b|b|b|]; try discriminate Hp; simpl in Hp, Hk; subst; simpl in Hp.
    all: try destruct b. all: unfold take_co in Hp; repeat (case_match; simpl in Hp); simplify_eq/=.
    all: kernel_easy Hkind Hpre Htake Hsrc.
    all: repeat match goal with H : (flag ?x =? 0)%Z = ?y |- context [(flag ?x =? 0)%Z] => rewrite H end.
    all: try (unfold will_ok in *; simpl in *; zsum_update; simpl in *; lia).
    all: try (unfold resumed; simpl; intros [?|Hres]; [done|apply Hsrc; by right]).
    + assert (Hg0 : guard (sp s) = 0%Z).
      { apply Hpre. right. pose proof (zsum_lookup_le before_guard _ _ _ before_guard_nonneg Ha). simpl in *. lia. }
      rewrite Hg0 in Hg. zsum_update. simpl in *. split; [lia|by right].
    + pose proof (before_le_one _ (iv_sus _ Hi)) as Hle.
      pose proof (zsum_lookup_le before_guard _ _ _ before_guard_nonneg Ha).
      pose proof (b2z_nonneg (running (sp s))). zsum_update. simpl in *.
      intros [Hw|Hw]; [|lia]. rewrite (waited_running _ Hi Hw) in Hle. simpl in Hle. lia.
    + intros Ht. exfalso. apply has_insert_inv in Ht as [?|Ht]; [done|]. by apply (taking_free s i (SubStore park_kind) Hi Ha).
    + intros _. left. intros Hf.
      assert (Ht : has taking (agents (sp s))) by (by exists i, (SubTake park_kind)).
      specialize (Htake Ht Hf). congruence.
    + assert (Hg1 : guard (sp s) = 2%Z).
      { pose proof (zsum_lookup_le inside _ _ _ inside_nonneg Ha). simpl in *.
        destruct Hg2 as [H0|?]; [|done]. rewrite H0 in Hg. simpl in Hg. lia. }
      rewrite Hg1 in *. zsum_update. simpl in *. split; [lia|by left].
    + by destruct Hg2 as [->| ->].
    + unfold will_ok in *. simpl in *. zsum_update. simpl in *. pose proof (b2z_nonneg (stale s)). lia.
  - destruct (agents (sp s) !! i) as [[]|] eqn:Ha; try discriminate Hp. destruct (0 <? b)%Z; simplify_eq/=.
    kernel_easy Hkind Hpre Htake Hsrc.
  - destruct (agents (sp s) !! i) as [[]|] eqn:Ha; try discriminate Hp. simplify_eq/=.
    kernel_easy Hkind Hpre Htake Hsrc.
  - destruct (agents (sp s) !! i) as [[]|] eqn:Ha; try discriminate Hp. destruct (armed (sp s)); simplify_eq/=.
    kernel_easy Hkind Hpre Htake Hsrc.
  - destruct (dels (sp s)), (armed (sp s)); simplify_eq/=. split; simpl; try done.
  - destruct (ready (sp s)) eqn:Hrd; simplify_eq/=. pose proof (before_le_one _ Hok) as Hle. simpl in Hle.
    split; simpl; try done.
    + intros [?|?]; [done|lia].
    + unfold will_ok in *. simpl. pose proof (b2z_nonneg match at_ s with PDel false | PPara false => is_none (para (sp s)) | _ => false end). lia.
    + intros [?|[? _]]; [done|]. apply Hsrc. left. simpl in *. congruence.
Qed.

Lemma pk_inv_step s e s' : inv s -> step s e = Some s' -> inv s'.
Proof.
  intros Hi Hs. destruct e as [d| |b| | |b|i|e|].
  - simpl in Hs. destruct (at_ s) eqn:Hat; simplify_eq. apply (pk_inv_quiet s); rewrite ?Hat; try done;
      unfold will_ok, resumed; rewrite ?Hat; simpl; try lia; tauto.
  - simpl in Hs. destruct (at_ s) eqn:Hat; simplify_eq. apply (pk_inv_quiet s); rewrite ?Hat; try done;
      unfold will_ok, resumed; rewrite ?Hat; simpl; try lia; tauto.
  - simpl in Hs. destruct (at_ s) eqn:Hat; simplify_eq. apply (pk_inv_quiet s); rewrite ?Hat; try done;
      unfold will_ok, resumed; rewrite ?Hat; simpl; try lia; tauto.
  - simpl in Hs. destruct (at_ s) eqn:Hat; simplify_eq. apply (pk_inv_quiet s); rewrite ?Hat; try done;
      unfold will_ok, resumed; rewrite ?Hat; simpl; try lia; try tauto; by rewrite Hat.
  - simpl in Hs. destruct (at_ s) eqn:Hat; simplify_eq. apply (pk_inv_quiet s); rewrite ?Hat; try done;
      unfold will_ok, resumed; rewrite ?Hat; simpl; try lia; try tauto; by rewrite Hat.
  - by eapply pk_inv_step_co.
  - destruct (at_ s) eqn:Hat; try (by simpl in Hs; rewrite Hat in Hs). by eapply pk_inv_yield.
  - by eapply pk_inv_kernel.
  - simpl in Hs. destruct (at_ s) as [| | | | | | | | | | | | |o] eqn:Hat; try discriminate Hs.
    destruct o; simplify_eq; (apply (pk_inv_quiet s); rewrite ?Hat; try done;
      unfold will_ok, resumed; rewrite ?Hat; simpl; try lia; tauto).
Qed.

Lemma pk_inv_init n : inv (init n).
Proof.
  split; simpl; try done; rewrite ?zsum_replicate; simpl; try lia; try (split; [lia|by left]).
  - apply sus_ok_new.
  - intros i a Ha. by apply lookup_replicate in Ha as [-> _].
  - unfold resumed. simpl. intros [?|[_ []]]; done.
Qed.

Lemma pk_inv_reachable n s : reachable step (init n) s -> inv s.
Proof. apply reachable_ind_inv; [apply pk_inv_init|apply pk_inv_step]. Qed.

(** ** Properties *)

(** C12. No wake-up is lost: when no thread is in the middle of a wake-up, a
    cancellation, a timeout or a [subscribe], a parked coroutine has neither an
    unpark token nor a pending cancellation. *)
Theorem park_not_lost n s
  (Hr : reachable step (init n) s) (Hrest : rest (sp s)) (Hs : slot (sp s) = true) :
  at_ s = PAway /\ flag (sp s) = 0%Z /\ is_canceled (sp s) = false.
Proof.
  pose proof (pk_inv_reachable _ _ Hr) as Hi.
  destruct (rest_slot _ (iv_sus _ Hi) Hrest Hs) as [Hf Hc]. split_and!; [|done|].
  - destruct (slot_ready _ (iv_sus _ Hi) Hs) as [_ Hru]. rewrite (iv_run _ Hi) in Hru. by destruct (at_ s).
  - unfold is_canceled. apply Z.eqb_neq, Hc. by apply Hi.
Qed.

(** The coroutine is in exactly one place: running, stored in the slot, in a
    run queue or in the hands of the one thread in [subscribe]; so it is never run
    by two threads, and storing it never drops another coroutine. *)
Theorem coroutine_one_place n s
  (Hr : reachable step (init n) s) :
  (b2z (running (sp s)) + b2z (slot (sp s)) + b2z (is_some (ready (sp s))) + zsum holds_co (agents (sp s)) = 1)%Z /\
  running (sp s) = negb (is_away (at_ s)) /\
  forall i k, agents (sp s) !! i = Some (SubStore k) -> slot (sp s) = false /\ ready (sp s) = None.
Proof.
  pose proof (pk_inv_reachable _ _ Hr) as Hi. pose proof (so_place _ (iv_sus _ Hi)) as Hp.
  split_and!; [exact Hp|apply Hi|]. intros i k Ha. unfold place in Hp.
  pose proof (zsum_lookup_le holds_co (agents (sp s)) i _ ltac:(by intros []) Ha). simpl in *.
  destruct (running (sp s)), (slot (sp s)), (ready (sp s)); simpl in Hp; try lia; done.
Qed.

(** [park] returns [Ok] only after an [unpark]: each [unpark] that sets the
    state accounts for at most two such returns (the second one when the thread
    that unparks is late to look for the coroutine), none without it. *)
Theorem park_ok_needs_unpark n s
  (Hr : reachable step (init n) s) :
  (oks s <= 2 * ups s)%Z.
Proof.
  pose proof (iv_units _ (pk_inv_reachable _ _ Hr)) as Hu.
  pose proof (zsum_nonneg waking (agents (sp s)) waking_nonneg).
  pose proof (b2z_nonneg (negb (flag (sp s) =? 0)%Z)). pose proof (b2z_nonneg (stale s)). pose proof (b2z_nonneg (will_ok s)). lia.
Qed.

(** [Park::drop] waits long enough: once it has passed [can_drop.wait], no
    thread is inside [subscribe] or about to enter it, so the [Park] and the
    coroutine's local data are not freed under the kernel. *)
Theorem park_drop_safe n s i a
  (Hr : reachable step (init n) s) (Hd : at_ s = PDone ODropped) (Ha : agents (sp s) !! i = Some a) :
  inside a = 0%Z /\ holds_co a = 0%Z.
Proof.
  pose proof (pk_inv_reachable _ _ Hr) as Hi. destruct (iv_guard _ Hi) as [Hg _].
  rewrite (iv_pre _ Hi) in Hg by (left; by rewrite Hd). simpl in Hg. split.
  - by apply (zsum_zero_lookup inside _ i a inside_nonneg Hg).
  - assert (Hru : running (sp s) = true) by (by rewrite (iv_run _ Hi), Hd).
    destruct (running_slot _ (iv_sus _ Hi) Hru) as (_ & _ & Hh).
    by apply (zsum_zero_lookup holds_co _ i a ltac:(by intros []) Hh).
Qed.

(** ** Runs *)

Definition acts (i k : nat) : list event := replicate k (Kernel (Act i)).
Definition ticks (k : nat) : list event := replicate k (Tick false).
Definition demo_park : list event := [CPark false] ++ ticks 5 ++ [Yield 0] ++ acts 0 7.
(** Woken by thread 1, which looks for the coroutine only in its second park. *)
Definition demo_stale : list event :=
  [CPark false] ++ ticks 5 ++ [Yield 0] ++ acts 0 3 ++ [Kernel (Wake 1 1)] ++ acts 1 1 ++ acts 0 3 ++ [Kernel Resume] ++
  ticks 5 ++ [Return; CPark false] ++ ticks 5 ++ [Yield 0] ++ acts 0 7 ++ acts 1 1 ++ [Kernel Resume] ++ ticks 5.
(** The timer is armed by [subscribe] and expires before the coroutine is stored. *)
Definition demo_timeout : list event :=
  [CPark true] ++ ticks 5 ++ [Yield 0] ++ acts 0 1 ++ [Kernel (Expire 1)] ++ acts 1 1 ++ acts 0 6.
Definition demo_drop : list event := demo_park ++ [Kernel (Wake 1 1)] ++ acts 1 2 ++ [Kernel Resume] ++ ticks 5 ++ [Return; CDrop] ++ ticks 1.
Definition final (es : list event) : state := default (init 2) (run step es (init 2)).

(** One [unpark], two parks that return [Ok]. *)
Example demo_stale_result : at_ (final demo_stale) = PDone OOk /\ oks (final demo_stale) = 2%Z /\ ups (final demo_stale) = 1%Z.
Proof. by vm_compute. Qed.

(** A timeout can be lost: [subscribe] adds the timer before it stores the
    coroutine, so a timer that expires in between finds nobody; the coroutine
    then stays parked with no timer armed, although it asked for a timeout, and
    only an [unpark] or a cancellation can still wake it. *)
Theorem park_timeout_lost :
  exists s, run step demo_timeout (init 2) = Some s /\ at_ s = PAway /\ slot (sp s) = true /\ armed (sp s) = 0 /\
    forall e s', step s e = Some s' -> exists i, (exists b, e = Kernel (Wake i b)) \/ e = Kernel (Cancel i).
Proof.
  exists (final demo_timeout). split_and!; try (by vm_compute).
  intros e s' Hs. destruct e as [d| |b| | |b|i|e|]; try (vm_compute in Hs; discriminate Hs).
  destruct e as [i|i b|i|i| |].
  - exfalso. destruct i as [|[|i]]; vm_compute in Hs; discriminate Hs.
  - exists i. left. by exists b.
  - exists i. by right.
  - exfalso. destruct i as [|[|i]]; vm_compute in Hs; discriminate Hs.
  - vm_compute in Hs. discriminate Hs.
  - vm_compute in Hs. discriminate Hs.
Qed.

Lemma park_not_lost_witness :
  at_ (final demo_park) = PAway /\ flag (sp (final demo_park)) = 0%Z /\ is_canceled (sp (final demo_park)) = false.
Proof.
  apply (park_not_lost 2).
  - apply run_reachable with (es := demo_park). vm_compute. reflexivity.
  - intros [|[|i]] a; vm_compute; congruence.
  - vm_compute. reflexivity.
Defined.

Lemma coroutine_one_place_witness :
  let s := final demo_park in
  (b2z (running (sp s)) + b2z (slot (sp s)) + b2z (is_some (ready (sp s))) + zsum holds_co (agents (sp s)) = 1)%Z /\
  running (sp s) = negb (is_away (at_ s)) /\
  forall i k, agents (sp s) !! i = Some (SubStore k) -> slot (sp s) = false /\ ready (sp s) = None.
Proof. apply (coroutine_one_place 2). apply run_reachable with (es := demo_park). vm_compute. reflexivity. Defined.

Lemma park_ok_needs_unpark_witness : (oks (final demo_stale) <= 2 * ups (final demo_stale))%Z.
Proof. apply (park_ok_needs_unpark 2). apply run_reachable with (es := demo_stale). vm_compute. reflexivity. Defined.

Lemma park_drop_safe_witness : inside AIdle = 0%Z /\ holds_co AIdle = 0%Z.
Proof.
  apply (park_drop_safe 2 (final demo_drop) 0).
  - apply run_reachable with (es := demo_drop). vm_compute. reflexivity.
  - vm_compute. reflexivity.
  - vm_compute. reflexivity.
Defined.

End Pk.
