(* ===== verification/NetIo.v ===== *)
(** * NetIo: coroutine I/O on unix

    [src/io/sys/unix/]: [EventData], the operations under [net/] and [co_io.rs],
    [wait_io.rs], and the methods of [src/net/] and [src/os/unix/net.rs] that use
    them.  Every operation tries the system call, suspends the coroutine while the
    call would block ([Suspend]) and tries again; the selector ([select] of
    [epoll.rs]) delivers edge-triggered events.  The coroutine side is modelled
    for one coroutine at a time per I/O object, in coroutine context. *)

From stdpp Require Import base numbers list.
From Stdlib Require Import ZArith Lia.
From S2P Require Import Prelude Suspend.

Module Io.
Import Sus.

(** ** System calls and their classification *)

Inductive errno := EAGAIN | EINPROGRESS | EALREADY | EISCONN | ETIMEDOUT | EOther (n : Z).
#[global] Instance errno_eq_dec : EqDecision errno.
Proof. solve_decision. Defined.

(** What the call returns: a value (and, for [accept], the error of registering
    the accepted socket, if any), or an error. *)
Inductive sys := SOk (n : Z) (reg : option errno) | SErr (e : errno).

Inductive res := ROk (n : Z) | RErr (e : errno) | RTimeout | RCancel | RPanic.

(** The errors that mean "not ready" ([EWOULDBLOCK] is [EAGAIN] on Linux). *)
Definition would_block (r : sys) : bool :=
  match r with SErr EAGAIN | SErr EINPROGRESS | SErr EALREADY => true | _ => false end.

(** The [match] of the operations: return, or wait ([None]). *)
Definition eagain (r : sys) : option res :=
  match r with SOk n _ => Some (ROk n) | SErr e => if decide (e = EAGAIN) then None else Some (RErr e) end.
(** [accept]: the new socket is registered before it is returned. *)
Definition eagain_reg (r : sys) : option res :=
  match r with
  | SOk n None => Some (ROk n)
  | SOk n (Some e) => Some (RErr e)
  | SErr e => if decide (e = EAGAIN) then None else Some (RErr e)
  end.
(** [connect], in [done]: already connected is a success. *)
Definition einprogress (r : sys) : option res :=
  match r with
  | SOk n _ => Some (ROk n)
  | SErr EINPROGRESS | SErr EALREADY => None
  | SErr EISCONN => Some (ROk 0)
  | SErr e => Some (RErr e)
  end.
(** [check_connected]: the first [connect]. *)
Definition check_connected (r : sys) : option res :=
  match r with
  | SOk n _ => Some (ROk n)
  | SErr EINPROGRESS => None
  | SErr e => Some (RErr e)
  end.

(** ** The operations: how [done] reads the call's result, the timeout that
    [subscribe] arms for the one given, whether it registers for cancellation, and
    whether it only waits ([wait_io]) *)
Record io_op := Op { o_done : sys -> option res; o_timer : option Z -> option Z; o_cancel : bool; o_wait : bool }.

Definition given (dur : option Z) : option Z := dur.
Definition never (dur : option Z) : option Z := None.

Definition SocketRead : io_op := Op eagain given true false.
Definition SocketPeek : io_op := Op eagain given true false.
Definition SocketWrite : io_op := Op eagain given false false.
Definition SocketWriteVectored : io_op := Op eagain given false false.
Definition TcpListenerAccept : io_op := Op eagain_reg never true false.
Definition TcpStreamConnect : io_op := Op einprogress given true false.
Definition UdpRecvFrom : io_op := Op eagain given true false.
Definition UdpSendTo : io_op := Op eagain given false false.
Definition UnixListenerAccept : io_op := Op eagain_reg never true false.
Definition UnixRecvFrom : io_op := Op eagain given true false.
Definition UnixSendTo : io_op := Op eagain given false false.
(** The timeout of a unix [connect] is fixed to two seconds. *)
Definition UnixStreamConnect : io_op := Op einprogress (fun _ => Some 2000000000%Z) true false.
(** [WaitIo::wait_io] suspends on a [RawIoBlock] and makes no call. *)
Definition RawIoBlock : io_op := Op (fun _ => None) never true true.

(** ** The methods: the first attempt, then the operation *)
Record api := Api { a_reset : bool; a_first : sys -> option res; a_op : io_op }.

Definition TcpStream_read : api := Api true eagain SocketRead.
Definition TcpStream_peek : api := Api true eagain SocketPeek.
Definition TcpStream_write : api := Api true eagain SocketWrite.
Definition TcpStream_write_vectored : api := Api true eagain SocketWriteVectored.
Definition TcpStream_connect : api := Api false check_connected TcpStreamConnect.
Definition TcpListener_accept : api := Api true eagain_reg TcpListenerAccept.
Definition UdpSocket_send_to : api := Api true eagain UdpSendTo.
Definition UdpSocket_recv_from : api := Api true eagain UdpRecvFrom.
Definition UdpSocket_send : api := Api true eagain SocketWrite.
Definition UdpSocket_recv : api := Api true eagain SocketRead.
Definition CoIo_read : api := Api true eagain SocketRead.
Definition CoIo_peek : api := Api true eagain SocketPeek.
Definition CoIo_write : api := Api true eagain SocketWrite.
Definition UnixStream_connect : api := Api false check_connected UnixStreamConnect.
Definition UnixListener_accept : api := Api true eagain_reg UnixListenerAccept.
Definition UnixDatagram_recv_from : api := Api true eagain UnixRecvFrom.
Definition UnixDatagram_recv : api := Api true eagain SocketRead.
Definition UnixDatagram_send_to : api := Api true eagain UnixSendTo.
Definition UnixDatagram_send : api := Api true eagain SocketWrite.

Definition methods : list api :=
  [TcpStream_read; TcpStream_peek; TcpStream_write; TcpStream_write_vectored; TcpStream_connect; TcpListener_accept;
   UdpSocket_send_to; UdpSocket_recv_from; UdpSocket_send; UdpSocket_recv; CoIo_read; CoIo_peek; CoIo_write;
   UnixStream_connect; UnixListener_accept; UnixDatagram_recv_from; UnixDatagram_recv; UnixDatagram_send_to;
   UnixDatagram_send].

(** ** The machine *)

Inductive pc :=
  | IIdle
  | IReset (a : api) (d : option Z) | IFirst (a : api) (d : option Z)
  | IYield (o : io_op) (d : option Z) | IGo (o : io_op) (d : option Z) | IAway (o : io_op) (d : option Z)
  | IBack (o : io_op) (d : option Z)
  | IResult (o : io_op) (d : option Z)
  | IClear (o : io_op) (d : option Z) | ICall (o : io_op) (d : option Z) | ILoad (o : io_op) (d : option Z)
  | IWait | IReset_io
  | IDone (r : res).

(** The kernel object: [kready], a call would not block; [edge], an event is queued
    in epoll and not yet delivered. *)
Record state := St { sp : susp; at_ : pc; kready : bool; edge : bool }.

Definition init (n : nat) : state := St (new n) IIdle false false.

Definition set_sp (x : susp) (s : state) : state := St x (at_ s) (kready s) (edge s).
Definition set_at (x : pc) (s : state) : state := St (sp s) x (kready s) (edge s).
Definition set_kernel (r e : bool) (s : state) : state := St (sp s) (at_ s) r e.

(** [IoData] does not guard [subscribe]. *)
Definition kind_of (o : io_op) : kind := Kind false (o_cancel o).

(** What follows the suspension. *)
Definition resumed (o : io_op) (d : option Z) : pc := if o_wait o then IReset_io else IResult o d.

(** After [co_yield_with]: a cancelled coroutine panics, unless it is [panicking];
    then the I/O slot of the cancel data is emptied. *)
Definition yield_back (panicking : bool) (o : io_op) (d : option Z) (s : state) : state :=
  if is_canceled (sp s) then
    let s' := set_sp (take_para (sp s)) s in
    if panicking then set_at (resumed o d) (set_sp (clear true (sp s')) s') else set_at (IDone RPanic) s'
  else set_at (resumed o d) (set_sp (clear true (sp s)) s).

(** The steps of a method and of [done] that are not system calls. *)
Definition step_co (b : bool) (s : state) : option state :=
  match at_ s with
  | IReset a d => Some (set_at (IFirst a d) (set_sp (set_flag 0 (sp s)) s))
  | IYield o d =>
      Some (if is_canceled (sp s)
            then (let s' := set_sp (take_para (sp s)) s in
                  if b then set_at (resumed o d) s' else set_at (IDone RPanic) s')
            else set_at (IGo o d) s)
  | IBack o d => Some (yield_back b o d s)
  | IResult o d =>
      let s' := set_sp (take_para (sp s)) s in
      Some (match para (sp s) with
            | None => set_at (IClear o d) s'
            | Some RTimedOut => set_at (IDone RTimeout) s'
            | Some RCanceled => set_at (IDone RCancel) s'
            end)
  | IClear o d => Some (set_at (ICall o d) (set_sp (set_flag 0 (sp s)) s))
  | ILoad o d => Some (set_at (if (flag (sp s) =? 0)%Z then IYield o d else IResult o d) s)
  | IWait => Some (set_at (if (flag (sp s) =? 0)%Z then IYield RawIoBlock None else IReset_io) s)
  | IReset_io => Some (set_at (IDone (ROk (flag (sp s)))) (set_sp (set_flag 0 (sp s)) s))
  | _ => None
  end.

(** A system call: it would block exactly when the object is not ready, and leaves
    it [still] ready or not. *)
Definition step_sys (r : sys) (still : bool) (s : state) : option state :=
  if bool_decide (would_block r = negb (kready s)) then
    match at_ s with
    | IFirst a d =>
        Some (match a_first a r with
              | Some v => set_at (IDone v) (set_kernel (if would_block r then kready s else still) (edge s) s)
              | None => set_at (IYield (a_op a) d) s
              end)
    | ICall o d =>
        Some (match o_done o r with
              | Some v => set_at (IDone v) (set_kernel (if would_block r then kready s else still) (edge s) s)
              | None => set_at (ILoad o d) s
              end)
    | _ => None
    end
  else None.

Definition waker_bits : Z := 0x80000000.

Inductive event :=
  | CCall (k : nat) (d : option Z)   (* the [k]th of [methods] *)
  | CWaitIo
  | Tick (b : bool)
  | Sys (r : sys) (still : bool)
  | Yield (i : nat)
  | Resume
  | Ready                            (* the object becomes ready: a new edge *)
  | Deliver (i : nat) (bits : Z)     (* [select]: [io_flag.fetch_or(events)] *)
  | Waker (i : nat)                  (* [WaitIoWaker::wakeup] *)
  | Kernel (e : Sus.event)           (* the other agents *)
  | Return.

Definition step (s : state) (e : event) : option state :=
  match e with
  | CCall k d =>
      match at_ s, methods !! k with
      | IIdle, Some a => Some (set_at (if a_reset a then IReset a d else IFirst a d) s)
      | _, _ => None
      end
  | CWaitIo => match at_ s with IIdle => Some (set_at IWait s) | _ => None end
  | Tick b => step_co b s
  | Sys r still => step_sys r still s
  | Yield i =>
      match at_ s with
      | IGo o d =>
          sp' ← suspend i (kind_of o) (is_some (o_timer o d)) (sp s); Some (set_at (IAway o d) (set_sp sp' s))
      | _ => None
      end
  | Resume =>
      match at_ s with
      | IAway o d => sp' ← Sus.step true (sp s) Sus.Resume; Some (set_at (IBack o d) (set_sp sp' s))
      | _ => None
      end
  | Ready => Some (set_kernel true true s)
  | Deliver i bits =>
      if edge s then sp' ← Sus.step true (sp s) (Wake i bits); Some (set_kernel (kready s) false (set_sp sp' s)) else None
  | Waker i => sp' ← Sus.step true (sp s) (Wake i waker_bits); Some (set_sp sp' s)
  | Kernel e =>
      match e with
      | Wake _ _ | Sus.Resume => None
      | _ => sp' ← Sus.step true (sp s) e; Some (set_sp sp' s)
      end
  | Return => match at_ s with IDone _ => Some (set_at IIdle s) | _ => None end
  end.

(** ** Invariant *)

Definition op_ok (o : io_op) : Prop := o_wait o = true \/ forall r, o_done o r = None -> would_block r = true.
Definition api_ok (a : api) : Prop :=
  (op_ok (a_op a) /\ o_wait (a_op a) = false) /\ forall r, a_first a r = None -> would_block r = true.

Definition pc_ok (x : pc) : Prop :=
  match x with
  | IReset a _ | IFirst a _ => api_ok a
  | IYield o _ | IGo o _ | IAway o _ | IBack o _ => op_ok o
  | IResult o _ | IClear o _ | ICall o _ | ILoad o _ => op_ok o /\ o_wait o = false
  | _ => True
  end.

Definition is_away (x : pc) : bool := match x with IAway _ _ => true | _ => false end.
(** The last call would have blocked, and the flag was not cleared since. *)
Definition blocked (x : pc) : bool :=
  match x with ILoad o _ | IYield o _ | IGo o _ | IAway o _ => negb (o_wait o) | _ => false end.
Definition signals (a : agent) : bool := match a with WakeSet _ => true | _ => false end.
Definition signalled (s : susp) : Prop := flag s <> 0%Z \/ has signals (agents s).

Definition agent_kind (a : agent) : option kind :=
  match a with SubTimer k _ | SubGuard k | SubStore k => Some k | _ => None end.

Record inv (s : state) : Prop := {
  iv_sus : susp_ok (sp s);
  iv_run : running (sp s) = negb (is_away (at_ s));
  iv_pc : pc_ok (at_ s);
  iv_kind : forall i a k, agents (sp s) !! i = Some a -> agent_kind a = Some k ->
    exists o d, at_ s = IAway o d /\ k_cancel k = o_cancel o;
  iv_reg : slot (sp s) = true -> exists o d, at_ s = IAway o d /\ reg (sp s) = o_cancel o;
  iv_ready : blocked (at_ s) = true -> kready s = true -> edge s = true \/ signalled (sp s)
}.

Lemma io_methods_ok k a : methods !! k = Some a -> api_ok a.
Proof.
  assert (He : forall r, eagain r = None -> would_block r = true) by (by intros [|[]]).
  assert (Hr : forall r, eagain_reg r = None -> would_block r = true) by (by intros [? []|[]]).
  assert (Hc : forall r, einprogress r = None -> would_block r = true) by (by intros [|[]]).
  assert (Hf : forall r, check_connected r = None -> would_block r = true) by (by intros [|[]]).
  unfold methods. intros Hk.
  repeat (destruct k as [|k]; simpl in Hk; [injection Hk as <-; split; [split; [right|]|]; done|]). done.
Qed.

(** The agents do not lose a signal. *)
Lemma io_signalled_keep s s' i a y :
  agents s !! i = Some a -> agents s' = <[i:=y]> (agents s) ->
  (flag s <> 0%Z -> flag s' <> 0%Z) -> (signals a = true -> signals y = true \/ flag s' <> 0%Z) ->
  signalled s -> signalled s'.
Proof.
  intros Ha Hag Hf Hs [?|H]; [by left; apply Hf|]. unfold signalled. rewrite Hag.
  destruct (signals a) eqn:Hsa; [|right; by eapply has_insert_other].
  destruct (Hs eq_refl); [right; by eapply has_insert_new|by left].
Qed.

Lemma io_take_co_flag io p s : flag (take_co io p s) = flag s.
Proof. unfold take_co. by repeat case_match. Qed.

Lemma io_signalled_step s e s' :
  susp_ok s -> Sus.step true s e = Some s' -> signalled s -> signalled s'.
Proof.
  intros Hok Hs. destruct e as [i|i b|i|i| |]; simpl in Hs.
  - destruct (agents s !! i) as [a|] eqn:Hi; [|done]. destruct (take_co_spec true None s) as (_ & Hag & _).
    destruct a; simpl in Hs; try discriminate Hs; try (repeat case_match; simplify_eq/=);
      (eapply (io_signalled_keep _ _ i _ _ Hi); simpl; [by rewrite ?Hag|rewrite ?io_take_co_flag; try done|try done]).
    + intros H1 H2%Z.lor_eq_0_iff. lia.
    + intros _. right. pose proof (so_bits _ Hok _ _ Hi). intros H2%Z.lor_eq_0_iff. lia.
  - destruct (agents s !! i) as [[]|] eqn:Hi; try discriminate Hs. destruct (0 <? b)%Z; simplify_eq.
    by eapply (io_signalled_keep _ _ i _ _ Hi).
  - destruct (agents s !! i) as [[]|] eqn:Hi; try discriminate Hs. simplify_eq. by eapply (io_signalled_keep _ _ i _ _ Hi).
  - destruct (agents s !! i) as [[]|] eqn:Hi; try discriminate Hs. destruct (armed s); simplify_eq.
    by eapply (io_signalled_keep _ _ i _ _ Hi).
  - destruct (dels s), (armed s); simplify_eq. done.
  - destruct (ready s); simplify_eq. done.
Qed.

Lemma io_wake_signals s i b s' : Sus.step true s (Wake i b) = Some s' -> signalled s'.
Proof.
  simpl. intros Hs. destruct (agents s !! i) as [[]|] eqn:Hi; try discriminate Hs. destruct (0 <? b)%Z; simplify_eq.
  right. simpl. by eapply has_insert_new.
Qed.

(** What the agents' steps leave alone. *)
Lemma io_agents_frame s e s' :
  Sus.step true s e = Some s' -> e <> Sus.Resume ->
  running s' = running s /\ (reg s' = reg s \/ exists i k, agents s !! i = Some (SubStore k) /\ reg s' = k_cancel k).
Proof.
  intros Hs He.
  destruct e as [i|i b|i|i| |]; simpl in Hs; try done.
  - destruct (agents s !! i) as [a|] eqn:Hi; [|done]. destruct (take_co_spec true None s) as (_ & _ & Hr & _).
    assert (reg (take_co true None s) = reg s) by (unfold take_co; by repeat case_match).
    destruct a; simpl in Hs; try discriminate Hs; repeat case_match; injection Hs as <-; simpl; eauto 6.
  - repeat case_match; try discriminate Hs; injection Hs as <-; simpl; auto.
  - repeat case_match; try discriminate Hs; injection Hs as <-; simpl; auto.
  - repeat case_match; try discriminate Hs; injection Hs as <-; simpl; auto.
  - repeat case_match; try discriminate Hs; injection Hs as <-; simpl; auto.
Qed.

(** The kinds in the hands of the agents do not change. *)
Lemma io_agents_kind s e s' i a k :
  Sus.step true s e = Some s' -> agents s' !! i = Some a -> agent_kind a = Some k ->
  exists a', agents s !! i = Some a' /\ agent_kind a' = Some k.
Proof.
  intros Hs. destruct e as [j|j b|j|j| |]; simpl in Hs.
  - destruct (agents s !! j) as [x|] eqn:Hj; [|done]. destruct (take_co_spec true None s) as (_ & Hag & _).
    destruct x; simpl in Hs; try discriminate Hs; repeat case_match; injection Hs as <-; simpl; rewrite ?Hag;
      intros [(<- & -> & _)|[_ ?]]%lookup_insert_list; simpl; intros; simplify_eq; eauto;
      try (destruct k0 as [[] []]; simplify_eq/=; eauto); try (destruct b; simplify_eq/=; eauto).
  - repeat case_match; try discriminate Hs; injection Hs as <-; simpl; intros [(<- & -> & _)|[_ ?]]%lookup_insert_list ?; simplify_eq/=; eauto.
  - repeat case_match; try discriminate Hs; injection Hs as <-; simpl; intros [(<- & -> & _)|[_ ?]]%lookup_insert_list ?; simplify_eq/=; eauto.
  - repeat case_match; try discriminate Hs; injection Hs as <-; simpl; intros [(<- & -> & _)|[_ ?]]%lookup_insert_list ?; simplify_eq/=; eauto.
  - repeat case_match; try discriminate Hs; injection Hs as <-; simpl; eauto.
  - repeat case_match; try discriminate Hs; injection Hs as <-; simpl; eauto.
Qed.

(** A coroutine newly in the slot was stored by the agent that held it. *)
Lemma io_slot_new s e s' :
  Sus.step true s e = Some s' -> slot s' = true ->
  (slot s = true /\ reg s' = reg s) \/ exists i k, agents s !! i = Some (SubStore k) /\ reg s' = k_cancel k.
Proof.
  intros Hs. destruct e as [j|j b|j|j| |]; simpl in Hs.
  - destruct (agents s !! j) as [x|] eqn:Hj; [|done]. destruct (take_co_spec true None s) as (Hsl & Hag & _).
    destruct x; simpl in Hs; try discriminate Hs; repeat case_match; injection Hs as <-; simpl;
      rewrite ?Hsl; intros; try (by left); first [congruence|right; by exists j, k].
  - repeat case_match; try discriminate Hs; injection Hs as <-; simpl; auto.
  - repeat case_match; try discriminate Hs; injection Hs as <-; simpl; auto.
  - repeat case_match; try discriminate Hs; injection Hs as <-; simpl; auto.
  - repeat case_match; try discriminate Hs; injection Hs as <-; simpl; auto.
  - repeat case_match; try discriminate Hs; injection Hs as <-; simpl; auto.
Qed.

Lemma io_init_inv n : inv (init n).
Proof.
  split; simpl; try done; [apply sus_ok_new|].
  intros i a k [-> _]%lookup_replicate. done.
Qed.

(** A step of an agent, with the kernel object. *)
Lemma io_inv_agents s e sp' r ed :
  inv s -> Sus.step true (sp s) e = Some sp' -> e <> Sus.Resume ->
  (blocked (at_ s) = true -> r = true -> ed = true \/ signalled sp') ->
  inv (set_kernel r ed (set_sp sp' s)).
Proof.
  intros [H1 H2 H3 H4 H5 H6] Hs He Hrd. destruct (io_agents_frame _ _ _ Hs He) as [Hr _].
  split; simpl; [by eapply sus_ok_step|congruence|done| | |done].
  - intros i a k Hi Hk. destruct (io_agents_kind _ _ _ _ _ _ Hs Hi Hk) as (a' & ? & ?). eauto.
  - intros Hsl. destruct (io_slot_new _ _ _ Hs Hsl) as [[? ->]|(i & k & Hi & ->)]; [by apply H5|]. by eapply H4.
Qed.

(** A step of the coroutine: it runs before and after. *)
Lemma io_inv_co s sp' x r ed :
  inv s -> is_away (at_ s) = false -> is_away x = false -> pc_ok x ->
  running sp' = true -> slot sp' = slot (sp s) -> ready sp' = ready (sp s) -> agents sp' = agents (sp s) ->
  (blocked x = true -> r = true -> ed = true \/ signalled sp') -> inv (St sp' x r ed).
Proof.
  intros [H1 H2 H3 H4 H5 H6] Ha Hx Hpc Hr Hsl Hrd Hag Hb. rewrite Ha in H2.
  split; simpl; [by eapply sus_ok_local|by rewrite Hx|done| | |done].
  - intros i a k. rewrite Hag. intros Hi Hk. destruct (H4 _ _ _ Hi Hk) as (o & d & Heq & _). by rewrite Heq in Ha.
  - rewrite Hsl. destruct (running_slot _ H1 H2) as (-> & _ & _). done.
Qed.

Lemma io_yield_back_inv s b o d : inv s -> at_ s = IBack o d -> inv (yield_back b o d s).
Proof.
  intros Hi Ha. pose proof (iv_run _ Hi) as Hr. pose proof (iv_pc _ Hi) as Hp. rewrite Ha in Hr, Hp.
  unfold yield_back, resumed. repeat case_match; (apply (io_inv_co s); simpl; [done|by rewrite Ha|try done..]).
Qed.

Lemma io_step_co_inv s b s' : inv s -> step_co b s = Some s' -> inv s'.
Proof.
  intros Hi Hs. pose proof (iv_run _ Hi) as Hr. pose proof (iv_pc _ Hi) as Hp. pose proof (iv_ready _ Hi) as Hb.
  unfold step_co in Hs. destruct (at_ s) eqn:Ha; try discriminate Hs; simpl in Hr, Hp, Hb;
    injection Hs as <-; try (by apply io_yield_back_inv); unfold resumed; repeat case_match;
    (apply (io_inv_co s); simpl; [done|by rewrite Ha|try done..]).
  - by destruct Hp.
  - by left.
Qed.

Lemma io_step_sys_inv s r still s' : inv s -> step_sys r still s = Some s' -> inv s'.
Proof.
  intros Hi Hs. pose proof (iv_run _ Hi) as Hr. pose proof (iv_pc _ Hi) as Hp.
  unfold step_sys in Hs. case_bool_decide as Hw; [|done]. destruct (at_ s) eqn:Ha; try discriminate Hs; simpl in Hr, Hp;
    injection Hs as <-; case_match eqn:Hd; (apply (io_inv_co s); simpl; [done|by rewrite Ha|try done..]).
  - by destruct Hp as [[? _] _].
  - intros _ Hk. apply Hp in Hd. by rewrite Hd, Hk in Hw.
  - intros Ho Hk. destruct Hp as [[?|Hp] ?]; [congruence|]. apply Hp in Hd. by rewrite Hd, Hk in Hw.
Qed.

Lemma io_suspend_inv s i o d sp' :
  inv s -> at_ s = IGo o d -> suspend i (kind_of o) (is_some (o_timer o d)) (sp s) = Some sp' ->
  inv (set_at (IAway o d) (set_sp sp' s)).
Proof.
  intros Hi Ha Hsu. destruct (sus_ok_suspend _ _ _ _ _ (iv_sus _ Hi) Hsu) as [Hok Hr].
  pose proof (iv_ready _ Hi) as Hb. pose proof (iv_pc _ Hi) as Hp. rewrite Ha in Hb, Hp.
  destruct (running_slot _ (iv_sus _ Hi) Hr) as (Hsl & _ & _).
  unfold suspend in Hsu. destruct (agents (sp s) !! i) as [[]|] eqn:Hag; try discriminate Hsu. rewrite Hr in Hsu.
  injection Hsu as <-. split; simpl; try done.
  - intros j a k [(<- & -> & _)|[_ Hj]]%lookup_insert_list Hk; [simplify_eq/=; eauto|].
    destruct (iv_kind _ Hi _ _ _ Hj Hk) as (? & ? & ? & _). congruence.
  - by rewrite Hsl.
  - intros Ho Hk. destruct (Hb Ho Hk) as [?|[?|?]]; [by left|by right; left|].
    right. right. simpl. by eapply has_insert_other.
Qed.

Lemma io_kernel_step s e s' :
  step s (Kernel e) = Some s' -> e <> Sus.Resume /\ exists sp', Sus.step true (sp s) e = Some sp' /\ s' = set_sp sp' s.
Proof.
  unfold step. intros Hs. destruct e; try discriminate Hs; (split; [done|]);
    (destruct (Sus.step true (sp s) _) as [sp'|]; [|done]); injection Hs as <-; by exists sp'.
Qed.

Lemma io_step_inv s e s' : inv s -> step s e = Some s' -> inv s'.
Proof.
  intros Hi Hs. pose proof (iv_run _ Hi) as Hr. pose proof (iv_pc _ Hi) as Hp. pose proof (iv_ready _ Hi) as Hb.
  destruct e as [k d| |b|r still|i| | |i bits|i|e|];
    lazymatch type of Hs with step _ (Kernel _) = _ => idtac | _ => unfold step in Hs end.
  - destruct (at_ s) eqn:Ha; try discriminate Hs. destruct (methods !! k) as [a|] eqn:Hk; [|done].
    apply io_methods_ok in Hk. injection Hs as <-.
    destruct (a_reset a); (apply (io_inv_co s); simpl; [done|by rewrite Ha|done..]).
  - destruct (at_ s) eqn:Ha; try discriminate Hs. injection Hs as <-.
    apply (io_inv_co s); simpl; [done|by rewrite Ha|done..].
  - by eapply io_step_co_inv.
  - by eapply io_step_sys_inv.
  - destruct (at_ s) eqn:Ha; try discriminate Hs. destruct (suspend i _ _ (sp s)) as [sp'|] eqn:Hsu; [|done].
    injection Hs as <-. by eapply io_suspend_inv.
  - destruct (at_ s) eqn:Ha; try discriminate Hs. simpl in Hs. destruct (ready (sp s)) eqn:Hrd; simplify_eq/=.
    pose proof (iv_sus _ Hi) as Hok.
    assert (Hok' : Sus.step true (sp s) Sus.Resume = Some (set_co (slot (sp s)) None true o0 (sp s))) by (simpl; by rewrite Hrd).
    apply (sus_ok_step true _ _ _ Hok) in Hok'. destruct (running_slot _ Hok' eq_refl) as (Hsl & _ & Hh). simpl in Hsl, Hh.
    split; simpl; try done; [|by rewrite Hsl].
    intros i a k Ha' Hk. apply (zsum_zero_lookup holds_co _ _ _ ltac:(by intros []) Hh) in Ha'. by destruct a.
  - injection Hs as <-. destruct Hi. split; simpl; try done. auto.
  - destruct (edge s); [|done]. destruct (Sus.step true (sp s) (Wake i bits)) as [sp'|] eqn:Hw; [|done].
    injection Hs as <-. eapply io_inv_agents; [done..|]. intros _ _. right. by eapply io_wake_signals.
  - destruct (Sus.step true (sp s) (Wake i waker_bits)) as [sp'|] eqn:Hw; [|done].
    injection Hs as <-. eapply (io_inv_agents s); [done..|]. intros _ _. right. by eapply io_wake_signals.
  - apply io_kernel_step in Hs as (He & sp' & Hst & ->). eapply (io_inv_agents s); [done..|]. intros Hbl Hk.
    destruct (Hb Hbl Hk); [by left|right]. eapply io_signalled_step; [apply Hi|done..].
  - destruct (at_ s) eqn:Ha; try discriminate Hs. injection Hs as <-. apply (io_inv_co s); simpl; [done|by rewrite Ha|done..].
Qed.

Lemma io_reach_inv n s : reachable step (init n) s -> inv s.
Proof. apply reachable_ind_inv; [apply io_init_inv|]. intros. by eapply io_step_inv. Qed.

(** ** Cancelling a coroutine that is suspended on an operation that does not
    register for it *)

Definition harmless (a : agent) : bool :=
  match a with AIdle | CanOr _ | CanSlot _ | SubRelease => true | _ => false end.
Definition uncancelled (s : state) : Prop :=
  slot (sp s) = true /\ cslot (sp s) = false /\ is_away (at_ s) = true /\
  forall i a, agents (sp s) !! i = Some a -> harmless a = true.
Definition is_cancel (e : event) : Prop :=
  match e with Kernel (Cancel _) | Kernel (Act _) | Tick _ => True | _ => False end.

Lemma io_uncancelled_step s e s' : is_cancel e -> uncancelled s -> step s e = Some s' -> uncancelled s'.
Proof.
  intros He (H1 & H2 & H3 & H4) Hs. destruct e as [| |b| | | | | | |e|]; try done.
  - simpl in Hs. unfold step_co in Hs. by destruct (at_ s).
  - destruct e as [i| |i| | |]; try done; simpl in Hs.
    + destruct (agents (sp s) !! i) as [a|] eqn:Hi; [|done]. specialize (H4 _ _ Hi) as Ha.
      destruct a; try discriminate Ha; simpl in Hs; try discriminate Hs; rewrite ?H2 in Hs; injection Hs as <-;
        (split_and!; [done|done|done|]; intros j x [(_ & -> & _)|[_ ?]]%lookup_insert_list; [by try destruct b|eauto]).
    + destruct (agents (sp s) !! i) as [[]|] eqn:Hi; try discriminate Hs. injection Hs as <-.
      split_and!; [done|done|done|]. intros j x [(_ & -> & _)|[_ ?]]%lookup_insert_list; [done|eauto].
Qed.

Lemma io_uncancelled_run es s s' :
  Forall is_cancel es -> uncancelled s -> run step es s = Some s' -> uncancelled s'.
Proof.
  revert s. induction es as [|e es IH]; intros s Hes Hu Hr; simplify_eq/=; [done|].
  apply Forall_cons in Hes as [He Hes]. destruct (step s e) as [s1|] eqn:Hs; [|done].
  eapply IH; [done| |done]. by eapply io_uncancelled_step.
Qed.

(** ** Properties *)

(** C13. No readiness event is lost: when a coroutine is suspended in an operation and
    every thread that was acting on its event data has finished, then no event was
    flagged that nobody acted on; unless the operation is [wait_io], which makes no
    system call of its own, the object is not ready or an edge is still queued in
    epoll (the next [select] wakes the coroutine); and the coroutine is not cancelled
    if the operation registers for cancellation. *)
Theorem io_event_not_lost n s o d :
  reachable step (init n) s -> rest (sp s) -> at_ s = IAway o d -> slot (sp s) = true ->
  flag (sp s) = 0%Z /\ (o_wait o = false -> kready s = true -> edge s = true) /\
  (o_cancel o = true -> is_canceled (sp s) = false).
Proof.
  intros Hi%io_reach_inv Hrest Ha Hsl. destruct (rest_slot _ (iv_sus _ Hi) Hrest Hsl) as [Hf Hc].
  split_and!; [done| |].
  - intros Ho Hk. destruct (iv_ready _ Hi) as [?|[?|(i & a & Hag & Hsig)]]; [by rewrite Ha; simpl; rewrite Ho|done|done|done|].
    by rewrite (Hrest _ _ Hag) in Hsig.
  - intros Ho. destruct (iv_reg _ Hi Hsl) as (o' & d' & Ha' & Hr). rewrite Ha in Ha'. simplify_eq.
    rewrite Ho in Hr. apply Z.eqb_neq. by apply Hc.
Qed.

(** A suspended operation that does not register for cancellation is not
    interrupted by it: from a state where nobody else acts on the event data, the
    coroutine of a write or a send stays where it is whatever the cancellers do. *)
Theorem io_write_uninterrupted n s es s' o d :
  reachable step (init n) s -> rest (sp s) -> at_ s = IAway o d -> slot (sp s) = true -> cslot (sp s) = false ->
  Forall is_cancel es -> run step es s = Some s' ->
  at_ s' = IAway o d /\ slot (sp s') = true /\ ready (sp s') = None.
Proof.
  intros Hr Hrest Ha Hsl Hc Hes Hrun.
  assert (Hat : at_ s' = at_ s).
  { clear -Hes Hrun Ha. revert s Ha Hrun. induction es as [|e es IH]; intros s Ha Hrun; simplify_eq/=; [done|].
    apply Forall_cons in Hes as [He Hes]. destruct (step s e) as [s1|] eqn:Hs; [|done].
    enough (Hs1 : at_ s1 = at_ s) by (rewrite <-Hs1; apply IH; congruence).
    destruct e as [| |b| | | | | | |e|]; try done.
    - simpl in Hs. unfold step_co in Hs. by rewrite Ha in Hs.
    - apply io_kernel_step in Hs as (_ & sp' & _ & ->). done. }
  assert (Hu : uncancelled s) by (split_and!; [done|done|by rewrite Ha|by intros i a ->%Hrest]).
  destruct (io_uncancelled_run _ _ _ Hes Hu Hrun) as (Hsl' & _).
  assert (Hi' : inv s') by (eapply io_reach_inv, run_reachable_from; done).
  split_and!; [congruence|done|]. by destruct (slot_ready _ (iv_sus _ Hi') Hsl').
Qed.

(** The first attempt: called on an object that is not ready, every method
    whose call fails with [EAGAIN] suspends the coroutine in its operation, except
    the two [connect]s, which return the error: a [connect] of a unix socket whose
    listener's queue is full therefore fails with [WouldBlock]. *)
Theorem io_first_attempt n d k a :
  methods !! k = Some a ->
  run step ([CCall k d] ++ (if a_reset a then [Tick false] else []) ++ [Sys (SErr EAGAIN) false]) (init n) =
  Some (if bool_decide (k = 4 \/ k = 13) then set_at (IDone (RErr EAGAIN)) (init n) else set_at (IYield (a_op a) d) (init n)).
Proof.
  unfold methods. intros Hk.
  repeat (destruct k as [|k]; simpl in Hk; [injection Hk as <-; reflexivity|]). done.
Qed.

(** ** Concrete runs *)

Definition ticks (n : nat) : list event := replicate n (Tick false).
Definition acts (i n : nat) : list event := replicate n (Kernel (Act i)).
Definition final (es : list event) : state := default (init 2) (run step es (init 2)).
(** The [k]th method finds the object not ready and suspends. *)
Definition demo_suspend (k m : nat) : list event :=
  [CCall k (Some 5%Z)] ++ ticks 1 ++ [Sys (SErr EAGAIN) false] ++ ticks 1 ++ [Yield 0] ++ acts 0 m.
(** Then the object becomes ready, [select] wakes the coroutine, and the call returns. *)
Definition demo_read : list event :=
  demo_suspend 0 5 ++ [Ready; Deliver 1 1] ++ acts 1 2 ++ [Resume] ++ ticks 3 ++ [Sys (SOk 7 None) false].
(** The event comes before the coroutine is stored; [subscribe] finds it. *)
Definition demo_early : list event :=
  demo_suspend 0 1 ++ [Ready; Deliver 1 1] ++ acts 1 2 ++ acts 0 3 ++ [Resume] ++ ticks 3 ++ [Sys (SOk 7 None) false].
Definition demo_expire : list event :=
  demo_suspend 0 5 ++ [Kernel (Expire 1)] ++ acts 1 1 ++ [Resume] ++ ticks 2.
Definition demo_wait : list event :=
  [CWaitIo] ++ ticks 2 ++ [Yield 0] ++ acts 0 5 ++ [Waker 1] ++ acts 1 2 ++ [Resume] ++ ticks 2.

Example io_demo_results :
  map (fun es => at_ (final es)) [demo_read; demo_early; demo_expire; demo_wait] =
  [IDone (ROk 7); IDone (ROk 7); IDone RTimeout; IDone (ROk 0x80000000)].
Proof. by vm_compute. Qed.

Lemma io_event_not_lost_witness :
  let s := final (demo_suspend 0 5) in
  flag (sp s) = 0%Z /\ (o_wait SocketRead = false -> kready s = true -> edge s = true) /\
  (o_cancel SocketRead = true -> is_canceled (sp s) = false).
Proof.
  apply (io_event_not_lost 2 _ SocketRead (Some 5%Z)).
  - apply run_reachable with (es := demo_suspend 0 5). vm_compute. reflexivity.
  - intros [|[|i]] a; vm_compute; congruence.
  - vm_compute. reflexivity.
  - vm_compute. reflexivity.
Defined.

Lemma io_write_uninterrupted_witness :
  let s' := final (demo_suspend 2 3 ++ [Kernel (Cancel 1)] ++ acts 1 2) in
  cstate (sp s') = 1%Z /\ at_ s' = IAway SocketWrite (Some 5%Z) /\ slot (sp s') = true /\ ready (sp s') = None.
Proof.
  split; [vm_compute; reflexivity|].
  apply (io_write_uninterrupted 2 (final (demo_suspend 2 3)) ([Kernel (Cancel 1)] ++ acts 1 2)).
  - apply run_reachable with (es := demo_suspend 2 3). vm_compute. reflexivity.
  - intros [|[|i]] a; vm_compute; congruence.
  - vm_compute. reflexivity.
  - vm_compute. reflexivity.
  - vm_compute. reflexivity.
  - repeat constructor.
  - vm_compute. reflexivity.
Defined.

Lemma io_first_attempt_witness :
  run step [CCall 13 None; Sys (SErr EAGAIN) false] (init 2) = Some (set_at (IDone (RErr EAGAIN)) (init 2)).
Proof. apply (io_first_attempt 2 None 13 UnixStream_connect). reflexivity. Defined.

End Io.
