(* ===== verification/IoTimer.v ===== *)
(** * IoTimer: the timer of an I/O object

    [EventData] of [src/io/sys/unix/mod.rs] with [add_io_timer], [del_fd] and
    [free_unused_event_data] of [src/io/sys/unix/epoll.rs], [CancelIoImpl] of
    [src/io/sys/unix/cancel.rs] and the [subscribe] of the operations under
    [src/io/sys/unix/net/].  [NetIo] says when a suspended operation is woken; this
    machine says what happens to the pointers: the entry of the timer list points
    back to the [EventData], the [EventData] keeps a handle of the entry, and both
    are taken apart by the selector, the timer, a cancellation, a waker or the drop
    of the socket.  One socket, any number of operations one after the other, any
    number of threads; the first [workers] of them are the workers. *)

From stdpp Require Import base numbers list.
From Stdlib Require Import ZArith Lia.
From S2P Require Import Prelude.

Module It.

(** A node of the timer list.  [data]: [TimerData], the pointer to the [EventData]
    or null, [None] once the value was taken; [linked]: is it in the list?  History:
    [owner], the operation that added it. *)
Record entry := En { owner : nat; data : option bool; linked : bool }.

(** How a suspension ended. *)
Inductive result := REvent | RTimedOut (e : nat) | RCanceled.
Inductive phase := Waiting | Woken (r : result) | Ended (r : result).

(** One suspension of an operation: has it a timeout, does it register for
    cancellation; the cancel bit of its coroutine and the I/O slot of its [Cancel]. *)
Record op := Op { timed : bool; cancellable : bool; canceled : bool; io_slot : bool; phase_of : phase }.

(** Who takes the coroutine out of the [EventData]: the selector, a [WaitIoWaker], or
    the [subscribe] that finds that the event has already come. *)
Inductive via := VSel | VWake | VFast.

(** Where a thread is: in [subscribe] ([U]), in one of the three bodies that deliver
    an event ([W]), in [timeout_handler] ([T]), in [cancel] ([C]), or in [del_fd]. *)
Inductive pc :=
  | AIdle
  | UAdd (k : nat) | UReplace (k e : nat) | UStore (k : nat) | UFlag (k : nat) | USetIo (k : nat) | UCheck (k : nat)
  | WFlag (v : via) | WCo (v : via) | WTimer (v : via) (k : nat) | WNull (v : via) (k e : nat)
  | WRemove (v : via) (k e : nat) | WRun (v : via) (k : nat)
  | TTimer (e : nat) | TCo (e : nat) | TRun (e k : nat)
  | CIo (k : nat) | CCo (k : nat) | CRun (k : nat)
  | DTimer | DNull (e : nat) | DPush
  | APanic.

Record event_data := ED { timer : option nat; co : option nat; io_flag : bool }.
Inductive sock := Open | Closing | Closed.

(** History.  [early]: a timer expired before [add_io_timer] had stored its handle;
    [crossed]: the coroutine of an operation with a timeout was taken by a thread
    that is not the worker of the timer list; [killed]: such an operation was
    cancelled; [under]: the socket was dropped under a running [subscribe];
    [missed]: a timer expired before its coroutine was stored. *)
Record history := Hist { early : bool; crossed : bool; killed : bool; under : bool; missed : bool }.

(** [queued]: the clone of the [EventData] in [free_ev]; [fetched]: an event of the
    socket is in the batch of the selector; [wakers]: the [WaitIoWaker]s that are not
    in use; [ub]: freed memory was used. *)
Record state := ST {
  entries : list entry; ed : event_data; sk : sock; queued : bool; fetched : bool; wakers : nat;
  ops : list op; agents : list pc; ub : bool; hs : history
}.

Definition init (n : nat) : state :=
  ST [] (ED None None false) Open false false 0 [] (replicate n AIdle) false (Hist false false false false false).

Definition goto (i : nat) (a : pc) (s : state) : state :=
  ST (entries s) (ed s) (sk s) (queued s) (fetched s) (wakers s) (ops s) (<[i:=a]> (agents s)) (ub s) (hs s).
Definition set_entries (l : list entry) (s : state) : state :=
  ST l (ed s) (sk s) (queued s) (fetched s) (wakers s) (ops s) (agents s) (ub s) (hs s).
Definition set_ed (d : event_data) (s : state) : state :=
  ST (entries s) d (sk s) (queued s) (fetched s) (wakers s) (ops s) (agents s) (ub s) (hs s).
Definition set_sock (k : sock) (q : bool) (s : state) : state :=
  ST (entries s) (ed s) k q (fetched s) (wakers s) (ops s) (agents s) (ub s) (hs s).
Definition set_batch (b : bool) (w : nat) (s : state) : state :=
  ST (entries s) (ed s) (sk s) (queued s) b w (ops s) (agents s) (ub s) (hs s).
Definition set_ops (l : list op) (s : state) : state :=
  ST (entries s) (ed s) (sk s) (queued s) (fetched s) (wakers s) l (agents s) (ub s) (hs s).
Definition set_hist (h : history) (s : state) : state :=
  ST (entries s) (ed s) (sk s) (queued s) (fetched s) (wakers s) (ops s) (agents s) (ub s) h.
(** An access to memory that is allocated if [b]. *)
Definition touch (b : bool) (s : state) : state :=
  ST (entries s) (ed s) (sk s) (queued s) (fetched s) (wakers s) (ops s) (agents s) (ub s || negb b) (hs s).

Definition set_timer (o : option nat) (s : state) : state := set_ed (ED o (co (ed s)) (io_flag (ed s))) s.
Definition set_co (o : option nat) (s : state) : state := set_ed (ED (timer (ed s)) o (io_flag (ed s))) s.
Definition set_flag (b : bool) (s : state) : state := set_ed (ED (timer (ed s)) (co (ed s)) b) s.
Definition set_data (e : nat) (d : option bool) (l : bool) (s : state) : state :=
  set_entries (alter (fun n => En (owner n) d l) e (entries s)) s.
Definition data_of (s : state) (e : nat) : option bool := n ← entries s !! e; data n.

Definition is_timed (s : state) (k : nat) : bool := from_option timed false (ops s !! k).
Definition set_slot (b : bool) (o : op) : op := Op (timed o) (cancellable o) (canceled o) b (phase_of o).
Definition set_phase (p : phase) (o : op) : op := Op (timed o) (cancellable o) (canceled o) (io_slot o) p.
Definition cancel_bit (o : op) : op := Op (timed o) (cancellable o) true (io_slot o) (phase_of o).
Definition upd (k : nat) (f : op -> op) (s : state) : state := set_ops (alter f k (ops s)) s.
(** The coroutine of operation [k] is made ready, or run at once. *)
Definition deliver (k : nat) (r : result) (s : state) : state := upd k (set_phase (Woken r)) s.

(** Threads that own a reference to the [EventData]. *)
Definition has_arc (a : pc) : bool :=
  match a with
  | CCo _ | WFlag VWake | WCo VWake | WTimer VWake _ | WNull VWake _ _ | WRemove VWake _ _ | WRun VWake _ => true
  | _ => false
  end.
Definition is_closed (k : sock) : bool := match k with Closed => true | _ => false end.
Definition alive (s : state) : bool :=
  negb (is_closed (sk s)) || queued s || (0 <? wakers s) || existsb io_slot (ops s) || existsb has_arc (agents s).
(** Threads that execute the [subscribe] of an operation of the socket. *)
Definition in_sub (a : pc) : bool :=
  match a with
  | UAdd _ | UReplace _ _ | UStore _ | UFlag _ | USetIo _ | UCheck _
  | WFlag VFast | WCo VFast | WTimer VFast _ | WNull VFast _ _ | WRemove VFast _ _ | WRun VFast _ => true
  | _ => false
  end.

Section machine.
(** The descriptor of the socket and the number of workers. *)
Context (fd workers : nat).

(** [fd % self.vec.len()]: the worker that polls the socket and runs its timers. *)
Definition home : nat := fd mod workers.

Definition is_home (i : nat) : bool := i =? home.

(** [Sub]scribe with [add_io_timer]. *)
Definition step_subscribe (i : nat) (a : pc) (s : state) : option state :=
  match a with
  | UAdd k =>
      Some (goto i (UReplace k (length (entries s))) (set_entries (entries s ++ [En k (Some true) true]) s))
  | UReplace k e =>
      let h := hs s in
      let popped := negb (bool_decide (is_Some (data_of s e))) in
      Some (goto i (UStore k) (set_timer (Some e)
        (set_hist (Hist (early h || popped) (crossed h) (killed h) (under h) (missed h)) s)))
  | UStore k => Some (goto i (UFlag k) (set_co (Some k) s))
  | UFlag k =>
      Some (goto i (if io_flag (ed s) then WCo VFast
                    else if from_option cancellable false (ops s !! k) then USetIo k else AIdle)
        (touch (negb (is_closed (sk s))) s))
  | USetIo k => Some (goto i (UCheck k) (upd k (set_slot true) (touch (negb (is_closed (sk s))) s)))
  | UCheck k => Some (goto i (if from_option canceled false (ops s !! k) then CIo k else AIdle) s)
  | _ => None
  end.

(** The end of a delivery: a waker is free again. *)
Definition finish (i : nat) (v : via) (s : state) : state :=
  goto i AIdle (match v with VWake => set_batch (fetched s) (S (wakers s)) s | _ => s end).

(** The body of [select] for one event, [EventData::schedule] and [fast_schedule]; [b]:
    does [remove] find the node in the middle of the list? *)
Definition step_schedule (i : nat) (b : bool) (a : pc) (s : state) : option state :=
  match a with
  | WFlag v => Some (goto i (WCo v) (set_flag true (touch (alive s) s)))
  | WCo v =>
      match co (ed s) with
      | None => Some (finish i v (touch (alive s) s))
      | Some k =>
          let h := hs s in
          Some (goto i (WTimer v k) (set_co None (touch (alive s)
            (set_hist (Hist (early h) (crossed h || (is_timed s k && negb (is_home i))) (killed h) (under h) (missed h)) s))))
      end
  | WTimer v k =>
      match timer (ed s) with
      | None => Some (goto i (WRun v k) (touch (alive s) s))
      | Some e => Some (goto i (WNull v k e) (set_timer None (touch (alive s) s)))
      end
  | WNull v k e =>
      match data_of s e with
      | Some _ => Some (goto i (WRemove v k e) (set_data e (Some false) true s))
      | None => Some (goto i APanic s)
      end
  | WRemove v k e =>
      let gone := b && bool_decide (is_Some (data_of s e)) in
      Some (goto i (WRun v k) (if gone then set_data e None false s else s))
  | WRun v k => Some (finish i v (deliver k REvent s))
  | _ => None
  end.

(** [timeout_handler], on an entry whose pointer was not null. *)
Definition step_timeout (i : nat) (a : pc) (s : state) : option state :=
  match a with
  | TTimer e => Some (goto i (TCo e) (set_timer None (touch (alive s) s)))
  | TCo e =>
      match co (ed s) with
      | None =>
          let h := hs s in
          Some (goto i AIdle (touch (alive s) (set_hist (Hist (early h) (crossed h) (killed h) (under h) true) s)))
      | Some k => Some (goto i (TRun e k) (set_co None (touch (alive s) s)))
      end
  | TRun e k => Some (goto i AIdle (deliver k (RTimedOut e) s))
  | _ => None
  end.

(** [CancelImpl::cancel] with [CancelIoImpl::cancel]. *)
Definition step_cancel (i : nat) (a : pc) (s : state) : option state :=
  match a with
  | CIo k =>
      Some (if from_option io_slot false (ops s !! k) then goto i (CCo k) (upd k (set_slot false) s) else goto i AIdle s)
  | CCo k =>
      match co (ed s) with
      | None => Some (goto i AIdle (touch (alive s) s))
      | Some j =>
          let h := hs s in
          Some (goto i (CRun j) (set_co None (touch (alive s)
            (set_hist (Hist (early h) (crossed h) (killed h || is_timed s j) (under h) (missed h)) s))))
      end
  | CRun j => Some (goto i AIdle (deliver j RCanceled s))
  | _ => None
  end.

(** [del_fd], in the [Drop] of [IoData]. *)
Definition step_del (i : nat) (a : pc) (s : state) : option state :=
  match a with
  | DTimer =>
      match timer (ed s) with
      | Some e => Some (goto i (DNull e) (set_timer None s))
      | None => Some (goto i DPush s)
      end
  | DNull e =>
      match data_of s e with
      | Some _ => Some (goto i DPush (set_data e (Some false) true s))
      | None => Some (goto i APanic s)
      end
  | DPush =>
      let h := hs s in
      Some (goto i AIdle (set_sock Closed true
        (set_hist (Hist (early h) (crossed h) (killed h) (under h || existsb in_sub (agents s)) (missed h)) s)))
  | _ => None
  end.

Definition act (i : nat) (b : bool) (a : pc) (s : state) : option state :=
  match a with
  | AIdle | APanic => None
  | UAdd _ | UReplace _ _ | UStore _ | UFlag _ | USetIo _ | UCheck _ => step_subscribe i a s
  | WFlag _ | WCo _ | WTimer _ _ | WNull _ _ _ | WRemove _ _ _ | WRun _ _ => step_schedule i b a s
  | TTimer _ | TCo _ | TRun _ _ => step_timeout i a s
  | CIo _ | CCo _ | CRun _ => step_cancel i a s
  | DTimer | DNull _ | DPush => step_del i a s
  end.

Inductive event :=
  | Subscribe (i : nat) (t c : bool)  (* an operation suspends; worker [i] runs its [subscribe] *)
  | Act (i : nat) (b : bool)
  | Fetch                             (* [epoll_wait] returns an event of the socket *)
  | Deliver                           (* [select] comes to it *)
  | Expire (e : nat)                  (* the worker pops the expired entry [e] *)
  | Free                              (* [free_unused_event_data] *)
  | Wake (i : nat) | NewWaker | DropWaker
  | Cancel (i k : nat)
  | Resume (clear : bool)             (* the coroutine runs on; [clear] unless it panics *)
  | Close (i : nat).                  (* the socket is dropped *)

Definition quiet (s : state) : bool :=
  match last (ops s) with None => true | Some o => match phase_of o with Ended _ => true | _ => false end end.

Definition step (s : state) (ev : event) : option state :=
  match ev with
  | Subscribe i t c =>
      match agents s !! i, sk s with
      | Some AIdle, Open =>
          if quiet s then
            let k := length (ops s) in
            Some (goto i (if t then UAdd k else UStore k) (set_ops (ops s ++ [Op t c false false Waiting]) s))
          else None
      | _, _ => None
      end
  | Act i b => match agents s !! i with Some a => act i b a s | None => None end
  | Fetch =>
      match agents s !! home, sk s with
      | Some AIdle, Open => if fetched s then None else Some (set_batch true (wakers s) s)
      | _, _ => None
      end
  | Deliver =>
      match agents s !! home with
      | Some AIdle => if fetched s then Some (goto home (WFlag VSel) (set_batch false (wakers s) s)) else None
      | _ => None
      end
  | Expire e =>
      match agents s !! home, entries s !! e with
      | Some AIdle, Some (En _ (Some p) true) =>
          Some (goto home (if p then TTimer e else AIdle) (set_data e None false s))
      | _, _ => None
      end
  | Free =>
      match agents s !! home with
      | Some AIdle => if fetched s then None else Some (set_sock (sk s) false s)
      | _ => None
      end
  | Wake i =>
      match agents s !! i, wakers s with
      | Some AIdle, S w => Some (goto i (WFlag VWake) (set_batch (fetched s) w s))
      | _, _ => None
      end
  | NewWaker => match sk s with Open => Some (set_batch (fetched s) (S (wakers s)) s) | _ => None end
  | DropWaker => match wakers s with S w => Some (set_batch (fetched s) w s) | O => None end
  | Cancel i k =>
      match agents s !! i, ops s !! k with
      | Some AIdle, Some _ => Some (goto i (CIo k) (upd k cancel_bit s))
      | _, _ => None
      end
  | Resume clear =>
      match last (ops s) with
      | Some (Op t c x sl (Woken r)) =>
          Some (upd (pred (length (ops s))) (fun o => set_phase (Ended r) (if clear then set_slot false o else o)) s)
      | _ => None
      end
  | Close i =>
      match agents s !! i, sk s with
      | Some AIdle, Open => if quiet s then Some (goto i DTimer (set_sock Closing (queued s) s)) else None
      | _, _ => None
      end
  end.

(** ** The invariant *)

(** Nothing went wrong with the timer so far. *)
Definition regular (s : state) : Prop :=
  early (hs s) = false /\ crossed (hs s) = false /\ killed (hs s) = false /\ under (hs s) = false.

Definition waiting (s : state) : bool :=
  match last (ops s) with Some o => match phase_of o with Waiting => true | _ => false end | None => false end.
(** [k] is the last operation. *)
Definition current (s : state) (k : nat) : Prop := S k = length (ops s).

(** Threads that have the coroutine in their hands. *)
Definition holds (a : pc) : Z :=
  match a with
  | UAdd _ | UReplace _ _ | UStore _ | WTimer _ _ | WNull _ _ _ | WRemove _ _ _ | WRun _ _ | TRun _ _ | CRun _ => 1
  | _ => 0
  end.
Definition closing (a : pc) : Z := match a with DTimer | DNull _ | DPush => 1 | _ => 0 end.
Definition in_timeout (a : pc) : bool := match a with TTimer _ | TCo _ => true | _ => false end.
Definition is_some {A} (o : option A) : bool := match o with Some _ => true | None => false end.

Definition sel_home (i : nat) (v : via) : Prop := v = VSel -> i = home.
Definition owned (s : state) (e k : nat) : Prop := exists n, entries s !! e = Some n /\ owner n = k.

(** What a thread knows. *)
Definition agent_ok (s : state) (i : nat) (a : pc) : Prop :=
  match a with
  | AIdle | UFlag _ | USetIo _ | UCheck _ | CIo _ | CCo _ => True
  | UAdd k => current s k /\ is_timed s k = true /\ (forall e n, entries s !! e = Some n -> owner n <> k)
  | UReplace k e => current s k /\ timer (ed s) = None /\ owned s e k /\ data_of s e <> Some false
  | UStore k => current s k
  | WFlag v | WCo v => sel_home i v
  | WTimer v k => sel_home i v /\ current s k /\ (is_timed s k = true -> i = home)
  | WNull v k e =>
      sel_home i v /\ current s k /\ i = home /\ entries s !! e = Some (En k (Some true) true) /\ timer (ed s) = None
  | WRemove v k e => sel_home i v /\ current s k /\ i = home /\ timer (ed s) = None
  | WRun v k => sel_home i v /\ current s k /\ (is_timed s k = true -> i = home) /\ timer (ed s) = None
  | TTimer e | TCo e =>
      i = home /\ waiting s = true /\ data_of s e = None /\ exists k, current s k /\ owned s e k
  | TRun e k => i = home /\ current s k /\ owned s e k /\ data_of s e = None
  | CRun k => current s k /\ is_timed s k = false
  | DTimer | DPush => sk s = Closing
  | DNull _ | APanic => False
  end.

Definition batch (s : state) : Prop :=
  fetched s = true \/ agents s !! home = Some (WFlag VSel) \/ agents s !! home = Some (WCo VSel).

Record table_ok (s : state) : Prop := {
  tb_entry : forall e n, entries s !! e = Some n -> is_timed s (owner n) = true;
  tb_unique : forall e e' k, owned s e k -> owned s e' k -> e = e';
  tb_timer : forall e, timer (ed s) = Some e -> waiting s = true /\
    exists k, current s k /\ owned s e k /\
      (entries s !! e = Some (En k (Some true) true) \/ agents s !! home = Some (TTimer e));
  tb_live : forall e n, entries s !! e = Some n -> data n = Some true ->
    waiting s = true /\ current s (owner n) /\
    (timer (ed s) = Some e \/ (exists i, agents s !! i = Some (UReplace (owner n) e)) \/
     (exists v, agents s !! home = Some (WNull v (owner n) e)));
  tb_linked : forall e n, entries s !! e = Some n -> is_some (data n) = linked n;
  tb_result : forall k o e, ops s !! k = Some o ->
    phase_of o = Woken (RTimedOut e) \/ phase_of o = Ended (RTimedOut e) -> owned s e k
}.

Record sock_ok (s : state) : Prop := {
  so_open : quiet s = false -> sk s = Open;
  so_closing : zsum closing (agents s) = b2z (match sk s with Closing => true | _ => false end);
  so_closed : sk s = Closed -> forall i a, agents s !! i = Some a -> in_sub a = false;
  so_batch : batch s -> sk s = Closed -> queued s = true;
  so_ub : ub s = false
}.

Record inv (s : state) : Prop := {
  iv_agent : forall i a, agents s !! i = Some a -> agent_ok s i a;
  iv_place : (zsum holds (agents s) + b2z (is_some (co (ed s))) = b2z (waiting s))%Z;
  iv_co : forall k, co (ed s) = Some k -> current s k;
  iv_table : table_ok s;
  iv_sock : sock_ok s
}.

Lemma regular_step s ev s' : step s ev = Some s' -> regular s' -> regular s.
Proof.
  unfold regular. intros Hs. destruct ev; cbn [step] in Hs;
    repeat (case_match; try discriminate Hs); simplify_eq/=; try done;
    match goal with H : act _ _ ?a _ = Some _ |- _ => destruct a; cbn in H | _ => idtac end;
    repeat (case_match; try discriminate); simplify_eq/=; try done;
    rewrite ?orb_false_iff; try tauto.
  all: unfold finish; repeat case_match; simpl; try tauto; rewrite ?orb_false_iff; tauto.
Qed.


Lemma holds_range a : (0 <= holds a <= 1)%Z.
Proof. destruct a; simpl; lia. Qed.
Lemma closing_range a : (0 <= closing a <= 1)%Z.
Proof. destruct a; simpl; lia. Qed.

Lemma holder_alone s i a : inv s -> agents s !! i = Some a -> holds a = 1%Z ->
  alone holds i (agents s) /\ co (ed s) = None /\ waiting s = true.
Proof.
  intros Hi Ha Hh. pose proof (iv_place _ Hi) as Hp.
  pose proof (zsum_lookup_le holds (agents s) i a ltac:(intros x; apply holds_range) Ha) as Hle.
  pose proof (b2z_le1 (waiting s)). pose proof (b2z_nonneg (is_some (co (ed s)))).
  destruct (waiting s) eqn:Hw; simpl in Hp; [|lia]. split_and!; [|destruct (co (ed s)); simpl in *; [lia|done]|done].
  eapply alone_of; [apply holds_range| |done..]. lia.
Qed.

Lemma co_alone s k : inv s -> co (ed s) = Some k -> zsum holds (agents s) = 0%Z /\ waiting s = true.
Proof.
  intros Hi Hc. pose proof (iv_place _ Hi) as Hp. rewrite Hc in Hp. simpl in Hp.
  pose proof (zsum_nonneg holds (agents s) ltac:(intros x; apply holds_range)).
  destruct (waiting s); simpl in Hp; split; try done; lia.
Qed.

Lemma waiting_open s : inv s -> waiting s = true -> sk s = Open.
Proof.
  intros Hi Hw. apply (so_open _ (iv_sock _ Hi)). unfold waiting, quiet in *.
  destruct (last (ops s)) as [o|]; [|done]. by destruct (phase_of o).
Qed.

Lemma touch_true b s : b = true -> touch b s = s.
Proof. intros ->. destruct s; unfold touch; simpl. by rewrite orb_false_r. Qed.

Lemma alive_open s : sk s <> Closed -> alive s = true.
Proof. unfold alive. by destruct (sk s). Qed.
Lemma alive_queued s : queued s = true -> alive s = true.
Proof. unfold alive. intros ->. by rewrite orb_true_r. Qed.
Lemma alive_arc s i a : agents s !! i = Some a -> has_arc a = true -> alive s = true.
Proof.
  intros Hi Ha. unfold alive. apply orb_true_iff. right. apply existsb_exists. exists a. split; [|done].
  apply list_elem_of_In. by eapply list_elem_of_lookup_2.
Qed.
Lemma alive_waiting s : inv s -> waiting s = true -> alive s = true.
Proof. intros Hi Hw. apply alive_open. rewrite (waiting_open _ Hi Hw). done. Qed.

(** A thread that delivers an event still has a live [EventData] before it has the
    coroutine. *)
Lemma alive_deliver s i a v :
  inv s -> agents s !! i = Some a -> a = WFlag v \/ a = WCo v -> alive s = true.
Proof.
  intros Hi Ha Hv. assert (Hok := iv_agent _ Hi _ _ Ha). destruct v.
  - assert (i = home) as -> by (destruct Hv as [-> | ->]; by apply Hok).
    destruct (sk s) eqn:Hk; [apply alive_open; congruence..|].
    apply alive_queued. apply (so_batch _ (iv_sock _ Hi)); [|done]. right. destruct Hv as [-> | ->]; auto.
  - apply (alive_arc _ _ _ Ha). by destruct Hv as [-> | ->].
  - apply alive_open. intros Hk. pose proof (so_closed _ (iv_sock _ Hi) Hk _ _ Ha). destruct Hv as [-> | ->]; done.
Qed.

Lemma owned_det s e k k' : owned s e k -> owned s e k' -> k = k'.
Proof. intros (n & Hn & <-) (n' & Hn' & <-). congruence. Qed.
Lemma current_det s k k' : current s k -> current s k' -> k = k'.
Proof. unfold current. lia. Qed.
Lemma owned_timed s e k : inv s -> owned s e k -> is_timed s k = true.
Proof. intros Hi (n & Hn & <-). by eapply tb_entry; [apply iv_table|]. Qed.


(** ** Updates of the operations *)

Lemma is_timed_upd k f s s' j :
  ops s' = alter f k (ops s) -> (forall o, timed (f o) = timed o) -> is_timed s' j = is_timed s j.
Proof.
  intros Hops Hf. unfold is_timed. rewrite Hops. destruct (decide (k = j)) as [-> |Hne].
  - rewrite list_lookup_alter_eq. destruct (ops s !! j); simpl; [apply Hf|done].
  - by rewrite list_lookup_alter_ne.
Qed.

Lemma phase_upd k f s s' :
  ops s' = alter f k (ops s) -> (forall o, phase_of (f o) = phase_of o) ->
  waiting s' = waiting s /\ quiet s' = quiet s.
Proof.
  intros Hops Hf. unfold waiting, quiet. rewrite Hops, last_alter. case_decide; [|done].
  destruct (last (ops s)); simpl; [by rewrite Hf|done].
Qed.
Lemma waiting_deliver s k r : current s k -> waiting (deliver k r s) = false.
Proof.
  intros Hk. unfold waiting, deliver, upd. simpl. rewrite last_alter, decide_True by done.
  by destruct (last (ops s)).
Qed.

(** The results a step adds are the timer's own. *)
Definition new_results (s s' : state) : Prop :=
  forall k o e, ops s' !! k = Some o -> phase_of o = Woken (RTimedOut e) \/ phase_of o = Ended (RTimedOut e) ->
    owned s e k \/ exists o', ops s !! k = Some o' /\ (phase_of o' = Woken (RTimedOut e) \/ phase_of o' = Ended (RTimedOut e)).

Lemma new_results_upd s s' k f :
  ops s' = alter f k (ops s) ->
  (forall o e, ops s !! k = Some o -> phase_of (f o) = Woken (RTimedOut e) \/ phase_of (f o) = Ended (RTimedOut e) ->
     owned s e k \/ phase_of o = Woken (RTimedOut e) \/ phase_of o = Ended (RTimedOut e)) ->
  new_results s s'.
Proof.
  intros Hops Hf j o e Ho Hp. rewrite Hops in Ho. destruct (decide (k = j)) as [-> |Hne].
  - rewrite list_lookup_alter_eq in Ho. destruct (ops s !! j) as [o'|] eqn:Ho'; simplify_eq/=.
    destruct (Hf o' e eq_refl Hp) as [?|?]; [by left|]. right. by exists o'.
  - rewrite list_lookup_alter_ne in Ho by done. right. by exists o.
Qed.
Lemma new_results_same s s' : ops s' = ops s -> new_results s s'.
Proof. intros Hops k o e Ho Hp. rewrite Hops in Ho. right. by exists o. Qed.

(** ** What a step of one thread leaves to the others *)

Record kept (i : nat) (s s' : state) : Prop := {
  kp_len : length (ops s') = length (ops s);
  kp_timed : forall k, is_timed s' k = is_timed s k;
  kp_sock : sk s' = sk s \/ alone closing i (agents s);
  kp_timer : timer (ed s') = None \/ timer (ed s') = timer (ed s) \/ alone holds i (agents s);
  kp_entries : forall e n, entries s !! e = Some n -> exists n', entries s' !! e = Some n' /\ owner n' = owner n /\
    (data n = None -> data n' = None) /\ (i <> home -> n' = n);
  kp_null : alone holds i (agents s) \/ forall e, data_of s' e = Some false -> data_of s e = Some false;
  kp_new : alone holds i (agents s) \/ forall e n', entries s' !! e = Some n' -> owned s e (owner n');
  kp_waiting : waiting s' = waiting s \/ forall j a, j <> i -> agents s !! j = Some a -> in_timeout a = false
}.

Lemma kept_owned i s s' e k : kept i s s' -> owned s e k -> owned s' e k.
Proof. intros Hk (n & Hn & <-). destruct (kp_entries _ _ _ Hk _ _ Hn) as (n' & Hn' & Ho & _). by exists n'. Qed.

Lemma kept_popped i s s' e k :
  kept i s s' -> owned s e k -> data_of s e = None -> owned s' e k /\ data_of s' e = None.
Proof.
  intros Hk (n & Hn & Ho) Hd. destruct (kp_entries _ _ _ Hk _ _ Hn) as (n' & Hn' & Ho' & Hd' & _). split.
  - exists n'. split; [done|congruence].
  - unfold data_of in *. rewrite Hn'. rewrite Hn in Hd. simpl in *. auto.
Qed.

Lemma kept_agent i s s' j a :
  kept i s s' -> j <> i -> agents s !! j = Some a -> agent_ok s j a -> agent_ok s' j a.
Proof.
  intros Hk Hj Ha Hok.
  assert (Hcur : forall k, current s k -> current s' k) by (intros k; unfold current; by rewrite (kp_len _ _ _ Hk)).
  assert (Hal : alone holds i (agents s) -> holds a = 0%Z) by (intros H; by apply (H j)).
  assert (Hsk : closing a = 1%Z -> sk s = Closing -> sk s' = Closing).
  { intros Hc Hs. destruct (kp_sock _ _ _ Hk) as [-> |H]; [done|]. rewrite (H j a Hj Ha) in Hc. done. }
  assert (Htm : holds a = 1%Z -> timer (ed s) = None -> timer (ed s') = None).
  { intros Hh Hn. destruct (kp_timer _ _ _ Hk) as [H|[H|H]]; [done|congruence|]. apply Hal in H. lia. }
  assert (Hex : j = home -> forall e n, entries s !! e = Some n -> entries s' !! e = Some n).
  { intros -> e n Hn. destruct (kp_entries _ _ _ Hk _ _ Hn) as (n' & Hn' & _ & _ & Heq). by rewrite <- Heq by done. }
  assert (Hto : in_timeout a = true -> waiting s = true -> waiting s' = true).
  { intros Hin Hw. destruct (kp_waiting _ _ _ Hk) as [->|H]; [done|]. specialize (H j _ Hj Ha). congruence. }
  destruct a; simpl in *; rewrite ?(kp_timed _ _ _ Hk); try done;
    try (destruct_and?; split_and?; by auto).
  - destruct Hok as (H1 & H2 & H3). split_and!; [auto|done|]. intros e n' Hn' <-.
    destruct (kp_new _ _ _ Hk) as [H|H]; [by apply Hal in H|]. destruct (H _ _ Hn') as (n & Hn & Ho). by eapply H3.
  - destruct Hok as (H1 & H2 & H3 & H4). split_and!; [auto..|by eapply kept_owned|].
    destruct (kp_null _ _ _ Hk) as [H|H]; [by apply Hal in H|auto].
  - destruct Hok as (H1 & H2 & H3 & k & H4 & H5). destruct (kept_popped _ _ _ _ _ Hk H5 H3). eauto 10.
  - destruct Hok as (H1 & H2 & H3 & k & H4 & H5). destruct (kept_popped _ _ _ _ _ Hk H5 H3). eauto 10.
  - destruct Hok as (H1 & H2 & H3 & H4). destruct (kept_popped _ _ _ _ _ Hk H3 H4). eauto 10.
Qed.

Lemma agents_move i s s' a' :
  inv s -> kept i s s' -> agents s' = <[i:=a']> (agents s) -> agent_ok s' i a' ->
  forall j a, agents s' !! j = Some a -> agent_ok s' j a.
Proof.
  intros Hi Hk Hag Hok j a Ha. rewrite Hag in Ha.
  apply lookup_insert_list in Ha as [(<- & -> & _)|[Hne Ha]]; [done|].
  eapply kept_agent; [done|congruence|done|]. by apply (iv_agent _ Hi).
Qed.

(** The thread's position is not what keeps an entry reachable. *)
Definition pins (a : pc) : bool := match a with TTimer _ | UReplace _ _ | WNull _ _ _ => true | _ => false end.

Lemma table_pins s s' :
  table_ok s -> (forall j x, agents s !! j = Some x -> pins x = true -> agents s' !! j = Some x) ->
  entries s' = entries s -> timer (ed s') = timer (ed s) -> length (ops s') = length (ops s) ->
  (forall k, is_timed s' k = is_timed s k) ->
  (waiting s' = waiting s \/ timer (ed s) = None /\ forall e n, entries s !! e = Some n -> data n <> Some true) ->
  new_results s s' -> table_ok s'.
Proof.
  intros Ht Hpin He Htm Hlen Htd Hw Hres.
  assert (Hcur : forall k, current s k -> current s' k) by (intros k; unfold current; by rewrite Hlen).
  split; unfold owned; rewrite ?He, ?Htm.
  - intros e n Hn. rewrite Htd. by eapply tb_entry.
  - intros e e' k. apply (tb_unique _ Ht).
  - intros e H. destruct (tb_timer _ Ht e H) as [H1 (k & H2 & H3 & H4)].
    destruct Hw as [->|[H0 _]]; [|congruence]. split; [done|]. exists k. split_and!; [auto|done|].
    destruct H4 as [H4|H4]; [by left|right; by apply Hpin].
  - intros e n Hn Hd. destruct (tb_live _ Ht e n Hn Hd) as (H1 & H2 & H3).
    destruct Hw as [->|[_ H0]]; [|by destruct (H0 e n Hn)]. split_and!; [done|auto|].
    destruct H3 as [H3|[[j H3]|[v H3]]]; [by left|right; left; exists j|right; right; exists v]; by apply Hpin.
  - apply (tb_linked _ Ht).
  - intros k o e Ho Hph. destruct (Hres _ _ _ Ho Hph) as [?|(o' & Ho' & Hph')]; [done|]. by apply (tb_result _ Ht k o').
Qed.

Lemma table_keep i a a' s s' :
  table_ok s -> agents s !! i = Some a -> pins a = false -> agents s' = <[i:=a']> (agents s) ->
  entries s' = entries s -> timer (ed s') = timer (ed s) -> length (ops s') = length (ops s) ->
  (forall k, is_timed s' k = is_timed s k) ->
  (waiting s' = waiting s \/ timer (ed s) = None /\ forall e n, entries s !! e = Some n -> data n <> Some true) ->
  new_results s s' -> table_ok s'.
Proof.
  intros Ht Ha Hp Hag. apply table_pins; [done|].
  intros j x Hj Hx. rewrite Hag, list_lookup_insert_ne; [done|]. intros ->. congruence.
Qed.

Lemma batch_move i a' s s' :
  agents s' = <[i:=a']> (agents s) -> (fetched s' = true -> batch s) -> a' <> WFlag VSel ->
  (a' = WCo VSel -> batch s) -> batch s' -> batch s.
Proof.
  intros Hag Hf H1 H2 [H|H]; [auto|]. rewrite Hag in H.
  destruct H as [H|H]; apply lookup_insert_list in H as [(_ & H & _)|[_ H]]; subst; try done; auto; unfold batch; auto.
Qed.

Lemma sock_keep i a a' s s' :
  sock_ok s -> agents s !! i = Some a -> agents s' = <[i:=a']> (agents s) -> sk s' = sk s ->
  closing a' = closing a -> (in_sub a' = true -> in_sub a = true \/ sk s <> Closed) ->
  (batch s' -> sk s = Closed -> queued s' = true) ->
  (quiet s' = false -> quiet s = false \/ sk s = Open) -> ub s' = ub s -> sock_ok s'.
Proof.
  intros Hs Ha Hag Hsk Hc Hin Hb Hq Hub. split; rewrite ?Hsk.
  - intros H. destruct (Hq H); [by apply (so_open _ Hs)|done].
  - rewrite Hag, (zsum_insert _ _ _ _ _ Ha), (so_closing _ Hs). lia.
  - intros Hcl j x Hj. rewrite Hag in Hj. apply lookup_insert_list in Hj as [(<- & -> & _)|[_ Hj]].
    + destruct (in_sub a') eqn:Ha'; [|done]. destruct (Hin eq_refl) as [H|H]; [|done].
      rewrite (so_closed _ Hs Hcl _ _ Ha) in H. done.
    + by apply (so_closed _ Hs Hcl j).
  - done.
  - rewrite Hub. apply (so_ub _ Hs).
Qed.


(** ** Moves that leave the table, the coroutine and the socket alone *)

Lemma kept_same i s s' :
  length (ops s') = length (ops s) -> (forall k, is_timed s' k = is_timed s k) -> sk s' = sk s ->
  timer (ed s') = timer (ed s) -> entries s' = entries s -> waiting s' = waiting s -> kept i s s'.
Proof.
  intros H1 H2 H3 H4 H5 H6. split; try tauto; rewrite ?H4, ?H5; auto.
  - intros e n Hn. exists n. auto.
  - right. intros e. unfold data_of. by rewrite H5.
  - right. intros e n Hn. by exists n.
Qed.

Lemma it_inv_move i a a' s s' :
  inv s -> agents s !! i = Some a -> agents s' = <[i:=a']> (agents s) ->
  entries s' = entries s -> timer (ed s') = timer (ed s) -> co (ed s') = co (ed s) -> sk s' = sk s ->
  length (ops s') = length (ops s) -> (forall k, is_timed s' k = is_timed s k) ->
  waiting s' = waiting s -> quiet s' = quiet s -> new_results s s' ->
  pins a = false -> holds a' = holds a -> closing a' = closing a ->
  (in_sub a' = true -> in_sub a = true) -> (batch s' -> sk s = Closed -> queued s' = true) -> ub s' = ub s ->
  agent_ok s' i a' -> inv s'.
Proof.
  intros Hi Ha Hag He Htm Hco Hsk Hlen Htd Hw Hq Hres Hp Hh Hc Hin Hb Hub Hok. split.
  - eapply agents_move; [done|by eapply kept_same|done..].
  - rewrite Hag, (zsum_insert _ _ _ _ _ Ha), Hco, Hw, Hh. pose proof (iv_place _ Hi). lia.
  - intros k. rewrite Hco. unfold current. rewrite Hlen. apply (iv_co _ Hi).
  - eapply table_keep; [apply iv_table; done|done..|by left|done].
  - eapply sock_keep; [apply iv_sock; done|done..| |done| |done]; [auto|]. rewrite Hq. auto.
Qed.

(** The batch of the selector does not change. *)
Lemma batch_ok i a' s s' :
  inv s -> agents s' = <[i:=a']> (agents s) -> fetched s' = fetched s -> queued s' = queued s ->
  a' <> WFlag VSel -> (a' = WCo VSel -> batch s) -> batch s' -> sk s = Closed -> queued s' = true.
Proof.
  intros Hi Hag Hf Hq H1 H2 Hb. rewrite Hq. apply (so_batch _ (iv_sock _ Hi)).
  eapply (batch_move i a' s s'); try done. rewrite Hf. by left.
Qed.

(** The tactic for such a move: thread [i] goes on from [a]. *)
Ltac step_move Hi Ha :=
  eapply (it_inv_move _ _ _ _ _ Hi Ha); [reflexivity|..]; try done;
    try (eapply batch_ok; [exact Hi|reflexivity|done|done|done|try done]);
    try (eapply phase_upd; [reflexivity|done]);
    try (intros; eapply is_timed_upd; [reflexivity|done]);
    try (eapply new_results_upd; [reflexivity|]; simpl; by auto);
    try (by apply new_results_same); simpl; rewrite ?length_alter; try done.

Lemma inv_uflag s i k s' : inv s -> agents s !! i = Some (UFlag k) -> step_subscribe i (UFlag k) s = Some s' -> inv s'.
Proof.
  intros Hi Ha Hs. simpl in Hs. injection Hs as <-.
  assert (Hsk : negb (is_closed (sk s)) = true).
  { destruct (sk s) eqn:Hsk; try done. by pose proof (so_closed _ (iv_sock _ Hi) Hsk _ _ Ha). }
  rewrite (touch_true _ _ Hsk). destruct (io_flag (ed s)); [|destruct (from_option cancellable _ _)]; step_move Hi Ha.
Qed.

Lemma inv_usetio s i k s' : inv s -> agents s !! i = Some (USetIo k) -> step_subscribe i (USetIo k) s = Some s' -> inv s'.
Proof.
  intros Hi Ha Hs. simpl in Hs. injection Hs as <-.
  assert (Hsk : negb (is_closed (sk s)) = true).
  { destruct (sk s) eqn:Hsk; try done. by pose proof (so_closed _ (iv_sock _ Hi) Hsk _ _ Ha). }
  rewrite (touch_true _ _ Hsk). step_move Hi Ha.
Qed.

Lemma inv_ucheck s i k s' : inv s -> agents s !! i = Some (UCheck k) -> step_subscribe i (UCheck k) s = Some s' -> inv s'.
Proof.
  intros Hi Ha Hs. simpl in Hs. injection Hs as <-. destruct (from_option canceled _ _); step_move Hi Ha.
Qed.

Lemma inv_wflag s i b v s' : inv s -> agents s !! i = Some (WFlag v) -> step_schedule i b (WFlag v) s = Some s' -> inv s'.
Proof.
  intros Hi Ha Hs. simpl in Hs. injection Hs as <-. rewrite (touch_true _ s) by (eapply alive_deliver; eauto).
  pose proof (iv_agent _ Hi _ _ Ha) as Hok. step_move Hi Ha.
  intros [= ->]. right. left. rewrite <- (Hok eq_refl). done.
Qed.

Lemma inv_ctimer s i k s' : inv s -> agents s !! i = Some (CIo k) -> step_cancel i (CIo k) s = Some s' -> inv s'.
Proof. intros Hi Ha Hs. simpl in Hs. injection Hs as <-. case_match; step_move Hi Ha. Qed.

(** ** Taking the coroutine, and delivering it *)

Lemma it_inv_take i a a' k s s' :
  inv s -> agents s !! i = Some a -> co (ed s) = Some k -> co (ed s') = None -> agents s' = <[i:=a']> (agents s) ->
  entries s' = entries s -> timer (ed s') = timer (ed s) -> sk s' = sk s -> ops s' = ops s ->
  fetched s' = fetched s -> queued s' = queued s -> pins a = false -> holds a = 0%Z -> holds a' = 1%Z ->
  closing a = 0%Z -> closing a' = 0%Z -> ub s' = ub s -> agent_ok s' i a' -> inv s'.
Proof.
  intros Hi Ha Hc Hc' Hag He Htm Hsk Hops Hf Hq Hp Hh Hh' Hcl Hcl' Hub Hok.
  destruct (co_alone _ _ Hi Hc) as [Hz Hw]. pose proof (waiting_open _ Hi Hw) as Hopen.
  assert (Hw' : waiting s' = waiting s) by (unfold waiting; by rewrite Hops).
  assert (Hq' : quiet s' = quiet s) by (unfold quiet; by rewrite Hops).
  assert (Htd : forall j, is_timed s' j = is_timed s j) by (intros j; unfold is_timed; by rewrite Hops).
  split.
  - eapply agents_move; [done|apply kept_same; try done; by rewrite Hops|done..].
  - rewrite Hag, (zsum_insert _ _ _ _ _ Ha), Hc', Hw', Hw, Hz, Hh, Hh'. done.
  - by rewrite Hc'.
  - eapply table_keep; [apply iv_table; done|done..|by rewrite Hops|done|by left|by apply new_results_same].
  - eapply sock_keep; [apply iv_sock; done|done..| | | | |done]; rewrite ?Hopen; try done; try lia; auto.
Qed.

Lemma delivered_clear s i a k :
  inv s -> agents s !! i = Some a -> (exists v, a = WRun v k) \/ (exists e, a = TRun e k) \/ a = CRun k ->
  timer (ed s) = None /\ (forall e n, entries s !! e = Some n -> data n <> Some true) /\
  (forall j x, j <> i -> agents s !! j = Some x -> in_timeout x = false).
Proof.
  intros Hi Ha Hk. pose proof (iv_agent _ Hi _ _ Ha) as Hok. pose proof (iv_table _ Hi) as Ht.
  assert (Hh : holds a = 1%Z) by (destruct Hk as [[v ->]|[[e ->]| ->]]; done).
  destruct (holder_alone _ _ _ Hi Ha Hh) as (Hal & _ & _).
  assert (Hcur : current s k) by (destruct Hk as [[v ->]|[[e ->]| ->]]; simpl in Hok; tauto).
  assert (Hloc : is_timed s k = true -> i = home).
  { destruct Hk as [[v ->]|[[e ->]| ->]]; simpl in Hok; destruct_and?; try done; congruence. }
  assert (Htm : timer (ed s) = None).
  { destruct (timer (ed s)) as [e'|] eqn:Htm; [|done]. destruct (tb_timer _ Ht _ Htm) as (_ & k' & Hk' & Ho & Hl).
    pose proof (current_det _ _ _ Hcur Hk') as <-.
    destruct Hk as [[v ->]|[[e ->]| ->]]; simpl in Hok; destruct_and?.
    - congruence.
    - assert (e' = e) as -> by (by eapply tb_unique). destruct Hl as [Hl|Hl]; [unfold data_of in *; rewrite Hl in *; done|].
      by simplify_eq.
    - pose proof (owned_timed _ _ _ Hi Ho). congruence. }
  split_and!; [done| |].
  - intros e n Hn Hd. destruct (tb_live _ Ht _ _ Hn Hd) as (_ & _ & [H|[[j H]|[v H]]]); [congruence| |];
      match type of H with agents s !! ?j = Some ?x =>
        destruct (decide (j = i)) as [Heq|Hne]; [rewrite Heq in H; destruct Hk as [[? ->]|[[? ->]| ->]]; congruence|by specialize (Hal _ _ Hne H)]
      end.
  - intros j x Hj Hx. destruct (in_timeout x) eqn:Hin; [|done]. pose proof (iv_agent _ Hi _ _ Hx) as Hx'.
    assert (j = home /\ is_timed s k = true) as [-> Htd]; [|by specialize (Hloc Htd)].
    destruct x; simpl in Hin; try discriminate Hin; simpl in Hx'; destruct Hx' as (-> & _ & _ & k' & Hk' & Ho);
      pose proof (current_det _ _ _ Hcur Hk') as <-; split; try done; by eapply owned_timed.
Qed.

Lemma inv_deliver i a k r s s' :
  inv s -> agents s !! i = Some a -> (exists v, a = WRun v k) \/ (exists e, a = TRun e k) \/ a = CRun k ->
  agents s' = <[i:=AIdle]> (agents s) -> ops s' = alter (set_phase (Woken r)) k (ops s) ->
  entries s' = entries s -> ed s' = ed s -> sk s' = sk s -> fetched s' = fetched s -> queued s' = queued s -> ub s' = ub s ->
  (forall e, r = RTimedOut e -> owned s e k) -> inv s'.
Proof.
  intros Hi Ha Hk Hag Hops He Hed Hsk Hf Hq Hub Hr.
  destruct (delivered_clear _ _ _ _ Hi Ha Hk) as (Htm & Hlive & Hto).
  pose proof (iv_agent _ Hi _ _ Ha) as Hok.
  assert (Hh : holds a = 1%Z) by (destruct Hk as [[v ->]|[[e ->]| ->]]; done).
  destruct (holder_alone _ _ _ Hi Ha Hh) as (_ & Hco & Hw). pose proof (waiting_open _ Hi Hw) as Hopen.
  assert (Hcur : current s k) by (destruct Hk as [[v ->]|[[e ->]| ->]]; simpl in Hok; tauto).
  assert (Hw' : waiting s' = false).
  { rewrite <- (waiting_deliver s k r Hcur). unfold waiting. by rewrite Hops. }
  assert (Htd : forall j, is_timed s' j = is_timed s j) by (intros j; by eapply is_timed_upd).
  assert (Hlen : length (ops s') = length (ops s)) by (by rewrite Hops, length_alter).
  assert (Hp : pins a = false /\ closing a = 0%Z) by (destruct Hk as [[v ->]|[[e ->]| ->]]; done).
  destruct Hp as [Hp Hcl]. split.
  - eapply agents_move; [done| |done..]. split; rewrite ?Hed, ?He; auto.
    + intros e n Hn. exists n. auto.
    + right. intros e. unfold data_of. by rewrite He.
    + right. intros e n Hn. by exists n.
  - rewrite Hag, (zsum_insert _ _ _ _ _ Ha), Hed, Hco, Hw', Hh. pose proof (iv_place _ Hi) as Hpl.
    rewrite Hco, Hw in Hpl. simpl in *. lia.
  - by rewrite Hed, Hco.
  - apply (table_keep i a AIdle s); try done; [by apply iv_table|by rewrite Hed|by right|].
    eapply new_results_upd; [done|]. intros o e Ho [[= H]|H]; [left; auto|]. simpl in H. done.
  - eapply sock_keep; [apply iv_sock; done|done..| | | | |done]; rewrite ?Hopen; try done; try lia; auto.
Qed.

(** The socket does not change, nor the selector's batch. *)
Ltac sock_move Hi Ha :=
  eapply sock_keep; [apply (iv_sock _ Hi)|exact Ha|reflexivity|..]; try done;
    try (eapply batch_ok; [exact Hi|reflexivity|done..]); auto.

(** ** The steps of [subscribe] on the table *)

Lemma inv_uadd s i k s' : inv s -> agents s !! i = Some (UAdd k) -> step_subscribe i (UAdd k) s = Some s' -> inv s'.
Proof.
  intros Hi Ha Hs. simpl in Hs. injection Hs as <-. pose proof (iv_table _ Hi) as Ht.
  destruct (holder_alone _ _ _ Hi Ha eq_refl) as (Hal & Hco & Hw).
  destruct (iv_agent _ Hi _ _ Ha) as (Hcur & Htd & Hno).
  assert (Htm : timer (ed s) = None).
  { destruct (timer (ed s)) as [e|] eqn:Htm; [|done]. destruct (tb_timer _ Ht _ Htm) as (_ & k' & Hk' & (n & Hn & Ho) & _).
    destruct (Hno _ _ Hn). rewrite Ho. by eapply current_det. }
  assert (Hlive : forall e n, entries s !! e = Some n -> data n <> Some true).
  { intros e n Hn Hd. destruct (tb_live _ Ht _ _ Hn Hd) as (_ & Hc & _). destruct (Hno _ _ Hn). by eapply current_det. }
  set (s' := goto _ _ _).
  assert (Hlk : forall e n, entries s' !! e = Some n ->
            entries s !! e = Some n \/ (e = length (entries s) /\ n = En k (Some true) true)).
  { intros e n Hn. unfold s' in Hn. simpl in Hn. apply lookup_app_Some in Hn as [?|[Hle Hn]]; [by left|].
    apply list_lookup_singleton_Some in Hn as [? <-]. right. split; [|done]. lia. }
  assert (Hold : forall e n, entries s !! e = Some n -> entries s' !! e = Some n).
  { intros e n Hn. unfold s'. simpl. rewrite lookup_app_l; [done|]. by eapply lookup_lt_Some. }
  assert (Hnew : entries s' !! length (entries s) = Some (En k (Some true) true)) by (apply list_lookup_middle; done).
  split.
  - eapply agents_move; [done| |reflexivity|].
    + split; auto. intros e n Hn. exists n. auto.
    + simpl. unfold data_of. rewrite Hnew. split_and!; [done|done| |done]. by eexists.
  - simpl. rewrite (zsum_insert _ _ _ _ _ Ha). pose proof (iv_place _ Hi). unfold waiting in *. simpl in *. lia.
  - apply (iv_co _ Hi).
  - split.
    + intros e n [Hn|[_ ->]]%Hlk; [by apply (tb_entry _ Ht e)|done].
    + intros e e' j (n & Hn & Ho) (n' & Hn' & Ho'). destruct (Hlk _ _ Hn) as [Hn1|[-> ->]], (Hlk _ _ Hn') as [Hn1'|[-> ->]].
      * eapply (tb_unique _ Ht); [by exists n|by exists n'].
      * simpl in Ho'. subst. by destruct (Hno _ _ Hn1).
      * simpl in Ho. subst. by destruct (Hno _ _ Hn1').
      * done.
    + simpl. congruence.
    + intros e n [Hn|[-> ->]]%Hlk Hd; [by destruct (Hlive _ _ Hn)|]. split_and!; [done|done|]. right. left. exists i.
      simpl. apply list_lookup_insert_eq. by eapply lookup_lt_Some.
    + intros e n [Hn|[_ ->]]%Hlk; [by apply (tb_linked _ Ht e)|done].
    + intros j o e Ho Hp. destruct (tb_result _ Ht j o e Ho Hp) as (n & Hn & Hon). exists n. auto.
  - sock_move Hi Ha.
Qed.

Lemma inv_ureplace s i k e s' :
  inv s -> regular s' -> agents s !! i = Some (UReplace k e) -> step_subscribe i (UReplace k e) s = Some s' -> inv s'.
Proof.
  intros Hi Hreg Ha Hs. simpl in Hs. injection Hs as <-. pose proof (iv_table _ Hi) as Ht.
  destruct (holder_alone _ _ _ Hi Ha eq_refl) as (Hal & Hco & Hw).
  destruct (iv_agent _ Hi _ _ Ha) as (Hcur & Htm & (n & Hn & Ho) & Hd).
  destruct Hreg as (Hearly & _). simpl in Hearly. apply orb_false_iff in Hearly as [_ Hp].
  apply negb_false_iff, bool_decide_eq_true in Hp.
  assert (Hlive : n = En k (Some true) true).
  { pose proof (tb_linked _ Ht _ _ Hn) as Hl. unfold data_of in *. rewrite Hn in *. simpl in *.
    destruct n as [o [[]|] l]; simpl in *; subst; done. }
  split.
  - eapply agents_move; [done| |reflexivity|done]. split; auto.
    intros e' n' Hn'. exists n'. auto.
  - simpl. rewrite (zsum_insert _ _ _ _ _ Ha). pose proof (iv_place _ Hi). unfold waiting in *. simpl in *. lia.
  - apply (iv_co _ Hi).
  - split; try apply Ht.
    + simpl. intros e' [= <-]. split; [done|]. exists k. split_and!; [done|by exists n|]. left. congruence.
    + simpl. intros e' n' Hn' Hd'. destruct (tb_live _ Ht _ _ Hn' Hd') as (H1 & H2 & H3). split_and!; [done|done|].
      left. f_equal. apply (tb_unique _ Ht e e' k); [by exists n|]. exists n'. split; [done|]. by eapply current_det.
  - sock_move Hi Ha.
Qed.

Lemma inv_ustore s i k s' : inv s -> agents s !! i = Some (UStore k) -> step_subscribe i (UStore k) s = Some s' -> inv s'.
Proof.
  intros Hi Ha Hs. simpl in Hs. injection Hs as <-.
  destruct (holder_alone _ _ _ Hi Ha eq_refl) as (Hal & Hco & Hw). pose proof (iv_agent _ Hi _ _ Ha) as Hcur.
  split.
  - eapply agents_move; [done|by apply kept_same|reflexivity|done].
  - simpl. rewrite (zsum_insert _ _ _ _ _ Ha). pose proof (iv_place _ Hi) as Hp. rewrite Hco in Hp. unfold waiting in *. simpl in *. lia.
  - simpl. by intros j [= <-].
  - eapply table_keep; [apply iv_table; done|done|done|reflexivity|done..|by left|by apply new_results_same].
  - sock_move Hi Ha.
Qed.

(** ** The steps of a delivery *)

Lemma inv_wco s i b v s' :
  inv s -> regular s' -> agents s !! i = Some (WCo v) -> step_schedule i b (WCo v) s = Some s' -> inv s'.
Proof.
  intros Hi Hreg Ha Hs. simpl in Hs. rewrite (touch_true _ s) in Hs by (eapply alive_deliver; eauto).
  pose proof (iv_agent _ Hi _ _ Ha) as Hok. destruct (co (ed s)) as [k|] eqn:Hc; injection Hs as <-.
  - rewrite touch_true in * by (by apply (alive_deliver s i (WCo v) v); auto).
    eapply (it_inv_take i (WCo v) (WTimer v k) k s); try done.
    split_and!; [done|by apply (iv_co _ Hi)|]. intros Htd. destruct Hreg as (_ & Hcr & _). simpl in Hcr.
    change (is_timed s k = true) in Htd. rewrite Htd in Hcr.
    apply orb_false_iff in Hcr as [_ Hcr]. apply negb_false_iff, Nat.eqb_eq in Hcr. done.
  - unfold finish. destruct v; step_move Hi Ha.
Qed.

(** Entries after one of them changed its pointer. *)
Lemma lookup_set_data e d l s e' n :
  entries (set_data e d l s) !! e' = Some n ->
  exists n0, entries s !! e' = Some n0 /\ owner n = owner n0 /\
    (e' = e -> n = En (owner n0) d l) /\ (e' <> e -> n = n0).
Proof.
  simpl. intros H. destruct (decide (e = e')) as [<-|Hne].
  - rewrite list_lookup_alter_eq in H. destruct (entries s !! e) as [n0|]; simplify_eq/=. by exists n0.
  - rewrite list_lookup_alter_ne in H by done. exists n. by split_and!.
Qed.

Lemma set_data_lookup e d l s e' n0 :
  entries s !! e' = Some n0 ->
  exists n, entries (set_data e d l s) !! e' = Some n /\ owner n = owner n0 /\
    (e' = e -> n = En (owner n0) d l) /\ (e' <> e -> n = n0).
Proof.
  simpl. intros H. destruct (decide (e = e')) as [<-|Hne].
  - rewrite list_lookup_alter_eq, H. by eexists.
  - rewrite list_lookup_alter_ne by done. exists n0. by split_and!.
Qed.

Lemma owned_set_data e d l s e' k : owned (set_data e d l s) e' k <-> owned s e' k.
Proof.
  split; intros (n & Hn & <-).
  - destruct (lookup_set_data _ _ _ _ _ _ Hn) as (n0 & Hn0 & -> & _). by exists n0.
  - destruct (set_data_lookup e d l _ _ _ Hn) as (n' & Hn' & <- & _). by exists n'.
Qed.

Lemma data_set_data e d l s : entries s !! e <> None -> data_of (set_data e d l s) e = d.
Proof. unfold data_of. simpl. rewrite list_lookup_alter_eq. by destruct (entries s !! e). Qed.

(** The worker of the list moves while no entry is live: it changes an entry of the
    current operation, or drops the handle. *)
Lemma inv_worker a a' s s' e d l :
  inv s -> agents s !! home = Some a -> agents s' = <[home:=a']> (agents s) ->
  entries s' = entries (set_data e d l s) -> timer (ed s') = None -> co (ed s') = co (ed s) ->
  sk s' = sk s -> ops s' = ops s -> fetched s' = fetched s -> queued s' = queued s -> ub s' = ub s ->
  holds a' = holds a -> closing a' = closing a -> (in_sub a' = true -> in_sub a = true) ->
  a' <> WFlag VSel -> a' <> WCo VSel -> d <> Some true -> is_some d = l ->
  (d = Some false -> holds a = 1%Z) -> (data_of s e = None -> d = None) ->
  (forall e' n, e' <> e -> entries s !! e' = Some n -> data n <> Some true) ->
  agent_ok s' home a' -> inv s'.
Proof.
  intros Hi Ha Hag He Htm Hco Hsk Hops Hf Hq Hub Hh Hcl Hin H1 H2 Hd Hl Hdh Hdn Hno Hok. pose proof (iv_table _ Hi) as Ht.
  assert (Hw : waiting s' = waiting s) by (unfold waiting; by rewrite Hops).
  assert (Htd : forall j, is_timed s' j = is_timed s j) by (intros j; unfold is_timed; by rewrite Hops).
  assert (How : forall e' k, owned s' e' k <-> owned s e' k) by (intros e' k; unfold owned at 1; rewrite He; apply owned_set_data).
  split.
  - eapply agents_move; [done| |done..]. split; rewrite ?Hops, ?He; auto.
    + intros e' n Hn. destruct (set_data_lookup e d l _ _ _ Hn) as (n' & Hn' & Ho & Heq & Hne). exists n'.
      split_and!; [done|done| |done]. intros Hdn'. destruct (decide (e' = e)) as [->|]; [|by rewrite Hne].
      rewrite Heq by done. simpl. apply Hdn. unfold data_of. by rewrite Hn.
    + destruct (decide (d = Some false)) as [Hdf|Hdf].
      * left. eapply holder_alone; [done|exact Ha|auto].
      * right. intros e'. unfold data_of. rewrite He. destruct (entries (set_data e d l s) !! e') as [n|] eqn:Hn; [|done]. simpl.
        destruct (lookup_set_data _ _ _ _ _ _ Hn) as (n0 & Hn0 & _ & Heq & Hne). rewrite Hn0. simpl.
        destruct (decide (e' = e)) as [->|]; [rewrite Heq by done; done|by rewrite Hne].
    + right. intros e' n Hn. destruct (lookup_set_data _ _ _ _ _ _ Hn) as (n0 & Hn0 & -> & _). by exists n0.
  - rewrite Hag, (zsum_insert _ _ _ _ _ Ha), Hco, Hw, Hh. pose proof (iv_place _ Hi). lia.
  - intros k. rewrite Hco. unfold current. rewrite Hops. apply (iv_co _ Hi).
  - split.
    + intros e' n Hn. rewrite Htd. rewrite He in Hn. destruct (lookup_set_data _ _ _ _ _ _ Hn) as (n0 & Hn0 & -> & _).
      by eapply tb_entry.
    + intros e1 e2 k. rewrite !How. apply (tb_unique _ Ht).
    + congruence.
    + intros e' n Hn Hdt. rewrite He in Hn. destruct (lookup_set_data _ _ _ _ _ _ Hn) as (n0 & Hn0 & _ & Heq & Hne).
      destruct (decide (e' = e)) as [->|Hx]; [rewrite Heq in Hdt by done; done|].
      rewrite Hne in Hdt by done. by destruct (Hno _ _ Hx Hn0).
    + intros e' n Hn. rewrite He in Hn. destruct (lookup_set_data _ _ _ _ _ _ Hn) as (n0 & Hn0 & _ & Heq & Hne).
      destruct (decide (e' = e)) as [->|Hx]; [by rewrite Heq|]. rewrite Hne by done. by eapply tb_linked.
    + intros k o e'. rewrite Hops, How. apply (tb_result _ Ht).
  - eapply sock_keep; [apply (iv_sock _ Hi)|exact Ha|done..| | | |done].
    + auto.
    + eapply batch_ok; [exact Hi|exact Hag|done..].
    + unfold quiet. rewrite Hops. auto.
Qed.

(** While the worker of the list has the coroutine and the handle is gone, the only
    live entry is the one the worker is about to change. *)
Lemma no_live s a e' n :
  inv s -> agents s !! home = Some a -> holds a = 1%Z -> timer (ed s) = None ->
  entries s !! e' = Some n -> data n = Some true -> exists v, a = WNull v (owner n) e' \/ a = UReplace (owner n) e'.
Proof.
  intros Hi Ha Hh Htm Hn Hd. destruct (holder_alone _ _ _ Hi Ha Hh) as (Hal & _).
  destruct (tb_live _ (iv_table _ Hi) _ _ Hn Hd) as (_ & _ & [H|[[j H]|[v H]]]); [congruence| |].
  - destruct (decide (j = home)) as [Heq|Hne]; [rewrite Heq in H; exists VSel; right; congruence|by specialize (Hal _ _ Hne H)].
  - exists v. left. congruence.
Qed.

Lemma inv_wtimer s i b v k s' :
  inv s -> agents s !! i = Some (WTimer v k) -> step_schedule i b (WTimer v k) s = Some s' -> inv s'.
Proof.
  intros Hi Ha Hs. simpl in Hs. pose proof (iv_table _ Hi) as Ht.
  destruct (holder_alone _ _ _ Hi Ha eq_refl) as (Hal & Hco & Hw).
  rewrite (touch_true _ s) in Hs by (by apply alive_waiting).
  destruct (iv_agent _ Hi _ _ Ha) as (Hsel & Hcur & Hloc).
  destruct (timer (ed s)) as [e|] eqn:Htm; injection Hs as <-.
  - destruct (tb_timer _ Ht _ Htm) as (_ & k' & Hk' & Ho & Hl). pose proof (current_det _ _ _ Hcur Hk') as <-.
    rewrite Hloc in * by (by eapply owned_timed). destruct Hl as [Hl|Hl]; [|congruence].
    split.
    + eapply agents_move; [done| |reflexivity|done]. split; auto.
      intros e' n Hn. exists n. auto.
    + simpl. rewrite (zsum_insert _ _ _ _ _ Ha). pose proof (iv_place _ Hi). unfold waiting in *. simpl in *. lia.
    + apply (iv_co _ Hi).
    + split; try apply Ht; [done|]. intros e' n Hn Hd. destruct (tb_live _ Ht _ _ Hn Hd) as (H1 & H2 & H3).
      split_and!; [done|done|]. right. right. exists v. simpl.
      destruct H3 as [H3|[[x H3]|[v' H3]]]; [|destruct (decide (x = home)) as [->|Hne]; [congruence|by specialize (Hal _ _ Hne H3)]|congruence].
      rewrite Htm in H3. injection H3 as <-. simpl in Hn. rewrite Hl in Hn. injection Hn as <-. simpl.
      apply list_lookup_insert_eq. by eapply lookup_lt_Some.
    + sock_move Hi Ha.
  - step_move Hi Ha.
Qed.

Lemma inv_wnull s i b v k e s' :
  inv s -> agents s !! i = Some (WNull v k e) -> step_schedule i b (WNull v k e) s = Some s' -> inv s'.
Proof.
  intros Hi Ha Hs. destruct (iv_agent _ Hi _ _ Ha) as (Hsel & Hcur & -> & Hl & Htm). simpl in Hs.
  unfold data_of in Hs. rewrite Hl in Hs. injection Hs as <-.
  eapply (inv_worker _ (WRemove v k e) s _ e (Some false) true); try done.
  - intros H. unfold data_of in H. by rewrite Hl in H.
  - intros e' n Hne Hn Hd. destruct (no_live _ _ _ _ Hi Ha eq_refl Htm Hn Hd) as [v' [H|H]]; congruence.
Qed.

Lemma inv_wremove s i b v k e s' :
  inv s -> agents s !! i = Some (WRemove v k e) -> step_schedule i b (WRemove v k e) s = Some s' -> inv s'.
Proof.
  intros Hi Ha Hs. destruct (iv_agent _ Hi _ _ Ha) as (Hsel & Hcur & -> & Htm). simpl in Hs.
  destruct (b && _); injection Hs as <-; [|step_move Hi Ha].
  eapply (inv_worker _ (WRun v k) s _ e None false); try done.
  intros e' n _ Hn Hd. destruct (no_live _ _ _ _ Hi Ha eq_refl Htm Hn Hd) as [v' [H|H]]; congruence.
Qed.

Lemma inv_wrun s i b v k s' :
  inv s -> agents s !! i = Some (WRun v k) -> step_schedule i b (WRun v k) s = Some s' -> inv s'.
Proof.
  intros Hi Ha Hs. simpl in Hs. injection Hs as <-.
  apply (inv_deliver i (WRun v k) k REvent s); try done; [by left; exists v|..]; by destruct v.
Qed.

(** ** The timeout handler, cancellation and [del_fd] *)

Lemma inv_ttimer s i e s' : inv s -> agents s !! i = Some (TTimer e) -> step_timeout i (TTimer e) s = Some s' -> inv s'.
Proof.
  intros Hi Ha Hs. pose proof (iv_table _ Hi) as Ht. simpl in Hs.
  destruct (iv_agent _ Hi _ _ Ha) as (-> & Hw & Hd & k & Hcur & Ho).
  rewrite (touch_true _ s) in Hs by (by apply alive_waiting). injection Hs as <-.
  assert (Hent : entries (set_data e None false s) = entries s).
  { destruct Ho as (n & Hn & _). simpl. apply (alter_self _ _ _ _ Hn).
    pose proof (tb_linked _ Ht _ _ Hn) as Hl. unfold data_of in Hd. rewrite Hn in Hd. simpl in Hd.
    destruct n; simpl in *. by subst. }
  eapply (inv_worker _ (TCo e) s _ e None false); try done.
  - intros e' n Hne Hn Hdt. destruct (tb_live _ Ht _ _ Hn Hdt) as (_ & Hc & _). apply Hne.
    apply (tb_unique _ Ht _ _ k); [|done]. exists n. split; [done|]. by eapply current_det.
  - split_and!; [done|done|done|]. by exists k.
Qed.

Lemma inv_tco s i e s' : inv s -> agents s !! i = Some (TCo e) -> step_timeout i (TCo e) s = Some s' -> inv s'.
Proof.
  intros Hi Ha Hs. simpl in Hs. destruct (iv_agent _ Hi _ _ Ha) as (-> & Hw & Hd & k & Hcur & Ho).
  rewrite (touch_true _ s) in Hs by (by apply alive_waiting).
  destruct (co (ed s)) as [k'|] eqn:Hc; injection Hs as <-.
  - eapply (it_inv_take home (TCo e) (TRun e k') k' s); try done.
    pose proof (iv_co _ Hi _ Hc) as Hc'. pose proof (current_det _ _ _ Hcur Hc') as <-. by split_and!.
  - rewrite touch_true by (by apply (alive_waiting s)). step_move Hi Ha.
Qed.

Lemma inv_trun s i e k s' : inv s -> agents s !! i = Some (TRun e k) -> step_timeout i (TRun e k) s = Some s' -> inv s'.
Proof.
  intros Hi Ha Hs. simpl in Hs. injection Hs as <-. destruct (iv_agent _ Hi _ _ Ha) as (_ & _ & Ho & _).
  apply (inv_deliver i (TRun e k) k (RTimedOut e) s); try done; [right; left; by exists e|]. by intros e' [= <-].
Qed.

Lemma inv_cco s i k s' :
  inv s -> regular s' -> agents s !! i = Some (CCo k) -> step_cancel i (CCo k) s = Some s' -> inv s'.
Proof.
  intros Hi Hreg Ha Hs. simpl in Hs.
  assert (Hal : alive s = true) by (by eapply alive_arc).
  destruct (co (ed s)) as [j|] eqn:Hc; injection Hs as <-.
  - rewrite touch_true in * by done. eapply (it_inv_take i (CCo k) (CRun j) j s); try done.
    split; [by apply (iv_co _ Hi)|]. destruct Hreg as (_ & _ & Hk & _). simpl in Hk.
    apply orb_false_iff in Hk as [_ Hk]. done.
  - rewrite (touch_true _ s) by done. step_move Hi Ha.
Qed.

Lemma inv_crun s i k s' : inv s -> agents s !! i = Some (CRun k) -> step_cancel i (CRun k) s = Some s' -> inv s'.
Proof.
  intros Hi Ha Hs. simpl in Hs. injection Hs as <-.
  apply (inv_deliver i (CRun k) k RCanceled s); try done; by auto.
Qed.

Lemma closing_one s i a : inv s -> agents s !! i = Some a -> closing a = 1%Z -> sk s = Closing /\ alone closing i (agents s).
Proof.
  intros Hi Ha Hc. pose proof (so_closing _ (iv_sock _ Hi)) as Hz.
  pose proof (zsum_lookup_le closing (agents s) i a ltac:(intros x; apply closing_range) Ha).
  destruct (sk s); simpl in Hz; try lia. split; [done|]. eapply alone_of; [apply closing_range| |done..]. lia.
Qed.

Lemma inv_dtimer s i s' : inv s -> agents s !! i = Some DTimer -> step_del i DTimer s = Some s' -> inv s'.
Proof.
  intros Hi Ha Hs. simpl in Hs. destruct (closing_one _ _ _ Hi Ha eq_refl) as [Hsk _].
  destruct (timer (ed s)) as [e|] eqn:Htm; injection Hs as <-.
  - destruct (tb_timer _ (iv_table _ Hi) _ Htm) as (Hw & _). pose proof (waiting_open _ Hi Hw). congruence.
  - step_move Hi Ha.
Qed.

Lemma inv_dpush s i s' :
  inv s -> regular s' -> agents s !! i = Some DPush -> step_del i DPush s = Some s' -> inv s'.
Proof.
  intros Hi Hreg Ha Hs. simpl in Hs. injection Hs as <-. destruct (closing_one _ _ _ Hi Ha eq_refl) as [Hsk Hal].
  destruct Hreg as (_ & _ & _ & Hu). simpl in Hu. apply orb_false_iff in Hu as [_ Hu]. split.
  - eapply agents_move; [done| |reflexivity|done]. split; auto.
    + intros e n Hn. exists n. auto.
    + right. intros e n Hn. by exists n.
  - simpl. rewrite (zsum_insert _ _ _ _ _ Ha). pose proof (iv_place _ Hi). unfold waiting in *. simpl in *. lia.
  - apply (iv_co _ Hi).
  - eapply table_keep; [apply iv_table; done|done|done|reflexivity|done..|by left|by apply new_results_same].
  - pose proof (iv_sock _ Hi) as Hso. split.
    + intros Hq. pose proof (so_open _ Hso Hq). congruence.
    + simpl. rewrite (zsum_insert _ _ _ _ _ Ha), (so_closing _ Hso), Hsk. done.
    + intros _ j a Hj. simpl in Hj. apply lookup_insert_list in Hj as [(_ & -> & _)|[_ Hj]]; [done|].
      destruct (in_sub a) eqn:Hin; [|done]. rewrite <- Hu. symmetry. apply existsb_exists. exists a. split; [|done].
      apply list_elem_of_In. by eapply list_elem_of_lookup_2.
    + done.
    + apply (so_ub _ Hso).
Qed.

Lemma inv_act s i b a s' : inv s -> regular s' -> agents s !! i = Some a -> act i b a s = Some s' -> inv s'.
Proof.
  intros Hi Hreg Ha Hs. destruct a; simpl in Hs; try discriminate Hs.
  - by eapply inv_uadd.
  - by eapply inv_ureplace.
  - by eapply inv_ustore.
  - by eapply inv_uflag.
  - by eapply inv_usetio.
  - by eapply inv_ucheck.
  - by eapply (inv_wflag s i b).
  - by eapply (inv_wco s i b).
  - by eapply (inv_wtimer s i b).
  - by eapply (inv_wnull s i b).
  - by eapply (inv_wremove s i b).
  - by eapply (inv_wrun s i b).
  - by eapply inv_ttimer.
  - by eapply inv_tco.
  - by eapply inv_trun.
  - by eapply inv_ctimer.
  - by eapply inv_cco.
  - by eapply inv_crun.
  - by eapply inv_dtimer.
  - by destruct (iv_agent _ Hi _ _ Ha).
  - by eapply inv_dpush.
Qed.

(** ** Events *)

(** No thread moves. *)
Lemma it_inv_same s s' :
  inv s -> agents s' = agents s -> entries s' = entries s -> ed s' = ed s -> sk s' = sk s ->
  length (ops s') = length (ops s) -> (forall k, is_timed s' k = is_timed s k) -> waiting s' = waiting s ->
  (quiet s' = false -> quiet s = false) -> new_results s s' -> (batch s' -> sk s = Closed -> queued s' = true) ->
  ub s' = ub s -> inv s'.
Proof.
  intros Hi Hag He Hed Hsk Hlen Htd Hw Hq Hres Hb Hub. pose proof (iv_sock _ Hi) as Hso. split.
  - intros j a Ha. rewrite Hag in Ha. apply (kept_agent (S j) s); [|lia|done|by apply (iv_agent _ Hi)].
    apply kept_same; try done. by rewrite Hed.
  - rewrite Hag, Hed, Hw. apply (iv_place _ Hi).
  - intros k. rewrite Hed. unfold current. rewrite Hlen. apply (iv_co _ Hi).
  - apply (table_pins s); try done; [by apply iv_table|by intros j x; rewrite Hag|by rewrite Hed|by left].
  - split; rewrite ?Hag, ?Hsk; try done; [intros H; apply (so_open _ Hso); auto|apply (so_closing _ Hso)|apply (so_closed _ Hso)|].
    rewrite Hub. apply (so_ub _ Hso).
Qed.

Lemma inv_resume s clear s' : inv s -> step s (Resume clear) = Some s' -> inv s'.
Proof.
  intros Hi Hs. cbn [step] in Hs. destruct (last (ops s)) as [o|] eqn:Hlast; [|done].
  destruct o as [tm c x sl [|r|]]; try discriminate Hs. injection Hs as <-.
  set (f := fun o => _). assert (Hlen : S (pred (length (ops s))) = length (ops s)).
  { destruct (ops s); [done|simpl; lia]. }
  assert (Hk : ops s !! pred (length (ops s)) = Some (Op tm c x sl (Woken r))) by (by rewrite last_lookup in Hlast).
  apply (it_inv_same s); try done; simpl; rewrite ?length_alter; try done.
  - intros k. eapply is_timed_upd; [reflexivity|]. intros o. unfold f. by destruct clear.
  - unfold waiting. simpl. rewrite last_alter, decide_True, Hlast by done. done.
  - unfold quiet. simpl. rewrite last_alter, decide_True, Hlast by done. by destruct clear.
  - eapply new_results_upd; [reflexivity|]. intros o e Ho Hp. rewrite Hk in Ho. injection Ho as <-.
    right. left. simpl in *. destruct Hp as [Hp|Hp]; [done|]. by injection Hp as ->.
  - apply (so_batch _ (iv_sock _ Hi)).
Qed.

Lemma inv_expire s e s' : inv s -> step s (Expire e) = Some s' -> inv s'.
Proof.
  intros Hi Hs. cbn [step] in Hs. pose proof (iv_table _ Hi) as Ht.
  destruct (agents s !! home) as [[]|] eqn:Ha; try discriminate Hs.
  destruct (entries s !! e) as [[k [p|] [|]]|] eqn:He; try discriminate Hs. injection Hs as <-.
  set (a' := if p then TTimer e else AIdle). set (s' := goto _ _ _).
  assert (Hent : forall e' n, e' <> e -> entries s' !! e' = Some n -> entries s !! e' = Some n).
  { intros e' n Hne Hn. destruct (lookup_set_data _ _ _ _ _ _ Hn) as (n0 & Hn0 & _ & _ & Heq). by rewrite Heq. }
  assert (Hown : forall e' j, owned s' e' j <-> owned s e' j) by (intros e' j; apply (owned_set_data e None false)).
  assert (Hnone : data_of s' e = None) by (apply data_set_data; by rewrite He).
  assert (Hpop : p = true -> waiting s = true /\ current s k).
  { intros ->. destruct (tb_live _ Ht _ _ He eq_refl) as (? & ? & _). done. }
  split.
  - eapply agents_move; [done| |reflexivity|].
    + split; auto.
      * intros e' n Hn. destruct (set_data_lookup e None false _ _ _ Hn) as (n' & Hn' & Ho & Heq & Hne). exists n'.
        split_and!; [done|done| |done]. intros Hd. destruct (decide (e' = e)) as [->|]; [by rewrite Heq|by rewrite Hne].
      * right. intros e'. destruct (decide (e' = e)) as [->|Hne]; [by rewrite Hnone|].
        unfold data_of. destruct (entries s' !! e') as [n|] eqn:Hn; [|done]. by rewrite (Hent _ _ Hne Hn).
      * right. intros e' n Hn. rewrite <- Hown. by exists n.
    + unfold a'. destruct p; [|done]. destruct (Hpop eq_refl) as [Hw Hc]. split_and!; [done..|].
      exists k. split; [done|]. apply Hown. by eexists.
  - simpl. rewrite (zsum_insert _ _ _ _ _ Ha). pose proof (iv_place _ Hi). unfold waiting in *. simpl in *.
    assert (holds a' = 0%Z) by (unfold a'; by destruct p). lia.
  - apply (iv_co _ Hi).
  - split.
    + intros e' n Hn. destruct (lookup_set_data _ _ _ _ _ _ Hn) as (n0 & Hn0 & -> & _). by apply (tb_entry _ Ht e').
    + intros e1 e2 j. rewrite !Hown. apply (tb_unique _ Ht).
    + intros e' Htm. destruct (tb_timer _ Ht _ Htm) as (Hw & j & Hj & Ho & Hl). split; [done|]. exists j.
      split_and!; [done|by apply Hown|]. destruct Hl as [Hl|Hl]; [|congruence]. destruct (decide (e' = e)) as [->|Hne].
      * right. rewrite He in Hl. injection Hl as -> ->. simpl. apply list_lookup_insert_eq. by eapply lookup_lt_Some.
      * left. destruct (set_data_lookup e None false _ _ _ Hl) as (n' & Hn' & _ & _ & Heq). rewrite <- Heq by done. done.
    + intros e' n Hn Hd. destruct (decide (e' = e)) as [->|Hne].
      { unfold data_of in Hnone. by rewrite Hn in Hnone; simpl in Hnone; rewrite Hd in Hnone. }
      destruct (tb_live _ Ht _ _ (Hent _ _ Hne Hn) Hd) as (H1 & H2 & [H3|[[j H3]|[v H3]]]); [..|congruence];
        (split_and!; [done|done|]); [by left|]. right. left. exists j. simpl.
      rewrite list_lookup_insert_ne; [done|]. intros <-. congruence.
    + intros e' n Hn. destruct (lookup_set_data _ _ _ _ _ _ Hn) as (n0 & Hn0 & _ & Heq & Hne).
      destruct (decide (e' = e)) as [->|Hx]; [by rewrite Heq|]. rewrite Hne by done. by apply (tb_linked _ Ht e').
    + intros j o e' Ho Hp. apply Hown. by apply (tb_result _ Ht j o e').
  - eapply sock_keep; [apply (iv_sock _ Hi)|exact Ha|reflexivity|..]; try done; [unfold a'; by destruct p..| |auto].
    eapply batch_ok; [exact Hi|reflexivity|try done..]; unfold a'; by destruct p.
Qed.

Lemma quiet_waiting s : quiet s = true -> waiting s = false.
Proof. unfold quiet, waiting. destruct (last (ops s)) as [o|]; [|done]. by destruct (phase_of o). Qed.

(** Between two operations nobody has a coroutine, a handle or a live entry. *)
Lemma quiet_idle s : inv s -> waiting s = false ->
  co (ed s) = None /\ timer (ed s) = None /\ (forall e n, entries s !! e = Some n -> data n <> Some true) /\
  forall j a, agents s !! j = Some a -> holds a = 0%Z /\ in_timeout a = false.
Proof.
  intros Hi Hw. pose proof (iv_place _ Hi) as Hp. rewrite Hw in Hp. pose proof (iv_table _ Hi) as Ht.
  pose proof (zsum_nonneg holds (agents s) ltac:(intros x; apply holds_range)). pose proof (b2z_nonneg (is_some (co (ed s)))).
  simpl in Hp. split_and!.
  - destruct (co (ed s)); simpl in *; [lia|done].
  - destruct (timer (ed s)) eqn:Htm; [|done]. destruct (tb_timer _ Ht _ Htm). congruence.
  - intros e n Hn Hd. destruct (tb_live _ Ht _ _ Hn Hd). congruence.
  - intros j a Ha. split.
    + eapply zsum_zero_lookup; [intros x; apply holds_range| |done]. lia.
    + destruct (in_timeout a) eqn:Hin; [|done]. pose proof (iv_agent _ Hi _ _ Ha) as Hok.
      destruct a; try discriminate Hin; simpl in Hok; destruct Hok as (_ & Hw' & _); congruence.
Qed.

Lemma inv_subscribe s i tm c s' : inv s -> step s (Subscribe i tm c) = Some s' -> inv s'.
Proof.
  intros Hi Hs. cbn [step] in Hs. pose proof (iv_table _ Hi) as Ht.
  destruct (agents s !! i) as [[]|] eqn:Ha; try discriminate Hs. destruct (sk s) eqn:Hsk; try discriminate Hs.
  destruct (quiet s) eqn:Hq; [|done]. injection Hs as <-. set (k := length (ops s)).
  set (a' := if tm then UAdd k else UStore k). set (s' := goto _ _ _).
  destruct (quiet_idle _ Hi (quiet_waiting _ Hq)) as (Hco & Htm & Hlive & Hidle).
  assert (Hw : waiting s' = true) by (unfold waiting, s'; simpl; by rewrite last_snoc).
  assert (Hold : forall j, is_timed s j = true -> is_timed s' j = true).
  { intros j. unfold is_timed, s'. simpl. destruct (ops s !! j) eqn:Hj; [|done]. by rewrite (lookup_app_l_Some _ _ _ _ Hj). }
  assert (Hcur : current s' k) by (unfold current, s'; simpl; rewrite length_app; simpl; unfold k; lia).
  assert (Hbnd : forall e n, entries s !! e = Some n -> owner n < k).
  { intros e n Hn. pose proof (tb_entry _ Ht _ _ Hn) as H. unfold is_timed in H.
    destruct (ops s !! owner n) eqn:Ho; [|done]. by eapply lookup_lt_Some. }
  split.
  - intros j a Hj. simpl in Hj. apply lookup_insert_list in Hj as [(<- & -> & _)|[_ Hj]].
    + unfold a'. destruct tm; [|done]. split_and!; [done| |].
      * unfold is_timed, s'. simpl. by rewrite (list_lookup_middle (ops s) []).
      * intros e n Hn. specialize (Hbnd _ _ Hn). lia.
    + destruct (Hidle _ _ Hj) as [Hh Hin]. pose proof (iv_agent _ Hi _ _ Hj) as Hok. by destruct a; simpl in *.
  - rewrite Hw. simpl. rewrite (zsum_insert _ _ _ _ _ Ha), Hco.
    assert (holds a' = 1%Z) as -> by (unfold a'; by destruct tm).
    rewrite (zsum_all_zero holds (agents s)); [done|]. intros j a Hj. by apply (Hidle j).
  - simpl. by rewrite Hco.
  - split.
    + intros e n Hn. apply Hold. by apply (tb_entry _ Ht e).
    + apply (tb_unique _ Ht).
    + simpl. congruence.
    + intros e n Hn Hd. by destruct (Hlive _ _ Hn).
    + apply (tb_linked _ Ht).
    + intros j o e Ho Hp. simpl in Ho. apply lookup_app_Some in Ho as [Ho|[_ Ho]]; [by apply (tb_result _ Ht j o)|].
      apply list_lookup_singleton_Some in Ho as [_ <-]. by destruct Hp.
  - eapply sock_keep; [apply (iv_sock _ Hi)|exact Ha|reflexivity|..]; try done; rewrite ?Hsk; try done;
      unfold a'; try (by destruct tm); auto.
Qed.

Lemma inv_close s i s' : inv s -> step s (Close i) = Some s' -> inv s'.
Proof.
  intros Hi Hs. cbn [step] in Hs. pose proof (iv_sock _ Hi) as Hso.
  destruct (agents s !! i) as [[]|] eqn:Ha; try discriminate Hs. destruct (sk s) eqn:Hsk; try discriminate Hs.
  destruct (quiet s) eqn:Hq; [|done]. injection Hs as <-. pose proof (so_closing _ Hso) as Hz. rewrite Hsk in Hz. split.
  - eapply agents_move; [done| |reflexivity|done]. split; auto.
    + right. intros j a Hj Haj. eapply zsum_zero_lookup; [intros x; apply closing_range|exact Hz|done].
    + intros e n Hn. exists n. auto.
    + right. intros e n Hn. by exists n.
  - simpl. rewrite (zsum_insert _ _ _ _ _ Ha). pose proof (iv_place _ Hi). unfold waiting in *. simpl in *. lia.
  - apply (iv_co _ Hi).
  - eapply table_keep; [apply iv_table; done|exact Ha|done|reflexivity|done..|by left|by apply new_results_same].
  - split; try done.
    + change (quiet s = false -> Closing = Open). congruence.
    + simpl. rewrite (zsum_insert _ _ _ _ _ Ha), Hz. done.
    + apply (so_ub _ Hso).
Qed.

Lemma it_inv_step s ev s' : inv s -> regular s' -> step s ev = Some s' -> inv s'.
Proof.
  intros Hi Hreg Hs. pose proof (so_batch _ (iv_sock _ Hi)) as Hb.
  destruct ev as [i tm c|i b| | |e| |i| | |i k|clear|i]; [by eapply inv_subscribe| | | |by eapply inv_expire| | | | | |by eapply inv_resume|by eapply inv_close];
    cbn [step] in Hs.
  - destruct (agents s !! i) as [a|] eqn:Ha; [|done]. by eapply inv_act.
  - destruct (agents s !! home) as [[]|] eqn:Ha; try discriminate Hs. destruct (sk s) eqn:Hsk; try discriminate Hs.
    destruct (fetched s); [done|]. injection Hs as <-. apply (it_inv_same s); try done; [by apply new_results_same|]. by rewrite Hsk.
  - destruct (agents s !! home) as [[]|] eqn:Ha; try discriminate Hs. destruct (fetched s) eqn:Hf; [|done]. injection Hs as <-.
    step_move Hi Ha. intros _ Hcl. apply Hb; [by left|done].
  - destruct (agents s !! home) as [[]|] eqn:Ha; try discriminate Hs. destruct (fetched s) eqn:Hf; [done|]. injection Hs as <-.
    apply (it_inv_same s); try done; [by apply new_results_same|].
    intros [H|[H|H]]; simpl in H; congruence.
  - destruct (agents s !! i) as [[]|] eqn:Ha; try discriminate Hs. destruct (wakers s); [done|]. injection Hs as <-. step_move Hi Ha.
  - destruct (sk s) eqn:Hsk; try discriminate Hs; injection Hs as <-. apply (it_inv_same s); try done; [by apply new_results_same|]. by rewrite Hsk.
  - destruct (wakers s); [done|]. injection Hs as <-. apply (it_inv_same s); try done. by apply new_results_same.
  - destruct (agents s !! i) as [[]|] eqn:Ha; try discriminate Hs. destruct (ops s !! k); [|done]. injection Hs as <-. step_move Hi Ha.
Qed.

Lemma it_inv_init n : inv (init n).
Proof.
  assert (Ha : forall i a, agents (init n) !! i = Some a -> a = AIdle) by (intros i a H; by apply lookup_replicate in H as [-> _]).
  split; try done.
  - intros i a H. by rewrite (Ha _ _ H).
  - simpl. rewrite zsum_replicate. simpl. lia.
  - split; try done. intros e e' k (m & H & _). done.
  - split; try done. simpl. rewrite zsum_replicate. simpl. lia.
Qed.

Lemma it_inv_reachable n s : reachable step (init n) s -> regular s -> inv s.
Proof.
  induction 1 as [|s ev s' Hr IH Hs]; intros Hreg; [apply it_inv_init|].
  eapply it_inv_step; [|done..]. apply IH. by eapply regular_step.
Qed.

(** ** Timers that are armed *)

(** Threads that are about to store the handle, or that end the suspension without it. *)
Definition arming (a : pc) : bool :=
  match a with
  | UAdd _ | UReplace _ _ | TTimer _ | TCo _ | TRun _ _ | WNull _ _ _ | WRemove _ _ _ | WRun _ _ => true
  | _ => false
  end.

Definition armed (s : state) : Prop :=
  missed (hs s) = false -> waiting s = true -> forall k, current s k -> is_timed s k = true ->
  has arming (agents s) \/ is_some (timer (ed s)) = true.

Lemma armed_move i a a' s s' :
  armed s -> agents s !! i = Some a -> agents s' = <[i:=a']> (agents s) ->
  (missed (hs s') = false -> missed (hs s) = false) -> (waiting s' = true -> waiting s = true) ->
  length (ops s') = length (ops s) -> (forall k, is_timed s' k = is_timed s k) ->
  (is_some (timer (ed s)) = true -> is_some (timer (ed s')) = true \/ arming a' = true) ->
  (arming a = true -> arming a' = true \/ is_some (timer (ed s')) = true) -> armed s'.
Proof.
  intros Hok Ha Hag Hm Hw Hlen Htd Htm Har Hm' Hw' k Hk Htk. rewrite Htd in Htk. unfold current in Hk. rewrite Hlen in Hk.
  rewrite Hag. destruct (Hok (Hm Hm') (Hw Hw') k Hk Htk) as [H|H].
  - destruct (arming a) eqn:Haa; [|left; by eapply has_insert_other].
    destruct (Har eq_refl) as [H'|H']; [left|by right]. by eapply has_insert_new.
  - destruct (Htm H) as [H'|H']; [by right|]. left. by eapply has_insert_new.
Qed.

(** The side conditions of [armed_move]. *)
Ltac armed_step Hok Ha :=
  eapply (armed_move _ _ _ _ _ Hok Ha); [reflexivity|..]; simpl; rewrite ?length_alter; auto;
    try (intros; eapply is_timed_upd; [reflexivity|done]);
    try (let Hw := fresh in intros Hw; rewrite <- Hw; symmetry; eapply phase_upd; [reflexivity|done]); try done.

Lemma armed_deliver s k r s' : current s k -> ops s' = alter (set_phase (Woken r)) k (ops s) -> armed s'.
Proof.
  intros Hk Hops _ Hw. assert (waiting s' = false) as H; [|congruence].
  rewrite <- (waiting_deliver s k r Hk). unfold waiting. by rewrite Hops.
Qed.

Lemma armed_act s i b a s' : inv s -> armed s -> agents s !! i = Some a -> act i b a s = Some s' -> armed s'.
Proof.
  intros Hi Hok Ha Hs. pose proof (iv_agent _ Hi _ _ Ha) as Hag.
  destruct a; simpl in Hs; try discriminate Hs; try (injection Hs as <-; by armed_step Hok Ha).
  - destruct (co (ed s)); injection Hs as <-; [armed_step Hok Ha|destruct v; armed_step Hok Ha].
  - destruct (timer (ed s)) eqn:Htm; injection Hs as <-; armed_step Hok Ha.
  - destruct Hag as (_ & _ & _ & He & _). unfold data_of in Hs. rewrite He in Hs. injection Hs as <-. armed_step Hok Ha.
  - destruct (b && _); injection Hs as <-; armed_step Hok Ha.
  - injection Hs as <-. eapply (armed_deliver s k REvent); [apply Hag|by destruct v].
  - destruct (co (ed s)); injection Hs as <-; [armed_step Hok Ha|]. intros Hm. discriminate Hm.
  - injection Hs as <-. eapply (armed_deliver s k (RTimedOut e)); [apply Hag|done].
  - injection Hs as <-. case_match; armed_step Hok Ha.
  - destruct (co (ed s)); injection Hs as <-; armed_step Hok Ha.
  - injection Hs as <-. eapply (armed_deliver s k RCanceled); [apply Hag|done].
  - destruct (timer (ed s)) eqn:Htm; injection Hs as <-; [|armed_step Hok Ha].
    simpl in Hag. destruct (tb_timer _ (iv_table _ Hi) _ Htm) as (Hw & _). pose proof (waiting_open _ Hi Hw). congruence.
  - by destruct Hag.
Qed.

Lemma armed_same s s' :
  armed s -> agents s' = agents s -> ed s' = ed s -> hs s' = hs s -> length (ops s') = length (ops s) ->
  (forall k, is_timed s' k = is_timed s k) -> waiting s' = waiting s -> armed s'.
Proof.
  intros Hok Hag Hed Hh Hlen Htd Hw. unfold armed, current. rewrite Hag, Hed, Hh, Hlen, Hw.
  intros H1 H2 k Hk. rewrite Htd. by apply Hok.
Qed.

Lemma armed_step_ev s ev s' : inv s -> armed s -> step s ev = Some s' -> armed s'.
Proof.
  intros Hi Hok Hs.
  destruct ev as [i tm c|i b| | |e| |i| | |i k|clear|i]; cbn [step] in Hs.
  - destruct (agents s !! i) as [[]|] eqn:Ha; try discriminate Hs. destruct (sk s); try discriminate Hs.
    destruct (quiet s); [|done]. injection Hs as <-. intros _ _ k Hk Htk.
    assert (tm = true) as ->.
    { unfold current in Hk. simpl in Hk. rewrite length_app in Hk. simpl in Hk. unfold is_timed in Htk. simpl in Htk.
      replace k with (length (ops s)) in Htk by lia. by rewrite (list_lookup_middle (ops s) []) in Htk. }
    left. by eapply has_insert_new.
  - destruct (agents s !! i) as [a|] eqn:Ha; [|done]. by eapply armed_act.
  - destruct (agents s !! home) as [[]|] eqn:Ha; try discriminate Hs. destruct (sk s); try discriminate Hs.
    destruct (fetched s); [done|]. injection Hs as <-. by apply (armed_same s).
  - destruct (agents s !! home) as [[]|] eqn:Ha; try discriminate Hs. destruct (fetched s); [|done]. injection Hs as <-. armed_step Hok Ha.
  - destruct (agents s !! home) as [[]|] eqn:Ha; try discriminate Hs.
    destruct (entries s !! e) as [[o [p|] [|]]|]; try discriminate Hs. injection Hs as <-. armed_step Hok Ha.
  - destruct (agents s !! home) as [[]|] eqn:Ha; try discriminate Hs. destruct (fetched s); [done|]. injection Hs as <-. by apply (armed_same s).
  - destruct (agents s !! i) as [[]|] eqn:Ha; try discriminate Hs. destruct (wakers s); [done|]. injection Hs as <-. armed_step Hok Ha.
  - destruct (sk s); try discriminate Hs; injection Hs as <-. by apply (armed_same s).
  - destruct (wakers s); [done|]. injection Hs as <-. by apply (armed_same s).
  - destruct (agents s !! i) as [[]|] eqn:Ha; try discriminate Hs. destruct (ops s !! k); [|done]. injection Hs as <-. armed_step Hok Ha.
  - destruct (last (ops s)) as [[tm c x sl [|r|]]|] eqn:Hl; try discriminate Hs. injection Hs as <-. intros _ Hw.
    exfalso. unfold waiting in Hw. simpl in Hw. rewrite last_alter in Hw. case_decide; rewrite Hl in Hw; done.
  - destruct (agents s !! i) as [[]|] eqn:Ha; try discriminate Hs. destruct (sk s); try discriminate Hs.
    destruct (quiet s); [|done]. injection Hs as <-. armed_step Hok Ha.
Qed.

Lemma armed_reachable n s : reachable step (init n) s -> regular s -> armed s.
Proof.
  induction 1 as [|s ev s' Hr IH Hs]; intros Hreg; [done|]. pose proof (regular_step _ _ _ Hs Hreg) as Hreg0.
  eapply armed_step_ev; [by eapply it_inv_reachable|by apply IH|done].
Qed.

(** ** The theorems *)

(** C35. If no timer expired before its handle was stored, no operation with a timeout
    was cancelled or taken by a thread other than the worker of its timer list, and
    the socket was not dropped under a running [subscribe], then the pointers between
    the timer list and the [EventData] are right under every interleaving: no freed
    memory is used, [with_mut_data] never panics, an entry that still points to the
    [EventData] belongs to the suspended operation of an open socket, and an
    operation that times out does so by its own timer. *)
Theorem io_timer_own n s :
  reachable step (init n) s -> regular s ->
  ub s = false /\ (forall i, agents s !! i <> Some APanic) /\
  (forall e m, entries s !! e = Some m -> data m = Some true ->
     linked m = true /\ waiting s = true /\ current s (owner m) /\ sk s = Open) /\
  (forall k o e, ops s !! k = Some o -> phase_of o = Woken (RTimedOut e) \/ phase_of o = Ended (RTimedOut e) ->
     exists m, entries s !! e = Some m /\ owner m = k).
Proof.
  intros Hr Hreg. pose proof (it_inv_reachable _ _ Hr Hreg) as Hi. pose proof (iv_table _ Hi) as Ht. split_and!.
  - apply (so_ub _ (iv_sock _ Hi)).
  - intros i Ha. apply (iv_agent _ Hi _ _ Ha).
  - intros e m Hm Hd. destruct (tb_live _ Ht _ _ Hm Hd) as (Hw & Hc & _). split_and!; [|done|done|by apply waiting_open].
    by rewrite <- (tb_linked _ Ht _ _ Hm), Hd.
  - apply (tb_result _ Ht).
Qed.

(** C36. If no timer expired before its handle was stored or before its coroutine was,
    no operation with a timeout was cancelled or taken by a thread other than the
    worker of its timer list, and the socket was not dropped under a running
    [subscribe], then a timeout is not lost: at rest an operation that is suspended
    with a timeout has its entry in the timer list and the handle stored, and when the
    entry expires the worker resumes the operation with [TimedOut].
    ([io_timeout_missed]: without the condition on the coroutine a timeout is lost.) *)
Theorem io_timer_armed n s k b :
  reachable step (init n) s -> regular s -> missed (hs s) = false ->
  (forall i a, agents s !! i = Some a -> a = AIdle) -> home < length (agents s) ->
  waiting s = true -> current s k -> is_timed s k = true ->
  exists e, timer (ed s) = Some e /\ entries s !! e = Some (En k (Some true) true) /\
    exists s' o, run step [Expire e; Act home b; Act home b; Act home b] s = Some s' /\
      ops s' !! k = Some o /\ phase_of o = Woken (RTimedOut e) /\ ub s' = false.
Proof.
  intros Hr Hreg Hm Hrest Hhome Hw Hk Htk. pose proof (it_inv_reachable _ _ Hr Hreg) as Hi. pose proof (iv_table _ Hi) as Ht.
  assert (Htm : is_some (timer (ed s)) = true).
  { destruct (armed_reachable _ _ Hr Hreg Hm Hw k Hk Htk) as [(j & a & Ha & Har)|H]; [|done]. by rewrite (Hrest _ _ Ha) in Har. }
  destruct (timer (ed s)) as [e|] eqn:He; [|done]. destruct (tb_timer _ Ht _ He) as (_ & k' & Hk' & Ho & Hl).
  pose proof (current_det _ _ _ Hk Hk') as <-. destruct Hl as [Hl|Hl]; [|by apply Hrest in Hl].
  assert (Hco : co (ed s) = Some k).
  { pose proof (iv_place _ Hi) as Hp. rewrite Hw, (zsum_all_zero holds (agents s)) in Hp.
    - destruct (co (ed s)) as [j|] eqn:Hc; [|done]. f_equal. eapply current_det; [by apply (iv_co _ Hi)|done].
    - intros i a Ha. by rewrite (Hrest _ _ Ha). }
  destruct (lookup_lt_is_Some_2 _ _ Hhome) as [a Ha]. pose proof (Hrest _ _ Ha) as ->.
  exists e. split_and!; [done|done|]. pose proof (waiting_open _ Hi Hw) as Hopen.
  assert (exists o, ops s !! k = Some o) as [o Hop] by (apply lookup_lt_is_Some_2; unfold current in Hk; lia).
  eexists. exists (set_phase (Woken (RTimedOut e)) o). split.
  - cbn [run step]. rewrite Ha, Hl. cbn. rewrite list_lookup_insert_eq by done. cbn.
    rewrite list_lookup_insert_eq by (by rewrite length_insert). cbn. rewrite Hco. cbn.
    rewrite list_lookup_insert_eq by (by rewrite !length_insert). cbn. reflexivity.
  - cbn. rewrite list_lookup_alter_eq, Hop. split_and!; [done|done|]. unfold alive. cbn. rewrite Hopen. cbn.
    rewrite !orb_false_r. apply (so_ub _ (iv_sock _ Hi)).
Qed.

End machine.

(** ** Runs

    Two workers and one more thread; the socket belongs to worker [1]. *)
Module Demo.
Definition fd : nat := 3.
Definition workers : nat := 2.
Definition go (es : list event) : option state := run (step fd workers) es (init 3).
Definition acts (i n : nat) : list event := replicate n (Act i true).

(** A read with a timeout is suspended by worker [0]. *)
Definition suspended : list event := Subscribe 0 true true :: acts 0 6.
(** An event reaches the selector before the coroutine is stored, and leaves the flag set. *)
Definition flagged : list event := [Fetch; Deliver] ++ acts 1 2.
Definition state_of (es : list event) : state := default (init 3) (go es).
Definition waits : state := state_of suspended.
(** The read timed out, and the next one was ended by an event. *)
Definition used : state :=
  state_of (suspended ++ [Expire 0] ++ acts 1 3 ++ [Resume true] ++ suspended ++ [Fetch; Deliver] ++ acts 1 6 ++ [Resume true]).
End Demo.

Lemma waits_reachable : reachable (step Demo.fd Demo.workers) (init 3) Demo.waits.
Proof. apply (run_reachable _ _ Demo.suspended). vm_compute. reflexivity. Qed.
Lemma used_reachable : reachable (step Demo.fd Demo.workers) (init 3) Demo.used.
Proof.
  apply (run_reachable _ _ (Demo.suspended ++ [Expire 0] ++ Demo.acts 1 3 ++ [Resume true] ++ Demo.suspended ++
    [Fetch; Deliver] ++ Demo.acts 1 6 ++ [Resume true])).
  vm_compute. reflexivity.
Qed.

Lemma io_timer_own_witness :
  map phase_of (ops Demo.used) = [Ended (RTimedOut 0); Ended REvent] /\ ub Demo.used = false /\
  exists m, entries Demo.used !! 0 = Some m /\ owner m = 0.
Proof.
  destruct (io_timer_own Demo.fd Demo.workers 3 Demo.used used_reachable) as (Hub & _ & _ & Hres).
  - vm_compute. repeat split.
  - split; [reflexivity|]. split; [exact Hub|]. eapply Hres; [vm_compute; reflexivity|]. right. reflexivity.
Defined.

Lemma io_timer_armed_witness :
  exists e, timer (ed Demo.waits) = Some e /\ entries Demo.waits !! e = Some (En 0 (Some true) true).
Proof.
  destruct (io_timer_armed Demo.fd Demo.workers 3 Demo.waits 0 true waits_reachable) as (e & He & Hl & _).
  - vm_compute. repeat split.
  - reflexivity.
  - intros i a Hi. vm_compute in Hi. by destruct i as [|[|[|i]]]; simplify_eq.
  - vm_compute. repeat constructor.
  - reflexivity.
  - reflexivity.
  - reflexivity.
  - exists e. split; assumption.
Defined.

(** The timer expires before [subscribe] has stored the coroutine: nothing is wrong
    but that the operation waits without a timeout. *)
Lemma io_timeout_missed :
  exists s, Demo.go ([Subscribe 0 true true] ++ Demo.acts 0 2 ++ [Expire 0] ++ Demo.acts 1 2 ++ Demo.acts 0 4) = Some s /\
    regular s /\ agents s = replicate 3 AIdle /\ waiting s = true /\ timer (ed s) = None.
Proof. eexists. split; [vm_compute; reflexivity|]. by split_and!. Qed.

(** It expires before [add_io_timer] has stored the handle: the next event of the
    socket makes [with_mut_data] panic in the selector, the coroutine is lost with
    the worker. *)
Lemma io_selector_panics :
  exists s, Demo.go ([Subscribe 0 true true] ++ Demo.acts 0 1 ++ [Expire 0] ++ Demo.acts 1 2 ++ Demo.acts 0 5 ++
      [Fetch; Deliver] ++ Demo.acts 1 4) = Some s /\
    agents s !! 1 = Some APanic /\ waiting s = true /\ co (ed s) = None.
Proof. eexists. split; [vm_compute; reflexivity|]. by split_and!. Qed.

(** A read with a timeout is cancelled and its timer stays in the list: it ends the
    next read of the socket at once, whose own timer is then used after the socket
    was dropped and its [EventData] freed. *)
Definition stale_run : list event :=
  Demo.suspended ++ [Cancel 2 0] ++ Demo.acts 2 3 ++ [Resume false] ++ Demo.suspended ++ [Expire 0] ++ Demo.acts 1 3.
Lemma io_stale_timer :
  exists s, Demo.go stale_run = Some s /\ map phase_of (ops s) = [Ended RCanceled; Woken (RTimedOut 0)] /\
    timer (ed s) = None /\ entries s !! 1 = Some (En 1 (Some true) true).
Proof. eexists. split; [vm_compute; reflexivity|]. by split_and!. Qed.
Lemma io_timer_use_after_free :
  exists s, Demo.go (stale_run ++ [Resume true; Close 2] ++ Demo.acts 2 2 ++ [Free; Expire 1] ++ Demo.acts 1 1) = Some s /\
    sk s = Closed /\ ub s = true.
Proof. eexists. split; [vm_compute; reflexivity|]. by split_and!. Qed.

(** [subscribe] finds the flag set and takes the coroutine itself, on worker [0], while
    worker [1] pops the timer: [with_mut_data] panics. *)
Lemma io_fast_path_panics :
  exists s, Demo.go ([Subscribe 0 true true] ++ Demo.flagged ++ Demo.acts 0 5 ++ [Expire 0] ++ Demo.acts 0 2) = Some s /\
    agents s !! 0 = Some APanic /\ crossed (hs s) = true.
Proof. eexists. split; [vm_compute; reflexivity|]. by split_and!. Qed.

(** An event resumes the coroutine while [subscribe] is still running; it drops the
    socket, and [subscribe] goes on to use it. *)
Lemma io_subscribe_use_after_free :
  exists s, Demo.go ([Subscribe 0 false true] ++ Demo.acts 0 1 ++ [Fetch; Deliver] ++ Demo.acts 1 4 ++
      [Resume true; Close 2] ++ Demo.acts 2 2 ++ [Free] ++ Demo.acts 0 1) = Some s /\
    sk s = Closed /\ ub s = true.
Proof. eexists. split; [vm_compute; reflexivity|]. by split_and!. Qed.

End It.
