(* ===== verification/WinIo.v ===== *)
(** * WinIo: coroutine I/O over completion ports

    [src/io/sys/windows/]: [iocp.rs] ([EventData], [select], [add_io_timer],
    [timeout_handler]), [cancel.rs], [co_io_result] of [mod.rs], and the operations
    under [net/] and [pipe/].  An operation starts an overlapped call and suspends
    its coroutine; the completion packet resumes it.  The kernel is an environment:
    it takes a call or refuses it, posts one packet for each call it took, and
    [CancelIoEx] marks a call that is pending.  One coroutine performs any number of
    operations on one handle; its [EventData]s are freed when nobody refers to them. *)

From stdpp Require Import base numbers list.
From Stdlib Require Import ZArith Lia.
From S2P Require Import Prelude.

Module Wio.

(** ** Results *)

Inductive error := TimedOut | Canceled | Os (code : Z).
Inductive result := ROk (n : Z) | RErr (e : error) | RPanic.

Definition ERROR_OPERATION_ABORTED : Z := 995.
Definition STATUS_CANCELLED : Z := 3221225760.
Definition NO_ERROR : Z := 0.
Definition ERROR_BROKEN_PIPE : Z := 109.

(** The [match] of [select] on the status of a packet; [last] is the error code that
    [GetOverlappedResult] leaves. *)
Definition status_para (internal last : Z) : option error :=
  if (internal =? ERROR_OPERATION_ABORTED)%Z || (internal =? STATUS_CANCELLED)%Z then Some TimedOut
  else if (internal =? NO_ERROR)%Z then None
  else Some (Os last).

(** [co_io_result] in a coroutine: [size] is [get_io_size]. *)
Definition co_io_result (para : option error) (size : Z) : result :=
  match para with None => ROk size | Some e => RErr e end.

(** ** The operations: [done], with the error of the call that completes it
    ([accept_complete], [connect_complete], reading the address), whether it takes a
    timeout, and whether [subscribe] holds the [DelayDrop] and registers for
    cancellation *)
Record io_op := Op { o_done : result -> option Z -> result; o_timer : bool; o_cancel : bool }.

Definition plain (r : result) (c : option Z) : result := r.
Definition completed (r : result) (c : option Z) : result :=
  match r, c with ROk _, Some e => RErr (Os e) | _, _ => r end.
Definition broken_pipe (r : result) (c : option Z) : result :=
  match r with RErr (Os e) => if (e =? ERROR_BROKEN_PIPE)%Z then ROk 0 else r | _ => r end.

Definition SocketRead : io_op := Op plain true true.
Definition SocketPeek : io_op := Op plain true true.
Definition SocketWrite : io_op := Op plain true false.
Definition TcpListenerAccept : io_op := Op completed false true.
Definition TcpStreamConnect : io_op := Op completed true true.
Definition UdpRecvFrom : io_op := Op completed true true.
Definition UdpSendTo : io_op := Op plain true false.
Definition PipeRead : io_op := Op broken_pipe true true.
Definition PipeWrite : io_op := Op plain true false.
Definition operations : list io_op :=
  [SocketRead; SocketPeek; SocketWrite; TcpListenerAccept; TcpStreamConnect; UdpRecvFrom; UdpSendTo; PipeRead; PipeWrite].

(** ** The state *)

(** An entry of the timer list, as in the unix selector. *)
Record entry := En { owner : nat; data : option bool; linked : bool }.

(** The overlapped call in the kernel: not started, pending ([asked]: [CancelIoEx] was
    called), its packet posted with a status and a size, its packet taken. *)
Inductive kern := KNone | KPending (asked : bool) | KPosted (status size : Z) | KTaken (size : Z).
#[global] Instance kern_eq_dec : EqDecision kern.
Proof. solve_decision. Defined.

(** The coroutine in the operation: suspended, resumed with its parameter, in the drop
    of the operation ([DelayDrop::wait] after the fields before it) with a result,
    after it. *)
Inductive phase := Waiting | Woken (p : option error) | Dropping (r : result) | Gone (r : result).

(** One operation and its [EventData]; [timed]: was a timeout given; [guard]: is
    [can_drop] 2. *)
Record req := Req { what : io_op; timed : bool; timer : option nat; guard : bool; call : kern; phase_of : phase }.

(** A thread: in [subscribe] ([S]), in [Cancel::cancel] ([C], for [Some k] called by the
    [subscribe] of [k]), in [select] ([P]), in [timeout_handler] ([T]). *)
Inductive pc :=
  | AIdle
  | SGuard (k : nat) | SAdd (k : nat) | SReplace (k e : nat) | SStore (k : nat) | SCall (k : nat)
  | SFail (k : nat) (err : Z) | SFailRun (k : nat) (err : Z) | SSetIo (k : nat) | SCheck (k : nat) | SUnguard (k : nat)
  | COr (b : option nat) | CIo (b : option nat) | CEx (b : option nat) (k : nat)
  | PCo (k : nat) (st : Z) | PTimer (k : nat) (st : Z) | PNull (k : nat) (st : Z) (e : nat) | PRemove (k : nat) (st : Z) (e : nat)
  | PStatus (k : nat) (st : Z) | PRun (k : nat) (p : option error)
  | TTimer (e : nat) | TCancel (e : nat)
  | APanic.

(** History.  [early]: a timer expired before its handle was stored; [failed]: the
    system refused the call of an operation with a timeout; [escaped]: a cancellation
    ended [DelayDrop::wait]; [late]: the operation was over before [subscribe] gave its
    [EventData] to the [Cancel]; [missed]: a timer expired before the call was made. *)
Record history := Hist { early : bool; failed : bool; escaped : bool; late : bool; missed : bool }.

(** [co]: the operation whose [EventData] holds the coroutine; [canceled], [cslot]: the
    coroutine's [Cancel]; [ub]: freed memory was used. *)
Record state := ST {
  entries : list entry; reqs : list req; co : option nat; canceled : bool; cslot : option nat;
  agents : list pc; ub : bool; hs : history
}.

Definition init (n : nat) : state := ST [] [] None false None (replicate n AIdle) false (Hist false false false false false).

Definition goto (i : nat) (a : pc) (s : state) : state :=
  ST (entries s) (reqs s) (co s) (canceled s) (cslot s) (<[i:=a]> (agents s)) (ub s) (hs s).
Definition set_entries (l : list entry) (s : state) : state :=
  ST l (reqs s) (co s) (canceled s) (cslot s) (agents s) (ub s) (hs s).
Definition set_reqs (l : list req) (s : state) : state :=
  ST (entries s) l (co s) (canceled s) (cslot s) (agents s) (ub s) (hs s).
Definition set_co (o : option nat) (s : state) : state :=
  ST (entries s) (reqs s) o (canceled s) (cslot s) (agents s) (ub s) (hs s).
Definition set_cancel (b : bool) (o : option nat) (s : state) : state :=
  ST (entries s) (reqs s) (co s) b o (agents s) (ub s) (hs s).
Definition set_hist (h : history) (s : state) : state :=
  ST (entries s) (reqs s) (co s) (canceled s) (cslot s) (agents s) (ub s) h.
Definition touch (b : bool) (s : state) : state :=
  ST (entries s) (reqs s) (co s) (canceled s) (cslot s) (agents s) (ub s || negb b) (hs s).
Definition set_data (e : nat) (d : option bool) (l : bool) (s : state) : state :=
  set_entries (alter (fun n => En (owner n) d l) e (entries s)) s.
Definition upd (k : nat) (f : req -> req) (s : state) : state := set_reqs (alter f k (reqs s)) s.

Definition set_timer (o : option nat) (q : req) : req := Req (what q) (timed q) o (guard q) (call q) (phase_of q).
Definition set_guard (b : bool) (q : req) : req := Req (what q) (timed q) (timer q) b (call q) (phase_of q).
Definition set_call (c : kern) (q : req) : req := Req (what q) (timed q) (timer q) (guard q) c (phase_of q).
Definition set_phase (p : phase) (q : req) : req := Req (what q) (timed q) (timer q) (guard q) (call q) p.

Definition data_of (s : state) (e : nat) : option bool := n ← entries s !! e; data n.
Definition target (s : state) (e : nat) : nat := from_option owner 0 (entries s !! e).
Definition timer_of (s : state) (k : nat) : option nat := from_option timer None (reqs s !! k).
Definition call_of (s : state) (k : nat) : kern := from_option call KNone (reqs s !! k).
Definition guarded (s : state) (k : nat) : bool := from_option guard false (reqs s !! k).
Definition is_timed (s : state) (k : nat) : bool := from_option timed false (reqs s !! k).
Definition cancels (s : state) (k : nat) : bool := from_option (fun q => o_cancel (what q)) false (reqs s !! k).
Definition is_gone (p : phase) : bool := match p with Gone _ => true | _ => false end.
(** The frame of operation [k] is there. *)
Definition present (s : state) (k : nat) : bool := from_option (fun q => negb (is_gone (phase_of q))) false (reqs s !! k).
Definition refers (k : nat) (a : pc) : bool := match a with CEx _ j => j =? k | _ => false end.
(** It has its [EventData].  The fields of an operation are dropped in the order of their
    declaration, an [Arc<EventData>] before the [DelayDrop]; an operation that cannot be
    cancelled has the [EventData] in its frame. *)
Definition keeps (q : req) : bool :=
  match phase_of q with Waiting | Woken _ => true | Dropping _ => negb (o_cancel (what q)) | Gone _ => false end.
Definition held (s : state) (k : nat) : bool := from_option keeps false (reqs s !! k).
(** The [EventData] is allocated: the operation, the [Cancel] or a canceller has it. *)
Definition alive (s : state) (k : nat) : bool :=
  held s k || bool_decide (cslot s = Some k) || existsb (refers k) (agents s).

Section machine.
(** The handle and the number of workers. *)
Context (handle workers : Z).

(** The worker whose port completes the handle's calls ([add_socket]), and the one in
    whose list [add_io_timer] puts its timers. *)
Definition port_id : nat := Z.to_nat (Z.shiftr handle 2 mod workers).
Definition timer_id : nat := Z.to_nat (Z.shiftr (handle mod workers) 2).

(** [add_io_timer], [subscribe]; [r] is the answer of the overlapped call. *)
Definition add_next (s : state) (k : nat) : pc := if is_timed s k then SAdd k else SStore k.
Definition after_call (s : state) (k : nat) : pc := if cancels s k then SSetIo k else AIdle.
Definition step_subscribe (i : nat) (r : option Z) (a : pc) (s : state) : option state :=
  match a with
  | SGuard k => Some (goto i (add_next s k) (upd k (set_guard true) s))
  | SAdd k => Some (goto i (SReplace k (length (entries s))) (set_entries (entries s ++ [En k (Some true) true]) s))
  | SReplace k e =>
      let h := hs s in
      let popped := negb (bool_decide (is_Some (data_of s e))) in
      Some (goto i (SStore k) (upd k (set_timer (Some e))
        (set_hist (Hist (early h || popped) (failed h) (escaped h) (late h) (missed h)) s)))
  | SStore k => Some (goto i (SCall k) (set_co (Some k) s))
  | SCall k =>
      Some (match r with
            | None => goto i (after_call s k) (upd k (set_call (KPending false)) s)
            | Some err => goto i (SFail k err) s
            end)
  | SFail k err =>
      if bool_decide (co s = Some k) then
        let h := hs s in
        Some (goto i (SFailRun k err) (set_co None (touch (alive s k)
          (set_hist (Hist (early h) (failed h || is_timed s k) (escaped h) (late h) (missed h)) s))))
      else Some (goto i APanic s)
  | SFailRun k err =>
      Some (goto i (if cancels s k then SUnguard k else AIdle) (upd k (set_phase (Woken (Some (Os err)))) s))
  | SSetIo k =>
      let h := hs s in
      Some (goto i (SCheck k) (set_cancel (canceled s) (Some k) (touch (held s k)
        (set_hist (Hist (early h) (failed h) (escaped h) (late h || negb (held s k)) (missed h)) s))))
  | SCheck k => Some (goto i (if canceled s then COr (Some k) else SUnguard k) s)
  | SUnguard k => Some (goto i AIdle (upd k (set_guard false) (touch (present s k) s)))
  | _ => None
  end.

(** [CancelImpl::cancel] and [CancelIoData::cancel]. *)
Definition leave (b : option nat) : pc := match b with Some k => SUnguard k | None => AIdle end.
Definition cancel_io_ex (k : nat) (s : state) : state :=
  match call_of s k with KPending _ => upd k (set_call (KPending true)) s | _ => s end.
Definition step_cancel (i : nat) (a : pc) (s : state) : option state :=
  match a with
  | COr b => Some (goto i (CIo b) (set_cancel true (cslot s) s))
  | CIo b =>
      Some (match cslot s with
            | Some k => goto i (CEx b k) (set_cancel (canceled s) None s)
            | None => goto i (leave b) s
            end)
  | CEx b k => Some (goto i (leave b) (cancel_io_ex k (touch (alive s k) s)))
  | _ => None
  end.

(** The body of [select] for one packet; [last]: the error code of the system, [b]: does
    [remove] find the node in the middle of the list. *)
Definition step_select (i : nat) (b : bool) (last : Z) (a : pc) (s : state) : option state :=
  match a with
  | PCo k st =>
      if bool_decide (co s = Some k) then Some (goto i (PTimer k st) (set_co None (touch (alive s k) s)))
      else Some (goto i APanic s)
  | PTimer k st =>
      Some (match timer_of s k with
            | None => goto i (PStatus k st) (touch (alive s k) s)
            | Some e => goto i (PNull k st e) (upd k (set_timer None) (touch (alive s k) s))
            end)
  | PNull k st e =>
      Some (match data_of s e with
            | Some _ => goto i (PRemove k st e) (set_data e (Some false) true s)
            | None => goto i APanic s
            end)
  | PRemove k st e =>
      let gone := b && bool_decide (is_Some (data_of s e)) in
      Some (goto i (PStatus k st) (if gone then set_data e None false s else s))
  | PStatus k st => Some (goto i (PRun k (status_para st last)) (touch (alive s k) s))
  | PRun k p => Some (goto i AIdle (upd k (set_phase (Woken p)) s))
  | _ => None
  end.

(** [timeout_handler], on an entry whose pointer was not null. *)
Definition step_timeout (i : nat) (a : pc) (s : state) : option state :=
  match a with
  | TTimer e => Some (goto i (TCancel e) (upd (target s e) (set_timer None) (touch (alive s (target s e)) s)))
  | TCancel e =>
      let h := hs s in
      let k := target s e in
      let unmade := match call_of s k with KNone => true | _ => false end in
      Some (goto i AIdle (cancel_io_ex k (touch (alive s k)
        (set_hist (Hist (early h) (failed h) (escaped h) (late h) (missed h || unmade)) s))))
  | _ => None
  end.

Definition act (i : nat) (r : option Z) (b : bool) (a : pc) (s : state) : option state :=
  match a with
  | AIdle | APanic => None
  | SGuard _ | SAdd _ | SReplace _ _ | SStore _ | SCall _ | SFail _ _ | SFailRun _ _ | SSetIo _ | SCheck _ | SUnguard _ =>
      step_subscribe i r a s
  | COr _ | CIo _ | CEx _ _ => step_cancel i a s
  | PCo _ _ | PTimer _ _ | PNull _ _ _ | PRemove _ _ _ | PStatus _ _ | PRun _ _ => step_select i b (default 0%Z r) a s
  | TTimer _ | TCancel _ => step_timeout i a s
  end.

Inductive event :=
  | Call (i : nat) (o : io_op) (t : bool)    (* a new operation; worker [i] runs its [subscribe] *)
  | Skip (o : io_op) (panicking : bool) (c : option Z)  (* one of a cancelled coroutine *)
  | Act (i : nat) (r : option Z) (b : bool)
  | Complete (k : nat) (status size : Z)     (* the kernel posts the packet of call [k] *)
  | Select (k : nat)                         (* [get_many] returns it *)
  | Expire (e : nat)
  | Cancel (i : nat)
  | Resume (panicking : bool) (c : option Z) (* [yield_back], [clear] and [done] *)
  | Drop                                     (* [DelayDrop::wait] returns *)
  | Escape.                                  (* it panics *)

Definition quiet (s : state) : bool :=
  match last (reqs s) with None => true | Some q => is_gone (phase_of q) end.
Definition size_of (c : kern) : Z := match c with KTaken n => n | _ => 0 end.
(** The result of an operation that is not made, and of one that was. *)
Definition skipped (o : io_op) (panicking : bool) (c : option Z) : result :=
  if panicking then o_done o (co_io_result None 0) c else RPanic.
Definition finished (q : req) (p : option error) (cancel panicking : bool) (c : option Z) : result :=
  if cancel then if panicking then o_done (what q) (co_io_result None (size_of (call q))) c else RPanic
  else o_done (what q) (co_io_result p (size_of (call q))) c.

Definition step (s : state) (ev : event) : option state :=
  match ev with
  | Call i o t =>
      match agents s !! i with
      | Some AIdle =>
          if quiet s && negb (canceled s) then
            let k := length (reqs s) in
            let s' := set_reqs (reqs s ++ [Req o (t && o_timer o) None false KNone Waiting]) s in
            Some (goto i (if o_cancel o then SGuard k else add_next s' k) s')
          else None
      | _ => None
      end
  | Skip o panicking c =>
      if quiet s && canceled s then Some (set_reqs (reqs s ++ [Req o false None false KNone (Gone (skipped o panicking c))]) s)
      else None
  | Act i r b => match agents s !! i with Some a => act i r b a s | None => None end
  | Complete k st n =>
      match call_of s k with KPending _ => Some (upd k (set_call (KPosted st n)) s) | _ => None end
  | Select k =>
      match agents s !! port_id, call_of s k with
      | Some AIdle, KPosted st n => Some (goto port_id (PCo k st) (upd k (set_call (KTaken n)) s))
      | _, _ => None
      end
  | Expire e =>
      match agents s !! timer_id, entries s !! e with
      | Some AIdle, Some (En _ (Some p) true) =>
          Some (goto timer_id (if p then TTimer e else AIdle) (set_data e None false s))
      | _, _ => None
      end
  | Cancel i => match agents s !! i with Some AIdle => Some (goto i (COr None) s) | _ => None end
  | Resume panicking c =>
      match last (reqs s) with
      | Some q =>
          match phase_of q with
          | Woken p =>
              let r := finished q p (canceled s) panicking c in
              let keep := canceled s && negb panicking in
              Some (upd (pred (length (reqs s))) (set_phase (Dropping r))
                      (set_cancel (canceled s) (if keep then cslot s else None) s))
          | _ => None
          end
      | None => None
      end
  | Drop =>
      match last (reqs s) with
      | Some q =>
          match phase_of q with
          | Dropping r => if guard q then None else Some (upd (pred (length (reqs s))) (set_phase (Gone r)) s)
          | _ => None
          end
      | None => None
      end
  | Escape =>
      match last (reqs s) with
      | Some q =>
          match phase_of q with
          | Dropping RPanic => None
          | Dropping _ =>
              if guard q && canceled s then
                let h := hs s in
                Some (upd (pred (length (reqs s))) (set_phase (Gone RPanic))
                        (set_hist (Hist (early h) (failed h) true (late h) (missed h)) s))
              else None
          | _ => None
          end
      | None => None
      end
  end.

(** ** The invariant *)

(** Nothing has gone wrong with the timers and the frames so far. *)
Definition regular (s : state) : Prop := early (hs s) = false /\ failed (hs s) = false /\ escaped (hs s) = false /\ late (hs s) = false.

Definition waiting (s : state) : bool :=
  match last (reqs s) with Some q => match phase_of q with Waiting => true | _ => false end | None => false end.
(** [k] is the last operation. *)
Definition current (s : state) (k : nat) : Prop := S k = length (reqs s).
Definition is_some {A} (o : option A) : bool := match o with Some _ => true | None => false end.
Definition with_kernel (c : kern) : bool := match c with KPending _ | KPosted _ _ => true | _ => false end.
(** The kernel has the call of the last operation. *)
Definition in_kernel (s : state) : bool := from_option (fun q => with_kernel (call q)) false (last (reqs s)).

(** Threads that have the coroutine in their hands, that will take it out of the
    [EventData], that execute [subscribe], that handle a timeout. *)
Definition holds (a : pc) : Z :=
  match a with
  | SGuard _ | SAdd _ | SReplace _ _ | SStore _ | SFailRun _ _
  | PTimer _ _ | PNull _ _ _ | PRemove _ _ _ | PStatus _ _ | PRun _ _ => 1
  | _ => 0
  end.
Definition takes (a : pc) : Z := match a with SCall _ | SFail _ _ | PCo _ _ => 1 | _ => 0 end.
Definition insub (a : pc) : Z :=
  match a with
  | SGuard _ | SAdd _ | SReplace _ _ | SStore _ | SCall _ | SFail _ _ | SFailRun _ _ | SSetIo _ | SCheck _ | SUnguard _
  | COr (Some _) | CIo (Some _) | CEx (Some _) _ => 1
  | _ => 0
  end.
Definition in_timeout (a : pc) : bool := match a with TTimer _ | TCancel _ => true | _ => false end.

Definition owned (s : state) (e k : nat) : Prop := exists n, entries s !! e = Some n /\ owner n = k.
(** [subscribe] holds the guard if the operation has one. *)
Definition sub_ok (s : state) (k : nat) : Prop :=
  current s k /\ call_of s k = KNone /\ (cancels s k = true -> guarded s k = true).
Definition inside (s : state) (k : nat) : Prop := current s k /\ present s k = true /\ guarded s k = true.
Definition no_entry (s : state) (k : nat) : Prop := forall e n, entries s !! e = Some n -> owner n <> k.

(** What a thread knows. *)
Definition agent_ok (s : state) (i : nat) (a : pc) : Prop :=
  match a with
  | AIdle | COr None | CIo None | CEx None _ => True
  | SGuard k => current s k /\ call_of s k = KNone /\ cancels s k = true /\ no_entry s k
  | SAdd k => sub_ok s k /\ is_timed s k = true /\ no_entry s k
  | SReplace k e => sub_ok s k /\ timer_of s k = None /\ owned s e k /\ data_of s e <> Some false
  | SStore k => sub_ok s k
  | SCall k | SFail k _ => sub_ok s k /\ co s = Some k
  | SFailRun k _ => sub_ok s k /\ is_timed s k = false
  | SSetIo k | SCheck k | SUnguard k | COr (Some k) | CIo (Some k) | CEx (Some k) _ => inside s k
  | PCo k _ => i = timer_id /\ current s k /\ co s = Some k
  | PTimer k _ => i = timer_id /\ current s k
  | PNull k _ e => i = timer_id /\ current s k /\ entries s !! e = Some (En k (Some true) true) /\ timer_of s k = None
  | PRemove k _ _ | PStatus k _ | PRun k _ => i = timer_id /\ current s k /\ timer_of s k = None
  | TTimer e | TCancel e => i = timer_id /\ waiting s = true /\ data_of s e = None /\ exists k, current s k /\ owned s e k
  | APanic => False
  end.

Record table_ok (s : state) : Prop := {
  tb_entry : forall e n, entries s !! e = Some n -> is_timed s (owner n) = true;
  tb_unique : forall e e' k, owned s e k -> owned s e' k -> e = e';
  tb_timer : forall k e, timer_of s k = Some e -> waiting s = true /\ current s k /\ owned s e k /\
    (entries s !! e = Some (En k (Some true) true) \/ agents s !! timer_id = Some (TTimer e));
  tb_live : forall e n, entries s !! e = Some n -> data n = Some true ->
    waiting s = true /\ current s (owner n) /\
    (timer_of s (owner n) = Some e \/ (exists i, agents s !! i = Some (SReplace (owner n) e)) \/
     (exists st, agents s !! timer_id = Some (PNull (owner n) st e)));
  tb_linked : forall e n, entries s !! e = Some n -> is_some (data n) = linked n
}.

Record inv (s : state) : Prop := {
  iv_agent : forall i a, agents s !! i = Some a -> agent_ok s i a;
  iv_place : (zsum holds (agents s) + b2z (is_some (co s)) = b2z (waiting s))%Z;
  iv_take : (zsum takes (agents s) + b2z (in_kernel s) = b2z (is_some (co s)))%Z;
  iv_sub : (zsum insub (agents s) <= 1)%Z;
  iv_co : forall k, co s = Some k -> current s k;
  iv_call : forall k, with_kernel (call_of s k) = true -> current s k;
  iv_table : table_ok s;
  iv_ub : ub s = false
}.

Lemma win_regular_step s ev s' : step s ev = Some s' -> regular s' -> regular s.
Proof.
  unfold regular. intros Hs. destruct ev; cbn [step] in Hs;
    repeat (case_match; try discriminate Hs); simplify_eq/=; try done; try tauto;
    match goal with H : act _ _ _ ?a _ = Some _ |- _ => destruct a; cbn in H | _ => idtac end;
    repeat (case_match; try discriminate); simplify_eq/=; try done; unfold cancel_io_ex; repeat case_match; simpl;
    rewrite ?orb_false_iff; try tauto; by intros (_ & _ & [=] & _).
Qed.

Lemma win_holds_range a : (0 <= holds a <= 1)%Z.
Proof. destruct a; simpl; lia. Qed.
Lemma win_takes_range a : (0 <= takes a <= 1)%Z.
Proof. destruct a; simpl; lia. Qed.
Lemma win_insub_range a : (0 <= insub a <= 1)%Z.
Proof. destruct a as [| | | | | | | | | | |[]|[]|[]| | | | | | | | |]; simpl; lia. Qed.

Lemma win_holder_alone s i a : inv s -> agents s !! i = Some a -> holds a = 1%Z ->
  alone holds i (agents s) /\ alone takes i (agents s) /\ co s = None /\ waiting s = true /\ in_kernel s = false.
Proof.
  intros Hi Ha Hh. pose proof (iv_place _ Hi) as Hp. pose proof (iv_take _ Hi) as Ht.
  pose proof (zsum_lookup_le holds (agents s) i a ltac:(intros x; apply win_holds_range) Ha) as Hle.
  pose proof (zsum_nonneg takes (agents s) ltac:(intros x; apply win_takes_range)).
  pose proof (b2z_le1 (waiting s)). pose proof (b2z_nonneg (is_some (co s))). pose proof (b2z_nonneg (in_kernel s)).
  destruct (waiting s) eqn:Hw; simpl in Hp; [|lia]. destruct (co s) eqn:Hc; simpl in *; [lia|].
  split_and!; [|apply alone_zero; [apply win_takes_range|lia]|done..|destruct (in_kernel s); simpl in *; [lia|done]].
  eapply alone_of; [apply win_holds_range| |done..]. lia.
Qed.

Lemma win_taker_alone s i a : inv s -> agents s !! i = Some a -> takes a = 1%Z ->
  alone takes i (agents s) /\ (forall j, alone holds j (agents s)) /\ waiting s = true /\ in_kernel s = false.
Proof.
  intros Hi Ha Hh. pose proof (iv_place _ Hi) as Hp. pose proof (iv_take _ Hi) as Ht.
  pose proof (zsum_lookup_le takes (agents s) i a ltac:(intros x; apply win_takes_range) Ha) as Hle.
  pose proof (zsum_nonneg holds (agents s) ltac:(intros x; apply win_holds_range)).
  pose proof (b2z_le1 (waiting s)). pose proof (b2z_le1 (is_some (co s))). pose proof (b2z_nonneg (in_kernel s)).
  assert (is_some (co s) = true) as Hc by (destruct (is_some (co s)); simpl in *; [done|lia]). rewrite Hc in *. simpl in *.
  split_and!; [eapply alone_of; [apply win_takes_range| |done..]; lia|intros j; apply alone_zero; [apply win_holds_range|lia]|..].
  - destruct (waiting s); simpl in *; [done|lia].
  - destruct (in_kernel s); simpl in *; [lia|done].
Qed.

(** While the kernel has the call, the coroutine is in the [EventData]. *)
Lemma win_kernel_alone s k : inv s -> with_kernel (call_of s k) = true ->
  current s k /\ co s = Some k /\ waiting s = true /\ in_kernel s = true /\ (forall j, alone holds j (agents s)) /\ (forall j, alone takes j (agents s)).
Proof.
  intros Hi Hk. pose proof (iv_call _ Hi _ Hk) as Hc. pose proof (iv_place _ Hi) as Hp. pose proof (iv_take _ Hi) as Ht.
  assert (Hin : in_kernel s = true).
  { unfold in_kernel. rewrite last_lookup. unfold current in Hc. rewrite <- Hc. simpl.
    unfold call_of in Hk. by destruct (reqs s !! k). }
  pose proof (zsum_nonneg holds (agents s) ltac:(intros x; apply win_holds_range)).
  pose proof (zsum_nonneg takes (agents s) ltac:(intros x; apply win_takes_range)).
  pose proof (b2z_le1 (waiting s)). rewrite Hin in Ht. simpl in Ht. destruct (co s) as [j|] eqn:Hco; simpl in *; [|lia].
  assert (j = k) as -> by (pose proof (iv_co _ Hi _ Hco); unfold current in *; lia).
  split_and!; try done.
  - destruct (waiting s); simpl in *; [done|lia].
  - intros x. apply alone_zero; [apply win_holds_range|lia].
  - intros x. apply alone_zero; [apply win_takes_range|lia].
Qed.

Lemma win_waiting_present s k : waiting s = true -> current s k -> present s k = true.
Proof.
  unfold waiting, current, present. intros Hw Hk. rewrite last_lookup, <- Hk in Hw. simpl in Hw.
  destruct (reqs s !! k) as [q|]; [|done]. simpl. by destruct (phase_of q).
Qed.
Lemma win_held_waiting s k : waiting s = true -> current s k -> held s k = true.
Proof.
  unfold waiting, current, held, keeps. intros Hw Hk. rewrite last_lookup, <- Hk in Hw. simpl in Hw.
  destruct (reqs s !! k) as [q|]; [|done]. simpl. by destruct (phase_of q).
Qed.
Lemma win_alive_waiting s k : waiting s = true -> current s k -> alive s k = true.
Proof. intros Hw Hk. unfold alive. by rewrite (win_held_waiting _ _ Hw Hk). Qed.
Lemma win_alive_refers s i b k : agents s !! i = Some (CEx b k) -> alive s k = true.
Proof.
  intros Ha. unfold alive. apply orb_true_iff. right. apply existsb_exists. exists (CEx b k). split.
  - apply list_elem_of_In. by eapply list_elem_of_lookup_2.
  - apply Nat.eqb_refl.
Qed.
Lemma win_touch_true b s : b = true -> touch b s = s.
Proof. intros ->. destruct s; unfold touch; simpl. by rewrite orb_false_r. Qed.

Lemma win_owned_det s e k k' : owned s e k -> owned s e k' -> k = k'.
Proof. intros (n & Hn & <-) (n' & Hn' & <-). congruence. Qed.
Lemma win_current_det s k k' : current s k -> current s k' -> k = k'.
Proof. unfold current. lia. Qed.
Lemma win_owned_timed s e k : inv s -> owned s e k -> is_timed s k = true.
Proof. intros Hi (n & Hn & <-). by eapply tb_entry; [apply iv_table|]. Qed.
Lemma win_owned_target s e k : owned s e k -> target s e = k.
Proof. intros (n & Hn & <-). unfold target. by rewrite Hn. Qed.

(** ** Updates of the operations *)

Lemma win_proj_upd {A} (p : req -> A) (d : A) (k : nat) f (l : list req) (j : nat) :
  (forall q, p (f q) = p q) -> from_option p d (alter f k l !! j) = from_option p d (l !! j).
Proof.
  intros Hf. destruct (decide (k = j)) as [-> |Hne].
  - rewrite list_lookup_alter_eq. destruct (l !! j); simpl; [apply Hf|done].
  - by rewrite list_lookup_alter_ne.
Qed.
Lemma win_proj_upd_at {A} (p : req -> A) (d : A) (k : nat) f (l : list req) (j : nat) :
  from_option p d (alter f k l !! j) = if decide (k = j) then from_option (fun q => p (f q)) d (l !! j) else from_option p d (l !! j).
Proof.
  case_decide as Hk; [subst; rewrite list_lookup_alter_eq; by destruct (l !! j)|by rewrite list_lookup_alter_ne].
Qed.

(** The facts about [s'] when its operations are those of [s] with [k] updated by [f]. *)
Section upd.
Context (s s' : state) (k : nat) (f : req -> req) (Hreqs : reqs s' = alter f k (reqs s)).

Lemma win_upd_len : length (reqs s') = length (reqs s).
Proof. by rewrite Hreqs, length_alter. Qed.
Lemma win_upd_timed j : (forall q, timed (f q) = timed q) -> is_timed s' j = is_timed s j.
Proof. unfold is_timed. rewrite Hreqs. apply win_proj_upd. Qed.
Lemma win_upd_cancels j : (forall q, what (f q) = what q) -> cancels s' j = cancels s j.
Proof. intros Hf. unfold cancels. rewrite Hreqs. apply win_proj_upd. intros q. by rewrite Hf. Qed.
Lemma win_upd_timer j : (forall q, timer (f q) = timer q) -> timer_of s' j = timer_of s j.
Proof. unfold timer_of. rewrite Hreqs. apply win_proj_upd. Qed.
Lemma win_upd_call j : (forall q, call (f q) = call q) -> call_of s' j = call_of s j.
Proof. unfold call_of. rewrite Hreqs. apply win_proj_upd. Qed.
Lemma win_upd_guarded j : (forall q, guard (f q) = guard q) -> guarded s' j = guarded s j.
Proof. unfold guarded. rewrite Hreqs. apply win_proj_upd. Qed.
Lemma win_upd_present j : (forall q, is_gone (phase_of (f q)) = is_gone (phase_of q)) -> present s' j = present s j.
Proof. intros Hf. unfold present. rewrite Hreqs. apply win_proj_upd. intros q. by rewrite Hf. Qed.
Lemma win_upd_waiting : (forall q, phase_of (f q) = phase_of q) -> waiting s' = waiting s.
Proof.
  intros Hf. unfold waiting. rewrite Hreqs, last_alter. case_decide; [|done].
  destruct (last (reqs s)); simpl; [by rewrite Hf|done].
Qed.
Lemma win_upd_in_kernel : (forall q, with_kernel (call (f q)) = with_kernel (call q)) -> in_kernel s' = in_kernel s.
Proof.
  intros Hf. unfold in_kernel. rewrite Hreqs, last_alter. case_decide; [|done].
  destruct (last (reqs s)); simpl; [by rewrite Hf|done].
Qed.
Lemma win_upd_not_waiting p : current s k -> (forall q, phase_of (f q) = p) -> p <> Waiting -> waiting s' = false.
Proof.
  intros Hk Hf Hp. unfold waiting. rewrite Hreqs, last_alter, decide_True by done.
  destruct (last (reqs s)); simpl; [|done]. rewrite Hf. by destruct p.
Qed.
End upd.

(** ** What a step of one thread leaves to the others *)

Record kept (i : nat) (s s' : state) : Prop := {
  kp_len : length (reqs s') = length (reqs s);
  kp_timed : forall k, is_timed s' k = is_timed s k;
  kp_cancels : forall k, cancels s' k = cancels s k;
  kp_timer : alone holds i (agents s) \/ forall k, timer_of s k = None -> timer_of s' k = None;
  kp_entries : forall e n, entries s !! e = Some n -> exists n', entries s' !! e = Some n' /\ owner n' = owner n /\
    (data n = None -> data n' = None) /\ (i <> timer_id -> n' = n);
  kp_null : alone holds i (agents s) \/ forall e, data_of s' e = Some false -> data_of s e = Some false;
  kp_new : alone holds i (agents s) \/ forall e n', entries s' !! e = Some n' -> owned s e (owner n');
  kp_waiting : waiting s' = waiting s \/ forall j a, j <> i -> agents s !! j = Some a -> in_timeout a = false;
  kp_co : alone takes i (agents s) \/ co s' = co s;
  kp_call : (alone takes i (agents s) /\ alone holds i (agents s)) \/ forall k, call_of s' k = call_of s k;
  kp_guard : alone insub i (agents s) \/ forall k, guarded s k = true -> guarded s' k = true;
  kp_present : alone insub i (agents s) \/ forall k, present s k = true -> present s' k = true
}.

Lemma win_kept_owned i s s' e k : kept i s s' -> owned s e k -> owned s' e k.
Proof. intros Hk (n & Hn & <-). destruct (kp_entries _ _ _ Hk _ _ Hn) as (n' & Hn' & Ho & _). by exists n'. Qed.

Lemma win_kept_popped i s s' e k :
  kept i s s' -> owned s e k -> data_of s e = None -> owned s' e k /\ data_of s' e = None.
Proof.
  intros Hk (n & Hn & Ho) Hd. destruct (kp_entries _ _ _ Hk _ _ Hn) as (n' & Hn' & Ho' & Hd' & _). split.
  - exists n'. split; [done|congruence].
  - unfold data_of in *. rewrite Hn'. rewrite Hn in Hd. simpl in *. auto.
Qed.

Lemma win_kept_no_entry i s s' k : kept i s s' -> (alone holds i (agents s) -> False) -> no_entry s k -> no_entry s' k.
Proof.
  intros Hk Hal Hno e n' Hn' Ho. destruct (kp_new _ _ _ Hk) as [H|H]; [by apply Hal|].
  destruct (H _ _ Hn') as (n & Hn & Ho'). apply (Hno _ _ Hn). congruence.
Qed.

Lemma win_kept_agent i s s' j a :
  kept i s s' -> j <> i -> agents s !! j = Some a -> agent_ok s j a -> agent_ok s' j a.
Proof.
  intros Hk Hj Ha Hok.
  assert (Hcur : forall k, current s k -> current s' k) by (intros k; unfold current; by rewrite (kp_len _ _ _ Hk)).
  assert (Hal : forall f, alone f i (agents s) -> f a = 0%Z) by (intros f H; by apply (H j)).
  assert (Hsub : forall k, insub a = 1%Z -> holds a = 1%Z \/ takes a = 1%Z -> sub_ok s k -> sub_ok s' k).
  { intros k Hin Hht (H1 & H2 & H3). split_and!; [auto| |].
    - destruct (kp_call _ _ _ Hk) as [[H4 H5]|H]; [|by rewrite H]. apply Hal in H4, H5. destruct Hht; congruence.
    - rewrite (kp_cancels _ _ _ Hk). intros Hc. destruct (kp_guard _ _ _ Hk) as [H|H]; [apply Hal in H; congruence|auto]. }
  assert (Htm : forall k, holds a = 1%Z -> timer_of s k = None -> timer_of s' k = None).
  { intros k Hh. destruct (kp_timer _ _ _ Hk) as [H|H]; [apply Hal in H; congruence|auto]. }
  assert (Hco : takes a = 1%Z -> co s' = co s).
  { intros Ht. destruct (kp_co _ _ _ Hk) as [H|H]; [apply Hal in H; congruence|done]. }
  assert (Hno : forall k, holds a = 1%Z -> no_entry s k -> no_entry s' k).
  { intros k Hh. apply (win_kept_no_entry i); [done|]. intros H. apply Hal in H. congruence. }
  assert (Hins : forall k, insub a = 1%Z -> inside s k -> inside s' k).
  { intros k Hin (H1 & H2 & H3). split_and!; [auto| |].
    - destruct (kp_present _ _ _ Hk) as [H|H]; [apply Hal in H; congruence|auto].
    - destruct (kp_guard _ _ _ Hk) as [H|H]; [apply Hal in H; congruence|auto]. }
  assert (Hex : j = timer_id -> forall e n, entries s !! e = Some n -> entries s' !! e = Some n).
  { intros -> e n Hn. destruct (kp_entries _ _ _ Hk _ _ Hn) as (n' & Hn' & _ & _ & Heq). by rewrite <- Heq by done. }
  assert (Hto : in_timeout a = true -> waiting s = true -> waiting s' = true).
  { intros Hin Hw. destruct (kp_waiting _ _ _ Hk) as [->|H]; [done|]. specialize (H j _ Hj Ha). congruence. }
  destruct a as [|k|k|k e|k|k|k err|k err|k|k|k|[k|]|[k|]|[k|] x|k st|k st|k st e|k st e|k st|k p|e|e|];
    simpl in *; rewrite ?(kp_timed _ _ _ Hk), ?(kp_cancels _ _ _ Hk), ?Hco by done; try done;
    try (destruct_and?; split_and?; by auto).
  - destruct Hok as (H1 & H2 & H3 & H4). split_and!; [auto| |done|auto].
    destruct (kp_call _ _ _ Hk) as [[_ H5]|H]; [apply Hal in H5; done|by rewrite H].
  - destruct Hok as (H1 & H2 & H3 & H4). split_and!; [by auto..|by eapply win_kept_owned|].
    destruct (kp_null _ _ _ Hk) as [H|H]; [by apply Hal in H|auto].
  - destruct Hok as (H1 & H2 & H3 & k & H4 & H5). destruct (win_kept_popped _ _ _ _ _ Hk H5 H3). eauto 10.
  - destruct Hok as (H1 & H2 & H3 & k & H4 & H5). destruct (win_kept_popped _ _ _ _ _ Hk H5 H3). eauto 10.
Qed.

Lemma win_agents_move i s s' a' :
  inv s -> kept i s s' -> agents s' = <[i:=a']> (agents s) -> agent_ok s' i a' ->
  forall j a, agents s' !! j = Some a -> agent_ok s' j a.
Proof.
  intros Hi Hk Hag Hok j a Ha. rewrite Hag in Ha.
  apply lookup_insert_list in Ha as [(<- & -> & _)|[Hne Ha]]; [done|].
  eapply win_kept_agent; [done|congruence|done|]. by apply (iv_agent _ Hi).
Qed.

(** ** Moves that leave the table and the coroutine alone *)

Lemma win_kept_ext i s s' :
  length (reqs s') = length (reqs s) -> (forall k, is_timed s' k = is_timed s k) -> (forall k, cancels s' k = cancels s k) ->
  (forall k, timer_of s k = None -> timer_of s' k = None) -> entries s' = entries s -> waiting s' = waiting s ->
  alone takes i (agents s) \/ co s' = co s ->
  (alone takes i (agents s) /\ alone holds i (agents s)) \/ (forall k, call_of s' k = call_of s k) ->
  alone insub i (agents s) \/ (forall k, guarded s k = true -> guarded s' k = true) ->
  (forall k, present s' k = present s k) -> kept i s s'.
Proof.
  intros H1 H2 H3 H4 H5 H6 H7 H8 H9 H10. split; try tauto; rewrite ?H5; auto.
  - intros e n Hn. exists n. auto.
  - right. intros e. unfold data_of. by rewrite H5.
  - right. intros e n Hn. by exists n.
  - right. intros k. by rewrite H10.
Qed.

(** The thread's position is not what keeps an entry reachable. *)
Definition pins (a : pc) : bool := match a with TTimer _ | SReplace _ _ | PNull _ _ _ => true | _ => false end.

Lemma win_table_pins s s' :
  table_ok s -> (forall j x, agents s !! j = Some x -> pins x = true -> agents s' !! j = Some x) ->
  entries s' = entries s -> (forall k, timer_of s' k = timer_of s k) -> length (reqs s') = length (reqs s) ->
  (forall k, is_timed s' k = is_timed s k) ->
  (waiting s' = waiting s \/ (forall k, timer_of s k = None) /\ forall e n, entries s !! e = Some n -> data n <> Some true) ->
  table_ok s'.
Proof.
  intros Ht Hpin He Htm Hlen Htd Hw.
  assert (Hcur : forall k, current s k -> current s' k) by (intros k; unfold current; by rewrite Hlen).
  split; unfold owned; rewrite ?He.
  - intros e n Hn. rewrite Htd. by eapply tb_entry.
  - intros e e' k. apply (tb_unique _ Ht).
  - intros k e. rewrite Htm. intros H. destruct (tb_timer _ Ht k e H) as (H1 & H2 & H3 & H4).
    destruct Hw as [->|[H0 _]]; [|by rewrite H0 in H]. split_and!; [done|auto|done|].
    destruct H4 as [H4|H4]; [by left|right; by apply Hpin].
  - intros e n Hn Hd. destruct (tb_live _ Ht e n Hn Hd) as (H1 & H2 & H3). rewrite Htm.
    destruct Hw as [->|[_ H0]]; [|by destruct (H0 e n Hn)]. split_and!; [done|auto|].
    destruct H3 as [H3|[[j H3]|[v H3]]]; [by left|right; left; exists j|right; right; exists v]; by apply Hpin.
  - apply (tb_linked _ Ht).
Qed.

Lemma win_pins_move i a a' s s' :
  agents s !! i = Some a -> pins a = false -> agents s' = <[i:=a']> (agents s) ->
  forall j x, agents s !! j = Some x -> pins x = true -> agents s' !! j = Some x.
Proof. intros Ha Hp Hag j x Hj Hx. rewrite Hag, list_lookup_insert_ne; [done|]. intros ->. congruence. Qed.

Lemma win_inv_move i a a' s s' :
  inv s -> agents s !! i = Some a -> agents s' = <[i:=a']> (agents s) -> kept i s s' ->
  entries s' = entries s -> (forall k, timer_of s' k = timer_of s k) -> co s' = co s -> waiting s' = waiting s ->
  in_kernel s' = in_kernel s -> (forall k, with_kernel (call_of s' k) = with_kernel (call_of s k)) -> ub s' = ub s ->
  pins a = false -> holds a' = holds a -> takes a' = takes a -> (insub a' <= insub a)%Z -> agent_ok s' i a' -> inv s'.
Proof.
  intros Hi Ha Hag Hk He Htm Hco Hw Hin Hc Hub Hp Hh Ht Hs Hok. split.
  - by eapply win_agents_move.
  - rewrite Hag, (zsum_insert _ _ _ _ _ Ha), Hco, Hw, Hh. pose proof (iv_place _ Hi). lia.
  - rewrite Hag, (zsum_insert _ _ _ _ _ Ha), Hco, Hin, Ht. pose proof (iv_take _ Hi). lia.
  - rewrite Hag, (zsum_insert _ _ _ _ _ Ha). pose proof (iv_sub _ Hi). lia.
  - intros k. rewrite Hco. unfold current. rewrite (kp_len _ _ _ Hk). apply (iv_co _ Hi).
  - intros k. rewrite Hc. unfold current. rewrite (kp_len _ _ _ Hk). apply (iv_call _ Hi).
  - eapply win_table_pins; [by apply iv_table|by eapply win_pins_move|done|done|apply Hk|apply Hk|by left].
  - rewrite Hub. apply (iv_ub _ Hi).
Qed.

(** Facts about a state whose operations were updated. *)
Ltac upd_done :=
  intros; first
    [ done | eapply win_upd_len; reflexivity | eapply win_upd_timed; [reflexivity|done] | eapply win_upd_cancels; [reflexivity|done]
    | eapply win_upd_timer; [reflexivity|done] | eapply win_upd_call; [reflexivity|done] | eapply win_upd_guarded; [reflexivity|done]
    | eapply win_upd_present; [reflexivity|done] | eapply win_upd_waiting; [reflexivity|done] | eapply win_upd_in_kernel; [reflexivity|done]
    | erewrite win_upd_timer; [done|reflexivity|done] | erewrite win_upd_guarded; [done|reflexivity|done]
    | f_equal; eapply win_upd_call; [reflexivity|done] ].
Ltac kept_done := apply win_kept_ext; try upd_done; try (right; by upd_done).
(** The tactic for such a move: thread [i] goes on from [a]. *)
Ltac step_move Hi Ha :=
  eapply (win_inv_move _ _ _ _ _ Hi Ha); [reflexivity|kept_done|..]; try upd_done; try (simpl; lia).

Lemma win_sub_alone s i a : inv s -> agents s !! i = Some a -> insub a = 1%Z -> alone insub i (agents s).
Proof. intros Hi Ha Hin. eapply alone_of; [apply win_insub_range|apply (iv_sub _ Hi)|done..]. Qed.

Lemma win_guarded_set s k b : is_Some (reqs s !! k) -> guarded (upd k (set_guard b) s) k = b.
Proof. intros [q Hq]. unfold guarded, upd. simpl. by rewrite list_lookup_alter_eq, Hq. Qed.

Lemma win_current_lookup s k : current s k -> is_Some (reqs s !! k).
Proof. intros Hk. apply lookup_lt_is_Some_2. unfold current in Hk. lia. Qed.

(** ** The steps of [subscribe] *)

Lemma win_inv_sguard s i r k s' : inv s -> agents s !! i = Some (SGuard k) -> step_subscribe i r (SGuard k) s = Some s' -> inv s'.
Proof.
  intros Hi Ha Hs. simpl in Hs. injection Hs as <-. destruct (iv_agent _ Hi _ _ Ha) as (Hcur & Hc & Hcan & Hno).
  pose proof (win_sub_alone _ _ _ Hi Ha eq_refl) as Hal.
  assert (Hsub : sub_ok (goto i (add_next s k) (upd k (set_guard true) s)) k).
  { split_and!; [by unfold current; simpl; rewrite length_alter|erewrite win_upd_call; [done|reflexivity|done]|].
    intros _. apply win_guarded_set. by apply win_current_lookup. }
  unfold add_next in *. destruct (is_timed s k) eqn:Htd; step_move Hi Ha; try (by left); try done.
  split_and!; [done|by erewrite win_upd_timed; [|reflexivity|]|done].
Qed.

Lemma win_inv_scall s i r k s' : inv s -> agents s !! i = Some (SCall k) -> step_subscribe i r (SCall k) s = Some s' -> inv s'.
Proof.
  intros Hi Ha Hs. simpl in Hs. destruct (iv_agent _ Hi _ _ Ha) as ((Hcur & Hc & Hg) & Hco).
  destruct (win_taker_alone _ _ _ Hi Ha eq_refl) as (Halt & Halh & Hw & Hin).
  destruct r as [err|]; injection Hs as <-; [by step_move Hi Ha|].
  destruct (win_current_lookup _ _ Hcur) as [q Hq]. set (s' := goto _ _ _).
  assert (Hin' : in_kernel s' = true).
  { unfold in_kernel, s'. simpl. rewrite last_alter, decide_True by done. rewrite last_lookup, <- Hcur. simpl. by rewrite Hq. }
  assert (Hwk : forall j, with_kernel (call_of s' j) = true -> current s j).
  { intros j. unfold call_of, s'. simpl. rewrite win_proj_upd_at. case_decide as Hj; [by subst|]. apply (iv_call _ Hi). }
  assert (Hh : holds (after_call s k) = 0%Z /\ takes (after_call s k) = 0%Z /\ (insub (after_call s k) <= 1)%Z).
  { unfold after_call. destruct (cancels s k); simpl; lia. }
  destruct Hh as (Hh & Ht & Hs). split.
  - eapply win_agents_move; [done| |reflexivity|].
    + kept_done. left. split; [done|apply Halh].
    + unfold after_call. destruct (cancels s k) eqn:Hcan; [|done]. split_and!; simpl.
      * unfold current. simpl. by rewrite length_alter.
      * erewrite win_upd_present; [by apply win_waiting_present|reflexivity|done].
      * erewrite win_upd_guarded; [by apply Hg|reflexivity|done].
  - unfold s'. simpl. rewrite (zsum_insert _ _ _ _ _ Ha). erewrite win_upd_waiting; [|reflexivity|done].
    pose proof (iv_place _ Hi). simpl in *. lia.
  - rewrite Hin'. unfold s'. simpl. rewrite (zsum_insert _ _ _ _ _ Ha). pose proof (iv_take _ Hi) as Htk.
    rewrite Hin, Hco in Htk. rewrite Hco. simpl in *. lia.
  - unfold s'. simpl. rewrite (zsum_insert _ _ _ _ _ Ha). pose proof (iv_sub _ Hi). simpl in *. lia.
  - intros j. unfold current. simpl. rewrite length_alter. apply (iv_co _ Hi).
  - intros j Hj. unfold current. simpl. rewrite length_alter. by apply Hwk.
  - eapply win_table_pins; [by apply iv_table|by eapply win_pins_move|try upd_done..]. left. upd_done.
  - apply (iv_ub _ Hi).
Qed.

Lemma win_inv_ssetio s i r k s' :
  inv s -> regular s' -> agents s !! i = Some (SSetIo k) -> step_subscribe i r (SSetIo k) s = Some s' -> inv s'.
Proof.
  intros Hi Hreg Ha Hs. simpl in Hs. injection Hs as <-. pose proof (iv_agent _ Hi _ _ Ha) as Hok.
  destruct Hreg as (_ & _ & _ & Hl). simpl in Hl. apply orb_false_iff in Hl as [_ Hl]. apply negb_false_iff in Hl.
  rewrite (win_touch_true (held s k)) by done. step_move Hi Ha.
Qed.

Lemma win_inv_scheck s i r k s' : inv s -> agents s !! i = Some (SCheck k) -> step_subscribe i r (SCheck k) s = Some s' -> inv s'.
Proof.
  intros Hi Ha Hs. simpl in Hs. injection Hs as <-. pose proof (iv_agent _ Hi _ _ Ha) as Hok.
  destruct (canceled s); step_move Hi Ha.
Qed.

Lemma win_inv_sunguard s i r k s' : inv s -> agents s !! i = Some (SUnguard k) -> step_subscribe i r (SUnguard k) s = Some s' -> inv s'.
Proof.
  intros Hi Ha Hs. simpl in Hs. injection Hs as <-. pose proof (iv_agent _ Hi _ _ Ha) as Hok.
  pose proof (win_sub_alone _ _ _ Hi Ha eq_refl) as Hal.
  rewrite (win_touch_true _ s) by apply Hok. step_move Hi Ha. by left.
Qed.

Lemma win_inv_sadd s i r k s' : inv s -> agents s !! i = Some (SAdd k) -> step_subscribe i r (SAdd k) s = Some s' -> inv s'.
Proof.
  intros Hi Ha Hs. simpl in Hs. injection Hs as <-. pose proof (iv_table _ Hi) as Ht.
  destruct (win_holder_alone _ _ _ Hi Ha eq_refl) as (Hal & _ & Hco & Hw & _).
  destruct (iv_agent _ Hi _ _ Ha) as (Hsub & Htd & Hno). pose proof Hsub as (Hcur & _ & _).
  assert (Htm : forall j, timer_of s j = None).
  { intros j. destruct (timer_of s j) as [e|] eqn:Htm; [|done].
    destruct (tb_timer _ Ht _ _ Htm) as (_ & Hj & (n & Hn & Ho) & _). destruct (Hno _ _ Hn). rewrite Ho. by eapply win_current_det. }
  assert (Hlive : forall e n, entries s !! e = Some n -> data n <> Some true).
  { intros e n Hn Hd. destruct (tb_live _ Ht _ _ Hn Hd) as (_ & Hc & _). destruct (Hno _ _ Hn). by eapply win_current_det. }
  set (s' := goto _ _ _).
  assert (Hlk : forall e n, entries s' !! e = Some n ->
            entries s !! e = Some n \/ (e = length (entries s) /\ n = En k (Some true) true)).
  { intros e n Hn. unfold s' in Hn. simpl in Hn. apply lookup_app_Some in Hn as [?|[Hle Hn]]; [by left|].
    apply list_lookup_singleton_Some in Hn as [? <-]. right. split; [lia|done]. }
  assert (Hold : forall e n, entries s !! e = Some n -> entries s' !! e = Some n).
  { intros e n Hn. unfold s'. simpl. rewrite lookup_app_l; [done|]. by eapply lookup_lt_Some. }
  assert (Hnew : entries s' !! length (entries s) = Some (En k (Some true) true)) by (apply list_lookup_middle; done).
  split.
  - eapply win_agents_move; [done| |reflexivity|].
    + split; auto. intros e n Hn. exists n. auto.
    + simpl. unfold data_of. rewrite Hnew. split_and!; [done|apply Htm|by eexists|done].
  - simpl. rewrite (zsum_insert _ _ _ _ _ Ha). pose proof (iv_place _ Hi). unfold waiting in *. simpl in *. lia.
  - simpl. rewrite (zsum_insert _ _ _ _ _ Ha). pose proof (iv_take _ Hi). unfold in_kernel in *. simpl in *. lia.
  - simpl. rewrite (zsum_insert _ _ _ _ _ Ha). pose proof (iv_sub _ Hi). simpl in *. lia.
  - apply (iv_co _ Hi).
  - apply (iv_call _ Hi).
  - split.
    + intros e n [Hn|[_ ->]]%Hlk; [by apply (tb_entry _ Ht e)|done].
    + intros e e' j (n & Hn & Ho) (n' & Hn' & Ho'). destruct (Hlk _ _ Hn) as [Hn1|[-> ->]], (Hlk _ _ Hn') as [Hn1'|[-> ->]].
      * eapply (tb_unique _ Ht); [by exists n|by exists n'].
      * simpl in Ho'. subst. by destruct (Hno _ _ Hn1).
      * simpl in Ho. subst. by destruct (Hno _ _ Hn1').
      * done.
    + intros j e H. change (timer_of s j = Some e) in H. by rewrite Htm in H.
    + intros e n [Hn|[-> ->]]%Hlk Hd; [by destruct (Hlive _ _ Hn)|]. split_and!; [done|done|]. right. left. exists i.
      simpl. apply list_lookup_insert_eq. by eapply lookup_lt_Some.
    + intros e n [Hn|[_ ->]]%Hlk; [by apply (tb_linked _ Ht e)|done].
  - apply (iv_ub _ Hi).
Qed.

Lemma win_timer_set s k o j : is_Some (reqs s !! k) -> timer_of (upd k (set_timer o) s) j = if decide (k = j) then o else timer_of s j.
Proof.
  intros [q Hq]. unfold timer_of, upd. simpl. rewrite win_proj_upd_at. case_decide as Hj; [|done]. subst. by rewrite Hq.
Qed.

Lemma win_inv_sreplace s i r k e s' :
  inv s -> regular s' -> agents s !! i = Some (SReplace k e) -> step_subscribe i r (SReplace k e) s = Some s' -> inv s'.
Proof.
  intros Hi Hreg Ha Hs. simpl in Hs. injection Hs as <-. pose proof (iv_table _ Hi) as Ht.
  destruct (win_holder_alone _ _ _ Hi Ha eq_refl) as (Hal & _ & Hco & Hw & _).
  destruct (iv_agent _ Hi _ _ Ha) as (Hsub & Htm & (n & Hn & Ho) & Hd). pose proof Hsub as (Hcur & Hc & Hg).
  destruct Hreg as (Hearly & _). simpl in Hearly. apply orb_false_iff in Hearly as [_ Hp].
  apply negb_false_iff, bool_decide_eq_true in Hp.
  assert (Hlive : n = En k (Some true) true).
  { pose proof (tb_linked _ Ht _ _ Hn) as Hl. unfold data_of in *. rewrite Hn in *. simpl in *.
    destruct n as [o [[]|] l]; simpl in *; subst; done. }
  set (s' := goto _ _ _).
  assert (Htm' : forall j, timer_of s' j = if decide (k = j) then Some e else timer_of s j).
  { intros j. apply (win_timer_set s). by apply win_current_lookup. }
  assert (Hw' : waiting s' = true) by (by erewrite win_upd_waiting; [|reflexivity|]).
  assert (Hcur' : forall j, current s j -> current s' j) by (intros j; unfold current; simpl; by rewrite length_alter).
  split.
  - eapply win_agents_move; [done| |reflexivity|].
    + split; try upd_done; auto; try (right; upd_done).
      * intros e' n' Hn'. exists n'. auto.
      * left. by apply (win_upd_waiting s s' k (set_timer (Some e))).
      * right. intros j. by rewrite (win_upd_present s s' k (set_timer (Some e))).
    + split_and!; [auto|erewrite win_upd_call; [done|reflexivity|done]|].
      erewrite win_upd_cancels by (reflexivity || done). erewrite win_upd_guarded by (reflexivity || done). done.
  - rewrite Hw'. simpl. rewrite (zsum_insert _ _ _ _ _ Ha). pose proof (iv_place _ Hi) as Hpl. rewrite Hw in Hpl. simpl in *. lia.
  - erewrite (win_upd_in_kernel s) by (reflexivity || done). simpl. rewrite (zsum_insert _ _ _ _ _ Ha). pose proof (iv_take _ Hi). simpl in *. lia.
  - simpl. rewrite (zsum_insert _ _ _ _ _ Ha). pose proof (iv_sub _ Hi). simpl in *. lia.
  - intros j Hj. apply Hcur'. by apply (iv_co _ Hi).
  - intros j. erewrite (win_upd_call s) by (reflexivity || done). intros Hj. apply Hcur'. by apply (iv_call _ Hi).
  - split.
    + intros e' n' Hn'. erewrite win_upd_timed by (reflexivity || done). by apply (tb_entry _ Ht e').
    + apply (tb_unique _ Ht).
    + intros j e'. rewrite Htm'. case_decide as Hj.
      * intros [= <-]. subst j. split_and!; [done|auto|by exists n|]. left. simpl. congruence.
      * intros H. destruct (tb_timer _ Ht _ _ H) as (_ & H2 & _). destruct Hj. by eapply win_current_det.
    + intros e' n' Hn' Hd'. destruct (tb_live _ Ht _ _ Hn' Hd') as (H1 & H2 & H3). split_and!; [done|auto|].
      left. rewrite Htm'. pose proof (win_current_det _ _ _ Hcur H2) as Heq. rewrite decide_True by done. f_equal.
      apply (tb_unique _ Ht e e' k); [by exists n|]. by exists n'.
    + apply (tb_linked _ Ht).
  - apply (iv_ub _ Hi).
Qed.

(** The coroutine goes into or out of the [EventData]. *)
Lemma win_inv_hand i a a' s s' :
  inv s -> agents s !! i = Some a -> agents s' = <[i:=a']> (agents s) -> entries s' = entries s -> reqs s' = reqs s ->
  (holds a + takes a = 1)%Z -> (holds a' + b2z (is_some (co s')) = 1)%Z -> (takes a' = b2z (is_some (co s')))%Z ->
  (forall k, co s' = Some k -> current s k) -> ub s' = ub s -> pins a = false -> (insub a' <= insub a)%Z ->
  agent_ok s' i a' -> inv s'.
Proof.
  intros Hi Ha Hag He Hr Hh Hh' Ht' Hco Hub Hp Hs Hok. pose proof (iv_table _ Hi) as Ht.
  pose proof (iv_place _ Hi) as Hpl. pose proof (iv_take _ Hi) as Htk.
  pose proof (win_holds_range a). pose proof (win_takes_range a).
  assert (Hex : alone holds i (agents s) /\ alone takes i (agents s) /\ waiting s = true /\ in_kernel s = false /\ zsum holds (agents s) = holds a /\
    zsum takes (agents s) = takes a).
  { destruct (decide (holds a = 1%Z)) as [E|E].
    - destruct (win_holder_alone _ _ _ Hi Ha E) as (H1 & H2 & H3 & H4 & H5). rewrite H3, H4, H5 in *. simpl in *. split_and!; try done; lia.
    - destruct (win_taker_alone _ _ _ Hi Ha ltac:(lia)) as (H1 & H2 & H3 & H4). rewrite H3, H4 in *.
      assert (is_some (co s) = true) as Hc.
      { pose proof (zsum_lookup_le takes (agents s) i a ltac:(intros x; apply win_takes_range) Ha).
        destruct (is_some (co s)); simpl in *; [done|lia]. }
      rewrite Hc in *. simpl in *. split_and!; try done; lia. }
  destruct Hex as (Hah & Hat & Hw & Hin & Hz & Hz').
  assert (Hw' : waiting s' = waiting s) by (unfold waiting; by rewrite Hr).
  assert (Hin' : in_kernel s' = in_kernel s) by (unfold in_kernel; by rewrite Hr).
  assert (Hcur : forall k, current s k <-> current s' k) by (intros k; unfold current; by rewrite Hr).
  assert (Htd : forall k, is_timed s' k = is_timed s k) by (intros k; unfold is_timed; by rewrite Hr).
  assert (Htm : forall k, timer_of s' k = timer_of s k) by (intros k; unfold timer_of; by rewrite Hr).
  split.
  - eapply win_agents_move; [done| |done..]. apply win_kept_ext; try done; try (by rewrite Hr); auto.
    + intros k. unfold cancels. by rewrite Hr.
    + intros k. by rewrite Htm.
    + right. intros k. unfold guarded. by rewrite Hr.
    + intros k. unfold present. by rewrite Hr.
  - rewrite Hag, (zsum_insert _ _ _ _ _ Ha), Hw', Hw, Hz. simpl. lia.
  - rewrite Hag, (zsum_insert _ _ _ _ _ Ha), Hin', Hin, Hz'. simpl. lia.
  - rewrite Hag, (zsum_insert _ _ _ _ _ Ha). pose proof (iv_sub _ Hi). lia.
  - intros k Hk. apply Hcur. auto.
  - intros k. unfold call_of. rewrite Hr. intros Hk. apply Hcur. by apply (iv_call _ Hi).
  - eapply win_table_pins; [done|by eapply win_pins_move|done|done|by rewrite Hr|done|by left].
  - rewrite Hub. apply (iv_ub _ Hi).
Qed.

Lemma win_inv_sstore s i r k s' : inv s -> agents s !! i = Some (SStore k) -> step_subscribe i r (SStore k) s = Some s' -> inv s'.
Proof.
  intros Hi Ha Hs. simpl in Hs. injection Hs as <-. pose proof (iv_agent _ Hi _ _ Ha) as Hsub.
  eapply (win_inv_hand i _ (SCall k) s); try done. intros j [= <-]. apply Hsub.
Qed.

Lemma win_inv_sfail s i r k err s' :
  inv s -> regular s' -> agents s !! i = Some (SFail k err) -> step_subscribe i r (SFail k err) s = Some s' -> inv s'.
Proof.
  intros Hi Hreg Ha Hs. simpl in Hs. destruct (iv_agent _ Hi _ _ Ha) as (Hsub & Hco).
  destruct (win_taker_alone _ _ _ Hi Ha eq_refl) as (_ & _ & Hw & _).
  rewrite bool_decide_true in Hs by done. injection Hs as <-.
  destruct Hreg as (_ & Hf & _). simpl in Hf. apply orb_false_iff in Hf as [_ Hf].
  rewrite win_touch_true by (apply win_alive_waiting; [done|apply Hsub]).
  by eapply (win_inv_hand i _ (SFailRun k err) s).
Qed.

(** The coroutine is resumed. *)
Lemma win_inv_deliver i a a' k p s s' :
  inv s -> agents s !! i = Some a -> s' = goto i a' (upd k (set_phase (Woken p)) s) ->
  holds a = 1%Z -> pins a = false -> current s k -> timer_of s k = None ->
  (forall j x, j <> i -> agents s !! j = Some x -> in_timeout x = false) ->
  holds a' = 0%Z -> takes a' = 0%Z -> (insub a' <= insub a)%Z -> agent_ok s' i a' -> inv s'.
Proof.
  intros Hi Ha -> Hh Hp Hcur Htm Hto Hh' Ht' Hs Hok. set (s' := goto _ _ _) in *. pose proof (iv_table _ Hi) as Ht.
  destruct (win_holder_alone _ _ _ Hi Ha Hh) as (Hah & Hat & Hco & Hw & Hin).
  assert (Hw' : waiting s' = false).
  { by apply (win_upd_not_waiting s s' k (set_phase (Woken p)) eq_refl (Woken p)). }
  assert (Htmr : forall j, timer_of s' j = None).
  { intros j. rewrite (win_upd_timer s s' k (set_phase (Woken p))) by done. destruct (timer_of s j) as [e|] eqn:Hj; [|done].
    destruct (tb_timer _ Ht _ _ Hj) as (_ & Hc & _). by rewrite (win_current_det _ _ _ Hcur Hc), Hj in Htm. }
  assert (Hlive : forall e n, entries s !! e = Some n -> data n <> Some true).
  { intros e n Hn Hd. destruct (tb_live _ Ht _ _ Hn Hd) as (_ & Hc & [H|[[j H]|[v H]]]).
    - by rewrite <- (win_current_det _ _ _ Hcur Hc), Htm in H.
    - destruct (decide (j = i)) as [->|Hne]; [|by specialize (Hah _ _ Hne H)].
      rewrite Ha in H. injection H as ->. done.
    - destruct (decide (timer_id = i)) as [Heq|Hne]; [|by specialize (Hah _ _ Hne H)].
      rewrite <- Heq, H in Ha. injection Ha as <-. done. }
  assert (Hlen : length (reqs s') = length (reqs s)) by (simpl; apply length_alter).
  split.
  - eapply win_agents_move; [done| |reflexivity|done]. split; try upd_done; auto.
    + intros e' n' Hn'. exists n'. auto.
    + right. upd_done.
    + right. intros j. unfold present, s'. simpl. rewrite win_proj_upd_at. case_decide; [|done].
      by destruct (reqs s !! j).
  - rewrite Hw'. simpl. rewrite (zsum_insert _ _ _ _ _ Ha), Hco, Hh'. pose proof (iv_place _ Hi) as Hpl.
    rewrite Hw, Hco in Hpl. simpl in *. lia.
  - rewrite (win_upd_in_kernel s s' k (set_phase (Woken p))) by done. simpl. rewrite (zsum_insert _ _ _ _ _ Ha), Ht'.
    pose proof (iv_take _ Hi). assert (takes a = 0%Z) by (destruct a; simpl in *; done). lia.
  - simpl. rewrite (zsum_insert _ _ _ _ _ Ha). pose proof (iv_sub _ Hi). lia.
  - intros j Hj. unfold current. rewrite Hlen. by apply (iv_co _ Hi).
  - intros j. rewrite (win_upd_call s s' k (set_phase (Woken p))) by done. unfold current. rewrite Hlen. apply (iv_call _ Hi).
  - split.
    + intros e n Hn. rewrite (win_upd_timed s s' k (set_phase (Woken p))) by done. by apply (tb_entry _ Ht e).
    + apply (tb_unique _ Ht).
    + intros j e. by rewrite Htmr.
    + intros e n Hn Hd. by destruct (Hlive e n Hn).
    + apply (tb_linked _ Ht).
  - apply (iv_ub _ Hi).
Qed.

(** A timeout is handled only for an operation that has one. *)
Lemma win_timeout_timed s k : inv s -> current s k -> is_timed s k = false ->
  timer_of s k = None /\ forall j x, agents s !! j = Some x -> in_timeout x = false.
Proof.
  intros Hi Hc Htd. split.
  - destruct (timer_of s k) as [e|] eqn:Htm; [|done]. destruct (tb_timer _ (iv_table _ Hi) _ _ Htm) as (_ & _ & Ho & _).
    apply win_owned_timed in Ho; [congruence|done].
  - intros j x Hj. destruct (in_timeout x) eqn:Hin; [|done]. pose proof (iv_agent _ Hi _ _ Hj) as Hok.
    destruct x; try discriminate Hin; destruct Hok as (_ & _ & _ & k' & Hk' & Ho); apply win_owned_timed in Ho; try done;
      rewrite (win_current_det _ _ _ Hk' Hc) in Ho; congruence.
Qed.

Lemma win_inv_sfailrun s i r k err s' :
  inv s -> agents s !! i = Some (SFailRun k err) -> step_subscribe i r (SFailRun k err) s = Some s' -> inv s'.
Proof.
  intros Hi Ha Hs. destruct (iv_agent _ Hi _ _ Ha) as (Hsub & Htd). pose proof Hsub as (Hcur & _ & Hg). simpl in Hs.
  injection Hs as <-. destruct (win_timeout_timed _ _ Hi Hcur Htd) as [Htm Hto].
  eapply (win_inv_deliver i (SFailRun k err)); try done; [by intros j x _; apply Hto|by destruct (cancels s k)..|].
  destruct (cancels s k) eqn:Hcan; [|done]. split_and!.
  - unfold current. simpl. by rewrite length_alter.
  - destruct (win_current_lookup _ _ Hcur) as [q Hq]. unfold present. simpl. by rewrite list_lookup_alter_eq, Hq.
  - erewrite win_upd_guarded; [by apply Hg|reflexivity|done].
Qed.

(** ** Cancellation *)

Lemma win_cancel_io_ex_with k s j : with_kernel (call_of (cancel_io_ex k s) j) = with_kernel (call_of s j).
Proof.
  unfold cancel_io_ex. destruct (call_of s k) eqn:Hc; try done. unfold call_of, upd in *. simpl. rewrite win_proj_upd_at.
  case_decide as Hj; [|done]. subst j. destruct (reqs s !! k) as [q|]; simpl in *; [by rewrite Hc|done].
Qed.

(** [CancelIoEx] by thread [i]. *)
Lemma win_inv_cancel_io i a a' k s :
  inv s -> agents s !! i = Some a -> pins a = false -> holds a' = holds a -> takes a' = takes a -> (insub a' <= insub a)%Z ->
  agent_ok (goto i a' (cancel_io_ex k s)) i a' -> inv (goto i a' (cancel_io_ex k s)).
Proof.
  intros Hi Ha Hp Hh Ht Hs Hok. set (s' := goto _ _ _).
  assert (Hent : entries s' = entries s) by (unfold s', cancel_io_ex; simpl; by destruct (call_of s k)).
  assert (Hkept : kept i s s').
  { destruct (with_kernel (call_of s k)) eqn:Hw.
    - destruct (win_kernel_alone _ _ Hi Hw) as (_ & _ & _ & _ & H1 & H2). unfold s', cancel_io_ex.
      destruct (call_of s k); try discriminate Hw; kept_done; by left.
    - unfold s', cancel_io_ex. destruct (call_of s k); try discriminate Hw; kept_done. }
  assert (Hin : in_kernel s' = in_kernel s).
  { unfold s', cancel_io_ex. destruct (call_of s k) as [|asked| |] eqn:Hc; try done. unfold in_kernel. simpl. rewrite last_alter.
    case_decide as Hk; [|done]. rewrite last_lookup, <- Hk. simpl. unfold call_of in Hc.
    destruct (reqs s !! k); simpl in *; [by rewrite Hc|done]. }
  eapply (win_inv_move _ _ _ _ _ Hi Ha); [|exact Hkept|exact Hent|..|exact Hok];
    try (unfold s', cancel_io_ex; simpl; destruct (call_of s k); by try upd_done); try done.
  - intros j. apply (win_cancel_io_ex_with k s).
Qed.

Lemma win_cancel_io_ex_inside i a k j s : inside s j -> inside (goto i a (cancel_io_ex k s)) j.
Proof.
  intros (H1 & H2 & H3). unfold cancel_io_ex. destruct (call_of s k); try done. split_and!.
  - unfold current. simpl. by rewrite length_alter.
  - erewrite win_upd_present; [exact H2|reflexivity|done].
  - erewrite win_upd_guarded; [exact H3|reflexivity|done].
Qed.

Lemma win_inv_cancel s i a s' :
  inv s -> agents s !! i = Some a -> step_cancel i a s = Some s' -> inv s'.
Proof.
  intros Hi Ha Hs. pose proof (iv_agent _ Hi _ _ Ha) as Hok. destruct a as [| | | | | | | | | | |b|b|b k| | | | | | | | |]; try discriminate Hs.
  - injection Hs as <-. destruct b; step_move Hi Ha.
  - simpl in Hs. destruct (cslot s) as [k|]; injection Hs as <-; destruct b; step_move Hi Ha.
  - simpl in Hs. rewrite win_touch_true in Hs by (by eapply win_alive_refers). injection Hs as <-.
    destruct b; (eapply (win_inv_cancel_io _ _ _ _ _ Hi Ha); [done..|]); [|done]. by apply win_cancel_io_ex_inside.
Qed.

(** ** The worker of the list *)

Lemma win_inv_pco s i st k b last s' :
  inv s -> agents s !! i = Some (PCo k st) -> step_select i b last (PCo k st) s = Some s' -> inv s'.
Proof.
  intros Hi Ha Hs. destruct (iv_agent _ Hi _ _ Ha) as (Ht & Hcur & Hco). simpl in Hs.
  rewrite bool_decide_true in Hs by done. injection Hs as <-.
  destruct (win_taker_alone _ _ _ Hi Ha eq_refl) as (_ & _ & Hw & _).
  rewrite win_touch_true by (by apply win_alive_waiting).
  by eapply (win_inv_hand i _ (PTimer k st) s).
Qed.

Lemma win_inv_pstatus s i st k b last s' :
  inv s -> agents s !! i = Some (PStatus k st) -> step_select i b last (PStatus k st) s = Some s' -> inv s'.
Proof.
  intros Hi Ha Hs. pose proof (iv_agent _ Hi _ _ Ha) as Hok. simpl in Hs. injection Hs as <-.
  destruct (win_holder_alone _ _ _ Hi Ha eq_refl) as (_ & _ & _ & Hw & _).
  rewrite win_touch_true by (apply win_alive_waiting; [done|apply Hok]). step_move Hi Ha.
Qed.

Lemma win_inv_prun s i p k b last s' :
  inv s -> agents s !! i = Some (PRun k p) -> step_select i b last (PRun k p) s = Some s' -> inv s'.
Proof.
  intros Hi Ha Hs. destruct (iv_agent _ Hi _ _ Ha) as (-> & Hcur & Htm). simpl in Hs. injection Hs as <-.
  eapply (win_inv_deliver timer_id (PRun k p)); try done.
  intros j x Hne Hx. destruct (in_timeout x) eqn:Hin; [|done]. pose proof (iv_agent _ Hi _ _ Hx) as Hok.
  destruct x; try discriminate Hin; destruct Hok; congruence.
Qed.

(** The operations are the same except for a handle that is cleared. *)
Record cleared (s s' : state) : Prop := {
  cl_len : length (reqs s') = length (reqs s);
  cl_timed : forall k, is_timed s' k = is_timed s k;
  cl_cancels : forall k, cancels s' k = cancels s k;
  cl_call : forall k, call_of s' k = call_of s k;
  cl_guard : forall k, guarded s' k = guarded s k;
  cl_present : forall k, present s' k = present s k;
  cl_waiting : waiting s' = waiting s;
  cl_kernel : in_kernel s' = in_kernel s
}.

Lemma win_cleared_same s s' : reqs s' = reqs s -> cleared s s'.
Proof.
  intros H. split; unfold is_timed, cancels, call_of, guarded, present, waiting, in_kernel; by rewrite H.
Qed.
Lemma win_cleared_timer s s' k o : reqs s' = alter (set_timer o) k (reqs s) -> cleared s s'.
Proof.
  intros H. split; intros.
  - by eapply win_upd_len.
  - by eapply win_upd_timed.
  - by eapply win_upd_cancels.
  - by eapply win_upd_call.
  - by eapply win_upd_guarded.
  - by eapply win_upd_present.
  - by eapply win_upd_waiting.
  - by eapply win_upd_in_kernel.
Qed.

Lemma win_set_data_lookup e d l s e' n : entries s !! e' = Some n ->
  exists n', entries (set_data e d l s) !! e' = Some n' /\ owner n' = owner n /\ (e' = e -> n' = En (owner n) d l) /\ (e' <> e -> n' = n).
Proof.
  intros Hn. simpl. destruct (decide (e = e')) as [->|Hne].
  - rewrite list_lookup_alter_eq, Hn. simpl. by eexists.
  - rewrite list_lookup_alter_ne by done. exists n. split_and!; [done|done|congruence|done].
Qed.
Lemma win_lookup_set_data e d l s e' n' : entries (set_data e d l s) !! e' = Some n' ->
  exists n, entries s !! e' = Some n /\ owner n' = owner n /\ (e' = e -> n' = En (owner n) d l) /\ (e' <> e -> n' = n).
Proof.
  intros Hn'. destruct (entries s !! e') as [n|] eqn:Hn.
  - exists n. split; [done|]. destruct (win_set_data_lookup e d l s e' n Hn) as (m & Hm & H). by simplify_eq.
  - apply lookup_lt_Some in Hn'. simpl in Hn'. rewrite length_alter in Hn'. apply lookup_ge_None in Hn. lia.
Qed.
Lemma win_owned_set_data e d l s e' k : owned (set_data e d l s) e' k <-> owned s e' k.
Proof.
  split; intros (n & Hn & <-).
  - destruct (win_lookup_set_data _ _ _ _ _ _ Hn) as (n0 & Hn0 & -> & _). by exists n0.
  - destruct (win_set_data_lookup e d l _ _ _ Hn) as (n' & Hn' & <- & _). by exists n'.
Qed.
Lemma win_data_set_data e d l s : entries s !! e <> None -> data_of (set_data e d l s) e = d.
Proof. unfold data_of. simpl. rewrite list_lookup_alter_eq. by destruct (entries s !! e). Qed.

(** The worker of the list moves while no entry but [e] is live: it changes [e], or
    clears the handle. *)
Lemma win_inv_worker a a' s s' e d l :
  inv s -> agents s !! timer_id = Some a -> agents s' = <[timer_id:=a']> (agents s) ->
  entries s' = entries (set_data e d l s) -> cleared s s' -> (forall k, timer_of s' k = None) -> co s' = co s -> ub s' = ub s ->
  holds a' = holds a -> takes a' = takes a -> (insub a' <= insub a)%Z -> d <> Some true -> is_some d = l ->
  (d = Some false -> holds a = 1%Z) -> (data_of s e = None -> d = None) ->
  (forall e' n, e' <> e -> entries s !! e' = Some n -> data n <> Some true) ->
  agent_ok s' timer_id a' -> inv s'.
Proof.
  intros Hi Ha Hag He Hcl Htm Hco Hub Hh Htk Hin Hd Hl Hdh Hdn Hno Hok. pose proof (iv_table _ Hi) as Ht.
  assert (How : forall e' k, owned s' e' k <-> owned s e' k) by (intros e' k; unfold owned at 1; rewrite He; apply win_owned_set_data).
  split.
  - eapply win_agents_move; [done| |done..]. destruct Hcl. split; rewrite ?He; auto; try (by right; intros; congruence).
    + intros e' n Hn. destruct (win_set_data_lookup e d l _ _ _ Hn) as (n' & Hn' & Ho & Heq & Hne). exists n'.
      split_and!; [done|done| |done]. intros Hdn'. destruct (decide (e' = e)) as [->|]; [|by rewrite Hne].
      rewrite Heq by done. simpl. apply Hdn. unfold data_of. by rewrite Hn.
    + destruct (decide (d = Some false)) as [Hdf|Hdf].
      * left. eapply win_holder_alone; [done|exact Ha|auto].
      * right. intros e'. unfold data_of. rewrite He. destruct (entries (set_data e d l s) !! e') as [n|] eqn:Hn; [|done]. simpl.
        destruct (win_lookup_set_data _ _ _ _ _ _ Hn) as (n0 & Hn0 & _ & Heq & Hne). rewrite Hn0. simpl.
        destruct (decide (e' = e)) as [->|]; [rewrite Heq by done; done|by rewrite Hne].
    + right. intros e' n Hn. destruct (win_lookup_set_data _ _ _ _ _ _ Hn) as (n0 & Hn0 & -> & _). by exists n0.
  - rewrite Hag, (zsum_insert _ _ _ _ _ Ha), Hco, (cl_waiting _ _ Hcl), Hh. pose proof (iv_place _ Hi). lia.
  - rewrite Hag, (zsum_insert _ _ _ _ _ Ha), Hco, (cl_kernel _ _ Hcl), Htk. pose proof (iv_take _ Hi). lia.
  - rewrite Hag, (zsum_insert _ _ _ _ _ Ha). pose proof (iv_sub _ Hi). lia.
  - intros k. rewrite Hco. unfold current. rewrite (cl_len _ _ Hcl). apply (iv_co _ Hi).
  - intros k. rewrite (cl_call _ _ Hcl). unfold current. rewrite (cl_len _ _ Hcl). apply (iv_call _ Hi).
  - split.
    + intros e' n Hn. rewrite (cl_timed _ _ Hcl). rewrite He in Hn.
      destruct (win_lookup_set_data _ _ _ _ _ _ Hn) as (n0 & Hn0 & -> & _). by eapply tb_entry.
    + intros e1 e2 k. rewrite !How. apply (tb_unique _ Ht).
    + intros k e'. by rewrite Htm.
    + intros e' n Hn Hdt. rewrite He in Hn. destruct (win_lookup_set_data _ _ _ _ _ _ Hn) as (n0 & Hn0 & _ & Heq & Hne).
      destruct (decide (e' = e)) as [->|Hx]; [rewrite Heq in Hdt by done; done|].
      rewrite Hne in Hdt by done. by destruct (Hno _ _ Hx Hn0).
    + intros e' n Hn. rewrite He in Hn. destruct (win_lookup_set_data _ _ _ _ _ _ Hn) as (n0 & Hn0 & _ & Heq & Hne).
      destruct (decide (e' = e)) as [->|Hx]; [by rewrite Heq|]. rewrite Hne by done. by eapply tb_linked.
  - rewrite Hub. apply (iv_ub _ Hi).
Qed.

(** Only the last operation has a handle. *)
Lemma win_timer_none s k : inv s -> current s k -> timer_of s k = None -> forall j, timer_of s j = None.
Proof.
  intros Hi Hc Htm j. destruct (timer_of s j) as [e|] eqn:Hj; [|done].
  destruct (tb_timer _ (iv_table _ Hi) _ _ Hj) as (_ & Hcj & _). by rewrite (win_current_det _ _ _ Hc Hcj), Hj in Htm.
Qed.

(** While the worker of the list has the coroutine and the handle is gone, the only
    live entry is the one the worker is about to change. *)
Lemma win_no_live s a k e' n :
  inv s -> agents s !! timer_id = Some a -> holds a = 1%Z -> current s k -> timer_of s k = None ->
  entries s !! e' = Some n -> data n = Some true -> (exists st, a = PNull (owner n) st e') \/ a = SReplace (owner n) e'.
Proof.
  intros Hi Ha Hh Hc Htm Hn Hd. destruct (win_holder_alone _ _ _ Hi Ha Hh) as (Hal & _).
  destruct (tb_live _ (iv_table _ Hi) _ _ Hn Hd) as (_ & _ & [H|[[j H]|[v H]]]).
  - by rewrite (win_timer_none _ _ Hi Hc Htm) in H.
  - destruct (decide (j = timer_id)) as [Heq|Hne]; [rewrite Heq in H; right; congruence|by specialize (Hal _ _ Hne H)].
  - left. exists v. congruence.
Qed.

Lemma win_inv_ptimer s i st k b last s' :
  inv s -> agents s !! i = Some (PTimer k st) -> step_select i b last (PTimer k st) s = Some s' -> inv s'.
Proof.
  intros Hi Ha Hs. simpl in Hs. pose proof (iv_table _ Hi) as Ht.
  destruct (win_holder_alone _ _ _ Hi Ha eq_refl) as (Hal & _ & Hco & Hw & Hin). destruct (iv_agent _ Hi _ _ Ha) as (-> & Hcur).
  rewrite (win_touch_true _ s) in Hs by (by apply win_alive_waiting).
  destruct (timer_of s k) as [e|] eqn:Htm; injection Hs as <-; [|step_move Hi Ha; by split_and!].
  destruct (tb_timer _ Ht _ _ Htm) as (_ & _ & Ho & Hl). destruct Hl as [Hl|Hl]; [|congruence]. set (s' := goto _ _ _).
  assert (Hcl : cleared s s') by (by eapply win_cleared_timer).
  assert (Htm' : forall j, timer_of s' j = None).
  { intros j. unfold s'. change (timer_of (upd k (set_timer None) s) j = None).
    rewrite win_timer_set by (by apply win_current_lookup). case_decide as Hj; [done|]. destruct (timer_of s j) as [e'|] eqn:H; [|done].
    destruct (tb_timer _ Ht _ _ H) as (_ & H2 & _). destruct Hj. by eapply win_current_det. }
  assert (Hcur' : forall j, current s j -> current s' j) by (intros j; unfold current; by rewrite (cl_len _ _ Hcl)).
  split.
  - eapply win_agents_move; [done| |reflexivity|by split_and!; auto]. destruct Hcl. split; auto; try (by right; intros; congruence).
    intros e' n Hn. exists n. auto.
  - rewrite (cl_waiting _ _ Hcl). simpl. rewrite (zsum_insert _ _ _ _ _ Ha). pose proof (iv_place _ Hi). simpl in *. lia.
  - rewrite (cl_kernel _ _ Hcl). simpl. rewrite (zsum_insert _ _ _ _ _ Ha). pose proof (iv_take _ Hi). simpl in *. lia.
  - simpl. rewrite (zsum_insert _ _ _ _ _ Ha). pose proof (iv_sub _ Hi). simpl in *. lia.
  - intros j Hj. apply Hcur'. by apply (iv_co _ Hi).
  - intros j. rewrite (cl_call _ _ Hcl). intros Hj. apply Hcur'. by apply (iv_call _ Hi).
  - split; try apply Ht.
    + intros e' n Hn. rewrite (cl_timed _ _ Hcl). by apply (tb_entry _ Ht e').
    + intros j e'. by rewrite Htm'.
    + intros e' n Hn Hd. destruct (tb_live _ Ht _ _ Hn Hd) as (H1 & H2 & H3). rewrite (cl_waiting _ _ Hcl).
      split_and!; [done|auto|]. right. right. exists st. simpl. pose proof (win_current_det _ _ _ Hcur H2) as Heq.
      assert (e' = e) as -> by (apply (tb_unique _ Ht e' e k); [by exists n|done]). rewrite <- Heq.
      apply list_lookup_insert_eq. by eapply lookup_lt_Some.
  - apply (iv_ub _ Hi).
Qed.

Lemma win_inv_pnull s i k st e b last s' :
  inv s -> agents s !! i = Some (PNull k st e) -> step_select i b last (PNull k st e) s = Some s' -> inv s'.
Proof.
  intros Hi Ha Hs. destruct (iv_agent _ Hi _ _ Ha) as (-> & Hcur & Hl & Htm). simpl in Hs.
  unfold data_of in Hs. rewrite Hl in Hs. injection Hs as <-. pose proof (win_timer_none _ _ Hi Hcur Htm) as Hno.
  eapply (win_inv_worker _ (PRemove k st e) s _ e (Some false) true); try done.
  - intros H. unfold data_of in H. by rewrite Hl in H.
  - intros e' n Hne Hn Hd. destruct (win_no_live _ _ _ _ _ Hi Ha eq_refl Hcur Htm Hn Hd) as [[v' H]|H]; congruence.
Qed.

Lemma win_inv_premove s i k st e b last s' :
  inv s -> agents s !! i = Some (PRemove k st e) -> step_select i b last (PRemove k st e) s = Some s' -> inv s'.
Proof.
  intros Hi Ha Hs. destruct (iv_agent _ Hi _ _ Ha) as (-> & Hcur & Htm). simpl in Hs.
  pose proof (win_timer_none _ _ Hi Hcur Htm) as Hno.
  destruct (b && _); injection Hs as <-; [|step_move Hi Ha; by split_and!].
  eapply (win_inv_worker _ (PStatus k st) s _ e None false); try done.
  - intros e' n _ Hn Hd. destruct (win_no_live _ _ _ _ _ Hi Ha eq_refl Hcur Htm Hn Hd) as [[v' H]|H]; congruence.
Qed.

(** ** The timeout handler *)

Lemma win_inv_ttimer s i e s' : inv s -> agents s !! i = Some (TTimer e) -> step_timeout i (TTimer e) s = Some s' -> inv s'.
Proof.
  intros Hi Ha Hs. pose proof (iv_table _ Hi) as Ht. simpl in Hs.
  destruct (iv_agent _ Hi _ _ Ha) as (-> & Hw & Hd & k & Hcur & Ho). rewrite (win_owned_target _ _ _ Ho) in Hs.
  rewrite (win_touch_true _ s) in Hs by (by apply win_alive_waiting). injection Hs as <-. set (s' := goto _ _ _).
  assert (Hcl : cleared s s') by (by eapply win_cleared_timer).
  assert (Hent : entries (set_data e None false s) = entries s).
  { destruct Ho as (n & Hn & _). simpl. apply (alter_self _ _ _ _ Hn).
    pose proof (tb_linked _ Ht _ _ Hn) as Hl. unfold data_of in Hd. rewrite Hn in Hd. simpl in Hd.
    destruct n; simpl in *. by subst. }
  eapply (win_inv_worker _ (TCancel e) s _ e None false); try done.
  - intros j. change (timer_of (upd k (set_timer None) s) j = None).
    rewrite win_timer_set by (by apply win_current_lookup). case_decide as Hj; [done|]. destruct (timer_of s j) as [e'|] eqn:H; [|done].
    destruct (tb_timer _ Ht _ _ H) as (_ & H2 & _). destruct Hj. by eapply win_current_det.
  - intros e' n Hne Hn Hdt. destruct (tb_live _ Ht _ _ Hn Hdt) as (_ & Hc & _). apply Hne.
    apply (tb_unique _ Ht _ _ k); [|done]. exists n. split; [done|]. by eapply win_current_det.
  - split_and!; [done|by rewrite (cl_waiting _ _ Hcl)|done|]. exists k. split; [|done].
    unfold current. by rewrite (cl_len _ _ Hcl).
Qed.

Lemma win_inv_hist s h : inv s -> inv (set_hist h s).
Proof. intros [H1 H2 H3 H4 H5 H6 [T1 T2 T3 T4 T5] H8]. split; try done. Qed.

Lemma win_inv_tcancel s i e s' : inv s -> agents s !! i = Some (TCancel e) -> step_timeout i (TCancel e) s = Some s' -> inv s'.
Proof.
  intros Hi Ha Hs. simpl in Hs. destruct (iv_agent _ Hi _ _ Ha) as (-> & Hw & Hd & k & Hcur & Ho).
  rewrite (win_owned_target _ _ _ Ho) in Hs.
  rewrite win_touch_true in Hs by (by apply win_alive_waiting). injection Hs as <-.
  eapply win_inv_cancel_io; [by apply win_inv_hist|exact Ha|done..].
Qed.

Lemma win_inv_act s i r b a s' : inv s -> regular s' -> agents s !! i = Some a -> act i r b a s = Some s' -> inv s'.
Proof.
  intros Hi Hreg Ha Hs. destruct a; unfold act in Hs; try discriminate Hs.
  - by eapply win_inv_sguard.
  - by eapply win_inv_sadd.
  - by eapply win_inv_sreplace.
  - by eapply win_inv_sstore.
  - by eapply win_inv_scall.
  - by eapply win_inv_sfail.
  - by eapply win_inv_sfailrun.
  - by eapply win_inv_ssetio.
  - by eapply win_inv_scheck.
  - by eapply win_inv_sunguard.
  - by eapply win_inv_cancel.
  - by eapply win_inv_cancel.
  - by eapply win_inv_cancel.
  - by eapply win_inv_pco.
  - by eapply win_inv_ptimer.
  - by eapply win_inv_pnull.
  - by eapply win_inv_premove.
  - by eapply win_inv_pstatus.
  - by eapply win_inv_prun.
  - by eapply win_inv_ttimer.
  - by eapply win_inv_tcancel.
Qed.

(** ** Events *)

(** No thread moves. *)
Lemma win_inv_same s s' :
  inv s -> (forall i, kept i s s') -> agents s' = agents s -> entries s' = entries s -> (forall k, timer_of s' k = timer_of s k) ->
  co s' = co s -> waiting s' = waiting s -> in_kernel s' = in_kernel s ->
  (forall k, with_kernel (call_of s' k) = with_kernel (call_of s k)) -> ub s' = ub s -> inv s'.
Proof.
  intros Hi Hk Hag He Htm Hco Hw Hin Hc Hub. split; rewrite ?Hag, ?Hco, ?Hw, ?Hin, ?Hub; try apply Hi.
  - intros j a Ha. apply (win_kept_agent (S j) s); [apply Hk|lia|done|by apply (iv_agent _ Hi)].
  - intros k. unfold current. rewrite (kp_len _ _ _ (Hk 0)). apply (iv_co _ Hi).
  - intros k. rewrite Hc. unfold current. rewrite (kp_len _ _ _ (Hk 0)). apply (iv_call _ Hi).
  - apply (win_table_pins s); try done; [by apply iv_table|intros j x; by rewrite Hag|apply (Hk 0)|apply (Hk 0)|by left].
Qed.

(** Once the coroutine was resumed nobody has it, nor a handle, nor a live entry, nor
    the call. *)
Lemma win_resumed_idle s : inv s -> waiting s = false ->
  co s = None /\ (forall k, timer_of s k = None) /\ (forall e n, entries s !! e = Some n -> data n <> Some true) /\
  (forall k, with_kernel (call_of s k) = false) /\
  forall j a, agents s !! j = Some a -> holds a = 0%Z /\ takes a = 0%Z /\ in_timeout a = false.
Proof.
  intros Hi Hw. pose proof (iv_place _ Hi) as Hp. rewrite Hw in Hp. pose proof (iv_table _ Hi) as Ht.
  pose proof (iv_take _ Hi) as Htk. pose proof (zsum_nonneg takes (agents s) ltac:(intros x; apply win_takes_range)).
  pose proof (zsum_nonneg holds (agents s) ltac:(intros x; apply win_holds_range)).
  destruct (co s) as [k|] eqn:Hco; simpl in *; [lia|]. pose proof (b2z_nonneg (in_kernel s)). split_and!; [done|..].
  - intros k. destruct (timer_of s k) eqn:Htm; [|done]. destruct (tb_timer _ Ht _ _ Htm). congruence.
  - intros e n Hn Hd. destruct (tb_live _ Ht _ _ Hn Hd). congruence.
  - intros k. destruct (with_kernel _) eqn:Hk; [|done]. destruct (win_kernel_alone _ _ Hi Hk) as (_ & _ & Hw' & _). congruence.
  - intros j a Ha. split_and!.
    + eapply zsum_zero_lookup; [intros x; apply win_holds_range| |done]. lia.
    + eapply zsum_zero_lookup; [intros x; apply win_takes_range| |done]. lia.
    + destruct (in_timeout a) eqn:Hin; [|done]. pose proof (iv_agent _ Hi _ _ Ha) as Hok.
      destruct a; try discriminate Hin; simpl in Hok; destruct Hok as (_ & Hw' & _); congruence.
Qed.

(** Then [subscribe] is still in the operation only with its guard. *)
Lemma win_resumed_guarded s i a : inv s -> waiting s = false -> agents s !! i = Some a -> insub a = 1%Z ->
  exists k, current s k /\ present s k = true /\ guarded s k = true.
Proof.
  intros Hi Hw Ha Hin. destruct (win_resumed_idle _ Hi Hw) as (_ & _ & _ & _ & Hidle). destruct (Hidle _ _ Ha) as (Hh & Ht & _).
  pose proof (iv_agent _ Hi _ _ Ha) as Hok.
  destruct a as [| | | | | | | | | | |[k|]|[k|]|[k|] j| | | | | | | | |]; try discriminate; by eexists.
Qed.

Lemma win_quiet_waiting s : quiet s = true -> waiting s = false.
Proof. unfold quiet, waiting. destruct (last (reqs s)) as [q|]; [|done]. by destruct (phase_of q). Qed.

(** Between two operations no thread knows anything of the operations. *)
Lemma win_quiet_agents s : inv s -> quiet s = true -> forall j a, agents s !! j = Some a ->
  holds a = 0%Z /\ takes a = 0%Z /\ insub a = 0%Z /\ forall s', agent_ok s' j a.
Proof.
  intros Hi Hq j a Ha. pose proof (win_quiet_waiting _ Hq) as Hw. destruct (win_resumed_idle _ Hi Hw) as (_ & _ & _ & _ & Hidle).
  destruct (Hidle _ _ Ha) as (Hh & Ht & Hto). pose proof (win_insub_range a).
  assert (Hin : insub a = 0%Z).
  { destruct (decide (insub a = 1%Z)) as [E|E]; [|lia]. destruct (win_resumed_guarded _ _ _ Hi Hw Ha E) as (k & Hk & Hp & _).
    unfold quiet in Hq. rewrite last_lookup, <- Hk in Hq. simpl in Hq. unfold present in Hp.
    destruct (reqs s !! k) as [q|]; [|done]. simpl in Hp. by rewrite Hq in Hp. }
  split_and!; [done..|]. intros s'. pose proof (iv_agent _ Hi _ _ Ha) as Hok.
  destruct a as [| | | | | | | | | | |[k|]|[k|]|[k|] x| | | | | | | | |]; try done.
Qed.

Lemma win_proj_snoc {A} (p : req -> A) (d : A) (l : list req) q j :
  from_option p d ((l ++ [q]) !! j) = if decide (j = length l) then p q else from_option p d (l !! j).
Proof.
  case_decide as Hj; [subst; by rewrite (list_lookup_middle l [])|].
  destruct (decide (j < length l)) as [Hlt|Hge]; [by rewrite lookup_app_l|].
  rewrite (lookup_ge_None_2 l), (lookup_ge_None_2 (l ++ [q])); [done|rewrite length_app; simpl; lia|lia].
Qed.

(** A new operation: no thread was in one. *)
Lemma win_inv_append s s' q :
  inv s -> quiet s = true -> reqs s' = reqs s ++ [q] -> timer q = None -> call q = KNone ->
  entries s' = entries s -> co s' = None -> ub s' = ub s ->
  zsum holds (agents s') = b2z (waiting s') -> zsum takes (agents s') = 0%Z -> (zsum insub (agents s') <= 1)%Z ->
  (forall i a, agents s' !! i = Some a -> agent_ok s' i a) -> inv s'.
Proof.
  intros Hi Hq Hr Hqt Hqc He Hco Hub Hh Ht Hs Hok. pose proof (iv_table _ Hi) as Htb.
  destruct (win_resumed_idle _ Hi (win_quiet_waiting _ Hq)) as (_ & Htm & Hlive & Hc & _).
  assert (Htm' : forall k, timer_of s' k = None).
  { intros k. unfold timer_of. rewrite Hr, win_proj_snoc, Hqt. case_decide; [done|]. apply Htm. }
  split.
  - done.
  - rewrite Hco, Hh. simpl. lia.
  - rewrite Hco, Ht. unfold in_kernel. rewrite Hr, last_snoc. simpl. by rewrite Hqc.
  - done.
  - by rewrite Hco.
  - intros k. unfold call_of. rewrite Hr, win_proj_snoc, Hqc. case_decide; [done|]. intros Hk. specialize (Hc k). unfold call_of in Hc. congruence.
  - split; unfold owned; rewrite ?He; try apply Htb.
    + intros e n Hn. pose proof (tb_entry _ Htb _ _ Hn) as H. unfold is_timed in *. rewrite Hr, win_proj_snoc.
      case_decide as Hj; [|done]. by rewrite Hj, (lookup_ge_None_2 (reqs s)) in H by lia.
    + intros k e. by rewrite Htm'.
    + intros e n Hn Hd. by destruct (Hlive e n Hn).
  - rewrite Hub. apply (iv_ub _ Hi).
Qed.

Lemma win_agents_idle s : inv s -> quiet s = true ->
  zsum holds (agents s) = 0%Z /\ zsum takes (agents s) = 0%Z /\ zsum insub (agents s) = 0%Z.
Proof.
  intros Hi Hq. split_and!; apply zsum_all_zero; intros j a Ha; by apply (win_quiet_agents _ Hi Hq j).
Qed.

Lemma win_inv_skip s o b c s' : inv s -> step s (Skip o b c) = Some s' -> inv s'.
Proof.
  intros Hi Hs. cbn [step] in Hs. destruct (quiet s) eqn:Hq, (canceled s); try discriminate Hs. injection Hs as <-.
  destruct (win_agents_idle _ Hi Hq) as (H1 & H2 & H3). eapply (win_inv_append s); try done.
  - by destruct (win_resumed_idle _ Hi (win_quiet_waiting _ Hq)).
  - unfold waiting. simpl. by rewrite last_snoc.
  - simpl. lia.
  - intros i a Ha. by apply (win_quiet_agents _ Hi Hq i a).
Qed.

Lemma win_inv_call s i o t s' : inv s -> step s (Call i o t) = Some s' -> inv s'.
Proof.
  intros Hi Hs. cbn [step] in Hs. destruct (agents s !! i) as [[]|] eqn:Ha; try discriminate Hs.
  destruct (quiet s) eqn:Hq, (canceled s); try discriminate Hs. cbn [andb negb] in Hs.
  set (q := Req o (t && o_timer o) None false KNone Waiting) in *. set (k := length (reqs s)) in *.
  set (s1 := set_reqs (reqs s ++ [q]) s) in *. injection Hs as <-. set (a' := if o_cancel o then _ else _). set (s' := goto _ _ _).
  destruct (win_agents_idle _ Hi Hq) as (H1 & H2 & H3). pose proof (iv_table _ Hi) as Ht.
  assert (Hcur : current s' k) by (unfold current, s'; simpl; rewrite length_app; simpl; unfold k; lia).
  assert (Hnew : forall A (p : req -> A) d, from_option p d (reqs s' !! k) = p q).
  { intros A p d. unfold s'. simpl. by rewrite (list_lookup_middle (reqs s) []). }
  assert (Hno : no_entry s' k).
  { intros e n Hn Ho. pose proof (tb_entry _ Ht _ _ Hn) as H. unfold is_timed in H.
    rewrite Ho, (lookup_ge_None_2 (reqs s)) in H by (unfold k; lia). done. }
  assert (Hw : waiting s' = true) by (unfold waiting, s'; simpl; by rewrite last_snoc).
  assert (Htd : is_timed s1 k = t && o_timer o) by (apply (Hnew _ timed)).
  assert (Hm : holds a' = 1%Z /\ takes a' = 0%Z /\ insub a' = 1%Z).
  { unfold a', add_next. by destruct (o_cancel o), (is_timed s1 k). }
  destruct Hm as (Hh & Htk & Hin). eapply (win_inv_append s _ q); try done.
  - simpl. by destruct (win_resumed_idle _ Hi (win_quiet_waiting _ Hq)).
  - rewrite Hw. simpl. rewrite (zsum_insert _ _ _ _ _ Ha). simpl. lia.
  - simpl. rewrite (zsum_insert _ _ _ _ _ Ha). simpl. lia.
  - simpl. rewrite (zsum_insert _ _ _ _ _ Ha). simpl. lia.
  - intros j a Hj. simpl in Hj. apply lookup_insert_list in Hj as [(<- & -> & _)|[_ Hj]].
    + assert (Hcan : cancels s' k = o_cancel o) by apply (Hnew _ (fun q => o_cancel (what q))).
      assert (Hcall : call_of s' k = KNone) by apply (Hnew _ call).
      unfold a', add_next. destruct (o_cancel o) eqn:Ho; [by split_and!|].
      assert (Hsub : sub_ok s' k) by (split_and!; [done..|by rewrite Hcan]).
      rewrite Htd. destruct (t && o_timer o) eqn:Hto; [|done]. split_and!; [done|by rewrite <- Htd|done].
    + by apply (win_quiet_agents _ Hi Hq j a).
Qed.

Lemma win_inv_complete s k st n s' : inv s -> step s (Complete k st n) = Some s' -> inv s'.
Proof.
  intros Hi Hs. cbn [step] in Hs. destruct (call_of s k) as [|asked| |] eqn:Hc; try discriminate Hs. injection Hs as <-.
  destruct (win_kernel_alone s k Hi) as (Hcur & Hco & Hw & Hin & Hah & Hat); [by rewrite Hc|]. set (s' := upd _ _ _).
  destruct (win_current_lookup _ _ Hcur) as [q Hq].
  apply (win_inv_same s); try upd_done.
  - intros i. kept_done. by left.
  - unfold in_kernel. simpl. rewrite last_alter, decide_True by done. rewrite last_lookup, <- Hcur. simpl. rewrite Hq. simpl.
    unfold call_of in Hc. rewrite Hq in Hc. simpl in Hc. by rewrite Hc.
  - intros j. unfold call_of, s'. simpl. rewrite win_proj_upd_at. case_decide as Hj; [|done]. subst j.
    unfold call_of in Hc. rewrite Hq in *. simpl in *. by rewrite Hc.
Qed.

(** The worker whose port returns the packet is the one that has the timers. *)
Lemma win_inv_select s k s' : port_id = timer_id -> inv s -> step s (Select k) = Some s' -> inv s'.
Proof.
  intros Hport Hi Hs. cbn [step] in Hs. destruct (agents s !! port_id) as [[]|] eqn:Ha; try discriminate Hs.
  destruct (call_of s k) as [| |st n|] eqn:Hc; try discriminate Hs. injection Hs as <-.
  destruct (win_kernel_alone s k Hi) as (Hcur & Hco & Hw & Hin & Hah & Hat); [by rewrite Hc|].
  destruct (win_current_lookup _ _ Hcur) as [q Hq]. set (s' := goto _ _ _).
  assert (Hin' : in_kernel s' = false).
  { unfold in_kernel, s'. simpl. rewrite last_alter, decide_True, last_lookup, <- Hcur by done. simpl. by rewrite Hq. }
  assert (Hlen : length (reqs s') = length (reqs s)) by (simpl; apply length_alter).
  pose proof (iv_place _ Hi) as Hp. pose proof (iv_take _ Hi) as Htk. rewrite Hin, Hco in Htk. rewrite Hco, Hw in Hp. split.
  - eapply win_agents_move; [done| |reflexivity|].
    + kept_done. left. by split.
    + split_and!; [done|unfold current; by rewrite Hlen|done].
  - rewrite (win_upd_waiting s s' k (set_call (KTaken n))) by done. rewrite Hw. simpl. rewrite (zsum_insert _ _ _ _ _ Ha), Hco.
    simpl in *. lia.
  - rewrite Hin'. simpl. rewrite (zsum_insert _ _ _ _ _ Ha), Hco. simpl in *. lia.
  - simpl. rewrite (zsum_insert _ _ _ _ _ Ha). pose proof (iv_sub _ Hi). simpl in *. lia.
  - intros j Hj. unfold current. rewrite Hlen. by apply (iv_co _ Hi).
  - intros j. unfold call_of, current. rewrite Hlen. simpl. rewrite win_proj_upd_at. case_decide; [by subst|]. apply (iv_call _ Hi).
  - eapply win_table_pins; [by apply iv_table|by eapply win_pins_move|try upd_done..]. left. upd_done.
  - apply (iv_ub _ Hi).
Qed.

Lemma win_inv_expire s e s' : inv s -> step s (Expire e) = Some s' -> inv s'.
Proof.
  intros Hi Hs. cbn [step] in Hs. pose proof (iv_table _ Hi) as Ht.
  destruct (agents s !! timer_id) as [[]|] eqn:Ha; try discriminate Hs.
  destruct (entries s !! e) as [[k [p|] [|]]|] eqn:He; try discriminate Hs. injection Hs as <-.
  set (a' := if p then TTimer e else AIdle). set (s' := goto _ _ _).
  assert (Hent : forall e' n, e' <> e -> entries s' !! e' = Some n -> entries s !! e' = Some n).
  { intros e' n Hne Hn. destruct (win_lookup_set_data _ _ _ _ _ _ Hn) as (n0 & Hn0 & _ & _ & Heq). by rewrite Heq. }
  assert (Hown : forall e' j, owned s' e' j <-> owned s e' j) by (intros e' j; apply (win_owned_set_data e None false)).
  assert (Hnone : data_of s' e = None) by (apply win_data_set_data; by rewrite He).
  assert (Hpop : p = true -> waiting s = true /\ current s k).
  { intros ->. destruct (tb_live _ Ht _ _ He eq_refl) as (? & ? & _). done. }
  assert (Ham : holds a' = 0%Z /\ takes a' = 0%Z /\ insub a' = 0%Z) by (unfold a'; by destruct p).
  destruct Ham as (Hh & Htk & Hin). split.
  - eapply win_agents_move; [done| |reflexivity|].
    + split; auto.
      * intros e' n Hn. destruct (win_set_data_lookup e None false _ _ _ Hn) as (n' & Hn' & Ho & Heq & Hne). exists n'.
        split_and!; [done|done| |done]. intros Hd. destruct (decide (e' = e)) as [->|]; [by rewrite Heq|by rewrite Hne].
      * right. intros e'. destruct (decide (e' = e)) as [->|Hne]; [by rewrite Hnone|].
        unfold data_of. destruct (entries s' !! e') as [n|] eqn:Hn; [|done]. by rewrite (Hent _ _ Hne Hn).
      * right. intros e' n Hn. rewrite <- Hown. by exists n.
    + unfold a'. destruct p; [|done]. destruct (Hpop eq_refl) as [Hw Hc]. split_and!; [done..|].
      exists k. split; [done|]. apply Hown. by eexists.
  - change (waiting s') with (waiting s). simpl. rewrite (zsum_insert _ _ _ _ _ Ha). pose proof (iv_place _ Hi). simpl in *. lia.
  - change (in_kernel s') with (in_kernel s). simpl. rewrite (zsum_insert _ _ _ _ _ Ha). pose proof (iv_take _ Hi). simpl in *. lia.
  - simpl. rewrite (zsum_insert _ _ _ _ _ Ha). pose proof (iv_sub _ Hi). simpl in *. lia.
  - apply (iv_co _ Hi).
  - apply (iv_call _ Hi).
  - split.
    + intros e' n Hn. destruct (win_lookup_set_data _ _ _ _ _ _ Hn) as (n0 & Hn0 & -> & _). by apply (tb_entry _ Ht e').
    + intros e1 e2 j. rewrite !Hown. apply (tb_unique _ Ht).
    + intros j e' Htm. destruct (tb_timer _ Ht _ _ Htm) as (Hw & Hj & Ho & Hl). split_and!; [done|done|by apply Hown|].
      destruct Hl as [Hl|Hl]; [|congruence]. destruct (decide (e' = e)) as [->|Hne].
      * right. rewrite He in Hl. injection Hl as -> ->. simpl. apply list_lookup_insert_eq. by eapply lookup_lt_Some.
      * left. destruct (win_set_data_lookup e None false _ _ _ Hl) as (n' & Hn' & _ & _ & Heq). rewrite <- Heq by done. done.
    + intros e' n Hn Hd. destruct (decide (e' = e)) as [->|Hne].
      { unfold data_of in Hnone. by rewrite Hn in Hnone; simpl in Hnone; rewrite Hd in Hnone. }
      destruct (tb_live _ Ht _ _ (Hent _ _ Hne Hn) Hd) as (H1 & H2 & [H3|[[j H3]|[v H3]]]); [..|congruence];
        (split_and!; [done|done|]); [by left|]. right. left. exists j. simpl.
      rewrite list_lookup_insert_ne; [done|]. intros <-. congruence.
    + intros e' n Hn. destruct (win_lookup_set_data _ _ _ _ _ _ Hn) as (n0 & Hn0 & _ & Heq & Hne).
      destruct (decide (e' = e)) as [->|Hx]; [by rewrite Heq|]. rewrite Hne by done. by apply (tb_linked _ Ht e').
  - apply (iv_ub _ Hi).
Qed.

(** The last operation goes to phase [p], after the coroutine was resumed. *)
Lemma win_inv_phase s s' q p :
  inv s -> last (reqs s) = Some q -> phase_of q <> Waiting -> p <> Waiting ->
  reqs s' = alter (set_phase p) (pred (length (reqs s))) (reqs s) -> agents s' = agents s -> entries s' = entries s ->
  co s' = co s -> ub s' = ub s -> (is_gone p = false /\ is_gone (phase_of q) = false \/ guard q = false) -> inv s'.
Proof.
  intros Hi Hl Hq Hp Hr Hag He Hco Hub Hor.
  assert (Hlen : S (pred (length (reqs s))) = length (reqs s)) by (destruct (reqs s); [done|simpl; lia]).
  assert (Hw : waiting s = false) by (unfold waiting; rewrite Hl; by destruct (phase_of q)).
  assert (Hw' : waiting s' = false) by (unfold waiting; rewrite Hr, last_alter, decide_True, Hl by done; by destruct p).
  rewrite last_lookup in Hl.
  apply (win_inv_same s); try done; try (intros j); try (by eapply win_upd_timer); try (by eapply win_upd_in_kernel).
  - split; try (by intros k; eapply win_upd_timed); try (by intros k; eapply win_upd_cancels); rewrite ?He; auto.
    + by eapply win_upd_len.
    + right. intros k. by rewrite (win_upd_timer s s' _ _ Hr).
    + intros e n Hn. exists n. auto.
    + right. intros e. unfold data_of. by rewrite He.
    + right. intros e n Hn. by exists n.
    + left. congruence.
    + right. intros k. by eapply win_upd_call.
    + right. intros k. by rewrite (win_upd_guarded s s' _ _ Hr).
    + destruct Hor as [[H1 H2]|Hg].
      * right. intros k. unfold present. rewrite Hr, win_proj_upd_at. case_decide as Hk; [|done]. subst k. by rewrite Hl; simpl; rewrite H1.
      * left. intros x a _ Ha. pose proof (win_insub_range a). destruct (decide (insub a = 1%Z)) as [E|E]; [|lia].
        destruct (win_resumed_guarded _ _ _ Hi Hw Ha E) as (k & Hk & _ & H3). unfold current in Hk. unfold guarded in H3.
        replace k with (pred (length (reqs s))) in H3 by lia. rewrite Hl in H3. simpl in H3. congruence.
  - congruence.
  - by rewrite (win_upd_call s s' _ _ Hr).
Qed.

Lemma win_inv_resume s b c s' : inv s -> step s (Resume b c) = Some s' -> inv s'.
Proof.
  intros Hi Hs. cbn [step] in Hs. destruct (last (reqs s)) as [q|] eqn:Hl; [|done].
  destruct (phase_of q) as [|p| |] eqn:Hp; try discriminate Hs. injection Hs as <-.
  eapply (win_inv_phase s _ q); try done; rewrite ?Hp; try done. by left.
Qed.

Lemma win_inv_drop s s' : inv s -> step s Drop = Some s' -> inv s'.
Proof.
  intros Hi Hs. cbn [step] in Hs. destruct (last (reqs s)) as [q|] eqn:Hl; [|done].
  destruct (phase_of q) as [|p| |] eqn:Hp; try discriminate Hs. destruct (guard q) eqn:Hg; [done|]. injection Hs as <-.
  eapply (win_inv_phase s _ q); try done; rewrite ?Hp; try done. by right.
Qed.

Lemma win_inv_step s ev s' : port_id = timer_id -> inv s -> regular s' -> step s ev = Some s' -> inv s'.
Proof.
  intros Hport Hi Hreg Hs.
  destruct ev as [i o t|o b c|i r b|k st n|k|e|i|b c| |]; [by eapply win_inv_call|by eapply win_inv_skip| |by eapply win_inv_complete
    |by eapply win_inv_select|by eapply win_inv_expire| |by eapply win_inv_resume|by eapply win_inv_drop|]; cbn [step] in Hs.
  - destruct (agents s !! i) as [a|] eqn:Ha; [|done]. by eapply win_inv_act.
  - destruct (agents s !! i) as [[]|] eqn:Ha; try discriminate Hs. injection Hs as <-. step_move Hi Ha.
  - destruct (last (reqs s)) as [q|]; [|done]. destruct (phase_of q) as [| |[]|]; try discriminate Hs;
      (destruct (guard q && canceled s); [|done]); injection Hs as <-; by destruct Hreg as (_ & _ & [=] & _).
Qed.

Lemma win_inv_init n : inv (init n).
Proof.
  assert (Ha : forall i a, agents (init n) !! i = Some a -> a = AIdle) by (intros i a H; by apply lookup_replicate in H as [-> _]).
  split; try done; try (simpl; rewrite zsum_replicate; simpl; lia).
  - intros i a H. by rewrite (Ha _ _ H).
  - split; try done. intros e e' k (m & H & _). done.
Qed.

Lemma win_inv_reachable n s : port_id = timer_id -> reachable step (init n) s -> regular s -> inv s.
Proof.
  intros Hport. induction 1 as [|s ev s' Hr IH Hs]; intros Hreg; [apply win_inv_init|].
  eapply win_inv_step; [done| |done..]. apply IH. by eapply win_regular_step.
Qed.

(** ** Operations that will be completed *)

(** The kernel was told to give the call up, or has completed it. *)
Definition asked (c : kern) : bool := match c with KPending b => b | KNone => false | _ => true end.

(** Threads in [subscribe] before the [Cancel] has the [EventData]; threads that will
    look into the [Cancel]; threads that will store the handle of a timer or end the
    suspension; threads that have the [EventData] of a call that was made. *)
Definition before (a : pc) : bool :=
  match a with
  | SGuard _ | SAdd _ | SReplace _ _ | SStore _ | SCall _ | SFail _ _ | SFailRun _ _ | SSetIo _ => true
  | _ => false
  end.
Definition slotted (a : pc) : bool := match a with SCheck _ | COr _ | CIo _ => true | _ => false end.
Definition timing (a : pc) : bool :=
  match a with
  | SGuard _ | SAdd _ | SReplace _ _ | TTimer _ | TCancel _
  | PCo _ _ | PTimer _ _ | PNull _ _ _ | PRemove _ _ _ | PStatus _ _ | PRun _ _ => true
  | _ => false
  end.
Definition reaches (j : nat) (a : pc) : bool := match a with SSetIo k | CEx _ k => k =? j | _ => false end.

Record served (s : state) : Prop := {
  sv_reg : waiting s = true -> forall k, current s k -> cancels s k = true ->
    has (fun a => before a || refers k a) (agents s) \/ cslot s = Some k \/ asked (call_of s k) = true;
  sv_slot : waiting s = true -> forall k, current s k -> canceled s = true -> cslot s = Some k -> has slotted (agents s);
  sv_timer : missed (hs s) = false -> waiting s = true -> forall k, current s k -> is_timed s k = true ->
    has timing (agents s) \/ timer_of s k <> None \/ asked (call_of s k) = true;
  sv_made : forall j, cslot s = Some j \/ has (reaches j) (agents s) -> call_of s j <> KNone
}.

Lemma win_has_moved (P : pc -> bool) i a a' l : l !! i = Some a -> has P l -> P a = true \/ has P (<[i:=a']> l).
Proof. intros Ha H. destruct (P a) eqn:HP; [by left|right]. by eapply has_insert_other. Qed.

(** Calls only go on. *)
Definition grows (s s' : state) : Prop :=
  forall j, (asked (call_of s j) = true -> asked (call_of s' j) = true) /\ (call_of s j <> KNone -> call_of s' j <> KNone).
Lemma win_grows_same s s' : (forall j, call_of s' j = call_of s j) -> grows s s'.
Proof. intros H j. by rewrite H. Qed.
Lemma win_grows_set s s' k c :
  reqs s' = alter (set_call c) k (reqs s) -> (asked (call_of s k) = true -> asked c = true) -> c <> KNone -> grows s s'.
Proof.
  intros Hr Ha Hc j. unfold call_of in *. rewrite Hr, win_proj_upd_at. case_decide; [|done]. subst.
  destruct (reqs s !! j); simpl in *; [|done]. auto.
Qed.

Lemma win_served_move i a a' s s' :
  served s -> agents s !! i = Some a -> agents s' = <[i:=a']> (agents s) -> grows s s' ->
  length (reqs s') = length (reqs s) -> (forall k, cancels s' k = cancels s k) -> (forall k, is_timed s' k = is_timed s k) ->
  (waiting s' = true -> waiting s = true) -> (missed (hs s') = false -> missed (hs s) = false) ->
  (forall k, current s k -> cancels s k = true -> before a || refers k a = true \/ cslot s = Some k ->
     before a' || refers k a' = true \/ cslot s' = Some k \/ asked (call_of s' k) = true) ->
  (forall k, current s k -> canceled s' = true -> cslot s' = Some k ->
     slotted a' = true \/ slotted a = false /\ canceled s = true /\ cslot s = Some k) ->
  (forall k, current s k -> missed (hs s') = false -> is_timed s k = true -> timing a = true \/ timer_of s k <> None ->
     timing a' = true \/ timer_of s' k <> None \/ asked (call_of s' k) = true) ->
  (forall j, cslot s' = Some j \/ reaches j a' = true -> call_of s' j <> KNone \/ cslot s = Some j \/ reaches j a = true) ->
  served s'.
Proof.
  intros [Hr Hsl Ht Hm] Ha Hag Hgr Hlen Hcan Htd Hw Hmi H1 H2 H3 H4. split.
  - intros Hw' k Hk Hc. unfold current in Hk. rewrite Hlen in Hk. rewrite Hcan in Hc. rewrite Hag.
    assert (Hor : before a || refers k a = true \/ cslot s = Some k \/
      has (fun a => before a || refers k a) (<[i:=a']> (agents s)) \/ asked (call_of s' k) = true).
    { destruct (Hr (Hw Hw') k Hk Hc) as [H|[H|H]]; [|tauto|by right; right; right; apply Hgr].
      edestruct (win_has_moved _ i a a' _ Ha H) as [?|?]; tauto. }
    destruct Hor as [H|[H|[H|H]]]; [| |tauto..].
    + destruct (H1 k Hk Hc (or_introl H)) as [H'|H']; [left; by eapply has_insert_new|tauto].
    + destruct (H1 k Hk Hc (or_intror H)) as [H'|H']; [left; by eapply has_insert_new|tauto].
  - intros Hw' k Hk Hc Hs. unfold current in Hk. rewrite Hlen in Hk. rewrite Hag.
    destruct (H2 k Hk Hc Hs) as [H|(H & Hc0 & Hs0)]; [by eapply has_insert_new|].
    eapply has_insert_other; [by eapply Hsl; eauto|done..].
  - intros Hm' Hw' k Hk Hti. unfold current in Hk. rewrite Hlen in Hk. rewrite Htd in Hti. rewrite Hag.
    assert (Hor : (timing a = true \/ timer_of s k <> None) \/ has timing (<[i:=a']> (agents s)) \/ asked (call_of s' k) = true).
    { destruct (Ht (Hmi Hm') (Hw Hw') k Hk Hti) as [H|[H|H]]; [|tauto|by right; right; apply Hgr].
      edestruct (win_has_moved _ i a a' _ Ha H) as [?|?]; tauto. }
    destruct Hor as [H|H]; [|tauto]. destruct (H3 k Hk Hm' Hti H) as [H'|H']; [left; by eapply has_insert_new|tauto].
  - intros j Hj. rewrite Hag in Hj.
    assert (Hor : cslot s' = Some j \/ reaches j a' = true \/ has (reaches j) (agents s)).
    { destruct Hj as [?|H]; [tauto|]. apply has_insert_inv in H. tauto. }
    assert (Hmade : cslot s = Some j \/ reaches j a = true \/ has (reaches j) (agents s) -> call_of s' j <> KNone).
    { intros H. apply Hgr, Hm. destruct H as [H|[H|H]]; [by left| |by right]. right. by exists i, a. }
    destruct Hor as [H|[H|H]]; [destruct (H4 j (or_introl H)) as [?|[?|?]]|destruct (H4 j (or_intror H)) as [?|[?|?]]|]; auto.
Qed.

Lemma win_served_resumed s s' :
  served s -> waiting s' = false -> grows s s' ->
  (forall j, cslot s' = Some j \/ has (reaches j) (agents s') -> cslot s = Some j \/ has (reaches j) (agents s)) -> served s'.
Proof.
  intros Hok Hw Hgr H. split; rewrite ?Hw; try done. intros j Hj. apply Hgr. by apply (sv_made _ Hok), H.
Qed.

(** The side conditions of [win_served_move]. *)
Ltac served_done :=
  simpl; rewrite ?length_alter; try done; try (intros j; upd_done); try (by tauto);
  try (apply win_grows_same; intros; upd_done);
  try (let Hw := fresh in intros Hw; rewrite <- Hw; symmetry; upd_done);
  try (intros j [?|?]; [by right; left|done]); try (intros; by left); try (by intros; auto);
  try (let H := fresh in intros ? _ _ _ [?|H]; [done|right; left; first [exact H|by erewrite win_upd_timer; [exact H|reflexivity|]]]).
Ltac served_step Hok Ha := eapply (win_served_move _ _ _ _ _ Hok Ha); [reflexivity|..]; served_done.

Lemma win_served_subscribe s i r a s' :
  inv s -> served s -> agents s !! i = Some a -> step_subscribe i r a s = Some s' -> served s'.
Proof.
  intros Hi Hok Ha Hs. pose proof (iv_agent _ Hi _ _ Ha) as Hag.
  destruct a as [|k|k|k e|k|k|k err|k err|k|k|k| | | | | | | | | | | |]; try discriminate Hs; cbn in Hs, Hag.
  - injection Hs as <-. unfold add_next. destruct (is_timed s k) eqn:Htd; served_step Hok Ha.
    intros j Hj. rewrite (win_current_det _ _ _ Hj (proj1 Hag)), Htd. done.
  - injection Hs as <-. served_step Hok Ha.
  - injection Hs as <-. served_step Hok Ha.
    intros j Hj _ _ _. right. left. change (timer_of (upd k (set_timer (Some e)) s) j <> None).
    rewrite win_timer_set by (by apply win_current_lookup, Hag). by rewrite decide_True by (eapply win_current_det; [apply Hag|done]).
  - injection Hs as <-. served_step Hok Ha.
  - destruct r as [err|]; injection Hs as <-; [served_step Hok Ha|]. destruct Hag as ((Hcur & Hc & _) & _).
    assert (Hgr : forall a, grows s (goto i a (upd k (set_call (KPending false)) s))).
    { intros a. eapply win_grows_set; [reflexivity| |done]. by rewrite Hc. }
    unfold after_call. destruct (cancels s k) eqn:Hcan; served_step Hok Ha; try apply Hgr.
    + intros j [H|H]; [by right; left|left]. apply Nat.eqb_eq in H as <-.
      destruct (win_current_lookup _ _ Hcur) as [q Hq]. unfold call_of. simpl. by rewrite list_lookup_alter_eq, Hq.
    + intros j Hj. by rewrite (win_current_det _ _ _ Hj Hcur), Hcan.
  - rewrite bool_decide_true in Hs by apply Hag. injection Hs as <-. served_step Hok Ha.
  - injection Hs as <-. set (s' := goto _ _ _).
    assert (Hw' : waiting s' = false).
    { by apply (win_upd_not_waiting s s' k (set_phase (Woken (Some (Os err)))) eq_refl (Woken (Some (Os err)))); [apply Hag|..]. }
    apply (win_served_resumed s); [done|done|apply win_grows_same; intros; upd_done|].
    intros j [H|H]; [by left|right]. simpl in H. apply has_insert_inv in H as [H|H]; [by destruct (cancels s k)|done].
  - injection Hs as <-. served_step Hok Ha.
    + intros j Hj _ _. right. left. f_equal. by eapply win_current_det; [apply Hag|].
    + intros j [H|H]; [|done]. injection H as ->. right. right. apply Nat.eqb_refl.
  - injection Hs as <-. destruct (canceled s) eqn:Hc; served_step Hok Ha; intros; congruence.
  - injection Hs as <-. served_step Hok Ha.
Qed.

Lemma win_cancel_io_ex_call k s j :
  call_of (cancel_io_ex k s) j =
    if decide (k = j) then match call_of s k with KPending _ => KPending true | c => c end else call_of s j.
Proof.
  unfold cancel_io_ex. destruct (call_of s k) as [|b|st n|n] eqn:Hc; case_decide as Hj; try congruence;
    unfold call_of in *; simpl; rewrite win_proj_upd_at; [rewrite decide_True by done|by rewrite decide_False].
  subst j. by destruct (reqs s !! k).
Qed.

Lemma win_cancel_io_ex_frame k s :
  agents (cancel_io_ex k s) = agents s /\ cslot (cancel_io_ex k s) = cslot s /\ canceled (cancel_io_ex k s) = canceled s /\
  hs (cancel_io_ex k s) = hs s /\ length (reqs (cancel_io_ex k s)) = length (reqs s) /\
  (forall j, cancels (cancel_io_ex k s) j = cancels s j) /\ (forall j, is_timed (cancel_io_ex k s) j = is_timed s j) /\
  waiting (cancel_io_ex k s) = waiting s /\ (forall j, timer_of (cancel_io_ex k s) j = timer_of s j).
Proof. unfold cancel_io_ex. destruct (call_of s k); split_and!; try done; upd_done. Qed.

Lemma win_grows_cancel k s i a : grows s (goto i a (cancel_io_ex k s)).
Proof.
  intros j. change (call_of (goto i a (cancel_io_ex k s)) j) with (call_of (cancel_io_ex k s) j).
  rewrite win_cancel_io_ex_call. case_decide; [|done]. subst. by destruct (call_of s j).
Qed.

(** A call that was made has been told after [CancelIoEx]. *)
Lemma win_cancel_io_ex_asked k s : call_of s k <> KNone -> asked (call_of (cancel_io_ex k s) k) = true.
Proof. rewrite win_cancel_io_ex_call, decide_True by done. by destruct (call_of s k). Qed.

(** [CancelIoEx] on call [k] by thread [i], which leaves [a]. *)
Lemma win_served_cancel_io s i a a' k :
  served s -> agents s !! i = Some a -> call_of s k <> KNone ->
  (forall j, before a || refers j a = true -> j = k) -> slotted a = false -> before a' = false ->
  (forall j, refers j a' = false) -> (forall j, reaches j a' = false) ->
  (timing a = true -> current s k) -> served (goto i a' (cancel_io_ex k s)).
Proof.
  intros Hok Ha Hc Hrf Hsl Hb Hr Hre Ht.
  destruct (win_cancel_io_ex_frame k s) as (F1 & F2 & F3 & F4 & F5 & F6 & F7 & F8 & F9).
  pose proof (win_cancel_io_ex_asked k s Hc) as Hask. set (s' := goto _ _ _).
  eapply (win_served_move _ _ _ _ _ Hok Ha); [by unfold s'; simpl; rewrite F1|apply win_grows_cancel|done|done|done|..].
  - change (waiting s') with (waiting (cancel_io_ex k s)). by rewrite F8.
  - simpl. by rewrite F4.
  - intros j _ _ [H|H]; [|right; left; simpl; by rewrite F2]. right. right. by rewrite (Hrf _ H).
  - intros j _. simpl. rewrite F2, F3. auto.
  - intros j Hj _ _ [H|H]; right; [right|left].
    + by rewrite (win_current_det _ _ _ Hj (Ht H)).
    + change (timer_of (cancel_io_ex k s) j <> None). by rewrite F9.
  - intros j. simpl. rewrite F2, Hre. intros [H|H]; [by right; left|done].
Qed.

Lemma win_served_cancel s i a s' :
  inv s -> served s -> agents s !! i = Some a -> step_cancel i a s = Some s' -> served s'.
Proof.
  intros Hi Hok Ha Hs. destruct a as [| | | | | | | | | | |b|b|b k| | | | | | | | |]; try discriminate Hs; cbn in Hs.
  - injection Hs as <-. destruct b; served_step Hok Ha.
  - destruct (cslot s) as [k|] eqn:Hsl; injection Hs as <-; destruct b; served_step Hok Ha; try (intros; congruence);
      try (intros j _ _ [H|H]; [done|left; apply Nat.eqb_eq; congruence]);
      intros j [H|H]; [done| |done|]; apply Nat.eqb_eq in H as <-; by right; left.
  - rewrite win_touch_true in Hs by (by eapply win_alive_refers). injection Hs as <-.
    apply (win_served_cancel_io _ _ (CEx b k)); try done; try (by destruct b).
    + apply (sv_made _ Hok). right. exists i, (CEx b k). split; [done|]. apply Nat.eqb_refl.
    + intros j H. by apply Nat.eqb_eq in H.
Qed.

Lemma win_served_hist s h : served s -> (missed h = false -> missed (hs s) = false) -> served (set_hist h s).
Proof. intros [H1 H2 H3 H4] Hm. split; try done. intros H. apply H3. by apply Hm. Qed.

Lemma win_served_timeout s i a s' :
  inv s -> served s -> agents s !! i = Some a -> step_timeout i a s = Some s' -> served s'.
Proof.
  intros Hi Hok Ha Hs. pose proof (iv_agent _ Hi _ _ Ha) as Hag.
  destruct a as [| | | | | | | | | | | | | | | | | | | |e|e|]; try discriminate Hs; cbn in Hs;
    destruct Hag as (-> & Hw & Hd & k & Hcur & Ho); rewrite (win_owned_target _ _ _ Ho) in Hs.
  - injection Hs as <-. served_step Hok Ha.
  - rewrite win_touch_true in Hs by (by apply win_alive_waiting). injection Hs as <-.
    destruct (decide (call_of s k = KNone)) as [Hc|Hc].
    + unfold cancel_io_ex. change (call_of (set_hist ?h s) k) with (call_of s k). rewrite !Hc, orb_true_r. served_step Hok Ha.
    + apply (win_served_cancel_io (set_hist _ s) _ (TCancel e)); try done. apply win_served_hist; [done|]. by intros [? _]%orb_false_iff.
Qed.

Lemma win_served_select s i b last a s' :
  inv s -> served s -> agents s !! i = Some a -> step_select i b last a s = Some s' -> served s'.
Proof.
  intros Hi Hok Ha Hs. pose proof (iv_agent _ Hi _ _ Ha) as Hag.
  destruct a as [| | | | | | | | | | | | | |k st|k st|k st e|k st e|k st|k p| | |]; try discriminate Hs; cbn in Hs, Hag.
  - rewrite bool_decide_true in Hs by apply Hag. injection Hs as <-. served_step Hok Ha.
  - destruct (timer_of s k); injection Hs as <-; served_step Hok Ha.
  - unfold data_of in Hs. destruct Hag as (_ & _ & Hl & _). rewrite Hl in Hs. injection Hs as <-. served_step Hok Ha.
  - destruct (b && _); injection Hs as <-; served_step Hok Ha.
  - injection Hs as <-. served_step Hok Ha.
  - injection Hs as <-. set (s' := goto _ _ _).
    assert (Hw' : waiting s' = false).
    { by apply (win_upd_not_waiting s s' k (set_phase (Woken p)) eq_refl (Woken p)); [apply Hag|..]. }
    apply (win_served_resumed s); [done|done|apply win_grows_same; intros; upd_done|].
    intros j [H|H]; [by left|right]. simpl in H. by apply has_insert_inv in H as [H|H].
Qed.

Lemma win_served_same s s' :
  served s -> agents s' = agents s -> grows s s' -> length (reqs s') = length (reqs s) -> (forall k, cancels s' k = cancels s k) ->
  (forall k, is_timed s' k = is_timed s k) -> waiting s' = waiting s -> hs s' = hs s -> cslot s' = cslot s ->
  canceled s' = canceled s -> (forall k, timer_of s' k = timer_of s k) -> served s'.
Proof.
  intros [H1 H2 H3 H4] Hag Hgr Hlen Hcan Htd Hw Hh Hsl Hc Htm.
  split; unfold current; rewrite ?Hag, ?Hlen, ?Hw, ?Hh, ?Hsl, ?Hc; try done.
  - intros Hw' k Hk. rewrite Hcan. intros Hk'. destruct (H1 Hw' k Hk Hk') as [H|[H|H]]; [tauto..|]. right. right. by apply Hgr.
  - intros Hm Hw' k Hk. rewrite Htd, Htm. intros Hk'. destruct (H3 Hm Hw' k Hk Hk') as [H|[H|H]]; [tauto..|]. right. right. by apply Hgr.
  - intros j Hj. by apply Hgr, H4.
Qed.

Lemma win_grows_append s s' q : reqs s' = reqs s ++ [q] -> grows s s'.
Proof.
  intros Hr j. unfold call_of. rewrite Hr, win_proj_snoc. case_decide as Hj; [|done]. subst.
  by rewrite (lookup_ge_None_2 (reqs s)) by lia.
Qed.

Lemma win_served_step_ev s ev s' : inv s -> regular s' -> served s -> step s ev = Some s' -> served s'.
Proof.
  intros Hi Hreg Hok Hs. destruct ev as [i o t|o b c|i r b|k st n|k|e|i|b c| |]; cbn [step] in Hs.
  - destruct (agents s !! i) as [[]|] eqn:Ha; try discriminate Hs. destruct (quiet s) eqn:Hq, (canceled s) eqn:Hcan; try discriminate Hs.
    cbn [andb negb] in Hs. injection Hs as <-. set (k := length (reqs s)). set (q := Req _ _ _ _ _ _). set (s1 := set_reqs _ s).
    set (a' := if o_cancel o then _ else _). set (s' := goto _ _ _).
    assert (Hk' : forall j, current s' j -> j = k) by (intros j; unfold current; simpl; rewrite length_app; simpl; unfold k; lia).
    split.
    + intros _ j _ _. left. eapply has_insert_new; [exact Ha|]. unfold a', add_next. by destruct (o_cancel o), (is_timed s1 k).
    + intros _ j _ H. change (canceled s = true) in H. congruence.
    + intros _ _ j Hj Htd. left. eapply has_insert_new; [exact Ha|]. rewrite (Hk' _ Hj) in Htd.
      change (is_timed s1 k = true) in Htd. unfold a', add_next. rewrite Htd. by destruct (o_cancel o).
    + intros j Hj. apply (win_grows_append s s' q eq_refl). apply (sv_made _ Hok). destruct Hj as [H|H]; [by left|right].
      simpl in H. apply has_insert_inv in H as [H|H]; [|done]. unfold a', add_next in H. by destruct (o_cancel o), (is_timed s1 k).
  - destruct (quiet s) eqn:Hq, (canceled s); try discriminate Hs. injection Hs as <-.
    apply (win_served_resumed s); [done| |by eapply win_grows_append|done]. unfold waiting. simpl. by rewrite last_snoc.
  - destruct (agents s !! i) as [a|] eqn:Ha; [|done].
    destruct a; unfold act in Hs; try discriminate Hs; first [by eapply win_served_subscribe|by eapply win_served_cancel
      |by eapply win_served_select|by eapply win_served_timeout].
  - destruct (call_of s k) as [|b| |] eqn:Hc; try discriminate Hs. injection Hs as <-.
    apply (win_served_same s); try upd_done. by eapply win_grows_set.
  - destruct (agents s !! port_id) as [[]|] eqn:Ha; try discriminate Hs. destruct (call_of s k) as [| |st n|]; try discriminate Hs.
    injection Hs as <-. served_step Hok Ha. by eapply win_grows_set.
  - destruct (agents s !! timer_id) as [[]|] eqn:Ha; try discriminate Hs.
    destruct (entries s !! e) as [[o [p|] [|]]|]; try discriminate Hs. injection Hs as <-. destruct p; served_step Hok Ha.
  - destruct (agents s !! i) as [[]|] eqn:Ha; try discriminate Hs. injection Hs as <-. served_step Hok Ha.
  - destruct (last (reqs s)) as [q|] eqn:Hl; [|done]. destruct (phase_of q) as [|p| |] eqn:Hp; try discriminate Hs. injection Hs as <-.
    apply (win_served_resumed s); [done| |apply win_grows_same; intros; upd_done|].
    + unfold waiting. simpl. rewrite last_alter, Hl. by case_decide; simpl; rewrite ?Hp.
    + intros j [H|H]; [|by right]. simpl in H. left. by destruct (canceled s && negb b).
  - destruct (last (reqs s)) as [q|] eqn:Hl; [|done]. destruct (phase_of q) as [|p| |] eqn:Hp; try discriminate Hs.
    destruct (guard q); [done|]. injection Hs as <-.
    apply (win_served_resumed s); [done| |apply win_grows_same; intros; upd_done|done].
    unfold waiting. simpl. rewrite last_alter, Hl. by case_decide; simpl; rewrite ?Hp.
  - destruct (last (reqs s)) as [q|]; [|done]. destruct (phase_of q) as [| |[]|]; try discriminate Hs;
      (destruct (guard q && canceled s); [|done]); injection Hs as <-; by destruct Hreg as (_ & _ & [=] & _).
Qed.

Lemma win_served_reachable n s : port_id = timer_id -> reachable step (init n) s -> regular s -> served s.
Proof.
  intros Hport. induction 1 as [|s ev s' Hr IH Hs]; intros Hreg.
  - split; try done. intros j [H|(i & a & H & Ha)]; [done|]. by apply lookup_replicate in H as [-> _].
  - pose proof (win_regular_step _ _ _ Hs Hreg) as Hreg0. eapply win_served_step_ev; [by eapply win_inv_reachable|done|by apply IH|done].
Qed.

(** At rest a suspended operation is with the kernel. *)
Lemma win_rest_kernel s k : inv s -> (forall i a, agents s !! i = Some a -> a = AIdle) -> waiting s = true -> current s k ->
  co s = Some k /\ with_kernel (call_of s k) = true.
Proof.
  intros Hi Hrest Hw Hk. pose proof (iv_place _ Hi) as Hp. pose proof (iv_take _ Hi) as Ht.
  rewrite Hw, (zsum_all_zero holds (agents s)) in Hp by (intros i a Ha; by rewrite (Hrest _ _ Ha)).
  rewrite (zsum_all_zero takes (agents s)) in Ht by (intros i a Ha; by rewrite (Hrest _ _ Ha)).
  assert (Hco : co s = Some k).
  { destruct (co s) as [j|] eqn:Hc; [|done]. f_equal. eapply win_current_det; [by apply (iv_co _ Hi)|done]. }
  split; [done|]. rewrite Hco in Ht. unfold in_kernel in Ht. rewrite last_lookup, <- Hk in Ht. simpl in Ht.
  unfold call_of. destruct (reqs s !! k) as [q|]; simpl in *; [|done]. by destruct (with_kernel (call q)).
Qed.

(** [m] steps of the worker resume the coroutine of call [k] with parameter [p]. *)
Definition resumes (i m : nat) (k : nat) (err : Z) (p : option error) (s : state) : Prop :=
  exists s' q, run step (replicate m (Act i (Some err) true)) s = Some s' /\ reqs s' !! k = Some q /\ phase_of q = Woken p.

Section resumes.
Context (i k : nat) (st err : Z).
Abbreviation resumed_in m := (resumes i m k err (status_para st err)).

Lemma win_resumes_step m s s' a :
  agents s !! i = Some a -> act i (Some err) true a s = Some s' -> resumed_in m s' -> resumed_in (S m) s.
Proof. intros Ha Hs (s2 & q & Hr & H). exists s2, q. split; [|done]. simpl. by rewrite Ha, Hs. Qed.

Lemma win_resumes_run s : is_Some (reqs s !! k) -> agents s !! i = Some (PRun k (status_para st err)) -> resumed_in 1 s.
Proof.
  intros [q Hq] Ha. eapply win_resumes_step; [done|reflexivity|]. eexists. eexists. split; [reflexivity|]. simpl.
  by rewrite list_lookup_alter_eq, Hq.
Qed.

Lemma win_resumes_status s : is_Some (reqs s !! k) -> agents s !! i = Some (PStatus k st) -> resumed_in 2 s.
Proof.
  intros Hq Ha. eapply win_resumes_step; [done|reflexivity|]. apply win_resumes_run; [done|]. apply list_lookup_insert_eq. by eapply lookup_lt_Some.
Qed.

Lemma win_resumes_null s e : is_Some (reqs s !! k) -> agents s !! i = Some (PNull k st e) -> is_Some (data_of s e) -> resumed_in 4 s.
Proof.
  intros Hq Ha [d Hd]. assert (Hlt : i < length (agents s)) by (by eapply lookup_lt_Some).
  eapply win_resumes_step; [done|cbn; rewrite Hd; reflexivity|].
  eapply win_resumes_step; [by apply list_lookup_insert_eq|reflexivity|].
  apply win_resumes_status; [by destruct (_ && _)|]. by destruct (_ && _); apply list_lookup_insert_eq; simpl; rewrite length_insert.
Qed.

Lemma win_resumes_timer s : is_Some (reqs s !! k) -> agents s !! i = Some (PTimer k st) ->
  (forall e, timer_of s k = Some e -> is_Some (data_of s e)) -> exists m, resumed_in m s.
Proof.
  intros Hq Ha Htm. assert (Hlt : i < length (agents s)) by (by eapply lookup_lt_Some).
  destruct (timer_of s k) as [e|] eqn:Ht.
  - exists 5. eapply win_resumes_step; [done|cbn; rewrite Ht; reflexivity|]. apply (win_resumes_null _ e); [|by apply list_lookup_insert_eq|by apply Htm].
    simpl. by rewrite list_lookup_alter_eq, fmap_is_Some.
  - exists 3. eapply win_resumes_step; [done|cbn; rewrite Ht; reflexivity|]. apply win_resumes_status; [done|]. by apply list_lookup_insert_eq.
Qed.
End resumes.

(** The packet of a call at rest resumes the coroutine. *)
Lemma win_packet_resumes s k st n err : port_id = timer_id -> inv s -> (forall i a, agents s !! i = Some a -> a = AIdle) ->
  port_id < length (agents s) -> call_of s k = KPosted st n ->
  exists m s' q, run step (Select k :: replicate m (Act port_id (Some err) true)) s = Some s' /\
    reqs s' !! k = Some q /\ phase_of q = Woken (status_para st err).
Proof.
  intros Hport Hi Hrest Hlt Hc. destruct (win_kernel_alone s k Hi) as (Hcur & Hco & Hw & _); [by rewrite Hc|].
  destruct (lookup_lt_is_Some_2 _ _ Hlt) as [a Ha]. pose proof (Hrest _ _ Ha) as ->.
  set (s1 := goto port_id (PCo k st) (upd k (set_call (KTaken n)) s)).
  assert (Hs1 : step s (Select k) = Some s1) by (simpl; by rewrite Ha, Hc).
  assert (Ha1 : agents s1 !! port_id = Some (PCo k st)) by (by apply list_lookup_insert_eq).
  assert (Hi1 : inv s1) by (by eapply win_inv_select).
  assert (Hq1 : is_Some (reqs s1 !! k)) by (simpl; rewrite list_lookup_alter_eq, fmap_is_Some; by apply win_current_lookup).
  set (s2 := goto port_id (PTimer k st) (set_co None (touch (alive s1 k) s1))).
  assert (Hs2 : act port_id (Some err) true (PCo k st) s1 = Some s2) by (cbn; by rewrite bool_decide_true).
  destruct (win_resumes_timer port_id k st err s2) as [m Hm]; [done|apply list_lookup_insert_eq; by eapply lookup_lt_Some| |].
  - intros e He. change (timer_of s1 k = Some e) in He. rewrite (win_upd_timer s s1 k (set_call (KTaken n))) in He by done.
    destruct (tb_timer _ (iv_table _ Hi) _ _ He) as (_ & _ & _ & [Hl|Hl]); [|by apply Hrest in Hl].
    change (is_Some (data_of s e)). unfold data_of. rewrite Hl. by eexists.
  - destruct (win_resumes_step port_id k st err m s1 s2 _ Ha1 Hs2 Hm) as (s' & q & Hr & H). exists (S m), s', q.
    split; [|done]. cbn [run]. by rewrite Hs1.
Qed.

(** ** The theorems *)

(** C37. When the port of a handle and its timers belong to the same worker, and no timer
    expired before its handle was stored, no call with a timeout was refused, no
    operation was over before [subscribe] had given its [EventData] to the [Cancel] and
    no cancellation ended [DelayDrop::wait], completion I/O is memory safe under every
    interleaving: no freed operation or [EventData] is used, no worker panics, while
    the kernel has a call its operation is suspended with the coroutine in its
    [EventData], and an entry of the timer list that points to an [EventData] points to
    that of the suspended operation. *)
Theorem win_io_safe n s :
  port_id = timer_id -> reachable step (init n) s -> regular s ->
  ub s = false /\ (forall i, agents s !! i <> Some APanic) /\
  (forall k, with_kernel (call_of s k) = true -> co s = Some k /\ current s k /\ waiting s = true) /\
  (forall e m, entries s !! e = Some m -> data m = Some true -> linked m = true /\ current s (owner m) /\ waiting s = true).
Proof.
  intros Hport Hr Hreg. pose proof (win_inv_reachable _ _ Hport Hr Hreg) as Hi. split_and!.
  - apply (iv_ub _ Hi).
  - intros i Ha. apply (iv_agent _ Hi _ _ Ha).
  - intros k Hk. by destruct (win_kernel_alone _ _ Hi Hk) as (? & ? & ? & _).
  - intros e m Hm Hd. destruct (tb_live _ (iv_table _ Hi) _ _ Hm Hd) as (Hw & Hc & _). split_and!; [|done..].
    by rewrite <- (tb_linked _ (iv_table _ Hi) _ _ Hm), Hd.
Qed.

(** C38. When the port of a handle and its timers belong to the same worker, and no
    timer expired before its handle was stored, no call with a timeout was refused, no
    operation was over before [subscribe] had given its [EventData] to the [Cancel]
    and no cancellation ended [DelayDrop::wait], no operation waits for nothing: at
    rest a suspended operation has its call with the kernel; if it registers for
    cancellation and the coroutine is cancelled, the kernel was told to give it up; if
    it has a timeout, and no timer expired before its call was made, its timer is in
    the list or the kernel was told; and once the packet is posted the worker resumes
    the coroutine with the status of the packet. *)
Theorem win_io_served n s k :
  port_id = timer_id -> reachable step (init n) s -> regular s ->
  (forall i a, agents s !! i = Some a -> a = AIdle) -> port_id < length (agents s) -> waiting s = true -> current s k ->
  with_kernel (call_of s k) = true /\
  (cancels s k = true -> canceled s = true -> asked (call_of s k) = true) /\
  (is_timed s k = true -> missed (hs s) = false ->
     asked (call_of s k) = true \/ exists e, entries s !! e = Some (En k (Some true) true)) /\
  (forall st sz err, call_of s k = KPosted st sz ->
     exists m s' q, run step (Select k :: replicate m (Act port_id (Some err) true)) s = Some s' /\
       reqs s' !! k = Some q /\ phase_of q = Woken (status_para st err)).
Proof.
  intros Hport Hr Hreg Hrest Hlt Hw Hk. pose proof (win_inv_reachable _ _ Hport Hr Hreg) as Hi.
  pose proof (win_served_reachable _ _ Hport Hr Hreg) as Hok. destruct (win_rest_kernel _ _ Hi Hrest Hw Hk) as [Hco Hc].
  assert (Hno : forall P : pc -> bool, P AIdle = false -> ~ has P (agents s)).
  { intros P HP (i & a & Ha & H). by rewrite (Hrest _ _ Ha), HP in H. }
  split_and!; [done|..].
  - intros Hcan Hcd. destruct (sv_reg _ Hok Hw k Hk Hcan) as [H|[H|H]]; [by apply Hno in H| |done].
    by apply (sv_slot _ Hok Hw k Hk Hcd), Hno in H.
  - intros Htd Hm. destruct (sv_timer _ Hok Hm Hw k Hk Htd) as [H|[H|H]]; [by apply Hno in H| |by left].
    right. destruct (timer_of s k) as [e|] eqn:He; [|done]. exists e.
    by destruct (tb_timer _ (iv_table _ Hi) _ _ He) as (_ & _ & _ & [Hl|Hl]); [|apply Hrest in Hl].
  - intros st sz err. by apply win_packet_resumes.
Qed.

End machine.

(** ** Runs

    Thread [2] executes the coroutine, thread [3] cancels it. *)
Module Demo.
Definition acts (i n : nat) : list event := replicate n (Act i None true).

(** One worker: the port and the timers of every handle are its own. *)
Definition go1 (es : list event) : option state := run (step 12 1) es (init 4).
Definition read : list event := Call 2 SocketRead true :: acts 2 8.
Definition pending : state := default (init 4) (go1 read).
Definition cancelled : state := default (init 4) (go1 (read ++ [Cancel 3] ++ acts 3 3 ++ [Complete 0 STATUS_CANCELLED 0])).

(** Two workers: worker [1] has the port of handle [4], worker [0] its timers. *)
Definition go2 (es : list event) : option state := run (step 4 2) es (init 4).
End Demo.

Lemma win_pending_reachable : reachable (step 12 1) (init 4) Demo.pending.
Proof. apply (run_reachable _ _ Demo.read). vm_compute. reflexivity. Qed.
Lemma win_cancelled_reachable : reachable (step 12 1) (init 4) Demo.cancelled.
Proof. apply (run_reachable _ _ (Demo.read ++ [Cancel 3] ++ Demo.acts 3 3 ++ [Complete 0 STATUS_CANCELLED 0])). vm_compute. reflexivity. Qed.

Lemma win_io_safe_witness :
  ub Demo.pending = false /\ call_of Demo.pending 0 = KPending false /\ co Demo.pending = Some 0 /\
  entries Demo.pending = [En 0 (Some true) true] /\ current Demo.pending 0.
Proof.
  destruct (win_io_safe 12 1 4 Demo.pending) as (Hub & _ & Hk & He).
  - reflexivity.
  - exact win_pending_reachable.
  - vm_compute. repeat split.
  - split; [exact Hub|]. split; [reflexivity|]. destruct (Hk 0 eq_refl) as (Hco & Hc & _). split; [exact Hco|].
    split; [reflexivity|]. exact Hc.
Defined.

Lemma win_io_served_witness :
  asked (call_of Demo.cancelled 0) = true /\
  exists m s' q, run (step 12 1) (Select 0 :: replicate m (Act 0 (Some 0%Z) true)) Demo.cancelled = Some s' /\
    reqs s' !! 0 = Some q /\ phase_of q = Woken (Some TimedOut).
Proof.
  destruct (win_io_served 12 1 4 Demo.cancelled 0) as (_ & Hcan & _ & Hrun).
  - reflexivity.
  - exact win_cancelled_reachable.
  - vm_compute. repeat split.
  - intros i a Hi. vm_compute in Hi. by destruct i as [|[|[|[|i]]]]; simplify_eq.
  - vm_compute. repeat constructor.
  - reflexivity.
  - reflexivity.
  - split; [exact (Hcan eq_refl eq_refl)|]. exact (Hrun STATUS_CANCELLED 0%Z 0%Z eq_refl).
Defined.

(** With two workers the packet and the timeout of one call are handled at once: the
    port's worker finds the timer popped and panics with the coroutine in its hands, *)
Lemma win_worker_panics :
  exists s, Demo.go2 (Demo.read ++ [Expire 0; Complete 0 NO_ERROR 5; Select 0] ++ Demo.acts 1 3) = Some s /\
    agents s !! 1 = Some APanic /\ waiting s = true /\ co s = None /\ regular s.
Proof. eexists. split; [vm_compute; reflexivity|]. by split_and!. Qed.
(** or the operation is over and freed when the timeout handler cancels its call. *)
Lemma win_split_use_after_free :
  exists s, Demo.go2 (Demo.read ++ [Expire 0] ++ Demo.acts 0 1 ++ [Complete 0 NO_ERROR 5; Select 0] ++ Demo.acts 1 4 ++
      [Resume false None; Drop] ++ Demo.acts 0 1) = Some s /\
    map phase_of (reqs s) = [Gone (ROk 5)] /\ ub s = true /\ regular s.
Proof. eexists. split; [vm_compute; reflexivity|]. by split_and!. Qed.

(** The system refuses the call of a write with a timeout: the coroutine is resumed with
    the error, and its timer stays in the list and is used after the write is gone. *)
Lemma win_refused_use_after_free :
  exists s, Demo.go1 ([Call 2 SocketWrite true] ++ Demo.acts 2 3 ++ [Act 2 (Some 10054%Z) true] ++ Demo.acts 2 2 ++
      [Resume false None; Drop; Expire 0] ++ Demo.acts 0 1) = Some s /\
    map phase_of (reqs s) = [Gone (RErr (Os 10054))] /\ ub s = true /\ failed (hs s) = true.
Proof. eexists. split; [vm_compute; reflexivity|]. by split_and!. Qed.

(** The packet is handled while [subscribe] is still running.  The read returns and its
    [EventData] is freed before its [DelayDrop] waits, and [subscribe] clones the
    [Arc<EventData>] of the read. *)
Lemma win_drop_order :
  exists s, Demo.go1 ([Call 2 SocketRead false] ++ Demo.acts 2 3 ++ [Complete 0 NO_ERROR 5; Select 0] ++ Demo.acts 0 4 ++
      [Resume false None] ++ Demo.acts 2 1) = Some s /\
    map phase_of (reqs s) = [Dropping (ROk 5)] /\ present s 0 = true /\ ub s = true /\ late (hs s) = true.
Proof. eexists. split; [vm_compute; reflexivity|]. by split_and!. Qed.

(** The coroutine is cancelled in [DelayDrop::wait], which panics: [subscribe] still
    has the frame it was waiting for. *)
Lemma win_escape_use_after_free :
  exists s, Demo.go1 ([Call 2 SocketRead false] ++ Demo.acts 2 4 ++ [Complete 0 NO_ERROR 5; Select 0] ++ Demo.acts 0 4 ++
      [Resume false None; Cancel 3] ++ Demo.acts 3 1 ++ [Escape] ++ Demo.acts 2 4) = Some s /\
    map phase_of (reqs s) = [Gone RPanic] /\ ub s = true /\ late (hs s) = false.
Proof. eexists. split; [vm_compute; reflexivity|]. by split_and!. Qed.

(** A read of a cancelled coroutine that unwinds returns [Ok(0)], the end of the stream,
    without a call. *)
Lemma win_skipped_read :
  exists s, Demo.go1 ([Cancel 3] ++ Demo.acts 3 1 ++ [Skip SocketRead true None]) = Some s /\
    map phase_of (reqs s) = [Gone (ROk 0)] /\ call_of s 0 = KNone.
Proof. eexists. split; [vm_compute; reflexivity|]. by split_and!. Qed.

(** The port of a handle and its timers belong to the same worker when there is one. *)
Lemma win_one_worker handle : port_id handle 1 = timer_id handle 1.
Proof. unfold port_id, timer_id. by rewrite !Z.mod_1_r. Qed.

End Wio.
