(* ===== verification/ThreadIo.v ===== *)
(** * ThreadIo: I/O of plain threads

    [src/io/thread.rs], the branch of [yield_with_io] in [src/yield_now.rs] that is not a
    coroutine, and that of [co_io_result].  A thread sends the operation to a proxy
    coroutine of its own, which suspends on it, and parks; the proxy stores what it was
    resumed with and unparks the thread.  The channel is the FIFO queue that [MpscChan]
    promises, [std::thread::park] has the one token of its documentation. *)

From stdpp Require Import base numbers list.
From Stdlib Require Import ZArith Lia.
From S2P Require Import Prelude.

Module Tio.

(** What a suspended operation is resumed with: nothing for an event, or an error (of a
    timeout). *)
Abbreviation para := (option Z).
Inductive result := ROk | RErr (e : Z) | RSys (e : Z).
(** The answer of the system call of [done]: it finished or failed, or it would block
    and [io_flag] is set or not. *)
Inductive answer := Ready | Failed (e : Z) | Again (flag : bool).

(** The thread: in [tx.send], in [thread::park], in [co_io_result], in the system call of
    [done]. *)
Inductive tpc := TIdle | TSend (k : nat) | TPark (k : nat) | TTake (k : nat) | TCall (k : nat) | TGone.
(** The proxy: in [rx.recv], in [subscribe], suspended, resumed. *)
Inductive ppc := PRecv | PSub (k : nat) | PWait (k : nat) | PStore (e : Z) | PUnpark | PEnd.

(** [ops]: the operations, on the stack of the thread until they have a result; [queue]:
    the channel; [token]: of [thread::park]; [io_ret]: [ASSOCIATED_IO_RET]; [ub]: an
    operation was used after its end.  History: [delivered], and [stray]: [park] returned
    for another reason than [parker.unpark()]. *)
Record state := ST {
  thread : tpc; proxy : ppc; ops : list (option result); queue : list nat; token : bool; io_ret : option Z;
  ub : bool; delivered : list (nat * para); stray : bool
}.

Definition init : state := ST TIdle PRecv [] [] false None false [] false.

Definition set_thread (a : tpc) (s : state) : state :=
  ST a (proxy s) (ops s) (queue s) (token s) (io_ret s) (ub s) (delivered s) (stray s).
Definition set_proxy (a : ppc) (s : state) : state :=
  ST (thread s) a (ops s) (queue s) (token s) (io_ret s) (ub s) (delivered s) (stray s).
Definition set_ops (l : list (option result)) (s : state) : state :=
  ST (thread s) (proxy s) l (queue s) (token s) (io_ret s) (ub s) (delivered s) (stray s).
Definition set_queue (l : list nat) (s : state) : state :=
  ST (thread s) (proxy s) (ops s) l (token s) (io_ret s) (ub s) (delivered s) (stray s).
Definition set_token (b w : bool) (s : state) : state :=
  ST (thread s) (proxy s) (ops s) (queue s) b (io_ret s) (ub s) (delivered s) (stray s || w).
Definition set_ret (o : option Z) (s : state) : state :=
  ST (thread s) (proxy s) (ops s) (queue s) (token s) o (ub s) (delivered s) (stray s).
Definition deliver (k : nat) (p : para) (s : state) : state :=
  ST (thread s) (proxy s) (ops s) (queue s) (token s) (io_ret s) (ub s) (delivered s ++ [(k, p)]) (stray s).
Definition touch (b : bool) (s : state) : state :=
  ST (thread s) (proxy s) (ops s) (queue s) (token s) (io_ret s) (ub s || negb b) (delivered s) (stray s).

(** Operation [k] is on the stack. *)
Definition alive (s : state) (k : nat) : bool := match ops s !! k with Some None => true | _ => false end.
(** It returns [r]. *)
Definition finish (k : nat) (r : result) (s : state) : state := set_thread TIdle (set_ops (<[k:=Some r]> (ops s)) s).

(** [yield_with_io] in a thread; [w]: does [park] return without a token. *)
Definition step_yield (w : bool) (s : state) : option state :=
  match thread s with
  | TSend k => Some (set_thread (TPark k) (set_queue (queue s ++ [k]) s))
  | TPark k =>
      if token s then Some (set_thread (TTake k) (set_token false false s))
      else if w then Some (set_thread (TTake k) (set_token false true s)) else None
  | _ => None
  end.

(** [co_io_result], which takes the stored error. *)
Definition co_io_result (s : state) : para * state := (io_ret s, set_ret None s).

(** The loop of [done]. *)
Definition step_done (a : answer) (s : state) : option state :=
  match thread s with
  | TTake k =>
      let '(p, s') := co_io_result s in
      Some (match p with Some e => finish k (RErr e) s' | None => set_thread (TCall k) s' end)
  | TCall k =>
      Some (match a with
            | Ready => finish k ROk s
            | Failed e => finish k (RSys e) s
            | Again true => set_thread (TTake k) s
            | Again false => set_thread (TSend k) s
            end)
  | _ => None
  end.

(** The proxy coroutine; the sender is dropped with the thread. *)
Definition step_proxy (s : state) : option state :=
  match proxy s with
  | PRecv =>
      match queue s, thread s with
      | k :: l, _ => Some (set_proxy (PSub k) (set_queue l s))
      | [], TGone => Some (set_proxy PEnd s)
      | [], _ => None
      end
  | PSub k => Some (set_proxy (PWait k) (touch (alive s k) s))
  | PStore e => Some (set_proxy PUnpark (set_ret (Some e) s))
  | PUnpark => Some (set_proxy PRecv (set_token true false s))
  | PWait _ | PEnd => None
  end.

Inductive event :=
  | Start              (* an I/O method suspends on a new operation *)
  | Thread (w : bool) (a : answer)
  | Proxy
  | Event (p : para)   (* the operation the proxy is suspended on is resumed *)
  | Unpark             (* somebody else unparks the thread *)
  | Exit.

Definition step (s : state) (ev : event) : option state :=
  match ev with
  | Start =>
      match thread s with
      | TIdle => Some (set_thread (TSend (length (ops s))) (set_ops (ops s ++ [None]) s))
      | _ => None
      end
  | Thread w a =>
      match thread s with
      | TSend _ | TPark _ => step_yield w s
      | TTake _ | TCall _ => step_done a s
      | TIdle | TGone => None
      end
  | Proxy => step_proxy s
  | Event p =>
      match proxy s with
      | PWait k => Some (set_proxy (match p with Some e => PStore e | None => PUnpark end) (deliver k p s))
      | _ => None
      end
  | Unpark => Some (set_token true true s)
  | Exit => match thread s with TIdle => Some (set_thread TGone s) | _ => None end
  end.

(** ** The specification: the same operation in a coroutine

    [yield_with_io] suspends the coroutine itself, and [get_co_para] is what it was
    resumed with. *)
Inductive apc := CIdle | CWait (k : nat) | CResumed (k : nat) (p : para) | CCall (k : nat).
Record astate := AS { acoro : apc; aops : list (option result); adelivered : list (nat * para) }.
Definition ainit : astate := AS CIdle [] [].

Inductive aevent := AStart | AEvent (p : para) | ATake | ACall (a : answer).
Definition astep (s : astate) (ev : aevent) : option astate :=
  match ev, acoro s with
  | AStart, CIdle => Some (AS (CWait (length (aops s))) (aops s ++ [None]) (adelivered s))
  | AEvent p, CWait k => Some (AS (CResumed k p) (aops s) (adelivered s ++ [(k, p)]))
  | ATake, CResumed k p =>
      Some (match p with
            | Some e => AS CIdle (<[k:=Some (RErr e)]> (aops s)) (adelivered s)
            | None => AS (CCall k) (aops s) (adelivered s)
            end)
  | ACall a, CCall k =>
      Some (match a with
            | Ready => AS CIdle (<[k:=Some ROk]> (aops s)) (adelivered s)
            | Failed e => AS CIdle (<[k:=Some (RSys e)]> (aops s)) (adelivered s)
            | Again true => AS (CResumed k None) (aops s) (adelivered s)
            | Again false => AS (CWait k) (aops s) (adelivered s)
            end)
  | _, _ => None
  end.

(** What the thread and its proxy are as one coroutine. *)
Definition view (s : state) : apc :=
  match thread s with
  | TIdle | TGone => CIdle
  | TSend k => CWait k
  | TPark k =>
      match proxy s with
      | PStore e => CResumed k (Some e)
      | PUnpark => CResumed k (io_ret s)
      | _ => if token s then CResumed k (io_ret s) else CWait k
      end
  | TTake k => CResumed k (io_ret s)
  | TCall k => CCall k
  end.
Definition abs (s : state) : astate := AS (view s) (ops s) (delivered s).

(** ** The invariant *)

(** The thread and the proxy take turns: the operation is in one place. *)
Definition turns (s : state) : Prop :=
  match thread s with
  | TIdle | TSend _ | TCall _ => proxy s = PRecv /\ queue s = [] /\ token s = false /\ io_ret s = None
  | TTake _ => proxy s = PRecv /\ queue s = [] /\ token s = false
  | TGone => (proxy s = PRecv \/ proxy s = PEnd) /\ queue s = [] /\ token s = false /\ io_ret s = None
  | TPark k =>
      (proxy s = PRecv /\ queue s = [k] /\ token s = false /\ io_ret s = None) \/
      ((proxy s = PSub k \/ proxy s = PWait k \/ exists e, proxy s = PStore e) /\ queue s = [] /\ token s = false /\ io_ret s = None) \/
      (proxy s = PUnpark /\ queue s = [] /\ token s = false) \/
      (proxy s = PRecv /\ queue s = [] /\ token s = true)
  end.
Definition current (a : tpc) : option nat :=
  match a with TSend k | TPark k | TTake k | TCall k => Some k | TIdle | TGone => None end.

Record inv (s : state) : Prop := {
  iv_turns : turns s;
  iv_alive : forall k, current (thread s) = Some k -> alive s k = true;
  iv_ub : ub s = false
}.

Definition regular (s : state) : Prop := stray s = false.

Lemma tio_regular_step s ev s' : step s ev = Some s' -> regular s' -> regular s.
Proof.
  unfold regular. intros Hs. destruct ev; cbn in Hs; unfold step_yield, step_done, step_proxy, co_io_result in Hs;
    repeat (case_match; try discriminate Hs); simplify_eq/=; rewrite ?orb_false_iff; try done; by intros [? ?].
Qed.

Lemma tio_alive_insert s k r : alive (finish k r s) k = false.
Proof.
  unfold alive, finish. simpl. destruct (decide (k < length (ops s))) as [H|H].
  - by rewrite list_lookup_insert_eq.
  - by rewrite lookup_ge_None_2 by (rewrite length_insert; lia).
Qed.

(** Case analysis on the positions of the invariant. *)
Ltac turn_cases Ht :=
  unfold turns in Ht;
  repeat match type of Ht with
  | _ /\ _ => let H := fresh "H" in destruct Ht as [H Ht]
  | _ \/ _ => destruct Ht as [Ht|Ht]
  end.

Lemma tio_inv_step s ev s' : inv s -> regular s' -> step s ev = Some s' -> inv s'.
Proof.
  intros [Ht Ha Hu] Hreg Hs. destruct s as [th px os q tk rt u d sy]. unfold turns, regular in *. simpl in *.
  destruct ev as [|w a| |p| |].
  - destruct th; try discriminate Hs. injection Hs as <-. split; [done| |done]. intros k [= <-].
    unfold alive. simpl. by rewrite (list_lookup_middle os []).
  - destruct th as [|k|k|k|k|]; cbn in Hs; try discriminate Hs.
    + injection Hs as <-. destruct Ht as (-> & -> & -> & ->). split; [|done|done]. left. done.
    + destruct tk.
      * injection Hs as <-. split; [|done|done]. unfold turns. simpl. intuition congruence.
      * destruct w; [|done]. injection Hs as <-. simpl in Hreg. by rewrite orb_true_r in Hreg.
    + destruct Ht as (-> & -> & ->). destruct rt; injection Hs as <-; by split.
    + destruct Ht as (-> & -> & -> & ->). destruct a as [|e|[]]; injection Hs as <-; by split.
  - unfold step_proxy in Hs. simpl in Hs. destruct px as [|k|k|e| |]; try discriminate Hs.
    + destruct q as [|k q].
      * destruct th; try discriminate Hs. injection Hs as <-. split; [|done|done]. unfold turns. simpl. tauto.
      * injection Hs as <-. destruct th as [|j|j|j|j|]; try (by destruct Ht as (_ & [=] & _)).
        destruct Ht as [(_ & [= -> ->] & -> & ->)|[(_ & [=] & _)|[(_ & [=] & _)|(_ & [=] & _)]]].
        split; [|done|done]. unfold turns. simpl. right. left. auto.
    + injection Hs as <-. destruct th as [|j|j|j|j|]; try (by destruct Ht as ([=] & _)).
      * destruct Ht as [([=] & _)|[([[= ->]|[[=]|[e [=]]]] & -> & -> & ->)|[([=] & _)|([=] & _)]]].
        split; [|done|].
        -- unfold turns. simpl. right. left. auto.
        -- pose proof (Ha j eq_refl) as Hal. unfold alive in *. simpl in *. by rewrite Hu, Hal.
      * by destruct Ht as ([[=]|[=]] & _).
    + injection Hs as <-. destruct th as [|j|j|j|j|]; try (by destruct Ht as ([=] & _)).
      * destruct Ht as [([=] & _)|[(_ & -> & -> & _)|[([=] & _)|([=] & _)]]].
        split; [|done|done]. unfold turns. simpl. right. right. left. auto.
      * by destruct Ht as ([[=]|[=]] & _).
    + injection Hs as <-. destruct th as [|j|j|j|j|]; try (by destruct Ht as ([=] & _)).
      * destruct Ht as [([=] & _)|[([[=]|[[=]|[e [=]]]] & _)|[(_ & -> & ->)|([=] & _)]]].
        split; [|done|done]. unfold turns. simpl. right. right. right. auto.
      * by destruct Ht as ([[=]|[=]] & _).
  - destruct px as [|k|k|e| |]; try discriminate Hs. injection Hs as <-.
    destruct th as [|j|j|j|j|]; try (by destruct Ht as ([=] & _)).
    + destruct Ht as [([=] & _)|[([[=]|[[= ->]|[e [=]]]] & -> & -> & ->)|[([=] & _)|([=] & _)]]].
      split; [|done|done]. unfold turns. simpl. destruct p as [e|]; [right; left; eauto 10|right; right; left; auto].
    + by destruct Ht as ([[=]|[=]] & _).
  - injection Hs as <-. simpl in Hreg. by rewrite orb_true_r in Hreg.
  - destruct th; try discriminate Hs. injection Hs as <-. split; [|done|done]. unfold turns. simpl. tauto.
Qed.

Lemma tio_inv_reachable s : reachable step init s -> regular s -> inv s.
Proof.
  induction 1 as [|s ev s' Hr IH Hs]; intros Hreg; [by split|].
  eapply tio_inv_step; [|done..]. apply IH. by eapply tio_regular_step.
Qed.

(** ** The thread refines the coroutine *)

(** Every step is one of the coroutine's or none. *)
Lemma tio_simulates s ev s' : inv s -> regular s' -> step s ev = Some s' ->
  abs s' = abs s \/ exists av, astep (abs s) av = Some (abs s').
Proof.
  intros [Ht Ha Hu] Hreg Hs. destruct s as [th px os q tk rt u d sy]. unfold turns, regular, abs, view in *. simpl in *.
  destruct ev as [|w a| |p| |].
  - destruct th; try discriminate Hs. injection Hs as <-. right. by exists AStart.
  - destruct th as [|k|k|k|k|]; cbn in Hs; try discriminate Hs.
    + injection Hs as <-. destruct Ht as (-> & -> & -> & ->). by left.
    + destruct tk.
      * injection Hs as <-. left. destruct Ht as [(_ & _ & [=] & _)|[(_ & _ & [=] & _)|[(_ & _ & [=])|(-> & -> & _)]]]. done.
      * destruct w; [|done]. injection Hs as <-. simpl in Hreg. by rewrite orb_true_r in Hreg.
    + right. exists ATake. destruct rt; by injection Hs as <-.
    + right. exists (ACall a). destruct Ht as (-> & -> & -> & ->). destruct a as [|e|[]]; by injection Hs as <-.
  - left. unfold step_proxy in Hs. simpl in Hs. destruct px as [|k|k|e| |]; try discriminate Hs.
    + destruct q as [|k q]; [destruct th; try discriminate Hs; by injection Hs as <-|]. injection Hs as <-.
      destruct th as [|j|j|j|j|]; try done; by destruct Ht as (_ & [=] & _).
    + injection Hs as <-. by destruct th.
    + injection Hs as <-. destruct th as [|j|j|j|j|]; try done; by destruct Ht as ([=] & _).
    + injection Hs as <-. destruct th as [|j|j|j|j|]; try done; by destruct Ht as ([=] & _).
  - destruct px as [|k|k|e| |]; try discriminate Hs. injection Hs as <-. right. exists (AEvent p).
    destruct th as [|j|j|j|j|]; try (by destruct Ht as ([=] & _)).
    + destruct Ht as [([=] & _)|[([[=]|[[= ->]|[e [=]]]] & -> & -> & ->)|[([=] & _)|([=] & _)]]]. by destruct p.
    + by destruct Ht as ([[=]|[=]] & _).
  - injection Hs as <-. simpl in Hreg. by rewrite orb_true_r in Hreg.
  - left. destruct th; try discriminate Hs. by injection Hs as <-.
Qed.

(** C39. If [thread::park] returns only because the proxy unparked the thread, an I/O
    operation of a thread is the operation of a coroutine: every run of thread, channel
    and proxy, under every interleaving, is a run of the coroutine that suspends on the
    operation itself, with the same operations, results and deliveries; and the proxy
    never uses an operation that is over. *)
Theorem thread_io_refines s :
  reachable step init s -> regular s -> reachable astep ainit (abs s) /\ ub s = false.
Proof.
  intros Hr Hreg. split; [|by apply tio_inv_reachable]. revert Hreg.
  induction Hr as [|s ev s' Hr IH Hs]; intros Hreg; [by constructor|].
  pose proof (tio_regular_step _ _ _ Hs Hreg) as Hreg0.
  destruct (tio_simulates s ev s') as [->|[av Hav]]; [by apply tio_inv_reachable|done..|by apply IH|].
  econstructor; [by apply IH|done].
Qed.

(** Nobody but the caller and the source of events has a step. *)
Definition at_rest (s : state) : Prop := (forall a, step s (Thread false a) = None) /\ step s Proxy = None.

(** Under the same condition no wake-up is lost: at rest a thread in [park] waits for
    the event of the operation its proxy is suspended on, and when that comes the
    thread takes exactly what was delivered. *)
Theorem thread_io_not_lost s k :
  reachable step init s -> regular s -> at_rest s -> thread s = TPark k ->
  proxy s = PWait k /\ alive s k = true /\
  forall p, exists n s', run step (Event p :: replicate n Proxy ++ [Thread false Ready]) s = Some s' /\
    thread s' = TTake k /\ io_ret s' = p.
Proof.
  intros Hr Hreg [Hth Hpx] Hk. destruct (tio_inv_reachable _ Hr Hreg) as [Ht Ha _]. specialize (Hth Ready).
  destruct s as [th px os q tk rt u d sy]. unfold turns in Ht. simpl in *. subst th. cbn in Hth.
  destruct Ht as [(-> & -> & _)|[([->|[->|[e ->]]] & -> & -> & ->)|[(-> & _)|(-> & -> & ->)]]]; try discriminate.
  split_and!; [done|by apply Ha|]. intros [e|]; [exists 2|exists 1]; by eexists.
Qed.

(** ** Runs *)
Definition runs (es : list event) : option state := run step es init.
(** The operation is sent and the proxy has suspended on it. *)
Definition in_park : list event := [Start; Thread false Ready; Proxy; Proxy].
(** Then [park] returns for no reason. *)
Definition left_park : list event := in_park ++ [Thread true Ready; Thread false Ready].
Definition parked : state := default init (runs in_park).
Lemma tio_parked_reachable : reachable step init parked.
Proof. apply (run_reachable _ _ in_park). vm_compute. reflexivity. Qed.

Lemma thread_io_refines_witness : reachable astep ainit (AS (CWait 0) [None] []) /\ ub parked = false.
Proof. apply (thread_io_refines parked tio_parked_reachable). reflexivity. Defined.

Lemma thread_io_not_lost_witness : proxy parked = PWait 0 /\
  exists n s', run step (Event (Some 110%Z) :: replicate n Proxy ++ [Thread false Ready]) parked = Some s' /\ io_ret s' = Some 110%Z.
Proof.
  destruct (thread_io_not_lost parked 0 tio_parked_reachable) as (Hp & _ & Hrun).
  - reflexivity.
  - split; reflexivity.
  - reflexivity.
  - split; [exact Hp|]. destruct (Hrun (Some 110%Z)) as (n & s' & Hr & _ & Hret). exists n, s'. split; assumption.
Defined.

(** [park] returns without a reason while the proxy is suspended.  The system call would
    block, so the thread sends the operation again; the event completes it, and the
    proxy then suspends on the operation that is over. *)
Lemma tio_use_after_free :
  exists s, runs (left_park ++ [Thread false (Again false); Thread false Ready; Event None; Proxy;
      Thread false Ready; Thread false Ready; Thread false Ready; Proxy; Proxy]) = Some s /\
    ops s = [Some ROk] /\ ub s = true.
Proof. eexists. split; [vm_compute; reflexivity|]. by split. Qed.

(** The timeout of an operation that is over becomes the result of the next one, at
    once: it has not been suspended at all. *)
Lemma tio_stale_result :
  exists s, runs (left_park ++ [Thread false Ready; Event (Some 110%Z); Proxy; Proxy; Start; Thread false Ready;
      Thread false Ready; Thread false Ready]) = Some s /\
    ops s = [Some ROk; Some (RErr 110)] /\ delivered s = [(0, Some 110%Z)] /\ queue s = [1].
Proof. eexists. split; [vm_compute; reflexivity|]. by split_and!. Qed.

End Tio.
