(* ===== verification/FdReg.v ===== *)
(** * FdReg: registering descriptors with epoll

    [add_fd], [mod_fd], [del_fd], [free_unused_event_data] and the events of [select] in
    [src/io/sys/unix/epoll.rs], [IoData] of [src/io/sys/unix/mod.rs], and the life of the
    I/O objects ([TcpStream], [UdpSocket], [CoIo], ...) around them: creation, [try_clone],
    [split], [into_raw_fd], drop.  The kernel gives out any number that is free, so
    numbers are used again; its interest list is keyed by number and open file
    description, an entry disappears with its description.  Any number of objects,
    whose steps interleave, and the one worker that their descriptors belong to. *)

From stdpp Require Import base numbers list gmap.
From Stdlib Require Import Lia.
From S2P Require Import Prelude.

Module Reg.

Inductive mask := Both | ReadOnly | WriteOnly.

(** The steps of an object's end: [epoll.delete] and [free_ev.push] of [del_fd], when
    its [IoData] is dropped, and [close], when the inner object is. *)
Inductive dstep := Delete | Push | Close.
Inductive phase := Opened | Live | Ending (l : list dstep).

(** Fields are dropped in the order of their declaration: [CoIo] has [io] before
    [inner], the sockets have [_io] before [sys]. *)
Definition io_first : list dstep := [Delete; Push; Close].

(** An object and its [EventData]; [desc]: the description its number refers to. *)
Record obj := Obj { fd : nat; desc : nat; wants : mask; popped : bool; phase_of : phase }.

(** The worker: in [epoll.wait], handling the events, in [free_unused_event_data]. *)
Inductive wpc := WWait | WBatch (l : list nat) | WFree.

(** [fds], [table]: the kernel's descriptor table and interest list.  History:
    [aliased], an object was made of a number that another object has. *)
Record state := ST {
  fds : gmap nat nat; table : gmap (nat * nat) (nat * mask); next : nat; objs : list obj; free_ev : list nat;
  worker : wpc; ub : bool; aliased : bool
}.

Definition init : state := ST ∅ ∅ 0 [] [] WWait false false.

Definition set_fds (m : gmap nat nat) (s : state) : state :=
  ST m (table s) (next s) (objs s) (free_ev s) (worker s) (ub s) (aliased s).
Definition set_table (t : gmap (nat * nat) (nat * mask)) (s : state) : state :=
  ST (fds s) t (next s) (objs s) (free_ev s) (worker s) (ub s) (aliased s).
Definition set_objs (l : list obj) (s : state) : state :=
  ST (fds s) (table s) (next s) l (free_ev s) (worker s) (ub s) (aliased s).
Definition set_free (l : list nat) (s : state) : state :=
  ST (fds s) (table s) (next s) (objs s) l (worker s) (ub s) (aliased s).
Definition set_worker (w : wpc) (s : state) : state :=
  ST (fds s) (table s) (next s) (objs s) (free_ev s) w (ub s) (aliased s).
Definition touch (b : bool) (s : state) : state :=
  ST (fds s) (table s) (next s) (objs s) (free_ev s) (worker s) (ub s || negb b) (aliased s).
Definition set_phase (p : phase) (o : obj) : obj := Obj (fd o) (desc o) (wants o) (popped o) p.
Definition set_wants (m : mask) (o : obj) : obj := Obj (fd o) (desc o) m (popped o) (phase_of o).
Definition set_popped (o : obj) : obj := Obj (fd o) (desc o) (wants o) true (phase_of o).
Definition upd (k : nat) (f : obj -> obj) (s : state) : state := set_objs (alter f k (objs s)) s.

(** ** The kernel *)

(** [epoll_ctl] on a number looks its description up. *)
Definition ctl_add (f k : nat) (s : state) : option state :=
  match fds s !! f with
  | Some d => match table s !! (f, d) with Some _ => None | None => Some (set_table (<[(f, d):=(k, Both)]> (table s)) s) end
  | None => None
  end.
Definition ctl_mod (f k : nat) (m : mask) (s : state) : option state :=
  match fds s !! f with
  | Some d => match table s !! (f, d) with Some _ => Some (set_table (<[(f, d):=(k, m)]> (table s)) s) | None => None end
  | None => None
  end.
Definition ctl_del (f : nat) (s : state) : state :=
  match fds s !! f with Some d => set_table (delete (f, d) (table s)) s | None => s end.
(** The description goes with the last number that refers to it. *)
Definition referenced (d : nat) (m : gmap nat nat) : bool := existsb (fun p => p.2 =? d) (map_to_list m).
Definition close (f : nat) (s : state) : state :=
  match fds s !! f with
  | Some d =>
      let m := delete f (fds s) in
      set_fds m (if referenced d m then s else set_table (filter (fun e => e.1.2 <> d) (table s)) s)
  | None => s
  end.

(** ** The objects *)

(** An object has its number until it was closed, or given away. *)
Definition owns (o : obj) : bool := match phase_of o with Ending [] => false | _ => true end.
Definition owned (f : nat) (s : state) : bool := existsb (fun o => owns o && (fd o =? f)) (objs s).
(** The [EventData] is there at least until it leaves [free_ev]. *)
Definition alive (s : state) (k : nat) : bool := from_option (fun o => negb (popped o)) false (objs s !! k).

Section machine.
(** The order of the drop. *)
Context (order : list dstep).

(** [add_fd]; when it fails the [IoData] is dropped, then the socket ([CoIo::new] gives
    its object back instead: the caller closes it).  [fail]: for another reason than
    the interest list. *)
Definition add_fd (k : nat) (o : obj) (fail : bool) (s : state) : state :=
  match (if fail then None else ctl_add (fd o) k s) with
  | Some s' => upd k (set_phase Live) s'
  | None => upd k (set_phase (Ending io_first)) s
  end.

(** [mod_fd] *)
Definition mod_fd (k : nat) (o : obj) (m : mask) (s : state) : option state :=
  match ctl_mod (fd o) k m s with Some s' => Some (upd k (set_wants m) s') | None => None end.

(** One step of the end of an object. *)
Definition step_end (k : nat) (o : obj) (d : dstep) (l : list dstep) (s : state) : state :=
  let s' := upd k (set_phase (Ending l)) s in
  match d with
  | Delete => ctl_del (fd o) s'
  | Push => set_free (free_ev s' ++ [k]) s'
  | Close => close (fd o) s'
  end.

Inductive event :=
  | Open (f : nat)          (* a socket, accepted or new, gets number [f] *)
  | Dup (k f : nat)         (* [try_clone] *)
  | FromRaw (f : nat)       (* an object made of a number *)
  | Act (k : nat) (fail : bool)
  | Mod (k : nat) (m : mask)
  | Drop (k : nat)
  | IntoRaw (k : nat)       (* the number is given away *)
  | Fetch (l : list nat)    (* [epoll.wait] returns events for these *)
  | Work.

Definition new_obj (f d : nat) (s : state) : state := set_objs (objs s ++ [Obj f d Both false Opened]) s.
Definition in_table (s : state) (k : nat) : bool := existsb (fun e => e.2.1 =? k) (map_to_list (table s)).

Definition step (s : state) (ev : event) : option state :=
  match ev with
  | Open f =>
      match fds s !! f with
      | Some _ => None
      | None =>
          Some (new_obj f (next s) (ST (<[f:=next s]> (fds s)) (table s) (S (next s)) (objs s) (free_ev s) (worker s) (ub s) (aliased s)))
      end
  | Dup k f =>
      match objs s !! k, fds s !! f with
      | Some o, None => match phase_of o with Live => Some (new_obj f (desc o) (set_fds (<[f:=desc o]> (fds s)) s)) | _ => None end
      | _, _ => None
      end
  | FromRaw f =>
      match fds s !! f with
      | Some d =>
          Some (new_obj f d (ST (fds s) (table s) (next s) (objs s) (free_ev s) (worker s) (ub s) (aliased s || owned f s)))
      | None => None
      end
  | Act k fail =>
      match objs s !! k with
      | Some o =>
          match phase_of o with
          | Opened => Some (add_fd k o fail s)
          | Ending (d :: l) => Some (step_end k o d l s)
          | _ => None
          end
      | None => None
      end
  | Mod k m => match objs s !! k with Some o => match phase_of o with Live => mod_fd k o m s | _ => None end | None => None end
  | Drop k =>
      match objs s !! k with
      | Some o => match phase_of o with Live => Some (upd k (set_phase (Ending order)) s) | _ => None end
      | None => None
      end
  | IntoRaw k =>
      match objs s !! k with
      | Some o => match phase_of o with Live => Some (upd k (set_phase (Ending [Delete; Push])) s) | _ => None end
      | None => None
      end
  | Fetch l =>
      match worker s with WWait => if forallb (in_table s) l then Some (set_worker (WBatch l) s) else None | _ => None end
  | Work =>
      match worker s with
      | WWait => None
      | WBatch (k :: l) => Some (set_worker (WBatch l) (touch (alive s k) s))
      | WBatch [] => Some (set_worker WFree s)
      | WFree =>
          match free_ev s with
          | k :: l => Some (upd k set_popped (set_free l s))
          | [] => Some (set_worker WWait s)
          end
      end
  end.
End machine.

(** ** The invariant *)

Definition registered (p : phase) : bool := match p with Live | Ending (Delete :: _) => true | _ => false end.
(** The [EventData] was pushed to [free_ev]. *)
Definition pushed (p : phase) : bool := match p with Ending [Close] | Ending [] => true | _ => false end.
(** What is left of an end. *)
Definition shape (p : phase) : bool :=
  match p with
  | Opened | Live | Ending [] | Ending [Close] | Ending [Push] | Ending [Push; Close] | Ending [Delete; Push]
  | Ending [Delete; Push; Close] => true
  | _ => false
  end.

Record inv (s : state) : Prop := {
  iv_fd : forall k o, objs s !! k = Some o -> owns o = true -> fds s !! fd o = Some (desc o);
  iv_own : forall j k o p, objs s !! j = Some o -> objs s !! k = Some p -> owns o = true -> owns p = true -> fd o = fd p -> j = k;
  iv_entry : forall f d k m, table s !! (f, d) = Some (k, m) ->
    exists o, objs s !! k = Some o /\ fd o = f /\ desc o = d /\ wants o = m /\ registered (phase_of o) = true;
  iv_live : forall k o, objs s !! k = Some o -> phase_of o = Live -> table s !! (fd o, desc o) = Some (k, wants o);
  iv_free : forall k o, objs s !! k = Some o -> k ∈ free_ev s \/ popped o = true -> pushed (phase_of o) = true;
  iv_bound : forall k, k ∈ free_ev s -> k < length (objs s);
  iv_opened : forall k o, objs s !! k = Some o -> phase_of o = Opened -> wants o = Both;
  iv_shape : forall k o, objs s !! k = Some o -> shape (phase_of o) = true;
  iv_batch : forall l k, worker s = WBatch l -> k ∈ l -> alive s k = true;
  iv_ub : ub s = false
}.

Definition regular (s : state) : Prop := aliased s = false.

Lemma reg_regular_step order s ev s' : step order s ev = Some s' -> regular s' -> regular s.
Proof.
  unfold regular. intros Hs. destruct ev; cbn in Hs; unfold add_fd, mod_fd, ctl_add, ctl_mod, step_end, ctl_del, close in Hs;
    repeat (case_match; try discriminate Hs); simplify_eq/=; rewrite ?orb_false_iff; try done; by intros [? ?].
Qed.

Lemma reg_lookup_upd k f s j : objs (upd k f s) !! j = if decide (k = j) then f <$> objs s !! j else objs s !! j.
Proof. simpl. case_decide as H; [subst; apply list_lookup_alter_eq|by apply list_lookup_alter_ne]. Qed.

Lemma reg_upd_at k f o s : objs s !! k = Some o ->
  forall j, objs (upd k f s) !! j = if decide (k = j) then Some (f o) else objs s !! j.
Proof. intros Hk j. rewrite reg_lookup_upd. case_decide; [|done]. subst. by rewrite Hk. Qed.

Lemma reg_owned_false f s k o : owned f s = false -> objs s !! k = Some o -> owns o = true -> fd o <> f.
Proof.
  intros Hn Ho Hw Hf. assert (owned f s = true); [|congruence]. apply existsb_exists. exists o. split.
  - apply list_elem_of_In. by eapply list_elem_of_lookup_2.
  - by rewrite Hw, Hf, Nat.eqb_refl.
Qed.

Lemma reg_in_table s k : in_table s k = true -> exists f d m, table s !! (f, d) = Some (k, m).
Proof.
  intros (((f, d), (j, m)) & Hin & Hj)%existsb_exists. simpl in Hj. apply Nat.eqb_eq in Hj as ->.
  apply list_elem_of_In, elem_of_map_to_list in Hin. eauto.
Qed.

Lemma reg_referenced d m : referenced d m = false -> forall f, m !! f <> Some d.
Proof.
  intros Hr f Hf. assert (referenced d m = true); [|congruence]. apply existsb_exists. exists (f, d). split.
  - by apply list_elem_of_In, elem_of_map_to_list.
  - apply Nat.eqb_refl.
Qed.

Lemma reg_registered_owns o : registered (phase_of o) = true -> owns o = true.
Proof. unfold owns. by destruct (phase_of o) as [| |[|[] ?]]. Qed.
Lemma reg_registered_pushed p : registered p = true -> pushed p = false.
Proof. by destruct p as [| |[|[] [|? ?]]]. Qed.

(** An object with a number of its own is added. *)
Lemma reg_inv_new f d s s' :
  inv s -> objs s' = objs s ++ [Obj f d Both false Opened] -> fds s' !! f = Some d ->
  (forall k o, objs s !! k = Some o -> owns o = true -> fd o <> f) -> (forall g e, fds s !! g = Some e -> fds s' !! g = Some e) ->
  table s' = table s -> free_ev s' = free_ev s -> worker s' = worker s -> ub s' = ub s -> inv s'.
Proof.
  intros Hi Ho Hf Hno Hfds Ht Hfr Hw Hu.
  assert (Hlk : forall k o, objs s' !! k = Some o -> objs s !! k = Some o \/ k = length (objs s) /\ o = Obj f d Both false Opened).
  { intros k o Hk. rewrite Ho in Hk. apply lookup_app_Some in Hk as [?|[Hle Hk]]; [by left|].
    apply list_lookup_singleton_Some in Hk as [? <-]. right. split; [lia|done]. }
  assert (Hold : forall k o, objs s !! k = Some o -> objs s' !! k = Some o).
  { intros k o Hk. rewrite Ho. by apply lookup_app_l_Some. }
  split; rewrite ?Ht, ?Hfr, ?Hw, ?Hu.
  - intros k o [Hk|[_ ->]]%Hlk Hown; [by apply Hfds, (iv_fd _ Hi k)|done].
  - intros j k o p [Hj|[-> ->]]%Hlk [Hk|[-> ->]]%Hlk H1 H2 H3; simpl in *; [by eapply iv_own|by destruct (Hno j o)| |done].
    by destruct (Hno k p).
  - intros g e k m He. destruct (iv_entry _ Hi _ _ _ _ He) as (o & Hk & H). exists o. split; [by apply Hold|done].
  - intros k o [Hk|[_ ->]]%Hlk; [by apply (iv_live _ Hi)|done].
  - intros k o [Hk|[-> ->]]%Hlk Hp; [by eapply iv_free|]. destruct Hp as [Hp|Hp]; [|done].
    apply (iv_bound _ Hi) in Hp. lia.
  - intros k Hk%(iv_bound _ Hi). rewrite Ho, length_app. lia.
  - intros k o [Hk|[_ ->]]%Hlk; [by eapply iv_opened|done].
  - intros k o [Hk|[_ ->]]%Hlk; [by eapply iv_shape|done].
  - intros l k Hl Hk. pose proof (iv_batch _ Hi _ _ Hl Hk) as Ha. unfold alive in *. destruct (objs s !! k) eqn:He; [|done].
    by rewrite (Hold _ _ He).
  - apply Hi.
Qed.

(** Object [k] changes from [o] to [o']. *)
Lemma reg_inv_upd k o o' s s' :
  inv s -> objs s !! k = Some o -> (forall j, objs s' !! j = if decide (k = j) then Some o' else objs s !! j) ->
  fd o' = fd o -> (owns o' = true -> owns o = true /\ fds s' !! fd o' = Some (desc o')) ->
  (forall j p, j <> k -> objs s !! j = Some p -> owns p = true -> fds s' !! fd p = Some (desc p)) ->
  (forall f d j m, table s' !! (f, d) = Some (j, m) ->
     j <> k /\ table s !! (f, d) = Some (j, m) \/
     j = k /\ fd o' = f /\ desc o' = d /\ wants o' = m /\ registered (phase_of o') = true) ->
  (forall j p, j <> k -> objs s !! j = Some p -> phase_of p = Live -> table s' !! (fd p, desc p) = table s !! (fd p, desc p)) ->
  (phase_of o' = Live -> table s' !! (fd o', desc o') = Some (k, wants o')) ->
  (forall j, j ∈ free_ev s' -> j ∈ free_ev s \/ j = k) -> (k ∈ free_ev s' \/ popped o' = true -> pushed (phase_of o') = true) ->
  phase_of o' <> Opened -> shape (phase_of o') = true -> (worker s' = worker s /\ popped o' = popped o \/ worker s' = WFree) -> ub s' = ub s -> inv s'.
Proof.
  intros Hi Hk Ho Hfd How Hfds Hent Hlive Hlive' Hfr Hfr' Hop Hsh Hw Hu.
  assert (Hlk : forall j p, objs s' !! j = Some p -> j = k /\ p = o' \/ j <> k /\ objs s !! j = Some p).
  { intros j p. rewrite Ho. case_decide as Hj; [intros [= <-]; by left|right; split; [congruence|done]]. }
  split; rewrite ?Hu.
  - intros j p [[-> ->]|[Hne Hj]]%Hlk Hp; [by apply How|by eapply Hfds].
  - intros i j p q [[-> ->]|[Hni Hpi]]%Hlk [[-> ->]|[Hnj Hqj]]%Hlk Hp Hq Hpq; [done| | |by eapply iv_own].
    + apply (iv_own _ Hi k j o q); [done..|by apply How|done|congruence].
    + apply (iv_own _ Hi i k p o); [done..|by apply How|congruence].
  - intros f d j m He. destruct (Hent _ _ _ _ He) as [[Hne He']|(-> & H)].
    + destruct (iv_entry _ Hi _ _ _ _ He') as (p & Hp & H). exists p. rewrite Ho, decide_False by congruence. done.
    + exists o'. by rewrite Ho, decide_True.
  - intros j p [[-> ->]|[Hne Hj]]%Hlk Hp; [by apply Hlive'|]. rewrite (Hlive j p) by done. by apply (iv_live _ Hi).
  - intros j p [[-> ->]|[Hne Hj]]%Hlk Hp; [by apply Hfr'|]. apply (iv_free _ Hi j p Hj).
    destruct Hp as [Hp|Hp]; [|by right]. apply Hfr in Hp as [Hp| ->]; [by left|done].
  - intros j Hj. apply Hfr in Hj as [Hj| ->].
    + apply (iv_bound _ Hi) in Hj. apply lookup_lt_is_Some_2 in Hj as [p Hp]. apply lookup_lt_is_Some. rewrite Ho. case_decide; by eexists.
    + apply lookup_lt_is_Some. rewrite Ho, decide_True by done. by eexists.
  - intros j p [[-> ->]|[Hne Hj]]%Hlk; [done|by eapply iv_opened].
  - intros j p [[-> ->]|[Hne Hj]]%Hlk; [done|by eapply iv_shape].
  - intros l j Hl Hj. destruct Hw as [[Hw Hpop]|Hw]; [|congruence]. rewrite Hw in Hl. pose proof (iv_batch _ Hi _ _ Hl Hj) as Ha.
    unfold alive in *. rewrite Ho. case_decide as Hjk; [subst j|done]. rewrite Hk in Ha. simpl in *. by rewrite Hpop.
  - apply Hi.
Qed.

(** A number that an object has is no other's. *)
Lemma reg_other s k o j p : inv s -> objs s !! k = Some o -> objs s !! j = Some p -> j <> k -> owns o = true -> owns p = true ->
  fd p <> fd o.
Proof. intros Hi Hk Hj Hne Ho Hp Hf. apply Hne. by apply (iv_own _ Hi j k p o). Qed.

Lemma reg_live_owns o : phase_of o = Live -> owns o = true.
Proof. unfold owns. by intros ->. Qed.

(** The entry of a number is that of the object that has it. *)
Lemma reg_entry_self s k o d j m : inv s -> objs s !! k = Some o -> owns o = true -> table s !! (fd o, d) = Some (j, m) ->
  j = k /\ desc o = d /\ wants o = m /\ registered (phase_of o) = true.
Proof.
  intros Hi Hk Ho He. destruct (iv_entry _ Hi _ _ _ _ He) as (p & Hp & Hf & Hd & Hm & Hr).
  assert (j = k) as -> by (apply (iv_own _ Hi j k p o); [done..|by apply reg_registered_owns|done|done]).
  rewrite Hk in Hp. by injection Hp as <-.
Qed.

Lemma reg_inv_add s k o fail : inv s -> objs s !! k = Some o -> phase_of o = Opened -> inv (add_fd k o fail s).
Proof.
  intros Hi Hk Hp. assert (Ho : owns o = true) by (unfold owns; by rewrite Hp). pose proof (iv_fd _ Hi _ _ Hk Ho) as Hf.
  assert (Hnone : table s !! (fd o, desc o) = None).
  { destruct (table s !! _) as [[j m]|] eqn:He; [|done]. destruct (reg_entry_self _ _ _ _ _ _ Hi Hk Ho He) as (_ & _ & _ & Hr).
    by rewrite Hp in Hr. }
  assert (Hpo : popped o = false).
  { destruct (popped o) eqn:H; [|done]. pose proof (iv_free _ Hi _ _ Hk (or_intror H)) as Hx. by rewrite Hp in Hx. }
  assert (Hfr : k ∈ free_ev s -> False).
  { intros H. pose proof (iv_free _ Hi _ _ Hk (or_introl H)) as Hx. by rewrite Hp in Hx. }
  unfold add_fd, ctl_add. rewrite Hf, Hnone. destruct fail.
  - apply (reg_inv_upd k o (set_phase (Ending io_first) o) s); try done; auto; try tauto; try (by apply reg_upd_at).
    + intros j p _ Hj. by apply (iv_fd _ Hi j).
    + intros f d j m He. left. split; [|done]. intros ->. destruct (iv_entry _ Hi _ _ _ _ He) as (p & Hp' & _ & _ & _ & Hr).
      rewrite Hk in Hp'. injection Hp' as <-. by rewrite Hp in Hr.
    + intros [H|H]; [by destruct Hfr|]. simpl in H. congruence.
  - apply (reg_inv_upd k o (set_phase Live o) s); try done; simpl; auto; try tauto; try (by apply (reg_upd_at k (set_phase Live) o s)).
    + intros j p _ Hj. by apply (iv_fd _ Hi j).
    + intros f d j m [[[= <- <-] [= <- <-]]|[Hne He]]%lookup_insert_Some.
      * right. split_and!; try done. by apply (iv_opened _ Hi k).
      * left. split; [|done]. intros ->. destruct (iv_entry _ Hi _ _ _ _ He) as (p & Hp' & _ & _ & _ & Hr).
        rewrite Hk in Hp'. injection Hp' as <-. by rewrite Hp in Hr.
    + intros j p Hne Hj Hl. rewrite lookup_insert_ne; [done|]. intros [= H _].
      by destruct (reg_other _ _ _ _ _ Hi Hk Hj Hne Ho (reg_live_owns _ Hl)).
    + intros _. rewrite lookup_insert_eq. by rewrite (iv_opened _ Hi k o).
    + intros [H|H]; [by destruct Hfr|congruence].
Qed.

Lemma reg_inv_mod s k o m s' : inv s -> objs s !! k = Some o -> phase_of o = Live -> mod_fd k o m s = Some s' -> inv s'.
Proof.
  intros Hi Hk Hp Hs. pose proof (reg_live_owns _ Hp) as Ho. unfold mod_fd, ctl_mod in Hs.
  rewrite (iv_fd _ Hi _ _ Hk Ho), (iv_live _ Hi _ _ Hk Hp) in Hs. injection Hs as <-.
  apply (reg_inv_upd k o (set_wants m o) s); try done; simpl; auto; rewrite ?Hp; try done; try (by apply (reg_upd_at k (set_wants m) o s)).
  - intros _. split; [done|]. by apply (iv_fd _ Hi k o).
  - intros j p _ Hj. by apply (iv_fd _ Hi j).
  - intros f d j m' [[[= <- <-] [= <- <-]]|[Hne He]]%lookup_insert_Some; [by right|].
    left. split; [|done]. intros ->. destruct (iv_entry _ Hi _ _ _ _ He) as (p & Hp' & Hf & Hd & _). rewrite Hk in Hp'. congruence.
  - intros j p Hne Hj Hl. rewrite lookup_insert_ne; [done|]. intros [= H _].
    by destruct (reg_other _ _ _ _ _ Hi Hk Hj Hne Ho (reg_live_owns _ Hl)).
  - intros _. by rewrite lookup_insert_eq.
  - intros H. pose proof (iv_free _ Hi _ _ Hk H) as Hx. by rewrite Hp in Hx.
Qed.

(** A live object begins its end. *)
Lemma reg_inv_end s k o l : inv s -> objs s !! k = Some o -> phase_of o = Live -> l = io_first \/ l = [Delete; Push] ->
  inv (upd k (set_phase (Ending l)) s).
Proof.
  intros Hi Hk Hp Hl. pose proof (reg_live_owns _ Hp) as Ho.
  assert (Hl' : exists l', l = Delete :: l' /\ shape (Ending l) = true) by (destruct Hl as [-> | ->]; by eexists).
  destruct Hl' as (l' & -> & Hsh).
  apply (reg_inv_upd k o (set_phase (Ending (Delete :: l')) o) s); try done; auto; try (by apply reg_upd_at).
  - intros _. split; [done|]. by apply (iv_fd _ Hi k o).
  - intros j p _ Hj. by apply (iv_fd _ Hi j).
  - intros f d j m He. destruct (decide (j = k)) as [->|Hne]; [right|by left].
    destruct (iv_entry _ Hi _ _ _ _ He) as (p & Hp' & Hf & Hd & Hm & _). rewrite Hk in Hp'. by injection Hp' as <-.
  - intros H. pose proof (iv_free _ Hi _ _ Hk H) as Hx. by rewrite Hp in Hx.
Qed.

Lemma reg_inv_delete s k o l : inv s -> objs s !! k = Some o -> phase_of o = Ending (Delete :: l) -> inv (step_end k o Delete l s).
Proof.
  intros Hi Hk Hp. pose proof (iv_shape _ Hi _ _ Hk) as Hsh. rewrite Hp in Hsh.
  assert (Ho : owns o = true) by (unfold owns; by rewrite Hp). pose proof (iv_fd _ Hi _ _ Hk Ho) as Hf.
  assert (Hl : l = [Push; Close] \/ l = [Push]) by (destruct l as [|[] [|[] [|? ?]]]; try discriminate Hsh; auto).
  unfold step_end, ctl_del. change (fds (upd k (set_phase (Ending l)) s)) with (fds s). rewrite Hf.
  apply (reg_inv_upd k o (set_phase (Ending l) o) s); try done; auto; try (by apply (reg_upd_at k (set_phase (Ending l)) o s)).
  - intros j p _ Hj. by apply (iv_fd _ Hi j p).
  - simpl. intros f d j m [Hne He]%lookup_delete_Some. left. split; [|done]. intros ->.
    destruct (iv_entry _ Hi _ _ _ _ He) as (p & Hp' & <- & <- & _). apply Hne. rewrite Hk in Hp'. by injection Hp' as <-.
  - intros j p Hne Hj Hlv. simpl. rewrite lookup_delete_ne; [done|]. intros [= H _].
    by destruct (reg_other _ _ _ _ _ Hi Hk Hj Hne Ho (reg_live_owns _ Hlv)).
  - intros H. pose proof (iv_free _ Hi _ _ Hk H) as Hx. by rewrite Hp in Hx; destruct Hl as [-> | ->].
  - by destruct Hl as [-> | ->].
Qed.

(** An entry is not that of an object whose number was deleted. *)
Lemma reg_entry_not s k o f d j m : inv s -> objs s !! k = Some o -> registered (phase_of o) = false ->
  table s !! (f, d) = Some (j, m) -> j <> k.
Proof.
  intros Hi Hk Hr He ->. destruct (iv_entry _ Hi _ _ _ _ He) as (p & Hp & _ & _ & _ & H). rewrite Hk in Hp.
  injection Hp as <-. congruence.
Qed.

Lemma reg_inv_push s k o l : inv s -> objs s !! k = Some o -> phase_of o = Ending (Push :: l) -> inv (step_end k o Push l s).
Proof.
  intros Hi Hk Hp. pose proof (iv_shape _ Hi _ _ Hk) as Hsh. rewrite Hp in Hsh.
  assert (Hl : l = [Close] \/ l = []) by (destruct l as [|[] [|? ?]]; try discriminate Hsh; auto).
  assert (Ho : owns o = true) by (unfold owns; by rewrite Hp).
  apply (reg_inv_upd k o (set_phase (Ending l) o) s); try done; auto; try (by apply (reg_upd_at k (set_phase (Ending l)) o s)).
  - intros _. split; [done|]. by apply (iv_fd _ Hi k o).
  - intros j p _ Hj. by apply (iv_fd _ Hi j p).
  - intros f d j m He. left. split; [|done]. eapply reg_entry_not; [done..| |exact He]. by rewrite Hp.
  - intros j Hj. simpl in Hj. apply elem_of_app in Hj as [Hj|Hj]; [by left|]. apply list_elem_of_singleton in Hj. by right.
  - by destruct Hl as [-> | ->].
Qed.

Lemma reg_inv_close s k o l : inv s -> objs s !! k = Some o -> phase_of o = Ending (Close :: l) -> inv (step_end k o Close l s).
Proof.
  intros Hi Hk Hp. pose proof (iv_shape _ Hi _ _ Hk) as Hsh. rewrite Hp in Hsh.
  assert (l = []) as -> by (by destruct l).
  assert (Ho : owns o = true) by (unfold owns; by rewrite Hp). pose proof (iv_fd _ Hi _ _ Hk Ho) as Hf.
  unfold step_end, close. change (fds (upd k (set_phase (Ending [])) s)) with (fds s). rewrite Hf.
  set (m := delete (fd o) (fds s)). set (s' := set_fds _ _).
  assert (Hm : forall j p, j <> k -> objs s !! j = Some p -> owns p = true -> m !! fd p = Some (desc p)).
  { intros j p Hne Hj Hop. unfold m. rewrite lookup_delete_ne; [by apply (iv_fd _ Hi j p)|]. intros H.
    by apply (reg_other _ _ _ _ _ Hi Hk Hj Hne Ho Hop). }
  assert (Ht : table s' = table s \/ table s' = filter (fun e => e.1.2 <> desc o) (table s) /\ referenced (desc o) m = false).
  { unfold s'. destruct (referenced (desc o) m) eqn:Hr; [by left|by right]. }
  apply (reg_inv_upd k o (set_phase (Ending []) o) s); try done; auto; try (unfold s'; by destruct (referenced (desc o) m)).
  - intros j. rewrite <- (reg_upd_at k (set_phase (Ending [])) o s Hk). unfold s'. by destruct (referenced (desc o) m).
  - intros f d j w He.
    assert (He' : table s !! (f, d) = Some (j, w)).
    { destruct Ht as [Ht|[Ht _]]; rewrite Ht in He; [done|]. by apply map_lookup_filter_Some in He as [? _]. }
    left. split; [|done]. eapply reg_entry_not; [done..| |exact He']. by rewrite Hp.
  - intros j p Hne Hj Hlv. destruct Ht as [-> |[-> Hr]]; [done|]. rewrite map_lookup_filter.
    rewrite (iv_live _ Hi _ _ Hj Hlv). simpl. rewrite option_guard_True; [done|]. simpl. intros Hd.
    apply (reg_referenced _ _ Hr (fd p)). rewrite <- Hd. apply (Hm j p); [done..|by apply reg_live_owns].
  - unfold s'. destruct (referenced (desc o) m); simpl; auto.
  - left. unfold s'. by destruct (referenced (desc o) m).
Qed.

(** No object changes. *)
Lemma reg_inv_worker s s' :
  inv s -> objs s' = objs s -> fds s' = fds s -> table s' = table s -> (forall k, k ∈ free_ev s' -> k ∈ free_ev s) ->
  (forall l k, worker s' = WBatch l -> k ∈ l -> alive s k = true) -> ub s' = false -> inv s'.
Proof.
  intros [H1 H2 H3 H4 H5 H6 H7 H8 H9 H10] Ho Hf Ht Hfr Hw Hu. split; rewrite ?Ho, ?Hf, ?Ht; try done.
  - intros k o Hk [H|H]; [|by eapply H5; eauto]. eapply H5; [done|]. left. auto.
  - intros k Hk. auto.
  - intros l k Hl Hk. unfold alive. rewrite Ho. by eapply Hw.
Qed.

(** An object that has an entry is allocated. *)
Lemma reg_entry_alive s f d k m : inv s -> table s !! (f, d) = Some (k, m) -> alive s k = true.
Proof.
  intros Hi He. destruct (iv_entry _ Hi _ _ _ _ He) as (o & Hk & _ & _ & _ & Hr). unfold alive. rewrite Hk. simpl.
  destruct (popped o) eqn:Hp; [|done]. pose proof (iv_free _ Hi _ _ Hk (or_intror Hp)) as H.
  by rewrite reg_registered_pushed in H.
Qed.

Lemma reg_inv_work s s' : inv s -> step io_first s Work = Some s' -> inv s'.
Proof.
  intros Hi Hs. simpl in Hs. destruct (worker s) as [|[|k l]|] eqn:Hw; [done| | |].
  - injection Hs as <-. apply (reg_inv_worker s); try done. by apply (iv_ub _ Hi).
  - injection Hs as <-. apply (reg_inv_worker s); try done; simpl.
    + intros l' j [= <-] Hj. apply (iv_batch _ Hi _ _ Hw). by right.
    + rewrite (iv_ub _ Hi). by rewrite (iv_batch _ Hi _ k Hw) by by left.
  - destruct (free_ev s) as [|k l] eqn:Hf; injection Hs as <-.
    + apply (reg_inv_worker s); try done. by apply (iv_ub _ Hi).
    + assert (Hin : k ∈ free_ev s) by (rewrite Hf; by left).
      destruct (lookup_lt_is_Some_2 _ _ (iv_bound _ Hi _ Hin)) as [o Hk].
      pose proof (iv_free _ Hi _ _ Hk (or_introl Hin)) as Hp. pose proof (iv_shape _ Hi _ _ Hk) as Hsh.
      assert (Hnr : registered (phase_of o) = false) by (destruct (registered _) eqn:H; [by rewrite reg_registered_pushed in Hp|done]).
      apply (reg_inv_upd k o (set_popped o) s); try done; auto; try (by apply (reg_upd_at k set_popped o s)).
      * intros Ho. split; [done|]. by apply (iv_fd _ Hi k o).
      * intros j p _ Hj. by apply (iv_fd _ Hi j p).
      * intros f d j m He. left. split; [|done]. by eapply reg_entry_not.
      * simpl. intros H. by rewrite H in Hp.
      * intros j Hj. left. simpl in Hj. rewrite Hf. by right.
      * simpl. intros H. by rewrite H in Hp.
Qed.

Lemma reg_inv_step s ev s' : inv s -> regular s' -> step io_first s ev = Some s' -> inv s'.
Proof.
  intros Hi Hreg Hs. destruct ev as [f|k f|f|k fail|k m|k|k|l|]; [..|by eapply reg_inv_work]; cbn [step] in Hs.
  - destruct (fds s !! f) as [d|] eqn:Hf; [done|]. injection Hs as <-.
    apply (reg_inv_new f (next s) s); try done; simpl; [by rewrite lookup_insert_eq| |].
    + intros k o Hk Ho Hfd. pose proof (iv_fd _ Hi _ _ Hk Ho). congruence.
    + intros g e Hg. rewrite lookup_insert_ne; [done|]. congruence.
  - destruct (objs s !! k) as [o|] eqn:Hk; [|done]. destruct (fds s !! f) as [d|] eqn:Hf; [done|].
    destruct (phase_of o) eqn:Hp; try discriminate Hs. injection Hs as <-.
    apply (reg_inv_new f (desc o) s); try done; simpl; [by rewrite lookup_insert_eq| |].
    + intros j p Hj Ho Hfd. pose proof (iv_fd _ Hi _ _ Hj Ho). congruence.
    + intros g e Hg. rewrite lookup_insert_ne; [done|]. congruence.
  - destruct (fds s !! f) as [d|] eqn:Hf; [|done]. injection Hs as <-. unfold regular in Hreg. simpl in Hreg.
    apply orb_false_iff in Hreg as [_ Hown].
    apply (reg_inv_new f d s); try done. intros k o Hk Ho. by eapply reg_owned_false.
  - destruct (objs s !! k) as [o|] eqn:Hk; [|done]. destruct (phase_of o) as [| |[|d l]] eqn:Hp; try discriminate Hs; injection Hs as <-.
    + by apply reg_inv_add.
    + destruct d; [by apply reg_inv_delete|by apply reg_inv_push|by apply reg_inv_close].
  - destruct (objs s !! k) as [o|] eqn:Hk; [|done]. destruct (phase_of o) eqn:Hp; try discriminate Hs. by eapply reg_inv_mod.
  - destruct (objs s !! k) as [o|] eqn:Hk; [|done]. destruct (phase_of o) eqn:Hp; try discriminate Hs. injection Hs as <-.
    eapply reg_inv_end; [done..|by left].
  - destruct (objs s !! k) as [o|] eqn:Hk; [|done]. destruct (phase_of o) eqn:Hp; try discriminate Hs. injection Hs as <-.
    eapply reg_inv_end; [done..|by right].
  - destruct (worker s) eqn:Hw; try discriminate Hs. destruct (forallb (in_table s) l) eqn:Hl; [|done]. injection Hs as <-.
    apply (reg_inv_worker s); try done; [|by apply (iv_ub _ Hi)]. intros l' k [= <-] Hk.
    assert (Ht : in_table s k = true) by (rewrite forallb_forall in Hl; by apply Hl, list_elem_of_In).
    destruct (reg_in_table _ _ Ht) as (f & d & m & He). by eapply reg_entry_alive.
Qed.

Lemma reg_inv_reachable s : reachable (step io_first) init s -> regular s -> inv s.
Proof.
  induction 1 as [|s ev s' Hr IH Hs]; intros Hreg; [split; try done; intros k Hk; by apply not_elem_of_nil in Hk|].
  eapply reg_inv_step; [|done..]. apply IH. by eapply reg_regular_step.
Qed.

(** ** The theorem *)

(** C40. While no object is made of a number that another object still has, and whatever
    numbers the kernel uses again, with objects opened, cloned, split, closed and
    given away in any interleaving with the worker: the registration of a live object
    is in the interest list with its own [EventData] and the events it wants, so its
    events reach it; every entry is that of an object whose end has not deleted it; and
    the worker never gets an event of an [EventData] that was freed. *)
Theorem fd_registered s :
  reachable (step io_first) init s -> regular s ->
  (forall k o, objs s !! k = Some o -> phase_of o = Live ->
     fds s !! fd o = Some (desc o) /\ table s !! (fd o, desc o) = Some (k, wants o)) /\
  (forall f d k m, table s !! (f, d) = Some (k, m) -> exists o, objs s !! k = Some o /\ fd o = f /\ registered (phase_of o) = true) /\
  (forall l k, worker s = WBatch l -> k ∈ l -> alive s k = true) /\ ub s = false.
Proof.
  intros Hr Hreg. pose proof (reg_inv_reachable _ Hr Hreg) as Hi. split_and!.
  - intros k o Hk Hp. split; [|by apply (iv_live _ Hi)]. apply (iv_fd _ Hi k o); [done|by apply reg_live_owns].
  - intros f d k m He. destruct (iv_entry _ Hi _ _ _ _ He) as (o & H1 & H2 & _ & _ & H5). eauto.
  - apply (iv_batch _ Hi).
  - apply (iv_ub _ Hi).
Qed.

(** ** Runs *)
Definition go (order : list dstep) (es : list event) : option state := run (step order) es init.
(** A socket is split in two, the kernel reports an event of the first half, which is
    dropped, and its number is used again while the event is handled. *)
Definition reuse : list event :=
  [Open 7; Act 0 false; Dup 0 8; Act 1 false; Mod 1 WriteOnly; Mod 0 ReadOnly; Fetch [0]; Drop 0; Act 0 false; Act 0 false;
   Act 0 false; Open 7; Act 2 false; Work; Work; Work; Work].
Definition reused : state := default init (go io_first reuse).
Lemma reg_reused_reachable : reachable (step io_first) init reused.
Proof. apply (run_reachable _ _ reuse). vm_compute. reflexivity. Qed.

Lemma fd_registered_witness :
  ub reused = false /\ table reused !! (7, 1) = Some (2, Both) /\ table reused !! (8, 0) = Some (1, WriteOnly) /\
  map popped (objs reused) = [true; false; false].
Proof.
  destruct (fd_registered reused reg_reused_reachable) as (Hl & _ & _ & Hu).
  - reflexivity.
  - split; [exact Hu|]. split; [|split; [|reflexivity]].
    + exact (proj2 (Hl 2 (Obj 7 1 Both false Live) eq_refl eq_refl)).
    + exact (proj2 (Hl 1 (Obj 8 0 WriteOnly false Live) eq_refl eq_refl)).
Defined.

(** The other order of the fields would let the end of an object remove the registration
    of the next one that gets its number. *)
Lemma reg_inner_first :
  exists s, go [Close; Delete; Push] [Open 7; Act 0 false; Drop 0; Act 0 false; Open 7; Act 1 false; Act 0 false] = Some s /\
    map phase_of (objs s) = [Ending [Push]; Live] /\ table s = ∅ /\ regular s.
Proof. eexists. split; [vm_compute; reflexivity|]. by split_and!. Qed.

(** A second object made of the number of a registered one is refused by the kernel;
    dropping its [IoData] then removes the registration of the first. *)
Lemma reg_alias_unregisters :
  exists s, go io_first [Open 7; Act 0 false; FromRaw 7; Act 1 false; Act 1 false] = Some s /\
    option_map phase_of (objs s !! 0) = Some Live /\ table s = ∅ /\ aliased s = true.
Proof. eexists. split; [vm_compute; reflexivity|]. by split_and!. Qed.

End Reg.
