(* ===== verification/Lifecycle.v ===== *)
(** * Lifecycle: building, recycling and destroying coroutines

    [CoroutinePool] of [src/pool.rs], [Builder::spawn_impl] and [Done::drop_coroutine]
    of [src/coroutine_impl.rs] and the configuration they read ([src/config.rs]), as
    a machine of threads: each access to the pool's counter and queue and each load
    of the configuration is a step.  A coroutine object is in one place (the pool,
    the hands of a thread, alive, or freed); its [CoroutineLocal] is a box that the
    object points to, also when the box is gone. *)

From stdpp Require Import base numbers list.
From Stdlib Require Import ZArith Lia.
From S2P Require Import Prelude.

Module Lc.

(** ** [src/config.rs] *)
Definition DEFAULT_STACK_SIZE : Z := 4096.
Definition DEFAULT_POOL_CAPACITY : Z := 1000.

(** The global cells [WORKERS], [STACK_SIZE], [POOL_CAPACITY], [PIN_WORKERS]. *)
Record Config := Cfg { WORKERS : Z; STACK_SIZE : Z; POOL_CAPACITY : Z; PIN_WORKERS : bool }.
Definition default_config : Config := Cfg 0 DEFAULT_STACK_SIZE DEFAULT_POOL_CAPACITY true.

Definition set_workers (n : Z) (g : Config) : Config := Cfg n (STACK_SIZE g) (POOL_CAPACITY g) (PIN_WORKERS g).
Definition get_workers (num_cpus : Z) (g : Config) : Z * Config :=
  if negb (WORKERS g =? 0)%Z then (WORKERS g, g) else (num_cpus, set_workers num_cpus g).
Definition set_pool_capacity (n : Z) (g : Config) : Config := Cfg (WORKERS g) (STACK_SIZE g) n (PIN_WORKERS g).
Definition get_pool_capacity (g : Config) : Z :=
  if negb (POOL_CAPACITY g =? 0)%Z then POOL_CAPACITY g else DEFAULT_POOL_CAPACITY.
Definition set_stack_size (n : Z) (g : Config) : Config := Cfg (WORKERS g) n (POOL_CAPACITY g) (PIN_WORKERS g).
Definition get_stack_size (g : Config) : Z := STACK_SIZE g.
Definition set_worker_pin (b : bool) (g : Config) : Config := Cfg (WORKERS g) (STACK_SIZE g) (POOL_CAPACITY g) b.
Definition get_worker_pin (g : Config) : bool := PIN_WORKERS g.

Section machine.
(** [gn_size n]: the size that [stack_usage] reports for a generator made by
    [Gn::new_opt(n)] (the generator crate rounds it to pages). *)
Context (gn_size : Z -> Z).

(** A generator object; [local]: its local data pointer.  History: [want], the
    [stack_size] that the last [spawn_impl] resolved for it. *)
Record CoroutineImpl := Co { stack : Z; local : option nat; want : option Z }.

(** Where a thread is: in [spawn_impl] ([Sp]), [CoroutinePool::get] and [put],
    [drop_coroutine] ([Dr]). *)
Inductive pc :=
  | Idle
  | SpStack (req : option Z)
  | SpCmp (n : Z)
  | GetSub (n : Z)
  | GetPop (n : Z)
  | GetAdd (n : Z)
  | GetNew (n : Z)
  | SpNew (n : Z)
  | SpLocal (n : Z) (c : nat)
  | SpSet (n : Z) (c l : nat)
  | SpRun (c : nat)
  | DrLocal (c : nat) (used : Z)
  | DrStack (c l : nat) (used : Z)
  | PutAdd (c l : nat)
  | PutCheck (c l : nat) (m : Z)
  | PutSub (c l : nat)
  | PutPush (c l : nat)
  | DrFree (o : option nat) (l : nat).

(** [size], [pool]: the [CoroutinePool]; [cos]: every coroutine object; [locals]: is
    a [CoroutineLocal] box allocated; [live]: the objects that were handed to the
    scheduler and have not completed; [gone]: freed objects; [exited]: the process
    ended; [ub]: a freed box was freed again or a null pointer was unboxed.
    History: [maxcap], the largest capacity configured so far, and [resized], did
    [set_stack_size] run after the pool was built. *)
Record state := ST {
  size : Z; pool : list nat; cos : list CoroutineImpl; locals : list bool; cfg : Config;
  live : list nat; gone : list nat; threads : list pc; exited : bool; ub : bool;
  maxcap : Z; resized : bool
}.

Definition goto (t : nat) (p : pc) (s : state) : state :=
  ST (size s) (pool s) (cos s) (locals s) (cfg s) (live s) (gone s) (<[t:=p]> (threads s)) (exited s) (ub s) (maxcap s) (resized s).
Definition set_pool (n : Z) (q : list nat) (s : state) : state :=
  ST n q (cos s) (locals s) (cfg s) (live s) (gone s) (threads s) (exited s) (ub s) (maxcap s) (resized s).
Definition set_cos (l : list CoroutineImpl) (s : state) : state :=
  ST (size s) (pool s) l (locals s) (cfg s) (live s) (gone s) (threads s) (exited s) (ub s) (maxcap s) (resized s).
Definition set_locals (l : list bool) (b : bool) (s : state) : state :=
  ST (size s) (pool s) (cos s) l (cfg s) (live s) (gone s) (threads s) (exited s) b (maxcap s) (resized s).
Definition set_live (l g : list nat) (s : state) : state :=
  ST (size s) (pool s) (cos s) (locals s) (cfg s) l g (threads s) (exited s) (ub s) (maxcap s) (resized s).
Definition set_cfg (g : Config) (r : bool) (s : state) : state :=
  ST (size s) (pool s) (cos s) (locals s) g (live s) (gone s) (threads s) (exited s) (ub s)
    (Z.max (maxcap s) (get_pool_capacity g)) r.
Definition exit (s : state) : state :=
  ST (size s) (pool s) (cos s) (locals s) (cfg s) (live s) (gone s) (threads s) true (ub s) (maxcap s) (resized s).

(** [Gn::new_opt(n)]. *)
Definition new_opt (n : Z) : CoroutineImpl := Co (gn_size n) None None.
(** [CoroutinePool::create_dummy_coroutine]. *)
Definition create_dummy_coroutine (g : Config) : CoroutineImpl := new_opt (get_stack_size g).

(** [CoroutinePool::new], with [n] threads. *)
Definition init (g : Config) (n : nat) : state :=
  let capacity := Z.to_nat (get_pool_capacity g) in
  ST (get_pool_capacity g) (seq 0 capacity) (replicate capacity (create_dummy_coroutine g)) [] g [] []
    (replicate n Idle) false false (get_pool_capacity g) false.

(** [CoroutinePool::get], then the rest of [spawn_impl] on what it returned. *)
Definition step_get (t : nat) (p : pc) (s : state) : option state :=
  match p with
  | GetSub n => Some (goto t (GetPop n) (set_pool (Word.sub (size s) 1) (pool s) s))
  | GetPop n =>
      match pool s with
      | c :: q => Some (goto t (SpLocal n c) (set_pool (size s) q s))
      | [] => Some (goto t (GetAdd n) s)
      end
  | GetAdd n => Some (goto t (GetNew n) (set_pool (Word.add (size s) 1) (pool s) s))
  | GetNew n => Some (goto t (SpLocal n (length (cos s))) (set_cos (cos s ++ [create_dummy_coroutine (cfg s)]) s))
  | _ => None
  end.

(** [spawn_impl] and the hand-over to the scheduler. *)
Definition step_spawn (t : nat) (p : pc) (s : state) : option state :=
  match p with
  | SpStack req => Some (goto t (SpCmp (match req with Some n => n | None => get_stack_size (cfg s) end)) s)
  | SpCmp n => Some (goto t (if (n =? get_stack_size (cfg s))%Z then GetSub n else SpNew n) s)
  | SpNew n => Some (goto t (SpLocal n (length (cos s))) (set_cos (cos s ++ [new_opt n]) s))
  | SpLocal n c => Some (goto t (SpSet n c (length (locals s))) (set_locals (locals s ++ [true]) (ub s) s))
  | SpSet n c l =>
      match cos s !! c with
      | Some x => Some (goto t (SpRun c) (set_cos (<[c:=Co (stack x) (Some l) (Some n)]> (cos s)) s))
      | None => None
      end
  | SpRun c => Some (goto t Idle (set_live (live s ++ [c]) (gone s) s))
  | _ => None
  end.

(** [CoroutinePool::put]. *)
Definition step_put (t : nat) (p : pc) (s : state) : option state :=
  match p with
  | PutAdd c l => Some (goto t (PutCheck c l (size s)) (set_pool (Word.add (size s) 1) (pool s) s))
  | PutCheck c l m => Some (goto t (if (get_pool_capacity (cfg s) <=? m)%Z then PutSub c l else PutPush c l) s)
  | PutSub c l =>
      Some (goto t (DrFree None l) (set_live (live s) (gone s ++ [c]) (set_pool (Word.sub (size s) 1) (pool s) s)))
  | PutPush c l => Some (goto t (DrFree None l) (set_pool (size s) (pool s ++ [c]) s))
  | _ => None
  end.

(** [Done::drop_coroutine]: the box of the local storage is freed last, and the
    coroutine after it if it was not recycled. *)
Definition step_drop (t : nat) (p : pc) (s : state) : option state :=
  match p with
  | DrLocal c used =>
      match cos s !! c with
      | Some (Co _ (Some l) _) => Some (goto t (DrStack c l used) s)
      | _ => Some (set_locals (locals s) true s)
      end
  | DrStack c l used =>
      match cos s !! c with
      | Some x =>
          if (used =? stack x)%Z then Some (exit s)
          else Some (goto t (if (stack x =? get_stack_size (cfg s))%Z then PutAdd c l else DrFree (Some c) l) s)
      | None => None
      end
  | DrFree o l =>
      let s' := set_locals (<[l:=false]> (locals s)) (ub s || negb (default false (locals s !! l))) s in
      Some (goto t Idle (set_live (live s) (gone s ++ match o with Some c => [c] | None => [] end) s'))
  | _ => None
  end.

Definition act (t : nat) (p : pc) (s : state) : option state :=
  match p with
  | Idle => None
  | GetSub _ | GetPop _ | GetAdd _ | GetNew _ => step_get t p s
  | SpStack _ | SpCmp _ | SpNew _ | SpLocal _ _ | SpSet _ _ _ | SpRun _ => step_spawn t p s
  | PutAdd _ _ | PutCheck _ _ _ | PutSub _ _ | PutPush _ _ => step_put t p s
  | DrLocal _ _ | DrStack _ _ _ | DrFree _ _ => step_drop t p s
  end.

Inductive event :=
  | Spawn (t : nat) (req : option Z)       (* [Builder::stack_size] or the default *)
  | Act (t : nat)
  | Finish (t : nat) (i : nat) (used : Z)  (* thread [t] ran the [i]th live coroutine to its end *)
  | SetStack (n : Z)
  | SetCap (n : Z).

Definition step (s : state) (e : event) : option state :=
  if exited s then None else
  match e with
  | Spawn t req => match threads s !! t with Some Idle => Some (goto t (SpStack req) s) | _ => None end
  | Act t => match threads s !! t with Some p => act t p s | None => None end
  | Finish t i used =>
      match threads s !! t, live s !! i with
      | Some Idle, Some c => Some (goto t (DrLocal c used) (set_live (delete i (live s)) (gone s) s))
      | _, _ => None
      end
  | SetStack n => Some (set_cfg (set_stack_size n (cfg s)) true s)
  | SetCap n => if decide (Word.is_usize n) then Some (set_cfg (set_pool_capacity n (cfg s)) (resized s) s) else None
  end.

(** ** The counter of the pool *)

(** What a thread in the middle of [get] or [put] has added to [size]. *)
Definition delta (p : pc) : Z :=
  match p with
  | PutCheck _ _ _ | PutSub _ _ | PutPush _ _ => 1
  | GetPop _ | GetAdd _ => -1
  | _ => 0
  end.
(** May still push, under a capacity of at most [K]. *)
Definition pushes (K : Z) (p : pc) : Z :=
  match p with PutCheck _ _ m => b2z (m <? K)%Z | PutPush _ _ => 1 | _ => 0 end.
Definition len (s : state) : Z := Z.of_nat (length (pool s)).
Definition nthreads (s : state) : Z := Z.of_nat (length (threads s)).

Record pool_ok (K : Z) (s : state) : Prop := {
  po_size : size s = Word.wrap (len s + zsum delta (threads s));
  po_bound : (maxcap s <= K -> len s + zsum (pushes K) (threads s) <= K + nthreads s)%Z;
  po_cap : (0 <= get_pool_capacity (cfg s) <= maxcap s)%Z
}.

Lemma pushes_range K p : (0 <= pushes K p <= 1)%Z.
Proof. destruct p; simpl; try lia. pose proof (b2z_nonneg (m <? K)%Z). pose proof (b2z_le1 (m <? K)%Z). lia. Qed.
Lemma delta_range p : (-1 <= delta p <= 1)%Z.
Proof. destruct p; simpl; lia. Qed.

(** Sums of bounded summands. *)
Lemma zsum_le_length {A} (f g : A -> Z) (b : Z) l :
  (forall x, f x <= g x + b)%Z -> (zsum f l <= zsum g l + b * Z.of_nat (length l))%Z.
Proof. intros H. induction l as [|x l IH]; cbn [zsum length]; [lia|]. specialize (H x). lia. Qed.

(** A step of thread [t] that moves [d] elements into the pool and [dd] into the counter. *)
Lemma pool_ok_move K s s' t p q d dd :
  pool_ok K s -> threads s !! t = Some p -> threads s' = <[t:=q]> (threads s) ->
  cfg s' = cfg s -> maxcap s' = maxcap s -> len s' = (len s + d)%Z ->
  size s' = Word.wrap (size s + dd) -> (d + delta q = dd + delta p)%Z ->
  ((maxcap s <= K)%Z -> d + pushes K q <= pushes K p \/
     len s + zsum (pushes K) (threads s) - pushes K p + d + pushes K q <= K + nthreads s)%Z ->
  pool_ok K s'.
Proof.
  intros [Hz Hb Hc] Ht Hth Hcfg Hmax Hlen Hsize Hd Hp.
  assert (Hn : nthreads s' = nthreads s) by (unfold nthreads; by rewrite Hth, length_insert).
  split; rewrite ?Hcfg, ?Hmax, ?Hn; [| |done].
  - rewrite Hsize, Hz, Hth, Hlen. zsum_update. rewrite Word.wrap_add_l. f_equal. lia.
  - intros HK. specialize (Hb HK). rewrite Hth, Hlen. zsum_update. destruct (Hp HK); lia.
Qed.

Lemma wrap_add_0 s K : pool_ok K s -> size s = Word.wrap (size s + 0).
Proof. intros [Hz _ _]. rewrite Z.add_0_r, Hz. by rewrite Word.wrap_idemp. Qed.

(** A counter below the capacity means that there is room for the push. *)
Lemma put_room K s t c l :
  pool_ok K s -> threads s !! t = Some (PutAdd c l) -> (K + 2 * nthreads s < Word.modulus)%Z ->
  (maxcap s <= K)%Z -> (size s < K)%Z ->
  (len s + zsum (pushes K) (threads s) + 1 <= K + nthreads s)%Z.
Proof.
  intros [Hz Hb Hc] Ht HK Hmax Hlt. specialize (Hb Hmax).
  pose proof (zsum_le_length (pushes K) (fun p => delta p + 1)%Z 0 (threads s)) as H1.
  pose proof (zsum_le_length delta (fun _ => 0)%Z 1 (threads s)) as H2.
  pose proof (zsum_le_length (fun _ : pc => 0)%Z delta 1 (threads s)) as H3.
  assert (Hsum : zsum (fun p => delta p + 1)%Z (threads s) = (zsum delta (threads s) + nthreads s)%Z).
  { unfold nthreads. clear. induction (threads s) as [|p l IH]; cbn [zsum length]; lia. }
  assert (H0 : zsum (fun _ : pc => 0)%Z (threads s) = 0%Z) by (apply zsum_all_zero; done).
  assert (Hlast : (zsum (pushes K) (threads s) + 1 <= zsum delta (threads s) + nthreads s)%Z).
  { pose proof (zsum_insert (pushes K) _ _ _ (GetPop 0) Ht) as E1.
    pose proof (zsum_insert (fun p => delta p + 1)%Z _ _ _ (GetPop 0) Ht) as E2. simpl in E1, E2.
    pose proof (zsum_le_length (pushes K) (fun p => delta p + 1)%Z 0 (<[t:=GetPop 0]> (threads s))) as E3.
    assert (forall x, (pushes K x <= delta x + 1 + 0)%Z).
    { intros []; simpl; try lia. pose proof (b2z_le1 (m <? K)%Z). lia. }
    specialize (E3 ltac:(done)). lia. }
  assert (H2' := H2 ltac:(intros x; cbv beta; pose proof (delta_range x); lia)).
  assert (H3' := H3 ltac:(intros x; cbv beta; pose proof (delta_range x); lia)).
  unfold nthreads in *. unfold len in *.
  destruct (decide (0 <= Z.of_nat (length (pool s)) + zsum delta (threads s))%Z) as [Hpos|Hneg].
  - rewrite Word.wrap_small in Hz; [lia|]. unfold Word.is_usize, Word.usize_max.
    pose proof (zsum_nonneg (pushes K) (threads s) ltac:(intros x; pose proof (pushes_range K x); lia)). lia.
  - exfalso. assert (Word.wrap (Z.of_nat (length (pool s)) + zsum delta (threads s)) =
      Z.of_nat (length (pool s)) + zsum delta (threads s) + Word.modulus)%Z as E; [|lia].
    unfold Word.wrap. rewrite <- (Z_mod_plus_full _ 1). rewrite Z.mod_small; lia.
Qed.

Ltac pool_move Hok Ht a b :=
  eapply (pool_ok_move _ _ _ _ _ _ a b Hok Ht); simpl; try done; unfold len; simpl; try lia.

Lemma pool_ok_act K s t p s' :
  pool_ok K s -> (K + 2 * nthreads s < Word.modulus)%Z -> threads s !! t = Some p -> act t p s = Some s' -> pool_ok K s'.
Proof.
  intros Hok HK Ht Hs. pose proof (wrap_add_0 s K Hok) as Hw.
  destruct p; simpl in Hs; try discriminate Hs; try (injection Hs as <-).
  - pool_move Hok Ht 0%Z 0%Z.
  - pool_move Hok Ht 0%Z 0%Z; case_match; simpl; lia.
  - pool_move Hok Ht 0%Z (-1)%Z.
  - destruct (pool s) as [|c q] eqn:Hq; injection Hs as <-.
    + pool_move Hok Ht 0%Z 0%Z.
    + pool_move Hok Ht (-1)%Z 0%Z; rewrite ?Hq; cbn [length]; try lia.
  - pool_move Hok Ht 0%Z 1%Z.
  - pool_move Hok Ht 0%Z 0%Z.
  - pool_move Hok Ht 0%Z 0%Z.
  - pool_move Hok Ht 0%Z 0%Z.
  - destruct (cos s !! c); [|done]. injection Hs as <-.
    pool_move Hok Ht 0%Z 0%Z.
  - pool_move Hok Ht 0%Z 0%Z.
  - destruct (cos s !! c) as [[? [l|] ?]|]; injection Hs as <-; [| by destruct Hok..].
    pool_move Hok Ht 0%Z 0%Z.
  - destruct (cos s !! c); [|done]. destruct (used =? _)%Z; injection Hs as <-; [by destruct Hok|].
    pool_move Hok Ht 0%Z 0%Z; case_match; simpl; lia.
  - pool_move Hok Ht 0%Z 1%Z.
    intros Hmax. destruct (Z.ltb_spec (size s) K); simpl; [right|lia].
    pose proof (put_room K s t c l Hok Ht HK Hmax). unfold len in *. lia.
  - pose proof (po_cap _ _ Hok) as Hc. pool_move Hok Ht 0%Z 0%Z.
    + case_match; simpl; lia.
    + intros Hmax. destruct (Z.leb_spec (get_pool_capacity (cfg s)) m); simpl; [destruct (m <? K)%Z; simpl; lia|].
      destruct (Z.ltb_spec m K); simpl; lia.
  - pool_move Hok Ht 0%Z (-1)%Z.
  - pool_move Hok Ht 1%Z 0%Z; rewrite ?length_app; simpl; lia.
  - pool_move Hok Ht 0%Z 0%Z.
Qed.

Lemma pool_ok_step K s e s' :
  pool_ok K s -> (K + 2 * nthreads s < Word.modulus)%Z -> step s e = Some s' -> pool_ok K s'.
Proof.
  intros Hok HK Hs. unfold step in Hs. destruct (exited s); [done|]. pose proof (wrap_add_0 s K Hok) as Hw.
  destruct e as [t req|t|t i used|n|n].
  - destruct (threads s !! t) as [[]|] eqn:Ht; try discriminate Hs. injection Hs as <-.
    pool_move Hok Ht 0%Z 0%Z.
  - destruct (threads s !! t) as [p|] eqn:Ht; [|done]. by eapply pool_ok_act.
  - destruct (threads s !! t) as [[]|] eqn:Ht; try discriminate Hs. destruct (live s !! i); [|done]. injection Hs as <-.
    pool_move Hok Ht 0%Z 0%Z.
  - injection Hs as <-. destruct Hok as [H1 H2 H3]. split; simpl; [done| |].
    + intros Hm. apply H2. lia.
    + change (get_pool_capacity (set_stack_size n (cfg s))) with (get_pool_capacity (cfg s)). lia.
  - destruct (decide (Word.is_usize n)) as [[Hn _]|]; [|done]. injection Hs as <-. destruct Hok as [H1 H2 H3].
    split; simpl; [done| |].
    + intros Hm. apply H2. lia.
    + unfold get_pool_capacity, set_pool_capacity, DEFAULT_POOL_CAPACITY. simpl. case_match; lia.
Qed.

(** ** Where the coroutines and their boxes are *)

Definition same (c x : nat) : Z := b2z (c =? x).
(** The coroutine a thread has in its hands, and the box it has taken. *)
Definition holds (c : nat) (p : pc) : Z :=
  match p with
  | SpLocal _ c' | SpSet _ c' _ | SpRun c' | DrLocal c' _ | DrStack c' _ _
  | PutAdd c' _ | PutCheck c' _ _ | PutSub c' _ | PutPush c' _ | DrFree (Some c') _ => same c c'
  | _ => 0
  end.
Definition place (c : nat) (s : state) : Z :=
  zsum (same c) (pool s) + zsum (same c) (live s) + zsum (same c) (gone s) + zsum (holds c) (threads s).
(** Coroutine [c] points to box [l]. *)
Definition points (xs : list CoroutineImpl) (l c : nat) : Z :=
  match xs !! c with Some (Co _ (Some l') _) => same l l' | _ => 0 end.
Definition owns (xs : list CoroutineImpl) (l : nat) (p : pc) : Z :=
  match p with
  | SpSet _ _ l' | DrStack _ l' _ | PutAdd _ l' | PutCheck _ l' _ | PutSub _ l' | PutPush _ l' | DrFree _ l' => same l l'
  | SpRun c | DrLocal c _ => points xs l c
  | _ => 0
  end.
Definition attached (xs : list CoroutineImpl) (c : nat) : Prop :=
  exists x l, xs !! c = Some x /\ local x = Some l.

Record places_ok (s : state) : Prop := {
  pl_place c : place c s = b2z (c <? length (cos s));
  pl_local l : (zsum (points (cos s) l) (live s) + zsum (owns (cos s) l) (threads s))%Z =
               b2z (default false (locals s !! l));
  pl_live c : c ∈ live s -> attached (cos s) c;
  pl_run t c : threads s !! t = Some (SpRun c) -> attached (cos s) c;
  pl_done t c u : threads s !! t = Some (DrLocal c u) -> attached (cos s) c;
  pl_ub : ub s = false
}.

Lemma same_nonneg c x : (0 <= same c x)%Z.
Proof. apply b2z_nonneg. Qed.
Lemma holds_nonneg c p : (0 <= holds c p)%Z.
Proof. destruct p as [| | | | | | | | | | | | | | | | |[]]; simpl; try lia; apply same_nonneg. Qed.
Lemma points_nonneg xs l c : (0 <= points xs l c)%Z.
Proof. unfold points. destruct (xs !! c) as [[? [] ?]|]; try lia. apply same_nonneg. Qed.
Lemma owns_nonneg xs l p : (0 <= owns xs l p)%Z.
Proof. destruct p; simpl; try lia; apply same_nonneg || apply points_nonneg. Qed.
Lemma same_refl c : same c c = 1%Z.
Proof. unfold same. by rewrite Nat.eqb_refl. Qed.
Lemma same_ne c x : c <> x -> same c x = 0%Z.
Proof. intros H. unfold same. by apply Nat.eqb_neq in H as ->. Qed.

Lemma zsum_ext_in {A} (f g : A -> Z) l : (forall x, x ∈ l -> f x = g x) -> zsum f l = zsum g l.
Proof.
  induction l as [|x l IH]; intros H; simpl; [done|]. rewrite (H x), IH; [done| |by left].
  intros y Hy. apply H. by right.
Qed.
Lemma zsum_same_pos c l : c ∈ l -> (1 <= zsum (same c) l)%Z.
Proof.
  intros (i & Hi)%list_elem_of_lookup_1. pose proof (zsum_lookup_le (same c) l i c (same_nonneg c) Hi).
  rewrite same_refl in *. lia.
Qed.

(** A coroutine in somebody's hands is nowhere else. *)
Lemma held_only s t p c :
  places_ok s -> threads s !! t = Some p -> holds c p = 1%Z ->
  c < length (cos s) /\ (c ∉ live s) /\ (c ∉ pool s) /\
  forall t' p', threads s !! t' = Some p' -> t' <> t -> holds c p' = 0%Z.
Proof.
  intros Hok Ht Hp. pose proof (pl_place _ Hok c) as H. unfold place in H.
  pose proof (zsum_lookup_le (holds c) _ _ _ (holds_nonneg c) Ht).
  pose proof (zsum_nonneg (same c) (pool s) (same_nonneg c)). pose proof (zsum_nonneg (same c) (live s) (same_nonneg c)).
  pose proof (zsum_nonneg (same c) (gone s) (same_nonneg c)). pose proof (b2z_le1 (c <? length (cos s))).
  split_and!.
  - apply Nat.ltb_lt. destruct (c <? length (cos s)); [done|simpl in *; lia].
  - intros Hl%zsum_same_pos. lia.
  - intros Hl%zsum_same_pos. lia.
  - intros t' p' Ht' Hne. pose proof (zsum_lookup2_le (holds c) _ _ _ _ _ (holds_nonneg c) Hne Ht' Ht).
    pose proof (holds_nonneg c p'). lia.
Qed.
Lemma live_in s c : places_ok s -> c ∈ live s -> c < length (cos s).
Proof.
  intros Hok Hc%zsum_same_pos. pose proof (pl_place _ Hok c) as H. unfold place in H.
  pose proof (zsum_nonneg (same c) (pool s) (same_nonneg c)). pose proof (zsum_nonneg (same c) (gone s) (same_nonneg c)).
  pose proof (zsum_nonneg (holds c) (threads s) (holds_nonneg c)).
  apply Nat.ltb_lt. destruct (c <? length (cos s)); [done|simpl in *; lia].
Qed.

Lemma zsum_insert_ext {A} (f g : A -> Z) l i x y :
  l !! i = Some x -> (forall j z, j <> i -> l !! j = Some z -> g z = f z) ->
  zsum g (<[i:=y]> l) = (zsum f l - f x + g y)%Z.
Proof.
  revert i. induction l as [|a l IH]; intros [|i] Hi H; simplify_eq/=.
  - rewrite (zsum_ext_in g f l); [lia|]. intros z (j & Hj)%list_elem_of_lookup_1. by apply (H (S j)).
  - rewrite (IH i Hi); [|by intros j z ? ?; apply (H (S j)); [lia|]]. rewrite (H 0 a); [lia|done..].
Qed.

(** Is thread [p] about to hand over or to finish coroutine [c]? *)
Definition runs (c : nat) (p : pc) : Prop := p = SpRun c \/ exists u, p = DrLocal c u.
Lemma runs_attached s t c p : places_ok s -> threads s !! t = Some p -> runs c p -> attached (cos s) c.
Proof. intros Hok Ht [->|[u ->]]; [by eapply pl_run|by eapply pl_done]. Qed.
Lemma owns_ext xs ys l p : (forall c, runs c p -> ys !! c = xs !! c) -> owns ys l p = owns xs l p.
Proof. intros H. destruct p; simpl; try done; unfold points; rewrite (H c); try done; [by left|right; by eexists]. Qed.

(** A step of thread [t] from [p] to [q]. *)
Lemma places_move s s' t p q :
  places_ok s -> threads s !! t = Some p -> threads s' = <[t:=q]> (threads s) -> ub s' = false ->
  (forall c, c ∈ live s \/ (exists t' p', t' <> t /\ threads s !! t' = Some p' /\ runs c p') -> cos s' !! c = cos s !! c) ->
  (forall c, zsum (same c) (pool s') + zsum (same c) (live s') + zsum (same c) (gone s') + holds c q - b2z (c <? length (cos s'))%nat =
     zsum (same c) (pool s) + zsum (same c) (live s) + zsum (same c) (gone s) + holds c p - b2z (c <? length (cos s))%nat)%Z ->
  (forall l, zsum (points (cos s') l) (live s') + owns (cos s') l q - b2z (default false (locals s' !! l)) =
     zsum (points (cos s') l) (live s) + owns (cos s) l p - b2z (default false (locals s !! l)))%Z ->
  (forall c, c ∈ live s' -> c ∈ live s \/ attached (cos s') c) ->
  (forall c, runs c q -> attached (cos s') c) -> places_ok s'.
Proof.
  intros Hok Ht Hth Hub Hkeep Hpl Hloc Hlive Hruns. destruct Hok as [H1 H2 H3 H4 H5 H6].
  assert (Hatt : forall c, cos s' !! c = cos s !! c -> attached (cos s) c -> attached (cos s') c).
  { intros c He (x & l & ? & ?). exists x, l. by rewrite He. }
  assert (Hat : forall t' p' c, threads s' !! t' = Some p' -> runs c p' -> attached (cos s') c).
  { intros t' p' c Hp' Hr. rewrite Hth in Hp'. apply lookup_insert_list in Hp' as [(_ & -> & _)|[Hne Hp']]; [by apply Hruns|].
    apply Hatt; [apply Hkeep; right; by exists t', p'|]. destruct Hr as [->|[u ->]]; eauto. }
  split; [..|done].
  - intros c. specialize (H1 c). specialize (Hpl c). unfold place in *. rewrite Hth. zsum_update. lia.
  - intros l. specialize (H2 l). specialize (Hloc l).
    rewrite Hth, (zsum_insert_ext (owns (cos s) l) _ _ _ _ _ Ht).
    + rewrite (zsum_ext_in (points (cos s') l) (points (cos s) l) (live s)) in Hloc; [lia|].
      intros c Hc. unfold points. rewrite (Hkeep c); [done|by left].
    + intros t' p' Hne Hp'. apply owns_ext. intros c Hc. apply Hkeep. right. by exists t', p'.
  - intros c Hc. destruct (Hlive c Hc) as [Hl|?]; [|done]. apply Hatt; [apply Hkeep; by left|by apply H3].
  - intros t' c Hp'. eapply Hat; [done|by left].
  - intros t' c u Hp'. eapply Hat; [done|right; by eexists].
Qed.

(** Applies [places_move]; what is left are the two balances and what the new place
    of the thread demands. *)
Ltac place_move Hok Ht :=
  eapply (places_move _ _ _ _ _ Hok Ht); simpl;
  [done|try apply (pl_ub _ Hok)|try done|intros c0; simpl; try lia|intros l0; simpl; try lia|try (by left; done); try (by auto)|
   try (by intros c0 [?|[? ?]])].

Lemma ltb_length_app c (xs : list CoroutineImpl) x :
  b2z (c <? length (xs ++ [x]))%nat = (b2z (c <? length xs)%nat + same c (length xs))%Z.
Proof.
  rewrite length_app. simpl. unfold same.
  destruct (Nat.ltb_spec c (length xs + 1)), (Nat.ltb_spec c (length xs)), (Nat.eqb_spec c (length xs)); simpl; lia.
Qed.

Lemma places_alloc s t p n x :
  places_ok s -> threads s !! t = Some p -> (forall c, holds c p = 0%Z) -> (forall xs l, owns xs l p = 0%Z) ->
  places_ok (goto t (SpLocal n (length (cos s))) (set_cos (cos s ++ [x]) s)).
Proof.
  intros Hok Ht Hp Ho. place_move Hok Ht.
  - intros c [Hc|(t' & p' & _ & Hp' & Hr)]; apply lookup_app_l.
    + by apply live_in.
    + destruct (runs_attached _ _ _ _ Hok Hp' Hr) as (y & l & Hy & _). by eapply lookup_lt_Some.
  - rewrite ltb_length_app, Hp. lia.
  - rewrite Ho. lia.
Qed.

Lemma places_get s t p s' :
  places_ok s -> threads s !! t = Some p -> step_get t p s = Some s' -> places_ok s'.
Proof.
  intros Hok Ht Hs. destruct p; simpl in Hs; try discriminate Hs.
  - injection Hs as <-. place_move Hok Ht.
  - destruct (pool s) as [|c q] eqn:Hq; injection Hs as <-; place_move Hok Ht; rewrite Hq; simpl; lia.
  - injection Hs as <-. place_move Hok Ht.
  - injection Hs as <-. by apply (places_alloc s t (GetNew n)).
Qed.

Lemma places_set_local s t n c l x :
  places_ok s -> threads s !! t = Some (SpSet n c l) -> cos s !! c = Some x ->
  places_ok (goto t (SpRun c) (set_cos (<[c:=Co (stack x) (Some l) (Some n)]> (cos s)) s)).
Proof.
  intros Hok Ht Hc. destruct (held_only s t _ c Hok Ht (same_refl c)) as (Hlt & Hlive & _ & Hoth).
  place_move Hok Ht.
  - intros c' [Hl|(t' & p' & Hne & Hp' & Hr)]; apply list_lookup_insert_ne; intros <-; [done|].
    specialize (Hoth t' p' Hp' Hne). destruct Hr as [->|[u ->]]; simpl in Hoth; by rewrite same_refl in Hoth.
  - rewrite length_insert. lia.
  - unfold points at 2. rewrite list_lookup_insert_eq by done. lia.
  - intros c' [[= <-]|[u Hu]]; [|done]. exists (Co (stack x) (Some l) (Some n)), l. by rewrite list_lookup_insert_eq.
Qed.

Lemma places_spawn s t p s' :
  places_ok s -> threads s !! t = Some p -> step_spawn t p s = Some s' -> places_ok s'.
Proof.
  intros Hok Ht Hs. destruct p; simpl in Hs; try discriminate Hs; try (injection Hs as <-).
  - place_move Hok Ht.
  - destruct (n =? get_stack_size (cfg s))%Z; place_move Hok Ht.
  - by apply (places_alloc s t (SpNew n)).
  - assert (Hnew : default false (locals s !! length (locals s)) = false) by (by rewrite lookup_ge_None_2).
    place_move Hok Ht. destruct (decide (l0 = length (locals s))) as [->|Hne].
    + rewrite same_refl, list_lookup_middle, Hnew by done. simpl. lia.
    + rewrite same_ne by done. destruct (decide (l0 < length (locals s))).
      * rewrite lookup_app_l by done. lia.
      * rewrite !lookup_ge_None_2; [lia|lia|rewrite length_app; simpl; lia].
  - destruct (cos s !! c) as [x|] eqn:Hc; [|done]. injection Hs as <-. by apply places_set_local.
  - place_move Hok Ht.
    + rewrite zsum_app. simpl. lia.
    + rewrite zsum_app. simpl. lia.
    + intros c' [?|Hc]%elem_of_app; [by left|right]. apply list_elem_of_singleton in Hc as ->. by eapply pl_run.
Qed.

Lemma places_put s t p s' :
  places_ok s -> threads s !! t = Some p -> step_put t p s = Some s' -> places_ok s'.
Proof.
  intros Hok Ht Hs. destruct p; simpl in Hs; try discriminate Hs; injection Hs as <-.
  - place_move Hok Ht.
  - destruct (_ <=? _)%Z; place_move Hok Ht.
  - place_move Hok Ht. rewrite zsum_app. simpl. lia.
  - place_move Hok Ht. rewrite zsum_app. simpl. lia.
Qed.

(** The box a thread has taken is allocated. *)
Lemma owned_alive s t p l :
  places_ok s -> threads s !! t = Some p -> owns (cos s) l p = 1%Z -> default false (locals s !! l) = true.
Proof.
  intros Hok Ht Hp. pose proof (pl_local _ Hok l) as H.
  pose proof (zsum_lookup_le (owns (cos s) l) _ _ _ (owns_nonneg (cos s) l) Ht).
  pose proof (zsum_nonneg (points (cos s) l) (live s) (points_nonneg (cos s) l)).
  destruct (default false (locals s !! l)); [done|simpl in H; lia].
Qed.

Lemma places_drop s t p s' :
  places_ok s -> threads s !! t = Some p -> step_drop t p s = Some s' -> places_ok s'.
Proof.
  intros Hok Ht Hs. destruct p; simpl in Hs; try discriminate Hs.
  - destruct (pl_done _ Hok _ _ _ Ht) as ([st lo w] & l & Hx & Hl). simpl in Hl. subst lo.
    rewrite Hx in Hs. injection Hs as <-. place_move Hok Ht. unfold points at 3. rewrite Hx. lia.
  - destruct (cos s !! c) as [x|]; [|done]. destruct (used =? stack x)%Z; injection Hs as <-.
    + by destruct Hok.
    + destruct (stack x =? _)%Z; place_move Hok Ht.
  - injection Hs as <-. assert (Halive := owned_alive s t _ l Hok Ht (same_refl l)).
    assert (Hlt : l < length (locals s)) by (destruct (locals s !! l) eqn:E; [by eapply lookup_lt_Some|done]).
    place_move Hok Ht.
    + rewrite Halive, (pl_ub _ Hok). done.
    + rewrite zsum_app. destruct o; simpl; lia.
    + destruct (decide (l0 = l)) as [->|Hne].
      * rewrite list_lookup_insert_eq, same_refl, Halive by done. simpl. lia.
      * rewrite list_lookup_insert_ne, same_ne by done. lia.
Qed.

Lemma places_step s e s' : places_ok s -> step s e = Some s' -> places_ok s'.
Proof.
  intros Hok Hs. unfold step in Hs. destruct (exited s); [done|]. destruct e as [t req|t|t i used|n|n].
  - destruct (threads s !! t) as [[]|] eqn:Ht; try discriminate Hs. injection Hs as <-. place_move Hok Ht.
  - destruct (threads s !! t) as [p|] eqn:Ht; [|done].
    destruct p; try discriminate Hs;
      (by eapply places_get) || (by eapply places_spawn) || (by eapply places_put) || by eapply places_drop.
  - destruct (threads s !! t) as [[]|] eqn:Ht; try discriminate Hs. destruct (live s !! i) as [c|] eqn:Hi; [|done].
    injection Hs as <-. place_move Hok Ht.
    + rewrite (zsum_delete _ _ _ _ Hi). lia.
    + rewrite (zsum_delete _ _ _ _ Hi). lia.
    + intros c' Hc. left. rewrite list_elem_of_lookup in *. destruct Hc as [j Hj].
      destruct (decide (j < i)); [rewrite list_lookup_delete_lt in Hj by done|rewrite list_lookup_delete_ge in Hj by lia]; eauto.
    + intros c' [?|[u [= <- <-]]]; [done|]. apply (pl_live _ Hok). by eapply list_elem_of_lookup_2.
  - injection Hs as <-. by destruct Hok.
  - destruct (decide _); [|done]. injection Hs as <-. by destruct Hok.
Qed.

Lemma zsum_same_seq c a n : zsum (same c) (seq a n) = b2z ((a <=? c) && (c <? a + n))%nat.
Proof.
  revert a. induction n as [|n IH]; intros a; cbn [seq zsum].
  - destruct (Nat.leb_spec a c), (Nat.ltb_spec c (a + 0)); simpl; try done; lia.
  - rewrite IH. unfold same.
    destruct (Nat.eqb_spec c a), (Nat.leb_spec a c), (Nat.leb_spec (S a) c), (Nat.ltb_spec c (S a + n)), (Nat.ltb_spec c (a + S n)); simpl; lia.
Qed.

Lemma places_init g n : places_ok (init g n).
Proof.
  assert (Hidle : forall t p, replicate n Idle !! t = Some p -> p = Idle) by (by intros t p [-> _]%lookup_replicate).
  split; unfold init; simpl.
  - intros c. unfold place. simpl. rewrite zsum_same_seq, length_replicate, zsum_all_zero; [simpl; lia|].
    by intros t p ->%Hidle.
  - intros l. rewrite zsum_all_zero; [done|]. by intros t p ->%Hidle.
  - by intros c ?%elem_of_nil.
  - by intros t c ?%Hidle.
  - by intros t c u ?%Hidle.
  - done.
Qed.

(** ** Stack sizes *)

(** The stack a thread's coroutine must have, if the configured size is [z]. *)
Definition stack_pc (z : Z) (xs : list CoroutineImpl) (p : pc) : Prop :=
  match p with
  | GetSub n | GetPop n | GetAdd n | GetNew n => n = z
  | SpLocal n c | SpSet n c _ => forall x, xs !! c = Some x -> (n <= stack x)%Z
  | PutAdd c _ | PutCheck c _ _ | PutSub c _ | PutPush c _ => forall x, xs !! c = Some x -> stack x = z
  | _ => True
  end.

Record stack_ok (z : Z) (s : state) : Prop := {
  so_cfg : get_stack_size (cfg s) = z;
  so_pool c x : c ∈ pool s -> cos s !! c = Some x -> (z <= stack x)%Z;
  so_want c x w : cos s !! c = Some x -> want x = Some w -> (w <= stack x)%Z;
  so_pc t p : threads s !! t = Some p -> stack_pc z (cos s) p
}.

(** Objects keep their stacks; new ones are in nobody's hands yet. *)
Definition extends (xs ys : list CoroutineImpl) : Prop :=
  forall c x, ys !! c = Some x -> c < length xs -> exists y, xs !! c = Some y /\ stack y = stack x.

Lemma stack_pc_ext z xs ys p :
  extends xs ys -> (forall c, holds c p = 1%Z -> c < length xs) -> stack_pc z xs p -> stack_pc z ys p.
Proof.
  intros H Hh Hp.
  assert (Hx : forall c x, holds c p = 1%Z -> ys !! c = Some x -> exists y, xs !! c = Some y /\ stack y = stack x).
  { intros c x Hc Hx. apply H; [done|]. by apply Hh. }
  destruct p; simpl in *; try done; intros x Hc; destruct (Hx c x (same_refl c) Hc) as (y & Hy & <-); by apply Hp.
Qed.

Lemma stack_move z s s' t p q :
  stack_ok z s -> places_ok s -> threads s !! t = Some p -> threads s' = <[t:=q]> (threads s) -> cfg s' = cfg s ->
  extends (cos s) (cos s') ->
  (forall c x, c ∈ pool s' -> cos s' !! c = Some x -> c ∈ pool s \/ (z <= stack x)%Z) ->
  (forall c x w, cos s' !! c = Some x -> want x = Some w -> cos s !! c = Some x \/ (w <= stack x)%Z) ->
  stack_pc z (cos s') q -> stack_ok z s'.
Proof.
  intros [H1 H2 H3 H4] Hpl Ht Hth Hcfg Hext Hpool Hwant Hq.
  assert (Hlt : forall c, c ∈ pool s -> c < length (cos s)).
  { intros c Hc%zsum_same_pos. pose proof (pl_place _ Hpl c) as H. unfold place in H.
    pose proof (zsum_nonneg (same c) (live s) (same_nonneg c)). pose proof (zsum_nonneg (same c) (gone s) (same_nonneg c)).
    pose proof (zsum_nonneg (holds c) (threads s) (holds_nonneg c)).
    apply Nat.ltb_lt. destruct (c <? length (cos s)); [done|simpl in *; lia]. }
  split.
  - by rewrite Hcfg.
  - intros c x Hc Hx. destruct (Hpool c x Hc Hx) as [Hp|?]; [|done].
    destruct (Hext c x Hx (Hlt c Hp)) as (y & Hy & <-). by eapply H2.
  - intros c x w Hx Hw. destruct (Hwant c x w Hx Hw); eauto.
  - intros t' p' Hp'. rewrite Hth in Hp'. apply lookup_insert_list in Hp' as [(_ & -> & _)|[Hne Hp']]; [done|].
    eapply stack_pc_ext; [done| |by eapply H4]. intros c Hc. by eapply held_only.
Qed.

Lemma extends_refl xs : extends xs xs.
Proof. intros c x Hx _. by exists x. Qed.
Lemma extends_app xs x : extends xs (xs ++ [x]).
Proof. intros c y Hy Hc. rewrite lookup_app_l in Hy by done. by exists y. Qed.
Lemma extends_insert xs c x y : xs !! c = Some x -> stack y = stack x -> extends xs (<[c:=y]> xs).
Proof.
  intros Hx Hs c' z Hz _. apply lookup_insert_list in Hz as [(<- & -> & _)|[_ ?]]; eauto.
Qed.

Ltac stack_move Hok Hpl Ht :=
  eapply (stack_move _ _ _ _ _ _ Hok Hpl Ht); simpl;
  [done|try done|try apply extends_refl; try apply extends_app|try (by auto)|try (by auto)|simpl; try done].

(** What a new generator needs: its stack is at least as large as asked for. *)
Context (gn_size_ge : forall n, (n <= gn_size n)%Z).

Lemma stack_new z s t p n m :
  stack_ok z s -> places_ok s -> threads s !! t = Some p -> (n <= gn_size m)%Z ->
  stack_ok z (goto t (SpLocal n (length (cos s))) (set_cos (cos s ++ [new_opt m]) s)).
Proof.
  intros Hok Hpl Ht Hn. stack_move Hok Hpl Ht.
  - intros c x w Hx Hw. apply lookup_snoc_Some' in Hx as [?|[_ ->]]; [by left|done].
  - intros x Hx. rewrite list_lookup_middle in Hx by done. by injection Hx as <-.
Qed.

Lemma stack_act z s t p s' :
  stack_ok z s -> places_ok s -> threads s !! t = Some p -> act t p s = Some s' -> stack_ok z s'.
Proof.
  intros Hok Hpl Ht Hs. pose proof (so_cfg _ _ Hok) as Hz. pose proof (so_pc _ _ Hok _ _ Ht) as Hpc.
  destruct p; simpl in Hs; try discriminate Hs; try (injection Hs as <-); simpl in Hpc.
  - stack_move Hok Hpl Ht.
  - stack_move Hok Hpl Ht. rewrite Hz. by destruct (Z.eqb_spec n z).
  - stack_move Hok Hpl Ht.
  - destruct (pool s) as [|c q] eqn:Hq; injection Hs as <-; stack_move Hok Hpl Ht.
    + rewrite Hq. intros c' x Hc _. left. by right.
    + intros x Hx. subst n. eapply (so_pool _ _ Hok); [|done]. rewrite Hq. by left.
  - stack_move Hok Hpl Ht.
  - apply (stack_new z s t (GetNew n) n (get_stack_size (cfg s)) Hok Hpl Ht). rewrite Hpc, Hz. apply gn_size_ge.
  - apply (stack_new z s t (SpNew n) n n Hok Hpl Ht). apply gn_size_ge.
  - stack_move Hok Hpl Ht.
  - destruct (cos s !! c) as [x|] eqn:Hc; [|done]. injection Hs as <-. stack_move Hok Hpl Ht.
    + by eapply extends_insert.
    + intros c' y w Hy Hw. apply lookup_insert_list in Hy as [(<- & -> & _)|[_ ?]]; [|by left].
      right. simpl in *. injection Hw as <-. by apply Hpc.
  - stack_move Hok Hpl Ht.
  - destruct (cos s !! c) as [[? [l|] ?]|]; injection Hs as <-; [|by destruct Hok..]. stack_move Hok Hpl Ht.
  - destruct (cos s !! c) as [x|] eqn:Hc; [|done]. destruct (used =? stack x)%Z; injection Hs as <-; [by destruct Hok|].
    stack_move Hok Hpl Ht. rewrite Hz. destruct (Z.eqb_spec (stack x) z); [|done]. intros y Hy. congruence.
  - stack_move Hok Hpl Ht.
  - stack_move Hok Hpl Ht. by destruct (_ <=? _)%Z.
  - stack_move Hok Hpl Ht.
  - stack_move Hok Hpl Ht. intros c' x [?|Hc]%elem_of_app Hx; [by left|right].
    apply list_elem_of_singleton in Hc as ->. rewrite (Hpc x Hx). lia.
  - stack_move Hok Hpl Ht.
Qed.

Lemma stack_step z s e s' :
  stack_ok z s -> places_ok s -> step s e = Some s' -> resized s' = false -> stack_ok z s'.
Proof.
  intros Hok Hpl Hs Hr. unfold step in Hs. destruct (exited s); [done|]. destruct e as [t req|t|t i used|n|n].
  - destruct (threads s !! t) as [[]|] eqn:Ht; try discriminate Hs. injection Hs as <-. stack_move Hok Hpl Ht.
  - destruct (threads s !! t) as [p|] eqn:Ht; [|done]. by eapply stack_act.
  - destruct (threads s !! t) as [[]|] eqn:Ht; try discriminate Hs. destruct (live s !! i); [|done].
    injection Hs as <-. stack_move Hok Hpl Ht.
  - by injection Hs as <-.
  - destruct (decide _); [|done]. injection Hs as <-. by destruct Hok.
Qed.

(** ** The theorems *)

Lemma act_threads s t p s' : act t p s = Some s' -> length (threads s') = length (threads s) /\ resized s' = resized s.
Proof.
  intros Hs. destruct p; simpl in Hs; try discriminate Hs; repeat case_match; simplify_eq; simpl; by rewrite ?length_insert.
Qed.
Lemma step_threads s e s' :
  step s e = Some s' -> nthreads s' = nthreads s /\ (resized s' = false -> resized s = false).
Proof.
  intros Hs. unfold step, nthreads in *. destruct (exited s); [done|]. destruct e as [t req|t|t i used|n|n].
  - destruct (threads s !! t) as [[]|]; try discriminate Hs. injection Hs as <-. simpl. by rewrite length_insert.
  - destruct (threads s !! t) as [p|]; [|done]. destruct (act_threads _ _ _ _ Hs) as [-> ->]. done.
  - destruct (threads s !! t) as [[]|]; try discriminate Hs. destruct (live s !! i); [|done].
    injection Hs as <-. simpl. by rewrite length_insert.
  - by injection Hs as <-.
  - destruct (decide _); [|done]. by injection Hs as <-.
Qed.

Lemma places_reachable g n s : reachable step (init g n) s -> places_ok s.
Proof. apply reachable_ind_inv; [apply places_init|apply places_step]. Qed.

Lemma pool_ok_init K g n : Word.is_usize (POOL_CAPACITY g) -> pool_ok K (init g n).
Proof.
  intros Hg. assert (Hc : Word.is_usize (get_pool_capacity g)).
  { unfold get_pool_capacity, DEFAULT_POOL_CAPACITY. case_match; [done|by vm_compute]. }
  assert (Hidle : forall f : pc -> Z, f Idle = 0%Z -> zsum f (replicate n Idle) = 0%Z).
  { intros f Hf. rewrite zsum_replicate, Hf. lia. }
  destruct Hc as [Hc1 Hc2]. split; unfold len, nthreads, init; cbn [size pool threads maxcap cfg];
    rewrite ?length_seq, ?Hidle, ?Z2Nat.id by done.
  - rewrite Z.add_0_r, Word.wrap_small; done.
  - lia.
  - lia.
Qed.

Lemma pool_ok_reachable K g n s :
  Word.is_usize (POOL_CAPACITY g) -> (K + 2 * Z.of_nat n < Word.modulus)%Z ->
  reachable step (init g n) s -> nthreads s = Z.of_nat n /\ pool_ok K s.
Proof.
  intros Hg HK Hr. induction Hr as [|s e s' _ [Hn Hok] Hs].
  - split; [|by apply pool_ok_init]. unfold nthreads, init. simpl. by rewrite length_replicate.
  - split.
    + rewrite <- Hn. eapply step_threads, Hs.
    + eapply pool_ok_step; [done|by rewrite Hn|done].
Qed.

Lemma same_nodup l : (forall c, (zsum (same c) l <= 1)%Z) -> NoDup l.
Proof.
  induction l as [|x l IH]; intros H; constructor.
  - intros Hx%zsum_same_pos. specialize (H x). simpl in H. rewrite same_refl in H. lia.
  - apply IH. intros c. specialize (H c). simpl in H. pose proof (same_nonneg c x). lia.
Qed.

(** Nobody is in the middle of anything. *)
Definition rest (s : state) : Prop := forall t p, threads s !! t = Some p -> p = Idle.

Lemma rest_zsum (f : pc -> Z) s : rest s -> f Idle = 0%Z -> zsum f (threads s) = 0%Z.
Proof. intros Hr Hf. apply zsum_all_zero. intros t p Hp. by rewrite (Hr t p Hp). Qed.

Lemma live_local s c :
  places_ok s -> c ∈ live s ->
  exists x l, cos s !! c = Some x /\ local x = Some l /\ locals s !! l = Some true.
Proof.
  intros Hok Hc. destruct (pl_live _ Hok c Hc) as ([st lo w] & l & Hx & Hl). simpl in Hl. subst lo.
  exists (Co st (Some l) w), l. split_and!; [done..|].
  pose proof (pl_local _ Hok l) as H. apply list_elem_of_lookup_1 in Hc as [i Hi].
  pose proof (zsum_lookup_le _ _ _ _ (points_nonneg (cos s) l) Hi) as H1.
  pose proof (zsum_nonneg _ (threads s) (owns_nonneg (cos s) l)).
  unfold points at 1 in H1. rewrite Hx, same_refl in H1.
  destruct (locals s !! l) as [[]|]; simpl in H; [done|lia..].
Qed.

Lemma live_distinct s i j ci cj l :
  places_ok s -> live s !! i = Some ci -> live s !! j = Some cj -> i <> j ->
  points (cos s) l ci = 1%Z -> points (cos s) l cj = 1%Z -> False.
Proof.
  intros Hok Hi Hj Hne H1 H2. pose proof (pl_local _ Hok l) as H.
  pose proof (zsum_lookup2_le _ _ _ _ _ _ (points_nonneg (cos s) l) Hne Hi Hj).
  pose proof (zsum_nonneg _ (threads s) (owns_nonneg (cos s) l)).
  pose proof (b2z_le1 (default false (locals s !! l))). lia.
Qed.

(** C31. While the capacity plus twice the number of threads fits in a word, the pool
    never holds more coroutines than the largest capacity configured plus the number
    of threads, whatever gets and puts interleave and although the counter wraps below
    zero while [get]s find the pool empty; the counter is always the length of the
    pool corrected by the operations in progress, and at rest it is the length. *)
Theorem pool_bounded g n s :
  Word.is_usize (POOL_CAPACITY g) -> reachable step (init g n) s ->
  (maxcap s + 2 * Z.of_nat n < Word.modulus)%Z ->
  (len s <= maxcap s + Z.of_nat n)%Z /\
  size s = Word.wrap (len s + zsum delta (threads s)) /\
  (rest s -> size s = len s).
Proof.
  intros Hg Hr HK. destruct (pool_ok_reachable _ _ _ _ Hg HK Hr) as [Hn [Hz Hb Hc]].
  assert (Hlen : (len s <= maxcap s + Z.of_nat n)%Z).
  { specialize (Hb ltac:(lia)). rewrite Hn in Hb.
    pose proof (zsum_nonneg (pushes (maxcap s)) (threads s) ltac:(intros p; pose proof (pushes_range (maxcap s) p); lia)). lia. }
  split_and!; [done..|]. intros Hrest. rewrite Hz, (rest_zsum delta s Hrest eq_refl), Z.add_0_r.
  apply Word.wrap_small. unfold Word.is_usize, Word.usize_max, len in *. lia.
Qed.

(** C32. A coroutine object is in one place: the pool, the hands of one thread, alive
    or freed; so [get] never hands out one that still runs, and none is recycled
    twice.  A live coroutine points to a [CoroutineLocal] that is allocated and that
    no other live coroutine points to; no box is freed twice.  At rest nothing is
    lost: every object is in the pool, alive or freed, and a box is allocated only
    for a live coroutine. *)
Theorem coroutine_recycled_once g n s :
  reachable step (init g n) s ->
  ub s = false /\ NoDup (pool s ++ live s ++ gone s) /\
  (forall c, c ∈ live s -> exists x l, cos s !! c = Some x /\ local x = Some l /\ locals s !! l = Some true) /\
  (forall i j ci cj x y l, live s !! i = Some ci -> live s !! j = Some cj -> i <> j ->
     cos s !! ci = Some x -> cos s !! cj = Some y -> local x = Some l -> local y = Some l -> False) /\
  (rest s ->
     (forall c, c < length (cos s) -> c ∈ pool s ++ live s ++ gone s) /\
     (forall l, locals s !! l = Some true -> exists c x, c ∈ live s /\ cos s !! c = Some x /\ local x = Some l)).
Proof.
  intros Hr. pose proof (places_reachable _ _ _ Hr) as Hok.
  assert (Hsum : forall c, zsum (same c) (pool s ++ live s ++ gone s) = (place c s - zsum (holds c) (threads s))%Z).
  { intros c. unfold place. rewrite !zsum_app. lia. }
  split_and!.
  - apply Hok.
  - apply same_nodup. intros c. rewrite Hsum, (pl_place _ Hok c).
    pose proof (b2z_le1 (c <? length (cos s))). pose proof (zsum_nonneg _ (threads s) (holds_nonneg c)). lia.
  - intros c. by apply live_local.
  - intros i j ci cj x y l Hi Hj Hne Hx Hy Hlx Hly.
    eapply (live_distinct s i j ci cj l); [done..| |]; unfold points;
      [rewrite Hx; destruct x|rewrite Hy; destruct y]; simpl in *; subst; apply same_refl.
  - intros Hrest. split.
    + intros c Hc%Nat.ltb_lt. specialize (Hsum c). rewrite (pl_place _ Hok c), Hc in Hsum.
      rewrite (rest_zsum _ s Hrest) in Hsum by done. simpl in Hsum.
      destruct (zsum_nonzero (same c) (pool s ++ live s ++ gone s)) as (i & x & Hi & Hx); [lia|].
      destruct (decide (c = x)) as [<-|]; [by eapply list_elem_of_lookup_2|by rewrite same_ne in Hx].
    + intros l Hl. pose proof (pl_local _ Hok l) as H. rewrite Hl, (rest_zsum _ s Hrest) in H by done. simpl in H.
      destruct (zsum_nonzero (points (cos s) l) (live s)) as (i & c & Hi & Hx); [lia|].
      unfold points in Hx. destruct (cos s !! c) as [[st [l'|] w]|] eqn:Hc; try done.
      destruct (decide (l = l')) as [<-|]; [|by rewrite same_ne in Hx].
      exists c, (Co st (Some l) w). split; [by eapply list_elem_of_lookup_2|done].
Qed.

(** As long as the stack size is not reconfigured, a coroutine has at least the
    stack that [spawn] was asked for (or the configured one), recycled or not.  The
    hypothesis on the generator crate is that it only rounds sizes up. *)
Theorem spawn_stack_enough g n s c x w :
  reachable step (init g n) s -> resized s = false ->
  cos s !! c = Some x -> want x = Some w -> (w <= stack x)%Z.
Proof.
  intros Hr Hres. enough (Hok : stack_ok (get_stack_size g) s) by apply Hok.
  induction Hr as [|s e s' Hr IH Hs].
  - split; unfold init; simpl; [done| | |].
    + intros c' y _ [-> _]%lookup_replicate. apply gn_size_ge.
    + intros c' y v [-> _]%lookup_replicate. done.
    + by intros t p [-> _]%lookup_replicate.
  - eapply stack_step; [|by eapply places_reachable|done..]. apply IH. by eapply step_threads.
Qed.

End machine.

(** ** A run: stacks rounded to pages of 512 words, a pool of one coroutine *)
Module Demo.
Definition pages (n : Z) : Z := (n + 511) / 512 * 512.
Definition cfg0 : Config := Cfg 2 1024 1 true.
Definition step := Lc.step pages.
Definition start := Lc.init pages cfg0 2.
(** Thread [0] spawns from the pool while thread [1] builds a coroutine with a stack
    of its own; the first one finishes and is recycled. *)
Definition spawns : list event :=
  Spawn 0 None :: Spawn 1 (Some 1000%Z) :: repeat (Act 0) 7 ++ repeat (Act 1) 6 ++ Finish 0 0 5 :: repeat (Act 0) 6.
(** The second one finishes too: its stack has the pool's size, but the pool is full. *)
Definition finishes : list event := Finish 1 0 7 :: repeat (Act 1) 6.
(** The stack size changes after the pool was built. *)
Definition resizes : list event := SetStack 2048 :: Spawn 0 (Some 2048%Z) :: repeat (Act 0) 7.
Definition mid := default start (run step spawns start).
End Demo.

Lemma pages_ge n : (n <= Demo.pages n)%Z.
Proof. unfold Demo.pages. pose proof (Z.div_mod (n + 511) 512). pose proof (Z.mod_pos_bound (n + 511) 512). lia. Qed.
Lemma mid_reachable : reachable Demo.step Demo.start Demo.mid.
Proof.
  assert (H : is_Some (run Demo.step Demo.spawns Demo.start)) by (vm_compute; by eexists).
  destruct H as [s Hs]. unfold Demo.mid. rewrite Hs. simpl. by eapply run_reachable.
Qed.

(** The recycled coroutine is in the pool again; the other one is freed. *)
Lemma lifecycle_demo :
  exists s, run Demo.step (Demo.spawns ++ Demo.finishes) Demo.start = Some s /\
    pool s = [0] /\ live s = [] /\ gone s = [1] /\ locals s = [false; false] /\ size s = 1%Z.
Proof. eexists. split; [vm_compute; reflexivity|]. by split_and!. Qed.

(** After [set_stack_size] a coroutine from the pool has the old stack, smaller than
    the one asked for, while its handle reports the new size. *)
Lemma resized_stack_too_small :
  exists s x, run Demo.step Demo.resizes Demo.start = Some s /\ live s = [0] /\ cos s !! 0 = Some x /\
    want x = Some 2048%Z /\ stack x = 1024%Z.
Proof. eexists _, _. split; [vm_compute; reflexivity|]. by split_and!. Qed.

(** A [get] on an empty pool wraps the counter for a moment; a [put] then finds the
    counter above every capacity and frees its coroutine although the pool is empty. *)
Lemma put_discarded_beside_get :
  exists s, run Demo.step (Spawn 0 None :: repeat (Act 0) 7 ++ Spawn 1 None :: repeat (Act 1) 3 ++
      Finish 0 0 5 :: repeat (Act 0) 5) Demo.start = Some s /\
    pool s = [] /\ gone s = [0] /\ get_pool_capacity (cfg s) = 1%Z.
Proof. eexists. split; [vm_compute; reflexivity|]. by split_and!. Qed.

(** [set_stack_size(0)] does not restore the default, unlike the other setters. *)
Lemma zero_stack_size num g :
  get_stack_size (set_stack_size 0 g) = 0%Z /\ get_pool_capacity (set_pool_capacity 0 g) = DEFAULT_POOL_CAPACITY /\
  (get_workers num (set_workers 0 g)).1 = num.
Proof. done. Qed.

Lemma pool_bounded_witness :
  exists s, (len s <= maxcap s + 2)%Z /\ size s = len s /\ pool s = [0] /\ live s = [1].
Proof.
  exists Demo.mid. split; [|split; [|split; vm_compute; reflexivity]].
  - apply (pool_bounded Demo.pages Demo.cfg0 2 Demo.mid); [by vm_compute|apply mid_reachable|by vm_compute].
  - apply (pool_bounded Demo.pages Demo.cfg0 2 Demo.mid); [by vm_compute|apply mid_reachable|by vm_compute|].
    intros [|[|t]] p Hp; vm_compute in Hp; by simplify_eq.
Defined.

Lemma coroutine_recycled_once_witness :
  live Demo.mid = [1] /\ exists x l, cos Demo.mid !! 1 = Some x /\ local x = Some l /\ locals Demo.mid !! l = Some true.
Proof.
  split; [vm_compute; reflexivity|].
  apply (coroutine_recycled_once Demo.pages Demo.cfg0 2 Demo.mid mid_reachable). vm_compute. left.
Defined.

Lemma spawn_stack_enough_witness :
  exists x, cos Demo.mid !! 1 = Some x /\ want x = Some 1000%Z /\ (1000 <= stack x)%Z.
Proof.
  eexists. split; [vm_compute; reflexivity|]. split; [reflexivity|].
  apply (spawn_stack_enough Demo.pages pages_ge Demo.cfg0 2 Demo.mid 1 _ _ mid_reachable); vm_compute; reflexivity.
Defined.

End Lc.
