(* ===== verification/Local.v ===== *)
(** * Local: coroutine-local storage

    [src/local.rs]: [LocalKey::with] over the map of the running coroutine, or over
    the thread's [LOCALMAP] outside coroutines, and the destruction of a coroutine's
    map when the coroutine is done ([Done::drop_coroutine] of
    [src/coroutine_impl.rs]).  The programs of coroutines and threads are trees of
    accesses; their steps interleave, and a coroutine moves between workers.  The
    map holds values of any type behind a tag ([Box<dyn Any>]); the theorems show
    that the downcast of [with] never fails, that a key is initialised once per
    coroutine, and that storage behaves like a memo table of its own coroutine. *)

From stdpp Require Import base numbers list gmap.
From Stdlib Require Import ZArith Lia.
From S2P Require Import Prelude.

Module Lk.

(** Why a program panicked: by itself, because the map was borrowed
    ([BorrowMutError]), or in the [expect] of the downcast. *)
Inductive panic := PUser | PBorrow | PMismatch.

Section local.
(** [ty]: the types of values, [den] their values; [id]: [TypeId]; a key is a
    [LocalKey<T>] with [T] its [key_ty] and its field [__key]. *)
Context {ty : Type} `{!EqDecision ty} (den : ty -> Type).
Context {id : Type} `{!EqDecision id, !Countable id}.
Context {key : Type} (key_ty : key -> ty) (__key : key -> id).

(** A program as a tree of its accesses: it returns, panics, suspends its coroutine,
    or calls [with] on a key.  The closure and what follows it are one function of
    the value the closure sees; the borrow has ended before either runs. *)
Inductive prog (R : Type) : Type :=
  | Ret (r : R)
  | Panics
  | Yields (p : prog R)
  | With (k : key) (f : den (key_ty k) -> prog R).
Arguments Ret {R} r.
Arguments Panics {R}.
Arguments Yields {R} p.
Arguments With {R} k f.

(** The field [__init] of every key. *)
Context (__init : forall k, prog (den (key_ty k))).

(** [Box<dyn Any>] and [downcast_ref]. *)
Record any := Box { type_id : ty; value : den type_id }.
Definition downcast_ref (t : ty) (a : any) : option (den t) :=
  match decide (type_id a = t) with
  | left e => Some (eq_rect (type_id a) den (value a) t e)
  | right _ => None
  end.

Abbreviation LocalMap := (gmap id any).

(** Where a program is; [Init]: inside [or_insert_with], with the map borrowed. *)
Inductive frame :=
  | Running (p : prog unit)
  | Init (k : key) (p : prog (den (key_ty k))) (f : den (key_ty k) -> prog unit)
  | Completed
  | Panicked (w : panic).

(** The end of the block of [with]: downcast, release the borrow, call the closure. *)
Definition closure (k : key) (f : den (key_ty k) -> prog unit) (entry : any) : frame :=
  match downcast_ref (key_ty k) entry with
  | Some v => Running (f v)
  | None => Panicked PMismatch
  end.

(** One access of a program on map [data]. *)
Definition step_with (fr : frame) (data : LocalMap) : option (frame * LocalMap) :=
  match fr with
  | Running (Ret _) => Some (Completed, data)
  | Running Panics => Some (Panicked PUser, data)
  | Running (Yields p) => Some (Running p, data)
  | Running (With k f) =>
      match data !! __key k with
      | Some entry => Some (closure k f entry, data)
      | None => Some (Init k (__init k) f, data)
      end
  | Init k (Ret v) f => let entry := Box _ v in Some (closure k f entry, <[__key k := entry]> data)
  | Init _ Panics _ => Some (Panicked PUser, data)
  | Init k (Yields p) f => Some (Init k p f, data)
  | Init _ (With _ _) _ => Some (Panicked PBorrow, data)
  | Completed | Panicked _ => None
  end.

(** The entry a step creates. *)
Definition inserts (fr : frame) : list id :=
  match fr with Init k (Ret _) _ => [__key k] | _ => [] end.

(** ** Coroutines and threads *)

(** [data]: the [local_data] of a [CoroutineLocal] ([None] once destroyed) or the
    [LOCALMAP] of a thread.  History: [code], the program it was spawned with, and
    [steps], the accesses it did. *)
Record ctx := Ctx { fr : frame; data : option LocalMap; code : prog unit; steps : nat }.

Inductive owner := OCo (c : nat) | OThread (t : nat).
#[global] Instance owner_eq_dec : EqDecision owner.
Proof. solve_decision. Defined.

(** [created], [dropped] (history): the entries made and destroyed, in order. *)
Record state := ST {
  cos : list ctx; threads : list ctx; created : list (owner * id); dropped : list (owner * id)
}.

(** [CoroutineLocal::new]. *)
Definition new (p : prog unit) : ctx := Ctx (Running p) (Some ∅) p 0.
Definition init (ps : list (prog unit)) : state := ST [] (map new ps) [] [].

(** [get_co_local_data]: what runs on thread [t] is coroutine [co], if any. *)
Definition current (co : option nat) (t : nat) : owner :=
  match co with Some c => OCo c | None => OThread t end.

(** The free function [with]: whose map is used. *)
Definition get (s : state) (o : owner) : option ctx :=
  match o with OCo c => cos s !! c | OThread t => threads s !! t end.
Definition put (o : owner) (x : ctx) (s : state) : state :=
  match o with
  | OCo c => ST (<[c:=x]> (cos s)) (threads s) (created s) (dropped s)
  | OThread t => ST (cos s) (<[t:=x]> (threads s)) (created s) (dropped s)
  end.
Definition log_created (o : owner) (l : list id) (s : state) : state :=
  ST (cos s) (threads s) (created s ++ map (o,.) l) (dropped s).

Inductive event :=
  | Spawn (p : prog unit)
  | Step (co : option nat) (t : nat)   (* thread [t] advances [co], or its own program *)
  | Drop (c : nat).                    (* [Done::drop_coroutine] *)

Definition finished (f : frame) : bool :=
  match f with Completed | Panicked _ => true | _ => false end.

Definition step (s : state) (e : event) : option state :=
  match e with
  | Spawn p => Some (ST (cos s ++ [new p]) (threads s) (created s) (dropped s))
  | Step co t =>
      if decide (t < length (threads s)) then
        let o := current co t in
        match get s o with
        | Some (Ctx f (Some m) p n) =>
            match step_with f m with
            | Some (f', m') => Some (log_created o (inserts f) (put o (Ctx f' (Some m') p (S n)) s))
            | None => None
            end
        | _ => None
        end
      else None
  | Drop c =>
      match cos s !! c with
      | Some (Ctx f (Some m) p n) =>
          if finished f then
            Some (ST (<[c:=Ctx f None p n]> (cos s)) (threads s) (created s)
                     (dropped s ++ map (OCo c,.) (map_to_list m).*1))
          else None
      | _ => None
      end
  end.

(** ** The reference: a program with a memo table *)

(** An initialiser has no storage: any access of it is refused. *)
Fixpoint exec_init {R} (p : prog R) : R + panic :=
  match p with
  | Ret r => inl r
  | Panics => inr PUser
  | Yields p => exec_init p
  | With _ _ => inr PBorrow
  end.

Fixpoint exec (p : prog unit) (m : LocalMap) : option panic * LocalMap :=
  match p with
  | Ret _ => (None, m)
  | Panics => (Some PUser, m)
  | Yields p => exec p m
  | With k f =>
      match m !! __key k with
      | Some a => match downcast_ref (key_ty k) a with Some v => exec (f v) m | None => (Some PMismatch, m) end
      | None =>
          match exec_init (__init k) with
          | inl v => exec (f v) (<[__key k := Box _ v]> m)
          | inr w => (Some w, m)
          end
      end
  end.

(** The number of steps of a program. *)
Fixpoint cost_init {R} (p : prog R) : nat :=
  match p with Yields p => S (cost_init p) | _ => 1 end.
Fixpoint cost (p : prog unit) (m : LocalMap) : nat :=
  match p with
  | Ret _ | Panics => 1
  | Yields p => S (cost p m)
  | With k f =>
      match m !! __key k with
      | Some a => match downcast_ref (key_ty k) a with Some v => S (cost (f v) m) | None => 1 end
      | None =>
          S (cost_init (__init k) +
             match exec_init (__init k) with
             | inl v => cost (f v) (<[__key k := Box _ v]> m)
             | inr _ => 0
             end)
      end
  end.

(** ** Invariants of every context *)

Lemma downcast_same t (v : den t) : downcast_ref t (Box t v) = Some v.
Proof.
  unfold downcast_ref. simpl. destruct (decide (t = t)) as [e|]; [|done].
  f_equal. rewrite <- Eqdep_dec.eq_rect_eq_dec; [done|]. intros x y. apply EqDecision0.
Qed.

Lemma closure_same k f v : closure k f (Box (key_ty k) v) = Running (f v).
Proof. unfold closure. by rewrite downcast_same. Qed.

Lemma get_put s o x o' : get (put o x s) o' = (if decide (o = o') then match get s o with Some _ => Some x | None => None end else get s o').
Proof.
  assert (Hl : forall (l : list ctx) i, <[i:=x]> l !! i = match l !! i with Some _ => Some x | None => None end).
  { intros l i. destruct (l !! i) eqn:Hi; [apply list_lookup_insert_eq; by eapply lookup_lt_Some|].
    apply lookup_ge_None. rewrite length_insert. by apply lookup_ge_None. }
  destruct o as [c|t], o' as [c'|t']; simpl; try done;
    (case_decide; [by simplify_eq|by rewrite list_lookup_insert_ne by congruence]).
Qed.

Definition all_ctx (P : ctx -> Prop) (s : state) : Prop := forall o x, get s o = Some x -> P x.

(** An invariant of single contexts holds of all if spawning, accesses and
    destruction keep it. *)
Lemma all_ctx_reachable (P : ctx -> Prop) ps s :
  (forall p, P (new p)) ->
  (forall f m p n f' m', P (Ctx f (Some m) p n) -> step_with f m = Some (f', m') -> P (Ctx f' (Some m') p (S n))) ->
  (forall f m p n, P (Ctx f (Some m) p n) -> finished f = true -> P (Ctx f None p n)) ->
  reachable step (init ps) s -> all_ctx P s.
Proof.
  intros Hnew Hstep Hdrop. apply reachable_ind_inv.
  - intros [c|t] x H; simpl in H; [done|]. rewrite list_lookup_fmap in H.
    apply fmap_Some in H as (p & _ & ->). apply Hnew.
  - clear s. intros s e s' IH Hs. destruct e as [p|co t|c]; simpl in Hs.
    + injection Hs as <-. intros [c|t] x H; simpl in H; [|by apply (IH (OThread t))].
      apply lookup_app_Some in H as [H|[_ H]]; [by apply (IH (OCo c))|].
      apply list_lookup_singleton_Some in H as [_ <-]. apply Hnew.
    + case_decide; [|done]. destruct (get s (current co t)) as [[f [m|] p n]|] eqn:Hg; try done.
      destruct (step_with f m) as [[f' m']|] eqn:Hw; [|done]. injection Hs as <-. intros o x Hx.
      change (get (put (current co t) (Ctx f' (Some m') p (S n)) s) o = Some x) in Hx.
      rewrite get_put, Hg in Hx. case_decide; [|by apply (IH o)]. injection Hx as <-.
      eapply Hstep; [|done]. by apply (IH (current co t)).
    + destruct (cos s !! c) as [[f [m|] p n]|] eqn:Hc; try done. destruct (finished f) eqn:Hf; [|done].
      injection Hs as <-. intros o x Hx.
      change (get (put (OCo c) (Ctx f None p n) s) o = Some x) in Hx. rewrite get_put in Hx.
      case_decide; [|by apply (IH o)]. change (get s (OCo c)) with (cos s !! c) in Hx. rewrite Hc in Hx.
      injection Hx as <-. eapply Hdrop; [|done]. by apply (IH (OCo c)).
Qed.

(** *** Types *)

Definition typed (m : LocalMap) : Prop := forall k a, m !! __key k = Some a -> type_id a = key_ty k.
Definition well_typed (x : ctx) : Prop :=
  fr x <> Panicked PMismatch /\ forall m, data x = Some m -> typed m.

Lemma downcast_typed t a : type_id a = t -> exists v, downcast_ref t a = Some v.
Proof. intros <-. destruct a as [t v]. exists v. apply downcast_same. Qed.

Lemma closure_typed k f a : type_id a = key_ty k -> closure k f a <> Panicked PMismatch.
Proof. intros H. unfold closure. by destruct (downcast_typed _ _ H) as [v ->]. Qed.

Lemma step_with_typed f m f' m' :
  (forall k k', __key k = __key k' -> key_ty k = key_ty k') ->
  typed m -> f <> Panicked PMismatch -> step_with f m = Some (f', m') -> typed m' /\ f' <> Panicked PMismatch.
Proof.
  intros Hkeys Hm Hf Hs. destruct f as [[]|k [] g| |w]; simpl in Hs; simplify_eq; try done.
  - destruct (m !! __key k) as [a|] eqn:Ha; simplify_eq; [|done].
    split; [done|]. apply closure_typed. by apply Hm.
  - split; [|by apply closure_typed]. intros k' a Ha.
    apply lookup_insert_Some in Ha as [[He <-]|[_ Ha]]; [by apply Hkeys|by apply Hm].
Qed.

(** *** The reference *)

Definition predict (f : frame) (m : LocalMap) : option panic * LocalMap :=
  match f with
  | Running p => exec p m
  | Init k p g =>
      match exec_init p with inl v => exec (g v) (<[__key k := Box _ v]> m) | inr w => (Some w, m) end
  | Completed => (None, m)
  | Panicked w => (Some w, m)
  end.
Definition todo (f : frame) (m : LocalMap) : nat :=
  match f with
  | Running p => cost p m
  | Init k p g =>
      cost_init p + match exec_init p with inl v => cost (g v) (<[__key k := Box _ v]> m) | inr _ => 0 end
  | Completed | Panicked _ => 0
  end.

Lemma step_with_predict f m f' m' :
  step_with f m = Some (f', m') -> predict f' m' = predict f m /\ todo f m = S (todo f' m').
Proof.
  intros Hs. destruct f as [[]|k [] g| |w]; simpl in Hs; simplify_eq/=; try done.
  - destruct (m !! __key k) as [a|]; simplify_eq/=; [|done]. unfold closure.
    by destruct (downcast_ref (key_ty k) a).
  - by rewrite closure_same.
Qed.

(** The outcome of a finished program. *)
Definition outcome (f : frame) : option panic :=
  match f with Panicked w => Some w | _ => None end.

Definition runs_exec (x : ctx) : Prop :=
  match data x with
  | Some m => predict (fr x) m = exec (code x) ∅ /\ steps x + todo (fr x) m = cost (code x) ∅
  | None => finished (fr x) = true /\ outcome (fr x) = (exec (code x) ∅).1 /\ steps x = cost (code x) ∅
  end.

Lemma finished_predict f m : finished f = true -> predict f m = (outcome f, m) /\ todo f m = 0.
Proof. by destruct f. Qed.

Lemma todo_pos f m : finished f = false -> exists f' m', step_with f m = Some (f', m').
Proof. destruct f as [[]|k [] g| |w]; intros H; try done; simpl; eauto. destruct (m !! __key k); eauto. Qed.

Lemma runs_exec_reachable ps s : reachable step (init ps) s -> all_ctx runs_exec s.
Proof.
  apply all_ctx_reachable.
  - intros p. by split.
  - intros f m p n f' m' [H1 H2] Hs. unfold runs_exec in *. simpl in *.
    destruct (step_with_predict _ _ _ _ Hs) as [-> H]. split; [done|lia].
  - intros f m p n [H1 H2] Hf. unfold runs_exec in *. simpl in *.
    destruct (finished_predict f m Hf) as [H3 H4]. rewrite H3 in H1. rewrite <- H1. split_and!; [done..|lia].
Qed.

(** *** Entries *)

(** The initialiser runs because the key had no entry. *)
Definition vacant (x : ctx) : Prop :=
  match fr x, data x with Init k _ _, Some m => m !! __key k = None | _, _ => True end.

Lemma vacant_reachable ps s : reachable step (init ps) s -> all_ctx vacant s.
Proof.
  apply all_ctx_reachable; unfold vacant; simpl.
  - done.
  - intros f m p n f' m' IH Hs. destruct f as [[]|k' [] g'| |w]; simpl in Hs; simplify_eq/=; try done.
    + destruct (m !! __key k) as [a|] eqn:Ha; simplify_eq; [|done].
      unfold closure. by destruct (downcast_ref (key_ty k) a).
    + by rewrite closure_same.
  - intros f m p n _ _. by destruct f.
Qed.

(** The entries of a context: those of its map. *)
Definition entry (s : state) (o : owner) (i : id) : Prop :=
  exists x m a, get s o = Some x /\ data x = Some m /\ m !! i = Some a.

(** A step of a program changes its map only by the entry it inserts. *)
Lemma step_with_map f m f' m' :
  step_with f m = Some (f', m') ->
  (inserts f = [] /\ m' = m) \/ exists k v g, f = Init k (Ret v) g /\ m' = <[__key k := Box _ v]> m.
Proof.
  intros Hs. destruct f as [[]|k [] g| |w]; simpl in *; simplify_eq; try (by left).
  - left. by destruct (m !! __key k); simplify_eq.
  - right. eauto.
Qed.

Record entries_ok (s : state) : Prop := {
  eo_created : NoDup (created s);
  eo_dropped : NoDup (dropped s);
  eo_iff o i : (o, i) ∈ created s <-> entry s o i \/ (o, i) ∈ dropped s;
  eo_gone o i : (o, i) ∈ dropped s -> exists x, get s o = Some x /\ data x = None
}.

Lemma elem_of_owner (o : owner) (l : list id) o' i : (o', i) ∈ map (o,.) l <-> o' = o /\ i ∈ l.
Proof. rewrite list_elem_of_fmap. naive_solver. Qed.

Lemma entry_put s o x x' o' i :
  get s o = Some x ->
  entry (put o x' s) o' i <->
  (o' = o /\ exists m a, data x' = Some m /\ m !! i = Some a) \/ (o' <> o /\ entry s o' i).
Proof.
  intros Hx. unfold entry. rewrite get_put, Hx. destruct (decide (o = o')) as [<-|]; naive_solver.
Qed.

Lemma entries_ok_spawn s p : entries_ok s -> entries_ok (ST (cos s ++ [new p]) (threads s) (created s) (dropped s)).
Proof.
  intros [H1 H2 H3 H4]. set (s' := ST _ _ _ _).
  assert (Hold : forall o x, get s o = Some x -> get s' o = Some x).
  { intros [c|t] x H; [|done]. simpl. by apply lookup_app_l_Some. }
  assert (Hent : forall o i, entry s' o i <-> entry s o i).
  { intros o i. split; intros (x & m & a & Hg & Hd & Hm); [|by exists x, m, a; eauto].
    destruct o as [c|t]; [|by exists x, m, a]. simpl in Hg.
    apply lookup_app_Some in Hg as [Hg|[_ Hg]]; [by exists x, m, a|].
    apply list_lookup_singleton_Some in Hg as [_ <-]. simpl in Hd. simplify_eq. }
  split; simpl; [done..| |].
  - intros o i. by rewrite Hent.
  - intros o i Hi. destruct (H4 o i Hi) as (x & ? & ?). exists x. auto.
Qed.

Lemma entries_ok_access s o f m p n f' m' :
  entries_ok s -> get s o = Some (Ctx f (Some m) p n) -> vacant (Ctx f (Some m) p n) ->
  step_with f m = Some (f', m') ->
  entries_ok (log_created o (inserts f) (put o (Ctx f' (Some m') p (S n)) s)).
Proof.
  intros [H1 H2 H3 H4] Hg Hv Hs. set (s1 := put _ _ _).
  assert (Hcd : created s1 = created s /\ dropped s1 = dropped s) by (by destruct o).
  destruct Hcd as [Hc Hd].
  assert (Hent : forall o' i, entry s1 o' i <-> entry s o' i \/ (o' = o /\ i ∈ inserts f)).
  { intros o' i. unfold s1. rewrite (entry_put _ _ _ _ _ _ Hg). simpl. unfold entry.
    destruct (step_with_map _ _ _ _ Hs) as [[-> ->]|(k & v & g & -> & ->)]; simpl.
    - rewrite elem_of_nil. destruct (decide (o' = o)) as [->|]; [rewrite Hg|]; naive_solver.
    - rewrite list_elem_of_singleton. destruct (decide (o' = o)) as [->|]; [|naive_solver].
      rewrite Hg. destruct (decide (i = __key k)) as [->|].
      + split; [by right|]. intros _. left. split; [done|]. eexists _, _. split; [done|]. apply lookup_insert_eq.
      + split.
        * intros [(_ & m1 & a & [= <-] & Ha)|[? _]]; [|done]. rewrite lookup_insert_ne in Ha by done. eauto 8.
        * intros [(x & m1 & a & [= <-] & [= <-] & Ha)|[_ ?]]; [|done]. left. split; [done|]. exists (<[__key k:=Box (key_ty k) v]> m), a.
          split; [done|]. by rewrite lookup_insert_ne. }
  assert (Hno : forall i, i ∈ inserts f -> (o, i) ∉ created s).
  { intros i Hi [(x & m1 & a & Hx & Hm & Ha)|Hi2]%H3.
    - rewrite Hg in Hx. destruct f as [|k [] g| |]; simpl in *; try (by apply not_elem_of_nil in Hi).
      apply list_elem_of_singleton in Hi as ->. simplify_eq/=. unfold vacant in Hv. simpl in Hv. congruence.
    - destruct (H4 _ _ Hi2) as (x & Hx & ?). rewrite Hg in Hx. by simplify_eq. }
  split; simpl; rewrite ?Hc, ?Hd; [| done | |].
  - apply NoDup_app. split_and!; [done| |].
    + intros [o' i] Hin Hm. apply elem_of_owner in Hm as [-> Hi]. by apply (Hno i).
    + apply NoDup_fmap; [by intros ? ? [=]|].
      destruct f as [|k [] g| |]; try apply NoDup_nil_2. apply NoDup_singleton.
  - intros o' i. rewrite elem_of_app, elem_of_owner, H3.
    change (entry (log_created o (inserts f) s1) o' i) with (entry s1 o' i). rewrite Hent. tauto.
  - intros o' i Hi. destruct (H4 o' i Hi) as (x & Hx & Hdx). exists x. split; [|done].
    change (get s1 o' = Some x). unfold s1. rewrite get_put. case_decide; [subst; rewrite Hg in Hx; by simplify_eq|done].
Qed.

Lemma entries_ok_drop s c f m p n :
  entries_ok s -> cos s !! c = Some (Ctx f (Some m) p n) ->
  entries_ok (ST (<[c:=Ctx f None p n]> (cos s)) (threads s) (created s)
                 (dropped s ++ map (OCo c,.) (map_to_list m).*1)).
Proof.
  intros [H1 H2 H3 H4] Hg. set (s' := ST _ _ _ _).
  assert (Hget : forall o, get s' o = get (put (OCo c) (Ctx f None p n) s) o) by done.
  assert (Hkeys : forall i, i ∈ (map_to_list m).*1 <-> entry s (OCo c) i).
  { intros i. rewrite list_elem_of_fmap. unfold entry. simpl. rewrite Hg. split.
    - intros ([j a] & -> & Ha%elem_of_map_to_list). naive_solver.
    - intros (x & m1 & a & ? & ? & Ha). simplify_eq/=. exists (i, a). split; [done|]. by apply elem_of_map_to_list. }
  split; simpl; [done| | |].
  - apply NoDup_app. split_and!; [done| |].
    + intros [o' i] Hin Hm. apply elem_of_owner in Hm as [-> Hi]. destruct (H4 _ _ Hin) as (x & Hx & ?).
      simpl in Hx. simplify_eq/=.
    + apply NoDup_fmap; [by intros ? ? [=]|]. apply NoDup_fst_map_to_list.
  - intros o i. rewrite H3, elem_of_app, elem_of_owner.
    change (entry s' o i) with (entry (put (OCo c) (Ctx f None p n) s) o i).
    rewrite (entry_put s (OCo c) _ _ o i Hg). simpl.
    destruct (decide (o = OCo c)) as [->|]; [rewrite Hkeys|]; naive_solver.
  - intros o i [Hi|Hi]%elem_of_app.
    + destruct (H4 o i Hi) as (x & Hx & Hdx). rewrite Hget, get_put. simpl. rewrite Hg.
      case_decide; [by eexists|by exists x].
    + apply elem_of_owner in Hi as [-> _]. rewrite Hget, get_put. simpl. rewrite Hg, decide_True by done. by eexists.
Qed.

Lemma entries_ok_reachable ps s : reachable step (init ps) s -> entries_ok s.
Proof.
  induction 1 as [|s e s' Hr IH Hs].
  - split; simpl; [constructor..| |]; intros o i; [|by intros ?%elem_of_nil]. split; [by intros ?%elem_of_nil|].
    intros [(x & m & a & Hx & Hm & Ha)|?%elem_of_nil]; [|done]. destruct o as [c|t]; simpl in Hx; [done|].
    rewrite list_lookup_fmap in Hx. apply fmap_Some in Hx as (p & _ & ->). simpl in Hm. by simplify_eq.
  - destruct e as [p|co t|c]; simpl in Hs.
    + injection Hs as <-. by apply entries_ok_spawn.
    + case_decide; [|done]. destruct (get s (current co t)) as [[f [m|] p n]|] eqn:Hg; try done.
      destruct (step_with f m) as [[f' m']|] eqn:Hw; [|done]. injection Hs as <-.
      eapply entries_ok_access; [done..| |done]. by eapply (vacant_reachable _ _ Hr).
    + destruct (cos s !! c) as [[f [m|] p n]|] eqn:Hc; try done. destruct (finished f); [|done].
      injection Hs as <-. by apply entries_ok_drop.
Qed.

(** What a context had, it still has until its map is destroyed. *)
Lemma entry_step s e s' o x m i a :
  all_ctx vacant s -> step s e = Some s' ->
  get s o = Some x -> data x = Some m -> m !! i = Some a ->
  exists x', get s' o = Some x' /\
    (data x' = None \/ exists m', data x' = Some m' /\ m' !! i = Some a).
Proof.
  intros Hv Hs Hx Hd Hm. destruct e as [p|co t|c]; simpl in Hs.
  - injection Hs as <-. exists x. split; [|by eauto]. destruct o as [c|t]; [|done]. simpl. by apply lookup_app_l_Some.
  - case_decide; [|done]. destruct (get s (current co t)) as [[f [m0|] p n]|] eqn:Hg; try done.
    destruct (step_with f m0) as [[f' m']|] eqn:Hw; [|done]. injection Hs as <-.
    change (get (log_created ?o1 ?l ?s1) o) with (get s1 o). rewrite get_put, Hg.
    case_decide as Ho; [|by exists x; eauto]. subst o. rewrite Hg in Hx. simplify_eq/=.
    eexists. split; [done|]. right. exists m'. split; [done|].
    destruct (step_with_map _ _ _ _ Hw) as [[_ ->]|(k & v & g & -> & ->)]; [done|].
    pose proof (Hv _ _ Hg) as Hk. unfold vacant in Hk. simpl in Hk. rewrite lookup_insert_ne; congruence.
  - destruct (cos s !! c) as [[f [m0|] p n]|] eqn:Hc; try done. destruct (finished f); [|done].
    injection Hs as <-. change (get (ST _ _ _ _) o) with (get (put (OCo c) (Ctx f None p n) s) o).
    rewrite get_put. simpl. rewrite Hc. case_decide as Ho; [|by exists x; eauto]. subst o. simpl in Hx.
    eexists. split; [done|]. by left.
Qed.

(** A map that is gone stays gone. *)
Lemma gone_step s e s' o x :
  step s e = Some s' -> get s o = Some x -> data x = None -> exists x', get s' o = Some x' /\ data x' = None.
Proof.
  intros Hs Hx Hd. destruct e as [p|co t|c]; simpl in Hs.
  - injection Hs as <-. exists x. split; [|done]. destruct o as [c|t]; [|done]. simpl. by apply lookup_app_l_Some.
  - case_decide; [|done]. destruct (get s (current co t)) as [[f [m0|] p n]|] eqn:Hg; try done.
    destruct (step_with f m0) as [[f' m']|]; [|done]. injection Hs as <-.
    change (get (log_created ?o1 ?l ?s1) o) with (get s1 o). rewrite get_put, Hg.
    case_decide as Ho; [|by exists x]. subst o. rewrite Hg in Hx. by simplify_eq/=.
  - destruct (cos s !! c) as [[f [m0|] p n]|] eqn:Hc; try done. destruct (finished f); [|done].
    injection Hs as <-. change (get (ST _ _ _ _) o) with (get (put (OCo c) (Ctx f None p n) s) o).
    rewrite get_put. simpl. rewrite Hc. case_decide as Ho; [|by exists x]. subst o. simpl in Hx. by simplify_eq/=.
Qed.

Lemma entry_stable ps s es s' o x m i a :
  reachable step (init ps) s -> run step es s = Some s' ->
  get s o = Some x -> data x = Some m -> m !! i = Some a ->
  exists x', get s' o = Some x' /\
    (data x' = None \/ exists m', data x' = Some m' /\ m' !! i = Some a).
Proof.
  intros Hr Hs Hx Hd Hm.
  assert (H : exists x', get s o = Some x' /\
    (data x' = None \/ exists m', data x' = Some m' /\ m' !! i = Some a)) by (exists x; eauto).
  clear x m Hx Hd Hm. revert s Hr Hs H. induction es as [|e es IH]; intros s Hr Hs (x & Hx & H); simplify_eq/=; [by eauto|].
  destruct (step s e) as [s1|] eqn:He; [|done]. apply (IH s1); [by eapply reach_step|done|].
  destruct H as [Hd|(m & Hd & Hm)].
  - destruct (gone_step _ _ _ _ _ He Hx Hd) as (x' & ? & ?). eauto.
  - eapply entry_step; [by eapply vacant_reachable|done..].
Qed.

(** ** The theorems *)

(** C29. When keys with the same identifier have the same type (which the macro
    [coroutine_local!] provides, by a type of its own for every key), the [expect]
    of [with] never panics, in no coroutine and no thread and whatever they
    interleave, and every value stored under a key downcasts to the key's type. *)
Theorem local_type_safe ps s :
  (forall k k', __key k = __key k' -> key_ty k = key_ty k') ->
  reachable step (init ps) s ->
  forall o x, get s o = Some x ->
    fr x <> Panicked PMismatch /\
    forall m k a, data x = Some m -> m !! __key k = Some a -> exists v, downcast_ref (key_ty k) a = Some v.
Proof.
  intros Hkeys Hr o x Hx.
  assert (Hwt : all_ctx well_typed s).
  { eapply all_ctx_reachable; [| | |done].
    - intros p. split; [done|]. intros m [= <-] k a Ha. by rewrite lookup_empty in Ha.
    - intros f m p n f' m' [Hf Hm] Hs. simpl in *. destruct (step_with_typed _ _ _ _ Hkeys (Hm m eq_refl) Hf Hs).
      split; [done|]. by intros ? [= <-].
    - intros f m p n [Hf _] _. by split. }
  destruct (Hwt o x Hx) as [Hf Hm]. split; [done|]. intros m k a Hd Ha. eapply downcast_typed, Hm; done.
Qed.

(** In every reachable state each coroutine has made at most one entry per key
    and destroyed at most one, the entries it made are the ones in its map and the
    destroyed ones, and only a finished coroutine's are destroyed.  What is stored
    under a key stays as it is, at every later state, until then: the pointer that
    [with] hands to its closure stays valid. *)
Theorem local_init_once ps s :
  reachable step (init ps) s ->
  NoDup (created s) /\ NoDup (dropped s) /\
  (forall o i, (o, i) ∈ created s <-> entry s o i \/ (o, i) ∈ dropped s) /\
  (forall o i, (o, i) ∈ dropped s -> exists x, get s o = Some x /\ data x = None /\ finished (fr x) = true) /\
  (forall es s' o x m i a,
     run step es s = Some s' -> get s o = Some x -> data x = Some m -> m !! i = Some a ->
     exists x', get s' o = Some x' /\
       (data x' = None /\ finished (fr x') = true \/ exists m', data x' = Some m' /\ m' !! i = Some a)).
Proof.
  intros Hr. destruct (entries_ok_reachable _ _ Hr) as [H1 H2 H3 H4].
  assert (Hfin : forall s1 o x, reachable step (init ps) s1 -> get s1 o = Some x -> data x = None -> finished (fr x) = true).
  { intros s1 o x Hr1 Hx Hd. pose proof (runs_exec_reachable _ _ Hr1 o x Hx) as H. unfold runs_exec in H.
    rewrite Hd in H. tauto. }
  split_and!; [done..| |].
  - intros o i Hi. destruct (H4 o i Hi) as (x & Hx & Hd). exists x. eauto.
  - intros es s' o x m i a Hs Hx Hd Hm.
    destruct (entry_stable _ _ _ _ _ _ _ _ _ Hr Hs Hx Hd Hm) as (x' & Hx' & [Hd'|?]); exists x'; split; eauto.
    left. split; [done|]. eapply Hfin; [|done..]. by eapply run_reachable_from.
Qed.

(** C30. However the steps of coroutines and threads interleave and whichever worker
    runs them, a coroutine computes what the reference [exec] computes for its
    program from an empty memo table: its outcome and, until it is destroyed, its
    map.  It takes exactly [cost] steps, and before the last one it has a next one. *)
Theorem local_exec_equiv ps s o x :
  reachable step (init ps) s -> get s o = Some x ->
  (finished (fr x) = true ->
     outcome (fr x) = (exec (code x) ∅).1 /\ (forall m, data x = Some m -> m = (exec (code x) ∅).2) /\
     steps x = cost (code x) ∅) /\
  (finished (fr x) = false ->
     steps x < cost (code x) ∅ /\ exists m, data x = Some m /\ is_Some (step_with (fr x) m)).
Proof.
  intros Hr Hx. pose proof (runs_exec_reachable _ _ Hr o x Hx) as H. unfold runs_exec in H.
  destruct (data x) as [m|] eqn:Hd; [|destruct H as (H1 & H2 & H3); rewrite H1; split; [intros _; by split_and!|done]].
  destruct H as [H1 H2]. split; intros Hf.
  - destruct (finished_predict _ m Hf) as [H3 H4]. rewrite H3 in H1. rewrite <- H1. simpl. split_and!; [done| |lia].
    by intros ? [= <-].
  - destruct (todo_pos _ m Hf) as (f' & m' & Hs). destruct (step_with_predict _ _ _ _ Hs) as [_ Ht].
    split; [lia|]. exists m. split; [done|]. by eexists.
Qed.

(** An initialiser that uses any key, another one or its own, panics with
    [BorrowMutError]: the entry closure runs while the map is borrowed. *)
Lemma local_nested_init_panics k k' g f m :
  __init k = With k' g -> m !! __key k = None -> exec (With k f) m = (Some PBorrow, m).
Proof. intros Hi Hm. simpl. by rewrite Hm, Hi. Qed.

End local.

#[global] Arguments Ret {ty den key key_ty R} r.
#[global] Arguments Panics {ty den key key_ty R}.
#[global] Arguments Yields {ty den key key_ty R} p.
#[global] Arguments With {ty den key key_ty R} k f.
#[global] Arguments Spawn {ty den key key_ty} p.
#[global] Arguments Step {ty den key key_ty} co t.
#[global] Arguments Drop {ty den key key_ty} c.

(** ** Concrete keys: [0] holds a number, [1] a boolean, and the initialiser of the
    others reads key [0]. *)
Module Demo.
Definition den (b : bool) : Type := if b then nat else bool.
Definition key_ty (k : nat) : bool := match k with 1 => false | _ => true end.
Definition init_of (k : nat) : prog den key_ty (den (key_ty k)) :=
  match k with
  | 0 => Ret (3 : den (key_ty 0))
  | 1 => Yields (Ret (true : den (key_ty 1)))
  | S (S k) => With 0 (fun n : den (key_ty 0) => Ret (n : den (key_ty (S (S k)))))
  end.
(** Reads a boolean and a number, the number again, and returns. *)
Definition reader : prog den key_ty unit :=
  With 1 (fun _ => With 0 (fun _ => Yields (With 0 (fun _ => Ret tt)))).
Definition nested : prog den key_ty unit := With 2 (fun _ => Ret tt).
Definition step := Lk.step den key_ty (fun k : nat => k) init_of.
Definition init := Lk.init (id := nat) den key_ty [reader; nested].
(** Coroutine [0] runs to its end on both threads and is destroyed; the threads' own
    programs run in between, the second one into its nested initialiser. *)
Definition events : list (event den key_ty) :=
  [Spawn reader] ++ map (fun t => Step (Some 0) t) [0; 1; 0; 1; 1; 0; 0; 1] ++
  [Step None 1; Step None 1; Drop 0; Step None 0; Step None 0].
End Demo.

Lemma demo_keys k k' : k = k' -> Demo.key_ty k = Demo.key_ty k'.
Proof. by intros ->. Qed.

Lemma demo_run : is_Some (run Demo.step Demo.events Demo.init).
Proof. vm_compute. by eexists. Qed.

(** The state of the example, reachable. *)
Definition demo_end : state Demo.den Demo.key_ty := default Demo.init (run Demo.step Demo.events Demo.init).
Lemma demo_reachable : reachable Demo.step Demo.init demo_end.
Proof. unfold demo_end. destruct demo_run as [s Hs]. rewrite Hs. simpl. by eapply run_reachable. Qed.

(** The coroutine initialised its two keys once and gave both back; the initialiser
    of thread [1] panicked. *)
Lemma demo_outcome :
  created _ _ demo_end = [(OCo 0, 1); (OCo 0, 0)] /\ length (dropped _ _ demo_end) = 2 /\
  map (fun x => outcome _ _ (fr _ _ x)) (threads _ _ demo_end) = [None; Some PBorrow].
Proof. vm_compute. done. Qed.

Lemma local_type_safe_witness :
  exists x, get _ _ demo_end (OThread 1) = Some x /\ fr _ _ x <> Panicked _ _ PMismatch.
Proof.
  eexists. split; [reflexivity|].
  eapply (local_type_safe Demo.den Demo.key_ty (fun k : nat => k) Demo.init_of [Demo.reader; Demo.nested] demo_end
    demo_keys demo_reachable (OThread 1)). reflexivity.
Defined.

Lemma local_init_once_witness :
  NoDup (created _ _ demo_end) /\ NoDup (dropped _ _ demo_end).
Proof.
  destruct (local_init_once Demo.den Demo.key_ty (fun k : nat => k) Demo.init_of [Demo.reader; Demo.nested] demo_end
    demo_reachable) as (H1 & H2 & _). split; assumption.
Defined.

Lemma local_exec_equiv_witness :
  exists x, get _ _ demo_end (OCo 0) = Some x /\ steps _ _ x = 8 /\
    outcome _ _ (fr _ _ x) = (exec Demo.den Demo.key_ty (fun k : nat => k) Demo.init_of (code _ _ x) ∅).1.
Proof.
  eexists. split; [reflexivity|]. split; [reflexivity|].
  eapply (local_exec_equiv Demo.den Demo.key_ty (fun k : nat => k) Demo.init_of [Demo.reader; Demo.nested] demo_end
    (OCo 0)); [exact demo_reachable|reflexivity|reflexivity].
Defined.

End Lk.
