(* ===== verification/Sleep.v ===== *)
(** * Sleep: [coroutine::sleep]

    [src/sleep.rs] with the part of [yield_with] ([src/yield_now.rs]) and of
    [CancelImpl] ([src/cancel.rs]) that it runs through.  Unlike [Park], every sleep
    has a slot of its own and [subscribe] has no guard: the timer can resume the
    coroutine while [subscribe] still uses its [Cancel].  The machine has one
    coroutine, which sleeps any number of times and ends, the workers that execute
    [subscribe], threads that cancel it through a handle, and the timer thread; it
    counts the references that keep the [Cancel] allocated. *)

From stdpp Require Import base numbers list.
From Stdlib Require Import ZArith Lia.
From S2P Require Import Prelude.

Module Sl.

(** The coroutine: running, given away (to a worker, a slot or to be run), back
    from [co_yield_with], ended. *)
Inductive co := CRun | CAway | CBack | CDone (panicked : bool).

(** A thread: the accesses of [Sleep::subscribe] ([Sub]), of [CancelImpl::cancel]
    ([b]: called by [subscribe]), and of the timer handler. *)
Inductive agent :=
  | AIdle
  | SubAdd
  | SubSet (k : nat)
  | SubCheck
  | CanOr (b : bool)
  | CanTake (b : bool)
  | CanCo (b : bool) (k : nat)
  | Fire (k : nat).

Inductive result := RTimedOut | RCanceled.

(** [slots]: the [sleep_co] of every sleep, full or empty; [timers]: the slots in the
    timer list; [canceled], [cslot]: [CancelImpl::state] and [co]; [ready]: the
    coroutine was scheduled, or the timer thread is about to run it; [handles]: clones of the [Coroutine] handle outside
    the coroutine; [ub]: a freed [Cancel] was used.  History: [overtaken], the
    coroutine was resumed while a [subscribe] was still running. *)
Record state := ST {
  cur : co; para : option result; slots : list bool; timers : list nat;
  canceled : bool; cslot : option nat; ready : option result;
  agents : list agent; handles : nat; ub : bool; overtaken : bool
}.

Definition init (n h : nat) : state :=
  ST CRun None [] [] false None None (replicate n AIdle) h false false.

Definition set_agent (i : nat) (a : agent) (s : state) : state :=
  ST (cur s) (para s) (slots s) (timers s) (canceled s) (cslot s) (ready s) (<[i:=a]> (agents s)) (handles s) (ub s) (overtaken s).
Definition set_cur (c : co) (p : option result) (r : option result) (o : bool) (s : state) : state :=
  ST c p (slots s) (timers s) (canceled s) (cslot s) r (agents s) (handles s) (ub s) o.
Definition set_slots (l : list bool) (t : list nat) (r : option result) (s : state) : state :=
  ST (cur s) (para s) l t (canceled s) (cslot s) r (agents s) (handles s) (ub s) (overtaken s).
Definition set_cancel (c : bool) (k : option nat) (u : bool) (s : state) : state :=
  ST (cur s) (para s) (slots s) (timers s) c k (ready s) (agents s) (handles s) u (overtaken s).
Definition set_handles (h : nat) (s : state) : state :=
  ST (cur s) (para s) (slots s) (timers s) (canceled s) (cslot s) (ready s) (agents s) h (ub s) (overtaken s).

Definition is_done (c : co) : bool := match c with CDone _ => true | _ => false end.
(** The [Inner] of the coroutine, with its [Cancel], is allocated: its local storage
    is not destroyed yet, or a handle is left. *)
Definition alive (s : state) : bool := negb (is_done (cur s)) || (0 <? handles s).
(** An access to the [Cancel] by [subscribe], through a reference that owns nothing. *)
Definition touched (b : bool) (s : state) : bool := ub s || (b && negb (alive s)).

(** [AtomicOption::take] of slot [k]; what it held gets its result and is made ready. *)
Definition take_slot (k : nat) (r : result) (s : state) : state :=
  if default false (slots s !! k) then set_slots (<[k:=false]> (slots s)) (timers s) (Some r) s else s.

(** [Sleep::subscribe]. *)
Definition step_subscribe (i : nat) (a : agent) (s : state) : option state :=
  match a with
  | SubAdd =>
      let k := length (slots s) in
      Some (set_agent i (SubSet k) (set_slots (slots s ++ [true]) (timers s ++ [k]) (ready s) s))
  | SubSet k => Some (set_agent i SubCheck (set_cancel (canceled s) (Some k) (touched true s) s))
  | SubCheck =>
      Some (set_agent i (if canceled s then CanOr true else AIdle)
        (set_cancel (canceled s) (cslot s) (touched true s) s))
  | _ => None
  end.

(** [CancelImpl::cancel]; no I/O is registered while the coroutine sleeps. *)
Definition step_cancel (i : nat) (a : agent) (s : state) : option state :=
  match a with
  | CanOr b => Some (set_agent i (CanTake b) (set_cancel true (cslot s) (touched b s) s))
  | CanTake b =>
      Some (set_agent i (match cslot s with Some k => CanCo b k | None => AIdle end)
        (set_cancel (canceled s) None (touched b s) s))
  | CanCo b k => Some (set_agent i AIdle (take_slot k RCanceled s))
  | _ => None
  end.

(** The handler of an expired timer ([timer_event_handler] of [init_scheduler]). *)
Definition step_fire (i : nat) (a : agent) (s : state) : option state :=
  match a with
  | Fire k => Some (set_agent i AIdle (take_slot k RTimedOut s))
  | _ => None
  end.

(** Is the thread executing [subscribe]? *)
Definition in_sub (a : agent) : bool :=
  match a with
  | SubAdd | SubSet _ | SubCheck | CanOr true | CanTake true | CanCo true _ => true
  | _ => false
  end.
(** Is it cancelling through a handle? *)
Definition in_cancel (a : agent) : Z :=
  match a with CanOr false | CanTake false | CanCo false _ => 1 | _ => 0 end.

Inductive event :=
  | Sleep (i : nat)      (* the coroutine, on worker [i], calls [sleep] *)
  | Act (i : nat)
  | Cancel (i : nat)
  | Expire (i : nat) (j : nat)  (* the timer thread [i] pops the [j]th timer *)
  | Resume
  | Back                 (* the coroutine after [co_yield_with] *)
  | End (panicked : bool)
  | DropHandle.

Definition step (s : state) (e : event) : option state :=
  match e with
  | Sleep i =>
      match cur s, agents s !! i with
      | CRun, Some AIdle =>
          (* [yield_with]: no need to suspend when already cancelled *)
          if canceled s then Some (set_cur (CDone true) None (ready s) (overtaken s) s)
          else Some (set_agent i SubAdd (set_cur CAway (para s) (ready s) (overtaken s) s))
      | _, _ => None
      end
  | Act i =>
      match agents s !! i with
      | Some a =>
          match a with
          | AIdle => None
          | SubAdd | SubSet _ | SubCheck => step_subscribe i a s
          | CanOr _ | CanTake _ | CanCo _ _ => step_cancel i a s
          | Fire _ => step_fire i a s
          end
      | None => None
      end
  | Cancel i =>
      match agents s !! i with
      | Some AIdle =>
          if decide (zsum in_cancel (agents s) < Z.of_nat (handles s))%Z then Some (set_agent i (CanOr false) s) else None
      | _ => None
      end
  | Expire i j =>
      match agents s !! i, timers s !! j with
      | Some AIdle, Some k => Some (set_agent i (Fire k) (set_slots (slots s) (delete j (timers s)) (ready s) s))
      | _, _ => None
      end
  | Resume =>
      match ready s with
      | Some r => Some (set_cur CBack (Some r) None (overtaken s || existsb in_sub (agents s)) s)
      | None => None
      end
  | Back =>
      (* [yield_back]: [check_cancel] takes the result and panics; [sleep] takes the result *)
      match cur s with
      | CBack => Some (set_cur (if canceled s then CDone true else CRun) None (ready s) (overtaken s) s)
      | _ => None
      end
  | End p => match cur s with CRun => Some (set_cur (CDone p) (para s) (ready s) (overtaken s) s) | _ => None end
  | DropHandle =>
      if decide (zsum in_cancel (agents s) < Z.of_nat (handles s))%Z then Some (set_handles (pred (handles s)) s) else None
  end.

(** ** Invariants *)

Definition holds_co (a : agent) : Z := match a with SubAdd => 1 | _ => 0 end.
Definition is_away (c : co) : bool := match c with CAway => true | _ => false end.
Definition is_some {A} (o : option A) : bool := match o with Some _ => true | None => false end.
Definition is_fire (k : nat) (a : agent) : bool := match a with Fire k' => k' =? k | _ => false end.

(** Where a coroutine that was given away is. *)
Definition place (s : state) : Z :=
  b2z (is_some (ready s)) + zsum b2z (slots s) + zsum holds_co (agents s).

Record sleep_ok (s : state) : Prop := {
  sl_place : place s = b2z (is_away (cur s));
  sl_last k : slots s !! k = Some true -> S k = length (slots s);
  sl_timer k : slots s !! k = Some true -> k ∈ timers s \/ has (is_fire k) (agents s);
  sl_handles : (zsum in_cancel (agents s) <= Z.of_nat (handles s))%Z
}.

(** Who still has to look at the slot [k] of the current sleep. *)
Definition registers (k : nat) (a : agent) : bool :=
  match a with SubSet k' | CanCo _ k' => k' =? k | _ => false end.
Definition cancels (k : nat) (a : agent) : bool :=
  match a with SubCheck | CanOr _ | CanTake _ => true | _ => registers k a end.

(** What holds as long as no [subscribe] was overtaken by its coroutine: there is at
    most one, and it works on the slot of the current sleep. *)
Record prompt (s : state) : Prop := {
  pr_sub : (zsum (fun a => b2z (in_sub a)) (agents s) <= b2z (is_away (cur s)))%Z;
  pr_set i k : agents s !! i = Some (SubSet k) -> S k = length (slots s);
  pr_slot k : slots s !! k = Some true -> cslot s = Some k \/ has (registers k) (agents s);
  pr_cancel k : slots s !! k = Some true -> canceled s = true -> has (cancels k) (agents s)
}.

Lemma sleep_holds_nonneg a : (0 <= holds_co a)%Z.
Proof. by destruct a. Qed.
Lemma in_cancel_nonneg a : (0 <= in_cancel a)%Z.
Proof. destruct a; simpl; try lia; by destruct b. Qed.
Lemma place_nonneg s : (0 <= zsum b2z (slots s))%Z /\ (0 <= zsum holds_co (agents s))%Z.
Proof. split; apply zsum_nonneg; [apply b2z_nonneg|apply sleep_holds_nonneg]. Qed.

Lemma zsum_slots_empty l k : zsum b2z l = 0%Z -> l !! k <> Some true.
Proof. intros H Hk. pose proof (zsum_zero_lookup b2z l k true b2z_nonneg H Hk). done. Qed.

(** While the coroutine is somewhere else, no slot holds it. *)
Lemma no_slot s k :
  sleep_ok s -> is_away (cur s) = false \/ is_some (ready s) = true \/ (exists i, agents s !! i = Some SubAdd) ->
  slots s !! k <> Some true.
Proof.
  intros Hok H. apply zsum_slots_empty. pose proof (sl_place _ Hok) as Hp. unfold place in Hp.
  destruct (place_nonneg s) as [H1 H2]. pose proof (b2z_nonneg (is_some (ready s))). pose proof (b2z_le1 (is_away (cur s))).
  destruct H as [H|[H|[i Hi]]].
  - rewrite H in Hp. simpl in Hp. lia.
  - rewrite H in Hp. simpl in Hp. lia.
  - pose proof (zsum_lookup_le holds_co _ _ _ sleep_holds_nonneg Hi) as Hle. simpl in Hle. lia.
Qed.

(** A step of agent [i] from [a] to [y] that leaves slots and timers alone. *)
Lemma sleep_move s s' i a y :
  sleep_ok s -> agents s !! i = Some a -> agents s' = <[i:=y]> (agents s) -> slots s' = slots s -> timers s' = timers s ->
  (b2z (is_some (ready s')) + holds_co y - b2z (is_away (cur s')) = b2z (is_some (ready s)) + holds_co a - b2z (is_away (cur s)))%Z ->
  (forall k, is_fire k a = false) ->
  (in_cancel y - Z.of_nat (handles s') <= in_cancel a - Z.of_nat (handles s) \/
   zsum in_cancel (agents s) - in_cancel a + in_cancel y <= Z.of_nat (handles s'))%Z -> sleep_ok s'.
Proof.
  intros [H1 H2 H3 H4] Hi Ha Hs Ht Hp Hf Hc. split.
  - unfold place in *. rewrite Ha, Hs. zsum_update. lia.
  - by rewrite Hs.
  - intros k Hk. rewrite Hs in Hk. rewrite Ht, Ha. destruct (H3 k Hk) as [?|?]; [by left|right].
    by eapply has_insert_other.
  - rewrite Ha. zsum_update. lia.
Qed.

(** A thread looks into slot [k]. *)
Lemma sleep_take s i a k r :
  sleep_ok s -> agents s !! i = Some a -> holds_co a = 0%Z -> (forall k', is_fire k' a = true -> k' = k) ->
  sleep_ok (set_agent i AIdle (take_slot k r s)).
Proof.
  intros Hok Hi Ha Hf. pose proof Hok as [H1 H2 H3 H4]. pose proof (in_cancel_nonneg a).
  assert (Hkeep : forall k', slots s !! k' = Some true -> k' <> k ->
    k' ∈ timers s \/ has (is_fire k') (<[i:=AIdle]> (agents s))).
  { intros k' Hk' Hne. destruct (H3 k' Hk') as [?|?]; [by left|right]. eapply has_insert_other; [done..|].
    destruct (is_fire k' a) eqn:E; [|done]. by apply Hf in E. }
  unfold take_slot. destruct (slots s !! k) as [[]|] eqn:Hk; simpl; split; simpl; unfold place in *; simpl;
    try (by apply H2); try (zsum_update; simpl; lia); try (intros k' Hk'; apply Hkeep; congruence).
  - zsum_update. simpl. rewrite Ha. destruct (ready s) eqn:Hr; [|simpl in *; lia].
    exfalso. eapply (no_slot s k Hok); [|done]. right. left. by rewrite Hr.
  - intros k' Hk'. apply lookup_insert_list in Hk' as [(_ & ? & _)|[_ Hk']]; [done|]. rewrite length_insert. by apply H2.
  - intros k' Hk'. apply lookup_insert_list in Hk' as [(_ & ? & _)|[Hne Hk']]; [done|]. apply Hkeep; congruence.
Qed.

Ltac sleep_keep Hok Hi := eapply (sleep_move _ _ _ _ _ Hok Hi); simpl; [done..|simpl; lia|done|simpl; try lia].

Lemma sleep_add s i :
  sleep_ok s -> agents s !! i = Some SubAdd ->
  sleep_ok (set_agent i (SubSet (length (slots s))) (set_slots (slots s ++ [true]) (timers s ++ [length (slots s)]) (ready s) s)).
Proof.
  intros Hok Hi. pose proof Hok as [H1 H2 H3 H4]. split; simpl.
  - unfold place in *. simpl. rewrite zsum_app. zsum_update. simpl. lia.
  - intros k Hk. rewrite length_app. simpl. apply lookup_snoc_Some' in Hk as [Hk|[-> _]]; [|lia].
    exfalso. eapply (no_slot s k Hok); [|done]. right. right. by exists i.
  - intros k Hk. left. apply lookup_snoc_Some' in Hk as [Hk|[-> _]];
      [|apply elem_of_app; right; by apply list_elem_of_singleton].
    exfalso. eapply (no_slot s k Hok); [|done]. right. right. by exists i.
  - zsum_update. simpl. lia.
Qed.

Lemma sleep_act s i s' : sleep_ok s -> step s (Act i) = Some s' -> sleep_ok s'.
Proof.
  intros Hok Hs. simpl in Hs. destruct (agents s !! i) as [a|] eqn:Hi; [|done].
  destruct a as [| |k| |b|b|b k|k]; simpl in Hs; try discriminate Hs; injection Hs as <-.
  - by apply sleep_add.
  - sleep_keep Hok Hi.
  - destruct (canceled s); sleep_keep Hok Hi.
  - sleep_keep Hok Hi.
  - destruct (cslot s); sleep_keep Hok Hi. destruct b; lia.
  - by eapply sleep_take.
  - eapply sleep_take; [done..|]. intros k' Hk'. simpl in Hk'. by apply Nat.eqb_eq in Hk'.
Qed.

(** Changes of the coroutine's own fields, and of the number of handles. *)
Lemma sleep_cur s s' :
  sleep_ok s -> agents s' = agents s -> slots s' = slots s -> timers s' = timers s ->
  (b2z (is_some (ready s')) - b2z (is_away (cur s')) = b2z (is_some (ready s)) - b2z (is_away (cur s)))%Z ->
  (zsum in_cancel (agents s) <= Z.of_nat (handles s'))%Z -> sleep_ok s'.
Proof.
  intros [H1 H2 H3 H4] Ha Hs Ht Hp Hh. split; rewrite ?Ha, ?Hs, ?Ht; try done.
  unfold place in *. rewrite Ha, Hs. lia.
Qed.

Lemma sleep_step s e s' : sleep_ok s -> step s e = Some s' -> sleep_ok s'.
Proof.
  intros Hok Hs. pose proof (sl_handles _ Hok) as Hh. pose proof (sl_place _ Hok) as Hp.
  destruct e as [i|i|i|i j| | |p|]; [|by eapply sleep_act|..]; simpl in Hs.
  - destruct (cur s) eqn:Hc; try done. destruct (agents s !! i) as [[]|] eqn:Hi; try done.
    destruct (canceled s); injection Hs as <-.
    + apply (sleep_cur s); simpl; try done. by rewrite Hc.
    + eapply (sleep_move _ _ _ _ _ Hok Hi); simpl; [done..|rewrite Hc; simpl; lia|done|simpl; lia].
  - destruct (agents s !! i) as [[]|] eqn:Hi; try done. destruct (decide _); [|done]. injection Hs as <-.
    sleep_keep Hok Hi.
  - destruct (agents s !! i) as [[]|] eqn:Hi; try done. destruct (timers s !! j) as [k|] eqn:Hj; [|done].
    injection Hs as <-. destruct Hok as [H1 H2 H3 H4]. split; simpl; try done.
    + unfold place in *. simpl. zsum_update. simpl. lia.
    + intros k' Hk'. destruct (decide (k' = k)) as [->|Hne].
      * right. eapply has_insert_new; [done|]. simpl. apply Nat.eqb_refl.
      * destruct (H3 k' Hk') as [Hin|?]; [left|right; by eapply has_insert_other].
        apply list_elem_of_lookup in Hin as [j' Hj']. assert (j' <> j) by congruence.
        apply list_elem_of_lookup. destruct (decide (j' < j)).
        -- exists j'. by rewrite list_lookup_delete_lt.
        -- exists (pred j'). rewrite list_lookup_delete_ge by lia. by replace (S (pred j')) with j' by lia.
    + zsum_update. simpl. lia.
  - destruct (ready s) eqn:Hr; [|done]. injection Hs as <-. apply (sleep_cur s); simpl; try done.
    rewrite Hr. unfold place in Hp. rewrite Hr in Hp. destruct (place_nonneg s). pose proof (b2z_le1 (is_away (cur s))).
    simpl in *. lia.
  - destruct (cur s) eqn:Hc; try done. injection Hs as <-. apply (sleep_cur s); simpl; try done.
    rewrite Hc. by destruct (canceled s).
  - destruct (cur s) eqn:Hc; try done. injection Hs as <-. apply (sleep_cur s); simpl; try done. by rewrite Hc.
  - destruct (decide _); [|done]. injection Hs as <-. apply (sleep_cur s); simpl; try done. lia.
Qed.

Definition nsub (l : list agent) : Z := zsum (fun a => b2z (in_sub a)) l.
Lemma nsub_one l i a : l !! i = Some a -> in_sub a = true -> (1 <= nsub l)%Z.
Proof.
  intros Hi Ha. pose proof (zsum_lookup_le (fun a => b2z (in_sub a)) l i a (fun x => b2z_nonneg _) Hi) as H.
  simpl in H. by rewrite Ha in H.
Qed.
Lemma nsub_two l i j a b :
  i <> j -> l !! i = Some a -> l !! j = Some b -> in_sub a = true -> in_sub b = true -> (2 <= nsub l)%Z.
Proof.
  intros Hne Hi Hj Ha Hb.
  pose proof (zsum_lookup2_le (fun a => b2z (in_sub a)) l i j a b (fun x => b2z_nonneg _) Hne Hi Hj) as H.
  simpl in H. by rewrite Ha, Hb in H.
Qed.

Lemma sleep_registers_cancels k a : registers k a = true -> cancels k a = true.
Proof. by destruct a. Qed.

(** A step of agent [i] from [a] to [y] that puts nothing into a slot.  It must not
    drop what it owed to the full slot [k]. *)
Lemma prompt_move s s' i a y :
  prompt s -> agents s !! i = Some a -> agents s' = <[i:=y]> (agents s) -> cur s' = cur s ->
  length (slots s') = length (slots s) -> (forall k, slots s' !! k = Some true -> slots s !! k = Some true) ->
  (in_sub y = true -> in_sub a = true) -> (forall k, y = SubSet k -> S k = length (slots s)) ->
  (forall k, slots s' !! k = Some true ->
     (cslot s' = Some k \/ registers k y = true \/ (cslot s' = cslot s \/ cslot s <> Some k) /\ registers k a = false) /\
     (canceled s' = true -> cancels k y = true \/ canceled s = true /\ cancels k a = false \/
        cslot s <> Some k /\ registers k a = false)) ->
  prompt s'.
Proof.
  intros [H1 H2 H3 H4] Hi Ha Hc Hlen Hslots Hsub Hset Hk. split.
  - rewrite Ha, Hc. zsum_update. simpl. destruct (in_sub y); [rewrite Hsub by done; lia|].
    pose proof (b2z_nonneg (in_sub a)). simpl. lia.
  - intros j k Hj. rewrite Ha in Hj. rewrite Hlen. apply lookup_insert_list in Hj as [(_ & <- & _)|[_ Hj]]; eauto.
  - intros k Hf. destruct (Hk k Hf) as [Hreg _]. rewrite Ha. destruct Hreg as [?|[?|[Hcs Hra]]]; [by left|right; by eapply has_insert_new|].
    destruct (H3 k (Hslots k Hf)) as [Hks|?]; [|right; by eapply has_insert_other].
    destruct Hcs as [->|?]; [by left|done].
  - intros k Hf Hcan. destruct (Hk k Hf) as [_ Hcn]. rewrite Ha.
    destruct (Hcn Hcan) as [?|[[Hold ?]|[Hcs Hra]]]; [by eapply has_insert_new|eapply has_insert_other; eauto|].
    destruct (H3 k (Hslots k Hf)) as [?|?]; [done|].
    eapply has_mono; [apply sleep_registers_cancels|by eapply has_insert_other].
Qed.

Lemma prompt_take s i a k r :
  prompt s -> sleep_ok s -> agents s !! i = Some a -> (forall k', k' <> k -> registers k' a = false /\ cancels k' a = false) ->
  prompt (set_agent i AIdle (take_slot k r s)).
Proof.
  intros Hp Hok Hi Hreg.
  assert (Hne : forall k', slots (take_slot k r s) !! k' = Some true -> slots s !! k' = Some true /\ k' <> k).
  { intros k'. unfold take_slot. destruct (slots s !! k) as [[]|] eqn:Hk; simpl; [|intros H; split; congruence..].
    intros [(_ & ? & _)|[? ?]]%lookup_insert_list; [done|]. by split. }
  assert (Hsame : agents (take_slot k r s) = agents s /\ cur (take_slot k r s) = cur s /\ cslot (take_slot k r s) = cslot s /\
    canceled (take_slot k r s) = canceled s /\ length (slots (take_slot k r s)) = length (slots s)).
  { unfold take_slot. destruct (default false (slots s !! k)); simpl; by rewrite ?length_insert. }
  destruct Hsame as (E1 & E2 & E3 & E4 & E5).
  apply (prompt_move s _ i a AIdle Hp Hi); simpl; [by rewrite E1|done..|by intros k' [? _]%Hne|done|done|].
  intros k' Hk'. destruct (Hne k' Hk') as [_ Hk]. destruct (Hreg k' Hk) as [Hr Hc]. rewrite E3, E4. split.
  - right. right. by split; [left|].
  - intros Hcan. right. left. by split.
Qed.

Lemma prompt_act s i s' :
  prompt s -> sleep_ok s -> step s (Act i) = Some s' -> prompt s'.
Proof.
  intros Hp Hok Hs. simpl in Hs. destruct (agents s !! i) as [a|] eqn:Hi; [|done].
  destruct a as [| |k| |b|b|b k|k]; simpl in Hs; try discriminate Hs; injection Hs as <-.
  - pose proof (sleep_add s i Hok Hi) as Hok'. destruct Hp as [H1 H2 H3 H4].
    assert (Hnew : forall k, (slots s ++ [true]) !! k = Some true -> k = length (slots s)).
    { intros k Hk. apply lookup_snoc_Some' in Hk as [Hk|[-> _]]; [|done]. exfalso.
      eapply (no_slot s k Hok); [|done]. right. right. by exists i. }
    split; simpl.
    + zsum_update. simpl. lia.
    + intros j k Hj. rewrite length_app. simpl. apply lookup_insert_list in Hj as [(_ & [= <-] & _)|[Hne Hj]]; [lia|].
      exfalso. pose proof (nsub_two _ _ _ _ _ Hne Hi Hj eq_refl eq_refl). pose proof (b2z_le1 (is_away (cur s))).
      unfold nsub in *. lia.
    + intros k ->%Hnew. right. eapply has_insert_new; [done|]. simpl. apply Nat.eqb_refl.
    + intros k ->%Hnew _. eapply has_insert_new; [done|]. simpl. apply Nat.eqb_refl.
  - apply (prompt_move s _ i (SubSet k) SubCheck Hp Hi); simpl; try done. intros k' Hk'.
    assert (k' = k) as ->.
    { pose proof (sl_last _ Hok k' Hk'). pose proof (pr_set _ Hp _ _ Hi). lia. }
    split; [by left|]. intros _. by left.
  - eapply (prompt_move s _ i SubCheck _ Hp Hi); simpl; [done..| | |]; destruct (canceled s) eqn:Hc; simpl; try done.
    + intros k Hk. split; [right; right; split; [by left|done]|]. intros _. by left.
    + intros k Hk. split; [right; right; split; [by left|done]|]. done.
  - apply (prompt_move s _ i (CanOr b) (CanTake b) Hp Hi); simpl; try done. intros k Hk.
    split; [right; right; split; [by left|done]|]. intros _. by left.
  - eapply (prompt_move s _ i (CanTake b) _ Hp Hi); simpl; [done..| | |].
    + destruct (cslot s); [by destruct b|done].
    + by destruct (cslot s).
    + intros k Hk. destruct (cslot s) as [k0|]; simpl.
      * destruct (Nat.eqb_spec k0 k) as [->|Hne]; [split; [right; by left|intros _; by left]|].
        split; [right; right; split; [right; congruence|done]|]. intros _. right. right. split; [congruence|done].
      * split; [right; right; by split; [left|]|]. intros _. right. right. by split.
  - apply (prompt_take s i (CanCo b k)); [done..|]. intros k' Hne. simpl. apply Nat.eqb_neq in Hne. rewrite Nat.eqb_sym.
    by rewrite Hne.
  - by apply (prompt_take s i (Fire k)).
Qed.

(** The slots are empty while the coroutine is not away. *)
Lemma prompt_home s :
  sleep_ok s -> (nsub (agents s) <= b2z (is_away (cur s)))%Z ->
  (forall i k, agents s !! i = Some (SubSet k) -> S k = length (slots s)) ->
  (forall k, slots s !! k <> Some true) -> prompt s.
Proof. intros Hok H1 H2 H3. split; [done..| |]; intros k Hk; by destruct (H3 k). Qed.

Lemma existsb_nsub l : existsb in_sub l = false -> nsub l = 0%Z.
Proof.
  intros H. apply zsum_all_zero. intros i a Hi. destruct (in_sub a) eqn:Ha; [|done]. exfalso.
  assert (existsb in_sub l = true); [|congruence]. apply existsb_exists. exists a. split; [|done].
  apply list_elem_of_In. by eapply list_elem_of_lookup_2.
Qed.
Lemma nsub_set l : nsub l = 0%Z -> forall i k, l !! i <> Some (SubSet k).
Proof. intros H i k Hi. pose proof (nsub_one l i _ Hi eq_refl). lia. Qed.

Lemma prompt_step s e s' :
  prompt s -> sleep_ok s -> step s e = Some s' -> overtaken s' = false -> prompt s'.
Proof.
  intros Hp Hok Hs Ho. pose proof (sleep_step _ _ _ Hok Hs) as Hok'. pose proof (pr_sub _ Hp) as Hn. fold (nsub (agents s)) in Hn.
  assert (Hhome : is_away (cur s) = false -> forall k, slots s !! k <> Some true) by (intros H k; apply no_slot; auto).
  destruct e as [i|i|i|i j| | |p|]; [|by eapply prompt_act|..]; simpl in Hs.
  - destruct (cur s) eqn:Hc; try done. destruct (agents s !! i) as [[]|] eqn:Hi; try done. simpl in Hn.
    assert (Hn0 : nsub (agents s) = 0%Z).
    { pose proof (zsum_nonneg (fun a => b2z (in_sub a)) (agents s) (fun x => b2z_nonneg _)). unfold nsub in *. lia. }
    destruct (canceled s); injection Hs as <-; apply prompt_home; simpl; try done; try (by apply Hhome).
    + intros j k Hj. by apply (nsub_set _ Hn0) in Hj.
    + unfold nsub in *. zsum_update. simpl. lia.
    + intros j k Hj. apply lookup_insert_list in Hj as [(_ & ? & _)|[_ Hj]]; [done|]. by apply (nsub_set _ Hn0) in Hj.
  - destruct (agents s !! i) as [[]|] eqn:Hi; try done. destruct (decide _); [|done]. injection Hs as <-.
    apply (prompt_move s _ i AIdle (CanOr false) Hp Hi); simpl; try done. intros k Hk.
    split; [right; right; split; [by left|done]|]. intros _. by left.
  - destruct (agents s !! i) as [[]|] eqn:Hi; try done. destruct (timers s !! j) as [k|]; [|done]. injection Hs as <-.
    apply (prompt_move s _ i AIdle (Fire k) Hp Hi); simpl; try done. intros k' Hk'.
    split; [right; right; split; [by left|done]|]. intros ?. right. left. by split.
  - destruct (ready s) eqn:Hr; [|done]. injection Hs as <-. simpl in Ho. apply orb_false_iff in Ho as [_ Ho].
    apply existsb_nsub in Ho. apply prompt_home; simpl; [done|by rewrite Ho| |].
    + intros i k Hi. by apply (nsub_set _ Ho) in Hi.
    + intros k. apply (no_slot s k Hok). right. left. by rewrite Hr.
  - destruct (cur s) eqn:Hc; try done. injection Hs as <-. apply prompt_home; simpl; try done; [|apply Hp|by apply Hhome].
    by destruct (canceled s).
  - destruct (cur s) eqn:Hc; try done. injection Hs as <-. apply prompt_home; simpl; try done; [apply Hp|by apply Hhome].
  - destruct (decide _); [|done]. injection Hs as <-. by destruct Hp.
Qed.

Lemma overtaken_step s e s' : step s e = Some s' -> overtaken s' = false -> overtaken s = false.
Proof.
  assert (Htake : forall k r, overtaken (take_slot k r s) = overtaken s).
  { intros k r. unfold take_slot. by destruct (default false (slots s !! k)). }
  intros Hs. destruct e as [i|i|i|i j| | |p|]; simpl in Hs; repeat case_match; simpl in *; simplify_eq/=;
    rewrite ?Htake; try done. by intros [? _]%orb_false_iff.
Qed.

Lemma sleep_reachable n h s : reachable step (init n h) s -> sleep_ok s.
Proof.
  apply reachable_ind_inv; [|apply sleep_step]. split; simpl.
  - unfold place. simpl. rewrite zsum_replicate. simpl. lia.
  - done.
  - done.
  - rewrite zsum_replicate. simpl. lia.
Qed.

Lemma prompt_reachable n h s : reachable step (init n h) s -> overtaken s = false -> prompt s.
Proof.
  induction 1 as [|s e s' Hr IH Hs]; intros Ho.
  - split; simpl; try done; [rewrite zsum_replicate; simpl; lia|]. by intros i k [? _]%lookup_replicate.
  - eapply prompt_step; [|by eapply sleep_reachable|done..]. apply IH. by eapply overtaken_step.
Qed.

Lemma take_slot_ub k r s : ub (take_slot k r s) = ub s /\ handles (take_slot k r s) = handles s.
Proof. unfold take_slot. by destruct (default false (slots s !! k)). Qed.

(** A step uses the [Cancel] through [subscribe]'s reference, or not at all. *)
Lemma step_ub s e s' :
  step s e = Some s' -> handles s' <= handles s /\
  (ub s' = ub s \/ (ub s' = (ub s || negb (alive s)) /\ exists i a, agents s !! i = Some a /\ in_sub a = true)).
Proof.
  intros Hs. destruct e as [i|i|i|i j| | |p|]; simpl in Hs.
  - repeat case_match; simplify_eq; simpl; auto.
  - destruct (agents s !! i) as [a|] eqn:Hi; [|done].
    destruct a as [| |k| |b|b|b k|k]; simpl in Hs; try discriminate Hs; injection Hs as <-; simpl;
      try (destruct (take_slot_ub k RCanceled s) as [-> ->]); try (destruct (take_slot_ub k RTimedOut s) as [-> ->]);
      split; try done; unfold touched; try (by left).
    + right. by split; [|exists i, (SubSet k)].
    + right. by split; [|exists i, SubCheck].
    + destruct b; [right; by split; [|exists i, (CanOr true)]|left; by rewrite orb_false_r].
    + destruct b; [right; by split; [|exists i, (CanTake true)]|left; by rewrite orb_false_r].
  - repeat case_match; simplify_eq; simpl; auto.
  - repeat case_match; simplify_eq; simpl; auto.
  - repeat case_match; simplify_eq; simpl; auto.
  - repeat case_match; simplify_eq; simpl; auto.
  - repeat case_match; simplify_eq; simpl; auto.
  - destruct (decide _); simplify_eq; simpl. split; [lia|by left].
Qed.

(** ** The theorems *)

(** Nobody is in the middle of anything. *)
Definition rest (s : state) : Prop := forall i a, agents s !! i = Some a -> a = AIdle.

(** C33. A sleeping coroutine is in one place, and at rest it is ready to run or its
    slot is full and its timer is pending: when the timer expires the coroutine is
    made ready.  If it was cancelled and no [subscribe] was ever overtaken by the
    coroutine it had suspended, it is ready already: a cancellation ends
    the sleep, whenever it comes. *)
Theorem sleep_not_lost n h s :
  reachable step (init n h) s -> cur s = CAway ->
  place s = 1%Z /\
  (rest s ->
     is_some (ready s) = true \/
     (exists k j, slots s !! k = Some true /\ timers s !! j = Some k /\
        forall i, i < length (agents s) ->
          exists s', run step [Expire i j; Act i] s = Some s' /\ ready s' = Some RTimedOut) /\
     (overtaken s = false -> canceled s = false)).
Proof.
  intros Hr Hc. pose proof (sleep_reachable _ _ _ Hr) as Hok. pose proof (sl_place _ Hok) as Hp. rewrite Hc in Hp.
  split; [done|]. intros Hrest. unfold place in Hp. simpl in Hp.
  assert (Hno : forall P, has P (agents s) -> P AIdle = false -> False).
  { intros P (i & a & Hi & HP) Hidle. rewrite (Hrest _ _ Hi) in HP. congruence. }
  destruct (is_some (ready s)) eqn:Hrd; [by left|right]. simpl in Hp.
  assert (Hh : zsum holds_co (agents s) = 0%Z) by (apply zsum_all_zero; intros i a Hi; by rewrite (Hrest _ _ Hi)).
  destruct (zsum_nonzero b2z (slots s)) as (k & [] & Hk & Hb); [lia| |done]. split.
  - destruct (sl_timer _ Hok k Hk) as [Hin|Hf]; [|by destruct (Hno _ Hf)].
    apply list_elem_of_lookup_1 in Hin as [j Hj]. exists k, j. split_and!; [done..|]. intros i [a Hi]%lookup_lt_is_Some_2.
    pose proof (Hrest _ _ Hi) as ->. simpl. rewrite Hi, Hj. simpl.
    rewrite list_lookup_insert_eq by (by eapply lookup_lt_Some). simpl. eexists. split; [done|].
    unfold take_slot. simpl. by rewrite Hk.
  - intros Ho. destruct (canceled s) eqn:Hcan; [|done].
    destruct (Hno _ (pr_cancel _ (prompt_reachable _ _ _ Hr Ho) k Hk Hcan) eq_refl).
Qed.

(** [subscribe] does not use a freed [Cancel], if the coroutine was never resumed
    before [subscribe] returned, or if somebody still has a handle of the coroutine
    (a [JoinHandle] that was not dropped). *)
Theorem sleep_cancel_alive n h s :
  reachable step (init n h) s -> overtaken s = false \/ 0 < handles s -> ub s = false.
Proof.
  intros Hr. induction Hr as [|s e s' Hr IH Hs]; [done|]. intros H.
  destruct (step_ub _ _ _ Hs) as [Hle Hub].
  assert (H0 : overtaken s = false \/ 0 < handles s).
  { destruct H; [left; by eapply overtaken_step|right; lia]. }
  specialize (IH H0). destruct Hub as [->|[-> (i & a & Hi & Ha)]]; [done|]. rewrite IH. simpl.
  apply negb_false_iff. unfold alive. destruct H0 as [Ho|Hh]; [|apply orb_true_iff; right; by apply Nat.ltb_lt].
  pose proof (pr_sub _ (prompt_reachable _ _ _ Hr Ho)) as Hn. pose proof (nsub_one _ _ _ Hi Ha). unfold nsub in *.
  destruct (cur s); simpl in *; try done; lia.
Qed.

(** ** Runs *)
Module Demo.
(** Thread [0] runs the coroutine, [1] is the timer thread, [2] another worker. *)
Definition asleep : list event := [Sleep 0; Act 0; Act 0; Act 0].
(** The timer fires before [subscribe] has registered the slot. *)
Definition overtake : list event := [Sleep 0; Act 0; Expire 1 0; Act 1; Resume; Back].
Definition mid : state := default (init 3 1) (run step (asleep ++ [Cancel 2; Act 2]) (init 3 1)).
Definition rested : state := default (init 3 1) (run step asleep (init 3 1)).
End Demo.

Lemma sleep_mid_reachable : reachable step (init 3 1) Demo.mid.
Proof. apply (run_reachable step (init 3 1) (Demo.asleep ++ [Cancel 2; Act 2])). vm_compute. reflexivity. Qed.
Lemma rested_reachable : reachable step (init 3 1) Demo.rested.
Proof. apply (run_reachable step (init 3 1) Demo.asleep). vm_compute. reflexivity. Qed.

(** A short sleep of a detached coroutine: it wakes up and ends, and [subscribe]
    writes into its freed [Cancel]. *)
Lemma sleep_use_after_free :
  exists s, run step (Demo.overtake ++ [DropHandle; End false; Act 0]) (init 3 1) = Some s /\ ub s = true.
Proof. eexists. split; [vm_compute; reflexivity|done]. Qed.

(** The coroutine sleeps again before the first [subscribe] registers its (empty)
    slot over the new one: a cancellation then finds nothing, and the coroutine
    sleeps to the end of its time although everybody is done. *)
Lemma sleep_cancel_missed :
  exists s, run step (Demo.overtake ++ [Sleep 2; Act 2; Act 2; Act 2; Act 0; Act 0; Cancel 1; Act 1; Act 1; Act 1])
              (init 3 1) = Some s /\
    agents s = replicate 3 AIdle /\ canceled s = true /\ cur s = CAway /\ ready s = None /\ slots s = [false; true].
Proof. eexists. split; [vm_compute; reflexivity|]. by split_and!. Qed.

Lemma sleep_not_lost_witness :
  exists k j, slots Demo.rested !! k = Some true /\ timers Demo.rested !! j = Some k.
Proof.
  destruct (sleep_not_lost 3 1 Demo.rested rested_reachable eq_refl) as [_ H].
  destruct H as [H|[(k & j & Hk & Hj & _) _]].
  - intros i a Hi. vm_compute in Hi. by destruct i as [|[|[|i]]]; simplify_eq.
  - discriminate H.
  - exists k, j. split; assumption.
Defined.

Lemma sleep_cancel_alive_witness :
  handles Demo.mid = 1 /\ canceled Demo.mid = true /\ ub Demo.mid = false.
Proof.
  split; [reflexivity|]. split; [reflexivity|].
  apply (sleep_cancel_alive 3 1 Demo.mid sleep_mid_reachable). right. vm_compute. constructor.
Defined.

End Sl.
