(* ===== verification/Fifo.v ===== *)
(** * Fifo: the specification of the queues

    An atomic FIFO queue, first with the history of its answers, which the channels
    are built on, then as an object with clients: the histories of calls and returns
    it allows ([osteps]), what they say of the order of the values ([in_order]), and
    the simulation by which [SpscQueue], [MpscQueue] and [ListQueue] are linearizable
    with respect to it. *)

From stdpp Require Import base numbers list.
From Stdlib Require Import Lia.
From S2P Require Import Prelude.

Module Fifo.

Inductive op := OPop | OBulk | OPeek.
#[global] Instance op_eq_dec : EqDecision op.
Proof. solve_decision. Defined.

Section fifo.
Context {T : Type}.

Inductive resp := RPop (o : option T) | RBulk (vs : list T) | RPeek (o : option T).

Definition empty_resp (k : op) : resp :=
  match k with OPop => RPop None | OBulk => RBulk [] | OPeek => RPeek None end.

Record spec := Spec { q : list T; answers : list resp }.
Inductive call := AddV (v : T) | Take | TakeMany (n : nat) | Look.

(** The operations on the contents. *)
Definition push (v : T) (l : list T) : list T := l ++ [v].
Definition pop (l : list T) : option T * list T := (hd_error l, drop 1 l).
Definition is_empty (l : list T) : bool := match l with [] => true | _ => false end.

Definition spec_step (s : spec) (c : call) : option spec :=
  match c with
  | AddV v => Some (Spec (push v (q s)) (answers s))
  | Take => Some (Spec (snd (pop (q s))) (answers s ++ [RPop (fst (pop (q s)))]))
  | TakeMany n =>
      if bool_decide (n <= length (q s) /\ (n = 0 -> q s = []))
      then Some (Spec (drop n (q s)) (answers s ++ [RBulk (take n (q s))])) else None
  | Look => Some (Spec (q s) (answers s ++ [RPeek (hd_error (q s))]))
  end.

(** Several pops in a row take the front of the queue in order. *)
Lemma fifo_take_front l a n :
  n <= length l ->
  run spec_step (replicate n Take) (Spec l a) = Some (Spec (drop n l) (a ++ map (fun v => RPop (Some v)) (take n l))).
Proof.
  revert l a. induction n as [|n IH]; intros l a Hn; [simpl; by rewrite drop_0, app_nil_r|].
  destruct l as [|v l]; simpl in *; [lia|]. rewrite drop_0, IH by lia. by rewrite <-app_assoc.
Qed.

(** A bulk pop is that many pops, answered together. *)
Lemma fifo_bulk_pops l a n s :
  spec_step (Spec l a) (TakeMany n) = Some s ->
  exists s', run spec_step (replicate n Take) (Spec l a) = Some s' /\ q s' = q s /\
    exists vs, answers s = a ++ [RBulk vs] /\ answers s' = a ++ map (fun v => RPop (Some v)) vs.
Proof.
  simpl. case_bool_decide as Hn; [|done]. intros [= <-]. eexists. split; [apply fifo_take_front, Hn|].
  split; [done|]. by eexists.
Qed.

(** ** The queue as an atomic object

    What the clients of a queue see is the history of their calls and returns.  The
    atomic queue has producers and one consumer; every call is a step, takes effect
    at one step of its own, and returns.  A queue is linearizable when every history
    of it is a history of the atomic queue. *)

(** A thread has called and its call has not taken effect, or it has. *)
Inductive pstatus := PReady | PCalled (v : T) | PApplied.
Inductive cstatus := CReady | CCalled (k : op) | CApplied (r : resp).
Record obj := Obj { content : list T; producers : list pstatus; consumer : cstatus }.
Definition start (n : nat) : obj := Obj [] (replicate n PReady) CReady.

(** Calls and returns: producer [t] calls [push v] and returns; the consumer calls
    [k] and gets the answer [r]. *)
Inductive label := PCall (t : nat) (v : T) | PRet (t : nat) | CCall (k : op) | CRet (r : resp).

Definition op_of (r : resp) : op := match r with RPop _ => OPop | RBulk _ => OBulk | RPeek _ => OPeek end.
(** The operation a call is; a bulk takes effect with the number [n] of its values. *)
Definition call_of (k : op) (n : nat) : call := match k with OPop => Take | OBulk => TakeMany n | OPeek => Look end.

Inductive ostep : obj -> list label -> obj -> Prop :=
| o_pcall o t v : producers o !! t = Some PReady ->
    ostep o [PCall t v] (Obj (content o) (<[t := PCalled v]> (producers o)) (consumer o))
| o_add o t v : producers o !! t = Some (PCalled v) ->
    ostep o [] (Obj (push v (content o)) (<[t := PApplied]> (producers o)) (consumer o))
| o_pret o t : producers o !! t = Some PApplied ->
    ostep o [PRet t] (Obj (content o) (<[t := PReady]> (producers o)) (consumer o))
| o_ccall o k : consumer o = CReady -> ostep o [CCall k] (Obj (content o) (producers o) (CCalled k))
| o_take o k n l r : consumer o = CCalled k -> spec_step (Spec (content o) []) (call_of k n) = Some (Spec l [r]) ->
    ostep o [] (Obj l (producers o) (CApplied r))
| o_cret o r : consumer o = CApplied r -> ostep o [CRet r] (Obj (content o) (producers o) CReady).

Inductive osteps : obj -> list label -> obj -> Prop :=
| os_refl o : osteps o [] o
| os_step o h o1 h' o2 : ostep o h o1 -> osteps o1 h' o2 -> osteps o (h ++ h') o2.

Lemma osteps_one o h o' : ostep o h o' -> osteps o h o'.
Proof. intros H. rewrite <-(app_nil_r h). by econstructor; [|constructor]. Qed.
Lemma osteps_trans o h o1 h' o2 : osteps o h o1 -> osteps o1 h' o2 -> osteps o (h ++ h') o2.
Proof. induction 1; intros H'; [done|]. rewrite <-app_assoc. by econstructor; [|auto]. Qed.
(** The same with the lists of producers and of labels given up to equality. *)
Lemma osteps_eq o h h' o1 o2 : osteps o h o1 -> h = h' -> o1 = o2 -> osteps o h' o2.
Proof. by intros ? <- <-. Qed.
Lemma osteps_two o h1 o1 h2 o2 : ostep o h1 o1 -> ostep o1 h2 o2 -> osteps o (h1 ++ h2) o2.
Proof. intros ? ?. eapply osteps_trans; by apply osteps_one. Qed.

(** What a history says: the values producer [t] called [push] with, the values the
    answers delivered. *)
Definition called (t : nat) (h : list label) : list T :=
  h ≫= (fun l => match l with PCall t' v => if decide (t' = t) then [v] else [] | _ => [] end).
Definition values (r : resp) : list T := match r with RPop o => option_list o | RBulk vs => vs | RPeek _ => [] end.
Definition delivered (h : list label) : list T := h ≫= (fun l => match l with CRet r => values r | _ => [] end).
(** The value of a push that has not taken effect. *)
Definition in_call (t : nat) (o : obj) : list T := match producers o !! t with Some (PCalled v) => [v] | _ => [] end.
Definition in_answer (o : obj) : list T := match consumer o with CApplied r => values r | _ => [] end.
(** The values that producer [t] contributed to a list of values with their producers. *)
Definition from (t : nat) (w : list (nat * T)) : list T := (filter (fun p => p.1 = t) w).*2.

(** Every value pushed is delivered, in an answer about to be returned, in the queue,
    or in a push that has not taken effect: once, and in the order of each
    producer's calls. *)
Definition in_order (n : nat) (h : list label) (o : obj) : Prop :=
  exists w, w.*2 = delivered h ++ in_answer o ++ content o /\ Forall (fun p => p.1 < n) w /\
    forall t, from t w ++ in_call t o = called t h.

Lemma fifo_spec_step_values l k n l' r :
  spec_step (Spec l []) (call_of k n) = Some (Spec l' [r]) -> values r ++ l' = l /\ op_of r = k.
Proof.
  destruct k; simpl.
  - intros [= <- <-]. by destruct l; simpl; rewrite ?drop_0.
  - case_bool_decide; [|done]. intros [= <- <-]. simpl. by rewrite take_drop.
  - by intros [= <- <-].
Qed.

Lemma fifo_called_app t h h' : called t (h ++ h') = called t h ++ called t h'.
Proof. apply bind_app. Qed.
Lemma fifo_delivered_app h h' : delivered (h ++ h') = delivered h ++ delivered h'.
Proof. apply bind_app. Qed.
Lemma fifo_from_app t w w' : from t (w ++ w') = from t w ++ from t w'.
Proof. unfold from. by rewrite filter_app, fmap_app. Qed.

Lemma fifo_in_call_insert t t' p o l c : t < length (producers o) ->
  in_call t' (Obj l (<[t := p]> (producers o)) c) =
  if decide (t = t') then match p with PCalled v => [v] | _ => [] end else in_call t' o.
Proof.
  intros Ht. unfold in_call. simpl. case_decide as He; [subst t'; by rewrite list_lookup_insert_eq|].
  by rewrite list_lookup_insert_ne.
Qed.

Lemma fifo_in_order_step n h o l o' :
  length (producers o) = n -> in_order n h o -> ostep o l o' ->
  length (producers o') = n /\ in_order n (h ++ l) o'.
Proof.
  intros Hn (w & Hw & Hlt & Hc) Hs.
  assert (Hbd : forall t p, producers o !! t = Some p -> t < length (producers o)) by (intros t p; apply lookup_lt_Some).
  destruct Hs as [o t v Ht|o t v Ht|o t Ht|o k Hk|o k m q' r Hk Hr|o r Hr]; simpl; rewrite ?length_insert;
    (split; [done|]); unfold in_order, in_answer in *; simpl.
  - exists w. rewrite fifo_delivered_app. simpl. rewrite app_nil_r. split_and!; [done|done|]. intros t'.
    rewrite fifo_called_app, fifo_in_call_insert by (by eapply Hbd). rewrite <-Hc. simpl. rewrite app_nil_r.
    case_decide as He; [|by rewrite app_nil_r]. subst t'. unfold in_call. rewrite Ht. by rewrite app_nil_r.
  - exists (w ++ [(t, v)]). rewrite app_nil_r. split_and!.
    + rewrite fmap_app, Hw. unfold push. simpl. by rewrite !app_assoc.
    + apply Forall_app. split; [done|]. constructor; [|done]. simpl. rewrite <-Hn. by eapply Hbd.
    + intros t'. rewrite fifo_in_call_insert, fifo_from_app, <-Hc by (by eapply Hbd). unfold from at 2.
      rewrite filter_cons. simpl. case_decide as He; simpl; [subst t'; unfold in_call; by rewrite Ht, app_nil_r|by rewrite app_nil_r].
  - exists w. rewrite fifo_delivered_app. simpl. rewrite app_nil_r. split_and!; [done|done|]. intros t'.
    rewrite fifo_called_app, fifo_in_call_insert by (by eapply Hbd). rewrite <-Hc. simpl. rewrite app_nil_r.
    case_decide as He; [|done]. subst t'. unfold in_call. by rewrite Ht.
  - exists w. rewrite fifo_delivered_app. simpl. rewrite app_nil_r. rewrite Hk in Hw. split_and!; [done|done|]. intros t'.
    rewrite fifo_called_app, <-Hc. simpl. by rewrite app_nil_r.
  - exists w. rewrite app_nil_r. destruct (fifo_spec_step_values _ _ _ _ _ Hr) as [Hv _]. rewrite Hk in Hw. simpl in Hw.
    split_and!; [by rewrite Hv|done|]. intros t'. by rewrite <-Hc.
  - exists w. rewrite fifo_delivered_app. simpl. rewrite app_nil_r. rewrite Hr in Hw. split_and!; [by rewrite <-app_assoc|done|].
    intros t'. rewrite fifo_called_app, <-Hc. simpl. by rewrite app_nil_r.
Qed.

Lemma fifo_in_order n h o : osteps (start n) h o -> in_order n h o.
Proof.
  enough (H : forall o1 h1, osteps o1 h1 o -> forall h0, length (producers o1) = n -> in_order n h0 o1 -> in_order n (h0 ++ h1) o).
  { intros Ho. apply (H _ _ Ho []); [apply length_replicate|]. exists []. split_and!; [done|constructor|].
    intros t. unfold in_call. simpl. by destruct (replicate n PReady !! t) eqn:E; [apply lookup_replicate in E as [-> _]|]. }
  induction 1 as [|o1 h1 o2 h2 o3 Hs _ IH]; intros h0 Hl Ho; [by rewrite app_nil_r|].
  destruct (fifo_in_order_step _ _ _ _ _ Hl Ho Hs). rewrite app_assoc. by apply IH.
Qed.

(** With one producer: what was delivered, then what is left, is what was pushed. *)
Lemma fifo_in_order_one h o : in_order 1 h o -> delivered h ++ in_answer o ++ content o ++ in_call 0 o = called 0 h.
Proof.
  intros (w & Hw & Hlt & Hc). rewrite <-Hc. assert (Hf : from 0 w = w.*2).
  { unfold from. clear -Hlt. induction Hlt as [|[t v] w Ht _ IH]; [done|]. simpl in Ht.
    rewrite filter_cons_True by (simpl; lia). by rewrite !fmap_cons, IH. }
  by rewrite Hf, Hw, !app_assoc.
Qed.

(** Taking effect and returning in one step. *)
Lemma fifo_push_return o t v :
  producers o !! t = Some (PCalled v) ->
  osteps o [PRet t] (Obj (push v (content o)) (<[t := PReady]> (producers o)) (consumer o)).
Proof.
  intros Ht. eapply osteps_eq; [eapply osteps_two; [by apply o_add|apply o_pret]|done|].
  - simpl. apply list_lookup_insert_eq. by eapply lookup_lt_Some.
  - simpl. by rewrite list_insert_insert_eq.
Qed.
Lemma fifo_answer o k n l r :
  consumer o = CCalled k -> spec_step (Spec (content o) []) (call_of k n) = Some (Spec l [r]) ->
  osteps o [CRet r] (Obj l (producers o) CReady).
Proof. intros Hk Hr. eapply osteps_eq; [eapply osteps_two; [by eapply o_take|by apply o_cret]|done|done]. Qed.

(** ** Linearizability by simulation

    [vis] is what a step of the queue shows to its clients.  If every step is matched
    by steps of the atomic object that show the same, every history of the queue is a
    history of the atomic object. *)
Section simulation.
Context {S E : Type} (step : S -> E -> option S) (vis : S -> E -> S -> list label).

Context (I good : S -> Prop) (view : S -> obj).
Context (Hgood : forall s e s', step s e = Some s' -> good s' -> good s).
Context (Hinv : forall s e s', good s -> I s -> step s e = Some s' -> I s').
Context (Hsim : forall s e s', good s -> I s -> step s e = Some s' -> osteps (view s) (vis s e s') (view s')).

Lemma fifo_simulation es s s' :
  I s -> run step es s = Some s' -> good s' -> osteps (view s) (history_of step vis es s) (view s').
Proof.
  intros HI Hr Hg. enough (good s /\ osteps (view s) (history_of step vis es s) (view s')) by naive_solver.
  assert (Hback : forall es s1, run step es s1 = Some s' -> good s1).
  { intros es1. induction es1 as [|e es1 IH]; intros s1 H1; simplify_eq/=; [done|].
    destruct (step s1 e) as [s2|] eqn:Hs; [|done]. by eapply Hgood, IH. }
  split; [by eapply Hback|]. revert s HI Hr. induction es as [|e es IH]; intros s HI Hr; simplify_eq/=; [constructor|].
  destruct (step s e) as [s1|] eqn:Hs; [|done]. assert (good s) by (by eapply Hgood, Hback).
  eapply osteps_trans; [by apply Hsim|]. apply IH; [by eapply Hinv|done].
Qed.
End simulation.

End fifo.
End Fifo.
