(* ===== verification/Blocks.v ===== *)
(** * Blocks: index arithmetic of the block-list queues

    The queues of [may_queue/] number their elements with [usize] indices and keep
    them in blocks of [2 ^ sh] slots.  These lemmas relate the machine arithmetic
    on indices to the numbers they stand for. *)

From stdpp Require Import base numbers list.
From Stdlib Require Import ZArith Lia ZifyNat.
From S2P Require Import Prelude.

#[local] Ltac Zify.zify_post_hook ::= Z.div_mod_to_equations.

Module Blk.

Lemma add_nat x n :
  (Z.of_nat x + Z.of_nat n < Word.modulus)%Z -> Word.add (Z.of_nat x) (Z.of_nat n) = Z.of_nat (x + n).
Proof. intros. unfold Word.add. rewrite Word.wrap_small; [lia|]. unfold Word.is_usize, Word.usize_max. lia. Qed.

Lemma sub_nat x y : x <= y -> (Z.of_nat y < Word.modulus)%Z -> Word.sub (Z.of_nat y) (Z.of_nat x) = Z.of_nat (y - x).
Proof. intros. unfold Word.sub. rewrite Word.wrap_small; [lia|]. unfold Word.is_usize, Word.usize_max. lia. Qed.

Section shift.
Context (sh : nat).

Lemma ones_size : Z.shiftl 1 (Z.of_nat sh) = Z.of_nat (2 ^ sh).
Proof. rewrite Z.shiftl_1_l. by rewrite Nat2Z.inj_pow. Qed.

(** The offset of an index in its block. *)
Lemma mask_nat x : Z.land (Z.of_nat x) (Z.ones (Z.of_nat sh)) = Z.of_nat (x mod 2 ^ sh).
Proof. rewrite Z.land_ones by lia. by rewrite Nat2Z.inj_mod, Nat2Z.inj_pow. Qed.

(** The end of the block of an index. *)
Lemma block_end_nat x :
  (Z.of_nat x + Z.of_nat (2 ^ sh) < Word.modulus)%Z ->
  Z.ldiff (Word.add (Z.of_nat x) (Z.of_nat (2 ^ sh))) (Z.ones (Z.of_nat sh)) = Z.of_nat (2 ^ sh * S (x / 2 ^ sh)).
Proof.
  intros Hx. rewrite add_nat by lia. rewrite Z.ldiff_ones_r by lia. rewrite Z.shiftr_div_pow2, Z.shiftl_mul_pow2 by lia.
  change 2%Z with (Z.of_nat 2). rewrite <-(Nat2Z.inj_pow 2 sh), <-Nat2Z.inj_div, <-Nat2Z.inj_mul. f_equal.
  replace (x + 2 ^ sh) with (x + 1 * 2 ^ sh) by lia. rewrite Nat.div_add by (apply Nat.pow_nonzero; lia). lia.
Qed.
End shift.

End Blk.
