(* ===== verification/SpscQueue.v ===== *)
(** * SpscQueue: the unbounded single-producer single-consumer queue

    [may_queue/src/spsc.rs]: a linked list of blocks of 32 slots.  The producer and
    the consumer are interleaved one shared access at a time; an observer calls
    [len].  A run faults when it reads a freed or null block or an empty slot, or
    overwrites a value nobody has taken.  With [inner_cache] (the default feature)
    the producer reuses the blocks the consumer has left; without it the consumer
    frees them. *)

From stdpp Require Import base numbers list gmap.
From Stdlib Require Import ZArith Lia ZifyNat.
From S2P Require Import Prelude Blocks Fifo.

#[local] Ltac Zify.zify_post_hook ::= Z.div_mod_to_equations.
#[local] Arguments Nat.div : simpl never.
#[local] Arguments Nat.modulo : simpl never.
#[local] Arguments Nat.mul : simpl never.

Module Spsc.

Definition BLOCK_SHIFT : Z := 5.
Definition BLOCK_SIZE : Z := Z.shiftl 1 BLOCK_SHIFT.
Definition BLOCK_MASK : Z := BLOCK_SIZE - 1.

Definition bulk_end (start end_ : Z) : Z := Z.min end_ (Z.ldiff (Word.add start BLOCK_SIZE) BLOCK_MASK).

Import Fifo.

Section queue.
Context {T : Type} (inner_cache : bool).
#[local] Abbreviation resp := (@Fifo.resp T).
#[local] Abbreviation obj := (@Fifo.obj T).
#[local] Abbreviation pstatus := (@Fifo.pstatus T).
#[local] Abbreviation cstatus := (@Fifo.cstatus T).
#[local] Abbreviation label := (@Fifo.label T).

(** ** Blocks.  A slot is [None] when it holds no value: never written, or its
    value was moved out. *)
Record block := Block { data : list (option T); next : option nat }.

Definition new_block : block := Block (replicate (Z.to_nat BLOCK_SIZE) None) None.
Definition slot (index : Z) : nat := Z.to_nat (Z.land index BLOCK_MASK).

Definition set (b : block) (index : Z) (v : T) : option block :=
  match data b !! slot index with
  | Some None => Some (Block (<[slot index := Some v]> (data b)) (next b))
  | _ => None
  end.
Definition peek (b : block) (index : Z) : option T := mjoin (data b !! slot index).
Definition get (b : block) (id : nat) : option (T * block) :=
  match data b !! id with
  | Some (Some v) => Some (v, Block (<[id := None]> (data b)) (next b))
  | _ => None
  end.
Fixpoint copy (b : block) (id : nat) (len : nat) : option (list T * block) :=
  match len with
  | O => Some ([], b)
  | S n => '(v, b) ← get b id; '(vs, b) ← copy b (S id) n; Some (v :: vs, b)
  end.
Definition copy_to_bulk (b : block) (start end_ : Z) : option (list T * block) :=
  copy b (slot start) (Z.to_nat (Word.sub end_ start)).

(** ** The queue *)
Record position := Position { index : Z; block_of : nat }.


(** The producer is about to write the value, to get a new block, to link it, to
    publish the new index. *)
Inductive ppc := PIdle | PSet (v : T) | PAlloc (v : T) | PLink (v : T) (b : nat) | PIndex (v : T).
(** The consumer is about to load the tail index, to read the slots, to move to the
    next block, to publish the new index. *)
Inductive cpc :=
  | CIdle | CLoad (k : op) | CRead (k : op) (push_index : Z)
  | CNext (r : resp) (new_index : Z) | CCommit (r : resp) (new_index : Z) | CDone (r : resp).
Inductive lpc := LIdle | LHead | LTail (pop_index : Z) | LDone (n : Z).

(** The history: the values pushed, how many were popped, the consumer's answers,
    the address of every block in the order they were linked, and the first of
    them that is still in use. *)
Record history := History { hist : list T; gone : nat; outs : list resp; chain : list nat; base : nat }.

Record state := St {
  heap : gmap nat block; fresh : nat;
  tail : position; head : position; first : nat; last_head : nat;
  pp : ppc; cp : cpc; lp : lpc; fault : bool; gh : history
}.

Definition init : state :=
  St {[ 0 := new_block ]} 1 (Position 0 0) (Position 0 0) 0 0 PIdle CIdle LIdle false (History [] 0 [] [0] 0).

Definition set_heap (m : gmap nat block) (s : state) : state :=
  St m (fresh s) (tail s) (head s) (first s) (last_head s) (pp s) (cp s) (lp s) (fault s) (gh s).
Definition set_fresh (n : nat) (s : state) : state :=
  St (heap s) n (tail s) (head s) (first s) (last_head s) (pp s) (cp s) (lp s) (fault s) (gh s).
Definition set_tail (p : position) (s : state) : state :=
  St (heap s) (fresh s) p (head s) (first s) (last_head s) (pp s) (cp s) (lp s) (fault s) (gh s).
Definition set_head (p : position) (s : state) : state :=
  St (heap s) (fresh s) (tail s) p (first s) (last_head s) (pp s) (cp s) (lp s) (fault s) (gh s).
Definition set_cache (f l : nat) (s : state) : state :=
  St (heap s) (fresh s) (tail s) (head s) f l (pp s) (cp s) (lp s) (fault s) (gh s).
Definition set_pp (p : ppc) (s : state) : state :=
  St (heap s) (fresh s) (tail s) (head s) (first s) (last_head s) p (cp s) (lp s) (fault s) (gh s).
Definition set_cp (c : cpc) (s : state) : state :=
  St (heap s) (fresh s) (tail s) (head s) (first s) (last_head s) (pp s) c (lp s) (fault s) (gh s).
Definition set_lp (l : lpc) (s : state) : state :=
  St (heap s) (fresh s) (tail s) (head s) (first s) (last_head s) (pp s) (cp s) l (fault s) (gh s).
Definition set_gh (g : history) (s : state) : state :=
  St (heap s) (fresh s) (tail s) (head s) (first s) (last_head s) (pp s) (cp s) (lp s) (fault s) g.
Definition faulted (s : state) : state :=
  St (heap s) (fresh s) (tail s) (head s) (first s) (last_head s) (pp s) (cp s) (lp s) true (gh s).

Definition on_block {A} (a : nat) (f : block -> option A) (k : A -> state) (s : state) : state :=
  match heap s !! a ≫= f with Some x => k x | None => faulted s end.

(** ** [push] *)

(** The block [first] is used again: [first] moves to its successor. *)
Definition reuse (v : T) (s : state) : state :=
  on_block (first s) next (fun n =>
    let g := gh s in
    set_gh (History (hist g) (gone g) (outs g) (chain g) (S (base g)))
      (set_pp (PLink v (first s)) (set_cache n (last_head s) s))) s.
Definition new_node (v : T) (s : state) : state :=
  set_pp (PLink v (fresh s)) (set_fresh (S (fresh s)) (set_heap (<[fresh s := new_block]> (heap s)) s)).
Definition alloc_node (v : T) (s : state) : state :=
  if decide (first s = last_head s) then
    let s' := set_cache (first s) (block_of (head s)) s in
    if decide (first s' = last_head s') then new_node v s' else reuse v s'
  else reuse v s.

Definition step_push (s : state) : option state :=
  match pp s with
  | PSet v =>
      let push_index := index (tail s) in
      Some (on_block (block_of (tail s)) (fun b => set b push_index v) (fun b =>
        let s' := set_heap (<[block_of (tail s) := b]> (heap s)) s in
        set_pp (if (Z.land (Word.add push_index 1) BLOCK_MASK =? 0)%Z then PAlloc v else PIndex v) s') s)
  | PAlloc v => Some (if inner_cache then alloc_node v s else new_node v s)
  | PLink v n =>
      Some (on_block (block_of (tail s)) Some (fun b =>
        let g := gh s in
        set_gh (History (hist g) (gone g) (outs g) (chain g ++ [n]) (base g))
          (set_pp (PIndex v) (set_tail (Position (index (tail s)) n)
            (set_heap (<[block_of (tail s) := Block (data b) (Some n)]> (heap s)) s)))) s)
  | PIndex v =>
      let g := gh s in
      Some (set_gh (History (hist g ++ [v]) (gone g) (outs g) (chain g) (base g))
        (set_pp PIdle (set_tail (Position (Word.add (index (tail s)) 1) (block_of (tail s))) s)))
  | PIdle => None
  end.

(** ** [pop], [bulk_pop] and [peek] *)

Definition respond (r : resp) (n : nat) (s : state) : state :=
  let g := gh s in
  set_gh (History (hist g) (gone g + n) (outs g ++ [r]) (chain g) (base g)) (set_cp (CDone r) s).

(** After the slots were read: does the consumer leave the block? *)
Definition advance (r : resp) (b : block) (new_index : Z) (s : state) : state :=
  set_cp (if (Z.land new_index BLOCK_MASK =? 0)%Z then CNext r new_index else CCommit r new_index)
    (set_heap (<[block_of (head s) := b]> (heap s)) s).

Definition step_pop (s : state) : option state :=
  match cp s with
  | CLoad k =>
      Some (if (index (head s) =? index (tail s))%Z then respond (empty_resp k) 0 s
            else set_cp (CRead k (index (tail s))) s)
  | CRead k push_index =>
      let i := index (head s) in
      Some (match k with
            | OPop =>
                on_block (block_of (head s)) (fun b => get b (slot i))
                  (fun '(v, b) => advance (RPop (Some v)) b (Word.add i 1) s) s
            | OBulk =>
                on_block (block_of (head s)) (fun b => copy_to_bulk b i (bulk_end i push_index))
                  (fun '(vs, b) => advance (RBulk vs) b (bulk_end i push_index) s) s
            | OPeek => on_block (block_of (head s)) (fun b => peek b i) (fun v => respond (RPeek (Some v)) 0 s) s
            end)
  | CNext r new_index =>
      Some (on_block (block_of (head s)) next (fun n =>
        let g := gh s in
        let s' := set_cp (CCommit r new_index) (set_head (Position (index (head s)) n) s) in
        if inner_cache then s'
        else set_gh (History (hist g) (gone g) (outs g) (chain g) (S (base g)))
               (set_heap (delete (block_of (head s)) (heap s)) s')) s)
  | CCommit r new_index =>
      Some (respond r (Z.to_nat (Word.sub new_index (index (head s))))
        (set_head (Position new_index (block_of (head s))) s))
  | _ => None
  end.

(** ** [len] *)
Definition step_len (s : state) : option state :=
  match lp s with
  | LHead => Some (set_lp (LTail (index (head s))) s)
  | LTail pop_index => Some (set_lp (LDone (Word.sub (index (tail s)) pop_index)) s)
  | _ => None
  end.

Inductive event := Push (v : T) | Pop | BulkPop | Peek | Len | P | C | L.

Definition idle (c : cpc) : bool := match c with CIdle | CDone _ => true | _ => false end.

Definition step (s : state) (e : event) : option state :=
  if fault s then None else
  match e with
  | Push v => match pp s with PIdle => Some (set_pp (PSet v) s) | _ => None end
  | Pop => if idle (cp s) then Some (set_cp (CLoad OPop) s) else None
  | BulkPop => if idle (cp s) then Some (set_cp (CLoad OBulk) s) else None
  | Peek => if idle (cp s) then Some (set_cp (CLoad OPeek) s) else None
  | Len => match lp s with LIdle | LDone _ => Some (set_lp LHead s) | _ => None end
  | P => step_push s
  | C => step_pop s
  | L => step_len s
  end.

(** ** Abstraction *)

(** The atomic object a state stands for: a push takes effect when the new index is
    published, an answer with a value when the new head is, and an empty answer and
    a peek when they are read. *)
Definition push_status (p : ppc) : pstatus :=
  match p with PIdle => PReady | PSet v | PAlloc v | PLink v _ | PIndex v => PCalled v end.
Definition pop_status (c : cpc) : cstatus :=
  match c with
  | CIdle | CDone _ => CReady
  | CLoad k | CRead k _ => CCalled k
  | CNext r _ | CCommit r _ => CCalled (op_of r)
  end.
Definition view (s : state) : obj :=
  Obj (drop (gone (gh s)) (hist (gh s))) [push_status (pp s)] (pop_status (cp s)).

(** What a step shows: the calls, and the answer of the consumer with the step that
    returns it. *)
Definition vis (s : state) (e : event) (s' : state) : list label :=
  match e with
  | Push v => [PCall 0 v]
  | P => match pp s' with PIdle => [PRet 0] | _ => [] end
  | Pop => [CCall OPop]
  | BulkPop => [CCall OBulk]
  | Peek => [CCall OPeek]
  | C => match cp s' with CDone r => [CRet r] | _ => [] end
  | Len | L => []
  end.

(** ** Invariant *)

Definition pushed (s : state) : nat := length (hist (gh s)).
(** The values whose slot is written. *)
Definition written (s : state) : list T :=
  hist (gh s) ++ match pp s with PAlloc v | PLink v _ | PIndex v => [v] | _ => [] end.
(** The values whose slot was read. *)
Definition taken (s : state) : nat :=
  match cp s with CNext _ n | CCommit _ n => Z.to_nat n | _ => gone (gh s) end.
(** The numbers of the blocks of the tail and of the head. *)
Definition tail_no (s : state) : nat := match pp s with PIndex _ => S (pushed s) | _ => pushed s end / 32.
Definition head_no (s : state) : nat := match cp s with CCommit _ n => Z.to_nat n | _ => gone (gh s) end / 32.

(** The slot for value number [x]. *)
Definition content (s : state) (x : nat) : option T :=
  if bool_decide (taken s <= x) then written s !! x else None.

Definition block_ok (s : state) (k : nat) : Prop :=
  exists a b, chain (gh s) !! k = Some a /\ heap s !! a = Some b /\ length (data b) = 32 /\
    (forall i, i < 32 -> data b !! i = Some (content s (32 * k + i))) /\
    (k < tail_no s -> next b = chain (gh s) !! S k).

(** A response that takes the values from [i] to [j]. *)
Definition resp_ok (s : state) (r : resp) (j : Z) : Prop :=
  (Z.of_nat (gone (gh s)) < j <= Z.of_nat (pushed s))%Z /\
  let vs := take (Z.to_nat j - gone (gh s)) (drop (gone (gh s)) (hist (gh s))) in
  match r with RPop o => Z.to_nat j = S (gone (gh s)) /\ option_list o = vs | RBulk l => l = vs | RPeek _ => False end.

Definition pp_ok (s : state) : Prop :=
  match pp s with
  | PAlloc _ => S (pushed s) mod 32 = 0
  | PLink _ n =>
      S (pushed s) mod 32 = 0 /\ (forall k, base (gh s) <= k -> chain (gh s) !! k <> Some n) /\
      exists b, heap s !! n = Some b /\ data b = replicate 32 None
  | _ => True
  end.

Definition cp_ok (s : state) : Prop :=
  match cp s with
  | CRead _ e => (Z.of_nat (gone (gh s)) < e <= Z.of_nat (pushed s))%Z
  | CNext r n => resp_ok s r n /\ Z.to_nat n = 32 * S (gone (gh s) / 32)
  | CCommit r n => resp_ok s r n
  | _ => True
  end.

Definition cache_ok (s : state) : Prop :=
  if inner_cache then
    chain (gh s) !! base (gh s) = Some (first s) /\
    exists k, base (gh s) <= k <= head_no s /\ chain (gh s) !! k = Some (last_head s)
  else base (gh s) = head_no s.

Record inv (s : state) : Prop := {
  iv_fault : fault s = false;
  iv_tail : tail s = Position (Z.of_nat (pushed s)) (default 0 (chain (gh s) !! tail_no s));
  iv_head : head s = Position (Z.of_nat (gone (gh s))) (default 0 (chain (gh s) !! head_no s));
  iv_gone : gone (gh s) <= pushed s;
  iv_base : base (gh s) <= head_no s;
  iv_chain : length (chain (gh s)) = S (tail_no s);
  iv_inj : forall j k a, base (gh s) <= j -> base (gh s) <= k -> chain (gh s) !! j = Some a -> chain (gh s) !! k = Some a -> j = k;
  iv_block : forall k, base (gh s) <= k <= tail_no s -> block_ok s k;
  iv_dom : forall a b, heap s !! a = Some b ->
    a < fresh s /\ ((exists k, base (gh s) <= k /\ chain (gh s) !! k = Some a) \/ exists v, pp s = PLink v a);
  iv_cache : cache_ok s;
  iv_pp : pp_ok s;
  iv_cp : cp_ok s;
  iv_lp : match lp s with LTail h => (0 <= h <= Z.of_nat (gone (gh s)))%Z | LDone n => (0 <= n <= Z.of_nat (pushed s))%Z | _ => True end
}.

(** Fewer values than the indices can count. *)
Definition bounded (s : state) : Prop := (Z.of_nat (pushed s) + 64 <= Word.modulus)%Z.

(** ** Index arithmetic *)

Lemma spsc_slot_nat x : slot (Z.of_nat x) = x mod 32.
Proof. unfold slot. change BLOCK_MASK with (Z.ones (Z.of_nat 5)). rewrite Blk.mask_nat. apply Nat2Z.id. Qed.

Lemma spsc_mask_zero x : (Z.land (Z.of_nat x) BLOCK_MASK =? 0)%Z = bool_decide (x mod 32 = 0).
Proof.
  change BLOCK_MASK with (Z.ones (Z.of_nat 5)). rewrite Blk.mask_nat. change (2 ^ 5) with 32.
  case_bool_decide; [apply Z.eqb_eq|apply Z.eqb_neq]; lia.
Qed.

Lemma spsc_bulk_end_nat x y :
  (Z.of_nat x + 32 < Word.modulus)%Z -> bulk_end (Z.of_nat x) (Z.of_nat y) = Z.of_nat (Nat.min y (32 * S (x / 32))).
Proof.
  intros Hx. unfold bulk_end. change BLOCK_SIZE with (Z.of_nat (2 ^ 5)). change BLOCK_MASK with (Z.ones (Z.of_nat 5)).
  rewrite Blk.block_end_nat by (change (2 ^ 5) with 32; lia). change (2 ^ 5) with 32. lia.
Qed.

(** ** Blocks *)

Lemma spsc_set_spec b x v :
  length (data b) = 32 -> data b !! (x mod 32) = Some None ->
  set b (Z.of_nat x) v = Some (Block (<[x mod 32 := Some v]> (data b)) (next b)).
Proof. intros _ H. unfold set. by rewrite spsc_slot_nat, H. Qed.

Lemma spsc_copy_spec vs b id :
  (forall i v, vs !! i = Some v -> data b !! (id + i) = Some (Some v)) ->
  exists b', copy b id (length vs) = Some (vs, b') /\ next b' = next b /\ length (data b') = length (data b) /\
    forall j, data b' !! j = if bool_decide (id <= j < id + length vs) then Some None else data b !! j.
Proof.
  revert b id. induction vs as [|v vs IH]; intros b id Hvs; simpl.
  - exists b. split_and!; [done..|]. intros j. rewrite bool_decide_eq_false_2; [done|lia].
  - unfold get. pose proof (Hvs 0 v eq_refl) as Hv. rewrite Nat.add_0_r in Hv. rewrite Hv. simpl.
    destruct (IH (Block (<[id:=None]> (data b)) (next b)) (S id)) as (b' & -> & Hn & Hl & Hd).
    { intros i w Hi. simpl. rewrite list_lookup_insert_ne by lia. rewrite <-(Hvs (S i) w Hi). f_equal. lia. }
    exists b'. simpl in Hn, Hl, Hd. rewrite length_insert in Hl. split_and!; [done..|].
    intros j. rewrite Hd. apply lookup_lt_Some in Hv.
    destruct (decide (j = id)) as [->|].
    + rewrite bool_decide_eq_false_2, bool_decide_eq_true_2, list_lookup_insert_eq by lia. done.
    + rewrite list_lookup_insert_ne by done. repeat case_bool_decide; done || lia.
Qed.

(** ** Preservation *)

Lemma spsc_block_ext s s' k :
  chain (gh s') !! k = chain (gh s) !! k -> (forall a, chain (gh s) !! k = Some a -> heap s' !! a = heap s !! a) ->
  (forall i, i < 32 -> content s' (32 * k + i) = content s (32 * k + i)) ->
  (k < tail_no s' -> k < tail_no s /\ chain (gh s') !! S k = chain (gh s) !! S k) -> block_ok s k -> block_ok s' k.
Proof.
  intros Hc Hh Hcon Hn (a & b & Ha & Hb & Hl & Hd & Hnx). exists a, b. rewrite Hc, (Hh a Ha). split_and!; try done.
  - intros i Hi. by rewrite Hcon, Hd.
  - intros [? ->]%Hn. by apply Hnx.
Qed.

Lemma spsc_content_ext s s' x : taken s' = taken s -> written s' = written s -> content s' x = content s x.
Proof. unfold content. by intros -> ->. Qed.

Lemma spsc_resp_ok_mono s s' r j :
  gone (gh s') = gone (gh s) -> (exists l, hist (gh s') = hist (gh s) ++ l) -> resp_ok s r j -> resp_ok s' r j.
Proof.
  intros Hg [l Hl] [Hj Hr]. unfold resp_ok, pushed in *. rewrite Hg, Hl, length_app.
  split; [lia|]. rewrite drop_app_le by lia. rewrite take_app_le; [done|]. rewrite length_drop. lia.
Qed.

Lemma spsc_taken_pushed s : inv s -> gone (gh s) <= taken s <= pushed s.
Proof.
  intros Hi. pose proof (iv_gone _ Hi). pose proof (iv_cp _ Hi) as Hc. unfold taken, cp_ok, resp_ok in *.
  destruct (cp s); intuition lia.
Qed.

Lemma spsc_head_tail s : inv s -> head_no s <= tail_no s.
Proof.
  intros Hi. pose proof (spsc_taken_pushed _ Hi). pose proof (iv_gone _ Hi). unfold head_no, tail_no, taken in *.
  destruct (cp s), (pp s); apply Nat.Div0.div_le_mono; lia.
Qed.

Lemma spsc_tail_block s :
  inv s -> exists b, chain (gh s) !! tail_no s = Some (block_of (tail s)) /\ heap s !! block_of (tail s) = Some b /\
    length (data b) = 32 /\ forall i, i < 32 -> data b !! i = Some (content s (32 * tail_no s + i)).
Proof.
  intros Hi. pose proof (spsc_head_tail _ Hi). pose proof (iv_base _ Hi).
  destruct (iv_block _ Hi (tail_no s)) as (a & b & Ha & Hb & ? & ? & _); [lia|].
  rewrite (iv_tail _ Hi). simpl. rewrite Ha. simpl. eauto.
Qed.

Lemma spsc_head_block s :
  inv s -> exists b, chain (gh s) !! head_no s = Some (block_of (head s)) /\ heap s !! block_of (head s) = Some b /\
    length (data b) = 32 /\ (forall i, i < 32 -> data b !! i = Some (content s (32 * head_no s + i))) /\
    (head_no s < tail_no s -> next b = chain (gh s) !! S (head_no s)).
Proof.
  intros Hi. pose proof (spsc_head_tail _ Hi). pose proof (iv_base _ Hi).
  destruct (iv_block _ Hi (head_no s)) as (a & b & Ha & Hb & ? & ? & ?); [lia|].
  rewrite (iv_head _ Hi). simpl. rewrite Ha. simpl. eauto 8.
Qed.

(** Only the program counters move. *)
Lemma spsc_inv_pc s p c l :
  inv s ->
  let s' := set_pp p (set_cp c (set_lp l s)) in
  taken s' = taken s -> written s' = written s -> tail_no s' = tail_no s -> head_no s' = head_no s ->
  (forall v a, pp s = PLink v a -> exists v', p = PLink v' a) -> pp_ok s' -> cp_ok s' ->
  match l with LTail h => (0 <= h <= Z.of_nat (gone (gh s)))%Z | LDone n => (0 <= n <= Z.of_nat (pushed s))%Z | _ => True end ->
  inv s'.
Proof.
  intros Hi s' H1 H2 H3 H4 Hlink Hpp Hcp Hlp. pose proof Hi as [].
  split; unfold cache_ok; rewrite ?H3, ?H4; try done.
  - intros k Hk. eapply (spsc_block_ext s); simpl; [done|done| |by rewrite H3|by auto].
    intros j _. by apply spsc_content_ext.
  - intros a b Hb. destruct (iv_dom0 a b Hb) as (? & [?|(v & Hv)]); [by auto|].
    split; [done|right]. by eapply Hlink.
Qed.

Lemma spsc_step_len_inv s s' : bounded s -> inv s -> step_len s = Some s' -> inv s'.
Proof.
  intros Hb Hi Hs. unfold step_len in Hs. pose proof (iv_gone _ Hi) as Hg. pose proof (iv_lp _ Hi) as Hl.
  destruct (lp s) as [| |h|] eqn:Hlp; simplify_eq.
  - apply (spsc_inv_pc s (pp s) (cp s) _ Hi); try done; [by eauto|apply Hi|apply Hi|].
    rewrite (iv_head _ Hi). simpl. lia.
  - apply (spsc_inv_pc s (pp s) (cp s) _ Hi); try done; [by eauto|apply Hi|apply Hi|].
    rewrite (iv_tail _ Hi). simpl. unfold bounded in Hb. unfold Word.sub. rewrite Word.wrap_small; [lia|].
    unfold Word.is_usize, Word.usize_max. lia.
Qed.

Lemma spsc_fault_free {A} a (f : block -> option A) k s b x :
  heap s !! a = Some b -> f b = Some x -> on_block a f k s = k x.
Proof. unfold on_block. intros -> Hf. simpl. by rewrite Hf. Qed.

Lemma spsc_step_set_inv s s' v : bounded s -> inv s -> pp s = PSet v -> step_push s = Some s' -> inv s'.
Proof.
  intros Hb Hi Hp Hs. destruct (spsc_tail_block _ Hi) as (b & Hch & Hbl & Hlen & Hdat). pose proof (spsc_taken_pushed _ Hi) as Ht.
  unfold step_push in Hs. rewrite Hp in Hs. assert (Htn : tail_no s = pushed s / 32) by (unfold tail_no; by rewrite Hp).
  assert (Hw : written s = hist (gh s)) by (unfold written; rewrite Hp; apply app_nil_r).
  assert (Hnew : content s (pushed s) = None).
  { unfold content. rewrite Hw. case_bool_decide; [|done]. apply lookup_ge_None_2. done. }
  assert (Hidx : index (tail s) = Z.of_nat (pushed s)) by (by rewrite (iv_tail _ Hi)).
  assert (Hset : set b (index (tail s)) v = Some (Block (<[pushed s mod 32 := Some v]> (data b)) (next b))).
  { rewrite Hidx. apply spsc_set_spec; [done|]. rewrite Hdat by lia. rewrite Htn. do 2 f_equal. rewrite <-Hnew. f_equal. lia. }
  rewrite (spsc_fault_free _ _ _ _ _ _ Hbl Hset), Hidx in Hs. change 1%Z with (Z.of_nat 1) in Hs.
  unfold bounded in Hb. rewrite Blk.add_nat, spsc_mask_zero in Hs by lia. injection Hs as <-.
  set (s' := set_pp _ _). assert (Hw' : written s' = hist (gh s) ++ [v]) by (unfold written, s'; simpl; by case_bool_decide).
  assert (Htn' : tail_no s' = tail_no s).
  { rewrite Htn. unfold tail_no, s', pushed; simpl. case_bool_decide; [done|]. unfold pushed in *. lia. }
  pose proof Hi as []. split; unfold cache_ok; rewrite ?Htn'; try done.
  - intros k Hk. change (base (gh s) <= k <= tail_no s) in Hk. destruct (decide (k = tail_no s)) as [->|Hne].
    + exists (block_of (tail s)), (Block (<[pushed s mod 32 := Some v]> (data b)) (next b)). simpl.
      rewrite lookup_insert_eq, length_insert, Htn'. split_and!; [done..| |lia].
      intros i Hi'. unfold content. rewrite Hw'. change (taken s') with (taken s).
      destruct (decide (i = pushed s mod 32)) as [->|Hni].
      * rewrite list_lookup_insert_eq by lia. replace (32 * tail_no s + pushed s mod 32) with (pushed s) by lia.
        rewrite bool_decide_eq_true_2 by lia. f_equal. symmetry. by apply list_lookup_middle.
      * rewrite list_lookup_insert_ne by done. rewrite Hdat by done. f_equal. unfold content. rewrite Hw.
        case_bool_decide; [|done]. rewrite lookup_app. destruct (hist (gh s) !! _) eqn:Hx; [done|].
        apply lookup_ge_None_1 in Hx. symmetry. apply lookup_ge_None_2. simpl.
        assert (32 * tail_no s + i <> pushed s) by lia. fold (pushed s) in *. lia.
    + eapply (spsc_block_ext s); simpl; [done| | |by rewrite Htn'|by auto].
      * intros a Ha. rewrite lookup_insert_ne; [done|]. intros <-. apply Hne. eapply iv_inj0; try done; lia.
      * intros i Hi'. unfold content. rewrite Hw, Hw'. change (taken s') with (taken s).
        case_bool_decide; [|done]. rewrite lookup_app_l; [done|]. fold (pushed s). lia.
  - simpl. intros a c [(<- & <-)|[_ Ha]]%lookup_insert_Some; [|].
    + destruct (iv_dom0 _ _ Hbl) as (? & [?|[v' Hv']]); [by auto|congruence].
    + destruct (iv_dom0 _ _ Ha) as (? & [?|[v' Hv']]); [by auto|congruence].
  - unfold pp_ok, s'. simpl. case_bool_decide; [|done]. simpl. unfold pushed in *. simpl. lia.
Qed.

(** A state in which the producer is about to get a block: the tail's block is full. *)
Lemma spsc_alloc_facts s v : inv s -> pp s = PAlloc v -> S (pushed s) mod 32 = 0 /\ tail_no s = pushed s / 32.
Proof. intros Hi Hp. pose proof (iv_pp _ Hi) as H. unfold pp_ok in H. unfold tail_no. rewrite Hp in *. done. Qed.

Lemma spsc_new_node_inv s v : inv s -> pp s = PAlloc v -> inv (new_node v s).
Proof.
  intros Hi Hp. destruct (spsc_alloc_facts _ _ Hi Hp) as [Hm Htn]. pose proof Hi as [].
  assert (Hf : forall k a, base (gh s) <= k <= tail_no s -> chain (gh s) !! k = Some a -> a < fresh s).
  { intros k a Hk Ha. destruct (iv_block0 k Hk) as (a' & b & Ha' & Hb & _). simplify_eq. by destruct (iv_dom0 _ _ Hb). }
  split; unfold cache_ok; rewrite ?Hp in *; try done.
  - unfold tail_no in *. simpl. by rewrite Hp in *.
  - unfold tail_no in *. simpl. by rewrite Hp in *.
  - intros k Hk. assert (Htn' : tail_no (new_node v s) = tail_no s) by (unfold tail_no; simpl; by rewrite Hp).
    rewrite Htn' in Hk. simpl in Hk. eapply (spsc_block_ext s); simpl; [done| | |by rewrite Htn'|by auto].
    + intros a Ha. rewrite lookup_insert_ne; [done|]. specialize (Hf _ _ Hk Ha). lia.
    + intros j _. apply spsc_content_ext; [done|]. unfold written. simpl. by rewrite Hp.
  - simpl. intros a b [(<- & <-)|[_ Ha]]%lookup_insert_Some; [split; [lia|right; by eauto]|].
    destruct (iv_dom0 _ _ Ha) as (? & [?|[v' ?]]); [|congruence]. split; [lia|by left].
  - unfold pp_ok. simpl. split_and!; [done| |].
    + intros k Hk Ha. assert (k <= tail_no s) by (apply lookup_lt_Some in Ha; lia). specialize (Hf _ _ ltac:(done) Ha). lia.
    + exists new_block. by rewrite lookup_insert_eq.
Qed.

(** The block [first] has been left by the consumer. *)
Lemma spsc_reuse_inv s v :
  inner_cache = true -> inv s -> pp s = PAlloc v -> first s <> last_head s -> inv (reuse v s).
Proof.
  intros Hc Hi Hp Hne. destruct (spsc_alloc_facts _ _ Hi Hp) as [Hm Htn]. pose proof (spsc_head_tail _ Hi) as Hht.
  pose proof Hi as []. unfold cache_ok in iv_cache0. rewrite Hc in iv_cache0.
  destruct iv_cache0 as (Hfst & k & Hk & Hlast).
  assert (Hk0 : base (gh s) <> k) by congruence.
  assert (Hlt : base (gh s) < head_no s) by lia.
  destruct (iv_block0 (base (gh s))) as (a & b & Ha & Hb & Hlen & Hdat & Hnx); [lia|].
  rewrite Hfst in Ha. injection Ha as <-.
  destruct (chain (gh s) !! S (base (gh s))) as [n|] eqn:Hn; [|apply lookup_ge_None_1 in Hn; lia].
  unfold reuse. rewrite (spsc_fault_free _ _ _ _ _ n Hb) by (apply Hnx; lia).
  set (s' := set_gh _ _). assert (Htn' : tail_no s' = tail_no s) by (unfold tail_no, s'; simpl; by rewrite Hp).
  assert (Hw' : written s' = written s) by (unfold written, s'; simpl; by rewrite Hp).
  split; unfold cache_ok; rewrite ?Htn', ?Hc; try done.
  - simpl. intros j j' x Hj Hj'. apply iv_inj0; lia.
  - intros j Hj. simpl in Hj. eapply (spsc_block_ext s); simpl; [done|done| |by rewrite Htn'|apply iv_block0; lia].
    intros i _. by apply spsc_content_ext.
  - intros x c Hx. destruct (iv_dom0 _ _ Hx) as (? & [(j & Hj & Hjx)|[v' ?]]); [|congruence]. split; [done|].
    destruct (decide (j = base (gh s))) as [->|]; [right; exists v; simpl; congruence|left; exists j; split; [simpl; lia|done]].
  - split; [done|]. exists k. simpl. split; [change (head_no s') with (head_no s); lia|done].
  - unfold pp_ok. simpl. split_and!; [done| |].
    + intros j Hj Hja. enough (j = base (gh s)) by lia. eapply iv_inj0; [|done..]. lia.
    + exists b. split; [done|]. apply list_eq_same_length with (n := 32); [by rewrite ?length_replicate..|].
      intros i x y Hi' Hx Hy. apply (lookup_replicate 32 None y i) in Hy as [Hy _]. rewrite Hdat in Hx by done. simplify_eq. unfold content. rewrite bool_decide_eq_false_2; [done|].
      pose proof (spsc_taken_pushed _ Hi). unfold head_no, taken in *. destruct (cp s); lia.
Qed.

Lemma spsc_step_alloc_inv s s' v : inv s -> pp s = PAlloc v -> step_push s = Some s' -> inv s'.
Proof.
  intros Hi Hp Hs. unfold step_push in Hs. rewrite Hp in Hs. injection Hs as <-.
  destruct inner_cache eqn:Hc; [|by apply spsc_new_node_inv].
  unfold alloc_node. case_decide as Heq; [|by apply spsc_reuse_inv].
  set (s1 := set_cache _ _ s). assert (Hi1 : inv s1).
  { pose proof (spsc_head_block _ Hi) as (_ & Hh & _). pose proof Hi as []. split; try done.
    unfold cache_ok in *. rewrite Hc in *. destruct iv_cache0 as [? _]. split; [done|]. exists (head_no s). done. }
  case_decide; [by apply spsc_new_node_inv|by apply spsc_reuse_inv].
Qed.

Lemma spsc_step_link_inv s s' v n : inv s -> pp s = PLink v n -> step_push s = Some s' -> inv s'.
Proof.
  intros Hi Hp Hs. destruct (spsc_tail_block _ Hi) as (b & Hch & Hbl & Hlen & Hdat). pose proof (spsc_taken_pushed _ Hi) as Ht.
  pose proof (spsc_head_tail _ Hi) as Hht.
  unfold step_push in Hs. rewrite Hp in Hs. rewrite (spsc_fault_free _ _ _ _ _ _ Hbl eq_refl) in Hs. injection Hs as <-.
  set (s' := set_gh _ _). pose proof (iv_pp _ Hi) as Hpp. unfold pp_ok in Hpp. rewrite Hp in Hpp.
  destruct Hpp as (Hm & Hnew & bn & Hbn & Hbnd).
  assert (Htn : tail_no s = pushed s / 32) by (unfold tail_no; by rewrite Hp).
  assert (Htn' : tail_no s' = S (tail_no s)).
  { rewrite Htn. unfold tail_no, s'. simpl. change (pushed _) with (pushed s). lia. }
  assert (Hw' : written s' = written s) by (unfold written, s'; simpl; by rewrite Hp).
  assert (Hlw : length (written s) = S (pushed s)).
  { unfold written, pushed. rewrite Hp, length_app. simpl. lia. }
  pose proof Hi as [].
  assert (Hnb : block_of (tail s) <> n). { intros <-. eapply Hnew; [|done]. lia. }
  assert (Hlast : (chain (gh s) ++ [n]) !! S (tail_no s) = Some n).
  { apply list_lookup_middle. by rewrite iv_chain0. }
  split; unfold cache_ok; rewrite ?Htn'; try done.
  - unfold s'. simpl. rewrite Hlast. simpl. by rewrite iv_tail0.
  - unfold s'. simpl. change (head_no _) with (head_no s). rewrite lookup_app_l by lia. done.
  - unfold s'. simpl. rewrite length_app, iv_chain0. simpl. lia.
  - unfold s'. simpl. intros j k a Hj Hk [Hja|[-> ->]]%lookup_snoc_Some' [Hka|[-> Hka]]%lookup_snoc_Some'; try done.
    + by eapply iv_inj0.
    + subst. by destruct (Hnew j Hj).
    + by destruct (Hnew k Hk).
  - intros k Hk. change (base (gh s) <= k <= S (tail_no s)) in Hk. destruct (decide (k = S (tail_no s))) as [->|Hne].
    + exists n, bn. simpl. rewrite lookup_insert_ne, Htn' by done. rewrite Hbnd, length_replicate. split_and!; [done..| |lia].
      intros i Hi'. rewrite lookup_replicate_2 by done. f_equal. unfold content. case_bool_decide; [|done]. symmetry.
      apply lookup_ge_None_2. rewrite Hw', Hlw. lia.
    + destruct (decide (k = tail_no s)) as [->|Hne'].
      * exists (block_of (tail s)), (Block (data b) (Some n)). simpl. rewrite lookup_insert_eq, lookup_app_l by lia.
        split_and!; [done..| |by rewrite Hlast]. intros i Hi'. rewrite Hdat by done. f_equal. symmetry. by apply spsc_content_ext.
      * eapply (spsc_block_ext s); simpl; [by rewrite lookup_app_l by lia| | |intros _; split; [lia|by rewrite lookup_app_l by lia]|apply iv_block0; lia].
        -- intros a Ha. rewrite lookup_insert_ne; [done|]. intros <-. apply Hne'. eapply iv_inj0; try done; lia.
        -- intros i _. by apply spsc_content_ext.
  - simpl. intros a c [(<- & <-)|[_ Ha]]%lookup_insert_Some.
    + split; [by apply (iv_dom0 _ _ Hbl)|]. left. exists (tail_no s). rewrite lookup_app_l by lia. split; [lia|done].
    + destruct (iv_dom0 _ _ Ha) as (? & [(k & ? & Hk)|[v' Hv']]); (split; [done|left]).
      * exists k. split; [done|]. apply lookup_app_Some. by left.
      * rewrite Hp in Hv'. injection Hv' as _ <-. exists (S (tail_no s)). split; [lia|done].
  - unfold cache_ok in iv_cache0. simpl. change (head_no s') with (head_no s). destruct inner_cache; [|done].
    destruct iv_cache0 as (Hf & k & Hk & Hl). rewrite !lookup_app_l by lia. split; [done|]. exists k.
    split; [lia|]. apply lookup_app_Some. by left.
Qed.

Lemma spsc_step_index_inv s s' v : bounded s -> inv s -> pp s = PIndex v -> step_push s = Some s' -> inv s'.
Proof.
  intros Hb Hi Hp Hs. unfold step_push in Hs. rewrite Hp in Hs. injection Hs as <-. set (s' := set_gh _ _).
  assert (Hpu : pushed s' = S (pushed s)) by (unfold pushed, s'; simpl; rewrite length_app; simpl; lia).
  assert (Htn' : tail_no s' = tail_no s). { unfold tail_no. rewrite Hpu, Hp. done. }
  assert (Hw' : written s' = written s). { unfold written, s'. simpl. rewrite Hp. by rewrite app_nil_r. }
  assert (Hmono : forall r n, resp_ok s r n -> resp_ok s' r n) by (intros r n; apply spsc_resp_ok_mono; [done|by exists [v]]).
  pose proof Hi as []. unfold bounded in Hb. split; unfold cache_ok; rewrite ?Htn'; try done.
  - unfold s'. simpl. rewrite iv_tail0. simpl. f_equal. change 1%Z with (Z.of_nat 1). rewrite Blk.add_nat by lia.
    change (Z.of_nat (pushed s + 1) = Z.of_nat (pushed s')). rewrite Hpu. lia.
  - rewrite Hpu. simpl. lia.
  - intros k Hk. eapply (spsc_block_ext s); simpl; [done|done| |by rewrite Htn'|by auto]. intros i _. by apply spsc_content_ext.
  - intros a b Ha. destruct (iv_dom0 _ _ Ha) as (? & [?|[v' ?]]); [|congruence]. by auto.
  - unfold cp_ok in *. change (cp s') with (cp s). change (gone (gh s')) with (gone (gh s)). rewrite Hpu.
    destruct (cp s); intuition (try lia); auto.
  - rewrite Hpu. change (lp s') with (lp s). destruct (lp s); simpl; lia.
Qed.

Lemma spsc_step_push_inv s s' : bounded s -> inv s -> step_push s = Some s' -> inv s'.
Proof.
  intros Hb Hi Hs. destruct (pp s) eqn:Hp.
  - unfold step_push in Hs. by rewrite Hp in Hs.
  - by eapply spsc_step_set_inv.
  - by eapply spsc_step_alloc_inv.
  - by eapply spsc_step_link_inv.
  - by eapply spsc_step_index_inv.
Qed.

(** The consumer answers without having taken anything. *)
Lemma spsc_respond_inv s r : inv s -> taken s = gone (gh s) -> head_no s = gone (gh s) / 32 -> inv (respond r 0 s).
Proof.
  intros Hi Ht Hh. assert (Hh' : head_no (respond r 0 s) = head_no s) by (rewrite Hh; unfold head_no; simpl; by rewrite Nat.add_0_r).
  assert (Ht' : taken (respond r 0 s) = taken s) by (rewrite Ht; unfold taken; simpl; lia).
  pose proof Hi as []. split; unfold cache_ok; rewrite ?Hh'; try done; try (simpl; rewrite ?Nat.add_0_r; done).
  intros k Hk. eapply (spsc_block_ext s); simpl; [done|done| |auto|auto]. intros i _. by apply spsc_content_ext.
Qed.

Lemma spsc_step_load_inv s s' k : inv s -> cp s = CLoad k -> step_pop s = Some s' -> inv s'.
Proof.
  intros Hi Hc Hs. unfold step_pop in Hs. rewrite Hc in Hs. pose proof (iv_gone _ Hi) as Hg.
  assert (Hh : head_no s = gone (gh s) / 32) by (unfold head_no; by rewrite Hc).
  assert (Ht : taken s = gone (gh s)) by (unfold taken; by rewrite Hc).
  rewrite (iv_head _ Hi), (iv_tail _ Hi) in Hs. simpl in Hs. destruct (Z.eqb_spec (Z.of_nat (gone (gh s))) (Z.of_nat (pushed s))) as [|Hne]; injection Hs as <-.
  - by apply spsc_respond_inv.
  - apply (spsc_inv_pc s (pp s) (CRead k (Z.of_nat (pushed s))) (lp s) Hi); try done; [by eauto|apply Hi| |apply Hi].
    unfold cp_ok. simpl. change (pushed _) with (pushed s). lia.
Qed.

(** The values of a range of slots of the head's block. *)
Lemma spsc_read_values s m :
  inv s -> taken s = gone (gh s) -> gone (gh s) < m <= pushed s ->
  m <= 32 * S (gone (gh s) / 32) -> head_no s = gone (gh s) / 32 ->
  exists b b', heap s !! block_of (head s) = Some b /\
    copy b (gone (gh s) mod 32) (m - gone (gh s)) = Some (take (m - gone (gh s)) (drop (gone (gh s)) (hist (gh s))), b') /\
    chain (gh s) !! head_no s = Some (block_of (head s)) /\
    next b' = next b /\ length (data b') = 32 /\ (head_no s < tail_no s -> next b = chain (gh s) !! S (head_no s)) /\
    forall i, i < 32 -> data b' !! i =
      Some (if bool_decide (32 * head_no s + i < m) then None else content s (32 * head_no s + i)).
Proof.
  intros Hi Ht Hm Hm' Hh. destruct (spsc_head_block _ Hi) as (b & Hch & Hb & Hlen & Hdat & Hnx).
  set (g := gone (gh s)) in *. set (vs := take (m - g) (drop g (hist (gh s)))).
  assert (Hl : length vs = m - g). { unfold vs, pushed in *. rewrite length_take, length_drop. lia. }
  destruct (spsc_copy_spec vs b (g mod 32)) as (b' & Hcp & Hn' & Hl' & Hd').
  { intros i v Hv. assert (Hiv : i < m - g) by (rewrite <-Hl; by eapply lookup_lt_Some).
    rewrite Hdat by lia. f_equal. unfold content. rewrite bool_decide_eq_true_2 by lia. rewrite Hh.
    replace (32 * (g / 32) + (g mod 32 + i)) with (g + i) by lia.
    unfold vs in Hv. rewrite lookup_take_lt, lookup_drop in Hv by done. unfold written. by apply lookup_app_l_Some. }
  rewrite Hl in Hcp. exists b, b'. split_and!; [done|done|done|done|by rewrite Hl'|done|].
  intros i Hi32. rewrite Hd', Hl, Hdat by done. do 2 case_bool_decide; try done; try lia.
  f_equal. unfold content. rewrite bool_decide_eq_false_2; [done|]. lia.
Qed.

Lemma spsc_advance_inv s k e r m b b' :
  inv s -> cp s = CRead k e -> resp_ok s r (Z.of_nat m) -> m <= 32 * S (gone (gh s) / 32) ->
  heap s !! block_of (head s) = Some b -> next b' = next b -> length (data b') = 32 ->
  (forall i, i < 32 -> data b' !! i =
      Some (if bool_decide (32 * head_no s + i < m) then None else content s (32 * head_no s + i))) ->
  inv (advance r b' (Z.of_nat m) s).
Proof.
  intros Hi Hc Hr Hm Hb Hn Hl Hd. pose proof Hr as [[Hm1 Hm2] _].
  assert (Hh : head_no s = gone (gh s) / 32) by (unfold head_no; by rewrite Hc).
  assert (Ht : taken s = gone (gh s)) by (unfold taken; by rewrite Hc).
  destruct (spsc_head_block _ Hi) as (b0 & Hch & Hb0 & _ & _ & Hnx). assert (b0 = b) as -> by congruence.
  pose proof (spsc_head_tail _ Hi) as Hht. set (s' := advance _ _ _ _).
  assert (Hh' : head_no s' = head_no s).
  { rewrite Hh. unfold s', advance. rewrite spsc_mask_zero. case_bool_decide; unfold head_no; simpl; [done|]. lia. }
  assert (Ht' : taken s' = m) by (unfold s', advance; rewrite spsc_mask_zero; case_bool_decide; unfold taken; simpl; lia).
  assert (Hw' : written s' = written s) by done.
  pose proof Hi as []. split; unfold cache_ok; rewrite ?Hh'; try done.
  - intros j Hj. change (base (gh s) <= j <= tail_no s) in Hj. destruct (decide (j = head_no s)) as [->|Hne].
    + exists (block_of (head s)), b'. simpl. rewrite lookup_insert_eq, Hn. split_and!; [done|done|done| |done].
      intros i Hi'. rewrite Hd by done. f_equal. unfold content. rewrite Ht', Hw', Ht.
      repeat case_bool_decide; done || lia.
    + eapply (spsc_block_ext s); simpl; [done| | |by auto|by auto].
      * intros a Ha. rewrite lookup_insert_ne; [done|]. intros <-. apply Hne. eapply iv_inj0; try done; lia.
      * intros i Hi'. unfold content. rewrite Ht', Hw', Ht. do 2 case_bool_decide; try done; [|lia].
        rewrite Hh in Hne. destruct (decide (j < gone (gh s) / 32)); [lia|].
        exfalso. assert (gone (gh s) / 32 < j) by lia. lia.
  - simpl. intros a c [(<- & <-)|[_ Ha]]%lookup_insert_Some; [by eapply iv_dom0|by eapply iv_dom0].
  - unfold pp_ok in *. simpl. change (pushed s') with (pushed s). destruct (pp s) as [| | |v n|]; try done.
    destruct iv_pp0 as (? & Hnew & bn & Hbn & ?). split_and!; [done|done|]. exists bn.
    rewrite lookup_insert_ne; [done|]. intros <-. eapply Hnew; [|done]. lia.
  - unfold cp_ok, s', advance. rewrite spsc_mask_zero. case_bool_decide; simpl; [|done]. split; [done|]. lia.
Qed.

Lemma spsc_step_read_inv s s' k e : bounded s -> inv s -> cp s = CRead k e -> step_pop s = Some s' -> inv s'.
Proof.
  intros Hb Hi Hc Hs. unfold step_pop in Hs. rewrite Hc in Hs. unfold bounded in Hb. pose proof (iv_gone _ Hi) as Hg.
  assert (Hh : head_no s = gone (gh s) / 32) by (unfold head_no; by rewrite Hc).
  assert (Ht : taken s = gone (gh s)) by (unfold taken; by rewrite Hc).
  pose proof (iv_cp _ Hi) as He. unfold cp_ok in He. rewrite Hc in He.
  assert (Hidx : index (head s) = Z.of_nat (gone (gh s))) by (by rewrite (iv_head _ Hi)). rewrite Hidx in Hs.
  destruct k.
  - set (g := gone (gh s)) in *. destruct (spsc_read_values s (S g)) as (b & b' & Hbl & Hcp & _ & Hn & Hl & _ & Hd); [done|done|lia|lia|done|].
    fold g in Hcp. replace (S g - g) with 1 in Hcp by lia. destruct (hist (gh s) !! g) as [v|] eqn:Hv; [|apply lookup_ge_None_1 in Hv; unfold pushed in *; lia].
    assert (Hvs : take 1 (drop g (hist (gh s))) = [v]) by (erewrite drop_S by done; done).
    assert (Hget : get b (slot (Z.of_nat g)) = Some (v, b')).
    { rewrite spsc_slot_nat. rewrite Hvs in Hcp. simpl in Hcp. by destruct (get b (g mod 32)) as [[v' b'']|]; simplify_eq/=. }
    rewrite (spsc_fault_free _ _ _ _ _ (v, b') Hbl Hget) in Hs. change 1%Z with (Z.of_nat 1) in Hs.
    rewrite Blk.add_nat in Hs by lia. rewrite Nat.add_1_r in Hs. injection Hs as <-. eapply spsc_advance_inv; try done; [|lia].
    split; [lia|]. rewrite Nat2Z.id. fold g. split; [done|]. replace (S g - g) with 1 by lia. by rewrite Hvs.
  - set (g := gone (gh s)) in *. rewrite <-(Z2Nat.id e) in Hs by lia. rewrite spsc_bulk_end_nat in Hs by lia.
    set (m := Nat.min (Z.to_nat e) (32 * S (g / 32))) in *.
    destruct (spsc_read_values s m) as (b & b' & Hbl & Hcp & _ & Hn & Hl & _ & Hd); [done|done|lia|lia|done|].
    fold g in Hcp. assert (Hget : copy_to_bulk b (Z.of_nat g) (Z.of_nat m) = Some (take (m - g) (drop g (hist (gh s))), b')).
    { unfold copy_to_bulk. rewrite spsc_slot_nat, Blk.sub_nat, Nat2Z.id by lia. done. }
    rewrite (spsc_fault_free _ _ _ _ _ _ Hbl Hget) in Hs. injection Hs as <-. eapply spsc_advance_inv; try done; [|lia].
    split; [lia|]. rewrite Nat2Z.id. done.
  - destruct (spsc_head_block _ Hi) as (b & _ & Hbl & _ & Hdat & _). unfold on_block in Hs. rewrite Hbl in Hs. simpl in Hs.
    unfold peek in Hs. rewrite spsc_slot_nat, Hdat in Hs by lia. simpl in Hs.
    assert (Hcn : content s (32 * head_no s + gone (gh s) mod 32) = hist (gh s) !! gone (gh s)).
    { unfold content. rewrite bool_decide_eq_true_2 by lia. rewrite Hh. replace (32 * _ + _) with (gone (gh s)) by lia.
      unfold written. apply lookup_app_l. unfold pushed in *. lia. }
    rewrite Hcn in Hs. destruct (hist (gh s) !! gone (gh s)) as [v|] eqn:Hv; [|apply lookup_ge_None_1 in Hv; unfold pushed in *; lia].
    injection Hs as <-. by apply spsc_respond_inv.
Qed.

Lemma spsc_step_next_inv s s' r n : inv s -> cp s = CNext r n -> step_pop s = Some s' -> inv s'.
Proof.
  intros Hi Hc Hs. unfold step_pop in Hs. rewrite Hc in Hs. pose proof (iv_cp _ Hi) as He. unfold cp_ok in He. rewrite Hc in He.
  destruct He as [Hr Hn]. pose proof Hr as [[Hr1 Hr2] _].
  assert (Hh : head_no s = gone (gh s) / 32) by (unfold head_no; by rewrite Hc).
  destruct (spsc_head_block _ Hi) as (b & Hch & Hbl & _ & _ & Hnx).
  assert (Htl : S (head_no s) <= tail_no s) by (rewrite Hh; unfold tail_no; destruct (pp s); lia).
  pose proof Hi as [].
  destruct (chain (gh s) !! S (head_no s)) as [a|] eqn:Ha; [|apply lookup_ge_None_1 in Ha; lia].
  rewrite (spsc_fault_free _ _ _ _ _ a Hbl) in Hs by (by apply Hnx). injection Hs as <-.
  set (s0 := set_cp (CCommit r n) _). assert (Hh' : head_no s0 = S (head_no s)) by (rewrite Hh; unfold head_no; simpl; lia).
  assert (Hd : head s0 = Position (Z.of_nat (gone (gh s))) (default 0 (chain (gh s) !! S (head_no s)))).
  { simpl. by rewrite iv_head0, Ha. }
  assert (Ht' : taken s0 = taken s) by (unfold taken; by rewrite Hc).
  destruct inner_cache eqn:Hic.
  - split; unfold cache_ok; rewrite ?Hic, ?Hh'; try done.
    + simpl. lia.
    + intros k Hk. eapply (spsc_block_ext s); simpl; [done|done| |auto|auto]. intros i _. by apply spsc_content_ext.
    + unfold cache_ok in iv_cache0. rewrite Hic in iv_cache0. destruct iv_cache0 as (? & k & ? & ?).
      split; [done|]. exists k. split; [simpl; lia|done].
  - unfold cache_ok in iv_cache0. rewrite Hic in iv_cache0. set (s1 := set_gh _ _).
    change (head_no s0) with (head_no s1) in Hh'. split; unfold cache_ok; rewrite ?Hic, ?Hh'; try done.
    + simpl. lia.
    + simpl. intros j k x Hj Hk. apply iv_inj0; lia.
    + intros k Hk. simpl in Hk. change (tail_no s1) with (tail_no s) in Hk.
      eapply (spsc_block_ext s); simpl; [done| | |auto|apply iv_block0; lia].
      * intros x Hx. rewrite lookup_delete_ne; [done|]. intros <-. enough (k = head_no s) by lia. eapply iv_inj0; try done; lia.
      * intros i _. by apply spsc_content_ext.
    + simpl. intros x c [Hne Hx]%lookup_delete_Some. destruct (iv_dom0 _ _ Hx) as (? & [(k & Hk & Hkx)|?]); [|by auto].
      split; [done|left]. exists k. split; [|done]. destruct (decide (k = base (gh s))) as [->|]; [|lia]. congruence.
    + simpl. lia.
    + unfold pp_ok in *. simpl. change (pushed s1) with (pushed s). destruct (pp s) as [| | |v m|]; try done.
      destruct iv_pp0 as (? & Hnew & bn & Hbn & ?). split_and!; [done|intros k Hk; apply Hnew; lia|]. exists bn.
      rewrite lookup_delete_ne; [done|]. intros <-. eapply Hnew; [|done]. lia.
Qed.

Lemma spsc_step_commit_inv s s' r n : bounded s -> inv s -> cp s = CCommit r n -> step_pop s = Some s' -> inv s'.
Proof.
  intros Hb Hi Hc Hs. unfold step_pop in Hs. rewrite Hc in Hs. injection Hs as <-. unfold bounded in Hb.
  pose proof (iv_cp _ Hi) as He. unfold cp_ok in He. rewrite Hc in He. destruct He as [[Hr1 Hr2] _].
  assert (Hsub : gone (gh s) + Z.to_nat (Word.sub n (index (head s))) = Z.to_nat n).
  { rewrite (iv_head _ Hi). simpl. rewrite <-(Z2Nat.id n) at 1 by lia. rewrite Blk.sub_nat by lia. lia. }
  set (s' := respond _ _ _). assert (Hg : gone (gh s') = Z.to_nat n) by done.
  assert (Hh' : head_no s' = head_no s) by (unfold head_no; rewrite Hc; simpl; by rewrite Hsub).
  assert (Ht' : taken s' = taken s) by (unfold taken; rewrite Hc; simpl; by rewrite Hsub).
  pose proof Hi as []. split; unfold cache_ok; rewrite ?Hh', ?Hg; try done.
  - simpl. rewrite iv_head0. simpl. f_equal. lia.
  - change (pushed s') with (pushed s). lia.
  - intros k Hk. eapply (spsc_block_ext s); simpl; [done|done| |auto|auto]. intros i _. by apply spsc_content_ext.
  - change (lp s') with (lp s). change (pushed s') with (pushed s). destruct (lp s); simpl; lia.
Qed.

Lemma spsc_step_pop_inv s s' : bounded s -> inv s -> step_pop s = Some s' -> inv s'.
Proof.
  intros Hb Hi Hs. destruct (cp s) eqn:Hp.
  - unfold step_pop in Hs. by rewrite Hp in Hs.
  - by eapply spsc_step_load_inv.
  - by eapply spsc_step_read_inv.
  - by eapply spsc_step_next_inv.
  - by eapply spsc_step_commit_inv.
  - unfold step_pop in Hs. by rewrite Hp in Hs.
Qed.

Lemma spsc_start_inv s k : inv s -> idle (cp s) = true -> inv (set_cp (CLoad k) s).
Proof.
  intros Hi Hc. apply (spsc_inv_pc s (pp s) (CLoad k) (lp s) Hi); try (by eauto); try apply Hi;
    unfold taken, head_no; simpl; by destruct (cp s).
Qed.

Lemma spsc_step_inv s e s' : bounded s -> inv s -> step s e = Some s' -> inv s'.
Proof.
  intros Hb Hi Hs. unfold step in Hs. destruct (fault s); [done|]. destruct e.
  - destruct (pp s) eqn:Hp; try discriminate Hs. injection Hs as <-.
    apply (spsc_inv_pc s (PSet v) (cp s) (lp s) Hi); try done; try apply Hi; try (unfold written, tail_no; simpl; by rewrite Hp).
  - destruct (idle (cp s)) eqn:Hc; simplify_eq. by apply spsc_start_inv.
  - destruct (idle (cp s)) eqn:Hc; simplify_eq. by apply spsc_start_inv.
  - destruct (idle (cp s)) eqn:Hc; simplify_eq. by apply spsc_start_inv.
  - assert (s' = set_lp LHead s) as -> by (destruct (lp s); by simplify_eq).
    apply (spsc_inv_pc s (pp s) (cp s) LHead Hi); try done; try apply Hi. by eauto.
  - by eapply spsc_step_push_inv.
  - by eapply spsc_step_pop_inv.
  - by eapply spsc_step_len_inv.
Qed.

Lemma spsc_init_inv : inv init.
Proof.
  split; try done; unfold cache_ok; simpl; try lia.
  - intros [|j] [|k] a _ _; simpl; try done; by destruct k + by destruct j.
  - intros [|k] Hk; [|change (tail_no init) with 0 in Hk; lia]. exists 0, new_block. split_and!; try done.
    intros i Hi. apply (lookup_replicate_2 32). done.
  - intros a b [<- <-]%lookup_singleton_Some. split; [lia|left]. exists 0. split; [lia|done].
  - destruct inner_cache; [|done]. split; [done|]. exists 0. split; [|done]. split; [done|apply Nat.le_0_l].
Qed.

Lemma spsc_step_pushed s e s' : step s e = Some s' -> pushed s <= pushed s'.
Proof.
  unfold step. destruct (fault s); [done|].
  destruct e; simpl; unfold step_push, step_pop, step_len, alloc_node, reuse, new_node, on_block, advance, respond;
    intros Hs; repeat (case_match; try discriminate Hs); injection Hs as <-; unfold pushed; simpl; rewrite ?length_app; lia.
Qed.

Lemma spsc_reach_inv s : reachable step init s -> bounded s -> inv s.
Proof.
  induction 1 as [|s e s' _ IH Hs]; intros Hb; [apply spsc_init_inv|].
  assert (bounded s) by (apply spsc_step_pushed in Hs; unfold bounded in *; lia). by eapply spsc_step_inv; [|apply IH|].
Qed.

(** ** Refinement *)

Lemma spsc_view_push s s' : inv s -> step_push s = Some s' -> fault s' = false -> osteps (view s) (vis s P s') (view s').
Proof.
  intros Hi Hs Hf. pose proof (iv_gone _ Hi) as Hg. unfold pushed in Hg.
  unfold step_push, alloc_node, reuse, new_node, on_block in Hs. destruct (pp s) as [|v|v|v n|v] eqn:Hp; [done|..].
  1-3: eapply osteps_eq; [apply os_refl| |]; repeat (case_match; try discriminate Hs); injection Hs as <-; simpl in *;
    try discriminate Hf; unfold view; simpl; by rewrite ?Hp.
  injection Hs as <-. eapply osteps_eq; [apply (fifo_push_return _ 0 v)|done|]; unfold view; simpl; rewrite ?Hp; [done|].
  unfold push. by rewrite drop_app_le.
Qed.

Lemma spsc_view_cons s v : hist (gh s) !! gone (gh s) = Some v -> Fifo.content (view s) = v :: drop (S (gone (gh s))) (hist (gh s)).
Proof. intros H. simpl. by apply drop_S. Qed.

(** The consumer answers with what it takes from the front. *)
Lemma spsc_view_answer s s' k n r l :
  pop_status (cp s) = CCalled k -> spec_step (Spec (Fifo.content (view s)) []) (call_of k n) = Some (Spec l [r]) ->
  pp s' = pp s -> cp s' = CDone r -> drop (gone (gh s')) (hist (gh s')) = l -> osteps (view s) (vis s C s') (view s').
Proof.
  intros Hk Hr Hp Hc Hl. eapply osteps_eq; [by eapply fifo_answer|simpl; by rewrite Hc|].
  unfold view. by rewrite Hp, Hc, Hl.
Qed.

Lemma spsc_view_pop s s' :
  bounded s -> inv s -> step_pop s = Some s' -> fault s' = false -> osteps (view s) (vis s C s') (view s').
Proof.
  intros Hb Hi Hs Hf. pose proof (iv_cp _ Hi) as He. unfold cp_ok in He. unfold step_pop in Hs.
  destruct (cp s) as [|k|k e|r n|r n|r] eqn:Hc; try discriminate Hs.
  - rewrite (iv_head _ Hi), (iv_tail _ Hi) in Hs. simpl in Hs.
    destruct (Z.eqb_spec (Z.of_nat (gone (gh s))) (Z.of_nat (pushed s))) as [Heq|Hne]; injection Hs as <-.
    + assert (Hq : drop (gone (gh s)) (hist (gh s)) = []) by (apply drop_ge; unfold pushed in *; lia).
      apply (spsc_view_answer _ _ k 0 (empty_resp k) []); simpl; rewrite ?Hc, ?Nat.add_0_r, ?Hq; try done. by destruct k.
    + eapply osteps_eq; [apply os_refl|done|]. unfold view. simpl. by rewrite Hc.
  - destruct k; unfold on_block, advance in Hs.
    1-2: eapply osteps_eq; [apply os_refl| |]; repeat (case_match; try discriminate Hs); injection Hs as <-; simpl in *;
      try discriminate Hf; unfold view; simpl; by rewrite ?Hc.
    destruct (spsc_head_block _ Hi) as (b & _ & Hbl & _ & Hdat & _).
    rewrite Hbl, (iv_head _ Hi) in Hs. simpl in Hs. unfold peek in Hs. rewrite spsc_slot_nat, Hdat in Hs by lia. simpl in Hs.
    assert (Hcn : content s (32 * head_no s + gone (gh s) mod 32) = hist (gh s) !! gone (gh s)).
    { unfold content, taken, head_no. rewrite Hc. replace (32 * _ + _) with (gone (gh s)) by lia.
      rewrite bool_decide_eq_true_2 by lia. unfold written. apply lookup_app_l. unfold pushed in *. lia. }
    rewrite Hcn in Hs. destruct (hist (gh s) !! gone (gh s)) as [v|] eqn:Hv; [|apply lookup_ge_None_1 in Hv; unfold pushed in *; lia].
    injection Hs as <-. apply (spsc_view_answer _ _ OPeek 0 (RPeek (Some v)) (Fifo.content (view s))); simpl; rewrite ?Hc, ?Nat.add_0_r; try done.
    by rewrite (drop_S _ _ _ Hv).
  - eapply osteps_eq; [apply os_refl| |]; unfold on_block in Hs; repeat case_match; injection Hs as <-; simpl in *;
      try discriminate Hf; unfold view; simpl; by rewrite ?Hc.
  - injection Hs as <-. destruct He as [[Hr1 Hr2] Hr].
    assert (Hn : Z.to_nat (Word.sub n (index (head s))) = Z.to_nat n - gone (gh s)).
    { rewrite (iv_head _ Hi). simpl. unfold Word.sub. rewrite Word.wrap_small; [lia|]. unfold Word.is_usize, Word.usize_max. unfold bounded in Hb. lia. }
    rewrite Hn. apply (spsc_view_answer _ _ (op_of r) (Z.to_nat n - gone (gh s)) r
      (drop (Z.to_nat n - gone (gh s)) (Fifo.content (view s)))); simpl; rewrite ?Hc, ?drop_drop; try done.
    destruct r as [o|vs|o]; simpl; [|..]; [..|done].
    + destruct Hr as [Hn1 Hr]. rewrite Hn1 in Hr |- *. replace (S _ - _) with 1 in Hr |- * by lia.
      assert (Hhd : hd_error (drop (gone (gh s)) (hist (gh s))) = o) by (destruct (drop _ _), o; simpl in Hr |- *; congruence).
      by rewrite drop_drop, Hhd.
    + rewrite bool_decide_eq_true_2.
      * by rewrite drop_drop, <-Hr.
      * rewrite length_drop. unfold pushed in *. lia.
Qed.

Lemma spsc_view_step s e s' :
  bounded s -> inv s -> step s e = Some s' -> osteps (view s) (vis s e s') (view s').
Proof.
  intros Hb Hi Hs. assert (Hf : fault s' = false) by (by eapply iv_fault, spsc_step_inv).
  unfold step in Hs. rewrite (iv_fault _ Hi) in Hs. destruct e; [..| by apply spsc_view_push|by apply spsc_view_pop|].
  - destruct (pp s) eqn:Hp; try done. injection Hs as <-. eapply osteps_eq; [apply osteps_one, (o_pcall _ 0 v)|done|];
      unfold view; simpl; by rewrite ?Hp.
  - destruct (idle (cp s)) eqn:Hc; [|done]. injection Hs as <-. eapply osteps_eq; [apply osteps_one, o_ccall|done|done].
    simpl. by destruct (cp s).
  - destruct (idle (cp s)) eqn:Hc; [|done]. injection Hs as <-. eapply osteps_eq; [apply osteps_one, o_ccall|done|done].
    simpl. by destruct (cp s).
  - destruct (idle (cp s)) eqn:Hc; [|done]. injection Hs as <-. eapply osteps_eq; [apply osteps_one, o_ccall|done|done].
    simpl. by destruct (cp s).
  - eapply osteps_eq; [apply os_refl|done|]. by destruct (lp s); simplify_eq.
  - eapply osteps_eq; [apply os_refl|done|]. unfold step_len in Hs. by destruct (lp s); simplify_eq.
Qed.

(** ** Own steps left *)
Definition push_rank (p : ppc) : nat :=
  match p with PIdle => 0 | PSet _ => 4 | PAlloc _ => 3 | PLink _ _ => 2 | PIndex _ => 1 end.
Definition pop_rank (c : cpc) : nat :=
  match c with CIdle | CDone _ => 0 | CLoad _ => 4 | CRead _ _ => 3 | CNext _ _ => 2 | CCommit _ _ => 1 end.
Definition is_push (e : event) : bool := match e with Push _ => true | _ => false end.
Definition is_take (e : event) : bool := match e with Pop | BulkPop | Peek => true | _ => false end.
Definition is_p (e : event) : bool := match e with P => true | _ => false end.
Definition is_c (e : event) : bool := match e with C => true | _ => false end.
Fixpoint count (f : event -> bool) (es : list event) : nat :=
  match es with [] => 0 | e :: es' => (if f e then 1 else 0) + count f es' end.

Lemma spsc_step_rank s e s' :
  step s e = Some s' -> fault s' = false ->
  (is_push e = false -> push_rank (pp s') + (if is_p e then 1 else 0) <= push_rank (pp s)) /\
  (is_take e = false -> pop_rank (cp s') + (if is_c e then 1 else 0) <= pop_rank (cp s)).
Proof.
  unfold step. destruct (fault s); [done|].
  destruct e; simpl; unfold step_push, step_pop, step_len, alloc_node, reuse, new_node, on_block, advance, respond;
    intros Hs Hf; repeat (case_match; try discriminate Hs); injection Hs as <-; simpl in *; simplify_eq/=;
    split; intros; try done; lia.
Qed.

Lemma spsc_run_rank es s s' :
  run step es s = Some s' -> (forall n s1, run step (take n es) s = Some s1 -> fault s1 = false) ->
  (Forall (fun e => is_push e = false) es -> push_rank (pp s') + count is_p es <= push_rank (pp s)) /\
  (Forall (fun e => is_take e = false) es -> pop_rank (cp s') + count is_c es <= pop_rank (cp s)).
Proof.
  revert s. induction es as [|e es IH]; intros s Hr Hf; simplify_eq/=; [split; lia|].
  destruct (step s e) as [s1|] eqn:Hs; [|done].
  destruct (IH s1 Hr) as [H1 H2]. { intros n s2 H. apply (Hf (S n) s2). simpl. by rewrite Hs. }
  destruct (spsc_step_rank _ _ _ Hs) as [H3 H4]. { apply (Hf 1 s1). simpl. by rewrite Hs. }
  split; intros [He Hes]%Forall_cons.
  - specialize (H1 Hes). specialize (H3 He). lia.
  - specialize (H2 Hes). specialize (H4 He). lia.
Qed.

Lemma spsc_run_pushed es s s' : run step es s = Some s' -> pushed s <= pushed s'.
Proof.
  revert s. induction es as [|e es IH]; intros s Hr; simplify_eq/=; [done|].
  destruct (step s e) as [s1|] eqn:Hs; [|done]. apply spsc_step_pushed in Hs. apply IH in Hr. lia.
Qed.

(** ** Properties *)

(** C14. The queue is linearizable: whatever the interleaving, the calls and returns
    of a run, with the values the producer called [push] with and the answers the
    consumer got, are those of an atomic FIFO queue, each call taking effect at one
    moment between its call and its return; so what the answers delivered, in the
    order of the answers, followed by what is left and a push that has not taken
    effect, are the values of the calls of [push] in their order. *)
Theorem spsc_refines_fifo es s :
  run step es init = Some s -> bounded s ->
  let h := history_of step vis es init in
  osteps (Fifo.start 1) h (view s) /\ delivered h ++ Fifo.content (view s) ++ in_call 0 (view s) = called 0 h.
Proof.
  intros Hr Hb h. assert (Ho : osteps (Fifo.start 1) h (view s)).
  { apply (fifo_simulation step vis inv bounded view) with (s := init); try done; [|apply spsc_step_inv|apply spsc_view_step|apply spsc_init_inv].
    intros s1 e s2 Hs Hb2. apply spsc_step_pushed in Hs. unfold bounded in *. lia. }
  split; [done|]. pose proof (fifo_in_order_one _ _ (fifo_in_order _ _ _ Ho)) as He.
  unfold in_answer in He. simpl in He. by destruct (cp s).
Qed.

(** The queue is memory safe: the producer and the consumer never follow a null
    pointer, touch a freed block, read a slot that holds no value or overwrite one
    that does; every block that is allocated is in the chain or about to be linked;
    and [len] never underflows. *)
Theorem spsc_memory_safe s :
  reachable step init s -> bounded s ->
  fault s = false /\
  (forall a b, heap s !! a = Some b ->
    (exists k, base (gh s) <= k <= tail_no s /\ chain (gh s) !! k = Some a) \/ exists v, pp s = PLink v a) /\
  (inner_cache = false -> base (gh s) = head_no s) /\
  (forall n, lp s = LDone n -> (0 <= n <= Z.of_nat (pushed s))%Z).
Proof.
  intros Hr Hb. pose proof (spsc_reach_inv _ Hr Hb) as Hi. pose proof Hi as []. split_and!; [done| | |].
  - intros a b Hab. destruct (iv_dom0 _ _ Hab) as (_ & [(k & ? & Hk)|?]); [left|by right].
    exists k. split; [|done]. apply lookup_lt_Some in Hk. lia.
  - intros Hc. unfold cache_ok in iv_cache0. by rewrite Hc in iv_cache0.
  - intros n Hn. by rewrite Hn in iv_lp0.
Qed.

(** C15. Every call terminates, whatever the other side does: a call that has not
    returned can always take its next step, and it returns after at most four of
    its own steps. *)
Theorem spsc_wait_free s es s' :
  reachable step init s -> run step es s = Some s' -> bounded s' ->
  (pp s' <> PIdle -> exists s1, step s' P = Some s1) /\
  (idle (cp s') = false -> exists s1, step s' C = Some s1) /\
  (Forall (fun e => is_push e = false) es -> count is_p es <= 4 /\ (count is_p es = 4 -> pp s' = PIdle)) /\
  (Forall (fun e => is_take e = false) es -> count is_c es <= 4 /\ (count is_c es = 4 -> idle (cp s') = true)).
Proof.
  intros Hr Hrun Hb. pose proof (run_reachable_from _ _ _ _ _ Hr Hrun) as Hr'.
  pose proof (iv_fault _ (spsc_reach_inv _ Hr' Hb)) as Hf.
  destruct (spsc_run_rank es s s' Hrun) as [H1 H2].
  { intros n s1 Hs1. apply iv_fault, spsc_reach_inv; [exact (run_reachable_from _ _ _ _ _ Hr Hs1)|].
    pose proof Hrun as Hrest. rewrite <-(take_drop n es) in Hrest. rewrite (run_app _ _ _ _ _ Hs1) in Hrest.
    apply spsc_run_pushed in Hrest. unfold bounded in *. lia. }
  assert (push_rank (pp s) <= 4 /\ pop_rank (cp s) <= 4) as [? ?] by (destruct (pp s), (cp s); simpl; lia).
  split_and!.
  - intros Hp. unfold step. rewrite Hf. unfold step_push. destruct (pp s'); try done; by eexists.
  - intros Hc. unfold step. rewrite Hf. unfold step_pop. destruct (cp s') as [|?|[] ?| | |]; try done; by eexists.
  - intros He. specialize (H1 He). split; [lia|]. intros. destruct (pp s'); simpl in H1; done || lia.
  - intros He. specialize (H2 He). split; [lia|]. intros. destruct (cp s'); simpl in H2; done || lia.
Qed.

End queue.

(** ** Concrete runs *)

Definition pushes (vs : list nat) : list (event (T := nat)) := vs ≫= (fun v => Push v :: replicate 2 P).
(** Fills the first block, empties it with one [bulk_pop] while the producer goes
    on, and goes round so that the first block is used again. *)
Definition demo : list (event (T := nat)) :=
  pushes (seq 0 31) ++ [Push 31; P; P; P; P] ++ pushes (seq 32 5) ++ [BulkPop; C; C; C; C; Len; L; L; Pop; C; C; C] ++
  pushes (seq 37 26) ++ [Push 63; P; P; P; P; Push 64; P; P; Peek; C; C].
Definition final : state (T := nat) := default init (run (step true) demo init).

Example spsc_demo_result :
  outs (gh final) = [RBulk (seq 0 32); RPop (Some 32); RPeek (Some 33)] /\ base (gh final) = 1 /\
  chain (gh final) = [0; 1; 0] /\ lp final = LDone 5.
Proof. by vm_compute. Qed.

Lemma spsc_final_reachable : reachable (step true) init final.
Proof. apply run_reachable with (es := demo). vm_compute. reflexivity. Qed.

Lemma spsc_refines_fifo_witness :
  let h := history_of (step true) vis demo init in
  osteps (Fifo.start 1) h (view final) /\ delivered h ++ Fifo.content (view final) ++ in_call 0 (view final) = called 0 h /\
  delivered h = seq 0 33 /\ Fifo.content (view final) = seq 33 32.
Proof.
  intros h. destruct (spsc_refines_fifo true demo final) as [H1 H2]; [vm_compute; reflexivity|vm_compute; congruence|].
  split_and!; [exact H1|exact H2|vm_compute; reflexivity|vm_compute; reflexivity].
Defined.

Lemma spsc_memory_safe_witness :
  fault final = false /\
  (forall a b, heap final !! a = Some b ->
    (exists k, base (gh final) <= k <= tail_no final /\ chain (gh final) !! k = Some a) \/ exists v, pp final = PLink v a) /\
  (true = false -> base (gh final) = head_no final) /\
  (forall n, lp final = LDone n -> (0 <= n <= Z.of_nat (pushed final))%Z).
Proof. apply (spsc_memory_safe true); [apply spsc_final_reachable|]. vm_compute. congruence. Defined.

Lemma spsc_wait_free_witness :
  let es := [P; C; P] in let s := default final (run (step true) [Push 65; Pop] final) in
  let s' := default final (run (step true) es s) in
  count is_p es <= 4 /\ (count is_p es = 4 -> pp s' = PIdle).
Proof.
  intros es s s'. apply (spsc_wait_free true s es s').
  - apply (run_reachable_from (step true) init [Push 65; Pop] final); [apply spsc_final_reachable|]. vm_compute. reflexivity.
  - vm_compute. reflexivity.
  - vm_compute. congruence.
  - repeat constructor.
Defined.

End Spsc.
