(* ===== verification/SpscSolo.v ===== *)
(** * SpscSolo: whole calls of the spsc queue's consumer, and its [Drop]

    What [bulk_pop] and [pop] of [SpscQueue] do when the consumer runs a call to its
    end while the producer stands still (anywhere in a [push]): one [bulk_pop] is the
    same as popping as many values one by one.  Then [Drop for Queue] of
    [may_queue/src/spsc.rs], which pops until the queue is empty and frees the chain
    of blocks. *)

From stdpp Require Import base numbers list gmap.
From Stdlib Require Import ZArith Lia ZifyNat.
From S2P Require Import Prelude Blocks Fifo SpscQueue.

#[local] Ltac Zify.zify_post_hook ::= Z.div_mod_to_equations.
#[local] Arguments Nat.div : simpl never.
#[local] Arguments Nat.modulo : simpl never.
#[local] Arguments Nat.mul : simpl never.

Module Solo.
Import Fifo Spsc.

Section solo.
Context {T : Type} (inner_cache : bool).
#[local] Abbreviation state := (@Spsc.state T).
#[local] Abbreviation step := (@Spsc.step T inner_cache).
#[local] Abbreviation inv := (@Spsc.inv T inner_cache).

(** Steps of the consumer until its call returns. *)
Fixpoint drive (n : nat) (s : state) : option state :=
  if idle (cp s) then Some s else
  match n with O => None | S n => match step s C with Some s' => drive n s' | None => None end end.
(** A whole call. *)
Definition call (e : event) (s : state) : option state :=
  match step s e with Some s' => drive 4 s' | None => None end.
Fixpoint pops (n : nat) (s : state) : option state :=
  match n with O => Some s | S n => match call Pop s with Some s' => pops n s' | None => None end end.

(** ** [Drop for Queue] *)

(** [while self.pop().is_some() {}], with the values it drops. *)
Fixpoint drain (fuel : nat) (s : state) : option (list T * state) :=
  match fuel with
  | O => None
  | S fuel =>
      match call Pop s with
      | Some s' =>
          match cp s' with
          | CDone (RPop (Some v)) => match drain fuel s' with Some (vs, s2) => Some (v :: vs, s2) | None => None end
          | CDone (RPop None) => Some ([], s')
          | _ => None
          end
      | None => None
      end
  end.

(** Frees the blocks from [first] to before [tail]; [None]: one was freed already. *)
Fixpoint free_chain (fuel : nat) (first tail : nat) (m : gmap nat (@block T)) : option (gmap nat (@block T)) :=
  if first =? tail then Some m else
  match fuel with
  | O => None
  | S fuel =>
      match m !! first with
      | Some b => match next b with Some n => free_chain fuel n tail (delete first m) | None => None end
      | None => None
      end
  end.

(** [drop]: the values that are dropped and the heap that is left. *)
Definition drop_queue (fuel : nat) (s : state) : option (list T * gmap nat (@block T)) :=
  match drain fuel s with
  | Some (vs, s') =>
      let hd := block_of (head s') in
      let tl := block_of (tail s') in
      if hd =? tl then
        match (if inner_cache then free_chain fuel (first s') tl (heap s') else Some (heap s')) with
        | Some m => match m !! hd with Some _ => Some (vs, delete hd m) | None => None end
        | None => None
        end
      else None  (* assert_eq!(head, tail) *)
  | None => None
  end.

(** ** A call that takes values *)

(** The state after the consumer took values up to [new_index] and left [b] behind. *)
Definition finish (r : resp) (new_index : Z) (b : block) (s : state) : state :=
  let hd := block_of (head s) in
  let s1 := set_heap (<[hd := b]> (heap s)) s in
  let s2 :=
    if (Z.land new_index BLOCK_MASK =? 0)%Z then
      match next b with
      | Some n =>
          let s' := set_head (Position (index (head s)) n) s1 in
          if inner_cache then s'
          else set_gh (History (hist (gh s)) (gone (gh s)) (outs (gh s)) (chain (gh s)) (S (base (gh s))))
                 (set_heap (delete hd (heap s1)) s')
      | None => s1
      end
    else s1 in
  respond r (Z.to_nat (Word.sub new_index (index (head s)))) (set_head (Position new_index (block_of (head s2))) s2).

Definition leaves (new_index : Z) (b : @block T) : Prop :=
  (Z.land new_index BLOCK_MASK =? 0)%Z = true -> is_Some (next b).

Lemma drive_advance r b i s :
  fault s = false -> leaves i b -> drive 2 (advance r b i s) = Some (finish r i b s).
Proof.
  destruct s as [h fr ta hd fi lh p c l fa g]. intros Hf Hl. simpl in Hf. subst fa. unfold leaves in Hl.
  unfold advance, finish. simpl block_of. simpl head. simpl index.
  destruct (Z.land i BLOCK_MASK =? 0)%Z; [|done]. destruct (Hl eq_refl) as [n Hn]. rewrite Hn.
  unfold drive, Spsc.step, step_pop, on_block. simpl. rewrite lookup_insert_eq. simpl. rewrite Hn.
  by destruct inner_cache.
Qed.

Lemma solo_drive_step n s s1 : idle (cp s) = false -> step s C = Some s1 -> drive (S n) s = drive n s1.
Proof. intros Hi Hs. simpl. by rewrite Hi, Hs. Qed.

Lemma call_start s :
  idle (cp s) = true -> fault s = false ->
  call Pop s = drive 4 (set_cp (CLoad OPop) s) /\ call BulkPop s = drive 4 (set_cp (CLoad OBulk) s).
Proof. intros Hc Hf. unfold call, Spsc.step. by rewrite Hf, Hc. Qed.

Lemma call_empty s :
  idle (cp s) = true -> fault s = false -> index (head s) = index (tail s) ->
  call Pop s = Some (respond (RPop None) 0 s) /\ call BulkPop s = Some (respond (RBulk []) 0 s).
Proof.
  destruct s as [h fr ta hd fi lh p c l fa g]. simpl. intros Hc -> He. unfold call, Spsc.step. simpl. rewrite Hc.
  unfold drive, Spsc.step, step_pop. simpl. by rewrite He, Z.eqb_refl.
Qed.

Lemma call_pop s b v b1 :
  idle (cp s) = true -> fault s = false -> index (head s) <> index (tail s) ->
  heap s !! block_of (head s) = Some b -> get b (slot (index (head s))) = Some (v, b1) ->
  leaves (Word.add (index (head s)) 1) b1 ->
  call Pop s = Some (finish (RPop (Some v)) (Word.add (index (head s)) 1) b1 s).
Proof.
  intros Hc Hf Hne Hb Hg Hl. apply Z.eqb_neq in Hne. rewrite <- (drive_advance _ _ _ s Hf Hl).
  destruct (call_start s Hc Hf) as [H1 H2]. rewrite ?H1, ?H2. clear H1 H2 Hl Hc.
  destruct s as [h fr ta hd fi lh p c l fa g]. cbn [heap fault head tail cp] in *. subst fa.
  erewrite solo_drive_step; [|done|unfold Spsc.step, step_pop; simpl; by rewrite Hne].
  erewrite solo_drive_step; [|done|unfold Spsc.step, step_pop, on_block; simpl; rewrite Hb; simpl; by rewrite Hg]. done.
Qed.

Lemma call_bulk s b vs b1 :
  idle (cp s) = true -> fault s = false -> index (head s) <> index (tail s) ->
  heap s !! block_of (head s) = Some b ->
  copy_to_bulk b (index (head s)) (bulk_end (index (head s)) (index (tail s))) = Some (vs, b1) ->
  leaves (bulk_end (index (head s)) (index (tail s))) b1 ->
  call BulkPop s = Some (finish (RBulk vs) (bulk_end (index (head s)) (index (tail s))) b1 s).
Proof.
  intros Hc Hf Hne Hb Hg Hl. apply Z.eqb_neq in Hne. rewrite <- (drive_advance _ _ _ s Hf Hl).
  destruct (call_start s Hc Hf) as [H1 H2]. rewrite ?H1, ?H2. clear H1 H2 Hl Hc.
  destruct s as [h fr ta hd fi lh p c l fa g]. cbn [heap fault head tail cp] in *. subst fa.
  erewrite solo_drive_step; [|done|unfold Spsc.step, step_pop; simpl; by rewrite Hne].
  erewrite solo_drive_step; [|done|unfold Spsc.step, step_pop, on_block; simpl; rewrite Hb; simpl; by rewrite Hg]. done.
Qed.

(** ** A bulk of pops *)

(** A state without the consumer's answers. *)
Definition forget (s : state) : state :=
  set_cp CIdle (set_gh (History (hist (gh s)) (gone (gh s)) [] (chain (gh s)) (base (gh s))) s).

Lemma forget_finish r r' i b s : forget (finish r i b s) = forget (finish r' i b s).
Proof. unfold finish. by destruct (Z.land i BLOCK_MASK =? 0)%Z, (next b), inner_cache. Qed.

Lemma word_small x : (Z.of_nat x < Word.modulus)%Z -> Word.wrap (Z.of_nat x) = Z.of_nat x.
Proof. intros H. apply Word.wrap_small. unfold Word.is_usize, Word.usize_max. lia. Qed.
Lemma word_succ x : (Z.of_nat (S x) < Word.modulus)%Z -> Word.add (Z.of_nat x) 1 = Z.of_nat (S x).
Proof. intros H. unfold Word.add. replace (Z.of_nat x + 1)%Z with (Z.of_nat (S x)) by lia. by apply word_small. Qed.
Lemma word_diff x n : (Z.of_nat (x + n) < Word.modulus)%Z -> Z.to_nat (Word.sub (Z.of_nat (x + n)) (Z.of_nat x)) = n.
Proof.
  intros H. unfold Word.sub. replace (Z.of_nat (x + n) - Z.of_nat x)%Z with (Z.of_nat n) by lia.
  rewrite word_small; lia.
Qed.

(** Inside the block nothing but the slot, the index and the history changes. *)
Lemma finish_inside r x b s :
  x mod 32 <> 0 ->
  finish r (Z.of_nat x) b s =
  respond r (Z.to_nat (Word.sub (Z.of_nat x) (index (head s))))
    (set_head (Position (Z.of_nat x) (block_of (head s))) (set_heap (<[block_of (head s) := b]> (heap s)) s)).
Proof. intros Hx. unfold finish. rewrite spsc_mask_zero. by rewrite bool_decide_eq_false_2. Qed.

Lemma finish_outs r i b s : outs (gh (finish r i b s)) = outs (gh s) ++ [r].
Proof. unfold finish. by destruct (Z.land i BLOCK_MASK =? 0)%Z, (next b), inner_cache. Qed.

Lemma copy_cons (b : @block T) i n vs b' :
  copy b i (S n) = Some (vs, b') ->
  exists v b1 ws, get b i = Some (v, b1) /\ copy b1 (S i) n = Some (ws, b') /\ vs = v :: ws.
Proof.
  simpl. destruct (get b i) as [[v b1]|]; [|done]. simpl. destruct (copy b1 (S i) n) as [[ws b2]|] eqn:He; [|done].
  simpl. intros [= <- <-]. by exists v, b1, ws.
Qed.

(** Taking one value inside the block and then the others is taking all. *)
Lemma finish_twice s v x n r r' b b1 :
  index (head s) = Z.of_nat x -> (Z.of_nat (x + S n) < Word.modulus)%Z ->
  forget (finish r (Z.of_nat (x + S n)) b
    (respond v (Z.to_nat (Word.sub (Z.of_nat (S x)) (index (head s))))
      (set_head (Position (Z.of_nat (S x)) (block_of (head s))) (set_heap (<[block_of (head s) := b1]> (heap s)) s)))) =
  forget (finish r' (Z.of_nat (x + S n)) b s).
Proof.
  intros Hx Hlt.
  assert (H1 : Z.to_nat (Word.sub (Z.of_nat (S x)) (Z.of_nat x)) = 1).
  { replace (S x) with (x + 1) by lia. apply word_diff. lia. }
  assert (H2 : Z.to_nat (Word.sub (Z.of_nat (x + S n)) (Z.of_nat (S x))) = n).
  { replace (x + S n) with (S x + n) by lia. apply word_diff. lia. }
  assert (H3 := word_diff x (S n) ltac:(lia)).
  assert (H4 : forall k, k + 1 + n = k + S n) by lia.
  destruct s as [h fr ta [i hd] fi lh p c l fa g]. cbn [index head] in Hx. subst i.
  unfold forget, finish. destruct (Z.land (Z.of_nat (x + S n)) BLOCK_MASK =? 0)%Z, (next b), inner_cache; simpl;
    by rewrite ?insert_insert_eq, ?H1, ?H2, ?H3, ?H4.
Qed.

Lemma pops_copy n : forall s b vs b' x,
  idle (cp s) = true -> fault s = false -> index (head s) = Z.of_nat x ->
  heap s !! block_of (head s) = Some b -> copy b (x mod 32) (S n) = Some (vs, b') ->
  x mod 32 + S n <= 32 -> (Z.of_nat (x + S n) < Word.modulus)%Z ->
  (forall j, j <= n -> index (tail s) <> Z.of_nat (x + j)) -> leaves (Z.of_nat (x + S n)) b' ->
  exists s2, pops (S n) s = Some s2 /\ forget s2 = forget (finish (RBulk vs) (Z.of_nat (x + S n)) b' s) /\
    outs (gh s2) = outs (gh s) ++ map (fun v => RPop (Some v)) vs.
Proof.
  induction n as [|n IH]; intros s b vs b' x Hc Hf Hx Hb Hcopy Hroom Hlt Htail Hl;
    destruct (copy_cons _ _ _ _ _ Hcopy) as (v & b1 & ws & Hg & Hcopy' & ->);
    assert (Hadd : Word.add (index (head s)) 1 = Z.of_nat (S x)) by (rewrite Hx; apply word_succ; lia).
  - injection Hcopy' as <- <-. rewrite Nat.add_1_r in *.
    eexists. split; [|split; [apply forget_finish|apply finish_outs]]. cbn [pops].
    rewrite (call_pop s b v b1), Hadd; [done|done|done| |done|by rewrite Hx, spsc_slot_nat|by rewrite Hadd].
    rewrite Hx. specialize (Htail 0 ltac:(lia)). rewrite Nat.add_0_r in Htail. congruence.
  - assert (Hmod : S x mod 32 = S (x mod 32)) by lia.
    assert (Hin : S x mod 32 <> 0) by lia.
    assert (Hcall : call Pop s = Some (finish (RPop (Some v)) (Z.of_nat (S x)) b1 s)).
    { rewrite (call_pop s b v b1), Hadd; [done|done|done| |done|by rewrite Hx, spsc_slot_nat|].
      - rewrite Hx. specialize (Htail 0 ltac:(lia)). rewrite Nat.add_0_r in Htail. congruence.
      - unfold leaves. rewrite Hadd, spsc_mask_zero, bool_decide_eq_false_2 by done. done. }
    cbn [pops]. rewrite Hcall, finish_inside by done. set (s1 := respond _ _ _).
    destruct (IH s1 b1 ws b' (S x)) as (s2 & Hs2 & Hfg & Hout); simpl.
    + done.
    + done.
    + done.
    + by rewrite lookup_insert_eq.
    + by rewrite Hmod.
    + lia.
    + lia.
    + intros j Hj. specialize (Htail (S j) ltac:(lia)). by replace (S (x + j)) with (x + S j) by lia.
    + by replace (S (x + S n)) with (x + S (S n)) by lia.
    + exists s2. split; [done|]. split; [|rewrite Hout; simpl; by rewrite <- app_assoc].
      rewrite Hfg. replace (S x + S n) with (x + S (S n)) by lia. apply (finish_twice _ _ x (S n)); [done|lia].
Qed.

Lemma idle_taken (s : state) : idle (cp s) = true -> taken s = gone (gh s) /\ head_no s = gone (gh s) / 32.
Proof. unfold taken, head_no. by destruct (cp s). Qed.

(** The values at the front of the queue, up to [m], are in the head's block. *)
Lemma front_values (s : state) m :
  inv s -> idle (cp s) = true -> gone (gh s) < m <= pushed s -> m <= 32 * S (gone (gh s) / 32) ->
  exists b b', heap s !! block_of (head s) = Some b /\
    copy b (gone (gh s) mod 32) (m - gone (gh s)) = Some (take (m - gone (gh s)) (drop (gone (gh s)) (hist (gh s))), b') /\
    leaves (Z.of_nat m) b'.
Proof.
  intros Hi Hc Hm Hblk. destruct (idle_taken s Hc) as [Ht Hh].
  destruct (spsc_read_values inner_cache s m Hi Ht Hm Hblk Hh) as (b & b' & Hb & Hcopy & _ & Hn & _ & Hnx & _).
  exists b, b'. split_and!; [done..|]. unfold leaves. rewrite spsc_mask_zero. intros Hz%bool_decide_eq_true.
  rewrite Hn, Hnx.
  - apply lookup_lt_is_Some. rewrite (iv_chain _ _ Hi). unfold tail_no. destruct (pp s); lia.
  - unfold tail_no. destruct (pp s); lia.
Qed.

Lemma idle_index (s : state) : inv s -> index (head s) = Z.of_nat (gone (gh s)) /\ index (tail s) = Z.of_nat (pushed s).
Proof. intros Hi. rewrite (iv_head _ _ Hi), (iv_tail _ _ Hi). done. Qed.

(** The number of values a [bulk_pop] takes: to the end of the block or of the queue. *)
Definition bulk_size (s : state) : nat := Nat.min (pushed s) (32 * S (gone (gh s) / 32)) - gone (gh s).

(** C16. [bulk_pop] is as many [pop]s: from any reachable state in which the consumer
    is between two calls, wherever the producer stands in a [push], the call returns
    the first values of the queue up to the end of the head's block; popping one by
    one as many times answers the same values in the same order and leaves the same
    memory, indices and block list. *)
Theorem bulk_pop_equiv (s : state) :
  reachable step init s -> bounded s -> idle (cp s) = true ->
  exists vs s1 s2,
    call BulkPop s = Some s1 /\ cp s1 = CDone (RBulk vs) /\
    vs = take (bulk_size s) (drop (gone (gh s)) (hist (gh s))) /\
    pops (length vs) s = Some s2 /\ outs (gh s2) = outs (gh s) ++ map (fun v => RPop (Some v)) vs /\
    forget s1 = forget s2.
Proof.
  intros Hr Hb Hc. pose proof (spsc_reach_inv inner_cache s Hr Hb) as Hi.
  destruct (idle_index s Hi) as [Hhd Htl]. pose proof (iv_fault _ _ Hi) as Hf. pose proof (iv_gone _ _ Hi) as Hg.
  unfold bounded in Hb. unfold bulk_size. set (g := gone (gh s)) in *. set (p := pushed s) in *.
  destruct (decide (g = p)) as [He|Hne].
  - destruct (call_empty s Hc Hf) as [_ Hcall]; [by rewrite Hhd, Htl, He|]. exists [], (respond (RBulk []) 0 s), s.
    split_and!; [done|done| |done|by rewrite app_nil_r|].
    + replace (Nat.min p (32 * S (g / 32)) - g) with 0 by lia. done.
    + unfold forget. simpl. rewrite Nat.add_0_r. by destruct s as [? ? ? ? ? ? ? ? ? ? []].
  - set (m := Nat.min p (32 * S (g / 32))).
    assert (Hm : g < m <= p /\ m <= 32 * S (g / 32)) by (unfold m; lia).
    destruct (front_values s m Hi Hc) as (b & b' & Hblk & Hcopy & Hl); [apply Hm|apply Hm|].
    assert (Hend : bulk_end (index (head s)) (index (tail s)) = Z.of_nat m).
    { rewrite Hhd, Htl. apply spsc_bulk_end_nat. lia. }
    clearbody m.
    fold g in Hcopy. set (vs := take (m - g) (drop g (hist (gh s)))) in *.
    assert (Hlen : length vs = S (m - g - 1)).
    { unfold vs. rewrite length_take, length_drop. fold (pushed s). fold p. lia. }
    assert (Hn : m - g = S (m - g - 1)) by lia.
    destruct (pops_copy (m - g - 1) s b vs b' g) as (s2 & Hs2 & Hfg & Hout); try done; try lia.
    { by rewrite <- Hn. }
    { by replace (g + S (m - g - 1)) with m by lia. }
    exists vs, (finish (RBulk vs) (Z.of_nat m) b' s), s2. rewrite Hlen. split_and!; try done.
    + rewrite <- Hend. apply (call_bulk s b); rewrite ?Hend; try done; [rewrite Hhd, Htl; lia|].
      unfold copy_to_bulk. rewrite Hhd, spsc_slot_nat. replace m with (g + (m - g)) at 1 by lia.
      rewrite word_diff by lia. done.
    + rewrite Hfg. by replace (g + S (m - g - 1)) with m by lia.
Qed.

(** ** [drop] *)

Lemma step_pop_pp (s s' : state) : step_pop inner_cache s = Some s' -> pp s' = pp s /\ hist (gh s') = hist (gh s).
Proof.
  unfold step_pop, on_block, respond, advance. intros Hs.
  repeat (case_match; try discriminate Hs); injection Hs as <-; done.
Qed.

Lemma drive_inv n : forall s s' : state,
  inv s -> bounded s -> drive n s = Some s' -> inv s' /\ idle (cp s') = true /\ pp s' = pp s /\ hist (gh s') = hist (gh s).
Proof.
  induction n as [|n IH]; intros s s' Hi Hb Hd; cbn [drive] in Hd; destruct (idle (cp s)) eqn:Hc; simplify_eq; try done.
  destruct (step s C) as [s1|] eqn:Hs; [|done].
  assert (Hi1 : inv s1) by (by eapply spsc_step_inv).
  unfold Spsc.step in Hs. rewrite (iv_fault _ _ Hi) in Hs. destruct (step_pop_pp _ _ Hs) as [Hp Hh].
  destruct (IH s1 s' Hi1) as (? & ? & Hp' & Hh'); [|done|].
  - unfold bounded, pushed in *. by rewrite Hh.
  - split_and!; congruence.
Qed.

Lemma call_pop_inv (s s' : state) :
  inv s -> bounded s -> idle (cp s) = true -> call Pop s = Some s' ->
  inv s' /\ idle (cp s') = true /\ pp s' = pp s /\ hist (gh s') = hist (gh s).
Proof.
  intros Hi Hb Hc Hs. destruct (call_start s Hc (iv_fault _ _ Hi)) as [Hcall _]. rewrite Hcall in Hs.
  eapply (drive_inv 4 (set_cp (CLoad OPop) s)); [by apply spsc_start_inv|done|done].
Qed.

(** A [pop] with the producer standing still. *)
Lemma solo_call_pop_spec (s : state) :
  inv s -> bounded s -> idle (cp s) = true ->
  (gone (gh s) = pushed s -> exists s', call Pop s = Some s' /\ cp s' = CDone (RPop None) /\ gone (gh s') = pushed s) /\
  (gone (gh s) < pushed s -> exists v s',
     hist (gh s) !! gone (gh s) = Some v /\ call Pop s = Some s' /\ cp s' = CDone (RPop (Some v)) /\ gone (gh s') = S (gone (gh s))).
Proof.
  intros Hi Hb Hc. destruct (idle_index s Hi) as [Hhd Htl]. pose proof (iv_fault _ _ Hi) as Hf. unfold bounded in Hb. split.
  - intros He. destruct (call_empty s Hc Hf) as [Hcall _]; [by rewrite Hhd, Htl, He|].
    eexists. split_and!; [done|done|]. simpl. lia.
  - intros Hlt. destruct (front_values s (S (gone (gh s))) Hi Hc) as (b & b' & Hblk & Hcopy & Hl); [lia|lia|].
    replace (S (gone (gh s)) - gone (gh s)) with 1 in Hcopy by lia.
    destruct (copy_cons _ _ _ _ _ Hcopy) as (v & b1 & ws & Hg & [= <- <-] & Hvs).
    assert (Hadd : Word.add (index (head s)) 1 = Z.of_nat (S (gone (gh s)))) by (rewrite Hhd; apply word_succ; lia).
    exists v, (finish (RPop (Some v)) (Z.of_nat (S (gone (gh s)))) b1 s). split_and!.
    + assert (Hv : take 1 (drop (gone (gh s)) (hist (gh s))) !! 0 = Some v) by (by rewrite Hvs).
      by rewrite lookup_take_lt, lookup_drop, Nat.add_0_r in Hv by lia.
    + rewrite (call_pop s b v b1), Hadd; [done|done|done| |done|by rewrite Hhd, spsc_slot_nat|by rewrite Hadd].
      rewrite Hhd, Htl. lia.
    + unfold finish. by destruct (Z.land _ BLOCK_MASK =? 0)%Z, (next b1), inner_cache.
    + assert (H1 : Z.to_nat (Word.sub (Z.of_nat (S (gone (gh s)))) (index (head s))) = 1).
      { rewrite Hhd. replace (S (gone (gh s))) with (gone (gh s) + 1) by lia. apply word_diff. lia. }
      unfold finish. destruct (Z.land _ BLOCK_MASK =? 0)%Z, (next b1), inner_cache; simpl; rewrite H1; lia.
Qed.

Lemma solo_drain_spec fuel : forall s : state,
  inv s -> bounded s -> idle (cp s) = true -> pushed s - gone (gh s) < fuel ->
  exists s', drain fuel s = Some (drop (gone (gh s)) (hist (gh s)), s') /\
    inv s' /\ idle (cp s') = true /\ pp s' = pp s /\ pushed s' = pushed s /\ gone (gh s') = pushed s.
Proof.
  induction fuel as [|fuel IH]; intros s Hi Hb Hc Hfuel; [lia|]. pose proof (iv_gone _ _ Hi) as Hg.
  destruct (solo_call_pop_spec s Hi Hb Hc) as [Hempty Hsome]. destruct (decide (gone (gh s) = pushed s)) as [He|Hne].
  - destruct (Hempty He) as (s' & Hs & Hcp & Hgo). destruct (call_pop_inv s s' Hi Hb Hc Hs) as (Hi' & Hc' & Hp' & Hh').
    exists s'. cbn [drain]. rewrite Hs, Hcp, He. unfold pushed in *. rewrite drop_all, Hh'. by split_and!.
  - destruct (Hsome ltac:(lia)) as (v & s1 & Hv & Hs & Hcp & Hgo).
    destruct (call_pop_inv s s1 Hi Hb Hc Hs) as (Hi1 & Hc1 & Hp1 & Hh1).
    assert (Hpu : pushed s1 = pushed s) by (unfold pushed; by rewrite Hh1).
    destruct (IH s1 Hi1) as (s' & Hs' & Hi' & Hc' & Hp' & Hpu' & Hgo'); [unfold bounded; by rewrite Hpu|done|lia|].
    exists s'. cbn [drain]. rewrite Hs, Hcp, Hs', Hgo, Hh1, (drop_S _ _ _ Hv). split_and!; congruence.
Qed.

(** The blocks from number [k] to before the last one. *)
Lemma free_chain_spec (s : state) (tl : nat) : forall d k fuel (m : gmap nat block),
  inv s -> chain (gh s) !! tail_no s = Some tl -> d = tail_no s - k -> base (gh s) <= k <= tail_no s -> d <= fuel ->
  (forall j a, k <= j -> chain (gh s) !! j = Some a -> m !! a = heap s !! a) ->
  exists f m', chain (gh s) !! k = Some f /\ free_chain fuel f tl m = Some m' /\
    (forall a, m' !! a = None \/ (m' !! a = m !! a /\ forall j, k <= j < tail_no s -> chain (gh s) !! j <> Some a)) /\
    m' !! tl = heap s !! tl.
Proof.
  induction d as [|d IH]; intros k fuel m Hi Htl Hd Hk Hfuel Hm.
  - assert (k = tail_no s) as -> by lia. exists tl, m. split_and!; [done| | |by apply (Hm (tail_no s))].
    + destruct fuel; cbn [free_chain]; by rewrite Nat.eqb_refl.
    + intros a. right. split; [done|]. intros j ?. lia.
  - destruct (iv_block _ _ Hi k Hk) as (f & b & Hf & Hb & _ & _ & Hnext). exists f.
    assert (Hne : f <> tl). { intros ->. assert (k = tail_no s); [|lia]. by eapply (iv_inj _ _ Hi); [lia..| |]. }
    destruct fuel as [|fuel]; [lia|]. cbn [free_chain].
    apply Nat.eqb_neq in Hne as Hne'. rewrite Hne', (Hm k f) by done. rewrite Hb, Hnext by lia.
    destruct (IH (S k) fuel (delete f m) Hi Htl) as (f' & m' & Hf' & Hfree & Hdom & Hlast); [lia..| |].
    { intros j a Hj Ha. rewrite lookup_delete_ne; [by apply (Hm j); [lia|]|]. intros ->.
      assert (j = k); [|lia]. by eapply (iv_inj _ _ Hi); [lia..| |]. }
    exists m'. rewrite Hf'. split_and!; [done|done| |done].
    intros a. destruct (Hdom a) as [?|[Ha Hno]]; [by left|]. destruct (decide (a = f)) as [->|Haf].
    + left. rewrite Ha. apply lookup_delete_eq.
    + right. rewrite Ha, lookup_delete_ne by done. split; [done|]. intros j Hj Hja.
      destruct (decide (j = k)) as [->|]; [congruence|]. by apply (Hno j); [lia|].
Qed.

(** A heap with no block but those of the chain is empty without them. *)
Lemma only_chain (s : state) (tl : nat) (m : gmap nat block) :
  inv s -> pp s = PIdle -> chain (gh s) !! tail_no s = Some tl ->
  (forall a, m !! a = None \/ (m !! a = heap s !! a /\ forall j, base (gh s) <= j < tail_no s -> chain (gh s) !! j <> Some a)) ->
  delete tl m = ∅.
Proof.
  intros Hi Hpp Htl Hm. apply map_eq. intros a. rewrite lookup_empty.
  destruct (decide (a = tl)) as [->|Hne]; [apply lookup_delete_eq|]. rewrite lookup_delete_ne by done.
  destruct (Hm a) as [?|[-> Hno]]; [done|]. destruct (heap s !! a) as [b|] eqn:Hb; [|done]. exfalso.
  destruct (iv_dom _ _ Hi _ _ Hb) as (_ & [(k & Hk & Ha)|[v Hv]]); [|congruence].
  assert (Hlt := lookup_lt_Some _ _ _ Ha). rewrite (iv_chain _ _ Hi) in Hlt.
  destruct (decide (k = tail_no s)) as [->|]; [congruence|]. by apply (Hno k); [lia|].
Qed.

(** Dropping the queue terminates, drops every value that is left exactly once and
    in order, passes its assertion [head == tail], never frees a block twice, and
    frees every block: the heap is empty afterwards, with and without [inner_cache]. *)
Theorem spsc_drop_frees_all (s : state) fuel :
  reachable step init s -> bounded s -> pp s = PIdle -> idle (cp s) = true -> pushed s < fuel ->
  drop_queue fuel s = Some (drop (gone (gh s)) (hist (gh s)), ∅).
Proof.
  intros Hr Hb Hpp Hc Hfuel. pose proof (spsc_reach_inv inner_cache s Hr Hb) as Hi.
  destruct (solo_drain_spec fuel s Hi Hb Hc ltac:(lia)) as (s' & Hdr & Hi' & Hc' & Hp' & Hpu' & Hgo').
  rewrite Hpp in Hp'. destruct (idle_taken s' Hc') as [_ Hh].
  assert (Hno : head_no s' = tail_no s') by (rewrite Hh; unfold tail_no; rewrite Hp', Hgo'; congruence).
  destruct (iv_block _ _ Hi' (tail_no s')) as (tl & b & Htl & Hbl & _).
  { split; [|done]. rewrite <- Hno. apply (iv_base _ _ Hi'). }
  unfold drop_queue. rewrite Hdr, (iv_head _ _ Hi'), (iv_tail _ _ Hi'), Hno, Htl. simpl. rewrite Nat.eqb_refl.
  pose proof (iv_cache _ _ Hi') as Hcache. unfold cache_ok in Hcache. pose proof (iv_base _ _ Hi') as Hbase.
  enough (exists m, (if inner_cache then free_chain fuel (first s') tl (heap s') else Some (heap s')) = Some m /\
    m !! tl = Some b /\
    forall a, m !! a = None \/ (m !! a = heap s' !! a /\ forall j, base (gh s') <= j < tail_no s' -> chain (gh s') !! j <> Some a))
    as (m & -> & -> & Hm).
  { by erewrite only_chain. }
  destruct (Bool.bool_dec inner_cache true) as [E|E%not_true_is_false]; rewrite E in Hcache |- *.
  - destruct Hcache as [Hfirst _].
    destruct (free_chain_spec s' tl (tail_no s' - base (gh s')) (base (gh s')) fuel (heap s')) as (f & m & Hf & Hfree & Hm & Hl);
      [done|done|done|lia| |by intros|].
    { unfold tail_no. rewrite Hp'. lia. }
    assert (f = first s') as -> by congruence. exists m. rewrite Hl. by split_and!.
  - exists (heap s'). split_and!; [done|done|]. intros a. right. split; [done|]. intros j ?. lia.
Qed.

End solo.

(** ** Concrete runs *)

(** [bulk_pop] stops at the end of the block: 33 values are in the queue, 32 are taken. *)
Example bulk_pop_partial :
  let s := default init (run (Spsc.step true) (pushes (seq 0 31) ++ [Push 31; P; P; P; P] ++ pushes [32]) init) in
  exists s1, call true BulkPop s = Some s1 /\ cp s1 = CDone (RBulk (seq 0 32)) /\ pushed s = 33.
Proof. eexists. split; [vm_compute; reflexivity|]. split; vm_compute; reflexivity. Qed.

(** The run of [SpscQueue], which goes round the block list, up to its last call. *)
Lemma bulk_pop_equiv_witness :
  exists s1 s2, call true BulkPop Spsc.final = Some s1 /\ pops true (bulk_size Spsc.final) Spsc.final = Some s2 /\
    forget s1 = forget s2 /\ bulk_size Spsc.final = 31.
Proof.
  destruct (bulk_pop_equiv true Spsc.final spsc_final_reachable) as (vs & s1 & s2 & H1 & _ & Hvs & H2 & _ & H3).
  - vm_compute. congruence.
  - vm_compute. reflexivity.
  - exists s1, s2. assert (Hl : length vs = bulk_size Spsc.final) by (rewrite Hvs; vm_compute; reflexivity).
    rewrite Hl in H2. split; [exact H1|]. split; [exact H2|]. split; [exact H3|]. vm_compute. reflexivity.
Defined.

Lemma spsc_drop_frees_all_witness :
  drop_queue true 100 Spsc.final = Some (seq 33 32, ∅).
Proof.
  rewrite (spsc_drop_frees_all true Spsc.final 100 spsc_final_reachable); [vm_compute; reflexivity|..].
  - vm_compute. congruence.
  - vm_compute. reflexivity.
  - vm_compute. reflexivity.
  - apply Nat.ltb_lt. vm_compute. reflexivity.
Defined.

End Solo.
