(* ===== verification/ListQueue.v ===== *)
(** * ListQueue: the unbounded multi-producer queue as a linked list

    [may_queue/src/mpsc_list.rs]: producers swap [head] and then link their node; the
    consumer follows the links, waits for one that is not there yet, takes the value
    of the next node and frees the node before it.  Every shared access is a step; a
    run faults when a freed node is touched or freed again, or the assertion of [pop]
    fails.  The only addresses that are compared are those of live nodes, so a model
    without address reuse loses nothing. *)

From stdpp Require Import base numbers list gmap.
From Stdlib Require Import Lia.
From S2P Require Import Prelude Fifo.

Module Lq.
Import Fifo.

Section queue.
Context {T : Type}.
#[local] Abbreviation resp := (@Fifo.resp T).
#[local] Abbreviation obj := (@Fifo.obj T).
#[local] Abbreviation pstatus := (@Fifo.pstatus T).
#[local] Abbreviation cstatus := (@Fifo.cstatus T).
#[local] Abbreviation label := (@Fifo.label T).

Record Node := Nd { next : option nat; value : option T }.

(** A producer is about to swap [head], or to link its node [n] behind [prev]. *)
Inductive ppc := PIdle | PSwap (v : T) | PLink (prev n : nat).
(** The consumer is about to compare [head] with [tail], to read the link of [tail],
    to take the value of the next node, to free the old one; or in [is_empty]. *)
Inductive cpc :=
  | CIdle | CLoad | CSpin | CTake (n : nat) | CFree (n : nat) (v : T) | CDone (o : option T)
  | CEmpty | CAnswer (b : bool).

(** History: [hist], the values pushed; [chain], the nodes in the order of the swaps,
    the stub first; [base], the place of [tail] in it; [outs], the answers of [pop]. *)
Record state := ST {
  heap : gmap nat Node; fresh : nat; head : nat; tail : nat;
  pps : list ppc; cp : cpc; fault : bool;
  hist : list T; chain : list nat; base : nat; outs : list resp
}.

(** [Queue::new], with [n] producers. *)
Definition init (n : nat) : state :=
  ST {[ 0 := Nd None None ]} 1 0 0 (replicate n PIdle) CIdle false [] [0] 0 [].

Definition set_pp (t : nat) (p : ppc) (s : state) : state :=
  ST (heap s) (fresh s) (head s) (tail s) (<[t:=p]> (pps s)) (cp s) (fault s) (hist s) (chain s) (base s) (outs s).
Definition set_cp (c : cpc) (s : state) : state :=
  ST (heap s) (fresh s) (head s) (tail s) (pps s) c (fault s) (hist s) (chain s) (base s) (outs s).
Definition set_heap (m : gmap nat Node) (s : state) : state :=
  ST m (fresh s) (head s) (tail s) (pps s) (cp s) (fault s) (hist s) (chain s) (base s) (outs s).
Definition add_out (r : resp) (s : state) : state :=
  ST (heap s) (fresh s) (head s) (tail s) (pps s) (cp s) (fault s) (hist s) (chain s) (base s) (outs s ++ [r]).
Definition set_tail (n : nat) (s : state) : state :=
  ST (heap s) (fresh s) (head s) n (pps s) (cp s) (fault s) (hist s) (chain s) (S (base s)) (outs s).
Definition faulted (s : state) : state :=
  ST (heap s) (fresh s) (head s) (tail s) (pps s) (cp s) true (hist s) (chain s) (base s) (outs s).

(** [Node::new] and the swap of [head]. *)
Definition swap (v : T) (s : state) : state :=
  ST (<[fresh s := Nd None (Some v)]> (heap s)) (S (fresh s)) (fresh s) (tail s) (pps s) (cp s) (fault s)
    (hist s ++ [v]) (chain s ++ [fresh s]) (base s) (outs s).

(** [push]. *)
Definition step_push (t : nat) (p : ppc) (s : state) : option state :=
  match p with
  | PSwap v => Some (set_pp t (PLink (head s) (fresh s)) (swap v s))
  | PLink prev n =>
      match heap s !! prev with
      | Some x => Some (set_pp t PIdle (set_heap (<[prev := Nd (Some n) (value x)]> (heap s)) s))
      | None => Some (faulted s)
      end
  | PIdle => None
  end.

(** [pop] and [is_empty]. *)
Definition step_pop (s : state) : option state :=
  match cp s with
  | CLoad =>
      Some (if head s =? tail s then set_cp (CDone None) (add_out (RPop None) s) else set_cp CSpin s)
  | CSpin =>
      match heap s !! tail s with
      | Some x => Some (match next x with Some n => set_cp (CTake n) s | None => s end)
      | None => Some (faulted s)
      end
  | CTake n =>
      match heap s !! n with
      | Some (Nd m (Some v)) =>
          Some (set_cp (CFree n v) (add_out (RPop (Some v)) (set_heap (<[n := Nd m None]> (heap s)) s)))
      | _ => Some (faulted s)
      end
  | CFree n v =>
      match heap s !! tail s with
      | Some _ => Some (set_cp (CDone (Some v)) (set_tail n (set_heap (delete (tail s) (heap s)) s)))
      | None => Some (faulted s)
      end
  | CEmpty => Some (set_cp (CAnswer (head s =? tail s)) s)
  | _ => None
  end.

Inductive event := Push (t : nat) (v : T) | P (t : nat) | Pop | IsEmpty | C.

Definition idle (c : cpc) : bool := match c with CIdle | CDone _ | CAnswer _ => true | _ => false end.

Definition step (s : state) (e : event) : option state :=
  if fault s then None else
  match e with
  | Push t v => match pps s !! t with Some PIdle => Some (set_pp t (PSwap v) s) | _ => None end
  | P t => match pps s !! t with Some p => step_push t p s | None => None end
  | Pop => if idle (cp s) then Some (set_cp CLoad s) else None
  | IsEmpty => if idle (cp s) then Some (set_cp CEmpty s) else None
  | C => step_pop s
  end.

(** ** Abstraction and invariant *)

(** How many values were taken. *)
Definition taken (s : state) : nat := match cp s with CFree _ _ => S (base s) | _ => base s end.

(** The atomic object a state stands for: a push takes effect with the swap of
    [head], a [pop] when it takes the value, or sees that [head] is [tail]. *)
Definition push_status (p : ppc) : pstatus :=
  match p with PIdle => PReady | PSwap v => PCalled v | PLink _ _ => PApplied end.
Definition pop_status (c : cpc) : cstatus :=
  match c with
  | CLoad | CSpin | CTake _ => CCalled OPop
  | CFree _ v => CApplied (RPop (Some v))
  | _ => CReady
  end.
Definition view (s : state) : obj := Obj (drop (taken s) (hist s)) (push_status <$> pps s) (pop_status (cp s)).

(** What a step shows: the calls of [push] and [pop], and the returns with the steps
    that return. *)
Definition vis (s : state) (e : event) (s' : state) : list label :=
  match e with
  | Push t v => [PCall t v]
  | P t => match pps s' !! t with Some PIdle => [PRet t] | _ => [] end
  | Pop => [CCall OPop]
  | C => match cp s' with CDone o => [CRet (RPop o)] | _ => [] end
  | IsEmpty => []
  end.

(** The link behind node number [k] at [a]: there, or about to be written. *)
Definition linked (s : state) (k a : nat) (x : Node) : Prop :=
  next x = chain s !! S k \/
  next x = None /\ exists t b, pps s !! t = Some (PLink a b) /\ chain s !! S k = Some b.

Definition cp_ok (s : state) : Prop :=
  match cp s with
  | CSpin => base s < length (hist s)
  | CTake n | CFree n _ =>
      chain s !! S (base s) = Some n /\ exists x, heap s !! tail s = Some x /\ next x = Some n
  | _ => True
  end.

Record inv (s : state) : Prop := {
  iv_fault : fault s = false;
  iv_len : length (chain s) = S (length (hist s));
  iv_head : chain s !! length (hist s) = Some (head s);
  iv_tail : chain s !! base s = Some (tail s);
  iv_fresh k a : chain s !! k = Some a -> a < fresh s;
  iv_inj j k a : chain s !! j = Some a -> chain s !! k = Some a -> j = k;
  iv_dom a x : heap s !! a = Some x -> exists k, base s <= k /\ chain s !! k = Some a;
  iv_node k a : base s <= k -> chain s !! k = Some a ->
    exists x, heap s !! a = Some x /\ linked s k a x /\
      value x = if decide (taken s < k) then hist s !! pred k else None;
  iv_link t a b : pps s !! t = Some (PLink a b) ->
    exists k x, taken s <= k /\ chain s !! k = Some a /\ chain s !! S k = Some b /\ heap s !! a = Some x /\ next x = None;
  iv_uniq t t' a b b' : pps s !! t = Some (PLink a b) -> pps s !! t' = Some (PLink a b') -> t = t';
  iv_cp : cp_ok s
}.

Lemma inv_bounds s : inv s -> base s <= taken s <= length (hist s).
Proof.
  intros Hi. pose proof (iv_tail _ Hi) as Ht. apply lookup_lt_Some in Ht. rewrite (iv_len _ Hi) in Ht.
  pose proof (iv_cp _ Hi) as Hc. unfold cp_ok, taken in *. destruct (cp s); try lia.
  destruct Hc as [Hc _]. apply lookup_lt_Some in Hc. rewrite (iv_len _ Hi) in Hc. lia.
Qed.

Lemma inv_init n : inv (init n).
Proof.
  split; unfold init; simpl; try done.
  - intros [|k] a; simpl; [|done]. intros [= <-]. lia.
  - intros [|j] [|k] a; simpl; done.
  - intros a x [<- <-]%lookup_singleton_Some. by exists 0.
  - intros [|k] a _; [|done]. intros [= <-]. exists (Nd None None). split_and!; [done|by left|done].
  - by intros t a b [? _]%lookup_replicate.
  - by intros t t' a b b' [? _]%lookup_replicate.
Qed.

(** ** Steps of the producers *)

(** The last node is not linked, and nobody is about to link it. *)
Lemma head_node s : inv s ->
  exists x, heap s !! head s = Some x /\ next x = None /\ forall t b, pps s !! t <> Some (PLink (head s) b).
Proof.
  intros Hi. pose proof (iv_head _ Hi) as Hh. pose proof (inv_bounds _ Hi) as Hb.
  assert (Hend : chain s !! S (length (hist s)) = None) by (apply lookup_ge_None; rewrite (iv_len _ Hi); lia).
  destruct (iv_node _ Hi (length (hist s)) (head s)) as (x & Hx & Hl & _); [lia|done|]. exists x. split; [done|]. split.
  - destruct Hl as [->|[? _]]; done.
  - intros t b Ht. destruct (iv_link _ Hi _ _ _ Ht) as (k & _ & _ & Hk & Hk' & _).
    rewrite (iv_inj _ Hi _ _ _ Hk Hh) in Hk'. congruence.
Qed.

Lemma inv_start s t v : inv s -> pps s !! t = Some PIdle -> inv (set_pp t (PSwap v) s).
Proof.
  intros Hi Ht.
  assert (Hpp : forall t' a b, <[t:=PSwap v]> (pps s) !! t' = Some (PLink a b) <-> pps s !! t' = Some (PLink a b)).
  { intros t' a b. destruct (decide (t = t')) as [<-|]; [|by rewrite list_lookup_insert_ne].
    rewrite list_lookup_insert_eq by (by eapply lookup_lt_Some). rewrite Ht. done. }
  destruct Hi. split; unfold cp_ok; simpl; try done.
  - intros k a Hk Ha. destruct (iv_node0 k a Hk Ha) as (x & Hx & Hl & Hv). exists x. split_and!; [done| |done].
    destruct Hl as [?|(? & t' & b & Ht' & ?)]; [by left|right]. split; [done|]. exists t', b. by rewrite Hpp.
  - intros t' a b Ht'%Hpp. by eapply iv_link0.
  - intros t1 t2 a b b' H1%Hpp H2%Hpp. by eapply iv_uniq0.
Qed.

Lemma inv_swap s t v : inv s -> pps s !! t = Some (PSwap v) -> inv (set_pp t (PLink (head s) (fresh s)) (swap v s)).
Proof.
  intros Hi Ht. pose proof (inv_bounds _ Hi) as Hb. destruct (head_node s Hi) as (xh & Hxh & Hnh & Hoh).
  pose proof Hi as []. set (L := length (hist s)) in *.
  assert (Htl : t < length (pps s)) by (by eapply lookup_lt_Some).
  assert (Hold : forall a x, heap s !! a = Some x -> a <> fresh s).
  { intros a x Hx ->. destruct (iv_dom0 _ _ Hx) as (k & _ & Hk). apply iv_fresh0 in Hk. lia. }
  assert (Hch : forall k a, (chain s ++ [fresh s]) !! k = Some a <-> chain s !! k = Some a \/ k = S L /\ a = fresh s).
  { intros k a. rewrite lookup_snoc_Some. rewrite iv_len0. fold L. split.
    - intros [[_ ?]|[-> <-]]; [by left|by right].
    - intros [Hk|[-> ->]]; [left; split; [|done]|by right]. apply lookup_lt_Some in Hk. rewrite iv_len0 in Hk. done. }
  assert (Hpp : forall t' a b, <[t:=PLink (head s) (fresh s)]> (pps s) !! t' = Some (PLink a b) ->
    (t' = t /\ a = head s /\ b = fresh s) \/ (t' <> t /\ pps s !! t' = Some (PLink a b))).
  { intros t' a b [(<- & [= -> ->] & _)|[? ?]]%lookup_insert_list; [by left|right; auto]. }
  split; unfold cp_ok; simpl.
  - done.
  - rewrite !length_app. simpl. lia.
  - apply Hch. right. split; [rewrite length_app; simpl; fold L; lia|done].
  - apply Hch. by left.
  - intros k a [Hk|[_ ->]]%Hch; [apply iv_fresh0 in Hk|]; lia.
  - intros j k a [Hj|[-> ->]]%Hch [Hk|[-> Ha]]%Hch; try done; [by eapply iv_inj0| |].
    + subst a. apply iv_fresh0 in Hj. lia.
    + apply iv_fresh0 in Hk. lia.
  - intros a x [[<- <-]|[_ Ha]]%lookup_insert_Some.
    + exists (S L). split; [lia|]. apply Hch. by right.
    + destruct (iv_dom0 _ _ Ha) as (k & ? & ?). exists k. split; [done|]. apply Hch. by left.
  - intros k a Hk [Ha|[-> ->]]%Hch.
    + destruct (iv_node0 k a Hk Ha) as (x & Hx & Hl & Hv). exists x.
      assert (HkL : k < S L) by (apply lookup_lt_Some in Ha; by rewrite iv_len0 in Ha).
      rewrite lookup_insert_ne by (symmetry; by eapply Hold). split_and!; [done| |].
      * unfold linked. simpl. destruct (decide (k = L)) as [->|].
        -- right. assert (a = head s) as -> by congruence. assert (x = xh) as -> by congruence. split; [done|].
           exists t, (fresh s). rewrite list_lookup_insert_eq by done. split; [done|]. apply Hch. by right.
        -- rewrite lookup_app_l by (rewrite iv_len0; fold L; lia).
           destruct Hl as [?|(? & t' & b & Ht' & ?)]; [by left|right]. split; [done|]. exists t', b.
           rewrite list_lookup_insert_ne; [done|]. intros <-. congruence.
      * change (taken _) with (taken s). case_decide; [|done]. by rewrite lookup_app_l by (fold L; lia).
    + exists (Nd None (Some v)). rewrite lookup_insert_eq. split_and!; [done| |].
      * left. simpl. symmetry. apply lookup_ge_None. rewrite length_app, iv_len0. simpl. fold L. lia.
      * change (taken _) with (taken s). rewrite decide_True by (fold L; lia). simpl. by rewrite lookup_app_r, Nat.sub_diag by done.
  - intros t' a b [(-> & -> & ->)|[Hne Ht']]%Hpp.
    + exists L, xh. rewrite lookup_insert_ne by (symmetry; by eapply Hold). split_and!; [apply Hb| | |done|done].
      * apply Hch. by left.
      * apply Hch. by right.
    + destruct (iv_link0 _ _ _ Ht') as (k & x & ? & ? & ? & Hx & ?). exists k, x.
      rewrite lookup_insert_ne by (symmetry; by eapply Hold). rewrite !Hch. split_and!; [done|by left|by left|done|done].
  - intros t1 t2 a b b' [(-> & -> & _)|[_ H1]]%Hpp [(-> & E & _)|[_ H2]]%Hpp; [done| | |by eapply iv_uniq0].
    + by destruct (Hoh _ _ H2).
    + subst a. by destruct (Hoh _ _ H1).
  - unfold cp_ok in iv_cp0. destruct (cp s) as [| | |n|n w| | |]; try done.
    + rewrite length_app. simpl. fold L in iv_cp0. lia.
    + destruct iv_cp0 as [Hn (x & Hx & Hnx)]. split; [apply Hch; by left|]. exists x.
      rewrite lookup_insert_ne by (symmetry; by eapply Hold). done.
    + destruct iv_cp0 as [Hn (x & Hx & Hnx)]. split; [apply Hch; by left|]. exists x.
      rewrite lookup_insert_ne by (symmetry; by eapply Hold). done.
Qed.

Lemma inv_link s t a b x :
  inv s -> pps s !! t = Some (PLink a b) -> heap s !! a = Some x ->
  inv (set_pp t PIdle (set_heap (<[a := Nd (Some b) (value x)]> (heap s)) s)).
Proof.
  intros Hi Ht Hx. destruct (iv_link _ Hi _ _ _ Ht) as (k0 & x0 & Hk0 & Ha & Hb & Hx0 & Hn0).
  assert (x0 = x) as -> by congruence. pose proof Hi as [].
  assert (Hpp : forall t' a' b', <[t:=PIdle]> (pps s) !! t' = Some (PLink a' b') <-> t' <> t /\ pps s !! t' = Some (PLink a' b')).
  { intros t' a' b'. destruct (decide (t = t')) as [<-|].
    - rewrite list_lookup_insert_eq by (by eapply lookup_lt_Some). naive_solver.
    - rewrite list_lookup_insert_ne by done. naive_solver. }
  assert (Hother : forall t' a' b', t' <> t -> pps s !! t' = Some (PLink a' b') -> a' <> a).
  { intros t' a' b' Hne Ht' ->. by apply Hne, (iv_uniq0 t' t a b' b). }
  split; unfold cp_ok; simpl; try done.
  - intros c y [[<- <-]|[_ Hy]]%lookup_insert_Some; by eapply iv_dom0.
  - intros k c Hk Hc. destruct (decide (c = a)) as [->|Hne].
    + exists (Nd (Some b) (value x)). rewrite lookup_insert_eq. assert (k = k0) as -> by (by eapply iv_inj0).
      destruct (iv_node0 k0 a Hk Hc) as (y & Hy & _ & Hv). assert (y = x) as -> by congruence.
      split_and!; [done|left; by simpl|done].
    + destruct (iv_node0 k c Hk Hc) as (y & Hy & Hl & Hv). exists y. rewrite lookup_insert_ne by done.
      split_and!; [done| |done]. destruct Hl as [?|(? & t' & b' & Ht' & ?)]; [by left|right]. split; [done|].
      exists t', b'. simpl. split; [|done]. apply Hpp. split; [|done]. intros ->. congruence.
  - intros t' a' b' [Hne Ht']%Hpp. destruct (iv_link0 _ _ _ Ht') as (k & y & ? & ? & ? & ? & ?). exists k, y.
    rewrite lookup_insert_ne by (symmetry; by eapply Hother). by split_and!.
  - intros t1 t2 c b1 b2 [_ H1]%Hpp [_ H2]%Hpp. by eapply iv_uniq0.
  - unfold cp_ok in iv_cp0. destruct (cp s) as [| | |n|n w| | |]; try done;
      destruct iv_cp0 as [Hn (y & Hy & Hny)]; (split; [done|]); exists y;
      (rewrite lookup_insert_ne; [done|]); intros ->; congruence.
Qed.

(** ** Steps of the consumer *)

(** The consumer moves on without touching memory. *)
Lemma inv_cp s s' c :
  inv s -> s' = set_cp c s \/ (exists r, s' = set_cp c (add_out r s)) -> taken s' = taken s -> cp_ok s' -> inv s'.
Proof.
  intros [] Hs Ht Hc. destruct Hs as [->|[r ->]]; split; simpl in *; rewrite ?Ht; try done.
Qed.

Lemma inv_take s n m v :
  inv s -> cp s = CTake n -> heap s !! n = Some (Nd m (Some v)) ->
  inv (set_cp (CFree n v) (add_out (RPop (Some v)) (set_heap (<[n := Nd m None]> (heap s)) s))).
Proof.
  intros Hi Hc Hn. pose proof (iv_cp _ Hi) as Hcp. unfold cp_ok in Hcp. rewrite Hc in Hcp.
  destruct Hcp as [Hch (x & Hx & Hnx)]. pose proof Hi as [].
  assert (Htk : taken s = base s) by (unfold taken; by rewrite Hc).
  assert (Hlk : forall a y, heap s !! a = Some y -> exists y', <[n := Nd m None]> (heap s) !! a = Some y' /\ next y' = next y).
  { intros a y Hy. destruct (decide (a = n)) as [->|]; [|by exists y; rewrite lookup_insert_ne].
    exists (Nd m None). rewrite lookup_insert_eq. assert (y = Nd m (Some v)) as -> by congruence. done. }
  split; unfold cp_ok; simpl; try done.
  - intros a y [[<- <-]|[_ Hy]]%lookup_insert_Some; by eapply iv_dom0.
  - intros k a Hk Ha. destruct (iv_node0 k a Hk Ha) as (y & Hy & Hl & Hv). destruct (Hlk a y Hy) as (y' & Hy' & Hny).
    exists y'. split_and!; [done|unfold linked in *; by rewrite Hny|].
    unfold taken. simpl. rewrite Htk in Hv. destruct (decide (a = n)) as [->|Hne].
    + assert (k = S (base s)) as -> by (by eapply iv_inj0). rewrite lookup_insert_eq in Hy'. injection Hy' as <-.
      rewrite decide_False by lia. done.
    + rewrite lookup_insert_ne in Hy' by done. assert (y' = y) as -> by congruence. rewrite Hv.
      assert (k <> S (base s)) by congruence. by destruct (decide (base s < k)), (decide (S (base s) < k)); try lia.
  - intros t a b Ht. destruct (iv_link0 _ _ _ Ht) as (k & y & Hk & Ha & Hb & Hy & Hny).
    destruct (Hlk a y Hy) as (y' & Hy' & Hny'). exists k, y'. rewrite Htk in Hk. split_and!; try done; [|congruence].
    unfold taken. simpl. assert (k <> base s); [|lia]. intros ->. congruence.
  - split; [done|]. destruct (Hlk _ _ Hx) as (x' & Hx' & Hnx'). exists x'. by rewrite Hnx'.
Qed.

Lemma inv_free s n v :
  inv s -> cp s = CFree n v -> inv (set_cp (CDone (Some v)) (set_tail n (set_heap (delete (tail s) (heap s)) s))).
Proof.
  intros Hi Hc. pose proof (iv_cp _ Hi) as Hcp. unfold cp_ok in Hcp. rewrite Hc in Hcp.
  destruct Hcp as [Hch _]. pose proof Hi as [].
  assert (Htk : taken s = S (base s)) by (unfold taken; by rewrite Hc).
  assert (Hne : forall k a, S (base s) <= k -> chain s !! k = Some a -> tail s <> a).
  { intros k a Hk Ha <-. assert (k = base s); [by eapply iv_inj0|lia]. }
  split; unfold cp_ok; simpl; try done.
  - intros a x [Hne' Ha]%lookup_delete_Some. destruct (iv_dom0 _ _ Ha) as (k & Hk & Hka). exists k. split; [|done].
    assert (k <> base s); [|lia]. intros ->. congruence.
  - intros k a Hk Ha. destruct (iv_node0 k a ltac:(lia) Ha) as (x & Hx & Hl & Hv). exists x.
    rewrite lookup_delete_ne by (by eapply Hne). split_and!; [done|done|]. unfold taken. simpl. by rewrite Htk in Hv.
  - intros t a b Ht. destruct (iv_link0 _ _ _ Ht) as (k & x & Hk & Ha & ? & ? & ?). exists k, x.
    rewrite Htk in Hk. rewrite lookup_delete_ne by (by eapply Hne). by split_and!.
Qed.

(** The queue is empty exactly when the two ends meet. *)
Lemma ends_meet s : inv s -> (head s =? tail s) = bool_decide (base s = length (hist s)).
Proof.
  intros Hi. pose proof (iv_head _ Hi) as Hh. pose proof (iv_tail _ Hi) as Ht.
  destruct (Nat.eqb_spec (head s) (tail s)) as [He|Hne]; symmetry.
  - apply bool_decide_eq_true_2. rewrite He in Hh. by eapply iv_inj.
  - apply bool_decide_eq_false_2. intros He. rewrite He in Ht. congruence.
Qed.

(** The value the consumer is about to take is the front of the queue. *)
Lemma front_node s n :
  inv s -> cp s = CTake n -> exists m v, heap s !! n = Some (Nd m (Some v)) /\ hist s !! base s = Some v.
Proof.
  intros Hi Hc. pose proof (iv_cp _ Hi) as Hcp. unfold cp_ok in Hcp. rewrite Hc in Hcp. destruct Hcp as [Hch _].
  destruct (iv_node _ Hi (S (base s)) n ltac:(lia) Hch) as ([m v] & Hx & _ & Hv).
  unfold taken in Hv. rewrite Hc, decide_True in Hv by lia. simpl in Hv.
  apply lookup_lt_Some in Hch. rewrite (iv_len _ Hi) in Hch. destruct (lookup_lt_is_Some_2 (hist s) (base s)) as [w Hw]; [lia|].
  exists m, w. split; [|done]. congruence.
Qed.

Lemma inv_step_pop s s' : inv s -> step_pop s = Some s' -> inv s'.
Proof.
  intros Hi Hs. unfold step_pop in Hs. destruct (cp s) as [| | |n|n v| | |] eqn:Hc; try discriminate Hs.
  - injection Hs as <-. rewrite ends_meet by done. case_bool_decide as Hb.
    + eapply inv_cp; [done|right; by eexists| |done]. unfold taken. simpl. by rewrite Hc.
    + eapply inv_cp; [done|by left| |]; unfold taken, cp_ok; simpl; [by rewrite Hc|]. pose proof (inv_bounds _ Hi). lia.
  - destruct (iv_node _ Hi (base s) (tail s)) as (x & Hx & Hl & _); [done|apply Hi|]. rewrite Hx in Hs. injection Hs as <-.
    destruct (next x) as [n|] eqn:Hn; [|done]. eapply inv_cp; [done|by left| |]; unfold taken, cp_ok; simpl; [by rewrite Hc|].
    destruct Hl as [Hl|[? _]]; [|congruence]. split; [congruence|by exists x].
  - destruct (front_node s n Hi Hc) as (m & v & Hx & _). rewrite Hx in Hs. injection Hs as <-. by apply inv_take.
  - pose proof (iv_cp _ Hi) as Hcp. unfold cp_ok in Hcp. rewrite Hc in Hcp. destruct Hcp as [_ (x & Hx & _)].
    rewrite Hx in Hs. injection Hs as <-. by apply inv_free.
  - injection Hs as <-. eapply inv_cp; [done|by left| |done]. unfold taken. simpl. by rewrite Hc.
Qed.

Lemma inv_step s e s' : inv s -> step s e = Some s' -> inv s'.
Proof.
  intros Hi Hs. unfold step in Hs. rewrite (iv_fault _ Hi) in Hs. destruct e as [t v|t| | |].
  - destruct (pps s !! t) as [[]|] eqn:Ht; try discriminate Hs. injection Hs as <-. by apply inv_start.
  - destruct (pps s !! t) as [[|v|a b]|] eqn:Ht; try discriminate Hs; simpl in Hs.
    + injection Hs as <-. by apply inv_swap.
    + destruct (iv_link _ Hi _ _ _ Ht) as (k & x & _ & _ & _ & Hx & _). rewrite Hx in Hs. injection Hs as <-.
      by eapply inv_link.
  - destruct (idle (cp s)) eqn:Hc; [|done]. injection Hs as <-. eapply inv_cp; [done|by left| |done].
    unfold taken. simpl. by destruct (cp s).
  - destruct (idle (cp s)) eqn:Hc; [|done]. injection Hs as <-. eapply inv_cp; [done|by left| |done].
    unfold taken. simpl. by destruct (cp s).
  - by eapply inv_step_pop.
Qed.

Lemma inv_reachable n s : reachable step (init n) s -> inv s.
Proof. apply reachable_ind_inv; [apply inv_init|apply inv_step]. Qed.

(** ** Refinement *)

Lemma lq_view_pop s s' :
  inv s -> step_pop s = Some s' -> fault s' = false -> osteps (view s) (vis s C s') (view s').
Proof.
  intros Hi Hs Hf. unfold step_pop in Hs. destruct (cp s) as [| | |n|n v| | |] eqn:Hc; try discriminate Hs.
  - injection Hs as <-. rewrite ends_meet by done. case_bool_decide as Hb.
    + eapply osteps_eq; [eapply (fifo_answer _ OPop 0 []); [simpl; by rewrite Hc|]|done|].
      * simpl. unfold taken. by rewrite Hc, Hb, drop_all.
      * unfold view, taken. simpl. by rewrite Hb, drop_all.
    + eapply osteps_eq; [constructor|done|]. unfold view, taken. simpl. by rewrite Hc.
  - destruct (heap s !! tail s) as [x|]; injection Hs as <-; [|done].
    eapply osteps_eq; [constructor| |]; destruct (next x); unfold view, taken; simpl; by rewrite ?Hc.
  - destruct (front_node s n Hi Hc) as (m & v & Hx & Hv). rewrite Hx in Hs. injection Hs as <-.
    eapply osteps_eq; [apply osteps_one, (o_take _ OPop 0 (drop (S (base s)) (hist s)) (RPop (Some v))); [simpl; by rewrite Hc|]|done|done].
    simpl. unfold taken. rewrite Hc, (drop_S _ _ _ Hv). simpl. by rewrite drop_0.
  - destruct (heap s !! tail s); injection Hs as <-; [|done].
    eapply osteps_eq; [apply osteps_one, (o_cret _ (RPop (Some v))); simpl; by rewrite Hc|done|].
    unfold view, taken. simpl. by rewrite Hc.
  - injection Hs as <-. eapply osteps_eq; [constructor|done|]. unfold view, taken. simpl. by rewrite Hc.
Qed.

Lemma lq_view_push s t p s' :
  inv s -> pps s !! t = Some p -> step_push t p s = Some s' -> fault s' = false -> osteps (view s) (vis s (P t) s') (view s').
Proof.
  intros Hi Ht Hs Hf. pose proof (inv_bounds _ Hi) as Hb. assert (Hlt := lookup_lt_Some _ _ _ Ht).
  assert (Hp : producers (view s) !! t = Some (push_status p)) by (simpl; by rewrite list_lookup_fmap, Ht).
  destruct p as [|v|a b]; try discriminate Hs; simpl in Hs.
  - injection Hs as <-. eapply osteps_eq; [by apply osteps_one, (o_add _ t v)| |].
    + simpl. by rewrite list_lookup_insert_eq.
    + unfold view, push. simpl. rewrite list_fmap_insert. change (taken (set_pp _ _ _)) with (taken s).
      by rewrite (drop_app_le (hist s)) by lia.
  - destruct (heap s !! a); injection Hs as <-; [|done]. eapply osteps_eq; [by apply osteps_one, (o_pret _ t)| |].
    + simpl. by rewrite list_lookup_insert_eq.
    + unfold view. simpl. by rewrite list_fmap_insert.
Qed.

Lemma lq_view_step s e s' : inv s -> step s e = Some s' -> osteps (view s) (vis s e s') (view s').
Proof.
  intros Hi Hs. assert (Hf : fault s' = false) by (by eapply iv_fault, inv_step).
  unfold step in Hs. rewrite (iv_fault _ Hi) in Hs. destruct e as [t v|t| | |].
  - destruct (pps s !! t) as [[]|] eqn:Ht; try discriminate Hs. injection Hs as <-.
    eapply osteps_eq; [apply osteps_one, (o_pcall _ t v)|done|]; unfold view; simpl; [by rewrite list_lookup_fmap, Ht|].
    by rewrite list_fmap_insert.
  - destruct (pps s !! t) as [p|] eqn:Ht; [|done]. by eapply lq_view_push.
  - destruct (idle (cp s)) eqn:Hc; [|done]. injection Hs as <-.
    eapply osteps_eq; [apply osteps_one, (o_ccall _ OPop)|done|]; unfold view, taken; simpl; by destruct (cp s).
  - destruct (idle (cp s)) eqn:Hc; [|done]. injection Hs as <-.
    eapply osteps_eq; [constructor|done|]. unfold view, taken. simpl. by destruct (cp s).
  - by apply lq_view_pop.
Qed.

(** C34. The linked-list queue is linearizable and memory safe under every
    interleaving of its producers with the consumer: the calls and returns of a run,
    with the values [push] was called with and the answers of [pop], are those of an
    atomic FIFO queue, each call taking effect at one moment between its call and its
    return; so the values delivered and those left are, in this order, those of the
    pushes that took effect, each once and those of one producer in the order of its
    calls.  Nobody touches a freed node, the assertion of [pop] holds, the allocated
    nodes are the stub and those whose value was not taken, and [is_empty] answers
    whether the atomic queue is empty. *)
Theorem lq_refines_fifo n es s :
  run step es (init n) = Some s ->
  let h := history_of step vis es (init n) in
  osteps (start n) h (view s) /\ in_order n h (view s) /\ fault s = false /\
  (forall a x, heap s !! a = Some x -> exists k, base s <= k <= length (hist s) /\ chain s !! k = Some a) /\
  (forall s', cp s = CEmpty -> step s C = Some s' -> cp s' = CAnswer (bool_decide (content (view s) = []))).
Proof.
  intros Hr h. assert (Ho : osteps (start n) h (view s)).
  { assert (Hv : view (init n) = start n) by (unfold view, start; simpl; by rewrite fmap_replicate).
    rewrite <-Hv. apply (fifo_simulation step vis inv (fun _ => True) view); try done; [..|apply inv_init];
      intros; [by eapply inv_step|by apply lq_view_step]. }
  pose proof (inv_reachable _ _ (run_reachable _ _ _ _ Hr)) as Hi.
  split_and!; [done|by apply fifo_in_order|apply Hi| |].
  - intros a x Hx. destruct (iv_dom _ Hi _ _ Hx) as (k & Hk & Ha). exists k. split; [|done].
    apply lookup_lt_Some in Ha. rewrite (iv_len _ Hi) in Ha. lia.
  - intros s' Hc Hs. unfold step in Hs. rewrite (iv_fault _ Hi) in Hs. unfold step_pop in Hs. rewrite Hc in Hs.
    injection Hs as <-. simpl. rewrite ends_meet by done. f_equal. apply bool_decide_ext. unfold taken. rewrite Hc.
    pose proof (inv_bounds _ Hi). split; intros H0; [by rewrite H0, drop_all|].
    apply (f_equal length) in H0. rewrite length_drop in H0. simpl in H0. lia.
Qed.

(** ** Whole calls, and [Drop] *)

Fixpoint drive (n : nat) (s : state) : option state :=
  if idle (cp s) then Some s else
  match n with O => None | S n => match step s C with Some s' => drive n s' | None => None end end.
Definition call_pop (s : state) : option state :=
  match step s Pop with Some s' => drive 4 s' | None => None end.

(** [while self.pop().is_some() {}]. *)
Fixpoint drain (fuel : nat) (s : state) : option (list T * state) :=
  match fuel with
  | O => None
  | S fuel =>
      match call_pop s with
      | Some s' =>
          match cp s' with
          | CDone (Some v) => match drain fuel s' with Some (vs, s2) => Some (v :: vs, s2) | None => None end
          | CDone None => Some ([], s')
          | _ => None
          end
      | None => None
      end
  end.
(** [drop]: the values that are dropped and the heap that is left. *)
Definition drop_queue (fuel : nat) (s : state) : option (list T * gmap nat Node) :=
  match drain fuel s with
  | Some (vs, s') => match heap s' !! tail s' with Some _ => Some (vs, delete (tail s') (heap s')) | None => None end
  | None => None
  end.

(** No producer is in the middle of a [push]. *)
Definition quiet (s : state) : Prop := forall t p, pps s !! t = Some p -> p = PIdle.

Lemma lq_drive_step n s s1 : idle (cp s) = false -> step s C = Some s1 -> drive (S n) s = drive n s1.
Proof. intros Hi Hs. simpl. by rewrite Hi, Hs. Qed.

Lemma lq_call_pop_spec s :
  inv s -> quiet s -> idle (cp s) = true ->
  exists s', call_pop s = Some s' /\ inv s' /\ quiet s' /\ hist s' = hist s /\
    cp s' = CDone (hist s !! base s) /\
    base s' = (if decide (base s < length (hist s)) then S (base s) else base s).
Proof.
  intros Hi Hq Hc. pose proof (inv_bounds _ Hi) as Hb. pose proof (iv_fault _ Hi) as Hf.
  assert (H1 : step s Pop = Some (set_cp CLoad s)) by (unfold step; by rewrite Hf, Hc).
  pose proof (inv_step _ _ _ Hi H1) as Hi1. unfold call_pop. rewrite H1.
  assert (H2 : step (set_cp CLoad s) C = Some (if head s =? tail s then set_cp (CDone None) (add_out (RPop None) s) else set_cp CSpin s)).
  { unfold step. simpl. by rewrite Hf. }
  pose proof (inv_step _ _ _ Hi1 H2) as Hi2. rewrite (lq_drive_step 3 (set_cp CLoad s) _ eq_refl H2).
  rewrite ends_meet in * by done. case_bool_decide as He.
  - eexists. split_and!; [done|done|done|done| |].
    + simpl. by rewrite lookup_ge_None_2 by lia.
    + simpl. by rewrite decide_False by lia.
  - rewrite decide_True by lia.
    destruct (iv_node _ Hi2 (base s) (tail s)) as (x & Hx & Hl & _); [done|apply Hi|]. simpl in Hx.
    assert (Hn : exists n, next x = Some n).
    { destruct Hl as [Hl|[_ (t & b & Ht & _)]]; [|by apply Hq in Ht]. simpl in Hl. rewrite Hl. apply lookup_lt_is_Some.
      rewrite (iv_len _ Hi). lia. }
    destruct Hn as [n Hn].
    assert (H3 : step (set_cp CSpin s) C = Some (set_cp (CTake n) s)).
    { unfold step. simpl. rewrite Hf. unfold step_pop. simpl. by rewrite Hx, Hn. }
    pose proof (inv_step _ _ _ Hi2 H3) as Hi3. rewrite (lq_drive_step 2 (set_cp CSpin s) _ eq_refl H3).
    destruct (front_node _ n Hi3 eq_refl) as (m & v & Hnd & Hv). simpl in Hnd, Hv.
    set (s4 := set_cp (CFree n v) (add_out (RPop (Some v)) (set_heap (<[n := Nd m None]> (heap s)) s))).
    assert (H4 : step (set_cp (CTake n) s) C = Some s4).
    { unfold step. simpl. rewrite Hf. unfold step_pop. simpl. by rewrite Hnd. }
    pose proof (inv_step _ _ _ Hi3 H4) as Hi4. rewrite (lq_drive_step 1 (set_cp (CTake n) s) _ eq_refl H4).
    destruct (iv_cp _ Hi4) as [_ (y & Hy & _)].
    assert (H5 : step s4 C = Some (set_cp (CDone (Some v)) (set_tail n (set_heap (delete (tail s4) (heap s4)) s4)))).
    { unfold step. simpl. rewrite Hf. unfold step_pop. simpl. simpl in Hy. by rewrite Hy. }
    pose proof (inv_step _ _ _ Hi4 H5) as Hi5. rewrite (lq_drive_step 0 s4 _ eq_refl H5).
    eexists. split_and!; [done|done|done|done| |done]. simpl. by rewrite Hv.
Qed.

Lemma lq_drain_spec fuel : forall s,
  inv s -> quiet s -> idle (cp s) = true -> length (hist s) - base s < fuel ->
  exists s', drain fuel s = Some (drop (base s) (hist s), s') /\ inv s' /\ base s' = length (hist s').
Proof.
  induction fuel as [|fuel IH]; intros s Hi Hq Hc Hfuel; [lia|]. pose proof (inv_bounds _ Hi) as Hb.
  destruct (lq_call_pop_spec s Hi Hq Hc) as (s1 & Hs1 & Hi1 & Hq1 & Hh1 & Hc1 & Hb1). cbn [drain]. rewrite Hs1, Hc1.
  destruct (decide (base s < length (hist s))) as [Hlt|Hge].
  - destruct (lookup_lt_is_Some_2 (hist s) (base s) Hlt) as [v Hv]. rewrite Hv.
    destruct (IH s1 Hi1 Hq1) as (s' & Hs' & Hi' & He'); [by rewrite Hc1|rewrite Hh1; lia|].
    exists s'. rewrite Hs', Hb1, Hh1, (drop_S _ _ _ Hv). by split_and!.
  - rewrite lookup_ge_None_2 by lia. exists s1. rewrite drop_ge by lia. split_and!; [done|done|].
    rewrite Hh1. lia.
Qed.

(** Dropping the queue terminates, drops every value left once and in order, and
    frees every node, the stub included, exactly once. *)
Theorem lq_drop_frees_all n s fuel :
  reachable step (init n) s -> quiet s -> idle (cp s) = true -> length (hist s) - base s < fuel ->
  drop_queue fuel s = Some (drop (base s) (hist s), ∅).
Proof.
  intros Hr Hq Hc Hfuel. pose proof (inv_reachable _ _ Hr) as Hi.
  destruct (lq_drain_spec fuel s Hi Hq Hc Hfuel) as (s' & Hs' & Hi' & He). unfold drop_queue. rewrite Hs'.
  destruct (iv_node _ Hi' (base s') (tail s')) as (x & Hx & _); [done|apply Hi'|]. rewrite Hx. do 2 f_equal.
  apply map_eq. intros a. rewrite lookup_empty. destruct (decide (a = tail s')) as [->|Hne]; [apply lookup_delete_eq|].
  rewrite lookup_delete_ne by done. destruct (heap s' !! a) as [y|] eqn:Hy; [|done]. exfalso.
  destruct (iv_dom _ Hi' _ _ Hy) as (k & Hk & Ha). pose proof (iv_tail _ Hi') as Ht.
  assert (Hlt := lookup_lt_Some _ _ _ Ha). rewrite (iv_len _ Hi') in Hlt. assert (k = base s') as -> by lia. congruence.
Qed.

End queue.

(** ** A run: producer [1] swaps before producer [0] links, and the consumer waits *)

Definition demo : list (event (T := nat)) :=
  [Push 0 7; P 0; Push 1 8; P 1; P 1; Pop; C; C; C; P 0; C; C; C; IsEmpty; C].
Definition final : state (T := nat) := default (init 2) (run step demo (init 2)).

Example lq_demo_result :
  outs final = [RPop (Some 7)] /\ cp final = CAnswer false /\ drop_queue 5 final = Some ([8], ∅).
Proof. by vm_compute. Qed.

Lemma lq_final_reachable : reachable step (init 2) final.
Proof. apply run_reachable with (es := demo). vm_compute. reflexivity. Qed.

Lemma lq_refines_fifo_witness :
  let h := history_of step vis demo (init 2) in
  osteps (start 2) h (view final) /\ in_order 2 h (view final) /\ fault final = false /\
  delivered h = [7] /\ content (view final) = [8].
Proof.
  intros h. destruct (lq_refines_fifo 2 demo final) as (H1 & H2 & H3 & _); [vm_compute; reflexivity|].
  split_and!; [exact H1|exact H2|exact H3|vm_compute; reflexivity|vm_compute; reflexivity].
Defined.

Lemma lq_drop_frees_all_witness : drop_queue 2 final = Some ([8], ∅).
Proof.
  apply (lq_drop_frees_all 2 final 2 lq_final_reachable).
  - intros [|[|t]] p Hp; vm_compute in Hp; by simplify_eq.
  - vm_compute. reflexivity.
  - apply Nat.ltb_lt. vm_compute. reflexivity.
Defined.

End Lq.
