(* ===== verification/MpscQueue.v ===== *)
(** * MpscQueue: the unbounded multi-producer single-consumer queue

    [may_queue/src/mpsc.rs]: a linked list of blocks of 64 slots.  The tail is one
    word, the address of a block and the index of its next free slot, with a lock
    bit; a producer claims a slot with a compare-and-swap, and the one that claims
    the last slot of a block locks the tail until it has linked a new block.  The
    consumer frees a block one block late.  Any number of producers, the consumer
    and an observer (a thread that calls [len]) are interleaved one shared access
    at a time.  An allocation may return any address that is not in use. *)

From stdpp Require Import base numbers list gmap.
From Stdlib Require Import ZArith Lia ZifyNat.
From S2P Require Import Prelude Blocks Fifo.

#[local] Ltac Zify.zify_post_hook ::= Z.div_mod_to_equations.
#[local] Arguments Nat.div : simpl never.
#[local] Arguments Nat.modulo : simpl never.
#[local] Arguments Nat.mul : simpl never.

Module Mpsc.

Definition BLOCK_SHIFT : Z := 6.
Definition BLOCK_SIZE : Z := Z.shiftl 1 BLOCK_SHIFT.
Definition BLOCK_MASK : Z := BLOCK_SIZE - 1.

Definition block_end (start : Z) : Z := Z.ldiff (Word.add start BLOCK_SIZE) BLOCK_MASK.
Definition bulk_end (start end_ : Z) : Z := Z.min end_ (block_end start).

Import Fifo.

Section queue.
Context {T : Type}.
#[local] Abbreviation resp := (@Fifo.resp T).
#[local] Abbreviation obj := (@Fifo.obj T).
#[local] Abbreviation pstatus := (@Fifo.pstatus T).
#[local] Abbreviation cstatus := (@Fifo.cstatus T).
#[local] Abbreviation label := (@Fifo.label T).

(** ** Blocks.  A slot is empty ([ready] is 0), ready, or ready with its value
    moved out. *)
Inductive cell := SEmpty | SReady (v : T) | STaken.
Record block := Block { slots : list cell; next : option nat; start : Z }.

Definition new_box (index : Z) : block := Block (replicate (Z.to_nat BLOCK_SIZE) SEmpty) None index.
Definition slot (index : Z) : nat := Z.to_nat (Z.land index BLOCK_MASK).

Definition set_slot (i : nat) (c : cell) (b : block) : block := Block (<[i := c]> (slots b)) (next b) (start b).
Definition set (b : block) (id : Z) (v : T) : option block :=
  match slots b !! Z.to_nat id with Some SEmpty => Some (set_slot (Z.to_nat id) (SReady v) b) | _ => None end.
(** The inner option is the answer, the outer one is [None] when the value was
    moved out before. *)
Definition try_get (b : block) (id : nat) : option (option (T * block)) :=
  match slots b !! id with
  | Some SEmpty => Some None
  | Some (SReady v) => Some (Some (v, set_slot id STaken b))
  | _ => None
  end.
Definition peek_slot (b : block) (id : nat) : option (option T) :=
  match slots b !! id with Some SEmpty => Some None | Some (SReady v) => Some (Some v) | _ => None end.

(** ** The queue *)
Record position := Position { index : Z; block_of : nat }.
(** [BlockPtr]: the packed tail. *)
Record tail_ptr := Ptr { blk : nat; id : Z; locked : bool }.


(** A producer in [push].  [PSet] has claimed the slot of element number [x]
    (history). *)
Inductive ppc :=
  | PIdle | PLoad (v : T) | PCas (v : T) (old : tail_ptr) | PSet (v : T) (b : nat) (i : Z) (x : nat)
  | PNew (b : nat) | PWait (b n : nat) | PInstall (nb n : nat) | PTail (nb : nat).
(** The consumer: about to try the first slot, to try the next slot of a bulk, to
    load the push index, to wait for a slot that is claimed, to publish the new
    index, to free the old block, to move to the next block. *)
Inductive cpc :=
  | CIdle | CTry | CFast (acc : list T) | CIndex (k : op) | CGet (k : op) (push_index : Z)
  | CCopy (acc : list T) (e : Z) | CCommit (r : resp) (new_index : Z) | CSwap (r : resp) | CNextB (r : resp) | CDone (r : resp).
Inductive lpc := LIdle | LHead | LTail (h : Z) | LStart (h : Z) (t : tail_ptr) | LDone (n : Z) | LFault.

(** The history: the values in the order they were claimed, how many were popped,
    the answers, the addresses of the blocks in the order they were linked, and
    the first of them that is not freed. *)
Record history := History { hist : list T; gone : nat; outs : list resp; chain : list nat; base : nat }.

Record state := St {
  heap : gmap nat block; tail : tail_ptr; head : position; old_block : option nat;
  pps : list ppc; cp : cpc; lp : lpc; fault : bool; gh : history
}.

Definition init (n : nat) : state :=
  St {[ 0 := Block (slots (new_box 0)) (Some 1) 0; 1 := new_box BLOCK_SIZE ]} (Ptr 0 0 false) (Position 0 0) None
    (replicate n PIdle) CIdle LIdle false (History [] 0 [] [0; 1] 0).

Definition set_heap (m : gmap nat block) (s : state) : state :=
  St m (tail s) (head s) (old_block s) (pps s) (cp s) (lp s) (fault s) (gh s).
Definition set_tail (p : tail_ptr) (s : state) : state :=
  St (heap s) p (head s) (old_block s) (pps s) (cp s) (lp s) (fault s) (gh s).
Definition set_head (p : position) (s : state) : state :=
  St (heap s) (tail s) p (old_block s) (pps s) (cp s) (lp s) (fault s) (gh s).
Definition set_old (o : option nat) (s : state) : state :=
  St (heap s) (tail s) (head s) o (pps s) (cp s) (lp s) (fault s) (gh s).
Definition set_pp (t : nat) (p : ppc) (s : state) : state :=
  St (heap s) (tail s) (head s) (old_block s) (<[t := p]> (pps s)) (cp s) (lp s) (fault s) (gh s).
Definition set_cp (c : cpc) (s : state) : state :=
  St (heap s) (tail s) (head s) (old_block s) (pps s) c (lp s) (fault s) (gh s).
Definition set_lp (l : lpc) (s : state) : state :=
  St (heap s) (tail s) (head s) (old_block s) (pps s) (cp s) l (fault s) (gh s).
Definition set_gh (g : history) (s : state) : state :=
  St (heap s) (tail s) (head s) (old_block s) (pps s) (cp s) (lp s) (fault s) g.
Definition faulted (s : state) : state :=
  St (heap s) (tail s) (head s) (old_block s) (pps s) (cp s) (lp s) true (gh s).

Definition on_block {A} (a : nat) (f : block -> option A) (k : A -> state) (s : state) : state :=
  match heap s !! a ≫= f with Some x => k x | None => faulted s end.

(** ** [push] *)

(** The slot after the one claimed, or the lock bit. *)
Definition new_tail (t : tail_ptr) : tail_ptr :=
  if (id t <? BLOCK_MASK)%Z then Ptr (blk t) (id t + 1) false else Ptr (blk t) (id t) true.
Definition unlock (t : tail_ptr) : tail_ptr := Ptr (blk t) (id t) false.
#[global] Instance tail_ptr_eq_dec : EqDecision tail_ptr.
Proof. solve_decision. Defined.

(** [weak]: the compare-and-swap does not fail spuriously; [a]: the address the
    allocator returns. *)
Definition step_push (t : nat) (weak : bool) (a : nat) (s : state) : option state :=
  let g := gh s in
  match pps s !! t with
  | Some (PLoad v) => Some (set_pp t (PCas v (tail s)) s)
  | Some (PCas v old) =>
      let tail' := unlock old in
      Some (if (bool_decide (tail s = tail') && weak)%bool then
              set_gh (History (hist g ++ [v]) (gone g) (outs g) (chain g) (base g))
                (set_pp t (PSet v (blk tail') (id tail') (length (hist g))) (set_tail (new_tail tail') s))
            else set_pp t (PCas v (tail s)) s)
  | Some (PSet v b i _) =>
      Some (on_block b (fun bk => set bk i v) (fun bk =>
        set_pp t (if (i =? BLOCK_MASK)%Z then PNew b else PIdle) (set_heap (<[b := bk]> (heap s)) s)) s)
  | Some (PNew b) =>
      match heap s !! a with
      | Some _ => None
      | None =>
          Some (on_block b (fun bk => Some (start bk)) (fun st =>
            set_pp t (PWait b a) (set_heap (<[a := new_box (Word.add st (BLOCK_SIZE * 2))]> (heap s)) s)) s)
      end
  | Some (PWait b n) =>
      Some (on_block b (fun bk => Some (next bk)) (fun o =>
        match o with Some nb => set_pp t (PInstall nb n) s | None => s end) s)
  | Some (PInstall nb n) =>
      Some (on_block nb Some (fun bk =>
        set_gh (History (hist g) (gone g) (outs g) (chain g ++ [n]) (base g))
          (set_pp t (PTail nb) (set_heap (<[nb := Block (slots bk) (Some n) (start bk)]> (heap s)) s))) s)
  | Some (PTail nb) => Some (set_pp t PIdle (set_tail (Ptr nb 0 false) s))
  | _ => None
  end.

(** ** [pop], [bulk_pop] and [peek] *)

Definition respond (r : resp) (n : nat) (c : cpc) (s : state) : state :=
  let g := gh s in set_gh (History (hist g) (gone g + n) (outs g ++ [r]) (chain g) (base g)) (set_cp c s).

(** [get]: spins while the slot is not ready. *)
Definition spin_get (i : nat) (k : T -> block -> state) (s : state) : state :=
  on_block (block_of (head s)) (fun b => try_get b i) (fun o =>
    match o with Some (v, b) => k v b | None => s end) s.

(** [push_index]. *)
Definition push_index_of (t : tail_ptr) (b : block) : Z := Word.add (start b) (id t).

Definition step_pop (s : state) : option state :=
  let i := index (head s) in
  let put b := set_heap (<[block_of (head s) := b]> (heap s)) s in
  match cp s with
  | CTry =>
      Some (on_block (block_of (head s)) (fun b => try_get b (slot i)) (fun o =>
        match o with
        | Some (v, b) => set_cp (CCommit (RPop (Some v)) (Word.add i 1)) (put b)
        | None => set_cp (CIndex OPop) s
        end) s)
  | CFast acc =>
      let stop := set_cp (if decide (length acc = 0) then CIndex OBulk
                          else CCommit (RBulk acc) (Word.add i (Z.of_nat (length acc)))) s in
      if (Word.add i (Z.of_nat (length acc)) =? block_end i)%Z then Some stop
      else Some (on_block (block_of (head s)) (fun b => try_get b (slot i + length acc)) (fun o =>
             match o with Some (v, b) => set_cp (CFast (acc ++ [v])) (put b) | None => stop end) s)
  | CIndex k =>
      Some (on_block (blk (tail s)) (fun b => Some (push_index_of (tail s) b)) (fun push_index =>
        if (push_index <=? i)%Z then respond (empty_resp k) 0 (CDone (empty_resp k)) s
        else set_cp (match k with OBulk => CCopy [] (bulk_end i push_index) | _ => CGet k push_index end) s) s)
  | CGet OPop _ => Some (spin_get (slot i) (fun v b => set_cp (CCommit (RPop (Some v)) (Word.add i 1)) (put b)) s)
  | CGet _ _ =>
      Some (on_block (block_of (head s)) (fun b => peek_slot b (slot i)) (fun o =>
        match o with Some v => respond (RPeek (Some v)) 0 (CDone (RPeek (Some v))) s | None => s end) s)
  | CCopy acc e =>
      if (Word.add i (Z.of_nat (length acc)) =? e)%Z then Some (set_cp (CCommit (RBulk acc) e) s)
      else Some (spin_get (slot i + length acc) (fun v b => set_cp (CCopy (acc ++ [v]) e) (put b)) s)
  | CCommit r new_index =>
      Some (respond r (Z.to_nat (Word.sub new_index i))
        (if (Z.land new_index BLOCK_MASK =? 0)%Z then CSwap r else CDone r)
        (set_head (Position new_index (block_of (head s))) s))
  | CSwap r =>
      let g := gh s in
      let s' := set_cp (CNextB r) (set_old (Some (block_of (head s))) s) in
      Some (match old_block s with
            | Some o =>
                set_gh (History (hist g) (gone g) (outs g) (chain g) (S (base g))) (set_heap (delete o (heap s)) s')
            | None => s'
            end)
  | CNextB r =>
      Some (on_block (block_of (head s)) (fun b => Some (next b)) (fun o =>
        match o with Some n => set_cp (CDone r) (set_head (Position i n) s) | None => s end) s)
  | _ => None
  end.

(** ** [len], called by any thread *)
Definition step_len (s : state) : option state :=
  match lp s with
  | LHead => Some (set_lp (LTail (index (head s))) s)
  | LTail h => Some (set_lp (LStart h (tail s)) s)
  | LStart h t =>
      Some (set_lp (match heap s !! blk t with
                    | Some b => let p := push_index_of t b in LDone (if (p <=? h)%Z then 0 else p - h)
                    | None => LFault
                    end) s)
  | _ => None
  end.

Inductive event := Push (t : nat) (v : T) | Pop | BulkPop | Peek | Len | P (t : nat) (weak : bool) (a : nat) | C | L.

Definition idle (c : cpc) : bool := match c with CIdle | CDone _ => true | _ => false end.

Definition step (s : state) (e : event) : option state :=
  if fault s then None else
  match e with
  | Push t v => match pps s !! t with Some PIdle => Some (set_pp t (PLoad v) s) | _ => None end
  | Pop => if idle (cp s) then Some (set_cp CTry s) else None
  | BulkPop => if idle (cp s) then Some (set_cp (CFast []) s) else None
  | Peek => if idle (cp s) then Some (set_cp (CIndex OPeek) s) else None
  | Len => match lp s with LIdle | LDone _ => Some (set_lp LHead s) | _ => None end
  | P t weak a => step_push t weak a s
  | C => step_pop s
  | L => step_len s
  end.

(** ** Abstraction *)

Definition pushed (s : state) : nat := length (hist (gh s)).
(** [push_index]: the claimed slots, without the last one of a block while the tail
    is locked. *)
Definition visible (s : state) : nat := pushed s - (if locked (tail s) then 1 else 0).

(** How many pushes took effect.  A push takes effect when it claims its slot; the
    push into the last slot of a block when the tail is unlocked, or when its value
    is taken, if that is earlier. *)
Definition effective (s : state) : nat := Nat.max (visible s) (gone (gh s)).

(** Where the first [m] values of [h] took effect: has this push? *)
Definition push_status (h : list T) (m : nat) (p : ppc) : pstatus :=
  match p with
  | PIdle => PReady
  | PLoad v | PCas v _ => PCalled v
  | PSet v _ _ x => if bool_decide (x < m) then PApplied else PCalled v
  | PNew _ | PWait _ _ | PInstall _ _ | PTail _ => match drop m h with v :: _ => PCalled v | [] => PApplied end
  end.
Definition pop_status (c : cpc) : cstatus :=
  match c with
  | CIdle | CDone _ => CReady
  | CTry => CCalled OPop
  | CFast _ | CCopy _ _ => CCalled OBulk
  | CIndex k | CGet k _ => CCalled k
  | CCommit r _ => CCalled (op_of r)
  | CSwap r | CNextB r => CApplied r
  end.
(** The atomic object the state stands for. *)
Definition view_at (m : nat) (s : state) : obj :=
  Obj (drop (gone (gh s)) (take m (hist (gh s)))) (push_status (hist (gh s)) m <$> pps s) (pop_status (cp s)).
Definition view (s : state) : obj := view_at (effective s) s.

(** What a step shows: the calls, and the returns with the steps that return. *)
Definition vis (s : state) (e : event) (s' : state) : list label :=
  match e with
  | Push t v => [PCall t v]
  | P t _ _ => match pps s' !! t with Some PIdle => [PRet t] | _ => [] end
  | Pop => [CCall OPop]
  | BulkPop => [CCall OBulk]
  | Peek => [CCall OPeek]
  | C => match cp s' with CDone r => [CRet r] | _ => [] end
  | Len | L => []
  end.

(** ** Invariant *)

Definition tail_no (s : state) : nat := visible s / 64.
Definition taken (s : state) : nat :=
  match cp s with
  | CFast acc | CCopy acc _ => gone (gh s) + length acc
  | CCommit _ n => Z.to_nat n
  | _ => gone (gh s)
  end.
Definition head_no (s : state) : nat :=
  match cp s with CSwap _ | CNextB _ => gone (gh s) / 64 - 1 | _ => gone (gh s) / 64 end.

Definition claims (x : nat) (p : ppc) : Prop := match p with PSet _ _ _ y => y = x | _ => False end.
Definition claimless (p : ppc) : bool := match p with PSet _ _ _ _ => false | _ => true end.
Definition pending (s : state) (x : nat) : Prop := exists t p, pps s !! t = Some p /\ claims x p.

Definition cell_ok (s : state) (x : nat) (c : cell) : Prop :=
  match c with
  | STaken => x < taken s
  | SReady v => taken s <= x /\ hist (gh s) !! x = Some v /\ ~ pending s x
  | SEmpty => taken s <= x /\ (x < pushed s -> pending s x)
  end.

Definition block_ok (s : state) (k : nat) : Prop :=
  exists a b, chain (gh s) !! k = Some a /\ heap s !! a = Some b /\ length (slots b) = 64 /\
    start b = Z.of_nat (64 * k) /\ (S k < length (chain (gh s)) -> next b = chain (gh s) !! S k) /\
    forall i c, slots b !! i = Some c -> cell_ok s (64 * k + i) c.

(** A producer that is about to unlock the tail. *)
Definition installs (p : ppc) : Z :=
  match p with PSet _ _ i _ => b2z (i =? BLOCK_MASK)%Z | PNew _ | PWait _ _ | PInstall _ _ | PTail _ => 1 | _ => 0 end.
Definition installed (p : ppc) : Z := match p with PTail _ => 1 | _ => 0 end.

Definition new_ok (s : state) (n : nat) : Prop :=
  (forall k, base (gh s) <= k -> chain (gh s) !! k <> Some n) /\
  heap s !! n = Some (new_box (Z.of_nat (64 * (tail_no s + 2)))).

Definition pp_ok (s : state) (p : ppc) : Prop :=
  match p with
  | PSet v b i x =>
      chain (gh s) !! (x / 64) = Some b /\ i = Z.of_nat (x mod 64) /\ hist (gh s) !! x = Some v /\ taken s <= x /\
      (i = BLOCK_MASK -> locked (tail s) = true /\ S x = pushed s)
  | PNew b => chain (gh s) !! tail_no s = Some b
  | PWait b n => chain (gh s) !! tail_no s = Some b /\ new_ok s n
  | PInstall nb n => chain (gh s) !! S (tail_no s) = Some nb /\ new_ok s n
  | PTail nb => chain (gh s) !! S (tail_no s) = Some nb
  | _ => True
  end.

(** The values from the head that a response takes. *)
Definition front (s : state) (n : nat) : list T := take n (drop (gone (gh s)) (hist (gh s))).
Definition room (s : state) (n : nat) : Prop := n <= pushed s /\ n <= 64 * S (gone (gh s) / 64).

Definition resp_ok (s : state) (r : resp) (j : Z) : Prop :=
  (Z.of_nat (gone (gh s)) < j)%Z /\ room s (Z.to_nat j) /\
  match r with
  | RPop o => Z.to_nat j = S (gone (gh s)) /\ option_list o = front s 1
  | RBulk l => l = front s (Z.to_nat j - gone (gh s))
  | RPeek _ => False
  end.

Definition cp_ok (s : state) : Prop :=
  match cp s with
  | CFast acc => acc = front s (length acc) /\ room s (gone (gh s) + length acc)
  | CCopy acc e =>
      acc = front s (length acc) /\ (Z.of_nat (gone (gh s) + length acc) <= e)%Z /\
      (Z.of_nat (gone (gh s)) < e)%Z /\ room s (Z.to_nat e)
  | CGet _ e => (Z.of_nat (gone (gh s)) < e <= Z.of_nat (visible s))%Z
  | CCommit r n => resp_ok s r n
  | CSwap _ | CNextB _ => gone (gh s) mod 64 = 0 /\ 0 < gone (gh s)
  | _ => True
  end.

Definition old_ok (s : state) : Prop :=
  match cp s with
  | CNextB _ => base (gh s) = head_no s /\ old_block s = chain (gh s) !! head_no s
  | _ => match old_block s with
         | Some o => head_no s = S (base (gh s)) /\ chain (gh s) !! base (gh s) = Some o
         | None => head_no s = 0 /\ base (gh s) = 0
         end
  end.

Record inv (s : state) : Prop := {
  iv_fault : fault s = false;
  iv_tail : tail s = Ptr (default 0 (chain (gh s) !! tail_no s)) (Z.of_nat (visible s mod 64)) (locked (tail s));
  iv_lock : locked (tail s) = true -> S (visible s) = pushed s /\ visible s mod 64 = 63;
  iv_head : head s = Position (Z.of_nat (gone (gh s))) (default 0 (chain (gh s) !! head_no s));
  iv_gone : gone (gh s) <= pushed s;
  iv_old : old_ok s;
  iv_chain : (Z.of_nat (length (chain (gh s))) = Z.of_nat (tail_no s + 2) + zsum installed (pps s))%Z;
  iv_inst : zsum installs (pps s) = b2z (locked (tail s));
  iv_inj : forall j k a, base (gh s) <= j -> base (gh s) <= k -> chain (gh s) !! j = Some a -> chain (gh s) !! k = Some a -> j = k;
  iv_block : forall k, base (gh s) <= k < length (chain (gh s)) -> block_ok s k;
  iv_pp : forall t p, pps s !! t = Some p -> pp_ok s p;
  iv_uniq : forall t u p p' x, pps s !! t = Some p -> pps s !! u = Some p' -> claims x p -> claims x p' -> t = u;
  iv_cp : cp_ok s
}.

(** Fewer values than the indices can count. *)
Definition bounded (s : state) : Prop := (Z.of_nat (pushed s) + 256 <= Word.modulus)%Z.

(** ** Index arithmetic *)

Lemma mpsc_mask_nat x : Z.land (Z.of_nat x) BLOCK_MASK = Z.of_nat (x mod 64).
Proof. change BLOCK_MASK with (Z.ones (Z.of_nat 6)). apply Blk.mask_nat. Qed.

Lemma mpsc_slot_nat x : slot (Z.of_nat x) = x mod 64.
Proof. unfold slot. rewrite mpsc_mask_nat. apply Nat2Z.id. Qed.

Lemma mpsc_block_end_nat x : (Z.of_nat x + 64 < Word.modulus)%Z -> block_end (Z.of_nat x) = Z.of_nat (64 * S (x / 64)).
Proof.
  intros Hx. unfold block_end. change BLOCK_SIZE with (Z.of_nat (2 ^ 6)). change BLOCK_MASK with (Z.ones (Z.of_nat 6)).
  rewrite Blk.block_end_nat by (change (2 ^ 6) with 64; lia). done.
Qed.

(** ** Facts that follow from the invariant *)

Lemma mpsc_visible_le s : visible s <= pushed s.
Proof. unfold visible. lia. Qed.

Lemma mpsc_tail_room s : inv s -> pushed s <= 64 * tail_no s + 64 /\ 64 * tail_no s <= visible s.
Proof.
  intros Hi. pose proof (iv_lock _ Hi) as Hl. unfold tail_no, visible in *. destruct (locked (tail s)); [|lia].
  destruct (Hl eq_refl). lia.
Qed.

Lemma mpsc_taken_bounds s : inv s -> gone (gh s) <= taken s <= pushed s /\ head_no s <= gone (gh s) / 64.
Proof.
  intros Hi. pose proof (iv_gone _ Hi). pose proof (iv_cp _ Hi) as Hc. unfold taken, head_no, cp_ok, resp_ok, room in *.
  destruct (cp s); intuition lia.
Qed.

Lemma mpsc_base_head s : inv s -> base (gh s) <= head_no s.
Proof.
  intros Hi. pose proof (iv_old _ Hi) as Ho. unfold old_ok in Ho. destruct (cp s); try (case_match; lia); lia.
Qed.

Lemma mpsc_head_tail s : inv s -> head_no s <= S (tail_no s) /\ head_no s < length (chain (gh s)).
Proof.
  intros Hi. pose proof (mpsc_tail_room _ Hi). pose proof (mpsc_taken_bounds _ Hi). pose proof (iv_gone _ Hi).
  pose proof (iv_chain _ Hi) as Hc. pose proof (zsum_nonneg installed (pps s) ltac:(intros []; simpl; lia)). lia.
Qed.

Lemma mpsc_base_tail s : inv s -> base (gh s) <= tail_no s.
Proof.
  intros Hi. pose proof (mpsc_base_head _ Hi). pose proof (mpsc_head_tail _ Hi) as [? _].
  pose proof (iv_old _ Hi) as Ho. pose proof (mpsc_tail_room _ Hi). pose proof (iv_gone _ Hi). pose proof (iv_cp _ Hi) as Hc.
  destruct (decide (head_no s <= tail_no s)); [lia|]. unfold old_ok, cp_ok, head_no in *. destruct (cp s); try (case_match; lia). lia.
Qed.

Lemma mpsc_chain_len s : inv s -> tail_no s + 2 <= length (chain (gh s)).
Proof.
  intros Hi. pose proof (iv_chain _ Hi) as Hc. pose proof (zsum_nonneg installed (pps s) ltac:(intros []; simpl; lia)). lia.
Qed.

Lemma mpsc_head_block s :
  inv s -> block_ok s (head_no s) /\ chain (gh s) !! head_no s = Some (block_of (head s)).
Proof.
  intros Hi. pose proof (mpsc_base_head _ Hi). pose proof (mpsc_head_tail _ Hi).
  pose proof (iv_block _ Hi (head_no s) ltac:(lia)) as Hb. split; [done|].
  destruct Hb as (a & b & Ha & _). rewrite (iv_head _ Hi). simpl. by rewrite Ha.
Qed.

Lemma mpsc_fault_free {A} a (f : block -> option A) k s b x :
  heap s !! a = Some b -> f b = Some x -> on_block a f k s = k x.
Proof. unfold on_block. intros -> Hf. simpl. by rewrite Hf. Qed.

(** At most one producer installs a block, and only while the tail is locked. *)
Lemma mpsc_installs_nonneg p : (0 <= installs p)%Z.
Proof. destruct p; simpl; try lia. apply b2z_nonneg. Qed.
Lemma mpsc_installing_locked s t p : inv s -> pps s !! t = Some p -> (0 < installs p)%Z -> locked (tail s) = true.
Proof.
  intros Hi Ht Hp. pose proof (iv_inst _ Hi) as H. pose proof (zsum_lookup_le _ _ _ _ mpsc_installs_nonneg Ht).
  destruct (locked (tail s)); simpl in H; [done|lia].
Qed.
Lemma mpsc_installing_unique s t u p p' :
  inv s -> pps s !! t = Some p -> pps s !! u = Some p' -> (0 < installs p)%Z -> (0 < installs p')%Z -> t = u.
Proof.
  intros Hi Ht Hu Hp Hp'. destruct (decide (t = u)) as [|Hne]; [done|].
  pose proof (iv_inst _ Hi) as H. pose proof (zsum_lookup2_le _ _ _ _ _ _ mpsc_installs_nonneg Hne Ht Hu).
  destruct (locked (tail s)); simpl in H; lia.
Qed.
Lemma mpsc_installed_zero s t p :
  inv s -> pps s !! t = Some p -> (0 < installs p)%Z -> installed p = 0%Z -> zsum installed (pps s) = 0%Z.
Proof.
  intros Hi Ht Hp Hz. apply zsum_all_zero. intros u p' Hu.
  destruct (decide (t = u)) as [->|Hne]; [congruence|]. destruct p'; try done.
  by destruct Hne; eapply mpsc_installing_unique.
Qed.

(** ** Preservation *)

Lemma mpsc_block_ext s s' k :
  chain (gh s') !! k = chain (gh s) !! k -> (forall a, chain (gh s) !! k = Some a -> heap s' !! a = heap s !! a) ->
  (S k < length (chain (gh s')) -> S k < length (chain (gh s)) /\ chain (gh s') !! S k = chain (gh s) !! S k) ->
  (forall i c, i < 64 -> cell_ok s (64 * k + i) c -> cell_ok s' (64 * k + i) c) -> block_ok s k -> block_ok s' k.
Proof.
  intros Hc Hh Hn Hcell (a & b & Ha & Hb & Hl & Hst & Hnx & Hd). exists a, b. rewrite Hc, (Hh a Ha). split_and!; try done.
  - intros [? ->]%Hn. by apply Hnx.
  - intros i c Hi. apply Hcell; [|by apply Hd]. apply lookup_lt_Some in Hi. lia.
Qed.

Lemma mpsc_cell_ext s s' x c :
  taken s' = taken s -> gh s' = gh s -> pps s' = pps s -> cell_ok s x c -> cell_ok s' x c.
Proof. unfold cell_ok, pending, pushed. by intros -> -> ->. Qed.

(** Only the consumer's and the observer's program counters move. *)
Lemma mpsc_inv_cp s c l :
  inv s -> let s' := set_cp c (set_lp l s) in
  taken s' = taken s -> head_no s' = head_no s -> old_ok s' -> cp_ok s' -> inv s'.
Proof.
  intros Hi s' H1 H2 Ho Hc. pose proof Hi as []. split; rewrite ?H2; try done.
  - intros k Hk. eapply (mpsc_block_ext s); simpl; [done|done|done| |by auto]. intros i x _. by apply mpsc_cell_ext.
  - intros t p Hp. specialize (iv_pp0 t p Hp). destruct p; simpl in *; rewrite ?H1; done.
Qed.

Lemma mpsc_pending_insert s t p p' x :
  pps s !! t = Some p -> ~ claims x p' -> pending (set_pp t p' s) x <-> exists u r, u <> t /\ pps s !! u = Some r /\ claims x r.
Proof.
  intros Ht Hn. split.
  - intros (u & r & [(<- & -> & _)|[? ?]]%lookup_insert_list & Hc); [done|]. by exists u, r.
  - intros (u & r & ? & ? & ?). exists u, r. split; [|done]. simpl. by rewrite list_lookup_insert_ne.
Qed.

(** Cells when the slots that are claimed stay the same. *)
Lemma mpsc_cell_pending s s' x c :
  taken s' = taken s -> hist (gh s') = hist (gh s) -> (pending s' x <-> pending s x) -> cell_ok s x c -> cell_ok s' x c.
Proof. unfold cell_ok, pushed. intros -> -> Hp. destruct c; rewrite ?Hp; done. Qed.

Lemma mpsc_claimless_not p x : claimless p = true -> ~ claims x p.
Proof. destruct p; simpl; auto. Qed.

Lemma mpsc_pending_same s t p p' x :
  pps s !! t = Some p -> claimless p = true -> claimless p' = true -> pending (set_pp t p' s) x <-> pending s x.
Proof.
  intros Ht Hp Hp'. rewrite (mpsc_pending_insert _ _ _ _ _ Ht (mpsc_claimless_not _ x Hp')). split.
  - intros (u & r & _ & ? & ?). by exists u, r.
  - intros (u & r & Hu & Hc). exists u, r. split; [|done]. intros ->. rewrite Ht in Hu. injection Hu as <-. by apply (mpsc_claimless_not p x).
Qed.

(** One producer moves, without claiming or filling a slot; [s1] is the new state
    but for its program counter. *)
Lemma mpsc_inv_pp s s1 t p p' :
  inv s -> pps s !! t = Some p -> claimless p = true -> claimless p' = true ->
  installs p' = installs p -> pps s1 = pps s -> tail s1 = tail s -> head s1 = head s -> old_block s1 = old_block s ->
  cp s1 = cp s -> fault s1 = fault s -> hist (gh s1) = hist (gh s) -> gone (gh s1) = gone (gh s) ->
  base (gh s1) = base (gh s) ->
  (Z.of_nat (length (chain (gh s1))) - installed p' = Z.of_nat (length (chain (gh s))) - installed p)%Z ->
  (forall k a, chain (gh s) !! k = Some a -> chain (gh s1) !! k = Some a) ->
  (forall j k a, base (gh s) <= j -> base (gh s) <= k -> chain (gh s1) !! j = Some a -> chain (gh s1) !! k = Some a -> j = k) ->
  (forall k, base (gh s) <= k < length (chain (gh s1)) -> block_ok (set_pp t p' s1) k) ->
  (forall u r, pps s !! u = Some r -> u <> t -> pp_ok s r -> pp_ok s1 r) -> pp_ok s1 p' ->
  inv (set_pp t p' s1).
Proof.
  intros Hi Ht Hc Hc' Hin Hpps Htl Hhd Hold Hcp Hf Hh Hg Hb Hlen Hch Hinj Hblk Hpp Hp'.
  assert (Hvis : visible s1 = visible s) by (unfold visible, pushed; by rewrite Hh, Htl).
  assert (Htn : tail_no s1 = tail_no s) by (unfold tail_no; by rewrite Hvis).
  assert (Hhn : head_no s1 = head_no s) by (unfold head_no; by rewrite Hcp, Hg).
  assert (Hpu : pushed s1 = pushed s) by (unfold pushed; by rewrite Hh).
  assert (Hfr : forall n, front s1 n = front s n) by (intros n; unfold front; by rewrite Hh, Hg).
  pose proof (mpsc_head_tail _ Hi). pose proof (mpsc_chain_len _ Hi).
  assert (Hd : forall k, k < length (chain (gh s)) -> chain (gh s1) !! k = chain (gh s) !! k).
  { intros k Hk. destruct (lookup_lt_is_Some_2 _ _ Hk) as [a Ha]. rewrite Ha. by apply Hch. }
  pose proof Hi as []. split.
  - simpl. congruence.
  - change (tail_no (set_pp t p' s1)) with (tail_no s1). change (visible (set_pp t p' s1)) with (visible s1).
    simpl. rewrite Htl, Htn, Hvis, Hd by lia. done.
  - change (visible (set_pp t p' s1)) with (visible s1). change (pushed (set_pp t p' s1)) with (pushed s1). simpl.
    by rewrite Htl, Hvis, Hpu.
  - change (head_no (set_pp t p' s1)) with (head_no s1). simpl. rewrite Hhd, Hhn, Hg, Hd by lia. done.
  - change (pushed (set_pp t p' s1)) with (pushed s1). simpl. by rewrite Hg, Hpu.
  - unfold old_ok in *. change (head_no (set_pp t p' s1)) with (head_no s1). simpl. rewrite Hcp, Hhn, Hb, Hold.
    destruct (cp s); try (by rewrite Hd by lia); (case_match; [|done]; destruct iv_old0 as [? ?]; split; [done|by apply Hch]).
  - change (tail_no (set_pp t p' s1)) with (tail_no s1). simpl. rewrite Hpps. zsum_update. rewrite Htn. lia.
  - simpl. rewrite Hpps. zsum_update. rewrite Htl. lia.
  - simpl. by rewrite Hb.
  - simpl. rewrite Hb. done.
  - simpl. intros u r [(<- & -> & _)|[Hne Hu]]%lookup_insert_list; [done|]. rewrite Hpps in Hu.
    apply (Hpp u r Hu); [done|]. by eapply iv_pp0.
  - simpl. rewrite Hpps. intros u w r r' x [(<- & -> & _)|[_ Hu]]%lookup_insert_list [(<- & -> & _)|[_ Hw]]%lookup_insert_list Hx Hx'; try done.
    + by destruct (mpsc_claimless_not p' x).
    + by destruct (mpsc_claimless_not p' x).
    + by eapply iv_uniq0.
  - unfold cp_ok, resp_ok, room in *. change (visible (set_pp t p' s1)) with (visible s1).
    change (pushed (set_pp t p' s1)) with (pushed s1).
    assert (Hfr' : forall n, front (set_pp t p' s1) n = front s n) by (intros n; apply Hfr).
    simpl. rewrite Hcp, Hg, Hpu, Hvis. destruct (cp s) as [| | | | | |r n|r|r|r]; by rewrite ?Hfr'.
Qed.

(** The same when the producer's program counter is all that changes. *)
Lemma mpsc_inv_pp_only s t p p' :
  inv s -> pps s !! t = Some p -> claimless p = true -> claimless p' = true ->
  installs p' = installs p -> installed p' = installed p -> pp_ok s p' -> inv (set_pp t p' s).
Proof.
  intros Hi Ht Hc Hc' Hin Hid Hp. pose proof Hi as []. apply (mpsc_inv_pp s s t p); try done; [lia|].
  intros k Hk. eapply (mpsc_block_ext s); simpl; [done|done|done| |by auto].
  intros i c _. apply mpsc_cell_pending; [done|done|]. by eapply mpsc_pending_same.
Qed.

Lemma mpsc_new_tail_facts s :
  inv s -> locked (tail s) = false ->
  let t' := new_tail (tail s) in
  blk t' = blk (tail s) /\ (locked t' = true <-> visible s mod 64 = 63) /\
  id t' = Z.of_nat (if decide (visible s mod 64 = 63) then 63 else S (visible s) mod 64).
Proof.
  intros Hi Hl t'. unfold t', new_tail. rewrite (iv_tail _ Hi). simpl. change BLOCK_MASK with 63%Z.
  case_decide; destruct (Z.ltb_spec (Z.of_nat (visible s mod 64)) 63); simpl; split_and!; try done; lia.
Qed.

(** A producer claims a slot. *)
Lemma mpsc_claim_inv s t v old weak a s' :
  inv s -> pps s !! t = Some (PCas v old) -> step_push t weak a s = Some s' -> inv s'.
Proof.
  intros Hi Ht Hs. unfold step_push in Hs. rewrite Ht in Hs. injection Hs as <-.
  destruct (bool_decide_reflect (tail s = unlock old)) as [Htl|]; cbn [andb]; [|by eapply mpsc_inv_pp_only].
  destruct weak; [|by eapply mpsc_inv_pp_only].
  assert (Hl : locked (tail s) = false) by (by rewrite Htl).
  change (blk old) with (blk (unlock old)). change (id old) with (id (unlock old)). rewrite <-Htl.
  destruct (mpsc_new_tail_facts _ Hi Hl) as (Hblk & Hlk & Hid).
  assert (Hv : visible s = pushed s) by (unfold visible; rewrite Hl; lia).
  assert (Hidt : id (tail s) = Z.of_nat (visible s mod 64)) by (by rewrite (iv_tail _ Hi)).
  assert (Hblkt : blk (tail s) = default 0 (chain (gh s) !! tail_no s)) by (by rewrite (iv_tail _ Hi)).
  set (s' := set_gh _ _).
  assert (Hpu : pushed s' = S (pushed s)) by (unfold pushed, s'; simpl; rewrite length_app; simpl; lia).
  assert (Hv' : visible s' = if decide (visible s mod 64 = 63) then visible s else S (visible s)).
  { unfold visible at 1. change (tail s') with (new_tail (tail s)). rewrite Hpu. case_decide as Hd.
    - apply Hlk in Hd as ->. lia.
    - destruct (locked (new_tail (tail s))); [by destruct Hd; apply Hlk|lia]. }
  assert (Htn : tail_no s' = tail_no s) by (unfold tail_no; rewrite Hv'; case_decide; lia).
  assert (Hpend : forall x, pending s' x <-> x = pushed s \/ pending s x).
  { intros x. split.
    - intros (u & r & [(<- & -> & _)|[? ?]]%lookup_insert_list & Hc); [by left|]. right. by exists u, r.
    - intros [->|(u & r & Hu & Hc)].
      + exists t, (PSet v (blk (tail s)) (id (tail s)) (pushed s)). split; [|done]. unfold s'. simpl.
        rewrite list_lookup_insert_eq by (by eapply lookup_lt_Some). done.
      + exists u, r. split; [|done]. unfold s'. simpl. rewrite list_lookup_insert_ne; [done|]. intros <-. rewrite Ht in Hu. by simplify_eq. }
  assert (Hold : forall x w, hist (gh s) !! x = Some w -> hist (gh s') !! x = Some w) by (intros; by apply lookup_app_l_Some).
  assert (Hlt : forall u b j w x, pps s !! u = Some (PSet w b j x) -> x < pushed s).
  { intros u b j w x Hu. destruct (iv_pp _ Hi _ _ Hu) as (_ & _ & Hx & _). by apply lookup_lt_Some in Hx. }
  pose proof (mpsc_taken_bounds _ Hi) as [Htk _]. pose proof (mpsc_chain_len _ Hi). pose proof (iv_gone _ Hi) as Hgn.
  assert (Hfr : forall n, gone (gh s) + n <= pushed s -> front s' n = front s n).
  { intros n Hn. unfold front, s'. simpl. unfold pushed in Hn. rewrite drop_app_le by lia.
    apply take_app_le. rewrite length_drop. lia. }
  assert (Hroom : forall n, room s n -> room s' n) by (unfold room; rewrite Hpu; simpl; intros; lia).
  pose proof Hi as []. split; rewrite ?Htn; try done.
  - simpl. destruct (new_tail (tail s)) as [nb ni nl] eqn:Hnt. simpl in *. rewrite Hblk, Hid, iv_tail0. simpl. f_equal.
    rewrite Hv'. case_decide as Hd; [by rewrite Hd|done].
  - simpl. intros Hlk'. apply Hlk in Hlk' as Hd. rewrite Hv', Hpu, decide_True by done. lia.
  - rewrite Hpu. simpl. lia.
  - unfold s'. simpl. zsum_update. simpl. lia.
  - unfold s'. simpl. zsum_update. rewrite iv_inst0, Hl. simpl. rewrite iv_tail0. simpl.
    change BLOCK_MASK with 63%Z. destruct (Z.eqb_spec (Z.of_nat (visible s mod 64)) 63) as [Hd|Hd].
    + assert (locked (new_tail (tail s)) = true) as Hx by (apply Hlk; lia). rewrite <-iv_tail0, Hx. done.
    + destruct (locked (new_tail (tail s))) eqn:Hx; rewrite <-iv_tail0, Hx; [|done]. apply proj1 in Hlk. specialize (Hlk eq_refl). lia.
  - intros k Hk. eapply (mpsc_block_ext s); simpl; [done|done|done| |by auto].
    intros i c Hi64. unfold cell_ok. change (taken s') with (taken s). destruct c as [|w|].
    + intros [? Hp]. rewrite Hpu, Hpend. split; [done|]. intros. destruct (decide (64 * k + i = pushed s)); [by left|right; apply Hp; lia].
    + intros (? & Hw & Hp). rewrite Hpend. split_and!; [done|by apply Hold|]. intros [Heq|?]; [|done]. apply lookup_lt_Some in Hw.
      unfold pushed in Heq. lia.
    + done.
  - unfold s' at 1. simpl. intros u r [(<- & -> & _)|[Hne Hu]]%lookup_insert_list.
    + unfold pp_ok. rewrite Hidt, Hblkt. change (length (hist (gh s))) with (pushed s). rewrite <-Hv. split_and!; [|done| | |].
      * change (visible s / 64) with (tail_no s). destruct (lookup_lt_is_Some_2 (chain (gh s)) (tail_no s)) as [b Hb]; [lia|]. by rewrite Hb.
      * apply list_lookup_middle. by rewrite Hv.
      * change (taken s') with (taken s). lia.
      * intros Hm. change BLOCK_MASK with 63%Z in Hm. split; [|by rewrite Hpu, Hv]. change (tail s') with (new_tail (tail s)). apply Hlk. lia.
    + specialize (iv_pp0 u r Hu). assert (Hz : locked (tail s') = false -> (0 < installs r)%Z -> False).
      { intros _ Hpos. by rewrite (mpsc_installing_locked _ _ _ Hi Hu Hpos) in Hl. }
      assert (Hz' : (0 < installs r)%Z -> False) by (intros Hpos; by rewrite (mpsc_installing_locked _ _ _ Hi Hu Hpos) in Hl).
      destruct r as [| | |w b j x|b|b n|nb n|nb]; simpl in *; try done; try (destruct Hz'; lia).
      destruct iv_pp0 as (? & ? & ? & ? & Hm). split_and!; [done|done|by apply Hold|done|].
      intros Hj. destruct (Hm Hj). congruence.
  - unfold s'. simpl. intros u w r r' x [(<- & -> & _)|[_ Hu]]%lookup_insert_list [(<- & -> & _)|[_ Hw]]%lookup_insert_list Hx Hx'; try done.
    + simpl in Hx. destruct r'; try done. simpl in Hx'. subst. specialize (Hlt _ _ _ _ _ Hw). unfold pushed in Hlt. lia.
    + simpl in Hx'. destruct r; try done. simpl in Hx. subst. specialize (Hlt _ _ _ _ _ Hu). unfold pushed in Hlt. lia.
    + by eapply iv_uniq0.
  - unfold cp_ok, resp_ok in *. change (cp s') with (cp s). change (gone (gh s')) with (gone (gh s)).  unfold room in *.
    rewrite Hpu. destruct (cp s) as [| |acc|k|k e|acc e|r n|r|r|r]; try done.
    + destruct iv_cp0 as (? & ? & ?). rewrite Hfr by lia. split_and!; [done|lia|done].
    + rewrite Hv'. case_decide; lia.
    + destruct iv_cp0 as (? & ? & ? & ? & ?). rewrite Hfr by lia. split_and!; [done|done|done|lia|done].
    + destruct iv_cp0 as (? & [? ?] & ?). split_and!; [done|lia|done|]. destruct r; [|..]; rewrite ?Hfr by lia; done.
Qed.

(** A producer fills the slot it has claimed. *)
Lemma mpsc_fill_inv s t v b j x weak a s' :
  inv s -> pps s !! t = Some (PSet v b j x) -> step_push t weak a s = Some s' -> inv s'.
Proof.
  intros Hi Ht Hs. unfold step_push in Hs. rewrite Ht in Hs.
  destruct (iv_pp _ Hi _ _ Ht) as (Hch & Hj & Hx & Htk & Hm).
  pose proof (mpsc_taken_bounds _ Hi) as [Hg Hh]. pose proof (mpsc_base_head _ Hi) as Hbh. pose proof (mpsc_tail_room _ Hi) as Htr.
  pose proof (mpsc_chain_len _ Hi) as Hcl.
  assert (Hxl : x < pushed s) by (by apply lookup_lt_Some in Hx).
  assert (Hal : base (gh s) <= x / 64) by lia.
  destruct (iv_block _ Hi (x / 64)) as (a' & bk & Ha' & Hbk & Hlen & Hst & Hnx & Hcells);
    [split; [done|]; by apply lookup_lt_Some in Hch|].
  rewrite Hch in Ha'. injection Ha' as <-.
  destruct (lookup_lt_is_Some_2 (slots bk) (x mod 64)) as [c Hc]; [lia|].
  assert (Hxx : 64 * (x / 64) + x mod 64 = x) by lia.
  pose proof (Hcells _ _ Hc) as Hcell. rewrite Hxx in Hcell.
  assert (c = SEmpty) as ->.
  { destruct c; simpl in Hcell; [done| |lia]. destruct Hcell as (_ & _ & []). by exists t, (PSet v b j x). }
  assert (Hset : set bk j v = Some (set_slot (x mod 64) (SReady v) bk)) by (unfold set; by rewrite Hj, Nat2Z.id, Hc).
  rewrite (mpsc_fault_free _ _ _ _ _ _ Hbk Hset) in Hs. injection Hs as <-.
  set (p' := if (j =? BLOCK_MASK)%Z then PNew b else PIdle). set (s' := set_pp t p' _).
  assert (Hcl' : claimless p' = true) by (unfold p'; by case_match).
  assert (Hpend : forall y, pending s' y <-> pending s y /\ y <> x).
  { intros y. unfold s'. rewrite (mpsc_pending_insert _ t (PSet v b j x) p' y Ht (mpsc_claimless_not _ y Hcl')). simpl. split.
    - intros (u & r & Hne & Hu & Hcy). split; [by exists u, r|]. intros ->. apply Hne. by eapply (iv_uniq _ Hi u t).
    - intros [(u & r & Hu & Hcy) Hne]. exists u, r. split_and!; [|done|done]. intros ->. rewrite Ht in Hu. by simplify_eq. }
  assert (Hins : installs p' = installs (PSet v b j x)) by (unfold p'; simpl; by destruct (j =? BLOCK_MASK)%Z).
  assert (Hind : installed p' = 0%Z) by (unfold p'; by case_match).
  pose proof Hi as []. split; try done.
  - change (pps s') with (<[t := p']> (pps s)). zsum_update.
    change (tail_no s') with (tail_no s). change (chain (gh s')) with (chain (gh s)). simpl. lia.
  - change (pps s') with (<[t := p']> (pps s)). zsum_update. change (tail s') with (tail s). lia.
  - intros k Hk. destruct (decide (k = x / 64)) as [->|Hne].
    + exists b, (set_slot (x mod 64) (SReady v) bk). unfold s'. simpl. rewrite lookup_insert_eq, length_insert.
      split_and!; [done..|]. intros i c [(<- & -> & _)|[Hni Hic]]%lookup_insert_list.
      * rewrite Hxx. split_and!; [done|done|]. intros Hp. by apply Hpend in Hp as [_ ?].
      * specialize (Hcells _ _ Hic). destruct c as [|w|]; simpl in *; [|..|done].
        -- destruct Hcells as [? Hp]. split; [done|]. intros Hlt. apply Hpend. split; [by apply Hp|]. lia.
        -- destruct Hcells as (? & ? & Hp). split_and!; [done|done|]. intros Hp'. by apply Hpend in Hp' as [? _].
    + eapply (mpsc_block_ext s); [done| |done| |by apply iv_block0].
      * intros y Hy. unfold s'. simpl. rewrite lookup_insert_ne; [done|]. intros <-. apply Hne.
        eapply iv_inj0; try done. apply Hk.
      * intros i c Hi64. destruct c as [|w|]; simpl; [..|done].
        -- intros [? Hp]. split; [done|]. intros Hlt. apply Hpend. split; [by apply Hp|]. lia.
        -- intros (? & ? & Hp). split_and!; [done|done|]. intros Hp'. by apply Hpend in Hp' as [? _].
  - unfold s' at 1. simpl. intros u r [(<- & -> & _)|[Hne Hu]]%lookup_insert_list.
    + unfold p'. destruct (Z.eqb_spec j BLOCK_MASK) as [Hjm|]; [|done]. destruct (Hm Hjm) as [Hlk Hsx]. simpl.
      change (tail_no s') with (tail_no s). destruct (iv_lock0 Hlk) as [Hv _].
      replace (tail_no s) with (x / 64); [done|]. unfold tail_no. replace (visible s) with x by lia. done.
    + specialize (iv_pp0 u r Hu). assert (Hnew : forall n, new_ok s n -> new_ok s' n).
      { intros n [Hn1 Hn2]. split; [done|]. unfold s'. simpl. rewrite lookup_insert_ne; [done|]. intros <-. by eapply Hn1. }
      destruct r; simpl in *; try done; destruct iv_pp0; auto.
  - unfold s'. simpl. intros u w r r' y [(<- & -> & _)|[_ Hu]]%lookup_insert_list [(<- & -> & _)|[_ Hw]]%lookup_insert_list Hy Hy'; try done.
    + by destruct (mpsc_claimless_not p' y).
    + by destruct (mpsc_claimless_not p' y).
    + by eapply iv_uniq0.
Qed.

(** The installer allocates the block after the next one. *)
Lemma mpsc_alloc_inv s t b weak a s' :
  bounded s -> inv s -> pps s !! t = Some (PNew b) -> step_push t weak a s = Some s' -> inv s'.
Proof.
  intros Hb Hi Ht Hs. unfold step_push in Hs. rewrite Ht in Hs. destruct (heap s !! a) eqn:Ha; [done|].
  pose proof (iv_pp _ Hi _ _ Ht) as Hch. simpl in Hch. pose proof (mpsc_base_tail _ Hi) as Hbt. pose proof (mpsc_chain_len _ Hi) as Hcl.
  pose proof (mpsc_tail_room _ Hi) as Htr. pose proof (mpsc_visible_le s) as Hvl. unfold bounded in Hb.
  destruct (iv_block _ Hi (tail_no s)) as (b' & bk & Hb' & Hbk & Hlen & Hst & _); [lia|].
  rewrite Hch in Hb'. injection Hb' as <-. rewrite (mpsc_fault_free b (fun bk => Some (start bk)) _ _ _ _ Hbk eq_refl) in Hs. injection Hs as <-.
  rewrite Hst. change (BLOCK_SIZE * 2)%Z with (Z.of_nat 128). rewrite Blk.add_nat by lia.
  set (n := Z.of_nat _). pose proof Hi as []. apply (mpsc_inv_pp s (set_heap (<[a := new_box n]> (heap s)) s) t (PNew b)); try done.
  - intros k Hk. simpl in Hk. eapply (mpsc_block_ext s); simpl; [done| |done| |by auto].
    + intros y Hy. destruct (iv_block0 k Hk) as (y' & bk' & Hy' & Hbk' & _). rewrite lookup_insert_ne; [done|]. congruence.
    + intros i c _. apply mpsc_cell_pending; [done|done|]. by eapply (mpsc_pending_same (set_heap _ s)).
  - intros u r Hu Hne Hr. assert (Hnew : forall m, new_ok s m -> new_ok (set_heap (<[a := new_box n]> (heap s)) s) m).
    { intros m [Hm1 Hm2]. split; [done|]. simpl. rewrite lookup_insert_ne; [done|]. congruence. }
    destruct r; simpl in *; try done; destruct Hr; auto.
  - split; [done|]. split.
    + simpl. intros k Hk Hka. assert (k < length (chain (gh s))) by (by apply lookup_lt_Some in Hka).
      destruct (iv_block0 k ltac:(lia)) as (y' & bk' & Hy' & Hbk' & _). congruence.
    + simpl. rewrite lookup_insert_eq. do 2 f_equal. unfold n. change (tail_no (set_heap _ s)) with (tail_no s). lia.
Qed.

Lemma mpsc_wait_inv s t b n weak a s' :
  inv s -> pps s !! t = Some (PWait b n) -> step_push t weak a s = Some s' -> inv s'.
Proof.
  intros Hi Ht Hs. unfold step_push in Hs. rewrite Ht in Hs. destruct (iv_pp _ Hi _ _ Ht) as [Hch Hnew].
  pose proof (mpsc_base_tail _ Hi) as Hbt. pose proof (mpsc_chain_len _ Hi) as Hcl.
  destruct (iv_block _ Hi (tail_no s)) as (b' & bk & Hb' & Hbk & _ & _ & Hnx & _); [lia|].
  rewrite Hch in Hb'. injection Hb' as <-. rewrite (mpsc_fault_free b (fun bk => Some (next bk)) _ _ _ _ Hbk eq_refl) in Hs.
  rewrite Hnx in Hs by lia. destruct (chain (gh s) !! S (tail_no s)) as [nb|] eqn:Hnb; injection Hs as <-; [|done].
  apply (mpsc_inv_pp_only s t (PWait b n)); try done.
Qed.

Lemma mpsc_install_inv s t nb n weak a s' :
  inv s -> pps s !! t = Some (PInstall nb n) -> step_push t weak a s = Some s' -> inv s'.
Proof.
  intros Hi Ht Hs. unfold step_push in Hs. rewrite Ht in Hs. destruct (iv_pp _ Hi _ _ Ht) as [Hch [Hn1 Hn2]].
  pose proof (mpsc_base_tail _ Hi) as Hbt. pose proof (mpsc_installed_zero _ _ _ Hi Ht eq_refl eq_refl) as Hz.
  pose proof Hi as []. rewrite Hz in iv_chain0. assert (Hcl : length (chain (gh s)) = tail_no s + 2) by lia.
  pose proof (mpsc_tail_room _ Hi) as Htr. pose proof (mpsc_taken_bounds _ Hi) as [Htk _].
  destruct (iv_block0 (S (tail_no s))) as (b' & bk & Hb' & Hbk & Hlen & Hst & Hnx & Hcells); [lia|].
  rewrite Hch in Hb'. injection Hb' as <-. rewrite (mpsc_fault_free _ _ _ _ _ _ Hbk eq_refl) in Hs. injection Hs as <-.
  assert (Hne : nb <> n) by (intros ->; by apply (Hn1 (S (tail_no s))); [lia|]).
  assert (Hlast : (chain (gh s) ++ [n]) !! (tail_no s + 2) = Some n) by (apply list_lookup_middle; lia).
  set (g := History _ _ _ _ _). set (h := <[nb := _]> (heap s)).
  change (inv (set_pp t (PTail nb) (set_gh g (set_heap h s)))). set (s1 := set_gh g (set_heap h s)).
  assert (Hpend : forall y, pending (set_pp t (PTail nb) s1) y <-> pending s y) by (intros y; by eapply (mpsc_pending_same s1)).
  apply (mpsc_inv_pp s s1 t (PInstall nb n)); try done.
  - simpl. rewrite length_app. simpl. lia.
  - simpl. intros. by apply lookup_app_l_Some.
  - simpl. intros j k y Hj Hk [Hjy|[-> ->]]%lookup_snoc_Some' [Hky|[-> Hky]]%lookup_snoc_Some'; try done.
    + by eapply iv_inj0.
    + subst. by destruct (Hn1 j Hj).
    + by destruct (Hn1 k Hk).
  - simpl. intros k. rewrite length_app. simpl. intros Hk. destruct (decide (k = tail_no s + 2)) as [->|Hk2].
    + exists n, (new_box (Z.of_nat (64 * (tail_no s + 2)))). unfold s1, h. simpl. rewrite lookup_insert_ne by done.
      rewrite length_app. simpl. split_and!; [done|done|done|done|lia|].
      intros i c [-> Hi64]%(lookup_replicate 64). split; [change (taken s <= 64 * (tail_no s + 2) + i); lia|].
      change (64 * (tail_no s + 2) + i < pushed s -> pending (set_pp t (PTail nb) s1) (64 * (tail_no s + 2) + i)). lia.
    + destruct (decide (k = S (tail_no s))) as [->|Hk1].
      * exists nb, (Block (slots bk) (Some n) (start bk)). unfold s1, h. simpl. rewrite lookup_insert_eq, lookup_app_l by lia.
        split_and!; [done..| |].
        -- intros _. replace (S (S (tail_no s))) with (tail_no s + 2) by lia. by rewrite Hlast.
        -- intros i c Hc. specialize (Hcells _ _ Hc). revert Hcells. by apply mpsc_cell_pending.
      * eapply (mpsc_block_ext s); simpl; [by rewrite lookup_app_l by lia| | | |apply iv_block0; lia].
        -- intros y Hy. unfold s1, h. simpl. rewrite lookup_insert_ne; [done|]. intros <-. apply Hk1. eapply iv_inj0; try done; lia.
        -- intros _. split; [lia|by rewrite lookup_app_l by lia].
        -- intros i c _. by apply mpsc_cell_pending.
  - intros u r Hu Hne' Hr. assert (Hpos : (0 < installs r)%Z -> False).
    { intros Hp. apply Hne'. by eapply (mpsc_installing_unique s u t). }
    destruct r as [| | |w c j y| | | |]; simpl in *; try done; try (destruct Hpos; lia).
    destruct Hr as (? & ? & ? & ? & ?). split_and!; try done. by apply lookup_app_l_Some.
  - simpl. by apply lookup_app_l_Some.
Qed.

(** The installer unlocks the tail. *)
Lemma mpsc_unlock_inv s t nb weak a s' :
  inv s -> pps s !! t = Some (PTail nb) -> step_push t weak a s = Some s' -> inv s'.
Proof.
  intros Hi Ht Hs. unfold step_push in Hs. rewrite Ht in Hs. injection Hs as <-.
  pose proof (iv_pp _ Hi _ _ Ht) as Hch. simpl in Hch. pose proof (mpsc_installing_locked _ _ _ Hi Ht eq_refl) as Hl.
  destruct (iv_lock _ Hi Hl) as [Hv Hm]. set (s' := set_pp _ _ _).
  assert (Hv' : visible s' = S (visible s)) by (unfold visible at 1, s'; simpl; change (pushed _) with (pushed s); lia).
  assert (Htn : tail_no s' = S (tail_no s)) by (unfold tail_no; rewrite Hv'; lia).
  assert (Hpend : forall y, pending s' y <-> pending s y) by (intros y; by eapply (mpsc_pending_same (set_tail _ s))).
  pose proof Hi as []. split; rewrite ?Htn; try done.
  - rewrite Hv'. change (tail s') with (Ptr nb 0 false). change (gh s') with (gh s). rewrite Hch. simpl. f_equal. lia.
  - change (pps s') with (<[t := PIdle]> (pps s)). zsum_update. change (chain (gh s')) with (chain (gh s)). simpl. lia.
  - change (pps s') with (<[t := PIdle]> (pps s)). zsum_update. simpl. rewrite iv_inst0, Hl. simpl. lia.
  - intros k Hk. eapply (mpsc_block_ext s); [done|done|done| |by auto]. intros i c _. by apply mpsc_cell_pending.
  - unfold s' at 1. simpl. intros u r [(<- & -> & _)|[Hne Hu]]%lookup_insert_list; [done|].
    specialize (iv_pp0 u r Hu). assert (Hpos : (0 < installs r)%Z -> False).
    { intros Hp. apply Hne. by eapply (mpsc_installing_unique s t u). }
    destruct r as [| | |w c j y| | | |]; simpl in *; try done; try (destruct Hpos; lia).
    destruct iv_pp0 as (? & ? & ? & ? & ?). split_and!; try done. intros ->. destruct Hpos. done.
  - unfold s'. simpl. intros u w r r' x [(<- & -> & _)|[_ Hu]]%lookup_insert_list [(<- & -> & _)|[_ Hw]]%lookup_insert_list Hx Hx'; try done.
    by eapply iv_uniq0.
  - unfold cp_ok in *. change (cp s') with (cp s). destruct (cp s); try done. rewrite Hv'. simpl. lia.
Qed.

Lemma mpsc_step_push_inv s t weak a s' : bounded s -> inv s -> step_push t weak a s = Some s' -> inv s'.
Proof.
  intros Hb Hi Hs. destruct (pps s !! t) as [p|] eqn:Ht; [|unfold step_push in Hs; by rewrite Ht in Hs].
  destruct p.
  - unfold step_push in Hs. by rewrite Ht in Hs.
  - unfold step_push in Hs. rewrite Ht in Hs. injection Hs as <-. by eapply mpsc_inv_pp_only.
  - by eapply mpsc_claim_inv.
  - by eapply mpsc_fill_inv.
  - by eapply mpsc_alloc_inv.
  - by eapply mpsc_wait_inv.
  - by eapply mpsc_install_inv.
  - by eapply mpsc_unlock_inv.
Qed.

(** ** The consumer *)

(** The slot for the next value, in the head's block. *)
Lemma mpsc_next_cell s :
  inv s -> head_no s = gone (gh s) / 64 -> taken s < 64 * S (gone (gh s) / 64) ->
  exists b c, chain (gh s) !! head_no s = Some (block_of (head s)) /\ heap s !! block_of (head s) = Some b /\
    length (slots b) = 64 /\ slots b !! (taken s mod 64) = Some c /\ cell_ok s (taken s) c /\
    64 * head_no s + taken s mod 64 = taken s.
Proof.
  intros Hi Hh Hroom. destruct (mpsc_head_block _ Hi) as [(a & b & Ha & Hb & Hlen & _ & _ & Hc) Hch].
  rewrite Hch in Ha. injection Ha as <-. pose proof (mpsc_taken_bounds _ Hi).
  destruct (lookup_lt_is_Some_2 (slots b) (taken s mod 64)) as [c Hcc]; [lia|].
  assert (Heq : 64 * head_no s + taken s mod 64 = taken s) by lia.
  exists b, c. split_and!; try done. pose proof (Hc _ _ Hcc) as H1. by rewrite Heq in H1.
Qed.

Lemma mpsc_take_inv s b v c :
  inv s -> head_no s = gone (gh s) / 64 -> taken s < 64 * S (gone (gh s) / 64) ->
  heap s !! block_of (head s) = Some b -> slots b !! (taken s mod 64) = Some (SReady v) ->
  let s' := set_cp c (set_heap (<[block_of (head s) := set_slot (taken s mod 64) STaken b]> (heap s)) s) in
  taken s' = S (taken s) -> head_no s' = head_no s -> (forall r, cp s <> CNextB r) -> (forall r, c <> CNextB r) -> cp_ok s' -> inv s'.
Proof.
  intros Hi Hh Hroom Hb Hc s' Ht' Hh' Hcn Hcn' Hcp'.
  destruct (mpsc_next_cell _ Hi Hh Hroom) as (b0 & c0 & Hch & Hb0 & Hlen & Hc0 & Hcell & Heq).
  rewrite Hb in Hb0. injection Hb0 as <-. rewrite Hc in Hc0. injection Hc0 as <-. destruct Hcell as (_ & Hv & Hnp).
  destruct (mpsc_head_block _ Hi) as [(a & b1 & Ha & Hb1 & _ & Hst & Hnx & Hcs) _]. rewrite Hch in Ha. injection Ha as <-.
  rewrite Hb in Hb1. injection Hb1 as <-. pose proof (mpsc_base_head _ Hi) as Hbh.
  assert (Hset : forall m, new_ok s m -> new_ok s' m).
  { intros m [Hm1 Hm2]. split; [done|]. unfold s'. simpl. rewrite lookup_insert_ne; [done|]. intros <-. by eapply (Hm1 (head_no s)). }
  pose proof Hi as []. split; rewrite ?Hh'; try done.
  - unfold old_ok in *. rewrite Hh'. change (cp s') with c. change (old_block s') with (old_block s). change (gh s') with (gh s).
    destruct c; try (by edestruct Hcn'); destruct (cp s); try done; by edestruct Hcn.
  - intros k Hk. destruct (decide (k = head_no s)) as [->|Hne].
    + exists (block_of (head s)), (set_slot (taken s mod 64) STaken b). unfold s'. simpl. rewrite lookup_insert_eq, length_insert.
      split_and!; [done..|]. intros i c' [(<- & -> & _)|[Hni Hic]]%lookup_insert_list.
      * simpl. change (taken s' > 64 * head_no s + taken s mod 64). lia.
      * assert (i < 64) by (apply lookup_lt_Some in Hic; lia). specialize (Hcs _ _ Hic).
        change (cell_ok s' (64 * head_no s + i) c'). destruct c' as [|w|]; simpl in *; rewrite Ht'.
        -- destruct Hcs as [? ?]. split; [lia|done].
        -- destruct Hcs as (? & ? & ?). split_and!; [lia|done|done].
        -- lia.
    + eapply (mpsc_block_ext s); [done| |done| |by apply iv_block0].
      * intros y Hy. unfold s'. simpl. rewrite lookup_insert_ne; [done|]. intros <-. apply Hne. eapply iv_inj0; try done. apply Hk.
      * intros i c' Hi64. assert (64 * k + i <> taken s) by (rewrite <-Heq; lia).
        destruct c' as [|w|]; simpl; rewrite Ht'.
        -- intros [? ?]. split; [lia|done].
        -- intros (? & ? & ?). split_and!; [lia|done|done].
        -- lia.
  - intros u r Hu. specialize (iv_pp0 u r Hu). destruct r as [| | |w d j y| | | |]; simpl in *; try done.
    + destruct iv_pp0 as (? & ? & ? & ? & ?). rewrite Ht'. split_and!; try done.
      enough (y <> taken s) by lia. intros ->. apply Hnp. by exists u, (PSet w d j (taken s)).
    + destruct iv_pp0. auto.
    + destruct iv_pp0. auto.
Qed.

Lemma mpsc_front_snoc s n v : hist (gh s) !! (gone (gh s) + n) = Some v -> front s n ++ [v] = front s (S n).
Proof. intros H. unfold front. symmetry. apply take_S_r. by rewrite lookup_drop. Qed.

Lemma mpsc_front_length s n : gone (gh s) + n <= pushed s -> length (front s n) = n.
Proof. intros. unfold front, pushed in *. rewrite length_take, length_drop. lia. Qed.

(** The consumer takes the next value if its slot is ready, and moves to [c]; it
    moves to [c0], which takes nothing, if the slot is not ready. *)
Lemma mpsc_get_inv s (c : T -> cpc) (o : option cpc) :
  inv s -> head_no s = gone (gh s) / 64 -> taken s < 64 * S (gone (gh s) / 64) -> (forall r, cp s <> CNextB r) ->
  (forall v, hist (gh s) !! taken s = Some v -> front s (S (taken s - gone (gh s))) = front s (taken s - gone (gh s)) ++ [v] ->
     forall h, let s' := set_cp (c v) (set_heap h s) in
     taken s' = S (taken s) /\ head_no s' = head_no s /\ (forall r, c v <> CNextB r) /\ cp_ok s') ->
  (forall c0, o = Some c0 -> let s' := set_cp c0 s in
     taken s' = taken s /\ head_no s' = head_no s /\ (forall r, c0 <> CNextB r) /\ cp_ok s') ->
  inv (on_block (block_of (head s)) (fun b => try_get b (taken s mod 64)) (fun x =>
    match x with
    | Some (v, b) => set_cp (c v) (set_heap (<[block_of (head s) := b]> (heap s)) s)
    | None => match o with Some c0 => set_cp c0 s | None => s end
    end) s).
Proof.
  intros Hi Hh Hroom Hcn Hc Ho. destruct (mpsc_next_cell _ Hi Hh Hroom) as (b & x & Hch & Hb & Hlen & Hx & Hcell & Heq).
  unfold on_block. rewrite Hb. simpl. unfold try_get. rewrite Hx. pose proof (mpsc_taken_bounds _ Hi).
  destruct x as [|v|]; simpl in Hcell; [| |lia].
  - destruct o as [c0|]; [|done]. destruct (Ho c0 eq_refl) as (H1 & H2 & H3 & H4).
    apply (mpsc_inv_cp s c0 (lp s) Hi); try done. pose proof (iv_old _ Hi) as Hold. unfold old_ok in *.
    change (head_no (set_cp c0 (set_lp (lp s) s))) with (head_no (set_cp c0 s)). rewrite H2. simpl.
    destruct c0; try (by edestruct H3); destruct (cp s); try done; by edestruct Hcn.
  - destruct Hcell as (_ & Hv & _). edestruct (Hc v Hv) as (H1 & H2 & H3 & H4); [|by apply (mpsc_take_inv s b v)].
    symmetry. apply mpsc_front_snoc. by replace (gone (gh s) + _) with (taken s) by lia.
Qed.

Lemma mpsc_room_taken s v : inv s -> hist (gh s) !! taken s = Some v -> taken s < 64 * S (gone (gh s) / 64) -> room s (S (taken s)).
Proof. intros Hi Hv Ht. apply lookup_lt_Some in Hv. unfold room, pushed. lia. Qed.

Lemma mpsc_step_try_inv s s' : bounded s -> inv s -> cp s = CTry \/ (exists e, cp s = CGet OPop e) -> step_pop s = Some s' -> inv s'.
Proof.
  intros Hb Hi Hc Hs. unfold bounded in Hb.
  assert (Ht : taken s = gone (gh s)) by (unfold taken; destruct Hc as [->|[e ->]]; done).
  assert (Hh : head_no s = gone (gh s) / 64) by (unfold head_no; destruct Hc as [->|[e ->]]; done).
  pose proof (iv_gone _ Hi) as Hg.
  assert (Hidx : index (head s) = Z.of_nat (gone (gh s))) by (by rewrite (iv_head _ Hi)).
  assert (Hsl : slot (index (head s)) = taken s mod 64) by (by rewrite Hidx, mpsc_slot_nat, Ht).
  set (o := match cp s with CTry => Some (CIndex OPop) | _ => None end).
  assert (Hs' : s' = on_block (block_of (head s)) (fun b => try_get b (taken s mod 64)) (fun x =>
    match x with
    | Some (v, b) => set_cp (CCommit (RPop (Some v)) (Word.add (index (head s)) 1)) (set_heap (<[block_of (head s) := b]> (heap s)) s)
    | None => match o with Some c0 => set_cp c0 s | None => s end
    end) s).
  { unfold step_pop, spin_get in Hs. rewrite Hsl in Hs. unfold o. destruct Hc as [Hc|[e Hc]]; rewrite Hc in *; by injection Hs as <-. }
  rewrite Hs'. rewrite Hidx. change 1%Z with (Z.of_nat 1). rewrite Blk.add_nat by lia.
  apply (mpsc_get_inv s (fun v => CCommit (RPop (Some v)) (Z.of_nat (gone (gh s) + 1))) o); try done; [lia| | |].
  - intros r. by destruct Hc as [->|[e ->]].
  - intros v Hv Hfr h s1. pose proof (mpsc_room_taken _ _ Hi Hv ltac:(lia)) as Hroom.
    rewrite Ht in *. rewrite Nat.sub_diag in Hfr. split_and!; [|by unfold head_no at 1|done|].
    + unfold taken, s1. simpl. lia.
    + unfold cp_ok, s1. simpl. unfold resp_ok. simpl. rewrite Nat2Z.id, Nat.add_1_r. split_and!; [lia|done|done|].
      unfold front at 1 in Hfr. simpl in Hfr. symmetry. exact Hfr.
  - intros c0 Hc0. unfold o in Hc0. destruct Hc as [Hc|[e Hc]]; rewrite Hc in Hc0; simplify_eq. simpl.
    rewrite Ht. unfold head_no at 1. simpl. done.
Qed.

Lemma mpsc_step_fast_inv s s' acc : bounded s -> inv s -> cp s = CFast acc -> step_pop s = Some s' -> inv s'.
Proof.
  intros Hb Hi Hc Hs. unfold bounded in Hb.
  pose proof (iv_cp _ Hi) as Hcp. unfold cp_ok in Hcp. rewrite Hc in Hcp. destruct Hcp as [Hacc [Hr1 Hr2]].
  assert (Ht : taken s = gone (gh s) + length acc) by (unfold taken; by rewrite Hc).
  assert (Hh : head_no s = gone (gh s) / 64) by (unfold head_no; by rewrite Hc).
  pose proof (iv_gone _ Hi) as Hg.
  assert (Hidx : index (head s) = Z.of_nat (gone (gh s))) by (by rewrite (iv_head _ Hi)).
  set (stop := if decide (length acc = 0) then CIndex OBulk else CCommit (RBulk acc) (Z.of_nat (gone (gh s) + length acc))).
  assert (Hstop : let s1 := set_cp stop s in taken s1 = taken s /\ head_no s1 = head_no s /\ (forall r, stop <> CNextB r) /\ cp_ok s1).
  { unfold stop. rewrite Ht, Hh. case_decide; unfold taken, head_no, cp_ok, resp_ok; simpl; [split_and!; [lia|done..]|].
    rewrite Nat2Z.id. split_and!; try done; [lia|]. by replace (gone (gh s) + length acc - gone (gh s)) with (length acc) by lia. }
  unfold step_pop in Hs. rewrite Hc, Hidx, Blk.add_nat, mpsc_block_end_nat in Hs by lia. fold stop in Hs.
  destruct (Z.eqb_spec (Z.of_nat (gone (gh s) + length acc)) (Z.of_nat (64 * S (gone (gh s) / 64)))) as [He|He].
  - injection Hs as <-. destruct Hstop as (H1 & H2 & H3 & H4). apply (mpsc_inv_cp s stop (lp s) Hi); try done.
    pose proof (iv_old _ Hi) as Hold. unfold old_ok in *. rewrite Hc in Hold.
    change (head_no (set_cp stop (set_lp (lp s) s))) with (head_no (set_cp stop s)). rewrite H2. simpl.
    destruct stop; try (by edestruct H3); done.
  - assert (Hsl : slot (Z.of_nat (gone (gh s))) + length acc = taken s mod 64) by (rewrite mpsc_slot_nat, Ht; lia).
    rewrite Hsl in Hs. injection Hs as <-.
    apply (mpsc_get_inv s (fun v => CFast (acc ++ [v])) (Some stop)); try done; [lia|by rewrite Hc| |].
    + intros v Hv Hfr h s1. pose proof (mpsc_room_taken _ _ Hi Hv ltac:(lia)) as Hroom.
      rewrite Ht in *. replace (gone (gh s) + length acc - gone (gh s)) with (length acc) in Hfr by lia.
      split_and!; [|by unfold head_no at 1|done|].
      * unfold taken, s1. simpl. rewrite length_app. simpl. lia.
      * unfold cp_ok, s1. simpl. rewrite length_app, Nat.add_1_r. split; [|by rewrite Nat.add_succ_r].
        rewrite Hacc at 1. symmetry. exact Hfr.
    + intros c0 [= <-]. done.
Qed.

Lemma mpsc_step_copy_inv s s' acc e : bounded s -> inv s -> cp s = CCopy acc e -> step_pop s = Some s' -> inv s'.
Proof.
  intros Hb Hi Hc Hs. unfold bounded in Hb.
  pose proof (iv_cp _ Hi) as Hcp. unfold cp_ok in Hcp. rewrite Hc in Hcp. destruct Hcp as (Hacc & He1 & He2 & [Hr1 Hr2]).
  assert (Ht : taken s = gone (gh s) + length acc) by (unfold taken; by rewrite Hc).
  assert (Hh : head_no s = gone (gh s) / 64) by (unfold head_no; by rewrite Hc).
  assert (Hidx : index (head s) = Z.of_nat (gone (gh s))) by (by rewrite (iv_head _ Hi)).
  unfold step_pop in Hs. rewrite Hc, Hidx, Blk.add_nat in Hs by lia.
  destruct (Z.eqb_spec (Z.of_nat (gone (gh s) + length acc)) e) as [He|He].
  - injection Hs as <-. apply (mpsc_inv_cp s (CCommit (RBulk acc) e) (lp s) Hi).
    + rewrite Ht. unfold taken. simpl. lia.
    + rewrite Hh. done.
    + pose proof (iv_old _ Hi) as Hold. unfold old_ok in *. rewrite Hc in Hold. unfold head_no in *. by rewrite Hc in Hold.
    + unfold cp_ok, resp_ok, room. simpl. split_and!; [done|done|done|].
      by replace (Z.to_nat e - gone (gh s)) with (length acc) by lia.
  - assert (Hsl : slot (Z.of_nat (gone (gh s))) + length acc = taken s mod 64) by (rewrite mpsc_slot_nat, Ht; lia).
    unfold spin_get in Hs. rewrite Hsl in Hs. injection Hs as <-.
    apply (mpsc_get_inv s (fun v => CCopy (acc ++ [v]) e) None); try done; [lia|by rewrite Hc|].
    intros v Hv Hfr h s1. rewrite Ht in *. replace (gone (gh s) + length acc - gone (gh s)) with (length acc) in Hfr by lia.
    split_and!; [|by unfold head_no at 1|done|].
    + unfold taken, s1. simpl. rewrite length_app. simpl. lia.
    + unfold cp_ok, s1. simpl. rewrite length_app, Nat.add_1_r. split_and!; [|lia|done|by split].
      rewrite Hacc at 1. symmetry. exact Hfr.
Qed.

(** The consumer publishes [n] more values taken, and moves on in the same block. *)
Lemma mpsc_respond_inv s r n c i :
  inv s -> (forall r, cp s <> CNextB r) -> (forall r, c <> CNextB r) ->
  let s' := respond r n c (set_head (Position i (block_of (head s))) s) in
  i = Z.of_nat (gone (gh s) + n) -> gone (gh s) + n <= pushed s -> taken s = gone (gh s) + n ->
  taken s' = gone (gh s) + n -> head_no s' = head_no s -> cp_ok s' -> inv s'.
Proof.
  intros Hi Hcn Hcn' s' Hidx Hn Ht Ht' Hh' Hcp'. pose proof Hi as []. split; rewrite ?Hh'; try done.
  - unfold s'. simpl. by rewrite Hidx, iv_head0.
  - unfold old_ok in *. rewrite Hh'. change (cp s') with c. change (old_block s') with (old_block s).
    change (base (gh s')) with (base (gh s)). change (chain (gh s')) with (chain (gh s)).
    destruct c; try (by edestruct Hcn'); destruct (cp s); try done; by edestruct Hcn.
  - intros k Hk. eapply (mpsc_block_ext s); [done|done|done| |by auto].
    intros j x _. apply mpsc_cell_pending; [congruence|done|done].
  - intros t p Hp. specialize (iv_pp0 t p Hp). destruct p as [| | |w d j y| | | |]; simpl in *; try done.
    rewrite Ht', <-Ht. done.
Qed.

Lemma mpsc_answer_inv s r c :
  inv s -> (exists k, cp s = CIndex k) \/ (exists k e, cp s = CGet k e) -> c = CDone r -> inv (respond r 0 c s).
Proof.
  intros Hi Hc ->. pose proof (mpsc_respond_inv s r 0 (CDone r) (index (head s)) Hi) as H. pose proof (iv_gone _ Hi).
  assert (Hst : set_head (Position (index (head s)) (block_of (head s))) s = s) by (destruct s as [? ? []]; done).
  rewrite Hst in H. apply H; try done.
  - by destruct Hc as [[k ->]|(k & e & ->)].
  - rewrite (iv_head _ Hi). simpl. lia.
  - lia.
  - unfold taken. destruct Hc as [[k ->]|(k & e & ->)]; simpl; lia.
  - unfold head_no. simpl. rewrite Nat.add_0_r. by destruct Hc as [[k ->]|(k & e & ->)].
Qed.

(** The push index that the consumer computes. *)
Lemma mpsc_push_index_visible s :
  bounded s -> inv s -> exists b, heap s !! blk (tail s) = Some b /\ push_index_of (tail s) b = Z.of_nat (visible s).
Proof.
  intros Hb Hi. unfold bounded in Hb. pose proof (mpsc_base_tail _ Hi). pose proof (mpsc_chain_len _ Hi). pose proof (mpsc_visible_le s).
  destruct (iv_block _ Hi (tail_no s)) as (a & b & Ha & Hab & _ & Hst & _); [lia|]. exists b.
  rewrite (iv_tail _ Hi). simpl. rewrite Ha. split; [done|]. unfold push_index_of. simpl. rewrite Hst, Blk.add_nat.
  - f_equal. unfold tail_no. lia.
  - unfold tail_no. lia.
Qed.

Lemma mpsc_step_index_inv s s' k : bounded s -> inv s -> cp s = CIndex k -> step_pop s = Some s' -> inv s'.
Proof.
  intros Hb Hi Hc Hs. destruct (mpsc_push_index_visible _ Hb Hi) as (b & Hbl & Hpi). unfold bounded in Hb.
  assert (Hh : head_no s = gone (gh s) / 64) by (unfold head_no; by rewrite Hc).
  assert (Ht : taken s = gone (gh s)) by (unfold taken; by rewrite Hc).
  pose proof (iv_gone _ Hi) as Hg. pose proof (mpsc_visible_le s) as Hv.
  unfold step_pop in Hs. rewrite Hc in Hs. unfold on_block in Hs. rewrite Hbl in Hs. simpl in Hs. rewrite Hpi, (iv_head _ Hi) in Hs. simpl in Hs.
  destruct (Z.leb_spec (Z.of_nat (visible s)) (Z.of_nat (gone (gh s)))); injection Hs as <-; [by apply mpsc_answer_inv; eauto|].
  set (c := match k with OBulk => _ | _ => _ end). apply (mpsc_inv_cp s c (lp s) Hi).
  - rewrite Ht. unfold taken, c. destruct k; simpl; lia.
  - rewrite Hh. unfold head_no, c. by destruct k.
  - pose proof (iv_old _ Hi) as Hold. unfold old_ok in *. rewrite Hc in Hold. unfold c, head_no in *. rewrite Hc in Hold. by destruct k.
  - unfold cp_ok, c. destruct k; simpl; change (visible _) with (visible s); try lia.
    unfold bulk_end. rewrite mpsc_block_end_nat by lia. unfold room. change (pushed _) with (pushed s). simpl. split_and!; try done; lia.
Qed.

Lemma mpsc_step_peek_inv s s' k e : inv s -> cp s = CGet k e -> k <> OPop -> step_pop s = Some s' -> inv s'.
Proof.
  intros Hi Hc Hk Hs. assert (Hh : head_no s = gone (gh s) / 64) by (unfold head_no; by rewrite Hc).
  assert (Ht : taken s = gone (gh s)) by (unfold taken; by rewrite Hc).
  destruct (mpsc_next_cell _ Hi Hh) as (b & x & _ & Hb & _ & Hx & Hcell & _); [lia|].
  assert (Hsl : slot (index (head s)) = taken s mod 64) by (rewrite (iv_head _ Hi); simpl; by rewrite mpsc_slot_nat, Ht).
  unfold step_pop in Hs. rewrite Hc, Hsl in Hs.
  destruct x as [|v|]; simpl in Hcell; [| |lia];
    (assert (Hpk : peek_slot b (taken s mod 64) = Some (match slots b !! (taken s mod 64) with Some (SReady v) => Some v | _ => None end))
      by (unfold peek_slot; by rewrite Hx)); rewrite Hx in Hpk; destruct k; try done;
    unfold on_block in Hs; rewrite Hb in Hs; simpl in Hs; rewrite Hpk in Hs; injection Hs as <-; try done; apply mpsc_answer_inv; eauto.
Qed.

Lemma mpsc_step_commit_inv s s' r n : bounded s -> inv s -> cp s = CCommit r n -> step_pop s = Some s' -> inv s'.
Proof.
  intros Hb Hi Hc Hs. unfold bounded in Hb. pose proof (iv_cp _ Hi) as Hcp. unfold cp_ok in Hcp. rewrite Hc in Hcp.
  destruct Hcp as (H1 & [H2 H3] & _). assert (Ht : taken s = Z.to_nat n) by (unfold taken; by rewrite Hc).
  assert (Hh : head_no s = gone (gh s) / 64) by (unfold head_no; by rewrite Hc).
  assert (Hidx : index (head s) = Z.of_nat (gone (gh s))) by (by rewrite (iv_head _ Hi)).
  unfold step_pop in Hs. rewrite Hc, Hidx in Hs.
  rewrite <-(Z2Nat.id n) in Hs by lia. rewrite Blk.sub_nat, Nat2Z.id, mpsc_mask_nat in Hs by lia. injection Hs as <-.
  assert (Hn : gone (gh s) + (Z.to_nat n - gone (gh s)) = Z.to_nat n) by lia.
  apply mpsc_respond_inv; try done; rewrite ?Hn; try done; try lia.
  - by rewrite Hc.
  - intros r'. by destruct (_ =? _)%Z.
  - unfold taken. destruct (_ =? _)%Z; simpl; lia.
  - rewrite Hh. unfold head_no. destruct (Z.eqb_spec (Z.of_nat (Z.to_nat n mod 64)) 0); simpl; rewrite Hn; lia.
  - unfold cp_ok. destruct (Z.eqb_spec (Z.of_nat (Z.to_nat n mod 64)) 0); simpl; [rewrite Hn; lia|done].
Qed.

Lemma mpsc_step_swap_inv s s' r : inv s -> cp s = CSwap r -> step_pop s = Some s' -> inv s'.
Proof.
  intros Hi Hc Hs. unfold step_pop in Hs. rewrite Hc in Hs. destruct (mpsc_head_block _ Hi) as [_ Hch].
  pose proof (iv_old _ Hi) as Hold. unfold old_ok in Hold. rewrite Hc in Hold. pose proof (mpsc_base_tail _ Hi) as Hbt.
  pose proof (mpsc_head_tail _ Hi) as Hht.
  assert (Hhn : head_no (set_cp (CNextB r) s) = head_no s) by (unfold head_no; by rewrite Hc).
  assert (Htk : taken (set_cp (CNextB r) s) = taken s) by (unfold taken; by rewrite Hc).
  pose proof Hi as []. unfold cp_ok in iv_cp0. rewrite Hc in iv_cp0.
  destruct (old_block s) as [o|] eqn:Ho; injection Hs as <-.
  - destruct Hold as [Hhd Hob]. set (s' := set_gh _ _).
    change (head_no (set_cp (CNextB r) s)) with (head_no s') in Hhn. change (taken (set_cp (CNextB r) s)) with (taken s') in Htk.
    split; rewrite ?Hhn; try done.
    + unfold old_ok. change (cp s') with (CNextB r). rewrite Hhn, Hhd. split; [done|]. rewrite <-Hhd. by symmetry.
    + unfold s'. simpl. intros j k a Hj Hk. apply iv_inj0; lia.
    + unfold s' at 1. simpl. intros k Hk. eapply (mpsc_block_ext s); [done| |done| |apply iv_block0; lia].
      * intros y Hy. unfold s'. simpl. rewrite lookup_delete_ne; [done|]. intros <-.
        enough (k = base (gh s)) by lia. eapply iv_inj0; try done; lia.
      * intros i c _. by apply mpsc_cell_pending.
    + intros t p Hp. specialize (iv_pp0 t p Hp).
      assert (Hnew : forall m, new_ok s m -> new_ok s' m).
      { intros m [Hm1 Hm2]. unfold new_ok, s'. simpl. split; [intros k Hk; apply Hm1; lia|].
        rewrite lookup_delete_ne; [done|]. intros <-. by eapply (Hm1 (base (gh s))). }
      destruct p as [| | |w d j y| | | |]; simpl in *; try done.
      * by rewrite Htk.
      * destruct iv_pp0. auto.
      * destruct iv_pp0. auto.
  - destruct Hold as [Hhd Hbs]. set (s' := set_cp _ _).
    change (head_no (set_cp (CNextB r) s)) with (head_no s') in Hhn. change (taken (set_cp (CNextB r) s)) with (taken s') in Htk.
    split; rewrite ?Hhn; try done.
    + unfold old_ok. change (cp s') with (CNextB r). rewrite Hhn. split; [change (base (gh s) = head_no s); lia|]. by symmetry.
    + intros k Hk. eapply (mpsc_block_ext s); [done|done|done| |by auto]. intros i c _. by apply mpsc_cell_pending.
    + intros t p Hp. specialize (iv_pp0 t p Hp). destruct p as [| | |w d j y| | | |]; simpl in *; try done. by rewrite Htk.
Qed.

Lemma mpsc_step_next_inv s s' r : inv s -> cp s = CNextB r -> step_pop s = Some s' -> inv s'.
Proof.
  intros Hi Hc Hs. unfold step_pop in Hs. rewrite Hc in Hs.
  destruct (mpsc_head_block _ Hi) as [(a & b & Ha & Hb & _ & _ & Hnx & _) Hch]. rewrite Hch in Ha. injection Ha as <-.
  pose proof (iv_old _ Hi) as Hold. unfold old_ok in Hold. rewrite Hc in Hold. destruct Hold as [Hbs Hob].
  pose proof (mpsc_base_tail _ Hi) as Hbt. pose proof (mpsc_chain_len _ Hi) as Hcl.
  rewrite (mpsc_fault_free (block_of (head s)) (fun b => Some (next b)) _ _ _ _ Hb eq_refl), Hnx in Hs by lia.
  pose proof (iv_cp _ Hi) as Hcp. unfold cp_ok in Hcp. rewrite Hc in Hcp.
  destruct (chain (gh s) !! S (head_no s)) as [n|] eqn:Hn; injection Hs as <-; [|done]. set (s' := set_cp _ _).
  assert (Hhn : head_no s' = S (head_no s)) by (unfold head_no; rewrite Hc; simpl; lia).
  assert (Htk : taken s' = taken s) by (unfold taken; by rewrite Hc).
  pose proof Hi as []. split; rewrite ?Hhn; try done.
  - unfold s'. simpl. rewrite Hn, iv_head0. done.
  - unfold old_ok. rewrite Hhn. unfold s'. simpl. rewrite Hob, Hch, Hbs. done.
  - intros k Hk. eapply (mpsc_block_ext s); [done|done|done| |by auto]. intros i c _. by apply mpsc_cell_pending.
  - intros t p Hp. specialize (iv_pp0 t p Hp). destruct p as [| | |w d j y| | | |]; simpl in *; try done. by rewrite Htk.
Qed.

Lemma mpsc_step_pop_inv s s' : bounded s -> inv s -> step_pop s = Some s' -> inv s'.
Proof.
  intros Hb Hi Hs. destruct (cp s) as [| |acc|k|k e|acc e|r n|r|r|r] eqn:Hc; try (unfold step_pop in Hs; by rewrite Hc in Hs).
  - apply (mpsc_step_try_inv s s' Hb Hi); auto.
  - by eapply mpsc_step_fast_inv.
  - by eapply mpsc_step_index_inv.
  - destruct (decide (k = OPop)) as [->|]; [apply (mpsc_step_try_inv s s' Hb Hi); eauto|by eapply mpsc_step_peek_inv].
  - by eapply mpsc_step_copy_inv.
  - by eapply mpsc_step_commit_inv.
  - by eapply mpsc_step_swap_inv.
  - by eapply mpsc_step_next_inv.
Qed.

Lemma mpsc_start_inv s c : inv s -> idle (cp s) = true -> c = CTry \/ c = CFast [] \/ c = CIndex OPeek -> inv (set_cp c s).
Proof.
  intros Hi Hid Hc. pose proof (iv_gone _ Hi) as Hg. pose proof (iv_old _ Hi) as Hold.
  assert (Ht : taken s = gone (gh s)) by (unfold taken; by destruct (cp s)).
  apply (mpsc_inv_cp s c (lp s) Hi).
  - rewrite Ht. unfold taken. destruct Hc as [->|[->| ->]]; simpl; lia.
  - unfold head_no. destruct (cp s); try done; by destruct Hc as [->|[->| ->]].
  - unfold old_ok, head_no in *. destruct (cp s); try done; by destruct Hc as [->|[->| ->]].
  - unfold cp_ok, room. destruct Hc as [->|[->| ->]]; simpl; [done| |done]. change (pushed _) with (pushed s). split_and!; [done|lia|lia].
Qed.

Lemma mpsc_step_inv s e s' : bounded s -> inv s -> step s e = Some s' -> inv s'.
Proof.
  intros Hb Hi Hs. unfold step in Hs. destruct (fault s); [done|]. destruct e.
  - destruct (pps s !! t) as [[]|] eqn:Ht; try discriminate Hs. injection Hs as <-. by eapply mpsc_inv_pp_only.
  - destruct (idle (cp s)) eqn:Hc; simplify_eq. apply mpsc_start_inv; auto.
  - destruct (idle (cp s)) eqn:Hc; simplify_eq. apply mpsc_start_inv; auto.
  - destruct (idle (cp s)) eqn:Hc; simplify_eq. apply mpsc_start_inv; auto.
  - assert (s' = set_cp (cp s) (set_lp LHead s)) as -> by (destruct (lp s); by simplify_eq).
    apply (mpsc_inv_cp s (cp s) LHead Hi); try done; apply Hi.
  - by eapply mpsc_step_push_inv.
  - by eapply mpsc_step_pop_inv.
  - assert (exists l, s' = set_cp (cp s) (set_lp l s)) as [l ->] by (unfold step_len in Hs; destruct (lp s); simplify_eq; eauto).
    apply (mpsc_inv_cp s (cp s) l Hi); try done; apply Hi.
Qed.

Lemma mpsc_init_inv n : inv (init n).
Proof.
  assert (Hz : forall f, f PIdle = 0%Z -> zsum f (replicate n PIdle) = 0%Z) by (intros f Hf; rewrite zsum_replicate, Hf; lia).
  split; try done.
  - simpl. rewrite Hz by done. done.
  - simpl. by rewrite Hz.
  - simpl. intros [|[|j]] [|[|k]] a _ _ Ha Hk; simplify_eq/=; done.
  - simpl. intros k Hk. assert (Hc : forall i c, replicate 64 SEmpty !! i = Some c -> cell_ok (init n) (64 * k + i) c).
    { intros i c [-> _]%(lookup_replicate 64). split; [apply Nat.le_0_l|]. unfold pushed. simpl. lia. }
    destruct k as [|[|k]]; [exists 0|exists 1|lia]; eexists; split_and!; done || (simpl; lia).
  - intros t p Hp. simpl in Hp. by apply lookup_replicate in Hp as [-> _].
  - intros t u p p' x Hp. simpl in Hp. by apply lookup_replicate in Hp as [-> _].
Qed.


Lemma mpsc_step_pushed s e s' : step s e = Some s' -> pushed s <= pushed s'.
Proof.
  unfold step. destruct (fault s); [done|].
  destruct e; simpl; unfold step_push, step_pop, step_len, spin_get, on_block, respond;
    intros Hs; repeat (case_match; try discriminate Hs); injection Hs as <-; unfold pushed; simpl; rewrite ?length_app; lia.
Qed.

Lemma mpsc_reach_inv n s : reachable step (init n) s -> bounded s -> inv s.
Proof.
  induction 1 as [|s e s' _ IH Hs]; intros Hb; [apply mpsc_init_inv|].
  assert (bounded s) by (apply mpsc_step_pushed in Hs; unfold bounded in *; lia). by eapply mpsc_step_inv; [|apply IH|].
Qed.

(** ** Refinement *)

Lemma mpsc_front_abs s n m : gone (gh s) + n <= m -> front s n = take n (drop (gone (gh s)) (take m (hist (gh s)))).
Proof. intros. unfold front. by rewrite !take_drop_commute, take_take, Nat.min_l by lia. Qed.

Lemma mpsc_status_lookup s m t p : pps s !! t = Some p -> producers (view_at m s) !! t = Some (push_status (hist (gh s)) m p).
Proof. intros H. simpl. by rewrite list_lookup_fmap, H. Qed.

Lemma mpsc_claim_bound s t v b i x : inv s -> pps s !! t = Some (PSet v b i x) -> hist (gh s) !! x = Some v /\ x < pushed s.
Proof. intros Hi Ht. destruct (iv_pp _ Hi _ _ Ht) as (_ & _ & Hx & _). split; [done|]. by apply lookup_lt_Some in Hx. Qed.

Lemma mpsc_installs_bound p : (0 <= installs p <= 1)%Z.
Proof. destruct p; simpl; try lia. destruct (_ =? _)%Z; simpl; lia. Qed.

(** The producer that unlocks the tail is the one whose push is not visible. *)
Lemma mpsc_hidden_push s :
  inv s -> effective s < pushed s ->
  exists t p v, pps s !! t = Some p /\ hist (gh s) !! effective s = Some v /\ S (effective s) = pushed s /\
    push_status (hist (gh s)) (effective s) p = PCalled v /\ push_status (hist (gh s)) (pushed s) p = PApplied /\
    forall u p', u <> t -> pps s !! u = Some p' ->
      push_status (hist (gh s)) (effective s) p' = push_status (hist (gh s)) (pushed s) p'.
Proof.
  intros Hi He. pose proof (iv_gone _ Hi) as Hg. unfold effective in *.
  destruct (locked (tail s)) eqn:Hl; [|unfold visible in He; rewrite Hl in He; lia].
  destruct (iv_lock _ Hi Hl) as [Hv Hm]. assert (Hvg : visible s `max` gone (gh s) = visible s) by lia. rewrite Hvg in *.
  pose proof (iv_inst _ Hi) as Hz. rewrite Hl in Hz. simpl in Hz.
  destruct (zsum_nonzero installs (pps s)) as (t & p & Ht & Hp); [lia|].
  assert (Hp1 : installs p = 1%Z) by (pose proof (mpsc_installs_bound p); lia).
  pose proof (alone_of installs t p (pps s) mpsc_installs_bound ltac:(lia) Ht Hp1) as Halone.
  destruct (lookup_lt_is_Some_2 (hist (gh s)) (visible s)) as [v Hh]; [unfold pushed in *; lia|].
  assert (Hd : drop (visible s) (hist (gh s)) = [v]).
  { rewrite (drop_S _ _ _ Hh), drop_ge; [done|unfold pushed in *; lia]. }
  assert (Hd' : drop (pushed s) (hist (gh s)) = []) by (apply drop_ge; done).
  assert (Hlast : forall u w b i x, pps s !! u = Some (PSet w b i x) -> installs (PSet w b i x) = 0%Z -> x < visible s).
  { intros u w b i x Hu Hin. destruct (mpsc_claim_bound _ _ _ _ _ _ Hi Hu) as [_ Hx].
    destruct (iv_pp _ Hi _ _ Hu) as (_ & Hj & _). simpl in Hin. destruct (Z.eqb_spec i BLOCK_MASK) as [|Hne]; [done|].
    assert (x <> visible s); [|lia]. intros ->. apply Hne. rewrite Hj, Hm. done. }
  exists t, p, v. split_and!; [done|done|lia| | |].
  - destruct p as [|w|w o|w b i x|b|b n|nb n|nb]; try done; simpl; rewrite ?Hd; try done.
    destruct (iv_pp _ Hi _ _ Ht) as (_ & _ & Hx & _ & Hlx). simpl in Hp1. destruct (Z.eqb_spec i BLOCK_MASK) as [Hib|]; [|done].
    destruct (Hlx Hib) as [_ Hsx]. assert (x = visible s) as -> by lia. rewrite bool_decide_eq_false_2 by lia. congruence.
  - destruct p as [|w|w o|w b i x|b|b n|nb n|nb]; try done; simpl; rewrite ?Hd'; try done.
    rewrite bool_decide_eq_true_2; [done|]. by eapply mpsc_claim_bound.
  - intros u p' Hne Hu. pose proof (Halone u p' Hne Hu) as H0.
    destruct p' as [|w|w o|w b i x|b|b n|nb n|nb]; try done.
    pose proof (Hlast _ _ _ _ _ Hu H0). simpl. by rewrite !bool_decide_eq_true_2 by lia.
Qed.

(** The hidden push takes effect. *)
Lemma mpsc_view_grow s m : inv s -> effective s <= m <= pushed s -> osteps (view s) [] (view_at m s).
Proof.
  intros Hi Hm. destruct (decide (m = effective s)) as [->|Hne]; [constructor|].
  destruct (mpsc_hidden_push s Hi) as (t & p & v & Ht & Hh & Hs & H1 & H2 & H3); [lia|].
  assert (m = pushed s) as -> by lia. eapply osteps_eq; [apply osteps_one, (o_add _ t v)|done|].
  - unfold view. by rewrite (mpsc_status_lookup _ _ _ _ Ht), H1.
  - unfold view, view_at, push. simpl. f_equal.
    + rewrite <-Hs, (take_S_r _ _ _ Hh), drop_app_le; [done|]. rewrite length_take. unfold effective, pushed in *. lia.
    + apply list_eq. intros u.
      destruct (decide (u = t)) as [->|Hu].
      * rewrite list_lookup_insert_eq by (rewrite length_fmap; by eapply lookup_lt_Some).
        by rewrite list_lookup_fmap, Ht; simpl; rewrite H2.
      * rewrite list_lookup_insert_ne, !list_lookup_fmap by done. destruct (pps s !! u) as [p'|] eqn:Hp'; [|done].
        simpl. by rewrite (H3 _ _ Hu Hp').
Qed.

(** A producer moves on; its push has taken effect as before. *)
Lemma mpsc_view_moved s s' t p p' :
  pps s !! t = Some p -> hist (gh s') = hist (gh s) -> gone (gh s') = gone (gh s) -> locked (tail s') = locked (tail s) ->
  cp s' = cp s -> pps s' = <[t := p']> (pps s) ->
  push_status (hist (gh s)) (effective s) p' = push_status (hist (gh s)) (effective s) p -> view s' = view s.
Proof.
  intros Ht Hh Hg Hl Hc Hp He. assert (Hef : effective s' = effective s) by (unfold effective, visible, pushed; by rewrite Hh, Hg, Hl).
  unfold view, view_at. rewrite Hef, Hh, Hg, Hc, Hp. f_equal. rewrite list_fmap_insert, He. apply list_insert_id.
  by rewrite list_lookup_fmap, Ht.
Qed.

(** The compare-and-swap that claims a slot. *)
Lemma mpsc_view_claim s t v old :
  inv s -> pps s !! t = Some (PCas v old) -> tail s = unlock old ->
  let s' := set_gh (History (hist (gh s) ++ [v]) (gone (gh s)) (outs (gh s)) (chain (gh s)) (base (gh s)))
    (set_pp t (PSet v (blk (unlock old)) (id (unlock old)) (length (hist (gh s)))) (set_tail (new_tail (unlock old)) s)) in
  osteps (view s) [] (view s').
Proof.
  intros Hi Ht Htl s'. pose proof (iv_gone _ Hi) as Hg. unfold pushed in Hg. set (N := length (hist (gh s))).
  assert (Hl : locked (tail s) = false) by (by rewrite Htl).
  assert (He : effective s = N) by (unfold effective, visible, pushed; rewrite Hl; unfold N; lia).
  assert (Hsame : forall u p, u <> t -> pps s !! u = Some p -> forall m, N <= m ->
    push_status (hist (gh s) ++ [v]) m p = push_status (hist (gh s)) N p).
  { intros u p Hu Hp m Hm. pose proof (iv_inst _ Hi) as Hz. rewrite Hl in Hz.
    pose proof (zsum_zero_lookup installs (pps s) u p ltac:(intros; apply mpsc_installs_bound) Hz Hp) as H0.
    destruct p as [|w|w o|w b i x|b|b n|nb n|nb]; try done. destruct (mpsc_claim_bound _ _ _ _ _ _ Hi Hp) as [_ Hx].
    unfold pushed in Hx. simpl. by rewrite !bool_decide_eq_true_2 by lia. }
  assert (Hpps : forall m, N <= m -> push_status (hist (gh s) ++ [v]) m <$> pps s' =
    <[t := if bool_decide (N < m) then PApplied else PCalled v]> (push_status (hist (gh s)) N <$> pps s)).
  { intros m Hm. simpl. rewrite list_fmap_insert. apply list_eq. intros u. destruct (decide (u = t)) as [->|Hu].
    - rewrite !list_lookup_insert_eq by (rewrite length_fmap; by eapply lookup_lt_Some). done.
    - rewrite !list_lookup_insert_ne, !list_lookup_fmap by done. destruct (pps s !! u) as [p|] eqn:Hp; [|done].
      simpl. by rewrite (Hsame _ _ Hu Hp m Hm). }
  destruct (locked (new_tail (unlock old))) eqn:Hn.
  - assert (He' : effective s' = N).
    { unfold effective, visible, pushed. simpl. rewrite Hn, length_app. simpl. fold N. lia. }
    eapply osteps_eq; [constructor|done|]. unfold view, view_at. change (hist (gh s')) with (hist (gh s) ++ [v]). rewrite He, He', (Hpps N) by lia. simpl. f_equal.
    + by rewrite take_app_le by done.
    + rewrite bool_decide_eq_false_2 by lia. symmetry. apply list_insert_id. by rewrite list_lookup_fmap, Ht.
  - assert (He' : effective s' = S N).
    { unfold effective, visible, pushed. simpl. rewrite Hn, length_app. simpl. fold N. lia. }
    eapply osteps_eq; [apply osteps_one, (o_add _ t v)|done|].
    + unfold view. by rewrite (mpsc_status_lookup _ _ _ _ Ht).
    + unfold view, view_at. change (hist (gh s')) with (hist (gh s) ++ [v]). rewrite He, He', (Hpps (S N)) by lia. simpl. f_equal.
      * rewrite (take_ge (hist (gh s))) by done. rewrite take_ge by (rewrite length_app; simpl; fold N; lia).
        unfold push. by rewrite drop_app_le.
      * by rewrite bool_decide_eq_true_2 by lia.
Qed.

Lemma mpsc_view_push s t weak a s' :
  inv s -> step_push t weak a s = Some s' -> fault s' = false -> osteps (view s) (vis s (P t weak a) s') (view s').
Proof.
  intros Hi Hs Hf. destruct (pps s !! t) as [p|] eqn:Ht; [|unfold step_push in Hs; by rewrite Ht in Hs].
  assert (Hlt := lookup_lt_Some _ _ _ Ht).
  assert (Hmove : forall p' l, pps s' = <[t := p']> (pps s) -> hist (gh s') = hist (gh s) -> gone (gh s') = gone (gh s) ->
    locked (tail s') = locked (tail s) -> cp s' = cp s -> p' <> PIdle ->
    push_status (hist (gh s)) (effective s) p' = push_status (hist (gh s)) (effective s) p -> l = vis s (P t weak a) s' ->
    osteps (view s) l (view s')).
  { intros p' l Hp ? ? ? ? Hne Hst ->. eapply osteps_eq; [constructor| |symmetry; by eapply mpsc_view_moved].
    simpl. rewrite Hp, list_lookup_insert_eq by done. by destruct p'. }
  unfold step_push in Hs. rewrite Ht in Hs. destruct p as [|v|v old|v b j x|b|b n|nb n|nb]; try discriminate Hs.
  - injection Hs as <-. by eapply Hmove.
  - injection Hs as <-. destruct (bool_decide_reflect (tail s = unlock old)) as [Htl|]; cbn [andb]; [|by eapply Hmove].
    destruct weak; [|by eapply Hmove]. eapply osteps_eq; [by eapply mpsc_view_claim| |done].
    simpl. by rewrite list_lookup_insert_eq.
  - unfold on_block in Hs. destruct (_ ≫= _) as [bk|]; injection Hs as <-; [|done].
    destruct (iv_pp _ Hi _ _ Ht) as (_ & Hj & Hx & _ & Hlast). assert (Hxp : x < pushed s) by (by eapply mpsc_claim_bound).
    destruct (Z.eqb_spec j BLOCK_MASK) as [Hjm|Hjm].
    + eapply (Hmove (PNew b)); try done. destruct (Hlast Hjm) as [Hl Hsx]. unfold effective, visible. simpl. rewrite Hl.
      case_bool_decide as Hlt'.
      * rewrite drop_ge; [done|]. unfold pushed in *. lia.
      * assert (_ `max` _ = x) as -> by lia. by rewrite (drop_S _ _ _ Hx).
    + assert (Hv : x < effective s).
      { unfold effective. destruct (locked (tail s)) eqn:Hl; [|unfold visible; rewrite Hl; lia].
        destruct (iv_lock _ Hi Hl) as [Hv Hm]. assert (x <> visible s); [|lia]. intros ->. apply Hjm. by rewrite Hj, Hm. }
      eapply osteps_eq; [apply osteps_one, (o_pret _ t)| |].
      * unfold view. rewrite (mpsc_status_lookup _ _ _ _ Ht). simpl. by rewrite bool_decide_eq_true_2.
      * simpl. by rewrite list_lookup_insert_eq.
      * unfold view, view_at. simpl. by rewrite list_fmap_insert.
  - destruct (heap s !! a); [done|]. unfold on_block in Hs. destruct (_ ≫= _); injection Hs as <-; [|done]. by eapply Hmove.
  - unfold on_block in Hs. destruct (_ ≫= _) as [[nb|]|]; injection Hs as <-; [by eapply Hmove| |done].
    eapply osteps_eq; [constructor| |done]. simpl. by rewrite Ht.
  - unfold on_block in Hs. destruct (_ ≫= _); injection Hs as <-; [|done]. by eapply Hmove.
  - injection Hs as <-. pose proof (iv_gone _ Hi) as Hg. pose proof (mpsc_visible_le s) as Hvl.
    eapply osteps_eq; [eapply osteps_trans; [apply (mpsc_view_grow s (pushed s) Hi); unfold effective; lia|]| |].
    + apply osteps_one, (o_pret _ t). rewrite (mpsc_status_lookup _ _ _ _ Ht). simpl. by rewrite drop_ge.
    + simpl. by rewrite list_lookup_insert_eq.
    + unfold view. assert (effective (set_pp t PIdle (set_tail (Ptr nb 0 false) s)) = pushed s) as ->.
      { unfold effective, visible, pushed in *. simpl. lia. }
      unfold view_at. simpl. by rewrite list_fmap_insert.
Qed.

(** [get] is called by [pop] and [peek] only. *)
Definition get_ok (s : state) : Prop := match cp s with CGet OBulk _ => False | _ => True end.

Lemma mpsc_get_ok_step s e s' : get_ok s -> step s e = Some s' -> get_ok s'.
Proof.
  unfold step, get_ok. intros Hg. destruct (fault s); [done|].
  destruct e; simpl; unfold step_push, step_pop, step_len, spin_get, on_block, respond; intros Hs;
    repeat (case_match; try discriminate Hs); injection Hs as <-; simpl in *;
    repeat match goal with H : cp s = _ |- _ => rewrite H in * end; simplify_eq/=; done.
Qed.

(** The consumer moves on. *)
Lemma mpsc_view_silent s s' :
  gh s' = gh s -> tail s' = tail s -> pps s' = pps s -> pop_status (cp s') = pop_status (cp s) ->
  (forall r, cp s' <> CDone r) -> osteps (view s) (vis s C s') (view s').
Proof.
  intros Hg Ht Hp Hc Hd. eapply osteps_eq; [constructor|simpl; destruct (cp s'); try done; by edestruct Hd|].
  unfold view, view_at, effective, visible, pushed. by rewrite Hg, Ht, Hp, Hc.
Qed.

(** An answer that takes nothing. *)
Lemma mpsc_view_answer s k r :
  pop_status (cp s) = CCalled k ->
  spec_step (Spec (Fifo.content (view s)) []) (call_of k 0) = Some (Spec (Fifo.content (view s)) [r]) ->
  osteps (view s) [CRet r] (view (respond r 0 (CDone r) s)).
Proof.
  intros Hk Hr. eapply osteps_eq; [by eapply fifo_answer|done|].
  unfold view, view_at, effective, visible, pushed. simpl. by rewrite !Nat.add_0_r.
Qed.

Lemma mpsc_view_pop s s' :
  bounded s -> inv s -> get_ok s -> step_pop s = Some s' -> fault s' = false -> osteps (view s) (vis s C s') (view s').
Proof.
  intros Hb Hi Hgo Hs Hf. pose proof (iv_gone _ Hi) as Hg. unfold pushed in Hg.
  pose proof (iv_cp _ Hi) as Hcp. unfold cp_ok in Hcp. unfold get_ok in Hgo.
  pose proof Hs as Hs0. unfold step_pop, spin_get, on_block in Hs.
  destruct (cp s) as [| |acc|k|k e|acc e|r n|r|r|r] eqn:Hc; try discriminate Hs.
  - repeat case_match; injection Hs as <-; try discriminate Hf; apply mpsc_view_silent; simpl; by rewrite ?Hc.
  - repeat case_match; injection Hs as <-; try discriminate Hf; apply mpsc_view_silent; simpl; by rewrite ?Hc.
  - destruct (mpsc_push_index_visible _ Hb Hi) as (b & Hbl & Hpi). rewrite Hbl in Hs. simpl in Hs.
    rewrite Hpi, (iv_head _ Hi) in Hs. simpl in Hs.
    destruct (Z.leb_spec (Z.of_nat (visible s)) (Z.of_nat (gone (gh s)))) as [Hle|]; injection Hs as <-.
    + apply (mpsc_view_answer _ k); [by rewrite Hc|].
      assert (Hq : Fifo.content (view s) = []).
      { simpl. apply drop_ge. rewrite length_take. unfold effective. lia. }
      rewrite Hq. by destruct k.
    + apply mpsc_view_silent; try done; rewrite ?Hc; by destruct k.
  - destruct k; [repeat case_match; injection Hs as <-; try discriminate Hf; apply mpsc_view_silent; simpl; by rewrite ?Hc|done|].
    assert (Hh : head_no s = gone (gh s) / 64) by (unfold head_no; by rewrite Hc).
    assert (Ht : taken s = gone (gh s)) by (unfold taken; by rewrite Hc).
    pose proof (mpsc_visible_le s) as Hvl.
    destruct (mpsc_next_cell _ Hi Hh) as (b & x & _ & Hbl & _ & Hx & Hcell & _); [lia|].
    assert (Hsl : slot (index (head s)) = taken s mod 64) by (rewrite (iv_head _ Hi); simpl; by rewrite mpsc_slot_nat, Ht).
    rewrite Hbl, Hsl in Hs. unfold peek_slot in Hs. simpl in Hs. rewrite Hx in Hs.
    destruct x as [|v|]; injection Hs as <-; [apply mpsc_view_silent; simpl; by rewrite ?Hc| |done].
    destruct Hcell as (_ & Hv & _). rewrite Ht in Hv. apply (mpsc_view_answer _ OPeek); [by rewrite Hc|].
    simpl. erewrite (drop_S _ v); [done|]. rewrite lookup_take_lt; [done|]. unfold effective. lia.
  - repeat case_match; injection Hs as <-; try discriminate Hf; apply mpsc_view_silent; simpl; by rewrite ?Hc.
  - destruct Hcp as (Hn1 & [Hn2 Hn3] & Hr). unfold bounded in Hb.
    assert (Hidx : index (head s) = Z.of_nat (gone (gh s))) by (by rewrite (iv_head _ Hi)).
    rewrite Hidx in Hs. rewrite <-(Z2Nat.id n) in Hs by lia. rewrite Blk.sub_nat, Nat2Z.id in Hs by (unfold pushed in *; lia).
    injection Hs as <-. set (m := Z.to_nat n - gone (gh s)) in *. set (M := effective s `max` Z.to_nat n).
    pose proof (mpsc_visible_le s) as Hvl. unfold pushed in *.
    assert (Hlen : m <= length (drop (gone (gh s)) (take M (hist (gh s))))).
    { rewrite length_drop, length_take. unfold m, M, effective. lia. }
    assert (Hgrow : osteps (view s) [] (view_at M s)).
    { apply mpsc_view_grow; [done|]. unfold M, effective, pushed in *. lia. }
    assert (Htake : spec_step (Spec (Fifo.content (view_at M s)) []) (call_of (op_of r) m) =
                    Some (Spec (drop m (Fifo.content (view_at M s))) [r])).
    { destruct r as [o|vs|o]; [| |done]; simpl.
      - destruct Hr as [Hn Hr]. assert (m = 1) as -> by (unfold m; lia). rewrite (mpsc_front_abs s 1 M) in Hr by (unfold M; lia).
        assert (Hhd : hd_error (drop (gone (gh s)) (take M (hist (gh s)))) = o) by (destruct (drop _ _), o; simpl in Hr |- *; congruence).
        by rewrite Hhd.
      - rewrite (mpsc_front_abs s m M) in Hr by (unfold M, m; lia). rewrite <-Hr, bool_decide_eq_true_2; [done|]. lia. }
    assert (Heff : forall c, effective (respond r m c (set_head (Position n (block_of (head s))) s)) = M).
    { intros c. unfold M, m, effective, visible, pushed. simpl. lia. }
    assert (Hd : drop m (Fifo.content (view_at M s)) = drop (gone (gh s) + m) (take M (hist (gh s)))) by (simpl; by rewrite drop_drop).
    rewrite (Z2Nat.id n) by lia. destruct (Z.land n BLOCK_MASK =? 0)%Z; unfold view at 2; rewrite Heff.
    + eapply osteps_eq; [eapply osteps_trans; [exact Hgrow|apply osteps_one; eapply o_take; [|exact Htake]]|done|].
      * simpl. by rewrite Hc.
      * unfold view_at at 3. simpl. by rewrite drop_drop.
    + eapply osteps_eq; [eapply osteps_trans; [exact Hgrow|eapply fifo_answer; [|exact Htake]]|done|].
      * simpl. by rewrite Hc.
      * unfold view_at at 3. simpl. by rewrite drop_drop.
  - injection Hs as <-. eapply osteps_eq; [constructor| |]; destruct (old_block s); simpl; try done;
      unfold view, view_at, effective, visible, pushed; simpl; by rewrite Hc.
  - destruct (_ ≫= _) as [[nb|]|]; injection Hs as <-; [| |done].
    + eapply osteps_eq; [apply osteps_one, (o_cret _ r); simpl; by rewrite Hc|done|].
      unfold view, view_at, effective, visible, pushed. done.
    + apply mpsc_view_silent; by rewrite ?Hc.
Qed.

Lemma mpsc_view_step s e s' :
  bounded s -> inv s /\ get_ok s -> step s e = Some s' -> osteps (view s) (vis s e s') (view s').
Proof.
  intros Hb [Hi Hgo] Hs. assert (Hf : fault s' = false) by (by eapply iv_fault, mpsc_step_inv).
  unfold step in Hs. rewrite (iv_fault _ Hi) in Hs.
  destruct e as [t v| | | | |t weak a| |]; [..|by apply mpsc_view_push|by apply mpsc_view_pop|].
  - destruct (pps s !! t) as [[]|] eqn:Ht; try done. injection Hs as <-. eapply osteps_eq; [apply osteps_one, (o_pcall _ t v)|done|].
    + unfold view. by rewrite (mpsc_status_lookup _ _ _ _ Ht).
    + unfold view, view_at. simpl. by rewrite list_fmap_insert.
  - destruct (idle (cp s)) eqn:Hc; [|done]. injection Hs as <-. eapply osteps_eq; [apply osteps_one, o_ccall|done|done].
    simpl. by destruct (cp s).
  - destruct (idle (cp s)) eqn:Hc; [|done]. injection Hs as <-. eapply osteps_eq; [apply osteps_one, o_ccall|done|done].
    simpl. by destruct (cp s).
  - destruct (idle (cp s)) eqn:Hc; [|done]. injection Hs as <-. eapply osteps_eq; [apply osteps_one, o_ccall|done|done].
    simpl. by destruct (cp s).
  - eapply osteps_eq; [constructor|done|]. by destruct (lp s); simplify_eq.
  - eapply osteps_eq; [constructor|done|]. unfold step_len in Hs. by destruct (lp s); simplify_eq.
Qed.

(** ** Properties *)

(** C17. The queue is linearizable: whatever the interleaving of the producers and
    the consumer, the calls and returns of a run, with the values [push] was called
    with and the answers the consumer got, are those of an atomic FIFO queue, each
    call taking effect at one moment between its call and its return; so the values
    the answers delivered, those in an answer about to be returned and those left in
    the queue are, in this order, the values of the pushes that took effect, each
    once and those of one producer in the order of its calls. *)
Theorem mpsc_refines_fifo n es s :
  run step es (init n) = Some s -> bounded s ->
  let h := history_of step vis es (init n) in
  osteps (Fifo.start n) h (view s) /\ in_order n h (view s).
Proof.
  intros Hr Hb h. assert (Ho : osteps (Fifo.start n) h (view s)); [|split; [done|by apply fifo_in_order]].
  assert (Hv : view (init n) = Fifo.start n) by (unfold view, view_at, Fifo.start; simpl; by rewrite fmap_replicate).
  rewrite <-Hv. apply (fifo_simulation step vis (fun s => inv s /\ get_ok s) bounded view); try done.
  - intros s1 e s2 Hs Hb2. apply mpsc_step_pushed in Hs. unfold bounded in *. lia.
  - intros s1 e s2 Hb1 [Hi Hg] Hs. split; [by eapply mpsc_step_inv|by eapply mpsc_get_ok_step].
  - apply mpsc_view_step.
  - split; [apply mpsc_init_inv|done].
Qed.

(** The queue is memory safe although producers keep pointers to blocks that the
    consumer retires: no producer and not the consumer follows a null pointer, uses
    a freed block, fills a slot twice or takes a value twice. *)
Theorem mpsc_memory_safe n s :
  reachable step (init n) s -> bounded s ->
  fault s = false /\
  (forall t v b i x, pps s !! t = Some (PSet v b i x) -> exists bk, heap s !! b = Some bk /\ slots bk !! Z.to_nat i = Some SEmpty) /\
  (forall t b m, pps s !! t = Some (PNew b) \/ pps s !! t = Some (PWait b m) -> is_Some (heap s !! b)).
Proof.
  intros Hr Hb. pose proof (mpsc_reach_inv _ _ Hr Hb) as Hi. split_and!; [apply Hi| |].
  - intros t v b i x Ht. destruct (iv_pp _ Hi _ _ Ht) as (Hch & Hj & Hx & Htk & _).
    pose proof (mpsc_taken_bounds _ Hi) as [Hg Hh]. pose proof (mpsc_base_head _ Hi) as Hbh.
    destruct (iv_block _ Hi (x / 64)) as (a' & bk & Ha' & Hbk & Hlen & _ & _ & Hcells);
      [split; [lia|]; by apply lookup_lt_Some in Hch|].
    rewrite Hch in Ha'. injection Ha' as <-. exists bk. split; [done|]. rewrite Hj, Nat2Z.id.
    destruct (lookup_lt_is_Some_2 (slots bk) (x mod 64)) as [c Hc]; [lia|]. rewrite Hc. pose proof (Hcells _ _ Hc) as Hcell.
    replace (64 * (x / 64) + x mod 64) with x in Hcell by lia. destruct c; simpl in Hcell; [done| |lia].
    destruct Hcell as (_ & _ & []). by exists t, (PSet v b i x).
  - intros t b m Ht. pose proof (mpsc_base_tail _ Hi). pose proof (mpsc_chain_len _ Hi).
    assert (Hch : chain (gh s) !! tail_no s = Some b) by (destruct Ht as [Ht|Ht]; apply (iv_pp _ Hi) in Ht; simpl in Ht; [done|by destruct Ht]).
    destruct (iv_block _ Hi (tail_no s)) as (a & bk & Ha & Hbk & _); [lia|]. rewrite Hch in Ha. injection Ha as <-. by rewrite Hbk.
Qed.

Ltac stepped Hc :=
  eexists; split; [reflexivity|]; left; let Heq := fresh in intros Heq;
  first [apply (f_equal cp) in Heq; simpl in Heq; congruence | apply (f_equal fault) in Heq; simpl in Heq; congruence].

(** The consumer never waits in vain: a call that has not returned can always
    take a step, and the step makes progress unless a producer has claimed the slot
    the consumer wants and has not filled it yet; a producer that waits for the
    next block finds it at once. *)
Theorem mpsc_waits_for_push n s :
  reachable step (init n) s -> bounded s ->
  (idle (cp s) = false -> exists s', step s C = Some s' /\ (s' <> s \/ pending s (taken s))) /\
  (forall t b m weak a, pps s !! t = Some (PWait b m) ->
     exists nb, step s (P t weak a) = Some (set_pp t (PInstall nb m) s)).
Proof.
  intros Hr Hb. pose proof (mpsc_reach_inv _ _ Hr Hb) as Hi. split.
  - intros Hid. pose proof (iv_fault _ Hi) as Hft. unfold step. rewrite Hft.
    assert (Hempty : forall i, head_no s = gone (gh s) / 64 -> taken s < 64 * S (gone (gh s) / 64) -> taken s < pushed s ->
      i = taken s mod 64 -> forall x b, heap s !! block_of (head s) = Some b -> slots b !! i = Some x -> x = SEmpty -> pending s (taken s)).
    { intros i Hh Hrm Hp -> x b Hb1 Hx1 ->. destruct (mpsc_next_cell _ Hi Hh Hrm) as (b' & x & _ & Hbl & _ & Hx & Hcell & _).
      rewrite Hb1 in Hbl. injection Hbl as <-. rewrite Hx1 in Hx. injection Hx as <-. by apply Hcell. }
    assert (Hidx : index (head s) = Z.of_nat (gone (gh s))) by (by rewrite (iv_head _ Hi)).
    pose proof (iv_cp _ Hi) as Hcp. unfold cp_ok, room in Hcp. pose proof (mpsc_visible_le s) as Hv.
    pose proof (mpsc_head_block _ Hi) as [(hb & b & Hhb & Hbl & Hlen & _ & Hnx & Hcells) Hch]. rewrite Hch in Hhb. injection Hhb as <-.
    assert (Hnext : forall r, cp s = CNextB r -> exists m, next b = Some m).
    { intros r Hc. pose proof (iv_old _ Hi) as Hold. unfold old_ok in Hold. rewrite Hc in Hold. destruct Hold as [Hbs _].
      pose proof (mpsc_base_tail _ Hi). pose proof (mpsc_chain_len _ Hi). rewrite Hnx by lia. apply lookup_lt_is_Some_2. lia. }
    clear Hnx Hcells Hch.
    unfold step_pop, spin_get, on_block, taken, head_no in *. rewrite Hidx in *. rewrite !mpsc_slot_nat in *.
    destruct (cp s) as [| |acc|k|k e|acc e|r m|r|r|r] eqn:Hc; try done; rewrite ?Hbl; simpl.
    + destruct (try_get b _) as [[[v b']|]|]; stepped Hc.
    + case_match; [case_decide; stepped Hc|]. destruct (try_get b _) as [[[v b']|]|]; [|case_decide; stepped Hc|stepped Hc].
      eexists. split; [done|left]. intros Heq. apply (f_equal cp) in Heq. rewrite Hc in Heq. injection Heq as Heq.
      apply (f_equal length) in Heq. rewrite length_app in Heq. simpl in Heq. lia.
    + destruct (_ ≫= _); [|stepped Hc]. case_match; [|destruct k]; stepped Hc.
    + specialize (Hempty _ eq_refl ltac:(lia) ltac:(lia) eq_refl). unfold try_get, peek_slot.
      destruct k, (slots b !! (gone (gh s) mod 64)) as [[|v|]|] eqn:Hx; try stepped Hc; eexists; (split; [done|right]; by eapply Hempty).
    + destruct Hcp as (_ & He1 & He2 & He3 & He4). rewrite Blk.add_nat by (unfold bounded in Hb; lia).
      destruct (Z.eqb_spec (Z.of_nat (gone (gh s) + length acc)) e); [stepped Hc|].
      specialize (Hempty (gone (gh s) mod 64 + length acc) eq_refl ltac:(lia) ltac:(lia) ltac:(lia)). unfold try_get.
      destruct (slots b !! (gone (gh s) mod 64 + length acc)) as [[|v|]|] eqn:Hx.
      * eexists. split; [done|right]. by eapply Hempty.
      * eexists. split; [done|left]. intros Heq. apply (f_equal cp) in Heq. rewrite Hc in Heq. injection Heq as Heq.
        apply (f_equal length) in Heq. rewrite length_app in Heq. simpl in Heq. lia.
      * stepped Hc.
      * stepped Hc.
    + case_match; stepped Hc.
    + case_match; stepped Hc.
    + destruct (Hnext _ eq_refl) as [m ->]. stepped Hc.
  - intros t b m weak a Ht. unfold step. rewrite (iv_fault _ Hi). unfold step_push. rewrite Ht.
    destruct (iv_pp _ Hi _ _ Ht) as [Hch _]. pose proof (mpsc_base_tail _ Hi). pose proof (mpsc_chain_len _ Hi) as Hcl.
    destruct (iv_block _ Hi (tail_no s)) as (a' & bk & Ha & Hbk & _ & _ & Hnx & _); [lia|].
    rewrite Hch in Ha. injection Ha as <-. rewrite (mpsc_fault_free b (fun b => Some (next b)) _ _ _ _ Hbk eq_refl), Hnx by lia.
    destruct (lookup_lt_is_Some_2 (chain (gh s)) (S (tail_no s))) as [nb Hnb]; [lia|]. exists nb. by rewrite Hnb.
Qed.

End queue.

(** ** Concrete runs *)

Definition ticks (t a k : nat) : list (event (T := nat)) := replicate k (P t true a).
(** A push by thread [t], one that takes the last slot of a block (the new block is
    at address [a]), and a [bulk_pop] of a whole block. *)
Definition push1 (t v : nat) : list (event (T := nat)) := Push t v :: ticks t 0 3.
Definition push_last (t a v : nat) : list (event (T := nat)) := Push t v :: ticks t a 7.
Definition pop_block : list (event (T := nat)) := BulkPop :: replicate 68 C.
Definition fill (a from : nat) : list (event (T := nat)) :=
  (seq from 63 ≫= push1 0) ++ push_last 1 a (from + 63).

(** Two producers race for a slot; the loser retries; the consumer waits for a slot
    that is claimed and not filled. *)
Definition demo : list (event (T := nat)) :=
  [Push 0 10; Push 1 20; P 0 true 0; P 1 true 0; P 1 true 0; P 0 true 0; Pop; C; C; C; P 1 true 0; C; C; P 0 true 0; P 0 true 0; Pop; C; C].
Definition demo_wrap : list (event (T := nat)) := fill 2 0 ++ pop_block ++ fill 3 64 ++ pop_block ++ fill 0 128 ++ [Pop; C; C].
Definition final (es : list (event (T := nat))) : state (T := nat) := default (init 2) (run step es (init 2)).

Example mpsc_demo_result : outs (gh (final demo)) = [RPop (Some 20); RPop (Some 10)] /\ Fifo.content (view (final demo)) = [].
Proof. by vm_compute. Qed.
(** The first block is freed and its address used again. *)
Example mpsc_wrap_result :
  outs (gh (final demo_wrap)) = [RBulk (seq 0 64); RBulk (seq 64 64); RPop (Some 128)] /\
  chain (gh (final demo_wrap)) = [0; 1; 2; 3; 0] /\ base (gh (final demo_wrap)) = 1.
Proof. by vm_compute. Qed.

Definition demo_len : list (event (T := nat)) :=
  [Len; L; L] ++ fill 2 0 ++ pop_block ++ fill 3 64 ++ pop_block ++ [L].

(** [len] is only safe for the consumer: it reads the tail and then the block
    the tail points to, which the consumer may free in between, so a [len] of
    another thread can read freed memory. *)
Theorem mpsc_len_use_after_free :
  exists s : state (T := nat), reachable step (init 2) s /\ bounded s /\ fault s = false /\ lp s = LFault.
Proof.
  exists (final demo_len). split; [apply run_reachable with (es := demo_len); vm_compute; reflexivity|].
  split; [vm_compute; congruence|]. split; vm_compute; reflexivity.
Qed.

Lemma mpsc_demo_wrap_reachable : reachable step (init 2) (final demo_wrap).
Proof. apply run_reachable with (es := demo_wrap). vm_compute. reflexivity. Qed.

Lemma mpsc_refines_fifo_witness :
  let h := history_of step vis demo_wrap (init 2) in
  osteps (Fifo.start 2) h (view (final demo_wrap)) /\ in_order 2 h (view (final demo_wrap)) /\
  delivered h = seq 0 129 /\ called 1 h = [63; 127; 191].
Proof.
  intros h. destruct (mpsc_refines_fifo 2 demo_wrap (final demo_wrap)) as [H1 H2]; [vm_compute; reflexivity|vm_compute; congruence|].
  split_and!; [exact H1|exact H2|vm_compute; reflexivity|vm_compute; reflexivity].
Defined.

Lemma mpsc_memory_safe_witness :
  let s := final demo_wrap in
  fault s = false /\
  (forall t v b i x, pps s !! t = Some (PSet v b i x) -> exists bk, heap s !! b = Some bk /\ slots bk !! Z.to_nat i = Some SEmpty) /\
  (forall t b m, pps s !! t = Some (PNew b) \/ pps s !! t = Some (PWait b m) -> is_Some (heap s !! b)).
Proof. apply (mpsc_memory_safe 2); [apply mpsc_demo_wrap_reachable|]. vm_compute. congruence. Defined.

Lemma mpsc_waits_for_push_witness :
  let s := final [Push 0 10; P 0 true 0; P 0 true 0; Pop; C; C] in
  exists s', step s C = Some s' /\ (s' <> s \/ pending s (taken s)).
Proof.
  intros s. apply (mpsc_waits_for_push 2 s).
  - apply run_reachable with (es := [Push 0 10; P 0 true 0; P 0 true 0; Pop; C; C]). vm_compute. reflexivity.
  - vm_compute. congruence.
  - vm_compute. reflexivity.
Defined.

End Mpsc.
