(* ===== verification/SpscChan.v ===== *)
(** * SpscChan: the single-producer single-consumer channel

    [src/sync/spsc.rs]: a sender and a receiver around the queue of
    [may_queue/src/spsc.rs], which is taken through its specification ([Fifo],
    refined in [SpscQueue]).  The receiver is a coroutine ([thread = false]) or a
    thread; the agents around it are the sender, the worker that runs [subscribe],
    threads that cancel the coroutine, and the timer thread. *)

From stdpp Require Import base numbers list.
From Stdlib Require Import ZArith Lia.
From S2P Require Import Prelude Fifo.

Module SpscCh.

Section chan.
Context {T : Type}.

(** [Blocker]: a registered waiter; [k] is the number of the shared cell
    ([Arc<AtomicOption<CoroutineImpl>>]) made for this wait. *)
Inductive waiter := WCo (k : nat) | WTh.
Inductive err := ETimedOut | ECanceled.
(** [RDisc seen] (history): was [channels] seen to be 0? *)
Inductive res := Got (v : T) | REmpty | RDisc (seen : bool) | RTimeout | RPanic.
(** The two event sources: [Park] and [RecvTimeoutSource]. *)
Inductive src := SPark | STimeout.

(** Which call of [try_recv] this is. *)
Inductive cont := KTry | KFirst | KAgain | KTh1 | KTh2 | KTo | KToCo | KToAgain | KToTh | KToLast.

Inductive rpc :=
  | RIdle | RGone
  | RPop (k : cont) | RChan (k : cont) | RPop2 (k : cont)
  | RYield (x : src) | RGo (x : src) | RAway (x : src) | RBack (x : src)
  | RWait (x : src) (o : option res) | RClr (x : src) (o : option res) | RRemove (r : res)
  | RClearT | RPara
  | RStore (to : bool) | RParkTh (to : bool) | RClearTh (r : res) | RElapsed | RClearUp | RClearLoop
  | RPort | RDrain
  | RDone (r : res).

(** [CancelImpl::cancel]. *)
Inductive capc := CanIdle | CanOr | CanSlot | CanCo (k : nat).

Inductive subpc :=
  | SubIdle
  | PStore | PEmpty (k : nat) | PChan (k : nat) | PTake (k : nat) | PRun (j : nat) | PReg (k : nat) | PCheck (k : nat) | PDropW
  | TReg | TCheck (k : nat) | TStore (k : nat) | TEmpty (k : nat) | TChan (k : nat) | TWake (k : nat) | TArm (k : nat) | THandle (k : nat)
  | SubCan (c : capc) (w : bool).

(** The sender; [d]: it is dropping. *)
Inductive spc :=
  | NIdle | NGone | NCheck (v : T) | NPush (v : T) | NDrop
  | NTake (d : bool) | NUnpark (w : waiter) (d : bool) | NTakeT (d : bool) | NWakeT (k : nat) (d : bool).

(** [para]: the result set with [set_para] stays until [get_co_para] takes it.
    [pushed], [got], [drained] (history): the values sent, received, and dropped
    with the receiver. *)
Record state := St {
  q : list T; channels : Z; port_dropped : bool; wait_co : option waiter; timeout_wait : option nat;
  cells : list bool; ready : option (option err); running : bool; para : option err;
  cstate : Z; cslot : option nat; armed : list nat; dels : list nat; handle : option nat; token : bool;
  rp : rpc; sub : subpc; snd_ : spc; cans : list capc; fire : option nat;
  pushed : list T; got : list T; drained : list T
}.

Definition init (n : nat) : state :=
  St [] 1 false None None [] None true None 0 None [] [] None false RIdle SubIdle NIdle (replicate n CanIdle) None [] [] [].

Definition set_q (x : list T) (p g d : list T) (s : state) : state :=
  St x (channels s) (port_dropped s) (wait_co s) (timeout_wait s) (cells s) (ready s) (running s) (para s) (cstate s) (cslot s)
    (armed s) (dels s) (handle s) (token s) (rp s) (sub s) (snd_ s) (cans s) (fire s) p g d.
Definition set_chan (c : Z) (p : bool) (s : state) : state :=
  St (q s) c p (wait_co s) (timeout_wait s) (cells s) (ready s) (running s) (para s) (cstate s) (cslot s)
    (armed s) (dels s) (handle s) (token s) (rp s) (sub s) (snd_ s) (cans s) (fire s) (pushed s) (got s) (drained s).
Definition set_wait (w : option waiter) (t : option nat) (s : state) : state :=
  St (q s) (channels s) (port_dropped s) w t (cells s) (ready s) (running s) (para s) (cstate s) (cslot s)
    (armed s) (dels s) (handle s) (token s) (rp s) (sub s) (snd_ s) (cans s) (fire s) (pushed s) (got s) (drained s).
Definition set_co (c : list bool) (r : option (option err)) (b : bool) (p : option err) (s : state) : state :=
  St (q s) (channels s) (port_dropped s) (wait_co s) (timeout_wait s) c r b p (cstate s) (cslot s)
    (armed s) (dels s) (handle s) (token s) (rp s) (sub s) (snd_ s) (cans s) (fire s) (pushed s) (got s) (drained s).
Definition set_cancel (c : Z) (k : option nat) (s : state) : state :=
  St (q s) (channels s) (port_dropped s) (wait_co s) (timeout_wait s) (cells s) (ready s) (running s) (para s) c k
    (armed s) (dels s) (handle s) (token s) (rp s) (sub s) (snd_ s) (cans s) (fire s) (pushed s) (got s) (drained s).
Definition set_timer (a d : list nat) (h : option nat) (f : option nat) (s : state) : state :=
  St (q s) (channels s) (port_dropped s) (wait_co s) (timeout_wait s) (cells s) (ready s) (running s) (para s) (cstate s) (cslot s)
    a d h (token s) (rp s) (sub s) (snd_ s) (cans s) f (pushed s) (got s) (drained s).
Definition set_token (b : bool) (s : state) : state :=
  St (q s) (channels s) (port_dropped s) (wait_co s) (timeout_wait s) (cells s) (ready s) (running s) (para s) (cstate s) (cslot s)
    (armed s) (dels s) (handle s) b (rp s) (sub s) (snd_ s) (cans s) (fire s) (pushed s) (got s) (drained s).
Definition set_rp (x : rpc) (s : state) : state :=
  St (q s) (channels s) (port_dropped s) (wait_co s) (timeout_wait s) (cells s) (ready s) (running s) (para s) (cstate s) (cslot s)
    (armed s) (dels s) (handle s) (token s) x (sub s) (snd_ s) (cans s) (fire s) (pushed s) (got s) (drained s).
Definition set_sub (x : subpc) (s : state) : state :=
  St (q s) (channels s) (port_dropped s) (wait_co s) (timeout_wait s) (cells s) (ready s) (running s) (para s) (cstate s) (cslot s)
    (armed s) (dels s) (handle s) (token s) (rp s) x (snd_ s) (cans s) (fire s) (pushed s) (got s) (drained s).
Definition set_snd (x : spc) (s : state) : state :=
  St (q s) (channels s) (port_dropped s) (wait_co s) (timeout_wait s) (cells s) (ready s) (running s) (para s) (cstate s) (cslot s)
    (armed s) (dels s) (handle s) (token s) (rp s) (sub s) x (cans s) (fire s) (pushed s) (got s) (drained s).
Definition set_can (x : list capc) (s : state) : state :=
  St (q s) (channels s) (port_dropped s) (wait_co s) (timeout_wait s) (cells s) (ready s) (running s) (para s) (cstate s) (cslot s)
    (armed s) (dels s) (handle s) (token s) (rp s) (sub s) (snd_ s) x (fire s) (pushed s) (got s) (drained s).

Definition is_canceled (s : state) : bool := (cstate s =? 1)%Z.

(** [AtomicOption::take] of cell [k]; the coroutine is scheduled with [p]. *)
Definition take_cell (k : nat) (p : option err) (s : state) : state :=
  match cells s !! k with
  | Some true => set_co (<[k := false]> (cells s)) (Some p) (running s) (para s) s
  | _ => s
  end.

(** ** The sender: [send] and [drop_chan] *)
Definition sent (d : bool) : spc := if d then NGone else NIdle.
(** Both end by waking the receiver. *)
Definition step_notify (x : spc) (s : state) : option state :=
  match x with
  | NTake d =>
      Some (match wait_co s with
            | Some w => set_snd (NUnpark w d) (set_wait None (timeout_wait s) s)
            | None => set_snd (NTakeT d) s
            end)
  | NUnpark w d =>
      Some (set_snd (NTakeT d) (match w with WCo k => take_cell k None s | WTh => set_token true s end))
  | NTakeT d =>
      Some (match timeout_wait s with
            | Some k => set_snd (NWakeT k d) (set_wait (wait_co s) None s)
            | None => set_snd (sent d) s
            end)
  | NWakeT k d => Some (set_snd (sent d) (take_cell k None s))
  | _ => None
  end.
Definition drop_chan (s : state) : state := set_snd (NTake true) (set_chan 0 (port_dropped s) s).
Definition step_send (s : state) : option state :=
  match snd_ s with
  | NCheck v => Some (set_snd (if port_dropped s then NIdle else NPush v) s)
  | NPush v => Some (set_snd (NTake false) (set_q (Fifo.push v (q s)) (pushed s ++ [v]) (got s) (drained s) s))
  | NDrop => Some (drop_chan s)
  | x => step_notify x s
  end.

(** ** [CancelImpl::cancel] (there is no I/O data here) *)
Definition step_cancel (c : capc) (s : state) : option (capc * state) :=
  match c with
  | CanOr => Some (CanSlot, set_cancel (Z.lor (cstate s) 1) (cslot s) s)
  | CanSlot =>
      Some (match cslot s with Some k => (CanCo k, set_cancel (cstate s) None s) | None => (CanIdle, s) end)
  | CanCo k => Some (CanIdle, take_cell k (Some ECanceled) s)
  | CanIdle => None
  end.

(** ** [subscribe] of [Park] and of [RecvTimeoutSource] *)
Definition new_cell (s : state) : state := set_co (cells s ++ [true]) (ready s) (running s) (para s) s.
Definition subscribe_park (x : subpc) (s : state) : option state :=
  match x with
  | PStore =>
      Some (set_sub (PEmpty (length (cells s))) (set_wait (Some (WCo (length (cells s)))) (timeout_wait s) (new_cell s)))
  | PEmpty k => Some (set_sub (if Fifo.is_empty (q s) then PChan k else PTake k) s)
  | PChan k => Some (set_sub (if (channels s =? 0)%Z then PTake k else PReg k) s)
  | PTake k =>
      Some (set_sub (match wait_co s with Some (WCo j) => PRun j | _ => SubIdle end) (set_wait None (timeout_wait s) s))
  | PRun j => Some (set_sub SubIdle (take_cell j None s))
  | PReg k => Some (set_sub (PCheck k) (set_cancel (cstate s) (Some k) s))
  | PCheck k => Some (set_sub (if is_canceled s then SubCan CanOr true else SubIdle) s)
  | PDropW => Some (set_sub SubIdle (set_wait None (timeout_wait s) s))
  | _ => None
  end.
Definition subscribe_timeout (x : subpc) (s : state) : option state :=
  match x with
  | TReg =>
      Some (set_sub (TCheck (length (cells s))) (set_cancel (cstate s) (Some (length (cells s))) (new_cell s)))
  | TCheck k => Some (set_sub (if is_canceled s then SubCan CanOr false else TStore k) s)
  | TStore k => Some (set_sub (TEmpty k) (set_wait (wait_co s) (Some k) s))
  | TEmpty k => Some (set_sub (if Fifo.is_empty (q s) then TChan k else TWake k) s)
  | TChan k => Some (set_sub (if (channels s =? 0)%Z then TWake k else TArm k) s)
  | TWake k => Some (set_sub SubIdle (take_cell k None s))
  | TArm k => Some (set_sub (THandle k) (set_timer (armed s ++ [k]) (dels s) (handle s) (fire s) s))
  | THandle k => Some (set_sub SubIdle (set_timer (armed s) (dels s) (Some k) (fire s) s))
  | _ => None
  end.
Definition step_sub (s : state) : option state :=
  match sub s with
  | SubCan c w =>
      '(c', s') ← step_cancel c s;
      Some (set_sub (match c' with CanIdle => if w then PDropW else SubIdle | _ => SubCan c' w end) s')
  | PStore | PEmpty _ | PChan _ | PTake _ | PRun _ | PReg _ | PCheck _ | PDropW => subscribe_park (sub s) s
  | _ => subscribe_timeout (sub s) s
  end.

(** ** The receiver *)

(** What the caller of [try_recv] does with its result. *)
Definition finish (thread : bool) (k : cont) (r : res) : rpc :=
  match k, r with
  | KFirst, REmpty => if thread then RStore false else RYield SPark
  | KAgain, REmpty => RPop KFirst
  | KTh1, REmpty => RParkTh false
  | KTh2, REmpty => RStore false
  | (KTh1 | KTh2 | KToTh), _ => match k, r with KToTh, REmpty => RElapsed | _, _ => RClearTh r end
  | KTo, REmpty => if thread then RStore true else RPop KToCo
  | KToCo, REmpty => RYield STimeout
  | KToAgain, REmpty => RPara
  | KToAgain, _ => RWait STimeout (Some r)
  | KToLast, REmpty => RDone RTimeout
  | _, _ => RDone r
  end.

(** After [yield_with]. *)
Definition resumed (x : src) : rpc := match x with SPark => RWait SPark None | STimeout => RClearT end.

(** [try_recv]. *)
Definition step_try_recv (thread : bool) (x : rpc) (s : state) : option state :=
  let popped k := match Fifo.pop (q s) with
                  | (Some v, l) => Some (set_rp (finish thread k (Got v)) (set_q l (pushed s) (got s ++ [v]) (drained s) s))
                  | (None, _) => None
                  end in
  match x with
  | RPop k => match popped k with Some s' => Some s' | None => Some (set_rp (RChan k) s) end
  | RChan k => Some (set_rp (if (0 <? channels s)%Z then finish thread k REmpty else RPop2 k) s)
  | RPop2 k => match popped k with Some s' => Some s' | None => Some (set_rp (finish thread k (RDisc true)) s) end
  | _ => None
  end.
Definition take_para (s : state) : state := set_co (cells s) (ready s) (running s) None s.
(** [yield_with]: before and after the suspension; [b]: the coroutine is unwinding. *)
Definition step_yield (b : bool) (x : rpc) (s : state) : option state :=
  match x with
  | RYield x =>
      Some (if is_canceled s then set_rp (if b then resumed x else RWait x (Some RPanic)) (take_para s) else set_rp (RGo x) s)
  | RBack x =>
      Some (if is_canceled s then set_rp (if b then resumed x else RWait x (Some RPanic)) (take_para s) else set_rp (resumed x) s)
  | _ => None
  end.
(** The drops of the two sources; the [DelayDrop] is waited for. *)
Definition remove_timer (s : state) : state :=
  match handle s with
  | Some k => set_timer (armed s) (if decide (k ∈ armed s) then dels s ++ [k] else dels s) None (fire s) s
  | None => s
  end.
Definition step_drop_src (x : rpc) (s : state) : option state :=
  match x with
  | RWait x o => match sub s with SubIdle => Some (set_rp (RClr x o) s) | _ => None end
  | RClr SPark o =>
      Some (set_rp (match o with Some r => RDone r | None => RPop KAgain end) (set_wait None (timeout_wait s) s))
  | RClr STimeout o => Some (set_rp (RRemove (default REmpty o)) (set_wait (wait_co s) None s))
  | RRemove r => Some (set_rp (RDone r) (remove_timer s))
  | _ => None
  end.
(** [recv_timeout_co] after the suspension. *)
Definition step_timeout_co (x : rpc) (s : state) : option state :=
  match x with
  | RClearT => Some (set_rp (RPop KToAgain) (set_wait (wait_co s) None s))
  | RPara =>
      Some (set_rp (RWait STimeout (Some (match para s with Some ETimedOut => RTimeout | _ => RDisc false end))) (take_para s))
  | _ => None
  end.
(** The loops of a thread, in [recv] and in [recv_timeout_thread]; [b]: the time
    has elapsed.  [park_timeout] may return at any time. *)
Definition step_recv_thread (x : rpc) (s : state) : option state :=
  match x with
  | RStore false => Some (set_rp (RPop KTh1) (set_wait (Some WTh) (timeout_wait s) s))
  | RParkTh false => Some (set_rp (RPop KTh2) (set_token false s))
  | RClearTh r => Some (set_rp (RDone r) (set_wait None (timeout_wait s) s))
  | _ => None
  end.
Definition step_recv_timeout_thread (b : bool) (x : rpc) (s : state) : option state :=
  match x with
  | RStore true => Some (set_rp (RPop KToTh) (set_wait (Some WTh) (timeout_wait s) s))
  | RElapsed => Some (set_rp (if b then RClearUp else RParkTh true) s)
  | RClearUp => Some (set_rp (RPop KToLast) (set_wait None (timeout_wait s) s))
  | RParkTh true => Some (set_rp RClearLoop (set_token false s))
  | RClearLoop => Some (set_rp (RStore true) (set_wait None (timeout_wait s) s))
  | _ => None
  end.
Definition step_drop_port (x : rpc) (s : state) : option state :=
  match x with
  | RPort => Some (set_rp RDrain (set_chan (channels s) true s))
  | RDrain =>
      match Fifo.pop (q s) with
      | (Some v, l) => Some (set_q l (pushed s) (got s) (drained s ++ [v]) s)
      | (None, _) => Some (set_rp RGone s)
      end
  | _ => None
  end.
Definition step_recv (thread b : bool) (s : state) : option state :=
  match rp s with
  | RPop _ | RChan _ | RPop2 _ => step_try_recv thread (rp s) s
  | RYield _ | RBack _ => step_yield b (rp s) s
  | RWait _ _ | RClr _ _ | RRemove _ => step_drop_src (rp s) s
  | RClearT | RPara => step_timeout_co (rp s) s
  | RStore false | RParkTh false | RClearTh _ => step_recv_thread (rp s) s
  | RStore true | RParkTh true | RElapsed | RClearUp | RClearLoop => step_recv_timeout_thread b (rp s) s
  | RPort | RDrain => step_drop_port (rp s) s
  | _ => None
  end.

Inductive event :=
  | TryRecv | Recv | RecvTimeout | DropRx | R (b : bool)
  | Yield | Resume | Sub
  | Send (v : T) | DropTx | N
  | Cancel (i : nat) | Can (i : nat)
  | Expire (k : nat) | Fire | Disarm (k : nat).

Definition at_home (x : rpc) : bool := match x with RIdle | RDone _ => true | _ => false end.

Definition step (thread : bool) (s : state) (e : event) : option state :=
  match e with
  | TryRecv => if at_home (rp s) then Some (set_rp (RPop KTry) s) else None
  | Recv => if at_home (rp s) then Some (set_rp (RPop KFirst) s) else None
  | RecvTimeout => if at_home (rp s) then Some (set_rp (RPop KTo) s) else None
  | DropRx => if at_home (rp s) then Some (set_rp RPort s) else None
  | R b => step_recv thread b s
  | Yield =>
      match rp s, sub s with
      | RGo x, SubIdle =>
          Some (set_rp (RAway x) (set_sub (match x with SPark => PStore | STimeout => TReg end)
            (set_co (cells s) (ready s) false (para s) s)))
      | _, _ => None
      end
  | Resume =>
      match rp s, ready s with
      | RAway x, Some p =>
          Some (set_rp (RBack x) (set_co (cells s) None true (match p with Some e => Some e | None => para s end) s))
      | _, _ => None
      end
  | Sub => step_sub s
  | Send v => match snd_ s with NIdle => Some (set_snd (NCheck v) s) | _ => None end
  | DropTx => match snd_ s with NIdle => Some (set_snd NDrop s) | _ => None end
  | N => step_send s
  | Cancel i => match cans s !! i with Some CanIdle => Some (set_can (<[i := CanOr]> (cans s)) s) | _ => None end
  | Can i =>
      c ← cans s !! i; '(c', s') ← step_cancel c s; Some (set_can (<[i := c']> (cans s')) s')
  | Expire k =>
      match fire s, list_find (eq k) (armed s) with
      | None, Some (i, _) => Some (set_timer (delete i (armed s)) (dels s) (handle s) (Some k) s)
      | _, _ => None
      end
  | Fire =>
      k ← fire s; let s1 := take_cell k (Some ETimedOut) s in Some (set_timer (armed s1) (dels s1) (handle s1) None s1)
  | Disarm k =>
      match list_find (eq k) (dels s) with
      | Some (j, _) =>
          Some (set_timer (match list_find (eq k) (armed s) with Some (i, _) => delete i (armed s) | None => armed s end)
                 (delete j (dels s)) (handle s) (fire s) s)
      | None => None
      end
  end.

Ltac unfold_send H := unfold step_send, step_notify, drop_chan in H.
Ltac unfold_sub H := unfold step_sub, subscribe_park, subscribe_timeout, new_cell in H.
Ltac unfold_recv H :=
  unfold step_recv, step_try_recv, step_yield, step_drop_src, step_timeout_co, step_recv_thread, step_recv_timeout_thread,
    step_drop_port, take_para, remove_timer in H.

(** ** Invariant of a coroutine receiver

    When the coroutine is in a cell, either some thread is bound to take it out
    ([taker]), or it is registered everywhere it has to be ([core]). *)

Definition snd_takes (k : nat) (x : spc) : bool :=
  match x with NUnpark (WCo j) _ | NWakeT j _ => bool_decide (j = k) | _ => false end.
Definition sub_takes (k : nat) (x : subpc) : bool :=
  match x with PRun j | TWake j | SubCan (CanCo j) _ => bool_decide (j = k) | _ => false end.
Definition can_takes (k : nat) (c : capc) : bool := match c with CanCo j => bool_decide (j = k) | _ => false end.
Definition taker (s : state) (k : nat) : Prop :=
  snd_takes k (snd_ s) = true \/ sub_takes k (sub s) = true \/ fire s = Some k \/ has (can_takes k) (cans s).

Definition sub_idx (x : subpc) : option nat :=
  match x with
  | PEmpty k | PChan k | PTake k | PReg k | PCheck k | TCheck k | TStore k | TEmpty k | TChan k | TWake k | TArm k | THandle k => Some k
  | _ => None
  end.
Definition sub_src (x : subpc) : option src :=
  match x with
  | PStore | PEmpty _ | PChan _ | PTake _ | PRun _ | PReg _ | PCheck _ | PDropW | SubCan _ true => Some SPark
  | TReg | TCheck _ | TStore _ | TEmpty _ | TChan _ | TWake _ | TArm _ | THandle _ | SubCan _ false => Some STimeout
  | SubIdle => None
  end.
Definition sub_holds (x : subpc) : Z := match x with PStore | TReg => 1 | _ => 0 end.
Definition sub_late (x : subpc) : bool :=
  match x with PRun _ | TWake _ | PDropW | SubCan (CanCo _ | CanIdle) _ => true | _ => false end.
Definition sub_unstored (x : subpc) : bool := match x with TCheck _ | TStore _ | SubCan _ false => true | _ => false end.
Definition sub_unregistered (x : subpc) : bool := match x with PEmpty _ | PChan _ | PTake _ | PReg _ => true | _ => false end.
Definition sub_uncancelled (x : subpc) : bool :=
  match x with PCheck _ | TCheck _ | SubCan _ _ => true | _ => sub_unregistered x end.
Definition can_early (c : capc) : bool := match c with CanOr | CanSlot => true | _ => false end.
Definition snd_pending (x : src) (n : spc) : bool :=
  match n, x with NTake _, _ => true | (NUnpark _ _ | NTakeT _), STimeout => true | _, _ => false end.
Definition sub_sees_q (x : subpc) : bool :=
  match x with PEmpty _ | PTake _ | TEmpty _ => true | _ => sub_unstored x end.
Definition sub_sees_d (x : subpc) : bool := match x with PChan _ | TChan _ => true | _ => sub_sees_q x end.
Definition sub_arms (x : subpc) : bool := match x with SubIdle | THandle _ => false | _ => true end.

Record core (x : src) (s : state) (k : nat) : Prop := {
  co_late : sub_late (sub s) = false;
  co_wait : match x with
            | SPark => wait_co s = Some (WCo k)
            | STimeout => timeout_wait s = Some k \/ sub_unstored (sub s) = true
            end;
  co_slot : cslot s = Some k \/ sub_unregistered (sub s) = true;
  co_cancel : is_canceled s = true -> has can_early (cans s) \/ sub_uncancelled (sub s) = true;
  co_queue : q s <> [] -> snd_pending x (snd_ s) = true \/ sub_sees_q (sub s) = true;
  co_disc : channels s = 0%Z -> snd_pending x (snd_ s) = true \/ sub_sees_d (sub s) = true;
  co_timer : x = STimeout -> k ∈ armed s \/ sub_arms (sub s) = true
}.

Definition place (s : state) : Z :=
  b2z (running s) + zsum b2z (cells s) + b2z (match ready s with Some _ => true | None => false end) + sub_holds (sub s).

Record inv (s : state) : Prop := {
  iv_place : place s = 1%Z;
  iv_run : running s = negb (match rp s with RAway _ => true | _ => false end);
  iv_last : forall k, cells s !! k = Some true -> S k = length (cells s);
  iv_idx : forall k, sub_idx (sub s) = Some k -> S k = length (cells s);
  iv_src : forall x, rp s = RAway x -> sub_src (sub s) = None \/ sub_src (sub s) = Some x;
  iv_handle : forall k, handle s = Some k -> k < length (cells s);
  iv_dels : forall k, k ∈ dels s -> k < length (cells s) /\ cells s !! k <> Some true;
  iv_co : forall k, cells s !! k = Some true -> exists x, rp s = RAway x /\ (taker s k \/ core x s k)
}.

Lemma sch_cells_nonneg l : (0 <= zsum b2z l)%Z.
Proof. apply zsum_nonneg, b2z_nonneg. Qed.

(** Where the coroutine is determines where it is not. *)
Lemma sch_running_no_cell s k : place s = 1%Z -> running s = true -> cells s !! k <> Some true.
Proof.
  unfold place. intros Hp Hr Hk. rewrite Hr in Hp. apply (zsum_lookup_le b2z _ _ _ b2z_nonneg) in Hk. simpl in *.
  pose proof (b2z_nonneg (match ready s with Some _ => true | None => false end)). destruct (sub s); simpl in *; lia.
Qed.
Lemma sch_holds_no_cell s k : place s = 1%Z -> sub_holds (sub s) = 1%Z -> cells s !! k <> Some true.
Proof.
  unfold place. intros Hp Hr Hk. rewrite Hr in Hp. apply (zsum_lookup_le b2z _ _ _ b2z_nonneg) in Hk. simpl in *.
  pose proof (b2z_nonneg (match ready s with Some _ => true | None => false end)). pose proof (b2z_nonneg (running s)). lia.
Qed.
Lemma sch_ready_no_cell s k p : place s = 1%Z -> ready s = Some p -> cells s !! k <> Some true.
Proof.
  unfold place. intros Hp Hr Hk. rewrite Hr in Hp. apply (zsum_lookup_le b2z _ _ _ b2z_nonneg) in Hk. simpl in *.
  pose proof (b2z_nonneg (running s)). destruct (sub s); simpl in *; lia.
Qed.

Lemma sch_take_cell_length j p s : length (cells (take_cell j p s)) = length (cells s).
Proof. unfold take_cell. repeat case_match; simpl; rewrite ?length_insert; done. Qed.
Lemma sch_take_cell_inv j p s k :
  cells (take_cell j p s) !! k = Some true -> cells s !! k = Some true /\ k <> j.
Proof.
  unfold take_cell. destruct (cells s !! j) as [[]|] eqn:Hj; simpl; [|intros ?; split; [done|intros ->; congruence]..].
  intros [(_ & ? & _)|[? ?]]%lookup_insert_list; [done|]. split; [done|by intros ->].
Qed.
Lemma sch_take_cell_place j p s : place s = 1%Z -> place (take_cell j p s) = 1%Z.
Proof.
  unfold take_cell. destruct (cells s !! j) as [[]|] eqn:Hj; [|done..]. unfold place; simpl. intros Hp.
  pose proof (zsum_lookup_le b2z _ _ _ b2z_nonneg Hj) as Hle. rewrite (zsum_insert b2z _ _ _ false Hj). simpl in *.
  pose proof (b2z_nonneg (running s)). destruct (ready s), (sub s); simpl in *; lia.
Qed.
(** A step of an agent that is not the receiver. *)
Lemma sch_inv_agent s s' :
  inv s -> place s' = 1%Z -> running s' = running s -> rp s' = rp s ->
  length (cells s') = length (cells s) -> (forall k, cells s' !! k = Some true -> cells s !! k = Some true) ->
  (forall k, sub_idx (sub s') = Some k -> sub_idx (sub s) = Some k) ->
  (sub_src (sub s') = None \/ sub_src (sub s') = sub_src (sub s)) ->
  (handle s' = handle s \/ exists k, handle s' = Some k /\ sub_idx (sub s) = Some k) -> dels s' ⊆ dels s ->
  (forall x k, rp s = RAway x -> cells s' !! k = Some true -> (forall j, sub_idx (sub s) = Some j -> j = k) ->
     (sub_src (sub s) = None \/ sub_src (sub s) = Some x) -> taker s k \/ core x s k -> taker s' k \/ core x s' k) ->
  inv s'.
Proof.
  intros [H1 H2 H3 H4 H5 H6 H7 H8] Hp Hrun Hrp Hlen Hc Hidx Hsrc Hh Hd Hco. split.
  - done.
  - by rewrite Hrun, Hrp.
  - rewrite Hlen. auto.
  - rewrite Hlen. auto.
  - rewrite Hrp. intros x Hx. destruct Hsrc as [->| ->]; auto.
  - rewrite Hlen. intros k Hk. destruct Hh as [Hh|(j & Hj & Hi)]; [rewrite Hh in Hk; auto|].
    apply H4 in Hi. rewrite Hj in Hk. simplify_eq. lia.
  - rewrite Hlen. intros k Hk. destruct (H7 _ (Hd _ Hk)). split; [done|]. by intros ?%Hc.
  - intros k Hk. destruct (H8 _ (Hc _ Hk)) as (x & Hx & Htc). exists x. rewrite Hrp. split; [done|].
    eapply Hco; [done..| |auto|done]. intros j Hj%H4. apply Hc, H3 in Hk. lia.
Qed.

(** A step of the running receiver. *)
Lemma sch_inv_recv s s' :
  inv s -> running s = true -> running s' = true -> cells s' = cells s -> ready s' = ready s -> sub s' = sub s ->
  (match rp s' with RAway _ => False | _ => True end) ->
  (handle s' = handle s \/ handle s' = None) -> (forall k, k ∈ dels s' -> k ∈ dels s \/ handle s = Some k) -> inv s'.
Proof.
  intros [H1 H2 H3 H4 H5 H6 H7 H8] Hr Hr' Hc Hrd Hsub Hrp Hh Hd.
  assert (Hno : forall k, cells s !! k <> Some true) by (intros k; by apply sch_running_no_cell).
  split; rewrite ?Hc, ?Hsub.
  - unfold place in *. rewrite Hc, Hrd, Hsub, Hr'. by rewrite Hr in H1.
  - rewrite Hr'. by destruct (rp s').
  - done.
  - done.
  - intros x Hx. by rewrite Hx in Hrp.
  - intros k Hk. destruct Hh as [Hh|Hh]; rewrite Hh in Hk; [auto|done].
  - intros k Hk. split; [|auto]. destruct (Hd _ Hk) as [?%H7|?%H6]; [by destruct_and!|done].
  - intros k Hk. by destruct (Hno k).
Qed.

Ltac core_split H := destruct H as [Hlate Hwait Hslot Hcan Hqu Hdi Hti]; split; simpl in *; try assumption; auto.

Lemma sch_finish_home thread k r : match finish thread k r with RAway _ => False | _ => True end.
Proof. destruct k, r, thread; simpl; done. Qed.

Lemma sch_step_recv_inv thread b s s' : inv s -> step_recv thread b s = Some s' -> inv s'.
Proof.
  intros Hi Hs. pose proof (iv_run _ Hi) as Hr. unfold_recv Hs.
  assert (Hfin : forall k r, match finish thread k r with RAway _ => False | _ => True end) by apply sch_finish_home.
  assert (Hres : forall x, match resumed x with RAway _ => False | _ => True end) by (by intros []).
  destruct (Fifo.pop (q s)) as [[v|] l]; destruct (rp s) eqn:Hrp; try discriminate Hs; simpl in Hr;
    repeat case_match; try discriminate Hs; injection Hs as <-;
    (apply (sch_inv_recv s); simpl); rewrite ?Hrp; auto.
  all: first [apply Hfin|apply Hres|intros k'; rewrite elem_of_app, list_elem_of_singleton; intuition congruence].
Qed.

(** ** The agents keep the invariant *)

(** Taking a cell keeps the invariant; whoever took it is not needed any more. *)
Lemma sch_take_cell_ok j p s :
  inv s -> let s' := take_cell j p s in
  inv s' /\ cells s' !! j <> Some true /\ snd_ s' = snd_ s /\ sub s' = sub s /\ cans s' = cans s /\ fire s' = fire s.
Proof.
  intros Hi s'. split; [|split; [by intros [_ ?]%sch_take_cell_inv|unfold s', take_cell; by repeat case_match]].
  assert (Hc : forall k, cells s' !! k = Some true -> cells s !! k = Some true) by (intros k Hk; by apply sch_take_cell_inv in Hk as []).
  apply (sch_inv_agent s); [done|by apply sch_take_cell_place, Hi|..|apply sch_take_cell_length|done| | | | |];
    unfold s', take_cell; repeat case_match; simpl; auto; try (by left); try done.
  intros x k _ _ _ _ [Ht|Hco]; [by left|right]. by destruct Hco.
Qed.

Ltac taker_tac Ht :=
  destruct Ht as [Ht|[Ht|[Ht|Ht]]];
    first [ discriminate Ht | by left | by right; left | by right; right; left | by right; right; right ].
Ltac core_tac Hc := destruct Hc; split; simpl in *; auto.
(** The side conditions of [sch_inv_agent]. *)
Ltac agent_tac s := apply (sch_inv_agent s); simpl; try done; auto.

(** The sender. *)
Lemma sch_step_send_inv s s' : inv s -> step_send s = Some s' -> inv s'.
Proof.
  intros Hi Hs. pose proof (iv_place _ Hi) as Hp. unfold_send Hs.
  destruct (snd_ s) as [| |v|v| |d|w d|d|j d] eqn:Hn; try discriminate Hs.
  - injection Hs as <-. agent_tac s. intros x k Hrp Hk Hidx Hsrc [Ht|Hc]; [left|right].
    + unfold taker in *. simpl. rewrite Hn in Ht. taker_tac Ht.
    + destruct Hc. rewrite Hn in *. split; simpl in *; auto.
      * intros Hq. destruct (co_queue0 Hq); [done|auto].
      * intros Hq. destruct (co_disc0 Hq); [done|auto].
  - injection Hs as <-. agent_tac s. intros x k Hrp Hk Hidx Hsrc [Ht|Hc]; [left|right].
    + unfold taker in *. simpl. rewrite Hn in Ht. taker_tac Ht.
    + core_tac Hc.
  - injection Hs as <-. agent_tac s. intros x k Hrp Hk Hidx Hsrc [Ht|Hc]; [left|right].
    + unfold taker in *. simpl. rewrite Hn in Ht. taker_tac Ht.
    + core_tac Hc.
  - (* NTake *)
    injection Hs as <-. case_match eqn:Hw; agent_tac s; intros x k Hrp Hk Hidx Hsrc [Ht|Hc].
    1,3: left; unfold taker in *; simpl; rewrite Hn in Ht; taker_tac Ht.
    + destruct x.
      * left. left. simpl. destruct Hc. rewrite Hw in co_wait0. simplify_eq. simpl. by apply bool_decide_eq_true.
      * right. core_tac Hc.
    + right. destruct x; [by destruct Hc as [_ ? _ _ _ _ _]; congruence|]. core_tac Hc.
  - (* NUnpark *)
    destruct w as [j|]; injection Hs as <-.
    + destruct (sch_take_cell_ok j None s Hi) as (Hi1 & Hj & E & _). revert Hi1 Hj E.
      generalize (take_cell j None s). intros s1 Hi1 Hj E. rewrite Hn in E.
      pose proof (iv_place _ Hi1). agent_tac s1. intros x k Hrp Hk Hidx Hsrc [Ht|Hc]; [left|right].
      * unfold taker in *. simpl. rewrite E in Ht. simpl in Ht. rewrite bool_decide_eq_false_2 in Ht by congruence. taker_tac Ht.
      * destruct Hc. rewrite E in *. destruct x; split; simpl in *; auto.
    + agent_tac s. intros x k Hrp Hk Hidx Hsrc [Ht|Hc]; [left|right].
      * unfold taker in *. simpl. rewrite Hn in Ht. taker_tac Ht.
      * destruct Hc. rewrite Hn in *. destruct x; split; simpl in *; auto.
  - (* NTakeT *)
    injection Hs as <-. case_match eqn:Hw; agent_tac s; intros x k Hrp Hk Hidx Hsrc [Ht|Hc].
    1,3: left; unfold taker in *; simpl; rewrite Hn in Ht; taker_tac Ht.
    + destruct Hc. rewrite Hn in *. destruct x; [right; split; simpl in *; auto|].
      destruct co_wait0 as [Hwk|Hu]; [left; left; simpl; apply bool_decide_eq_true; congruence|].
      right. split; simpl; auto; intros; right; destruct (sub s) as [| | | | | | | | | | | | | | | | |[] []]; by simpl in *.
    + destruct Hc. rewrite Hn in *. right. destruct x; [destruct d; split; simpl in *; auto|].
      destruct co_wait0 as [Hwk|Hu]; [congruence|].
      split; simpl; auto; intros; right; destruct (sub s) as [| | | | | | | | | | | | | | | | |[] []]; by simpl in *.
  - (* NWakeT *)
    injection Hs as <-. destruct (sch_take_cell_ok j None s Hi) as (Hi1 & Hj & E & _). revert Hi1 Hj E.
    generalize (take_cell j None s). intros s1 Hi1 Hj E. rewrite Hn in E.
    pose proof (iv_place _ Hi1). agent_tac s1. intros x k Hrp Hk Hidx Hsrc [Ht|Hc]; [left|right].
    + unfold taker in *. simpl. rewrite E in Ht. simpl in Ht. rewrite bool_decide_eq_false_2 in Ht by congruence. taker_tac Ht.
    + destruct Hc. rewrite E in *. destruct x, d; split; simpl in *; auto.
Qed.

(** A thread that cancels the coroutine. *)
Lemma sch_can_inv s i c c' s' :
  inv s -> cans s !! i = Some c -> step_cancel c s = Some (c', s') -> inv (set_can (<[i := c']> (cans s')) s').
Proof.
  intros Hi Hc Hs. pose proof (iv_place _ Hi) as Hp. destruct c as [| | |j]; simpl in Hs; [done|..].
  - injection Hs as <- <-. agent_tac s. intros x k _ _ _ _ [Ht|Hco]; [left|right].
    + unfold taker in *. simpl. destruct Ht as [Ht|[Ht|[Ht|Ht]]]; auto. do 3 right. by eapply has_insert_other.
    + core_tac Hco. intros _. left. by eapply has_insert_new.
  - destruct (cslot s) as [j|] eqn:Hsl; injection Hs as <- <-; agent_tac s; intros x k _ _ _ _ [Ht|Hco].
    1,3: left; unfold taker in *; simpl; destruct Ht as [Ht|[Ht|[Ht|Ht]]]; auto; do 3 right; by eapply has_insert_other.
    + destruct Hco as [? ? [Hk|Hu] ? ? ? ?].
      * left. do 3 right. simpl. eapply has_insert_new; [done|]. apply bool_decide_eq_true. congruence.
      * right. split; simpl; auto. intros _. right. destruct (sub s); try done.
    + right. destruct Hco as [? ? [Hk|Hu] ? ? ? ?]; [congruence|]. split; simpl; auto. intros _. right. destruct (sub s); try done.
  - injection Hs as <- <-. destruct (sch_take_cell_ok j (Some ECanceled) s Hi) as (Hi1 & Hj & _ & _ & E & _). revert Hi1 Hj E.
    generalize (take_cell j (Some ECanceled) s). intros s1 Hi1 Hj E.
    pose proof (iv_place _ Hi1). rewrite <-E in Hc. agent_tac s1. intros x k _ Hk _ _ [Ht|Hco]; [left|right].
    + unfold taker in *. simpl. destruct Ht as [Ht|[Ht|[Ht|Ht]]]; auto. do 3 right.
      eapply has_insert_other; [done..|]. apply bool_decide_eq_false_2. congruence.
    + core_tac Hco. intros Hca. destruct (co_cancel0 Hca); [left|by right]. by eapply has_insert_other.
Qed.

(** The coroutine is put in a new cell. *)
Lemma sch_store_inv s s1 x :
  inv s -> sub_holds (sub s) = 1%Z -> sub_src (sub s) = Some x -> step_sub s = Some s1 -> inv s1.
Proof.
  intros Hi Hh Hx Hs. pose proof (iv_place _ Hi) as Hp. destruct Hi as [H1 H2 H3 H4 H5 H6 H7 H8].
  assert (Hno : forall k, cells s !! k <> Some true) by (intros k; by apply sch_holds_no_cell).
  assert (Hr : running s = false).
  { unfold place in Hp. pose proof (sch_cells_nonneg (cells s)). pose proof (b2z_nonneg (match ready s with Some _ => true | None => false end)).
    destruct (running s); [simpl in *; lia|done]. }
  assert (Haw : rp s = RAway x).
  { rewrite Hr in H2. destruct (rp s) eqn:Hrp; try discriminate H2. by destruct (H5 _ eq_refl); simplify_eq. }
  assert (Hpl : place s1 = 1%Z).
  { unfold_sub Hs. unfold place in *. destruct (sub s); try discriminate Hh; injection Hs as <-; simpl in *;
      rewrite zsum_app; simpl; lia. }
  assert (Hnew : forall k, (cells s ++ [true]) !! k = Some true -> k = length (cells s)).
  { intros k [?|[? _]]%lookup_snoc_Some'; [by destruct (Hno k)|done]. }
  unfold_sub Hs. destruct (sub s); try discriminate Hh; injection Hs as <-; simpl in *; simplify_eq;
    (split; simpl; rewrite ?length_app; simpl; auto;
     [intros k ->%Hnew; lia|intros k Hk; simplify_eq; lia|intros k Hk%H6; lia
     |intros k Hk%H7; destruct Hk as [Hk _]; split; [lia|intros ->%Hnew; lia]
     |intros k ->%Hnew; eexists; split; [done|]; right; split; simpl; auto]).
Qed.

Ltac sub_tac s Hb :=
  agent_tac s; rewrite ?Hb; simpl; auto;
  try (match goal with H : place s = 1%Z |- _ => by unfold place in *; simpl in *; rewrite Hb in H end);
  try (intros x j Hrp Hj Hidx Hsrc Htc; pose proof Hidx as Hj';
       try specialize (Hj' _ eq_refl); simplify_eq; try (destruct Hsrc as [Hsrc|Hsrc]; simplify_eq);
       destruct Htc as [Ht|[Hlate Hwait Hslot Hcan Hqu Hdi Hti]];
         [left; unfold taker in *; rewrite Hb in Ht; simpl in *; try taker_tac Ht|rewrite Hb in *; simpl in *]).

(** [subscribe]. *)
Lemma sch_step_sub_inv s s' : inv s -> step_sub s = Some s' -> inv s'.
Proof.
  intros Hi Hs. pose proof (iv_place _ Hi) as Hp. pose proof (iv_idx _ Hi) as Hix.
  destruct (sub s) as [| |k|k|k|i|k|k| | |k|k|k|k|k|k|k|c w] eqn:Hb;
    try (by eapply (sch_store_inv s); [done|rewrite Hb..|]);
    unfold_sub Hs; rewrite Hb in Hs; try discriminate Hs.
  - (* PEmpty *)
    injection Hs as <-. destruct (Fifo.is_empty (q s)) eqn:Hq; sub_tac s Hb; right.
    + split; simpl; auto. destruct (q s); [done|discriminate Hq].
    + split; simpl; auto.
  - (* PChan *)
    injection Hs as <-. destruct (channels s =? 0)%Z eqn:Hq; sub_tac s Hb; right; split; simpl; auto; lia.
  - (* PTake *)
    injection Hs as <-. destruct (wait_co s) as [[i|]|] eqn:Hw; sub_tac s Hb; try congruence.
    left. right. left. simpl. apply bool_decide_eq_true. congruence.
  - (* PRun *)
    injection Hs as <-. destruct (sch_take_cell_ok i None s Hi) as (Hi1 & Hj1 & _ & E & _). revert Hi1 Hj1 E.
    generalize (take_cell i None s). intros s1 Hi1 Hj1 E. rewrite Hb in E. pose proof (iv_place _ Hi1). sub_tac s1 E; [|done].
    simpl in Ht. rewrite bool_decide_eq_false_2 in Ht by congruence. taker_tac Ht.
  - (* PReg *)
    injection Hs as <-. sub_tac s Hb. right. split; simpl; auto.
  - (* PCheck *)
    injection Hs as <-. destruct (is_canceled s) eqn:Hca; sub_tac s Hb; right; split; simpl; auto; unfold is_canceled in *; simpl; congruence.
  - (* PDropW *)
    injection Hs as <-. sub_tac s Hb. done.
  - (* TCheck *)
    injection Hs as <-. destruct (is_canceled s) eqn:Hca; sub_tac s Hb; right; split; simpl; auto; unfold is_canceled in *; simpl; congruence.
  - (* TStore *)
    injection Hs as <-. sub_tac s Hb. right. split; simpl; auto.
  - (* TEmpty *)
    injection Hs as <-. destruct (Fifo.is_empty (q s)) eqn:Hq; sub_tac s Hb.
    + right. split; simpl; auto. destruct (q s); [done|discriminate Hq].
    + left. right. left. simpl. by apply bool_decide_eq_true.
  - (* TChan *)
    injection Hs as <-. destruct (channels s =? 0)%Z eqn:Hq; sub_tac s Hb.
    + left. right. left. simpl. by apply bool_decide_eq_true.
    + right. split; simpl; auto. lia.
  - (* TWake *)
    injection Hs as <-. destruct (sch_take_cell_ok k None s Hi) as (Hi1 & Hj1 & _ & E & _). revert Hi1 Hj1 E.
    generalize (take_cell k None s). intros s1 Hi1 Hj1 E. rewrite Hb in E. pose proof (iv_place _ Hi1). sub_tac s1 E.
    intros x j _ Hj Hidx. destruct Hj1. by rewrite (Hidx _ eq_refl).
  - (* TArm *)
    injection Hs as <-. sub_tac s Hb. right. split; simpl; auto. intros _. left. apply elem_of_app. right. by apply list_elem_of_singleton.
  - (* THandle *)
    injection Hs as <-. sub_tac s Hb; eauto. right. split; simpl; auto.
  - (* SubCan *)
    destruct c as [| | |i]; simpl in Hs; [done|..].
    + injection Hs as <-. destruct w; sub_tac s Hb; right; split; simpl; auto.
    + destruct (cslot s) as [i|] eqn:Hsl; injection Hs as <-; destruct w; sub_tac s Hb.
      1,2: destruct Hslot as [Hk|]; [|done]; left; right; left; simpl; apply bool_decide_eq_true; congruence.
      1,2: destruct Hslot; congruence.
    + injection Hs as <-. destruct (sch_take_cell_ok i (Some ECanceled) s Hi) as (Hi1 & Hj1 & _ & E & _). revert Hi1 Hj1 E.
      generalize (take_cell i (Some ECanceled) s). intros s1 Hi1 Hj1 E. rewrite Hb in E. pose proof (iv_place _ Hi1).
      destruct w; sub_tac s1 E; try done; simpl in Ht; rewrite bool_decide_eq_false_2 in Ht by congruence; taker_tac Ht.
Qed.

Lemma sch_elem_delete (l : list nat) i k j : l !! i = Some k -> j ∈ l -> j <> k -> j ∈ delete i l.
Proof.
  intros Hi (m & Hm)%list_elem_of_lookup Hne. assert (m <> i) by congruence. apply list_elem_of_lookup.
  destruct (decide (m < i)) as [?|?].
  - exists m. by rewrite list_lookup_delete_lt.
  - exists (pred m). rewrite list_lookup_delete_ge by lia. by replace (S (pred m)) with m by lia.
Qed.

(** The coroutine suspends itself, and is run again. *)
Lemma sch_yield_inv s x :
  inv s -> rp s = RGo x -> sub s = SubIdle ->
  inv (set_rp (RAway x) (set_sub (match x with SPark => PStore | STimeout => TReg end) (set_co (cells s) (ready s) false (para s) s))).
Proof.
  intros Hi Hrp Hsub. pose proof (iv_run _ Hi) as Hr. rewrite Hrp in Hr. simpl in Hr.
  assert (Hno : forall k, cells s !! k <> Some true) by (intros k; apply sch_running_no_cell; [apply Hi|done]).
  destruct Hi as [H1 H2 H3 H4 H5 H6 H7 H8]. split; simpl; auto.
  - unfold place in *. simpl. rewrite Hr, Hsub in H1. simpl in H1. destruct x; simpl; lia.
  - intros k. by destruct x.
  - intros y ?. simplify_eq. right. by destruct y.
  - intros k Hk. by destruct (Hno k).
Qed.
Lemma sch_resume_inv s x p e :
  inv s -> rp s = RAway x -> ready s = Some p -> inv (set_rp (RBack x) (set_co (cells s) None true e s)).
Proof.
  intros Hi Hrp Hrd. pose proof (iv_run _ Hi) as Hr. rewrite Hrp in Hr. simpl in Hr.
  assert (Hno : forall k, cells s !! k <> Some true) by (intros k; eapply sch_ready_no_cell; [apply Hi|done]).
  destruct Hi as [H1 H2 H3 H4 H5 H6 H7 H8]. split; simpl; auto; try done.
  - unfold place in *. rewrite Hr, Hrd in H1. simpl in *. lia.
  - intros k Hk. by destruct (Hno k).
Qed.

(** The timer thread. *)
Lemma sch_expire_inv s k s' thread : inv s -> step thread s (Expire k) = Some s' -> inv s'.
Proof.
  intros Hi Hs. pose proof (iv_place _ Hi) as Hp. simpl in Hs. destruct (fire s) eqn:Hf; [done|].
  destruct (list_find (eq k) (armed s)) as [[i j]|] eqn:Hl; [|done]. injection Hs as <-.
  apply list_find_Some in Hl as (Hl & <- & _). agent_tac s. intros x j Hrp Hj Hidx Hsrc [Ht|Hc].
  - left. unfold taker in *. rewrite Hf in Ht. simpl. destruct Ht as [Ht|[Ht|[Ht|Ht]]]; auto. done.
  - destruct (decide (j = k)) as [->|Hne]; [left; right; right; by left|right].
    core_tac Hc. intros Hx. destruct (co_timer0 Hx); [left|by right]. by eapply sch_elem_delete.
Qed.
Lemma sch_fire_inv s s' thread : inv s -> step thread s Fire = Some s' -> inv s'.
Proof.
  intros Hi Hs. simpl in Hs. destruct (fire s) as [k|] eqn:Hf; [|done]. injection Hs as <-.
  destruct (sch_take_cell_ok k (Some ETimedOut) s Hi) as (Hi1 & Hj1 & _ & _ & _ & E). revert Hi1 Hj1 E.
  generalize (take_cell k (Some ETimedOut) s). intros s1 Hi1 Hj1 E. rewrite Hf in E. pose proof (iv_place _ Hi1).
  agent_tac s1. intros x j Hrp Hj Hidx Hsrc [Ht|Hc]; [left|right].
  - unfold taker in *. rewrite E in Ht. simpl. destruct Ht as [Ht|[Ht|[Ht|Ht]]]; auto. congruence.
  - core_tac Hc.
Qed.
Lemma sch_disarm_inv s k s' thread : inv s -> step thread s (Disarm k) = Some s' -> inv s'.
Proof.
  intros Hi Hs. pose proof (iv_place _ Hi) as Hp. simpl in Hs.
  destruct (list_find (eq k) (dels s)) as [[d k']|] eqn:Hl; [|done]. injection Hs as <-.
  apply list_find_Some in Hl as (Hl & <- & _).
  destruct (iv_dels _ Hi k) as [_ Hk]; [by apply list_elem_of_lookup; eauto|].
  agent_tac s; [apply list_subseteq_delete|].
  intros x j Hrp Hj Hidx Hsrc [Ht|Hc]; [by left|right]. core_tac Hc. intros Hx. destruct (co_timer0 Hx); [left|by right].
  destruct (list_find (eq k) (armed s)) as [[i k']|] eqn:Ha; [|done]. apply list_find_Some in Ha as (Ha & <- & _).
  eapply sch_elem_delete; [done..|congruence].
Qed.

Lemma sch_step_inv thread s e s' : inv s -> step thread s e = Some s' -> inv s'.
Proof.
  intros Hi Hs. pose proof (iv_place _ Hi) as Hp. pose proof (iv_run _ Hi) as Hr.
  destruct e as [| | | |b| | | |v| | |i|i|k| |k].
  1,2,3,4: simpl in Hs; destruct (rp s) eqn:Hrp; simpl in Hs; try discriminate Hs; injection Hs as <-; by apply (sch_inv_recv s); simpl; auto.
  - by eapply sch_step_recv_inv.
  - simpl in Hs. destruct (rp s) eqn:Hrp; try discriminate Hs. destruct (sub s) eqn:Hsub; try discriminate Hs.
    injection Hs as <-. by apply sch_yield_inv.
  - simpl in Hs. destruct (rp s) eqn:Hrp; try discriminate Hs. destruct (ready s) as [p|] eqn:Hrd; try discriminate Hs.
    injection Hs as <-. by eapply sch_resume_inv.
  - by apply sch_step_sub_inv in Hs.
  - simpl in Hs. destruct (snd_ s) eqn:Hn; try discriminate Hs. injection Hs as <-. agent_tac s.
    intros x k Hrp Hk Hidx Hsrc [Ht|Hc]; [left|right].
    + unfold taker in *. simpl. rewrite Hn in Ht. taker_tac Ht.
    + destruct Hc. rewrite Hn in *. destruct x; split; simpl in *; auto.
  - simpl in Hs. destruct (snd_ s) eqn:Hn; try discriminate Hs. injection Hs as <-. agent_tac s.
    intros x k Hrp Hk Hidx Hsrc [Ht|Hc]; [left|right].
    + unfold taker in *. simpl. rewrite Hn in Ht. taker_tac Ht.
    + destruct Hc. rewrite Hn in *. destruct x; split; simpl in *; auto.
  - by apply sch_step_send_inv in Hs.
  - simpl in Hs. destruct (cans s !! i) as [[]|] eqn:Hc; try discriminate Hs. injection Hs as <-. agent_tac s.
    intros x k Hrp Hk Hidx Hsrc [Ht|Hco]; [left|right].
    + unfold taker in *. simpl. destruct Ht as [Ht|[Ht|[Ht|Ht]]]; auto. do 3 right. by eapply has_insert_other.
    + core_tac Hco. intros Hca. destruct (co_cancel0 Hca); [left|by right]. by eapply has_insert_other.
  - simpl in Hs. destruct (cans s !! i) as [c|] eqn:Hc; [|done]. simpl in Hs.
    destruct (step_cancel c s) as [[c' s1]|] eqn:Hst; [|done]. injection Hs as <-.
    by eapply (sch_can_inv s i c).
  - by eapply sch_expire_inv.
  - by eapply sch_fire_inv.
  - by eapply sch_disarm_inv.
Qed.

Lemma sch_init_inv n : inv (init n).
Proof.
  split; simpl; try done; [intros k Hk; by apply elem_of_nil in Hk].
Qed.
Lemma sch_reach_inv thread n s : reachable (step thread) (init n) s -> inv s.
Proof. apply reachable_ind_inv; [apply sch_init_inv|]. intros. by eapply sch_step_inv. Qed.

(** ** Values, answers and the end of the channel *)

Definition hung_up (n : spc) : bool :=
  match n with NGone | NTake true | NUnpark _ true | NTakeT true | NWakeT _ true => true | _ => false end.
Definition answer (x : rpc) : option res :=
  match x with RDone r | RRemove r | RClearTh r | RWait _ (Some r) | RClr _ (Some r) => Some r | _ => None end.
Definition res_ok (s : state) (r : res) : Prop :=
  match r with
  | Got v => last (got s) = Some v
  | RDisc true => channels s = 0%Z /\ q s = []
  | _ => True
  end.
Definition draining (x : rpc) : bool := match x with RDrain | RGone => true | _ => false end.

Record vals (s : state) : Prop := {
  va_fifo : pushed s = got s ++ drained s ++ q s;
  va_drained : draining (rp s) = false -> drained s = [];
  va_channels : channels s = if hung_up (snd_ s) then 0%Z else 1%Z;
  va_closed : forall k, rp s = RPop2 k -> channels s = 0%Z;
  va_answer : forall r, answer (rp s) = Some r -> res_ok s r
}.

Lemma sch_answer_finish thread k r r' : answer (finish thread k r) = Some r' -> r' = r \/ r' = RTimeout.
Proof. destruct k, r, thread; simpl; intros; simplify_eq; auto. Qed.
Lemma sch_draining_finish thread k r : draining (finish thread k r) = false.
Proof. by destruct k, r, thread. Qed.
Lemma sch_finish_pop2 thread k r k' : finish thread k r <> RPop2 k'.
Proof. by destruct k, r, thread. Qed.

(** A step that touches neither the values nor the sender's end. *)
Lemma sch_vals_frame s s' :
  vals s -> q s' = q s -> channels s' = channels s -> snd_ s' = snd_ s ->
  pushed s' = pushed s -> got s' = got s -> drained s' = drained s ->
  (draining (rp s') = false -> draining (rp s) = false) -> (forall k, rp s' = RPop2 k -> channels s = 0%Z) ->
  (forall r, answer (rp s') = Some r -> res_ok s r) -> vals s'.
Proof.
  intros [H1 H2 H3 H4 H5] Hq Hc Hn Hp Hg Hd Hdr Hpop Ha.
  split; [by rewrite Hp, Hg, Hd, Hq|rewrite Hd; auto|by rewrite Hc, Hn|rewrite Hc; auto|].
  intros r Hr'. specialize (Ha _ Hr'). unfold res_ok in *. by rewrite Hg, Hc, Hq.
Qed.
Lemma sch_vals_agent s s' :
  vals s -> q s' = q s -> channels s' = channels s -> snd_ s' = snd_ s -> rp s' = rp s ->
  pushed s' = pushed s -> got s' = got s -> drained s' = drained s -> vals s'.
Proof.
  intros Hv Hq Hc Hn Hr Hp Hg Hd. apply (sch_vals_frame s); rewrite ?Hr; auto; apply Hv.
Qed.

(** A value is received. *)
Lemma sch_vals_got thread k v l s :
  vals s -> q s = v :: l -> draining (rp s) = false ->
  vals (set_rp (finish thread k (Got v)) (set_q l (pushed s) (got s ++ [v]) (drained s) s)).
Proof.
  intros [H1 H2 H3 H4 H5] Hq Hd. split; simpl; auto.
  - rewrite H1, (H2 Hd), Hq. simpl. by rewrite <-app_assoc.
  - intros k' Hk. by apply sch_finish_pop2 in Hk.
  - intros r [->| ->]%sch_answer_finish; [|done]. simpl. apply last_snoc.
Qed.

Ltac vals_tac s := apply (sch_vals_frame s); simpl; auto; try done; try (intros ? [= <-]; done); try (by match goal with H : rp ?s = _ |- context [rp ?s] => rewrite H end).

Lemma sch_vals_recv thread b s s' : vals s -> step_recv thread b s = Some s' -> vals s'.
Proof.
  intros Hv Hs. pose proof (va_answer _ Hv) as Ha. unfold_recv Hs.
  assert (Hf : forall k r, res_ok s r -> draining (rp s) = false -> vals (set_rp (finish thread k r) s)).
  { intros k r Hr Hd. apply (sch_vals_frame s); simpl; auto; [intros k' Hk; by apply sch_finish_pop2 in Hk|].
    intros r' [->| ->]%sch_answer_finish; done. }
  destruct (draining (rp s)) eqn:Hdr.
  - destruct (rp s) eqn:Hrp; try discriminate Hdr; try discriminate Hs.
    destruct Hv as [H1 H2 H3 H4 H5]. destruct (q s) as [|v l] eqn:Hq; injection Hs as <-; split; simpl; auto; try congruence; try done.
    + change (drop 0 l) with l. by rewrite H1, <-!app_assoc.
    + by rewrite Hrp.
  - destruct (rp s) eqn:Hrp; simpl in Ha; try discriminate Hs; try discriminate Hdr.
    + destruct (q s) as [|v l] eqn:Hq; injection Hs as <-; [vals_tac s|by apply sch_vals_got; [..|by rewrite Hrp]].
    + injection Hs as <-. destruct (0 <? channels s)%Z eqn:Hc; [by apply Hf|]. apply (sch_vals_frame s); simpl; auto; [by rewrite Hrp|].
      intros _ _. pose proof (va_channels _ Hv) as Hch. destruct (hung_up _); [done|by rewrite Hch in Hc].
    + destruct (q s) as [|v l] eqn:Hq; injection Hs as <-; [|by apply sch_vals_got; [..|by rewrite Hrp]].
      apply Hf; [|done]. split; [by eapply va_closed|done].
    + injection Hs as <-. destruct (is_canceled s), b, x; vals_tac s.
    + injection Hs as <-. destruct (is_canceled s), b, x; vals_tac s.
    + destruct (sub s); try discriminate Hs. injection Hs as <-. vals_tac s.
    + destruct x, o; injection Hs as <-; vals_tac s.
    + injection Hs as <-. destruct (handle s); vals_tac s.
    + injection Hs as <-. vals_tac s.
    + injection Hs as <-. destruct (para s) as [[]|]; vals_tac s.
    + destruct to; injection Hs as <-; vals_tac s.
    + destruct to; injection Hs as <-; vals_tac s.
    + injection Hs as <-. vals_tac s.
    + injection Hs as <-. destruct b; vals_tac s.
    + injection Hs as <-. vals_tac s.
    + injection Hs as <-. vals_tac s.
    + injection Hs as <-. vals_tac s.
Qed.

Lemma sch_take_cell_vals j p s : vals s -> vals (take_cell j p s).
Proof. intros Hv. unfold take_cell. repeat case_match; try done. by apply (sch_vals_agent s). Qed.
Lemma sch_take_cell_snd j p s : snd_ (take_cell j p s) = snd_ s.
Proof. unfold take_cell. by repeat case_match. Qed.
Lemma sch_vals_snd x s : vals s -> hung_up x = hung_up (snd_ s) -> vals (set_snd x s).
Proof. intros [H1 H2 H3 H4 H5] Hx. split; simpl; auto. by rewrite Hx. Qed.

Lemma sch_vals_send s s' : vals s -> step_send s = Some s' -> vals s'.
Proof.
  intros Hv Hs. unfold_send Hs.
  destruct (snd_ s) as [| |v|v| |d|w d|d|j d] eqn:Hn; try discriminate Hs; injection Hs as <-; simpl in *.
  - destruct (port_dropped s); by apply sch_vals_snd; rewrite ?Hn.
  - destruct Hv as [H1 H2 H3 H4 H5]. rewrite Hn in H3.
    split; simpl; auto; [by rewrite H1; unfold Fifo.push; rewrite <-!app_assoc|].
    intros r Hr. specialize (H5 _ Hr). destruct r as [| |[]| |]; simpl in *; auto. rewrite H3 in H5. by destruct H5.
  - destruct Hv as [H1 H2 H3 H4 H5]. split; simpl; auto.
    intros r Hr. specialize (H5 _ Hr). destruct r as [| |[]| |]; simpl in *; auto. by destruct H5.
  - destruct (wait_co s); (apply sch_vals_snd; [by apply (sch_vals_agent s)|by simpl; rewrite Hn; destruct d]).
  - destruct w as [j|]; apply sch_vals_snd; [by apply sch_take_cell_vals|by rewrite sch_take_cell_snd, Hn; destruct d
      |by apply (sch_vals_agent s)|by simpl; rewrite Hn; destruct d].
  - destruct (timeout_wait s); (apply sch_vals_snd; [by apply (sch_vals_agent s)|by simpl; rewrite Hn; destruct d]).
  - apply sch_vals_snd; [by apply sch_take_cell_vals|by rewrite sch_take_cell_snd, Hn; destruct d].
Qed.

Lemma sch_vals_cancel c s c' s' : vals s -> step_cancel c s = Some (c', s') -> vals s'.
Proof.
  intros Hv Hs. destruct c; simpl in Hs; try discriminate Hs; repeat case_match; injection Hs as <- <-;
    first [done|by apply (sch_vals_agent s)|by apply sch_take_cell_vals].
Qed.

Lemma sch_vals_sub s s' : vals s -> step_sub s = Some s' -> vals s'.
Proof.
  intros Hv Hs. unfold_sub Hs. destruct (sub s) as [| | | | | | | | | | | | | | | | |c w]; try discriminate Hs.
  17: { destruct (step_cancel c s) as [[c' s1]|] eqn:Hc; [|done]. simpl in Hs. injection Hs as <-.
        apply sch_vals_cancel in Hc; [|done]. by apply (sch_vals_agent s1). }
  all: injection Hs as <-; repeat case_match; try (by apply (sch_vals_agent s)).
  all: match goal with |- context [take_cell ?j ?p ?t] => apply (sch_vals_agent (take_cell j p t)); [by apply sch_take_cell_vals|done..] end.
Qed.

Lemma sch_vals_step thread s e s' : vals s -> step thread s e = Some s' -> vals s'.
Proof.
  intros Hv Hs. destruct e as [| | | |b| | | |v| | |i|i|k| |k]; simpl in Hs.
  1-4: destruct (rp s) eqn:Hrp; simpl in Hs; try discriminate Hs; injection Hs as <-;
    apply (sch_vals_frame s); simpl; auto; try done; by rewrite Hrp.
  - by eapply sch_vals_recv.
  - destruct (rp s) eqn:Hrp, (sub s); try discriminate Hs. injection Hs as <-.
    apply (sch_vals_frame s); simpl; auto; try done; by rewrite Hrp.
  - destruct (rp s) eqn:Hrp; try discriminate Hs. destruct (ready s); [|done]. injection Hs as <-.
    apply (sch_vals_frame s); simpl; auto; try done; by rewrite Hrp.
  - by eapply sch_vals_sub.
  - destruct (snd_ s) eqn:Hn; try discriminate Hs. injection Hs as <-. by apply sch_vals_snd; rewrite ?Hn.
  - destruct (snd_ s) eqn:Hn; try discriminate Hs. injection Hs as <-. by apply sch_vals_snd; rewrite ?Hn.
  - by eapply sch_vals_send.
  - destruct (cans s !! i) as [[]|]; try discriminate Hs. injection Hs as <-. by apply (sch_vals_agent s).
  - destruct (cans s !! i) as [c|]; [|done]. simpl in Hs. destruct (step_cancel c s) as [[c' s1]|] eqn:Hc; [|done].
    injection Hs as <-. apply sch_vals_cancel in Hc; [|done]. by apply (sch_vals_agent s1).
  - repeat case_match; try discriminate Hs; injection Hs as <-; by apply (sch_vals_agent s).
  - destruct (fire s) as [k|]; [|done]. injection Hs as <-.
    eapply sch_vals_agent; [by apply (sch_take_cell_vals k (Some ETimedOut))|done..].
  - repeat case_match; try discriminate Hs; injection Hs as <-; by apply (sch_vals_agent s).
Qed.

Lemma sch_init_vals n : vals (init n).
Proof. split; simpl; done. Qed.
Lemma sch_reach_vals thread n s : reachable (step thread) (init n) s -> vals s.
Proof. apply reachable_ind_inv; [apply sch_init_vals|]. intros. by eapply sch_vals_step. Qed.

(** ** Invariant of a thread receiver *)

Definition th_cont (k : cont) : bool := match k with KAgain | KToCo | KToAgain => false | _ => true end.
Definition th_pc (x : rpc) : bool :=
  match x with
  | RPop k | RChan k | RPop2 k => th_cont k
  | RYield _ | RGo _ | RAway _ | RBack _ | RWait _ _ | RClr _ _ | RRemove _ | RClearT | RPara => false
  | _ => true
  end.
Definition th_waits (k : cont) : bool := match k with KTh1 | KToTh => true | _ => false end.
Definition th_registered (x : rpc) : bool :=
  match x with RPop k | RChan k | RPop2 k => th_waits k | RParkTh _ | RElapsed => true | _ => false end.
Definition th_saw_empty (x : rpc) : bool :=
  match x with RChan k => th_waits k | RParkTh _ | RElapsed => true | _ => false end.
Definition th_saw_open (x : rpc) : bool := match x with RParkTh _ | RElapsed => true | _ => false end.
Definition th_signal (s : state) : bool := token s || match snd_ s with NUnpark WTh _ => true | _ => false end.
Definition th_take (n : spc) : bool := match n with NTake _ => true | _ => false end.
Definition th_waiter (w : option waiter) : bool := match w with Some (WCo _) => false | _ => true end.

Record tinv (s : state) : Prop := {
  t_sub : sub s = SubIdle;
  t_pc : th_pc (rp s) = true;
  t_wait : th_waiter (wait_co s) = true;
  t_snd : match snd_ s with NUnpark w _ => w = WTh | _ => True end;
  t_reg : th_registered (rp s) = true -> wait_co s = Some WTh \/ th_signal s = true;
  t_queue : th_saw_empty (rp s) = true -> q s <> [] -> th_signal s = true \/ th_take (snd_ s) = true;
  t_open : th_saw_open (rp s) = true -> channels s = 0%Z -> th_signal s = true \/ th_take (snd_ s) = true
}.

Lemma sch_tinv_agent s s' :
  tinv s -> sub s' = sub s -> rp s' = rp s -> wait_co s' = wait_co s -> snd_ s' = snd_ s -> token s' = token s ->
  q s' = q s -> channels s' = channels s -> tinv s'.
Proof.
  intros [H1 H2 H3 H4 H5 H6 H7] E1 E2 E3 E4 E5 E6 E7.
  unfold th_signal in *. split; unfold th_signal; rewrite ?E1, ?E2, ?E3, ?E4, ?E5, ?E6, ?E7; auto.
Qed.
Lemma sch_tinv_take_cell j p s : tinv s -> tinv (take_cell j p s).
Proof. intros Hv. unfold take_cell. repeat case_match; try done. by apply (sch_tinv_agent s). Qed.

Lemma sch_finish_thread k r :
  th_cont k = true -> th_pc (finish true k r) = true /\
  (th_registered (finish true k r) = true -> th_waits k = true /\ r = REmpty) /\
  (th_saw_empty (finish true k r) = true -> th_waits k = true /\ r = REmpty).
Proof. by destruct k, r. Qed.

Lemma sch_tinv_finish k r s l p g d :
  tinv s -> th_cont k = true -> (r = REmpty -> th_waits k = true -> l = q s /\ th_registered (rp s) = true /\ th_saw_empty (rp s) = true /\ channels s <> 0%Z) ->
  tinv (set_rp (finish true k r) (set_q l p g d s)).
Proof.
  intros [H1 H2 H3 H4 H5 H6 H7] Hk Hr. destruct (sch_finish_thread k r Hk) as (Hp & Hreg & He).
  split; simpl; auto.
  - intros Hx. destruct (Hreg Hx) as [Hw ->]. destruct (Hr eq_refl Hw) as (-> & ? & _). auto.
  - intros Hx. destruct (He Hx) as [Hw ->]. destruct (Hr eq_refl Hw) as (-> & _ & ? & _). auto.
  - intros Hx Hc. assert (Hx' : th_saw_empty (finish true k r) = true) by (revert Hx; by destruct (finish true k r)).
    destruct (He Hx') as [Hw ->]. by destruct (Hr eq_refl Hw) as (_ & _ & _ & ?).
Qed.

Lemma sch_tinv_recv b s s' : vals s -> tinv s -> step_recv true b s = Some s' -> tinv s'.
Proof.
  intros Hv Ht Hs. pose proof Ht as [H1 H2 H3 H4 H5 H6 H7]. unfold_recv Hs. unfold th_signal in *.
  destruct (rp s) eqn:Hrp; simpl in H2; try discriminate H2; try discriminate Hs.
  - destruct (q s) as [|v l] eqn:Hq; injection Hs as <-; [|by apply sch_tinv_finish].
    split; unfold th_signal; simpl; auto; by rewrite Hq.
  - injection Hs as <-. destruct (0 <? channels s)%Z eqn:Hc.
    + apply (sch_tinv_finish k REmpty s (q s) (pushed s) (got s) (drained s)); [done..|]. rewrite Hrp. simpl. intros _ Hw.
      split_and!; auto. lia.
    + split; unfold th_signal; simpl; auto. done.
  - destruct (q s) as [|v l] eqn:Hq; injection Hs as <-; [|by apply sch_tinv_finish].
    by apply (sch_tinv_finish k (RDisc true) s (q s) (pushed s) (got s) (drained s)).
  - destruct to; injection Hs as <-; split; unfold th_signal; simpl; auto; done.
  - destruct to; injection Hs as <-; split; unfold th_signal; simpl; auto; done.
  - injection Hs as <-. split; unfold th_signal; simpl; auto; done.
  - injection Hs as <-. destruct b; split; unfold th_signal; simpl; auto; done.
  - injection Hs as <-. split; unfold th_signal; simpl; auto; done.
  - injection Hs as <-. split; unfold th_signal; simpl; auto; done.
  - injection Hs as <-. split; unfold th_signal; simpl; auto; done.
  - destruct (q s) as [|v l] eqn:Hq; injection Hs as <-; split; unfold th_signal; simpl; rewrite ?Hrp; auto; done.
Qed.

Lemma sch_tinv_send s s' : vals s -> tinv s -> step_send s = Some s' -> tinv s'.
Proof.
  intros Hv [H1 H2 H3 H4 H5 H6 H7] Hs. unfold_send Hs. unfold th_signal in *.
  destruct (snd_ s) as [| |v|v| |d|w d|d|j d] eqn:Hn; try discriminate Hs; injection Hs as <-; simpl in *.
  - destruct (port_dropped s); split; unfold th_signal; simpl; auto.
  - split; unfold th_signal; simpl; auto.
  - split; unfold th_signal; simpl; auto.
  - destruct (wait_co s) as [[|]|] eqn:Hw; try discriminate H3; split; unfold th_signal; simpl; rewrite ?Hw; auto; rewrite ?orb_true_r; auto.
    all: intros Hx _; left; destruct H5; [by destruct (rp s)|done|done].
  - subst w. split; unfold th_signal; simpl; auto.
  - destruct (timeout_wait s), d; split; unfold th_signal; simpl; auto.
  - replace (set_snd (sent d) (take_cell j None s)) with (take_cell j None (set_snd (sent d) s))
      by (unfold take_cell; simpl; by repeat case_match).
    apply sch_tinv_take_cell. destruct d; split; unfold th_signal; simpl; auto.
Qed.

Lemma sch_tinv_step s e s' : vals s -> tinv s -> step true s e = Some s' -> tinv s'.
Proof.
  intros Hv Ht Hs. pose proof Ht as [H1 H2 H3 H4 H5 H6 H7]. unfold th_signal in *.
  destruct e as [| | | |b| | | |v| | |i|i|k| |k]; simpl in Hs.
  1-4: destruct (rp s) eqn:Hrp; simpl in Hs; try discriminate Hs; injection Hs as <-; split; unfold th_signal; simpl; auto; done.
  - by eapply sch_tinv_recv.
  - destruct (rp s); try discriminate Hs; discriminate H2.
  - destruct (rp s); try discriminate Hs; discriminate H2.
  - unfold_sub Hs. by rewrite H1 in Hs.
  - destruct (snd_ s) eqn:Hn; try discriminate Hs. injection Hs as <-. split; unfold th_signal; simpl; auto.
  - destruct (snd_ s) eqn:Hn; try discriminate Hs. injection Hs as <-. split; unfold th_signal; simpl; auto.
  - by eapply sch_tinv_send.
  - destruct (cans s !! i) as [[]|]; try discriminate Hs. injection Hs as <-. by apply (sch_tinv_agent s).
  - destruct (cans s !! i) as [c|]; [|done]. simpl in Hs. destruct (step_cancel c s) as [[c' s1]|] eqn:Hc; [|done].
    injection Hs as <-. assert (Ht1 : tinv s1); [|by apply (sch_tinv_agent s1)].
    destruct c; simpl in Hc; try discriminate Hc; repeat case_match; injection Hc as <- <-;
      first [done|by apply (sch_tinv_agent s)|by apply sch_tinv_take_cell].
  - repeat case_match; try discriminate Hs; injection Hs as <-; by apply (sch_tinv_agent s).
  - destruct (fire s) as [k|]; [|done]. injection Hs as <-.
    eapply sch_tinv_agent; [by apply (sch_tinv_take_cell k (Some ETimedOut))|done..].
  - repeat case_match; try discriminate Hs; injection Hs as <-; by apply (sch_tinv_agent s).
Qed.

Lemma sch_reach_tinv n s : reachable (step true) (init n) s -> vals s /\ tinv s.
Proof.
  apply (reachable_ind_inv _ (fun s => vals s /\ tinv s)); [split; [apply sch_init_vals|by split]|].
  intros t e t' [Hv Ht] Hs. split; [by eapply sch_vals_step|by eapply sch_tinv_step].
Qed.

(** ** Properties *)

(** Nobody but the receiver has anything left to do. *)
Definition snd_rest (n : spc) : bool := match n with NIdle | NGone => true | _ => false end.
Definition rest (s : state) : Prop :=
  snd_rest (snd_ s) = true /\ sub s = SubIdle /\ fire s = None /\ forall i c, cans s !! i = Some c -> c = CanIdle.

(** C18. No wake-up of a coroutine is lost: when a coroutine is suspended in
    [recv] or [recv_timeout] and everybody else has finished, the queue is empty,
    the sender is alive, the coroutine is not cancelled, and the sender's next
    [take] finds it; in [recv_timeout] its timer is armed. *)
Theorem sch_wakeup_not_lost n s x :
  reachable (step false) (init n) s -> rest s -> rp s = RAway x -> ready s = None ->
  q s = [] /\ channels s = 1%Z /\ is_canceled s = false /\
  exists k, cells s !! k = Some true /\
    match x with SPark => wait_co s = Some (WCo k) | STimeout => timeout_wait s = Some k /\ k ∈ armed s end.
Proof.
  intros Hr (Hn & Hsub & Hf & Hcan) Hx Hrd. pose proof (sch_reach_vals _ _ _ Hr) as Hv. apply sch_reach_inv in Hr as Hi.
  pose proof (iv_run _ Hi) as Hrun. rewrite Hx in Hrun. pose proof (iv_place _ Hi) as Hp. unfold place in Hp.
  rewrite Hrun, Hrd, Hsub in Hp. simpl in Hp.
  destruct (zsum_nonzero b2z (cells s)) as (k & b & Hk & Hb); [lia|]. destruct b; [|done].
  destruct (iv_co _ Hi _ Hk) as (y & Hy & Htc). assert (y = x) as -> by congruence.
  assert (Hno : forall P, (forall c, P c = true -> c <> CanIdle) -> ~ has P (cans s)).
  { intros P HP (i & c & Hc & Hpc). apply (HP c Hpc). by eapply Hcan. }
  destruct Htc as [Ht|[Hla Hw Hsl Hca Hq Hd Hti]]; rewrite ?Hsub in *.
  - exfalso. unfold taker in Ht. rewrite Hsub, Hf in Ht. destruct Ht as [Ht|[Ht|[Ht|Ht]]]; try done.
    + by destruct (snd_ s).
    + eapply Hno; [|done]. by intros [].
  - assert (Hpend : snd_pending x (snd_ s) = false) by (by destruct (snd_ s)). rewrite Hpend in *. simpl in *.
    split_and!.
    + destruct (q s); [done|]. by destruct Hq.
    + pose proof (va_channels _ Hv) as Hc. destruct (hung_up (snd_ s)); [|done]. by destruct (Hd Hc).
    + destruct (is_canceled s); [|done]. destruct Hca as [H|]; [done| |done]. exfalso. eapply Hno; [|done]. by intros [].
    + exists k. split; [done|]. destruct x; [done|]. destruct Hw as [Hw|]; [|done]. split; [done|].
      by destruct Hti.
Qed.

(** No wake-up of a thread is lost either, and the bound of ten milliseconds on
    its [park_timeout] is not needed for it: a thread that parks without an unpark
    token, while no [send] and no drop of the sender is under way, sees an empty
    queue and a sender that is alive, which will find the thread. *)
Theorem sch_thread_backstop_unused n s to :
  reachable (step true) (init n) s -> snd_rest (snd_ s) = true -> rp s = RParkTh to -> token s = false ->
  q s = [] /\ channels s = 1%Z /\ wait_co s = Some WTh.
Proof.
  intros [Hv [_ _ _ _ H5 H6 H7]]%sch_reach_tinv Hn Hx Ht.
  assert (Hsig : th_signal s = false) by (unfold th_signal; rewrite Ht; by destruct (snd_ s)).
  assert (Htk : th_take (snd_ s) = false) by (by destruct (snd_ s)).
  rewrite Hx, Hsig, Htk in *. simpl in *. split_and!.
  - destruct (q s); [done|]. by destruct H6.
  - pose proof (va_channels _ Hv) as Hc. destruct (hung_up (snd_ s)); [|done]. by destruct (H7 eq_refl Hc).
  - by destruct H5.
Qed.

(** The channel is a FIFO: the values sent are those received, in order,
    followed by those that were dropped with the receiver or are still queued; a
    received value is the next one; and a receiver that saw [channels] at 0 reports
    the disconnect only when every value that was sent has been received. *)
Theorem sch_fifo thread n s :
  reachable (step thread) (init n) s ->
  pushed s = got s ++ drained s ++ q s /\
  (forall v, rp s = RDone (Got v) -> last (got s) = Some v) /\
  (rp s = RDone (RDisc true) -> channels s = 0%Z /\ pushed s = got s).
Proof.
  intros [H1 H2 H3 H4 H5]%sch_reach_vals. split_and!; [done| |].
  - intros v Hr. rewrite Hr in H5. by apply (H5 (Got v)).
  - intros Hr. rewrite Hr in *. destruct (H5 (RDisc true) eq_refl) as [? Hq].
    split; [done|]. by rewrite H1, Hq, H2, !app_nil_r.
Qed.

(** ** Concrete runs *)

Definition rs (n : nat) : list event := replicate n (R false).
Definition subs (n : nat) : list event := replicate n Sub.
Definition ns (n : nat) : list event := replicate n N.

(** The receiver takes the value of a [send] that has not looked for a waiter yet,
    calls [recv_timeout] again and suspends; the same [send] wakes it. *)
Definition stale_wake (v : T) : list event :=
  [Send v] ++ ns 2 ++ [RecvTimeout] ++ rs 1 ++ [RecvTimeout] ++ rs 5 ++ [Yield] ++ subs 7 ++ ns 3 ++ [Resume] ++ rs 8.

(** [recv_timeout] of a coroutine can report a disconnect while the sender is
    alive and has not been dropped, before its timeout and without a cancellation:
    the wake-up of an earlier [send] whose value was already taken ends the wait,
    the queue is empty and no timer has fired, and every end of the wait that is
    not [TimedOut] is reported as [Disconnected]. *)
Theorem sch_timeout_false_disconnect n v :
  exists s, run (step false) (stale_wake v) (init n) = Some s /\
    rp s = RDone (RDisc false) /\ channels s = 1%Z /\ snd_ s = NIdle /\ cstate s = 0%Z /\ armed s = [0].
Proof. eexists. split; [vm_compute; reflexivity|]. by vm_compute. Qed.

End chan.

Definition recv_parks : list (@event nat) := [Recv] ++ rs 3 ++ [Yield] ++ subs 5.
Definition park_state : @state nat := default (init 1) (run (step false) recv_parks (init 1)).

Example sch_demo_results :
  map (fun es => default RIdle (rp <$> run (step false) es (init 1)))
    [recv_parks ++ [Send 7] ++ ns 5 ++ [Resume] ++ rs 4;
     recv_parks ++ [DropTx] ++ ns 4 ++ [Resume] ++ rs 6;
     recv_parks ++ [Cancel 0; Can 0; Can 0; Can 0; Resume] ++ rs 3] =
  [RDone (Got 7); RDone (RDisc true); RDone RPanic].
Proof. by vm_compute. Qed.

Lemma sch_wakeup_not_lost_witness :
  q park_state = [] /\ channels park_state = 1%Z /\ is_canceled park_state = false /\
  exists k, cells park_state !! k = Some true /\ wait_co park_state = Some (WCo k).
Proof.
  apply (sch_wakeup_not_lost 1 park_state SPark).
  - apply run_reachable with (es := recv_parks). vm_compute. reflexivity.
  - split_and!; try (vm_compute; reflexivity). intros [|i] c; vm_compute; congruence.
  - vm_compute. reflexivity.
  - vm_compute. reflexivity.
Defined.

Definition thread_parks : list (@event nat) := [RecvTimeout] ++ rs 6.
Definition thread_state : @state nat := default (init 0) (run (step true) thread_parks (init 0)).
Lemma sch_thread_backstop_unused_witness :
  q thread_state = [] /\ channels thread_state = 1%Z /\ wait_co thread_state = Some WTh.
Proof.
  apply (sch_thread_backstop_unused 0 thread_state true).
  - apply run_reachable with (es := thread_parks). vm_compute. reflexivity.
  - vm_compute. reflexivity.
  - vm_compute. reflexivity.
  - vm_compute. reflexivity.
Defined.

Definition all_received : list (@event nat) :=
  [Send 1] ++ ns 4 ++ [DropTx] ++ ns 3 ++ [TryRecv] ++ rs 1 ++ [TryRecv] ++ rs 3.
Definition end_state : @state nat := default (init 0) (run (step true) all_received (init 0)).
Lemma sch_fifo_witness :
  rp end_state = RDone (RDisc true) /\ pushed end_state = got end_state ++ drained end_state ++ q end_state /\
  (forall v, rp end_state = RDone (Got v) -> last (got end_state) = Some v) /\
  (rp end_state = RDone (RDisc true) -> channels end_state = 0%Z /\ pushed end_state = got end_state).
Proof.
  split; [vm_compute; reflexivity|]. apply (sch_fifo true 0).
  apply run_reachable with (es := all_received). vm_compute. reflexivity.
Defined.

End SpscCh.
