(* ===== verification/Handles.v ===== *)
(** * Handles: counting the two ends of a channel

    The channels count their live [Sender]s (and [Receiver]s) in an atomic counter
    that [clone] increments and [Drop] decrements.  Between a handle's death and
    the decrement the counter is ahead by one; a handle that is borrowed by a call
    cannot be dropped meanwhile. *)

From stdpp Require Import base numbers list.
From Stdlib Require Import ZArith Lia.
From S2P Require Import Prelude.

Module Hnd.

Section handles.
Context {P : Type} (dropping uses : P -> bool).

(** [c]: the counter; [h]: the live handles; [l]: what each thread is doing. *)
Record counted (c h : Z) (l : list P) : Prop := {
  cn_count : c = (h + zsum (fun x => b2z (dropping x)) l)%Z;
  cn_pos : (0 <= h)%Z;
  cn_uses : forall t x, l !! t = Some x -> uses x = true -> (1 <= h)%Z
}.

(** May one of [h] handles be dropped while the threads are at [l]? *)
Definition can_drop (h : Z) (l : list P) : bool := (1 <? h)%Z || ((h =? 1)%Z && negb (existsb uses l)).

Lemma hnd_drop_spec h l :
  can_drop h l = true -> (1 <= h)%Z /\ forall t x, l !! t = Some x -> uses x = true -> (1 <= h - 1)%Z.
Proof.
  unfold can_drop. intros [H|[H1 H2]%andb_true_iff]%orb_true_iff; [split; [|intros]; lia|].
  apply Z.eqb_eq in H1. apply negb_true_iff in H2. split; [lia|]. intros t x Hx Hu.
  assert (existsb uses l = true); [|congruence].
  apply existsb_exists. exists x. split; [by apply list_elem_of_In; eapply list_elem_of_lookup_2|done].
Qed.

Lemma hnd_nonneg c h l : counted c h l -> (0 <= h <= c)%Z.
Proof.
  intros [Hc Hp _]. pose proof (zsum_nonneg (fun x => b2z (dropping x)) l (fun x => b2z_nonneg _)). lia.
Qed.

Lemma hnd_init n x : dropping x = false -> uses x = false -> counted 1 1 (replicate n x).
Proof.
  intros Hd Hu. split; [rewrite zsum_replicate, Hd; simpl; lia|lia|].
  intros t y [-> _]%lookup_replicate ?. congruence.
Qed.

Section move.
Context (c h : Z) (l : list P) (t : nat) (x y : P).
Context (Hc : counted c h l) (Hx : l !! t = Some x).

Lemma hnd_move :
  dropping y = dropping x -> (uses y = true -> uses x = true \/ (1 <= h)%Z) -> counted c h (<[t := y]> l).
Proof.
  intros Hd Hu. destruct Hc as [H1 H2 H3]. split; [|done|].
  - rewrite (zsum_insert _ _ _ _ _ Hx), Hd. lia.
  - intros i z [(<- & -> & _)|[_ Hi]]%lookup_insert_list Hz; [destruct (Hu Hz)|]; eauto.
Qed.
(** A handle dies: its [Drop] is about to decrement the counter. *)
Lemma hnd_die :
  can_drop h l = true -> dropping x = false -> dropping y = true -> uses y = false -> counted c (h - 1) (<[t := y]> l).
Proof.
  intros [H Hu]%hnd_drop_spec Hdx Hdy Huy. destruct Hc as [H1 H2 H3]. split; [|lia|].
  - rewrite (zsum_insert _ _ _ _ _ Hx), Hdx, Hdy. simpl. lia.
  - intros i z [(<- & -> & _)|[_ Hi]]%lookup_insert_list Hz; [congruence|eauto].
Qed.
Lemma hnd_dropping : dropping x = true -> (1 <= c - h)%Z.
Proof.
  intros Hd. destruct Hc as [H1 H2 H3].
  pose proof (zsum_lookup_le (fun x => b2z (dropping x)) _ _ _ (fun x => b2z_nonneg _) Hx) as Hle. simpl in Hle. rewrite Hd in Hle.
  simpl in Hle. lia.
Qed.
Lemma hnd_sub :
  dropping x = true -> dropping y = false -> uses y = false -> (1 <= c)%Z /\ counted (c - 1) h (<[t := y]> l).
Proof.
  intros Hdx Hdy Huy. pose proof (hnd_dropping Hdx). destruct Hc as [H1 H2 H3]. split; [lia|]. split; [|done|].
  - rewrite (zsum_insert _ _ _ _ _ Hx), Hdx, Hdy. simpl. lia.
  - intros i z [(<- & -> & _)|[_ Hi]]%lookup_insert_list Hz; [congruence|eauto].
Qed.
(** A handle is cloned from a live one. *)
Lemma hnd_add : uses x = true -> dropping x = false -> dropping y = false -> (1 <= c)%Z /\ counted (c + 1) (h + 1) (<[t := y]> l).
Proof.
  intros Hu Hdx Hdy. pose proof (hnd_nonneg _ _ _ Hc). destruct Hc as [H1 H2 H3]. pose proof (H3 _ _ Hx Hu). split; [lia|]. split; [|lia|].
  - rewrite (zsum_insert _ _ _ _ _ Hx), Hdx, Hdy. simpl. lia.
  - intros. lia.
Qed.
End move.
End handles.

Lemma hnd_usize z : (0 <= z <= Word.isize_max)%Z -> Word.is_usize z.
Proof. unfold Word.is_usize, Word.usize_max, Word.isize_max, Word.width. rewrite Word.modulus_eq. lia. Qed.
Lemma hnd_usub z : (1 <= z <= Word.isize_max)%Z -> Word.sub z 1 = (z - 1)%Z.
Proof. intros. unfold Word.sub. apply Word.wrap_small, hnd_usize. lia. Qed.
Lemma hnd_uadd z : (0 <= z < Word.isize_max)%Z -> Word.add z 1 = (z + 1)%Z.
Proof. intros. unfold Word.add. apply Word.wrap_small, hnd_usize. lia. Qed.

End Hnd.
