(* ===== verification/Slot.v ===== *)
(** * Slot: one registered waiter

    A consumer that waits for something registers a fresh [Blocker] in an
    [AtomicOption] ([to_wake]), looks again, and parks; whoever makes the thing
    available takes the blocker out of the slot and unparks it.  The channels,
    [join] and the event queue of [select] all wait this way.

    [wk k]: some thread has taken blocker [k] and is about to unpark it. *)

From stdpp Require Import base numbers list.
From Stdlib Require Import Lia.
From S2P Require Import Prelude.

Module Slot.

(** [tokens]: the parker of every blocker made so far. *)
Record t := Mk { to_wake : option nat; tokens : list bool }.

Definition new : t := Mk None [].
(** [Blocker::current()] and [to_wake.store(cur)]; the blocker is [next]. *)
Definition next (s : t) : nat := length (tokens s).
Definition store (s : t) : t := Mk (Some (next s)) (tokens s ++ [false]).
(** [to_wake.take()], which also models [clear]. *)
Definition take (s : t) : t := Mk None (tokens s).
Definition unpark (k : nat) (s : t) : t := Mk (to_wake s) (<[k := true]> (tokens s)).

(** The end of a [park]: [Ok], an error (a timeout if there is one, or a
    cancellation while unwinding), or a cancel panic. *)
Inductive parked := POk | PErr | PPanic.
Definition token (k : nat) (s : t) : bool := default false (tokens s !! k).
Definition park (o : parked) (k : nat) (s : t) : option t :=
  match o with
  | POk => if token k s then Some (Mk (to_wake s) (<[k := false]> (tokens s))) else None
  | PErr => Some (Mk (to_wake s) (<[k := false]> (tokens s)))
  | PPanic => Some s
  end.

Definition notified (wk : nat -> Prop) (k : nat) (s : t) : Prop := token k s = true \/ wk k.

(** The blocker that waits is in the slot, or on its way to be unparked. *)
Definition ok (reg : option nat) (wk : nat -> Prop) (s : t) : Prop :=
  forall k, reg = Some k -> k < next s /\ (to_wake s = Some k \/ (to_wake s = None /\ notified wk k s)).

Section slot.
Context (wk wk' : nat -> Prop).

Lemma slot_none s : ok None wk s.
Proof. done. Qed.
Lemma slot_notified_mono k s : (wk k -> wk' k) -> notified wk k s -> notified wk' k s.
Proof. intros H [?|?]; [by left|right; auto]. Qed.
Lemma slot_mono reg s : (forall k, wk k -> wk' k) -> ok reg wk s -> ok reg wk' s.
Proof. intros Hw H k Hk. destruct (H k Hk) as [? [?|[? ?]]]; eauto 6 using slot_notified_mono. Qed.
Lemma slot_reg reg reg' s : (forall k, reg' = Some k -> reg = Some k) -> ok reg wk s -> ok reg' wk s.
Proof. intros Hr H k Hk. auto. Qed.
Lemma slot_store s : ok (Some (next s)) wk (store s).
Proof. intros k [= <-]. unfold next. simpl. rewrite length_app. split; [simpl; lia|by left]. Qed.

(** The taker carries the blocker it found. *)
Lemma slot_take_notified reg k s :
  ok reg wk s -> reg = Some k -> (forall i, wk i -> wk' i) -> (forall i, to_wake s = Some i -> wk' i) -> notified wk' k (take s).
Proof. intros H Hk Hw Ht. destruct (H k Hk) as [_ [Hs|[_ [Hn|Hn]]]]; [right; auto|by left|right; auto]. Qed.
Lemma slot_take reg s :
  ok reg wk s -> (forall i, wk i -> wk' i) -> (forall i, to_wake s = Some i -> wk' i) -> ok reg wk' (take s).
Proof. intros H Hw Ht k Hk. split; [by apply H|]. right. split; [done|]. by eapply slot_take_notified. Qed.

Lemma slot_unpark_notified i k s :
  k < next s -> (k <> i -> wk k -> wk' k) -> notified wk k s -> notified wk' k (unpark i s).
Proof.
  unfold notified, token, next. simpl. intros Hlt Hw Hn. destruct (decide (k = i)) as [->|Hne].
  - left. by rewrite list_lookup_insert_eq.
  - rewrite list_lookup_insert_ne by done. destruct Hn as [?|?]; [by left|right; auto].
Qed.
Lemma slot_unpark reg i s :
  ok reg wk s -> (forall k, k <> i -> wk k -> wk' k) -> ok reg wk' (unpark i s).
Proof.
  intros H Hw k Hk. destruct (H k Hk) as [Hlt Hs]. unfold next. simpl. rewrite length_insert. split; [done|].
  destruct Hs as [?|[? ?]]; [by left|right; eauto using slot_unpark_notified].
Qed.
End slot.

End Slot.
