(* ===== verification/MpmcChan.v ===== *)
(** * MpmcChan: the multi-producer multi-consumer channel

    [src/sync/mpmc.rs]: a queue of values and a semaphore ([Semphore]) that counts
    them.  The semaphore is the machine of [Semphore], its steps are interleaved
    with those of the channel; the queue is crossbeam's [SegQueue], a FIFO with
    atomic operations ([Fifo]).  [Sender]s and [Receiver]s are counted: a [Sender]
    that is in use cannot be dropped. *)

From stdpp Require Import base numbers list.
From Stdlib Require Import ZArith Lia.
From S2P Require Import Prelude Blocking Handoff Semphore Fifo Handles.

Module Mpmc.

Section chan.
Context {T : Type}.

(** [RDiverged]: the [debug_assert!(false, ..)] branches. *)
Inductive res := Got (v : T) | REmpty | RDisc | RTimeout | RCanceled | SOk | SErr (v : T) | RUnit | RDiverged.

(** Who runs [try_recv]: the public call, or [recv] with a duration or none. *)
Inductive cont := KTry | KRecv (timed : bool).

Inductive mpc :=
  | MIdle | MDone (r : res)
  | SCheck (v : T) | SPush (v : T) | SPost
  | TSem (k : cont) | TTx (k : cont) | TPop (k : cont) | TPopTx (k : cont)
  | RSem | RPop | RPopTx
  | CTx | DSub | DHas | DPost
  | CRx | XSub | XDrain.

(** [tx], [rx]: the counters [tx_ports] and [rx_ports]; [senders], [receivers]
    (history): the live handles; [pushed], [popped], [drained] (history): the
    values sent, received, and dropped with the last receiver. *)
Record state := St {
  sem : Sem.state; q : list T; tx : Z; rx : Z; mpcs : list mpc;
  senders : Z; receivers : Z; pushed : list T; popped : list T; drained : list T
}.

(** [channel]: one [Sender], one [Receiver]; [n] threads. *)
Definition new (n : nat) : option state :=
  s0 ← Sem.new 0 n; Some (St s0 [] 1 1 (replicate n MIdle) 1 1 [] [] []).

Definition set_sem (x : Sem.state) (s : state) : state :=
  St x (q s) (tx s) (rx s) (mpcs s) (senders s) (receivers s) (pushed s) (popped s) (drained s).
Definition set_pc (t : nat) (x : mpc) (s : state) : state :=
  St (sem s) (q s) (tx s) (rx s) (<[t := x]> (mpcs s)) (senders s) (receivers s) (pushed s) (popped s) (drained s).
Definition set_q (l p g d : list T) (s : state) : state :=
  St (sem s) l (tx s) (rx s) (mpcs s) (senders s) (receivers s) p g d.
Definition set_tx (z h : Z) (s : state) : state :=
  St (sem s) (q s) z (rx s) (mpcs s) h (receivers s) (pushed s) (popped s) (drained s).
Definition set_rx (z h : Z) (s : state) : state :=
  St (sem s) (q s) (tx s) z (mpcs s) (senders s) h (pushed s) (popped s) (drained s).

(** ** The operations *)

(** Start an operation of the semaphore. *)
Definition call_sem (t : nat) (o : Sem.op) (s : state) : option state :=
  m ← Sem.step (sem s) (Sem.Call t o); Some (set_sem m s).

Definition send (t : nat) (x : mpc) (s : state) : option state :=
  match x with
  | SCheck v => Some (set_pc t (if (rx s =? 0)%Z then MDone (SErr v) else SPush v) s)
  | SPush v => call_sem t Sem.OpPost (set_pc t SPost (set_q (Fifo.push v (q s)) (pushed s ++ [v]) (popped s) (drained s) s))
  | _ => None
  end.

Definition pop (t : nat) (none : mpc) (s : state) : state :=
  match Fifo.pop (q s) with
  | (Some v, l) => set_pc t (MDone (Got v)) (set_q l (pushed s) (popped s ++ [v]) (drained s) s)
  | (None, _) => set_pc t none s
  end.

(** [try_recv], and what [recv] does with its answer. *)
Definition try_recv (t : nat) (x : mpc) (s : state) : option state :=
  match x with
  | TTx k =>
      if (tx s =? 0)%Z then Some (set_pc t (MDone RDisc) s)
      else match k with
           | KTry => Some (set_pc t (MDone REmpty) s)
           | KRecv d => call_sem t (Sem.OpWaitUntil d) (set_pc t RSem s)
           end
  | TPop k => Some (pop t (TPopTx k) s)
  | TPopTx k => Some (set_pc t (MDone (if (tx s =? 0)%Z then RDisc else RDiverged)) s)
  | _ => None
  end.
Definition recv (t : nat) (x : mpc) (s : state) : option state :=
  match x with
  | RPop => Some (pop t RPopTx s)
  | RPopTx => Some (set_pc t (MDone (if (tx s =? 0)%Z then RDisc else RDiverged)) s)
  | _ => None
  end.

(** [clone_tx] and [clone_rx]; the clone of the [Arc] that follows aborts the
    program when there are too many handles. *)
Definition clone_tx (t : nat) (s : state) : option state :=
  if (tx s + rx s <? Word.isize_max)%Z then Some (set_pc t (MDone RUnit) (set_tx (Word.add (tx s) 1) (senders s + 1) s)) else None.
Definition clone_rx (t : nat) (s : state) : option state :=
  if (tx s + rx s <? Word.isize_max)%Z then Some (set_pc t (MDone RUnit) (set_rx (Word.add (rx s) 1) (receivers s + 1) s)) else None.

Definition drop_tx (t : nat) (x : mpc) (s : state) : option state :=
  match x with
  | DSub =>
      Some (set_pc t (if (tx s =? 1)%Z then DHas else if (1 <? tx s)%Z then MDone RUnit else MDone RDiverged)
              (set_tx (Word.sub (tx s) 1) (senders s) s))
  | DHas => if Sem.has_waiters (sem s) then call_sem t Sem.OpPost (set_pc t DPost s) else Some (set_pc t (MDone RUnit) s)
  | _ => None
  end.
Definition drop_rx (t : nat) (x : mpc) (s : state) : option state :=
  match x with
  | XSub =>
      Some (set_pc t (if (rx s =? 1)%Z then XDrain else if (1 <? rx s)%Z then MDone RUnit else MDone RDiverged)
              (set_rx (Word.sub (rx s) 1) (receivers s) s))
  | XDrain =>
      match Fifo.pop (q s) with
      | (Some v, l) => Some (set_q l (pushed s) (popped s) (drained s ++ [v]) s)
      | (None, _) => Some (set_pc t (MDone RUnit) s)
      end
  | _ => None
  end.

(** A call of the semaphore returns. *)
Definition sem_returns (x : mpc) (o : Sem.outcome) : option mpc :=
  match x, o with
  | SPost, Sem.OPosted => Some (MDone SOk)
  | DPost, Sem.OPosted => Some DHas
  | TSem k, Sem.OTrue => Some (TPop k)
  | TSem k, Sem.OFalse => Some (TTx k)
  | RSem, Sem.OAcquired => Some RPop
  | RSem, Sem.OStopped => Some (MDone RDisc)
  | RSem, Sem.OTimeout => Some (MDone RTimeout)
  | RSem, Sem.OCanceled => Some (MDone RCanceled)
  | _, _ => None
  end.

(** A handle that is being used is borrowed. *)
Definition uses_tx (x : mpc) : bool := match x with SCheck _ | SPush _ | SPost | CTx => true | _ => false end.
Definition uses_rx (x : mpc) : bool :=
  match x with TSem _ | TTx _ | TPop _ | TPopTx _ | RSem | RPop | RPopTx | CRx => true | _ => false end.

Inductive op := Send (v : T) | TryRecv | Recv (timed : bool) | CloneTx | DropTx | CloneRx | DropRx.

Inductive event :=
  | Call (t : nat) (o : op)
  | Tick (t : nat)                   (* the next access of the channel *)
  | InSem (e : Sem.event)            (* a step inside the semaphore *)
  | Back (t : nat)                   (* the semaphore's operation returns *)
  | Return (t : nat).

Definition start (t : nat) (o : op) (s : state) : option state :=
  match o with
  | Send v => if (0 <? senders s)%Z then Some (set_pc t (SCheck v) s) else None
  | TryRecv => if (0 <? receivers s)%Z then call_sem t Sem.OpTryWait (set_pc t (TSem KTry) s) else None
  | Recv d => if (0 <? receivers s)%Z then call_sem t Sem.OpTryWait (set_pc t (TSem (KRecv d)) s) else None
  | CloneTx => if (0 <? senders s)%Z then Some (set_pc t CTx s) else None
  | DropTx => if Hnd.can_drop uses_tx (senders s) (mpcs s) then Some (set_pc t DSub (set_tx (tx s) (senders s - 1) s)) else None
  | CloneRx => if (0 <? receivers s)%Z then Some (set_pc t CRx s) else None
  | DropRx => if Hnd.can_drop uses_rx (receivers s) (mpcs s) then Some (set_pc t XSub (set_rx (rx s) (receivers s - 1) s)) else None
  end.

Definition tick (t : nat) (x : mpc) (s : state) : option state :=
  match x with
  | SCheck _ | SPush _ => send t x s
  | TTx _ | TPop _ | TPopTx _ => try_recv t x s
  | RPop | RPopTx => recv t x s
  | CTx => clone_tx t s
  | CRx => clone_rx t s
  | DSub | DHas => drop_tx t x s
  | XSub | XDrain => drop_rx t x s
  | _ => None
  end.

(** The predicate given to [wait_timeout_until] reads [tx_ports]. *)
Definition sem_event_ok (e : Sem.event) (s : state) : bool :=
  Sem.internal e && match e with Sem.Stop _ v => Bool.eqb v (tx s =? 0)%Z | _ => true end.

Definition step (s : state) (e : event) : option state :=
  match e with
  | Call t o => match mpcs s !! t with Some MIdle => start t o s | _ => None end
  | Tick t => x ← mpcs s !! t; tick t x s
  | InSem e => if sem_event_ok e s then m ← Sem.step (sem s) e; Some (set_sem m s) else None
  | Back t =>
      match mpcs s !! t, Sem.pcs (sem s) !! t with
      | Some x, Some (Sem.Done o) =>
          y ← sem_returns x o; m ← Sem.step (sem s) (Sem.Return t); Some (set_pc t y (set_sem m s))
      | _, _ => None
      end
  | Return t => match mpcs s !! t with Some (MDone _) => Some (set_pc t MIdle s) | _ => None end
  end.

(** [Sender::pressure]. *)
Definition pressure (s : state) : Z := Sem.get_value (sem s).

(** ** Handles *)

Definition dropping_tx (x : mpc) : bool := match x with DSub => true | _ => false end.
Definition dropping_rx (x : mpc) : bool := match x with XSub => true | _ => false end.
(** Only reached when the last sender, or the last receiver, is gone. *)
Definition after_tx (x : mpc) : bool := match x with DHas | DPost | MDone RDisc => true | _ => false end.
Definition after_rx (x : mpc) : bool := match x with XDrain => true | _ => false end.

Record handles (s : state) : Prop := {
  h_tx : Hnd.counted dropping_tx uses_tx (tx s) (senders s) (mpcs s);
  h_rx : Hnd.counted dropping_rx uses_rx (rx s) (receivers s) (mpcs s);
  h_bound : (tx s + rx s <= Word.isize_max)%Z;
  h_after_tx : forall t x, mpcs s !! t = Some x -> after_tx x = true -> tx s = 0%Z;
  h_after_rx : forall t x, mpcs s !! t = Some x -> after_rx x = true -> rx s = 0%Z
}.

Lemma mp_handles_frame s s' :
  handles s -> tx s' = tx s -> rx s' = rx s -> senders s' = senders s -> receivers s' = receivers s -> mpcs s' = mpcs s ->
  handles s'.
Proof. intros [] E1 E2 E3 E4 E5. split; rewrite ?E1, ?E2, ?E3, ?E4, ?E5; auto. Qed.

(** A thread moves. *)
Lemma mp_handles_move s t x y s' :
  handles s -> mpcs s !! t = Some x -> mpcs s' = <[t := y]> (mpcs s) ->
  Hnd.counted dropping_tx uses_tx (tx s') (senders s') (<[t := y]> (mpcs s)) ->
  Hnd.counted dropping_rx uses_rx (rx s') (receivers s') (<[t := y]> (mpcs s)) ->
  (tx s' + rx s' <= Word.isize_max)%Z -> (tx s = 0 -> tx s' = 0)%Z -> (rx s = 0 -> rx s' = 0)%Z ->
  (after_tx y = true -> after_tx x = true \/ tx s' = 0%Z) -> (after_rx y = true -> after_rx x = true \/ rx s' = 0%Z) ->
  handles s'.
Proof.
  intros [H1 H2 H3 H4 H5] Hx E0 C1 C2 Hb T1 T2 A1 A2. split; rewrite ?E0; auto.
  - intros i z [(<- & -> & _)|[_ Hi]]%lookup_insert_list Hz; [destruct (A1 Hz)|]; eauto.
  - intros i z [(<- & -> & _)|[_ Hi]]%lookup_insert_list Hz; [destruct (A2 Hz)|]; eauto.
Qed.
(** The handles are not touched. *)
Lemma mp_handles_pc s t x y s' :
  handles s -> mpcs s !! t = Some x -> mpcs s' = <[t := y]> (mpcs s) ->
  tx s' = tx s -> rx s' = rx s -> senders s' = senders s -> receivers s' = receivers s ->
  dropping_tx y = dropping_tx x -> dropping_rx y = dropping_rx x ->
  (uses_tx y = true -> uses_tx x = true \/ (1 <= senders s)%Z) -> (uses_rx y = true -> uses_rx x = true \/ (1 <= receivers s)%Z) ->
  (after_tx y = true -> after_tx x = true \/ tx s = 0%Z) -> (after_rx y = true -> after_rx x = true \/ rx s = 0%Z) ->
  handles s'.
Proof.
  intros Hi Hx E0 E1 E2 E3 E4 D1 D2 U1 U2 A1 A2. pose proof Hi as [H1 H2 H3 H4 H5].
  apply (mp_handles_move s t x y); rewrite ?E1, ?E2, ?E3, ?E4; auto; by eapply Hnd.hnd_move.
Qed.

Lemma mp_call_sem t o s s' :
  call_sem t o s = Some s' -> exists m, Sem.step (sem s) (Sem.Call t o) = Some m /\ s' = set_sem m s.
Proof. unfold call_sem. intros Hs. destruct (Sem.step _ _) as [m|]; [|done]. injection Hs as <-. by exists m. Qed.

Ltac handles_tac s t H := eapply (mp_handles_pc s t); [done|exact H|reflexivity|..]; simpl; auto; try done; try lia.
Ltac counted_move H Hx := eapply Hnd.hnd_move; [exact H|exact Hx|done|by auto].

Lemma mp_handles_start s t o s' : handles s -> mpcs s !! t = Some MIdle -> start t o s = Some s' -> handles s'.
Proof.
  intros Hi Hx Hs. pose proof Hi as [H1 H2 H3 _ _]. destruct o; simpl in Hs.
  - destruct (Z.ltb_spec 0 (senders s)); [|done]. injection Hs as <-. handles_tac s t Hx.
  - destruct (Z.ltb_spec 0 (receivers s)); [|done]. apply mp_call_sem in Hs as (m & _ & ->). handles_tac s t Hx.
  - destruct (Z.ltb_spec 0 (receivers s)); [|done]. apply mp_call_sem in Hs as (m & _ & ->). handles_tac s t Hx.
  - destruct (Z.ltb_spec 0 (senders s)); [|done]. injection Hs as <-. handles_tac s t Hx.
  - destruct (Hnd.can_drop _ _ _) eqn:Hc; [|done]. injection Hs as <-. apply (mp_handles_move s t _ DSub _ Hi Hx); simpl; auto; try done.
    + by eapply Hnd.hnd_die.
    + counted_move H2 Hx.
  - destruct (Z.ltb_spec 0 (receivers s)); [|done]. injection Hs as <-. handles_tac s t Hx.
  - destruct (Hnd.can_drop _ _ _) eqn:Hc; [|done]. injection Hs as <-. apply (mp_handles_move s t _ XSub _ Hi Hx); simpl; auto; try done.
    + counted_move H1 Hx.
    + by eapply Hnd.hnd_die.
Qed.

Lemma mp_handles_tick s t x s' : handles s -> mpcs s !! t = Some x -> tick t x s = Some s' -> handles s'.
Proof.
  intros Hi Hx Hs. pose proof Hi as [H1 H2 H3 _ _].
  pose proof (Hnd.hnd_nonneg _ _ _ _ _ H1). pose proof (Hnd.hnd_nonneg _ _ _ _ _ H2).
  destruct x; simpl in Hs; try discriminate Hs.
  - injection Hs as <-. destruct (rx s =? 0)%Z; handles_tac s t Hx.
  - apply mp_call_sem in Hs as (m & _ & ->). handles_tac s t Hx.
  - destruct (Z.eqb_spec (tx s) 0); [injection Hs as <-; handles_tac s t Hx|].
    destruct k; [injection Hs as <-; handles_tac s t Hx|]. apply mp_call_sem in Hs as (m & _ & ->). handles_tac s t Hx.
  - injection Hs as <-. unfold pop. destruct (q s); handles_tac s t Hx.
  - injection Hs as <-. destruct (Z.eqb_spec (tx s) 0); handles_tac s t Hx.
  - injection Hs as <-. unfold pop. destruct (q s); handles_tac s t Hx.
  - injection Hs as <-. destruct (Z.eqb_spec (tx s) 0); handles_tac s t Hx.
  - unfold clone_tx in Hs. destruct (Z.ltb_spec (tx s + rx s) Word.isize_max); [|done]. injection Hs as <-.
    rewrite Hnd.hnd_uadd by lia. destruct (Hnd.hnd_add _ _ _ _ _ t _ (MDone RUnit) H1 Hx) as [? Hc]; [done..|].
    apply (mp_handles_move s t _ (MDone RUnit) _ Hi Hx); simpl; auto; try lia; try done. counted_move H2 Hx.
  - injection Hs as <-. assert (Hy : exists y, y = (if (tx s =? 1)%Z then DHas else if (1 <? tx s)%Z then MDone RUnit else MDone RDiverged)) by eauto.
    destruct Hy as [y Hy]. rewrite <-Hy. assert (dropping_tx y = false /\ uses_tx y = false /\ dropping_rx y = false /\ uses_rx y = false) as (Y1 & Y2 & Y3 & Y4)
      by (subst y; by repeat case_match).
    destruct (Hnd.hnd_sub _ _ _ _ _ t _ y H1 Hx) as [? Hc]; [done..|]. rewrite Hnd.hnd_usub by lia.
    apply (mp_handles_move s t _ y _ Hi Hx); simpl; auto; try lia.
    + eapply Hnd.hnd_move; [exact H2|exact Hx|by rewrite Y3|by rewrite Y4].
    + subst y. destruct (Z.eqb_spec (tx s) 1); [right; lia|]. by destruct (1 <? tx s)%Z.
    + subst y. by repeat case_match.
  - destruct (Sem.has_waiters (sem s)); [apply mp_call_sem in Hs as (m & _ & ->)|injection Hs as <-]; handles_tac s t Hx.
  - unfold clone_rx in Hs. destruct (Z.ltb_spec (tx s + rx s) Word.isize_max); [|done]. injection Hs as <-.
    rewrite Hnd.hnd_uadd by lia. destruct (Hnd.hnd_add _ _ _ _ _ t _ (MDone RUnit) H2 Hx) as [? Hc]; [done..|].
    apply (mp_handles_move s t _ (MDone RUnit) _ Hi Hx); simpl; auto; try lia; try done. counted_move H1 Hx.
  - injection Hs as <-. assert (Hy : exists y, y = (if (rx s =? 1)%Z then XDrain else if (1 <? rx s)%Z then MDone RUnit else MDone RDiverged)) by eauto.
    destruct Hy as [y Hy]. rewrite <-Hy. assert (dropping_tx y = false /\ uses_tx y = false /\ dropping_rx y = false /\ uses_rx y = false) as (Y1 & Y2 & Y3 & Y4)
      by (subst y; by repeat case_match).
    destruct (Hnd.hnd_sub _ _ _ _ _ t _ y H2 Hx) as [? Hc]; [done..|]. rewrite Hnd.hnd_usub by lia.
    apply (mp_handles_move s t _ y _ Hi Hx); simpl; auto; try lia.
    + eapply Hnd.hnd_move; [exact H1|exact Hx|by rewrite Y1|by rewrite Y2].
    + subst y. by repeat case_match.
    + subst y. destruct (Z.eqb_spec (rx s) 1); [right; lia|]. by destruct (1 <? rx s)%Z.
  - destruct (q s); injection Hs as <-; [handles_tac s t Hx|by apply (mp_handles_frame s)].
Qed.

(** ** Values and permits *)

Definition claims (x : mpc) : Z := match x with TPop _ | RPop => 1 | _ => 0 end.
Definition popped_none (x : mpc) : bool := match x with TPopTx _ | RPopTx => true | _ => false end.

Record inv (s : state) : Prop := {
  iv_handles : handles s;
  iv_sem : exists n s0, Sem.new 0 n = Some s0 /\ reachable Sem.step s0 (sem s);
  iv_stop : forall t x, Sem.pcs (sem s) !! t = Some x -> Sem.stopping x = true -> tx s = 0%Z;
  iv_fifo : pushed s = popped s ++ drained s ++ q s;
  iv_drained : drained s <> [] -> rx s = 0%Z;
  (** while both sides are alive there is one queued value per permit on account
      and per receiver that took its permit and not yet its value *)
  iv_items : (0 < tx s)%Z -> (0 < rx s)%Z ->
    Z.of_nat (length (q s)) = (Sem.avail (sem s) + zsum claims (mpcs s))%Z;
  iv_none : forall t x, mpcs s !! t = Some x -> popped_none x = true -> tx s = 0%Z;
  iv_sound : forall t, mpcs s !! t <> Some (MDone RDiverged)
}.

(** The semaphore stays within the range of its counter. *)
Definition bounded (s : state) : Prop := Sem.bounded (sem s) /\ (Sem.given (sem s) < Word.isize_max)%Z.

Lemma mp_claims_nonneg x : (0 <= claims x)%Z.
Proof. by destruct x. Qed.

Lemma mp_avail_nonneg s : inv s -> bounded s -> (0 <= Sem.avail (sem s))%Z.
Proof. intros Hi [Hb _]. destruct (iv_sem _ Hi) as (n & s0 & Hn & Hr). by eapply Sem.sem_avail_nonneg, Sem.sem_inv_reachable. Qed.

(** Some thread moves from [x] to [y]. *)
Lemma mp_inv_pc s t x y s' :
  inv s -> mpcs s !! t = Some x -> mpcs s' = <[t := y]> (mpcs s) -> handles s' ->
  tx s' = tx s -> rx s' = rx s -> sem s' = sem s -> q s' = q s ->
  pushed s' = pushed s -> popped s' = popped s -> drained s' = drained s ->
  claims y = claims x -> (popped_none y = true -> tx s = 0%Z) -> y <> MDone RDiverged -> inv s'.
Proof.
  intros [H1 H2 H3 H4 H5 H6 H7 H8] Hx E0 Hh E1 E2 E3 E4 E5 E6 E7 Hc Hn Hd.
  split; rewrite ?E0, ?E1, ?E2, ?E3, ?E4, ?E5, ?E6, ?E7; auto.
  - rewrite (zsum_insert _ _ _ _ _ Hx), Hc. intros. rewrite H6 by done. lia.
  - intros i z [(<- & -> & _)|[_ Hi]]%lookup_insert_list Hz; [auto|eauto].
  - intros i Hi. apply lookup_insert_list in Hi as [(<- & Hy & _)|[_ Hi]]; [congruence|by apply (H8 i)].
Qed.

(** A call into the semaphore. *)
Lemma mp_inv_call s t x y o m :
  inv s -> mpcs s !! t = Some x -> handles (set_sem m (set_pc t y s)) -> Sem.step (sem s) (Sem.Call t o) = Some m ->
  o <> Sem.OpPost \/ tx s = 0%Z -> claims y = claims x -> popped_none y = false -> y <> MDone RDiverged ->
  inv (set_sem m (set_pc t y s)).
Proof.
  intros [H1 H2 H3 H4 H5 H6 H7 H8] Hx Hh Hs Ho Hc Hn Hd. pose proof (Sem.sem_avail_call _ _ _ _ Hs) as Ha.
  split; simpl; auto.
  - destruct H2 as (n & s0 & Hnew & Hr). exists n, s0. split; [done|]. by eapply reach_step.
  - intros i z Hz Hst. destruct (Sem.sem_stopping_step _ _ _ _ _ Hs Hz Hst) as [(w & ? & ?)|?]; [eauto|done].
  - rewrite (zsum_insert _ _ _ _ _ Hx), Hc. intros. rewrite H6 by done. rewrite Ha. destruct Ho; [|lia]. destruct o; try lia. done.
  - intros i z [(<- & -> & _)|[_ Hi]]%lookup_insert_list Hz; [congruence|eauto].
  - intros i Hi. apply lookup_insert_list in Hi as [(<- & Hy & _)|[_ Hi]]; [congruence|by apply (H8 i)].
Qed.

(** A value is pushed and its permit is about to be posted. *)
Lemma mp_inv_push s t v m :
  inv s -> mpcs s !! t = Some (SPush v) -> Sem.step (sem s) (Sem.Call t Sem.OpPost) = Some m ->
  let s' := set_sem m (set_pc t SPost (set_q (Fifo.push v (q s)) (pushed s ++ [v]) (popped s) (drained s) s)) in
  handles s' -> inv s'.
Proof.
  intros [H1 H2 H3 H4 H5 H6 H7 H8] Hx Hs s' Hh. pose proof (Sem.sem_avail_call _ _ _ _ Hs) as Ha.
  split; simpl; auto.
  - destruct H2 as (n & s0 & Hnew & Hr). exists n, s0. split; [done|]. by eapply reach_step.
  - intros i z Hz Hst. destruct (Sem.sem_stopping_step _ _ _ _ _ Hs Hz Hst) as [(w & ? & ?)|?]; [eauto|done].
  - by rewrite H4; unfold Fifo.push; rewrite <-!app_assoc.
  - rewrite (zsum_insert _ _ _ _ _ Hx), Ha. unfold Fifo.push. rewrite length_app. simpl. intros Ht Hr. specialize (H6 Ht Hr). lia.
  - intros i z [(<- & -> & _)|[_ Hi]]%lookup_insert_list Hz; [done|eauto].
  - intros i Hi. apply lookup_insert_list in Hi as [(<- & Hy & _)|[_ Hi]]; [congruence|by apply (H8 i)].
Qed.

(** A receiver that has claimed a value takes it: it is there while a sender is alive. *)
Lemma mp_inv_pop s t x y :
  inv s -> bounded s -> mpcs s !! t = Some x -> claims x = 1%Z -> uses_rx x = true ->
  claims y = 0%Z -> y <> MDone RDiverged -> handles (pop t y s) -> inv (pop t y s).
Proof.
  intros Hi Hb Hx Hcx Hux Hcy Hy Hh. pose proof (mp_avail_nonneg _ Hi Hb) as Ha.
  destruct Hi as [H1 H2 H3 H4 H5 H6 H7 H8]. pose proof (Hnd.cn_uses _ _ _ _ _ (h_rx _ H1) _ _ Hx Hux) as Hr.
  pose proof (Hnd.hnd_nonneg _ _ _ _ _ (h_rx _ H1)). pose proof (Hnd.hnd_nonneg _ _ _ _ _ (h_tx _ H1)).
  assert (Hdr : drained s = []) by (destruct (drained s); [done|]; assert (rx s = 0%Z) by (by apply H5); lia).
  unfold pop in *. destruct (q s) as [|v l] eqn:Hq; simpl in *; split; simpl; rewrite ?Hq; auto.
  - intros Ht Hr'. specialize (H6 Ht Hr'). rewrite (zsum_insert _ _ _ _ _ Hx). pose proof (zsum_lookup_le _ _ _ _ mp_claims_nonneg Hx). simpl in *. lia.
  - intros i z [(<- & -> & _)|[_ Hi]]%lookup_insert_list Hz; [|eauto].
    pose proof (zsum_lookup_le _ _ _ _ mp_claims_nonneg Hx). destruct (Z.eq_dec (tx s) 0); [done|].
    assert (0 = Sem.avail (sem s) + zsum claims (mpcs s))%Z by (apply H6; lia). lia.
  - intros i Hi. apply lookup_insert_list in Hi as [(<- & ? & _)|[_ Hi]]; [congruence|by apply (H8 i)].
  - rewrite H4, Hdr. simpl. by rewrite <-app_assoc.
  - intros Ht Hr'. specialize (H6 Ht Hr'). rewrite (zsum_insert _ _ _ _ _ Hx), drop_0. change (claims (MDone (Got v))) with 0%Z. lia.
  - intros i z [(<- & -> & _)|[_ Hi]]%lookup_insert_list Hz; [done|eauto].
  - intros i Hi. apply lookup_insert_list in Hi as [(<- & ? & _)|[_ Hi]]; [congruence|by apply (H8 i)].
Qed.
Lemma mp_call_sem_inv s t x y o s' :
  inv s -> mpcs s !! t = Some x -> call_sem t o (set_pc t y s) = Some s' -> handles s' ->
  o <> Sem.OpPost \/ tx s = 0%Z -> claims y = claims x -> popped_none y = false -> y <> MDone RDiverged -> inv s'.
Proof. intros Hi Hx (m & Hm & ->)%mp_call_sem Hh. by apply (mp_inv_call s t x y o). Qed.

Lemma mp_inv_start s t o s' : inv s -> mpcs s !! t = Some MIdle -> start t o s = Some s' -> inv s'.
Proof.
  intros Hi Hx Hs. pose proof (mp_handles_start _ _ _ _ (iv_handles _ Hi) Hx Hs) as Hh. destruct o; simpl in Hs.
  - destruct (0 <? senders s)%Z; [|done]. injection Hs as <-. by apply (mp_inv_pc s t MIdle (SCheck v)).
  - destruct (0 <? receivers s)%Z; [|done]. eapply (mp_call_sem_inv s t); [done|exact Hx|done|done|by left|done..].
  - destruct (0 <? receivers s)%Z; [|done]. eapply (mp_call_sem_inv s t); [done|exact Hx|done|done|by left|done..].
  - destruct (0 <? senders s)%Z; [|done]. injection Hs as <-. by apply (mp_inv_pc s t MIdle CTx).
  - destruct (Hnd.can_drop _ _ _); [|done]. injection Hs as <-. by apply (mp_inv_pc s t MIdle DSub).
  - destruct (0 <? receivers s)%Z; [|done]. injection Hs as <-. by apply (mp_inv_pc s t MIdle CRx).
  - destruct (Hnd.can_drop _ _ _); [|done]. injection Hs as <-. by apply (mp_inv_pc s t MIdle XSub).
Qed.

(** The counters change: down, or up from a positive value. *)
Lemma mp_inv_count s t x y s' :
  inv s -> mpcs s !! t = Some x -> mpcs s' = <[t := y]> (mpcs s) -> handles s' ->
  sem s' = sem s -> q s' = q s -> pushed s' = pushed s -> popped s' = popped s -> drained s' = drained s ->
  (tx s = 0 -> tx s' = 0)%Z -> (rx s = 0 -> rx s' = 0)%Z -> (0 < tx s' -> 0 < tx s)%Z -> (0 < rx s' -> 0 < rx s)%Z ->
  claims y = claims x -> popped_none y = false -> y <> MDone RDiverged -> inv s'.
Proof.
  intros [H1 H2 H3 H4 H5 H6 H7 H8] Hx E0 Hh E3 E4 E5 E6 E7 T1 T2 T3 T4 Hc Hn Hd.
  split; rewrite ?E0, ?E3, ?E4, ?E5, ?E6, ?E7; auto.
  - intros i z Hz Hst. eauto.
  - rewrite (zsum_insert _ _ _ _ _ Hx), Hc. intros. rewrite H6 by auto. lia.
  - intros i z [(<- & -> & _)|[_ Hi]]%lookup_insert_list Hz; [congruence|eauto].
  - intros i Hi. apply lookup_insert_list in Hi as [(<- & Hy & _)|[_ Hi]]; [congruence|by apply (H8 i)].
Qed.

Lemma mp_inv_tick s t x s' : inv s -> bounded s -> mpcs s !! t = Some x -> tick t x s = Some s' -> inv s'.
Proof.
  intros Hi Hb Hx Hs. pose proof (iv_handles _ Hi) as Hh0. pose proof (mp_handles_tick _ _ _ _ Hh0 Hx Hs) as Hh.
  pose proof (h_bound _ Hh0). pose proof (Hnd.hnd_nonneg _ _ _ _ _ (h_tx _ Hh0)). pose proof (Hnd.hnd_nonneg _ _ _ _ _ (h_rx _ Hh0)).
  pose proof (Hnd.cn_uses _ _ _ _ _ (h_tx _ Hh0) _ _ Hx) as Hut. pose proof (Hnd.cn_uses _ _ _ _ _ (h_rx _ Hh0) _ _ Hx) as Hur.
  pose proof (iv_none _ Hi _ _ Hx) as Hnone. pose proof (h_after_tx _ Hh0 _ _ Hx) as Hat. pose proof (h_after_rx _ Hh0 _ _ Hx) as Har.
  revert Hh. destruct x; simpl in Hs, Hut, Hur, Hnone, Hat, Har; try discriminate Hs.
  - injection Hs as <-. destruct (rx s =? 0)%Z; intros Hh; by eapply (mp_inv_pc s t).
  - intros Hh. apply mp_call_sem in Hs as (m & Hm & ->). by apply mp_inv_push.
  - intros Hh. destruct (Z.eqb_spec (tx s) 0); [injection Hs as <-; by eapply (mp_inv_pc s t)|].
    destruct k; [injection Hs as <-; by eapply (mp_inv_pc s t)|]. eapply (mp_call_sem_inv s t); [done|exact Hx|done|done|by left|done..].
  - injection Hs as <-. by eapply mp_inv_pop.
  - injection Hs as <-. rewrite Hnone by done. intros Hh. by eapply (mp_inv_pc s t).
  - injection Hs as <-. by eapply mp_inv_pop.
  - injection Hs as <-. rewrite Hnone by done. intros Hh. by eapply (mp_inv_pc s t).
  - unfold clone_tx in Hs. destruct (Z.ltb_spec (tx s + rx s) Word.isize_max); [|done]. injection Hs as <-.
    rewrite Hnd.hnd_uadd by lia. intros Hh.
    eapply (mp_inv_count s t _ (MDone RUnit)); [done|exact Hx|done|done|done|done|done|done|done|..]; simpl; try done; lia.
  - pose proof (Hnd.hnd_dropping _ _ _ _ _ _ _ (h_tx _ Hh0) Hx eq_refl).
    injection Hs as <-. rewrite Hnd.hnd_usub by lia. destruct (Z.eqb_spec (tx s) 1), (Z.ltb_spec 1 (tx s)); try lia; intros Hh;
      (eapply (mp_inv_count s t _); [done|exact Hx|done|done|done|done|done|done|done|..]; simpl; try done; lia).
  - intros Hh. destruct (Sem.has_waiters (sem s)).
    + eapply (mp_call_sem_inv s t); [done|exact Hx|done|done|right; by apply Hat|done..].
    + injection Hs as <-. by eapply (mp_inv_pc s t).
  - unfold clone_rx in Hs. destruct (Z.ltb_spec (tx s + rx s) Word.isize_max); [|done]. injection Hs as <-.
    rewrite Hnd.hnd_uadd by lia. intros Hh.
    eapply (mp_inv_count s t _ (MDone RUnit)); [done|exact Hx|done|done|done|done|done|done|done|..]; simpl; try done; lia.
  - pose proof (Hnd.hnd_dropping _ _ _ _ _ _ _ (h_rx _ Hh0) Hx eq_refl).
    injection Hs as <-. rewrite Hnd.hnd_usub by lia. destruct (Z.eqb_spec (rx s) 1), (Z.ltb_spec 1 (rx s)); try lia; intros Hh;
      (eapply (mp_inv_count s t _); [done|exact Hx|done|done|done|done|done|done|done|..]; simpl; try done; lia).
  - intros Hh. destruct (q s) as [|v l] eqn:Hq; injection Hs as <-; [by eapply (mp_inv_pc s t)|]. specialize (Har eq_refl).
    destruct Hi as [H1' H2' H3' H4' H5' H6' H7' H8']. split; simpl; auto; try done.
    + rewrite H4', Hq, drop_0. by rewrite <-!app_assoc.
    + rewrite Har. lia.
Qed.

Lemma mp_inv_in_sem s e m :
  inv s -> sem_event_ok e s = true -> Sem.step (sem s) e = Some m -> bounded (set_sem m s) -> inv (set_sem m s).
Proof.
  intros [H1 H2 H3 H4 H5 H6 H7 H8] He Hs [Hb1 Hb2]. apply andb_true_iff in He as [Hint Hst].
  assert (Hr : exists n s0, Sem.new 0 n = Some s0 /\ reachable Sem.step s0 m).
  { destruct H2 as (n & s0 & ? & ?). exists n, s0. split; [done|]. by eapply reach_step. }
  split; simpl; auto.
  - by apply (mp_handles_frame s).
  - intros t x Hx Hsx. destruct (Sem.sem_stopping_step _ _ _ _ _ Hs Hx Hsx) as [(w & ? & ?)|He]; [eauto|].
    subst e. apply eqb_prop in Hst. symmetry in Hst. by apply Z.eqb_eq in Hst.
  - intros Ht Hr'. rewrite H6 by done. destruct (Sem.sem_avail_internal _ _ _ Hint Hs) as [->|Hp]; [done|].
    destruct Hr as (n & s0 & Hn & Hr). exfalso. by eapply (Sem.sem_no_overflow 0 n s0 m).
Qed.

Lemma mp_inv_back s t x o y m :
  inv s -> mpcs s !! t = Some x -> Sem.pcs (sem s) !! t = Some (Sem.Done o) -> sem_returns x o = Some y ->
  Sem.step (sem s) (Sem.Return t) = Some m -> inv (set_pc t y (set_sem m s)).
Proof.
  intros [H1 H2 H3 H4 H5 H6 H7 H8] Hx Ho Hy Hs. pose proof (Sem.sem_avail_return _ _ _ _ Ho Hs) as Ha.
  assert (Hstop : o = Sem.OStopped -> tx s = 0%Z) by (intros ->; by eapply H3).
  split; simpl; auto.
  - pose proof (h_after_tx _ H1 _ _ Hx) as Hat.
    destruct x, o; simpl in Hy, Hat; try discriminate Hy; injection Hy as <-; handles_tac s t Hx.
  - destruct H2 as (n & s0 & ? & ?). exists n, s0. split; [done|]. by eapply reach_step.
  - intros i z Hz Hst. destruct (Sem.sem_stopping_step _ _ _ _ _ Hs Hz Hst) as [(w & ? & ?)|He]; [eauto|done].
  - rewrite (zsum_insert _ _ _ _ _ Hx), Ha. intros Ht Hr. specialize (H6 Ht Hr).
    destruct x, o; simpl in Hy; try discriminate Hy; injection Hy as <-; simpl; lia.
  - intros i z [(<- & -> & _)|[_ Hi]]%lookup_insert_list Hz; [|eauto].
    destruct x, o; simpl in Hy; try discriminate Hy; injection Hy as <-; done.
  - intros i Hi. apply lookup_insert_list in Hi as [(<- & Hd & _)|[_ Hi]]; [|by apply (H8 i)].
    destruct x, o; simpl in Hy; try discriminate Hy; injection Hy as <-; done.
Qed.

Lemma mp_back s t s' :
  step s (Back t) = Some s' -> exists x o y m, mpcs s !! t = Some x /\ Sem.pcs (sem s) !! t = Some (Sem.Done o) /\
    sem_returns x o = Some y /\ Sem.step (sem s) (Sem.Return t) = Some m /\ s' = set_pc t y (set_sem m s).
Proof.
  unfold step. intros Hs. destruct (mpcs s !! t) as [x|]; [|done]. destruct (Sem.pcs (sem s) !! t) as [p|]; [|done].
  destruct p; try discriminate Hs. destruct (sem_returns x o) as [y|] eqn:Hy; [|done].
  destruct (Sem.step (sem s) (Sem.Return t)) as [m|] eqn:Hm; [|done]. injection Hs as <-. by exists x, o, y, m.
Qed.

Lemma mp_inv_step s e s' : inv s -> bounded s -> bounded s' -> step s e = Some s' -> inv s'.
Proof.
  intros Hi Hb Hb' Hs. destruct e as [t o|t|e|t|t]; lazymatch type of Hs with step _ (Back _) = _ => idtac | _ => simpl in Hs end.
  - destruct (mpcs s !! t) as [[]|] eqn:Hx; try discriminate Hs. by eapply mp_inv_start.
  - destruct (mpcs s !! t) as [x|] eqn:Hx; [|done]. by eapply mp_inv_tick.
  - destruct (sem_event_ok e s) eqn:He; [|done]. destruct (Sem.step (sem s) e) as [m|] eqn:Hm; [|done].
    injection Hs as <-. by eapply mp_inv_in_sem.
  - apply mp_back in Hs as (x & o & y & m & ? & ? & ? & ? & ->). by eapply mp_inv_back.
  - destruct (mpcs s !! t) as [[]|] eqn:Hx; try discriminate Hs. injection Hs as <-.
    eapply (mp_inv_pc s t); [done|exact Hx|reflexivity|..]; try done.
    eapply (mp_handles_pc s t); [apply Hi|exact Hx|reflexivity|..]; done.
Qed.

(** The bounds hold in every earlier state. *)
Lemma mp_sem_step s e s' :
  step s e = Some s' -> sem s' = sem s \/ exists e', Sem.step (sem s) e' = Some (sem s').
Proof.
  intros Hs. destruct e as [t o|t|e|t|t]; lazymatch type of Hs with step _ (Back _) = _ => idtac | _ => simpl in Hs end.
  - destruct (mpcs s !! t) as [[]|]; try discriminate Hs. destruct o; simpl in Hs; repeat (case_match; try discriminate Hs);
      first [apply mp_call_sem in Hs as (m & ? & ->); right; by eexists | injection Hs as <-; by left].
  - destruct (mpcs s !! t) as [x|]; [|done]. simpl in Hs.
    destruct x; simpl in Hs; try discriminate Hs; unfold clone_tx, clone_rx, pop in Hs; repeat (case_match; try discriminate Hs);
      first [apply mp_call_sem in Hs as (m & ? & ->); right; by eexists | injection Hs as <-; by left].
  - destruct (sem_event_ok e s); [|done]. destruct (Sem.step (sem s) e) eqn:He; [|done]. injection Hs as <-. right. by exists e.
  - apply mp_back in Hs as (x & o & y & m & ? & ? & ? & ? & ->). right. by eexists.
  - destruct (mpcs s !! t) as [[]|]; try discriminate Hs. injection Hs as <-. by left.
Qed.
Lemma mp_step_threads s e s' : step s e = Some s' -> length (mpcs s') = length (mpcs s).
Proof.
  intros Hs. destruct e as [t o|t|e|t|t]; lazymatch type of Hs with step _ (Back _) = _ => idtac | _ => simpl in Hs end.
  - destruct (mpcs s !! t) as [[]|]; try discriminate Hs. destruct o; simpl in Hs; repeat (case_match; try discriminate Hs);
      first [apply mp_call_sem in Hs as (m & ? & ->) | injection Hs as <-]; simpl; by rewrite ?length_insert.
  - destruct (mpcs s !! t) as [x|]; [|done]. simpl in Hs.
    destruct x; simpl in Hs; try discriminate Hs; unfold clone_tx, clone_rx, pop in Hs; repeat (case_match; try discriminate Hs);
      first [apply mp_call_sem in Hs as (m & ? & ->) | injection Hs as <-]; simpl; by rewrite ?length_insert.
  - destruct (sem_event_ok e s); [|done]. destruct (Sem.step (sem s) e); [|done]. by injection Hs as <-.
  - apply mp_back in Hs as (x & o & y & m & ? & ? & ? & ? & ->). simpl. by rewrite length_insert.
  - destruct (mpcs s !! t) as [[]|]; try discriminate Hs. injection Hs as <-. simpl. by rewrite length_insert.
Qed.
Lemma mp_bounded_step s e s' : step s e = Some s' -> bounded s' -> bounded s.
Proof.
  intros Hs [Hb1 Hb2]. destruct (mp_sem_step _ _ _ Hs) as [E|[e' He]]; unfold bounded; [by rewrite <-E|].
  split; [by eapply Sem.sem_bounded_step|]. pose proof (Sem.sem_cells_mono _ _ _ He). lia.
Qed.

Lemma mp_init_inv n s : new n = Some s -> inv s.
Proof.
  unfold new. destruct (Sem.new 0 n) as [s0|] eqn:Hn; [|done]. intros [= <-].
  split; simpl; try done; try lia.
  - split; simpl; [by apply Hnd.hnd_init|by apply Hnd.hnd_init|done|by intros t x [-> _]%lookup_replicate..].
  - exists n, s0. split; [done|constructor].
  - intros t x. unfold Sem.new in Hn. simpl in Hn. injection Hn as <-. simpl. by intros [-> _]%lookup_replicate.
  - intros _ _. unfold Sem.new in Hn. simpl in Hn. injection Hn as <-. unfold Sem.avail. simpl. rewrite !zsum_replicate. simpl. lia.
  - by intros t x [-> _]%lookup_replicate.
  - by intros t [? _]%lookup_replicate.
Qed.
Lemma mp_reach_inv n s0 s : new n = Some s0 -> reachable step s0 s -> bounded s -> inv s.
Proof.
  intros Hn Hr. induction Hr as [|s e s' Hr IH Hs]; intros Hb; [by eapply mp_init_inv|].
  eapply mp_inv_step; [|by eapply mp_bounded_step|done|done]. eauto using mp_bounded_step.
Qed.

Lemma mp_threads n s0 s : new n = Some s0 -> reachable step s0 s -> length (mpcs s) = length (Sem.pcs (sem s)).
Proof.
  intros Hn Hr. induction Hr as [|s e s' Hr IH Hs].
  - unfold new, Sem.new in Hn. simpl in Hn. injection Hn as <-. simpl. by rewrite !length_replicate.
  - rewrite (mp_step_threads _ _ _ Hs). destruct (mp_sem_step _ _ _ Hs) as [E|[e' He]]; [by rewrite E|].
    by rewrite (Sem.sem_step_threads _ _ _ He).
Qed.

(** ** Concrete runs *)

Definition in_sem (t n : nat) : list event := replicate n (InSem (Sem.Tick t)).
(** Thread [t] calls [recv] and registers; it parks with [Stop t false]. *)
Definition register (t n : nat) : list event :=
  [Call t (Recv false)] ++ in_sem t 1 ++ [Back t; Tick t] ++ in_sem t n.
Definition parks (t : nat) : list event := register t 4 ++ [InSem (Sem.Stop t false)].
Definition drop_last (t : nat) : list event :=
  [Call t DropTx; Tick t; Tick t] ++ in_sem t 6 ++ [Back t; Tick t].
Definition sends (t : nat) (v : T) (n : nat) : list event := [Call t (Send v); Tick t; Tick t] ++ in_sem t n ++ [Back t].

(** Thread 0 has pushed its blocker but not yet counted itself in when thread 1
    parks; the last sender's drop sees one waiter and wakes the front one. *)
Definition lost_disconnect : list event :=
  register 0 3 ++ parks 1 ++ drop_last 2 ++
  in_sem 0 1 ++ [InSem (Sem.Stop 0 true)] ++ in_sem 0 1 ++ [Back 0; Tick 0; Tick 0; Return 0; Return 2].

(** ** Properties *)

(** A permit always has its value: while the semaphore's counter is in range,
    the two [debug_assert!(false)] branches "a semaphore permit had no queued item"
    and those of the handle counts are unreachable, whatever the timeouts, the
    cancellations and the interleaving; values are received in the order they
    were sent; and [Disconnected] is reported only when every sender is gone. *)
Theorem mpmc_permit_has_item n s0 s :
  new n = Some s0 -> reachable step s0 s -> bounded s ->
  (forall t, mpcs s !! t <> Some (MDone RDiverged)) /\
  pushed s = popped s ++ drained s ++ q s /\
  (forall t, mpcs s !! t = Some (MDone RDisc) -> tx s = 0%Z).
Proof.
  intros Hn Hr Hb. pose proof (mp_reach_inv _ _ _ Hn Hr Hb) as Hi. split_and!; [apply Hi..|].
  intros t Ht. by eapply (h_after_tx _ (iv_handles _ Hi)).
Qed.

(** Nobody has anything left to do but wait in [recv]. *)
Definition rest (s : state) : Prop :=
  forall t x p, mpcs s !! t = Some x -> Sem.pcs (sem s) !! t = Some p ->
    match x with
    | MIdle | MDone _ => p = Sem.Idle
    | RSem => exists w b, p = Sem.WPark w b /\ pool_can_wake b (Sem.pl (sem s)) = false
    | _ => False
    end.

(** C19. No wake-up is lost while a sender is alive: at rest, a receiver parked in
    [recv] means that the queue is empty - every value sent was received, also
    when parked receivers timed out or were cancelled. *)
Theorem mpmc_no_lost_value n s0 s t :
  new n = Some s0 -> reachable step s0 s -> bounded s -> rest s -> (0 < tx s)%Z -> (0 < rx s)%Z ->
  Sem.parked (sem s) t -> q s = [] /\ pushed s = popped s.
Proof.
  intros Hn Hr Hb Hrest Htx Hrx Hp. pose proof (mp_reach_inv _ _ _ Hn Hr Hb) as Hi.
  destruct (iv_sem _ Hi) as (n' & m0 & Hm0 & Hm). destruct Hb as [Hb _].
  assert (Hpcs : forall i p, Sem.pcs (sem s) !! i = Some p -> Sem.resting p (Sem.pl (sem s)) /\ Sem.posting p = 0%Z /\ Sem.granted p = 0%Z).
  { intros i p Hip. destruct (mpcs s !! i) as [x|] eqn:Hx.
    - pose proof (Hrest _ _ _ Hx Hip) as Hx'. destruct x; try done; try (by subst p). by destruct Hx' as (w & b & -> & ?).
    - apply lookup_ge_None in Hx. apply lookup_lt_Some in Hip. rewrite (mp_threads _ _ _ Hn Hr) in Hx. lia. }
  assert (Hg : Sem.given (sem s) = Sem.acquired (sem s)).
  { eapply Sem.sem_rest_balance; [by eapply Sem.sem_inv_reachable|intros; by eapply Hpcs|done]. }
  assert (Hc : zsum claims (mpcs s) = 0%Z).
  { apply zsum_all_zero. intros i x Hx. destruct (lookup_lt_is_Some_2 (Sem.pcs (sem s)) i) as [p Hip].
    { rewrite <-(mp_threads _ _ _ Hn Hr). by eapply lookup_lt_Some. }
    pose proof (Hrest _ _ _ Hx Hip). by destruct x. }
  pose proof (iv_items _ Hi Htx Hrx) as Hq. rewrite Hc in Hq. unfold Sem.avail in Hq.
  rewrite (zsum_all_zero Sem.posting), (zsum_all_zero Sem.granted) in Hq by (intros; by eapply Hpcs).
  assert (q s = []) as Hq0 by (destruct (q s); [done|simpl in Hq; lia]). split; [done|].
  rewrite (iv_fifo _ Hi), Hq0, app_nil_r. destruct (drained s) eqn:Hd; [by rewrite app_nil_r|].
  assert (rx s = 0%Z) by (by apply (iv_drained _ Hi); rewrite Hd). lia.
Qed.

(** The wake-up of a disconnect can be lost: [drop_tx] posts once for every
    receiver that is counted in the semaphore, but the blocker it wakes can be one
    of a receiver that is not counted yet.  That receiver leaves with the
    disconnect; the one that parked stays parked, although no sender is left, every
    other thread has returned, and it waits without a timeout. *)
Theorem mpmc_disconnect_lost :
  exists s0 s, new 3 = Some s0 /\ run step lost_disconnect s0 = Some s /\
    tx s = 0%Z /\ senders s = 0%Z /\ rest s /\ mpcs s !! 1 = Some RSem /\ Sem.parked (sem s) 1 /\
    forall t x, t <> 1 -> mpcs s !! t = Some x -> x = MIdle.
Proof.
  do 2 eexists. split; [reflexivity|]. split; [vm_compute; reflexivity|]. split_and!; [done|done| |done| |].
  - intros [|[|[|t]]] x p; simpl; intros; simplify_eq; try done. eauto.
  - by do 2 eexists.
  - intros [|[|[|t]]] x Hne; simpl; intros; simplify_eq; done.
Qed.
End chan.

Definition demo_init : @state nat := default (St (Sem.St 0 pool_new [] 0 0) [] 0 0 [] 0 0 [] [] []) (new 3).
Definition final (es : list event) : @state nat := default demo_init (run step es demo_init).
(** A receiver waits, gets the value of a send, and waits again. *)
Definition demo_wait : list event :=
  parks 0 ++ sends 1 (7 : nat) 6 ++ [InSem (Sem.Park 0 None); Back 0; Tick 0].
Definition demo_again : list event := demo_wait ++ [Return 0; Return 1] ++ parks 0.
(** The sender goes away; a receiver gets what is left and then the disconnect. *)
Definition demo_disconnect : list event :=
  sends 1 7 2 ++ [Return 1; Call 1 DropTx; Tick 1; Tick 1; Call 0 TryRecv] ++ in_sem 0 2 ++ [Back 0; Tick 0; Return 0; Call 0 (Recv true)] ++
  in_sem 0 1 ++ [Back 0; Tick 0].

Example mp_demo_results :
  map (fun es => (mpcs (final es) !! 0, q (final es), popped (final es))) [demo_wait; demo_again; demo_disconnect] =
  [(Some (MDone (Got 7)), [], [7]); (Some RSem, [], [7]); (Some (MDone RDisc), [], [7])].
Proof. by vm_compute. Qed.

Lemma mpmc_permit_has_item_witness :
  let s := final demo_disconnect in
  (forall t, mpcs s !! t <> Some (MDone RDiverged)) /\ pushed s = popped s ++ drained s ++ q s /\
  (forall t, mpcs s !! t = Some (MDone RDisc) -> tx s = 0%Z).
Proof.
  apply (mpmc_permit_has_item 3 demo_init).
  - vm_compute. reflexivity.
  - apply run_reachable with (es := demo_disconnect). vm_compute. reflexivity.
  - vm_compute. split; [split; [reflexivity|discriminate]|reflexivity].
Defined.

Lemma mpmc_no_lost_value_witness :
  q (final demo_again) = [] /\ pushed (final demo_again) = popped (final demo_again).
Proof.
  apply (mpmc_no_lost_value 3 demo_init _ 0).
  - vm_compute. reflexivity.
  - apply run_reachable with (es := demo_again). vm_compute. reflexivity.
  - vm_compute. split; [split; [reflexivity|discriminate]|reflexivity].
  - intros [|[|[|t]]] x p; vm_compute; intros; simplify_eq; try done. eauto.
  - vm_compute. reflexivity.
  - vm_compute. reflexivity.
  - exists (Sem.Ctx false true), 1. vm_compute. reflexivity.
Defined.

End Mpmc.
