(* ===== verification/MpscChan.v ===== *)
(** * MpscChan: the multi-producer single-consumer channel

    [src/sync/mpsc.rs]: any number of senders and one receiver around the queue of
    [may_queue/src/mpsc.rs], which is taken through its specification ([Fifo],
    refined in [MpscQueue]).  The receiver waits as [Slot] describes, on a fresh
    [Blocker] per wait. *)

From stdpp Require Import base numbers list.
From Stdlib Require Import ZArith Lia.
From S2P Require Import Prelude Fifo Handles Slot.

Module MpscCh.

Section chan.
Context {T : Type}.

(** [RPanicked]: [park] unwinds a cancelled coroutine. *)
Inductive res := Got (v : T) | REmpty | RDisc | RTimeout | RPanicked.

(** [recv] loops over [InnerQueue::recv] without, [recv_timeout] with a duration. *)
Inductive mode := MRecv | MTimeout.
(** Which call of [try_recv] this is: the public one, the optimistic one of
    [recv_timeout], and the three of [InnerQueue::recv]; [k] is the blocker. *)
Inductive cont := KTry | KOpt | KFast (m : mode) | KRe (m : mode) (k : nat) | KAfter (m : mode).

Inductive rpc :=
  | RIdle | RGone
  | RPop (k : cont) | RChan (k : cont) | RPop2 (k : cont)
  | RElapsed
  | RStore (m : mode) | RPark (m : mode) (k : nat) | RClear (m : mode) | RClearData (r : res)
  | RPort | RDrain
  | RDone (r : res).

(** A thread with a sender; [d]: it is dropping the last one. *)
Inductive spc :=
  | NIdle | NCheck (v : T) | NPush (v : T) | NTake (d : bool) | NUnpark (k : nat) (d : bool)
  | NClone | NSub | NPanic.

(** [senders], [pushed], [got], [drained]: history. *)
Record state := St {
  q : list T; slot : Slot.t; channels : Z; port_dropped : bool; rp : rpc; pcs : list spc;
  senders : Z; pushed : list T; got : list T; drained : list T
}.

Definition new (n : nat) : state := St [] Slot.new 1 false RIdle (replicate n NIdle) 1 [] [] [].

Definition set_q (l p g d : list T) (s : state) : state :=
  St l (slot s) (channels s) (port_dropped s) (rp s) (pcs s) (senders s) p g d.
Definition set_slot (w : Slot.t) (s : state) : state :=
  St (q s) w (channels s) (port_dropped s) (rp s) (pcs s) (senders s) (pushed s) (got s) (drained s).
Definition set_chan (c h : Z) (s : state) : state :=
  St (q s) (slot s) c (port_dropped s) (rp s) (pcs s) h (pushed s) (got s) (drained s).
Definition set_port (b : bool) (s : state) : state :=
  St (q s) (slot s) (channels s) b (rp s) (pcs s) (senders s) (pushed s) (got s) (drained s).
Definition set_rp (x : rpc) (s : state) : state :=
  St (q s) (slot s) (channels s) (port_dropped s) x (pcs s) (senders s) (pushed s) (got s) (drained s).
Definition set_pc (t : nat) (x : spc) (s : state) : state :=
  St (q s) (slot s) (channels s) (port_dropped s) (rp s) (<[t := x]> (pcs s)) (senders s) (pushed s) (got s) (drained s).

(** ** The senders *)
Definition send (t : nat) (x : spc) (s : state) : option state :=
  match x with
  | NCheck v => Some (set_pc t (if port_dropped s then NIdle else NPush v) s)
  | NPush v => Some (set_pc t (NTake false) (set_q (Fifo.push v (q s)) (pushed s ++ [v]) (got s) (drained s) s))
  | _ => None
  end.
(** [to_wake.take()] and [unpark], of [send] and of [drop_chan]. *)
Definition wake (t : nat) (x : spc) (s : state) : option state :=
  match x with
  | NTake d =>
      let y := match Slot.to_wake (slot s) with Some k => NUnpark k d | None => NIdle end in
      Some (set_pc t y (set_slot (Slot.take (slot s)) s))
  | NUnpark k d => Some (set_pc t NIdle (set_slot (Slot.unpark k (slot s)) s))
  | _ => None
  end.
(** The clone of the [Arc] that follows aborts when there are too many handles. *)
Definition clone_chan (t : nat) (s : state) : option state :=
  if (channels s <? Word.isize_max)%Z then Some (set_pc t NIdle (set_chan (Word.add (channels s) 1) (senders s + 1) s)) else None.
Definition drop_chan (t : nat) (s : state) : state :=
  set_pc t (if (channels s =? 1)%Z then NTake true else if (1 <? channels s)%Z then NIdle else NPanic)
    (set_chan (Word.sub (channels s) 1) (senders s) s).

(** ** The receiver *)

(** What the caller of [try_recv] does with its result. *)
Definition finish (k : cont) (r : res) : rpc :=
  match k, r with
  | KOpt, REmpty => RElapsed
  | KFast m, REmpty => RStore m
  | KRe m b, REmpty => RPark m b
  | KRe m b, _ => RClearData r
  | KAfter MRecv, REmpty => RPop (KFast MRecv)
  | KAfter MTimeout, REmpty => RElapsed
  | _, _ => RDone r
  end.
Definition try_recv (x : rpc) (s : state) : option state :=
  let popped k := match Fifo.pop (q s) with
                  | (Some v, l) => Some (set_rp (finish k (Got v)) (set_q l (pushed s) (got s ++ [v]) (drained s) s))
                  | (None, _) => None
                  end in
  match x with
  | RPop k => match popped k with Some s' => Some s' | None => Some (set_rp (RChan k) s) end
  | RChan k => Some (set_rp (if (0 <? channels s)%Z then finish k REmpty else RPop2 k) s)
  | RPop2 k => match popped k with Some s' => Some s' | None => Some (set_rp (finish k RDisc) s) end
  | _ => None
  end.
(** [InnerQueue::recv]. *)
Definition recv (x : rpc) (s : state) : option state :=
  match x with
  | RStore m => Some (set_rp (RPop (KRe m (Slot.next (slot s)))) (set_slot (Slot.store (slot s)) s))
  | RClear m => Some (set_rp (RPop (KAfter m)) (set_slot (Slot.take (slot s)) s))
  | RClearData r => Some (set_rp (RDone r) (set_slot (Slot.take (slot s)) s))
  | _ => None
  end.
(** [recv_max_until]; [b]: the deadline has passed. *)
Definition recv_max_until (b : bool) (x : rpc) (s : state) : option state :=
  match x with
  | RElapsed => Some (set_rp (if b then RDone RTimeout else RPop (KFast MTimeout)) s)
  | _ => None
  end.
Definition drop_port (x : rpc) (s : state) : option state :=
  match x with
  | RPort => Some (set_rp RDrain (set_port true s))
  | RDrain =>
      match Fifo.pop (q s) with
      | (Some v, l) => Some (set_q l (pushed s) (got s) (drained s ++ [v]) s)
      | (None, _) => Some (set_rp RGone s)
      end
  | _ => None
  end.

(** [cur.park(dur)] and what follows it. *)
Definition park (o : Slot.parked) (x : rpc) (s : state) : option state :=
  match x with
  | RPark m k =>
      let y := match o with Slot.POk => RPop (KAfter m) | Slot.PErr => RClear m | Slot.PPanic => RDone RPanicked end in
      match Slot.park o k (slot s) with Some w => Some (set_rp y (set_slot w s)) | None => None end
  | _ => None
  end.

Definition uses (x : spc) : bool := match x with NCheck _ | NPush _ | NTake false | NUnpark _ false | NClone => true | _ => false end.
Definition dropping (x : spc) : bool := match x with NSub => true | _ => false end.
Definition at_home (x : rpc) : bool := match x with RIdle | RDone _ => true | _ => false end.

Inductive event :=
  | Send (t : nat) (v : T) | Clone (t : nat) | DropTx (t : nat) | N (t : nat)
  | TryRecv | Recv | RecvTimeout | DropRx | R (b : bool) | Park (o : Slot.parked).

Definition step (s : state) (e : event) : option state :=
  match e with
  | Send t v =>
      match pcs s !! t with
      | Some NIdle => if (0 <? senders s)%Z then Some (set_pc t (NCheck v) s) else None
      | _ => None
      end
  | Clone t =>
      match pcs s !! t with
      | Some NIdle => if (0 <? senders s)%Z then Some (set_pc t NClone s) else None
      | _ => None
      end
  | DropTx t =>
      match pcs s !! t with
      | Some NIdle =>
          if Hnd.can_drop uses (senders s) (pcs s) then Some (set_pc t NSub (set_chan (channels s) (senders s - 1) s)) else None
      | _ => None
      end
  | N t =>
      match pcs s !! t with
      | Some x =>
          match x with
          | NCheck _ | NPush _ => send t x s
          | NTake _ | NUnpark _ _ => wake t x s
          | NClone => clone_chan t s
          | NSub => Some (drop_chan t s)
          | _ => None
          end
      | None => None
      end
  | TryRecv => if at_home (rp s) then Some (set_rp (RPop KTry) s) else None
  | Recv => if at_home (rp s) then Some (set_rp (RPop (KFast MRecv)) s) else None
  | RecvTimeout => if at_home (rp s) then Some (set_rp (RPop KOpt) s) else None
  | DropRx => if at_home (rp s) then Some (set_rp RPort s) else None
  | R b =>
      match rp s with
      | RPop _ | RChan _ | RPop2 _ => try_recv (rp s) s
      | RStore _ | RClear _ | RClearData _ => recv (rp s) s
      | RElapsed => recv_max_until b (rp s) s
      | RPort | RDrain => drop_port (rp s) s
      | _ => None
      end
  | Park o => park o (rp s) s
  end.


(** ** The invariant *)

(** The blocker of a wait that is registered, that has seen an empty queue since,
    and that has seen a live sender since. *)
Definition registered (x : rpc) : option nat :=
  match x with RPop (KRe _ k) | RChan (KRe _ k) | RPop2 (KRe _ k) | RPark _ k => Some k | _ => None end.
Definition checked (x : rpc) : option nat := match x with RChan (KRe _ k) | RPark _ k => Some k | _ => None end.
Definition parked_on (x : rpc) : option nat := match x with RPark _ k => Some k | _ => None end.
(** The receiver will clear the slot. *)
Definition clearing (x : rpc) : bool :=
  match x with RPop (KRe _ _) | RChan (KRe _ _) | RPop2 (KRe _ _) | RClear _ | RClearData _ => true | _ => false end.
Definition draining (x : rpc) : bool := match x with RDrain | RGone => true | _ => false end.
Definition disconnected (x : rpc) : bool := match x with RClearData RDisc | RDone RDisc => true | _ => false end.
Definition sees_none (x : rpc) : bool := match x with RPop2 _ => true | _ => disconnected x end.

Definition taking (x : spc) : bool := match x with NTake _ => true | _ => false end.
Definition waking (k : nat) (x : spc) : bool := match x with NUnpark i _ => i =? k | _ => false end.
Definition wakes (s : state) (k : nat) : Prop := has (waking k) (pcs s).
Definition notified (k : nat) (s : state) : Prop := Slot.notified (wakes s) k (slot s).

Record inv (s : state) : Prop := {
  iv_count : Hnd.counted dropping uses (channels s) (senders s) (pcs s);
  iv_bound : (channels s <= Word.isize_max)%Z;
  iv_panic : forall t, pcs s !! t <> Some NPanic;
  iv_fifo : pushed s = got s ++ drained s ++ q s;
  iv_drained : drained s <> [] -> draining (rp s) = true;
  iv_none : sees_none (rp s) = true -> channels s = 0%Z;
  iv_disc : disconnected (rp s) = true -> q s = [];
  iv_slot : Slot.ok (registered (rp s)) (wakes s) (slot s);
  iv_data : forall k, checked (rp s) = Some k -> q s <> [] -> notified k s \/ has taking (pcs s);
  iv_gone : forall k, parked_on (rp s) = Some k -> channels s = 0%Z -> notified k s \/ has taking (pcs s);
  iv_clear : Slot.to_wake (slot s) <> None -> (0 < channels s)%Z \/ has taking (pcs s) \/ clearing (rp s) = true
}.

Lemma mch_checked x k : checked x = Some k -> registered x = Some k.
Proof. destruct x; try done; by destruct k0. Qed.
Lemma mch_parked x k : parked_on x = Some k -> registered x = Some k.
Proof. by destruct x. Qed.

Lemma mch_wakes_keep t x y s :
  pcs s !! t = Some x -> (forall k, waking k x = true -> waking k y = true) -> forall k, wakes s k -> wakes (set_pc t y s) k.
Proof. intros Hx Hw k Hk. eapply has_insert_keep; eauto. Qed.

(** A sender moves from [x] to [y], and the other fields stay. *)
Lemma mch_inv_pc s t x y :
  inv s -> pcs s !! t = Some x -> dropping y = dropping x -> (uses y = true -> uses x = true \/ (1 <= senders s)%Z) ->
  (forall k, waking k x = true -> waking k y = true) -> (taking x = true -> taking y = true) -> y <> NPanic ->
  inv (set_pc t y s).
Proof.
  intros [H1 H2 H3 H4 H5 H6 H7 H8 H9 H10 H11] Hx Hd Hu Hw Ht Hp.
  assert (W : forall k, wakes s k -> wakes (set_pc t y s) k) by by apply (mch_wakes_keep t x).
  assert (N : forall k, notified k s -> notified k (set_pc t y s)) by (intros k; apply (Slot.slot_notified_mono (wakes s)), W).
  assert (K : has taking (pcs s) -> has taking (<[t:=y]> (pcs s))) by eauto using has_insert_keep.
  split; simpl; auto.
  - by eapply Hnd.hnd_move.
  - intros i [(_ & E & _)|[_ Hi]]%lookup_insert_list; [by subst y|by apply (H3 i)].
  - by apply (Slot.slot_mono (wakes s)).
  - intros k Hk Hq. destruct (H9 k Hk Hq); auto.
  - intros k Hk Hq. destruct (H10 k Hk Hq); auto.
  - intros Hq. destruct (H11 Hq) as [?|[?|?]]; auto.
Qed.

(** [self.queue.push(t)]. *)
Lemma mch_inv_push s t v :
  inv s -> pcs s !! t = Some (NPush v) ->
  inv (set_pc t (NTake false) (set_q (Fifo.push v (q s)) (pushed s ++ [v]) (got s) (drained s) s)).
Proof.
  intros Hi Hx. pose proof (Hnd.cn_uses _ _ _ _ _ (iv_count _ Hi) _ _ Hx eq_refl) as Hu.
  pose proof (Hnd.hnd_nonneg _ _ _ _ _ (iv_count _ Hi)) as Hc.
  destruct (mch_inv_pc s t _ (NTake false) Hi Hx) as [H1 H2 H3 H4 H5 H6 H7 H8 H9 H10 H11]; try done; [by left|].
  split; simpl in *; auto.
  - rewrite H4. unfold Fifo.push. by rewrite <-!app_assoc.
  - intros Hd. assert (channels s = 0%Z); [|lia]. apply H6. revert Hd. destruct (rp s); done.
  - intros k Hk _. right. by eapply has_insert_new.
Qed.

(** [self.to_wake.take()]. *)
Lemma mch_inv_take s t d y :
  inv s -> pcs s !! t = Some (NTake d) -> y = match Slot.to_wake (slot s) with Some k => NUnpark k d | None => NIdle end ->
  inv (set_pc t y (set_slot (Slot.take (slot s)) s)).
Proof.
  intros [H1 H2 H3 H4 H5 H6 H7 H8 H9 H10 H11] Hx Hy.
  assert (W : forall k, wakes s k -> has (waking k) (<[t:=y]> (pcs s))) by (intros; by eapply has_insert_keep).
  assert (W' : forall k, Slot.to_wake (slot s) = Some k -> has (waking k) (<[t:=y]> (pcs s))).
  { intros k Hk. eapply has_insert_new; [done|]. rewrite Hk in Hy. subst y. apply Nat.eqb_refl. }
  split; simpl; auto; try done.
  - eapply Hnd.hnd_move; [done|done|subst y; by destruct (Slot.to_wake _)|]. subst y. destruct (Slot.to_wake _); [|done].
    destruct d; [done|by left].
  - intros i [(_ & E & _)|[_ Hi]]%lookup_insert_list; [subst y; by destruct (Slot.to_wake _)|by apply (H3 i)].
  - by apply (Slot.slot_take (wakes s)).
  - intros k Hk%mch_checked _. left. by apply (Slot.slot_take_notified (wakes s) _ (registered (rp s))).
  - intros k Hk%mch_parked _. left. by apply (Slot.slot_take_notified (wakes s) _ (registered (rp s))).
Qed.

(** [w.unpark()]. *)
Lemma mch_inv_unpark s t k d : inv s -> pcs s !! t = Some (NUnpark k d) ->
  inv (set_pc t NIdle (set_slot (Slot.unpark k (slot s)) s)).
Proof.
  intros [H1 H2 H3 H4 H5 H6 H7 H8 H9 H10 H11] Hx.
  assert (W : forall i, i <> k -> wakes s i -> has (waking i) (<[t:=NIdle]> (pcs s))).
  { intros i Hne Hi. eapply has_insert_other; [done..|]. by apply Nat.eqb_neq. }
  assert (K : has taking (pcs s) -> has taking (<[t:=NIdle]> (pcs s))) by eauto using has_insert_keep.
  assert (N : forall i, registered (rp s) = Some i -> notified i s ->
    notified i (set_pc t NIdle (set_slot (Slot.unpark k (slot s)) s))).
  { intros i Hr. apply (Slot.slot_unpark_notified (wakes s)); [by apply H8|apply W]. }
  split; simpl; auto.
  - by eapply Hnd.hnd_move.
  - intros i [(_ & Hy & _)|[_ Hi]]%lookup_insert_list; [done|by apply (H3 i)].
  - by apply (Slot.slot_unpark (wakes s)).
  - intros i Hi Hq. destruct (H9 i Hi Hq); auto using mch_checked.
  - intros i Hi Hq. destruct (H10 i Hi Hq); auto using mch_parked.
  - intros Hq. destruct (H11 Hq) as [?|[?|?]]; auto.
Qed.

(** The counter of the senders changes while [t] moves from [x] to [y]. *)
Lemma mch_inv_count s t x y c h :
  inv s -> pcs s !! t = Some x -> Hnd.counted dropping uses c h (<[t := y]> (pcs s)) -> (c <= Word.isize_max)%Z ->
  (channels s = 0 -> c = 0)%Z -> (c = 0 -> channels s = 0%Z \/ taking y = true)%Z ->
  (forall k, waking k x = false) -> taking x = false -> y <> NPanic -> inv (set_pc t y (set_chan c h s)).
Proof.
  intros [H1 H2 H3 H4 H5 H6 H7 H8 H9 H10 H11] Hx Hc Hb H0 H0' Hw Ht Hp.
  pose proof (Hnd.hnd_nonneg _ _ _ _ _ Hc) as Hpos.
  assert (W : forall k, wakes s k -> wakes (set_pc t y (set_chan c h s)) k).
  { intros k Hk. eapply has_insert_other; [done..|]. apply Hw. }
  assert (N : forall k, notified k s -> notified k (set_pc t y (set_chan c h s))) by (intros k; apply (Slot.slot_notified_mono (wakes s)), W).
  assert (K : has taking (pcs s) -> has taking (<[t:=y]> (pcs s))) by (intros; by eapply has_insert_other).
  split; simpl; auto.
  - intros i [(_ & E & _)|[_ Hi]]%lookup_insert_list; [by subst y|by apply (H3 i)].
  - by apply (Slot.slot_mono (wakes s)).
  - intros k Hk Hq. destruct (H9 k Hk Hq); auto.
  - intros k Hk Hz. destruct (H0' Hz) as [Hz'|Hy]; [destruct (H10 k Hk Hz'); auto|right; by eapply has_insert_new].
  - intros Hq. destruct (Z.eq_dec c 0) as [Hz|]; [|left; lia].
    destruct (H0' Hz) as [Hz'|Hy]; [|right; left; by eapply has_insert_new].
    destruct (H11 Hq) as [?|[?|?]]; [lia|auto|auto].
Qed.

Lemma mch_inv_sender s e s' :
  inv s -> (exists t, (exists v, e = Send t v) \/ e = Clone t \/ e = DropTx t \/ e = N t) -> step s e = Some s' -> inv s'.
Proof.
  intros Hi [t He] Hs. pose proof (iv_bound _ Hi). pose proof (iv_count _ Hi) as Hc.
  pose proof (Hnd.hnd_nonneg _ _ _ _ _ Hc). destruct He as [[v ->]|[->|[->| ->]]]; simpl in Hs;
    (destruct (pcs s !! t) as [x|] eqn:Hx; [|done]).
  - destruct x; try done. destruct (Z.ltb_spec 0 (senders s)); [|done]. injection Hs as <-.
    eapply mch_inv_pc; try done. intros _; right; lia.
  - destruct x; try done. destruct (Z.ltb_spec 0 (senders s)); [|done]. injection Hs as <-.
    eapply mch_inv_pc; try done. intros _; right; lia.
  - destruct x; try done. destruct (Hnd.can_drop _ _ _) eqn:Hd; [|done]. injection Hs as <-.
    eapply mch_inv_count; try done; [by eapply Hnd.hnd_die|auto].
  - destruct x; try done; simpl in Hs.
    + injection Hs as <-. destruct (port_dropped s); eapply mch_inv_pc; try done. by left.
    + injection Hs as <-. by apply mch_inv_push.
    + injection Hs as <-. by eapply mch_inv_take.
    + injection Hs as <-. exact (mch_inv_unpark _ _ _ _ Hi Hx).
    + unfold clone_chan in Hs. destruct (Z.ltb_spec (channels s) Word.isize_max); [|done]. injection Hs as <-.
      rewrite Hnd.hnd_uadd by lia. destruct (Hnd.hnd_add _ _ _ _ _ t _ NIdle Hc Hx) as [? Hc']; [done..|].
      eapply mch_inv_count; try done; lia.
    + injection Hs as <-. unfold drop_chan.
      destruct (Hnd.hnd_sub _ _ _ _ _ t _ (if (channels s =? 1)%Z then NTake true else if (1 <? channels s)%Z then NIdle else NPanic) Hc Hx)
        as [? Hc']; [done|by repeat case_match..|]. rewrite Hnd.hnd_usub by lia.
      eapply mch_inv_count; try done; try lia.
      * destruct (Z.eqb_spec (channels s) 1); [by right|lia].
      * destruct (Z.eqb_spec (channels s) 1); [done|]. destruct (Z.ltb_spec 1 (channels s)); [done|lia].
Qed.

(** The receiver moves. *)
Lemma mch_inv_rx s s' :
  inv s -> channels s' = channels s -> senders s' = senders s -> pcs s' = pcs s ->
  pushed s' = got s' ++ drained s' ++ q s' -> (drained s' <> [] -> draining (rp s') = true) ->
  (sees_none (rp s') = true -> channels s = 0%Z) -> (disconnected (rp s') = true -> q s' = []) ->
  (forall k, registered (rp s') = Some k -> registered (rp s) = Some k /\ slot s' = slot s) ->
  (forall k, checked (rp s') = Some k -> q s' = [] \/ (checked (rp s) = Some k /\ q s' = q s)) ->
  (forall k, parked_on (rp s') = Some k -> (0 < channels s)%Z) ->
  Slot.to_wake (slot s') = None \/ (Slot.to_wake (slot s') = Slot.to_wake (slot s) /\ ((0 < channels s)%Z \/ (clearing (rp s) = true -> clearing (rp s') = true))) ->
  inv s'.
Proof.
  intros [H1 H2 H3 H4 H5 H6 H7 H8 H9 H10 H11] Ec Es Ep Ef Ed En Edq Er Ek Eg Ew.
  split; rewrite ?Ec, ?Es, ?Ep; auto.
  - intros k Hk. destruct (Er k Hk) as [? ->]. unfold wakes. rewrite Ep. by apply H8.
  - intros k Hk Hq. destruct (Ek k Hk) as [?|[? E]]; [done|]. destruct (Er k (mch_checked _ _ Hk)) as [? E'].
    unfold notified, wakes. rewrite E', Ep. apply H9; congruence.
  - intros k Hk Hc. pose proof (Eg k Hk). lia.
  - destruct Ew as [->|[-> Ew]]; [done|]. intros Hw. destruct Ew as [?|Ew]; [auto|]. destruct (H11 Hw) as [?|[?|?]]; auto.
Qed.

(** The receiver registers with a fresh blocker. *)
Lemma mch_inv_store s m :
  inv s -> rp s = RStore m ->
  inv (set_rp (RPop (KRe m (Slot.next (slot s)))) (set_slot (Slot.store (slot s)) s)).
Proof.
  intros [H1 H2 H3 H4 H5 H6 H7 H8 H9 H10 H11] Hr. rewrite Hr in *. split; simpl; auto; try done. apply Slot.slot_store.
Qed.

(** Where [try_recv] ends: nobody registers there, and a seen disconnect is true. *)
Lemma mch_finish_got k v :
  registered (finish k (Got v)) = None /\ sees_none (finish k (Got v)) = false /\
  draining (finish k (Got v)) = false /\ (clearing (RPop k) = true -> clearing (finish k (Got v)) = true).
Proof. by destruct k as [| | | |[]]. Qed.
Lemma mch_finish_disc k :
  registered (finish k RDisc) = None /\ disconnected (finish k RDisc) = true /\
  draining (finish k RDisc) = false /\ (clearing (RPop2 k) = true -> clearing (finish k RDisc) = true).
Proof. by destruct k as [| | | |[]]. Qed.
Lemma mch_finish_empty k :
  registered (finish k REmpty) = registered (RChan k) /\ checked (finish k REmpty) = checked (RChan k) /\
  sees_none (finish k REmpty) = false /\ draining (finish k REmpty) = false.
Proof. by destruct k as [| | | |[]]. Qed.

Lemma mch_inv_pop s k v l y :
  inv s -> rp s = RPop k \/ rp s = RPop2 k -> q s = v :: l -> y = finish k (Got v) ->
  inv (set_rp y (set_q l (pushed s) (got s ++ [v]) (drained s) s)).
Proof.
  intros Hi Hr Hq ->. destruct (mch_finish_got k v) as (E1 & E2 & E3 & E4).
  assert (Hd : drained s = []).
  { destruct (drained s) eqn:E; [done|]. assert (Hd : draining (rp s) = true) by (apply (iv_drained _ Hi); congruence).
    by destruct Hr as [Hr|Hr]; rewrite Hr in Hd. }
  eapply mch_inv_rx; try done; simpl; try congruence.
  - rewrite (iv_fifo _ Hi), Hd, Hq. simpl. by rewrite <-app_assoc.
  - intros Hd'. unfold sees_none in E2. destruct (finish k (Got v)); congruence.
  - intros i Hk. apply mch_checked in Hk. congruence.
  - intros i Hk. apply mch_parked in Hk. congruence.
  - right. split; [done|]. right. by destruct Hr as [->| ->].
Qed.

Lemma mch_inv_try_recv s x s' : inv s -> rp s = x -> try_recv x s = Some s' -> inv s'.
Proof.
  intros Hi Hx Hs. pose proof (iv_fifo _ Hi) as Hf. pose proof (Hnd.hnd_nonneg _ _ _ _ _ (iv_count _ Hi)) as Hc.
  assert (Hd : drained s <> [] -> draining x = true) by (rewrite <-Hx; apply Hi).
  destruct x as [| |k|k|k| | | | | | | |]; try done; simpl in Hs, Hd; unfold Fifo.pop in Hs.
  - destruct (q s) as [|v l] eqn:Hq; simpl in Hs; injection Hs as <-.
    + eapply mch_inv_rx; try done; simpl; rewrite ?Hx, ?Hq; auto.
    + rewrite drop_0. eapply mch_inv_pop; eauto.
  - injection Hs as <-. destruct (mch_finish_empty k) as (E1 & E2 & E3 & E4). destruct (Z.ltb_spec 0 (channels s)).
    + eapply mch_inv_rx; try done; simpl; rewrite ?Hx, ?E1, ?E2, ?E3, ?E4; auto.
      * done.
      * intros Hd'. unfold sees_none in E3. destruct (finish k REmpty); congruence.
    + eapply mch_inv_rx; try done; simpl; rewrite ?Hx; auto. intros _; lia.
  - assert (Hn : channels s = 0%Z) by (apply (iv_none _ Hi); by rewrite Hx).
    destruct (q s) as [|v l] eqn:Hq; simpl in Hs; injection Hs as <-; [|rewrite drop_0; eapply mch_inv_pop; eauto].
    destruct (mch_finish_disc k) as (E1 & E2 & E3 & E4). eapply mch_inv_rx; try done; simpl; rewrite ?Hx, ?Hq; auto.
    + intros Hd'. by specialize (Hd Hd').
    + intros i Hk. congruence.
    + intros i Hk. apply mch_parked in Hk. congruence.
Qed.

Lemma mch_inv_step s e s' : inv s -> step s e = Some s' -> inv s'.
Proof.
  intros Hi Hs. pose proof (iv_fifo _ Hi) as Hf. pose proof (iv_drained _ Hi) as Hd.
  assert (Hhome : forall y, at_home (rp s) = true -> registered y = None -> sees_none y = false -> inv (set_rp y s)).
  { intros y Hh Hr Hy. eapply mch_inv_rx; try done; simpl; try congruence.
    - intros Hd'. specialize (Hd Hd'). by destruct (rp s).
    - intros E. unfold sees_none in Hy. destruct y; congruence.
    - intros k Hk. apply mch_checked in Hk. congruence.
    - intros k Hk. apply mch_parked in Hk. congruence.
    - right. split; [done|]. right. by destruct (rp s). }
  destruct e as [t v|t|t|t| | | | |b|o].
  1-4: refine (mch_inv_sender _ _ _ Hi _ Hs); exists t; eauto.
  1-4: simpl in Hs; destruct (at_home (rp s)) eqn:Hh; [injection Hs as <-|done]; by apply Hhome.
  - simpl in Hs. destruct (rp s) as [| |k|k|k| |m|m k|m|r| | |r] eqn:Hr; try done; simpl in Hd.
    1-3: by eapply mch_inv_try_recv; [done|exact Hr|].
    + injection Hs as <-. destruct b; eapply mch_inv_rx; try done; simpl; auto; right; (split; [done|]); right; by rewrite Hr.
    + injection Hs as <-. by apply mch_inv_store.
    + injection Hs as <-. eapply mch_inv_rx; try done; simpl; auto.
    + injection Hs as <-. pose proof (iv_none _ Hi) as Hn. pose proof (iv_disc _ Hi) as Hq. rewrite Hr in Hn, Hq.
      eapply mch_inv_rx; try done; simpl; auto.
    + injection Hs as <-. eapply mch_inv_rx; try done; simpl; auto. right. split; [done|]. right. by rewrite Hr.
    + simpl in Hs. unfold Fifo.pop in Hs. destruct (q s) as [|v l] eqn:Hq; simpl in Hs; injection Hs as <-;
        eapply mch_inv_rx; try done; simpl; rewrite ?Hr, ?Hq, ?drop_0; auto; try done.
      by rewrite Hf, <-app_assoc.
  - simpl in Hs. destruct (rp s) as [| | | | | | |m k| | | | |] eqn:Hr; try done; simpl in Hs, Hd.
    destruct (Slot.park o k (slot s)) as [w|] eqn:Hk; [|done]; injection Hs as <-; destruct o; simpl in Hk; repeat case_match; simplify_eq;
      eapply mch_inv_rx; try done; simpl; auto; try (intros Hd'; by specialize (Hd Hd'));
      right; (split; [done|]); right; by rewrite Hr.
Qed.

Lemma mch_inv_reachable n s : reachable step (new n) s -> inv s.
Proof.
  apply reachable_ind_inv; [|eauto using mch_inv_step]. split; simpl; try done.
  - by apply Hnd.hnd_init.
  - by intros t [? _]%lookup_replicate.
Qed.

(** ** Properties *)

(** C20. A wake-up is not lost: when the senders are between calls and the receiver
    is parked on a blocker without a token, the queue is empty, a sender is alive,
    and the blocker is registered where the next send will find it. *)
Theorem mch_wakeup_not_lost n s m k :
  reachable step (new n) s -> (forall t x, pcs s !! t = Some x -> x = NIdle) ->
  rp s = RPark m k -> Slot.token k (slot s) = false ->
  q s = [] /\ (0 < senders s)%Z /\ Slot.to_wake (slot s) = Some k.
Proof.
  intros Hr Hidle Hp Ht. apply mch_inv_reachable in Hr as Hi.
  assert (Hh : forall P, P NIdle = false -> ~ has P (pcs s)) by (intros P HP (t & x & Hx%Hidle & ?); congruence).
  assert (Hn : ~ notified k s) by (intros [?|?]; [congruence|by eapply (Hh (waking k))]).
  pose proof (iv_data _ Hi k) as Hd. pose proof (iv_gone _ Hi k) as Hg. pose proof (iv_slot _ Hi k) as Hs.
  rewrite Hp in Hd, Hg, Hs. simpl in Hd, Hg, Hs. split_and!.
  - destruct (q s); [done|]. destruct (Hd eq_refl) as [?|?]; [done|done|by destruct (Hh taking)].
  - assert (Hc : channels s <> 0%Z) by (intros Hc; destruct (Hg eq_refl Hc); [done|by destruct (Hh taking)]).
    destruct (iv_count _ Hi) as [Hc1 Hc2 _]. rewrite zsum_all_zero in Hc1; [lia|]. by intros i x ->%Hidle.
  - destruct (Hs eq_refl) as [_ [?|[_ ?]]]; done.
Qed.

(** The channel is a FIFO queue that reports a disconnect in time: what was
    pushed is what was received, followed by what the receiver's drop discarded and
    what is queued; [Disconnected] means that no sender is left and that everything
    sent was received; the count of senders does not underflow ([drop_chan] does not
    panic); and when both sides are gone the assertions of [InnerQueue::drop] hold. *)
Theorem mch_fifo n s :
  reachable step (new n) s ->
  pushed s = got s ++ drained s ++ q s /\
  (rp s = RDone RDisc -> senders s = 0%Z /\ pushed s = got s) /\
  (forall t, pcs s !! t <> Some NPanic) /\
  (rp s = RGone -> senders s = 0%Z -> (forall t x, pcs s !! t = Some x -> x = NIdle) -> channels s = 0%Z /\ Slot.to_wake (slot s) = None).
Proof.
  intros Hr%mch_inv_reachable. pose proof (Hnd.hnd_nonneg _ _ _ _ _ (iv_count _ Hr)) as Hc. split_and!.
  - apply Hr.
  - intros Hp. pose proof (iv_none _ Hr) as Hn. pose proof (iv_disc _ Hr) as Hd. pose proof (iv_drained _ Hr) as Hq.
    rewrite Hp in Hn, Hd, Hq. specialize (Hn eq_refl). specialize (Hd eq_refl). split; [lia|].
    rewrite (iv_fifo _ Hr), Hd. destruct (drained s); [by rewrite !app_nil_r|]. by discriminate Hq.
  - apply Hr.
  - intros Hp Hs Hidle. assert (Hz : channels s = 0%Z).
    { destruct (iv_count _ Hr) as [-> _ _]. rewrite zsum_all_zero; [lia|]. by intros i x ->%Hidle. }
    split; [done|]. pose proof (iv_clear _ Hr) as Hw. rewrite Hp in Hw. destruct (Slot.to_wake _); [|done].
    destruct Hw as [?|[(t & x & Hx%Hidle & ?)|?]]; [done|lia|by subst x|done].
Qed.

End chan.

Definition final (es : list event) : @state nat := default (new 2) (run step es (new 2)).
Definition rx (n : nat) : list (@event nat) := replicate n (R true).
(** The receiver waits, is woken by a send, and waits again. *)
Definition demo_wait : list event :=
  Recv :: rx 5 ++ [Send 0 7; N 0; N 0; N 0; N 0; Park Slot.POk] ++ rx 1 ++ [Recv] ++ rx 5.
(** The sender is cloned, sends, and both are dropped; the receiver gets the value and the disconnect. *)
Definition demo_disconnect : list event :=
  [Clone 0; N 0; Send 1 7; N 1; N 1; N 1; DropTx 0; N 0; DropTx 1; N 1; N 1; RecvTimeout] ++ rx 1 ++ [RecvTimeout] ++ rx 3.
Definition demo_drop : list event := demo_disconnect ++ [DropRx] ++ rx 2.

Example mch_demo_results :
  map (fun es => (rp (final es), q (final es), got (final es))) [demo_wait; demo_disconnect; demo_drop] =
  [(RPark MRecv 1, [], [7]); (RDone RDisc, [], [7]); (RGone, [], [7])].
Proof. by vm_compute. Qed.

Lemma mch_wakeup_not_lost_witness :
  q (final demo_wait) = [] /\ (0 < senders (final demo_wait))%Z /\ Slot.to_wake (slot (final demo_wait)) = Some 1.
Proof.
  apply (mch_wakeup_not_lost 2 _ MRecv 1).
  - apply run_reachable with (es := demo_wait). vm_compute. reflexivity.
  - intros [|[|t]] x; vm_compute; intros; by simplify_eq.
  - vm_compute. reflexivity.
  - vm_compute. reflexivity.
Defined.

Lemma mch_fifo_witness :
  let s := final demo_drop in
  pushed s = got s ++ drained s ++ q s /\ (rp s = RDone RDisc -> senders s = 0%Z /\ pushed s = got s) /\
  (forall t, pcs s !! t <> Some NPanic) /\
  (rp s = RGone -> senders s = 0%Z -> (forall t x, pcs s !! t = Some x -> x = NIdle) -> channels s = 0%Z /\ Slot.to_wake (slot s) = None).
Proof. apply (mch_fifo 2). apply run_reachable with (es := demo_drop). vm_compute. reflexivity. Defined.

End MpscCh.
