(* ===== verification/Join.v ===== *)
(** * Join: the end of a coroutine and those who wait for it

    [src/join.rs] with the two places that end a coroutine: the closure of
    [Builder::spawn_impl] and the panic branch of [run_coroutine]
    ([src/coroutine_impl.rs]).  The state is a flag, a [Slot] for one waiter and two
    cells, for the result and for the panic. *)

From stdpp Require Import base numbers list.
From Stdlib Require Import Lia.
From S2P Require Import Prelude Slot.

Module Jn.

Section join.
Context {T E : Type}.

(** How a coroutine ends, and what [join] makes of it; [RErr None] is
    [Error::Cancel]. *)
Inductive outcome := Returned (v : T) | Panicked (e : E) | Cancelled.
Inductive result := ROk (v : T) | RErr (e : option E).

Definition result_of (o : outcome) : result :=
  match o with Returned v => ROk v | Panicked e => RErr (Some e) | Cancelled => RErr None end.
Definition packet_of (o : outcome) : option T := match o with Returned v => Some v | _ => None end.
Definition panic_of (o : outcome) : option E := match o with Panicked e => Some e | _ => None end.

(** The coroutine: inside [f], after it returned, and in [trigger]; [v]: a result
    that is not stored but dropped at the end of the closure. *)
Inductive cpc :=
  | CRun | CCheck (v : T) | CPacket (v : T) | CPanic (e : E)
  | CState (v : option T) | CTake (v : option T) | CUnpark (k : nat) (v : option T) | CDrop (v : option T) | CEnd.

(** A thread with access to the handle; [j]: it called [join], not [wait]. *)
Inductive wres := Waited | Joined (r : result) | WPanicked.
Inductive wpc :=
  | WIdle | WLoad (j : bool) | WStore (j : bool) | WRe (j : bool) (k : nat) | WPark (j : bool) (k : nat) | WTake (j : bool)
  | WPacket | WPanic | WDone (r : wres).

(** [handle]: the [JoinHandle] exists; [ended], [interrupted] (a park of a waiter
    ended without a token): history. *)
Record state := St {
  running : bool; slot : Slot.t; packet : option T; panic : option E; cancelled : bool;
  co : cpc; ws : list wpc; handle : bool; ended : option outcome; interrupted : bool
}.

Definition new (n : nat) : state := St true Slot.new None None false CRun (replicate n WIdle) true None false.

Definition set_co (x : cpc) (s : state) : state :=
  St (running s) (slot s) (packet s) (panic s) (cancelled s) x (ws s) (handle s) (ended s) (interrupted s).
Definition set_end (o : outcome) (s : state) : state :=
  St (running s) (slot s) (packet s) (panic s) (cancelled s) (co s) (ws s) (handle s) (Some o) (interrupted s).
Definition set_slot (l : Slot.t) (s : state) : state :=
  St (running s) l (packet s) (panic s) (cancelled s) (co s) (ws s) (handle s) (ended s) (interrupted s).
Definition set_cells (p : option T) (e : option E) (s : state) : state :=
  St (running s) (slot s) p e (cancelled s) (co s) (ws s) (handle s) (ended s) (interrupted s).
Definition set_running (b : bool) (s : state) : state :=
  St b (slot s) (packet s) (panic s) (cancelled s) (co s) (ws s) (handle s) (ended s) (interrupted s).
Definition cancel (s : state) : state :=
  St (running s) (slot s) (packet s) (panic s) true (co s) (ws s) (handle s) (ended s) (interrupted s).
Definition set_w (t : nat) (x : wpc) (s : state) : state :=
  St (running s) (slot s) (packet s) (panic s) (cancelled s) (co s) (<[t := x]> (ws s)) (handle s) (ended s) (interrupted s).
Definition set_handle (b : bool) (s : state) : state :=
  St (running s) (slot s) (packet s) (panic s) (cancelled s) (co s) (ws s) b (ended s) (interrupted s).
Definition set_interrupted (b : bool) (s : state) : state :=
  St (running s) (slot s) (packet s) (panic s) (cancelled s) (co s) (ws s) (handle s) (ended s) b.

(** ** The coroutine *)

(** The closure of [spawn_impl] after [f()]: a cancellation that never fired is
    reported instead of the result. *)
Definition closure (s : state) : option state :=
  match co s with
  | CCheck v => Some (if cancelled s then set_co (CState (Some v)) (set_end Cancelled s) else set_co (CPacket v) (set_end (Returned v) s))
  | CPacket v => Some (set_co (CState None) (set_cells (Some v) (panic s) s))
  | CDrop _ => Some (set_co CEnd s)
  | _ => None
  end.
(** [run_coroutine] when the coroutine ended by a panic; a cancellation leaves no
    panic data. *)
Definition panicked (o : option E) (s : state) : option state :=
  match co s, o with
  | CRun, Some e => Some (set_co (CPanic e) (set_end (Panicked e) s))
  | CRun, None => if cancelled s then Some (set_co (CState None) (set_end Cancelled s)) else None
  | _, _ => None
  end.
Definition set_panic_data (s : state) : option state :=
  match co s with CPanic e => Some (set_co (CState None) (set_cells (packet s) (Some e) s)) | _ => None end.
Definition trigger (s : state) : option state :=
  match co s with
  | CState v => Some (set_co (CTake v) (set_running false s))
  | CTake v =>
      let y := match Slot.to_wake (slot s) with Some k => CUnpark k v | None => CDrop v end in
      Some (set_co y (set_slot (Slot.take (slot s)) s))
  | CUnpark k v => Some (set_co (CDrop v) (set_slot (Slot.unpark k (slot s)) s))
  | _ => None
  end.

(** ** The waiters *)
Definition is_done (s : state) : bool := negb (running s).
(** Where [wait] ends. *)
Definition waited (j : bool) : wpc := if j then WPacket else WDone Waited.
Definition wait (t : nat) (x : wpc) (s : state) : option state :=
  match x with
  | WLoad j => Some (set_w t (if running s then WStore j else waited j) s)
  | WStore j => Some (set_w t (WRe j (Slot.next (slot s))) (set_slot (Slot.store (slot s)) s))
  | WRe j k => Some (set_w t (if running s then WPark j k else WTake j) s)
  | WTake j => Some (set_w t (waited j) (set_slot (Slot.take (slot s)) s))
  | _ => None
  end.
Definition park (t : nat) (o : Slot.parked) (x : wpc) (s : state) : option state :=
  match x with
  | WPark j k =>
      let y := match o with Slot.PPanic => WDone WPanicked | _ => waited j end in
      let b := match o with Slot.PErr => true | _ => interrupted s end in
      match Slot.park o k (slot s) with Some l => Some (set_w t y (set_interrupted b (set_slot l s))) | None => None end
  | _ => None
  end.
(** [join] after [wait]. *)
Definition join (t : nat) (x : wpc) (s : state) : option state :=
  match x with
  | WPacket =>
      Some (match packet s with
            | Some v => set_w t (WDone (Joined (ROk v))) (set_cells None (panic s) s)
            | None => set_w t WPanic s
            end)
  | WPanic => Some (set_w t (WDone (Joined (RErr (panic s)))) (set_cells (packet s) None s))
  | _ => None
  end.

Definition free (x : wpc) : bool := match x with WIdle | WDone _ => true | _ => false end.

Inductive event :=
  | Ret (v : T) | Unwound (e : option E) | Cancel | Co
  | Wait (t : nat) | Join (t : nat) | W (t : nat) | Park (t : nat) (o : Slot.parked).

(** [wait] borrows the handle, [join] consumes it. *)
Definition step (s : state) (e : event) : option state :=
  match e with
  | Ret v => match co s with CRun => Some (set_co (CCheck v) s) | _ => None end
  | Unwound e => panicked e s
  | Cancel => Some (cancel s)
  | Co =>
      match co s with
      | CCheck _ | CPacket _ | CDrop _ => closure s
      | CPanic _ => set_panic_data s
      | _ => trigger s
      end
  | Wait t =>
      match ws s !! t with
      | Some x => if free x && handle s then Some (set_w t (WLoad false) s) else None
      | None => None
      end
  | Join t =>
      match ws s !! t with
      | Some _ => if forallb free (ws s) && handle s then Some (set_w t (WLoad true) (set_handle false s)) else None
      | None => None
      end
  | W t =>
      match ws s !! t with
      | Some x => match x with WPacket | WPanic => join t x s | _ => wait t x s end
      | None => None
      end
  | Park t o => match ws s !! t with Some x => park t o x s | None => None end
  end.

(** ** What a finished wait knows *)

Definition joining (x : wpc) : bool :=
  match x with
  | WLoad true | WStore true | WRe true _ | WPark true _ | WTake true | WPacket | WPanic => true
  | _ => false
  end.
Definition past (x : wpc) : bool :=
  match x with WTake _ | WPacket | WPanic | WDone Waited | WDone (Joined _) => true | _ => false end.
Definition joined (x : wpc) : bool := match x with WDone (Joined _) => true | _ => false end.

Definition cells (o : outcome) (s : state) : Prop := packet s = packet_of o /\ panic s = panic_of o.

(** The coroutine's position, the flag and the cells agree. *)
Definition co_ok (s : state) : Prop :=
  match co s with
  | CRun | CCheck _ => running s = true /\ ended s = None
  | CPacket v => running s = true /\ ended s = Some (Returned v)
  | CPanic e => running s = true /\ ended s = Some (Panicked e)
  | CState _ => running s = true /\ is_Some (ended s)
  | _ => running s = false /\ is_Some (ended s)
  end.
Definition cells_ok (s : state) : Prop :=
  match co s with
  | CRun | CCheck _ | CPacket _ | CPanic _ => packet s = None /\ panic s = None
  | CState _ => forall o, ended s = Some o -> cells o s
  | _ => has joined (ws s) \/ forall o, ended s = Some o -> cells o s
  end.
(** The result of a [join] and what is known one step before it. *)
Definition res_ok (x : wpc) (e : option outcome) : Prop :=
  match x with
  | WDone (Joined r) => exists o, e = Some o /\ r = result_of o
  | WPanic => exists o, e = Some o /\ packet_of o = None
  | _ => True
  end.

Record inv (s : state) : Prop := {
  iv_co : co_ok s;
  iv_cells : interrupted s = false -> cells_ok s;
  iv_handle : handle s = true -> ~ has joined (ws s) /\ ~ has joining (ws s);
  iv_solo : forall t x, ws s !! t = Some x -> joining x = true ->
    ~ has joined (ws s) /\ forall t' x', t' <> t -> ws s !! t' = Some x' -> free x' = true;
  iv_past : interrupted s = false -> forall t x, ws s !! t = Some x -> past x = true -> running s = false;
  iv_res : interrupted s = false -> forall t x, ws s !! t = Some x -> res_ok x (ended s);
  iv_tokens : forall k, Slot.token k (slot s) = true -> running s = false
}.

(** The coroutine steps; the waiters stay. *)
Lemma jn_inv_co s s' :
  inv s -> ws s' = ws s -> handle s' = handle s -> interrupted s' = interrupted s ->
  co_ok s' -> (cells_ok s -> cells_ok s') -> (running s = false -> running s' = false) ->
  (forall o, ended s = Some o -> ended s' = Some o) ->
  (forall k, Slot.token k (slot s') = true -> Slot.token k (slot s) = true \/ running s' = false) -> inv s'.
Proof.
  intros [H1 H2 H3 H4 H5 H6 H7] Ew Eh Ei Hc Hcl Hr He Ht. split; rewrite ?Ew, ?Eh, ?Ei; auto.
  - intros Hi t x Hx Hp. eauto.
  - intros Hi t x Hx. specialize (H6 Hi t x Hx). destruct x; try done; simpl in *.
    + destruct H6 as (o & Ho & ?). eauto.
    + destruct r; try done. destruct H6 as (o & Ho & ?). eauto.
  - intros k Hk. destruct (Ht k Hk) as [Hk'|]; eauto.
Qed.

Ltac co_tac Hc := unfold co_ok, cells_ok, cells in *; simpl in *; rewrite ?Hc in *; simpl in *; naive_solver.

Lemma jn_inv_event_co s e s' :
  inv s -> (exists v, e = Ret v) \/ (exists o, e = Unwound o) \/ e = Cancel \/ e = Co -> step s e = Some s' -> inv s'.
Proof.
  intros Hi He Hs. pose proof (iv_co _ Hi) as H0. pose proof (iv_tokens _ Hi) as Htk.
  destruct He as [[v ->]|[[o ->]|[->| ->]]]; simpl in Hs.
  - destruct (co s) eqn:Hc; try done. injection Hs as <-. apply (jn_inv_co s); auto; co_tac Hc.
  - unfold panicked in Hs. destruct (co s) eqn:Hc; try done. destruct o as [e|].
    + injection Hs as <-. apply (jn_inv_co s); auto; co_tac Hc.
    + destruct (cancelled s); [|done]. injection Hs as <-. apply (jn_inv_co s); auto; co_tac Hc.
  - injection Hs as <-. apply (jn_inv_co s); auto.
  - unfold closure, set_panic_data, trigger in Hs.
    destruct (co s) eqn:Hc; try done; [destruct (cancelled s); injection Hs as <-|injection Hs as <-..];
      try (apply (jn_inv_co s); auto; co_tac Hc).
    + destruct (Slot.to_wake (slot s)); apply (jn_inv_co s); auto; co_tac Hc.
Qed.

(** A waiter moves from [x] to [y]; the coroutine stays. *)
Lemma jn_inv_w s t x y s' :
  inv s -> ws s !! t = Some x -> ws s' = <[t := y]> (ws s) ->
  co s' = co s -> running s' = running s -> ended s' = ended s -> interrupted s' = interrupted s \/ interrupted s' = true ->
  handle s' = handle s \/ handle s' = false ->
  (joining y = true -> joining x = true \/ (handle s = true /\ handle s' = false /\ forallb free (ws s) = true)) ->
  (free y = true \/ free x = false \/ handle s = true) ->
  (joined y = true -> joining x = true) ->
  (interrupted s' = false -> joined x = false \/ joined y = true) ->
  (interrupted s' = false -> past y = true -> running s = false) -> (interrupted s' = false -> res_ok y (ended s)) ->
  (interrupted s' = false -> (packet s' = packet s /\ panic s' = panic s) \/ (joined y = true /\ running s = false)) ->
  (forall k, Slot.token k (slot s') = true -> Slot.token k (slot s) = true) -> inv s'.
Proof.
  intros [H1 H2 H3 H4 H5 H6 H7] Hx Ew Ec Er Ee Ei Eh Hj Hf Hjd Hxd Hp Hr Hcl Ht.
  assert (Hi : interrupted s' = false -> interrupted s = false) by (intros; destruct Ei; congruence).
  assert (Hself : t < length (ws s)) by (by eapply lookup_lt_Some).
  assert (Hfree : joining y = true -> forall t' x', t' <> t -> ws s !! t' = Some x' -> free x' = true).
  { intros Hy t' x' Hne Hx'. destruct (Hj Hy) as [Hjx|(_ & _ & Hall)]; [by eapply (H4 _ _ Hx Hjx)|].
    rewrite forallb_forall in Hall. apply Hall, list_elem_of_In. by eapply list_elem_of_lookup_2. }
  assert (Hnj : joining x = true \/ handle s = true -> ~ has joined (ws s)).
  { intros [Hjx|Hh]; [apply (H4 _ _ Hx Hjx)|apply (H3 Hh)]. }
  split; rewrite ?Ew, ?Ec, ?Er, ?Ee.
  - unfold co_ok. by rewrite Ec, Er, Ee.
  - intros Hi'. specialize (H2 (Hi Hi')). destruct (Hcl Hi') as [[E1 E2]|[Hy Hrun]].
    + unfold cells_ok, cells in *. rewrite Ec, Ee, E1, E2, Ew. destruct (co s); try done;
        (destruct H2 as [Hj'|?]; [left|by right]; destruct (Hxd Hi') as [?|?]; [by eapply has_insert_other|by eapply has_insert_new]).
    + unfold cells_ok. rewrite Ec, Ew. unfold co_ok in H1.
      destruct (co s); try (destruct H1; congruence); left; by eapply has_insert_new.
  - intros Hh. assert (Hh' : handle s = true) by (destruct Eh; congruence). destruct (H3 Hh') as [Ha Hb]. split.
    + intros [Hy|?]%has_insert_inv; [|done]. apply Hb. exists t, x. auto.
    + intros [Hy|?]%has_insert_inv; [|done]. destruct (Hj Hy) as [?|(_ & ? & _)]; [apply Hb; by exists t, x|congruence].
  - intros i z Hz Hjz. apply lookup_insert_list in Hz as [(<- & -> & _)|[Hne Hz]].
    + split.
      * intros [Hy|Hd]%has_insert_inv; [by destruct y as [|[]|[]|[]|[]|[]| | |[]]|].
        apply Hnj; [|done]. destruct (Hj Hjz) as [?|[? _]]; auto.
      * intros t' x' Hne Hz. rewrite list_lookup_insert_ne in Hz by done. by eapply Hfree.
    + pose proof (H4 _ _ Hz Hjz) as [Hd Hall]. pose proof (Hall t x Hne Hx) as Hfx.
      assert (Hjx : joining x = false) by (by destruct x).
      assert (Hh : handle s = true -> False) by (intros Hh; apply (H3 Hh); by exists i, z).
      assert (Hy : free y = true) by (destruct Hf as [?|[?|?]]; [done|congruence|by exfalso; apply Hh]). split.
      * intros [Hjy|?]%has_insert_inv; [|done]. specialize (Hjd Hjy). congruence.
      * intros t' x' Hne' [(<- & -> & _)|[_ Hx']]%lookup_insert_list; [done|by eapply Hall].
  - intros Hi' i z [(<- & -> & _)|[_ Hz]]%lookup_insert_list Hpz; eauto.
  - intros Hi' i z [(<- & -> & _)|[_ Hz]]%lookup_insert_list; eauto.
  - intros k Hk. eauto.
Qed.


Lemma jn_waited j : past (waited j) = true /\ joined (waited j) = false /\ (joining (waited j) = true -> (if j then true else false) = true) /\
  (j = false -> free (waited j) = true) /\ (forall e, res_ok (waited j) e).
Proof. by destruct j. Qed.

Lemma jn_inv_start s t (j : bool) x :
  inv s -> ws s !! t = Some x -> free x = true -> handle s = true -> (j = true -> forallb free (ws s) = true) ->
  inv (set_w t (WLoad j) (if j then set_handle false s else s)).
Proof.
  intros Hi Hx Hf Hh Hall. assert (Hd : joined x = false).
  { destruct (joined x) eqn:Hd; [|done]. destruct (proj1 (iv_handle _ Hi Hh)). by exists t, x. }
  destruct j; eapply (jn_inv_w s t x); try done; simpl; auto.
Qed.

Lemma jn_inv_wait s t x s' : inv s -> ws s !! t = Some x -> wait t x s = Some s' -> inv s'.
Proof.
  intros Hi Hx Hs. pose proof (iv_past _ Hi) as Hp. pose proof (iv_tokens _ Hi) as Htk.
  destruct x as [|j|j|j k| |j| | |]; try done; injection Hs as <-; destruct (jn_waited j) as (W1 & W2 & W3 & W4 & W5).
  - destruct (running s) eqn:Hr.
    + eapply (jn_inv_w s t _ (WStore j)); try done; simpl; auto.
    + eapply (jn_inv_w s t _ (waited j)); try done; simpl; auto; try congruence.
  - eapply (jn_inv_w s t _ (WRe j _)); try done; simpl; auto.
    intros k. unfold Slot.token, Slot.store. simpl. destruct (decide (k < length (Slot.tokens (slot s)))).
    + by rewrite lookup_app_l.
    + intros Hk. destruct (_ !! k) as [b|] eqn:Hb; [|done]. apply lookup_snoc_Some' in Hb as [Hb|[_ ->]]; [|done].
      apply lookup_lt_Some in Hb. lia.
  - destruct (running s) eqn:Hr.
    + eapply (jn_inv_w s t _ (WPark j k)); try done; simpl; auto.
    + eapply (jn_inv_w s t _ (WTake j)); try done; simpl; auto.
  - eapply (jn_inv_w s t _ (waited j)); try done; simpl; auto; try congruence.
    intros Hi' _. by eapply Hp.
Qed.

Lemma jn_inv_park s t x o s' : inv s -> ws s !! t = Some x -> park t o x s = Some s' -> inv s'.
Proof.
  intros Hi Hx Hs. pose proof (iv_tokens _ Hi) as Htk.
  destruct x as [| | | |j k| | | |]; try done. simpl in Hs. destruct (jn_waited j) as (W1 & W2 & W3 & W4 & W5).
  assert (Hins : forall i, Slot.token i (Slot.Mk (Slot.to_wake (slot s)) (<[k:=false]> (Slot.tokens (slot s)))) = true ->
    Slot.token i (slot s) = true).
  { intros i. unfold Slot.token. simpl. destruct (decide (i = k)) as [->|]; [|by rewrite list_lookup_insert_ne].
    destruct (decide (k < length (Slot.tokens (slot s)))).
    - by rewrite list_lookup_insert_eq.
    - by rewrite list_insert_ge by lia. }
  destruct (Slot.park o k (slot s)) as [l|] eqn:Hl; [|done]. injection Hs as <-. destruct o; simpl in Hl.
  - destruct (Slot.token k (slot s)) eqn:Hk; [|done]. injection Hl as <-. specialize (Htk _ Hk).
    eapply (jn_inv_w s t _ (waited j)); try done; simpl; auto; try congruence.
  - injection Hl as <-. eapply (jn_inv_w s t _ (waited j)); try done; simpl; auto; try congruence.
  - injection Hl as <-. eapply (jn_inv_w s t _ (WDone WPanicked)); try done; simpl; auto.
Qed.

Lemma jn_inv_join s t x s' : inv s -> ws s !! t = Some x -> join t x s = Some s' -> inv s'.
Proof.
  intros Hi Hx Hs. pose proof (iv_past _ Hi) as Hp.
  assert (Hc : interrupted s = false -> past x = true -> joining x = true -> exists o, ended s = Some o /\ cells o s).
  { intros Hin Hpx Hj. pose proof (Hp Hin _ _ Hx Hpx) as Hr. pose proof (iv_co _ Hi) as H0. pose proof (iv_cells _ Hi Hin) as H1.
    pose proof (proj1 (iv_solo _ Hi _ _ Hx Hj)) as Hnj. unfold co_ok, cells_ok in *.
    destruct (co s); try (destruct H0; congruence); destruct H0 as [_ [o Ho]]; exists o; split; try done;
      (destruct H1 as [?|H1]; [done|auto]). }
  destruct x; try done; injection Hs as <-; simpl in Hc.
  - destruct (packet s) as [v|] eqn:Hv.
    + eapply (jn_inv_w s t _ (WDone (Joined (ROk v)))); try done; simpl; auto.
      * intros Hin _. by eapply Hp.
      * intros Hin. destruct (Hc Hin) as (o & Ho & Hpk & _); [done..|]. exists o. split; [done|].
        rewrite Hv in Hpk. by destruct o; simplify_eq/=.
      * intros Hin. right. split; [done|]. by eapply Hp.
    + eapply (jn_inv_w s t _ WPanic); try done; simpl; auto.
      * intros Hin _. by eapply Hp.
      * intros Hin. destruct (Hc Hin) as (o & Ho & Hpk & _); [done..|]. exists o. split; [done|congruence].
  - eapply (jn_inv_w s t _ (WDone (Joined (RErr (panic s))))); try done; simpl; auto.
    + intros Hin _. by eapply Hp.
    + intros Hin. destruct (Hc Hin) as (o & Ho & Hpk & He); [done..|]. exists o. split; [done|].
      pose proof (iv_res _ Hi Hin _ _ Hx) as (o' & Ho' & Hn). rewrite He. assert (o' = o) as -> by congruence. by destruct o.
    + intros Hin. right. split; [done|]. by eapply Hp.
Qed.

Lemma jn_inv_step s e s' : inv s -> step s e = Some s' -> inv s'.
Proof.
  intros Hi Hs. destruct e as [v|o| | |t|t|t|t o]; try (refine (jn_inv_event_co _ _ _ Hi _ Hs); eauto; done); simpl in Hs.
  - destruct (ws s !! t) as [x|] eqn:Hx; [|done]. destruct (free x && handle s) eqn:Hf; [|done]. injection Hs as <-.
    apply andb_true_iff in Hf as [Hf Hh]. by apply (jn_inv_start s t false x).
  - destruct (ws s !! t) as [x|] eqn:Hx; [|done]. destruct (forallb free (ws s) && handle s) eqn:Hf; [|done]. injection Hs as <-.
    apply andb_true_iff in Hf as [Hf Hh]. apply (jn_inv_start s t true x); auto.
    rewrite forallb_forall in Hf. apply Hf, list_elem_of_In. by eapply list_elem_of_lookup_2.
  - destruct (ws s !! t) as [x|] eqn:Hx; [|done]. destruct x; try done; first [by eapply jn_inv_join|by eapply jn_inv_wait].
  - destruct (ws s !! t) as [x|] eqn:Hx; [|done]. by eapply jn_inv_park.
Qed.

Lemma jn_inv_reachable n s : reachable step (new n) s -> inv s.
Proof.
  apply reachable_ind_inv; [|eauto using jn_inv_step]. split; simpl; try done.
  - intros _. split; intros (t & x & [-> _]%lookup_replicate & ?); done.
  - by intros t x [-> _]%lookup_replicate.
  - by intros _ t x [-> _]%lookup_replicate.
  - by intros _ t x [-> _]%lookup_replicate.
Qed.

(** ** One waiter *)

Definition waits_on (x : wpc) : option nat := match x with WRe _ k | WPark _ k => Some k | _ => None end.
Definition parked_on (x : wpc) : option nat := match x with WPark _ k => Some k | _ => None end.
Definition wakes (c : cpc) (k : nat) : Prop := exists v, c = CUnpark k v.

Record solo (w : wpc) (s : state) : Prop := {
  so_ws : ws s = [w];
  so_co : co_ok s;
  so_slot : Slot.ok (waits_on w) (wakes (co s)) (slot s);
  so_parked : forall k, parked_on w = Some k -> running s = false ->
    Slot.notified (wakes (co s)) k (slot s) \/ exists v, co s = CTake v
}.

Lemma jn_parked w k : parked_on w = Some k -> waits_on w = Some k.
Proof. by destruct w. Qed.

Lemma jn_solo_co w s s' : solo w s -> step s Co = Some s' -> co_ok s' -> solo w s'.
Proof.
  intros [H1 H2 H3 H4] Hs Hc. simpl in Hs. unfold closure, set_panic_data, trigger in Hs. unfold co_ok in H2.
  destruct (co s) as [|v|v|e|v|v|k v|v|] eqn:Eco; try discriminate Hs.
  - destruct (cancelled s); injection Hs as <-;
      (split; simpl; auto; [eapply Slot.slot_mono; [|exact H3]; by intros k [? ?]|]; intros k _ Hr; destruct H2; congruence).
  - injection Hs as <-. split; simpl; auto; [eapply Slot.slot_mono; [|exact H3]; by intros k [? ?]|].
    intros k _ Hr. destruct H2; congruence.
  - injection Hs as <-. split; simpl; auto; [eapply Slot.slot_mono; [|exact H3]; by intros k [? ?]|].
    intros k _ Hr. destruct H2; congruence.
  - injection Hs as <-. split; simpl; auto; [eapply Slot.slot_mono; [|exact H3]; by intros k [? ?]|]. eauto.
  - injection Hs as <-.
    assert (W : forall i, Slot.to_wake (slot s) = Some i ->
      wakes (match Slot.to_wake (slot s) with Some k => CUnpark k v | None => CDrop v end) i) by (intros i ->; by eexists).
    split; simpl; auto.
    + eapply Slot.slot_take; [exact H3|by intros i [? ?]|exact W].
    + intros k Hk%jn_parked _. left. eapply Slot.slot_take_notified; [exact H3|done|by intros i [? ?]|exact W].
  - injection Hs as <-. split; simpl; auto.
    + eapply Slot.slot_unpark; [exact H3|]. intros i Hne [v' [= <- _]]. done.
    + intros i Hi Hr. destruct (H4 i Hi Hr) as [Hn|[v' ?]]; [left|done].
      apply (Slot.slot_unpark_notified (wakes (CUnpark k v))); [by apply (H3 i), jn_parked|by intros Hne [v' [= <- _]]|done].
  - injection Hs as <-. split; simpl; auto; [eapply Slot.slot_mono; [|exact H3]; by intros k [? ?]|].
    intros k Hk Hr. destruct (H4 k Hk Hr) as [[?|[? ?]]|[? ?]]; try done. by left; left.
Qed.

(** The waiter moves; the coroutine stays. *)
Lemma jn_solo_w w y s s' :
  solo w s -> ws s' = <[0 := y]> (ws s) -> co s' = co s -> running s' = running s -> ended s' = ended s ->
  (forall k, waits_on y = Some k -> (waits_on w = Some k /\ slot s' = slot s) \/ (k = Slot.next (slot s) /\ slot s' = Slot.store (slot s))) ->
  (forall k, parked_on y = Some k -> running s = true) -> solo y s'.
Proof.
  intros [H1 H2 H3 H4] Ew Ec Er Ee Hw Hp. rewrite H1 in Ew. split; rewrite ?Ec, ?Er; auto.
  - unfold co_ok. by rewrite Ec, Er, Ee.
  - intros k Hk. destruct (Hw k Hk) as [[? ->]|[-> ->]]; [by apply H3|]. by apply Slot.slot_store.
  - intros k Hk Hr. specialize (Hp k Hk). congruence.
Qed.

Lemma jn_solo_step w s e s' : inv s' -> solo w s -> step s e = Some s' -> exists w', solo w' s'.
Proof.
  intros Hi Hs0 Hs. pose proof (so_ws _ _ Hs0) as Hw. pose proof (iv_co _ Hi) as Hco.
  assert (Hget : forall t x, ws s !! t = Some x -> t = 0 /\ x = w) by (rewrite Hw; intros [|[|t]] x; naive_solver).
  destruct e as [v|o| | |t|t|t|t o]; [..|].
  - exists w. simpl in Hs. destruct Hs0 as [H1 H2 H3 H4]. unfold co_ok in H2. destruct (co s) eqn:Eco; try done. injection Hs as <-.
    split; simpl; auto; [eapply Slot.slot_mono; [|exact H3]; by intros k [? ?]|]. intros k _ Hr. destruct H2; congruence.
  - exists w. destruct Hs0 as [H1 H2 H3 H4]. unfold co_ok in H2. simpl in Hs. unfold panicked in Hs. destruct (co s) eqn:Eco; try done.
    destruct o; [|destruct (cancelled s); [|done]]; injection Hs as <-;
      (split; simpl; auto; [eapply Slot.slot_mono; [|exact H3]; by intros k [? ?]|]; intros k _ Hr; destruct H2; congruence).
  - exists w. injection Hs as <-. by destruct Hs0 as [H1 H2 H3 H4].
  - exists w. eapply jn_solo_co; [done|done|apply Hi].
  - simpl in Hs. destruct (ws s !! t) as [x|] eqn:Hx; [|done]. destruct (Hget _ _ Hx) as [-> ->].
    destruct (_ && _); [|done]. injection Hs as <-. exists (WLoad false). by eapply jn_solo_w.
  - simpl in Hs. destruct (ws s !! t) as [x|] eqn:Hx; [|done]. destruct (Hget _ _ Hx) as [-> ->].
    destruct (_ && _); [|done]. injection Hs as <-. exists (WLoad true). by eapply jn_solo_w.
  - simpl in Hs. destruct (ws s !! t) as [x|] eqn:Hx; [|done]. destruct (Hget _ _ Hx) as [-> ->].
    destruct w as [|j|j|j k|j k|j| | |]; try done; injection Hs as <-.
    + exists (if running s then WStore j else waited j). eapply jn_solo_w; try done; destruct (running s); try done; by destruct j.
    + exists (WRe j (Slot.next (slot s))). eapply jn_solo_w; try done. intros k [= <-]. by right.
    + exists (if running s then WPark j k else WTake j). eapply jn_solo_w; try done; destruct (running s) eqn:Hr; try done. auto.
    + exists (waited j). eapply jn_solo_w; try done; by destruct j.
    + exists (match packet s with Some v => WDone (Joined (ROk v)) | None => WPanic end). destruct (packet s); by eapply jn_solo_w.
    + exists (WDone (Joined (RErr (panic s)))). by eapply jn_solo_w.
  - simpl in Hs. destruct (ws s !! t) as [x|] eqn:Hx; [|done]. destruct (Hget _ _ Hx) as [-> ->].
    destruct w as [| | | |j k| | | |]; try done. simpl in Hs. destruct (Slot.park o k (slot s)); [|done]. injection Hs as <-.
    exists (match o with Slot.PPanic => WDone WPanicked | _ => waited j end).
    eapply jn_solo_w; try done; destruct o; try done; by destruct j.
Qed.

Lemma jn_solo_reachable s : reachable step (new 1) s -> exists w, solo w s.
Proof.
  intros Hr. induction Hr as [|s e s' Hr [w IH] Hs]; [by exists WIdle|].
  eapply jn_solo_step; [|done..]. eapply (jn_inv_reachable 1). by eapply reach_step.
Qed.

(** ** Properties *)

(** C21. [join] is exact: as long as no park of a waiter was interrupted, a [join] that
    has returned gives how the coroutine ended - its value, its panic, or the
    cancellation - and a [join] or [wait] has returned only after the coroutine
    finished. *)
Theorem join_exact n s t x :
  reachable step (new n) s -> interrupted s = false -> ws s !! t = Some (WDone x) -> x <> WPanicked ->
  is_done s = true /\ (forall r, x = Joined r -> exists o, ended s = Some o /\ r = result_of o).
Proof.
  intros Hr Hi Hx Hp. apply jn_inv_reachable in Hr. split.
  - unfold is_done. rewrite (iv_past _ Hr Hi _ _ Hx); [done|]. by destruct x.
  - intros r ->. apply (iv_res _ Hr Hi _ _ Hx).
Qed.

(** The wake-up of a single waiter is not lost: when the coroutine has finished, a
    parked waiter has its token; before that its blocker is registered. *)
Theorem join_not_lost s j k :
  reachable step (new 1) s -> ws s = [WPark j k] -> Slot.token k (slot s) = false ->
  co s <> CEnd /\ (is_done s = false -> Slot.to_wake (slot s) = Some k).
Proof.
  intros Hr Hw Ht. apply jn_solo_reachable in Hr as [w [H1 H2 H3 H4]]. assert (w = WPark j k) as -> by congruence. split.
  - intros Hc. unfold co_ok in H2. rewrite Hc in *. destruct (H4 k eq_refl (proj1 H2)) as [[?|[? ?]]|[? ?]]; congruence.
  - unfold is_done. intros Hd. destruct (H3 k eq_refl) as [_ [?|[_ [?|[v Hc]]]]]; [done|congruence|].
    unfold co_ok in H2. rewrite Hc in H2. destruct H2 as [H2 _]. by rewrite H2 in Hd.
Qed.

(** Two threads wait on one handle. *)
Definition two_waiters (v : T) : list event := [Wait 0; W 0; W 0; W 0; Wait 1; W 1; W 1; W 1; Ret v] ++ replicate 6 Co.
(** A waiter that unwinds for its own cancellation: its park returns at once. *)
Definition unwinding_waiter : list event := [Join 0; W 0; W 0; W 0; Park 0 Slot.PErr; W 0; W 0].

(** Where waiting fails.  [wait] takes [&self] and the handle is [Sync], but the
    slot holds one waiter: the second one replaces the first, which stays parked after
    the coroutine has finished.  And [wait] ignores the result of [park]: a
    waiter that is unwinding for its own cancellation, whose parks return at
    once, leaves [join] with [Error::Cancel] while the coroutine is still running. *)
Theorem join_waits_wrongly (v : T) :
  (exists s, run step (two_waiters v) (new 2) = Some s /\ co s = CEnd /\
    ws s !! 0 = Some (WPark false 0) /\ Slot.token 0 (slot s) = false /\ Slot.to_wake (slot s) = None) /\
  (exists s, run step unwinding_waiter (new 1) = Some s /\ ws s = [WDone (Joined (RErr None))] /\ co s = CRun).
Proof. split; eexists; (split; [vm_compute; reflexivity|]); by vm_compute. Qed.

End join.

Definition final (es : list event) : @state nat nat := default (new 1) (run step es (new 1)).
(** The waiter parks, the coroutine returns 7, and the waiter takes it. *)
Definition demo_waits : list (@event nat nat) := [Join 0; W 0; W 0; W 0].
Definition demo_joins : list event := demo_waits ++ [Ret 7] ++ replicate 6 Co ++ [Park 0 Slot.POk; W 0].

Example join_demo_results :
  map (fun es => ws (final es))
    [demo_joins; [Unwound (Some 3); Co; Co; Co; Co; Join 0; W 0; W 0; W 0]; [Cancel; Ret 7; Co; Co; Co; Join 0; W 0; W 0; W 0]] =
  [[WDone (Joined (ROk 7))]; [WDone (Joined (RErr (Some 3)))]; [WDone (Joined (RErr None))]].
Proof. by vm_compute. Qed.

Lemma join_exact_witness :
  is_done (final demo_joins) = true /\
  (forall r, Joined (ROk 7) = Joined r -> exists o, ended (final demo_joins) = Some o /\ r = result_of o).
Proof.
  apply (join_exact 1 _ 0).
  - apply run_reachable with (es := demo_joins). vm_compute. reflexivity.
  - vm_compute. reflexivity.
  - vm_compute. reflexivity.
  - discriminate.
Defined.

Lemma join_not_lost_witness :
  co (final demo_waits) <> CEnd /\ (is_done (final demo_waits) = false -> Slot.to_wake (slot (final demo_waits)) = Some 0).
Proof.
  apply (join_not_lost _ true).
  - apply run_reachable with (es := demo_waits). vm_compute. reflexivity.
  - vm_compute. reflexivity.
  - vm_compute. reflexivity.
Defined.

End Jn.
