(* ===== verification/Scoped.v ===== *)
(** * Scoped: coroutines that borrow from their parent's frame

    [src/scoped.rs]: a scope keeps a chain of destructors, one [join] for every
    coroutine it spawned; leaving the scope, by returning or by unwinding, runs the
    chain.  [Join] says what the [join] of a handle does: it returns when
    the coroutine has finished, panics when the caller is cancelled, and returns
    at once when the caller already unwinds for its cancellation. *)

From stdpp Require Import base numbers list.
From Stdlib Require Import Lia.
From S2P Require Import Prelude.

Module Scp.

(** How a child ended, and the destructors: the join of child [i], or a closure of
    the user. *)
Inductive ended := COk | CPanic | CCancel.
Inductive dtor := DJoin (i : nat) | DUser (d : nat).
#[global] Instance dtor_eq_dec : EqDecision dtor.
Proof. solve_decision. Defined.

(** Who called [JoinState::join]: [ScopedJoinHandle::join], or a destructor; [u]:
    the parent is unwinding. *)
Inductive caller := InBody | InDrop (u : bool).
Inductive pc := PBody | PJoin (i : nat) (w : caller) | PPacket (i : nat) | PDrop (u : bool) | PLeft (u : bool) | PAbort.

(** [dtors]: the chain, its head first; [running]: which [JoinState]s still hold their
    handle; [children]: [None] while it runs; [deferred], [ran]: history. *)
Record state := St {
  dtors : list dtor; running : list bool; packets : list bool; children : list (option ended);
  pp : pc; cancelled : bool; deferred : list nat; ran : list nat
}.

Definition new : state := St [] [] [] [] PBody false [] [].

Definition set_pp (x : pc) (s : state) : state :=
  St (dtors s) (running s) (packets s) (children s) x (cancelled s) (deferred s) (ran s).
Definition set_running (l : list bool) (s : state) : state :=
  St (dtors s) l (packets s) (children s) (pp s) (cancelled s) (deferred s) (ran s).
Definition set_packets (l : list bool) (s : state) : state :=
  St (dtors s) (running s) l (children s) (pp s) (cancelled s) (deferred s) (ran s).
Definition set_dtors (l : list dtor) (d r : list nat) (s : state) : state :=
  St l (running s) (packets s) (children s) (pp s) (cancelled s) d r.
Definition cancel (s : state) : state :=
  St (dtors s) (running s) (packets s) (children s) (pp s) true (deferred s) (ran s).

Definition defer (d : nat) (s : state) : state := set_dtors (DUser d :: dtors s) (deferred s ++ [d]) (ran s) s.
Definition spawn_impl (s : state) : state :=
  St (DJoin (length (children s)) :: dtors s) (running s ++ [true]) (packets s ++ [false]) (children s ++ [None])
    (pp s) (cancelled s) (deferred s) (ran s).
(** The child's closure stores its packet; then the coroutine ends. *)
Definition child_end (i : nat) (e : ended) (s : state) : option state :=
  match children s !! i with
  | Some None =>
      Some (St (dtors s) (running s) (match e with COk => <[i := true]> (packets s) | _ => packets s end)
        (<[i := Some e]> (children s)) (pp s) (cancelled s) (deferred s) (ran s))
  | _ => None
  end.

(** [JoinState::join] up to the [join] of the handle: a handle is joined once. *)
Definition after (w : caller) (i : nat) : pc := match w with InBody => PPacket i | InDrop u => PDrop u end.
Definition start_join (i : nat) (w : caller) (s : state) : state :=
  if default false (running s !! i) then set_pp (PJoin i w) (set_running (<[i := false]> (running s)) s) else set_pp (after w i) s.

Definition unwinding (w : caller) : bool := match w with InDrop true => true | _ => false end.
(** How [handle.join()] comes back: with the coroutine's result, with a cancel
    panic of the caller, or at once while the caller unwinds for it. *)
Inductive back := Result | CancelPanic | AtOnce.
(** The rest of [JoinState::join]; [p]: [thread::panicking()]. *)
Definition end_join (b : back) (p : bool) (s : state) : option state :=
  match pp s with
  | PJoin i w =>
      if implb (unwinding w) p then
        match b with
        | Result =>
            match children s !! i with
            | Some (Some e) =>
                Some (set_pp (if p then after w i else match e with COk => after w i | _ => PDrop true end) s)
            | _ => None
            end
        | CancelPanic => if cancelled s && negb (unwinding w) then Some (set_pp (PDrop true) s) else None
        | AtOnce => if cancelled s && unwinding w then Some (set_pp (after w i) s) else None
        end
      else None
  | _ => None
  end.
(** [self.packet.take().unwrap()]. *)
Definition take_packet (s : state) : option state :=
  match pp s with
  | PPacket i =>
      Some (if default false (packets s !! i) then set_pp PBody (set_packets (<[i := false]> (packets s)) s) else set_pp (PDrop true) s)
  | _ => None
  end.
(** One iteration of [drop_all]; [b]: the user's destructor panics. *)
Definition drop_all (b : bool) (s : state) : option state :=
  match pp s with
  | PDrop u =>
      match dtors s with
      | [] => Some (set_pp (PLeft u) s)
      | DJoin i :: l => Some (start_join i (InDrop u) (set_dtors l (deferred s) (ran s) s))
      | DUser d :: l =>
          Some (set_pp (if b then if u then PAbort else PDrop true else PDrop u) (set_dtors l (deferred s) (ran s ++ [d]) s))
      end
  | _ => None
  end.

Inductive event :=
  | Spawn | Defer (d : nat) | JoinHandle (i : nat) | Return | Panic | Cancel
  | ChildEnd (i : nat) (e : ended) | Back (b : back) (p : bool) | Packet | DropAll (b : bool).

(** [scope]: the events of the body are those of [f]; [join] consumes its handle. *)
Definition step (s : state) (e : event) : option state :=
  match e, pp s with
  | Spawn, PBody => Some (spawn_impl s)
  | Defer d, PBody => Some (defer d s)
  | JoinHandle i, PBody => match running s !! i with Some true => Some (start_join i InBody s) | _ => None end
  | Return, PBody => Some (set_pp (PDrop false) s)
  | Panic, PBody => Some (set_pp (PDrop true) s)
  | Cancel, _ => Some (cancel s)
  | ChildEnd i r, _ => child_end i r s
  | Back b p, _ => end_join b p s
  | Packet, _ => take_packet s
  | DropAll b, _ => drop_all b s
  | _, _ => None
  end.

(** ** The chain *)

Fixpoint users (l : list dtor) : list nat :=
  match l with [] => [] | DUser d :: l' => d :: users l' | DJoin _ :: l' => users l' end.
Definition in_body (x : pc) : bool := match x with PBody | PPacket _ | PJoin _ InBody => true | _ => false end.

Record chain (s : state) : Prop := {
  ch_lifo : ran s ++ users (dtors s) = rev (deferred s);
  ch_body : in_body (pp s) = true -> ran s = [];
  ch_left : forall u, pp s = PLeft u -> dtors s = []
}.

Lemma scp_after w i : in_body (after w i) = in_body (PJoin i w) /\ forall u, after w i <> PLeft u.
Proof. by destruct w. Qed.

(** The chain stays and so does, at most, the body. *)
Lemma scp_chain_pp s s' :
  chain s -> dtors s' = dtors s -> deferred s' = deferred s -> ran s' = ran s ->
  (in_body (pp s') = true -> in_body (pp s) = true) -> (forall u, pp s' = PLeft u -> dtors s = []) -> chain s'.
Proof. intros [H1 H2 H3] E1 E2 E3 Hb Hl. split; rewrite ?E1, ?E2, ?E3; auto. Qed.

Lemma scp_start_join i w s :
  exists r y, start_join i w s = set_pp y (set_running r s) /\ in_body y = in_body (PJoin i w) /\ forall u, y <> PLeft u.
Proof.
  unfold start_join. destruct (default false _).
  - exists (<[i := false]> (running s)), (PJoin i w). by destruct w.
  - exists (running s), (after w i). split; [by destruct s|apply scp_after].
Qed.

Lemma scp_end_join b p s s' :
  end_join b p s = Some s' -> exists i w y, pp s = PJoin i w /\ s' = set_pp y s /\ (y = after w i \/ y = PDrop true).
Proof.
  unfold end_join. intros Hs. destruct (pp s) as [|i w| | | |]; try done. destruct (implb _ _); [|done].
  exists i, w. destruct b.
  - destruct (children s !! i) as [[e|]|]; try done. injection Hs as <-. eexists. split_and!; [done..|].
    destruct p; [by left|]. destruct e; auto.
  - destruct (cancelled s && _); [|done]. injection Hs as <-. eexists. split_and!; [done..|auto].
  - destruct (cancelled s && _); [|done]. injection Hs as <-. eexists. split_and!; [done..|auto].
Qed.

Lemma scp_chain_step s e s' : chain s -> step s e = Some s' -> chain s'.
Proof.
  intros Hc Hs. pose proof Hc as [H1 H2 H3]. unfold step in Hs. destruct e as [|d|i| | | |i r|b p| |b].
  - destruct (pp s) eqn:Hp; try done. injection Hs as <-. split; simpl; rewrite ?Hp in *; auto; done.
  - destruct (pp s) eqn:Hp; try done. injection Hs as <-. specialize (H2 eq_refl). rewrite H2 in H1. simpl in H1.
    split; simpl; rewrite ?Hp, ?H2 in *; auto; try done. simpl. by rewrite rev_app_distr, H1.
  - destruct (pp s) eqn:Hp; try done. destruct (running s !! i) as [[]|]; try done. injection Hs as <-.
    destruct (scp_start_join i InBody s) as (r & y & -> & Hb & Hl). eapply (scp_chain_pp s); simpl; rewrite ?Hp; auto.
    intros u ->. by destruct (Hl u).
  - destruct (pp s) eqn:Hp; try done. injection Hs as <-. by eapply (scp_chain_pp s).
  - destruct (pp s) eqn:Hp; try done. injection Hs as <-. by eapply (scp_chain_pp s).
  - injection Hs as <-. by eapply (scp_chain_pp s).
  - unfold child_end in Hs. destruct (children s !! i) as [[]|]; try done. injection Hs as <-. by eapply (scp_chain_pp s).
  - apply scp_end_join in Hs as (i & w & y & Hp & -> & Hy). eapply (scp_chain_pp s); simpl; auto; rewrite ?Hp.
    + by destruct Hy as [->| ->]; [rewrite (proj1 (scp_after w i))|].
    + intros u ->. destruct Hy as [Hy|?]; [by destruct (proj2 (scp_after w i) u)|done].
  - unfold take_packet in Hs. destruct (pp s) eqn:Hp; try done. injection Hs as <-.
    destruct (default false _); eapply (scp_chain_pp s); simpl; rewrite ?Hp; auto; done.
  - unfold drop_all in Hs. destruct (pp s) as [| | |u| |] eqn:Hp; try done. destruct (dtors s) as [|[i|d] l] eqn:Hd.
    + injection Hs as <-. split; simpl; rewrite ?Hd; auto; done.
    + injection Hs as <-. destruct (scp_start_join i (InDrop u) (set_dtors l (deferred s) (ran s) s)) as (r & y & -> & Hb & Hl).
      split; simpl; rewrite ?Hb; auto; try done. intros u' ->. by destruct (Hl u').
    + injection Hs as <-. split; simpl; [by rewrite <-app_assoc|by destruct b, u|by intros u'; destruct b, u].
Qed.

(** ** The children *)

Definition joins (x : pc) : option nat := match x with PJoin i _ => Some i | _ => None end.
(** Child [i] still has its handle, and a destructor that joins it. *)
Definition to_join (s : state) (i : nat) : Prop := running s !! i = Some true /\ DJoin i ∈ dtors s.
Definition waited (P : option ended -> Prop) (s : state) : Prop :=
  forall i c, children s !! i = Some c -> P c \/ joins (pp s) = Some i \/ to_join s i.

Definition finished (c : option ended) : Prop := c <> None.
Definition fine (c : option ended) : Prop := c = Some COk.

(** A join starts: its child is waited for by [pp]. *)
Lemma scp_waited_start P s s0 i w :
  waited P s -> joins (pp s) = None -> children s0 = children s -> running s0 = running s ->
  (forall j, DJoin j ∈ dtors s -> j = i \/ DJoin j ∈ dtors s0) -> waited P (start_join i w s0).
Proof.
  intros H Hp Ec Er Hd j c. unfold start_join. rewrite Er.
  assert (Hc : children (if default false (running s !! i) then set_pp (PJoin i w) (set_running (<[i := false]> (running s)) s0)
    else set_pp (after w i) s0) = children s) by (by case_match).
  rewrite Hc. intros Hj. destruct (H j c Hj) as [?|[?|[Hr Hin]]]; [by left|congruence|].
  destruct (decide (j = i)) as [->|Hne].
  - rewrite Hr. simpl. right. by left.
  - destruct (Hd j Hin) as [?|Hin']; [done|]. right. right. destruct (default false _); split; simpl; rewrite ?Er; auto.
    by rewrite list_lookup_insert_ne.
Qed.

Lemma scp_waited_pp P s y :
  waited P s -> (forall i c, joins (pp s) = Some i -> children s !! i = Some c -> P c \/ joins y = Some i) -> waited P (set_pp y s).
Proof. intros H Hy i c Hi. simpl in Hi. destruct (H i c Hi) as [?|[Hj|?]]; [by left| |by right; right]. destruct (Hy i c Hj Hi); auto. Qed.

Lemma scp_waited_spawn P s : waited P s -> length (running s) = length (children s) -> waited P (spawn_impl s).
Proof.
  intros H Hl i c [Hi|[-> ->]]%lookup_snoc_Some'.
  - destruct (H i c Hi) as [?|[?|[Hr ?]]]; [by left|by right; left|]. right. right. split; simpl; [|by right].
    by apply lookup_app_l_Some.
  - right. right. split; simpl; [|by left]. rewrite lookup_app_r by lia. by rewrite Hl, Nat.sub_diag.
Qed.

Lemma scp_waited_child P s i r s' : waited P s -> ~ P None -> child_end i r s = Some s' -> waited P s'.
Proof.
  intros H HP Hs. unfold child_end in Hs. destruct (children s !! i) as [[]|] eqn:Hc; try done. injection Hs as <-.
  intros j c [(<- & -> & _)|[_ Hj]]%lookup_insert_list; [|by apply H].
  destruct (H _ _ Hc) as [?|?]; [done|by right].
Qed.

Lemma scp_len_step s e s' : length (running s) = length (children s) -> step s e = Some s' -> length (running s') = length (children s').
Proof.
  intros Hl Hs. unfold step, child_end, take_packet, drop_all in Hs.
  destruct e; repeat (first [discriminate Hs|case_match]); try discriminate Hs;
    try (apply scp_end_join in Hs as (? & ? & ? & _ & -> & _); done);
    injection Hs as <-; unfold start_join; repeat case_match; simpl; rewrite ?length_insert, ?length_app; simpl; lia.
Qed.

(** Every step but the end of a join keeps the children covered. *)
Lemma scp_waited_step P s e s' :
  waited P s -> ~ P None -> length (running s) = length (children s) -> step s e = Some s' ->
  (forall b p, e <> Back b p) -> waited P s'.
Proof.
  intros H HP Hl Hs Hb. unfold step in Hs. destruct e as [|d|i| | | |i r|b p| |b].
  - destruct (pp s) eqn:Hp; try done. injection Hs as <-. by apply scp_waited_spawn.
  - destruct (pp s) eqn:Hp; try done. injection Hs as <-. intros j c Hj. destruct (H j c Hj) as [?|[?|[? ?]]]; [by left|by right; left|].
    right. right. split; [done|by right].
  - destruct (pp s) eqn:Hp; try done. destruct (running s !! i) as [[]|]; try done. injection Hs as <-.
    apply (scp_waited_start P s); auto. by rewrite Hp.
  - destruct (pp s) eqn:Hp; try done. injection Hs as <-. apply scp_waited_pp; [done|]. by rewrite Hp.
  - destruct (pp s) eqn:Hp; try done. injection Hs as <-. apply scp_waited_pp; [done|]. by rewrite Hp.
  - by injection Hs as <-.
  - by eapply scp_waited_child.
  - by destruct (Hb b p).
  - unfold take_packet in Hs. destruct (pp s) eqn:Hp; try done. injection Hs as <-.
    assert (H' : forall y l, waited P (set_pp y (set_packets l s))).
    { intros y l. apply (scp_waited_pp P (set_packets l s)); [done|]. simpl. by rewrite Hp. }
    destruct (default false _); [apply H'|]. replace s with (set_packets (packets s) s) by (by destruct s). apply H'.
  - unfold drop_all in Hs. destruct (pp s) as [| | |u| |] eqn:Hp; try done. destruct (dtors s) as [|[i|d] l] eqn:Hd; injection Hs as <-.
    + apply scp_waited_pp; [done|]. by rewrite Hp.
    + apply (scp_waited_start P s); auto; [by rewrite Hp|]. intros j Hj. rewrite Hd in Hj.
      apply elem_of_cons in Hj as [[= ->]|?]; auto.
    + apply (scp_waited_pp P (set_dtors l _ _ s)); [|simpl; by rewrite Hp].
      intros j c Hj. destruct (H j c Hj) as [?|[?|[? Hin]]]; [by left|by right; left|]. right. right. split; [done|].
      rewrite Hd in Hin. apply elem_of_cons in Hin as [?|?]; done.
Qed.

Record safe (s : state) : Prop := {
  sf_len : length (running s) = length (children s);
  sf_waited : cancelled s = false -> waited finished s
}.

Lemma scp_cancelled_step s e s' : step s e = Some s' -> cancelled s' = false -> cancelled s = false.
Proof.
  intros Hs. unfold step, child_end, take_packet, drop_all in Hs.
  destruct e; repeat (first [discriminate Hs|case_match]); try discriminate Hs;
    try (apply scp_end_join in Hs as (? & ? & ? & _ & -> & _); done);
    injection Hs as <-; unfold start_join; repeat case_match; done.
Qed.

Lemma scp_safe_step s e s' : safe s -> step s e = Some s' -> safe s'.
Proof.
  intros [Hl Hw] Hs. split; [by eapply scp_len_step|]. intros Hc'. pose proof (scp_cancelled_step _ _ _ Hs Hc') as Hc.
  specialize (Hw Hc). destruct e as [|d|i| | | |i r|b p| |b]; try (by eapply scp_waited_step; [done|by intros []|done..]).
  unfold step in Hs. assert (Hs' : end_join b p s = Some s') by (by destruct (pp s)). clear Hs.
  pose proof (scp_end_join _ _ _ _ Hs') as (i & w & y & Hp & -> & Hy). unfold end_join in Hs'. rewrite Hp in Hs'.
  destruct (implb _ _); [|done]. rewrite Hc in Hs'. destruct b; try done.
  destruct (children s !! i) as [[e|]|] eqn:Hi; try done. apply scp_waited_pp; [done|].
  rewrite Hp. intros j c [= <-] Hj. left. rewrite Hi in Hj. by injection Hj as <-.
Qed.

(** ** Runs without a foreign unwind

    [thread::panicking()] is a property of the thread: it is also true while another
    coroutine's unwind is suspended there.  In a fair run it is not. *)
Definition fair_step (s : state) (e : event) : option state :=
  match e, pp s with
  | Back b p, PJoin _ w => if eqb p (unwinding w) then step s e else None
  | _, _ => step s e
  end.

Definition unwound (x : pc) : bool := match x with PDrop true | PJoin _ (InDrop true) | PLeft true | PAbort => true | _ => false end.

Lemma scp_fair s e s' : fair_step s e = Some s' -> step s e = Some s'.
Proof. unfold fair_step. destruct e; try done. destruct (pp s); try done. by destruct (eqb _ _). Qed.

Definition untaken (s : state) (i : nat) : Prop := running s !! i = Some true \/ joins (pp s) = Some i \/ pp s = PPacket i.

Record fair (s : state) : Prop := {
  fa_len : length (running s) = length (children s) /\ length (packets s) = length (children s);
  fa_waited : unwound (pp s) = true \/ waited fine s;
  fa_packet : forall i, untaken s i -> children s !! i = Some (Some COk) -> packets s !! i = Some true;
  fa_pp : forall i, pp s = PPacket i -> children s !! i = Some (Some COk);
  fa_taken : forall i, joins (pp s) = Some i \/ pp s = PPacket i -> running s !! i <> Some true
}.

Lemma scp_untaken_start i w s s0 j :
  joins (pp s) = None -> running s0 = running s -> pp s0 = pp s ->
  running s !! i = Some true \/ (forall k, w <> InBody /\ pp s <> PPacket k) ->
  untaken (start_join i w s0) j -> untaken s j.
Proof.
  intros Hp Er Ep Hw. unfold start_join, untaken. rewrite Er. destruct (running s !! i) as [[]|] eqn:Hi; simpl.
  - intros [H|[[= ->]|?]]; [|by left|done]. apply lookup_insert_list in H as [(? & ? & ?)|[? ?]]; [done|by left].
  - destruct Hw as [?|Hw]; [done|]. destruct (Hw j) as [Hb _]. destruct w; [done|]. rewrite Er. simpl.
    intros [?|[?|?]]; [by left|done..].
  - destruct Hw as [?|Hw]; [done|]. destruct (Hw j) as [Hb _]. destruct w; [done|]. rewrite Er. simpl.
    intros [?|[?|?]]; [by left|done..].
Qed.

Lemma scp_start_pp i w s : forall k, pp (start_join i w s) = PPacket k -> w = InBody /\ running s !! i <> Some true.
Proof.
  intros k. unfold start_join. destruct (running s !! i) as [[]|]; simpl; destruct w; simpl; intros; try done; split; congruence.
Qed.
Lemma scp_start_unwound i u s : unwound (pp (start_join i (InDrop u) s)) = unwound (PDrop u).
Proof. unfold start_join. by case_match. Qed.
Lemma scp_start_cells i w s :
  children (start_join i w s) = children s /\ packets (start_join i w s) = packets s /\ length (running (start_join i w s)) = length (running s).
Proof. unfold start_join. case_match; simpl; by rewrite ?length_insert. Qed.

Lemma scp_fair_end s b p s' : fair s -> fair_step s (Back b p) = Some s' -> fair s'.
Proof.
  intros [[L1 L2] H2 H3 H4 H5] Hs. assert (Hs' : end_join b p s = Some s').
  { apply scp_fair in Hs. unfold step in Hs. by destruct (pp s). }
  pose proof (scp_end_join _ _ _ _ Hs') as (i & w & y & Hp & -> & Hy). unfold fair_step in Hs. rewrite Hp in Hs.
  destruct (eqb p (unwinding w)) eqn:Hq; [|done]. apply eqb_prop in Hq. clear Hs.
  unfold end_join in Hs'. rewrite Hp in Hs'. destruct (implb _ _); [|done].
  assert (Hok : y = PDrop true \/ (exists u, y = PDrop u /\ unwinding w = true) \/ (y = after w i /\ children s !! i = Some (Some COk))).
  { destruct Hy as [->|?]; [|by left]. destruct (unwinding w) eqn:Hu; [by destruct w as [|[]]; simplify_eq/=; left|].
    rewrite Hq in Hs'. destruct b; try (destruct (cancelled s); simpl in Hs'; try done; injection Hs' as Hs'; by left).
    destruct (children s !! i) as [[[]|]|] eqn:Hc; try done; [by right; right|injection Hs' as Hs'; by left..]. }
  split; simpl.
  - done.
  - destruct Hok as [->|[(u & -> & Hu)|[-> Hc]]]; [by left| |].
    + left. destruct Hy as [Hy|Hy]; [|by rewrite Hy]. by destruct w as [|[]]; simplify_eq/=.
    + destruct H2 as [Hu|Hw]; [left; rewrite Hp in Hu; by destruct w as [|[]]|right]. apply scp_waited_pp; [done|]. rewrite Hp.
      intros j c [= <-] Hj. left. by rewrite Hc in Hj; injection Hj as <-.
  - intros j Hj Hc. apply H3; [|done]. unfold untaken in *. simpl in Hj. rewrite Hp. simpl.
    destruct Hj as [?|[Hj|Hj]]; [by left|..].
    + by destruct Hy as [->| ->]; [destruct w|].
    + destruct Hy as [Hy|Hy]; [|by subst]. right. left. subst y. by destruct w; simplify_eq/=.
  - intros j Hj. destruct Hok as [->|[(u & -> & Hu)|[-> Hc]]]; try done. by destruct w; simplify_eq/=.
  - intros j Hj. apply H5. rewrite Hp. left. destruct Hy as [->| ->]; destruct Hj as [Hj|Hj]; destruct w; by simplify_eq/=.
Qed.

(** A step that touches neither children nor packets, and hands out no child. *)
Lemma scp_fair_frame s s' :
  fair s -> children s' = children s -> packets s' = packets s -> length (running s') = length (running s) ->
  (unwound (pp s) = true -> unwound (pp s') = true) -> (waited fine s -> waited fine s') ->
  (forall i, untaken s' i -> untaken s i) -> (forall i, pp s' <> PPacket i) ->
  (forall i, joins (pp s') = Some i -> running s' !! i <> Some true) -> fair s'.
Proof.
  intros [[L1 L2] H2 H3 H4 H5] Ec Ek El Hu Hw Ht Hp Hj. split; rewrite ?Ec, ?Ek, ?El; auto.
  - destruct H2 as [?|?]; auto.
  - intros i Hi. by destruct (Hp i).
  - intros i [Hi|Hi]; [auto|by destruct (Hp i)].
Qed.

Lemma scp_start_taken i w s j : joins (pp (start_join i w s)) = Some j -> running (start_join i w s) !! j <> Some true.
Proof.
  unfold start_join. destruct (running s !! i) as [b|] eqn:Hi; [destruct b|]; simpl; [|by destruct w..].
  intros [= <-]. rewrite list_lookup_insert_eq by (by eapply lookup_lt_Some). done.
Qed.

Lemma scp_fair_packet s i :
  fair s -> pp s = PPacket i -> waited fine s ->
  take_packet s = Some (set_pp PBody (set_packets (<[i := false]> (packets s)) s)) /\
  fair (set_pp PBody (set_packets (<[i := false]> (packets s)) s)).
Proof.
  intros [[L1 L2] H2 H3 H4 H5] Hp Hw. unfold take_packet. rewrite Hp.
  assert (Hi : packets s !! i = Some true) by (apply H3; [by right; right|by apply H4]).
  split; [by rewrite Hi|]. split; simpl; rewrite ?length_insert; auto; try done.
  - right. apply (scp_waited_pp fine (set_packets _ s)); [done|]. simpl. by rewrite Hp.
  - intros j Hj Hc. assert (Hr : running s !! j = Some true) by (by destruct Hj as [?|[?|?]]).
    rewrite list_lookup_insert_ne; [|intros ->; by eapply H5; [right|]]. apply H3; [by left|done].
  - intros j [?|?]; done.
Qed.

Lemma scp_fair_spawn s : fair s -> pp s = PBody -> waited fine (spawn_impl s) -> fair (spawn_impl s).
Proof.
  intros [[L1 L2] H2 H3 H4 H5] Hp Hw. split; simpl; rewrite ?length_app; simpl; rewrite ?Hp; auto; try lia; try done.
  - intros i Hi [Hc|[? ?]]%lookup_snoc_Some'; [|done]. apply lookup_app_l_Some. apply H3; [|done].
    unfold untaken in *. simpl in Hi. rewrite Hp in *. destruct Hi as [[Hi|[-> _]]%lookup_snoc_Some'|?]; [by left| |by right].
    apply lookup_lt_Some in Hc. lia.
  - intros i [?|?]; done.
Qed.

Lemma scp_fair_child s i r s' : fair s -> waited fine s' \/ unwound (pp s) = true -> child_end i r s = Some s' -> fair s'.
Proof.
  intros [[L1 L2] H2 H3 H4 H5] Hw Hs. unfold child_end in Hs. destruct (children s !! i) as [[]|] eqn:Hc; try done. injection Hs as <-.
  split; simpl; rewrite ?length_insert; auto.
  - split; [done|]. destruct r; by rewrite ?length_insert.
  - destruct Hw; auto.
  - intros j Hj [(<- & Hr & _)|[Hne Hj']]%lookup_insert_list.
    + injection Hr as <-. apply list_lookup_insert_eq. rewrite L2. by eapply lookup_lt_Some.
    + destruct r; rewrite ?list_lookup_insert_ne by done; by apply H3.
  - intros j Hj. specialize (H4 j Hj). rewrite list_lookup_insert_ne; [done|]. intros ->. congruence.
Qed.

Lemma scp_fair_step s e s' : fair s -> fair_step s e = Some s' -> fair s'.
Proof.
  intros Hf Hs. destruct e as [|d|i| | | |i r|b p| |b]; [| | | | | | |by eapply scp_fair_end| |];
    (assert (Hw : waited fine s -> waited fine s') by
       (intros; eapply scp_waited_step; [done|by unfold fine|apply Hf|by apply scp_fair|done]));
    apply scp_fair in Hs; unfold step in Hs; pose proof (fa_waited _ Hf) as H2; pose proof (fa_taken _ Hf) as H5.
  - destruct (pp s) eqn:Hp; try done. injection Hs as <-. destruct H2; [done|]. apply scp_fair_spawn; auto.
  - destruct (pp s) eqn:Hp; try done. injection Hs as <-. apply (scp_fair_frame s); simpl; auto; by rewrite Hp.
  - destruct (pp s) eqn:Hp; try done. destruct (running s !! i) as [[]|] eqn:Hr; try done. injection Hs as <-.
    destruct (scp_start_cells i InBody s) as (E1 & E2 & E3). apply (scp_fair_frame s); auto; rewrite ?Hp; try done.
    + intros j. apply scp_untaken_start; auto. by rewrite Hp.
    + intros k Hk. by destruct (scp_start_pp _ _ _ _ Hk).
    + intros k. apply scp_start_taken.
  - destruct (pp s) eqn:Hp; try done. injection Hs as <-. apply (scp_fair_frame s); simpl; auto; rewrite ?Hp; try done.
    intros j [?|[?|?]]; [by left|done..].
  - destruct (pp s) eqn:Hp; try done. injection Hs as <-. apply (scp_fair_frame s); simpl; auto; try done.
    intros j [?|[?|?]]; [by left|done..].
  - injection Hs as <-. by destruct Hf.
  - eapply scp_fair_child; [done| |done]. destruct H2; auto.
  - destruct (pp s) as [| |i| | |] eqn:Hp; try (unfold take_packet in Hs; by rewrite Hp in Hs).
    destruct H2 as [|H2]; [done|]. destruct (scp_fair_packet s i Hf Hp H2) as [E Hf']. rewrite E in Hs. by injection Hs as <-.
  - unfold drop_all in Hs. destruct (pp s) as [| | |u| |] eqn:Hp; try done. destruct (dtors s) as [|[i|d] l] eqn:Hd; injection Hs as <-.
    + apply (scp_fair_frame s); simpl; auto; rewrite ?Hp; try done. intros j [?|[?|?]]; [by left|done..].
    + destruct (scp_start_cells i (InDrop u) (set_dtors l (deferred s) (ran s) s)) as (E1 & E2 & E3).
      apply (scp_fair_frame s); auto; rewrite ?scp_start_unwound, ?Hp; auto.
      * intros j. apply (scp_untaken_start i (InDrop u) s); simpl; auto; [by rewrite Hp|]. right. by rewrite Hp.
      * intros k Hk. by destruct (scp_start_pp _ _ _ _ Hk).
      * intros k. apply scp_start_taken.
    + apply (scp_fair_frame s); simpl; auto; rewrite ?Hp; try done; destruct b, u; try done; by intros j [?|[?|?]]; [left|..].
Qed.

(** ** Properties *)

(** C22. A scope does not outlive its coroutines: unless its own coroutine was
    cancelled, a scope that is left - by returning or by unwinding from a panic of
    its body, of a child or of a destructor - has waited for every child. *)
Theorem scope_waits s u :
  reachable step new s -> cancelled s = false -> pp s = PLeft u -> forall i c, children s !! i = Some c -> c <> None.
Proof.
  intros Hr Hc Hp i c Hi. assert (Hs : safe s /\ chain s).
  { revert s Hr Hc Hp Hi. intros s Hr _ _ _. eapply (reachable_ind_inv step (fun s => safe s /\ chain s)); [..|exact Hr].
    - split; [|by split]. by split.
    - intros s1 e s2 [? ?] Hs. split; [by eapply scp_safe_step|by eapply scp_chain_step]. }
  destruct Hs as [Hs Hch]. destruct (sf_waited _ Hs Hc i c Hi) as [?|[Hj|[_ Hj]]]; [done|by rewrite Hp in Hj|].
  rewrite (ch_left _ Hch u Hp) in Hj. by apply not_elem_of_nil in Hj.
Qed.

(** Errors of children are not lost, and the destructors run in order: in a fair
    run a scope that returns normally has only children that returned normally, the
    [unwrap] in [ScopedJoinHandle::join] finds its packet, and a scope that is left
    has run every deferred closure once, the last one first. *)
Theorem scope_propagates s :
  reachable fair_step new s ->
  (pp s = PLeft false -> forall i c, children s !! i = Some c -> c = Some COk) /\
  (forall i, pp s = PPacket i -> packets s !! i = Some true) /\
  (forall u, pp s = PLeft u -> ran s = rev (deferred s)).
Proof.
  intros Hr. assert (Hs : fair s /\ chain s).
  { eapply (reachable_ind_inv fair_step (fun s => fair s /\ chain s)); [..|exact Hr].
    - split; [|by split]. split; simpl; auto; try done. by right.
    - intros s1 e s2 [? ?] Hs. split; [by eapply scp_fair_step|by eapply scp_chain_step, scp_fair]. }
  destruct Hs as [Hf Hch]. split_and!.
  - intros Hp i c Hi. destruct (fa_waited _ Hf) as [Hu|Hw]; [by rewrite Hp in Hu|].
    destruct (Hw i c Hi) as [?|[Hj|[_ Hj]]]; [done|by rewrite Hp in Hj|].
    rewrite (ch_left _ Hch _ Hp) in Hj. by apply not_elem_of_nil in Hj.
  - intros i Hp. apply (fa_packet _ Hf); [by right; right|by apply Hf].
  - intros u Hp. pose proof (ch_lifo _ Hch) as Hl. rewrite (ch_left _ Hch _ Hp) in Hl. by rewrite app_nil_r in Hl.
Qed.

(** The body waits for its child; the parent is cancelled. *)
Definition cancelled_parent : list event := [Spawn; JoinHandle 0; Cancel; Back CancelPanic false; DropAll false; DropAll false].
(** The same while the body does something else. *)
Definition cancelled_body : list event :=
  [Spawn; Cancel; Panic; DropAll false; Back AtOnce true; DropAll false].

(** Cancelling the parent breaks the guarantee of the documentation ("guaranteed to
    terminate before the current stack frame goes away"): whether the cancellation
    arrives while it waits for the child or elsewhere, the frame is unwound
    while the child that borrows from it is still running. *)
Theorem scope_cancelled_leaves_child :
  Forall (fun es => exists s, run fair_step es new = Some s /\ pp s = PLeft true /\ children s = [None]) [cancelled_parent; cancelled_body].
Proof. repeat constructor; by eexists. Qed.

Definition final (es : list event) : state := default new (run step es new).
(** Two children, one joined by hand, one by the chain, around a deferred closure. *)
Definition demo_scope : list event :=
  [Spawn; Defer 5; Spawn; ChildEnd 1 COk; JoinHandle 1; Back Result false; Packet; Return] ++
  [DropAll false; DropAll false; DropAll false; ChildEnd 0 COk; Back Result false; DropAll false].
(** A child panics: the scope unwinds, after the other child. *)
Definition demo_panic : list event :=
  [Spawn; Spawn; Return; ChildEnd 1 CPanic; DropAll false; Back Result false; DropAll false; ChildEnd 0 COk; Back Result true; DropAll false].

Example scope_demo_results :
  map (fun es => (pp (final es), children (final es), ran (final es))) [demo_scope; demo_panic] =
  [(PLeft false, [Some COk; Some COk], [5]); (PLeft true, [Some COk; Some CPanic], [])].
Proof. by vm_compute. Qed.

Lemma scope_waits_witness :
  children (final demo_panic) !! 0 = Some (Some COk) /\ forall i c, children (final demo_panic) !! i = Some c -> c <> None.
Proof.
  split; [vm_compute; reflexivity|].
  apply (scope_waits _ true); [|vm_compute; reflexivity..]. apply run_reachable with (es := demo_panic). vm_compute. reflexivity.
Defined.

Lemma scope_propagates_witness :
  let s := final demo_scope in
  (pp s = PLeft false -> forall i c, children s !! i = Some c -> c = Some COk) /\
  (forall i, pp s = PPacket i -> packets s !! i = Some true) /\ (forall u, pp s = PLeft u -> ran s = rev (deferred s)).
Proof. apply scope_propagates. apply run_reachable with (es := demo_scope). vm_compute. reflexivity. Defined.

End Scp.
