(* ===== verification/Cqueue.v ===== *)
(** * Cqueue: the event queue of [select]

    [src/cqueue.rs]: select coroutines push events into a queue that one poller
    drains.  A [Normal] event carries the suspended coroutine, whose bottom half the
    poller runs itself; a [Done] event says that the coroutine has finished.  The
    machine interleaves the poller (also in [add], and in [Drop]), the select
    coroutines, and the [subscribe] calls that are still running after their event was
    pushed.  The queue is a FIFO ([Fifo], refined by [MpscQueue]) and the poller
    waits as [Slot] describes. *)

From stdpp Require Import base numbers list.
From Stdlib Require Import ZArith Lia.
From S2P Require Import Prelude Fifo Slot.

Module Cq.

Inductive EventKind := Normal | Done.
#[global] Instance EventKind_eq_dec : EqDecision EventKind.
Proof. solve_decision. Defined.
Inductive PollError := Timeout | Finished.

(** [co]: the suspended coroutine the event carries. *)
Record Event := Ev { token : nat; extra : nat; id : nat; kind : EventKind; co : option nat }.

(** How a select coroutine ends. *)
Inductive ended := COk | CPanic | CCancel.

(** A select coroutine; [h]: the poller runs it, in [continue_bottom].  From
    [CDPush] on it is in the [Drop] of its [EventSender]. *)
Inductive cpc :=
  | CRun (h : bool) | CBlocked
  | CExtra (h : bool) (x : nat) | CYield (h : bool) | CPush (h : bool) | CSusp
  | CDPush (h : bool) (r : ended) | CDSub (h : bool) (r : ended) | CDTake (h : bool) (r : ended)
  | CDWake (k : nat) (h : bool) (r : ended) | CTrigger (h : bool) (r : ended) | CEnd (r : ended).
(** With its [EventSender]. *)
Record sel := Sel { s_id : nat; s_token : nat; s_extra : nat; canceled : bool; pc : cpc }.
(** A [subscribe] after its push. *)
Inductive kpc := KTake (h : bool) | KWake (k : nat) (h : bool) | KEnd.

(** Who polls: the user, with or without a timeout, or [Drop]; [u]: it unwinds. *)
Inductive caller := User (t : bool) | InDrop (u : bool).
Inductive polled := PollOk (e : Event) | PollErr (e : PollError) | PollPanic.
(** The poller.  [PBroken]: a failed [expect], or a coroutine resumed twice;
    [PFreed]: the queue is gone, [b] by a panic in its [Drop]. *)
Inductive ppc :=
  | PIdle | PSpawn (i tok : nat) | PCnt | PTotal | PSel
  | PPop (c : caller) | PCount (c : caller) | PStore (c : caller) | PRe (c : caller) (k : nat)
  | PPark (c : caller) (k : nat) | PTime (c : caller) | PClear (c : caller) (e : Event) | PEvent (c : caller) (e : Event)
  | PJoin (c : caller) (i : nat) | PBottom (c : caller) (e : Event) | PReady (r : polled)
  | PCancel (u : bool) (i : nat) | PFreed (b : bool) | PAbort | PBroken.

(** [poisoned]: the lock of the selectors; [handles]: which of them are still there. *)
Record Cqueue := St {
  ev_queue : list Event; slot : Slot.t; cnt : Z; total : nat; handles : list bool; is_panicking : bool; poisoned : bool;
  sels : list sel; kers : list kpc; pp : ppc
}.

Definition new : Cqueue := St [] Slot.new 0 0 [] false false [] [] PIdle.

Definition set_q (l : list Event) (s : Cqueue) : Cqueue :=
  St l (slot s) (cnt s) (total s) (handles s) (is_panicking s) (poisoned s) (sels s) (kers s) (pp s).
Definition set_slot (l : Slot.t) (s : Cqueue) : Cqueue :=
  St (ev_queue s) l (cnt s) (total s) (handles s) (is_panicking s) (poisoned s) (sels s) (kers s) (pp s).
Definition set_cnt (c : Z) (s : Cqueue) : Cqueue :=
  St (ev_queue s) (slot s) c (total s) (handles s) (is_panicking s) (poisoned s) (sels s) (kers s) (pp s).
Definition set_total (n : nat) (l : list bool) (s : Cqueue) : Cqueue :=
  St (ev_queue s) (slot s) (cnt s) n l (is_panicking s) (poisoned s) (sels s) (kers s) (pp s).
Definition set_panicking (s : Cqueue) : Cqueue :=
  St (ev_queue s) (slot s) (cnt s) (total s) (handles s) true true (sels s) (kers s) (pp s).
Definition set_sels (l : list sel) (s : Cqueue) : Cqueue :=
  St (ev_queue s) (slot s) (cnt s) (total s) (handles s) (is_panicking s) (poisoned s) l (kers s) (pp s).
Definition set_kers (l : list kpc) (s : Cqueue) : Cqueue :=
  St (ev_queue s) (slot s) (cnt s) (total s) (handles s) (is_panicking s) (poisoned s) (sels s) l (pp s).
Definition set_pp (x : ppc) (s : Cqueue) : Cqueue :=
  St (ev_queue s) (slot s) (cnt s) (total s) (handles s) (is_panicking s) (poisoned s) (sels s) (kers s) x.

Definition at_pc (x : cpc) (c : sel) : sel := Sel (s_id c) (s_token c) (s_extra c) (canceled c) x.
Definition set_sel (i : nat) (c : sel) (s : Cqueue) : Cqueue := set_sels (<[i := c]> (sels s)) s.

(** Where [poll] returns to: the user, or the loop of [Drop].  A panic leaves the
    [Drop], and aborts the process when the thread already unwinds. *)
Definition returns (c : caller) (r : polled) : ppc :=
  match c, r with
  | User _, _ => PReady r
  | InDrop u, PollOk _ => PPop (InDrop u)
  | InDrop u, PollErr Finished => PFreed false
  | InDrop u, _ => if u then PAbort else PFreed true
  end.
(** A run of a coroutine ends: [run_coroutine] returns to the poller if it was its. *)
Definition slice_end (h : bool) (s : Cqueue) : Cqueue :=
  match h, pp s with true, PBottom c e => set_pp (returns c (PollOk e)) s | _, _ => s end.

(** ** The select coroutines *)

(** [EventSender::send] with [yield_with]; [p]: [thread::panicking()]. *)
Definition send (i : nat) (c : sel) (s : Cqueue) : option Cqueue :=
  match pc c with
  | CExtra h x => Some (set_sel i (Sel (s_id c) (s_token c) x (canceled c) (CYield h)) s)
  | CYield h => Some (set_sel i (at_pc (if canceled c then CRun h else CPush h) c) s)
  | _ => None
  end.
Definition start_send (i x : nat) (p : bool) (c : sel) (s : Cqueue) : option Cqueue :=
  match pc c with
  | CRun h => Some (set_sel i (at_pc (if canceled c && negb p then CDPush h CCancel else CExtra h x) c) s)
  | _ => None
  end.
(** [EventSource::subscribe]: the push, and what the thread that ran the coroutine does next. *)
Definition subscribe (i : nat) (c : sel) (s : Cqueue) : option Cqueue :=
  match pc c with
  | CPush h =>
      let e := Ev (s_token c) (s_extra c) (s_id c) Normal (Some i) in
      Some (set_kers (kers s ++ [KTake h]) (set_sel i (at_pc CSusp c) (set_q (Fifo.push e (ev_queue s)) s)))
  | _ => None
  end.
Definition subscribe_wake (j : nat) (x : kpc) (s : Cqueue) : option Cqueue :=
  match x with
  | KTake h =>
      Some (match Slot.to_wake (slot s) with
            | Some k => set_kers (<[j := KWake k h]> (kers s)) (set_slot (Slot.take (slot s)) s)
            | None => slice_end h (set_kers (<[j := KEnd]> (kers s)) (set_slot (Slot.take (slot s)) s))
            end)
  | KWake k h => Some (slice_end h (set_kers (<[j := KEnd]> (kers s)) (set_slot (Slot.unpark k (slot s)) s)))
  | KEnd => None
  end.
(** [Drop for EventSender], and the end of the coroutine ([Join]). *)
Definition drop_sender (i : nat) (c : sel) (s : Cqueue) : option Cqueue :=
  match pc c with
  | CDPush h r =>
      let e := Ev (s_token c) (s_extra c) (s_id c) Done None in
      Some (set_sel i (at_pc (CDSub h r) c) (set_q (Fifo.push e (ev_queue s)) s))
  | CDSub h r => Some (set_sel i (at_pc (CDTake h r) c) (set_cnt (Word.sub (cnt s) 1) s))
  | CDTake h r =>
      let y := match Slot.to_wake (slot s) with Some k => CDWake k h r | None => CTrigger h r end in
      Some (set_sel i (at_pc y c) (set_slot (Slot.take (slot s)) s))
  | CDWake k h r => Some (set_sel i (at_pc (CTrigger h r) c) (set_slot (Slot.unpark k (slot s)) s))
  | CTrigger h r => Some (slice_end h (set_sel i (at_pc (CEnd r) c) s))
  | _ => None
  end.

(** ** The poller *)

(** [add_impl]. *)
Definition add_impl (x : ppc) (s : Cqueue) : option Cqueue :=
  match x with
  | PSpawn i tok => Some (set_pp PCnt (set_sels (sels s ++ [Sel i tok 0 false (CRun false)]) s))
  | PCnt => Some (set_pp PTotal (set_cnt (Word.add (cnt s) 1) s))
  | PTotal => Some (set_pp PSel (set_total (S (total s)) (handles s) s))
  | PSel => Some (set_pp PIdle (set_total (total s) (handles s ++ [true]) s))
  | _ => None
  end.
(** [check_panic] up to the [join], which is one step from the end of the select on:
    the poller is not cancelled in it. *)
Definition check_panic (c : caller) (i : nat) (s : Cqueue) : Cqueue :=
  if is_panicking s then set_pp (PPop c) s
  else match handles s !! i with
       | Some true => set_pp (PJoin c i) (set_total (total s) (<[i := false]> (handles s)) s)
       | _ => set_pp PBroken s
       end.
(** The rest of [check_panic]: the guard of the lock is alive while it rethrows. *)
Definition joined (c : caller) (r : ended) (s : Cqueue) : Cqueue :=
  match r with CPanic => set_pp (returns c PollPanic) (set_panicking s) | _ => set_pp (PPop c) s end.
(** [run_ev!] with [continue_bottom]. *)
Definition run_ev (c : caller) (e : Event) (s : Cqueue) : Cqueue :=
  match kind e, co e with
  | Done, _ => check_panic c (id e) s
  | Normal, Some i =>
      match sels s !! i with
      | Some x => match pc x with CSusp => set_pp (PBottom c e) (set_sel i (at_pc (CRun true) x) s) | _ => set_pp PBroken s end
      | None => set_pp PBroken s
      end
  | Normal, None => set_pp (returns c (PollOk e)) s
  end.
(** [poll]; [b]: the deadline has passed. *)
Definition poll (b : bool) (x : ppc) (s : Cqueue) : option Cqueue :=
  match x with
  | PPop c =>
      Some (match Fifo.pop (ev_queue s) with (Some e, l) => set_pp (PEvent c e) (set_q l s) | (None, _) => set_pp (PCount c) s end)
  | PCount c => Some (set_pp (if (cnt s =? 0)%Z then returns c (PollErr Finished) else PStore c) s)
  | PStore c => Some (set_pp (PRe c (Slot.next (slot s))) (set_slot (Slot.store (slot s)) s))
  | PRe c k =>
      Some (match Fifo.pop (ev_queue s) with (Some e, l) => set_pp (PClear c e) (set_q l s) | (None, _) => set_pp (PPark c k) s end)
  | PClear c e => Some (set_pp (PEvent c e) (set_slot (Slot.take (slot s)) s))
  | PEvent c e => Some (run_ev c e s)
  | PJoin c i => match sels s !! i with Some x => match pc x with CEnd r => Some (joined c r s) | _ => None end | None => None end
  | PTime c => Some (set_pp (match c with User true => if b then PReady (PollErr Timeout) else PPop c | _ => PPop c end) s)
  | _ => None
  end.
(** [cur.park(timeout).ok()]; a thread that unwinds is not cancelled. *)
Definition park (o : Slot.parked) (x : ppc) (s : Cqueue) : option Cqueue :=
  match x with
  | PPark c k =>
      match o, c with
      | Slot.PPanic, InDrop true => None
      | _, _ =>
          let y := match o with Slot.PPanic => returns c PollPanic | _ => PTime c end in
          match Slot.park o k (slot s) with Some l => Some (set_pp y (set_slot l s)) | None => None end
      end
  | _ => None
  end.
Definition is_done (c : sel) : bool := match pc c with CEnd _ => true | _ => false end.
Definition cancel (c : sel) : sel := Sel (s_id c) (s_token c) (s_extra c) true (pc c).
(** [Drop for Cqueue]: [PCancel u i] is at the [i]th handle. *)
Definition drop_cqueue (x : ppc) (s : Cqueue) : option Cqueue :=
  match x with
  | PCancel u i =>
      if poisoned s then Some (set_pp (if u then PAbort else PFreed true) s)
      else match handles s !! i, sels s !! i with
           | Some b, Some c => Some (set_pp (PCancel u (S i)) (if b && negb (is_done c) then set_sel i (cancel c) s else s))
           | _, _ => Some (set_pp (PPop (InDrop u)) s)
           end
  | _ => None
  end.

(** What the code of a select coroutine does next. *)
Inductive act := ASend (x : nat) (p : bool) | ABlock | AResume | AEnd (r : ended) | ATick.
Definition select (i : nat) (a : act) (c : sel) (s : Cqueue) : option Cqueue :=
  match a, pc c with
  | ASend x p, _ => start_send i x p c s
  | ABlock, CRun h => Some (slice_end h (set_sel i (at_pc CBlocked c) s))
  | AResume, CBlocked => Some (set_sel i (at_pc (CRun false) c) s)
  | AEnd r, CRun h => match r with CCancel => if canceled c then Some (set_sel i (at_pc (CDPush h r) c) s) else None
                                | _ => Some (set_sel i (at_pc (CDPush h r) c) s) end
  | ATick, CPush _ => subscribe i c s
  | ATick, (CExtra _ _ | CYield _) => send i c s
  | ATick, _ => drop_sender i c s
  | _, _ => None
  end.

Definition at_home (x : ppc) : bool := match x with PIdle | PReady _ => true | _ => false end.
Definition gone (x : ppc) : bool := match x with PFreed _ | PAbort | PBroken => true | _ => false end.

Inductive event :=
  | Add (tok : nat) | Poll (t : bool) | Drop (u : bool) | Remove (i : nat)
  | P (b : bool) | Park (o : Slot.parked) | C (i : nat) (a : act) | K (j : nat).

(** Nothing is defined once the queue is gone. *)
Definition step (s : Cqueue) (e : event) : option Cqueue :=
  if gone (pp s) then None else
  match e with
  | Add tok => if at_home (pp s) then Some (set_pp (PSpawn (total s) tok) s) else None
  | Poll t => if at_home (pp s) then Some (set_pp (PPop (User t)) s) else None
  | Drop u => if at_home (pp s) then Some (set_pp (PCancel u 0) s) else None
  | Remove i => match sels s !! i with Some c => Some (set_sel i (cancel c) s) | None => None end
  | P b =>
      match pp s with
      | PSpawn _ _ | PCnt | PTotal | PSel => add_impl (pp s) s
      | PCancel _ _ => drop_cqueue (pp s) s
      | _ => poll b (pp s) s
      end
  | Park o => park o (pp s) s
  | C i a => match sels s !! i with Some c => select i a c s | None => None end
  | K j => match kers s !! j with Some x => subscribe_wake j x s | None => None end
  end.

(** ** The invariant *)

Definition uncounted (x : ppc) : bool := match x with PCnt => true | _ => false end.
Definition untotalled (x : ppc) : bool := match x with PCnt | PTotal => true | _ => false end.
Definition unhandled (x : ppc) : bool := match x with PCnt | PTotal | PSel => true | _ => false end.
Definition adding (x : ppc) : bool := match x with PSpawn _ _ | PCnt | PTotal | PSel => true | _ => false end.
Definition held (x : ppc) : list Event := match x with PClear _ e | PEvent _ e => [e] | _ => [] end.
Definition registered (x : ppc) : option nat := match x with PRe _ k | PPark _ k => Some k | _ => None end.
Definition parked (x : ppc) : option nat := match x with PPark _ k => Some k | _ => None end.
Definition will_park (x : ppc) : bool := match x with PStore _ | PRe _ _ | PPark _ _ => true | _ => false end.
Definition finished (x : ppc) : bool := match x with PReady (PollErr Finished) | PFreed false => true | _ => false end.
Definition joining (x : ppc) : option nat := match x with PJoin _ i => Some i | _ => None end.

(** A select coroutine before the decrement of the counter, after its [Done] event. *)
Definition counted (x : cpc) : bool := match x with CDTake _ _ | CDWake _ _ _ | CTrigger _ _ | CEnd _ => false | _ => true end.
Definition past (x : cpc) : bool := match x with CDSub _ _ => true | _ => negb (counted x) end.
Definition is_susp (x : cpc) : bool := match x with CSusp => true | _ => false end.
Definition is_end (x : cpc) : bool := match x with CEnd _ => true | _ => false end.
Definition sel_taking (c : sel) : bool := match pc c with CDSub _ _ | CDTake _ _ => true | _ => false end.
Definition sel_waking (k : nat) (c : sel) : bool := match pc c with CDWake i _ _ => i =? k | _ => false end.
Definition ker_taking (x : kpc) : bool := match x with KTake _ => true | _ => false end.
Definition ker_waking (k : nat) (x : kpc) : bool := match x with KWake i _ => i =? k | _ => false end.

Definition alive (s : Cqueue) : Z := zsum (fun c => b2z (counted (pc c))) (sels s).
Definition wakes (s : Cqueue) (k : nat) : Prop := has (sel_waking k) (sels s) \/ has (ker_waking k) (kers s).
Definition takes (s : Cqueue) : Prop := has sel_taking (sels s) \/ has ker_taking (kers s).
Definition notified (k : nat) (s : Cqueue) : Prop := Slot.notified (wakes s) k (slot s).

(** The events pushed and not yet processed. *)
Definition inflight (s : Cqueue) : list Event := held (pp s) ++ ev_queue s.
Definition nev (f : Event -> bool) (l : list Event) : Z := zsum (fun e => b2z (f e)) l.
Definition normal_of (i : nat) (e : Event) : bool := match kind e, co e with Normal, Some j => j =? i | _, _ => false end.
Definition done_of (i : nat) (e : Event) : bool := match kind e with Done => id e =? i | Normal => false end.

(** A [Normal] event carries a suspended coroutine and what it sent. *)
Definition event_ok (l : list sel) (e : Event) : Prop :=
  match kind e with
  | Normal => exists i c, co e = Some i /\ l !! i = Some c /\ pc c = CSusp /\ id e = i /\ token e = s_token c /\ extra e = s_extra c
  | Done => co e = None /\ id e < length l
  end.
Definition flight (i : nat) (c : sel) (s : Cqueue) : Prop :=
  nev (normal_of i) (inflight s) = b2z (is_susp (pc c)) /\
  (nev (done_of i) (inflight s) = 0%Z \/
   (nev (done_of i) (inflight s) = 1%Z /\ past (pc c) = true /\ handles s !! i <> Some false)) /\
  (is_panicking s = false -> past (pc c) = true ->
   is_end (pc c) = true \/ nev (done_of i) (inflight s) = 1%Z \/ joining (pp s) = Some i) /\
  (handles s !! i = Some false -> past (pc c) = true).

Record inv (s : Cqueue) : Prop := {
  iv_cnt : cnt s = Word.wrap (alive s - b2z (uncounted (pp s)));
  iv_total : total s + (if untotalled (pp s) then 1 else 0) = length (sels s);
  iv_handles : length (handles s) + (if unhandled (pp s) then 1 else 0) = length (sels s);
  iv_spawn : forall i tok, pp s = PSpawn i tok -> i = length (sels s);
  iv_ids : forall i c, sels s !! i = Some c -> s_id c = i;
  iv_flight : forall i c, sels s !! i = Some c -> flight i c s;
  iv_events : forall e, e ∈ inflight s -> event_ok (sels s) e;
  iv_slot : Slot.ok (registered (pp s)) (wakes s) (slot s);
  iv_data : forall k, parked (pp s) = Some k -> ev_queue s <> [] -> notified k s \/ takes s;
  iv_live : is_panicking s = false -> will_park (pp s) = true -> alive s <> 0%Z \/ ev_queue s <> [];
  iv_fin : (Z.of_nat (length (sels s)) <= Word.usize_max)%Z -> finished (pp s) = true -> alive s = 0%Z;
  iv_ok : pp s <> PBroken
}.

Lemma cq_returns c r :
  registered (returns c r) = None /\ parked (returns c r) = None /\ held (returns c r) = [] /\ adding (returns c r) = false /\
  will_park (returns c r) = false /\ joining (returns c r) = None /\ returns c r <> PBroken /\
  (finished (returns c r) = true -> r = PollErr Finished).
Proof. by destruct c as [|[]], r as [|[]|]. Qed.
Lemma cq_adding x : adding x = false -> uncounted x = false /\ untotalled x = false /\ unhandled x = false /\ forall i t, x <> PSpawn i t.
Proof. by destruct x. Qed.
Lemma cq_parked x k : parked x = Some k -> registered x = Some k /\ will_park x = true.
Proof. by destruct x. Qed.

(** ** The poller moves

    Outside [add]: the coroutines, the counters and the events in flight stay. *)
Lemma cq_inv_pp s y s' :
  inv s -> adding (pp s) = false -> adding y = false -> pp s' = y ->
  sels s' = sels s -> kers s' = kers s -> cnt s' = cnt s -> total s' = total s -> handles s' = handles s ->
  is_panicking s' = is_panicking s -> inflight s' = inflight s ->
  (forall i, joining (pp s) = Some i -> joining y = Some i \/ (forall c, sels s !! i = Some c -> is_end (pc c) = true)) ->
  (forall k, registered y = Some k -> (registered (pp s) = Some k /\ slot s' = slot s) \/ (k = Slot.next (slot s) /\ slot s' = Slot.store (slot s))) ->
  (parked y <> None -> ev_queue s' = []) ->
  (is_panicking s = false -> will_park y = true -> alive s <> 0%Z \/ ev_queue s' <> []) ->
  ((Z.of_nat (length (sels s)) <= Word.usize_max)%Z -> finished y = true -> alive s = 0%Z) -> y <> PBroken -> inv s'.
Proof.
  intros [H1 H2 H3 H4 H5 H6 H7 H8 H9 H10 H11 H12] Ha Hy Ep Es Ek Ec Et Eh Eg El Hj Hr Hp Hw Hf Hb.
  destruct (cq_adding _ Ha) as (A1 & A2 & A3 & A4). destruct (cq_adding _ Hy) as (B1 & B2 & B3 & B4).
  split; unfold alive, notified, takes, wakes in *; rewrite ?Ep, ?Es, ?Ek, ?Ec, ?Et, ?Eh, ?Eg, ?El, ?B1, ?B2, ?B3; auto.
  - by rewrite A1 in H1.
  - by rewrite A2 in H2.
  - by rewrite A3 in H3.
  - intros i tok Hi. by destruct (B4 i tok).
  - intros i c Hi. destruct (H6 i c Hi) as (F1 & F2 & F3 & F4). unfold flight. rewrite El, Eh, Eg, Ep. split_and!; [done..| |done].
    intros Hg Hpast. destruct (F3 Hg Hpast) as [?|[?|Hij]]; [by left|by right; left|].
    destruct (Hj i Hij) as [?|He]; [by right; right|left; auto].
  - intros k Hk. destruct (Hr k Hk) as [[Hrk ->]|[-> ->]]; [by apply H8|]. by apply Slot.slot_store.
  - intros k Hk Hq. destruct Hq. apply Hp. by rewrite Hk.
Qed.

(** ** A select coroutine moves *)

Lemma cq_event_insert l i c c' e :
  l !! i = Some c -> (pc c = CSusp -> pc c' = CSusp /\ s_token c' = s_token c /\ s_extra c' = s_extra c) ->
  event_ok l e -> event_ok (<[i := c']> l) e.
Proof.
  intros Hi Hc. unfold event_ok. destruct (kind e); rewrite ?length_insert; [|done].
  intros (j & d & Hco & Hj & Hs & Hid & Ht & Hx). exists j. destruct (decide (j = i)) as [->|Hne].
  - assert (d = c) as -> by congruence. destruct (Hc Hs) as (? & ? & ?). exists c'. split_and!; [done| |congruence..].
    apply list_lookup_insert_eq. by eapply lookup_lt_Some.
  - exists d. by rewrite list_lookup_insert_ne.
Qed.

Lemma cq_flight_other s s' j d :
  inflight s' = inflight s -> handles s' = handles s -> is_panicking s' = is_panicking s -> pp s' = pp s -> flight j d s -> flight j d s'.
Proof. unfold flight. by intros -> -> -> ->. Qed.

(** The queue, the counter and the poller stay. *)
Lemma cq_inv_sel s i c c' s' :
  inv s -> sels s !! i = Some c -> sels s' = <[i := c']> (sels s) ->
  ev_queue s' = ev_queue s -> cnt s' = cnt s -> total s' = total s -> handles s' = handles s ->
  is_panicking s' = is_panicking s -> pp s' = pp s ->
  s_id c' = s_id c -> is_susp (pc c') = is_susp (pc c) -> past (pc c') = past (pc c) -> counted (pc c') = counted (pc c) ->
  (is_end (pc c) = true -> is_end (pc c') = true) ->
  (pc c = CSusp -> pc c' = CSusp /\ s_token c' = s_token c /\ s_extra c' = s_extra c) ->
  Slot.ok (registered (pp s)) (wakes s') (slot s') ->
  (forall k, parked (pp s) = Some k -> notified k s \/ takes s -> notified k s' \/ takes s') -> inv s'.
Proof.
  intros [H1 H2 H3 H4 H5 H6 H7 H8 H9 H10 H11 H12] Hc Es Eq Ec Et Eh Eg Ep Ci Cs Cp Cc Ce Ck Hsl Hd.
  assert (Ei : inflight s' = inflight s) by (unfold inflight; by rewrite Ep, Eq).
  assert (Ea : alive s' = alive s) by (unfold alive; rewrite Es, (zsum_insert _ _ _ _ _ Hc), Cc; lia).
  split; rewrite ?Ec, ?Et, ?Eh, ?Eg, ?Ep, ?Ea, ?Ei, ?Eq; rewrite ?Es, ?length_insert; auto.
  - intros j d [(<- & -> & _)|[_ Hj]]%lookup_insert_list; [rewrite Ci|]; auto.
  - intros j d [(<- & -> & _)|[_ Hj]]%lookup_insert_list; (eapply (cq_flight_other s); [done..|]); [|auto].
    destruct (H6 i c Hc) as (F1 & F2 & F3 & F4). unfold flight. rewrite Cs, Cp. split_and!; [done..| |done].
    intros Hg Hpast. destruct (F3 Hg Hpast); auto.
  - intros e He. eapply cq_event_insert; eauto.
Qed.

(** [wakes] and [takes] when [i] moves. *)
Lemma cq_wakes_sel s i c c' s' k :
  sels s !! i = Some c -> sels s' = <[i := c']> (sels s) -> kers s' = kers s -> (sel_waking k c = true -> sel_waking k c' = true) ->
  wakes s k -> wakes s' k.
Proof. unfold wakes. intros Hi -> -> Hk [H|H]; [left; by eapply has_insert_keep|by right]. Qed.
Lemma cq_takes_sel s i c c' s' :
  sels s !! i = Some c -> sels s' = <[i := c']> (sels s) -> kers s' = kers s -> (sel_taking c = true -> sel_taking c' = true) ->
  takes s -> takes s'.
Proof. unfold takes. intros Hi -> -> Hk [H|H]; [left; by eapply has_insert_keep|by right]. Qed.

(** Nothing but the coroutine changes. *)
Lemma cq_inv_move s i c c' :
  inv s -> sels s !! i = Some c -> s_id c' = s_id c -> is_susp (pc c') = is_susp (pc c) -> past (pc c') = past (pc c) ->
  counted (pc c') = counted (pc c) -> (is_end (pc c) = true -> is_end (pc c') = true) ->
  (pc c = CSusp -> pc c' = CSusp /\ s_token c' = s_token c /\ s_extra c' = s_extra c) ->
  (forall k, sel_waking k c = true -> sel_waking k c' = true) -> (sel_taking c = true -> sel_taking c' = true) ->
  inv (set_sel i c' s).
Proof.
  intros Hi Hc ? ? ? ? ? ? Hw Ht. assert (W : forall k, wakes s k -> wakes (set_sel i c' s) k) by (intros k; apply (cq_wakes_sel s i c c'); auto).
  eapply (cq_inv_sel s i c c'); try done.
  - apply (Slot.slot_mono (wakes s)); [done|apply Hi].
  - intros k _ [Hn|Hn]; [left|right; by apply (cq_takes_sel s i c c')]. revert Hn. apply Slot.slot_notified_mono, W.
Qed.

Lemma cq_inv_cancel s i c : inv s -> sels s !! i = Some c -> inv (set_sel i (cancel c) s).
Proof. intros Hi Hc. by eapply cq_inv_move. Qed.

(** The coroutine takes the poller's blocker, or unparks it. *)
Lemma cq_inv_sel_take s i c h r y :
  inv s -> sels s !! i = Some c -> pc c = CDTake h r ->
  y = match Slot.to_wake (slot s) with Some k => CDWake k h r | None => CTrigger h r end ->
  inv (set_sel i (at_pc y c) (set_slot (Slot.take (slot s)) s)).
Proof.
  intros Hi Hc Hp Hy. set (s' := set_sel i (at_pc y c) (set_slot (Slot.take (slot s)) s)).
  assert (W : forall k, wakes s k -> wakes s' k).
  { intros k. eapply cq_wakes_sel; [done..|]. unfold sel_waking. by rewrite Hp. }
  assert (W' : forall k, Slot.to_wake (slot s) = Some k -> wakes s' k).
  { intros k Hk. left. eapply has_insert_new; [done|]. unfold sel_waking. simpl. subst y. rewrite Hk. apply Nat.eqb_refl. }
  eapply (cq_inv_sel s i c (at_pc y c)); try done; simpl; rewrite ?Hp; subst y; try (by destruct (Slot.to_wake _)); try done.
  - apply (Slot.slot_take (wakes s)); [apply Hi|done..].
  - intros k [Hk _]%cq_parked _. left. eapply (Slot.slot_take_notified (wakes s)); [apply Hi|done..].
Qed.
Lemma cq_inv_sel_unpark s i c k h r :
  inv s -> sels s !! i = Some c -> pc c = CDWake k h r -> inv (set_sel i (at_pc (CTrigger h r) c) (set_slot (Slot.unpark k (slot s)) s)).
Proof.
  intros Hi Hc Hp. set (s' := set_sel i (at_pc (CTrigger h r) c) (set_slot (Slot.unpark k (slot s)) s)).
  assert (W : forall j, j <> k -> wakes s j -> wakes s' j).
  { intros j Hne. eapply cq_wakes_sel; [done..|]. unfold sel_waking. rewrite Hp. intros ->%Nat.eqb_eq. done. }
  eapply (cq_inv_sel s i c (at_pc (CTrigger h r) c)); try done; simpl; rewrite ?Hp; try done.
  - apply (Slot.slot_unpark (wakes s)); [apply Hi|done].
  - intros j [Hj _]%cq_parked [Hn|Hn]; [left|right].
    + eapply (Slot.slot_unpark_notified (wakes s)); [by apply (iv_slot _ Hi)|apply W|done].
    + eapply cq_takes_sel; [done..| |done]. unfold sel_taking. by rewrite Hp.
Qed.

(** The same for a [subscribe] that is still running. *)
Lemma cq_inv_ker s j x y s' :
  inv s -> kers s !! j = Some x -> kers s' = <[j := y]> (kers s) -> sels s' = sels s ->
  ev_queue s' = ev_queue s -> cnt s' = cnt s -> total s' = total s -> handles s' = handles s ->
  is_panicking s' = is_panicking s -> pp s' = pp s ->
  Slot.ok (registered (pp s)) (wakes s') (slot s') ->
  (forall k, parked (pp s) = Some k -> notified k s \/ takes s -> notified k s' \/ takes s') -> inv s'.
Proof.
  intros [H1 H2 H3 H4 H5 H6 H7 H8 H9 H10 H11 H12] Hx Ek Es Eq Ec Et Eh Eg Ep Hsl Hd.
  assert (Ei : inflight s' = inflight s) by (unfold inflight; by rewrite Ep, Eq).
  assert (Ea : alive s' = alive s) by (unfold alive; by rewrite Es).
  split; rewrite ?Ec, ?Et, ?Eh, ?Eg, ?Ep, ?Ea, ?Ei, ?Eq; rewrite ?Es; auto.
  intros i c Hi. eapply (cq_flight_other s); auto.
Qed.
Lemma cq_inv_ker_take s j h y :
  inv s -> kers s !! j = Some (KTake h) -> y = match Slot.to_wake (slot s) with Some k => KWake k h | None => KEnd end ->
  inv (set_kers (<[j := y]> (kers s)) (set_slot (Slot.take (slot s)) s)).
Proof.
  intros Hi Hx Hy. set (s' := set_kers (<[j := y]> (kers s)) (set_slot (Slot.take (slot s)) s)).
  assert (W : forall k, wakes s k -> wakes s' k) by (intros k [?|?]; [by left|right; by eapply has_insert_other]).
  assert (W' : forall k, Slot.to_wake (slot s) = Some k -> wakes s' k).
  { intros k Hk. right. eapply has_insert_new; [done|]. subst y. rewrite Hk. apply Nat.eqb_refl. }
  eapply (cq_inv_ker s j _ y); try done.
  - apply (Slot.slot_take (wakes s)); [apply Hi|done..].
  - intros k [Hk _]%cq_parked _. left. eapply (Slot.slot_take_notified (wakes s)); [apply Hi|done..].
Qed.
Lemma cq_inv_ker_unpark s j k h :
  inv s -> kers s !! j = Some (KWake k h) -> inv (set_kers (<[j := KEnd]> (kers s)) (set_slot (Slot.unpark k (slot s)) s)).
Proof.
  intros Hi Hx. set (s' := set_kers (<[j := KEnd]> (kers s)) (set_slot (Slot.unpark k (slot s)) s)).
  assert (W : forall i, i <> k -> wakes s i -> wakes s' i).
  { intros i Hne [?|?]; [by left|right; eapply has_insert_other; [done..|]]. by apply Nat.eqb_neq. }
  eapply (cq_inv_ker s j _ KEnd); try done.
  - apply (Slot.slot_unpark (wakes s)); [apply Hi|done].
  - intros i [Hk _]%cq_parked [Hn|Hn]; [left|right].
    + eapply (Slot.slot_unpark_notified (wakes s)); [by apply (iv_slot _ Hi)|apply W|done].
    + destruct Hn as [?|?]; [by left|right; by eapply has_insert_other].
Qed.

(** ** Pushing an event *)

Lemma nev_snoc f l e : nev f (l ++ [e]) = (nev f l + b2z (f e))%Z.
Proof. unfold nev. rewrite zsum_app. simpl. lia. Qed.
Lemma nev_zero f l : (forall e, e ∈ l -> f e = false) -> nev f l = 0%Z.
Proof. intros H. apply zsum_all_zero. intros j e He%list_elem_of_lookup_2. by rewrite H. Qed.
Lemma nev_pos f l : nev f l <> 0%Z -> exists e, e ∈ l /\ f e = true.
Proof.
  intros (j & e & He & Hf)%zsum_nonzero. exists e. split; [by eapply list_elem_of_lookup_2|]. by destruct (f e).
Qed.

(** A coroutine, which has no event yet, pushes [e] and goes on to take the blocker. *)
Lemma cq_inv_push s i c y e s' :
  inv s -> sels s !! i = Some c -> sels s' = <[i := at_pc y c]> (sels s) -> ev_queue s' = Fifo.push e (ev_queue s) ->
  cnt s' = cnt s -> total s' = total s -> handles s' = handles s -> is_panicking s' = is_panicking s -> pp s' = pp s -> slot s' = slot s ->
  is_susp (pc c) = false -> past (pc c) = false -> counted y = counted (pc c) ->
  (forall j, j <> i -> normal_of j e = false /\ done_of j e = false) ->
  normal_of i e = is_susp y -> done_of i e = past y -> event_ok (sels s') e ->
  (forall k, wakes s k -> wakes s' k) -> takes s' -> inv s'.
Proof.
  intros [H1 H2 H3 H4 H5 H6 H7 H8 H9 H10 H11 H12] Hc Es Eq Ec Et Eh Eg Ep El Cs Cp Cc Ho Hn Hd He Hw Ht.
  assert (Ei : inflight s' = inflight s ++ [e]) by (unfold inflight; rewrite Ep, Eq; unfold Fifo.push; by rewrite app_assoc).
  assert (Ea : alive s' = alive s) by (unfold alive; rewrite Es, (zsum_insert _ _ _ _ _ Hc); simpl; rewrite Cc; lia).
  destruct (H6 i c Hc) as (F1 & F2 & F3 & F4). rewrite Cs in F1. simpl in F1.
  assert (F2' : nev (done_of i) (inflight s) = 0%Z) by (destruct F2 as [?|(_ & ? & _)]; congruence).
  split; rewrite ?Ec, ?Et, ?Eh, ?Eg, ?Ep, ?Ea, ?El; auto.
  - by rewrite Es, length_insert.
  - by rewrite Es, length_insert.
  - intros j tok Hj. rewrite Es, length_insert. by eapply H4.
  - intros j d Hj. rewrite Es in Hj. apply lookup_insert_list in Hj as [(<- & -> & _)|[_ Hj]]; simpl; auto.
  - intros j d Hj. rewrite Es in Hj. unfold flight. rewrite Ei, Ep, Eh, Eg, !nev_snoc. apply lookup_insert_list in Hj as [(<- & -> & _)|[Hne Hj]].
    + assert (Hh : handles s !! i <> Some false) by (intros Hh; specialize (F4 Hh); congruence).
      rewrite F1, F2', Hn, Hd. simpl. split_and!; [lia| |intros _ ->; right; left; done|done].
      destruct (past y) eqn:Hy; [right|left]; done.
    + destruct (Ho j) as [-> ->]; [done|]. simpl. rewrite !Z.add_0_r. by apply H6.
  - intros e'. rewrite Ei, elem_of_app, list_elem_of_singleton. intros [He'| ->]; [|done]. rewrite Es.
    eapply cq_event_insert; [done| |by apply H7]. intros Hs. by rewrite Hs in Cs.
  - by apply (Slot.slot_mono (wakes s)).
  - intros Hg Hp. right. rewrite Eq. unfold Fifo.push. by destruct (ev_queue s).
  - intros Hb. rewrite Es, length_insert in Hb. auto.
Qed.

(** [cnt.fetch_sub(1)]. *)
Lemma cq_inv_sub s i c h r :
  inv s -> sels s !! i = Some c -> pc c = CDSub h r ->
  inv (set_sel i (at_pc (CDTake h r) c) (set_cnt (Word.sub (cnt s) 1) s)).
Proof.
  intros Hi Hc Hp. set (s' := set_sel i (at_pc (CDTake h r) c) (set_cnt (Word.sub (cnt s) 1) s)).
  pose proof Hi as [H1 H2 H3 H4 H5 H6 H7 H8 H9 H10 H11 H12].
  assert (Ea : alive s' = (alive s - 1)%Z) by (unfold alive; simpl; rewrite (zsum_insert _ _ _ _ _ Hc), Hp; simpl; lia).
  assert (W : forall k, wakes s k -> wakes s' k).
  { intros k. apply (cq_wakes_sel s i c (at_pc (CDTake h r) c)); auto. unfold sel_waking. by rewrite Hp. }
  split; rewrite ?Ea; simpl; rewrite ?length_insert; auto.
  - rewrite H1. unfold Word.sub. rewrite Word.wrap_sub_l. f_equal. lia.
  - intros j d [(<- & -> & _)|[_ Hj]]%lookup_insert_list; simpl; auto.
  - intros j d [(<- & -> & _)|[_ Hj]]%lookup_insert_list; (eapply (cq_flight_other s); [done..|]); [|auto].
    specialize (H6 i c Hc). unfold flight in *. by rewrite Hp in H6.
  - intros e He. eapply cq_event_insert; [done| |by apply H7]. by rewrite Hp.
  - by apply (Slot.slot_mono (wakes s)).
  - intros k Hk Hq. right. left. by eapply has_insert_new.
  - intros Hg Hpk. right. destruct (H6 i c Hc) as (_ & _ & F3 & _). destruct (F3 Hg) as [?|[Hn|?]]; [by rewrite Hp|by rewrite Hp in *| |by destruct (pp s)].
    unfold inflight in Hn. destruct (held (pp s)) eqn:Hh; [|by destruct (pp s)]. intros Hq. simpl in Hq. by rewrite Hq in Hn.
  - intros Hb Hf. specialize (H11 Hb Hf). pose proof (zsum_lookup_le _ _ _ _ (fun c => b2z_nonneg (counted (pc c))) Hc) as Hle.
    simpl in Hle. rewrite Hp in Hle. simpl in Hle. unfold alive in H11. lia.
Qed.

(** ** The steps of the poller *)

Lemma cq_inv_slice s h : inv s -> inv (slice_end h s).
Proof.
  intros Hi. unfold slice_end. destruct h; [|done]. destruct (pp s) as [| | | | | | | | | | | | | |c e| | | | |] eqn:Hp; try done.
  destruct (cq_returns c (PollOk e)) as (R1 & R2 & R3 & R4 & R5 & R6 & R7 & R8).
  eapply (cq_inv_pp s (returns c (PollOk e))); try done; rewrite ?Hp, ?R1, ?R2, ?R5; try done.
  - unfold inflight. simpl. by rewrite Hp, R3.
  - by intros _ ?%R8.
Qed.

(** [add]: the coroutines of before stay. *)
Lemma cq_inv_add s s' y :
  inv s -> adding (pp s) = true -> pp s' = y -> (adding y = true \/ y = PIdle) ->
  sels s' = sels s -> kers s' = kers s -> slot s' = slot s -> ev_queue s' = ev_queue s -> is_panicking s' = is_panicking s ->
  (forall i, handles s' !! i = Some false -> handles s !! i = Some false) -> (forall i t, y <> PSpawn i t) ->
  cnt s' = Word.wrap (alive s - b2z (uncounted y)) ->
  total s' + (if untotalled y then 1 else 0) = length (sels s) -> length (handles s') + (if unhandled y then 1 else 0) = length (sels s) -> inv s'.
Proof.
  intros [H1 H2 H3 H4 H5 H6 H7 H8 H9 H10 H11 H12] Ha Ep Hy Es Ek El Eq Eg Eh Hns Ec Et Ehl.
  assert (Hx : registered y = None /\ parked y = None /\ will_park y = false /\ finished y = false /\ held y = [] /\ joining y = None /\ y <> PBroken)
    by (destruct Hy as [Hy| ->]; [by destruct y|done]). destruct Hx as (X1 & X2 & X3 & X4 & X5 & X6 & X7).
  assert (Ei : inflight s' = inflight s) by (unfold inflight; rewrite Ep, Eq, X5; by destruct (pp s)).
  assert (Ea : alive s' = alive s) by (unfold alive; by rewrite Es).
  split; rewrite ?Ep, ?Es, ?Eg, ?Ei, ?Ea, ?X1, ?X2, ?X3, ?X4; auto; try done.
  - intros i tok ->. by destruct (Hns i tok).
  - intros i c Hi. destruct (H6 i c Hi) as (F1 & F2 & F3 & F4). unfold flight. rewrite Ei, Eg, Ep. split_and!; [done| | |auto].
    + destruct F2 as [?|(? & ? & ?)]; [by left|right]. split_and!; [done..|]. intros ?%Eh. done.
    + intros Hg Hpast. destruct (F3 Hg Hpast) as [?|[?|Hj]]; auto. by destruct (pp s).
Qed.

Lemma cq_inv_spawn s i tok :
  inv s -> pp s = PSpawn i tok -> inv (set_pp PCnt (set_sels (sels s ++ [Sel i tok 0 false (CRun false)]) s)).
Proof.
  intros [H1 H2 H3 H4 H5 H6 H7 H8 H9 H10 H11 H12] Hp. specialize (H4 i tok Hp). subst i.
  assert (Hpast : forall e, e ∈ inflight s -> normal_of (length (sels s)) e = false /\ done_of (length (sels s)) e = false).
  { intros e He. specialize (H7 e He). unfold event_ok, normal_of, done_of in *. destruct (kind e).
    - destruct H7 as (j & d & -> & Hj & _). apply lookup_lt_Some in Hj. split; [apply Nat.eqb_neq; lia|done].
    - destruct H7 as [_ Hlt]. split; [done|]. apply Nat.eqb_neq. lia. }
  assert (Hq : inflight (set_pp PCnt (set_sels (sels s ++ [Sel (length (sels s)) tok 0 false (CRun false)]) s)) = inflight s)
    by (unfold inflight; simpl; by rewrite Hp).
  rewrite Hp in *. split; rewrite ?Hq; simpl; rewrite ?length_app; simpl; try done.
  - rewrite H1. unfold alive. simpl. rewrite zsum_app. simpl. f_equal. lia.
  - simpl in H2. lia.
  - simpl in H3. lia.
  - intros i c [Hi|[-> ->]]%lookup_snoc_Some'; [auto|done].
  - intros i c [Hi|[-> ->]]%lookup_snoc_Some'.
    + specialize (H6 i c Hi). unfold flight in *. by rewrite Hq, Hp in *.
    + unfold flight. rewrite Hq. simpl. split_and!; [apply nev_zero, Hpast|left; apply nev_zero, Hpast|done|].
      intros Hh%lookup_lt_Some. simpl in H3. lia.
  - intros e He. specialize (H7 e He). unfold event_ok in *. destruct (kind e).
    + destruct H7 as (j & d & Hco & Hj & Hrest). exists j, d. split; [done|]. split; [by apply lookup_app_l_Some|done].
    + rewrite length_app. simpl. split; [apply H7|]. destruct H7. lia.
Qed.

Lemma cq_inv_add_impl s x s' : inv s -> pp s = x -> add_impl x s = Some s' -> inv s'.
Proof.
  intros Hi Hx Hs. pose proof Hi as [H1 H2 H3 _ _ _ _ _ _ _ _ _]. rewrite Hx in *. destruct x; try done; injection Hs as <-; simpl in *.
  - by apply cq_inv_spawn.
  - eapply (cq_inv_add s _ PTotal); try done; rewrite ?Hx; auto. simpl. rewrite H1. unfold Word.add. rewrite Word.wrap_add_l. f_equal. lia.
  - eapply (cq_inv_add s _ PSel); try done; rewrite ?Hx; auto. simpl. lia.
  - eapply (cq_inv_add s _ PIdle); try done; rewrite ?Hx; auto; [|simpl; rewrite length_app; simpl; lia].
    intros i [?|[_ ?]]%lookup_snoc_Some'; done.
Qed.

(** An event is processed. *)
Lemma cq_inflight_event s c e : pp s = PEvent c e -> inflight s = e :: ev_queue s.
Proof. unfold inflight. by intros ->. Qed.

Lemma cq_inv_run_done s c e : inv s -> pp s = PEvent c e -> kind e = Done -> inv (check_panic c (id e) s).
Proof.
  intros Hi Hp Hk. pose proof Hi as [H1 H2 H3 H4 H5 H6 H7 H8 H9 H10 H11 H12].
  pose proof (cq_inflight_event _ _ _ Hp) as Hfl. rewrite Hfl in H7.
  assert (He : event_ok (sels s) e) by (apply H7; by left). unfold event_ok in He. rewrite Hk in He. destruct He as [_ Hlt].
  destruct (lookup_lt_is_Some_2 (sels s) (id e) Hlt) as [d Hd].
  assert (Hsplit : forall j, nev (normal_of j) (inflight s) = nev (normal_of j) (ev_queue s) /\
     nev (done_of j) (inflight s) = (b2z (id e =? j)%nat + nev (done_of j) (ev_queue s))%Z).
  { intros j. rewrite Hfl. unfold nev. simpl. unfold normal_of at 1, done_of at 1. by rewrite Hk. }
  assert (Hpos : forall j, (0 <= nev (done_of j) (ev_queue s))%Z) by (intros; apply zsum_nonneg; intros; apply b2z_nonneg).
  assert (Hone : nev (done_of (id e)) (ev_queue s) = 0%Z /\ past (pc d) = true /\ handles s !! id e <> Some false).
  { destruct (H6 _ _ Hd) as (_ & F2 & _). destruct (Hsplit (id e)) as [_ E]. rewrite Nat.eqb_refl in E. simpl in E.
    specialize (Hpos (id e)). destruct F2 as [?|(? & ? & ?)]; [lia|]. split_and!; [lia|done..]. }
  destruct Hone as (O1 & O2 & O3).
  assert (Hgo : forall y b l, (y = PPop c /\ b = true) \/ y = PJoin c (id e) -> is_panicking s = b \/ y = PJoin c (id e) ->
     length l = length (handles s) -> (forall j, j <> id e -> l !! j = handles s !! j) -> inv (set_pp y (set_total (total s) l s))).
  { intros y b l Hy Hb Hl Hlk. assert (Hx : adding y = false /\ registered y = None /\ parked y = None /\ will_park y = false /\ finished y = false /\ held y = [] /\ y <> PBroken)
      by (by destruct Hy as [[-> _]| ->]). destruct Hx as (X1 & X2 & X3 & X4 & X5 & X6 & X7). destruct (cq_adding _ X1) as (B1 & B2 & B3 & B4).
    rewrite Hp in *. simpl in *. split; simpl; rewrite ?X2, ?X3, ?X4, ?X5, ?B1, ?B2, ?B3, ?Hl; auto; try done.
    - intros i t ->. by destruct (B4 i t).
    - intros j d' Hj. destruct (H6 _ _ Hj) as (F1 & F2 & F3 & F4). destruct (Hsplit j) as [E1 E2]. unfold flight, inflight. simpl. rewrite X6. simpl.
      rewrite <-E1. destruct (decide (j = id e)) as [->|Hne].
      + assert (d' = d) as -> by congruence. split_and!; [done|by left| |done].
        intros Hg _. right. right. destruct Hy as [[-> ->]| ->]; [|done]. destruct Hb; congruence.
      + rewrite (proj2 (Nat.eqb_neq (id e) j)) in E2 by done. simpl in E2.
        assert (nev (done_of j) (ev_queue s) = nev (done_of j) (inflight s)) as -> by lia. rewrite Hlk by done. split_and!; [done..| |done].
        intros Hg Hpast. destruct (F3 Hg Hpast) as [?|[?|Hj']]; [by left|by right; left|by rewrite Hp in Hj'].
    - intros e' He'. unfold inflight in He'. simpl in He'. rewrite X6 in He'. apply H7. by right. }
  unfold check_panic. destruct (is_panicking s) eqn:Hg.
  - replace (set_pp (PPop c) s) with (set_pp (PPop c) (set_total (total s) (handles s) s)) by (by destruct s). apply (Hgo _ true); auto.
  - destruct (lookup_lt_is_Some_2 (handles s) (id e)) as [b Hb]; [rewrite Hp in H3; simpl in H3; lia|]. rewrite Hb in O3 |- *.
    destruct b; [|done]. apply (Hgo _ true); auto; [by rewrite length_insert|]. intros j Hne. by rewrite list_lookup_insert_ne.
Qed.

Lemma cq_inv_run_normal s c e i :
  inv s -> pp s = PEvent c e -> kind e = Normal -> co e = Some i ->
  exists x, sels s !! i = Some x /\ pc x = CSusp /\ inv (set_pp (PBottom c e) (set_sel i (at_pc (CRun true) x) s)).
Proof.
  intros Hi Hp Hk Hco. pose proof Hi as [H1 H2 H3 H4 H5 H6 H7 H8 H9 H10 H11 H12].
  pose proof (cq_inflight_event _ _ _ Hp) as Hfl.
  assert (He : event_ok (sels s) e) by (apply H7; rewrite Hfl; by left). unfold event_ok in He. rewrite Hk in He.
  destruct He as (i' & x & Hco' & Hx & Hs & Hid & _). assert (i' = i) as -> by congruence. exists x. split_and!; [done..|].
  set (s' := set_pp (PBottom c e) (set_sel i (at_pc (CRun true) x) s)).
  assert (Ea : alive s' = alive s) by (unfold alive; simpl; rewrite (zsum_insert _ _ _ _ _ Hx), Hs; simpl; lia).
  assert (W : forall k, wakes s k -> wakes s' k).
  { intros k. apply (cq_wakes_sel s i x (at_pc (CRun true) x)); auto. unfold sel_waking. by rewrite Hs. }
  assert (Hsplit : forall j, nev (normal_of j) (inflight s) = (b2z (i =? j)%nat + nev (normal_of j) (ev_queue s))%Z /\
     nev (done_of j) (inflight s) = nev (done_of j) (ev_queue s)).
  { intros j. rewrite Hfl. unfold nev. simpl. unfold normal_of at 1, done_of at 1. by rewrite Hk, Hco. }
  rewrite Hp in *. simpl in *. split; rewrite ?Ea; simpl; rewrite ?length_insert; auto; try done.
  - intros j d [(<- & -> & _)|[_ Hj]]%lookup_insert_list; simpl; auto.
  - intros j d Hj. destruct (Hsplit j) as [E1 E2]. unfold flight, inflight. simpl. apply lookup_insert_list in Hj as [(<- & -> & _)|[Hne Hj]].
    + destruct (H6 _ _ Hx) as (F1 & F2 & F3 & F4). rewrite <-E2, Nat.eqb_refl, F1, Hs in *. simpl in *. split; [lia|].
      split; [destruct F2 as [?|(_ & ? & _)]; [by left|done]|split; done].
    + destruct (H6 _ _ Hj) as (F1 & F2 & F3 & F4). rewrite (proj2 (Nat.eqb_neq i j)) in E1 by done. simpl in E1. rewrite <-E2.
      assert (nev (normal_of j) (ev_queue s) = nev (normal_of j) (inflight s)) as -> by lia. split_and!; try done. intros Hg Hpast. destruct (F3 Hg Hpast) as [?|[?|Hj']]; [by left|by right; left|by rewrite Hp in Hj'].
  - intros e' He'. unfold inflight in He'. simpl in He'. assert (Hin : e' ∈ inflight s) by (rewrite Hfl; by right). specialize (H7 e' Hin).
    unfold event_ok in *. rewrite length_insert. destruct (kind e') eqn:Hk'; [|done]. destruct H7 as (j & d & Hc' & Hj & Hrest).
    assert (Hne : j <> i).
    { intros ->. destruct (H6 _ _ Hx) as (F1 & _). rewrite Hs in F1. simpl in F1. destruct (Hsplit i) as [E1 _].
      rewrite Nat.eqb_refl in E1. simpl in E1. apply list_elem_of_lookup_1 in He' as [m Hm].
      pose proof (zsum_lookup_le _ _ _ _ (fun e => b2z_nonneg (normal_of i e)) Hm) as Hle. simpl in Hle. unfold normal_of at 1 in Hle.
      rewrite Hk', Hc', Nat.eqb_refl in Hle. unfold nev in *. simpl in Hle. lia. }
    exists j, d. by rewrite list_lookup_insert_ne.
Qed.

Lemma cq_inv_run_ev s c e : inv s -> pp s = PEvent c e -> inv (run_ev c e s).
Proof.
  intros Hi Hp. unfold run_ev. destruct (kind e) eqn:Hk; [|by apply cq_inv_run_done].
  destruct (co e) as [i|] eqn:Hco.
  - destruct (cq_inv_run_normal s c e i Hi Hp Hk Hco) as (x & -> & -> & ?). done.
  - exfalso. assert (He : event_ok (sels s) e) by (apply (iv_events _ Hi); unfold inflight; rewrite Hp; by left).
    unfold event_ok in He. rewrite Hk in He. destruct He as (? & ? & ? & _). congruence.
Qed.

Lemma cq_inv_joined s c i r x : inv s -> pp s = PJoin c i -> sels s !! i = Some x -> pc x = CEnd r -> inv (joined c r s).
Proof.
  intros Hi Hp Hx Hr. assert (Hend : forall j, joining (pp s) = Some j -> forall d, sels s !! j = Some d -> is_end (pc d) = true).
  { rewrite Hp. intros j [= <-] d Hd. assert (d = x) as -> by congruence. by rewrite Hr. }
  unfold joined. assert (Hpop : inv (set_pp (PPop c) s)).
  { eapply (cq_inv_pp s (PPop c)); try done; [by rewrite Hp|unfold inflight; by rewrite Hp|]. intros j Hj. right. eauto. }
  destruct r; [done| |done]. destruct (cq_returns c PollPanic) as (R1 & R2 & R3 & R4 & R5 & R6 & R7 & R8).
  destruct (cq_adding _ R4) as (B1 & B2 & B3 & B4).
  destruct Hpop as [H1 H2 H3 H4 H5 H6 H7 H8 H9 H10 H11 H12]. simpl in *.
  split; simpl; rewrite ?R1, ?R2, ?R5, ?B1, ?B2, ?B3; auto; try done.
  - intros j t Hj. by destruct (B4 j t).
  - intros j d Hj. specialize (H6 j d Hj). unfold flight, inflight in *. simpl in *. rewrite R3. by destruct H6 as (? & ? & _ & ?).
  - intros e He. apply H7. unfold inflight in *. simpl in *. by rewrite R3 in He.
  - by intros _ ?%R8.
Qed.

Lemma cq_inv_poll s b x s' : inv s -> pp s = x -> poll b x s = Some s' -> inv s'.
Proof.
  intros Hi Hp Hs. destruct x as [| | | | |c|c|c|c k| |c|c e|c e|c i| | | | | |]; try done; simpl in Hs; unfold Fifo.pop in Hs.
  - destruct (ev_queue s) as [|e l] eqn:Hq; simpl in Hs; injection Hs as <-.
    + eapply (cq_inv_pp s (PCount c)); try done; rewrite ?Hp; try done. unfold inflight. by rewrite Hp.
    + eapply (cq_inv_pp s (PEvent c e)); try done; rewrite ?Hp; try done. unfold inflight. simpl. by rewrite Hp, Hq, drop_0.
  - injection Hs as <-. pose proof (iv_cnt _ Hi) as Hc. rewrite Hp in Hc. simpl in Hc. destruct (Z.eqb_spec (cnt s) 0) as [Hz|Hz].
    + destruct (cq_returns c (PollErr Finished)) as (R1 & R2 & R3 & R4 & R5 & R6 & R7 & R8).
      eapply (cq_inv_pp s (returns c (PollErr Finished))); try done; rewrite ?Hp, ?R1, ?R2, ?R5; try done.
      * unfold inflight. simpl. by rewrite R3, Hp.
      * intros Hb _. rewrite Hz in Hc. assert (Hle : (0 <= alive s <= Z.of_nat (length (sels s)))%Z).
        { unfold alive. clear. induction (sels s) as [|a l IH]; simpl; [lia|]. destruct (counted (pc a)); simpl in *; lia. }
        rewrite Word.wrap_small in Hc; [lia|]. unfold Word.is_usize. lia.
    + eapply (cq_inv_pp s (PStore c)); try done; rewrite ?Hp; try done; [unfold inflight; by rewrite Hp|].
      intros _ _. left. intros Ha. rewrite Ha in Hc. done.
  - injection Hs as <-. pose proof (iv_live _ Hi) as Hl. rewrite Hp in Hl.
    eapply (cq_inv_pp s (PRe c (Slot.next (slot s)))); try done; rewrite ?Hp; try done; [unfold inflight; simpl; by rewrite Hp|].
    intros k [= <-]. by right.
  - pose proof (iv_live _ Hi) as Hl. rewrite Hp in Hl. destruct (ev_queue s) as [|e l] eqn:Hq; simpl in Hs; injection Hs as <-.
    + eapply (cq_inv_pp s (PPark c k)); try done; rewrite ?Hp; simpl; rewrite ?Hq; auto; try done. unfold inflight. simpl. by rewrite Hp.
    + eapply (cq_inv_pp s (PClear c e)); try done; rewrite ?Hp; try done. unfold inflight. simpl. by rewrite Hp, Hq, drop_0.
  - injection Hs as <-. eapply (cq_inv_pp s _); try done; rewrite ?Hp; destruct c as [[]|]; try destruct b; try done; unfold inflight; by rewrite Hp.
  - injection Hs as <-. eapply (cq_inv_pp s (PEvent c e)); try done; rewrite ?Hp; try done. unfold inflight. simpl. by rewrite Hp.
  - injection Hs as <-. by apply cq_inv_run_ev.
  - destruct (sels s !! i) as [x|] eqn:Hx; [|done]. destruct (pc x) eqn:Hpc; try done. injection Hs as <-. by eapply cq_inv_joined.
Qed.

Lemma cq_inv_park s o x s' : inv s -> pp s = x -> park o x s = Some s' -> inv s'.
Proof.
  intros Hi Hp Hs. destruct x as [| | | | | | | | |c k| | | | | | | | | |]; try done. simpl in Hs.
  assert (Hgo : forall y l, adding y = false -> registered y = None -> parked y = None -> held y = [] -> will_park y = false ->
    finished y = false -> y <> PBroken -> inv (set_pp y (set_slot l s))).
  { intros y l Y1 Y2 Y3 Y4 Y5 Y6 Y7. eapply (cq_inv_pp s y); try done; rewrite ?Hp, ?Y2, ?Y3, ?Y5, ?Y6; try done.
    unfold inflight. simpl. by rewrite Hp, Y4. }
  destruct (cq_returns c PollPanic) as (R1 & R2 & R3 & R4 & R5 & R6 & R7 & R8).
  assert (Hf : finished (returns c PollPanic) = false) by (by destruct c as [|[]]).
  destruct o, c as [|[]]; try done; destruct (Slot.park _ k (slot s)); try done; injection Hs as <-; apply Hgo; done.
Qed.

Lemma cq_inv_drop s x s' : inv s -> pp s = x -> drop_cqueue x s = Some s' -> inv s'.
Proof.
  intros Hi Hp Hs. destruct x as [| | | | | | | | | | | | | | | |u i| | |]; try done. simpl in Hs.
  assert (Hgo : forall y s0, inv s0 -> pp s0 = pp s -> ~ finished y = true -> held y = [] -> registered y = None -> parked y = None -> adding y = false ->
    will_park y = false -> y <> PBroken -> inv (set_pp y s0)).
  { intros y s0 Hi0 Ep Y1 Y2 Y3 Y4 Y5 Y6 Y7. eapply (cq_inv_pp s0 y); try done; rewrite ?Ep, ?Hp, ?Y3, ?Y4, ?Y6; try done.
    unfold inflight. simpl. by rewrite Ep, Hp, Y2. }
  destruct (poisoned s); [injection Hs as <-; destruct u; by apply Hgo|].
  destruct (handles s !! i) as [b|]; [|injection Hs as <-; by apply Hgo].
  destruct (sels s !! i) as [c|] eqn:Hc; injection Hs as <-; [|by apply Hgo].
  apply Hgo; try done; destruct (b && _); try done. by apply cq_inv_cancel.
Qed.

Lemma cq_inv_select s i a c s' : inv s -> sels s !! i = Some c -> select i a c s = Some s' -> inv s'.
Proof.
  intros Hi Hc Hs. assert (Hmv : forall y, is_susp (pc c) = false -> is_susp y = false -> past y = past (pc c) -> counted y = counted (pc c) ->
    past (pc c) = false -> inv (set_sel i (at_pc y c) s)).
  { intros y M1 M2 M3 M4 M5. eapply cq_inv_move; try done; rewrite ?M1, ?M2; try done; unfold sel_waking, sel_taking; by destruct (pc c). }
  destruct a as [x p| | |r|]; simpl in Hs.
  - unfold start_send in Hs. destruct (pc c) eqn:Hp; try done. injection Hs as <-. destruct (canceled c && negb p); by apply Hmv.
  - destruct (pc c) eqn:Hp; try done. injection Hs as <-. by apply cq_inv_slice, Hmv.
  - destruct (pc c) eqn:Hp; try done. injection Hs as <-. by apply Hmv.
  - destruct (pc c) eqn:Hp; try done. destruct r; [|..|destruct (canceled c); [|done]]; injection Hs as <-; by apply Hmv.
  - destruct (pc c) eqn:Hp; try (by unfold drop_sender in Hs; rewrite Hp in Hs); unfold send, subscribe, drop_sender in Hs; rewrite Hp in Hs.
    + injection Hs as <-. eapply cq_inv_move; try done; rewrite ?Hp; try done; unfold sel_waking, sel_taking; by rewrite Hp.
    + injection Hs as <-. destruct (canceled c); by apply Hmv.
    + injection Hs as <-. pose proof (iv_ids _ Hi _ _ Hc) as Hid. eapply (cq_inv_push s i c CSusp (Ev (s_token c) (s_extra c) (s_id c) Normal (Some i)));
        try done; rewrite ?Hp; try done; simpl.
      * intros j Hne. split; [apply Nat.eqb_neq; congruence|done].
      * apply Nat.eqb_refl.
      * exists i, (at_pc CSusp c). split_and!; try done. apply list_lookup_insert_eq. by eapply lookup_lt_Some.
      * intros k [Hk|Hk]; [left; eapply has_insert_other; [done..|]; unfold sel_waking; by rewrite Hp|right].
        destruct Hk as (j & x & Hj & Hx). exists j, x. split; [by apply lookup_app_l_Some|done].
      * right. exists (length (kers s)), (KTake h). split; [by apply list_lookup_middle|done].
    + injection Hs as <-. pose proof (iv_ids _ Hi _ _ Hc) as Hid. eapply (cq_inv_push s i c (CDSub h r) (Ev (s_token c) (s_extra c) (s_id c) Done None));
        try done; rewrite ?Hp; try done; simpl.
      * intros j Hne. split; [done|apply Nat.eqb_neq; simpl; congruence].
      * unfold done_of. simpl. rewrite Hid. apply Nat.eqb_refl.
      * unfold event_ok. simpl. rewrite length_insert, Hid. split; [done|by eapply lookup_lt_Some].
      * intros k. apply (cq_wakes_sel s i c (at_pc (CDSub h r) c)); auto. unfold sel_waking. by rewrite Hp.
      * left. by eapply has_insert_new.
    + injection Hs as <-. by apply cq_inv_sub.
    + injection Hs as <-. by eapply cq_inv_sel_take.
    + injection Hs as <-. by apply cq_inv_sel_unpark.
    + injection Hs as <-. apply cq_inv_slice. eapply cq_inv_move; try done; rewrite ?Hp; try done; unfold sel_waking, sel_taking; by rewrite Hp.
Qed.

Lemma cq_inv_wake s j x s' : inv s -> kers s !! j = Some x -> subscribe_wake j x s = Some s' -> inv s'.
Proof.
  intros Hi Hx Hs. destruct x as [h|k h|]; [..|done]; injection Hs as <-.
  - pose proof (cq_inv_ker_take s j h _ Hi Hx eq_refl) as Hk. destruct (Slot.to_wake (slot s)); [done|by apply cq_inv_slice].
  - by eapply cq_inv_slice, cq_inv_ker_unpark.
Qed.

Lemma cq_inv_home s y : inv s -> at_home (pp s) = true -> registered y = None -> parked y = None -> held y = [] -> will_park y = false ->
  finished y = false -> y <> PBroken -> uncounted y = false -> untotalled y = false -> unhandled y = false ->
  (forall i t, y = PSpawn i t -> i = length (sels s)) -> joining y = None -> inv (set_pp y s).
Proof.
  intros [H1 H2 H3 H4 H5 H6 H7 H8 H9 H10 H11 H12] Hh Y1 Y2 Y3 Y4 Y5 Y6 Y7 Y8 Y9 Y10 Y11.
  assert (Hp : uncounted (pp s) = false /\ untotalled (pp s) = false /\ unhandled (pp s) = false /\ held (pp s) = [] /\ joining (pp s) = None) by (by destruct (pp s)).
  destruct Hp as (P1 & P2 & P3 & P4 & P5). rewrite P1 in H1. rewrite P2 in H2. rewrite P3 in H3.
  split; simpl; rewrite ?Y1, ?Y2, ?Y4, ?Y5, ?Y7, ?Y8, ?Y9; auto; try done.
  - intros i c Hi. specialize (H6 i c Hi). unfold flight, inflight in *. simpl. rewrite P4 in H6. rewrite P5 in H6. by rewrite Y3, Y11.
  - intros e He. apply H7. unfold inflight in *. simpl in He. by rewrite P4, Y3 in *.
Qed.

Lemma cq_inv_step s e s' : inv s -> step s e = Some s' -> inv s'.
Proof.
  intros Hi Hs. unfold step in Hs. destruct (gone (pp s)); [done|]. destruct e as [tok|t|u|i|b|o|i a|j].
  - destruct (at_home (pp s)) eqn:Hh; [|done]. injection Hs as <-. apply cq_inv_home; try done.
    intros i t [= <- <-]. pose proof (iv_total _ Hi) as Ht. destruct (pp s); simpl in Ht; try done; lia.
  - destruct (at_home (pp s)) eqn:Hh; [|done]. injection Hs as <-. by apply cq_inv_home.
  - destruct (at_home (pp s)) eqn:Hh; [|done]. injection Hs as <-. by apply cq_inv_home.
  - destruct (sels s !! i) as [c|] eqn:Hc; [|done]. injection Hs as <-. by apply cq_inv_cancel.
  - destruct (pp s) eqn:Hp; first [by eapply cq_inv_add_impl|by eapply cq_inv_drop|by eapply cq_inv_poll].
  - by eapply cq_inv_park.
  - destruct (sels s !! i) as [c|] eqn:Hc; [|done]. by eapply cq_inv_select.
  - destruct (kers s !! j) as [x|] eqn:Hx; [|done]. by eapply cq_inv_wake.
Qed.

Lemma cq_inv_reachable s : reachable step new s -> inv s.
Proof. apply reachable_ind_inv; [|eauto using cq_inv_step]. split; try done. by intros e ?%not_elem_of_nil. Qed.

(** ** Concrete runs *)

Definition go (n : nat) (e : event) : list event := replicate n e.
Definition adds (tok : nat) : list event := Add tok :: go 4 (P false).
(** Coroutine [i] sends 7; coroutine [i] ends. *)
Definition sends (i : nat) : list event := C i (ASend 7 false) :: go 3 (C i ATick).
Definition ends (i : nat) (r : ended) (n : nat) : list event := C i (AEnd r) :: go n (C i ATick).

(** The select panics and the poller rethrows its panic. *)
Definition rethrown : list event := adds 0 ++ ends 0 CPanic 4 ++ [Poll false] ++ go 3 (P false) ++ [Drop true; P false].
(** The thread that ran [subscribe] has pushed the event but not yet looked for the
    poller when the poller has finished with the coroutine. *)
Definition late_subscribe : list event :=
  adds 0 ++ sends 0 ++ [Poll false] ++ go 2 (P false) ++ ends 0 COk 4 ++ [Poll false] ++ go 5 (P false) ++ [Drop false] ++ go 4 (P false).
(** The [Done] event arrives after the poller found the queue empty, the decrement
    before it looks at the counter. *)
Definition late_done : list event := adds 0 ++ [Drop false] ++ go 3 (P false) ++ ends 0 COk 2 ++ [P false].
(** [Drop] finds that one of two selects panicked. *)
Definition panic_in_drop : list event := adds 0 ++ adds 1 ++ ends 0 CPanic 4 ++ [Drop false] ++ go 6 (P false).

(** [poll] is called again after it rethrew a panic; the last select pushes its [Done]
    event, which is popped without a [join]; its decrement and its look for the
    poller come after the poller read the counter and before it registers. *)
Definition polled_after_panic : list event :=
  adds 0 ++ adds 1 ++ ends 0 CPanic 4 ++ [Poll false] ++ go 3 (P false) ++ [Poll false] ++ ends 1 COk 1 ++
  go 4 (P false) ++ go 3 (C 1 ATick) ++ go 2 (P false).

Definition final (es : list event) : Cqueue := default new (run step es new).

(** A select waits for something else while the poller parks. *)
Definition demo_park : list event := adds 0 ++ [C 0 ABlock; Poll false] ++ go 4 (P false).
(** It is resumed, sends, and the poller returns the event after the bottom half blocks. *)
Definition demo_event : list event :=
  demo_park ++ [C 0 AResume] ++ sends 0 ++ [K 0; K 0; Park Slot.POk] ++ go 3 (P false) ++ [C 0 ABlock].
Definition demo_queued : list event := demo_park ++ [C 0 AResume] ++ sends 0.
(** The select finishes, and so does the queue. *)
Definition demo_finished : list event := adds 5 ++ ends 0 COk 4 ++ [Drop false] ++ go 7 (P false).

Example cq_demo_results :
  map (fun es => (pp (final es), map pc (sels (final es)))) [demo_park; demo_event; demo_finished] =
  [(PPark (User false) 0, [CBlocked]); (PReady (PollOk (Ev 0 7 0 Normal (Some 0))), [CBlocked]); (PFreed false, [CEnd COk])].
Proof. by vm_compute. Qed.

(** ** Properties *)

(** C23. A wake-up is not lost as long as [poll] has not rethrown the panic of a
    select ([cq_lost_after_panic] is a run where it has): when the poller is parked
    without a token, every select coroutine is suspended or finished and no
    [subscribe] is running, then the queue is empty, the poller's blocker is
    registered, no select waits for its event to be processed, and some select is
    still waiting for something else. *)
Theorem cq_wakeup_not_lost s c k :
  reachable step new s -> is_panicking s = false -> pp s = PPark c k -> Slot.token k (slot s) = false ->
  (forall j x, kers s !! j = Some x -> x = KEnd) ->
  (forall i x, sels s !! i = Some x -> pc x = CBlocked \/ pc x = CSusp \/ is_end (pc x) = true) ->
  ev_queue s = [] /\ Slot.to_wake (slot s) = Some k /\
  (forall i x, sels s !! i = Some x -> pc x <> CSusp) /\ (exists i x, sels s !! i = Some x /\ pc x = CBlocked).
Proof.
  intros Hr Hg Hp Ht Hk Hs. apply cq_inv_reachable in Hr as [H1 H2 H3 H4 H5 H6 H7 H8 H9 H10 H11 H12]. rewrite Hp in *.
  assert (Hnw : ~ wakes s k).
  { intros [(i & x & Hx & Hw)|(j & x & ->%Hk & Hw)]; [|done]. unfold sel_waking in Hw.
    destruct (Hs i x Hx) as [E|[E|E]]; [by rewrite E in Hw..|by destruct (pc x)]. }
  assert (Hnt : ~ takes s).
  { intros [(i & x & Hx & Hw)|(j & x & ->%Hk & Hw)]; [|done]. unfold sel_taking in Hw.
    destruct (Hs i x Hx) as [E|[E|E]]; [by rewrite E in Hw..|by destruct (pc x)]. }
  assert (Hn : ~ notified k s) by (intros [?|?]; [congruence|done]).
  assert (Hq : ev_queue s = []) by (destruct (ev_queue s); [done|destruct (H9 k eq_refl); done]).
  assert (Hns : forall i x, sels s !! i = Some x -> pc x <> CSusp).
  { intros i x Hx E. destruct (H6 i x Hx) as (F1 & _). unfold inflight in F1. by rewrite Hp, Hq, E in F1. }
  split_and!; [done| |done|].
  - destruct (H8 k eq_refl) as [_ [?|[_ ?]]]; done.
  - destruct (H10 Hg eq_refl) as [Ha|?]; [|done]. apply zsum_nonzero in Ha as (i & x & Hx & Hc).
    exists i, x. split; [done|]. destruct (Hs i x Hx) as [?|[E|E]]; [done|by destruct (Hns i x Hx)|by destruct (pc x)].
Qed.

(** Events are conserved: a select that is suspended in [send] has exactly one event
    queued or being processed, which carries it with its token and what it sent;
    the poller never resumes a coroutine that is not suspended and always finds the
    handle of the coroutine that is done. *)
Theorem cq_events_conserved s :
  reachable step new s ->
  pp s <> PBroken /\
  (forall i x, sels s !! i = Some x -> nev (normal_of i) (inflight s) = b2z (is_susp (pc x)) /\ (nev (done_of i) (inflight s) <= 1)%Z) /\
  (forall e, e ∈ inflight s -> kind e = Normal ->
     exists i x, co e = Some i /\ sels s !! i = Some x /\ pc x = CSusp /\ id e = i /\ token e = s_token x /\ extra e = s_extra x).
Proof.
  intros Hr%cq_inv_reachable. split_and!.
  - apply Hr.
  - intros i x Hx. destruct (iv_flight _ Hr i x Hx) as (F1 & F2 & _). split; [done|lia].
  - intros e He Hk. pose proof (iv_events _ Hr e He) as Hok. unfold event_ok in Hok. by rewrite Hk in Hok.
Qed.

(** [Finished] is reported, and [Drop] returns without a panic, only when every
    select has counted itself out: none will run again or send another event. *)
Theorem cq_finished s :
  reachable step new s -> (Z.of_nat (length (sels s)) <= Word.usize_max)%Z ->
  pp s = PReady (PollErr Finished) \/ pp s = PFreed false ->
  forall i x, sels s !! i = Some x -> counted (pc x) = false.
Proof.
  intros Hr%cq_inv_reachable Hb Hp i x Hx. assert (Ha : alive s = 0%Z) by (apply (iv_fin _ Hr Hb); destruct Hp as [->| ->]; done).
  pose proof (zsum_zero_lookup _ _ _ _ (fun c => b2z_nonneg (counted (pc c))) Ha Hx) as H. simpl in H. by destruct (counted (pc x)).
Qed.

(** Where the queue is not safe to drop.  (1) A panic of a select that [poll]
    rethrows poisons the lock of the selectors, whose guard is still alive; the
    [unwrap] in the [Drop] of the queue then panics during the unwind and the
    process aborts.  (2) [subscribe] uses the queue after its push, when
    the poller may already have run the coroutine to its end: the queue is freed
    under it.  (3) [poll] can see the counter at zero without having seen the last
    [Done] event, so [Drop] does not join that coroutine, which is still about to use the
    queue.  (4) A panic found in [Drop] leaves it at once, with the
    other selects still running. *)
Theorem cq_unsafe_drop :
  pp (final rethrown) = PAbort /\
  (pp (final late_subscribe) = PFreed false /\ map pc (sels (final late_subscribe)) = [CEnd COk] /\ kers (final late_subscribe) = [KTake false]) /\
  (pp (final late_done) = PFreed false /\ map pc (sels (final late_done)) = [CDTake false COk]) /\
  (pp (final panic_in_drop) = PFreed true /\ map pc (sels (final panic_in_drop)) = [CEnd CPanic; CRun false]) /\
  Forall (fun es => is_Some (run step es new)) [rethrown; late_subscribe; late_done; panic_in_drop].
Proof.
  split; [vm_compute; reflexivity|]. do 3 (split; [vm_compute; repeat split; reflexivity|]).
  repeat (apply Forall_cons; split; [vm_compute; by eexists|]). by apply Forall_nil.
Qed.

(** Once a panic was rethrown, [check_panic] joins nobody any more: a poller that goes
    on can then park with every select ended. *)
Theorem cq_lost_after_panic :
  is_Some (run step polled_after_panic new) /\ exists k,
    pp (final polled_after_panic) = PPark (User false) k /\ Slot.token k (slot (final polled_after_panic)) = false /\
    map pc (sels (final polled_after_panic)) = [CEnd CPanic; CEnd COk] /\ kers (final polled_after_panic) = [] /\
    ev_queue (final polled_after_panic) = [] /\ cnt (final polled_after_panic) = 0%Z.
Proof. split; [vm_compute; by eexists|]. exists 0. vm_compute. repeat split; reflexivity. Qed.

Lemma cq_wakeup_not_lost_witness :
  let s := final demo_park in
  ev_queue s = [] /\ Slot.to_wake (slot s) = Some 0 /\
  (forall i x, sels s !! i = Some x -> pc x <> CSusp) /\ (exists i x, sels s !! i = Some x /\ pc x = CBlocked).
Proof.
  apply (cq_wakeup_not_lost (final demo_park) (User false)).
  - apply run_reachable with (es := demo_park). vm_compute. reflexivity.
  - vm_compute. reflexivity.
  - vm_compute. reflexivity.
  - vm_compute. reflexivity.
  - intros [|j] x; vm_compute; intros; by simplify_eq.
  - intros [|[|i]] x; vm_compute; intros; simplify_eq; [by left|done..].
Defined.

Lemma cq_events_conserved_witness :
  pp (final demo_queued) <> PBroken /\
  (forall i x, sels (final demo_queued) !! i = Some x ->
     nev (normal_of i) (inflight (final demo_queued)) = b2z (is_susp (pc x)) /\ (nev (done_of i) (inflight (final demo_queued)) <= 1)%Z) /\
  (forall e, e ∈ inflight (final demo_queued) -> kind e = Normal ->
     exists i x, co e = Some i /\ sels (final demo_queued) !! i = Some x /\ pc x = CSusp /\ id e = i /\ token e = s_token x /\ extra e = s_extra x).
Proof.
  apply (cq_events_conserved (final demo_queued)). apply run_reachable with (es := demo_queued). vm_compute. reflexivity.
Defined.

Lemma cq_finished_witness :
  length (sels (final demo_finished)) = 1 /\ forall i x, sels (final demo_finished) !! i = Some x -> counted (pc x) = false.
Proof.
  split; [vm_compute; reflexivity|].
  apply (cq_finished (final demo_finished)).
  - apply run_reachable with (es := demo_finished). vm_compute. reflexivity.
  - vm_compute. discriminate.
  - right. vm_compute. reflexivity.
Defined.

End Cq.
