(* ===== verification/SpmcQueue.v ===== *)
(** * SpmcQueue: the work-stealing queue of a worker

    [may_queue/src/spmc.rs]: the owner pushes and pops, any thread pops or takes
    what is left of a block.  [head] packs the address of a block, the offset in it
    and a lock bit; consumers claim slots by a compare-and-swap on it, which
    only sees addresses: a block may have been freed and its address used
    again (ABA) since a consumer looked at [head].  Blocks count their unread
    slots and are freed by the consumer that reads the last one.

    Blocks are numbered in the order of their allocation; a pointer is a number, and
    [addr] is the address the allocator chose.  Indices do not wrap: it would take
    [2 ^ 64] pushes. *)

From stdpp Require Import base numbers list.
From Stdlib Require Import ZArith Lia ZifyNat.
From S2P Require Import Prelude.

#[local] Ltac Zify.zify_post_hook ::= Z.div_mod_to_equations.

Module Spmc.

Definition BLOCK_SHIFT : nat := 5.
Definition BLOCK_SIZE : nat := 2 ^ BLOCK_SHIFT.
Definition BLOCK_MASK : nat := BLOCK_SIZE - 1.

Section queue.
Context {T : Type}.

Record BlockNode := Block { addr : nat; data : list (option T); used : Z; next : option nat; start : nat; freed : bool }.
(** [BlockPtr]: block, offset, lock bit. *)
Record BlockPtr := Ptr { blk : nat; off : nat; locked : bool }.

(** [pop], [bulk_pop], and [local_pop] of the owner. *)
Inductive kind := KPop | KBulk | KLocal.
(** A consumer; [a], [o]: the address and the offset it saw in [head]; [p], [tb]: the
    index and the address of the tail; [lo], [hi]: offsets of the slots it took in
    block [n].  [SDone i vs]: it returned [vs], taken from index [i] on.  [SNull]: it
    followed a null pointer; [SUninit]: it read a slot nobody wrote; [SSkip]: it took
    the branch of [local_pop] that gives up a slot.  These three cannot be reached, and
    the model does not go on from there. *)
Inductive spc :=
  | SIdle | SIndex (k : kind) (a o : nat) | SBlock (k : kind) (a o p : nat) | STry (k : kind) (a o p tb : nat)
  | SLock (k : kind) (n o : nat) | SRestore (n o : nat) | SNext (n o : nat) | SPart (n o hi : nat)
  | SWait (k : kind) (n lo hi : nat) | SGet (n lo hi : nat) | SMark (n lo hi : nat) (vs : list T) | SFree (n lo : nat) (vs : list T)
  | SDone (i : nat) (vs : list T) | SNull | SUninit | SSkip (n lo : nat).
(** The owner's [push]. *)
Inductive opc := OIdle | OSet (v : T) | OLink (v : T) | OTail (v : T) (nb : nat) | OIndex (v : T).

(** Thread 0 is the owner; [pushed], [taken] (the index and the value of every read): history. *)
Record Queue := St {
  blocks : list BlockNode; head : BlockPtr; tail_block : nat; tail_index : nat;
  owner : opc; pcs : list spc; pushed : list T; taken : list (nat * T)
}.

Definition set_blocks (l : list BlockNode) (s : Queue) : Queue :=
  St l (head s) (tail_block s) (tail_index s) (owner s) (pcs s) (pushed s) (taken s).
Definition set_head (h : BlockPtr) (s : Queue) : Queue :=
  St (blocks s) h (tail_block s) (tail_index s) (owner s) (pcs s) (pushed s) (taken s).
Definition set_tail (b i : nat) (s : Queue) : Queue :=
  St (blocks s) (head s) b i (owner s) (pcs s) (pushed s) (taken s).
Definition set_owner (x : opc) (l : list T) (s : Queue) : Queue :=
  St (blocks s) (head s) (tail_block s) (tail_index s) x (pcs s) l (taken s).
Definition set_pc (t : nat) (x : spc) (s : Queue) : Queue :=
  St (blocks s) (head s) (tail_block s) (tail_index s) (owner s) (<[t := x]> (pcs s)) (pushed s) (taken s).
Definition take_slots (l : list (nat * T)) (s : Queue) : Queue :=
  St (blocks s) (head s) (tail_block s) (tail_index s) (owner s) (pcs s) (pushed s) (taken s ++ l).

(** ** Blocks *)
Definition new_block (a index : nat) : BlockNode := Block a (replicate BLOCK_SIZE None) (Z.of_nat BLOCK_SIZE) None index false.
Definition set (i : nat) (v : T) (b : BlockNode) : BlockNode :=
  Block (addr b) (<[i mod BLOCK_SIZE := Some v]> (data b)) (used b) (next b) (start b) (freed b).
Definition set_next (m : nat) (b : BlockNode) : BlockNode := Block (addr b) (data b) (used b) (Some m) (start b) (freed b).
Definition mark_slots_read (size : nat) (b : BlockNode) : BlockNode :=
  Block (addr b) (data b) (Word.sub (used b) (Z.of_nat size)) (next b) (start b) (freed b).
Definition free (b : BlockNode) : BlockNode := Block (addr b) (data b) (used b) (next b) (start b) true.
(** [get] of every offset in turn; [None] if one of them is not initialised. *)
Fixpoint all_some (l : list (option T)) : option (list T) :=
  match l with
  | [] => Some []
  | Some v :: l' => match all_some l' with Some vs => Some (v :: vs) | None => None end
  | None :: _ => None
  end.
Definition copy_to_bulk (lo hi : nat) (b : BlockNode) : option (list T) := all_some (take (hi - lo) (drop lo (data b))).

Definition block (n : nat) (s : Queue) : BlockNode := default (new_block 0 0) (blocks s !! n).
Definition upd_block (n : nat) (f : BlockNode -> BlockNode) (s : Queue) : Queue := set_blocks (alter f n (blocks s)) s.

Definition new (n : nat) : Queue := St [new_block 0 0] (Ptr 0 0 false) 0 0 OIdle (replicate n SIdle) [] [].

(** An address the allocator can return: no block that is in use has it. *)
Definition fresh (a : nat) (s : Queue) : bool := forallb (fun b => freed b || negb (addr b =? a)) (blocks s).

(** ** [push] *)
Definition push (a : nat) (s : Queue) : option Queue :=
  match owner s with
  | OIdle => None
  | OSet v =>
      let s' := upd_block (tail_block s) (set (tail_index s) v) s in
      Some (set_owner (if S (tail_index s) mod BLOCK_SIZE =? 0 then OLink v else OIndex v) (pushed s) s')
  | OLink v =>
      if fresh a s then
        let nb := length (blocks s) in
        let s' := upd_block (tail_block s) (set_next nb) (set_blocks (blocks s ++ [new_block a (S (tail_index s))]) s) in
        Some (set_owner (OTail v nb) (pushed s) s')
      else None
  | OTail v nb => Some (set_owner (OIndex v) (pushed s) (set_tail nb (tail_index s) s))
  | OIndex v => Some (set_owner OIdle (pushed s ++ [v]) (set_tail (tail_block s) (S (tail_index s)) s))
  end.

(** ** The consumers *)
Definition saw (k : kind) (s : Queue) : spc := SIndex k (addr (block (blk (head s)) s)) (off (head s)).
(** The owner knows its tail. *)
Definition saw_local (s : Queue) : spc :=
  STry KLocal (addr (block (blk (head s)) s)) (off (head s)) (tail_index s) (addr (block (tail_block s) s)).
Definition load (t : nat) (x : spc) (s : Queue) : option Queue :=
  match x with
  | SIndex k a o => Some (set_pc t (SBlock k a o (tail_index s)) s)
  | SBlock k a o p => Some (set_pc t (STry k a o p (addr (block (tail_block s) s))) s)
  | _ => None
  end.

(** The new offset, 0 for the lock. *)
Definition new_id (k : kind) (a o p tb : nat) : nat :=
  match k with
  | KBulk => if a =? tb then p mod BLOCK_SIZE else 0
  | _ => if o =? BLOCK_MASK then 0 else S o
  end.
Definition looks_empty (a o p tb : nat) : bool := (a =? tb) && (p mod BLOCK_SIZE <=? o).
(** The check and the compare-and-swap; [weak]: it fails spuriously. *)
Definition compare_exchange (t : nat) (weak : bool) (x : spc) (s : Queue) : option Queue :=
  match x with
  | STry k a o p tb =>
      if looks_empty a o p tb then Some (set_pc t (SDone 0 []) s)
      else
        let h := head s in
        if negb (locked h) && (addr (block (blk h) s) =? a) && (off h =? o) && negb weak then
          let y := new_id k a o p tb in
          Some (if y =? 0 then set_pc t (SLock k (blk h) o) (set_head (Ptr (blk h) o true) s)
                else set_pc t (SWait k (blk h) o y) (set_head (Ptr (blk h) y false) s))
        else Some (set_pc t (match k with KLocal => saw_local s | _ => saw k s end) s)
  | _ => None
  end.
(** The last slots of a block are taken under the lock. *)
Definition with_lock (t : nat) (x : spc) (s : Queue) : option Queue :=
  match x with
  | SLock k n o =>
      let i := start (block n s) + o in
      let e := match k with KBulk => Nat.min (start (block n s) + BLOCK_SIZE) (tail_index s) | _ => S i end in
      Some (set_pc t (if tail_index s <=? i then SRestore n o
                      else if e mod BLOCK_SIZE =? 0 then SNext n o else SPart n o (e mod BLOCK_SIZE)) s)
  | SRestore n o => Some (set_pc t (SDone 0 []) (set_head (Ptr n o false) s))
  | SNext n o =>
      Some (match next (block n s) with
            | Some m => set_pc t (SGet n o BLOCK_SIZE) (set_head (Ptr m 0 false) s)
            | None => set_pc t SNull s
            end)
  | SPart n o hi => Some (set_pc t (SGet n o hi) (set_head (Ptr n hi false) s))
  | _ => None
  end.
(** A slot claimed by a compare-and-swap may lie ahead of the tail: a thief waits for
    it, the owner skips it. *)
Definition wait (t : nat) (x : spc) (s : Queue) : option Queue :=
  match x with
  | SWait k n lo hi =>
      Some (if start (block n s) + hi <=? tail_index s then set_pc t (SGet n lo hi) s
            else match k with KLocal => set_pc t (SSkip n lo) (set_tail (tail_block s) (S (tail_index s)) s) | _ => s end)
  | _ => None
  end.
Definition get (t : nat) (x : spc) (s : Queue) : option Queue :=
  match x with
  | SGet n lo hi =>
      Some (match copy_to_bulk lo hi (block n s) with
            | Some vs => set_pc t (SMark n lo hi vs) (take_slots (zip (seq (start (block n s) + lo) (hi - lo)) vs) s)
            | None => set_pc t SUninit s
            end)
  | SMark n lo hi vs =>
      let s' := upd_block n (mark_slots_read (hi - lo)) s in
      Some (set_pc t (if (used (block n s) =? Z.of_nat (hi - lo))%Z then SFree n lo vs else SDone (start (block n s) + lo) vs) s')
  | SFree n lo vs => Some (set_pc t (SDone (start (block n s) + lo) vs) (upd_block n free s))
  | _ => None
  end.

(** [Queue::is_empty], of the loads of one moment. *)
Definition is_empty (s : Queue) : bool :=
  (addr (block (blk (head s)) s) =? addr (block (tail_block s) s)) && (off (head s) =? tail_index s mod BLOCK_SIZE).

Definition at_home (x : spc) : bool := match x with SIdle | SDone _ _ => true | _ => false end.
Definition is_idle (x : opc) : bool := match x with OIdle => true | _ => false end.

Inductive event := Push (v : T) | Pop (t : nat) (k : kind) | O (a : nat) | S_ (t : nat) (weak : bool).

Definition step (s : Queue) (e : event) : option Queue :=
  match e with
  | Push v =>
      match pcs s !! 0 with
      | Some x => if at_home x && is_idle (owner s) then Some (set_owner (OSet v) (pushed s) s) else None
      | None => None
      end
  | Pop t k =>
      match pcs s !! t with
      | Some x =>
          if at_home x && (negb (t =? 0) || is_idle (owner s)) then
            match k with
            | KLocal => if t =? 0 then Some (set_pc t (saw_local s) s) else None
            | _ => Some (set_pc t (saw k s) s)
            end
          else None
      | None => None
      end
  | O a => push a s
  | S_ t weak =>
      match pcs s !! t with
      | Some x =>
          match x with
          | SIndex _ _ _ | SBlock _ _ _ _ => load t x s
          | STry _ _ _ _ _ => compare_exchange t weak x s
          | SLock _ _ _ | SRestore _ _ | SNext _ _ | SPart _ _ _ => with_lock t x s
          | SWait _ _ _ _ => wait t x s
          | _ => get t x s
          end
      | None => None
      end
  end.

(** ** The invariant *)

(** The index of the next slot to claim. *)
Definition hidx (s : Queue) : nat := BLOCK_SIZE * blk (head s) + off (head s).
Definition locks (x : spc) : option (nat * nat) :=
  match x with SLock _ n o | SRestore n o | SNext n o | SPart n o _ => Some (n, o) | _ => None end.
Definition is_locking (x : spc) : bool := match locks x with Some _ => true | None => false end.
(** Slots claimed and not yet counted as read; slots claimed and not yet read. *)
Definition claim (n : nat) (x : spc) : Z :=
  match x with SWait _ m lo hi | SGet m lo hi | SMark m lo hi _ => if m =? n then Z.of_nat (hi - lo) else 0%Z | _ => 0%Z end.
Definition covers (n i : nat) (x : spc) : bool :=
  match x with SWait _ m lo hi | SGet m lo hi => (m =? n) && (lo <=? i) && (i <? hi) | _ => false end.
Definition frees (n : nat) (x : spc) : bool := match x with SFree m _ _ => m =? n | _ => false end.
Definition unclaimed (s : Queue) (n : nat) : nat :=
  if n <? blk (head s) then 0 else if n =? blk (head s) then BLOCK_SIZE - off (head s) else BLOCK_SIZE.
Definition times (i : nat) (l : list (nat * T)) : Z := zsum (fun x => b2z (x.1 =? i)) l.

Definition slice (i : nat) (vs l : list T) : Prop := vs = take (length vs) (drop i l).

Definition own_ok (s : Queue) : Prop :=
  match owner s with
  | OIdle | OSet _ => tail_block s = tail_index s / BLOCK_SIZE /\ length (blocks s) = S (tail_block s)
  | OLink _ => S (tail_index s) mod BLOCK_SIZE = 0 /\ tail_block s = tail_index s / BLOCK_SIZE /\ length (blocks s) = S (tail_block s)
  | OTail _ nb => S (tail_index s) mod BLOCK_SIZE = 0 /\ tail_block s = tail_index s / BLOCK_SIZE /\ nb = S (tail_block s) /\ length (blocks s) = S nb
  | OIndex _ => tail_block s = S (tail_index s) / BLOCK_SIZE /\ length (blocks s) = S (tail_block s)
  end.
(** The value the owner has stored but not yet committed. *)
Definition stored (x : opc) : option T := match x with OLink v | OTail v _ | OIndex v => Some v | _ => None end.

Definition pc_ok (t : nat) (x : spc) (s : Queue) : Prop :=
  match x with
  | SIdle => True
  | SIndex k _ o | SBlock k _ o _ => k <> KLocal /\ o < BLOCK_SIZE
  | STry k a o p tb =>
      o < BLOCK_SIZE /\
      (k = KLocal -> t = 0 /\ owner s = OIdle /\ p = tail_index s /\ tb = addr (block (tail_block s) s) /\
         (a = tb -> BLOCK_SIZE * tail_block s + o <= hidx s))
  | SLock k n o => (k <> KBulk -> o = BLOCK_MASK) /\ (k = KLocal -> BLOCK_SIZE * n + o < tail_index s)
  | SRestore _ _ => True
  | SNext n _ => BLOCK_SIZE * S n <= tail_index s
  | SPart n o hi => o < hi < BLOCK_SIZE /\ BLOCK_SIZE * n + hi <= tail_index s
  | SWait k n lo hi => lo < hi < BLOCK_SIZE /\ n < length (blocks s) /\ (k = KLocal -> BLOCK_SIZE * n + hi <= tail_index s)
  | SGet n lo hi => lo < hi <= BLOCK_SIZE /\ n < length (blocks s) /\ BLOCK_SIZE * n + hi <= tail_index s
  | SMark n lo hi vs => lo < hi <= BLOCK_SIZE /\ n < length (blocks s) /\ slice (BLOCK_SIZE * n + lo) vs (pushed s)
  | SFree n lo vs => n < length (blocks s) /\ slice (BLOCK_SIZE * n + lo) vs (pushed s)
  | SDone i vs => slice i vs (pushed s)
  | SNull | SUninit | SSkip _ _ => False
  end.

Record inv (s : Queue) : Prop := {
  iv_own : own_ok s;
  iv_pushed : length (pushed s) = tail_index s;
  iv_block : forall n b, blocks s !! n = Some b ->
    start b = BLOCK_SIZE * n /\ length (data b) = BLOCK_SIZE /\ next b = (if S n <? length (blocks s) then Some (S n) else None) /\
    (used b <= Z.of_nat BLOCK_SIZE)%Z;
  iv_data : forall n b i, blocks s !! n = Some b -> i < BLOCK_SIZE -> BLOCK_SIZE * n + i < tail_index s ->
    data b !! i = Some (pushed s !! (BLOCK_SIZE * n + i));
  iv_stored : forall v b, stored (owner s) = Some v -> blocks s !! (tail_index s / BLOCK_SIZE) = Some b ->
    data b !! (tail_index s mod BLOCK_SIZE) = Some (Some v);
  iv_head : blk (head s) <= tail_block s /\ off (head s) < BLOCK_SIZE;
  iv_addr : forall n m b c, blocks s !! n = Some b -> blocks s !! m = Some c -> freed b = false -> freed c = false -> addr b = addr c -> n = m;
  iv_used : forall n b, blocks s !! n = Some b -> used b = (Z.of_nat (unclaimed s n) + zsum (claim n) (pcs s))%Z;
  iv_freed : forall n b, blocks s !! n = Some b ->
    (b2z (freed b) + zsum (fun x => b2z (frees n x)) (pcs s))%Z = b2z (used b =? 0)%Z;
  iv_lock : zsum (fun x => b2z (is_locking x)) (pcs s) = b2z (locked (head s));
  iv_locks : forall t x n o, pcs s !! t = Some x -> locks x = Some (n, o) -> n = blk (head s) /\ o = off (head s);
  iv_cover : forall n i, i < BLOCK_SIZE ->
    (zsum (fun x => b2z (covers n i x)) (pcs s) + times (BLOCK_SIZE * n + i) (taken s))%Z = b2z (BLOCK_SIZE * n + i <? hidx s);
  iv_taken : forall i v, (i, v) ∈ taken s -> pushed s !! i = Some v;
  iv_pc : forall t x, pcs s !! t = Some x -> pc_ok t x s
}.

Lemma size_eq : BLOCK_SIZE = 32.
Proof. reflexivity. Qed.
Lemma mask_eq : BLOCK_MASK = 31.
Proof. reflexivity. Qed.

Lemma claim_nonneg n x : (0 <= claim n x)%Z.
Proof. destruct x; simpl; try case_match; lia. Qed.

Lemma block_lookup n s b : blocks s !! n = Some b -> block n s = b.
Proof. unfold block. by intros ->. Qed.

(** *** Blocks in use *)
Section live.
Context (s : Queue) (Hi : inv s).

Lemma sp_tail_len : tail_block s < length (blocks s).
Proof. pose proof (iv_own _ Hi) as H. unfold own_ok in H. rewrite size_eq in H. destruct (owner s); lia. Qed.
Lemma sp_get n : n < length (blocks s) -> blocks s !! n = Some (block n s).
Proof. intros [b Hb]%lookup_lt_is_Some_2. by rewrite (block_lookup _ _ _ Hb). Qed.
Lemma sp_head_len : blk (head s) < length (blocks s).
Proof. pose proof sp_tail_len. pose proof (iv_head _ Hi). lia. Qed.

(** A block with an unread slot is in use. *)
Lemma sp_live n : n < length (blocks s) -> (0 < unclaimed s n \/ exists t x, pcs s !! t = Some x /\ (0 < claim n x)%Z) -> freed (block n s) = false.
Proof.
  intros Hn Hu. pose proof (iv_used _ Hi _ _ (sp_get n Hn)) as Hd. pose proof (iv_freed _ Hi _ _ (sp_get n Hn)) as Hf.
  assert (Hpos : (0 < used (block n s))%Z).
  { rewrite Hd. destruct Hu as [Hu|(t & x & Hx & Hc)].
    - pose proof (zsum_nonneg _ (pcs s) (claim_nonneg n)). lia.
    - pose proof (zsum_lookup_le _ _ _ _ (claim_nonneg n) Hx). lia. }
  destruct (Z.eqb_spec (used (block n s)) 0); [lia|]. destruct (freed (block n s)); [|done].
  pose proof (zsum_nonneg (fun x => b2z (frees n x)) (pcs s) (fun x => b2z_nonneg _)). simpl in Hf. lia.
Qed.
Lemma sp_live_from n : n < length (blocks s) -> blk (head s) <= n -> freed (block n s) = false.
Proof.
  intros Hn Hh. apply sp_live; [done|left]. unfold unclaimed. pose proof (iv_head _ Hi). destruct (Nat.ltb_spec n (blk (head s))); [lia|].
  rewrite size_eq in *. destruct (n =? blk (head s)); lia.
Qed.
(** The compare-and-swap sees the head's block, whatever its address was before. *)
Lemma sp_head_addr : addr (block (blk (head s)) s) = addr (block (tail_block s) s) -> blk (head s) = tail_block s.
Proof.
  intros Ha. pose proof sp_head_len as Hh. pose proof sp_tail_len as Ht. pose proof (iv_head _ Hi) as [Hle _].
  eapply (iv_addr _ Hi); [by apply sp_get|by apply sp_get| | |done]; apply sp_live_from; lia.
Qed.
(** Whose slots are read is in use. *)
Lemma sp_claimed t x n : pcs s !! t = Some x -> (0 < claim n x)%Z -> n < length (blocks s) -> freed (block n s) = false.
Proof. intros Hx Hc Hn. apply sp_live; [done|]. right. eauto. Qed.
Lemma sp_start n : n < length (blocks s) -> start (block n s) = BLOCK_SIZE * n.
Proof. intros Hn. apply (iv_block _ Hi _ _ (sp_get n Hn)). Qed.
(** A full part of a block has been committed. *)
Lemma sp_next n : BLOCK_SIZE * S n <= tail_index s -> next (block n s) = Some (S n) /\ n < tail_block s.
Proof.
  intros Hn. pose proof (iv_own _ Hi) as Ho. unfold own_ok in Ho. rewrite size_eq in *.
  assert (Hlt : n < tail_block s) by (destruct (owner s); lia).
  pose proof sp_tail_len. destruct (iv_block _ Hi n (block n s)) as (_ & _ & -> & _); [apply sp_get; lia|].
  split; [|done]. destruct (Nat.ltb_spec (S n) (length (blocks s))); [done|lia].
Qed.
End live.

(** *** What a consumer knows stays true *)
Lemma slice_app i vs (l k : list T) : slice i vs l -> slice i vs (l ++ k).
Proof.
  unfold slice. intros H. assert (Hl : length vs <= length (drop i l)) by (rewrite H, length_take; lia).
  rewrite drop_app, take_app_le by done. done.
Qed.
Lemma slice_nil i (l : list T) : slice i [] l.
Proof. done. Qed.

Definition is_local (x : spc) : bool := match x with STry KLocal _ _ _ _ => true | _ => false end.

Lemma sp_pc_mono t x s s' :
  pc_ok t x s -> tail_index s <= tail_index s' -> hidx s <= hidx s' -> (exists l, pushed s' = pushed s ++ l) ->
  length (blocks s) <= length (blocks s') ->
  (is_local x = true -> owner s = OIdle -> owner s' = OIdle /\ tail_index s' = tail_index s /\ tail_block s' = tail_block s /\
     addr (block (tail_block s) s') = addr (block (tail_block s) s)) -> pc_ok t x s'.
Proof.
  intros H Ht Hh [l Hp] Hb Hl.
  destruct x as [|k a o|k a o p|k a o p tb|k n o|n o|n o|n o hi|k n lo hi|n lo hi|n lo hi vs|n lo vs|i vs| | |]; simpl in *; rewrite ?Hp; auto using slice_app; try lia.
  - destruct H as [H1 H2]. split; [done|]. intros ->. destruct (H2 eq_refl) as (? & Ho & -> & -> & Hx).
    destruct (Hl eq_refl Ho) as (? & E1 & E2 & E3). rewrite E1, E2, E3. split_and!; try done. intros Ha. specialize (Hx Ha). lia.
  - destruct H as [? Hk]. split; [done|]. intros E. specialize (Hk E). lia.
  - destruct H as (? & ? & ?). split_and!; [lia..|]. intros Hk. assert (BLOCK_SIZE * n + hi <= tail_index s) by auto. lia.
  - destruct H as (? & ? & ?). split_and!; auto using slice_app; lia.
  - destruct H. auto using slice_app with lia.
Qed.

Lemma sp_locks_count s t x :
  inv s -> pcs s !! t = Some x -> is_locking x = true -> locked (head s) = true /\ forall i y, i <> t -> pcs s !! i = Some y -> locks y = None.
Proof.
  intros Hi Hx Hl. pose proof (iv_lock _ Hi) as Hc. split.
  - pose proof (zsum_lookup_le _ _ _ _ (fun x => b2z_nonneg (is_locking x)) Hx) as H. simpl in H. rewrite Hl in H. simpl in H.
    destruct (locked (head s)); [done|]. simpl in Hc. lia.
  - intros i y Hne Hy. destruct (locks y) eqn:E; [|done]. exfalso. assert (Hly : is_locking y = true) by (unfold is_locking; by rewrite E).
    pose proof (zsum_lookup2_le _ _ _ _ _ _ (fun x => b2z_nonneg (is_locking x)) Hne Hy Hx) as H. simpl in H.
    rewrite Hl, Hly in H. simpl in H. pose proof (b2z_le1 (locked (head s))). lia.
Qed.

(** A consumer moves, and [head] with it; the blocks, the tail and the history stay. *)
Lemma sp_inv_head s t x y h :
  inv s -> pcs s !! t = Some x ->
  let s' := set_pc t y (set_head h s) in
  blk h <= tail_block s -> off h < BLOCK_SIZE -> hidx s <= hidx s' ->
  (forall n, Z.of_nat (unclaimed s' n) + claim n y = Z.of_nat (unclaimed s n) + claim n x)%Z ->
  (forall n i : nat, (i < BLOCK_SIZE)%nat ->
     b2z (covers n i y) - b2z (covers n i x) = b2z (BLOCK_SIZE * n + i <? hidx s')%nat - b2z (BLOCK_SIZE * n + i <? hidx s)%nat)%Z ->
  (forall n, frees n y = false /\ frees n x = false) ->
  (b2z (is_locking y) - b2z (is_locking x) = b2z (locked h) - b2z (locked (head s)))%Z ->
  (forall n o, locks y = Some (n, o) -> n = blk h /\ o = off h) ->
  ((blk h = blk (head s) /\ off h = off (head s)) \/ locked (head s) = false \/ is_locking x = true) ->
  pc_ok t y s' -> inv s'.
Proof.
  intros Hi Hx s' Hb Ho Hh Hu Hc Hf Hl Hly Hoth Hpc. pose proof Hi as [H1 H2 H3 H4 H5 H6 H7 H8 H9 H10 H11 H12 H13 H14].
  split; simpl; auto.
  - intros n b Hn. rewrite (H8 n b Hn), (zsum_insert _ _ _ _ _ Hx). specialize (Hu n). lia.
  - intros n b Hn. rewrite (zsum_insert _ _ _ _ _ Hx). destruct (Hf n) as [-> ->]. simpl. rewrite <-(H9 n b Hn). lia.
  - rewrite (zsum_insert _ _ _ _ _ Hx), H10. lia.
  - intros i z n o [(<- & -> & _)|[Hne Hz]]%lookup_insert_list Hlz; [auto|].
    destruct Hoth as [[-> ->]|[Hun|Hlk]]; [by eapply H11| |].
    + exfalso. assert (Hlz' : is_locking z = true) by (unfold is_locking; by rewrite Hlz).
      destruct (sp_locks_count s i z Hi Hz Hlz'). congruence.
    + exfalso. destruct (sp_locks_count s t x Hi Hx Hlk) as [_ Hno]. specialize (Hno i z (not_eq_sym Hne) Hz). congruence.
  - intros n i Hlt. rewrite (zsum_insert _ _ _ _ _ Hx). specialize (Hc n i Hlt). specialize (H12 n i Hlt). simpl in *. lia.
  - intros i z [(<- & -> & _)|[Hne Hz]]%lookup_insert_list; [done|].
    apply (sp_pc_mono i z s); [by apply H14|done|done|by exists []; rewrite app_nil_r|done|done].
Qed.

(** Only the consumer moves. *)
Lemma sp_inv_pc s t x y :
  inv s -> pcs s !! t = Some x -> (forall n, claim n y = claim n x) -> (forall n i, covers n i y = covers n i x) ->
  (forall n, frees n y = false /\ frees n x = false) -> locks y = locks x -> pc_ok t y s -> inv (set_pc t y s).
Proof.
  intros Hi Hx Hc Hv Hf Hl Hp. pose proof (iv_head _ Hi) as [Hb Ho].
  replace (set_pc t y s) with (set_pc t y (set_head (head s) s)) by (by destruct s).
  eapply sp_inv_head; try done.
  - intros n. rewrite Hc. done.
  - intros n i _. rewrite Hv. unfold hidx. simpl. lia.
  - unfold is_locking. rewrite Hl. lia.
  - intros n o. rewrite Hl. by eapply (iv_locks _ Hi).
  - by left.
Qed.

(** *** The steps of a consumer *)
Definition plain (x : spc) : bool :=
  match x with SWait _ _ _ _ | SGet _ _ _ | SMark _ _ _ _ | SFree _ _ _ | SLock _ _ _ | SRestore _ _ | SNext _ _ | SPart _ _ _ => false | _ => true end.
Lemma sp_plain x : plain x = true ->
  (forall n, claim n x = 0%Z) /\ (forall n i, covers n i x = false) /\ (forall n, frees n x = false) /\ locks x = None /\ is_locking x = false.
Proof. by destruct x. Qed.

Lemma sp_inv_plain s t x y :
  inv s -> pcs s !! t = Some x -> plain x = true -> plain y = true -> pc_ok t y s -> inv (set_pc t y s).
Proof.
  intros Hi Hx (X1 & X2 & X3 & X4 & _)%sp_plain (Y1 & Y2 & Y3 & Y4 & _)%sp_plain Hp.
  apply (sp_inv_pc s t x y); auto; intros; by rewrite ?X1, ?X2, ?X4, ?Y1, ?Y2, ?Y4.
Qed.

Lemma sp_saw k s t : inv s -> k <> KLocal -> pc_ok t (saw k s) s.
Proof. intros Hi Hk. split; [done|]. apply (iv_head _ Hi). Qed.
Lemma sp_saw_local s : inv s -> owner s = OIdle -> pc_ok 0 (saw_local s) s.
Proof.
  intros Hi Ho. pose proof (iv_head _ Hi) as [_ Hoff]. split; [done|]. intros _. split_and!; try done.
  intros Ha%sp_head_addr; [|done]. unfold hidx. rewrite Ha. done.
Qed.

Lemma sp_inv_load s t x s' : inv s -> pcs s !! t = Some x -> load t x s = Some s' -> inv s'.
Proof.
  intros Hi Hx Hs. pose proof (iv_pc _ Hi _ _ Hx) as Hp. destruct x; try done; injection Hs as <-;
    eapply sp_inv_plain; try done; destruct Hp; split; done.
Qed.

(** The owner claims only what it has pushed. *)
Lemma sp_local_claim s t o p tb :
  inv s -> pc_ok t (STry KLocal (addr (block (blk (head s)) s)) o p tb) s -> off (head s) = o ->
  looks_empty (addr (block (blk (head s)) s)) o p tb = false -> BLOCK_SIZE * blk (head s) + S o <= tail_index s.
Proof.
  intros Hi [Ho Hk] Hoff Hl. destruct (Hk eq_refl) as (-> & Hown & -> & -> & _). pose proof (iv_own _ Hi) as Hw. unfold own_ok in Hw. rewrite Hown in Hw.
  pose proof (iv_head _ Hi) as [Hb _]. unfold looks_empty in Hl. rewrite size_eq in *.
  destruct (Nat.eqb_spec (addr (block (blk (head s)) s)) (addr (block (tail_block s) s))) as [Ha|Ha].
  - apply sp_head_addr in Ha; [|done]. rewrite andb_true_l in Hl. apply Nat.leb_gt in Hl. lia.
  - assert (blk (head s) <> tail_block s) by congruence. lia.
Qed.

Lemma sp_new_id k a o p tb :
  o < BLOCK_SIZE -> looks_empty a o p tb = false -> new_id k a o p tb <> 0 ->
  o < new_id k a o p tb < BLOCK_SIZE /\ (k = KLocal -> new_id k a o p tb = S o).
Proof.
  unfold new_id, looks_empty. rewrite mask_eq, size_eq. intros Ho Hl Hn. destruct k.
  - destruct (Nat.eqb_spec o 31); [done|]. split; [lia|done].
  - destruct (a =? tb); [|done]. rewrite andb_true_l in Hl. apply Nat.leb_gt in Hl. split; [lia|done].
  - destruct (Nat.eqb_spec o 31); [done|]. split; [lia|done].
Qed.

(** The claim of a compare-and-swap, or of the lock's holder. *)
Lemma sp_inv_claim s t x y b o :
  inv s -> pcs s !! t = Some x -> plain x = true \/ is_locking x = true ->
  (forall n, claim n x = 0%Z) -> (forall n i, covers n i x = false) -> (forall n, frees n x = false) ->
  b = blk (head s) \/ (b = S (blk (head s)) /\ o = 0) -> hidx s < BLOCK_SIZE * b + o -> o < BLOCK_SIZE -> b <= tail_block s ->
  (forall n, claim n y = if blk (head s) =? n then Z.of_nat (BLOCK_SIZE * b + o - hidx s) else 0%Z) ->
  (forall n i, covers n i y = (blk (head s) =? n) && (off (head s) <=? i) && (i <? BLOCK_SIZE * b + o - BLOCK_SIZE * blk (head s))) ->
  (forall n, frees n y = false) -> locks y = None ->
  locked (head s) = is_locking x -> pc_ok t y (set_pc t y (set_head (Ptr b o false) s)) ->
  inv (set_pc t y (set_head (Ptr b o false) s)).
Proof.
  intros Hi Hx Hpl X1 X2 X3 Hb Hlt Ho Htb Y1 Y2 Y3 Y4 Hlk Hp. pose proof (iv_head _ Hi) as [_ Hoff]. unfold hidx in *.
  eapply (sp_inv_head s t x); try done; cbn [head set_pc set_head blk off locked].
  - unfold hidx. cbn [head set_pc set_head blk off]. lia.
  - intros n. rewrite X1, Y1. unfold unclaimed. cbn [head set_pc set_head blk off]. rewrite size_eq in *.
    destruct (Nat.eqb_spec (blk (head s)) n) as [<-|Hne]; destruct Hb as [->|[-> ->]];
      repeat match goal with |- context [?a <? ?b] => destruct (Nat.ltb_spec a b) | |- context [?a =? ?b] => destruct (Nat.eqb_spec a b) end; lia.
  - intros n i Hn. rewrite X2, Y2. unfold hidx. cbn [head set_pc set_head blk off]. rewrite size_eq in *.
    destruct (Nat.eqb_spec (blk (head s)) n) as [<-|Hne]; destruct Hb as [->|[-> ->]]; simpl;
      repeat match goal with |- context [?a <? ?b] => destruct (Nat.ltb_spec a b) | |- context [?a <=? ?b] => destruct (Nat.leb_spec a b) end; simpl; lia.
  - unfold is_locking at 1. rewrite Y4, Hlk. simpl. lia.
  - intros n o'. by rewrite Y4.
  - destruct (locked (head s)) eqn:Hl; [right; right; congruence|right; by left].
Qed.

Lemma sp_inv_cas s t w x s' : inv s -> pcs s !! t = Some x -> compare_exchange t w x s = Some s' -> inv s'.
Proof.
  intros Hi Hx Hs. pose proof (iv_pc _ Hi _ _ Hx) as Hp. destruct x as [| | |k a o p tb| | | | | | | | | | | |]; try done. unfold compare_exchange in Hs.
  destruct (looks_empty a o p tb) eqn:Hl; [injection Hs as <-; by eapply sp_inv_plain|].
  assert (Hsaw : inv (set_pc t (match k with KLocal => saw_local s | _ => saw k s end) s)).
  { eapply sp_inv_plain; try done; [by destruct k|]. destruct k; [by apply sp_saw..|]. destruct Hp as [_ Hk].
    destruct (Hk eq_refl) as (-> & Ho & _). by apply sp_saw_local. }
  destruct (negb (locked (head s))) eqn:Hlk; [|by injection Hs as <-]. apply negb_true_iff in Hlk.
  destruct (Nat.eqb_spec (addr (block (blk (head s)) s)) a) as [Ha|]; [|by injection Hs as <-].
  destruct (Nat.eqb_spec (off (head s)) o) as [Ho|]; [|by injection Hs as <-]. destruct w; [by injection Hs as <-|].
  clear Hsaw. simpl in Hs. injection Hs as <-. pose proof (iv_head _ Hi) as [Hb Hoff]. subst a.
  assert (Hloc : k = KLocal -> BLOCK_SIZE * blk (head s) + S o <= tail_index s).
  { intros ->. assert (t = 0) as -> by (destruct Hp as [_ Hk]; by destruct (Hk eq_refl)). by eapply sp_local_claim. }
  destruct (Nat.eqb_spec (new_id k (addr (block (blk (head s)) s)) o p tb) 0) as [H0|H0].
  - eapply (sp_inv_head s t _ (SLock k (blk (head s)) o)); try done; try (by subst o).
    + intros n i _. unfold hidx. cbn [head set_pc set_head blk off]. subst o. simpl. lia.
    + simpl. by rewrite Hlk.
    + by intros n o' [= <- <-].
    + by left.
    + split; [|intros E; specialize (Hloc E); cbn [tail_index set_pc set_head]; lia]. unfold new_id in H0. intros Hk. destruct k; [|done|];
        (destruct (Nat.eqb_spec o BLOCK_MASK); [done|discriminate H0]).
  - destruct (sp_new_id k _ o p tb (proj1 Hp) Hl H0) as [Hn Hlo].
    eapply (sp_inv_claim s t _ (SWait k (blk (head s)) o _) (blk (head s))); try done; auto; try lia.
    + unfold hidx. lia.
    + intros n. cbn [claim]. destruct (_ =? n); [|done]. unfold hidx. lia.
    + intros n i. subst o. cbn [covers]. f_equal. destruct (Nat.ltb_spec i (new_id k (addr (block (blk (head s)) s)) (off (head s)) p tb)),
        (Nat.ltb_spec i (BLOCK_SIZE * blk (head s) + new_id k (addr (block (blk (head s)) s)) (off (head s)) p tb - BLOCK_SIZE * blk (head s))); try done; lia.
    + split_and!; [lia..|exact (sp_head_len s Hi)|]. intros E. specialize (Hloc E). rewrite (Hlo E). cbn [tail_index set_pc set_head]. lia.
Qed.

Lemma sp_inv_lock s t x s' : inv s -> pcs s !! t = Some x -> with_lock t x s = Some s' -> inv s'.
Proof.
  intros Hi Hx Hs. pose proof (iv_pc _ Hi _ _ Hx) as Hp. pose proof (iv_head _ Hi) as [Hb Hoff].
  assert (Hlk : forall n o, locks x = Some (n, o) -> n = blk (head s) /\ o = off (head s) /\ locked (head s) = is_locking x).
  { intros n o Hl. destruct (iv_locks _ Hi _ _ _ _ Hx Hl). assert (El : is_locking x = true) by (unfold is_locking; by rewrite Hl).
    rewrite El. split_and!; [done..|]. by apply (sp_locks_count s t x). }
  destruct x as [| | | |k n o|n o|n o|n o hi| | | | | | | |]; try done; destruct (Hlk _ _ eq_refl) as (-> & -> & Hlo);
    unfold with_lock in Hs; apply (inj Some) in Hs; subst s'.
  - rewrite (sp_start s Hi _ (sp_head_len s Hi)). destruct Hp as [Hp Hloc].
    set (e := match k with KBulk => _ | _ => _ end).
    destruct (Nat.leb_spec (tail_index s) (BLOCK_SIZE * blk (head s) + off (head s))) as [Hle|Hgt]; [by eapply sp_inv_pc|].
    assert (He : BLOCK_SIZE * blk (head s) + off (head s) < e <= tail_index s /\ e <= BLOCK_SIZE * S (blk (head s)) /\ (k <> KBulk -> e = BLOCK_SIZE * S (blk (head s)))).
    { unfold e. rewrite mask_eq, size_eq in *. destruct k; [pose proof (Hp ltac:(done)); lia|split_and!; [lia..|done]|pose proof (Hp ltac:(done)); lia]. }
    clearbody e. destruct He as (He1 & He2 & He3). destruct (Nat.eqb_spec (e mod BLOCK_SIZE) 0) as [H0|H0]; eapply sp_inv_pc; try done; cbn [pc_ok]; rewrite size_eq in *; lia.
  - eapply (sp_inv_head s t _ (SDone 0 [])); try done.
    + intros n i _. unfold hidx. simpl. lia.
    + rewrite Hlo. done.
    + by left.
  - destruct (sp_next s Hi _ Hp) as [-> Hlt]. eapply (sp_inv_claim s t); try done; auto; cbn [claim covers].
    + unfold hidx. lia.
    + rewrite size_eq. lia.
    + intros n. destruct (_ =? n); [|done]. unfold hidx. lia.
    + intros n i. f_equal. destruct (Nat.ltb_spec i BLOCK_SIZE), (Nat.ltb_spec i (BLOCK_SIZE * S (blk (head s)) + 0 - BLOCK_SIZE * blk (head s))); try done; lia.
    + cbn [pc_ok tail_index set_pc set_head] in *. split_and!; [lia..|exact (sp_head_len s Hi)|lia].
  - cbn [pc_ok] in Hp. eapply (sp_inv_claim s t); try done; auto; cbn [claim covers]; try lia.
    + unfold hidx. lia.
    + intros n. destruct (_ =? n); [|done]. unfold hidx. lia.
    + intros n i. f_equal. destruct (Nat.ltb_spec i hi), (Nat.ltb_spec i (BLOCK_SIZE * blk (head s) + hi - BLOCK_SIZE * blk (head s))); try done; lia.
    + cbn [pc_ok tail_index set_pc set_head] in *. split_and!; [lia..|exact (sp_head_len s Hi)|lia].
Qed.

Lemma sp_inv_wait s t x s' : inv s -> pcs s !! t = Some x -> wait t x s = Some s' -> inv s'.
Proof.
  intros Hi Hx Hs. pose proof (iv_pc _ Hi _ _ Hx) as Hp. destruct x as [| | | | | | | |k n lo hi| | | | | | |]; try done.
  unfold wait in Hs. apply (inj Some) in Hs. subst s'. destruct Hp as (Hlo & Hn & Hk). rewrite (sp_start s Hi n Hn).
  destruct (Nat.leb_spec (BLOCK_SIZE * n + hi) (tail_index s)) as [Hle|Hgt].
  - eapply sp_inv_pc; try done. split_and!; [lia..|done|done].
  - destruct k; [done..|]. specialize (Hk eq_refl). lia.
Qed.

(** *** Reading *)
Lemma all_some_map (l : list T) : all_some (map Some l) = Some l.
Proof. induction l as [|v l IH]; simpl; [done|]. by rewrite IH. Qed.
Lemma sp_copy s n b lo hi :
  inv s -> blocks s !! n = Some b -> lo < hi <= BLOCK_SIZE -> BLOCK_SIZE * n + hi <= tail_index s ->
  copy_to_bulk lo hi b = Some (take (hi - lo) (drop (BLOCK_SIZE * n + lo) (pushed s))).
Proof.
  intros Hi Hb Hlo Hhi. unfold copy_to_bulk. rewrite <-all_some_map. f_equal. apply list_eq. intros i.
  destruct (iv_block _ Hi _ _ Hb) as (_ & Hl & _). pose proof (iv_pushed _ Hi) as Hp.
  rewrite list_lookup_fmap. destruct (decide (i < hi - lo)) as [Hlt|Hge].
  - rewrite !lookup_take_lt, !lookup_drop by done. rewrite (iv_data _ Hi _ _ (lo + i) Hb) by lia.
    replace (BLOCK_SIZE * n + lo + i) with (BLOCK_SIZE * n + (lo + i)) by lia.
    destruct (lookup_lt_is_Some_2 (pushed s) (BLOCK_SIZE * n + (lo + i))) as [v ->]; [lia|done].
  - rewrite !lookup_take_ge by lia. done.
Qed.

Lemma sp_zip_times a k (vs : list T) i :
  length vs = k -> times i (zip (seq a k) vs) = b2z ((a <=? i) && (i <? a + k)).
Proof.
  intros <-. revert a. induction vs as [|v vs IH]; intros a; simpl.
  - destruct (Nat.leb_spec a i), (Nat.ltb_spec i (a + 0)); try done; lia.
  - unfold times in *. simpl. rewrite IH. destruct (Nat.eqb_spec a i), (Nat.leb_spec a i), (Nat.leb_spec (S a) i), (Nat.ltb_spec i (a + S (length vs))),
      (Nat.ltb_spec i (S a + length vs)); simpl; lia.
Qed.
Lemma sp_times_app i (l k : list (nat * T)) : times i (l ++ k) = (times i l + times i k)%Z.
Proof. apply zsum_app. Qed.
Lemma sp_zip_elem a k (vs l : list T) i v :
  vs = take k (drop a l) -> (i, v) ∈ zip (seq a k) vs -> l !! i = Some v.
Proof.
  intros -> [j Hj]%list_elem_of_lookup_1. rewrite lookup_zip_with in Hj. destruct (seq a k !! j) as [z|] eqn:Hz; [|done]. simpl in Hj.
  apply lookup_seq in Hz as [-> Hlt]. destruct (take k (drop a l) !! j) as [w|] eqn:Hw; [|done]. simpl in Hj. injection Hj as <- <-.
  rewrite lookup_take_lt, lookup_drop in Hw by done. done.
Qed.

Lemma sp_inv_get s t n lo hi s' : inv s -> pcs s !! t = Some (SGet n lo hi) -> get t (SGet n lo hi) s = Some s' -> inv s'.
Proof.
  intros Hi Hx Hs. pose proof (iv_pc _ Hi _ _ Hx) as (Hlo & Hn & Hp). pose proof (sp_get s n Hn) as Hb.
  set (vs := take (hi - lo) (drop (BLOCK_SIZE * n + lo) (pushed s))).
  unfold get in Hs. rewrite (sp_copy s n _ lo hi Hi Hb Hlo Hp), (sp_start s Hi n Hn) in Hs. apply (inj Some) in Hs. subst s'.
  pose proof Hi as [H1 H2 H3 H4 H5 H6 H7 H8 H9 H10 H11 H12 H13 H14].
  assert (Hlen : length vs = hi - lo) by (unfold vs; rewrite length_take, length_drop; lia).
  split; simpl; auto.
  - intros m b Hm. rewrite (H8 m b Hm), (zsum_insert _ _ _ _ _ Hx). simpl. unfold unclaimed. simpl. lia.
  - intros m b Hm. rewrite (zsum_insert _ _ _ _ _ Hx). simpl. rewrite <-(H9 m b Hm). lia.
  - rewrite (zsum_insert _ _ _ _ _ Hx), H10. simpl. lia.
  - intros i z m o [(<- & -> & _)|[_ Hz]]%lookup_insert_list Hl; [done|by eapply H11].
  - intros m i Hlt.
    change (zsum (fun x => b2z (covers m i x)) (<[t:=SMark n lo hi vs]> (pcs s)) + times (BLOCK_SIZE * m + i) (taken s ++ zip (seq (BLOCK_SIZE * n + lo) (hi - lo)) vs) = b2z (BLOCK_SIZE * m + i <? hidx s)%nat)%Z.
    rewrite (zsum_insert _ _ _ _ _ Hx), sp_times_app, sp_zip_times, <-(H12 m i Hlt) by done. cbn [covers b2z].
    assert (E : ((n =? m) && (lo <=? i) && (i <? hi))%nat = ((BLOCK_SIZE * n + lo <=? BLOCK_SIZE * m + i) && (BLOCK_SIZE * m + i <? BLOCK_SIZE * n + lo + (hi - lo)))%nat); [|rewrite E; cbn [b2z]; lia].
    rewrite size_eq in *. destruct (Nat.eqb_spec n m) as [->|Hne]; cbn [andb].
    + destruct (Nat.leb_spec lo i), (Nat.ltb_spec i hi), (Nat.leb_spec (32 * m + lo) (32 * m + i)), (Nat.ltb_spec (32 * m + i) (32 * m + lo + (hi - lo))); cbn [andb]; try done; lia.
    + destruct (Nat.leb_spec (32 * n + lo) (32 * m + i)), (Nat.ltb_spec (32 * m + i) (32 * n + lo + (hi - lo))); cbn [andb]; try done; lia.
  - intros i v [?|?]%elem_of_app; [auto|]. by eapply sp_zip_elem.
  - intros i z [(<- & -> & _)|[Hne Hz]]%lookup_insert_list.
    + split_and!; [lia..|done|]. change (vs = take (length vs) (drop (BLOCK_SIZE * n + lo) (pushed s))). by rewrite Hlen.
    + apply (sp_pc_mono i z s); [by apply H14|done|done|by exists []; rewrite app_nil_r|done|done].
Qed.

(** A block changes its count or its state; the reader of its slots moves. *)
Lemma sp_inv_blk s t x y n f :
  inv s -> pcs s !! t = Some x -> n < length (blocks s) ->
  (forall b, addr (f b) = addr b /\ data (f b) = data b /\ next (f b) = next b /\ start (f b) = start b /\ (freed (f b) = false -> freed b = false)) ->
  (used (f (block n s)) <= Z.of_nat BLOCK_SIZE)%Z ->
  (used (f (block n s)) - used (block n s) = claim n y - claim n x)%Z ->
  (b2z (freed (f (block n s))) + b2z (frees n y) - (b2z (freed (block n s)) + b2z (frees n x)) = b2z (used (f (block n s)) =? 0)%Z - b2z (used (block n s) =? 0)%Z)%Z ->
  (forall m, m <> n -> claim m y = claim m x /\ frees m y = frees m x) ->
  (forall m i, covers m i y = covers m i x) -> locks y = None -> locks x = None -> pc_ok t y s ->
  inv (set_pc t y (upd_block n f s)).
Proof.
  intros Hi Hx Hn Hf Hle Hu Hfr Ho Hc Hly Hlx Hp. pose proof Hi as [H1 H2 H3 H4 H5 H6 H7 H8 H9 H10 H11 H12 H13 H14].
  pose proof (sp_get s n Hn) as Hb.
  assert (Hat : forall m b, alter f n (blocks s) !! m = Some b -> (m = n /\ b = f (block n s)) \/ (m <> n /\ blocks s !! m = Some b)).
  { intros m b Hm. destruct (decide (m = n)) as [->|Hne]; [left|right]; [|by rewrite list_lookup_alter_ne in Hm].
    rewrite list_lookup_alter_eq, Hb in Hm. by injection Hm as <-. }
  assert (Hof : forall m b, alter f n (blocks s) !! m = Some b -> exists b0, blocks s !! m = Some b0 /\
     addr b = addr b0 /\ data b = data b0 /\ next b = next b0 /\ start b = start b0 /\ (freed b = false -> freed b0 = false)).
  { intros m b [[-> ->]|[_ Hm]]%Hat; [exists (block n s); split; [done|apply Hf]|by exists b]. }
  assert (Hadr : forall m, addr (block m (set_pc t y (upd_block n f s))) = addr (block m s)).
  { intros m. unfold block. simpl. destruct (decide (m = n)) as [->|Hne]; [|by rewrite list_lookup_alter_ne].
    rewrite list_lookup_alter_eq, Hb. simpl. apply Hf. }
  split; simpl; rewrite ?length_alter; auto.
  - unfold own_ok in *. simpl. by rewrite length_alter.
  - intros m b Hm. destruct (Hof m b Hm) as (b0 & Hm0 & _ & -> & -> & -> & _). destruct (H3 m b0 Hm0) as (? & ? & ? & Hu0). split_and!; [done..|].
    destruct (Hat m b Hm) as [[-> ->]|[_ Hm1]]; [done|]. assert (b = b0) as -> by congruence. done.
  - intros m b i Hm. destruct (Hof m b Hm) as (b0 & Hm0 & _ & -> & _). by apply H4.
  - intros v b Hv Hm. destruct (Hof _ b Hm) as (b0 & Hm0 & _ & -> & _). by eapply H5.
  - intros m m' b b' Hm Hm' Hfb Hfb'. destruct (Hof m b Hm) as (b0 & Hm0 & -> & _ & _ & _ & Hl), (Hof m' b' Hm') as (b0' & Hm0' & -> & _ & _ & _ & Hl'). eauto.
  - intros m b [[-> ->]|[Hne Hm]]%Hat; rewrite (zsum_insert _ _ _ _ _ Hx).
    + pose proof (H8 n _ Hb). unfold unclaimed in *. simpl in *. lia.
    + destruct (Ho m Hne) as [-> _]. pose proof (H8 m _ Hm). unfold unclaimed in *. simpl in *. lia.
  - intros m b [[-> ->]|[Hne Hm]]%Hat; rewrite (zsum_insert _ _ _ _ _ Hx).
    + pose proof (H9 n _ Hb). lia.
    + destruct (Ho m Hne) as [_ ->]. pose proof (H9 m _ Hm). lia.
  - rewrite (zsum_insert _ _ _ _ _ Hx), H10. unfold is_locking. rewrite Hly, Hlx. simpl. lia.
  - intros i z m o [(<- & -> & _)|[_ Hz]]%lookup_insert_list Hl; [congruence|by eapply H11].
  - intros m i Hlt. 
    change (zsum (fun x => b2z (covers m i x)) (<[t:=y]> (pcs s)) + times (BLOCK_SIZE * m + i) (taken s) = b2z (BLOCK_SIZE * m + i <? hidx s)%nat)%Z.
    rewrite (zsum_insert _ _ _ _ _ Hx), Hc, <-(H12 m i Hlt). lia.
  - assert (Hmono : forall i z, pc_ok i z s -> pc_ok i z (set_pc t y (upd_block n f s))).
    { intros i z Hz. apply (sp_pc_mono i z s); [done|done|done|by exists []; rewrite app_nil_r|simpl; by rewrite length_alter|]. intros _ Hown. by split_and!. }
    intros i z [(<- & -> & _)|[Hne Hz]]%lookup_insert_list; auto.
Qed.

Lemma sp_inv_mark s t x s' : inv s -> pcs s !! t = Some x -> (forall n lo hi, x <> SGet n lo hi) -> get t x s = Some s' -> inv s'.
Proof.
  intros Hi Hx Hng Hs. pose proof (iv_pc _ Hi _ _ Hx) as Hp.
  destruct x as [| | | | | | | | |n lo hi|n lo hi vs|n lo vs| | | |]; try done; [by destruct (Hng n lo hi)|..];
    unfold get in Hs; apply (inj Some) in Hs; subst s'; pose proof (fun H => sp_get s n H) as Hb.
  - destruct Hp as (Hlo & Hn & Hsl). specialize (Hb Hn). rewrite (sp_start s Hi n Hn).
    pose proof (iv_used _ Hi _ _ Hb) as Hu. pose proof (zsum_lookup_le _ _ _ _ (claim_nonneg n) Hx) as Hle. simpl in Hle. rewrite Nat.eqb_refl in Hle.
    destruct (iv_block _ Hi _ _ Hb) as (_ & _ & _ & Hmax). rewrite size_eq in *.
    assert (Hw : Word.sub (used (block n s)) (Z.of_nat (hi - lo)) = (used (block n s) - Z.of_nat (hi - lo))%Z).
    { unfold Word.sub. apply Word.wrap_small. unfold Word.is_usize, Word.usize_max. rewrite Word.modulus_eq. lia. }
    pose proof (iv_freed _ Hi _ _ Hb) as Hf. pose proof (zsum_nonneg (fun x => b2z (frees n x)) (pcs s) (fun x => b2z_nonneg _)) as Hnn.
    destruct (Z.eqb_spec (used (block n s)) 0); [lia|]. assert (Hfr : freed (block n s) = false) by (destruct (freed (block n s)); simpl in Hf; [lia|done]).
    destruct (Z.eqb_spec (used (block n s)) (Z.of_nat (hi - lo))) as [He|He];
      apply (sp_inv_blk s t _ _ n _ Hi Hx Hn); try done; simpl; rewrite ?Nat.eqb_refl, ?Hw, ?Hfr, ?size_eq; try lia.
    + rewrite He, Z.sub_diag. simpl. destruct (Z.eqb_spec (Z.of_nat (hi - lo)) 0); simpl; lia.
    + intros m Hne. by rewrite (proj2 (Nat.eqb_neq n m)) by done.
    + simpl. destruct (Z.eqb_spec (used (block n s) - Z.of_nat (hi - lo)) 0), (Z.eqb_spec (used (block n s)) 0); simpl; lia.
    + intros m Hne. by rewrite (proj2 (Nat.eqb_neq n m)) by done.
  - destruct Hp as (Hn & Hsl). specialize (Hb Hn). rewrite (sp_start s Hi n Hn).
    pose proof (iv_freed _ Hi _ _ Hb) as Hf. pose proof (zsum_lookup_le _ _ _ _ (fun x => b2z_nonneg (frees n x)) Hx) as Hle.
    simpl in Hle. rewrite Nat.eqb_refl in Hle. simpl in Hle. pose proof (b2z_le1 (used (block n s) =? 0)%Z).
    assert (Hfr : freed (block n s) = false) by (destruct (freed (block n s)); simpl in Hf; [lia|done]).
    apply (sp_inv_blk s t _ _ n _ Hi Hx Hn); try done; simpl; rewrite ?Nat.eqb_refl, ?Hfr; try lia.
    + apply (iv_block _ Hi _ _ Hb).
    + simpl. lia.
    + intros m Hne. by rewrite (proj2 (Nat.eqb_neq n m)) by done.
Qed.

(** *** The owner's push *)
Definition same_use (b c : BlockNode) : Prop := addr c = addr b /\ used c = used b /\ freed c = freed b.

Lemma sp_claim_bound s t x n : pc_ok t x s -> length (blocks s) <= n -> claim n x = 0%Z /\ frees n x = false.
Proof. intros Hp Hn. destruct x; simpl in *; try done; destruct (Nat.eqb_spec n0 n) as [->|]; try done; lia. Qed.

(** The owner stores, links and commits; no consumer moves. *)
Lemma sp_inv_own s s' :
  inv s -> owner s <> OIdle -> pcs s' = pcs s -> head s' = head s -> taken s' = taken s -> length (blocks s) <= length (blocks s') ->
  tail_index s <= tail_index s' -> tail_block s <= tail_block s' -> (exists l, pushed s' = pushed s ++ l) -> own_ok s' -> length (pushed s') = tail_index s' ->
  (forall n c, blocks s' !! n = Some c ->
    (exists b, blocks s !! n = Some b /\ same_use b c) \/
    (n = length (blocks s) /\ used c = Z.of_nat BLOCK_SIZE /\ freed c = false /\ fresh (addr c) s = true)) ->
  (forall n c, blocks s' !! n = Some c -> start c = BLOCK_SIZE * n /\ length (data c) = BLOCK_SIZE /\ next c = (if S n <? length (blocks s') then Some (S n) else None)) ->
  (forall n c i, blocks s' !! n = Some c -> i < BLOCK_SIZE -> BLOCK_SIZE * n + i < tail_index s' -> data c !! i = Some (pushed s' !! (BLOCK_SIZE * n + i))) ->
  (forall v c, stored (owner s') = Some v -> blocks s' !! (tail_index s' / BLOCK_SIZE) = Some c -> data c !! (tail_index s' mod BLOCK_SIZE) = Some (Some v)) ->
  inv s'.
Proof.
  intros Hi Hown Hpcs Hhd Htk Hlen Hti Htb Hpu Ho Hpl Hblk Hst Hda Hsto. pose proof Hi as [H1 H2 H3 H4 H5 H6 H7 H8 H9 H10 H11 H12 H13 H14].
  pose proof (sp_head_len s Hi) as Hh. pose proof (sp_tail_len s Hi) as Htl.
  assert (Hh' : hidx s' = hidx s) by (unfold hidx; by rewrite Hhd).
  assert (Hz : forall n, length (blocks s) <= n -> zsum (claim n) (pcs s) = 0%Z /\ zsum (fun x => b2z (frees n x)) (pcs s) = 0%Z).
  { intros n Hn. split; apply zsum_all_zero; intros i x Hx; destruct (sp_claim_bound s i x n (H14 _ _ Hx) Hn) as [E1 E2]; [done|by rewrite E2]. }
  assert (Hfresh : forall a n b, fresh a s = true -> blocks s !! n = Some b -> freed b = false -> addr b <> a).
  { intros a n b Hf Hn Hfb Ha. unfold fresh in Hf. rewrite forallb_forall in Hf. specialize (Hf b (proj1 (list_elem_of_In _ _) (list_elem_of_lookup_2 _ _ _ Hn))).
    rewrite Hfb in Hf. simpl in Hf. by rewrite Ha, Nat.eqb_refl in Hf. }
  split; rewrite ?Hpcs, ?Hhd, ?Htk, ?Hh'; auto.
  - intros n c Hc. destruct (Hst n c Hc) as (? & ? & ?). split_and!; try done.
    destruct (Hblk n c Hc) as [(b & Hb & _ & -> & _)|(_ & -> & _)]; [apply (H3 _ _ Hb)|done].
  - split; [lia|apply H6].
  - intros n m b c Hn Hm Hfb Hfc Ha.
    destruct (Hblk n b Hn) as [(b0 & Hb0 & E1 & _ & E2)|(-> & _ & _ & F1)], (Hblk m c Hm) as [(c0 & Hc0 & E3 & _ & E4)|(-> & _ & _ & F2)].
    + eapply H7; try done; congruence.
    + exfalso. rewrite Hfb in E2. apply (Hfresh _ n b0 F2); congruence.
    + exfalso. rewrite Hfc in E4. apply (Hfresh _ m c0 F1); congruence.
    + done.
  - intros n c Hc. replace (unclaimed s' n) with (unclaimed s n) by (unfold unclaimed; by rewrite Hhd).
    destruct (Hblk n c Hc) as [(b & Hb & _ & -> & _)|(-> & -> & _)]; [by apply H8|].
    rewrite (proj1 (Hz _ (le_n _))). unfold unclaimed. destruct (Nat.ltb_spec (length (blocks s)) (blk (head s))), (Nat.eqb_spec (length (blocks s)) (blk (head s))); lia.
  - intros n c Hc. destruct (Hblk n c Hc) as [(b & Hb & _ & -> & ->)|(-> & -> & -> & _)]; [by apply H9|].
    rewrite (proj2 (Hz _ (le_n _))), size_eq. done.
  - intros i v Hv. destruct Hpu as [l ->]. apply lookup_app_l_Some. by apply H13.
  - intros t x Hx. apply (sp_pc_mono t x s); auto; [unfold hidx; by rewrite Hhd|by intros _ ?].
Qed.

(** A block of the queue after [upd_block]: the same, or the one it changes. *)
Lemma sp_alter f (m n : nat) (l : list BlockNode) c :
  alter f m l !! n = Some c -> exists b, l !! n = Some b /\ ((n <> m /\ c = b) \/ (n = m /\ c = f b)).
Proof.
  rewrite list_lookup_alter. destruct (decide (m = n)) as [->|Hne]; [|intros H; exists c; auto].
  destruct (l !! n) as [b|] eqn:Hb; [|done]. simpl. intros [= <-]. exists b. auto.
Qed.

Lemma sp_inv_set s v s' a : inv s -> owner s = OSet v -> push a s = Some s' -> inv s'.
Proof.
  intros Hi Ho Hs. unfold push in Hs. rewrite Ho in Hs. apply (inj Some) in Hs. subst s'.
  pose proof (iv_own _ Hi) as Hw. unfold own_ok in Hw. rewrite Ho in Hw. destruct Hw as [Hb Hl]. rewrite size_eq in Hb.
  eapply (sp_inv_own s); try done; unfold upd_block; cbn [blocks set_owner set_blocks tail_index pushed tail_block pcs head taken owner].
  - by rewrite Ho.
  - by rewrite length_alter.
  - exists []. by rewrite app_nil_r.
  - unfold own_ok. cbn [owner set_owner tail_block tail_index blocks set_blocks]. rewrite length_alter.
    destruct (Nat.eqb_spec (S (tail_index s) mod BLOCK_SIZE) 0) as [H0|H0]; [by rewrite size_eq in *|]. rewrite size_eq in *. lia.
  - apply (iv_pushed _ Hi).
  - intros n c Hc. destruct (sp_alter _ _ _ _ _ Hc) as (b & Hb' & [[_ ->]|[_ ->]]); left; by exists b.
  - intros n c Hc. rewrite length_alter. destruct (sp_alter _ _ _ _ _ Hc) as (b & Hb' & Hcb). destruct (iv_block _ Hi _ _ Hb') as (? & ? & ? & _).
    destruct Hcb as [[_ ->]|[_ ->]]; [done|]. cbn [set start data next]. by rewrite length_insert.
  - intros n c i Hc Hlt Hix. destruct (sp_alter _ _ _ _ _ Hc) as (b & Hb' & Hcb). pose proof (iv_data _ Hi _ _ i Hb' Hlt Hix) as Hd.
    destruct Hcb as [[_ ->]|[-> ->]]; [done|]. cbn [set data]. rewrite list_lookup_insert_ne; [done|]. rewrite size_eq in *. lia.
  - intros w c Hw Hc. assert (w = v) as -> by (destruct (_ =? 0); by injection Hw as <-).
    destruct (sp_alter _ _ _ _ _ Hc) as (b & Hb' & [[Hne _]|[_ ->]]); [rewrite size_eq in *; lia|].
    cbn [set data]. apply list_lookup_insert_eq. destruct (iv_block _ Hi _ _ Hb') as (_ & -> & _). rewrite size_eq. lia.
Qed.

Lemma sp_inv_link s v s' a : inv s -> owner s = OLink v -> push a s = Some s' -> inv s'.
Proof.
  intros Hi Ho Hs. unfold push in Hs. rewrite Ho in Hs. destruct (fresh a s) eqn:Hf; [|done]. apply (inj Some) in Hs. subst s'.
  pose proof (iv_own _ Hi) as Hw. unfold own_ok in Hw. rewrite Ho in Hw. destruct Hw as (H0 & Hb & Hl). rewrite size_eq in *.
  assert (Hat : forall n c, alter (set_next (length (blocks s))) (tail_block s) (blocks s ++ [new_block a (S (tail_index s))]) !! n = Some c ->
    (exists b, blocks s !! n = Some b /\ same_use b c /\ start c = start b /\ data c = data b /\ next c = if n =? tail_block s then Some (length (blocks s)) else next b) \/
    (n = length (blocks s) /\ c = new_block a (S (tail_index s)))).
  { intros n c (b & Hb' & Hcb)%sp_alter. apply lookup_app_Some in Hb' as [Hb'|[Hge Hb']].
    - left. exists b. split; [done|]. destruct (Nat.eqb_spec n (tail_block s)), Hcb as [[? ->]|[? ->]]; try done; by split_and!.
    - right. apply list_lookup_singleton_Some in Hb' as [Hn <-]. split; [lia|]. destruct Hcb as [[_ ->]|[? _]]; [done|lia]. }
  eapply (sp_inv_own s); try done; unfold upd_block; cbn [blocks set_owner set_blocks tail_index pushed tail_block pcs head taken owner].
  - by rewrite Ho.
  - rewrite length_alter, length_app. simpl. lia.
  - exists []. by rewrite app_nil_r.
  - unfold own_ok. cbn [owner set_owner tail_block tail_index blocks set_blocks]. rewrite length_alter, length_app, size_eq. cbn [length]. split_and!; [done..|lia|lia].
  - apply (iv_pushed _ Hi).
  - intros n c [(b & Hb' & Hc & _)|[-> ->]]%Hat; [left; by exists b|by right].
  - intros n c Hc. rewrite length_alter, length_app. cbn [length]. destruct (Hat _ _ Hc) as [(b & Hb' & _ & -> & -> & ->)|[-> ->]].
    + destruct (iv_block _ Hi _ _ Hb') as (-> & -> & -> & _). split_and!; [done..|]. apply lookup_lt_Some in Hb'.
      destruct (Nat.eqb_spec n (tail_block s)), (Nat.ltb_spec (S n) (length (blocks s))), (Nat.ltb_spec (S n) (length (blocks s) + 1)); try done; try lia. f_equal. lia.
    + split_and!; [|done|]; unfold new_block; cbn [start next]; [rewrite size_eq; lia|]. destruct (Nat.ltb_spec (S (length (blocks s))) (length (blocks s) + 1)); [lia|done].
  - intros n c i [(b & Hb' & _ & _ & -> & _)|[-> ->]]%Hat Hlt Hix; [by apply (iv_data _ Hi)|]. rewrite size_eq in *. lia.
  - intros w c [= <-] [(b & Hb' & _ & _ & -> & _)|[Hn _]]%Hat; [by apply (iv_stored _ Hi); [rewrite Ho|]|]. rewrite size_eq in *. lia.
Qed.

Lemma sp_inv_push a s s' : inv s -> push a s = Some s' -> inv s'.
Proof.
  intros Hi Hs. destruct (owner s) as [|v|v|v nb|v] eqn:Ho; [by unfold push in Hs; rewrite Ho in Hs|by eapply sp_inv_set|by eapply sp_inv_link|..];
    unfold push in Hs; rewrite Ho in Hs; apply (inj Some) in Hs; subst s'; pose proof (iv_own _ Hi) as Hw; unfold own_ok in Hw; rewrite Ho in Hw.
  - destruct Hw as (H0 & Hb & -> & Hl). eapply (sp_inv_own s); try done; cbn [blocks set_owner set_tail tail_index pushed tail_block pcs head taken owner].
    + by rewrite Ho.
    + lia.
    + exists []. by rewrite app_nil_r.
    + unfold own_ok. cbn [owner set_owner tail_block tail_index blocks set_tail]. rewrite size_eq in *. lia.
    + apply (iv_pushed _ Hi).
    + intros n c Hc. left. by exists c.
    + intros n c Hc. destruct (iv_block _ Hi _ _ Hc) as (? & ? & ? & _). done.
    + by apply (iv_data _ Hi).
    + intros w c [= <-]. apply (iv_stored _ Hi). by rewrite Ho.
  - destruct Hw as [Hb Hl]. pose proof (iv_pushed _ Hi) as Hp.
    eapply (sp_inv_own s); try done; cbn [blocks set_owner set_tail tail_index pushed tail_block pcs head taken owner].
    + by rewrite Ho.
    + lia.
    + by exists [v].
    + rewrite length_app. simpl. lia.
    + intros n c Hc. left. by exists c.
    + intros n c Hc. destruct (iv_block _ Hi _ _ Hc) as (? & ? & ? & _). done.
    + intros n c i Hc Hlt Hix. destruct (decide (BLOCK_SIZE * n + i = tail_index s)) as [E|Hne].
      * rewrite E, lookup_app_r, Hp, Nat.sub_diag by lia. cbn [lookup list_lookup]. pose proof (iv_stored _ Hi v c) as Hst. rewrite Ho in Hst.
        replace (tail_index s / BLOCK_SIZE) with n in Hst by (rewrite size_eq in *; lia). replace (tail_index s mod BLOCK_SIZE) with i in Hst by (rewrite size_eq in *; lia). auto.
      * rewrite lookup_app_l by lia. apply (iv_data _ Hi); [done..|lia].
Qed.

Lemma sp_inv_start s v x : inv s -> pcs s !! 0 = Some x -> at_home x = true -> owner s = OIdle -> inv (set_owner (OSet v) (pushed s) s).
Proof.
  intros Hi Hx Hh Ho. pose proof Hi as [H1 H2 H3 H4 H5 H6 H7 H8 H9 H10 H11 H12 H13 H14].
  split; auto; cbn [owner set_owner].
  - unfold own_ok in *. rewrite Ho in H1. exact H1.
  - done.
  - intros t y Hy. apply (sp_pc_mono t y s); auto; [by exists []; rewrite app_nil_r|]. intros Hl _. exfalso.
    destruct y as [| | |[| |] a o p tb| | | | | | | | | | | |]; try done. destruct (H14 _ _ Hy) as [_ Hk]. destruct (Hk eq_refl) as (-> & _).
    cbn [pcs set_owner] in Hy. rewrite Hx in Hy. by injection Hy as ->.
Qed.

Lemma sp_inv_step s e s' : inv s -> step s e = Some s' -> inv s'.
Proof.
  intros Hi Hs. destruct e as [v|t k|a|t w]; unfold step in Hs.
  - destruct (pcs s !! 0) as [x|] eqn:Hx; [|done]. destruct (at_home x) eqn:Hh; [|done]. destruct (owner s) eqn:Ho; try done.
    apply (inj Some) in Hs. subst s'. by eapply sp_inv_start.
  - destruct (pcs s !! t) as [x|] eqn:Hx; [|done]. destruct (at_home x) eqn:Hh; [|done].
    assert (Hpl : plain x = true) by (by destruct x). destruct (Nat.eqb_spec t 0) as [->|Hne]; cbn [negb orb andb] in Hs.
    + destruct (owner s) eqn:Ho; try done. cbn [is_idle] in Hs.
      destruct k; apply (inj Some) in Hs; subst s'; eapply sp_inv_plain; eauto using sp_saw, sp_saw_local.
    + destruct k; try done; apply (inj Some) in Hs; subst s'; eapply sp_inv_plain; eauto using sp_saw.
  - by eapply sp_inv_push.
  - destruct (pcs s !! t) as [x|] eqn:Hx; [|done].
    destruct x; first [by eapply sp_inv_load|by eapply sp_inv_cas|by eapply sp_inv_lock|by eapply sp_inv_wait|by eapply sp_inv_get|by eapply sp_inv_mark].
Qed.

Lemma sp_inv_init n : inv (new n).
Proof.
  assert (H0 : forall m b, blocks (new n) !! m = Some b -> m = 0 /\ b = new_block 0 0).
  { intros m b Hb. apply list_lookup_singleton_Some in Hb as [-> <-]. done. }
  assert (Hid : forall t x, pcs (new n) !! t = Some x -> x = SIdle) by (intros t x [-> _]%lookup_replicate; done).
  split; try done.
  - intros m b [-> ->]%H0. done.
  - cbn [tail_index new]. lia.
  - split; [done|]. rewrite size_eq. cbn. lia.
  - intros m m' b c [-> ->]%H0 [-> ->]%H0. done.
  - intros m b [-> ->]%H0. cbn [pcs new]. rewrite zsum_replicate. cbn [claim]. rewrite Z.mul_0_r. reflexivity.
  - intros m b [-> ->]%H0. cbn [pcs new]. rewrite zsum_replicate. cbn [frees b2z]. rewrite Z.mul_0_r. reflexivity.
  - cbn [pcs new]. rewrite zsum_replicate. simpl. lia.
  - intros t x m o Hx. by rewrite (Hid _ _ Hx).
  - intros m i Hlt. cbn [pcs new taken]. rewrite zsum_replicate. unfold hidx. cbn [covers b2z head new blk off].
    destruct (Nat.ltb_spec (BLOCK_SIZE * m + i) (BLOCK_SIZE * 0 + 0)); [lia|]. rewrite Z.mul_0_r. done.
  - cbn [taken new]. by intros i v ?%not_elem_of_nil.
  - intros t x Hx. by rewrite (Hid _ _ Hx).
Qed.

Lemma sp_inv_reachable n s : reachable step (new n) s -> inv s.
Proof. apply reachable_ind_inv; eauto using sp_inv_init, sp_inv_step. Qed.

(** ** What the queue promises *)
Lemma sp_times_in (i : nat) (l : list (nat * T)) : (0 < times i l)%Z -> exists v, (i, v) ∈ l.
Proof.
  intros H. destruct (zsum_nonzero (fun x => b2z (x.1 =? i)) l) as (j & [i' v] & Hj & Hx); [unfold times in H; lia|].
  simpl in Hx. destruct (Nat.eqb_spec i' i) as [->|]; [|done]. exists v. by eapply list_elem_of_lookup_2.
Qed.

(** Every index below [head] has one claimant. *)
Lemma sp_cover s i : inv s ->
  (zsum (fun x => b2z (covers (i / BLOCK_SIZE) (i mod BLOCK_SIZE) x)) (pcs s) + times i (taken s))%Z = b2z (i <? hidx s).
Proof.
  intros Hi. pose proof (iv_cover _ Hi (i / BLOCK_SIZE) (i mod BLOCK_SIZE)) as H. rewrite size_eq in *.
  replace (32 * (i / 32) + i mod 32) with i in H by lia. apply H. lia.
Qed.

(** C24. No task is lost or duplicated, whatever the thieves do: an index is read at
    most once and gives the value pushed there, a pop returns values that were pushed
    one after the other; and once every consumer is done, exactly the indices below
    [head] have been read, nobody is ahead of the owner, every block before the head's is
    freed, and an empty queue passes the assertion of [drop]. *)
Theorem spmc_conserved n s :
  reachable step (new n) s ->
  (forall i v, (i, v) ∈ taken s -> pushed s !! i = Some v) /\ (forall i, (times i (taken s) <= 1)%Z) /\
  (forall t i vs, pcs s !! t = Some (SDone i vs) -> vs = take (length vs) (drop i (pushed s))) /\
  ((forall t x, pcs s !! t = Some x -> at_home x = true) ->
    hidx s <= length (pushed s) /\ (forall i, times i (taken s) = b2z (i <? hidx s)) /\ locked (head s) = false /\
    (forall m, m < blk (head s) -> freed (block m s) = true) /\
    (owner s = OIdle -> hidx s = length (pushed s) -> blk (head s) = tail_block s)).
Proof.
  intros Hi%sp_inv_reachable. split_and!.
  - apply Hi.
  - intros i. pose proof (sp_cover s i Hi) as Hc. pose proof (zsum_nonneg _ (pcs s) (fun x => b2z_nonneg (covers (i / BLOCK_SIZE) (i mod BLOCK_SIZE) x))) as Hz.
    pose proof (b2z_le1 (i <? hidx s)). lia.
  - intros t i vs Hx. apply (iv_pc _ Hi _ _ Hx).
  - intros Hh. assert (Hz : forall (f : spc -> Z), f SIdle = 0%Z -> (forall i vs, f (SDone i vs) = 0%Z) -> zsum f (pcs s) = 0%Z).
    { intros f F1 F2. apply zsum_all_zero. intros t x Hx. specialize (Hh t x Hx). by destruct x. }
    assert (Ht : forall i, times i (taken s) = b2z (i <? hidx s)) by (intros i; rewrite <-(sp_cover s i Hi), Hz by done; done).
    split_and!; [|exact Ht|..].
    + destruct (hidx s) as [|i] eqn:E; [lia|]. destruct (sp_times_in i (taken s)) as [v Hv].
      { rewrite Ht. destruct (Nat.ltb_spec i (S i)); [done|lia]. }
      apply (iv_taken _ Hi), lookup_lt_Some in Hv. lia.
    + pose proof (iv_lock _ Hi) as Hl. rewrite Hz in Hl by done. by destruct (locked (head s)).
    + intros m Hm. pose proof (sp_get s m) as Hb. pose proof (sp_head_len s Hi). specialize (Hb ltac:(lia)).
      pose proof (iv_used _ Hi _ _ Hb) as Hu. pose proof (iv_freed _ Hi _ _ Hb) as Hf. rewrite Hz in Hu, Hf by done.
      unfold unclaimed in Hu. rewrite (proj2 (Nat.ltb_lt _ _) Hm) in Hu. rewrite Hu in Hf. simpl in Hf. by destruct (freed (block m s)).
    + intros Ho He. pose proof (iv_own _ Hi) as Hw. unfold own_ok in Hw. rewrite Ho in Hw. pose proof (iv_pushed _ Hi). pose proof (iv_head _ Hi).
      unfold hidx in He. rewrite size_eq in *. lia.
Qed.

(** The block a consumer is about to dereference. *)
Definition derefs (x : spc) : option nat :=
  match x with SLock _ n _ | SNext n _ | SWait _ n _ _ | SGet n _ _ | SMark n _ _ _ | SFree n _ _ => Some n | _ => None end.

(** Memory safety, with blocks freed and their addresses used again while others
    hold stale pointers: a consumer only dereferences a block that is not freed, and
    frees it once; so does the owner; nobody follows a null pointer, reads a slot that
    was not written, or takes the branch of [local_pop] that gives up a slot. *)
Theorem spmc_memory_safe n s :
  reachable step (new n) s ->
  (forall t x m, pcs s !! t = Some x -> derefs x = Some m -> m < length (blocks s) /\ freed (block m s) = false) /\
  tail_block s < length (blocks s) /\ freed (block (tail_block s) s) = false /\
  (forall t x, pcs s !! t = Some x -> x <> SNull /\ x <> SUninit /\ forall m o, x <> SSkip m o).
Proof.
  intros Hi%sp_inv_reachable. split_and!.
  - intros t x m Hx Hd. pose proof (iv_pc _ Hi _ _ Hx) as Hp. pose proof (sp_head_len s Hi) as Hh.
    assert (Hlk : forall k o, locks x = Some (k, o) -> k < length (blocks s) /\ freed (block k s) = false).
    { intros k o Hl. destruct (iv_locks _ Hi _ _ _ _ Hx Hl) as [-> _]. split; [done|by apply sp_live_from]. }
    assert (Hcl : (0 < claim m x)%Z -> m < length (blocks s) -> m < length (blocks s) /\ freed (block m s) = false).
    { intros Hc Hm. split; [done|]. by eapply sp_claimed. }
    destruct x; try done; injection Hd as ->; eauto; cbn [pc_ok claim] in *; rewrite ?Nat.eqb_refl in Hcl; try (apply Hcl; lia).
    destruct Hp as [Hm _]. split; [done|]. pose proof (iv_freed _ Hi _ _ (sp_get s m Hm)) as Hf.
    pose proof (zsum_lookup_le _ _ _ _ (fun x => b2z_nonneg (frees m x)) Hx) as Hle. simpl in Hle. rewrite Nat.eqb_refl in Hle. simpl in Hle.
    pose proof (b2z_le1 (used (block m s) =? 0)%Z). destruct (freed (block m s)); simpl in Hf; [lia|done].
  - by apply sp_tail_len.
  - apply sp_live_from; [done|by apply sp_tail_len|apply (iv_head _ Hi)].
  - intros t x Hx. pose proof (iv_pc _ Hi _ _ Hx) as Hp. by destruct x.
Qed.

(** The owner's pop gives up only when there is nothing to run: if it returns
    without a value, every value pushed has been claimed by a thief (or by itself). *)
Theorem spmc_local_none n s s' t w a o p tb i vs :
  reachable step (new n) s -> pcs s !! t = Some (STry KLocal a o p tb) ->
  step s (S_ t w) = Some s' -> pcs s' !! t = Some (SDone i vs) -> t = 0 /\ vs = [] /\ length (pushed s) <= hidx s.
Proof.
  intros Hi%sp_inv_reachable Hx Hs Hd. destruct (iv_pc _ Hi _ _ Hx) as [Ho Hk]. destruct (Hk eq_refl) as (-> & Hown & -> & -> & Ha).
  rewrite (iv_pushed _ Hi). split; [done|]. apply lookup_lt_Some in Hx as Hlt.
  unfold step in Hs. rewrite Hx in Hs. unfold compare_exchange in Hs. destruct (looks_empty _ _ _ _) eqn:Hl.
  - apply (inj Some) in Hs. subst s'. cbn [pcs set_pc] in Hd. rewrite list_lookup_insert_eq in Hd by done. split; [congruence|].
    unfold looks_empty in Hl. destruct (Nat.eqb_spec a (addr (block (tail_block s) s))) as [->|]; [|done]. apply Nat.leb_le in Hl.
    specialize (Ha eq_refl). pose proof (iv_own _ Hi) as Hw. unfold own_ok in Hw. rewrite Hown in Hw. rewrite size_eq in *. lia.
  - exfalso. revert Hd. destruct (_ && _ && _ && _) in Hs; [destruct (_ =? 0) in Hs|]; apply (inj Some) in Hs; subst s';
      cbn [pcs set_pc set_head]; rewrite list_lookup_insert_eq by done; unfold saw_local; congruence.
Qed.

End queue.

(** ** Runs *)
Definition run_from (n : nat) (es : list event) : @Queue nat := default (new n) (run step es (new n)).
Definition done_push (v : nat) : list (@event nat) := [Push v; O 0; O 0].
(** Fill a block; the last push links a block at address [a]. *)
Definition fill (v k : nat) : list (@event nat) := flat_map done_push (seq v k).
Definition last_push (v a : nat) : list (@event nat) := [Push v; O 0; O a; O 0; O 0].
Definition own_pop : list (@event nat) := Pop 0 KLocal :: replicate 4 (S_ 0 false).
(** Three values: the owner pops one, a thief takes the rest. *)
Definition demo_steal : list event := fill 10 3 ++ own_pop ++ [Pop 1 KBulk] ++ replicate 6 (S_ 1 false).
(** A block is filled and the next one begun; a thief takes the rest of the first and frees it. *)
Definition demo_block : list event :=
  fill 0 31 ++ last_push 31 1 ++ fill 32 1 ++ own_pop ++ [Pop 1 KBulk] ++ replicate 8 (S_ 1 false).
(** The owner finds its queue empty. *)
Definition demo_none : list event := demo_steal ++ [Pop 0 KLocal].

(** ABA: a thief looks at slot 0 of block 0 when one value is queued; the
    owner pops it, fills and empties block 0, which is freed, goes to block 1, and
    then to block 2, at the address of block 0; the thief's compare-and-swap succeeds on
    the empty block 2.  It has claimed a slot ahead of the owner. *)
Definition pops (k : nat) : list (@event nat) := concat (replicate k own_pop).
Definition demo_aba : list event :=
  fill 0 1 ++ [Pop 1 KPop; S_ 1 false; S_ 1 false] ++ pops 1 ++
  fill 1 30 ++ last_push 31 1 ++ pops 30 ++ [Pop 0 KLocal] ++ replicate 6 (S_ 0 false) ++
  fill 32 31 ++ last_push 63 0 ++ pops 31 ++ [Pop 0 KLocal] ++ replicate 6 (S_ 0 false) ++ [S_ 1 false].

Example spmc_demo_results :
  map (fun es => (pcs (run_from 2 es), map snd (taken (run_from 2 es)), map freed (blocks (run_from 2 es)))) [demo_steal; demo_none] =
  [([SDone 0 [10]; SDone 1 [11; 12]], [10; 11; 12], [false]);
   ([STry KLocal 0 3 3 0; SDone 1 [11; 12]], [10; 11; 12], [false])].
Proof. vm_compute. reflexivity. Qed.
(** After the ABA a thief holds slot 64, which nobody has pushed: it sleeps, and will until the
    owner pushes; the owner's queue has nothing to pop, yet [is_empty] (and so
    [has_tasks]) says otherwise, so [run_queued_tasks] goes round without ever polling. *)
Lemma spmc_claimed_ahead :
  exists s : @Queue nat, reachable step (new 2) s /\ tail_index s < hidx s /\ owner s = OIdle /\ length (taken s) = length (pushed s) /\
    step s (S_ 1 false) = Some s /\ is_empty s = false /\
    exists s', run step [Pop 0 KLocal; S_ 0 false] s = Some s' /\ pcs s' !! 0 = Some (SDone 0 []) /\ is_empty s' = false /\ tail_index s' < hidx s'.
Proof.
  exists (run_from 2 demo_aba). split; [apply run_reachable with (es := demo_aba); vm_compute; reflexivity|].
  split_and!; [by vm_compute; lia|by vm_compute..|]. eexists. split_and!; [by vm_compute..|vm_compute; lia].
Qed.

Lemma spmc_conserved_witness :
  let s := run_from 2 demo_block in
  (forall i v, (i, v) ∈ taken s -> pushed s !! i = Some v) /\ (forall i, (times i (taken s) <= 1)%Z) /\
  (forall t i vs, pcs s !! t = Some (SDone i vs) -> vs = take (length vs) (drop i (pushed s))) /\
  ((forall t x, pcs s !! t = Some x -> at_home x = true) ->
    hidx s <= length (pushed s) /\ (forall i, times i (taken s) = b2z (i <? hidx s)) /\ locked (head s) = false /\
    (forall m, m < blk (head s) -> freed (block m s) = true) /\
    (owner s = OIdle -> hidx s = length (pushed s) -> blk (head s) = tail_block s)).
Proof. apply (spmc_conserved 2). apply run_reachable with (es := demo_block). vm_compute. reflexivity. Defined.

Lemma spmc_memory_safe_witness :
  let s := run_from 2 demo_aba in
  (forall t x m, pcs s !! t = Some x -> derefs x = Some m -> m < length (blocks s) /\ freed (block m s) = false) /\
  tail_block s < length (blocks s) /\ freed (block (tail_block s) s) = false /\
  (forall t x, pcs s !! t = Some x -> x <> SNull /\ x <> SUninit /\ forall m o, x <> SSkip m o).
Proof. apply (spmc_memory_safe 2). apply run_reachable with (es := demo_aba). vm_compute. reflexivity. Defined.

Lemma spmc_local_none_witness : 0 = 0 /\ @nil nat = [] /\ length (pushed (run_from 2 demo_none)) <= hidx (run_from 2 demo_none).
Proof.
  apply (spmc_local_none 2 (run_from 2 demo_none) (run_from 2 (demo_none ++ [S_ 0 false])) 0 false 0 3 3 0 0 []).
  - apply run_reachable with (es := demo_none). vm_compute. reflexivity.
  - vm_compute. reflexivity.
  - vm_compute. reflexivity.
  - vm_compute. reflexivity.
Defined.

End Spmc.
