(* ===== verification/Scheduler.v ===== *)
(** * Scheduler: the run queues and the worker loop

    [scheduler.rs], [io/event_loop.rs], [io/sys/unix/epoll.rs] (the loop of
    [Selector::select]), [yield_now.rs] and the handles of [may_queue/src/spmc.rs], with the features
    [work_steal] and [io_timeout] (the default).  Each worker has a local queue, that
    other workers steal from, and a global queue, that any thread pushes to; after a push to the
    global queue the worker's eventfd is written.

    Coroutines are numbers.  One that is not running, queued or finished is in [outside]: stored in a
    waiter, from where whoever takes it schedules or runs it.  The queues are
    the lists that [MpscQueue] and [SpmcQueue] refine; their answers come from
    the event: how much a [bulk_pop] takes, and what [has_tasks] says, which may be
    wrong when it says yes ([Spmc.spmc_claimed_ahead]). *)

From stdpp Require Import base numbers list.
From Stdlib Require Import ZArith Lia ZifyNat.
From S2P Require Import Prelude SpmcQueue.

Module Sched.

(** [schedule_global]: the coroutine is pushed to worker [id], then [id] is woken. *)
Inductive push := PNo | PGlobal (id co : nat) | PWake (id : nat).
(** A thread that runs a coroutine, or the [subscribe] or the [trigger] after its slice ([cur] is [None]). *)
Record runner := Runner { cur : option nat; pushing : push }.

Inductive SysEvent := EvWake | EvIo.
(** What [collect_global] returns to, what [run_coroutine] returns to. *)
Inductive cont := KSelect (evs : list SysEvent) | KWork.
Inductive back := BWork | BTimer.
(** A worker: in [epoll_wait]; at the rest of its events; in [collect_global];
    in [run_queued_tasks]; running; at the expired timers. *)
Inductive wpc :=
  | WWait | WEvents (evs : list SysEvent) | WBulk (k : cont) | WMove (v : list nat) (k : cont)
  | WPop | WHas | WSteal (i : nat) | WGot (v : list nat) (co : nat) | WRun (r : runner) (k : back) | WTimer.

(** [late]: history, something was put into the local queue after the last [run_queued_tasks]. *)
Record worker := Worker { local : list nat; global : list nat; evfd : nat; pc : wpc; late : bool }.
Record Scheduler := St {
  workers : list worker; exts : list runner; outside : list nat; finished : list nat; next_id : nat; NEXT_THREAD_ID : Z
}.

Definition new (n m : nat) : Scheduler := St (replicate n (Worker [] [] 0 WWait false)) (replicate m (Runner None PNo)) [] [] 0 0.

Definition set_pc (x : wpc) (w : worker) : worker := Worker (local w) (global w) (evfd w) x (late w).
Definition upd (i : nat) (f : worker -> worker) (s : Scheduler) : Scheduler :=
  St (alter f i (workers s)) (exts s) (outside s) (finished s) (next_id s) (NEXT_THREAD_ID s).
Definition set_ext (x : nat) (r : runner) (s : Scheduler) : Scheduler :=
  St (workers s) (<[x := r]> (exts s)) (outside s) (finished s) (next_id s) (NEXT_THREAD_ID s).
Definition set_outside (l : list nat) (s : Scheduler) : Scheduler :=
  St (workers s) (exts s) l (finished s) (next_id s) (NEXT_THREAD_ID s).
Definition finish (c : nat) (s : Scheduler) : Scheduler :=
  St (workers s) (exts s) (outside s) (finished s ++ [c]) (next_id s) (NEXT_THREAD_ID s).
Definition bump (s : Scheduler) : Scheduler :=
  St (workers s) (exts s) (outside s) (finished s) (next_id s) (Word.add (NEXT_THREAD_ID s) 1).
Definition fresh_id (s : Scheduler) : Scheduler :=
  St (workers s) (exts s) (outside s) (finished s) (S (next_id s)) (NEXT_THREAD_ID s).

(** ** Queues *)
(** [Local::push_back], by the worker itself. *)
Definition push_back (c : nat) (w : worker) : worker :=
  Worker (local w ++ [c]) (global w) (evfd w) (pc w) (match pc w with WRun _ BTimer => true | _ => late w end).
Definition push_global (c : nat) (w : worker) : worker := Worker (local w) (global w ++ [c]) (evfd w) (pc w) (late w).
(** [Selector::wakeup]. *)
Definition wakeup (w : worker) : worker := Worker (local w) (global w) (S (evfd w)) (pc w) (late w).
Definition set_local (l : list nat) (w : worker) : worker := Worker l (global w) (evfd w) (pc w) (late w).
Definition set_global (l : list nat) (w : worker) : worker := Worker (local w) l (evfd w) (pc w) (late w).

(** [schedule_with_id] and [schedule_global], [schedule_global_with_id]: the worker that gets the coroutine. *)
Definition schedule_with_id (id c : nat) (s : Scheduler) : Scheduler := upd id (push_back c) s.
Definition rem_euclid (id : Z) (s : Scheduler) : nat := Z.to_nat (id mod Z.of_nat (length (workers s))).

(** ** The worker *)

(** [Selector::select] until [epoll_wait] returns, with the events it reports (none at a
    timeout); the eventfd is reported only if it is readable. *)
Definition epoll_wait (evs : list SysEvent) (w : worker) : option worker :=
  match pc w with
  | WWait => if forallb (fun e => match e with EvWake => 0 <? evfd w | EvIo => true end) evs then Some (set_pc (WEvents evs) w) else None
  | _ => None
  end.
(** The loop over the events: a wakeup clears the eventfd and collects the global queue; an
    I/O event takes the coroutine it finds ([n] - 1 in [outside]), if any. *)
Definition select (i n : nat) (w : worker) (s : Scheduler) : option Scheduler :=
  match pc w with
  | WEvents [] => Some (upd i (set_pc WPop) s)
  | WEvents (EvWake :: evs) => Some (upd i (fun w => Worker (local w) (global w) 0 (WBulk (KSelect evs)) (late w)) s)
  | WEvents (EvIo :: evs) =>
      match n with
      | 0 => Some (upd i (set_pc (WEvents evs)) s)
      | S j =>
          match outside s !! j with
          | Some c => Some (schedule_with_id i c (upd i (set_pc (WEvents evs)) (set_outside (delete j (outside s)) s)))
          | None => None
          end
      end
  | _ => None
  end.
Definition return_to (k : cont) : wpc := match k with KSelect evs => WEvents evs | KWork => WHas end.
(** [collect_global]; a [bulk_pop] takes [n] coroutines of one block, none only from an empty queue. *)
Definition collect_global (n : nat) (w : worker) : option worker :=
  match pc w with
  | WBulk k =>
      match global w with
      | [] => Some (set_pc (return_to k) w)
      | _ => if (1 <=? n) && (n <=? Spmc.BLOCK_SIZE) then Some (set_pc (WMove (take n (global w)) k) (set_global (drop n (global w)) w)) else None
      end
  | WMove [] k => Some (set_pc (WBulk k) w)
  | WMove (c :: v) k => Some (push_back c (set_pc (WMove v k) w))
  | _ => None
  end.
Definition max_steal (s : Scheduler) : nat := Nat.min 3 (length (workers s) - 1).
(** [steal_into]: the last one of the batch is run, the others go to the local queue. *)
Definition steal_into (i target n : nat) (s : Scheduler) : option Scheduler :=
  match workers s !! target with
  | Some v =>
      let l := take n (local v) in
      match last l with
      | Some c => Some (upd i (set_pc (WGot (removelast l) c)) (upd target (set_local (drop n (local v))) s))
      | None => None
      end
  | None => None
  end.
(** [run_queued_tasks]; [n]: the answer of [has_tasks], what the victim's [bulk_pop] takes. *)
Definition run_queued_tasks (i n : nat) (w : worker) (s : Scheduler) : option Scheduler :=
  match pc w with
  | WPop =>
      match local w with
      | c :: l => Some (upd i (fun w => set_pc (WRun (Runner (Some c) PNo) BWork) (set_local l w)) s)
      | [] => Some (upd i (set_pc (WBulk KWork)) s)
      end
  | WHas =>
      if 0 <? n then Some (upd i (set_pc WPop) s)
      else match local w with [] => Some (upd i (set_pc (WSteal 0)) s) | _ => None end
  | WSteal j =>
      if j <? max_steal s then
        if (0 <? n) && (n <=? Spmc.BLOCK_SIZE) then steal_into i ((i + j + 1) mod length (workers s)) n s else Some (upd i (set_pc (WSteal (S j))) s)
      else Some (upd i (fun w => Worker (local w) (global w) (evfd w) WTimer false) s)
  | WGot (c :: v) co => Some (upd i (fun w => push_back c (set_pc (WGot v co) w)) s)
  | WGot [] co => Some (upd i (set_pc (WRun (Runner (Some co) PNo) BWork)) s)
  | _ => None
  end.
(** [schedule_timer]: the handler of an expired I/O timeout runs its coroutine on the
    spot; then the loop comes back to [epoll_wait]. *)
Definition schedule_timer (i n : nat) (w : worker) (s : Scheduler) : option Scheduler :=
  match pc w with
  | WTimer =>
      match n with
      | 0 => Some (upd i (set_pc WWait) s)
      | S j =>
          match outside s !! j with
          | Some c => Some (upd i (set_pc (WRun (Runner (Some c) PNo) BTimer)) (set_outside (delete j (outside s)) s))
          | None => None
          end
      end
  | WRun (Runner None PNo) k => Some (upd i (set_pc (match k with BWork => WPop | BTimer => WTimer end)) s)
  | _ => None
  end.

(** ** Threads that run coroutines: workers, and others (the timer thread, threads of the program) *)
Inductive actor := Wk (i : nat) | Ext (x : nat).
Definition runner_of (a : actor) (s : Scheduler) : option runner :=
  match a with
  | Wk i => match workers s !! i with Some w => match pc w with WRun r _ => Some r | _ => None end | None => None end
  | Ext x => exts s !! x
  end.
Definition set_runner (a : actor) (r : runner) (s : Scheduler) : Scheduler :=
  match a with
  | Wk i => upd i (fun w => set_pc (match pc w with WRun _ k => WRun r k | x => x end) w) s
  | Ext x => set_ext x r s
  end.
Definition schedule_global (c : nat) (a : actor) (r : runner) (s : Scheduler) : Scheduler :=
  set_runner a (Runner (cur r) (PGlobal (rem_euclid (NEXT_THREAD_ID s) s) c)) (bump s).
Definition schedule_global_with_id (c : nat) (id : Z) (a : actor) (r : runner) (s : Scheduler) : Scheduler :=
  set_runner a (Runner (cur r) (PGlobal (rem_euclid id s) c)) s.
(** [WORKER_ID] decides. *)
Definition schedule (c : nat) (a : actor) (r : runner) (s : Scheduler) : Scheduler :=
  match a with Wk i => schedule_with_id i c s | Ext _ => schedule_global c a r s end.

(** What a thread that is not pushing does: schedule or run what it takes from [outside]
    ([subscribe], an event handler), spawn, suspend, finish;
    the push and the wakeup; [add_io_timer] wakes the worker of the descriptor. *)
Inductive act := ASched (j : nat) | ARun (j : nat) | ASpawn (id : option Z) | ASuspend | AFinish | APush | AWake (id : nat).
Definition acts (a : actor) (x : act) (r : runner) (s : Scheduler) : option Scheduler :=
  match x, pushing r with
  | ASched j, PNo => match outside s !! j with Some c => Some (schedule c a r (set_outside (delete j (outside s)) s)) | None => None end
  | ARun j, PNo =>
      match cur r, outside s !! j with
      | None, Some c => Some (set_runner a (Runner (Some c) PNo) (set_outside (delete j (outside s)) s))
      | _, _ => None
      end
  | ASpawn o, PNo =>
      let c := next_id s in
      Some (match o with None => schedule_global c a r (fresh_id s) | Some id => schedule_global_with_id c id a r (fresh_id s) end)
  | ASuspend, PNo => match cur r with Some c => Some (set_runner a (Runner None PNo) (set_outside (outside s ++ [c]) s)) | None => None end
  | AFinish, PNo => match cur r with Some c => Some (set_runner a (Runner None PNo) (finish c s)) | None => None end
  | APush, PGlobal id c => Some (set_runner a (Runner (cur r) (PWake id)) (upd id (push_global c) s))
  | APush, PWake id => Some (set_runner a (Runner (cur r) PNo) (upd id wakeup s))
  | AWake id, PNo => Some (upd (id mod length (workers s)) wakeup s)
  | _, _ => None
  end.

Inductive event := Poll (i : nat) (evs : list SysEvent) | W (i n : nat) | A (a : actor) (x : act).

Definition step (s : Scheduler) (e : event) : option Scheduler :=
  match e with
  | Poll i evs => match workers s !! i with Some w => match epoll_wait evs w with Some w' => Some (upd i (fun _ => w') s) | None => None end | None => None end
  | W i n =>
      match workers s !! i with
      | Some w =>
          match pc w with
          | WEvents _ => select i n w s
          | WBulk _ | WMove _ _ => match collect_global n w with Some w' => Some (upd i (fun _ => w') s) | None => None end
          | WTimer | WRun _ _ => schedule_timer i n w s
          | _ => run_queued_tasks i n w s
          end
      | None => None
      end
  | A a x => match runner_of a s with Some r => acts a x r s | None => None end
  end.

(** ** Where a coroutine is *)
Definition cnt (c : nat) (l : list nat) : Z := zsum (fun x => b2z (Nat.eqb x c)) l.
Definition in_push (c : nat) (p : push) : Z := match p with PGlobal _ x => b2z (Nat.eqb x c) | _ => 0%Z end.
Definition in_runner (c : nat) (r : runner) : Z := ((match cur r with Some x => b2z (Nat.eqb x c) | None => 0%Z end) + in_push c (pushing r))%Z.
Definition in_pc (c : nat) (x : wpc) : Z :=
  match x with WMove v _ => cnt c v | WGot v co => (cnt c v + b2z (Nat.eqb co c))%Z | WRun r _ => in_runner c r | _ => 0%Z end.
Definition in_worker (c : nat) (w : worker) : Z := (cnt c (local w) + cnt c (global w) + in_pc c (pc w))%Z.
(** In how many queues, hands and places it is. *)
Definition total (c : nat) (s : Scheduler) : Z :=
  (zsum (in_worker c) (workers s) + zsum (in_runner c) (exts s) + cnt c (outside s) + cnt c (finished s))%Z.

Lemma cnt_app c l k : cnt c (l ++ k) = (cnt c l + cnt c k)%Z.
Proof. apply zsum_app. Qed.
Lemma cnt_one c x : cnt c [x] = b2z (Nat.eqb x c).
Proof. unfold cnt. simpl. lia. Qed.
Lemma cnt_delete c l i x : l !! i = Some x -> cnt c (delete i l) = (cnt c l - b2z (Nat.eqb x c))%Z.
Proof. intros H. unfold cnt. by rewrite (zsum_delete _ _ _ _ H). Qed.
Lemma cnt_split c n l : (cnt c (take n l) + cnt c (drop n l) = cnt c l)%Z.
Proof. by rewrite <-cnt_app, take_drop. Qed.
Lemma cnt_last c l x : last l = Some x -> (cnt c (removelast l) + b2z (Nat.eqb x c) = cnt c l)%Z.
Proof.
  intros H. destruct l as [|y l] using rev_ind; [done|]. rewrite last_snoc in H. injection H as ->.
  by rewrite removelast_last, cnt_app, cnt_one.
Qed.

Lemma upd_eq i f s w : workers s !! i = Some w -> workers (upd i f s) !! i = Some (f w).
Proof. intros H. simpl. by rewrite list_lookup_alter_eq, H. Qed.
Lemma upd_ne i j f s : i <> j -> workers (upd i f s) !! j = workers s !! j.
Proof. intros H. simpl. by rewrite list_lookup_alter_ne. Qed.
Lemma upd_inv i f s j w : workers (upd i f s) !! j = Some w -> exists w0, workers s !! j = Some w0 /\ ((j = i /\ w = f w0) \/ (j <> i /\ w = w0)).
Proof.
  destruct (decide (i = j)) as [->|Hne]; simpl.
  - rewrite list_lookup_alter_eq. destruct (workers s !! j) as [w0|]; [|done]. simpl. intros [= <-]. eauto.
  - rewrite list_lookup_alter_ne by done. eauto.
Qed.

Section total.
Context (c : nat).

Lemma total_upd i f w s : workers s !! i = Some w -> total c (upd i f s) = (total c s + in_worker c (f w) - in_worker c w)%Z.
Proof. intros H. unfold total. cbn [upd workers exts outside finished]. rewrite (zsum_alter _ _ _ _ _ H). lia. Qed.
Lemma total_outside j x s : outside s !! j = Some x -> total c (set_outside (delete j (outside s)) s) = (total c s - b2z (Nat.eqb x c))%Z.
Proof. intros H. unfold total. simpl. rewrite (cnt_delete _ _ _ _ H). lia. Qed.
Lemma total_store x s : total c (set_outside (outside s ++ [x]) s) = (total c s + b2z (Nat.eqb x c))%Z.
Proof. unfold total. simpl. rewrite cnt_app, cnt_one. lia. Qed.
Lemma total_finish x s : total c (finish x s) = (total c s + b2z (Nat.eqb x c))%Z.
Proof. unfold total. simpl. rewrite cnt_app, cnt_one. lia. Qed.
Lemma total_runner a r r' s : runner_of a s = Some r -> total c (set_runner a r' s) = (total c s + in_runner c r' - in_runner c r)%Z.
Proof.
  intros H. destruct a as [i|x]; simpl in H.
  - destruct (workers s !! i) as [w|] eqn:Hw; [|done]. destruct (pc w) eqn:Hp; try done. injection H as ->.
    cbn [set_runner]. rewrite (total_upd _ _ _ _ Hw). unfold in_worker. cbn [set_pc local global pc]. rewrite Hp. cbn [in_pc]. lia.
  - unfold total. cbn [set_runner set_ext workers exts outside finished]. rewrite (zsum_insert _ _ _ _ _ H). lia.
Qed.
End total.

(** ** The invariant *)
Definition pushed_by (x : wpc) : push := match x with WRun r _ => pushing r | _ => PNo end.
Definition waking (i : nat) (p : push) : Z := match p with PWake j => b2z (Nat.eqb j i) | _ => 0%Z end.
(** Threads between their push to worker [i] and the write to its eventfd. *)
Definition wakers (i : nat) (s : Scheduler) : Z :=
  (zsum (fun w => waking i (pushed_by (pc w))) (workers s) + zsum (fun r => waking i (pushing r)) (exts s))%Z.
Definition collecting (x : wpc) : bool := match x with WBulk _ | WMove _ _ => true | _ => false end.
Definition in_range (n : nat) (p : push) : Prop := match p with PNo => True | PGlobal i _ | PWake i => i < n end.
(** The local queue is empty when the worker goes to wait, but for what the timers added. *)
Definition local_ok (w : worker) : Prop :=
  match pc w with
  | WSteal _ => local w = []
  | WWait | WTimer | WRun _ BTimer => late w = false -> local w = []
  | _ => True
  end.

Record inv (s : Scheduler) : Prop := {
  iv_len : 0 < length (workers s);
  iv_range : forall a r, runner_of a s = Some r -> in_range (length (workers s)) (pushing r);
  iv_wake : forall i w, workers s !! i = Some w -> global w <> [] -> 0 < evfd w \/ (0 < wakers i s)%Z \/ collecting (pc w) = true;
  iv_local : forall i w, workers s !! i = Some w -> local_ok w
}.

Lemma sd_waking_nonneg i p : (0 <= waking i p)%Z.
Proof. destruct p; simpl; [lia|lia|apply b2z_nonneg]. Qed.

(** *** One worker changes *)
Definition put (i : nat) (w : worker) (s : Scheduler) : Scheduler := upd i (fun _ => w) s.
Lemma upd_put i f w s : workers s !! i = Some w -> upd i f s = put i (f w) s.
Proof.
  intros H. unfold put, upd. f_equal. apply list_eq. intros j. destruct (decide (i = j)) as [->|Hne].
  - by rewrite !list_lookup_alter_eq, H.
  - by rewrite !list_lookup_alter_ne.
Qed.
Lemma put_get i w w' s : workers s !! i = Some w -> workers (put i w' s) !! i = Some w'.
Proof. apply (upd_eq i (fun _ => w')). Qed.
Lemma put_put i w w' s : put i w (put i w' s) = put i w s.
Proof.
  unfold put, upd. f_equal. simpl. apply list_eq. intros j. destruct (decide (i = j)) as [->|Hne].
  - rewrite !list_lookup_alter_eq. by destruct (workers s !! j).
  - by rewrite !list_lookup_alter_ne.
Qed.

Lemma runner_put i w w' s a r :
  workers s !! i = Some w -> runner_of a (put i w' s) = Some r ->
  (exists k, a = Wk i /\ pc w' = WRun r k) \/ runner_of a s = Some r.
Proof.
  intros Hw Hr. destruct a as [j|x]; [|by right]. unfold runner_of in *. destruct (workers (put i w' s) !! j) as [v|] eqn:Hv; [|done].
  destruct (upd_inv _ _ _ _ _ Hv) as (w0 & Hw0 & [[-> ->]|[Hne ->]]); [left|right; by rewrite Hw0].
  destruct (pc w') eqn:Hp; try done. injection Hr as ->. by eexists.
Qed.

Lemma wakers_put j i w w' s :
  workers s !! i = Some w -> wakers j (put i w' s) = (wakers j s + waking j (pushed_by (pc w')) - waking j (pushed_by (pc w)))%Z.
Proof. intros H. unfold wakers. cbn [put upd workers exts]. rewrite (zsum_alter _ _ _ _ _ H). lia. Qed.

Lemma inv_put i w w' s :
  inv s -> workers s !! i = Some w -> pushed_by (pc w') = pushed_by (pc w) ->
  (global w' <> [] -> (global w <> [] /\ evfd w' = evfd w /\ (collecting (pc w) = true -> collecting (pc w') = true)) \/ 0 < evfd w' \/ collecting (pc w') = true \/ (0 < wakers i s)%Z) ->
  local_ok w' -> inv (put i w' s).
Proof.
  intros [H1 H3 H4 H5] Hw Hp Hg Hl. split.
  - simpl. by rewrite length_alter.
  - intros a r Hr. cbn [put upd workers]. rewrite length_alter.
    apply (runner_put i w) in Hr; [|done]. destruct Hr as [(k & -> & Hk)|Hr]; [|by eapply H3].
    rewrite Hk in Hp. simpl in Hp. destruct (pc w) eqn:Hpc; simpl in Hp; try (rewrite Hp; done).
    rewrite Hp. apply (H3 (Wk i)). simpl. by rewrite Hw, Hpc.
  - intros j v Hv Hne. rewrite (wakers_put j i w) by done. rewrite Hp.
    destruct (upd_inv _ _ _ _ _ Hv) as (w0 & Hw0 & [[-> ->]|[_ ->]]); [|destruct (H4 j w0 Hw0 Hne) as [?|[?|?]]; auto with lia].
    destruct (Hg Hne) as [(Hgw & He & Hc)|[?|[?|?]]]; [|by auto..|right; left; lia].
    rewrite He. destruct (H4 i w Hw Hgw) as [?|[?|?]]; [by auto|right; left; lia|by auto].
  - intros j v Hv. destruct (upd_inv _ _ _ _ _ Hv) as (w0 & Hw0 & [[-> ->]|[_ ->]]); [done|by eapply H5].
Qed.
(** What [outside], [finished] and the counters are does not matter to it. *)
Lemma sd_inv_same s s' : inv s -> workers s' = workers s -> exts s' = exts s -> inv s'.
Proof.
  intros [H1 H3 H4 H5] Ew Ee. assert (Hk : forall j, wakers j s' = wakers j s) by (intros j; unfold wakers; by rewrite Ew, Ee).
  split; rewrite ?Ew; auto.
  - intros a r Hr. apply (H3 a). destruct a; simpl in *; by rewrite <-?Ew, <-?Ee.
  - intros i w. rewrite Hk. apply H4.
Qed.

(** *** The steps of a worker *)
Definition all_placed (s : Scheduler) : Prop := forall c, total c s = b2z (c <? next_id s).
Definition good (s : Scheduler) : Prop := inv s /\ all_placed s.

Lemma good_put i w w' s :
  good s -> workers s !! i = Some w -> (forall c, in_worker c w' = in_worker c w) -> pushed_by (pc w') = pushed_by (pc w) ->
  (global w' <> [] -> (global w <> [] /\ evfd w' = evfd w /\ (collecting (pc w) = true -> collecting (pc w') = true)) \/ 0 < evfd w' \/ collecting (pc w') = true \/ (0 < wakers i s)%Z) ->
  local_ok w' -> good (put i w' s).
Proof.
  intros [Hi Ht] Hw Hc Hp Hg Hl. split; [by apply (inv_put i w)|].
  intros c. unfold put. rewrite (total_upd c _ _ _ _ Hw), Hc. change (next_id _) with (next_id s). rewrite <-(Ht c). lia.
Qed.
(** Closes the conditions of [good_put] of a step from a place in the loop. *)
Ltac placed Hp :=
  try (intros ?c; unfold in_worker; simpl; rewrite ?Hp, ?cnt_app, ?cnt_one; simpl; unfold cnt, in_runner; simpl; lia);
  try (simpl; by rewrite ?Hp); try (simpl; by intros; auto); try (simpl; rewrite ?Hp; by intros; left); try (unfold local_ok; simpl; by auto).

Lemma good_select i n w s s' : good s -> workers s !! i = Some w -> select i n w s = Some s' -> good s'.
Proof.
  intros Hgood Hw Hs. unfold select in Hs. destruct (pc w) as [|[|[|] evs]| | | | | | | |] eqn:Hp; try done.
  - injection Hs as <-. rewrite (upd_put _ _ _ _ Hw). apply (good_put i w); placed Hp.
  - injection Hs as <-. rewrite (upd_put _ _ _ _ Hw). apply (good_put i w); placed Hp.
  - destruct n as [|j].
    + injection Hs as <-. rewrite (upd_put _ _ _ _ Hw). apply (good_put i w); placed Hp.
    + destruct Hgood as [Hi Ht]. destruct (outside s !! j) as [c|] eqn:Hc; [|done]. injection Hs as <-. unfold schedule_with_id.
      rewrite (upd_put i (set_pc _) w), (upd_put i (push_back c) (set_pc (WEvents evs) w)), put_put by (done || by apply (put_get i w)). split.
      * apply (inv_put i w); placed Hp. by eapply sd_inv_same.
      * intros d. unfold put. rewrite (total_upd d _ _ w), (total_outside _ _ _ _ Hc), (Ht d) by done.
        unfold in_worker. simpl. rewrite Hp, cnt_app, cnt_one. simpl. lia.
Qed.

Lemma good_collect i n w w' s : good s -> workers s !! i = Some w -> collect_global n w = Some w' -> good (put i w' s).
Proof.
  intros Hgood Hw Hs. unfold collect_global in Hs.
  destruct (pc w) as [| |k|[|c v] k| | | | | |] eqn:Hp; try done.
  - destruct (global w) as [|g l] eqn:Hg.
    + injection Hs as <-. apply (good_put i w); try done.
      * intros c. unfold in_worker. simpl. rewrite Hp. by destruct k.
      * rewrite Hp. by destruct k.
      * by destruct k.
    + destruct (_ && _); [|done]. injection Hs as <-. apply (good_put i w); placed Hp.
      intros c. unfold in_worker. simpl. rewrite Hp, Hg. pose proof (cnt_split c n (g :: l)). simpl. lia.
  - injection Hs as <-. apply (good_put i w); placed Hp.
  - injection Hs as <-. apply (good_put i w); placed Hp.
Qed.

Lemma good_steal i t n j w s s' :
  good s -> workers s !! i = Some w -> pc w = WSteal j -> local w = [] -> steal_into i t n s = Some s' -> good s'.
Proof.
  intros [Hi Ht] Hw Hp Hl Hs. unfold steal_into in Hs. destruct (workers s !! t) as [v|] eqn:Hv; [|done].
  destruct (last (take n (local v))) as [c|] eqn:Hc; [|done]. injection Hs as <-.
  assert (Hne : i <> t). { intros ->. assert (v = w) as -> by congruence. rewrite Hl in Hc. by destruct n. }
  rewrite (upd_put t _ _ _ Hv). assert (Hw' : workers (put t (set_local (drop n (local v)) v) s) !! i = Some w) by (unfold put; by rewrite upd_ne).
  rewrite (upd_put i _ _ _ Hw'). split.
  - apply (inv_put i w); placed Hp. apply (inv_put t v); try done.
    + by intros; left.
    + pose proof (iv_local _ Hi t v Hv) as Hlo. unfold local_ok in *. simpl. destruct (local v) as [|x l] eqn:Hlv; [by destruct n|].
      destruct (pc v) as [| | | | | | | |r [|]|]; try done; intros E; by specialize (Hlo E).
  - intros d. unfold put in *. rewrite (total_upd d _ _ w), (total_upd d _ _ v), (Ht d) by done. unfold in_worker. simpl. rewrite Hp.
    pose proof (cnt_split d n (local v)). pose proof (cnt_last d _ _ Hc). simpl. lia.
Qed.

Lemma good_run i n w s s' : good s -> workers s !! i = Some w -> run_queued_tasks i n w s = Some s' -> good s'.
Proof.
  intros Hgood Hw Hs. unfold run_queued_tasks in Hs. destruct (pc w) as [| | | | | |j|[|c v] co| |] eqn:Hp; try done.
  - destruct (local w) as [|c l] eqn:Hl; injection Hs as <-; rewrite (upd_put _ _ _ _ Hw); apply (good_put i w); placed Hp.
    intros d. unfold in_worker. simpl. rewrite Hp, Hl. unfold cnt, in_runner. simpl. lia.
  - destruct (0 <? n); [injection Hs as <-; rewrite (upd_put _ _ _ _ Hw); apply (good_put i w); placed Hp|].
    destruct (local w) as [|c l] eqn:Hl; [|done]. injection Hs as <-. rewrite (upd_put _ _ _ _ Hw). apply (good_put i w); placed Hp.
  - pose proof (iv_local _ (proj1 Hgood) i w Hw) as Hlo. unfold local_ok in Hlo. rewrite Hp in Hlo.
    destruct (j <? max_steal s); [|injection Hs as <-; rewrite (upd_put _ _ _ _ Hw); apply (good_put i w); placed Hp].
    destruct (_ && _); [|injection Hs as <-; rewrite (upd_put _ _ _ _ Hw); apply (good_put i w); placed Hp].
    by eapply good_steal.
  - injection Hs as <-. rewrite (upd_put _ _ _ _ Hw). apply (good_put i w); placed Hp.
  - injection Hs as <-. rewrite (upd_put _ _ _ _ Hw). apply (good_put i w); placed Hp.
Qed.

Lemma good_timer i n w s s' : good s -> workers s !! i = Some w -> schedule_timer i n w s = Some s' -> good s'.
Proof.
  intros Hgood Hw Hs. pose proof (iv_local _ (proj1 Hgood) i w Hw) as Hlo. unfold local_ok in Hlo.
  unfold schedule_timer in Hs. destruct (pc w) as [| | | | | | | |[[c|] [| |]] k|] eqn:Hp; try done.
  - injection Hs as <-. rewrite (upd_put _ _ _ _ Hw). destruct k; apply (good_put i w); placed Hp.
  - destruct n as [|j]; [injection Hs as <-; rewrite (upd_put _ _ _ _ Hw); apply (good_put i w); placed Hp|].
    destruct Hgood as [Hi Ht]. destruct (outside s !! j) as [c|] eqn:Hc; [|done]. injection Hs as <-. rewrite (upd_put i _ w) by done. split.
    + apply (inv_put i w); placed Hp. by eapply sd_inv_same.
    + intros d. unfold put. rewrite (total_upd d _ _ w), (total_outside _ _ _ _ Hc), (Ht d) by done.
      unfold in_worker. simpl. rewrite Hp. unfold in_runner. simpl. lia.
Qed.

(** *** The steps of a thread that runs coroutines *)
Lemma runner_wk i s r : runner_of (Wk i) s = Some r -> exists w k, workers s !! i = Some w /\ pc w = WRun r k.
Proof. simpl. destruct (workers s !! i) as [w|]; [|done]. destruct (pc w) eqn:Hp; try done. intros [= ->]. eauto. Qed.
Lemma runner_set a r r' s : runner_of a s = Some r -> runner_of a (set_runner a r' s) = Some r'.
Proof.
  destruct a as [i|x]; [intros (w & k & Hw & Hp)%runner_wk|intros H%lookup_lt_Some]; simpl.
  - by rewrite list_lookup_alter_eq, Hw; simpl; rewrite Hp.
  - by apply list_lookup_insert_eq.
Qed.
Lemma set_runner_wk i r r' w k s : workers s !! i = Some w -> pc w = WRun r k -> set_runner (Wk i) r' s = put i (set_pc (WRun r' k) w) s.
Proof. intros Hw Hp. simpl. rewrite (upd_put _ _ _ _ Hw). by rewrite Hp. Qed.
Lemma wakers_runner j a r r' s :
  runner_of a s = Some r -> wakers j (set_runner a r' s) = (wakers j s + waking j (pushing r') - waking j (pushing r))%Z.
Proof.
  destruct a as [i|x].
  - intros (w & k & Hw & Hp)%runner_wk. rewrite (set_runner_wk _ _ _ _ _ _ Hw Hp), (wakers_put _ _ _ _ _ Hw). simpl. by rewrite Hp.
  - intros Hx. unfold wakers. cbn [set_runner set_ext workers exts]. rewrite (zsum_insert _ _ _ _ _ Hx). lia.
Qed.

Lemma inv_runner a r r' s :
  inv s -> runner_of a s = Some r -> in_range (length (workers s)) (pushing r') ->
  (forall j w, workers s !! j = Some w -> (waking j (pushing r) <= waking j (pushing r'))%Z \/ 0 < evfd w) ->
  inv (set_runner a r' s).
Proof.
  intros [H1 H3 H4 H5] Hr Hin Hwk.
  assert (Hlen : length (workers (set_runner a r' s)) = length (workers s)) by (destruct a; simpl; by rewrite ?length_alter).
  assert (Hlk : forall j v, workers (set_runner a r' s) !! j = Some v ->
    exists w, workers s !! j = Some w /\ local v = local w /\ global v = global w /\ evfd v = evfd w /\ collecting (pc v) = collecting (pc w) /\ (local_ok w -> local_ok v)).
  { intros j v Hv. destruct a as [i|x]; [|by exists v]. apply runner_wk in Hr as (w & k & Hw & Hp). rewrite (set_runner_wk _ _ _ _ _ _ Hw Hp) in Hv.
    destruct (upd_inv _ _ _ _ _ Hv) as (w0 & Hw0 & [[-> ->]|[_ ->]]); [|by exists w0].
    exists w. rewrite Hp. split_and!; try done. unfold local_ok. by rewrite Hp. }
  split; rewrite ?Hlen; auto.
  - intros b q Hb. destruct a as [i|x].
    + apply runner_wk in Hr as (w & k & Hw & Hp). rewrite (set_runner_wk _ _ _ _ _ _ Hw Hp) in Hb.
      destruct (runner_put _ _ _ _ _ _ Hw Hb) as [(k' & -> & [= -> _])|Hq]; [done|by eapply H3].
    + destruct b as [j|y]; [by apply (H3 (Wk j))|]. simpl in Hb. apply lookup_insert_list in Hb as [(<- & -> & _)|[_ Hy]]; [done|by apply (H3 (Ext y))].
  - intros j v Hv. destruct (Hlk j v Hv) as (w & Hw & _ & -> & -> & -> & _). intros Hg. rewrite (wakers_runner _ _ _ _ _ Hr).
    destruct (H4 j w Hw Hg) as [?|[?|?]], (Hwk j w Hw); auto. right. left. lia.
  - intros j v Hv. destruct (Hlk j v Hv) as (w & Hw & _ & _ & _ & _ & Hl). by eauto.
Qed.

(** A push to or a wakeup of a worker does not touch what threads are doing. *)
Definition from_outside (f : worker -> worker) : Prop := (forall x w, f (set_pc x w) = set_pc x (f w)) /\ forall w, pc (f w) = pc w.
Lemma from_push_global c : from_outside (push_global c).
Proof. done. Qed.
Lemma from_wakeup : from_outside wakeup.
Proof. done. Qed.
Lemma runner_upd a id f s : from_outside f -> runner_of a (upd id f s) = runner_of a s.
Proof.
  intros [_ Hf]. destruct a as [i|x]; [|done]. simpl. destruct (decide (id = i)) as [->|Hne].
  - rewrite list_lookup_alter_eq. destruct (workers s !! i); [|done]. simpl. by rewrite Hf.
  - by rewrite list_lookup_alter_ne.
Qed.
Lemma set_runner_upd a r id f s : from_outside f -> set_runner a r (upd id f s) = upd id f (set_runner a r s).
Proof.
  intros [Hf Hp]. destruct a as [i|x]; [|done]. unfold set_runner, upd. f_equal. cbn [workers]. apply list_eq. intros j.
  destruct (decide (i = j)) as [->|Hij], (decide (id = j)) as [->|Hid]; rewrite ?list_lookup_alter_eq, ?list_lookup_alter_ne by done; rewrite ?list_lookup_alter_eq, ?list_lookup_alter_ne by done; try done.
  destruct (workers s !! j) as [w|]; [|done]. cbn [fmap option_fmap option_map]. f_equal. rewrite Hf, !Hp. done.
Qed.
Lemma rem_euclid_lt id s : 0 < length (workers s) -> rem_euclid id s < length (workers s).
Proof. intros H. unfold rem_euclid. pose proof (Z.mod_pos_bound id (Z.of_nat (length (workers s)))). lia. Qed.

(** The thread moves; a coroutine moves between its hands and [outside], [finished] or the new ones. *)
Lemma good_runner a r r' s s' :
  good s -> runner_of a s = Some r -> pushing r = PNo -> (forall j, waking j (pushing r') = 0%Z) -> in_range (length (workers s)) (pushing r') ->
  workers s' = workers s -> exts s' = exts s ->
  (forall c, total c s' - b2z (c <? next_id s')%nat + in_runner c r' = total c s - b2z (c <? next_id s)%nat + in_runner c r)%Z ->
  good (set_runner a r' s').
Proof.
  intros [Hi Ht] Hr Hp Hw' Hin Ew Ee Hc. assert (Hr' : runner_of a s' = Some r) by (rewrite <-Hr; destruct a; simpl; by rewrite ?Ew, ?Ee).
  split.
  - apply (inv_runner a r); [by eapply sd_inv_same|done|by rewrite Ew|]. intros j w _. rewrite Hp, Hw'. by left.
  - intros c. rewrite (total_runner c a r) by done. specialize (Hc c). rewrite (Ht c) in Hc. replace (next_id (set_runner a r' s')) with (next_id s') by (by destruct a). lia.
Qed.

Lemma good_pushes a r s id c :
  good s -> runner_of a s = Some r -> pushing r = PGlobal id c -> good (set_runner a (Runner (cur r) (PWake id)) (upd id (push_global c) s)).
Proof.
  intros [Hi Ht] Hr Hp. pose proof (iv_range _ Hi _ _ Hr) as Hin. rewrite Hp in Hin. destruct (lookup_lt_is_Some_2 _ _ Hin) as [w Hw]. split.
  - rewrite set_runner_upd by apply from_push_global.
    assert (Hi' : inv (set_runner a (Runner (cur r) (PWake id)) s)).
    { apply (inv_runner a r); try done. intros j v _. rewrite Hp. left. apply sd_waking_nonneg. }
    assert (Hlen : length (workers (set_runner a (Runner (cur r) (PWake id)) s)) = length (workers s)) by (destruct a; simpl; by rewrite ?length_alter).
    destruct (lookup_lt_is_Some_2 (workers (set_runner a (Runner (cur r) (PWake id)) s)) id) as [v Hv]; [by rewrite Hlen|].
    rewrite (upd_put _ _ _ _ Hv). apply (inv_put id v); try done; [|exact (iv_local _ Hi' id v Hv)].
    intros _. right. right. right. rewrite (wakers_runner _ _ _ _ _ Hr), Hp. simpl. rewrite Nat.eqb_refl.
    pose proof (zsum_nonneg _ (workers s) (fun w => sd_waking_nonneg id (pushed_by (pc w)))). pose proof (zsum_nonneg _ (exts s) (fun w => sd_waking_nonneg id (pushing w))).
    unfold wakers. simpl. lia.
  - intros d. rewrite (total_runner d a r) by (by rewrite runner_upd). rewrite (total_upd d _ _ _ _ Hw). replace (next_id _) with (next_id s) by (by destruct a).
    rewrite <-(Ht d). unfold in_worker, in_runner. simpl. rewrite Hp, cnt_app, cnt_one. simpl. lia.
Qed.

Lemma good_wake s id : good s -> good (upd id wakeup s).
Proof.
  intros Hg. destruct (workers s !! id) as [w|] eqn:Hw.
  - rewrite (upd_put _ _ _ _ Hw). apply (good_put id w); try done; [right; left; simpl; lia|]. exact (iv_local _ (proj1 Hg) id w Hw).
  - replace (upd id wakeup s) with s; [done|]. destruct s. unfold upd. f_equal. simpl in *. apply list_eq. intros j.
    destruct (decide (id = j)) as [->|]; [by rewrite list_lookup_alter_eq, Hw|by rewrite list_lookup_alter_ne].
Qed.
Lemma good_wakes a r s id :
  good s -> runner_of a s = Some r -> pushing r = PWake id -> good (set_runner a (Runner (cur r) PNo) (upd id wakeup s)).
Proof.
  intros Hg Hr Hp. pose proof (good_wake s id Hg) as [Hi Ht]. assert (Hr' : runner_of a (upd id wakeup s) = Some r) by (by rewrite runner_upd). split.
  - apply (inv_runner a r); try done. intros j w Hj. rewrite Hp. simpl. destruct (Nat.eqb_spec id j) as [->|]; [right|by left].
    destruct (upd_inv _ _ _ _ _ Hj) as (w0 & _ & [[_ ->]|[? _]]); [simpl; lia|done].
  - intros d. rewrite (total_runner d a r) by done. replace (next_id _) with (next_id (upd id wakeup s)) by (by destruct a). rewrite <-(Ht d).
    unfold in_runner. rewrite Hp. simpl. lia.
Qed.

Lemma good_schedule a r j c s :
  good s -> runner_of a s = Some r -> pushing r = PNo -> outside s !! j = Some c -> good (schedule c a r (set_outside (delete j (outside s)) s)).
Proof.
  intros Hg Hr Hp Hc. destruct a as [i|x].
  - apply runner_wk in Hr as (w & k & Hw & Hpc). unfold schedule, schedule_with_id. rewrite (upd_put i _ w) by done. destruct Hg as [Hi Ht]. split.
    + apply (inv_put i w); try done; [by eapply sd_inv_same|by intros; left|].
      pose proof (iv_local _ Hi i w Hw) as Hlo. unfold local_ok in *. cbn [pc push_back local late]. rewrite Hpc in *. by destruct k.
    + intros d. unfold put. rewrite (total_upd d _ _ w), (total_outside _ _ _ _ Hc), (Ht d) by done.
      unfold in_worker. simpl. rewrite cnt_app, cnt_one. lia.
  - unfold schedule, schedule_global. apply (good_runner (Ext x) r _ s); try done.
    + apply (rem_euclid_lt _ s), Hg.
    + intros d. unfold in_runner. rewrite Hp. simpl. pose proof (total_outside d _ _ _ Hc). unfold total in *. simpl in *. lia.
Qed.

Lemma total_fresh c s : total c (fresh_id s) = total c s.
Proof. done. Qed.
Lemma total_bump c s : total c (bump s) = total c s.
Proof. done. Qed.
Lemma fresh_count (c n : nat) : b2z (c <? S n) = (b2z (c <? n)%nat + b2z (Nat.eqb n c))%Z.
Proof. destruct (Nat.ltb_spec c (S n)), (Nat.ltb_spec c n), (Nat.eqb_spec n c); simpl; lia. Qed.

Lemma good_acts a x r s s' : good s -> runner_of a s = Some r -> acts a x r s = Some s' -> good s'.
Proof.
  intros Hg Hr Hs. unfold acts in Hs. destruct x as [j|j|o| | | |id], (pushing r) as [|id' c|id'] eqn:Hp; try done.
  - destruct (outside s !! j) as [c|] eqn:Hc; [|done]. injection Hs as <-. by apply good_schedule.
  - destruct (cur r) eqn:Hcur; [done|]. destruct (outside s !! j) as [c|] eqn:Hc; [|done]. injection Hs as <-.
    apply (good_runner a r _ s); try done. intros d. unfold in_runner. rewrite Hp, Hcur. simpl. rewrite (total_outside _ _ _ _ Hc). lia.
  - destruct o as [id|]; injection Hs as <-; apply (good_runner a r _ s); try done; try (apply (rem_euclid_lt _ s), Hg);
      intros d; unfold in_runner; rewrite Hp; simpl; rewrite ?total_bump, total_fresh, fresh_count; lia.
  - destruct (cur r) as [c|] eqn:Hcur; [|done]. injection Hs as <-. apply (good_runner a r _ s); try done.
    intros d. unfold in_runner. rewrite Hp, Hcur. simpl. rewrite total_store. lia.
  - destruct (cur r) as [c|] eqn:Hcur; [|done]. injection Hs as <-. apply (good_runner a r _ s); try done.
    intros d. unfold in_runner. rewrite Hp, Hcur. simpl. rewrite total_finish. lia.
  - injection Hs as <-. by eapply good_pushes.
  - injection Hs as <-. by apply good_wakes.
  - injection Hs as <-. by apply good_wake.
Qed.

Lemma good_step s e s' : good s -> step s e = Some s' -> good s'.
Proof.
  intros Hg Hs. destruct e as [i evs|i n|a x]; simpl in Hs.
  - destruct (workers s !! i) as [w|] eqn:Hw; [|done]. unfold epoll_wait in Hs. destruct (pc w) eqn:Hp; try done. destruct (forallb _ _); [|done].
    injection Hs as <-. apply (good_put i w); placed Hp.
  - destruct (workers s !! i) as [w|] eqn:Hw; [|done].
    destruct (pc w) eqn:Hp; first [by eapply good_select|by eapply good_timer|by eapply good_run|idtac];
      (destruct (collect_global n w) as [w'|] eqn:Hc; [|done]; injection Hs as <-; by eapply good_collect).
  - destruct (runner_of a s) as [r|] eqn:Hr; [|done]. by eapply good_acts.
Qed.

Lemma good_init n m : 0 < n -> good (new n m).
Proof.
  intros Hn. split.
  - split; simpl; rewrite ?length_replicate; try done.
    + intros [i|x] r; simpl.
      * destruct (replicate n _ !! i) as [w|] eqn:Hw; [|done]. by apply lookup_replicate in Hw as [-> _].
      * by intros [-> _]%lookup_replicate.
    + by intros i w [-> _]%lookup_replicate.
    + by intros i w [-> _]%lookup_replicate.
  - intros c. unfold total. simpl. rewrite !zsum_replicate. unfold in_worker, in_runner, cnt. simpl. lia.
Qed.
Lemma good_reachable n m s : 0 < n -> reachable step (new n m) s -> good s.
Proof. intros Hn. apply reachable_ind_inv; eauto using good_init, good_step. Qed.

(** ** What the scheduler promises *)

(** The coroutine is running on this thread. *)
Definition runs (a : actor) (c : nat) (s : Scheduler) : Prop := exists r, runner_of a s = Some r /\ cur r = Some c.

Lemma cnt_nonneg c l : (0 <= cnt c l)%Z.
Proof. apply zsum_nonneg. intros. apply b2z_nonneg. Qed.
Lemma in_push_nonneg c p : (0 <= in_push c p)%Z.
Proof. destruct p; simpl; try lia. apply b2z_nonneg. Qed.
Lemma in_runner_nonneg c r : (0 <= in_runner c r)%Z.
Proof. unfold in_runner. pose proof (in_push_nonneg c (pushing r)). destruct (cur r) as [x|]; [pose proof (b2z_nonneg (Nat.eqb x c))|]; lia. Qed.
Lemma in_pc_nonneg c x : (0 <= in_pc c x)%Z.
Proof.
  destruct x as [| | |v| | | |v co|r|]; simpl; try lia; try apply cnt_nonneg; [|apply in_runner_nonneg].
  pose proof (cnt_nonneg c v). pose proof (b2z_nonneg (Nat.eqb co c)). lia.
Qed.
Lemma in_worker_nonneg c w : (0 <= in_worker c w)%Z.
Proof. unfold in_worker. pose proof (cnt_nonneg c (local w)). pose proof (cnt_nonneg c (global w)). pose proof (in_pc_nonneg c (pc w)). lia. Qed.

Lemma runner_worker c i r s : runner_of (Wk i) s = Some r -> exists w, workers s !! i = Some w /\ in_worker c w = (in_runner c r + cnt c (local w) + cnt c (global w))%Z.
Proof. intros (w & k & Hw & Hp)%runner_wk. exists w. split; [done|]. unfold in_worker. rewrite Hp. simpl. lia. Qed.

(** What one thread, or two, hold is counted. *)
Lemma total_one c a r s : runner_of a s = Some r -> (in_runner c r + cnt c (outside s) + cnt c (finished s) <= total c s)%Z.
Proof.
  intros Hr. pose proof (zsum_nonneg _ (workers s) (in_worker_nonneg c)) as H1. pose proof (zsum_nonneg _ (exts s) (in_runner_nonneg c)) as H2. unfold total.
  destruct a as [i|x]; [|pose proof (zsum_lookup_le _ _ _ _ (in_runner_nonneg c) Hr); lia].
  destruct (runner_worker c i r s Hr) as (w & Hw & He). pose proof (zsum_lookup_le _ _ _ _ (in_worker_nonneg c) Hw).
  pose proof (cnt_nonneg c (local w)). pose proof (cnt_nonneg c (global w)). lia.
Qed.
Lemma total_two c a b r q s : a <> b -> runner_of a s = Some r -> runner_of b s = Some q -> (in_runner c r + in_runner c q <= total c s)%Z.
Proof.
  intros Hne Hr Hq. pose proof (zsum_nonneg _ (workers s) (in_worker_nonneg c)) as H1. pose proof (zsum_nonneg _ (exts s) (in_runner_nonneg c)) as H2.
  pose proof (cnt_nonneg c (outside s)). pose proof (cnt_nonneg c (finished s)).
  assert (Hwx : forall i x u v, runner_of (Wk i) s = Some u -> runner_of (Ext x) s = Some v -> (in_runner c u + in_runner c v <= total c s)%Z).
  { intros i x u v Hu Hv. destruct (runner_worker c i u s Hu) as (w & Hw & He). pose proof (zsum_lookup_le _ _ _ _ (in_worker_nonneg c) Hw).
    pose proof (zsum_lookup_le _ _ _ _ (in_runner_nonneg c) Hv). pose proof (cnt_nonneg c (local w)). pose proof (cnt_nonneg c (global w)). unfold total. lia. }
  destruct a as [i|x], b as [j|y]; [|by eauto|rewrite Z.add_comm; by eauto|].
  - destruct (runner_worker c i r s Hr) as (w & Hw & He), (runner_worker c j q s Hq) as (v & Hv & Hf).
    pose proof (zsum_lookup2_le _ _ i j w v (in_worker_nonneg c) ltac:(congruence) Hw Hv).
    pose proof (cnt_nonneg c (local w)). pose proof (cnt_nonneg c (global w)). pose proof (cnt_nonneg c (local v)). pose proof (cnt_nonneg c (global v)). unfold total. lia.
  - pose proof (zsum_lookup2_le _ _ x y r q (in_runner_nonneg c) ltac:(congruence) Hr Hq). unfold total. lia.
Qed.
Lemma runs_count a c s r : runner_of a s = Some r -> cur r = Some c -> (1 <= in_runner c r)%Z.
Proof. intros _ Hc. unfold in_runner. rewrite Hc, Nat.eqb_refl. pose proof (in_push_nonneg c (pushing r)). simpl. lia. Qed.

(** Every coroutine that was spawned is in exactly one place, through all pushes,
    collects and steals: stored in a waiter, in a queue, in the hands of a thread, or
    finished; so it never runs on two threads, and one that is running is not finished
    and not stored where it could be taken again. *)
Theorem sched_conserved n m s :
  0 < n -> reachable step (new n m) s ->
  (forall c, total c s = b2z (c <? next_id s)) /\
  (forall a b c, runs a c s -> runs b c s -> a = b) /\
  (forall a c, runs a c s -> cnt c (outside s) = 0%Z /\ cnt c (finished s) = 0%Z).
Proof.
  intros Hn Hr. destruct (good_reachable n m s Hn Hr) as [_ Ht]. split_and!; [done|..].
  - intros a b c (r & Hra & Hc) (q & Hqb & Hd). assert (H : a = b \/ a <> b) by (destruct a as [i|i], b as [j|j]; try (right; congruence); destruct (decide (i = j)); [left|right|left|right]; congruence).
    destruct H as [H|H]; [done|]. pose proof (total_two c a b r q s H Hra Hqb). pose proof (runs_count _ _ _ _ Hra Hc). pose proof (runs_count _ _ _ _ Hqb Hd).
    pose proof (Ht c). pose proof (b2z_le1 (c <? next_id s)). lia.
  - intros a c (r & Hra & Hc). pose proof (total_one c a r s Hra). pose proof (runs_count _ _ _ _ Hra Hc). pose proof (Ht c). pose proof (b2z_le1 (c <? next_id s)).
    pose proof (cnt_nonneg c (outside s)). pose proof (cnt_nonneg c (finished s)). lia.
Qed.

(** C25. No wakeup is lost: a worker that waits in [epoll_wait] with its eventfd not
    readable, and no thread about to write it, has nothing in its global
    queue, and nothing in its local queue but what a coroutine put there that an I/O
    timeout resumed; every thread that pushes addresses a worker that exists. *)
Theorem sched_wakeup_not_lost n m s i w :
  0 < n -> reachable step (new n m) s -> workers s !! i = Some w -> pc w = WWait -> evfd w = 0 ->
  (forall a r, runner_of a s = Some r -> pushing r <> PWake i) ->
  global w = [] /\ (late w = false -> local w = []) /\ (forall a r, runner_of a s = Some r -> in_range (length (workers s)) (pushing r)).
Proof.
  intros Hn Hr Hw Hp He Hno. destruct (good_reachable n m s Hn Hr) as [[H1 H3 H4 H5] _]. split_and!.
  - destruct (global w) as [|g l] eqn:Hg; [done|]. destruct (H4 i w Hw) as [?|[Hk|Hc]]; [by rewrite Hg|lia| |by rewrite Hp in Hc].
    assert (Hz : wakers i s = 0%Z); [|lia]. unfold wakers. rewrite !zsum_all_zero; [done|..].
    + intros x r Hx. specialize (Hno (Ext x) r Hx). destruct (pushing r) as [| |j]; try done. simpl. destruct (Nat.eqb_spec j i); [congruence|done].
    + intros j v Hv. destruct (pc v) eqn:Hpv; try done. specialize (Hno (Wk j) r). simpl in Hno. rewrite Hv, Hpv in Hno. specialize (Hno eq_refl).
      simpl. destruct (pushing r) as [| |j']; try done. simpl. destruct (Nat.eqb_spec j' i); [congruence|done].
  - pose proof (H5 i w Hw) as Hl. unfold local_ok in Hl. by rewrite Hp in Hl.
  - done.
Qed.

(** The loop of [collect_global] on its own: [f] is what each [bulk_pop] takes. *)
Fixpoint collect_loop (f : nat -> nat) (fuel : nat) (w : worker) : option worker :=
  match pc w with
  | WBulk _ | WMove _ _ =>
      match fuel with
      | 0 => None
      | S fuel' => match collect_global (f fuel) w with Some w' => collect_loop f fuel' w' | None => None end
      end
  | _ => Some w
  end.

Lemma collect_unfold f n w :
  collecting (pc w) = true -> collect_loop f (S n) w = match collect_global (f (S n)) w with Some w' => collect_loop f n w' | None => None end.
Proof. cbn [collect_loop]. by destruct (pc w). Qed.
Lemma collect_move f v k m w :
  pc w = WMove v k -> collect_loop f (S (length v) + m) w = collect_loop f m (set_pc (WBulk k) (set_local (local w ++ v) w)).
Proof.
  revert w. induction v as [|c v IH]; intros w Hp; cbn [length Nat.add]; rewrite collect_unfold by (by rewrite Hp); unfold collect_global; rewrite Hp.
  - f_equal. destruct w. unfold set_pc, set_local. simpl. by rewrite app_nil_r.
  - change (S (length v + m)) with (S (length v) + m). rewrite IH by done. f_equal. unfold push_back. cbn [set_pc pc]. destruct w as [l g e x b]. simpl in *. subst x.
    unfold set_pc, set_local. simpl. by rewrite <-app_assoc.
Qed.

(** [collect_global] ends, whatever the sizes of the batches, and has then moved the
    whole global queue behind the local one, in order. *)
Theorem collect_terminates f fuel k w :
  (forall i, 1 <= f i <= Spmc.BLOCK_SIZE) -> pc w = WBulk k -> 3 * length (global w) < fuel ->
  collect_loop f fuel w = Some (set_pc (return_to k) (set_local (local w ++ global w) (set_global [] w))).
Proof.
  intros Hf. remember (length (global w)) as len eqn:Hlen. revert fuel w Hlen. induction (lt_wf len) as [len _ IH]. intros fuel w Hlen Hp Hfuel.
  destruct fuel as [|fuel]; [lia|]. rewrite collect_unfold by (by rewrite Hp). unfold collect_global. rewrite Hp. destruct (global w) as [|g l] eqn:Hg.
  - destruct w as [lo gl e x b]. simpl in *. subst. rewrite app_nil_r. destruct k; by destruct fuel.
  - destruct (Hf (S fuel)) as [H1 H2]. rewrite (proj2 (Nat.leb_le _ _) H1), (proj2 (Nat.leb_le _ _) H2). cbn [andb].
    pose proof (take_drop (f (S fuel)) (g :: l)) as Hvr. assert (Hv : 1 <= length (take (f (S fuel)) (g :: l))) by (rewrite length_take; cbn [length]; lia).
    revert Hvr Hv. generalize (take (f (S fuel)) (g :: l)), (drop (f (S fuel)) (g :: l)). intros v r Hvr Hv. rewrite <-Hvr in *. rewrite length_app in Hlen.
    replace fuel with (S (length v) + (fuel - S (length v))) by lia. rewrite (collect_move f v k) by done.
    rewrite (IH (length r)); [|lia|done|done|lia].
    f_equal. unfold set_pc, set_local, set_global. cbn [local global evfd pc late]. by rewrite <-app_assoc.
Qed.

(** ** Runs: two workers, one thread of the program *)
Definition run_from (es : list event) : Scheduler := default (new 2 1) (run step es (new 2 1)).
Definition spawn (a : actor) : list event := [A a (ASpawn None); A a APush; A a APush].
(** The worker wakes up, collects [k] coroutines and starts the first. *)
Definition wake_up (i k : nat) : list event := [Poll i [EvWake]; W i 0; W i k] ++ replicate (k + 1) (W i 0) ++ [W i 0; W i 0; W i 0].
(** It finds nothing to do: nothing local, nothing global, nothing to steal. *)
Definition go_idle (i : nat) : list event := [W i 0; W i 0; W i 0; W i 0; W i 0].
(** Three coroutines for worker 0; it runs the first, which suspends; worker 1, woken for another reason,
    steals the other two, runs the last and then the first of them. *)
Definition demo_steal : list event :=
  [A (Ext 0) (ASpawn (Some 0%Z)); A (Ext 0) APush; A (Ext 0) APush; A (Ext 0) (ASpawn (Some 2%Z)); A (Ext 0) APush; A (Ext 0) APush;
   A (Ext 0) (ASpawn (Some (-2)%Z)); A (Ext 0) APush; A (Ext 0) APush] ++ wake_up 0 3 ++
  [A (Ext 0) (AWake 1); Poll 1 [EvWake]; W 1 0; W 1 0; W 1 0; W 1 0; W 1 0; W 1 0; W 1 2; W 1 0; W 1 0].
(** A coroutine is run and suspends; the worker waits. *)
Definition demo_wait : list event := spawn (Ext 0) ++ wake_up 0 1 ++ [A (Wk 0) ASuspend; W 0 0] ++ go_idle 0 ++ [W 0 0].
(** As before, but its I/O times out before the worker waits, and it yields. *)
Definition demo_timeout : list event :=
  spawn (Ext 0) ++ wake_up 0 1 ++ [A (Wk 0) ASuspend; W 0 0] ++ go_idle 0 ++ [W 0 1; A (Wk 0) ASuspend; A (Wk 0) (ASched 0); W 0 0; W 0 0].

Example sched_demo_results :
  map (fun es => (map (fun w => (local w, global w, pc w)) (workers (run_from es)), outside (run_from es))) [demo_steal; demo_wait; demo_timeout] =
  [([([], [], WRun (Runner (Some 0) PNo) BWork); ([1], [], WRun (Runner (Some 2) PNo) BWork)], []);
   ([([], [], WWait); ([], [], WWait)], [0]); ([([0], [], WWait); ([], [], WWait)], [])].
Proof. vm_compute. reflexivity. Qed.

(** A coroutine that an I/O timeout resumes runs after [run_queued_tasks]: what it schedules,
    itself with [yield_now] for one, goes to the local queue, and the worker waits for the next
    event or timer with a coroutine that is ready to run. *)
Lemma sched_timer_strands :
  exists s w, reachable step (new 2 1) s /\ workers s !! 0 = Some w /\ pc w = WWait /\ evfd w = 0 /\ local w = [0] /\
    (forall a r, runner_of a s = Some r -> r = Runner None PNo).
Proof.
  exists (run_from demo_timeout), (Worker [0] [] 0 WWait true). split; [apply run_reachable with (es := demo_timeout); vm_compute; reflexivity|].
  split_and!; [vm_compute; reflexivity..|]. intros [[|[|i]]|[|x]] r; vm_compute; congruence.
Qed.

Lemma sched_conserved_witness :
  let s := run_from demo_steal in
  (forall c, total c s = b2z (c <? next_id s)) /\ (forall a b c, runs a c s -> runs b c s -> a = b) /\
  (forall a c, runs a c s -> cnt c (outside s) = 0%Z /\ cnt c (finished s) = 0%Z).
Proof. apply (sched_conserved 2 1); [lia|]. apply run_reachable with (es := demo_steal). vm_compute. reflexivity. Defined.

Lemma sched_wakeup_not_lost_witness :
  @nil nat = [] /\ (false = false -> @nil nat = []) /\ (forall a r, runner_of a (run_from demo_wait) = Some r -> in_range (length (workers (run_from demo_wait))) (pushing r)).
Proof.
  apply (sched_wakeup_not_lost 2 1 (run_from demo_wait) 0 (Worker [] [] 0 WWait false)).
  - lia.
  - apply run_reachable with (es := demo_wait). vm_compute. reflexivity.
  - vm_compute. reflexivity.
  - reflexivity.
  - reflexivity.
  - intros [[|[|i]]|[|x]] r; vm_compute; intros [= <-] || done; done.
Defined.

Lemma collect_terminates_witness :
  collect_loop (fun i => i mod 2 + 1) 16 (Worker [9] [1; 2; 3; 4; 5] 0 (WBulk KWork) false) = Some (Worker [9; 1; 2; 3; 4; 5] [] 0 WHas false).
Proof.
  apply (collect_terminates (fun i => i mod 2 + 1) 16 KWork (Worker [9] [1; 2; 3; 4; 5] 0 (WBulk KWork) false)).
  - intros i. pose proof (Nat.mod_upper_bound i 2). unfold Spmc.BLOCK_SIZE, Spmc.BLOCK_SHIFT. simpl. lia.
  - reflexivity.
  - simpl. lia.
Defined.

End Sched.
