(* ===== verification/Monitor.v ===== *)
(** * Monitor: critical sections and waits on a condition variable

    What [Mutex] and [Condvar] promise to the types built on them ([Barrier],
    [WaitGroup]): a critical section is one step (the guard is exclusive,
    [Mtx.guard_exclusive]); [Condvar::wait] gives the lock up and waits in one step;
    [notify_all] wakes every waiter ([Cv.notify_all_wakes_all]), which
    then takes the lock again; a wait may also return without a notification.  A cancelled coroutine
    leaves from a contended [lock] without having entered, and from [Condvar::wait]; it
    cannot be cancelled while it takes the lock again. *)

From stdpp Require Import base numbers list.
From Stdlib Require Import ZArith Lia.
From S2P Require Import Prelude.

(** A type with a lock: its data, the places in its methods where a critical section
    begins, their results.  A section returns a result, goes on to another one after
    the unlock, or waits on the condition variable and goes on from there. *)
Inductive outcome (L R : Type) := Ret (r : R) | Next (l : L) | WaitCv (l : L).
Arguments Ret {L R}. Arguments Next {L R}. Arguments WaitCv {L R}.

Class Monitor (D L R : Type) := {
  (** the section: the new data, whether it calls [notify_all], how it ends *)
  section : L -> D -> D * bool * outcome L R;
  (** a call may start here *)
  may_call : nat -> L -> D -> bool;
  (** a cancelled coroutine unwinds from here: what is left behind (history), what the unwinding runs *)
  abandon : L -> D -> D * outcome L R
}.

Section monitor.
Context {D L R : Type} `{Monitor D L R}.

(** A thread: outside; before a section; waiting on the condition variable; woken
    from it; back with a result, or unwound. *)
Inductive mpc := MOut | MLock (l : L) | MWait (l : L) | MWoken (l : L) | MDone (r : R).
Record machine := Machine { data : D; threads : list mpc }.

Definition set_thread (t : nat) (x : mpc) (s : machine) : machine := Machine (data s) (<[t := x]> (threads s)).
Definition wake (x : mpc) : mpc := match x with MWait l => MWoken l | _ => x end.
Definition notify_all (b : bool) (s : machine) : machine := if b then Machine (data s) (map wake (threads s)) else s.
Definition end_of (o : outcome L R) : mpc := match o with Ret r => MDone r | Next l => MLock l | WaitCv l => MWait l end.

(** [Sec]: the critical section; [Wake]: a wait ends without a notification. *)
Inductive mevent := Call (t : nat) (l : L) | Sec (t : nat) | Wake (t : nat) | Cancel (t : nat).
Definition enter (t : nat) (l : L) (s : machine) : machine :=
  let '(d, b, o) := section l (data s) in set_thread t (end_of o) (notify_all b (Machine d (threads s))).
Definition mstep (s : machine) (e : mevent) : option machine :=
  match e with
  | Call t l =>
      match threads s !! t with
      | Some (MOut | MDone _) => if may_call t l (data s) then Some (set_thread t (MLock l) s) else None
      | _ => None
      end
  | Sec t => match threads s !! t with Some (MLock l | MWoken l) => Some (enter t l s) | _ => None end
  | Wake t => match threads s !! t with Some (MWait l) => Some (set_thread t (MWoken l) s) | _ => None end
  | Cancel t =>
      match threads s !! t with
      | Some (MLock l | MWait l) => let '(d, o) := abandon l (data s) in Some (set_thread t (end_of o) (Machine d (threads s)))
      | _ => None
      end
  end.

(** The results the calls return, and how many calls there were. *)
Definition returns (s : machine) (e : mevent) (s' : machine) : list R :=
  match e with
  | Call _ _ => []
  | Sec t | Wake t | Cancel t => match threads s' !! t with Some (MDone r) => [r] | _ => [] end
  end.
Definition results (es : list mevent) (s : machine) : list R := history_of mstep returns es s.
Definition is_call (e : mevent) : bool := match e with Call _ _ => true | _ => false end.
Fixpoint calls (es : list mevent) : nat :=
  match es with [] => 0 | e :: es => (if is_call e then 1 else 0) + calls es end.
Lemma calls_snoc es e : calls (es ++ [e]) = calls es + (if is_call e then 1 else 0).
Proof. induction es as [|e1 es IH]; simpl; [lia|]. rewrite IH. lia. Qed.

(** ** Rules *)

(** An invariant of the data and one of every thread, that the sections keep: the proofs of the types reduce to these. *)
Record keeps (I : D -> Prop) (P : D -> nat -> mpc -> Prop) : Prop := {
  k_call : forall d t l x, I d -> P d t x -> may_call t l d = true -> match x with MOut | MDone _ => True | _ => False end -> P d t (MLock l);
  k_data : forall d t l x d' b o, I d -> P d t x -> (x = MLock l \/ x = MWoken l) -> section l d = (d', b, o) -> I d' /\ P d' t (end_of o);
  k_other : forall d t l x d' b o u y, I d -> P d t x -> (x = MLock l \/ x = MWoken l) -> section l d = (d', b, o) -> u <> t -> P d u y ->
    P d' u (if b then wake y else y);
  k_wake : forall d t l, I d -> P d t (MWait l) -> P d t (MWoken l);
  k_cancel : forall d t l x d' o, I d -> P d t x -> (x = MLock l \/ x = MWait l) -> abandon l d = (d', o) ->
    I d' /\ P d' t (end_of o) /\ forall u y, u <> t -> P d u y -> P d' u y
}.

Definition all_ok (I : D -> Prop) (P : D -> nat -> mpc -> Prop) (s : machine) : Prop :=
  I (data s) /\ forall t x, threads s !! t = Some x -> P (data s) t x.

Lemma monitor_step I P s e s' : keeps I P -> all_ok I P s -> mstep s e = Some s' -> all_ok I P s'.
Proof.
  intros K [Hi Hp] Hs.
  assert (Hset : forall t x y d l, threads s !! t = Some y -> I d -> P d t x -> (forall u z, u <> t -> l !! u = Some z -> P d u z) -> all_ok I P (set_thread t x (Machine d l))).
  { intros t x y d l _ Hd Hx Hl. split; [done|]. simpl. intros u z [(<- & -> & _)|[Hne Hz]]%lookup_insert_list; auto. }
  assert (Hsec : forall t l x, threads s !! t = Some x -> x = MLock l \/ x = MWoken l -> all_ok I P (enter t l s)).
  { intros t l x Hx Hxl. unfold enter. destruct (section l (data s)) as [[d b] o] eqn:E. pose proof (Hp _ _ Hx) as Hpx.
    destruct (k_data _ _ K _ _ _ _ _ _ _ Hi Hpx Hxl E) as [Hd He]. pose proof (fun u y => k_other _ _ K _ _ _ _ _ _ _ u y Hi Hpx Hxl E) as Ho.
    destruct b; (eapply Hset; [done..|]); intros u z Hne Hz; [|by apply Ho; [|apply Hp]].
    simpl in Hz. rewrite list_lookup_fmap in Hz. destruct (threads s !! u) as [y|] eqn:Hy; [|done]. injection Hz as <-. apply (Ho u y); auto. }
  destruct e as [t l|t|t|t]; unfold mstep in Hs; destruct (threads s !! t) as [x|] eqn:Hx; try done; pose proof (Hp _ _ Hx) as Hpx.
  - destruct x; try done; destruct (may_call t l (data s)) eqn:Hm; try done; injection Hs as <-;
      (eapply Hset; [done|done|by eapply (k_call _ _ K)|by auto]).
  - destruct x; try done; injection Hs as <-; eapply Hsec; eauto.
  - destruct x; try done. injection Hs as <-. eapply Hset; [done|done|by eapply (k_wake _ _ K)|by auto].
  - destruct x; try done; (destruct (abandon l (data s)) as [d o] eqn:E); injection Hs as <-; (destruct (k_cancel _ _ K (data s) t l _ d o Hi Hpx) as (? & ? & Ho); [by auto|done|]);
      (eapply Hset; [done..|]); intros u z Hne Hz; apply Ho; auto.
Qed.
Lemma monitor_reachable I P s0 s : keeps I P -> all_ok I P s0 -> reachable mstep s0 s -> all_ok I P s.
Proof. intros K H0. apply reachable_ind_inv; [done|]. intros. by eapply monitor_step. Qed.

End monitor.
Arguments mpc : clear implicits.
Arguments machine : clear implicits.
Arguments mevent : clear implicits.
