(* ===== verification/Rendezvous.v ===== *)
(** * Rendezvous: [Barrier] and [WaitGroup]

    [sync/barrier.rs] and [sync/wait_group.rs], as types with a lock and a condition
    variable ([Monitor]). *)

From stdpp Require Import base numbers list.
From Stdlib Require Import ZArith Lia.
From S2P Require Import Prelude Monitor.

(** ** [Barrier] *)
Module Bar.
Section barrier.
Context (num_threads : nat).

(** [gens], the number of completed generations, is history. *)
Record Barrier := BarrierState { count : nat; generation_id : Z; gens : nat }.
(** [wait]; the loop of [wait_while], with [local_gen] (and its number). *)
Inductive sec := BEnter | BLoop (local_gen : Z) (h : nat).
(** [BarrierWaitResult] and the generation it is of; unwound, from the lock or while
    waiting in a generation. *)
Inductive result := BRes (is_leader : bool) (h : nat) | BGone (h : option nat).
#[global] Instance result_eq_dec : EqDecision result.
Proof. solve_decision. Defined.

Definition new : Barrier := BarrierState 0 0 0.

Definition wait (l : sec) (d : Barrier) : Barrier * bool * outcome sec result :=
  match l with
  | BEnter =>
      if S (count d) <? num_threads then
        (BarrierState (S (count d)) (generation_id d) (gens d), false, WaitCv (BLoop (generation_id d) (gens d)))
      else
        (BarrierState 0 (Word.add (generation_id d) 1) (S (gens d)), true, Ret (BRes true (gens d)))
  | BLoop g h => (d, false, if (g =? generation_id d)%Z then WaitCv (BLoop g h) else Ret (BRes false h))
  end.

#[export] Instance barrier_monitor : Monitor Barrier sec result := {
  section := wait;
  may_call _ l _ := match l with BEnter => true | _ => false end;
  abandon l d := (d, Ret (BGone match l with BEnter => None | BLoop _ h => Some h end))
}.

Definition size : nat := Nat.max 1 num_threads.

Definition data_ok (d : Barrier) : Prop :=
  generation_id d = Word.wrap (Z.of_nat (gens d)) /\ count d < size.
Definition thread_ok (d : Barrier) (t : nat) (x : mpc sec result) : Prop :=
  match x with
  | MLock (BLoop _ _) => False
  | MWait (BLoop g h) => g = Word.wrap (Z.of_nat h) /\ h <= gens d /\ ((Z.of_nat (gens d) < Word.modulus)%Z -> h = gens d)
  | MWoken (BLoop g h) => g = Word.wrap (Z.of_nat h) /\ h <= gens d
  | MDone (BRes _ h) => h < gens d
  | MWait BEnter | MWoken BEnter => False
  | _ => True
  end.

Lemma bar_wrap n : (Z.of_nat n < Word.modulus)%Z -> Word.wrap (Z.of_nat n) = Z.of_nat n.
Proof. intros. apply Word.wrap_small. unfold Word.is_usize, Word.usize_max. lia. Qed.

(** More generations only make it easier. *)
Lemma bar_thread_mono d d' t x (b : bool) :
  thread_ok d t x -> gens d <= gens d' -> (b = false -> gens d' = gens d) -> thread_ok d' t (if b then wake x else x).
Proof.
  intros H Hg Hb. destruct b; [|rewrite (Hb eq_refl) in *]; destruct x as [|[|g h]|[|g h]|[|g h]|[l h|]]; simpl in *; try done; rewrite ?(Hb eq_refl); try done; try lia.
  all: destruct_and?; split_and?; try done; lia.
Qed.

Lemma bar_keeps : keeps data_ok thread_ok.
Proof.
  split.
  - intros d t l x _ _. by destruct l.
  - intros d t l x d' b o (Hg & Hc) Hx Hxl E. destruct l as [|g h].
    + simpl in E. destruct (Nat.ltb_spec (S (count d)) num_threads) as [Hlt|Hge]; injection E as <- <- <-.
      * unfold data_ok, size in *. simpl. split_and!; try done; lia.
      * unfold data_ok, size in *. simpl. split_and!; try done; try lia. rewrite Hg. unfold Word.add. rewrite Word.wrap_add_l. f_equal. lia.
    + simpl in E. injection E as <- <- <-. split; [done|].
      assert (Hh : g = Word.wrap (Z.of_nat h) /\ h <= gens d) by (destruct Hxl as [->| ->]; simpl in Hx; [done|tauto]). destruct Hh as [-> Hle].
      destruct (Z.eqb_spec (Word.wrap (Z.of_nat h)) (generation_id d)) as [Hw|Hw]; simpl; [split_and!; try done|].
      * intros Hlt. rewrite Hg, !bar_wrap in Hw by lia. lia.
      * destruct (decide (h = gens d)) as [->|]; [by rewrite Hg in Hw|lia].
  - intros d t l x d' b o u y Hd Hx Hxl E Hne Hy. apply (bar_thread_mono d); [done|..]; destruct l as [|g h]; simpl in E.
    1,3: destruct (_ <? _); injection E as <- <- <-; simpl; try done; lia.
    all: injection E as <- <- <-; done.
  - intros d t [|g h]; simpl; tauto.
  - intros d t l x d' o Hd _ _ [= <- <-]. done.
Qed.

Definition init (n : nat) : machine Barrier sec result := Machine new (replicate n MOut).
Lemma bar_inv n s : reachable mstep (init n) s -> all_ok data_ok thread_ok s.
Proof.
  apply monitor_reachable; [apply bar_keeps|]. split.
  - unfold data_ok, size, init. simpl. split_and!; try done. lia.
  - simpl. by intros t x [-> _]%lookup_replicate.
Qed.

(** ** The results of a run *)

Definition occurs (r : result) (rs : list result) : nat := length (filter (r =.) rs).
(** A caller that has not counted itself, and one that is in generation [h]. *)
Definition entering (x : mpc sec result) : Z :=
  match x with MLock BEnter | MWait BEnter | MWoken BEnter => 1 | _ => 0 end.
Definition inside (h : nat) (x : mpc sec result) : Z :=
  match x with MLock (BLoop _ h') | MWait (BLoop _ h') | MWoken (BLoop _ h') => b2z (h' =? h) | _ => 0 end.
(** The places of generation [h] that callers other than the leader have taken. *)
Definition places (d : Barrier) (h : nat) : nat :=
  if h <? gens d then size - 1 else if h =? gens d then count d else 0.

Record tally (es : list (mevent sec)) (rs : list result) (s : machine Barrier sec result) : Prop := {
  ta_calls : (Z.of_nat (gens (data s) * size + count (data s)) + zsum entering (threads s) <= Z.of_nat (calls es))%Z;
  ta_leader h : occurs (BRes true h) rs = if h <? gens (data s) then 1 else 0;
  ta_early h : gens (data s) <= h -> occurs (BRes false h) rs = 0;
  ta_others h : (Z.of_nat (occurs (BRes false h) rs + occurs (BGone (Some h)) rs) + zsum (inside h) (threads s) = Z.of_nat (places (data s) h))%Z
}.

Lemma occurs_app r rs rs' : occurs r (rs ++ rs') = occurs r rs + occurs r rs'.
Proof. unfold occurs. by rewrite filter_app, length_app. Qed.
Lemma occurs_nil r : occurs r [] = 0.
Proof. done. Qed.
Lemma occurs_one r r' : occurs r [r'] = if decide (r = r') then 1 else 0.
Proof. unfold occurs. rewrite filter_cons. by case_decide. Qed.

Lemma bar_wake_sums b (s : machine Barrier sec result) : zsum entering (threads (notify_all b s)) = zsum entering (threads s) /\
  forall h, zsum (inside h) (threads (notify_all b s)) = zsum (inside h) (threads s).
Proof.
  destruct b; [|done]. simpl. split; [|intros h]; rewrite zsum_map; apply zsum_ext; by intros [|[]|[]|[]|].
Qed.

(** A thread goes from [x] to [y]; the data become [d]. *)
Lemma bar_tally_set es e rs rs' s t x y d k :
  tally es rs s -> threads s !! t = Some x ->
  calls (es ++ [e]) = calls es + k ->
  (Z.of_nat (gens d * size + count d) + entering y <= Z.of_nat (gens (data s) * size + count (data s)) + entering x + Z.of_nat k)%Z ->
  (forall h, occurs (BRes true h) rs + occurs (BRes true h) rs' = if h <? gens d then 1 else 0) ->
  (forall h, gens d <= h -> gens (data s) <= h /\ occurs (BRes false h) rs' = 0) ->
  (forall h, Z.of_nat (occurs (BRes false h) rs' + occurs (BGone (Some h)) rs') + inside h y + Z.of_nat (places (data s) h) = Z.of_nat (places d h) + inside h x)%Z ->
  forall l, zsum entering l = zsum entering (threads s) -> (forall h, zsum (inside h) l = zsum (inside h) (threads s)) ->
  forall x', l !! t = Some x' -> entering x' = entering x -> (forall h, inside h x' = inside h x) ->
  tally (es ++ [e]) (rs ++ rs') (Machine d (<[t := y]> l)).
Proof.
  intros [H1 H2 H3 H4] Ht Hk Hc Hl He Ho l Hz1 Hz2 x' Hx' Hx1 Hx2. split; simpl.
  - rewrite (zsum_insert _ _ _ _ _ Hx'), Hz1, Hx1, Hk. lia.
  - intros h. by rewrite occurs_app.
  - intros h Hh. destruct (He h Hh). rewrite occurs_app, H3 by done. lia.
  - intros h. rewrite (zsum_insert _ _ _ _ _ Hx'), Hz2, Hx2, !occurs_app. specialize (H4 h). specialize (Ho h). lia.
Qed.

Lemma bar_tally_step n es rs s e s' :
  reachable mstep (init n) s -> tally es rs s -> mstep s e = Some s' -> tally (es ++ [e]) (rs ++ returns s e s') s'.
Proof.
  intros [(Hg & Hc) Hp]%bar_inv Ht Hs.
  assert (Hsame : forall t x y, threads s !! t = Some x -> (entering y + 0 <= entering x + (if is_call e then 1 else 0))%Z ->
    (forall h, inside h y = inside h x) -> returns s e s' = [] -> s' = Machine (data s) (<[t := y]> (threads s)) ->
    tally (es ++ [e]) (rs ++ returns s e s') s').
  { intros t x y Hx He Hi Hr ->. rewrite Hr. eapply (bar_tally_set _ _ _ _ _ _ _ _ _ _ Ht Hx); try done; [apply calls_snoc|..].
    - destruct (is_call e); lia.
    - intros h. rewrite (ta_leader _ _ _ Ht), occurs_nil. lia.
    - intros h. rewrite Hi, !occurs_nil. simpl. lia. }
  destruct e as [t l|t|t|t]; unfold mstep in Hs; destruct (threads s !! t) as [x|] eqn:Hx; try done.
  - assert (Hcl : may_call t l (data s) = true /\ s' = set_thread t (MLock l) s /\ (x = MOut \/ exists r, x = MDone r)).
    { destruct x; try done; destruct (may_call t l (data s)) eqn:Hm; try done; injection Hs as <-; eauto. }
    destruct Hcl as (Hm & -> & Hxo). destruct l as [|g h]; [|done].
    eapply (Hsame t x (MLock BEnter)); try done; destruct Hxo as [->|[r ->]]; simpl; try done; lia.
  - assert (Hl : exists l, (x = MLock l \/ x = MWoken l) /\ s' = enter t l s) by (destruct x; try done; injection Hs as <-; eauto).
    destruct Hl as (l & Hxl & ->). clear Hs. pose proof (Hp _ _ Hx) as Hpx. unfold enter in *. simpl section in *.
    assert (Hdl : t < length (threads s)) by (by eapply lookup_lt_Some). destruct l as [|g h]; simpl in *.
    + destruct (Nat.ltb_spec (S (count (data s))) num_threads) as [Hlt|Hge].
      * unfold returns. simpl. rewrite list_lookup_insert_eq by done.
        eapply (bar_tally_set _ _ _ _ _ _ _ _ _ _ Ht Hx); try done; [apply calls_snoc|..]; simpl.
        -- destruct Hxl as [->| ->]; simpl; lia.
        -- intros h. rewrite (ta_leader _ _ _ Ht), occurs_nil. lia.
        -- intros h. rewrite !occurs_nil. unfold places. simpl. destruct Hxl as [->| ->]; simpl; destruct (Nat.ltb_spec h (gens (data s))), (Nat.eqb_spec h (gens (data s)));
             destruct (Nat.eqb_spec (gens (data s)) h); simpl; lia.
      * unfold returns. simpl. rewrite list_lookup_insert_eq by (by rewrite length_map).
        destruct (bar_wake_sums true s) as [Hw1 Hw2]. simpl in Hw1, Hw2.
        eapply (bar_tally_set _ _ _ _ _ _ _ _ _ _ Ht Hx) with (x' := wake x); try done; [apply calls_snoc|..]; simpl.
        -- unfold size in *. destruct Hxl as [->| ->]; simpl; lia.
        -- intros h. rewrite (ta_leader _ _ _ Ht), occurs_one. case_decide as Hd; simplify_eq;
             repeat match goal with |- context [?x <? ?y] => destruct (Nat.ltb_spec x y) end; try lia.
           destruct Hd. f_equal. lia.
        -- intros h Hh. rewrite occurs_one, decide_False by done. lia.
        -- intros h. rewrite !occurs_one, !decide_False by done. unfold places, size in *. simpl.
           destruct Hxl as [->| ->]; simpl; destruct (Nat.ltb_spec h (gens (data s))), (Nat.eqb_spec h (gens (data s))), (Nat.ltb_spec h (S (gens (data s)))), (Nat.eqb_spec h (S (gens (data s)))); lia.
        -- pose proof (list_lookup_fmap wake (threads s) t) as Hlk. by rewrite Hx in Hlk.
        -- by destruct Hxl as [->| ->].
        -- by destruct Hxl as [->| ->].
    + assert (Hh : g = Word.wrap (Z.of_nat h) /\ h <= gens (data s)) by (destruct Hxl as [->| ->]; simpl in Hpx; [done|tauto]).
      destruct Hh as [-> Hle]. destruct (Z.eqb_spec (Word.wrap (Z.of_nat h)) (generation_id (data s))) as [Hw|Hw].
      * apply (Hsame t x (MWait (BLoop (Word.wrap (Z.of_nat h)) h))); try done; [by destruct Hxl as [->| ->]..|].
        simpl. by rewrite list_lookup_insert_eq.
      * simpl. rewrite list_lookup_insert_eq by done. simpl.
        assert (Hlt : h < gens (data s)) by (destruct (decide (h = gens (data s))) as [->|]; [by rewrite Hg in Hw|lia]).
        eapply (bar_tally_set _ _ _ _ _ _ _ _ _ _ Ht Hx); try done; [apply calls_snoc|..]; simpl.
        -- destruct Hxl as [->| ->]; simpl; lia.
        -- intros h'. rewrite (ta_leader _ _ _ Ht), occurs_one, decide_False by done. lia.
        -- intros h' Hh'. rewrite occurs_one. split; [done|]. case_decide as Hd; [injection Hd as ->; lia|done].
        -- intros h'. rewrite !occurs_one, (decide_False (P := BGone _ = _)) by done.
           destruct Hxl as [->| ->]; simpl; case_decide as Hd; [injection Hd as ->; rewrite Nat.eqb_refl; simpl; lia| |injection Hd as ->; rewrite Nat.eqb_refl; simpl; lia|];
             (destruct (Nat.eqb_spec h h') as [->|]; [by destruct Hd|simpl; lia]).
  - destruct x as [|l|l|l|r]; try done. injection Hs as <-. apply (Hsame t (MWait l) (MWoken l)); try done.
    simpl. rewrite list_lookup_insert_eq; [done|]. by eapply lookup_lt_Some.
  - assert (Hl : exists l, (x = MLock l \/ x = MWait l) /\
      s' = set_thread t (MDone (BGone match l with BEnter => None | BLoop _ h => Some h end)) (Machine (data s) (threads s))).
    { destruct x; try done; injection Hs as <-; eauto. }
    destruct Hl as (l & Hxl & ->). simpl. rewrite list_lookup_insert_eq by (by eapply lookup_lt_Some).
    eapply (bar_tally_set _ _ _ _ _ _ _ _ _ _ Ht Hx); try done; [apply calls_snoc|..]; simpl.
    + destruct l, Hxl as [->| ->]; simpl; lia.
    + intros h'. rewrite (ta_leader _ _ _ Ht), occurs_one, decide_False by done. lia.
    + intros h'. rewrite occurs_one. destruct l as [|g h].
      * rewrite decide_False by done. destruct Hxl as [->| ->]; simpl; lia.
      * assert (Hi : inside h' x = b2z (h =? h')) by (by destruct Hxl as [->| ->]). rewrite Hi.
        case_decide as Hd; destruct (Nat.eqb_spec h h') as [->|]; simplify_eq; simpl; lia.
Qed.

Lemma bar_tally n es s : run mstep es (init n) = Some s -> tally es (results es (init n)) s.
Proof.
  revert s. induction es as [|e es IH] using rev_ind; intros s Hr.
  - injection Hr as <-. split; simpl; intros; rewrite ?zsum_replicate; try done; simpl; [lia|].
    unfold places. simpl. rewrite !occurs_nil. destruct (h =? 0); simpl; lia.
  - apply run_snoc in Hr as (s1 & Hr & Hs). unfold results. rewrite (history_snoc _ _ _ _ _ _ _ Hr Hs).
    eapply bar_tally_step; [by eapply run_reachable|by apply IH|done].
Qed.

(** C26. A [wait] that returns is over the whole generation.  In every completed
    generation exactly one caller gets the result that says it is the leader, and the
    barrier's other places were taken by callers that got the other result, are
    about to, or were cancelled while they waited; a later generation has given no
    result yet.  As many calls were made as the completed generations have places
    and the one being filled has taken. *)
Theorem barrier_rendezvous n es s :
  run mstep es (init n) = Some s ->
  let rs := results es (init n) in
  (forall b h, BRes b h ∈ rs -> h < gens (data s)) /\
  gens (data s) * size + count (data s) <= calls es /\
  forall h, h < gens (data s) ->
    occurs (BRes true h) rs = 1 /\
    (Z.of_nat (occurs (BRes false h) rs + occurs (BGone (Some h)) rs) + zsum (inside h) (threads s) = Z.of_nat size - 1)%Z.
Proof.
  intros Hr rs. pose proof (bar_tally _ _ _ Hr) as Ht. fold rs in Ht. split_and!.
  - intros b h Hin. destruct (decide (h < gens (data s))) as [|Hge]; [done|exfalso].
    assert (Hz : occurs (BRes b h) rs = 0).
    { destruct b; [rewrite (ta_leader _ _ _ Ht)|apply (ta_early _ _ _ Ht); lia]. destruct (Nat.ltb_spec h (gens (data s))); lia. }
    unfold occurs in Hz. apply length_zero_iff_nil in Hz.
    assert (H : BRes b h ∈ filter (BRes b h =.) rs) by (by apply list_elem_of_filter). rewrite Hz in H. by apply not_elem_of_nil in H.
  - pose proof (ta_calls _ _ _ Ht). pose proof (zsum_nonneg entering (threads s) ltac:(intros [|[]|[]|[]|]; simpl; lia)). lia.
  - intros h Hh. rewrite (ta_leader _ _ _ Ht), (ta_others _ _ _ Ht). unfold places, size.
    destruct (Nat.ltb_spec h (gens (data s))); lia.
Qed.

(** Nobody is left behind: a thread that waits, not notified, is of the
    generation that is being filled, and there is a place left in it; one that was woken for an older
    one returns ([2 ^ 64] generations never pass). *)
Theorem barrier_not_lost n s t g h :
  reachable mstep (init n) s -> (Z.of_nat (gens (data s)) < Word.modulus)%Z ->
  (threads s !! t = Some (MWait (BLoop g h)) -> h = gens (data s) /\ count (data s) < size) /\
  (threads s !! t = Some (MWoken (BLoop g h)) -> h < gens (data s) -> exists s', mstep s (Sec t) = Some s' /\ threads s' !! t = Some (MDone (BRes false h))).
Proof.
  intros [(Hg & Hc) Hp]%bar_inv Hb. split.
  - intros Ht. destruct (Hp _ _ Ht) as (_ & _ & Hh). auto.
  - intros Ht Hlt. destruct (Hp _ _ Ht) as [-> _]. unfold mstep. rewrite Ht. eexists. split; [done|].
    assert (Hne : (Word.wrap (Z.of_nat h) =? generation_id (data s))%Z = false) by (rewrite Hg, !bar_wrap by lia; lia).
    unfold enter. simpl. rewrite Hne. simpl. apply list_lookup_insert_eq. by eapply lookup_lt_Some.
Qed.
End barrier.

#[local] Existing Instance barrier_monitor.
Definition final (n k : nat) (es : list (mevent sec)) : machine Barrier sec result := default (init k) (run (mstep (H := barrier_monitor n)) es (init k)).
(** Two places: one thread waits, the other arrives and leads; the first returns; a
    third waits and is cancelled, and counts as arrived. *)
Definition demo : list (mevent sec) := [Call 0 BEnter; Sec 0; Call 1 BEnter; Sec 1; Sec 0].
Definition demo_cancel : list (mevent sec) := demo ++ [Call 2 BEnter; Sec 2; Cancel 2; Call 1 BEnter; Sec 1; Call 0 BEnter; Sec 0].

Example bar_demo_results :
  map (fun es => threads (final 2 3 es)) [demo; demo_cancel] =
  [[MDone (BRes false 0); MDone (BRes true 0); MOut]; [MWait (BLoop 2 2); MDone (BRes true 1); MDone (BGone (Some 1))]].
Proof. vm_compute. reflexivity. Qed.

Lemma barrier_rendezvous_witness :
  let s := final 2 3 demo_cancel in
  let rs := results (H := barrier_monitor 2) demo_cancel (init 3) in
  (forall h, h < gens (data s) ->
    occurs (BRes true h) rs = 1 /\
    (Z.of_nat (occurs (BRes false h) rs + occurs (BGone (Some h)) rs) + zsum (inside h) (threads s) = 1)%Z) /\
  rs = [BRes true 0; BRes false 0; BGone (Some 1); BRes true 1].
Proof.
  intros s rs. split; [|vm_compute; reflexivity].
  destruct (barrier_rendezvous 2 3 demo_cancel s) as (_ & _ & H); [vm_compute; reflexivity|exact H].
Defined.

Lemma barrier_not_lost_witness :
  let s := final 2 3 demo_cancel in
  (threads s !! 0 = Some (MWait (BLoop 2 2)) -> 2 = gens (data s) /\ count (data s) < 2) /\
  (threads s !! 0 = Some (MWoken (BLoop 2 2)) -> 2 < gens (data s) -> exists s', mstep (H := barrier_monitor 2) s (Sec 0) = Some s' /\ threads s' !! 0 = Some (MDone (BRes false 2))).
Proof.
  apply (barrier_not_lost 2 3 (final 2 3 demo_cancel) 0 2 2).
  - apply run_reachable with (es := demo_cancel). vm_compute. reflexivity.
  - vm_compute. reflexivity.
Defined.
End Bar.

(** ** [WaitGroup] *)
Module Wg.

(** [count], of the references; [held]: history, how many each thread has; [leaked]: the
    references whose drop was cancelled. *)
Record Inner := WaitGroup { count : Z; held : list nat; leaked : nat }.
(** [clone] (for thread [u]), [drop] (during an unwinding or not), [wait]: its look at the
    count, its drops, its loop.  The thread is [t]. *)
Inductive sec := WClone (t u : nat) | WDrop (t : nat) (unwinding : bool) | WCheck (t : nat) | WLast (t : nat) | WDropWait (t : nat) | WLoop.
Inductive result := RUnit | RWaited | RPanicked | RAbort.

Definition new (n : nat) : Inner := WaitGroup 1 (1 :: replicate n 0) 0.
Definition refs (t : nat) (d : Inner) : nat := default 0 (held d !! t).

Definition clone (u : nat) (d : Inner) : Inner := WaitGroup (count d + 1) (alter S u (held d)) (leaked d).
Definition drop (t : nat) (d : Inner) : Inner := WaitGroup (count d - 1) (alter pred t (held d)) (leaked d).
(** A panic in [drop] before the count is changed. *)
Definition leak (t : nat) (d : Inner) : Inner := WaitGroup (count d) (alter pred t (held d)) (S (leaked d)).

Definition wait (l : sec) (d : Inner) : Inner * bool * outcome sec result :=
  match l with
  | WClone t u => (clone u d, false, Ret RUnit)
  | WDrop t w => (drop t d, (count d - 1 =? 0)%Z, Ret (if w then RPanicked else RUnit))
  | WCheck t => (d, false, Next (if (count d =? 1)%Z then WLast t else WDropWait t))
  | WLast t => (drop t d, (count d - 1 =? 0)%Z, Ret RWaited)
  | WDropWait t => (drop t d, (count d - 1 =? 0)%Z, Next WLoop)
  | WLoop => (d, false, if (0 <? count d)%Z then WaitCv WLoop else Ret RWaited)
  end.

#[export] Instance waitgroup_monitor : Monitor Inner sec result := {
  section := wait;
  may_call t l d :=
    match l with
    | WClone t' u => (t' =? t) && (0 <? refs t d) && (u <? length (held d))
    | WDrop t' _ | WCheck t' => (t' =? t) && (0 <? refs t d)
    | _ => false
    end;
  (** [wait] owns its reference: unwinding from its first lock drops it. *)
  abandon l d :=
    match l with
    | WClone _ _ | WLoop => (d, Ret RPanicked)
    | WDrop t w => (leak t d, Ret (if w then RAbort else RPanicked))
    | WCheck t => (d, Next (WDrop t true))
    | WLast t | WDropWait t => (leak t d, Ret RPanicked)
    end
}.

Definition data_ok (d : Inner) : Prop := count d = (zsum Z.of_nat (held d) + Z.of_nat (leaked d))%Z.
Definition thread_ok (d : Inner) (t : nat) (x : mpc sec result) : Prop :=
  match x with
  | MLock (WClone t' u) => t' = t /\ 0 < refs t d /\ u < length (held d)
  | MLock (WDrop t' _) | MLock (WCheck t') | MLock (WDropWait t') => t' = t /\ 0 < refs t d
  | MLock (WLast t') => t' = t /\ 0 < refs t d /\ count d = 1%Z
  | MLock WLoop | MWoken WLoop => True
  | MWait WLoop => (0 < count d)%Z
  | MWait _ | MWoken _ => False
  | MDone RWaited => count d = 0%Z
  | _ => True
  end.

Lemma wg_refs t d : 0 < refs t d -> held d !! t = Some (refs t d).
Proof. unfold refs. destruct (held d !! t); simpl; [done|lia]. Qed.
Lemma wg_nonneg d : data_ok d -> (0 <= count d)%Z.
Proof. intros ->. pose proof (zsum_nonneg Z.of_nat (held d) ltac:(lia)). lia. Qed.
Lemma wg_one t d : data_ok d -> 0 < refs t d -> (1 <= count d)%Z.
Proof. intros -> Ht. pose proof (zsum_lookup_le Z.of_nat (held d) t _ ltac:(lia) (wg_refs _ _ Ht)). lia. Qed.
Lemma wg_two t u d : data_ok d -> t <> u -> 0 < refs t d -> 0 < refs u d -> (2 <= count d)%Z.
Proof. intros -> Hne Ht Hu. pose proof (zsum_lookup2_le Z.of_nat (held d) t u _ _ ltac:(lia) Hne (wg_refs _ _ Ht) (wg_refs _ _ Hu)). lia. Qed.

(** A clone adds a reference, a drop and a leak take one of the thread's own. *)
Lemma wg_clone u d : data_ok d -> u < length (held d) -> data_ok (clone u d) /\ (forall t, 0 < refs t d -> 0 < refs t (clone u d)).
Proof.
  intros Hd [k Hk]%lookup_lt_is_Some_2. split.
  - unfold data_ok, clone in *. simpl. rewrite (zsum_alter _ _ _ _ _ Hk), Hd. lia.
  - intros t. unfold refs, clone. simpl. rewrite list_lookup_alter. destruct (decide (u = t)) as [->|]; [|done]. rewrite Hk. simpl. lia.
Qed.
Lemma wg_drop t d : data_ok d -> 0 < refs t d ->
  data_ok (drop t d) /\ data_ok (leak t d) /\ (forall u, u <> t -> refs u (drop t d) = refs u d /\ refs u (leak t d) = refs u d).
Proof.
  intros Hd Ht. pose proof (wg_refs _ _ Ht) as Hk. unfold data_ok, drop, leak, refs in *. simpl.
  rewrite (zsum_alter _ _ _ _ _ Hk), Hd. split_and!; [lia..|]. intros u Hne. by rewrite !list_lookup_alter_ne.
Qed.

(** What the others know stays true: the count is not 0 while somebody acts, and a drop that leaves none wakes all. *)
Lemma wg_others d d' u y (b : bool) :
  thread_ok d u y -> (0 < refs u d -> 0 < refs u d') -> length (held d') = length (held d) ->
  (count d = 0%Z -> count d' = 0%Z) -> (count d = 1%Z -> 0 < refs u d -> count d' = 1%Z) -> (b = false -> (0 < count d)%Z -> (0 < count d')%Z) ->
  thread_ok d' u (if b then wake y else y).
Proof.
  intros H Hr Hl H0 H1 Hb. destruct b; destruct y as [|[]|[]|[]|[]]; simpl in *; rewrite ?Hl; try done; tauto.
Qed.

Lemma wg_keeps : keeps data_ok thread_ok.
Proof.
  split.
  - intros d t l x Hd Hx Hm _. destruct l as [t' u|t' w|t'| | |]; simpl in *; try done;
      repeat match goal with H : (_ && _)%bool = true |- _ => apply andb_true_iff in H as [? H] end;
      repeat match goal with H : (_ =? _) = true |- _ => apply Nat.eqb_eq in H | H : (_ <? _) = true |- _ => apply Nat.ltb_lt in H end; done.
  - intros d t l x d' b o Hd Hx Hxl E. pose proof (wg_nonneg d Hd).
    assert (Hok : thread_ok d t (MLock l) \/ l = WLoop) by (destruct Hxl as [-> | ->]; [by left|]; by destruct l; auto).
    destruct l as [t' u|t' w|t'|t'|t'|]; simpl in E; injection E as <- <- <-; destruct Hok as [Hok|Hok]; try done; simpl in Hok.
    + destruct Hok as (-> & Hr & Hu). destruct (wg_clone u d Hd Hu). done.
    + destruct Hok as [-> Hr]. destruct (wg_drop t d Hd Hr) as [? _]. split; [done|]. by destruct w.
    + destruct Hok as [-> Hr]. split; [done|]. simpl. destruct (Z.eqb_spec (count d) 1); done.
    + destruct Hok as (-> & Hr & Hc). destruct (wg_drop t d Hd Hr) as [? _]. split; [done|]. simpl. lia.
    + destruct Hok as [-> Hr]. destruct (wg_drop t d Hd Hr) as [? _]. done.
    + split; [done|]. simpl. destruct (Z.ltb_spec 0 (count d)); simpl; lia.
    + split; [done|]. simpl. destruct (Z.ltb_spec 0 (count d)); simpl; lia.
  - intros d t l x d' b o u y Hd Hx Hxl E Hne Hy.
    assert (Hok : thread_ok d t (MLock l) \/ l = WLoop) by (destruct Hxl as [-> | ->]; [by left|]; by destruct l; auto).
    assert (Hdrop : 0 < refs t d -> thread_ok (drop t d) u (if (count d - 1 =? 0)%Z then wake y else y)).
    { intros Hr. destruct (wg_drop t d Hd Hr) as (_ & _ & Ho). destruct (Ho u Hne) as [Ho' _]. pose proof (wg_one t d Hd Hr).
      apply (wg_others d); [done|by rewrite Ho'|simpl; by rewrite length_alter|lia| |].
      - intros Hc Hu. pose proof (wg_two t u d Hd (not_eq_sym Hne) Hr Hu). lia.
      - simpl. destruct (Z.eqb_spec (count d - 1) 0); [done|lia]. }
    destruct l as [t' v|t' w|t'|t'|t'|]; simpl in E; injection E as <- <- <-; destruct Hok as [Hok|Hok]; try done; simpl in Hok.
    + destruct Hok as (-> & Hr & Hv). destruct (wg_clone v d Hd Hv) as [_ Ho]. pose proof (wg_one t d Hd Hr).
      apply (wg_others d _ _ _ false); [done|by apply Ho|simpl; by rewrite length_alter|lia| |simpl; lia].
      intros Hc Hu. pose proof (wg_two t u d Hd (not_eq_sym Hne) Hr Hu). lia.
    + destruct Hok as [-> Hr]. by apply Hdrop.
    + destruct Hok as (-> & Hr & _). by apply Hdrop.
    + destruct Hok as [-> Hr]. by apply Hdrop.
  - intros d t []; simpl; tauto.
  - intros d t l x d' o Hd Hx Hxl E.
    assert (Hok : thread_ok d t (MLock l) \/ l = WLoop) by (destruct Hxl as [-> | ->]; [by left|]; by destruct l; auto).
    assert (Hleak : 0 < refs t d -> data_ok (leak t d) /\ forall u y, u <> t -> thread_ok d u y -> thread_ok (leak t d) u y).
    { intros Hr. destruct (wg_drop t d Hd Hr) as (_ & ? & Ho). split; [done|]. intros u y Hne Hy. destruct (Ho u Hne) as [_ Ho'].
      apply (wg_others d _ _ _ false); try done; [by rewrite Ho'|simpl; by rewrite length_alter]. }
    destruct l as [t' v|t' w|t'|t'|t'|]; simpl in E; injection E as <- <-; destruct Hok as [Hok|Hok]; try done; simpl in Hok.
    + destruct Hok as [-> Hr]. destruct (Hleak Hr). split_and!; [done| |done]. by destruct w.
    + destruct Hok as (-> & Hr & _). by destruct (Hleak Hr).
    + destruct Hok as [-> Hr]. by destruct (Hleak Hr).
Qed.

Definition init (n : nat) : machine Inner sec result := Machine (new n) (replicate (S n) MOut).
Lemma wg_inv n s : reachable mstep (init n) s -> all_ok data_ok thread_ok s.
Proof.
  apply monitor_reachable; [apply wg_keeps|]. split.
  - unfold data_ok. cbn [data init new count held leaked zsum]. rewrite zsum_replicate. lia.
  - simpl. intros [|t] x; simpl; [by intros [= <-]|by intros [-> _]%lookup_replicate].
Qed.

(** C27. [wait] returns only when every reference of the group has been dropped, none of them
    in a way that lost it; the count does not go below zero. *)
Theorem wait_group_waits n s t :
  reachable mstep (init n) s -> (0 <= count (data s))%Z /\
  (threads s !! t = Some (MDone RWaited) -> leaked (data s) = 0 /\ forall u, refs u (data s) = 0).
Proof.
  intros [Hd Hp]%wg_inv. split; [by apply wg_nonneg|]. intros Ht. specialize (Hp _ _ Ht). simpl in Hp. split.
  - unfold data_ok in Hd. pose proof (zsum_nonneg Z.of_nat (held (data s)) ltac:(lia)). lia.
  - intros u. destruct (refs u (data s)) as [|k] eqn:Hr; [done|]. pose proof (wg_one u _ Hd). lia.
Qed.

(** A waiter that was not notified waits for a reference: somebody has one, or the
    coroutine that dropped it was cancelled while it waited for the lock; a waiter that was woken
    after the last drop returns. *)
Theorem wait_group_not_lost n s t :
  reachable mstep (init n) s ->
  (threads s !! t = Some (MWait WLoop) -> (exists u, 0 < refs u (data s)) \/ 0 < leaked (data s)) /\
  (threads s !! t = Some (MWoken WLoop) -> leaked (data s) = 0 -> (forall u, refs u (data s) = 0) ->
    exists s', mstep s (Sec t) = Some s' /\ threads s' !! t = Some (MDone RWaited)).
Proof.
  intros [Hd Hp]%wg_inv. unfold data_ok in Hd. split; intros Ht.
  - specialize (Hp _ _ Ht). simpl in Hp. destruct (decide (leaked (data s) = 0)) as [Hl|]; [left|right; lia].
    destruct (zsum_nonzero Z.of_nat (held (data s))) as (u & k & Hu & Hk); [lia|]. exists u. unfold refs. rewrite Hu. simpl. lia.
  - intros Hl Hr. assert (Hz : zsum Z.of_nat (held (data s)) = 0%Z).
    { apply zsum_all_zero. intros u k Hu. specialize (Hr u). unfold refs in Hr. rewrite Hu in Hr. simpl in Hr. lia. }
    unfold mstep. rewrite Ht. eexists. split; [done|]. unfold enter. simpl.
    destruct (Z.ltb_spec 0 (count (data s))) as [?|_]; [lia|]. simpl. apply list_lookup_insert_eq. by eapply lookup_lt_Some.
Qed.

Definition final (n : nat) (es : list (mevent sec)) : machine Inner sec result := default (init n) (run mstep es (init n)).
(** A clone for thread 1; thread 0 waits, thread 1 drops its reference. *)
Definition demo_wait : list (mevent sec) := [Call 0 (WClone 0 1); Sec 0; Call 0 (WCheck 0); Sec 0; Sec 0; Sec 0].
Definition demo : list (mevent sec) := demo_wait ++ [Call 1 (WDrop 1 false); Sec 1; Sec 0].
(** The drop finds the lock taken, and its coroutine is cancelled while it waits for it. *)
Definition demo_leak : list (mevent sec) := demo_wait ++ [Call 1 (WDrop 1 false); Cancel 1].
Definition demo_abort : list (mevent sec) := demo_wait ++ [Call 1 (WDrop 1 true); Cancel 1].

Example wg_demo_results :
  map (fun es => (threads (final 1 es), count (data (final 1 es)))) [demo_wait; demo; demo_leak; demo_abort] =
  [([MWait WLoop; MOut], 1%Z); ([MDone RWaited; MDone RUnit], 0%Z); ([MWait WLoop; MDone RPanicked], 1%Z); ([MWait WLoop; MDone RAbort], 1%Z)].
Proof. vm_compute. reflexivity. Qed.

(** [Drop] takes a cancellable lock.  A coroutine cancelled in it panics out of the
    destructor: the count keeps a reference that nobody has, and the waiters wait for ever; if it was already
    unwinding, the second panic aborts the process. *)
Lemma wg_cancelled_drop :
  (exists s, reachable mstep (init 1) s /\ threads s = [MWait WLoop; MDone RPanicked] /\ (forall u, refs u (data s) = 0) /\
     run mstep [Wake 0; Sec 0] s = Some s) /\
  (exists s, reachable mstep (init 1) s /\ threads s !! 1 = Some (MDone RAbort)).
Proof.
  split.
  - exists (final 1 demo_leak). split; [apply run_reachable with (es := demo_leak); vm_compute; reflexivity|].
    split_and!; [vm_compute; reflexivity| |vm_compute; reflexivity]. by intros [|[|u]]; vm_compute.
  - exists (final 1 demo_abort). split; [apply run_reachable with (es := demo_abort); vm_compute; reflexivity|vm_compute; reflexivity].
Qed.

Lemma wait_group_waits_witness :
  (0 <= count (data (final 1 demo)))%Z /\
  (threads (final 1 demo) !! 0 = Some (MDone RWaited) -> leaked (data (final 1 demo)) = 0 /\ forall u, refs u (data (final 1 demo)) = 0).
Proof. apply (wait_group_waits 1 (final 1 demo) 0). apply run_reachable with (es := demo). vm_compute. reflexivity. Defined.

Lemma wait_group_not_lost_witness :
  let s := final 1 demo_wait in
  (threads s !! 0 = Some (MWait WLoop) -> (exists u, 0 < refs u (data s)) \/ 0 < leaked (data s)) /\
  (threads s !! 0 = Some (MWoken WLoop) -> leaked (data s) = 0 -> (forall u, refs u (data s) = 0) ->
    exists s', mstep s (Sec 0) = Some s' /\ threads s' !! 0 = Some (MDone RWaited)).
Proof. apply (wait_group_not_lost 1 (final 1 demo_wait) 0). apply run_reachable with (es := demo_wait). vm_compute. reflexivity. Defined.

End Wg.
