(* ===== verification/WinAddr.v ===== *)
(** * WinAddr: socket addresses and results on Windows

    The parts of [src/io/sys/windows/miow.rs] that compute: the conversion of
    [SocketAddr] to and from the bytes of [SOCKADDR_IN] and [SOCKADDR_IN6], timeouts
    in milliseconds, buffer lengths and the results of system calls.  Memory is a
    list of bytes; the layouts (family at 0, port at 2, ...) are those of the
    Windows headers, and the byte order of the host is a parameter. *)

From stdpp Require Import base numbers list.
From Stdlib Require Import ZArith Lia.
From S2P Require Import Prelude.

Module Wa.
Open Scope Z_scope.

(** ** Bytes of machine integers *)

Definition is_byte (b : Z) : Prop := 0 <= b < 256.
Definition is_uint (bytes : nat) (x : Z) : Prop := 0 <= x < 256 ^ Z.of_nat bytes.

(** [to_be_bytes] and [from_be_bytes] of an unsigned integer of [n] bytes. *)
Fixpoint to_be_bytes (n : nat) (x : Z) : list Z :=
  match n with
  | O => []
  | S n => (Z.shiftr x (8 * Z.of_nat n)) mod 256 :: to_be_bytes n x
  end.
Fixpoint from_be_bytes (l : list Z) : Z :=
  match l with [] => 0 | b :: l => b * 256 ^ Z.of_nat (length l) + from_be_bytes l end.

Section host.
(** Is the host big-endian? *)
Context (big : bool).

Definition to_ne_bytes (n : nat) (x : Z) : list Z := if big then to_be_bytes n x else rev (to_be_bytes n x).
Definition from_ne_bytes (l : list Z) : Z := from_be_bytes (if big then l else rev l).
Definition swap_bytes (n : nat) (x : Z) : Z := from_be_bytes (rev (to_be_bytes n x)).
(** [to_be] and [from_be] of the trait [NetInt]. *)
Definition to_be (n : nat) (x : Z) : Z := if big then x else swap_bytes n x.
Definition from_be (n : nat) (x : Z) : Z := if big then x else swap_bytes n x.
Definition ntoh (n : nat) (x : Z) : Z := from_be n x.

(** ** [SocketAddr] *)

(** [SocketAddrV4] and [SocketAddrV6] with the octets of their [ip]. *)
Inductive SocketAddr :=
  | V4 (octets : list Z) (port : Z)
  | V6 (octets : list Z) (port flowinfo scope_id : Z).

Definition AF_INET : Z := 2.
Definition AF_INET6 : Z := 23.
Definition SOCKADDR_IN_SIZE : Z := 16.
Definition SOCKADDR_IN6_SIZE : Z := 28.

(** [socket_addr_to_ptrs]: the bytes of the [SocketAddrCRepr] and their number. *)
Definition socket_addr_to_ptrs (addr : SocketAddr) : list Z * Z :=
  match addr with
  | V4 octets port =>
      (to_ne_bytes 2 AF_INET ++ to_ne_bytes 2 (to_be 2 port) ++ to_ne_bytes 4 (from_ne_bytes octets) ++ replicate 8 0,
       SOCKADDR_IN_SIZE)
  | V6 octets port flowinfo scope_id =>
      (to_ne_bytes 2 AF_INET6 ++ to_ne_bytes 2 (to_be 2 port) ++ to_ne_bytes 4 flowinfo ++ octets ++ to_ne_bytes 4 scope_id,
       SOCKADDR_IN6_SIZE)
  end.

(** A field of [n] bytes at offset [at_], read in host order. *)
Definition field (mem : list Z) (at_ n : nat) : Z := from_ne_bytes (take n (drop at_ mem)).

(** [Ipv6Addr::new] of eight segments. *)
Definition segment (arr : list Z) (i : nat) : Z :=
  Z.lor (Z.shiftl (default 0 (arr !! (2 * i)%nat)) 8) (default 0 (arr !! (2 * i + 1)%nat)).
Definition ipv6_new (segments : list Z) : list Z := segments ≫= to_be_bytes 2.

(** [ptrs_to_socket_addr]; [len] is an [i32] that the code casts to [usize]. *)
Definition ptrs_to_socket_addr (mem : list Z) (len : Z) : option SocketAddr :=
  let len := Word.wrap len in
  if len <? 4 then None
  else
    let family := field mem 0 2 in
    if (family =? AF_INET) && (SOCKADDR_IN_SIZE <=? len) then
      let ip := ntoh 4 (field mem 4 4) in
      Some (V4 (map (fun k => Z.shiftr ip k mod 256) [24; 16; 8; 0]) (ntoh 2 (field mem 2 2)))
    else if (family =? AF_INET6) && (SOCKADDR_IN6_SIZE <=? len) then
      let arr := take 16 (drop 8 mem) in
      Some (V6 (ipv6_new (map (segment arr) (seq 0 8))) (ntoh 2 (field mem 2 2))
              (ntoh 4 (field mem 4 4)) (ntoh 4 (field mem 24 4)))
    else None.

(** ** Timeouts, buffers and results *)

Definition INFINITE : Z := 4294967295.
Definition U32_MAX : Z := 4294967295.
(** [dur2ms] of a [Duration]: whole seconds (a [u64]) and nanoseconds. *)
Definition dur2ms (dur : option (Z * Z)) : Z :=
  match dur with
  | None => INFINITE
  | Some (secs, nanos) =>
      let ms := secs * 1000 in
      let ms_extra := nanos / 1000000 in
      if (ms <=? Word.usize_max) && (ms + ms_extra <=? Word.usize_max) then Z.min U32_MAX (ms + ms_extra)
      else INFINITE - 1
  end.

(** The length of [slice2buf]. *)
Definition slice2buf (len : Z) : Z := Z.min len U32_MAX.

Definition SOCKET_ERROR : Z := -1.
Definition WSA_IO_PENDING : Z := 997.
(** [last_err], with the result of [WSAGetLastError]. *)
Definition last_err (err : Z) : Z + option Z := if err =? WSA_IO_PENDING then inr None else inl err.
(** [cvt] for socket calls, [cvt_ret] for calls that return a [BOOL]. *)
Definition cvt (i size err : Z) : Z + option Z := if i =? SOCKET_ERROR then last_err err else inr (Some size).
Definition cvt_ret (i err : Z) : Z + bool := if i =? 0 then inl err else inr true.
(** [CompletionPort::get]: whether a status is returned, for the [BOOL] [ret] of
    [GetQueuedCompletionStatus]. *)
Definition get_ok (ret err : Z) : bool := match cvt ret 0 err with inr _ => true | inl _ => false end.

(** ** Bytes *)

Lemma to_be_length n x : length (to_be_bytes n x) = n.
Proof. induction n as [|n IH]; simpl; [done|]. by rewrite IH. Qed.
Lemma to_be_byte n x : Forall is_byte (to_be_bytes n x).
Proof. induction n as [|n IH]; simpl; constructor; [|done]. unfold is_byte. apply Z.mod_pos_bound. lia. Qed.

Lemma pow_byte n : 256 ^ Z.of_nat (S n) = 256 * 256 ^ Z.of_nat n.
Proof. rewrite Nat2Z.inj_succ, Z.pow_succ_r; lia. Qed.
Lemma pow_pos n : 0 < 256 ^ Z.of_nat n.
Proof. apply Z.pow_pos_nonneg; lia. Qed.
Lemma pow_shift n x : Z.shiftr x (8 * Z.of_nat n) = x / 256 ^ Z.of_nat n.
Proof. rewrite Z.shiftr_div_pow2, Z.pow_mul_r by lia. done. Qed.

Lemma from_be_to_be n x : from_be_bytes (to_be_bytes n x) = x mod 256 ^ Z.of_nat n.
Proof.
  induction n as [|n IH]; [simpl; by rewrite Z.mod_1_r|]. cbn [to_be_bytes from_be_bytes].
  rewrite to_be_length, IH, pow_shift, pow_byte. pose proof (pow_pos n).
  rewrite (Z.mul_comm 256), Z.rem_mul_r by lia. lia.
Qed.
Lemma from_be_range l : Forall is_byte l -> 0 <= from_be_bytes l < 256 ^ Z.of_nat (length l).
Proof.
  induction 1 as [|b l Hb _ IH]; cbn [from_be_bytes length]; [done|]. rewrite pow_byte. unfold is_byte in Hb. nia.
Qed.
Lemma from_be_inj l : forall k, Forall is_byte l -> Forall is_byte k -> length l = length k ->
  from_be_bytes l = from_be_bytes k -> l = k.
Proof.
  induction l as [|a l IH]; intros [|b k] Hl Hk Hn H; try done. cbn [from_be_bytes] in H.
  apply Forall_cons in Hl as [Ha Hl]. apply Forall_cons in Hk as [Hb Hk]. injection Hn as Hn.
  pose proof (from_be_range l Hl). pose proof (from_be_range k Hk). rewrite Hn in *.
  assert (a = b) as -> by nia. f_equal. apply IH; [done..|lia].
Qed.
Lemma to_be_from_be l : Forall is_byte l -> to_be_bytes (length l) (from_be_bytes l) = l.
Proof.
  intros Hl. apply from_be_inj; [apply to_be_byte|done|apply to_be_length|].
  rewrite from_be_to_be. apply Z.mod_small, from_be_range, Hl.
Qed.
Lemma from_be_uint n x : is_uint n x -> from_be_bytes (to_be_bytes n x) = x.
Proof. intros H. rewrite from_be_to_be. by apply Z.mod_small. Qed.

Lemma Forall_rev_byte l : Forall is_byte l -> Forall is_byte (rev l).
Proof. rewrite !Forall_forall. intros H x Hx. apply H. by rewrite list_elem_of_In, <- in_rev, <- list_elem_of_In in *. Qed.

Lemma to_ne_length n x : length (to_ne_bytes n x) = n.
Proof. unfold to_ne_bytes. destruct big; rewrite ?length_rev; apply to_be_length. Qed.
Lemma from_to_ne n x : is_uint n x -> from_ne_bytes (to_ne_bytes n x) = x.
Proof. intros H. unfold from_ne_bytes, to_ne_bytes. destruct big; rewrite ?rev_involutive; by apply from_be_uint. Qed.
Lemma to_from_ne l : Forall is_byte l -> to_ne_bytes (length l) (from_ne_bytes l) = l.
Proof.
  intros H. unfold from_ne_bytes, to_ne_bytes. destruct big; [by apply to_be_from_be|].
  pose proof (to_be_from_be _ (Forall_rev_byte _ H)) as Hr. rewrite length_rev in Hr. by rewrite Hr, rev_involutive.
Qed.
Lemma from_ne_range l : Forall is_byte l -> is_uint (length l) (from_ne_bytes l).
Proof.
  intros H. unfold from_ne_bytes, is_uint. destruct big; [by apply from_be_range|].
  pose proof (from_be_range _ (Forall_rev_byte _ H)) as Hr. by rewrite length_rev in Hr.
Qed.

Lemma swap_uint n x : is_uint n (swap_bytes n x).
Proof.
  pose proof (from_be_range _ (Forall_rev_byte _ (to_be_byte n x))) as H. by rewrite length_rev, to_be_length in H.
Qed.
Lemma swap_swap n x : is_uint n x -> swap_bytes n (swap_bytes n x) = x.
Proof.
  intros H. pose proof (to_be_from_be _ (Forall_rev_byte _ (to_be_byte n x))) as Hr.
  rewrite length_rev, to_be_length in Hr. unfold swap_bytes. rewrite Hr, rev_involutive. by apply from_be_uint.
Qed.
Lemma ntoh_to_be n x : is_uint n x -> ntoh n (to_be n x) = x.
Proof. intros H. unfold ntoh, from_be, to_be. destruct big; [done|]. by apply swap_swap. Qed.
Lemma to_be_uint n x : is_uint n x -> is_uint n (to_be n x).
Proof. unfold to_be. destruct big; [done|]. intros _. apply swap_uint. Qed.

(** The network order of octets stored in host order. *)
Lemma ntoh_octets l : Forall is_byte l -> ntoh (length l) (from_ne_bytes l) = from_be_bytes l.
Proof.
  intros H. unfold ntoh, from_be, from_ne_bytes. destruct big; [done|]. unfold swap_bytes.
  pose proof (to_be_from_be _ (Forall_rev_byte _ H)) as Hr. rewrite length_rev in Hr. by rewrite Hr, rev_involutive.
Qed.

Lemma field_app pre n x post :
  is_uint n x -> field (pre ++ to_ne_bytes n x ++ post) (length pre) n = x.
Proof. intros H. unfold field. rewrite drop_app_length, take_app_length' by (by rewrite to_ne_length). by apply from_to_ne. Qed.

(** The fields of a structure given as consecutive pieces. *)
Lemma field_at mem pre n x post k :
  mem = pre ++ to_ne_bytes n x ++ post -> k = length pre -> is_uint n x -> field mem k n = x.
Proof. intros -> ->. apply field_app. Qed.

Lemma ipv4_new ip : map (fun k => Z.shiftr ip k mod 256) [24; 16; 8; 0] = to_be_bytes 4 ip.
Proof. done. Qed.

Lemma segment_bytes arr i a b :
  arr !! (2 * i)%nat = Some a -> arr !! (2 * i + 1)%nat = Some b -> is_byte a -> is_byte b ->
  to_be_bytes 2 (segment arr i) = [a; b].
Proof.
  intros Ha Hb Hba Hbb. unfold segment. rewrite Ha, Hb. unfold default, from_option, id.
  assert (Z.lor (Z.shiftl a 8) b = from_be_bytes [a; b]) as ->.
  { change (from_be_bytes [a; b]) with (a * 2 ^ 8 + (b * 1 + 0)). rewrite Z.shiftl_mul_pow2 by lia.
    rewrite <- Z.add_nocarry_lor; [lia|]. apply Z.bits_inj'. intros k Hk. rewrite Z.land_spec, Z.bits_0.
    destruct (Z.lt_ge_cases k 8) as [Hlt|Hge]; [by rewrite Z.mul_pow2_bits_low|].
    apply andb_false_iff. right. unfold is_byte in Hbb. apply Z.bits_above_log2; [lia|].
    destruct (decide (b = 0)) as [->|]; [simpl; lia|]. apply Z.log2_lt_pow2; [lia|].
    apply Z.lt_le_trans with (2 ^ 8); [lia|]. apply Z.pow_le_mono_r; lia. }
  apply (to_be_from_be [a; b]). by repeat (apply Forall_cons; split).
Qed.

Lemma ipv6_new_octets octets :
  length octets = 16%nat -> Forall is_byte octets -> ipv6_new (map (segment octets) (seq 0 8)) = octets.
Proof.
  intros Hl Hb. do 17 (destruct octets as [|? octets]; try discriminate Hl).
  repeat (apply Forall_cons in Hb as [? Hb]). unfold ipv6_new. cbn [map seq mbind list_bind].
  repeat (erewrite (segment_bytes _ _); [|reflexivity|reflexivity|assumption|assumption]). done.
Qed.

(** ** The round trip *)

(** What a [SocketAddr] can hold. *)
Definition valid (addr : SocketAddr) : Prop :=
  match addr with
  | V4 octets port => length octets = 4%nat /\ Forall is_byte octets /\ is_uint 2 port
  | V6 octets port flowinfo scope_id =>
      length octets = 16%nat /\ Forall is_byte octets /\ is_uint 2 port /\ is_uint 4 flowinfo /\ is_uint 4 scope_id
  end.
(** What comes back. *)
Definition parsed (addr : SocketAddr) : SocketAddr :=
  match addr with
  | V4 _ _ => addr
  | V6 octets port flowinfo scope_id => V6 octets port (ntoh 4 flowinfo) (ntoh 4 scope_id)
  end.

Lemma parse_v4 octets port rest len :
  valid (V4 octets port) -> SOCKADDR_IN_SIZE <= len <= 2147483647 ->
  ptrs_to_socket_addr ((socket_addr_to_ptrs (V4 octets port)).1 ++ rest) len = Some (V4 octets port).
Proof.
  intros (Hl & Hb & Hp) Hlen. unfold ptrs_to_socket_addr.
  assert (Hw : Word.wrap len = len).
  { apply Word.wrap_small. unfold Word.is_usize, Word.usize_max, SOCKADDR_IN_SIZE in *. rewrite Word.modulus_eq. lia. }
  rewrite Hw. destruct (Z.ltb_spec len 4); [unfold SOCKADDR_IN_SIZE in *; lia|]. cbn [fst socket_addr_to_ptrs].
  set (mem := (_ ++ _) ++ rest).
  assert (Hfam : field mem 0 2 = AF_INET).
  { eapply (field_at _ []); [|done|]; [unfold mem; by rewrite <- app_assoc|]. by vm_compute. }
  assert (Hport : field mem 2 2 = to_be 2 port).
  { eapply (field_at _ (to_ne_bytes 2 AF_INET)); [|by rewrite to_ne_length|by apply to_be_uint].
    unfold mem. by rewrite <- !app_assoc. }
  assert (Haddr : field mem 4 4 = from_ne_bytes octets).
  { eapply (field_at _ (to_ne_bytes 2 AF_INET ++ to_ne_bytes 2 (to_be 2 port))).
    - unfold mem. by rewrite <- !app_assoc.
    - by rewrite length_app, !to_ne_length.
    - rewrite <- Hl. by apply from_ne_range. }
  rewrite Hfam, Hport, Haddr. destruct (Z.leb_spec SOCKADDR_IN_SIZE len); [|lia]. cbn [andb Z.eqb].
  rewrite ipv4_new, ntoh_to_be by done. pose proof (ntoh_octets octets Hb) as Ho. rewrite Hl in Ho. rewrite Ho, <- Hl.
  by rewrite to_be_from_be.
Qed.

Lemma parse_v6 octets port flowinfo scope_id rest len :
  valid (V6 octets port flowinfo scope_id) -> SOCKADDR_IN6_SIZE <= len <= 2147483647 ->
  ptrs_to_socket_addr ((socket_addr_to_ptrs (V6 octets port flowinfo scope_id)).1 ++ rest) len =
  Some (V6 octets port (ntoh 4 flowinfo) (ntoh 4 scope_id)).
Proof.
  intros (Hl & Hb & Hp & Hf & Hs) Hlen. unfold ptrs_to_socket_addr.
  assert (Hw : Word.wrap len = len).
  { apply Word.wrap_small. unfold Word.is_usize, Word.usize_max, SOCKADDR_IN6_SIZE in *. rewrite Word.modulus_eq. lia. }
  rewrite Hw. destruct (Z.ltb_spec len 4); [unfold SOCKADDR_IN6_SIZE in *; lia|]. cbn [fst socket_addr_to_ptrs].
  set (mem := (_ ++ _) ++ rest).
  set (fam := to_ne_bytes 2 AF_INET6) in *. set (prt := to_ne_bytes 2 (to_be 2 port)) in *.
  set (flw := to_ne_bytes 4 flowinfo) in *.
  assert (Hlens : length fam = 2%nat /\ length prt = 2%nat /\ length flw = 4%nat) by (unfold fam, prt, flw; by rewrite !to_ne_length).
  destruct Hlens as (L1 & L2 & L3).
  assert (Hfam : field mem 0 2 = AF_INET6).
  { eapply (field_at _ []); [|done|]; [unfold mem; by rewrite <- app_assoc|]. by vm_compute. }
  assert (Hport : field mem 2 2 = to_be 2 port).
  { eapply (field_at _ fam); [|done|by apply to_be_uint]. unfold mem. by rewrite <- !app_assoc. }
  assert (Hflow : field mem 4 4 = flowinfo).
  { eapply (field_at _ (fam ++ prt)); [|by rewrite length_app, L1, L2|done]. unfold mem. by rewrite <- !app_assoc. }
  assert (Hscope : field mem 24 4 = scope_id).
  { eapply (field_at _ (fam ++ prt ++ flw ++ octets)); [|by rewrite !length_app, L1, L2, L3, Hl|done].
    unfold mem. by rewrite <- !app_assoc. }
  assert (Harr : take 16 (drop 8 mem) = octets).
  { unfold mem. replace ((fam ++ prt ++ flw ++ octets ++ to_ne_bytes 4 scope_id) ++ rest) with
      ((fam ++ prt ++ flw) ++ octets ++ to_ne_bytes 4 scope_id ++ rest) by (by rewrite <- !app_assoc).
    rewrite drop_app_length' by (by rewrite !length_app, L1, L2, L3). by apply take_app_length'. }
  rewrite Hfam, Hport, Hflow, Hscope, Harr. destruct (Z.leb_spec SOCKADDR_IN6_SIZE len); [|lia]. cbn [andb Z.eqb].
  rewrite ntoh_to_be, ipv6_new_octets by done. done.
Qed.

(** A socket address that is written for the system and read back, from a buffer
    of any length that holds it, is the same IPv4 address and port; the octets and
    the port of an IPv6 address survive too, but its flow information and scope come
    back with their bytes swapped on a little-endian host, because only the reader
    converts them.  The number of bytes given to the system is the size of the
    structure. *)
Theorem sockaddr_roundtrip addr rest len :
  valid addr -> (socket_addr_to_ptrs addr).2 <= len <= 2147483647 ->
  Z.of_nat (length (socket_addr_to_ptrs addr).1) = (socket_addr_to_ptrs addr).2 /\
  ptrs_to_socket_addr ((socket_addr_to_ptrs addr).1 ++ rest) len = Some (parsed addr) /\
  (big = true -> parsed addr = addr).
Proof.
  intros Hv Hlen. destruct addr as [octets port|octets port flowinfo scope_id].
  - split_and!; [|by apply parse_v4|done]. cbn [fst snd socket_addr_to_ptrs].
    by rewrite !length_app, !to_ne_length, length_replicate.
  - split_and!; [|by apply parse_v6|].
    + destruct Hv as [Hl _]. cbn [fst snd socket_addr_to_ptrs]. by rewrite !length_app, !to_ne_length, Hl.
    + intros Hbig. cbn [parsed]. unfold ntoh, from_be. by rewrite Hbig.
Qed.

End host.

(** ** Concrete values, and what does not come back *)

(** The link-local address of interface 3 is read back with interface 50331648. *)
Definition link_local : SocketAddr := V6 [254; 128; 0; 0; 0; 0; 0; 0; 0; 0; 0; 0; 0; 0; 0; 1] 8080 0 3.
Lemma scope_id_swapped :
  ptrs_to_socket_addr false (socket_addr_to_ptrs false link_local).1 28 =
  Some (V6 [254; 128; 0; 0; 0; 0; 0; 0; 0; 0; 0; 0; 0; 0; 0; 1] 8080 0 50331648).
Proof. by vm_compute. Qed.

(** A finite timeout of [u32::MAX] milliseconds or more, about 49.7 days, is
    [INFINITE], and only one too long to count is capped below it. *)
Lemma dur2ms_infinite secs nanos :
  0 <= secs -> 0 <= nanos -> U32_MAX <= secs * 1000 + nanos / 1000000 <= Word.usize_max ->
  dur2ms (Some (secs, nanos)) = INFINITE.
Proof.
  intros Hs Hn [H1 H2]. unfold dur2ms. assert (0 <= nanos / 1000000) by (apply Z.div_pos; lia).
  rewrite (proj2 (Z.leb_le (secs * 1000) Word.usize_max)) by lia.
  rewrite (proj2 (Z.leb_le _ _) H2). cbn [andb]. unfold INFINITE, U32_MAX in *. lia.
Qed.
(** Shorter ones are exact. *)
Lemma dur2ms_exact secs nanos :
  0 <= secs -> 0 <= nanos -> secs * 1000 + nanos / 1000000 < U32_MAX ->
  dur2ms (Some (secs, nanos)) = secs * 1000 + nanos / 1000000.
Proof.
  intros Hs Hn H. unfold dur2ms. assert (0 <= nanos / 1000000) by (apply Z.div_pos; lia).
  unfold Word.usize_max in *. rewrite Word.modulus_eq. unfold U32_MAX in *.
  rewrite (proj2 (Z.leb_le (secs * 1000) _)) by lia. rewrite (proj2 (Z.leb_le (secs * 1000 + nanos / 1000000) _)) by lia.
  cbn [andb]. lia.
Qed.

(** [get] tests the [BOOL] of [GetQueuedCompletionStatus] with the test for socket
    calls: a failed call, a timeout among them, is reported as a status. *)
Lemma get_failure_is_ok err : get_ok 0 err = true /\ cvt_ret 0 err = inl err.
Proof. done. Qed.

Lemma sockaddr_roundtrip_witness :
  let addr := V4 [127; 0; 0; 1] 8080 in
  ptrs_to_socket_addr false ((socket_addr_to_ptrs false addr).1 ++ repeat 7 112) 128 = Some addr.
Proof.
  intros addr. apply (sockaddr_roundtrip false addr (repeat 7 112) 128).
  - split; [reflexivity|]. split; [repeat (apply Forall_cons; split; [split; [discriminate|reflexivity]|]); apply Forall_nil; exact I|].
    split; [discriminate|reflexivity].
  - vm_compute. split; discriminate.
Defined.

End Wa.
